(* ===== verification/_CoqProject ===== *)
-Q . S2P
Prelude.v
RlpSpec.v
RlpEncode.v
RlpTypes.v
RlpRaw.v
RlpStream.v
RlpWriter.v
RlpDecoder.v
RlpRoundtrip.v
RlpExact.v
RlpTotal.v
Bitutil.v
Compress.v
GoText.v
GoSort.v
Hexutil.v
Math.v
Common.v
ClientMessage.v
ClientChannel.v
Bloom.v
Prque.v
LazyQueue.v
Crypto.v
Transaction.v
Receipt.v
AbiType.v
AbiParse.v
AbiPack.v
AbiUnpack.v
Abi.v
Bind.v
Modular.v
SecpCurve.v
Bn256Field.v
Bn256Curve.v
Bn256Pair.v
Bn256.v
Primality.v
Gfp.v
CfField.v
CfCurve.v
CfPair.v
Matcher.v
MatcherProof.v
LogSearch.v
MatcherLive.v
Json.v
JsonTypes.v
TypesJson.v
Calls.v
ClientBind.v
GoCipher.v
Ecies.v
JsonFloat.v
KeyFile.v
Accounts.v
Feed.v
Manager.v
AccountCache.v
Unlock.v
KeyStore.v
