(* ===== verification/Prelude.v ===== *)
(** * go-fiscobcos: a verification library

    go-fiscobcos is a Go client library for FISCO BCOS nodes, grown out of the
    Ethereum code base.  An application describes a contract by its ABI
    (src/accounts/abi), packs the arguments of calls and transactions, signs
    transactions (src/core/types, src/crypto), encodes them with RLP (src/rlp)
    and hex texts (src/common/hexutil), and sends them over one TLS connection in
    the framing of the channel protocol (src/client); a reader goroutine takes
    the answers, logs and notifications off that connection and hands them to
    the goroutines that wait.  src/accounts/abi/bind puts these together for a
    bound contract.  Underneath lie the byte, number and container packages of
    src/common and the log filters of src/core.

    ** Files, and the code they model

    - Prelude.v: machine integers with their wrap-around, big-endian bytes, the
      development's notations, hints and tactics, lemmas on lists and options.
    - RlpSpec.v: RLP values as trees and the encoding that src/rlp/doc.go
      describes: the abstract specification the rlp files are proved against.
    - RlpEncode.v: src/rlp/encode.go, encbuf with its list headers, the passes
      toBytes and toWriter, and encReader.
    - RlpTypes.v: src/rlp/typecache.go, reflect types and values, struct tags,
      and the errors of the package.
    - RlpRaw.v: src/rlp/raw.go.
    - RlpStream.v: Stream of src/rlp/decode.go, over any reader that satisfies
      the class [ByteReader].
    - RlpWriter.v, RlpDecoder.v: makeWriter and makeDecoder with every function
      they return, EncodeToBytes, EncodeToReader, Encode, Decode, DecodeBytes.
      The closures the source builds are plans, data that an interpreter runs.
    - RlpRoundtrip.v, RlpExact.v, RlpTotal.v: the theorems on the codec as a
      whole.
    - Bitutil.v, Compress.v: src/common/bitutil.
    - GoText.v: the routines of encoding/hex, strconv, fmt and math/big that
      the following files call.
    - GoSort.v: sort.Search and strings.Compare.
    - Hexutil.v: src/common/hexutil; Math.v: src/common/math;
      Common.v: bytes.go and types.go of src/common.
    - ClientMessage.v: src/client/message.go and utils.go, and the reassembly of
      messages in channelClient.readResponse.
    - ClientChannel.v: channelClient of src/client/channel.go as a state machine
      whose labels are the atomic actions of its goroutines.
    - Bloom.v: src/core/types/bloom9.go and src/core/bloombits/generator.go.
    - Prque.v: src/common/prque, the heap algorithm against the class [Heap],
      the stack of blocks, and the queue.
    - Crypto.v: src/crypto/crypto.go and signature_cgo.go, the bindings and the
      marshalling of src/crypto/secp256k1.
    - Transaction.v: transaction.go and transaction_signing.go of src/core/types,
      with the list hash of block.go and src/client/signer.go.
    - Receipt.v: log.go and receipt.go of src/core/types.
    - AbiType.v, AbiParse.v, AbiPack.v, AbiUnpack.v, Abi.v: src/accounts/abi:
      types and their expressions, packing, unpacking, and the description of a
      contract.
    - Bind.v: base.go, topics.go, auth.go and util.go of src/accounts/abi/bind.
    - LazyQueue.v: src/common/prque/lazyqueue.go.
    - Modular.v: arithmetic modulo a prime, the inverse of math/big included;
      SecpCurve.v: the Jacobian arithmetic of src/crypto/secp256k1/curve.go.
    - Bn256Field.v, Bn256Curve.v, Bn256Pair.v, Bn256.v: src/crypto/bn256/google,
      the tower of fields, the curve and its twist, the pairing, and the groups
      with their encodings.
    - Primality.v: the modulus of bn256 is prime, by a certificate.  Gfp.v,
      CfField.v, CfCurve.v, CfPair.v: src/crypto/bn256/cloudflare, the Montgomery
      arithmetic on four words, the tower of fields, the curve with the lattice
      that splits scalars, the twist, and the pairing.
    - Matcher.v: scheduler.go and matcher.go of src/core/bloombits as a state
      machine of the goroutines of one session; MatcherProof.v, MatcherLive.v:
      what a session reports and that it gets on; LogSearch.v: a search over the
      filters of receipts, from Bloom.v to the matcher.
    - Json.v, JsonTypes.v: encoding/json: texts, syntax trees, and values by the
      types that the client decodes into.
    - TypesJson.v: gen_log_json.go, gen_tx_json.go and the JSON methods of
      transaction.go of src/core/types.
    - Calls.v: the typed calls of src/client/channel.go and rpcclient.go over a
      node that answers requests, with the result types of block.go.
    - ClientBind.v: the channel client as the backend of a bound contract.
    - GoCipher.v: block ciphers, their modes and message authentication of the
      standard library; Ecies.v: src/crypto/ecies.
    - JsonFloat.v: the numbers of dynamic JSON; KeyFile.v: key.go, passphrase.go,
      presale.go and plain.go of src/accounts/keystore.
    - Feed.v: src/event/feed.go as a state machine of the calls of its users.
    - Accounts.v: url.go and hd.go of src/accounts; Manager.v: accounts.go,
      manager.go and sort.go, against the class [Wallet].
    - AccountCache.v: account_cache.go, file_cache.go and watch.go of
      src/accounts/keystore; Unlock.v: the unlocked keys of keystore.go as steps
      that interleave; KeyStore.v: keystore.go and wallet.go, against the class
      [KeyStorage] of storages.

    ** Conventions

    Integers are Z with the conversions of the source written out (u8, u16, u32,
    u64, i64); big.Int is Z; a byte is a Z and a byte slice a list of them, with
    the range as a hypothesis where it matters.  A function with an error result
    returns a sum, an outcome or a pair, as the source's callers use it; a panic
    is an outcome of its own, or [None] where a file says so.  A method on a
    pointer takes the value and returns the new one.  The class [ByteReader]
    stands for io.Reader with io.ByteReader, [Heap] for heap.Interface, and
    [HeapSim] relates two heaps; [Secp256k1] is the interface of the C library of
    elliptic-curve operations and [SecpLaws] what is documented of it; [KeyStorage]
    and [KeyStorageLaws] are the interface of the two stores of keys; the record
    [backend] is the node behind a bound contract.  Where a value is shared between goroutines it
    is part of the state of the machines in ClientChannel.v, Matcher.v, Unlock.v and
    Feed.v.

    ** What the theorems show

    - RLP: what the encoder writes is the specified encoding, by all output
      passes alike; decoding gives every represented value back; decoding into
      an interface accepts the canonical encodings and nothing else; decoding
      terminates and does not panic, for every input and every type without
      methods of its own, but for arrays of one byte, arrays of a defined byte
      type and defined pointers to big.Int; the stream keeps its invariant and never reads past a
      list or the input limit; Split and CountValues are exact.
    - bitutil: the word-wise operations equal the byte-wise ones; decompression
      inverts compression, is total, and accepts nothing else.
    - hexutil, math, common: the decoders accept exactly the texts of numbers
      and byte strings in range, JSON round trips, checked arithmetic, 256-bit
      arithmetic and the checksummed texts of addresses.
    - client: a message is put together from its reads, unless the first has
      less than four bytes or the last goes on with the next message; in every
      interleaving a call returns the answer that carries its own id, an answer
      that arrives can be taken, and event logs are delivered in order; and the
      situations in which the code loses an answer or blocks its reader.
    - client calls: what a typed call returns for the JSON a node sends, that the
      two clients agree and where they do not, that a transaction sent is the one the node reads, and
      the calls that cannot work; the JSON of logs with topics is read back, that
      of transactions loses fields.
    - bloom filters: no false negatives, and the generator transposes; a matching
      session reports, in every interleaving, the blocks that meet the rules and
      never gets stuck.
    - prque: the queue refines a multiset, priorities may wrap around, and the
      index callback is exact; the lazy queue refines its specification, but for
      the indices after Reset.
    - elliptic curves: the Jacobian formulas are the group laws of secp256k1 and
      of the curves of bn256, the extension fields are rings, the pairing check
      is a product, points are read back from their encodings.  The words of the
      second bn256 package implement the field, its curves the group laws with
      scalars split in two, and the two packages compute the same pairing; the
      aliased doubling and adding and the negated points for which they do not.
    - feeds: in every interleaving a value reaches each subscription once, and
      nothing but a wrong type panics.
    - ecies: what was encrypted is decrypted, only authentic messages are; the
      curves for which it cannot work.
    - key files: they are read back with their passphrase and with no other,
      storing is all or nothing, and damaged files that do harm.
    - keystore: scans keep the index of accounts equal to the directory, searches
      resolve as stated, and what escapes a scan; unlocked keys are live keys of
      their addresses in every interleaving and stay for their time; the wallets
      of the keystore and of a manager follow the accounts; imported keys are
      stored and sign, deleted ones are gone.
    - accounts: derivation paths and URLs are read back; the manager keeps its
      wallets in order.
    - transactions and receipts: signing and recovering fit together for every
      signer but those of chain id 0 and of a server, signatures bind every
      signed field and one chain, caches agree with what they cache,
      and the RLP forms are read back, those of stored receipts of all versions
      included; the fields that a protected signature leaves out.
    - ABI: type expressions are read back, packing is the specified encoding and
      unpacking inverts it; unpacking any input gives values of the Go types or
      an error, but for the panics that are stated; a description keeps every
      method and event, overloaded ones included.
    - bound contracts: the one transaction that Transact sends and who its
      sender is, that it reaches the node over the channel client, the values
      that Call reads, the topics of filters and the arguments recovered from a
      log, with the indexed ones that are not.
    Some theorems state where the code departs from its documentation or from
    its evident purpose (the sign of EncodeBig, Exp overwriting its argument,
    TestBytes, the result field of a message, BlockNotify after a failure).

    ** Fuel and bounds

    Loops that are not structural take fuel.  In the rlp decoder it is computed
    from the input that is left and RlpTotal.v proves that it is never used up;
    the other loops (reassembly, heap, quantities, Exp, type expressions, names of
    overloaded methods, the search for a random id, the Euclidean algorithm, the
    loops over exponents, the JSON parser, the derivation of keys) are given a
    bound of their data, named where they are defined, and the theorems state the result,
    so that too little fuel would make them false.  Lengths are bounded by
    hypotheses only where the source computes them in a machine word.  The size
    of a word, of uint, of big.Word and of a prque block are parameters.

    ** Not modelled

    Keccak-256, MD5, the C library of secp256k1, block ciphers and hash functions
    are parameters.  Unpacking into Go variables by reflection; the code generator
    of bind; reconnection and configuration of the client;
    the rpc server and its transports; the subscriptions and the TypeMux of the
    event package; the closing of matching sessions; the assembly and the group
    wrappers of bn256/cloudflare; logging, commands and build tools have no model.  Types with EncodeRLP or DecodeRLP
    methods enter the codec as parameters, and self-referential types are left
    out. *)

From stdpp Require Export prelude.
From stdpp Require Import list strings.
From Stdlib Require Export ZArith Lia.

#[export] Set Warnings "-register-all".

(** ** Notations of the development *)

Declare Scope go_scope.
Delimit Scope go_scope with go.
Open Scope go_scope.
Open Scope Z_scope.

(** Go's [len] on slices, strings and arrays. *)
Definition len {A} (l : list A) : Z := Z.of_nat (length l).

(** ** Machine integers *)

(** Conversions to an unsigned integer of the given width wrap around. *)
Definition u8 (z : Z) : Z := z mod 2 ^ 8.
Definition u16 (z : Z) : Z := z mod 2 ^ 16.
Definition u32 (z : Z) : Z := z mod 2 ^ 32.
Definition u64 (z : Z) : Z := z mod 2 ^ 64.

(** Conversions to a signed integer of the given width (two's complement). *)
Definition sint (bits z : Z) : Z :=
  let m := z mod 2 ^ bits in
  if m <? 2 ^ (bits - 1) then m else m - 2 ^ bits.
Definition i32 (z : Z) : Z := sint 32 z.
Definition i64 (z : Z) : Z := sint 64 z.
Lemma i64_id z : 0 <= z < 2 ^ 63 -> i64 z = z.
Proof. intros Hz. unfold i64, sint. rewrite Z.mod_small by lia. destruct (Z.ltb_spec z (2 ^ (64 - 1))); lia. Qed.

Definition byte_ok (b : Z) : Prop := 0 <= b < 256.
Definition bytes_ok (l : list Z) : Prop := Forall byte_ok l.
Definition u64_ok (z : Z) : Prop := 0 <= z < 2 ^ 64.

(** ** Outcomes of Go calls

    A call returns a value, returns a non-nil error, or panics.  Loops that
    are not structurally recursive carry fuel, and running out of it is kept
    apart from every behaviour of the code. *)
Inductive outcome (E A : Type) : Type :=
| Ok (a : A)
| Err (e : E)
| Panic
| OutOfFuel.
Arguments Ok {E A} _.
Arguments Err {E A} _.
Arguments Panic {E A}.
Arguments OutOfFuel {E A}.

Definition obind {E A B} (m : outcome E A) (f : A -> outcome E B) : outcome E B :=
  match m with
  | Ok a => f a
  | Err e => Err e
  | Panic => Panic
  | OutOfFuel => OutOfFuel
  end.

Notation "'let?' x := m 'in' k" := (obind m (fun x => k))
  (at level 10, x pattern, m at level 100, k at level 200) : go_scope.

Definition of_option {E A} (o : option A) : outcome E A :=
  match o with Some a => Ok a | None => Panic end.

(** ** Slices *)

(** [l[lo:hi]]; [None] is the run-time panic of a slice out of range. *)
Definition go_slice {A} (l : list A) (lo hi : Z) : option (list A) :=
  if (0 <=? lo) && (lo <=? hi) && (hi <=? len l)
  then Some (take (Z.to_nat (hi - lo)) (drop (Z.to_nat lo) l)) else None.

(** [l[lo:]] *)
Definition go_from {A} (l : list A) (lo : Z) : option (list A) :=
  go_slice l lo (len l).

(** [copy(dst, src)]: the destination after the copy; it copies
    [min (len dst) (len src)] elements. *)
Definition go_copy {A} (dst src : list A) : list A :=
  take (length dst) src ++ drop (length src) dst.

(** [copy(l[at:], src)] *)
Definition go_copy_at {A} (l : list A) (i : Z) (src : list A) : option (list A) :=
  if (0 <=? i) && (i <=? len l)
  then Some (take (Z.to_nat i) l ++ go_copy (drop (Z.to_nat i) l) src) else None.

(** [l[i]] with an index of type int. *)
Definition go_index {A} (l : list A) (i : Z) : option A :=
  if 0 <=? i then l !! Z.to_nat i else None.

(** Assigning [b[0], b[1], ...] the given values: a panic when [b] is too short. *)
Definition store (b vs : list Z) : option (list Z) :=
  if len vs <=? len b then Some (vs ++ drop (length vs) b) else None.

Definition zeros (n : Z) : list Z := replicate (Z.to_nat n) 0.

(** ** Big-endian numbers *)

(** The number a big-endian byte string denotes (big.Int.SetBytes,
    binary.BigEndian.Uint64). *)
Definition be_val (l : list Z) : Z := foldl (fun acc b => acc * 256 + b) 0 l.

(** [n] big-endian bytes of [z]. *)
Fixpoint be_bytes (n : nat) (z : Z) : list Z :=
  match n with
  | O => []
  | S k => be_bytes k (z / 256) ++ [z mod 256]
  end.

(** big.Int.BitLen of the absolute value. *)
Definition bit_len (z : Z) : Z := if z =? 0 then 0 else Z.log2 (Z.abs z) + 1.

(** big.Int.Bytes: the absolute value, big-endian, without leading zeros. *)
Definition big_bytes (z : Z) : list Z :=
  be_bytes (Z.to_nat ((bit_len z + 7) / 8)) (Z.abs z).

(** ** Tactics *)

(** Turn the boolean tests of the code into propositions. *)
Ltac bprop :=
  repeat match goal with
  | H : context [(?a =? ?b)] |- _ => destruct (Z.eqb_spec a b)
  | H : context [(?a <? ?b)] |- _ => destruct (Z.ltb_spec a b)
  | H : context [(?a <=? ?b)] |- _ => destruct (Z.leb_spec a b)
  | |- context [(?a =? ?b)] => destruct (Z.eqb_spec a b)
  | |- context [(?a <? ?b)] => destruct (Z.ltb_spec a b)
  | |- context [(?a <=? ?b)] => destruct (Z.leb_spec a b)
  end; simpl in *; try discriminate; try lia.

Create HintDb go.
Create Rewrite HintDb go_len.

(** ** Lemmas on lengths, slices and copies *)

Lemma lookup_map {A B} (f : A -> B) l i : map f l !! i = f <$> l !! i.
Proof. apply list_lookup_fmap. Qed.

Lemma len_nonneg {A} (l : list A) : 0 <= len l.
Proof. unfold len. lia. Qed.

Lemma len_app {A} (l k : list A) : len (l ++ k) = len l + len k.
Proof. unfold len. rewrite length_app. lia. Qed.

Lemma len_cons {A} (x : A) l : len (x :: l) = 1 + len l.
Proof. unfold len. simpl length. lia. Qed.

Lemma len_nil {A} : len (@nil A) = 0.
Proof. reflexivity. Qed.

Lemma len_zero_nil {A} (l : list A) : len l = 0 -> l = [].
Proof. unfold len. destruct l; simpl; [done | lia]. Qed.

Lemma len_take {A} n (l : list A) : len (take n l) = Z.min (Z.of_nat n) (len l).
Proof. unfold len. rewrite length_take. lia. Qed.

Lemma len_drop {A} n (l : list A) : len (drop n l) = Z.max 0 (len l - Z.of_nat n).
Proof. unfold len. rewrite length_drop. lia. Qed.

Lemma len_zeros n : 0 <= n -> len (zeros n) = n.
Proof. intros. unfold len, zeros. rewrite length_replicate. lia. Qed.

Lemma to_nat_len {A} (l : list A) : Z.to_nat (len l) = length l.
Proof. unfold len. lia. Qed.

Lemma go_slice_app {A} (a b c : list A) :
  go_slice (a ++ b ++ c) (len a) (len a + len b) = Some b.
Proof.
  pose proof (len_nonneg a). pose proof (len_nonneg b). pose proof (len_nonneg c).
  unfold go_slice. rewrite !len_app.
  replace (len a + len b - len a) with (len b) by lia.
  destruct (Z.leb_spec 0 (len a)), (Z.leb_spec (len a) (len a + len b)),
    (Z.leb_spec (len a + len b) (len a + (len b + len c))); simpl; try lia.
  by rewrite !to_nat_len, drop_app_length, take_app_length.
Qed.

Lemma go_from_app {A} (a b : list A) : go_from (a ++ b) (len a) = Some b.
Proof.
  unfold go_from. rewrite len_app.
  pose proof (go_slice_app a b []) as H. by rewrite app_nil_r in H.
Qed.

Lemma go_copy_exact {A} (d s t : list A) :
  length d = length s -> go_copy (d ++ t) s = s ++ t.
Proof.
  intros E. unfold go_copy.
  rewrite take_ge by (rewrite length_app; lia).
  by rewrite <- E, drop_app_length.
Qed.

Lemma go_copy_length {A} (d s : list A) : length (go_copy d s) = length d.
Proof. unfold go_copy. rewrite length_app, length_take, length_drop. lia. Qed.

Lemma store_app b vs t :
  length b = length vs -> store (b ++ t) vs = Some (vs ++ t).
Proof.
  intros E. unfold store. rewrite len_app. pose proof (len_nonneg t).
  unfold len in *. rewrite E.
  destruct (Z.leb_spec (Z.of_nat (length vs)) (Z.of_nat (length vs) + Z.of_nat (length t))); [|lia].
  by rewrite <- E, drop_app_length.
Qed.

(** ** Lemmas on bytes and big-endian numbers *)

Lemma bytes_ok_app l k : bytes_ok (l ++ k) <-> bytes_ok l /\ bytes_ok k.
Proof. apply Forall_app. Qed.

Lemma bytes_ok_take n l : bytes_ok l -> bytes_ok (take n l).
Proof. apply Forall_take. Qed.

Lemma bytes_ok_drop n l : bytes_ok l -> bytes_ok (drop n l).
Proof. apply Forall_drop. Qed.

Lemma u8_ok z : byte_ok (u8 z).
Proof. unfold u8, byte_ok. apply Z.mod_pos_bound. lia. Qed.

Lemma u8_small z : byte_ok z -> u8 z = z.
Proof. intros []. unfold u8. by apply Z.mod_small. Qed.

Lemma u64_small z : u64_ok z -> u64 z = z.
Proof. intros []. unfold u64. by apply Z.mod_small. Qed.

Lemma u64_u64_ok z : u64_ok (u64 z).
Proof. unfold u64, u64_ok. apply Z.mod_pos_bound. lia. Qed.

Lemma foldl_be_val acc l :
  foldl (fun a b => a * 256 + b) acc l = acc * 256 ^ len l + be_val l.
Proof.
  unfold be_val. revert acc. induction l as [|x l IH]; intros acc; simpl.
  - rewrite len_nil. lia.
  - rewrite IH, (IH (0 * 256 + x)), len_cons, Z.pow_add_r by (pose proof (len_nonneg l); lia).
    lia.
Qed.

Lemma be_val_app l k : be_val (l ++ k) = be_val l * 256 ^ len k + be_val k.
Proof. unfold be_val at 1. by rewrite foldl_app, foldl_be_val. Qed.

Lemma be_val_cons x l : be_val (x :: l) = x * 256 ^ len l + be_val l.
Proof. unfold be_val at 1. simpl. rewrite foldl_be_val. lia. Qed.

Lemma be_val_snoc l x : be_val (l ++ [x]) = be_val l * 256 + x.
Proof. rewrite be_val_app. unfold be_val at 2. simpl. change (len [x]) with 1. lia. Qed.

Lemma be_val_bound l : bytes_ok l -> 0 <= be_val l < 256 ^ len l.
Proof.
  induction l as [|x l IH]; intros H; [done|].
  apply Forall_cons in H as [Hx Hl]. specialize (IH Hl). unfold byte_ok in Hx.
  rewrite be_val_cons, len_cons, Z.pow_add_r by (pose proof (len_nonneg l); lia).
  nia.
Qed.

Lemma be_bytes_length n z : length (be_bytes n z) = n.
Proof.
  revert z. induction n as [|n IH]; intros z; simpl; [done|].
  rewrite length_app, IH. simpl. lia.
Qed.

Lemma be_bytes_ok n z : bytes_ok (be_bytes n z).
Proof.
  revert z. induction n as [|n IH]; intros z; simpl; [constructor|].
  apply bytes_ok_app. split; [apply IH|].
  constructor; [|constructor]. unfold byte_ok. apply Z.mod_pos_bound. lia.
Qed.

Lemma be_val_be_bytes n z : be_val (be_bytes n z) = z mod 256 ^ Z.of_nat n.
Proof.
  revert z. induction n as [|n IH]; intros z; simpl be_bytes.
  - by rewrite Z.mod_1_r.
  - rewrite be_val_snoc, IH, Nat2Z.inj_succ, Z.pow_succ_r by lia.
    rewrite Z.rem_mul_r by (try lia; apply Z.pow_nonzero; lia). lia.
Qed.

Lemma be_bytes_be_val l : bytes_ok l -> be_bytes (length l) (be_val l) = l.
Proof.
  induction l as [|x l IH] using rev_ind; intros H; [done|].
  apply bytes_ok_app in H as [Hl Hx]. inversion Hx as [|? ? Hb _]; subst.
  unfold byte_ok in Hb.
  rewrite length_app, Nat.add_comm. simpl. rewrite be_val_snoc.
  rewrite Z.div_add_l, Z.div_small, Z.add_0_r, IH by (done || lia).
  rewrite Z.add_comm, Z.mod_add, Z.mod_small by lia. done.
Qed.

Lemma be_val_inj l k :
  length l = length k -> bytes_ok l -> bytes_ok k -> be_val l = be_val k -> l = k.
Proof.
  intros E Hl Hk V. rewrite <- (be_bytes_be_val l), <- (be_bytes_be_val k) by done.
  congruence.
Qed.

(** The number of bytes [big.Int.Bytes] returns. *)
Lemma big_bytes_length_bounds z n :
  0 < z -> 0 <= n -> 256 ^ n <= z < 256 ^ (n + 1) ->
  length (big_bytes z) = Z.to_nat (n + 1).
Proof.
  intros Hz Hn [Hlo Hhi]. unfold big_bytes, bit_len. rewrite be_bytes_length.
  destruct (Z.eqb_spec z 0); [lia|]. rewrite Z.abs_eq by lia. f_equal.
  change 256 with (2 ^ 8) in Hlo, Hhi. rewrite <- Z.pow_mul_r in Hlo, Hhi by lia.
  apply Z.log2_le_pow2 in Hlo; [|lia]. apply Z.log2_lt_pow2 in Hhi; [|lia].
  symmetry. apply Z.div_unique with (r := Z.log2 z + 1 + 7 - 8 * (n + 1)); lia.
Qed.

Lemma be_val_big_bytes z : 0 <= z -> be_val (big_bytes z) = z.
Proof.
  intros Hz. unfold big_bytes. rewrite be_val_be_bytes, Z.abs_eq by done.
  apply Z.mod_small. split; [done|]. unfold bit_len.
  destruct (Z.eqb_spec z 0) as [->|]; [done|]. rewrite Z.abs_eq by done.
  pose proof (Z.log2_nonneg z) as Hl.
  assert (Z.log2 z + 1 <= 8 * ((Z.log2 z + 1 + 7) / 8)).
  { pose proof (Z.div_mod (Z.log2 z + 1 + 7) 8). pose proof (Z.mod_pos_bound (Z.log2 z + 1 + 7) 8). lia. }
  rewrite Z2Nat.id by (apply Z.div_pos; lia).
  change 256 with (2 ^ 8). rewrite <- Z.pow_mul_r by (try apply Z.div_pos; lia).
  eapply Z.lt_le_trans; [apply (Z.log2_spec z); lia|].
  apply Z.pow_le_mono_r; lia.
Qed.

Lemma big_bytes_ok z : bytes_ok (big_bytes z).
Proof. apply be_bytes_ok. Qed.

(** A big-endian string with a non-zero first byte is the one [big.Int.Bytes]
    gives back. *)
Lemma big_bytes_be_val l :
  bytes_ok l -> head l <> Some 0 -> big_bytes (be_val l) = l.
Proof.
  intros Hl Hh. destruct l as [|x l]; [done|].
  apply Forall_cons in Hl as [Hx Hl]. unfold byte_ok in Hx.
  assert (x <> 0) by (simpl in Hh; congruence).
  pose proof (be_val_bound l Hl). pose proof (len_nonneg l).
  assert (0 < 256 ^ len l) by (apply Z.pow_pos_nonneg; lia).
  assert (B : 256 ^ len l <= be_val (x :: l) < 256 ^ (len l + 1)).
  { rewrite be_val_cons, Z.pow_add_r by lia. nia. }
  assert (L : length (big_bytes (be_val (x :: l))) = length (x :: l)).
  { rewrite (big_bytes_length_bounds _ (len l)) by lia. simpl. unfold len. lia. }
  apply be_val_inj; [done|apply big_bytes_ok| |apply be_val_big_bytes; lia].
  constructor; [done|done].
Qed.

Lemma big_bytes_head z : 0 < z -> exists b t, big_bytes z = b :: t /\ 0 < b < 256.
Proof.
  intros Hz. pose proof (big_bytes_ok z) as Ho. pose proof (be_val_big_bytes z) as Hv.
  destruct (Z.log2_spec z Hz) as [Hlo Hhi]. pose proof (Z.log2_nonneg z).
  set (n := Z.log2 z / 8) in *.
  assert (D : Z.log2 z = 8 * n + Z.log2 z mod 8) by (apply Z.div_mod; lia).
  pose proof (Z.mod_pos_bound (Z.log2 z) 8 ltac:(lia)).
  assert (0 <= n) by (apply Z.div_pos; lia).
  assert (B : 256 ^ n <= z < 256 ^ (n + 1)).
  { change 256 with (2 ^ 8). rewrite <- !Z.pow_mul_r by lia. split.
    - eapply Z.le_trans; [|done]. apply Z.pow_le_mono_r; lia.
    - eapply Z.lt_le_trans; [done|]. apply Z.pow_le_mono_r; lia. }
  pose proof (big_bytes_length_bounds z n Hz ltac:(done) B) as L.
  destruct (big_bytes z) as [|b t]; [simpl in L; lia|].
  exists b, t. split; [done|]. apply Forall_cons in Ho as [Hb Ht]. unfold byte_ok in Hb.
  enough (b <> 0) by lia. intros ->. specialize (Hv ltac:(lia)).
  rewrite be_val_cons in Hv. pose proof (be_val_bound t Ht).
  assert (En : len t = n) by (unfold len; simpl in L; lia). rewrite En in *. lia.
Qed.

Lemma big_bytes_len_pos z : 0 < z -> 1 <= len (big_bytes z).
Proof.
  intros Hz. destruct (big_bytes_head z Hz) as (b & t & -> & _).
  rewrite len_cons. pose proof (len_nonneg t). lia.
Qed.

Lemma big_bytes_len_le z n : 0 <= z < 256 ^ Z.of_nat n -> len (big_bytes z) <= Z.of_nat n.
Proof.
  intros [Hz Hn]. destruct (decide (z = 0)) as [->|]; [unfold len; simpl; lia|].
  destruct (big_bytes_head z ltac:(lia)) as (b & t & E & Hb).
  pose proof (be_val_big_bytes z Hz) as Hv. pose proof (big_bytes_ok z) as Ho.
  rewrite E in *. apply Forall_cons in Ho as [_ Ht].
  rewrite be_val_cons in Hv. pose proof (be_val_bound t Ht). rewrite len_cons.
  destruct (decide (1 + len t <= Z.of_nat n)) as [|C]; [done|]. exfalso.
  assert (256 ^ Z.of_nat n <= 256 ^ len t) by (apply Z.pow_le_mono_r; lia).
  nia.
Qed.

#[export] Hint Resolve len_nonneg u8_ok u64_u64_ok be_bytes_ok big_bytes_ok : go.
#[export] Hint Rewrite @len_app @len_cons @len_nil @len_take @len_drop : go_len.

Ltac len_simpl := autorewrite with go_len in *.

(** Shifted numbers and low bits do not overlap. *)
Lemma lor_shiftl_low a y k :
  0 <= k -> 0 <= y < 2 ^ k -> Z.lor (Z.shiftl a k) y = Z.shiftl a k + y.
Proof.
  intros Hk Hy. rewrite <- (Z.add_lor_land (Z.shiftl a k) y).
  replace (Z.land (Z.shiftl a k) y) with 0; [lia|]. symmetry.
  apply Z.bits_inj'. intros n Hn. rewrite Z.bits_0, Z.land_spec.
  destruct (Z.ltb_spec n k).
  - by rewrite Z.shiftl_spec_low.
  - rewrite <- (Z.mod_small y (2 ^ k)), Z.mod_pow2_bits_high by lia.
    apply andb_false_r.
Qed.

(** Filling a buffer of zeros from the right gives the bytes of the number. *)
Lemma padded_big_bytes n v : 0 <= v < 256 ^ Z.of_nat n -> zeros (Z.of_nat n - len (big_bytes v)) ++ big_bytes v = be_bytes n v.
Proof.
  intros Hv. pose proof (big_bytes_len_le v n Hv). pose proof (len_nonneg (big_bytes v)). apply be_val_inj.
  - rewrite length_app, be_bytes_length. unfold zeros, len in *. rewrite length_replicate. lia.
  - apply bytes_ok_app. split; [|auto with go]. unfold zeros. by apply Forall_replicate.
  - auto with go.
  - rewrite be_val_app, be_val_big_bytes, be_val_be_bytes, Z.mod_small by lia. unfold zeros.
    assert (be_val (replicate (Z.to_nat (Z.of_nat n - len (big_bytes v))) 0) = 0) as ->; [|lia].
    induction (Z.to_nat _) as [|k IH]; [done|]. cbn [replicate]. rewrite be_val_cons, IH. lia.
Qed.
