(* ===== verification/RlpSpec.v ===== *)
(** * RLP: the abstract specification

    RLP values as trees of byte strings and lists, and the encoding function
    src/rlp/doc.go describes.  The encoder (RlpEncode.v, RlpWriter.v), the
    streaming decoder (RlpStream.v, RlpDecoder.v) and the slice-based helpers
    (RlpRaw.v) are proved against it. *)

From S2P Require Import Prelude.

(** The kind of value a header announces (decode.go, type Kind).  The source's
    -1, no value ahead, is [None] in [option Kind]. *)
Inductive Kind : Type := KByte | KString | KList.

#[export] Instance Kind_eq_dec : EqDecision Kind.
Proof. solve_decision. Defined.

(** An RLP value. *)
Inductive item : Type :=
| Str (bs : list Z)
| Lst (its : list item).

(** A string or list header for a payload of [n] bytes. *)
Definition enc_head (small large n : Z) : list Z :=
  if n <? 56 then [small + n] else (large + len (big_bytes n)) :: big_bytes n.

Definition str_head (n : Z) : list Z := enc_head 0x80 0xB7 n.
Definition list_head (n : Z) : list Z := enc_head 0xC0 0xF7 n.

(** A single byte below 0x80 is its own encoding. *)
Definition self_byte (bs : list Z) : bool :=
  match bs with [b] => b <? 128 | _ => false end.

Definition enc_str (bs : list Z) : list Z :=
  if self_byte bs then bs else str_head (len bs) ++ bs.

Fixpoint rlp_enc (it : item) : list Z :=
  match it with
  | Str bs => enc_str bs
  | Lst its => let p := concat (map rlp_enc its) in list_head (len p) ++ p
  end.

Definition rlp_encs (its : list item) : list Z := concat (map rlp_enc its).

(** The parts of an encoding: its kind, header and payload. *)
Definition item_kind (it : item) : Kind :=
  match it with
  | Str bs => if self_byte bs then KByte else KString
  | Lst _ => KList
  end.
Definition payload (it : item) : list Z :=
  match it with Str bs => bs | Lst its => rlp_encs its end.
Definition kind_head (k : Kind) (n : Z) : list Z :=
  match k with KByte => [] | KString => str_head n | KList => list_head n end.

(** All bytes of the tree are bytes. *)
Fixpoint item_bytes_ok (it : item) : Prop :=
  match it with
  | Str bs => bytes_ok bs
  | Lst its => foldr (fun i P => item_bytes_ok i /\ P) True its
  end.

(** A value whose encoding has a length that fits 64 bits: only those can be
    encoded, since headers carry the payload length in at most eight bytes. *)
Definition item_ok (it : item) : Prop :=
  item_bytes_ok it /\ len (rlp_enc it) < 2 ^ 64.

(** ** Induction over trees *)

Section ItemInd.
Variable P : item -> Prop.
Hypothesis HStr : forall bs, P (Str bs).
Hypothesis HLst : forall its, Forall P its -> P (Lst its).

Fixpoint item_tree_ind (it : item) : P it :=
  match it with
  | Str bs => HStr bs
  | Lst its =>
      HLst its ((fix go (l : list item) : Forall P l :=
        match l with
        | [] => Forall_nil_2 P
        | i :: l' => Forall_cons_2 P i l' (item_tree_ind i) (go l')
        end) its)
  end.
End ItemInd.

#[export] Instance item_eq_dec : EqDecision item.
Proof.
  refine (fix go (x y : item) : Decision (x = y) :=
    match x, y with
    | Str a, Str b => cast_if (decide (a = b))
    | Lst a, Lst b =>
        cast_if (@decide (a = b) (@list_eq_dec item go a b))
    | _, _ => right _
    end); clear go; abstract congruence.
Defined.

(** ** Headers *)

Lemma rlp_enc_parts it :
  rlp_enc it = kind_head (item_kind it) (len (payload it)) ++ payload it.
Proof.
  destruct it as [bs|its]; simpl; [|done].
  unfold enc_str. by destruct (self_byte bs).
Qed.

Lemma enc_head_small small large n : n < 56 -> enc_head small large n = [small + n].
Proof. intros H. unfold enc_head. bprop. done. Qed.

Lemma enc_head_large small large n :
  56 <= n -> enc_head small large n = (large + len (big_bytes n)) :: big_bytes n.
Proof. intros H. unfold enc_head. bprop. done. Qed.

(** A 64-bit size needs one to eight bytes. *)
Lemma size_bytes_range n : 56 <= n < 2 ^ 64 -> 1 <= len (big_bytes n) <= 8.
Proof.
  intros H. split; [apply big_bytes_len_pos; lia|].
  apply (big_bytes_len_le n 8). simpl. lia.
Qed.

Lemma enc_head_len_pos small large n : 1 <= len (enc_head small large n).
Proof.
  unfold enc_head. pose proof (len_nonneg (big_bytes n)). bprop; len_simpl; lia.
Qed.

Lemma enc_head_inj small large n m :
  0 <= n -> 0 <= m -> enc_head small large n = enc_head small large m ->
  (56 <= n <-> 56 <= m) -> n = m.
Proof.
  intros Hn Hm E B. unfold enc_head in E. bprop; injection E; intros; try lia.
  rewrite <- (be_val_big_bytes n), <- (be_val_big_bytes m) by done. congruence.
Qed.

Lemma self_byte_spec bs : self_byte bs = true <-> exists b, bs = [b] /\ b < 128.
Proof.
  unfold self_byte. destruct bs as [|b [|? ?]]; split; try done.
  - intros (? & ? & _). done.
  - intros H. exists b. split; [done|]. lia.
  - intros (? & [= ->] & H). lia.
  - intros (? & ? & _). done.
Qed.

Lemma rlp_enc_len_pos it : 1 <= len (rlp_enc it).
Proof.
  destruct it as [bs|its]; simpl.
  - unfold enc_str. destruct (self_byte bs) eqn:E.
    + apply self_byte_spec in E as (b & -> & _). done.
    + unfold str_head. len_simpl. pose proof (enc_head_len_pos 0x80 0xB7 (len bs)).
      pose proof (len_nonneg bs). lia.
  - unfold list_head. len_simpl. pose proof (enc_head_len_pos 0xC0 0xF7 (len (rlp_encs its))).
    pose proof (len_nonneg (rlp_encs its)). unfold rlp_encs in *. lia.
Qed.

Lemma rlp_enc_not_nil it : rlp_enc it <> [].
Proof. intros E. pose proof (rlp_enc_len_pos it) as H. rewrite E in H. done. Qed.

(** ** Sequences of values *)

Lemma rlp_encs_cons it its : rlp_encs (it :: its) = rlp_enc it ++ rlp_encs its.
Proof. done. Qed.

Lemma rlp_encs_app a b : rlp_encs (a ++ b) = rlp_encs a ++ rlp_encs b.
Proof. unfold rlp_encs. by rewrite map_app, concat_app. Qed.

Lemma rlp_enc_lst its : rlp_enc (Lst its) = list_head (len (rlp_encs its)) ++ rlp_encs its.
Proof. done. Qed.

Lemma rlp_encs_nil_inv its : rlp_encs its = [] -> its = [].
Proof.
  destruct its as [|i its]; [done|]. rewrite rlp_encs_cons. intros H.
  apply app_eq_nil in H as [H _]. by apply rlp_enc_not_nil in H.
Qed.

Lemma item_bytes_ok_lst its : item_bytes_ok (Lst its) <-> Forall item_bytes_ok its.
Proof.
  simpl. induction its as [|i its IH]; simpl; [done|].
  rewrite Forall_cons. tauto.
Qed.

Lemma payload_len_lt it : len (payload it) <= len (rlp_enc it).
Proof.
  rewrite rlp_enc_parts, len_app.
  pose proof (len_nonneg (kind_head (item_kind it) (len (payload it)))). lia.
Qed.

Lemma items_ok its :
  item_ok (Lst its) -> Forall item_ok its /\ len (rlp_encs its) < 2 ^ 64.
Proof.
  intros [Hb Hl]. apply item_bytes_ok_lst in Hb.
  assert (L : len (rlp_encs its) < 2 ^ 64).
  { pose proof (payload_len_lt (Lst its)). simpl payload in *. lia. }
  split; [|done]. clear Hl. induction its as [|i its IH]; [constructor|].
  apply Forall_cons in Hb as [Hi Hb]. rewrite rlp_encs_cons, len_app in L.
  pose proof (len_nonneg (rlp_enc i)). pose proof (len_nonneg (rlp_encs its)).
  constructor; [split; [done|lia]|]. apply IH; [done|lia].
Qed.

Lemma enc_head_bytes_ok small large n :
  0 <= small <= 0xC8 -> 0 <= large <= 0xF7 -> 0 <= n < 2 ^ 64 ->
  bytes_ok (enc_head small large n).
Proof.
  intros Hs Hl Hn. unfold enc_head. destruct (Z.ltb_spec n 56).
  - constructor; [|constructor]. unfold byte_ok. lia.
  - pose proof (size_bytes_range n ltac:(lia)).
    constructor; [unfold byte_ok; lia|apply big_bytes_ok].
Qed.

(** The encoding of a well-formed value consists of bytes. *)
Lemma rlp_enc_bytes_ok it : item_ok it -> bytes_ok (rlp_enc it).
Proof.
  induction it as [bs|its IH] using item_tree_ind; intros [Hb Hl].
  - simpl in *. unfold enc_str in *. destruct (self_byte bs); [done|].
    apply bytes_ok_app. split; [|done]. rewrite len_app in Hl.
    pose proof (enc_head_len_pos 0x80 0xB7 (len bs)). pose proof (len_nonneg bs).
    unfold str_head in *. apply enc_head_bytes_ok; lia.
  - destruct (items_ok its (conj Hb Hl)) as [Hits L].
    rewrite rlp_enc_lst. apply bytes_ok_app. split.
    { apply enc_head_bytes_ok; pose proof (len_nonneg (rlp_encs its)); lia. }
    clear Hb Hl L. induction its as [|i its IHl]; [constructor|].
    apply Forall_cons in IH as [Hi IH]. apply Forall_cons in Hits as [Hk Hits].
    rewrite rlp_encs_cons. apply bytes_ok_app. auto.
Qed.

#[export] Hint Resolve rlp_enc_len_pos rlp_enc_not_nil : go.
