(* ===== verification/RlpEncode.v ===== *)
(** * RLP encode buffer (src/rlp/encode.go)

    The two-pass encoder: [encbuf] collects string data and list headers
    separately, and the output passes ([toBytes], [toWriter], [encReader])
    interleave them.  The theorems show that a buffer filled by balanced
    [list]/[listEnd] calls renders to the specification of RlpSpec.v, that no
    pass can panic, and that all three output passes agree. *)

From S2P Require Import Prelude RlpSpec.

(** ** Integers and headers *)

(** The loop of [intsize]; a uint64 needs at most seven further rounds. *)
Fixpoint intsize_loop (fuel : nat) (i size : Z) : Z :=
  let i' := Z.shiftr i 8 in
  if i' =? 0 then size
  else match fuel with O => size | S f => intsize_loop f i' (size + 1) end.

Definition intsize (i : Z) : Z := intsize_loop 7 i 1.

Definition headsize (size : Z) : Z := if size <? 56 then 1 else 1 + intsize size.

(** [putint b i]: the buffer afterwards and the number of bytes written. *)
Definition putint (b : list Z) (i : Z) : option (list Z * Z) :=
  let at_ s := u8 (Z.shiftr i s) in
  let put vs := (fun b' => (b', len vs)) <$> store b vs in
  if i <? Z.shiftl 1 8 then put [u8 i]
  else if i <? Z.shiftl 1 16 then put [at_ 8; u8 i]
  else if i <? Z.shiftl 1 24 then put [at_ 16; at_ 8; u8 i]
  else if i <? Z.shiftl 1 32 then put [at_ 24; at_ 16; at_ 8; u8 i]
  else if i <? Z.shiftl 1 40 then put [at_ 32; at_ 24; at_ 16; at_ 8; u8 i]
  else if i <? Z.shiftl 1 48 then put [at_ 40; at_ 32; at_ 24; at_ 16; at_ 8; u8 i]
  else if i <? Z.shiftl 1 56 then
    put [at_ 48; at_ 40; at_ 32; at_ 24; at_ 16; at_ 8; u8 i]
  else put [at_ 56; at_ 48; at_ 40; at_ 32; at_ 24; at_ 16; at_ 8; u8 i].

Definition puthead (buf : list Z) (smalltag largetag size : Z) : option (list Z * Z) :=
  if size <? 56 then
    (fun b' => (b', 1)) <$> store buf [u8 (smalltag + u8 size)]
  else
    match buf with
    | [] => None
    | _ :: tl =>
        '(b', sizesize) ← putint tl size;
        Some (u8 (largetag + u8 sizesize) :: b', sizesize + 1)
    end.

(** ** The encode buffer *)

Record listhead : Type := Listhead {
  offset : Z;      (* index of this header in string data *)
  lh_size : Z      (* total size of encoded data (including list headers) *)
}.

Record encbuf : Type := Encbuf {
  str : list Z;              (* string data, everything except list headers *)
  lheads : list listhead;    (* all list headers *)
  lhsize : Z;                (* sum of sizes of all encoded list headers *)
  sizebuf : list Z           (* 9-byte auxiliary buffer for uint encoding *)
}.

Definition set_str (s : list Z) (w : encbuf) : encbuf :=
  Encbuf s (lheads w) (lhsize w) (sizebuf w).

(** A buffer fresh from encbufPool. *)
Definition new_encbuf : encbuf := Encbuf [] [] 0 (zeros 9).

(** [head.encode(buf)]: the buffer afterwards and the encoded bytes. *)
Definition listhead_encode (head : listhead) (buf : list Z) : option (list Z * list Z) :=
  '(b', n) ← puthead buf 0xC0 0xF7 (u64 (lh_size head));
  enc ← go_slice b' 0 n;
  Some (b', enc).

Definition reset (w : encbuf) : encbuf := Encbuf [] [] 0 (sizebuf w).

Definition append_str (b : list Z) (w : encbuf) : encbuf := set_str (str w ++ b) w.

(** [encbuf.Write]: the buffer as an io.Writer; it never fails. *)
Definition encbuf_Write (w : encbuf) (b : list Z) : encbuf * Z := (append_str b w, len b).

Definition encodeStringHeader (size : Z) (w : encbuf) : option encbuf :=
  if size <? 56 then Some (append_str [u8 (0x80 + u8 size)] w)
  else
    match sizebuf w with
    | [] => None
    | _ :: tl =>
        '(b', sizesize) ← putint tl (u64 size);
        let sb := u8 (0xB7 + u8 sizesize) :: b' in
        enc ← go_slice sb 0 (sizesize + 1);
        Some (Encbuf (str w ++ enc) (lheads w) (lhsize w) sb)
    end.

Definition encodeString (b : list Z) (w : encbuf) : option encbuf :=
  match b with
  | [x] => if x <=? 0x7F then Some (append_str [x] w)
           else append_str b <$> encodeStringHeader (len b) w
  | _ => append_str b <$> encodeStringHeader (len b) w
  end.

Definition size (w : encbuf) : Z := len (str w) + lhsize w.

(** [w.list()]: the pointer the source returns is the index of the new header
    in [lheads]. *)
Definition list_ (w : encbuf) : nat * encbuf :=
  (length (lheads w),
   Encbuf (str w) (lheads w ++ [Listhead (len (str w)) (lhsize w)]) (lhsize w) (sizebuf w)).

Definition listEnd (lh : nat) (w : encbuf) : option encbuf :=
  h ← lheads w !! lh;
  let sz := size w - offset h - lh_size h in
  let hs := if sz <? 56 then lhsize w + 1 else lhsize w + (1 + intsize (u64 sz)) in
  Some (Encbuf (str w) (<[lh := Listhead (offset h) sz]> (lheads w)) hs (sizebuf w)).

(** ** Output passes *)

(** The loop of [toBytes] over the headers, then the rest of the string data. *)
Fixpoint toBytes_loop (s : list Z) (heads : list listhead) (out : list Z) (strpos pos : Z)
  : option (list Z) :=
  match heads with
  | [] =>
      tl ← go_from s strpos;
      go_copy_at out pos tl
  | head :: heads' =>
      before ← go_slice s strpos (offset head);
      out1 ← go_copy_at out pos before;
      let n := Z.min (len out - pos) (len before) in
      let pos1 := pos + n in
      rest ← go_from out1 pos1;
      '(rest', enc) ← listhead_encode head rest;
      let out2 := take (Z.to_nat pos1) out1 ++ rest' in
      toBytes_loop s heads' out2 (strpos + n) (pos1 + len enc)
  end.

Definition toBytes (w : encbuf) : option (list Z) :=
  toBytes_loop (str w) (lheads w) (zeros (size w)) 0 0.

(** An io.Writer: its state, what has been written, and the law of the
    documented interface.  [Write] returns the number of bytes written and an
    error, which is non-nil when that number is short. *)
Class Writer (W E : Type) : Type := {
  Write : W -> list Z -> W * Z * option E;
  written : W -> list Z
}.
Class WriterLaws (W E : Type) `{Writer W E} : Prop := {
  Write_ok : forall w b w' n, Write w b = (w', n, None) ->
    n = len b /\ written w' = written w ++ b
}.

Section ToWriter.
Context {W E : Type} `{Writer W E}.

(** The loop of [toWriter]; the result carries the writer and [sizebuf]. *)
Fixpoint toWriter_loop (s : list Z) (heads : list listhead) (sb : list Z) (strpos : Z) (out : W)
  : outcome E (W * list Z) :=
  match heads with
  | [] =>
      if strpos <? len s then
        match go_from s strpos with
        | None => Panic
        | Some tl =>
            match Write out tl with
            | (out', _, None) => Ok (out', sb)
            | (_, _, Some e) => Err e
            end
        end
      else Ok (out, sb)
  | head :: heads' =>
      let k strpos1 out1 :=
        match listhead_encode head sb with
        | None => Panic
        | Some (sb', enc) =>
            match Write out1 enc with
            | (out2, _, None) => toWriter_loop s heads' sb' strpos1 out2
            | (_, _, Some e) => Err e
            end
        end in
      if 0 <? offset head - strpos then
        match go_slice s strpos (offset head) with
        | None => Panic
        | Some before =>
            match Write out before with
            | (out1, n, None) => k (strpos + n) out1
            | (_, _, Some e) => Err e
            end
        end
      else k strpos out
  end.

Definition toWriter (w : encbuf) (out : W) : outcome E (W * encbuf) :=
  match toWriter_loop (str w) (lheads w) (sizebuf w) 0 out with
  | Ok (out', sb) => Ok (out', Encbuf (str w) (lheads w) (lhsize w) sb)
  | Err e => Err e
  | Panic => Panic
  | OutOfFuel => OutOfFuel
  end.
End ToWriter.

(** [encReader]: [r_buf] is [None] at EOF, [piece] the next bytes to hand out. *)
Record encReader : Type := EncReader {
  r_buf : option encbuf;
  lhpos : nat;
  r_strpos : Z;
  piece : option (list Z)
}.

(** [next]: the next piece, [None] at EOF; the outer [option] is a panic. *)
Definition next (r : encReader) : option (option (list Z) * encReader) :=
  match r_buf r with
  | None => Some (None, r)
  | Some w =>
      match piece r with
      | Some p => Some (Some p, r)
      | None =>
          match lheads w !! lhpos r with
          | Some head =>
              let sizebefore := offset head - r_strpos r in
              if 0 <? sizebefore then
                p ← go_slice (str w) (r_strpos r) (offset head);
                Some (Some p, EncReader (r_buf r) (lhpos r) (r_strpos r + sizebefore) (piece r))
              else
                '(sb, enc) ← listhead_encode head (sizebuf w);
                Some (Some enc,
                  EncReader (Some (Encbuf (str w) (lheads w) (lhsize w) sb))
                    (S (lhpos r)) (r_strpos r) (piece r))
          | None =>
              if r_strpos r <? len (str w) then
                p ← go_from (str w) (r_strpos r);
                Some (Some p, EncReader (r_buf r) (lhpos r) (len (str w)) (piece r))
              else Some (None, r)
          end
      end
  end.

(** The loop of [Read]: [room] is the space left in the caller's buffer, [acc]
    what has been copied into it.  It returns the bytes read and whether the
    error is io.EOF. *)
Fixpoint Read_loop (fuel : nat) (room : nat) (acc : list Z) (r : encReader)
  : outcome unit (list Z * bool * encReader) :=
  match fuel with
  | O => OutOfFuel
  | S f =>
      match next r with
      | None => Panic
      | Some (None, r') => Ok (acc, true, EncReader None (lhpos r') (r_strpos r') None)
      | Some (Some p, r') =>
          let got := take room p in
          if (length got <? length p)%nat then
            Ok (acc ++ got, false,
                EncReader (r_buf r') (lhpos r') (r_strpos r') (Some (drop (length got) p)))
          else
            Read_loop f (room - length got) (acc ++ got)
              (EncReader (r_buf r') (lhpos r') (r_strpos r') None)
      end
  end.

(** Pieces left: at most two per header, one at the end, one pending. *)
Definition read_fuel (r : encReader) : nat :=
  match r_buf r with None => 1 | Some w => 2 * length (lheads w) + 4 end.

Definition Read (n : nat) (r : encReader) : outcome unit (list Z * bool * encReader) :=
  Read_loop (read_fuel r) n [] r.

(** ** What a buffer renders to *)

(** [render s base hs]: the output for string data [s], which starts at
    position [base] of the buffer, with the headers [hs] inserted. *)
Fixpoint render (s : list Z) (base : Z) (hs : list listhead) : list Z :=
  match hs with
  | [] => s
  | h :: hs' =>
      let n := Z.to_nat (offset h - base) in
      take n s ++ list_head (lh_size h) ++ render (drop n s) (offset h) hs'
  end.

(** Header offsets ascend from [base] to at most [lim], and sizes fit 64 bits. *)
Fixpoint heads_ok (base lim : Z) (hs : list listhead) : Prop :=
  match hs with
  | [] => base <= lim
  | h :: hs' => base <= offset h /\ u64_ok (lh_size h) /\ heads_ok (offset h) lim hs'
  end.

Fixpoint heads_size (hs : list listhead) : Z :=
  match hs with [] => 0 | h :: hs' => len (list_head (lh_size h)) + heads_size hs' end.

(** The invariant of a buffer whose lists are all closed. *)
Definition encbuf_ok (w : encbuf) : Prop :=
  heads_ok 0 (len (str w)) (lheads w) /\
  lhsize w = heads_size (lheads w) /\ length (sizebuf w) = 9%nat.

(** [emits w w' e]: going from [w] to [w'] adds exactly the output [e]. *)
Definition emits (w w' : encbuf) (e : list Z) : Prop :=
  exists s hs,
    str w' = str w ++ s /\ lheads w' = lheads w ++ hs /\
    heads_ok (len (str w)) (len (str w')) hs /\
    render s (len (str w)) hs = e /\
    lhsize w' = lhsize w + heads_size hs /\
    length (sizebuf w') = length (sizebuf w).

(** ** Integers and headers *)

(** The bytes [putint] writes: big-endian, minimal, at least one. *)
Definition int_bytes (i : Z) : list Z := if i =? 0 then [0] else big_bytes i.

Lemma be_bytes_shifts n z :
  be_bytes (S n) z = u8 (Z.shiftr z (8 * Z.of_nat n)) :: be_bytes n z.
Proof.
  revert z. induction n as [|n IH]; intros z.
  - simpl. unfold u8. by rewrite Z.shiftr_0_r.
  - change (be_bytes (S (S n)) z) with (be_bytes (S n) (z / 256) ++ [z mod 256]).
    rewrite IH. simpl. f_equal. f_equal.
    change (z / 256) with (z / 2 ^ 8). rewrite <- Z.shiftr_div_pow2 by lia.
    rewrite Z.shiftr_shiftr by lia. f_equal. lia.
Qed.

Lemma int_bytes_be n i :
  256 ^ Z.of_nat n <= i < 256 ^ (Z.of_nat n + 1) -> int_bytes i = be_bytes (S n) i.
Proof.
  intros H. assert (0 < 256 ^ Z.of_nat n) by (apply Z.pow_pos_nonneg; lia).
  unfold int_bytes. destruct (Z.eqb_spec i 0); [lia|].
  pose proof (big_bytes_length_bounds i (Z.of_nat n) ltac:(lia) ltac:(lia) H) as L.
  replace (Z.to_nat (Z.of_nat n + 1)) with (S n) in L by lia.
  unfold big_bytes in *. rewrite be_bytes_length in L. rewrite L.
  by rewrite Z.abs_eq by lia.
Qed.

Lemma int_bytes_small i : 0 <= i < 256 -> int_bytes i = [u8 i].
Proof.
  intros H. destruct (decide (i = 0)) as [->|]; [done|].
  rewrite (int_bytes_be 0) by (simpl; lia). simpl. done.
Qed.

Lemma putint_spec b i :
  u64_ok i ->
  putint b i = (fun b' => (b', len (int_bytes i))) <$> store b (int_bytes i).
Proof.
  intros [H0 H1]. unfold putint.
  change (Z.shiftl 1 8) with 256. change (Z.shiftl 1 16) with (256 ^ 2).
  change (Z.shiftl 1 24) with (256 ^ 3). change (Z.shiftl 1 32) with (256 ^ 4).
  change (Z.shiftl 1 40) with (256 ^ 5). change (Z.shiftl 1 48) with (256 ^ 6).
  change (Z.shiftl 1 56) with (256 ^ 7).
  assert (B : forall n, 256 ^ Z.of_nat n <= i < 256 ^ (Z.of_nat n + 1) ->
    int_bytes i = be_bytes (S n) i) by (intros; by apply int_bytes_be).
  assert (u8 i = u8 (Z.shiftr i 0)) as U by (by rewrite Z.shiftr_0_r).
  destruct (Z.ltb_spec i 256); [by rewrite int_bytes_small by lia|].
  destruct (Z.ltb_spec i (256 ^ 2)); [rewrite (B 1%nat) by lia; by rewrite !be_bytes_shifts, U|].
  destruct (Z.ltb_spec i (256 ^ 3)); [rewrite (B 2%nat) by lia; by rewrite !be_bytes_shifts, U|].
  destruct (Z.ltb_spec i (256 ^ 4)); [rewrite (B 3%nat) by lia; by rewrite !be_bytes_shifts, U|].
  destruct (Z.ltb_spec i (256 ^ 5)); [rewrite (B 4%nat) by lia; by rewrite !be_bytes_shifts, U|].
  destruct (Z.ltb_spec i (256 ^ 6)); [rewrite (B 5%nat) by lia; by rewrite !be_bytes_shifts, U|].
  destruct (Z.ltb_spec i (256 ^ 7)); [rewrite (B 6%nat) by lia; by rewrite !be_bytes_shifts, U|].
  rewrite (B 7%nat) by (simpl Z.of_nat; lia). by rewrite !be_bytes_shifts, U.
Qed.

Lemma intsize_loop_spec fuel i sz :
  0 <= i < 256 ^ (Z.of_nat fuel + 1) ->
  intsize_loop fuel i sz = sz + len (int_bytes i) - 1.
Proof.
  revert i sz. induction fuel as [|f IH]; intros i sz Hi; simpl;
    rewrite Z.shiftr_div_pow2 by lia; change (2 ^ 8) with 256;
    destruct (Z.eqb_spec (i / 256) 0) as [E|E].
  1, 3: rewrite int_bytes_small by (apply Z.div_small_iff in E; lia);
    change (len [u8 i]) with 1; lia.
  - exfalso. apply E, Z.div_small. simpl in Hi. lia.
  - assert (D : 0 < i / 256) by (pose proof (Z.div_pos i 256); lia).
    rewrite IH.
    2:{ split; [lia|]. apply Z.div_lt_upper_bound; [lia|].
        rewrite <- Z.pow_succ_r by lia. replace (Z.succ (Z.of_nat f + 1))
          with (Z.of_nat (S f) + 1) by lia. lia. }
    unfold int_bytes. destruct (Z.eqb_spec (i / 256) 0); [lia|].
    destruct (Z.eqb_spec i 0) as [->|]; [done|].
    enough (len (big_bytes i) = len (big_bytes (i / 256)) + 1) by lia.
    destruct (big_bytes_head (i / 256) D) as (b & t & Eb & Hb).
    assert (Ok' : bytes_ok (big_bytes (i / 256) ++ [i mod 256])).
    { apply bytes_ok_app. split; [apply big_bytes_ok|]. constructor; [|constructor].
      apply Z.mod_pos_bound. lia. }
    assert (V : be_val (big_bytes (i / 256) ++ [i mod 256]) = i).
    { rewrite be_val_snoc, be_val_big_bytes by lia.
      pose proof (Z.div_mod i 256). lia. }
    rewrite <- V at 1. rewrite big_bytes_be_val; [by rewrite len_app|done|].
    rewrite Eb. simpl. intros [= ->]. lia.
Qed.

Lemma intsize_spec i : u64_ok i -> intsize i = len (int_bytes i).
Proof.
  intros H. unfold intsize. rewrite intsize_loop_spec; [lia|].
  unfold u64_ok in H. simpl. lia.
Qed.

Lemma int_bytes_pos i : 0 < i -> int_bytes i = big_bytes i.
Proof. intros H. unfold int_bytes. destruct (Z.eqb_spec i 0); [lia|done]. Qed.

(** [headsize] is the length of the header the specification gives. *)
Lemma headsize_spec small large n : u64_ok n -> headsize n = len (enc_head small large n).
Proof.
  intros H. unfold headsize, enc_head. destruct (Z.ltb_spec n 56); [done|].
  rewrite intsize_spec, int_bytes_pos by (done || lia). by rewrite len_cons.
Qed.

(** [puthead] writes the header at the front of the buffer. *)
Lemma puthead_spec buf small large n :
  0 <= small <= 0xC8 -> 0 <= large <= 0xF7 -> u64_ok n ->
  puthead buf small large n =
    (fun b' => (b', len (enc_head small large n))) <$> store buf (enc_head small large n).
Proof.
  intros Hs Hl Hn. unfold puthead, enc_head.
  destruct (Z.ltb_spec n 56).
  - unfold u64_ok in Hn.
    assert (u8 (small + u8 n) = small + n) as ->; [|done].
    rewrite (u8_small n), u8_small; [done|unfold byte_ok..]; lia.
  - destruct buf as [|x tl].
    { unfold store. rewrite len_cons. pose proof (len_nonneg (big_bytes n)).
      destruct (Z.leb_spec (1 + len (big_bytes n)) (len (@nil Z))) as [C|]; [|done].
      rewrite len_nil in C. lia. }
    pose proof (size_bytes_range n ltac:(unfold u64_ok in Hn; lia)) as R.
    rewrite putint_spec, int_bytes_pos by (done || lia).
    assert (u8 (large + u8 (len (big_bytes n))) = large + len (big_bytes n)) as E.
    { rewrite (u8_small (len (big_bytes n))), u8_small; [done|unfold byte_ok..]; lia. }
    unfold store. rewrite !len_cons.
    destruct (Z.leb_spec (len (big_bytes n)) (len tl)),
      (Z.leb_spec (1 + len (big_bytes n)) (1 + len tl)); simpl; try lia; [|done].
    rewrite E, (Z.add_comm _ 1). done.
Qed.

Lemma listhead_encode_spec h buf :
  u64_ok (lh_size h) -> len (list_head (lh_size h)) <= len buf ->
  listhead_encode h buf =
    Some (list_head (lh_size h) ++ drop (length (list_head (lh_size h))) buf,
          list_head (lh_size h)).
Proof.
  intros Hs Hb. unfold listhead_encode. rewrite u64_small by done.
  rewrite puthead_spec by (done || lia). fold (list_head (lh_size h)). unfold store.
  destruct (Z.leb_spec (len (list_head (lh_size h))) (len buf)); [|lia]. simpl.
  set (e := list_head (lh_size h)).
  pose proof (go_slice_app [] e (drop (length e) buf)) as S. simpl in S.
  change (len []) with 0 in S. rewrite Z.add_0_l in S. by rewrite S.
Qed.

(** ** Rendering *)

Lemma heads_ok_le base lim hs : heads_ok base lim hs -> base <= lim.
Proof.
  revert base. induction hs as [|h hs IH]; intros base; simpl; [done|].
  intros (? & _ & H). specialize (IH _ H). lia.
Qed.

Lemma heads_ok_weaken base lim lim' hs :
  lim <= lim' -> heads_ok base lim hs -> heads_ok base lim' hs.
Proof.
  intros L. revert base. induction hs as [|h hs IH]; intros base; simpl; [lia|].
  intros (? & ? & H). auto.
Qed.

Lemma heads_ok_app base mid lim a b :
  heads_ok base mid a -> heads_ok mid lim b -> heads_ok base lim (a ++ b).
Proof.
  revert base. induction a as [|h a IH]; intros base; simpl.
  - intros L H. destruct b as [|h b]; simpl in *; [lia|]. destruct H as (? & ? & ?).
    split; [lia|done].
  - intros (? & ? & H) Hb. auto.
Qed.

Lemma heads_size_app a b : heads_size (a ++ b) = heads_size a + heads_size b.
Proof. induction a as [|h a IH]; simpl; [done|]. rewrite IH. lia. Qed.

Lemma render_app s t base a b :
  heads_ok base (base + len s) a -> heads_ok (base + len s) (base + len s + len t) b ->
  render (s ++ t) base (a ++ b) = render s base a ++ render t (base + len s) b.
Proof.
  revert s base. induction a as [|h a IH]; intros s base Ha Hb; simpl in *.
  - destruct b as [|h b]; simpl in *; [done|]. destruct Hb as (Hle & _ & _).
    replace (Z.to_nat (offset h - base))
      with (length s + Z.to_nat (offset h - (base + len s)))%nat by (unfold len in *; lia).
    by rewrite take_app_add, drop_app_add, <- !app_assoc.
  - destruct Ha as (Hle & Hu & Ha). pose proof (heads_ok_le _ _ _ Ha) as Hn.
    set (n := Z.to_nat (offset h - base)) in *.
    assert (Hns : (n <= length s)%nat) by (unfold len in *; lia).
    rewrite take_app_le, drop_app_le by done. rewrite <- !app_assoc. do 2 f_equal.
    assert (L : offset h + len (drop n s) = base + len s)
      by (rewrite len_drop; unfold len in *; lia).
    rewrite IH by (by rewrite L). by rewrite L.
Qed.

Lemma render_len s base hs :
  heads_ok base (base + len s) hs -> len (render s base hs) = len s + heads_size hs.
Proof.
  revert s base. induction hs as [|h hs IH]; intros s base; simpl; [lia|].
  intros (Hle & _ & H). pose proof (heads_ok_le _ _ _ H).
  rewrite !len_app, IH, len_take, len_drop by
    (rewrite len_drop; replace (offset h + _) with (base + len s) by lia; done). lia.
Qed.

Lemma heads_size_nonneg hs : 0 <= heads_size hs.
Proof. induction hs as [|h hs IH]; simpl; [lia|]. pose proof (len_nonneg (list_head (lh_size h))). lia. Qed.

(** ** Emission *)

Lemma emits_refl w : emits w w [].
Proof. exists [], []. rewrite !app_nil_r. simpl. repeat split; try done; lia. Qed.

Lemma emits_trans w1 w2 w3 e1 e2 :
  emits w1 w2 e1 -> emits w2 w3 e2 -> emits w1 w3 (e1 ++ e2).
Proof.
  intros (s1 & h1 & S1 & H1 & O1 & R1 & Z1 & B1) (s2 & h2 & S2 & H2 & O2 & R2 & Z2 & B2).
  exists (s1 ++ s2), (h1 ++ h2).
  rewrite S2, H2, S1, H1, !app_assoc. rewrite S2, S1 in O2. rewrite S1 in O1, R2.
  rewrite !len_app in *. repeat split.
  - by eapply heads_ok_app.
  - rewrite render_app by done. by rewrite R1, R2.
  - rewrite heads_size_app. lia.
  - lia.
Qed.

Lemma emits_append_str b w : emits w (append_str b w) b.
Proof.
  exists b, []. simpl. rewrite app_nil_r, len_app. pose proof (len_nonneg b).
  repeat split; try done; lia.
Qed.

Lemma emits_sizebuf w w' e : emits w w' e -> length (sizebuf w') = length (sizebuf w).
Proof. by intros (? & ? & ? & ? & ? & ? & ? & ?). Qed.

(** Writing a tag and a number through [sizebuf]. *)
Lemma sizebuf_tag w x tl tag b :
  sizebuf w = x :: tl -> length (sizebuf w) = 9%nat -> len b <= 8 ->
  exists b', store tl b = Some b' /\ go_slice (tag :: b') 0 (len b + 1) = Some (tag :: b) /\
    emits w (Encbuf (str w ++ tag :: b) (lheads w) (lhsize w) (tag :: b')) (tag :: b).
Proof.
  intros E Hsb Hb. rewrite E in Hsb. simpl in Hsb. unfold store.
  destruct (Z.leb_spec (len b) (len tl)); [|unfold len in *; simpl in *; lia].
  eexists. split; [done|].
  pose proof (go_slice_app [] (tag :: b) (drop (length b) tl)) as S. simpl in S.
  change (len []) with 0 in S. rewrite Z.add_0_l, len_cons, (Z.add_comm 1) in S. rewrite S.
  split; [done|]. exists (tag :: b), []. simpl.
  rewrite app_nil_r, len_app, E. repeat split; try done; try lia.
  - pose proof (len_nonneg (tag :: b)). lia.
  - simpl. rewrite length_app, length_drop. unfold len in *. simpl in *. lia.
Qed.

Lemma encodeStringHeader_spec n w :
  length (sizebuf w) = 9%nat -> u64_ok n ->
  exists w', encodeStringHeader n w = Some w' /\ emits w w' (str_head n).
Proof.
  intros Hsb Hn. unfold encodeStringHeader, str_head, enc_head.
  destruct (Z.ltb_spec n 56).
  - unfold u64_ok in Hn. eexists. split; [done|].
    rewrite (u8_small n), u8_small by (unfold byte_ok; lia). apply emits_append_str.
  - destruct (sizebuf w) as [|x tl] eqn:E; [done|].
    pose proof (size_bytes_range n ltac:(unfold u64_ok in Hn; lia)) as R.
    rewrite u64_small, putint_spec, int_bytes_pos by (done || lia).
    destruct (sizebuf_tag w x tl (183 + len (big_bytes n)) (big_bytes n)) as (b' & -> & S & Em);
      [done|by rewrite E|lia|]. simpl.
    rewrite (u8_small (len (big_bytes n))), u8_small by (unfold byte_ok; lia).
    rewrite S. eexists. by split.
Qed.

Lemma encodeString_spec b w :
  length (sizebuf w) = 9%nat -> len b < 2 ^ 64 ->
  exists w', encodeString b w = Some w' /\ emits w w' (enc_str b).
Proof.
  intros Hsb Hb.
  assert (G : exists w', append_str b <$> encodeStringHeader (len b) w = Some w' /\
    emits w w' (str_head (len b) ++ b)).
  { destruct (encodeStringHeader_spec (len b) w) as (w1 & E & M); [done|split; [apply len_nonneg|done]|].
    rewrite E. simpl. eexists. split; [done|].
    eapply emits_trans; [done|apply emits_append_str]. }
  unfold encodeString, enc_str, self_byte. destruct b as [|x [|y l]]; [done| |done].
  destruct (Z.leb_spec x 0x7F), (Z.ltb_spec x 128); try lia; [|done].
  eexists. split; [done|]. apply emits_append_str.
Qed.

(** Closing a list whose content is [e] inserts the right header before it. *)
Lemma listEnd_spec w w2 e :
  emits (snd (list_ w)) w2 e -> len e < 2 ^ 64 ->
  exists w3, listEnd (fst (list_ w)) w2 = Some w3 /\
    emits w w3 (list_head (len e) ++ e).
Proof.
  intros (s & hs & S & H & O & R & Zz & B) He. simpl in *.
  unfold listEnd. rewrite H, <- app_assoc. cbn [app].
  rewrite list_lookup_middle by done. simpl.
  rewrite S, len_app in O. pose proof (render_len _ _ _ O) as L. rewrite R in L.
  assert (Hsz : size w2 - len (str w) - lhsize w = len e).
  { unfold size. rewrite S, Zz, len_app. lia. }
  rewrite Hsz.
  assert (U : u64_ok (len e)) by (split; [apply len_nonneg|done]).
  eexists. split; [done|]. exists s, (Listhead (len (str w)) (len e) :: hs). simpl.
  rewrite S, len_app, u64_small by done.
  replace (length (lheads w)) with (length (lheads w) + 0)%nat at 1 by lia.
  rewrite insert_app_r. simpl. rewrite Z.sub_diag. simpl. rewrite drop_0, R.
  repeat split; try done; try lia; [apply len_nonneg|].
  unfold list_head. rewrite <- (headsize_spec 0xC0 0xF7 (len e) U). unfold headsize.
  destruct (Z.ltb_spec (len e) 56); lia.
Qed.

Lemma new_encbuf_ok : encbuf_ok new_encbuf.
Proof. split; simpl; [unfold len; simpl; lia|done]. Qed.

Lemma reset_ok w : length (sizebuf w) = 9%nat -> encbuf_ok (reset w).
Proof. intros H. split; simpl; [unfold len; simpl; lia|done]. Qed.

Lemma emits_ok w w' e : encbuf_ok w -> emits w w' e -> encbuf_ok w'.
Proof.
  intros (O & L & B) (s & hs & S & H & O' & R & Zz & B').
  split; [|split]; [|rewrite H, heads_size_app; lia|lia].
  rewrite H. rewrite S, len_app in *. eapply heads_ok_app; [done|done].
Qed.

(** Starting from a reset buffer, what has been emitted is what is rendered. *)
Lemma emits_render w w' e :
  str w = [] -> lheads w = [] -> emits w w' e -> render (str w') 0 (lheads w') = e.
Proof.
  intros Es Eh (s & hs & S & H & O & R & _ & _). rewrite Es, Eh in *. simpl in *.
  by rewrite S, H.
Qed.

(** ** Output passes *)

Lemma toBytes_loop_spec s heads dn junk strpos :
  0 <= strpos -> heads_ok strpos (len s) heads ->
  len junk = len (render (drop (Z.to_nat strpos) s) strpos heads) ->
  toBytes_loop s heads (dn ++ junk) strpos (len dn) =
    Some (dn ++ render (drop (Z.to_nat strpos) s) strpos heads).
Proof.
  revert dn junk strpos. induction heads as [|h heads IH]; intros dn junk strpos H0 Ho Hj; simpl in *.
  - assert (Hs : s = take (Z.to_nat strpos) s ++ drop (Z.to_nat strpos) s) by (by rewrite take_drop).
    assert (Hl : strpos = len (take (Z.to_nat strpos) s)) by (rewrite len_take; lia).
    set (a := take (Z.to_nat strpos) s) in *. set (b := drop (Z.to_nat strpos) s) in *.
    rewrite Hs, Hl, go_from_app. simpl. unfold go_copy_at. rewrite len_app.
    pose proof (len_nonneg dn). pose proof (len_nonneg junk).
    bprop. rewrite to_nat_len, take_app_length, drop_app_length. do 2 f_equal.
    pose proof (go_copy_exact junk b []) as C. rewrite !app_nil_r in C.
    apply C. unfold len in *. lia.
  - destruct Ho as (Hle & Hu & Ho). pose proof (heads_ok_le _ _ _ Ho) as Hlim.
    set (n := Z.to_nat (offset h - strpos)) in *.
    set (bf := take n (drop (Z.to_nat strpos) s)) in *.
    assert (Ebf : len bf = offset h - strpos) by (unfold bf; rewrite len_take, len_drop; lia).
    assert (go_slice s strpos (offset h) = Some bf) as ->.
    { unfold go_slice. bprop. done. }
    simpl. rewrite !len_app in Hj. set (hd := list_head (lh_size h)) in *.
    set (rs := render (drop n (drop (Z.to_nat strpos) s)) (offset h) heads) in *.
    pose proof (len_nonneg dn). pose proof (len_nonneg hd). pose proof (len_nonneg rs).
    rewrite <- (take_drop (length bf) junk) in Hj |- *.
    set (j1 := take (length bf) junk) in *. set (j2 := drop (length bf) junk) in *.
    assert (Lj : len j1 + len j2 = len junk) by (subst j1 j2; rewrite <- len_app, take_drop; done).
    assert (L1 : length j1 = length bf)
      by (subst j1; rewrite length_take; rewrite len_app in Hj; unfold len in *; lia).
    rewrite len_app in Hj.
    assert (go_copy_at (dn ++ j1 ++ j2) (len dn) bf = Some ((dn ++ bf) ++ j2)) as ->.
    { unfold go_copy_at. rewrite !len_app. pose proof (len_nonneg j1). pose proof (len_nonneg j2).
      bprop. by rewrite to_nat_len, take_app_length, drop_app_length, go_copy_exact, app_assoc by done. }
    simpl.
    assert (Hn : Z.min (len (dn ++ j1 ++ j2) - len dn) (len bf) = len bf).
    { rewrite !len_app. pose proof (len_nonneg j2). unfold len in *. lia. }
    rewrite Hn, <- len_app, go_from_app. simpl.
    rewrite listhead_encode_spec by (done || fold hd; unfold len in *; lia). fold hd. simpl.
    rewrite to_nat_len, take_app_length.
    replace (strpos + len bf) with (offset h) by lia.
    replace (len (dn ++ bf) + len hd) with (len ((dn ++ bf) ++ hd)) by (by rewrite len_app).
    rewrite app_assoc, IH; clear IH.
    + assert (drop (Z.to_nat (offset h)) s = drop n (drop (Z.to_nat strpos) s)) as ->.
      { rewrite drop_drop. f_equal. unfold n. lia. }
      by rewrite <- !app_assoc.
    + lia.
    + done.
    + replace (drop (Z.to_nat (offset h)) s) with (drop n (drop (Z.to_nat strpos) s))
        by (rewrite drop_drop; f_equal; unfold n; lia).
      fold rs. rewrite len_drop. unfold len in *. lia.
Qed.

(** [toBytes] never panics and returns the rendering of the buffer. *)
Lemma toBytes_render w : encbuf_ok w -> toBytes w = Some (render (str w) 0 (lheads w)).
Proof.
  intros (O & L & B). unfold toBytes.
  pose proof (render_len (str w) 0 (lheads w) O) as Hr.
  pose proof (heads_size_nonneg (lheads w)). pose proof (len_nonneg (str w)).
  apply (toBytes_loop_spec (str w) (lheads w) [] (zeros (size w)) 0); simpl; try done.
  rewrite drop_0, len_zeros; unfold size; lia.
Qed.

Lemma list_head_len_le n : u64_ok n -> len (list_head n) <= 9.
Proof.
  intros H. unfold list_head, enc_head, u64_ok in *. bprop; len_simpl.
  pose proof (size_bytes_range n ltac:(lia)). lia.
Qed.

(** Encoding a header into the 9-byte auxiliary buffer. *)
Lemma listhead_encode_sizebuf h sb :
  u64_ok (lh_size h) -> length sb = 9%nat ->
  exists sb', listhead_encode h sb = Some (sb', list_head (lh_size h)) /\ length sb' = 9%nat.
Proof.
  intros Hu Hs. pose proof (list_head_len_le _ Hu).
  rewrite listhead_encode_spec by (done || unfold len in *; lia).
  eexists. split; [done|]. rewrite length_app, length_drop. unfold len in *. lia.
Qed.

Section ToWriterSpec.
Context {W E : Type} `{WriterLaws W E}.

Lemma toWriter_loop_spec s heads sb strpos out :
  0 <= strpos -> heads_ok strpos (len s) heads -> length sb = 9%nat ->
  match toWriter_loop s heads sb strpos out with
  | Ok (out', sb') =>
      written out' = written out ++ render (drop (Z.to_nat strpos) s) strpos heads /\
      length sb' = 9%nat
  | Err e => exists o b o' n, Write o b = (o', n, Some e)
  | _ => False
  end.
Proof.
  revert sb strpos out. induction heads as [|h heads IH]; intros sb strpos out H0' Ho Hsb; simpl in *.
  - destruct (Z.ltb_spec strpos (len s)).
    + assert (go_from s strpos = Some (drop (Z.to_nat strpos) s)) as ->.
      { unfold go_from, go_slice. bprop. by rewrite take_ge by (rewrite length_drop; unfold len in *; lia). }
      destruct (Write out (drop (Z.to_nat strpos) s)) as [[out' n] [e|]] eqn:EW; [by eauto|].
      by apply Write_ok in EW as [_ ->].
    + rewrite drop_ge by (unfold len in *; lia). by rewrite app_nil_r.
  - destruct Ho as (Hle & Hu & Ho). pose proof (heads_ok_le _ _ _ Ho) as Hlim.
    destruct (listhead_encode_sizebuf h sb Hu Hsb) as (sb' & -> & Hsb').
    set (n := Z.to_nat (offset h - strpos)) in *.
    assert (D : drop (Z.to_nat (offset h)) s = drop n (drop (Z.to_nat strpos) s)).
    { rewrite drop_drop. f_equal. unfold n. lia. }
    assert (K : forall out1, written out1 = written out ++ take n (drop (Z.to_nat strpos) s) ->
      match
        match Write out1 (list_head (lh_size h)) with
        | (out2, _, None) => toWriter_loop s heads sb' (offset h) out2
        | (_, _, Some e) => Err e
        end
      with
      | Ok (out', sb'') =>
          written out' = written out ++ take n (drop (Z.to_nat strpos) s) ++
            list_head (lh_size h) ++ render (drop n (drop (Z.to_nat strpos) s)) (offset h) heads /\
          length sb'' = 9%nat
      | Err e => exists o b o' n, Write o b = (o', n, Some e)
      | _ => False
      end).
    { intros out1 E1. destruct (Write out1 (list_head (lh_size h))) as [[out2 m] [e|]] eqn:EW; [by eauto|].
      apply Write_ok in EW as [_ E2]. specialize (IH sb' (offset h) out2 ltac:(lia) Ho Hsb').
      destruct (toWriter_loop s heads sb' (offset h) out2) as [[out' sb'']|e| |]; try done.
      destruct IH as [-> ?]. rewrite E2, E1, D, <- !app_assoc. done. }
    destruct (Z.ltb_spec 0 (offset h - strpos)).
    + assert (go_slice s strpos (offset h) = Some (take n (drop (Z.to_nat strpos) s))) as ->.
      { unfold go_slice. bprop. done. }
      destruct (Write out (take n (drop (Z.to_nat strpos) s))) as [[out1 m] [e|]] eqn:EW; [by eauto|].
      apply Write_ok in EW as [-> E1].
      replace (strpos + len _) with (offset h) by (rewrite len_take, len_drop; lia).
      by apply K.
    + assert (strpos = offset h) as -> by lia. apply K.
      unfold n. rewrite Z.sub_diag. simpl. by rewrite app_nil_r.
Qed.

(** [toWriter] writes what [toBytes] returns, unless the writer fails. *)
Lemma toWriter_render w out :
  encbuf_ok w ->
  match toWriter w out with
  | Ok (out', w') => written out' = written out ++ render (str w) 0 (lheads w) /\ encbuf_ok w'
  | Err e => exists o b o' n, Write o b = (o', n, Some e)
  | _ => False
  end.
Proof.
  intros (O & L & B). unfold toWriter.
  pose proof (toWriter_loop_spec (str w) (lheads w) (sizebuf w) 0 out ltac:(lia) O B) as S.
  destruct (toWriter_loop _ _ _ _ _) as [[out' sb']|e| |]; try done.
  rewrite drop_0 in S. destruct S as [-> ?]. by split.
Qed.
End ToWriterSpec.

(** ** The pull reader *)

(** What is left to read. *)
Definition remaining_out (r : encReader) : list Z :=
  match r_buf r with
  | None => []
  | Some w => default [] (piece r) ++
      render (drop (Z.to_nat (r_strpos r)) (str w)) (r_strpos r) (drop (lhpos r) (lheads w))
  end.

(** The invariant of a reader over a closed buffer. *)
Definition encReader_ok (r : encReader) : Prop :=
  match r_buf r with
  | None => piece r = None
  | Some w =>
      0 <= r_strpos r /\ heads_ok (r_strpos r) (len (str w)) (drop (lhpos r) (lheads w)) /\
      length (sizebuf w) = 9%nat
  end.

(** Pieces still to come after the pending one. *)
Definition pieces_left (r : encReader) : nat :=
  match r_buf r with
  | None => 0
  | Some w =>
      match lheads w !! lhpos r with
      | Some h => 2 * (length (lheads w) - lhpos r) + (if r_strpos r <? offset h then 1 else 0)
      | None => if r_strpos r <? len (str w) then 1 else 0
      end
  end.

Lemma next_spec r :
  encReader_ok r ->
  match next r with
  | None => False
  | Some (None, r') => r' = r /\ remaining_out r = []
  | Some (Some p, r') =>
      encReader_ok r' /\
      remaining_out r =
        p ++ remaining_out (EncReader (r_buf r') (lhpos r') (r_strpos r') None) /\
      encReader_ok (EncReader (r_buf r') (lhpos r') (r_strpos r') None) /\
      (piece r = None -> (pieces_left r' < pieces_left r)%nat) /\
      (piece r <> None -> r' = r) /\ is_Some (r_buf r') /\
      (length (default [] (lheads <$> r_buf r')) = length (default [] (lheads <$> r_buf r)))
  end.
Proof.
  destruct r as [[w|] lp sp pc]; unfold next; simpl; [|by intros ->].
  intros (H0 & Ho & Hb). unfold encReader_ok, remaining_out, pieces_left. simpl in *.
  destruct pc as [p|]; simpl; [by eauto 10|].
  destruct (lheads w !! lp) as [h|] eqn:El.
  - rewrite (drop_S _ _ _ El) in Ho |- *. simpl in Ho. destruct Ho as (Hle & Hu & Ho).
    pose proof (heads_ok_le _ _ _ Ho). apply lookup_lt_Some in El as Hlt.
    destruct (Z.ltb_spec 0 (offset h - sp)).
    + assert (go_slice (str w) sp (offset h) =
        Some (take (Z.to_nat (offset h - sp)) (drop (Z.to_nat sp) (str w)))) as ->.
      { unfold go_slice. bprop. done. }
      simpl. replace (sp + (offset h - sp)) with (offset h) by lia.
      rewrite (drop_S _ _ _ El), El. simpl. rewrite Z.sub_diag. simpl. rewrite drop_0.
      rewrite drop_drop. replace (Z.to_nat sp + Z.to_nat (offset h - sp))%nat
        with (Z.to_nat (offset h)) by lia.
      assert (heads_ok (offset h) (len (str w)) (h :: drop (S lp) (lheads w)))
        by (split; [lia|done]).
      split_and!; try done; [lia..|]. intros _. bprop.
    + assert (sp = offset h) as -> by lia.
      destruct (listhead_encode_sizebuf h (sizebuf w) Hu Hb) as (sb' & -> & Hsb'). simpl.
      rewrite Z.sub_diag. simpl. rewrite !drop_0.
      split_and!; try done. intros _. rewrite Z.ltb_irrefl.
      destruct (lheads w !! S lp) as [h'|] eqn:El'.
      * apply lookup_lt_Some in El'. destruct (_ <? _); lia.
      * destruct (_ <? _); lia.
  - rewrite (drop_ge (lheads w) lp) in Ho |- * by (by apply lookup_ge_None). simpl in *.
    destruct (Z.ltb_spec sp (len (str w))).
    + assert (go_from (str w) sp = Some (drop (Z.to_nat sp) (str w))) as ->.
      { unfold go_from, go_slice. bprop. by rewrite take_ge by (rewrite length_drop; unfold len in *; lia). }
      simpl. rewrite El, Z.ltb_irrefl, (drop_ge (lheads w) lp) by (by apply lookup_ge_None). simpl.
      rewrite to_nat_len, drop_all, app_nil_r.
      split_and!; try done; [lia..|]. lia.
    + split; [done|]. apply drop_ge. unfold len in *. lia.
Qed.

Lemma Read_loop_spec fuel room acc r :
  encReader_ok r ->
  (pieces_left r + (match piece r with Some _ => 1 | None => 0 end) < fuel)%nat ->
  exists got eof r',
    Read_loop fuel room acc r = Ok (acc ++ got, eof, r') /\
    encReader_ok r' /\ remaining_out r = got ++ remaining_out r' /\
    (length got <= room)%nat /\
    (if eof : bool then remaining_out r' = [] else length got = room).
Proof.
  revert room acc r. induction fuel as [|f IH]; intros room acc r Hok Hf; [lia|]. simpl.
  pose proof (next_spec r Hok) as N. destruct (next r) as [[[p|] r']|]; [| |done].
  - destruct N as (Ok1 & Hc & Ok2 & Hd & He & [w Hw] & _).
    set (r0 := EncReader (r_buf r') (lhpos r') (r_strpos r') None) in *.
    rewrite length_take. destruct (Nat.ltb_spec (room `min` length p) (length p)) as [Hlt|Hge].
    + eexists (take room p), false, _. split; [done|]. split.
      { unfold encReader_ok in *. simpl in *. rewrite Hw in *. done. }
      split; [|rewrite length_take; lia].
      rewrite Hc. unfold remaining_out. simpl. rewrite Hw. simpl.
      rewrite !app_assoc. f_equal. rewrite Nat.min_l by lia. by rewrite take_drop.
    + rewrite take_ge by lia.
      destruct (IH (room - length p)%nat (acc ++ p) r0 Ok2) as (got & eof & r2 & E & O & C & L & F).
      { subst r0. unfold pieces_left in *. simpl in *. destruct (piece r) as [q|].
        - rewrite He in Hw |- * by done. lia.
        - specialize (Hd ltac:(done)). lia. }
      replace (room - room `min` length p)%nat with (room - length p)%nat by lia.
      eexists (p ++ got), eof, r2. rewrite E, app_assoc. split; [done|]. split; [done|].
      rewrite Hc, C, app_assoc, length_app. split; [done|]. split; [lia|].
      destruct eof; [done|lia].
  - destruct N as (-> & Hc). eexists [], true, _. rewrite app_nil_r. split; [done|].
    split; [done|]. rewrite Hc. simpl. split_and!; try done. lia.
Qed.

(** Every call of [Read] terminates without a panic; it fills the buffer
    unless it reports EOF, and the bytes it returns followed by what is left
    are what was left before. *)
Lemma Read_spec n r :
  encReader_ok r ->
  exists got eof r',
    Read n r = Ok (got, eof, r') /\ encReader_ok r' /\
    remaining_out r = got ++ remaining_out r' /\ (length got <= n)%nat /\
    (if eof : bool then remaining_out r' = [] else length got = n).
Proof.
  intros Hok. unfold Read.
  destruct (Read_loop_spec (read_fuel r) n [] r Hok) as (g & e & r' & E & H); [|by eauto].
  unfold read_fuel, pieces_left. unfold encReader_ok in Hok. destruct (r_buf r) as [w|]; [|rewrite Hok; lia].
  destruct (lheads w !! lhpos r) as [h|];
    destruct (_ <? _), (piece r); lia.
Qed.
