(* ===== verification/RlpTypes.v ===== *)
(** * RLP types, struct tags and errors (src/rlp/typecache.go, decode.go, encode.go)

    The reflect types the codec is driven by, the values of those types, the
    parsing of struct tags, and the errors of the package.  Types are finite
    trees: the type cache's dummy entry for self-referential types has no
    counterpart here. *)

From Stdlib Require Import Ascii String.
From stdpp Require Import strings.
From S2P Require Import Prelude RlpSpec.

(** Which of the package's interfaces a defined type implements: EncodeRLP with
    a value receiver, EncodeRLP with a pointer receiver, DecodeRLP (always with
    a pointer receiver).  [m_id] selects the user's code. *)
Record methods : Type := Methods {
  m_id : nat;
  enc_by_value : bool;
  enc_by_ptr : bool;
  dec_by_ptr : bool
}.

(** reflect.Type.  [TNamed m u] is a defined type with methods and the type
    literal [u], which RawValue and big.Int, defined types themselves, are not;
    the pointer to big.Int is [TBigIntPtr]; [TOther] stands for the kinds RLP does not support (signed
    integers, floats, maps, channels, functions).  A field carries its name,
    whether it is exported (PkgPath is empty), and the value of its rlp tag. *)
Inductive rtype : Type :=
| TRawValue
| TBigIntPtr
| TBigInt
| TPtr (elem : rtype)
| TUint (bits : Z)
| TBool
| TString
| TSlice (elem : rtype)
| TArray (n : nat) (elem : rtype)
| TStruct (fields : list sfield)
| TInterface (nummethod : nat)
| TOther (name : string)
| TNamed (m : methods) (under : rtype)
with sfield : Type :=
| SField (fname : string) (exported : bool) (ftag : string) (ftyp : rtype).

Definition fname (f : sfield) : string := match f with SField n _ _ _ => n end.
Definition exported (f : sfield) : bool := match f with SField _ e _ _ => e end.
Definition ftag (f : sfield) : string := match f with SField _ _ t _ => t end.
Definition ftyp (f : sfield) : rtype := match f with SField _ _ _ t => t end.

(** reflect.Value.  Strings, byte slices, byte arrays and RawValues are
    [VBytes]; pointers to big.Int and pointers are [None] when nil; an
    interface holds its dynamic type and value. *)
Inductive value : Type :=
| VBytes (bs : list Z)
| VUint (n : Z)
| VBool (b : bool)
| VBig (z : option Z)
| VInt (z : Z)
| VPtr (p : option value)
| VSeq (vs : list value)
| VStruct (vs : list value)
| VIface (d : option (rtype * value)).

(** Induction over values. *)
Section ValueInd.
Variable P : value -> Prop.
Hypothesis HBytes : forall bs, P (VBytes bs).
Hypothesis HUint : forall n, P (VUint n).
Hypothesis HBool : forall b, P (VBool b).
Hypothesis HBig : forall z, P (VBig z).
Hypothesis HInt : forall z, P (VInt z).
Hypothesis HNil : P (VPtr None).
Hypothesis HPtr : forall v, P v -> P (VPtr (Some v)).
Hypothesis HSeq : forall vs, Forall P vs -> P (VSeq vs).
Hypothesis HStruct : forall vs, Forall P vs -> P (VStruct vs).
Hypothesis HNilIface : P (VIface None).
Hypothesis HIface : forall t v, P v -> P (VIface (Some (t, v))).

Fixpoint value_tree_ind (v : value) : P v :=
  let all := fix all (l : list value) : Forall P l :=
    match l with
    | [] => Forall_nil_2 P
    | x :: l' => Forall_cons_2 P x l' (value_tree_ind x) (all l')
    end in
  match v with
  | VBytes bs => HBytes bs
  | VUint n => HUint n
  | VBool b => HBool b
  | VBig z => HBig z
  | VInt z => HInt z
  | VPtr None => HNil
  | VPtr (Some v') => HPtr v' (value_tree_ind v')
  | VSeq vs => HSeq vs (all vs)
  | VStruct vs => HStruct vs (all vs)
  | VIface None => HNilIface
  | VIface (Some (t, v')) => HIface t v' (value_tree_ind v')
  end.
End ValueInd.

(** Induction over types. *)
Section TypeInd.
Variable P : rtype -> Prop.
Hypothesis HRaw : P TRawValue.
Hypothesis HBigPtr : P TBigIntPtr.
Hypothesis HBigInt : P TBigInt.
Hypothesis HTPtr : forall e, P e -> P (TPtr e).
Hypothesis HTUint : forall b, P (TUint b).
Hypothesis HTBool : P TBool.
Hypothesis HTString : P TString.
Hypothesis HTSlice : forall e, P e -> P (TSlice e).
Hypothesis HTArray : forall n e, P e -> P (TArray n e).
Hypothesis HTStruct : forall fs, Forall (fun f => P (ftyp f)) fs -> P (TStruct fs).
Hypothesis HTInterface : forall n, P (TInterface n).
Hypothesis HTOther : forall s, P (TOther s).
Hypothesis HTNamed : forall m u, P u -> P (TNamed m u).

Fixpoint type_tree_ind (t : rtype) : P t :=
  match t with
  | TRawValue => HRaw
  | TBigIntPtr => HBigPtr
  | TBigInt => HBigInt
  | TPtr e => HTPtr e (type_tree_ind e)
  | TUint b => HTUint b
  | TBool => HTBool
  | TString => HTString
  | TSlice e => HTSlice e (type_tree_ind e)
  | TArray n e => HTArray n e (type_tree_ind e)
  | TStruct fs =>
      HTStruct fs ((fix all (l : list sfield) : Forall (fun f => P (ftyp f)) l :=
        match l with
        | [] => Forall_nil_2 _
        | f :: l' =>
            Forall_cons_2 (fun f => P (ftyp f)) f l'
              (match f with SField n e tg t' => type_tree_ind t' end) (all l')
        end) fs)
  | TInterface n => HTInterface n
  | TOther s => HTOther s
  | TNamed m u => HTNamed m u (type_tree_ind u)
  end.
End TypeInd.

(** The context strings of a decodeError: [[i]], [.name] and [(type)]. *)
Inductive context : Type :=
| CtxIndex (i : nat)
| CtxField (name : string)
| CtxTarget (typ : rtype).

(** The errors of the package. *)
Inductive rlp_error : Type :=
| EOL
| ErrExpectedString
| ErrExpectedList
| ErrCanonInt
| ErrCanonSize
| ErrElemTooLarge
| ErrValueTooLarge
| ErrMoreThanOneValue
| errNotInList
| errNotAtEOL
| errUintOverflow
| errNoPointer
| errDecodeIntoNil
| io_EOF
| io_ErrUnexpectedEOF
| decodeError (msg : string) (typ : rtype) (ctx : list context)
| errInvalidBoolean (n : Z)
| errNotSerializable (typ : rtype)
| errNegativeBigInt
| errUnaddressable (typ : rtype)
| structFieldError (typ : rtype) (field : nat) (err : rlp_error)
| structTagError (typ : rtype) (field tag err : string)
| errUnknownTag (tag : string) (typ : rtype) (field : string)
| errCustom (code : Z).

(** Struct tags. *)
Record tags : Type := Tags {
  nilOK : bool;
  nilKind : Kind;
  tail : bool;
  ignored : bool
}.
Definition no_tags : tags := Tags false KByte false false.

(** ** Kinds *)

(** [isUint(typ.Kind())] *)
Fixpoint isUint (t : rtype) : bool :=
  match t with TUint _ => true | TNamed _ u => isUint u | _ => false end.

Fixpoint is_uint8 (t : rtype) : bool :=
  match t with TUint b => b =? 8 | TNamed _ u => is_uint8 u | _ => false end.

Fixpoint is_ptr (t : rtype) : bool :=
  match t with TPtr _ | TBigIntPtr => true | TNamed _ u => is_ptr u | _ => false end.

Fixpoint is_slice (t : rtype) : bool :=
  match t with TSlice _ | TRawValue => true | TNamed _ u => is_slice u | _ => false end.

(** The types that an assertion to the pointer to big.Int accepts, and the element
    types of the slices that an assertion to a slice of bytes accepts: no defined
    types. *)
Definition is_bigint_ptr (t : rtype) : bool := match t with TBigIntPtr => true | _ => false end.
Definition is_byte (t : rtype) : bool := match t with TUint b => b =? 8 | _ => false end.

(** The types that are literals. *)
Definition type_literal (t : rtype) : bool :=
  match t with TRawValue | TBigInt | TNamed _ _ => false | _ => true end.

(** [typ.Implements(encoderInterface)]: value receivers only. *)
Definition implements_encoder (t : rtype) : bool :=
  match t with TNamed m _ => enc_by_value m | _ => false end.

(** [reflect.PtrTo(typ).Implements(encoderInterface)] *)
Definition ptr_implements_encoder (t : rtype) : bool :=
  match t with TNamed m _ => enc_by_value m || enc_by_ptr m | _ => false end.

(** [reflect.PtrTo(typ).Implements(decoderInterface)] *)
Definition ptr_implements_decoder (t : rtype) : bool :=
  match t with TNamed m _ => dec_by_ptr m | _ => false end.

Definition isByte (t : rtype) : bool := is_uint8 t && negb (implements_encoder t).

Fixpoint isByteArray (t : rtype) : bool :=
  match t with
  | TSlice e | TArray _ e => isByte e
  | TRawValue => true
  | TNamed _ u => isByteArray u
  | _ => false
  end.

Fixpoint is_string_or_bool (t : rtype) : bool :=
  match t with TString | TBool => true | TNamed _ u => is_string_or_bool u | _ => false end.

Definition defaultNilKind (t : rtype) : Kind :=
  if isUint t || is_string_or_bool t || isByteArray t then KString else KList.

(** [typ.Elem()] of a pointer. *)
Fixpoint ptr_elem (t : rtype) : rtype :=
  match t with
  | TPtr e => e
  | TBigIntPtr => TBigInt
  | TNamed _ u => ptr_elem u
  | _ => t
  end.

(** ** Struct tags *)

Definition is_space (c : ascii) : bool :=
  let n := nat_of_ascii c in
  (n =? 32)%nat || ((9 <=? n)%nat && (n <=? 13)%nat).

Fixpoint trim_left (s : string) : string :=
  match s with
  | String c s' => if is_space c then trim_left s' else s
  | EmptyString => EmptyString
  end.

Fixpoint rev_string (acc s : string) : string :=
  match s with String c s' => rev_string (String c acc) s' | EmptyString => acc end.

(** strings.TrimSpace on ASCII text. *)
Definition TrimSpace (s : string) : string :=
  rev_string EmptyString (trim_left (rev_string EmptyString (trim_left s))).

(** strings.Split(s, ",") *)
Fixpoint split_commas (cur s : string) : list string :=
  match s with
  | EmptyString => [rev_string EmptyString cur]
  | String c s' =>
      if Ascii.eqb c ","%char then rev_string EmptyString cur :: split_commas EmptyString s'
      else split_commas (String c cur) s'
  end.

(** One tag of [parseStructTag]: the tags after it, or the error. *)
Definition parse_tag (typ : rtype) (f : sfield) (fi lastPublic : nat) (ts : tags) (t0 : string)
  : rlp_error + tags :=
  let t := TrimSpace t0 in
  if String.eqb t EmptyString then inr ts
  else if String.eqb t "-" then inr (Tags (nilOK ts) (nilKind ts) (tail ts) true)
  else if String.eqb t "nil" || String.eqb t "nilString" || String.eqb t "nilList" then
    if negb (is_ptr (ftyp f)) then inl (structTagError typ (fname f) t "field is not a pointer")
    else
      let nk := if String.eqb t "nil" then defaultNilKind (ptr_elem (ftyp f))
                else if String.eqb t "nilString" then KString else KList in
      inr (Tags true nk (tail ts) (ignored ts))
  else if String.eqb t "tail" then
    if negb (fi =? lastPublic)%nat then inl (structTagError typ (fname f) t "must be on last field")
    else if negb (is_slice (ftyp f)) then
      inl (structTagError typ (fname f) t "field type is not slice")
    else inr (Tags (nilOK ts) (nilKind ts) true (ignored ts))
  else inl (errUnknownTag t typ (fname f)).

Fixpoint parse_tags (typ : rtype) (f : sfield) (fi lastPublic : nat) (ts : tags) (l : list string)
  : rlp_error + tags :=
  match l with
  | [] => inr ts
  | t :: l' =>
      match parse_tag typ f fi lastPublic ts t with
      | inl e => inl e
      | inr ts' => parse_tags typ f fi lastPublic ts' l'
      end
  end.

Definition parseStructTag (typ : rtype) (f : sfield) (fi lastPublic : nat) : rlp_error + tags :=
  parse_tags typ f fi lastPublic no_tags (split_commas EmptyString (ftag f)).

(** [lastPublicField]: the index of the last exported field, 0 if none. *)
Fixpoint last_public_from (i last : nat) (fs : list sfield) : nat :=
  match fs with
  | [] => last
  | f :: fs' => last_public_from (S i) (if exported f then i else last) fs'
  end.
Definition lastPublicField (fs : list sfield) : nat := last_public_from 0 0 fs.

(** ** Zero values *)

Fixpoint zero (t : rtype) : value :=
  match t with
  | TRawValue | TString => VBytes []
  | TBigIntPtr => VBig None
  | TBigInt => VInt 0
  | TPtr _ => VPtr None
  | TUint _ => VUint 0
  | TBool => VBool false
  | TSlice e => if isByte e then VBytes [] else VSeq []
  | TArray n e => if isByte e then VBytes (replicate n 0) else VSeq (replicate n (zero e))
  | TStruct fs => VStruct (map (fun f => match f with SField _ _ _ t => zero t end) fs)
  | TInterface _ => VIface None
  | TOther _ => VStruct []
  | TNamed _ u => zero u
  end.

Section Examples.
Let tx_field := SField "Recipient" true "nil" (TPtr (TArray 20 (TUint 8))).

Example parse_nil :
  parseStructTag (TStruct [tx_field]) tx_field 0 0 = inr (Tags true KString false false).
Proof. reflexivity. Qed.

Let two_tags := SField "F" true " nilList , - " (TPtr (TArray 20 (TUint 8))).

Example parse_two :
  parseStructTag (TStruct [two_tags]) two_tags 0 0 = inr (Tags true KList false true).
Proof. reflexivity. Qed.
End Examples.
