(* ===== verification/RlpRaw.v ===== *)
(** * RLP on byte slices (src/rlp/raw.go)

    Splitting values off the front of a slice without a stream.  [readKind] is
    the header parser; the theorems characterise it completely: it accepts
    exactly the slices that start with a canonical header whose payload fits,
    and classifies every failure. *)

From S2P Require Import Prelude RlpSpec RlpEncode RlpTypes.

Definition ListSize (contentSize : Z) : Z := u64 (u64 (headsize contentSize) + contentSize).

(** [readSize(b, slen)].  The source indexes [b] up to [slen], which its first
    test guards; the other lengths cannot occur, as callers pass 1 to 8. *)
Definition readSize (b : list Z) (slen : Z) : rlp_error + Z :=
  if len b <? slen then inl io_ErrUnexpectedEOF
  else
    let at_ i := default 0 (b !! i) in
    let sh i s := u64 (Z.shiftl (at_ i) s) in
    let s :=
      match slen with
      | 1 => at_ 0%nat
      | 2 => Z.lor (sh 0%nat 8) (at_ 1%nat)
      | 3 => Z.lor (Z.lor (sh 0%nat 16) (sh 1%nat 8)) (at_ 2%nat)
      | 4 => Z.lor (Z.lor (Z.lor (sh 0%nat 24) (sh 1%nat 16)) (sh 2%nat 8)) (at_ 3%nat)
      | 5 => Z.lor (Z.lor (Z.lor (Z.lor (sh 0%nat 32) (sh 1%nat 24)) (sh 2%nat 16)) (sh 3%nat 8)) (at_ 4%nat)
      | 6 => Z.lor (Z.lor (Z.lor (Z.lor (Z.lor (sh 0%nat 40) (sh 1%nat 32)) (sh 2%nat 24)) (sh 3%nat 16)) (sh 4%nat 8)) (at_ 5%nat)
      | 7 => Z.lor (Z.lor (Z.lor (Z.lor (Z.lor (Z.lor (sh 0%nat 48) (sh 1%nat 40)) (sh 2%nat 32)) (sh 3%nat 24)) (sh 4%nat 16)) (sh 5%nat 8)) (at_ 6%nat)
      | 8 => Z.lor (Z.lor (Z.lor (Z.lor (Z.lor (Z.lor (Z.lor (sh 0%nat 56) (sh 1%nat 48)) (sh 2%nat 40)) (sh 3%nat 32)) (sh 4%nat 24)) (sh 5%nat 16)) (sh 6%nat 8)) (at_ 7%nat)
      | _ => 0
      end in
    if (s <? 56) || (at_ 0%nat =? 0) then inl ErrCanonSize else inr s.

(** The switch of [readKind] on the first byte [b] of a slice [b :: tl]. *)
Definition readKind_tag (b : Z) (tl : list Z) : rlp_error + (Kind * Z * Z) :=
  if b <? 0x80 then inr (KByte, 0, 1)
  else if b <? 0xB8 then
    let contentsize := u8 (b - 0x80) in
    (* Reject strings that should've been single bytes. *)
    if (contentsize =? 1) && match tl with b1 :: _ => b1 <? 128 | [] => false end
    then inl ErrCanonSize
    else inr (KString, 1, contentsize)
  else if b <? 0xC0 then
    match readSize tl (u8 (b - 0xB7)) with
    | inl e => inl e
    | inr n => inr (KString, u64 (u8 (b - 0xB7) + 1), n)
    end
  else if b <? 0xF8 then inr (KList, 1, u8 (b - 0xC0))
  else
    match readSize tl (u8 (b - 0xF7)) with
    | inl e => inl e
    | inr n => inr (KList, u64 (u8 (b - 0xF7) + 1), n)
    end.

(** [readKind(buf)]: kind, tag size and content size. *)
Definition readKind (buf : list Z) : rlp_error + (Kind * Z * Z) :=
  match buf with
  | [] => inl io_ErrUnexpectedEOF
  | b :: tl =>
      match readKind_tag b tl with
      | inl e => inl e
      | inr (k, tagsize, contentsize) =>
          (* Reject values larger than the input slice. *)
          if u64 (u64 (len buf) - tagsize) <? contentsize then inl ErrValueTooLarge
          else inr (k, tagsize, contentsize)
      end
  end.

(** [Split(b)]: kind, content and rest; on an error the source returns [b]
    itself as the rest.  The slice expressions panic out of range. *)
Definition Split (b : list Z) : outcome rlp_error (Kind * list Z * list Z) :=
  match readKind b with
  | inl e => Err e
  | inr (k, ts, cs) =>
      match go_slice b ts (u64 (ts + cs)), go_from b (u64 (ts + cs)) with
      | Some content, Some rest => Ok (k, content, rest)
      | _, _ => Panic
      end
  end.

Definition SplitString (b : list Z) : outcome rlp_error (list Z * list Z) :=
  let? (k, content, rest) := Split b in
  if decide (k = KList) then Err ErrExpectedString else Ok (content, rest).

Definition SplitList (b : list Z) : outcome rlp_error (list Z * list Z) :=
  let? (k, content, rest) := Split b in
  if decide (k = KList) then Ok (content, rest) else Err ErrExpectedList.

(** The loop of [CountValues]; each round consumes at least one byte. *)
Fixpoint CountValues_loop (fuel : nat) (b : list Z) (i : Z) : outcome rlp_error Z :=
  match b with
  | [] => Ok i
  | _ :: _ =>
      match fuel with
      | O => OutOfFuel
      | S f =>
          match readKind b with
          | inl e => Err e
          | inr (_, tagsize, sz) =>
              match go_from b (u64 (tagsize + sz)) with
              | Some b' => CountValues_loop f b' (i + 1)
              | None => Panic
              end
          end
      end
  end.
Definition CountValues (b : list Z) : outcome rlp_error Z := CountValues_loop (length b) b 0.

(** ** Reading sizes *)

(** Appending one byte to a number being assembled from the top. *)
Lemma lor_next_byte a b j k :
  j = k + 8 -> 0 <= k -> byte_ok b ->
  Z.lor (Z.shiftl a j) (Z.shiftl b k) = Z.shiftl (a * 256 + b) k.
Proof.
  intros -> Hk Hb. unfold byte_ok in Hb. rewrite (Z.add_comm k 8).
  rewrite <- Z.shiftl_shiftl, <- Z.shiftl_lor by lia. f_equal.
  rewrite lor_shiftl_low by (simpl; lia). by rewrite Z.shiftl_mul_pow2 by lia.
Qed.

Lemma lor_last_byte a b : byte_ok b -> Z.lor (Z.shiftl a 8) b = a * 256 + b.
Proof.
  intros Hb. rewrite <- (Z.shiftl_0_r b) at 1. rewrite (lor_next_byte a b 8 0) by (done || lia).
  by rewrite Z.shiftl_0_r.
Qed.

Lemma u64_shiftl b k : byte_ok b -> 0 <= k <= 56 -> u64 (Z.shiftl b k) = Z.shiftl b k.
Proof.
  intros Hb Hk. unfold byte_ok in Hb. apply u64_small. rewrite Z.shiftl_mul_pow2 by lia.
  assert (2 ^ k <= 2 ^ 56) by (apply Z.pow_le_mono_r; lia).
  assert (0 < 2 ^ k) by (apply Z.pow_pos_nonneg; lia).
  change (2 ^ 56) with 72057594037927936 in *. unfold u64_ok. nia.
Qed.

(** [readSize] reads a big-endian number. *)
Lemma readSize_val b slen :
  bytes_ok b -> 1 <= slen <= 8 -> slen <= len b ->
  readSize b slen =
    let s := be_val (take (Z.to_nat slen) b) in
    if (s <? 56) || (default 0 (b !! 0%nat) =? 0) then inl ErrCanonSize else inr s.
Proof.
  intros Hb Hs Hl. unfold readSize. destruct (Z.ltb_spec (len b) slen); [lia|].
  assert (C : slen = 1 \/ slen = 2 \/ slen = 3 \/ slen = 4 \/ slen = 5 \/ slen = 6 \/
    slen = 7 \/ slen = 8) by lia.
  decompose [or] C; subst; clear C H Hs;
    repeat (destruct b as [|? b]; [exfalso; unfold len in Hl; simpl in Hl; clear -Hl; lia|]);
    unfold bytes_ok in Hb; repeat match goal with H : Forall byte_ok (_ :: _) |- _ => apply Forall_cons in H as [? H] end;
    cbv zeta; simpl lookup; cbn [default id];
    rewrite ?u64_shiftl by (assumption || lia); clear Hl Hb;
    repeat match goal with
    | |- context [Z.lor (Z.shiftl ?a ?j) (Z.shiftl ?b ?k)] =>
        rewrite (lor_next_byte a b j k) by (assumption || lia)
    end;
    rewrite ?lor_last_byte by assumption; unfold be_val; simpl take; simpl foldl; rewrite ?Z.mul_0_l, ?Z.add_0_l; reflexivity.
Qed.

(** It accepts exactly the minimal big-endian sizes of at least 56. *)
Lemma readSize_inr_iff tl slen n :
  bytes_ok tl -> 1 <= slen <= 8 ->
  readSize tl slen = inr n <->
    56 <= n < 2 ^ 64 /\ len (big_bytes n) = slen /\ exists rest, tl = big_bytes n ++ rest.
Proof.
  intros Hb Hs. destruct (Z.ltb_spec (len tl) slen) as [Hl|Hl].
  { split.
    - unfold readSize. destruct (Z.ltb_spec (len tl) slen); [done|lia].
    - intros (_ & E & rest & ->). rewrite len_app in Hl. pose proof (len_nonneg rest). lia. }
  rewrite readSize_val by done. cbv zeta. set (h := take (Z.to_nat slen) tl).
  assert (Lh : len h = slen) by (unfold h; rewrite len_take; lia).
  assert (Hh : bytes_ok h) by (by apply bytes_ok_take).
  assert (Hd : default 0 (tl !! 0%nat) = default 0 (head h)).
  { unfold h. destruct tl as [|x tl]; [by rewrite take_nil|]. destruct (Z.to_nat slen) eqn:E; [lia|done]. }
  rewrite Hd. split.
  - destruct (Z.ltb_spec (be_val h) 56); [done|].
    destruct (Z.eqb_spec (default 0 (head h)) 0) as [|E]; [done|]. simpl. intros [= <-].
    pose proof (be_val_bound h Hh) as B. rewrite Lh in B.
    assert (256 ^ slen <= 256 ^ 8) by (apply Z.pow_le_mono_r; lia).
    rewrite big_bytes_be_val; [|done|].
    + split; [simpl in *; lia|]. split; [done|]. exists (drop (Z.to_nat slen) tl). unfold h. by rewrite take_drop.
    + intros C. rewrite C in E. done.
  - intros (Hn & E & rest & ->).
    assert (h = big_bytes n) as Eh.
    { unfold h. rewrite <- E, to_nat_len, take_app_length. done. }
    rewrite Eh, be_val_big_bytes by lia.
    destruct (big_bytes_head n ltac:(lia)) as (x & t & Ex & Hx). rewrite Ex. simpl.
    destruct (Z.ltb_spec n 56); [lia|]. destruct (Z.eqb_spec x 0); [lia|done].
Qed.

(** ** Headers and payloads *)

(** A payload that its kind's header may announce: a single byte below 0x80
    must be its own encoding. *)
Definition canon (k : Kind) (c : list Z) : Prop :=
  match k with
  | KByte => self_byte c = true
  | KString => self_byte c = false
  | KList => True
  end.

(** One value with its content left unparsed. *)
Definition shallow (k : Kind) (c : list Z) : list Z := kind_head k (len c) ++ c.

Lemma shallow_len_pos k c : canon k c -> 1 <= len (shallow k c).
Proof.
  intros H. unfold shallow. rewrite len_app. pose proof (len_nonneg c).
  destruct k; simpl in *.
  - apply self_byte_spec in H as (b & -> & _). done.
  - pose proof (enc_head_len_pos 0x80 0xB7 (len c)). unfold str_head. lia.
  - pose proof (enc_head_len_pos 0xC0 0xF7 (len c)). unfold list_head. lia.
Qed.

Lemma shallow_item it : canon (item_kind it) (payload it) /\
  rlp_enc it = shallow (item_kind it) (payload it).
Proof.
  split; [|apply rlp_enc_parts].
  destruct it as [bs|its]; simpl; [|done]. by destruct (self_byte bs) eqn:E.
Qed.

(** What the first byte and the size bytes announce. *)
Definition announces (buf : list Z) (k : Kind) (cs : Z) : Prop :=
  u64_ok cs /\
  exists rest, buf = kind_head k cs ++ rest /\
    match k with
    | KByte => cs = 1 /\ exists x t, rest = x :: t /\ x < 128
    | KString => cs = 1 -> match rest with x :: _ => 128 <= x | [] => True end
    | KList => True
    end.

Lemma readKind_tag_sound b tl k ts cs :
  bytes_ok (b :: tl) -> readKind_tag b tl = inr (k, ts, cs) ->
  announces (b :: tl) k cs /\ ts = len (kind_head k cs).
Proof.
  intros Hb H. apply Forall_cons in Hb as [Hb Ht]. unfold byte_ok in Hb.
  assert (L : forall small large,
    large < b <= large + 8 -> match readSize tl (u8 (b - large)) with
      | inl e => inl e | inr n => inr (k, u64 (u8 (b - large) + 1), n) end =
      inr (k, ts, cs) :> rlp_error + (Kind * Z * Z) ->
    56 <= cs < 2 ^ 64 /\ ts = len (enc_head small large cs) /\
    exists rest, b :: tl = enc_head small large cs ++ rest).
  { intros small large R E. rewrite (u8_small (b - large)) in E by (unfold byte_ok; lia).
    destruct (readSize tl (b - large)) as [|n] eqn:Er; [done|]. injection E as <- <-.
    apply readSize_inr_iff in Er as (Hn & El & rest & ->); [|done|lia].
    rewrite enc_head_large by lia. split; [done|]. split.
    - rewrite u64_small, len_cons by (unfold u64_ok; lia). lia.
    - exists rest. simpl. f_equal. lia. }
  unfold readKind_tag in H.
  destruct (Z.ltb_spec b 0x80); [injection H as <- <- <-|].
  { split; [|done]. split; [done|]. exists (b :: tl). split; [done|]. split; [done|]. by exists b, tl. }
  destruct (Z.ltb_spec b 0xB8).
  { rewrite (u8_small (b - 0x80)) in H by (unfold byte_ok; lia). cbv zeta in H.
    destruct (_ && _) eqn:Ec; [done|]. injection H as <- <- <-.
    unfold announces, u64_ok, kind_head, str_head. rewrite enc_head_small by lia.
    split; [|done]. split; [lia|]. exists tl. split; [simpl; f_equal; lia|].
    intros E1. rewrite E1 in Ec. destruct tl as [|x tl]; [done|]. simpl in Ec. lia. }
  destruct (Z.ltb_spec b 0xC0).
  { destruct k; try (by destruct (readSize _ _)).
    destruct (L 0x80 0xB7 ltac:(lia) H) as (Hn & -> & rest & E). split; [|done].
    split; [unfold u64_ok; lia|]. exists rest. split; [done|]. lia. }
  destruct (Z.ltb_spec b 0xF8).
  { rewrite (u8_small (b - 0xC0)) in H by (unfold byte_ok; lia). injection H as <- <- <-.
    unfold announces, u64_ok, kind_head, list_head. rewrite enc_head_small by lia.
    split; [|done]. split; [lia|]. exists tl. split; [simpl; f_equal; lia|done]. }
  destruct k; try (by destruct (readSize _ _)).
  destruct (L 0xC0 0xF7 ltac:(lia) H) as (Hn & -> & rest & E). split; [|done].
  split; [unfold u64_ok; lia|]. by exists rest.
Qed.

Lemma readKind_tag_complete b tl k cs :
  bytes_ok (b :: tl) -> announces (b :: tl) k cs ->
  readKind_tag b tl = inr (k, len (kind_head k cs), cs).
Proof.
  intros Hb [Hu (rest & E & Hk)]. pose proof Hb as Ht. apply Forall_cons in Ht as [_ Ht].
  unfold u64_ok in Hu.
  assert (L : forall small large, 56 <= cs -> b :: tl = enc_head small large cs ++ rest ->
    1 <= len (big_bytes cs) <= 8 /\ b = large + len (big_bytes cs) /\
    len (enc_head small large cs) = len (big_bytes cs) + 1 /\
    readSize tl (len (big_bytes cs)) = inr cs).
  { intros small large H56 E'. rewrite enc_head_large in E' |- * by done. injection E' as -> ->.
    pose proof (size_bytes_range cs ltac:(lia)) as R. rewrite len_cons.
    split; [done|]. split; [done|]. split; [lia|]. apply readSize_inr_iff; [done|done|]. split; [lia|]. split; [done|]. by eexists. }
  unfold readKind_tag. destruct k; simpl kind_head in *.
  - destruct Hk as (-> & x & t & -> & Hx). simpl in E. injection E as -> ->.
    destruct (Z.ltb_spec x 0x80); [done|lia].
  - unfold str_head in *. destruct (Z.ltb_spec cs 56).
    + rewrite enc_head_small in * by done. simpl in E. injection E as -> ->.
      destruct (Z.ltb_spec (0x80 + cs) 0x80); [lia|].
      destruct (Z.ltb_spec (0x80 + cs) 0xB8); [|lia].
      replace (0x80 + cs - 0x80) with cs by lia. rewrite u8_small by (unfold byte_ok; lia).
      cbv zeta. destruct (Z.eqb_spec cs 1) as [E1|]; [|done]. specialize (Hk E1). simpl andb.
      destruct rest as [|x rest]; [done|]. destruct (Z.ltb_spec x 128); [lia|done].
    + destruct (L 0x80 0xB7 ltac:(done) E) as (R & -> & -> & ER).
      bprop. all: replace (183 + len (big_bytes cs) - 183) with (len (big_bytes cs)) by lia.
      all: rewrite u8_small, ER, u64_small by (unfold byte_ok, u64_ok; lia). all: done.
  - unfold list_head in *. destruct (Z.ltb_spec cs 56).
    + rewrite enc_head_small in * by done. simpl in E. injection E as -> ->.
      bprop. all: replace (192 + cs - 192) with cs by lia.
      all: rewrite u8_small by (unfold byte_ok; lia). all: done.
    + destruct (L 0xC0 0xF7 ltac:(done) E) as (R & -> & -> & ER).
      bprop. all: replace (247 + len (big_bytes cs) - 247) with (len (big_bytes cs)) by lia.
      all: rewrite u8_small, ER, u64_small by (unfold byte_ok, u64_ok; lia). all: done.
Qed.

Lemma fits_test n ts cs :
  0 <= ts <= n -> 0 <= cs -> n < 2 ^ 64 ->
  (u64 (u64 n - ts) <? cs) = negb (ts + cs <=? n).
Proof.
  intros. rewrite (u64_small n), u64_small by (unfold u64_ok; lia).
  destruct (Z.ltb_spec (n - ts) cs), (Z.leb_spec (ts + cs) n); try lia; done.
Qed.

(** [readKind] accepts exactly the slices that start with a canonical value. *)
Lemma readKind_iff b k ts cs :
  bytes_ok b -> len b < 2 ^ 64 ->
  readKind b = inr (k, ts, cs) <->
    exists c r, b = shallow k c ++ r /\ canon k c /\ cs = len c /\
      ts = len (kind_head k (len c)).
Proof.
  intros Hb Hl. split.
  - intros H. destruct b as [|x tl]; [done|]. unfold readKind in H.
    destruct (readKind_tag x tl) as [|[[k' ts'] cs']] eqn:Et; [done|].
    apply readKind_tag_sound in Et as [[Hu (rest & E & Hk)] ->]; [|done].
    rewrite E, len_app in H, Hl. pose proof (len_nonneg rest).
    rewrite fits_test in H
      by (try apply len_nonneg; unfold u64_ok in *; pose proof (len_nonneg (kind_head k' cs')); lia).
    destruct (Z.leb_spec (len (kind_head k' cs') + cs') (len (kind_head k' cs') + len rest)); [|done].
    simpl in H. injection H as -> <- ->. unfold u64_ok in Hu.
    set (c := take (Z.to_nat cs) rest).
    assert (Lc : len c = cs) by (unfold c; rewrite len_take; lia).
    exists c, (drop (Z.to_nat cs) rest).
    unfold shallow. rewrite Lc, E, <- app_assoc. unfold c at 1. rewrite take_drop.
    split; [done|]. split; [|done].
    destruct k; simpl; [| |done].
    + destruct Hk as (-> & y & t & -> & Hy). unfold c. simpl. bprop.
    + destruct c as [|y [|z c']] eqn:Ec; [done| |done]. simpl.
      assert (cs = 1) as -> by (rewrite <- Lc; done). specialize (Hk eq_refl).
      unfold c in Ec. destruct rest as [|w rest]; [done|]. simpl in Ec. injection Ec as ->.
      bprop.
  - intros (c & r & -> & Hc & -> & ->). pose proof (shallow_len_pos k c Hc) as Hp.
    rewrite len_app in Hl. pose proof (len_nonneg r). unfold shallow in *.
    rewrite len_app in Hl, Hp. pose proof (len_nonneg c). pose proof (len_nonneg (kind_head k (len c))).
    destruct ((kind_head k (len c) ++ c) ++ r) as [|x tl] eqn:E.
    { apply (f_equal len) in E. rewrite !len_app, len_nil in E. lia. }
    assert (A : announces (x :: tl) k (len c)).
    { split; [unfold u64_ok; lia|]. exists (c ++ r). rewrite <- E, app_assoc. split; [done|].
      destruct k; simpl in Hc; [| |done].
      - apply self_byte_spec in Hc as (y & -> & ?). split; [done|]. by exists y, r.
      - intros E1. destruct c as [|y [|z c']]; [done| |].
        + simpl in *. bprop.
        + rewrite !len_cons in E1. pose proof (len_nonneg c'). lia. }
    unfold readKind. rewrite (readKind_tag_complete _ _ _ _ Hb A), <- E, !len_app, fits_test by lia.
    destruct (Z.leb_spec (len (kind_head k (len c)) + len c)
      (len (kind_head k (len c)) + len c + len r)); [done|lia].
Qed.

(** ** Split *)

Lemma split_shallow k c r :
  len (shallow k c ++ r) < 2 ^ 64 ->
  go_slice (shallow k c ++ r) (len (kind_head k (len c)))
    (u64 (len (kind_head k (len c)) + len c)) = Some c /\
  go_from (shallow k c ++ r) (u64 (len (kind_head k (len c)) + len c)) = Some r.
Proof.
  intros Hl. unfold shallow in *. rewrite !len_app in Hl.
  pose proof (len_nonneg c). pose proof (len_nonneg r). pose proof (len_nonneg (kind_head k (len c))).
  rewrite u64_small by (unfold u64_ok; lia). split.
  - rewrite <- app_assoc. apply go_slice_app.
  - rewrite <- len_app. apply go_from_app.
Qed.

(** The three outcomes of [Split], on any input. *)
Lemma Split_cases b :
  bytes_ok b -> len b < 2 ^ 64 ->
  (exists k c r, Split b = Ok (k, c, r) /\ b = shallow k c ++ r /\ canon k c) \/
  (exists e, Split b = Err e /\ readKind b = inl e /\
    forall k c r, b = shallow k c ++ r -> ~ canon k c).
Proof.
  intros Hb Hl. unfold Split. destruct (readKind b) as [e|[[k ts] cs]] eqn:E.
  - right. exists e. split; [done|]. split; [done|]. intros k c r -> Hc.
    rewrite (proj2 (readKind_iff _ k (len (kind_head k (len c))) (len c) Hb Hl)) in E; [done|].
    by exists c, r.
  - left. apply readKind_iff in E as (c & r & -> & Hc & -> & ->); [|done..].
    destruct (split_shallow k c r Hl) as [-> ->]. by exists k, c, r.
Qed.

Lemma Split_ok_iff b k c r :
  bytes_ok b -> len b < 2 ^ 64 ->
  Split b = Ok (k, c, r) <-> b = shallow k c ++ r /\ canon k c.
Proof.
  intros Hb Hl. split.
  - intros E. destruct (Split_cases b Hb Hl) as [(k' & c' & r' & E' & H)|(e & E' & _)];
      rewrite E in E'; [|done]. by injection E' as <- <- <-.
  - intros [-> Hc]. unfold Split.
    rewrite (proj2 (readKind_iff _ k (len (kind_head k (len c))) (len c) Hb Hl)) by (by exists c, r).
    by destruct (split_shallow k c r Hl) as [-> ->].
Qed.

(** Values are prefix-free: a slice starts with at most one value. *)
Lemma shallow_unique k c r k' c' r' :
  bytes_ok (shallow k c ++ r) -> len (shallow k c ++ r) < 2 ^ 64 -> canon k c -> canon k' c' ->
  shallow k c ++ r = shallow k' c' ++ r' -> k = k' /\ c = c' /\ r = r'.
Proof.
  intros Hb Hl Hc Hc' E.
  assert (E1 : Split (shallow k c ++ r) = Ok (k, c, r)) by (by apply Split_ok_iff).
  assert (E2 : Split (shallow k c ++ r) = Ok (k', c', r')) by (by apply Split_ok_iff).
  rewrite E1 in E2. by injection E2.
Qed.

(** ** CountValues *)

Definition shallow_all (vs : list (Kind * list Z)) : list Z :=
  concat (map (fun v => shallow (fst v) (snd v)) vs).

Definition all_canon (vs : list (Kind * list Z)) : Prop :=
  Forall (fun v => canon (fst v) (snd v)) vs.

Lemma CountValues_loop_spec fuel b i :
  bytes_ok b -> len b < 2 ^ 64 -> (length b <= fuel)%nat ->
  match CountValues_loop fuel b i with
  | Ok n => exists vs, n = i + len vs /\ all_canon vs /\ b = shallow_all vs
  | Err e => exists vs r, all_canon vs /\ b = shallow_all vs ++ r /\ r <> [] /\ readKind r = inl e
  | _ => False
  end.
Proof.
  revert b i. induction fuel as [|f IH]; intros b i Hb Hl Hf;
    (destruct b as [|x tl]; [exists []; split; [rewrite len_nil; lia|by split; [constructor|]]|]).
  { simpl in Hf. lia. }
  set (b := x :: tl) in *. cbn [CountValues_loop]. unfold b at 1.
  destruct (readKind b) as [e|[[k ts] cs]] eqn:E.
  { exists [], b. split; [constructor|]. by split. }
  apply readKind_iff in E as (c & r & Eb & Hc & -> & ->); [|done..].
  rewrite Eb in Hl |- *. destruct (split_shallow k c r Hl) as [_ ->].
  pose proof (shallow_len_pos k c Hc). rewrite len_app in Hl.
  rewrite Eb in Hb. apply bytes_ok_app in Hb as [_ Hr].
  assert (Lf : (length r <= f)%nat).
  { rewrite Eb, length_app in Hf. unfold len in *. lia. }
  specialize (IH r (i + 1) Hr ltac:(lia) Lf).
  destruct (CountValues_loop f r (i + 1)) as [n|e| |]; [| |done..].
  - destruct IH as (vs & -> & Hv & ->). exists ((k, c) :: vs). rewrite len_cons.
    split; [lia|]. split; [by constructor|done].
  - destruct IH as (vs & r' & Hv & -> & Hr'). exists ((k, c) :: vs), r'.
    split; [by constructor|]. split; [|done]. unfold shallow_all. simpl. by rewrite app_assoc.
Qed.

Lemma CountValues_loop_all fuel vs i :
  bytes_ok (shallow_all vs) -> len (shallow_all vs) < 2 ^ 64 -> all_canon vs ->
  (length (shallow_all vs) <= fuel)%nat ->
  CountValues_loop fuel (shallow_all vs) i = Ok (i + len vs).
Proof.
  revert fuel i. induction vs as [|[k c] vs IH]; intros fuel i Hb Hl Hv Hf.
  - rewrite len_nil, Z.add_0_r. by destruct fuel.
  - unfold shallow_all in *. simpl in *. apply Forall_cons in Hv as [Hc Hv].
    fold (shallow_all vs) in *. simpl in Hc.
    pose proof (shallow_len_pos k c Hc). rewrite length_app in Hf.
    destruct fuel as [|f]; [unfold len in *; lia|].
    destruct (shallow k c ++ shallow_all vs) as [|x tl] eqn:E.
    { apply (f_equal len) in E. rewrite len_app, len_nil in E.
      pose proof (len_nonneg (shallow_all vs)). lia. }
    cbn [CountValues_loop]. rewrite <- E in *.
    rewrite (proj2 (readKind_iff _ k (len (kind_head k (len c))) (len c) Hb Hl)) by (by exists c, (shallow_all vs)).
    destruct (split_shallow k c (shallow_all vs) Hl) as [_ ->].
    rewrite len_app in Hl. apply bytes_ok_app in Hb as [_ Hb].
    rewrite IH; [rewrite len_cons; f_equal; lia|done|lia|done|unfold len in *; lia].
Qed.

(** Split is exact and never panics: it succeeds exactly on slices that
    start with a canonically encoded value, and then returns the value's kind,
    its payload and the bytes behind it; otherwise it returns an error. *)
Theorem Split_exact b :
  bytes_ok b -> len b < 2 ^ 64 ->
  (forall k c r, Split b = Ok (k, c, r) <-> b = shallow k c ++ r /\ canon k c) /\
  Split b <> Panic /\ Split b <> OutOfFuel.
Proof.
  intros Hb Hl. split; [intros k c r; by apply Split_ok_iff|].
  by destruct (Split_cases b Hb Hl) as [(k & c & r & -> & _)|(e & -> & _)].
Qed.

Lemma Split_exact_witness : Split [0x82; 0x01; 0x02; 0xC0] = Ok (KString, [1; 2], [0xC0]).
Proof.
  apply (Split_exact [0x82; 0x01; 0x02; 0xC0]).
  - repeat constructor; lia.
  - by vm_compute.
  - split; reflexivity.
Defined.

(** CountValues terminates on every slice and counts exactly: the answer is
    [n] if and only if the slice is the concatenation of [n] canonical values. *)
Theorem CountValues_exact b n :
  bytes_ok b -> len b < 2 ^ 64 ->
  (CountValues b = Ok n <-> exists vs, b = shallow_all vs /\ all_canon vs /\ n = len vs) /\
  CountValues b <> Panic /\ CountValues b <> OutOfFuel.
Proof.
  intros Hb Hl. unfold CountValues.
  pose proof (CountValues_loop_spec (length b) b 0 Hb Hl ltac:(lia)) as Hs.
  assert (Ex : forall vs, b = shallow_all vs -> all_canon vs -> CountValues_loop (length b) b 0 = Ok (len vs)).
  { intros vs -> Hv. by rewrite CountValues_loop_all by (done || lia). }
  destruct (CountValues_loop (length b) b 0) as [m|e| |]; [| |done..].
  - destruct Hs as (vs & -> & Hv & E). split; [|done]. split.
    + intros [= <-]. by exists vs.
    + intros (vs' & E' & Hv' & ->). by rewrite (Ex vs' E' Hv').
  - split; [|done]. split; [done|]. intros (vs & E & Hv & _). by specialize (Ex vs E Hv).
Qed.

Lemma CountValues_exact_witness : CountValues [0x05; 0xC1; 0x80; 0x81; 0xFF] = Ok 3.
Proof.
  apply (CountValues_exact [0x05; 0xC1; 0x80; 0x81; 0xFF] 3).
  - repeat constructor; lia.
  - by vm_compute.
  - exists [(KByte, [5]); (KList, [0x80]); (KString, [0xFF])].
    split; [reflexivity|]. split; [|reflexivity]. repeat constructor.
Defined.
