(* ===== verification/RlpStream.v ===== *)
(** * The RLP input stream (src/rlp/decode.go, type Stream)

    A stream reads from any reader that satisfies the [ByteReader] interface,
    tracks the enclosing lists on a stack and an optional input limit.  The
    theorems give the invariant every operation preserves, the absence of
    panics under a limit, and the exact effect of each operation. *)

From S2P Require Import Prelude RlpSpec RlpEncode RlpTypes RlpRaw.

(** ** Readers *)

(** io.Reader and io.ByteReader.  [rd_Read n r] is a call with a buffer of [n]
    bytes: the bytes delivered and whether the error is io.EOF.  [rd_auto] is
    what the type switch of [Reset] discovers: the length of a bytes.Reader or
    strings.Reader.  [rest] is the data still to come. *)
Class ByteReader (R : Type) : Type := {
  rd_Read : nat -> R -> list Z * bool * R;
  rd_ReadByte : R -> option Z * R;
  rd_auto : R -> option Z;
  rest : R -> list Z
}.

(** What bytes.Reader, strings.Reader and bufio.Reader guarantee: data arrives
    in order, a call makes progress until the end, and io.EOF comes without
    data. *)
Class ReaderLaws (R : Type) `{ByteReader R} : Prop := {
  Read_law : forall n r bs eof r', rd_Read n r = (bs, eof, r') -> (0 < n)%nat ->
    rest r = bs ++ rest r' /\ (length bs <= n)%nat /\
    (eof = true <-> bs = []) /\ (bs = [] -> rest r = []);
  ReadByte_law : forall r,
    match rd_ReadByte r with
    | (Some b, r') => rest r = b :: rest r'
    | (None, r') => rest r = [] /\ rest r' = []
    end;
  auto_law : forall r n, rd_auto r = Some n -> n = len (rest r)
}.

(** bytes.Reader over a slice. *)
#[export] Instance bytes_reader : ByteReader (list Z) := {
  rd_Read n r := (take n r, match r with [] => true | _ => false end, drop n r);
  rd_ReadByte r := match r with [] => (None, []) | b :: r' => (Some b, r') end;
  rd_auto r := Some (len r);
  rest r := r
}.

(** A buffered reader whose data arrives in pieces of any size. *)
Record chunked : Type := Chunked { chunks : list (list Z) }.

Fixpoint chunk_read (n : nat) (cs : list (list Z)) : list Z * bool * list (list Z) :=
  match cs with
  | [] => ([], true, [])
  | [] :: cs' => chunk_read n cs'
  | c :: cs' => (take n c, false, drop n c :: cs')
  end.

#[export] Instance chunked_reader : ByteReader chunked := {
  rd_Read n r := let '(bs, eof, cs) := chunk_read n (chunks r) in (bs, eof, Chunked cs);
  rd_ReadByte r :=
    match chunk_read 1 (chunks r) with
    | (b :: _, _, cs) => (Some b, Chunked cs)
    | ([], _, cs) => (None, Chunked cs)
    end;
  rd_auto r := None;
  rest r := concat (chunks r)
}.

(** ** The stream *)

Record listpos : Type := Listpos { pos : Z; lsize : Z }.

(** The stack is kept with its top first. *)
Record stream (R : Type) : Type := Stream {
  s_r : R;
  remaining : Z;
  limited : bool;
  uintbuf : list Z;
  kind : option Kind;
  ssize : Z;
  byteval : Z;
  kinderr : option rlp_error;
  stack : list listpos
}.
Arguments Stream {R}.
Arguments s_r {R}.
Arguments remaining {R}.
Arguments limited {R}.
Arguments uintbuf {R}.
Arguments kind {R}.
Arguments ssize {R}.
Arguments byteval {R}.
Arguments kinderr {R}.
Arguments stack {R}.

(** Methods of the stream: an outcome and the stream afterwards, which also
    changes when an error is returned. *)
Definition SM (R A : Type) : Type := stream R -> outcome rlp_error A * stream R.

Definition ret {R A} (a : A) : SM R A := fun s => (Ok a, s).
Definition fail {R A} (e : rlp_error) : SM R A := fun s => (Err e, s).
Definition panic {R A} : SM R A := fun s => (Panic, s).
Definition bind {R A B} (m : SM R A) (f : A -> SM R B) : SM R B := fun s =>
  match m s with
  | (Ok a, s') => f a s'
  | (Err e, s') => (Err e, s')
  | (Panic, s') => (Panic, s')
  | (OutOfFuel, s') => (OutOfFuel, s')
  end.

Notation "'let*' x := m 'in' k" := (bind m (fun x => k))
  (at level 10, x pattern, m at level 100, k at level 200) : go_scope.

(** The largest allocation [make] accepts (linux/amd64); beyond it [make]
    panics with len out of range. *)
Definition maxAlloc : Z := 2 ^ 48.

Section Ops.
Context {R : Type} `{ByteReader R}.
Implicit Types s : stream R.

Definition set_kind (k : option Kind) s : stream R :=
  Stream (s_r s) (remaining s) (limited s) (uintbuf s) k (ssize s) (byteval s) (kinderr s) (stack s).
Definition set_size (n : Z) s : stream R :=
  Stream (s_r s) (remaining s) (limited s) (uintbuf s) (kind s) n (byteval s) (kinderr s) (stack s).
Definition set_byteval (b : Z) s : stream R :=
  Stream (s_r s) (remaining s) (limited s) (uintbuf s) (kind s) (ssize s) b (kinderr s) (stack s).
Definition set_kinderr (e : option rlp_error) s : stream R :=
  Stream (s_r s) (remaining s) (limited s) (uintbuf s) (kind s) (ssize s) (byteval s) e (stack s).
Definition set_stack (st : list listpos) s : stream R :=
  Stream (s_r s) (remaining s) (limited s) (uintbuf s) (kind s) (ssize s) (byteval s) (kinderr s) st.
Definition set_reader (r : R) s : stream R :=
  Stream r (remaining s) (limited s) (uintbuf s) (kind s) (ssize s) (byteval s) (kinderr s) (stack s).
Definition set_remaining (n : Z) s : stream R :=
  Stream (s_r s) n (limited s) (uintbuf s) (kind s) (ssize s) (byteval s) (kinderr s) (stack s).
Definition set_uintbuf (b : list Z) s : stream R :=
  Stream (s_r s) (remaining s) (limited s) b (kind s) (ssize s) (byteval s) (kinderr s) (stack s).

Definition Reset (r : R) (inputLimit : Z) s : stream R :=
  let '(rem, lim) :=
    if 0 <? inputLimit then (inputLimit, true)
    else match rd_auto r with Some n => (n, true) | None => (remaining s, false) end in
  Stream r rem lim (if decide (uintbuf s = []) then zeros 8 else uintbuf s) None 0 0 None [].

(** A stream as [new(Stream)] gives it. *)
Definition zero_stream (r : R) : stream R := Stream r 0 false [] (Some KByte) 0 0 None [].

Definition NewStream (r : R) (inputLimit : Z) : stream R := Reset r inputLimit (zero_stream r).

Definition NewListStream (r : R) (n : Z) : stream R :=
  set_size n (set_kind (Some KList) (Reset r n (zero_stream r))).

(** The check of [willRead] against the input limit. *)
Definition takeLimit (n : Z) : SM R unit := fun s =>
  if limited s then
    if remaining s <? n then (Err ErrValueTooLarge, s)
    else (Ok tt, set_remaining (u64 (remaining s - n)) s)
  else (Ok tt, s).

Definition willRead (n : Z) : SM R unit := fun s =>
  let s := set_kind None s in (* rearm Kind *)
  match stack s with
  | tos :: st =>
      (* check list overflow *)
      if u64 (lsize tos - pos tos) <? n then (Err ErrElemTooLarge, s)
      else takeLimit n (set_stack (Listpos (u64 (pos tos + n)) (lsize tos) :: st) s)
  | [] => takeLimit n s
  end.

Definition readByte : SM R Z :=
  let* _ := willRead 1 in
  fun s => match rd_ReadByte (s_r s) with
           | (Some b, r') => (Ok b, set_reader r' s)
           | (None, r') => (Err io_ErrUnexpectedEOF, set_reader r' s)
           end.

(** The loop of [readFull] for a buffer of which [n] bytes are still missing:
    the bytes read, whether the loop ended on io.EOF, and the reader. *)
Fixpoint readFull_loop (fuel n : nat) (acc : list Z) (r : R) : option (list Z * bool * R) :=
  match n with
  | O => Some (acc, false, r)
  | S _ =>
      match fuel with
      | O => None
      | S f =>
          match rd_Read n r with
          | (bs, true, r') => Some (acc ++ bs, true, r')
          | (bs, false, r') => readFull_loop f (n - length bs) (acc ++ bs) r'
          end
      end
  end.

(** [readFull(buf)] with [len buf = n]; each round delivers a byte or ends. *)
Definition readFull (n : Z) : SM R (list Z) :=
  let* _ := willRead n in
  fun s => match readFull_loop (S (Z.to_nat n)) (Z.to_nat n) [] (s_r s) with
           | None => (OutOfFuel, s)
           | Some (bs, false, r') => (Ok bs, set_reader r' s)
           | Some (_, true, r') => (Err io_ErrUnexpectedEOF, set_reader r' s)
           end.

Definition readUint (size : Z) : SM R Z :=
  if size =? 0 then fun s => (Ok 0, set_kind None s)
  else if size =? 1 then readByte
  else
    let start := u8 (8 - size) in
    if 8 <? start then panic
    else
      let* bs := readFull (8 - start) in
      fun s =>
        let buf := zeros start ++ bs in
        let s := set_uintbuf buf s in
        match buf !! Z.to_nat start with
        | None => (Panic, s)
        | Some b => if b =? 0 then (Err ErrCanonSize, s) else (Ok (be_val buf), s)
        end.

(** The two branches of [readKind] that read a separate size: a size below 56
    should have been part of the tag. *)
Definition sizedKind (k : Kind) (m : SM R Z) : SM R (Kind * Z * option rlp_error) := fun s =>
  match m s with
  | (Ok n, s') => (Ok (k, n, if n <? 56 then Some ErrCanonSize else None), s')
  | (Err e, s') => (Ok (k, 0, Some e), s')
  | (Panic, s') => (Panic, s')
  | (OutOfFuel, s') => (OutOfFuel, s')
  end.

(** The method [readKind]: kind, size and error; the error is part of the
    result because [Kind] stores it together with the other two. *)
Definition s_readKind : SM R (Kind * Z * option rlp_error) := fun s =>
  match readByte s with
  | (Ok b, s) =>
      let s := set_byteval 0 s in
      if b <? 0x80 then (Ok (KByte, 0, None), set_byteval b s)
      else if b <? 0xB8 then (Ok (KString, u8 (b - 0x80), None), s)
      else if b <? 0xC0 then sizedKind KString (readUint (u8 (b - 0xB7))) s
      else if b <? 0xF8 then (Ok (KList, u8 (b - 0xC0), None), s)
      else sizedKind KList (readUint (u8 (b - 0xF7))) s
  | (Err e, s) =>
      let e' := match stack s, e with
                | [], io_ErrUnexpectedEOF => io_EOF
                | [], ErrValueTooLarge => io_EOF
                | _, _ => e
                end in
      (Ok (KByte, 0, Some e'), s)
  | (Panic, s) => (Panic, s)
  | (OutOfFuel, s) => (OutOfFuel, s)
  end.

(** [Kind]: kind and size of the value ahead, cached until it is consumed. *)
Definition Stream_Kind : SM R (Kind * Z) := fun s =>
  match kind s with
  | None =>
      let s := set_kinderr None s in
      let at_end := match stack s with tos :: _ => pos tos =? lsize tos | [] => false end in
      if at_end then (Err EOL, s)
      else
        (let* (k, n, e) := s_readKind in
         fun s =>
           let e' :=
             match e with
             | Some e => Some e
             | None =>
                 match stack s with
                 | [] => if limited s && (remaining s <? n) then Some ErrValueTooLarge else None
                 | tos :: _ => if u64 (lsize tos - pos tos) <? n then Some ErrElemTooLarge else None
                 end
             end in
           let s := set_kinderr e' (set_size n (set_kind (Some k) s)) in
           match e' with Some e => (Err e, s) | None => (Ok (k, n), s) end) s
  | Some k =>
      match kinderr s with Some e => (Err e, s) | None => (Ok (k, ssize s), s) end
  end.

Definition Stream_Bytes : SM R (list Z) :=
  let* (k, n) := Stream_Kind in
  match k with
  | KByte => fun s => (Ok [byteval s], set_kind None s)
  | KString =>
      if maxAlloc <? n then panic
      else
        let* b := readFull n in
        if (n =? 1) && (default 0 (b !! 0%nat) <? 128) then fail ErrCanonSize else ret b
  | KList => fail ErrExpectedString
  end.

Definition Stream_Raw : SM R (list Z) :=
  let* (k, n) := Stream_Kind in
  if decide (k = KByte) then fun s => (Ok [byteval s], set_kind None s)
  else
    let start := headsize n in
    let total := u64 (u64 start + n) in
    if (maxAlloc <? total) || (total <? start) then panic
    else
      let* b := readFull (total - start) in
      let buf := zeros start ++ b in
      match (if decide (k = KString) then puthead buf 0x80 0xB7 n else puthead buf 0xC0 0xF7 n) with
      | Some (buf', _) => ret buf'
      | None => panic
      end.

(** The method [uint]. *)
Definition Stream_uint (maxbits : Z) : SM R Z :=
  let* (k, n) := Stream_Kind in
  match k with
  | KByte => fun s =>
      if byteval s =? 0 then (Err ErrCanonInt, s) else (Ok (byteval s), set_kind None s)
  | KString =>
      if maxbits / 8 <? n then fail errUintOverflow
      else fun s =>
        match readUint (u8 n) s with
        | (Err ErrCanonSize, s') => (Err ErrCanonInt, s')
        | (Ok v, s') => if (0 <? n) && (v <? 128) then (Err ErrCanonSize, s') else (Ok v, s')
        | r => r
        end
  | KList => fail ErrExpectedString
  end.

Definition Stream_Uint : SM R Z := Stream_uint 64.

Definition Stream_Bool : SM R bool :=
  let* num := Stream_uint 8 in
  if num =? 0 then ret false
  else if num =? 1 then ret true
  else fail (errInvalidBoolean num).

Definition Stream_List : SM R Z :=
  let* (k, n) := Stream_Kind in
  if decide (k = KList) then
    fun s => (Ok n, set_size 0 (set_kind None (set_stack (Listpos 0 n :: stack s) s)))
  else fail ErrExpectedList.

Definition Stream_ListEnd : SM R unit := fun s =>
  match stack s with
  | [] => (Err errNotInList, s)
  | tos :: st =>
      if negb (pos tos =? lsize tos) then (Err errNotAtEOL, s)
      else
        let st' := match st with
                   | [] => []
                   | o :: st'' => Listpos (u64 (pos o + lsize tos)) (lsize o) :: st''
                   end in
        (Ok tt, set_size 0 (set_kind None (set_stack st' s)))
  end.
End Ops.

(** ** Reader instances *)

#[export] Instance bytes_reader_laws : ReaderLaws (list Z).
Proof.
  split.
  - simpl. intros n r bs eof r' [= <- <- <-] Hn. rewrite take_drop, length_take.
    split; [done|]. split; [lia|]. destruct r, n; simpl; try done; lia.
  - intros [|b r]; simpl; done.
  - simpl. by intros r n [= <-].
Qed.

Lemma chunk_read_spec n cs bs eof cs' :
  (0 < n)%nat -> chunk_read n cs = (bs, eof, cs') ->
  concat cs = bs ++ concat cs' /\ (length bs <= n)%nat /\
  (eof = true <-> bs = []) /\ (bs = [] -> concat cs = []).
Proof.
  intros Hn. induction cs as [|[|b c] cs IH]; simpl.
  - intros [= <- <- <-]. simpl. split; [done|]. split; [lia|]. done.
  - done.
  - destruct n as [|n]; [lia|]. simpl. intros [= <- <- <-]. simpl.
    rewrite length_take. split; [f_equal; by rewrite app_assoc, take_drop|].
    split; [lia|]. split; done.
Qed.

#[export] Instance chunked_reader_laws : ReaderLaws chunked.
Proof.
  split.
  - simpl. intros n [cs] bs eof r' E Hn. simpl in *.
    destruct (chunk_read n cs) as [[bs' eof'] cs'] eqn:Er. injection E as <- <- <-.
    by apply (chunk_read_spec n).
  - intros [cs]. simpl. destruct (chunk_read 1 cs) as [[bs eof] cs'] eqn:Er.
    apply (chunk_read_spec 1) in Er as (E & L & _ & Hn); [|lia].
    destruct bs as [|b [|? ?]]; simpl in *; [|done|lia].
    rewrite <- E. auto.
  - done.
Qed.

(** ** The abstract cursor

    What the client of a stream sees: the input still to come, the enclosing
    lists and the input limit.  Consuming [n] bytes advances all three. *)
Record cursor : Type := Cursor {
  c_rest : list Z;
  c_stack : list listpos;
  c_rem : option Z
}.

(** Bytes left in the innermost list and under the limit. *)
Definition fits (n : Z) (c : cursor) : Prop :=
  match c_stack c with t :: _ => n <= lsize t - pos t | [] => True end.
Definition in_limit (n : Z) (c : cursor) : Prop :=
  match c_rem c with Some m => n <= m | None => True end.
Definition c_can (n : Z) (c : cursor) : Prop :=
  n <= len (c_rest c) /\ fits n c /\ in_limit n c.

Definition bump (n : Z) (st : list listpos) : list listpos :=
  match st with t :: st' => Listpos (pos t + n) (lsize t) :: st' | [] => [] end.

Definition c_adv (n : Z) (c : cursor) : cursor :=
  Cursor (drop (Z.to_nat n) (c_rest c)) (bump n (c_stack c)) ((fun m => m - n) <$> c_rem c).

(** Positions stay inside their lists, and inner lists inside outer ones. *)
Fixpoint stack_ok (st : list listpos) : Prop :=
  match st with
  | [] => True
  | t :: st' =>
      0 <= pos t <= lsize t /\ lsize t < 2 ^ 64 /\
      match st' with [] => True | o :: _ => lsize t <= lsize o - pos o end /\ stack_ok st'
  end.

Definition c_ok (c : cursor) : Prop :=
  bytes_ok (c_rest c) /\ stack_ok (c_stack c) /\
  match c_rem c with Some m => u64_ok m | None => True end.

Lemma fits_mono n m c : n <= m -> fits m c -> fits n c.
Proof. unfold fits. destruct (c_stack c); lia. Qed.

Lemma in_limit_mono n m c : n <= m -> in_limit m c -> in_limit n c.
Proof. unfold in_limit. destruct (c_rem c); lia. Qed.

Lemma c_can_mono n m c : n <= m -> c_can m c -> c_can n c.
Proof.
  intros L (? & ? & ?). split; [lia|]. split; [by eapply fits_mono|by eapply in_limit_mono].
Qed.

Lemma stack_ok_bump n st :
  0 <= n -> match st with t :: _ => n <= lsize t - pos t | [] => True end ->
  stack_ok st -> stack_ok (bump n st).
Proof. destruct st as [|t st]; simpl; [done|]. intros ? ? (? & ? & ? & ?). split; [lia|]. done. Qed.

Lemma c_adv_ok n c : 0 <= n -> fits n c -> in_limit n c -> c_ok c -> c_ok (c_adv n c).
Proof.
  intros Hn Hf Hi (Hb & Hs & Hr). split; [by apply bytes_ok_drop|]. split; [by apply stack_ok_bump|].
  unfold in_limit in Hi. simpl. destruct (c_rem c); simpl; [|done]. unfold u64_ok in *. lia.
Qed.

Lemma c_adv_adv n m c : 0 <= n -> 0 <= m -> c_adv m (c_adv n c) = c_adv (n + m) c.
Proof.
  intros. unfold c_adv. simpl. f_equal.
  - rewrite drop_drop. f_equal. lia.
  - destruct (c_stack c); simpl; [done|]. do 2 f_equal. lia.
  - destruct (c_rem c); simpl; [|done]. f_equal. lia.
Qed.

Lemma c_adv_0 c : c_adv 0 c = c.
Proof.
  destruct c as [r st rm]. unfold c_adv. simpl. f_equal.
  - destruct st as [|[p l] st]; simpl; [done|]. by rewrite Z.add_0_r.
  - destruct rm; simpl; [|done]. f_equal. lia.
Qed.

Lemma c_adv_rest a b c : c_rest c = a ++ b -> c_rest (c_adv (len a) c) = b.
Proof. intros E. unfold c_adv. simpl. by rewrite E, to_nat_len, drop_app_length. Qed.

Lemma c_can_adv n m c : 0 <= n -> 0 <= m -> c_can (n + m) c -> c_can m (c_adv n c).
Proof.
  intros ? ? (Hl & Hf & Hi). unfold c_can, fits, in_limit in *. simpl.
  rewrite len_drop. split; [lia|]. split.
  - destruct (c_stack c); simpl; [done|lia].
  - destruct (c_rem c); simpl; [lia|done].
Qed.

(** ** Primitive reads *)

Section Prims.
Context {R : Type} `{ReaderLaws R}.
Implicit Types s : stream R.

Definition cur s : cursor :=
  Cursor (rest (s_r s)) (stack s) (if limited s then Some (remaining s) else None).

(** Reads leave the scratch fields alone and re-arm [Kind]. *)
Definition frame s s' : Prop :=
  kind s' = None /\ uintbuf s' = uintbuf s /\ byteval s' = byteval s /\
  kinderr s' = kinderr s /\ limited s' = limited s.

Lemma takeLimit_spec n s :
  c_ok (cur s) -> 0 <= n ->
  (in_limit n (cur s) /\ exists s', takeLimit n s = (Ok tt, s') /\
    cur s' = Cursor (c_rest (cur s)) (c_stack (cur s)) (c_rem (c_adv n (cur s))) /\
    s_r s' = s_r s /\ kind s' = kind s /\ uintbuf s' = uintbuf s /\ byteval s' = byteval s /\
    kinderr s' = kinderr s /\ limited s' = limited s) \/
  (~ in_limit n (cur s) /\ takeLimit n s = (Err ErrValueTooLarge, s)).
Proof.
  intros (_ & _ & Hr) Hn. unfold takeLimit, in_limit, cur in *. simpl in *.
  destruct (limited s) eqn:El; simpl in *.
  2:{ left. split; [done|]. exists s. by rewrite El. }
  unfold u64_ok in Hr. destruct (Z.ltb_spec (remaining s) n); [right; split; [lia|done]|].
  left. split; [done|]. eexists. split; [done|].
  rewrite u64_small by (unfold u64_ok; lia). simpl. by rewrite El.
Qed.

Lemma willRead_spec n s :
  c_ok (cur s) -> u64_ok n ->
  (exists s', willRead n s = (Ok tt, s') /\ frame s s' /\ fits n (cur s) /\ in_limit n (cur s) /\
    cur s' = Cursor (c_rest (cur s)) (c_stack (c_adv n (cur s))) (c_rem (c_adv n (cur s))) /\
    s_r s' = s_r s) \/
  (exists e s', willRead n s = (Err e, s') /\ frame s s' /\ ~ (fits n (cur s) /\ in_limit n (cur s)) /\
    (e = ErrElemTooLarge \/ e = ErrValueTooLarge) /\ c_ok (cur s')).
Proof.
  intros Hok Hn. pose proof Hok as (Hb & Hs & Hr). unfold u64_ok in Hn.
  unfold willRead. simpl stack. simpl in Hs.
  destruct (stack s) as [|t st] eqn:Est.
  - destruct (takeLimit_spec n (set_kind None s)) as
      [(Hi & s' & -> & Ec & Er & F1 & F2 & F3 & F4 & F5)|(Hi & ->)]; [|lia|left|right].
    { unfold c_ok, cur in *. simpl in *. by rewrite Est in *. }
    + exists s'. split; [done|]. split; [done|]. unfold fits. simpl. rewrite Est. split; [done|].
      split; [done|]. rewrite Ec. simpl. by rewrite Est.
    + eexists _, _. split; [done|]. split; [done|]. split; [intros [_ C]; by apply Hi|].
      split; [by right|]. by unfold c_ok, cur in *.
  - destruct Hs as (Hp & Hsz & Hin & Hst).
    rewrite (u64_small (lsize t - pos t)) by (unfold u64_ok; lia).
    destruct (Z.ltb_spec (lsize t - pos t) n).
    { right. eexists _, _. split; [done|]. split; [done|]. unfold fits. simpl. rewrite Est.
      split; [lia|]. split; [by left|]. by unfold c_ok, cur in *. }
    rewrite u64_small by (unfold u64_ok; lia). set (s1 := set_stack _ _).
    assert (Ho1 : c_ok (cur s1)).
    { unfold c_ok, cur, s1 in *. simpl in *. split; [done|]. split; [|done].
      split; [lia|done]. }
    destruct (takeLimit_spec n s1) as
      [(Hi & s' & -> & Ec & Er & F1 & F2 & F3 & F4 & F5)|(Hi & ->)]; [done|lia|left|right].
    + exists s'. split; [done|]. split; [done|]. unfold fits. simpl. rewrite Est. split; [done|].
      split; [done|]. by rewrite Ec.
    + eexists _, _. split; [done|]. split; [done|]. split; [intros [_ C]; by apply Hi|].
      split; [by right|]. done.
Qed.

Lemma readByte_spec s :
  c_ok (cur s) ->
  (exists b s', readByte s = (Ok b, s') /\ frame s s' /\ c_can 1 (cur s) /\
    c_rest (cur s) = b :: c_rest (cur s') /\ cur s' = c_adv 1 (cur s)) \/
  (exists e s', readByte s = (Err e, s') /\ frame s s' /\ ~ c_can 1 (cur s) /\ c_ok (cur s') /\
    (e = ErrElemTooLarge \/ e = ErrValueTooLarge \/ e = io_ErrUnexpectedEOF)).
Proof.
  intros Hok. unfold readByte, bind.
  destruct (willRead_spec 1 s Hok ltac:(done)) as
    [(s1 & -> & F & Hf & Hi & Ec & Er)|(e & s1 & -> & F & Hn & He & Ho)].
  2:{ right. exists e, s1. split; [done|]. split; [done|]. split; [|by split; [|tauto]].
      intros (_ & ? & ?). by apply Hn. }
  pose proof (ReadByte_law (s_r s1)) as L. rewrite Er in L |- *.
  destruct (rd_ReadByte (s_r s)) as [[b|] r'].
  - left. exists b, (set_reader r' s1). split; [done|]. split; [done|].
    injection Ec as E1 E2 E3. simpl in *. rewrite L.
    split; [split; [simpl; rewrite L, len_cons; pose proof (len_nonneg (rest r')); lia|done]|].
    split; [done|]. unfold c_adv, cur. simpl. by rewrite L, E2, E3.
  - right. exists io_ErrUnexpectedEOF, (set_reader r' s1). split; [done|]. split; [done|].
    destruct L as [L1 L2]. split; [intros (Hl & _); simpl in Hl; rewrite L1 in Hl; done|].
    split; [|tauto]. injection Ec as E1 E2 E3.
    destruct (c_adv_ok 1 (cur s) ltac:(lia) Hf Hi Hok) as (_ & Hs & Hr).
    unfold c_ok, cur. simpl. rewrite L2, E2, E3. split; [constructor|]. done.
Qed.

Lemma readFull_loop_spec fuel n acc r :
  (n < fuel)%nat ->
  exists bs eof r', readFull_loop fuel n acc r = Some (acc ++ bs, eof, r') /\
    rest r = bs ++ rest r' /\
    (if eof : bool then (length (rest r) < n)%nat else length bs = n).
Proof.
  revert n acc r. induction fuel as [|f IH]; intros n acc r Hf; [lia|].
  destruct n as [|n]; simpl.
  { exists [], false, r. by rewrite app_nil_r. }
  destruct (rd_Read (S n) r) as [[bs eof] r'] eqn:E.
  apply Read_law in E as (E & Hl & He & Hb); [|lia].
  destruct eof.
  - assert (bs = []) as -> by (by apply He). exists [], true, r'. split; [done|]. split; [done|].
    rewrite Hb by done. simpl. lia.
  - destruct bs as [|b bs]; [by destruct He as [_ He]; specialize (He eq_refl)|].
    destruct (IH (S n - length (b :: bs))%nat (acc ++ b :: bs) r') as (bs' & eof & r2 & E2 & E3 & Hx).
    { simpl in *. lia. }
    exists ((b :: bs) ++ bs'), eof, r2. rewrite app_assoc, E, E3, app_assoc.
    split; [exact E2|]. split; [done|]. rewrite E3 in Hx.
    destruct eof; rewrite ?length_app in *; simpl in *; lia.
Qed.

Lemma readFull_spec n s :
  c_ok (cur s) -> u64_ok n ->
  (exists bs s', readFull n s = (Ok bs, s') /\ frame s s' /\ c_can n (cur s) /\
    len bs = n /\ c_rest (cur s) = bs ++ c_rest (cur s') /\ cur s' = c_adv n (cur s)) \/
  (exists e s', readFull n s = (Err e, s') /\ frame s s' /\ ~ c_can n (cur s) /\ c_ok (cur s') /\
    (e = ErrElemTooLarge \/ e = ErrValueTooLarge \/ e = io_ErrUnexpectedEOF)).
Proof.
  intros Hok Hn. unfold readFull, bind.
  destruct (willRead_spec n s Hok Hn) as
    [(s1 & -> & F & Hf & Hi & Ec & Er)|(e & s1 & -> & F & Hx & He & Ho)].
  2:{ right. exists e, s1. split; [done|]. split; [done|]. split; [|by split; [|tauto]].
      intros (_ & ? & ?). by apply Hx. }
  unfold u64_ok in Hn.
  destruct (readFull_loop_spec (S (Z.to_nat n)) (Z.to_nat n) [] (s_r s1)) as
    (bs & eof & r' & -> & E & Hx); [lia|]. rewrite Er in *. simpl app.
  injection Ec as E1 E2 E3. destruct eof.
  - right. eexists _, _. split; [done|]. split; [done|]. split.
    { intros (Hl & _). simpl in Hl. unfold len in Hl. lia. }
    split; [|tauto].
    destruct (c_adv_ok n (cur s) ltac:(lia) Hf Hi Hok) as (_ & Hs & Hr).
    destruct Hok as (Hb & _). simpl in Hb. rewrite E in Hb. apply bytes_ok_app in Hb as [_ Hb].
    unfold c_ok, cur. simpl. rewrite E2, E3. done.
  - left. eexists _, _. split; [done|]. split; [done|].
    assert (Lb : len bs = n) by (unfold len; lia). simpl.
    split; [split; [simpl; rewrite E, len_app; pose proof (len_nonneg (rest r')); lia|done]|].
    split; [done|]. split; [exact E|]. unfold c_adv, cur. simpl.
    rewrite E2, E3, E, <- Lb, to_nat_len, drop_app_length. done.
Qed.
End Prims.

(** ** Headers on a stream *)

(** The header bytes that announce a value of kind [k] and size [n]; a single
    byte is its own header and has size 0. *)
Definition is_head (k : Kind) (n : Z) (hd : list Z) : Prop :=
  match k with
  | KByte => n = 0 /\ exists b, hd = [b] /\ b < 128
  | _ => u64_ok n /\ hd = kind_head k n
  end.

(** The first byte of a header determines its shape. *)
Lemma is_head_first k n hd :
  is_head k n hd -> bytes_ok hd ->
  exists b t, hd = b :: t /\
    ((b < 0x80 /\ k = KByte /\ t = [] /\ n = 0) \/
     (0x80 <= b < 0xB8 /\ k = KString /\ t = [] /\ n = b - 0x80) \/
     (0xB8 <= b < 0xC0 /\ k = KString /\ len t = b - 0xB7 /\ n = be_val t /\ 56 <= n /\
       default 0 (head t) <> 0) \/
     (0xC0 <= b < 0xF8 /\ k = KList /\ t = [] /\ n = b - 0xC0) \/
     (0xF8 <= b /\ k = KList /\ len t = b - 0xF7 /\ n = be_val t /\ 56 <= n /\
       default 0 (head t) <> 0)).
Proof.
  assert (G : forall small large, u64_ok n ->
    exists b t, enc_head small large n = b :: t /\
      ((n < 56 /\ b = small + n /\ t = []) \/
       (56 <= n /\ b = large + len t /\ 1 <= len t <= 8 /\ n = be_val t /\ default 0 (head t) <> 0))).
  { intros small large Hn. unfold u64_ok in Hn. destruct (Z.ltb_spec n 56).
    - rewrite enc_head_small by done. eexists _, _. split; [done|]. by left.
    - rewrite enc_head_large by done. eexists _, _. split; [done|]. right.
      split; [done|]. split; [done|]. split; [apply size_bytes_range; lia|].
      split; [by rewrite be_val_big_bytes by lia|].
      destruct (big_bytes_head n ltac:(lia)) as (x & t & -> & Hx). simpl. lia. }
  intros Hh Hb. destruct k; simpl in Hh.
  - destruct Hh as (-> & b & -> & ?). exists b, []. by split; [|left].
  - destruct Hh as (Hn & ->). unfold str_head in *. destruct (G 0x80 0xB7 Hn) as (b & t & E & Hc).
    unfold u64_ok in Hn. rewrite E. exists b, t. split; [done|].
    destruct Hc as [(? & -> & ->)|(? & -> & ? & ? & ?)]; [right; left|right; right; left];
      split_and!; try done; lia.
  - destruct Hh as (Hn & ->). unfold list_head in *. destruct (G 0xC0 0xF7 Hn) as (b & t & E & Hc).
    unfold u64_ok in Hn. rewrite E. exists b, t. split; [done|].
    destruct Hc as [(? & -> & ->)|(? & -> & ? & ? & ?)]; right; right; right; [left|right];
      split_and!; try done; lia.
Qed.

(** Headers are prefix-free and determine kind and size. *)
Lemma is_head_unique k n hd t k' n' hd' t' :
  is_head k n hd -> is_head k' n' hd' -> bytes_ok (hd ++ t) -> hd ++ t = hd' ++ t' ->
  k = k' /\ n = n' /\ hd = hd' /\ t = t'.
Proof.
  intros H H' Hb E. pose proof Hb as Hb'. rewrite E in Hb'.
  apply bytes_ok_app in Hb as [Hb _]. apply bytes_ok_app in Hb' as [Hb' _].
  destruct (is_head_first _ _ _ H Hb) as (b & u & -> & C).
  destruct (is_head_first _ _ _ H' Hb') as (b' & u' & -> & C').
  simpl in E. injection E as <- E.
  assert (L : len u = len u').
  { decompose [or and] C; decompose [or and] C'; subst; try lia; rewrite ?len_nil; lia. }
  apply app_inj_1 in E as [-> ->]; [|unfold len in L; lia].
  decompose [or and] C; decompose [or and] C'; subst; try lia; done.
Qed.

Section Heads.
Context {R : Type} `{ReaderLaws R}.
Implicit Types s : stream R.

(** What reads may change besides the cursor. *)
Definition keeps s s' : Prop :=
  length (uintbuf s') = 8%nat /\ limited s' = limited s /\ kinderr s' = kinderr s.

Lemma frame_keeps s s' : length (uintbuf s) = 8%nat -> frame s s' -> keeps s s'.
Proof. intros Hu (_ & E & _ & ? & ?). unfold keeps. by rewrite E. Qed.

Lemma readUint_spec sz s :
  c_ok (cur s) -> 1 <= sz <= 8 -> length (uintbuf s) = 8%nat ->
  (exists bs s',
    readUint sz s = ((if (1 <? sz) && (default 0 (head bs) =? 0) then Err ErrCanonSize
                      else Ok (be_val bs)), s') /\
    keeps s s' /\ kind s' = None /\ byteval s' = byteval s /\ c_can sz (cur s) /\ len bs = sz /\
    c_rest (cur s) = bs ++ c_rest (cur s') /\ cur s' = c_adv sz (cur s)) \/
  (exists e s', readUint sz s = (Err e, s') /\ keeps s s' /\ kind s' = None /\
    byteval s' = byteval s /\ ~ c_can sz (cur s) /\ c_ok (cur s') /\
    (e = ErrElemTooLarge \/ e = ErrValueTooLarge \/ e = io_ErrUnexpectedEOF)).
Proof.
  intros Hok Hsz Hu. unfold readUint. destruct (Z.eqb_spec sz 0); [lia|].
  destruct (Z.eqb_spec sz 1) as [->|].
  - destruct (readByte_spec s Hok) as [(b & s' & -> & F & Hc & E & Ec)|(e & s' & -> & F & Hc & Ho & He)].
    + left. exists [b], s'. split; [unfold be_val; simpl; f_equal; f_equal; lia|].
      split; [by apply frame_keeps|]. destruct F as (? & _ & ? & _). by split_and!.
    + right. exists e, s'. split; [done|]. split; [by apply frame_keeps|].
      destruct F as (? & _ & ? & _). by split_and!.
  - rewrite u8_small by (unfold byte_ok; lia). destruct (Z.ltb_spec 8 (8 - sz)); [lia|].
    replace (8 - (8 - sz)) with sz by lia. unfold bind.
    destruct (readFull_spec sz s Hok ltac:(unfold u64_ok; lia)) as
      [(bs & s' & -> & F & Hc & Hl & E & Ec)|(e & s' & -> & F & Hc & Ho & He)].
    + left. exists bs, (set_uintbuf (zeros (8 - sz) ++ bs) s').
      assert (Hz : length (zeros (8 - sz)) = Z.to_nat (8 - sz)) by (unfold zeros; apply length_replicate).
      rewrite lookup_app_r, Hz, Nat.sub_diag by lia.
      destruct bs as [|b bs]; [rewrite len_nil in Hl; lia|]. simpl lookup.
      assert (V : be_val (zeros (8 - sz) ++ b :: bs) = be_val (b :: bs)).
      { rewrite be_val_app. unfold zeros.
        enough (be_val (replicate (Z.to_nat (8 - sz)) 0) = 0) as -> by lia.
        generalize (Z.to_nat (8 - sz)). intros m. induction m as [|m IHm]; [done|].
        change (replicate (S m) 0) with (0 :: replicate m 0). rewrite be_val_cons, IHm. lia. }
      rewrite V. destruct (Z.ltb_spec 1 sz); [|lia]. simpl.
      split; [by destruct (b =? 0)|]. destruct F as (? & ? & ? & ? & ?).
      split; [split_and!; try done; simpl; rewrite length_app, Hz; simpl; rewrite len_cons in Hl; unfold len in Hl; lia|].
      by split_and!.
    + right. exists e, s'. split; [done|]. split; [by apply frame_keeps|].
      destruct F as (? & _ & ? & _). by split_and!.
Qed.

(** The result [(k, n, e)] of reading a header at [s]: without an error the
    header has been consumed, and an error means that there is none that can
    be read. *)
Definition head_result s (k : Kind) (n : Z) (e : option rlp_error) s' : Prop :=
  keeps s s' /\ c_ok (cur s') /\
  match e with
  | None =>
      exists hd, is_head k n hd /\ c_rest (cur s) = hd ++ c_rest (cur s') /\
        c_can (len hd) (cur s) /\ cur s' = c_adv (len hd) (cur s) /\
        (k = KByte -> hd = [byteval s'])
  | Some e =>
      e <> EOL /\
      forall k n hd t, is_head k n hd -> c_rest (cur s) = hd ++ t -> ~ c_can (len hd) (cur s)
  end.

(** After the tag byte [b], headers that are the tag byte only. *)
Lemma head_result_small s s1 s' b k n :
  c_ok (cur s1) -> keeps s s1 -> c_can 1 (cur s) -> c_rest (cur s) = b :: c_rest (cur s1) ->
  cur s1 = c_adv 1 (cur s) -> cur s' = cur s1 -> keeps s1 s' -> is_head k n [b] ->
  (k = KByte -> byteval s' = b) -> head_result s k n None s'.
Proof.
  intros Hok1 (? & ? & ?) Hc E Ec Es' (? & ? & ?) Hh Hbv. split; [split_and!; congruence|].
  rewrite Es'. split; [done|]. exists [b]. split; [done|]. rewrite E. split; [done|].
  split; [done|]. split; [done|]. intros Ek. by rewrite Hbv.
Qed.

(** After the tag byte [b], headers with a separate size. *)
Lemma head_result_sized s s1 b small large k :
  (k = KString /\ small = 0x80 /\ large = 0xB7 \/ k = KList /\ small = 0xC0 /\ large = 0xF7) ->
  1 <= b - large <= 8 -> c_ok (cur s) -> c_ok (cur s1) -> keeps s s1 -> c_can 1 (cur s) ->
  c_rest (cur s) = b :: c_rest (cur s1) -> cur s1 = c_adv 1 (cur s) ->
  exists n e s', sizedKind k (readUint (b - large)) s1 = (Ok (k, n, e), s') /\
    head_result s k n e s'.
Proof.
  intros Hk Hsz Hok Hok1 K1 Hc1 E Ec1. unfold sizedKind, head_result. pose proof K1 as (Hu1 & Kl & Ke).
  assert (Hb : bytes_ok (c_rest (cur s))) by apply Hok.
  assert (First : forall k' n' hd t, is_head k' n' hd -> c_rest (cur s) = hd ++ t ->
    exists u, hd = b :: u /\ len u = b - large /\ c_rest (cur s1) = u ++ t /\
      k' = k /\ n' = be_val u /\ 56 <= n' /\ default 0 (head u) <> 0).
  { intros k' n' hd t Hh Eh. destruct (is_head_first k' n' hd Hh) as (b' & u & -> & C).
    { rewrite Eh in Hb. by apply bytes_ok_app in Hb as [? _]. }
    rewrite Eh in E. simpl in E. injection E as Eb' Er. subst b'. exists u. split; [done|].
    simpl. rewrite Er.
    decompose [or and] Hk; decompose [or and] C; subst; try lia; by split_and!. }
  assert (Tot : forall u, len u = b - large -> c_can (len (b :: u)) (cur s) <-> c_can (b - large) (cur s1)).
  { intros u Hl. rewrite len_cons, Hl, Ec1. split; [by apply c_can_adv; lia|].
    destruct Hc1 as (H1 & H2 & H3). intros (H4 & H5 & H6). unfold c_can, fits, in_limit in *. simpl in *.
    rewrite len_drop in H4. split; [lia|]. destruct (stack s), (limited s); simpl in *; lia. }
  destruct (readUint_spec (b - large) s1 Hok1 Hsz Hu1) as
    [(bs & s' & -> & (? & ? & ?) & Hk' & _ & Hc & Hl & E2 & Ec2)|(e & s' & -> & (? & ? & ?) & _ & _ & Hc & Ho & He)].
  - assert (Ho' : c_ok (cur s')).
    { rewrite Ec2. destruct Hc as (_ & ? & ?). apply c_adv_ok; [lia|done..]. }
    assert (KK : keeps s s') by (split_and!; congruence).
    destruct ((1 <? b - large) && (default 0 (head bs) =? 0)) eqn:Et.
    { eexists _, _, _. split; [done|]. split; [done|]. split; [done|]. split; [done|].
      intros k' n' hd t Hh Eh. destruct (First k' n' hd t Hh Eh) as (u & -> & Lu & Eu & _ & _ & _ & Hd).
      rewrite E2 in Eu. apply app_inj_1 in Eu as [-> _]; [|unfold len in *; lia]. lia. }
    destruct (Z.ltb_spec (be_val bs) 56).
    { eexists _, _, _. split; [done|]. split; [done|]. split; [done|]. split; [done|].
      intros k' n' hd t Hh Eh. destruct (First k' n' hd t Hh Eh) as (u & -> & Lu & Eu & _ & -> & ? & _).
      rewrite E2 in Eu. apply app_inj_1 in Eu as [-> _]; [|unfold len in *; lia]. lia. }
    assert (Hbs : bytes_ok bs).
    { rewrite E, E2 in Hb. apply Forall_cons in Hb as [_ Hb]. by apply bytes_ok_app in Hb as [? _]. }
    assert (Hd : head bs <> Some 0).
    { destruct bs as [|x [|y bs]]; [done| |].
      - unfold be_val in *. simpl in *. intros [= ->]. lia.
      - rewrite !len_cons in Hl. pose proof (len_nonneg bs). simpl in *. intros [= ->]. simpl in Et. lia. }
    pose proof (be_val_bound bs Hbs) as Bd. rewrite Hl in Bd.
    assert (256 ^ (b - large) <= 256 ^ 8) by (apply Z.pow_le_mono_r; lia).
    assert (Eh : b :: bs = enc_head small large (be_val bs)).
    { rewrite enc_head_large, big_bytes_be_val by done. f_equal. lia. }
    eexists _, _, _. split; [done|]. split; [done|]. split; [done|]. exists (b :: bs).
    split. { assert (u64_ok (be_val bs)) by (unfold u64_ok; simpl in *; lia).
             decompose [or and] Hk; subst; by split. }
    rewrite E, E2. split; [done|]. split; [by apply Tot|]. rewrite Ec2, Ec1, c_adv_adv, len_cons, Hl by lia.
    split; [done|]. intros ->. decompose [or and] Hk; done.
  - eexists _, _, _. split; [done|]. split; [split_and!; congruence|]. split; [done|].
    split; [by destruct He as [->|[->| ->]]|]. intros k' n' hd t Hh Eh Hcan. destruct (First k' n' hd t Hh Eh) as (u & -> & Lu & _).
    apply Hc. by apply (Tot u).
Qed.

Lemma s_readKind_spec s :
  c_ok (cur s) -> length (uintbuf s) = 8%nat ->
  exists k n e s', s_readKind s = (Ok (k, n, e), s') /\ head_result s k n e s'.
Proof.
  intros Hok Hu. unfold s_readKind. assert (Hb : bytes_ok (c_rest (cur s))) by apply Hok.
  destruct (readByte_spec s Hok) as [(b & s1 & -> & F & Hc & E & Ec)|(e & s1 & -> & F & Hc & Ho & He)].
  2:{ eexists _, _, _, _. split; [done|]. split; [by apply frame_keeps|]. split; [done|].
      split; [by destruct He as [->|[->| ->]], (stack s1)|].
      intros k n hd t Hh Eh Hcan. apply Hc. eapply c_can_mono; [|done].
      destruct (is_head_first k n hd) as (b & u & -> & _); [done| |].
      { rewrite Eh in Hb. by apply bytes_ok_app in Hb as [? _]. }
      rewrite len_cons. pose proof (len_nonneg u). lia. }
  pose proof (frame_keeps _ _ Hu F) as K1.
  assert (Hok1 : c_ok (cur s1)).
  { rewrite Ec. destruct Hc as (_ & ? & ?). apply c_adv_ok; [lia|done..]. }
  assert (Hbb : byte_ok b) by (rewrite E in Hb; by apply Forall_cons in Hb as [? _]).
  assert (K2 : keeps s1 (set_byteval 0 s1)) by (split; [apply K1|done]).
  assert (K3 : keeps s (set_byteval 0 s1)) by done.
  unfold byte_ok in Hbb.
  destruct (Z.ltb_spec b 0x80).
  { eexists _, _, _, _. split; [done|]. eapply (head_result_small s s1); try done.
    split; [done|]. by exists b. }
  destruct (Z.ltb_spec b 0xB8).
  { rewrite u8_small by (unfold byte_ok; lia). eexists _, _, _, _. split; [done|].
    eapply (head_result_small s s1 _ b); try done. split; [unfold u64_ok; lia|].
    unfold kind_head, str_head. rewrite enc_head_small by lia. f_equal. lia. }
  destruct (Z.ltb_spec b 0xC0).
  { rewrite u8_small by (unfold byte_ok; lia). eexists KString.
    eapply (head_result_sized s (set_byteval 0 s1)); try done; [by left|lia]. }
  destruct (Z.ltb_spec b 0xF8).
  { rewrite u8_small by (unfold byte_ok; lia). eexists _, _, _, _. split; [done|].
    eapply (head_result_small s s1 _ b); try done. split; [unfold u64_ok; lia|].
    unfold kind_head, list_head. rewrite enc_head_small by lia. f_equal. lia. }
  rewrite u8_small by (unfold byte_ok; lia). eexists KList.
  eapply (head_result_sized s (set_byteval 0 s1)); try done; [by right|lia].
Qed.

(** ** Kind *)

Definition at_end (c : cursor) : Prop :=
  match c_stack c with t :: _ => pos t = lsize t | [] => False end.

#[global] Instance at_end_dec c : Decision (at_end c).
Proof. unfold at_end. destruct (c_stack c); apply _. Defined.

(** The invariant of a stream between calls. *)
Definition stream_ok s : Prop :=
  c_ok (cur s) /\ length (uintbuf s) = 8%nat /\
  match kind s, kinderr s with
  | Some k, None =>
      u64_ok (ssize s) /\ fits (ssize s) (cur s) /\
      (stack s = [] -> in_limit (ssize s) (cur s)) /\ (k = KByte -> ssize s = 0)
  | _, _ => True
  end.

(** A value of kind [k] and size [n] is ahead. *)
Definition cached (k : Kind) (n : Z) s : Prop :=
  kind s = Some k /\ kinderr s = None /\ ssize s = n.

Lemma Stream_Kind_cached k n s : cached k n s -> Stream_Kind s = (Ok (k, n), s).
Proof. intros (E1 & E2 & E3). unfold Stream_Kind. by rewrite E1, E2, E3. Qed.

Lemma Stream_Kind_end s :
  kind s = None -> at_end (cur s) -> Stream_Kind s = (Err EOL, set_kinderr None s).
Proof.
  intros E He. unfold Stream_Kind, at_end in *. rewrite E. simpl in *.
  destruct (stack s) as [|t st]; [done|]. by rewrite He, Z.eqb_refl.
Qed.

(** A fresh call of [Kind] that is not at the end of a list. *)
Lemma Stream_Kind_fresh s :
  stream_ok s -> kind s = None -> ~ at_end (cur s) ->
  (exists k n hd s', Stream_Kind s = (Ok (k, n), s') /\ is_head k n hd /\
    c_rest (cur s) = hd ++ c_rest (cur s') /\ c_can (len hd) (cur s) /\
    cur s' = c_adv (len hd) (cur s) /\ (k = KByte -> hd = [byteval s']) /\
    cached k n s' /\ stream_ok s') \/
  (exists e s', Stream_Kind s = (Err e, s') /\ e <> EOL /\ stream_ok s' /\
    forall k n hd t, is_head k n hd -> c_rest (cur s) = hd ++ t -> ~ c_can (len hd + n) (cur s)).
Proof.
  intros (Hok & Hu & _) Ek Hne. unfold Stream_Kind. rewrite Ek.
  assert ((match stack (set_kinderr None s) with
           | [] => false | tos :: _ => pos tos =? lsize tos end) = false) as ->.
  { unfold at_end in Hne. simpl in *. destruct (stack s); [done|]. by apply Z.eqb_neq. }
  destruct (s_readKind_spec (set_kinderr None s) Hok Hu) as (k & n & e & s1 & E & (Ku & Kl & Ke) & Ho & Hr).
  unfold bind. rewrite E. change (cur (set_kinderr None s)) with (cur s) in Hr.
  destruct e as [e|].
  { right. eexists _, _. split; [done|]. destruct Hr as [Hne' Hr]. split; [done|].
    split; [by split|]. intros k' n' hd t Hh Eh Hcan. eapply Hr; [done..|].
    eapply c_can_mono; [|done]. destruct k'; simpl in Hh; unfold u64_ok in Hh; lia. }
  destruct Hr as (hd & Hh & Eh & Hc & Ec & Hbv).
  assert (Hn : u64_ok n) by (destruct k; simpl in Hh; [by destruct Hh as (-> & _)|tauto..]).
  unfold u64_ok in Hn. pose proof (len_nonneg hd) as Lh.
  assert (Uniq : forall k' n' hd' t, is_head k' n' hd' -> c_rest (cur s) = hd' ++ t -> n' = n /\ hd' = hd).
  { intros k' n' hd' t Hh' Eh'. destruct Hok as (Hb & _). rewrite Eh' in Eh, Hb.
    by destruct (is_head_unique _ _ _ _ _ _ _ _ Hh' Hh Hb Eh) as (_ & -> & -> & _). }
  set (chk := match stack s1 with [] => _ | _ => _ end).
  assert (Chk : (chk = None /\ fits n (cur s1) /\ (stack s1 = [] -> in_limit n (cur s1))) \/
    (exists e, chk = Some e /\ e <> EOL /\ ~ (fits n (cur s1) /\ in_limit n (cur s1)))).
  { subst chk. unfold fits, in_limit. simpl. destruct Ho as (_ & Hst & Hrem). simpl in Hst, Hrem.
    destruct (stack s1) as [|t st].
    - destruct (limited s1); simpl; [|left; done]. unfold u64_ok in Hrem.
      destruct (Z.ltb_spec (remaining s1) n); [right; eexists; split_and!; [done..|lia]|left; split_and!; try done].
    - destruct Hst as (? & ? & _). rewrite u64_small by (unfold u64_ok; lia).
      destruct (Z.ltb_spec (lsize t - pos t) n); [right; eexists; split_and!; [done..|lia]|left; split_and!; try done]. }
  destruct Chk as [(-> & Hf & Hi)|(e & -> & He & Hx)].
  - left. exists k, n, hd. eexists. split; [done|]. split; [done|]. split; [done|].
    split; [done|]. split; [done|]. split; [done|]. split; [done|]. split; [done|]. split; [done|].
    simpl. split; [unfold u64_ok; lia|]. split; [done|]. split; [done|].
    intros ->. by destruct Hh as (-> & _).
  - right. eexists _, _. split; [done|]. split; [done|]. split; [by split|].
    intros k' n' hd' t Hh' Eh' Hcan. destruct (Uniq _ _ _ _ Hh' Eh') as (-> & ->).
    apply Hx. rewrite Ec. apply c_can_adv in Hcan; [|lia..]. by destruct Hcan as (_ & ? & ?).
Qed.
End Heads.

(** ** Reading one value

    A value [it] stands at the cursor [c0] and can be read.  The operations
    are specified on streams that are there, whether or not [Kind] has already
    read the header. *)
Definition item_at (c : cursor) (it : item) : Prop :=
  c_ok c /\ (exists t, c_rest c = rlp_enc it ++ t) /\ c_can (len (rlp_enc it)) c /\
  len (rlp_enc it) < 2 ^ 64.

Definition item_hd (it : item) : list Z :=
  match item_kind it with KByte => payload it | k => kind_head k (len (payload it)) end.

(** The size [Kind] reports. *)
Definition psize (it : item) : Z :=
  match item_kind it with KByte => 0 | _ => len (payload it) end.

Lemma item_hd_is_head it :
  len (rlp_enc it) < 2 ^ 64 ->
  is_head (item_kind it) (psize it) (item_hd it) /\
  len (item_hd it) + psize it = len (rlp_enc it) /\ 0 <= psize it.
Proof.
  intros Hl. rewrite rlp_enc_parts, len_app in *. unfold psize, item_hd.
  pose proof (len_nonneg (payload it)).
  pose proof (len_nonneg (kind_head (item_kind it) (len (payload it)))).
  assert (C : canon (item_kind it) (payload it)) by apply shallow_item.
  destruct (item_kind it); simpl in *; unfold u64_ok.
  - apply self_byte_spec in C as (b & -> & Hb). split; [|by simpl]. split; [done|]. by exists b.
  - split; [split; [lia|done]|]. lia.
  - split; [split; [lia|done]|]. lia.
Qed.

Section Items.
Context {R : Type} `{ReaderLaws R}.
Implicit Types s : stream R.

Definition fresh (c : cursor) s : Prop :=
  length (uintbuf s) = 8%nat /\ kind s = None /\ cur s = c.

Definition peeked (c0 : cursor) (it : item) s : Prop :=
  length (uintbuf s) = 8%nat /\ cached (item_kind it) (psize it) s /\
  cur s = c_adv (len (item_hd it)) c0 /\
  (item_kind it = KByte -> payload it = [byteval s]).

Definition ready (c0 : cursor) (it : item) s : Prop := fresh c0 s \/ peeked c0 it s.

Lemma fresh_ok c s : c_ok c -> fresh c s -> stream_ok s.
Proof. intros Hc (Hu & Hk & <-). split; [done|]. split; [done|]. by rewrite Hk. Qed.

(** What is left when the header has been read. *)
Lemma item_at_peek c0 it :
  item_at c0 it ->
  c_ok (c_adv (len (item_hd it)) c0) /\
  c_can (psize it) (c_adv (len (item_hd it)) c0) /\
  (item_kind it <> KByte -> exists t,
     c_rest (c_adv (len (item_hd it)) c0) = payload it ++ t) /\
  c_adv (psize it) (c_adv (len (item_hd it)) c0) = c_adv (len (rlp_enc it)) c0.
Proof.
  intros (Hok & (t & Et) & Hc & Hl). destruct (item_hd_is_head it Hl) as (_ & Hs & Hp).
  pose proof (len_nonneg (item_hd it)). rewrite <- Hs in Hc.
  split. { pose proof Hc as (_ & Hf & Hi). apply c_adv_ok; [lia| | |done].
    - eapply fits_mono; [|done]. lia.
    - eapply in_limit_mono; [|done]. lia. }
  split; [by apply c_can_adv; [lia..|]|].
  split; [|rewrite c_adv_adv by lia; by rewrite Hs].
  intros Hk. exists t. apply c_adv_rest. rewrite Et, rlp_enc_parts, <- app_assoc.
  unfold item_hd. by destruct (item_kind it).
Qed.

Lemma item_at_not_end c0 it : item_at c0 it -> ~ at_end c0.
Proof.
  intros (_ & _ & (_ & Hf & _) & _). pose proof (rlp_enc_len_pos it).
  unfold at_end, fits in *. destruct (c_stack c0); [tauto|]. lia.
Qed.

Lemma Kind_ready c0 it s :
  item_at c0 it -> ready c0 it s ->
  exists s', Stream_Kind s = (Ok (item_kind it, psize it), s') /\ peeked c0 it s'.
Proof.
  intros Hat [Hf|Hp].
  2:{ exists s. split; [|done]. apply Stream_Kind_cached, Hp. }
  pose proof Hat as (Hok & (t & Et) & Hc & Hl). pose proof Hf as (Hu & Hk & Ec).
  destruct (item_hd_is_head it Hl) as (Hh & Hs & Hps).
  assert (Er : c_rest c0 = item_hd it ++ match item_kind it with KByte => t | _ => payload it ++ t end).
  { rewrite Et, rlp_enc_parts, <- app_assoc. unfold item_hd. by destruct (item_kind it). }
  destruct (Stream_Kind_fresh s) as
    [(k & n & hd & s' & -> & Hh' & Eh & Hc' & Ec' & Hbv & Hca & Ho)|(e & s' & _ & _ & _ & Hno)].
  - by eapply fresh_ok.
  - done.
  - rewrite Ec. by eapply item_at_not_end.
  - rewrite Ec in *. pose proof Hok as (Hb & _). rewrite Er in Eh, Hb.
    destruct (is_head_unique _ _ _ _ _ _ _ _ Hh Hh' Hb Eh) as (Ek & En & Ehd & Et').
    { rewrite <- Ek, <- En in *. exists s'. split; [done|]. split; [apply Ho|]. split; [done|].
      rewrite Ehd. split; [done|]. intros Eb. rewrite Eb in Hbv. unfold item_hd in Ehd. rewrite Eb in Ehd.
      rewrite Ehd. by apply Hbv. }
  - exfalso. rewrite Ec in Hno. apply (Hno _ _ _ _ Hh Er). by rewrite Hs.
Qed.

(** Reading the payload after the header. *)
Lemma readFull_peeked c0 it s :
  item_at c0 it -> peeked c0 it s -> item_kind it <> KByte ->
  exists s', readFull (len (payload it)) s = (Ok (payload it), s') /\
    fresh (c_adv (len (rlp_enc it)) c0) s'.
Proof.
  intros Hat (Hu & _ & Ec & _) Hk.
  destruct (item_at_peek c0 it Hat) as (Hok & Hc & Hr & Ea). destruct (Hr Hk) as (t & Et).
  assert (Hps : psize it = len (payload it)) by (unfold psize; by destruct (item_kind it)).
  rewrite Hps, <- Ec in *. destruct Hat as (_ & _ & _ & Hl).
  destruct (item_hd_is_head it Hl) as (_ & Hs & _). pose proof (len_nonneg (item_hd it)).
  pose proof (len_nonneg (payload it)). rewrite Hps in Hs.
  destruct (readFull_spec (len (payload it)) s Hok ltac:(unfold u64_ok; lia)) as
    [(bs & s' & -> & F & _ & Hlb & Eb & Ecs)|(e & s' & _ & _ & Hn & _)]; [|by destruct Hn].
  exists s'. rewrite Et in Eb. apply app_inj_1 in Eb as [<- _]; [|unfold len in *; lia].
  split; [done|]. destruct F as (Fk & Fu & _). split; [by rewrite Fu|]. split; [done|].
  by rewrite Ecs.
Qed.

Lemma Bytes_ready c0 bs s :
  item_at c0 (Str bs) -> len bs <= maxAlloc -> ready c0 (Str bs) s ->
  exists s', Stream_Bytes s = (Ok bs, s') /\ fresh (c_adv (len (rlp_enc (Str bs))) c0) s'.
Proof.
  intros Hat Hm Hr. destruct (Kind_ready _ _ _ Hat Hr) as (s1 & E & Hp).
  unfold Stream_Bytes, bind. rewrite E. pose proof Hp as (Hu & Hca & Ec & Hb).
  destruct (item_kind (Str bs)) eqn:Ek.
  - specialize (Hb eq_refl). simpl in Hb. subst bs. eexists. split; [done|].
    destruct (item_at_peek _ _ Hat) as (_ & _ & _ & Ea). split; [done|]. split; [done|].
    rewrite <- Ea. unfold psize. rewrite Ek, c_adv_0. exact Ec.
  - unfold psize. rewrite Ek. change (payload (Str bs)) with bs in *.
    destruct (Z.ltb_spec maxAlloc (len bs)); [lia|].
    destruct (readFull_peeked c0 (Str bs) s1 Hat Hp) as (s2 & E2 & F); [by rewrite Ek|].
    change (payload (Str bs)) with bs in *. rewrite E2. simpl in Ek. destruct (self_byte bs) eqn:Es; [done|].
    assert (((len bs =? 1) && (default 0 (bs !! 0%nat) <? 128)) = false) as ->.
    { destruct bs as [|x [|y bs]]; [done| |].
      - simpl in *. by rewrite Es.
      - rewrite !len_cons. pose proof (len_nonneg bs). destruct (Z.eqb_spec (1 + (1 + len bs)) 1); [lia|done]. }
    exists s2. split; [done|]. exact F.
  - simpl in Ek. by destruct (self_byte bs).
Qed.

Lemma List_ready c0 its s :
  item_at c0 (Lst its) -> ready c0 (Lst its) s ->
  exists s', Stream_List s = (Ok (len (rlp_encs its)), s') /\
    fresh (Cursor (c_rest (c_adv (len (list_head (len (rlp_encs its)))) c0))
                  (Listpos 0 (len (rlp_encs its)) :: bump (len (list_head (len (rlp_encs its)))) (c_stack c0))
                  (c_rem (c_adv (len (list_head (len (rlp_encs its)))) c0))) s'.
Proof.
  intros Hat Hr. destruct (Kind_ready _ _ _ Hat Hr) as (s1 & E & Hp).
  unfold Stream_List, bind. rewrite E. simpl. eexists. split; [done|].
  destruct Hp as (Hu & Hca & Ec & _). split; [done|]. split; [done|].
  unfold item_hd in Ec. simpl in Ec. injection Ec as E1 E2 E3.
  unfold cur. simpl. by rewrite E1, E2, E3.
Qed.

(** [Raw] reconstructs the header it has already consumed. *)
Lemma Raw_ready c0 it s :
  item_at c0 it -> len (rlp_enc it) <= maxAlloc -> ready c0 it s ->
  exists s', Stream_Raw s = (Ok (rlp_enc it), s') /\ fresh (c_adv (len (rlp_enc it)) c0) s'.
Proof.
  intros Hat Hm Hr. destruct (Kind_ready _ _ _ Hat Hr) as (s1 & E & Hp).
  unfold Stream_Raw, bind. rewrite E. pose proof Hp as (Hu & Hca & Ec & Hb).
  destruct (item_at_peek _ _ Hat) as (_ & _ & _ & Ea).
  pose proof (rlp_enc_parts it) as Parts.
  case_decide as Ek.
  - eexists. rewrite (Hb Ek), Ek in Parts. simpl in Parts. rewrite Parts. split; [done|].
    split; [done|]. split; [done|]. rewrite <- Parts, <- Ea. unfold psize. rewrite Ek, c_adv_0. exact Ec.
  - destruct (readFull_peeked c0 it s1 Hat Hp Ek) as (s2 & E2 & F).
    assert (Eps : psize it = len (payload it)) by (unfold psize; by destruct (item_kind it)).
    rewrite Eps. destruct Hat as (_ & _ & _ & Hl). rewrite Parts, len_app in Hl, Hm.
    pose proof (len_nonneg (payload it)). set (n := len (payload it)) in *.
    assert (Hk : exists small large, kind_head (item_kind it) n = enc_head small large n /\
      0 <= small <= 0xC8 /\ 0 <= large <= 0xF7 /\
      forall buf, (if decide (item_kind it = KString) then puthead buf 0x80 0xB7 n
       else puthead buf 0xC0 0xF7 n) = puthead buf small large n).
    { destruct (item_kind it); [done|exists 0x80, 0xB7|exists 0xC0, 0xF7]; split_and!; done || lia. }
    destruct Hk as (small & large & Eh & Hsm & Hlg & Eput).
    assert (Hn : u64_ok n) by (unfold u64_ok; pose proof (len_nonneg (kind_head (item_kind it) n)); lia).
    rewrite (headsize_spec small large n Hn), <- Eh. set (h := kind_head (item_kind it) n) in *.
    pose proof (len_nonneg h).
    assert (Hsum : u64 (u64 (len h) + n) = len h + n)
      by (rewrite (u64_small (len h)), u64_small; [done|unfold u64_ok in *..]; lia).
    rewrite Hsum. destruct (Z.ltb_spec maxAlloc (len h + n)); [lia|].
    destruct (Z.ltb_spec (len h + n) (len h)); [lia|].
    change (false || false) with false. cbv iota beta.
    replace (len h + n - len h) with n by lia. rewrite E2, Eput.
    rewrite puthead_spec by done. rewrite <- Eh. fold h. rewrite store_app; [|unfold zeros; rewrite length_replicate; apply to_nat_len].
    exists s2. split; [by rewrite Parts|done].
Qed.

Lemma uint_ready c0 n maxbits s :
  item_at c0 (Str (big_bytes n)) -> 0 <= n < 2 ^ maxbits -> (maxbits = 8 \/ maxbits = 16 \/ maxbits = 32 \/ maxbits = 64) ->
  ready c0 (Str (big_bytes n)) s ->
  exists s', Stream_uint maxbits s = (Ok n, s') /\ fresh (c_adv (len (rlp_enc (Str (big_bytes n)))) c0) s'.
Proof.
  intros Hat Hn Hm Hr. destruct (Kind_ready _ _ _ Hat Hr) as (s1 & E & Hp).
  unfold Stream_uint, bind. rewrite E. pose proof Hp as (Hu & Hca & Ec & Hb).
  destruct (item_at_peek _ _ Hat) as (Hok1 & Hcan & Hrest & Ea).
  assert (Hlen : len (big_bytes n) <= maxbits / 8).
  { replace (maxbits / 8) with (Z.of_nat (Z.to_nat (maxbits / 8))) by (decompose [or] Hm; subst; done).
    apply big_bytes_len_le. rewrite Z2Nat.id by (decompose [or] Hm; subst; done).
    decompose [or] Hm; subst; done. }
  assert (H8 : maxbits / 8 <= 8) by (decompose [or] Hm; subst; done).
  destruct (item_kind (Str (big_bytes n))) eqn:Ek.
  - specialize (Hb eq_refl). simpl in Hb. pose proof (be_val_big_bytes n ltac:(lia)) as V.
    rewrite Hb in V. unfold be_val in V. simpl in V.
    assert (Hnz : n <> 0) by (intros ->; done). rewrite Z.add_0_l in V. subst n.
    destruct (Z.eqb_spec (byteval s1) 0); [lia|]. eexists. split; [done|].
    split; [done|]. split; [done|]. rewrite <- Ea.
    unfold psize. rewrite Ek, c_adv_0. exact Ec.
  - unfold psize in *. rewrite Ek in *. change (payload (Str (big_bytes n))) with (big_bytes n) in *.
    destruct (Z.ltb_spec (maxbits / 8) (len (big_bytes n))); [lia|].
    rewrite u8_small by (unfold byte_ok; pose proof (len_nonneg (big_bytes n)); lia).
    destruct (decide (n = 0)) as [->|Hnz].
    { eexists. split; [done|]. split; [done|]. split; [done|].
      rewrite <- Ea. simpl. rewrite c_adv_0. exact Ec. }
    pose proof (big_bytes_len_pos n ltac:(lia)) as Hl1. rewrite <- Ec in Hok1, Hcan, Ea, Hrest.
    destruct (Hrest ltac:(done)) as (t & Et).
    destruct (readUint_spec (len (big_bytes n)) s1 Hok1 ltac:(lia) Hu) as
      [(bs & s2 & -> & (Ku & _) & Fk & _ & _ & Hlb & Eb & Ecs)|(e & s2 & _ & _ & _ & _ & Hno & _)]; [|done].
    rewrite Et in Eb. apply app_inj_1 in Eb as [<- _]; [|unfold len in *; lia].
    destruct (big_bytes_head n ltac:(lia)) as (x & u & Ex & Hx).
    assert (((1 <? len (big_bytes n)) && (default 0 (head (big_bytes n)) =? 0)) = false) as ->.
    { rewrite Ex. simpl. destruct (Z.eqb_spec x 0); [lia|]. apply andb_false_r. }
    rewrite be_val_big_bytes by lia.
    assert (((0 <? len (big_bytes n)) && (n <? 128)) = false) as ->.
    { apply andb_false_intro2, Z.ltb_ge. simpl in Ek. destruct (self_byte (big_bytes n)) eqn:Es; [done|].
      destruct (Z.ltb_spec n 128); [|lia]. exfalso.
      assert (big_bytes n = [n]) as E1.
      { rewrite <- int_bytes_pos by lia. rewrite int_bytes_small by lia. by rewrite u8_small by (unfold byte_ok; lia). }
      rewrite E1 in Es. simpl in Es. bprop. }
    exists s2. split; [done|]. split; [done|]. split; [done|].
    by rewrite Ecs, Ea.
  - simpl in Ek. by destruct (self_byte (big_bytes n)).
Qed.

(** Closing a list whose elements have all been read. *)
Lemma ListEnd_ready c t st s :
  fresh c s -> c_stack c = t :: st -> pos t = lsize t -> stack_ok (t :: st) ->
  exists s', Stream_ListEnd s = (Ok tt, s') /\
    fresh (Cursor (c_rest c) (bump (lsize t) st) (c_rem c)) s'.
Proof.
  intros (Hu & Hk & <-) Est Hp Hst. simpl in Est. unfold Stream_ListEnd. rewrite Est, Hp, Z.eqb_refl.
  simpl negb. eexists. split; [done|]. split; [done|]. split; [done|]. unfold cur. simpl. f_equal.
  destruct st as [|o st]; [done|]. simpl in *. destruct Hst as (? & ? & ? & ? & ? & _).
  by rewrite u64_small by (unfold u64_ok; lia).
Qed.
End Items.

(** ** Safety of every sequence of operations *)

(** The public operations of a stream. *)
Inductive stream_op : Type :=
| OpKind | OpBytes | OpRaw | OpUint (bits : Z) | OpBool | OpList | OpListEnd.

Section Safety.
Context {R : Type} `{ReaderLaws R}.
Implicit Types s : stream R.

Definition void {A} (m : SM R A) : SM R unit := let* _ := m in ret tt.

Definition run_op (op : stream_op) : SM R unit :=
  match op with
  | OpKind => void Stream_Kind
  | OpBytes => void Stream_Bytes
  | OpRaw => void Stream_Raw
  | OpUint bits => void (Stream_uint bits)
  | OpBool => void Stream_Bool
  | OpList => void Stream_List
  | OpListEnd => Stream_ListEnd
  end.

(** Run the operations one after the other, whatever each returns. *)
Fixpoint run_ops (ops : list stream_op) s : list (outcome rlp_error unit) * stream R :=
  match ops with
  | [] => ([], s)
  | op :: ops' =>
      let '(o, s1) := run_op op s in
      let '(os, s2) := run_ops ops' s1 in (o :: os, s2)
  end.

Variable L : Z.

(** Everything the stream will ever allocate is bounded by the limit [L]. *)
Definition bounded s : Prop :=
  limited s = true /\ remaining s <= L /\ Forall (fun t => lsize t <= L) (stack s).

Definition inv s : Prop := stream_ok s /\ bounded s.

(** Neither a panic nor a loop without end, and the invariant afterwards. *)
Definition triple {A} (P : stream R -> Prop) (m : SM R A) (Q : A -> stream R -> Prop) : Prop :=
  forall s, P s ->
    match m s with
    | (Ok a, s') => Q a s'
    | (Err _, s') => inv s'
    | _ => False
    end.

Lemma triple_bind {A B} P (m : SM R A) Q (f : A -> SM R B) Q' :
  triple P m Q -> (forall a, triple (Q a) (f a) Q') -> triple P (bind m f) Q'.
Proof.
  intros Hm Hf s HP. unfold bind. specialize (Hm s HP).
  destruct (m s) as [[a|e| |] s']; try done. by apply Hf.
Qed.

Lemma triple_void {A} P (m : SM R A) :
  triple P m (fun _ => inv) -> triple P (void m) (fun _ => inv).
Proof. intros Hm. by eapply triple_bind; [exact Hm|]; intros ? ? ?. Qed.

Lemma idle_ok s : c_ok (cur s) -> length (uintbuf s) = 8%nat -> kind s = None -> stream_ok s.
Proof. intros Hc Hu Hk. split; [done|]. split; [done|]. by rewrite Hk. Qed.

Lemma bounded_willRead n s :
  c_ok (cur s) -> 0 <= n -> bounded s -> bounded (snd (willRead n s)).
Proof.
  intros Hok Hn (Hl & Hr & Hf). unfold willRead, takeLimit. simpl.
  destruct Hok as (_ & _ & Hrem). simpl in Hrem. rewrite Hl in Hrem.
  unfold u64_ok in Hrem. rewrite Hl.
  assert (G : forall st, Forall (fun t => lsize t <= L) st ->
    bounded (snd (if remaining s <? n
      then (@Err rlp_error unit ErrValueTooLarge, set_stack st (set_kind None s))
      else (Ok tt, set_remaining (u64 (remaining s - n)) (set_stack st (set_kind None s)))))).
  { intros st Hst. destruct (Z.ltb_spec (remaining s) n); simpl; [done|].
    split; [done|]. simpl. rewrite u64_small by (unfold u64_ok; lia). split; [lia|done]. }
  destruct (stack s) as [|t st] eqn:Es.
  - specialize (G [] ltac:(constructor)). unfold set_stack in G. simpl in *.
    destruct (remaining s <? n); simpl in *; unfold bounded in *; simpl in *; by rewrite ?Es in *.
  - destruct (u64 _ <? n); [unfold bounded; simpl; by rewrite Es|].
    apply G. apply Forall_cons in Hf as [? ?]. by constructor.
Qed.

Lemma bounded_reader r s : bounded s -> bounded (set_reader r s).
Proof. done. Qed.

Lemma bounded_readFull n s :
  c_ok (cur s) -> 0 <= n -> bounded s -> bounded (snd (readFull n s)).
Proof.
  intros Hok Hn Hb. pose proof (bounded_willRead n s Hok Hn Hb) as B. unfold readFull, bind.
  destruct (willRead n s) as [[[]|e| |] s1]; simpl in B; try done.
  by destruct (readFull_loop (S (Z.to_nat n)) (Z.to_nat n) [] (s_r s1)) as [[[bs [|]] r]|].
Qed.

Lemma bounded_readByte s : c_ok (cur s) -> bounded s -> bounded (snd (readByte s)).
Proof.
  intros Hok Hb. pose proof (bounded_willRead 1 s Hok ltac:(lia) Hb) as B. unfold readByte, bind.
  destruct (willRead 1 s) as [[[]|e| |] s1]; simpl in *; try done.
  destruct (rd_ReadByte (s_r s1)) as [[b|] r]; done.
Qed.

Lemma bounded_readUint sz s :
  c_ok (cur s) -> 0 <= sz <= 8 -> bounded s -> bounded (snd (readUint sz s)).
Proof.
  intros Hok Hsz Hb. unfold readUint. destruct (Z.eqb_spec sz 0); [done|].
  destruct (Z.eqb_spec sz 1); [by apply bounded_readByte|].
  rewrite u8_small by (unfold byte_ok; lia). destruct (Z.ltb_spec 8 (8 - sz)); [lia|].
  pose proof (bounded_readFull (8 - (8 - sz)) s Hok ltac:(lia) Hb) as B. unfold bind.
  destruct (readFull (8 - (8 - sz)) s) as [[bs|e| |] s1]; simpl in *; try done.
  destruct (_ !! _); [|done]. by destruct (_ =? 0).
Qed.

Lemma bounded_readKind s :
  c_ok (cur s) -> length (uintbuf s) = 8%nat -> bounded s -> bounded (snd (s_readKind s)).
Proof.
  intros Hok Hu Hb. pose proof (bounded_readByte s Hok Hb) as B. unfold s_readKind.
  destruct (readByte_spec s Hok) as [(b & s1 & E & F & Hc & Er & Ec)|(e & s1 & E & _)];
    rewrite E in *; simpl in B; [|done].
  assert (Hok1 : c_ok (cur (set_byteval 0 s1))).
  { change (cur (set_byteval 0 s1)) with (cur s1). rewrite Ec. destruct Hc as (_ & ? & ?). apply c_adv_ok; [lia|done..]. }
  assert (Hbb : byte_ok b) by (destruct Hok as (Hx & _); rewrite Er in Hx; by apply Forall_cons in Hx as [? _]).
  unfold byte_ok in Hbb.
  assert (G : forall k sz, 0 <= sz <= 8 -> bounded (snd (sizedKind k (readUint sz) (set_byteval 0 s1)))).
  { intros k sz Hsz. pose proof (bounded_readUint sz (set_byteval 0 s1) Hok1 Hsz B) as B2.
    unfold sizedKind. by destruct (readUint sz (set_byteval 0 s1)) as [[n|e| |] s2]. }
  destruct (Z.ltb_spec b 0x80); [done|]. destruct (Z.ltb_spec b 0xB8); [done|].
  destruct (Z.ltb_spec b 0xC0); [apply G; rewrite u8_small by (unfold byte_ok; lia); lia|].
  destruct (Z.ltb_spec b 0xF8); [done|]. apply G; rewrite u8_small by (unfold byte_ok; lia); lia.
Qed.

Lemma bounded_Kind s : stream_ok s -> bounded s -> bounded (snd (Stream_Kind s)).
Proof.
  intros (Hok & Hu & _) Hb. unfold Stream_Kind. destruct (kind s); [by destruct (kinderr s)|].
  destruct (match stack (set_kinderr None s) with [] => _ | _ => _ end); [done|].
  pose proof (bounded_readKind (set_kinderr None s) Hok Hu Hb) as B. unfold bind.
  destruct (s_readKind (set_kinderr None s)) as [[[[k n] e]|e| |] s1]; simpl in *; try done.
  by destruct (match e with Some _ => _ | _ => _ end).
Qed.

(** What holds after [Kind] has returned a value. *)
Definition after_kind (k : Kind) (n : Z) s : Prop := inv s /\ cached k n s /\ 0 <= n <= L.

Lemma Kind_triple : triple inv Stream_Kind (fun '(k, n) => after_kind k n).
Proof.
  intros s [Hok Hb]. pose proof (bounded_Kind s Hok Hb) as B.
  assert (Fin : forall k n s', cached k n s' -> stream_ok s' -> bounded s' -> after_kind k n s').
  { intros k n s' Hc Ho Hbd. split; [by split|]. split; [done|]. destruct Hc as (E1 & E2 & <-).
    destruct Ho as ((_ & Hst & _) & _ & Ho). rewrite E1, E2 in Ho. destruct Ho as (Hu & Hf & Hi & _).
    destruct Hbd as (Bl & Br & Bs). unfold fits, in_limit, u64_ok in *. simpl in *. rewrite Bl in Hi.
    destruct (stack s') as [|t st] eqn:Es; [specialize (Hi eq_refl); lia|].
    apply Forall_cons in Bs as [? _]. destruct Hst as (? & _). lia. }
  destruct (kind s) as [k|] eqn:Ek.
  - unfold Stream_Kind in *. rewrite Ek in *. destruct (kinderr s) eqn:Ee; [by split|].
    apply Fin; done.
  - destruct (decide (at_end (cur s))) as [He|He].
    { rewrite Stream_Kind_end in B |- * by done. split; [|done]. destruct Hok as (? & ? & _). apply idle_ok; done. }
    destruct (Stream_Kind_fresh s Hok Ek He) as
      [(k & n & hd & s' & E & _ & _ & _ & _ & _ & Hc & Ho)|(e & s' & E & _ & Ho & _)]; rewrite E in *.
    + by apply Fin.
    + by split.
Qed.

(** Operations that read [n] bytes after [Kind]. *)
Lemma readFull_triple k n m :
  0 <= m <= n -> n < 2 ^ 64 ->
  triple (after_kind k n) (readFull m) (fun bs s => inv s /\ len bs = m).
Proof.
  intros Hm Hn s ((Hok & Hb) & Hc & _). pose proof Hok as (Hco & Hu & _).
  pose proof (bounded_readFull m s Hco ltac:(lia) Hb) as B.
  destruct (readFull_spec m s Hco ltac:(unfold u64_ok; lia)) as
    [(bs & s' & E & (Fk & Fu & _) & (_ & Hf & Hi) & Hl & _ & Ec)|(e & s' & E & (Fk & Fu & _) & _ & Ho & _)];
    rewrite E in *; simpl in B.
  - split; [|done]. split; [|done]. apply idle_ok; [|by rewrite Fu|done].
    rewrite Ec. apply c_adv_ok; [lia|done..].
  - split; [|done]. apply idle_ok; [done|by rewrite Fu|done].
Qed.

Lemma rearm_triple {A} k n (f : stream R -> A) :
  triple (after_kind k n) (fun s => (Ok (f s), set_kind None s)) (fun _ => inv).
Proof. intros s (((Hco & Hu & _) & Hb) & _). split; [by apply idle_ok|done]. Qed.

Lemma fail_triple {A} k n e (Q : A -> stream R -> Prop) : triple (after_kind k n) (fail e) Q.
Proof. intros s (Hi & _). done. Qed.

Lemma ret_triple {A} (P : stream R -> Prop) (a : A) : (forall s, P s -> inv s) -> triple P (ret a) (fun _ => inv).
Proof. intros HP s Hs. by apply HP. Qed.

Lemma failinv_triple {A} (P : stream R -> Prop) e (Q : A -> stream R -> Prop) :
  (forall s, P s -> inv s) -> triple P (fail e) Q.
Proof. intros HP s Hs. by apply HP. Qed.

Hypothesis HL : L + 9 <= maxAlloc.

Lemma Bytes_triple : triple inv Stream_Bytes (fun _ => inv).
Proof.
  unfold Stream_Bytes. eapply triple_bind; [apply Kind_triple|]. intros [k n] s Hs.
  pose proof Hs as (_ & _ & Hn). unfold maxAlloc in *.
  destruct k; [by apply (rearm_triple KByte n (fun s => [byteval s]))| |by apply (fail_triple KList n)].
  destruct (Z.ltb_spec (2 ^ 48) n); [lia|]. revert s Hs.
  eapply triple_bind; [apply (readFull_triple KString n n); lia|]. intros bs.
  destruct (_ && _); [apply failinv_triple|apply ret_triple]; by intros s [? _].
Qed.

Lemma Raw_triple : triple inv Stream_Raw (fun _ => inv).
Proof.
  unfold Stream_Raw. eapply triple_bind; [apply Kind_triple|]. intros [k n] s Hs.
  pose proof Hs as (_ & _ & Hn). unfold maxAlloc in *.
  case_decide; [by apply (rearm_triple k n (fun s => [byteval s]))|].
  assert (Hu : u64_ok n) by (unfold u64_ok; lia).
  assert (E : exists small large, 0 <= small <= 0xC8 /\ 0 <= large <= 0xF7 /\
    forall buf, (if decide (k = KString) then puthead buf 0x80 0xB7 n
       else puthead buf 0xC0 0xF7 n) = puthead buf small large n).
  { destruct k; [done|exists 0x80, 0xB7|exists 0xC0, 0xF7]; split_and!; done || lia. }
  destruct E as (small & large & Hsm & Hlg & Eput).
  pose proof (headsize_spec small large n Hu) as Eh.
  assert (Hle : 1 <= headsize n <= 9).
  { rewrite Eh. split; [apply enc_head_len_pos|]. unfold enc_head. unfold u64_ok in Hu. bprop; len_simpl.
    pose proof (size_bytes_range n ltac:(lia)). lia. }
  assert (Es : u64 (u64 (headsize n) + n) = headsize n + n)
    by (rewrite (u64_small (headsize n)), u64_small; [done|unfold u64_ok..]; lia).
  rewrite Es. destruct (Z.ltb_spec (2 ^ 48) (headsize n + n)); [lia|].
  destruct (Z.ltb_spec (headsize n + n) (headsize n)); [lia|].
  change (false || false) with false. cbv iota beta. replace (headsize n + n - headsize n) with n by lia.
  revert s Hs. eapply triple_bind; [apply (readFull_triple k n n); lia|]. intros bs s [Hi Hl].
  rewrite Eput, puthead_spec by done. unfold store.
  rewrite len_app, len_zeros by lia. rewrite <- Eh.
  destruct (Z.leb_spec (headsize n) (headsize n + len bs)); [|lia]. simpl. done.
Qed.

Lemma uint_triple bits : 0 <= bits <= 64 -> triple inv (Stream_uint bits) (fun _ => inv).
Proof.
  intros Hbits. unfold Stream_uint. eapply triple_bind; [apply Kind_triple|]. intros [k n] s Hs.
  pose proof Hs as ((Hok & Hb) & _ & Hn).
  destruct k; [| |by apply (fail_triple KList n)].
  { destruct (byteval s =? 0); [by split|]. by apply (rearm_triple KByte n byteval). }
  assert (bits / 8 <= 8) by (apply Z.div_le_upper_bound; lia).
  destruct (Z.ltb_spec (bits / 8) n); [by split|].
  rewrite u8_small by (unfold byte_ok; lia). pose proof Hok as (Hco & Hu & _).
  pose proof (bounded_readUint n s Hco ltac:(lia) Hb) as B.
  destruct (decide (n = 0)) as [->|].
  { simpl. apply (rearm_triple KString 0 (fun _ => 0)). done. }
  destruct (readUint_spec n s Hco ltac:(lia) Hu) as
    [(bs & s' & E & (Ku & _) & Fk & _ & (_ & Hf & Hi) & _ & _ & Ec)|(e & s' & E & (Ku & _) & Fk & _ & _ & Ho & _)];
    rewrite E in *; simpl in B.
  - assert (Ho : c_ok (cur s')) by (rewrite Ec; apply c_adv_ok; [lia|done..]).
    assert (inv s') by (split; [by apply idle_ok|done]).
    destruct (_ && _); [done|]. by destruct ((0 <? n) && _).
  - assert (inv s') by (split; [by apply idle_ok|done]). by destruct e.
Qed.

Lemma Bool_triple : triple inv Stream_Bool (fun _ => inv).
Proof.
  unfold Stream_Bool. eapply triple_bind; [by apply uint_triple|]. intros n.
  destruct (n =? 0); [by apply ret_triple|]. destruct (n =? 1); [by apply ret_triple|].
  by apply failinv_triple.
Qed.

Lemma List_triple : triple inv Stream_List (fun _ => inv).
Proof.
  unfold Stream_List. eapply triple_bind; [apply Kind_triple|]. intros [k n] s Hs.
  case_decide; [|by apply (fail_triple k n)]. subst.
  destruct Hs as ((Hok & (Bl & Br & Bs)) & (E1 & E2 & <-) & Hn). destruct Hok as (Hco & Hu & Hc).
  rewrite E1, E2 in Hc. destruct Hc as (Hu64 & Hf & Hi & _). split; cycle 1.
  { split; [done|]. split; [done|]. constructor; [apply Hn|done]. }
  apply idle_ok; [|done|done]. destruct Hco as (H1 & H2 & H3). split; [done|]. split; [|done].
  unfold u64_ok, fits in *. simpl in *. split; [lia|]. split; [lia|]. split; [|done].
  destruct (stack s); [done|lia].
Qed.

Lemma ListEnd_triple : triple inv Stream_ListEnd (fun _ => inv).
Proof.
  intros s [Hok (Bl & Br & Bs)]. pose proof Hok as ((H1 & H2 & H3) & Hu & _). unfold Stream_ListEnd.
  simpl in H2. destruct (stack s) as [|t st] eqn:Es; [split; [done|]; unfold bounded; by rewrite Es|].
  destruct (Z.eqb_spec (pos t) (lsize t)); simpl; [|split; [done|]; unfold bounded; by rewrite Es].
  apply Forall_cons in Bs as [Bt Bs]. destruct H2 as (Hp & Hsz & Hin & Hst).
  split.
  - apply idle_ok; [|done|done]. split; [done|]. split; [|done]. simpl.
    destruct st as [|o st]; [done|]. simpl in *. destruct Hst as (? & ? & ?).
    rewrite u64_small by (unfold u64_ok; lia). split; [lia|done].
  - split_and!; [done..|]. simpl. destruct st as [|o st]; [constructor|].
    apply Forall_cons in Bs as [? ?]. by constructor.
Qed.

Lemma run_op_triple op :
  match op with OpUint b => 0 <= b <= 64 | _ => True end -> triple inv (run_op op) (fun _ => inv).
Proof.
  intros Hop. destruct op; simpl; try apply triple_void.
  - intros s Hs. pose proof (Kind_triple s Hs) as K. unfold void, bind, ret.
    destruct (Stream_Kind s) as [[[k n]|e| |] s']; try done. by destruct K.
  - apply Bytes_triple.
  - apply Raw_triple.
  - by apply uint_triple.
  - apply Bool_triple.
  - apply List_triple.
  - apply ListEnd_triple.
Qed.

Lemma run_ops_inv ops s :
  Forall (fun op => match op with OpUint b => 0 <= b <= 64 | _ => True end) ops -> inv s ->
  inv (snd (run_ops ops s)) /\
  Forall (fun o => o <> Panic /\ o <> OutOfFuel) (fst (run_ops ops s)).
Proof.
  intros Hops. revert s. induction Hops as [|op ops Hop Hops IH]; intros s Hi; simpl; [by split|].
  pose proof (run_op_triple op Hop s Hi) as T.
  destruct (run_op op s) as [o s1].
  assert (Hs1 : inv s1 /\ o <> Panic /\ o <> OutOfFuel) by (destruct o; done).
  destruct Hs1 as [Hi1 Ho]. specialize (IH s1 Hi1). destruct (run_ops ops s1) as [os s2]. simpl in *.
  destruct IH. split; [done|]. by constructor.
Qed.
End Safety.



(** ** Readers that return data together with io.EOF

    The contract of io.Reader allows a call to deliver the last bytes and
    io.EOF at once. *)
Record eager : Type := Eager { e_data : list Z }.

#[export] Instance eager_reader : ByteReader eager := {
  rd_Read n r := (take n (e_data r), (length (e_data r) <=? n)%nat, Eager (drop n (e_data r)));
  rd_ReadByte r := match e_data r with [] => (None, Eager []) | b :: t => (Some b, Eager t) end;
  rd_auto r := None;
  rest r := e_data r
}.

Lemma eager_readFull n (s : stream eager) :
  (0 < n)%nat -> stack s = [] -> limited s = false -> length (e_data (s_r s)) = n ->
  fst (readFull (Z.of_nat n) s) = Err io_ErrUnexpectedEOF.
Proof.
  intros Hn Hst Hl Hd. unfold readFull, bind, willRead. simpl stack. rewrite Hst.
  unfold takeLimit. simpl limited. rewrite Hl. rewrite Nat2Z.id. destruct n as [|n]; [lia|].
  simpl. rewrite Hd, Nat.leb_refl. done.
Qed.

(** readFull rejects complete input from such a reader: a string of 2 to 55
    bytes whose encoding is all there is decodes to io.ErrUnexpectedEOF, because
    the loop keeps the io.EOF that came with the last bytes although the buffer
    has been filled. *)
Theorem readFull_eof_with_data bs :
  2 <= len bs < 56 ->
  fst (Stream_Bytes (NewStream (Eager (rlp_enc (Str bs))) 0)) = Err io_ErrUnexpectedEOF.
Proof.
  intros Hl. assert (E : rlp_enc (Str bs) = (0x80 + len bs) :: bs).
  { simpl. unfold enc_str. destruct (self_byte bs) eqn:Es.
    - apply self_byte_spec in Es as (b & -> & _). unfold len in Hl. simpl in Hl. lia.
    - unfold str_head. by rewrite enc_head_small by lia. }
  rewrite E. set (s := NewStream (Eager (0x80 + len bs :: bs)) 0).
  assert (EK : exists s', Stream_Kind s = (Ok (KString, len bs), s') /\ stack s' = [] /\
    limited s' = false /\ e_data (s_r s') = bs).
  { eexists. split.
    - unfold Stream_Kind. simpl. unfold s_readKind, readByte, willRead, takeLimit, bind. simpl.
      destruct (Z.ltb_spec (128 + len bs) 128); [lia|]. destruct (Z.ltb_spec (128 + len bs) 184); [|lia].
      rewrite u8_small by (unfold byte_ok; lia). replace (128 + len bs - 128) with (len bs) by lia.
      simpl. reflexivity.
    - done. }
  destruct EK as (s1 & EK & Hst & Hlim & Hd).
  assert (Hr := eager_readFull (length bs) s1 ltac:(unfold len in Hl; lia) Hst Hlim ltac:(by rewrite Hd)).
  unfold Stream_Bytes, bind. rewrite EK. destruct (Z.ltb_spec maxAlloc (len bs)); [unfold maxAlloc in *; lia|].
  change (Z.of_nat (length bs)) with (len bs) in Hr.
  destruct (readFull (len bs) s1) as [[b|e| |] s2]; simpl in *; congruence.
Qed.

Lemma readFull_eof_with_data_witness :
  fst (Stream_Bytes (NewStream (Eager [0x83; 1; 2; 3]) 0)) = Err io_ErrUnexpectedEOF.
Proof. apply (readFull_eof_with_data [1; 2; 3]). by vm_compute. Defined.
