(* ===== verification/RlpWriter.v ===== *)
(** * Typed encoding (src/rlp/encode.go, typecache.go)

    [makeWriter] compiles a type into a writer.  The closures of the source are
    kept as data, a [wplan] per writer function with the variables it captures,
    and [write] runs a plan on a value.  The theorems say that a value's output
    is the RLP encoding of the item it denotes, and that every output pass of
    the package delivers it. *)

From Stdlib Require Import String.
From S2P Require Import Prelude RlpSpec RlpEncode RlpTypes.

(** Writers.  Each constructor names the function of the source it stands for;
    the arguments are what the closure captures. *)
Inductive wplan : Type :=
| W_writeRawValue
| W_writeBigIntPtr (typ : rtype)
| W_writeBigIntNoPtr
| W_ptr (nilKind : Kind) (elem : wplan)
| W_encoder (m : nat)                            (* value receiver *)
| W_ptr_encoder (m : nat) (typ : rtype)          (* pointer receiver *)
| W_writeUint
| W_writeBool
| W_writeString
| W_writeBytes
| W_writeByteArray
| W_slice (array tail : bool) (elem : wplan)
| W_struct (fields : list (nat * wplan))
| W_writeInterface.

(** ** Compiling a type *)

(** [structFields] followed by the check of the field errors in
    [makeStructWriter]: [mk] is [cachedTypeInfo1]'s writer.  All tags are parsed
    before any field error is reported. *)
Section StructFields.
Context {P : Type} (typ : rtype) (lastPublic : nat).

Fixpoint structFields (mk : rtype -> tags -> rlp_error + P) (i : nat) (fs : list sfield)
  : rlp_error + list (nat * (rlp_error + P)) :=
  match fs with
  | [] => inr []
  | f :: fs' =>
      if exported f then
        match parseStructTag typ f i lastPublic with
        | inl e => inl e
        | inr ts =>
            match structFields mk (S i) fs' with
            | inl e => inl e
            | inr l =>
                if ignored ts then inr l
                else inr ((i, match f with SField _ _ _ t => mk t ts end) :: l)
            end
        end
      else structFields mk (S i) fs'
  end.

Fixpoint check_fields (l : list (nat * (rlp_error + P))) : rlp_error + list (nat * P) :=
  match l with
  | [] => inr []
  | (i, inl e) :: _ => inl (structFieldError typ i e)
  | (i, inr p) :: l' =>
      match check_fields l' with inl e => inl e | inr ps => inr ((i, p) :: ps) end
  end.
End StructFields.

Definition makeEncoderWriter (m : methods) (typ : rtype) : wplan :=
  if implements_encoder typ then W_encoder (m_id m) else W_ptr_encoder (m_id m) typ.

Definition makePtrWriter (ts : tags) (elem : rtype) (winfo : rlp_error + wplan) : rlp_error + wplan :=
  match winfo with
  | inl e => inl e
  | inr p => inr (W_ptr (if nilOK ts then nilKind ts else defaultNilKind elem) p)
  end.

Definition makeSliceWriter (array : bool) (ts : tags) (winfo : rlp_error + wplan) : rlp_error + wplan :=
  match winfo with
  | inl e => inl e
  | inr p => inr (W_slice array (tail ts) p)
  end.

Definition makeStructWriter (typ : rtype) (fields : rlp_error + list (nat * (rlp_error + wplan)))
  : rlp_error + wplan :=
  match fields with
  | inl e => inl e
  | inr l => match check_fields typ l with inl e => inl e | inr ps => inr (W_struct ps) end
  end.

(** The switch of [makeWriter] on the type literal [t] of the type [typ]. *)
Fixpoint writer_of (typ t : rtype) (ts : tags) : rlp_error + wplan :=
  match t with
  | TRawValue => inr W_writeRawValue
  | TBigIntPtr => inr (W_writeBigIntPtr typ)
  | TBigInt => inr W_writeBigIntNoPtr
  | TPtr e => makePtrWriter ts e (writer_of e e no_tags)
  | TUint _ => inr W_writeUint
  | TBool => inr W_writeBool
  | TString => inr W_writeString
  | TSlice e =>
      if isByte e then inr W_writeBytes else makeSliceWriter false ts (writer_of e e no_tags)
  | TArray _ e =>
      if isByte e then inr W_writeByteArray else makeSliceWriter true ts (writer_of e e no_tags)
  | TStruct fs =>
      makeStructWriter typ (structFields typ (lastPublicField fs) (fun t ts => writer_of t t ts) 0 fs)
  | TInterface _ => inr W_writeInterface
  | TOther _ => inl (errNotSerializable typ)
  | TNamed m u =>
      if negb (is_ptr u) && ptr_implements_encoder t then inr (makeEncoderWriter m t)
      else writer_of typ u ts
  end.

Definition makeWriter (typ : rtype) (ts : tags) : rlp_error + wplan := writer_of typ typ ts.

(** ** The write functions

    A writer takes the buffer and returns it, or an error; a value that does
    not have the type the plan was made for makes reflect panic. *)
Notation WM := (encbuf -> outcome rlp_error encbuf).

Definition writeRawValue (v : value) : WM := fun w =>
  match v with VBytes b => Ok (append_str b w) | _ => Panic end.

Definition writeUint (v : value) : WM := fun w =>
  match v with
  | VUint i =>
      if i =? 0 then Ok (append_str [0x80] w)
      else if i <? 128 then Ok (append_str [u8 i] w)
      else
        match sizebuf w with
        | [] => Panic
        | _ :: tl =>
            match putint tl i with
            | None => Panic
            | Some (b', s) =>
                let sb := u8 (0x80 + u8 s) :: b' in
                match go_slice sb 0 (s + 1) with
                | None => Panic
                | Some enc => Ok (Encbuf (str w ++ enc) (lheads w) (lhsize w) sb)
                end
            end
        end
  | _ => Panic
  end.

Definition writeBool (v : value) : WM := fun w =>
  match v with
  | VBool b => Ok (append_str [if b then 0x01 else 0x80] w)
  | _ => Panic
  end.

Definition writeBigInt (i : Z) : WM := fun w =>
  if i <? 0 then Err errNegativeBigInt
  else if i =? 0 then Ok (append_str [0x80] w)
  else of_option (encodeString (big_bytes i) w).

(** The assertion panics for a defined type. *)
Definition writeBigIntPtr (typ : rtype) (v : value) : WM := fun w =>
  if negb (is_bigint_ptr typ) then Panic else
  match v with
  | VBig None => Ok (append_str [0x80] w)
  | VBig (Some i) => writeBigInt i w
  | _ => Panic
  end.

Definition writeBigIntNoPtr (v : value) : WM := fun w =>
  match v with VInt i => writeBigInt i w | _ => Panic end.

Definition writeBytes (v : value) : WM := fun w =>
  match v with VBytes b => of_option (encodeString b w) | _ => Panic end.

(** The copy that makes an unaddressable array addressable has the same
    contents. *)
Definition writeByteArray (v : value) : WM := writeBytes v.

Definition writeString (v : value) : WM := fun w =>
  match v with
  | VBytes s =>
      match s with
      | [c] => if c <=? 0x7F then Ok (append_str [c] w)
               else of_option (append_str s <$> encodeStringHeader (len s) w)
      | _ => of_option (append_str s <$> encodeStringHeader (len s) w)
      end
  | _ => Panic
  end.

(** [w.listEnd(w.list())] *)
Definition emptyList : WM := fun w =>
  let '(lh, w1) := list_ w in of_option (listEnd lh w1).

Definition writeNilPtr (nilKind : Kind) : WM := fun w =>
  if decide (nilKind = KString) then Ok (append_str [0x80] w) else emptyList w.

Fixpoint write_seq (l : list WM) : WM := fun w =>
  match l with
  | [] => Ok w
  | f :: l' => let? w1 := f w in write_seq l' w1
  end.

(** Write between [list] and [listEnd]. *)
Definition in_list (m : WM) : WM := fun w =>
  let '(lh, w1) := list_ w in
  let? w2 := m w1 in of_option (listEnd lh w2).

Section Write.
(** The EncodeRLP methods of user types, by the index of the type. *)
Variable EncodeRLP : nat -> value -> WM.

(** Run the plan on a value; the flag is reflect's CanAddr. *)
Fixpoint write (v : value) (p : wplan) (addr : bool) {struct v} : WM := fun w =>
  match p with
  | W_writeRawValue => writeRawValue v w
  | W_writeBigIntPtr typ => writeBigIntPtr typ v w
  | W_writeBigIntNoPtr => writeBigIntNoPtr v w
  | W_ptr nk p' =>
      match v with
      | VPtr None => writeNilPtr nk w
      | VPtr (Some v') => write v' p' true w
      | _ => Panic
      end
  | W_encoder m => EncodeRLP m v w
  | W_ptr_encoder m typ => if addr then EncodeRLP m v w else Err (errUnaddressable typ)
  | W_writeUint => writeUint v w
  | W_writeBool => writeBool v w
  | W_writeString => writeString v w
  | W_writeBytes => writeBytes v w
  | W_writeByteArray => writeByteArray v w
  | W_slice array tl p' =>
      match v with
      | VSeq vs =>
          let elems := write_seq (map (fun x => write x p' (if array then addr else true)) vs) in
          if tl then elems w else in_list elems w
      | _ => Panic
      end
  | W_struct fields =>
      match v with
      | VStruct vs =>
          let ws := map write vs in
          in_list (write_seq (map (fun ip : nat * wplan =>
            match ws !! ip.1 with Some f => f ip.2 addr | None => fun _ => Panic end) fields)) w
      | _ => Panic
      end
  | W_writeInterface =>
      match v with
      | VIface None => Ok (append_str [0xC0] w)
      | VIface (Some (t, v')) =>
          match makeWriter t no_tags with
          | inl e => Err e
          | inr p' => write v' p' false w
          end
      | _ => Panic
      end
  end.

(** [encbuf.encode(val)]; [None] is a nil interface, on which reflect panics. *)
Definition encode (val : option (rtype * value)) : WM := fun w =>
  match val with
  | None => Panic
  | Some (t, v) =>
      match makeWriter t no_tags with
      | inl e => Err e
      | inr p => write v p false w
      end
  end.

(** The top-level functions, with a buffer [eb] from encbufPool. *)
Definition EncodeToBytes (eb : encbuf) (val : option (rtype * value)) : outcome rlp_error (list Z) :=
  let? w := encode val (reset eb) in of_option (toBytes w).

Definition EncodeToReader (eb : encbuf) (val : option (rtype * value))
  : outcome rlp_error (Z * encReader) :=
  let? w := encode val (reset eb) in
  Ok (size w, EncReader (Some w) 0 0 None).

(** [Encode(w, val)]: [inl] is the case that [w] is an encbuf. *)
Definition Encode {W E} `{Writer W E} (eb : encbuf) (out : encbuf + W) (val : option (rtype * value))
  : outcome (rlp_error + E) (encbuf + W) :=
  match out with
  | inl outer =>
      match encode val outer with
      | Ok w => Ok (inl w)
      | Err e => Err (inl e)
      | Panic => Panic
      | OutOfFuel => OutOfFuel
      end
  | inr w =>
      match encode val (reset eb) with
      | Ok eb' =>
          match toWriter eb' w with
          | Ok (w', _) => Ok (inr w')
          | Err e => Err (inr e)
          | Panic => Panic
          | OutOfFuel => OutOfFuel
          end
      | Err e => Err (inl e)
      | Panic => Panic
      | OutOfFuel => OutOfFuel
      end
  end.
End Write.

(** ** What a value denotes

    The items a writer emits for a value.  A writer of a tail field emits one
    item per element, every other writer one item; the output of a raw value or
    a user type is whatever items its bytes encode. *)

(** What a user's EncodeRLP method promises: for the values it accepts it
    appends the encoding of the items they denote. *)
Class EncoderLaws (EncodeRLP : nat -> value -> WM) (user_items : nat -> value -> list item -> Prop)
  : Prop := {
  EncodeRLP_emits : forall m v its w, user_items m v its ->
    length (sizebuf w) = 9%nat -> len (rlp_encs its) < 2 ^ 64 ->
    exists w', EncodeRLP m v w = Ok w' /\ emits w w' (rlp_encs its)
}.

Section Denotes.
Variable user_items : nat -> value -> list item -> Prop.

Definition nil_item (nk : Kind) : item := if decide (nk = KString) then Str [] else Lst [].

Definition all_denote (Ps : list (list item -> Prop)) (itss : list (list item)) : Prop :=
  Forall2 (fun (P : list item -> Prop) its => P its) Ps itss.

Fixpoint denotes (v : value) (p : wplan) (addr : bool) (its : list item) : Prop :=
  match p, v with
  | W_writeRawValue, VBytes b => b = rlp_encs its
  | W_writeBigIntPtr typ, VBig z => typ = TBigIntPtr /\
      match z with None => its = [Str []] | Some i => 0 <= i /\ its = [Str (big_bytes i)] end
  | W_writeBigIntNoPtr, VInt i => 0 <= i /\ its = [Str (big_bytes i)]
  | W_ptr nk _, VPtr None => its = [nil_item nk]
  | W_ptr _ p', VPtr (Some v') => denotes v' p' true its
  | W_encoder m, _ => user_items m v its
  | W_ptr_encoder m _, _ => addr = true /\ user_items m v its
  | W_writeUint, VUint n => u64_ok n /\ its = [Str (big_bytes n)]
  | W_writeBool, VBool b => its = [Str (if b then [1] else [])]
  | W_writeString, VBytes s | W_writeBytes, VBytes s | W_writeByteArray, VBytes s => its = [Str s]
  | W_slice array tl p', VSeq vs =>
      exists itss,
        all_denote (map (fun x => denotes x p' (if array then addr else true)) vs) itss /\
        its = if tl then concat itss else [Lst (concat itss)]
  | W_struct fields, VStruct vs =>
      exists itss,
        all_denote (let ds := map denotes vs in
          map (fun ip : nat * wplan =>
            match ds !! ip.1 with Some d => d ip.2 addr | None => fun _ => False end) fields) itss /\
        its = [Lst (concat itss)]
  | W_writeInterface, VIface None => its = [Lst []]
  | W_writeInterface, VIface (Some (t, v')) =>
      match makeWriter t no_tags with inl _ => False | inr p' => denotes v' p' false its end
  | _, _ => False
  end.
End Denotes.

(** ** Writers emit what values denote *)

(** [m] appends the encodings of [its] to every buffer. *)
Definition writes (m : WM) (its : list item) : Prop := forall w,
  length (sizebuf w) = 9%nat -> len (rlp_encs its) < 2 ^ 64 ->
  exists w', m w = Ok w' /\ emits w w' (rlp_encs its).

Lemma rlp_encs_single it : rlp_encs [it] = rlp_enc it.
Proof. unfold rlp_encs. simpl. apply app_nil_r. Qed.

Lemma append_writes b its : b = rlp_encs its -> writes (fun w => Ok (append_str b w)) its.
Proof. intros -> w _ _. eexists. split; [done|]. apply emits_append_str. Qed.

Lemma encodeString_writes b : writes (fun w => of_option (encodeString b w)) [Str b].
Proof.
  intros w Hs Hl. rewrite rlp_encs_single in *. simpl in *.
  assert (len b < 2 ^ 64).
  { revert Hl. unfold enc_str. destruct (self_byte b) eqn:E; [done|].
    rewrite len_app. pose proof (len_nonneg (str_head (len b))). lia. }
  destruct (encodeString_spec b w) as (w' & -> & He); [done..|]. by exists w'.
Qed.

Lemma write_seq_writes ms itss :
  Forall2 writes ms itss -> writes (write_seq ms) (concat itss).
Proof.
  induction 1 as [|m its ms itss Hm _ IH]; intros w Hs Hl; simpl.
  { exists w. split; [done|]. apply emits_refl. }
  simpl in Hl. rewrite rlp_encs_app, len_app in *.
  pose proof (len_nonneg (rlp_encs its)). pose proof (len_nonneg (rlp_encs (concat itss))).
  destruct (Hm w Hs ltac:(lia)) as (w1 & -> & E1). simpl.
  destruct (IH w1) as (w2 & -> & E2); [by rewrite (emits_sizebuf _ _ _ E1)|lia|].
  exists w2. split; [done|]. by eapply emits_trans.
Qed.

Lemma in_list_writes m its : writes m its -> writes (in_list m) [Lst its].
Proof.
  intros Hm w Hs Hl. rewrite rlp_encs_single in *. simpl in *. fold (rlp_encs its) in *.
  rewrite len_app in Hl. pose proof (len_nonneg (list_head (len (rlp_encs its)))).
  destruct (Hm (snd (list_ w)) Hs ltac:(lia)) as (w2 & E2 & He).
  destruct (listEnd_spec w w2 _ He ltac:(lia)) as (w3 & E3 & He3).
  exists w3. split; [|done]. unfold in_list. simpl in *. rewrite E2. simpl. by rewrite E3.
Qed.

Lemma emptyList_writes : writes emptyList [Lst []].
Proof. apply (in_list_writes (fun w => Ok w) []). intros w _ _. exists w. split; [done|]. apply emits_refl. Qed.

Lemma writeNilPtr_writes nk : writes (writeNilPtr nk) [nil_item nk].
Proof.
  unfold writeNilPtr, nil_item. destruct (decide (nk = KString)).
  - by apply append_writes.
  - apply emptyList_writes.
Qed.

Lemma writeBigInt_writes i : 0 <= i -> writes (writeBigInt i) [Str (big_bytes i)].
Proof.
  intros Hi. unfold writeBigInt. destruct (Z.ltb_spec i 0); [lia|].
  destruct (Z.eqb_spec i 0) as [->|]; [by apply append_writes|]. apply encodeString_writes.
Qed.

Lemma writeString_writes s : writes (writeString (VBytes s)) [Str s].
Proof.
  intros w Hs Hl. pose proof (encodeString_writes s w Hs Hl) as E.
  unfold writeString, encodeString in *. destruct s as [|c [|d s]]; try done.
  by destruct (c <=? 0x7F).
Qed.

Lemma big_bytes_byte i : 0 < i < 256 -> big_bytes i = [i].
Proof.
  intros. rewrite <- int_bytes_pos by lia. rewrite int_bytes_small by lia.
  by rewrite u8_small by (unfold byte_ok; lia).
Qed.

Lemma writeUint_writes n : u64_ok n -> writes (writeUint (VUint n)) [Str (big_bytes n)].
Proof.
  intros Hn w Hs Hl. unfold writeUint. pose proof Hn as Hn'. unfold u64_ok in Hn'.
  destruct (Z.eqb_spec n 0) as [->|]; [by eapply append_writes|].
  destruct (Z.ltb_spec n 128).
  { eapply append_writes; [|done..]. rewrite rlp_encs_single, big_bytes_byte, u8_small by (unfold byte_ok; lia).
    simpl. unfold enc_str. simpl. destruct (Z.ltb_spec n 128); [done|lia]. }
  destruct (sizebuf w) as [|x tl] eqn:Esb; [done|].
  rewrite putint_spec, int_bytes_pos by (done || lia).
  pose proof (size_bytes_range n ltac:(lia)) as Hsz.
  destruct (sizebuf_tag w x tl (128 + len (big_bytes n)) (big_bytes n)) as (b' & -> & S & Em);
    [done|by rewrite Esb|lia|]. simpl.
  rewrite (u8_small (len (big_bytes n))), u8_small by (unfold byte_ok; lia). rewrite S.
  eexists. split; [done|]. rewrite rlp_encs_single. simpl. unfold enc_str, str_head.
  assert (self_byte (big_bytes n) = false) as ->.
  { destruct (decide (n < 256)); [rewrite big_bytes_byte by lia; simpl; by apply Z.ltb_ge|].
    destruct (big_bytes n) as [|y [|z l]] eqn:Eb; try done.
    pose proof (be_val_big_bytes n ltac:(lia)) as V. pose proof (big_bytes_ok n) as Ok8. rewrite Eb in *.
    apply Forall_cons in Ok8 as [Ok8 _]. unfold byte_ok, be_val in *. simpl in V. lia. }
  rewrite enc_head_small by lia. exact Em.
Qed.

Section WriteSpec.
Context (EncodeRLP : nat -> value -> WM) (user_items : nat -> value -> list item -> Prop).
Context `{!EncoderLaws EncodeRLP user_items}.

Definition sound (v : value) : Prop := forall p addr its,
  denotes user_items v p addr its -> writes (write EncodeRLP v p addr) its.

Lemma elems_writes vs p addr itss :
  Forall sound vs -> all_denote (map (fun x => denotes user_items x p addr) vs) itss ->
  Forall2 writes (map (fun x => write EncodeRLP x p addr) vs) itss.
Proof.
  intros Hs. revert itss. induction Hs as [|v vs Hv _ IH]; intros itss Hd; inversion Hd; subst; simpl;
    constructor; auto.
Qed.

Lemma fields_writes vs fields addr itss :
  Forall sound vs ->
  all_denote (map (fun ip : nat * wplan =>
    match map (denotes user_items) vs !! ip.1 with Some d => d ip.2 addr | None => fun _ => False end)
    fields) itss ->
  Forall2 writes (map (fun ip : nat * wplan =>
    match map (write EncodeRLP) vs !! ip.1 with Some f => f ip.2 addr | None => fun _ => Panic end)
    fields) itss.
Proof.
  intros Hs. revert itss. induction fields as [|[i p] fields IH]; intros itss Hd;
    inversion Hd as [|? its ? itss' H1 H2]; subst; simpl; constructor; [|by apply IH].
  simpl in H1. rewrite (lookup_map (denotes user_items)) in H1. rewrite (lookup_map (write EncodeRLP)).
  destruct (vs !! i) as [v|] eqn:E; simpl in *; [|done].
  by apply (Forall_lookup_1 _ _ _ _ Hs E).
Qed.

Lemma write_denotes v : sound v.
Proof.
  assert (User : forall x m its, user_items m x its -> writes (EncodeRLP m x) its).
  { intros x m its Hd w Hw Hl. by eapply EncodeRLP_emits. }
  induction v as [bs|n|b|z|z| |v IH|vs IH|vs IH| |t v IH] using value_tree_ind;
    intros p addr its Hd; destruct p; simpl in Hd; try done;
    lazymatch type of Hd with
    | user_items _ _ _ => by apply User
    | _ = true /\ _ => destruct Hd as [-> Hd]; by apply User
    | _ => idtac
    end.
  - by apply append_writes.
  - subst. apply writeString_writes.
  - subst. apply encodeString_writes.
  - subst. apply encodeString_writes.
  - destruct Hd as [? ->]. by apply writeUint_writes.
  - subst. by destruct b; apply append_writes.
  - destruct Hd as [-> Hd]. destruct z as [z|].
    + destruct Hd as [? ->]. by apply writeBigInt_writes.
    + subst. by apply append_writes.
  - destruct Hd as [? ->]. by apply writeBigInt_writes.
  - subst. apply writeNilPtr_writes.
  - by apply IH.
  - destruct Hd as (itss & Hd & ->). apply elems_writes in Hd; [|done]. apply write_seq_writes in Hd.
    destruct tail; [exact Hd|]. by apply in_list_writes.
  - destruct Hd as (itss & Hd & ->). apply fields_writes in Hd; [|done].
    by apply in_list_writes, write_seq_writes.
  - subst. by apply append_writes.
  - unfold write. destruct (makeWriter t no_tags) as [e|p]; [done|]. by apply IH.
Qed.

(** The items of an interface value, at the top. *)
Definition val_denotes (t : rtype) (v : value) (its : list item) : Prop :=
  exists p, makeWriter t no_tags = inr p /\ denotes user_items v p false its.

Lemma encode_writes t v its :
  val_denotes t v its -> writes (encode EncodeRLP (Some (t, v))) its.
Proof.
  intros (p & Hp & Hd) w Hw Hl. unfold encode. rewrite Hp. by apply (write_denotes v p false its Hd).
Qed.

(** A buffer from the pool after [encode]. *)
Lemma encode_reset eb t v its :
  val_denotes t v its -> len (rlp_encs its) < 2 ^ 64 -> length (sizebuf eb) = 9%nat ->
  exists w, encode EncodeRLP (Some (t, v)) (reset eb) = Ok w /\ encbuf_ok w /\
    render (str w) 0 (lheads w) = rlp_encs its /\ size w = len (rlp_encs its).
Proof.
  intros Hd Hl Hs. destruct (encode_writes t v its Hd (reset eb) Hs Hl) as (w & E & He).
  pose proof (emits_ok _ _ _ (reset_ok eb Hs) He) as Ho.
  assert (Er : render (str w) 0 (lheads w) = rlp_encs its) by (by eapply emits_render in He).
  exists w. split; [done|]. split; [done|]. split; [done|]. unfold size.
  destruct Ho as (O & L & _). by rewrite <- Er, (render_len _ 0 _ O), L.
Qed.
End WriteSpec.

(** ** Reading the output in pieces *)

(** Successive calls of [Read] with buffers of the given sizes: the bytes they
    deliver together. *)
Fixpoint read_calls (ns : list nat) (r : encReader) : outcome unit (list Z) :=
  match ns with
  | [] => Ok []
  | n :: ns' =>
      match Read n r with
      | Ok (got, _, r') =>
          match read_calls ns' r' with Ok more => Ok (got ++ more) | o => o end
      | Err e => Err e
      | Panic => Panic
      | OutOfFuel => OutOfFuel
      end
  end.

Lemma read_calls_spec ns : forall r, encReader_ok r ->
  read_calls ns r = Ok (take (list_sum ns) (remaining_out r)).
Proof.
  induction ns as [|n ns IH]; intros r Hr; simpl; [done|].
  destruct (Read_spec n r Hr) as (got & eof & r' & -> & Hr' & -> & Hl & He).
  rewrite IH by done. f_equal. destruct eof.
  - rewrite He, take_nil, !app_nil_r. symmetry. apply take_ge. lia.
  - rewrite take_app. f_equal; [by rewrite take_ge by lia|]. f_equal. lia.
Qed.

Section Outputs.
Context (EncodeRLP : nat -> value -> WM) (user_items : nat -> value -> list item -> Prop).
Context `{!EncoderLaws EncodeRLP user_items}.

Lemma Encode_writer {W E} `{WriterLaws W E} eb t v its (out : W) :
  val_denotes user_items t v its -> len (rlp_encs its) < 2 ^ 64 -> length (sizebuf eb) = 9%nat ->
  match Encode EncodeRLP eb (inr out) (Some (t, v)) with
  | Ok (inr out') => written out' = written out ++ rlp_encs its
  | Err (inr e) => True
  | _ => False
  end.
Proof.
  intros Hd Hl Hs. destruct (encode_reset EncodeRLP user_items eb t v its Hd Hl Hs) as (w & E1 & Ho & Er & _).
  unfold Encode. rewrite E1. pose proof (toWriter_render w out Ho) as Hw.
  destruct (toWriter w out) as [[out' w']|e| |]; try done. destruct Hw as [-> _]. by rewrite Er.
Qed.

Lemma EncodeToBytes_denotes eb t v its :
  val_denotes user_items t v its -> len (rlp_encs its) < 2 ^ 64 -> length (sizebuf eb) = 9%nat ->
  EncodeToBytes EncodeRLP eb (Some (t, v)) = Ok (rlp_encs its).
Proof.
  intros Hd Hl Hs. destruct (encode_reset EncodeRLP user_items eb t v its Hd Hl Hs) as (w & E1 & Ho & Er & _).
  unfold EncodeToBytes. rewrite E1. simpl. by rewrite toBytes_render, Er.
Qed.

Lemma EncodeToReader_calls eb t v its ns :
  val_denotes user_items t v its -> len (rlp_encs its) < 2 ^ 64 -> length (sizebuf eb) = 9%nat ->
  exists r, EncodeToReader EncodeRLP eb (Some (t, v)) = Ok (len (rlp_encs its), r) /\
    read_calls ns r = Ok (take (list_sum ns) (rlp_encs its)).
Proof.
  intros Hd Hl Hs. destruct (encode_reset EncodeRLP user_items eb t v its Hd Hl Hs) as (w & E1 & Ho & Er & Hsz).
  unfold EncodeToReader. rewrite E1. simpl. rewrite Hsz. eexists. split; [done|].
  rewrite read_calls_spec.
  - unfold remaining_out. cbn [r_buf piece lhpos r_strpos default]. simpl. by rewrite !drop_0, Er.
  - destruct Ho as (O & _ & B). split; [done|]. split; [done|done].
Qed.
End Outputs.

(** The three ways of obtaining the encoding of a value agree, for every
    value that denotes RLP items: EncodeToBytes returns the concatenated
    encodings of the items; Encode appends the same bytes to any io.Writer, or
    returns that writer's error; and EncodeToReader announces their number and
    delivers them in order however the caller sizes its buffers. *)
Theorem encode_outputs_agree {W E} `{WriterLaws W E} EncodeRLP user_items eb t v its (out : W) ns :
  EncoderLaws EncodeRLP user_items ->
  val_denotes user_items t v its -> len (rlp_encs its) < 2 ^ 64 -> length (sizebuf eb) = 9%nat ->
  EncodeToBytes EncodeRLP eb (Some (t, v)) = Ok (rlp_encs its) /\
  match Encode EncodeRLP eb (inr out) (Some (t, v)) with
  | Ok (inr out') => written out' = written out ++ rlp_encs its
  | Err (inr e) => True
  | _ => False
  end /\
  exists r, EncodeToReader EncodeRLP eb (Some (t, v)) = Ok (len (rlp_encs its), r) /\
    read_calls ns r = Ok (take (list_sum ns) (rlp_encs its)).
Proof.
  intros Laws Hd Hl Hs. split; [|split].
  - by apply (EncodeToBytes_denotes EncodeRLP user_items).
  - by apply (Encode_writer EncodeRLP user_items).
  - by apply (EncodeToReader_calls EncodeRLP user_items).
Qed.

(** A bytes.Buffer, and user types without methods. *)
#[export] Instance buffer_writer : Writer (list Z) unit := {
  Write w b := (w ++ b, len b, None);
  written w := w
}.
#[export] Instance buffer_writer_laws : WriterLaws (list Z) unit.
Proof. split. by intros w b w' n [= <- <-]. Qed.

Definition no_encoders : nat -> value -> WM := fun _ _ _ => Panic.
Definition no_items : nat -> value -> list item -> Prop := fun _ _ _ => False.
#[export] Instance no_encoder_laws : EncoderLaws no_encoders no_items.
Proof. by split. Qed.

Lemma encode_outputs_agree_witness :
  EncodeToBytes no_encoders new_encbuf
    (Some (TSlice (TPtr (TUint 64)), VSeq [VPtr (Some (VUint 1024)); VPtr None])) =
  Ok [0xC4; 0x82; 0x04; 0x00; 0x80].
Proof.
  apply (encode_outputs_agree no_encoders no_items new_encbuf
    (TSlice (TPtr (TUint 64))) (VSeq [VPtr (Some (VUint 1024)); VPtr None])
    [Lst [Str [4; 0]; Str []]] ([] : list Z) []).
  - apply no_encoder_laws.
  - eexists. split; [reflexivity|]. simpl. exists [[Str [4; 0]]; [Str []]].
    split; [|reflexivity]. constructor; [split; [by vm_compute|reflexivity]|].
    constructor; [reflexivity|constructor].
  - by vm_compute.
  - reflexivity.
Defined.

(** Negative integers cannot be encoded: wherever a big integer is written,
    by pointer or by value, a negative one makes the writer fail with the error
    of writeBigInt, and EncodeToBytes returns no bytes. *)
Theorem negative_big_int_rejected EncodeRLP eb i :
  i < 0 ->
  EncodeToBytes EncodeRLP eb (Some (TBigIntPtr, VBig (Some i))) = Err errNegativeBigInt /\
  EncodeToBytes EncodeRLP eb (Some (TBigInt, VInt i)) = Err errNegativeBigInt /\
  EncodeToBytes EncodeRLP eb (Some (TSlice TBigIntPtr, VSeq [VBig (Some 0); VBig (Some i)])) =
    Err errNegativeBigInt.
Proof.
  intros Hi. unfold EncodeToBytes, encode. simpl. unfold writeBigIntPtr, writeBigInt, in_list. simpl. unfold writeBigIntPtr, writeBigInt. simpl.
  destruct (Z.ltb_spec i 0); [done|lia].
Qed.

Lemma negative_big_int_rejected_witness :
  EncodeToBytes no_encoders new_encbuf (Some (TBigIntPtr, VBig (Some (-5)))) = Err errNegativeBigInt.
Proof. apply (negative_big_int_rejected no_encoders new_encbuf (-5)). lia. Defined.
