(* ===== verification/RlpDecoder.v ===== *)
(** * Typed decoding (src/rlp/decode.go, typecache.go)

    [makeDecoder] compiles a type into a decoder; as for the writers, the
    closures of the source are kept as data, a [dplan], and [decode_val] runs a
    plan on a stream and the current value of the target.  Decoding returns the
    new value of the target; when an error is returned the target, which the
    source leaves half written, is given up. *)

From Stdlib Require Import String.
From stdpp Require Import strings.
From S2P Require Import Prelude RlpSpec RlpEncode RlpTypes RlpRaw RlpStream RlpWriter.

Inductive dplan : Type :=
| D_decodeRawValue
| D_decodeBigInt (typ : rtype)
| D_decodeBigIntNoPtr
| D_simplePtr (etype : rtype) (elem : dplan)
| D_nilPtr (etype : rtype) (nilKind : Kind) (elem : dplan)
| D_decodeDecoder (m : nat)
| D_decodeUint (typ : rtype) (bits : Z)
| D_decodeBool (typ : rtype)
| D_decodeString (typ : rtype)
| D_decodeByteArray (typ : rtype) (n : nat) (etype : rtype)
| D_decodeByteSlice (typ : rtype) (etype : rtype)
| D_listArray (typ : rtype) (n : nat) (etype : rtype) (elem : dplan)
| D_sliceElems (etype : rtype) (elem : dplan)
| D_listSlice (typ : rtype) (etype : rtype) (elem : dplan)
| D_struct (typ : rtype) (fields : list (nat * (string * dplan)))
| D_decodeInterface (typ : rtype) (nummethod : nat).

(** ** Errors *)

Definition wrapStreamError (err : rlp_error) (typ : rtype) : rlp_error :=
  match err with
  | ErrCanonInt => decodeError "non-canonical integer (leading zero bytes)" typ []
  | ErrCanonSize => decodeError "non-canonical size information" typ []
  | ErrExpectedList => decodeError "expected input list" typ []
  | ErrExpectedString => decodeError "expected input string or byte" typ []
  | errUintOverflow => decodeError "input string too long" typ []
  | errNotAtEOL => decodeError "input list has too many elements" typ []
  | _ => err
  end.

Definition addErrorContext (err : rlp_error) (ctx : context) : rlp_error :=
  match err with
  | decodeError msg typ c => decodeError msg typ (c ++ [ctx])
  | _ => err
  end.

(** ** Compiling a type *)

(** The test of [makeListDecoder] for byte elements. *)
Definition dec_isByte (e : rtype) : bool := is_uint8 e && negb (ptr_implements_decoder e).

Definition makeListDecoder (typ : rtype) (array : option nat) (ts : tags) (e : rtype)
  (info : rlp_error + dplan) : rlp_error + dplan :=
  if dec_isByte e then
    inr (match array with
         | Some n => D_decodeByteArray typ n e
         | None => D_decodeByteSlice typ e
         end)
  else
    match info with
    | inl err => inl err
    | inr p =>
        inr (match array with
             | Some n => D_listArray typ n e p
             | None => if tail ts then D_sliceElems e p else D_listSlice typ e p
             end)
    end.

Definition makePtrDecoder (ts : tags) (e : rtype) (info : rlp_error + dplan) : rlp_error + dplan :=
  match info with
  | inl err => inl err
  | inr p => inr (if nilOK ts then D_nilPtr e (nilKind ts) p else D_simplePtr e p)
  end.

Definition makeStructDecoder (typ : rtype) (fs : list sfield)
  (fields : rlp_error + list (nat * (rlp_error + dplan))) : rlp_error + dplan :=
  match fields with
  | inl e => inl e
  | inr l =>
      match check_fields typ l with
      | inl e => inl e
      | inr ps => inr (D_struct typ (map (fun ip : nat * dplan =>
          (ip.1, (match fs !! ip.1 with Some f => fname f | None => EmptyString end, ip.2))) ps))
      end
  end.

(** The switch of [makeDecoder] on the type literal [t] of the type [typ]. *)
Fixpoint decoder_of (typ t : rtype) (ts : tags) : rlp_error + dplan :=
  match t with
  | TRawValue => inr D_decodeRawValue
  | TBigIntPtr => inr (D_decodeBigInt typ)
  | TBigInt => inr D_decodeBigIntNoPtr
  | TPtr e => makePtrDecoder ts e (decoder_of e e no_tags)
  | TUint bits => inr (D_decodeUint typ bits)
  | TBool => inr (D_decodeBool typ)
  | TString => inr (D_decodeString typ)
  | TSlice e => makeListDecoder typ None ts e (decoder_of e e no_tags)
  | TArray n e => makeListDecoder typ (Some n) ts e (decoder_of e e no_tags)
  | TStruct fs =>
      makeStructDecoder typ fs
        (structFields typ (lastPublicField fs) (fun t ts => decoder_of t t ts) 0 fs)
  | TInterface n => inr (D_decodeInterface typ n)
  | TOther _ => inl (errNotSerializable typ)
  | TNamed m u =>
      if negb (is_ptr u) && ptr_implements_decoder t then inr (D_decodeDecoder (m_id m))
      else decoder_of typ u ts
  end.

Definition makeDecoder (typ : rtype) (ts : tags) : rlp_error + dplan := decoder_of typ typ ts.

(** ** Values *)

(** Byte sequences and sequences as values of a slice or array type. *)
Definition bytes_value (e : rtype) (bs : list Z) : value :=
  if isByte e then VBytes bs else VSeq (map VUint bs).
Definition seq_value (e : rtype) (vs : list value) : value :=
  if isByte e then VBytes (map (fun v => match v with VUint n => n | _ => 0 end) vs) else VSeq vs.
Definition elems_of (v : value) : list value :=
  match v with VSeq vs | VStruct vs => vs | VBytes bs => map VUint bs | _ => [] end.

(** The value decodeInterface stores. *)
Definition byte_slice : rtype := TSlice (TUint 8).
Definition ifsliceType : rtype := TSlice (TInterface 0).
Definition iface_bytes (b : list Z) : value := VIface (Some (byte_slice, VBytes b)).
Definition iface_list (vs : list value) : value := VIface (Some (ifsliceType, VSeq vs)).

(** ** The decode functions *)

Section Decode.
Context {R : Type} `{ByteReader R}.
Implicit Types s : stream R.

(** Map the error of a call. *)
Definition map_err {A} (f : rlp_error -> rlp_error) (m : SM R A) : SM R A := fun s =>
  match m s with (Err e, s') => (Err (f e), s') | r => r end.
Definition wrap {A} (typ : rtype) (m : SM R A) : SM R A := map_err (fun e => wrapStreamError e typ) m.

Definition decodeRawValue : SM R value := let* r := Stream_Raw in ret (VBytes r).

Definition decodeUint (typ : rtype) (bits : Z) : SM R value :=
  let* num := wrap typ (Stream_uint bits) in ret (VUint num).

Definition decodeBool (typ : rtype) : SM R value :=
  let* b := wrap typ Stream_Bool in ret (VBool b).

Definition decodeString (typ : rtype) : SM R value :=
  let* b := wrap typ Stream_Bytes in ret (VBytes b).

(** The assertion to the pointer type panics for a defined type. *)
Definition decodeBigInt (typ : rtype) : SM R Z :=
  let* b := wrap typ Stream_Bytes in
  if negb (is_bigint_ptr typ) then panic
  else if (0 <? len b) && (default 0 (b !! 0%nat) =? 0) then fail (wrapStreamError ErrCanonInt typ)
  else ret (be_val b).

Definition decodeByteSlice (typ e : rtype) : SM R value :=
  let* b := wrap typ Stream_Bytes in ret (bytes_value e b).

(** [bv, _ := s.Uint()] drops the error; [0] is then stored. *)
Definition uint_or_zero : SM R Z := fun s =>
  match Stream_Uint s with
  | (Err _, s') => (Ok 0, s')
  | r => r
  end.

(** The assertion to a slice of bytes panics for elements of a defined type. *)
Definition decodeByteArray (typ : rtype) (vlen : Z) (e : rtype) : SM R value :=
  let* (k, n) := Stream_Kind in
  match k with
  | KByte =>
      if vlen =? 0 then fail (decodeError "input string too long" typ [])
      else if 1 <? vlen then fail (decodeError "input string too short" typ [])
      else let* bv := uint_or_zero in ret (bytes_value e [u8 bv])
  | KString =>
      if u64 vlen <? n then fail (decodeError "input string too long" typ [])
      else if n <? u64 vlen then fail (decodeError "input string too short" typ [])
      else if negb (is_byte e) then panic
      else
        let* slice := readFull vlen in
        if (n =? 1) && (default 0 (slice !! 0%nat) <? 128) then fail (wrapStreamError ErrCanonSize typ)
        else ret (bytes_value e slice)
  | KList => fail (wrapStreamError ErrExpectedString typ)
  end.

(** The loop of [decodeSliceElems]: [vals] are the elements the target has and
    [z] the zero value behind them, [acc] the elements decoded so far.  The
    growth of the slice only moves the elements. *)
Fixpoint decodeSliceElems (fuel : nat) (z : value) (vals acc : list value)
  (elemdec : value -> SM R value) : SM R (list value) := fun s =>
  match fuel with
  | O => (OutOfFuel, s)
  | S f =>
      match elemdec (default z (vals !! length acc)) s with
      | (Ok v, s') => decodeSliceElems f z vals (acc ++ [v]) elemdec s'
      | (Err EOL, s') => (Ok acc, s')
      | (Err e, s') => (Err (addErrorContext e (CtxIndex (length acc))), s')
      | (Panic, s') => (Panic, s')
      | (OutOfFuel, s') => (OutOfFuel, s')
      end
  end.

Definition decodeListSlice (fuel : nat) (typ : rtype) (z : value) (vals : list value)
  (elemdec : value -> SM R value) : SM R (list value) :=
  let* n := wrap typ Stream_List in
  if n =? 0 then let* _ := Stream_ListEnd in ret []
  else
    let* vs := decodeSliceElems fuel z vals [] elemdec in
    let* _ := Stream_ListEnd in ret vs.

(** The loop of [decodeListArray] over the elements of the array. *)
Fixpoint decodeArrayElems (typ : rtype) (i : nat) (vals : list value)
  (elemdec : value -> SM R value) : SM R (list value) := fun s =>
  match vals with
  | [] => (Ok [], s)
  | v :: vals' =>
      match elemdec v s with
      | (Ok v', s') => (let* vs := decodeArrayElems typ (S i) vals' elemdec in ret (v' :: vs)) s'
      | (Err EOL, s') => (Err (decodeError "input list has too few elements" typ []), s')
      | (Err e, s') => (Err (addErrorContext e (CtxIndex i)), s')
      | (Panic, s') => (Panic, s')
      | (OutOfFuel, s') => (OutOfFuel, s')
      end
  end.

Definition decodeListArray (typ : rtype) (vals : list value)
  (elemdec : value -> SM R value) : SM R (list value) :=
  let* _ := wrap typ Stream_List in
  let* vs := decodeArrayElems typ 0 vals elemdec in
  let* _ := wrap typ Stream_ListEnd in ret vs.

(** The loop of the struct decoder: [fields] pairs a field's index and name
    with its decoder. *)
Fixpoint decodeFields (typ : rtype) (fields : list (nat * (string * (value -> SM R value))))
  (vals : list value) : SM R (list value) := fun s =>
  match fields with
  | [] => (Ok vals, s)
  | (i, (nm, dec)) :: fields' =>
      match vals !! i with
      | None => (Panic, s)
      | Some v =>
          match dec v s with
          | (Ok v', s') => decodeFields typ fields' (<[i := v']> vals) s'
          | (Err EOL, s') => (Err (decodeError "too few elements" typ []), s')
          | (Err e, s') => (Err (addErrorContext e (CtxField nm)), s')
          | (Panic, s') => (Panic, s')
          | (OutOfFuel, s') => (OutOfFuel, s')
          end
      end
  end.

Definition decodeStruct (typ : rtype) (fields : list (nat * (string * (value -> SM R value))))
  (vals : list value) : SM R (list value) :=
  let* _ := wrap typ Stream_List in
  let* vs := decodeFields typ fields vals in
  let* _ := wrap typ Stream_ListEnd in ret vs.

Definition decodeSimplePtr (z : value) (dec : value -> SM R value) (v : value) : SM R value :=
  match v with
  | VPtr p => let* v' := dec (default z p) in ret (VPtr (Some v'))
  | _ => panic
  end.

Definition kind_name (k : Kind) : string :=
  match k with KByte => "Byte" | KString => "String" | KList => "List" end.

Definition decodeNilPtr (etype : rtype) (nilKind : Kind) (z : value) (dec : value -> SM R value)
  (v : value) : SM R value :=
  let typ := TPtr etype in
  let* (k, n) := wrap typ Stream_Kind in
  if negb (bool_decide (k = KByte)) && (n =? 0) then
    if bool_decide (k = nilKind) then fun s => (Ok (VPtr None), set_kind None s)
    else fail (decodeError ("wrong kind of empty value (got " +:+ kind_name k +:+ ", want " +:+
                 kind_name nilKind +:+ ")")%string typ [])
  else decodeSimplePtr z dec v.

(** [decodeInterface]; the fuel bounds the nesting and the loops. *)
Fixpoint decodeInterface (fuel : nat) (typ : rtype) (nummethod : nat) : SM R value := fun s =>
  match fuel with
  | O => (OutOfFuel, s)
  | S f =>
      if negb (nummethod =? 0)%nat then (Err (errNotSerializable typ), s)
      else
        (let* (k, _) := Stream_Kind in
         if decide (k = KList) then
           let* vs := decodeListSlice f ifsliceType (VIface None) []
                        (fun _ => decodeInterface f (TInterface 0) 0) in
           ret (iface_list vs)
         else
           let* b := Stream_Bytes in ret (iface_bytes b)) s
  end.

(** The DecodeRLP methods of user types: the value of the receiver before and
    after. *)
Variable DecodeRLP : nat -> value -> SM R value.

(** Run a plan on the current value of the target. *)
Fixpoint decode_val (fuel : nat) (p : dplan) (v : value) {struct p} : SM R value :=
  match p with
  | D_decodeRawValue => decodeRawValue
  | D_decodeBigInt typ => let* i := decodeBigInt typ in ret (VBig (Some i))
  | D_decodeBigIntNoPtr => let* i := decodeBigInt TBigIntPtr in ret (VInt i)
  | D_simplePtr e p' => decodeSimplePtr (zero e) (decode_val fuel p') v
  | D_nilPtr e nk p' => decodeNilPtr e nk (zero e) (decode_val fuel p') v
  | D_decodeDecoder m => DecodeRLP m v
  | D_decodeUint typ bits => decodeUint typ bits
  | D_decodeBool typ => decodeBool typ
  | D_decodeString typ => decodeString typ
  | D_decodeByteArray typ n e => decodeByteArray typ (Z.of_nat n) e
  | D_decodeByteSlice typ e => decodeByteSlice typ e
  | D_listArray typ n e p' =>
      let* vs := decodeListArray typ (elems_of v) (decode_val fuel p') in ret (seq_value e vs)
  | D_sliceElems e p' =>
      let* vs := decodeSliceElems fuel (zero e) (elems_of v) [] (decode_val fuel p') in
      ret (seq_value e vs)
  | D_listSlice typ e p' =>
      let* vs := decodeListSlice fuel typ (zero e) (elems_of v) (decode_val fuel p') in
      ret (seq_value e vs)
  | D_struct typ fields =>
      let* vs := decodeStruct typ
        (map (fun f => match f with (i, (nm, p')) => (i, (nm, decode_val fuel p')) end) fields)
        (elems_of v) in
      ret (VStruct vs)
  | D_decodeInterface typ n => decodeInterface fuel typ n
  end.

(** [Stream.Decode(val)]: [val] is nil or a value of any type; the result is
    the value its pointer refers to afterwards. *)
Definition deref (v : value) : option (option value) :=
  match v with
  | VPtr p => Some p
  | VBig z => Some (VInt <$> z)
  | _ => None
  end.

Definition add_target (typ : rtype) (e : rlp_error) : rlp_error :=
  match e with
  | decodeError msg t ((_ :: _) as ctx) => decodeError msg t (ctx ++ [CtxTarget typ])
  | _ => e
  end.

Definition Stream_Decode (fuel : nat) (val : option (rtype * value)) : SM R value :=
  match val with
  | None => fail errDecodeIntoNil
  | Some (rtyp, rval) =>
      if negb (is_ptr rtyp) then fail errNoPointer
      else
        match deref rval with
        | None => panic
        | Some None => fail errDecodeIntoNil
        | Some (Some v) =>
            match makeDecoder (ptr_elem rtyp) no_tags with
            | inl e => fail e
            | inr p => map_err (add_target (ptr_elem rtyp)) (decode_val fuel p v)
            end
        end
  end.

(** [Decode(r, val)] with a stream from streamPool: the value and the reader. *)
Definition Decode (fuel : nat) (pooled : stream R) (r : R) (val : option (rtype * value))
  : outcome rlp_error value * R :=
  let '(o, s) := Stream_Decode fuel val (Reset r 0 pooled) in (o, s_r s).
End Decode.

(** [DecodeBytes(b, val)].  A value of [n] bytes nests and repeats at most [n]
    times, so the length of the input is enough fuel. *)
Definition decode_fuel (b : list Z) : nat := 2 * length b + 3.

Definition DecodeBytes (DecodeRLP : nat -> value -> SM (list Z) value) (pooled : stream (list Z))
  (b : list Z) (val : option (rtype * value)) : outcome rlp_error value :=
  match Stream_Decode DecodeRLP (decode_fuel b) val (Reset b (len b) pooled) with
  | (Ok v, s) => if 0 <? len (s_r s) then Err ErrMoreThanOneValue else Ok v
  | (Err e, _) => Err e
  | (Panic, _) => Panic
  | (OutOfFuel, _) => OutOfFuel
  end.

(** No user types. *)
Definition no_methods {R} : nat -> value -> SM R value := fun _ _ => panic.

Example decode_nested :
  DecodeBytes no_methods (zero_stream []) [0xC4; 0x05; 0xC2; 0x80; 0x81] 
    (Some (TPtr (TInterface 0), VPtr (Some (VIface None)))) = Err ErrElemTooLarge.
Proof. reflexivity. Qed.

Example decode_nested2 :
  DecodeBytes no_methods (zero_stream []) [0xC4; 0x05; 0xC2; 0x80; 0x7F] 
    (Some (TPtr (TInterface 0), VPtr (Some (VIface None)))) =
  Ok (iface_list [iface_bytes [5]; iface_list [iface_bytes []; iface_bytes [0x7F]]]).
Proof. reflexivity. Qed.
