(* ===== verification/RlpRoundtrip.v ===== *)
(** * RLP round trips

    [repr] says which items a value of a type is represented by.  Encoding a
    represented value emits those items, and decoding them into the zero value
    of the type gives the value back.  For interface targets decoding is exact:
    it accepts the canonical encodings and nothing else. *)

From Stdlib Require Import String.
From S2P Require Import Prelude RlpSpec RlpEncode RlpTypes RlpRaw RlpStream RlpWriter RlpDecoder.

(** ** Positions in the input *)

Lemma rlp_encs_count its : Z.of_nat (length its) <= len (rlp_encs its).
Proof.
  induction its as [|it its IH]; [done|]. rewrite rlp_encs_cons, len_app.
  pose proof (rlp_enc_len_pos it). simpl. lia.
Qed.

Lemma rlp_encs_lt_Lst its n :
  (length (rlp_enc (Lst its)) < n)%nat -> (length (rlp_encs its) < n)%nat.
Proof. simpl. rewrite length_app. fold (rlp_encs its). lia. Qed.

Lemma items_ok_all its : item_bytes_ok (Lst its) <-> Forall item_bytes_ok its.
Proof.
  simpl. induction its as [|it its IH]; simpl; [by split|]. rewrite IH. by rewrite Forall_cons.
Qed.

(** The items [its] stand at the cursor and can be read. *)
Definition items_at (c : cursor) (its : list item) : Prop :=
  c_ok c /\ (exists t, c_rest c = rlp_encs its ++ t) /\ c_can (len (rlp_encs its)) c /\
  len (rlp_encs its) <= maxAlloc.

Lemma items_at_adv c its :
  items_at c its -> c_ok (c_adv (len (rlp_encs its)) c).
Proof. intros (Hok & _ & (_ & Hf & Hi) & _). apply c_adv_ok; [apply len_nonneg|done..]. Qed.

Lemma items_at_cons c it its :
  items_at c (it :: its) ->
  item_at c it /\ len (rlp_enc it) <= maxAlloc /\ items_at (c_adv (len (rlp_enc it)) c) its.
Proof.
  intros (Hok & (t & Et) & Hc & Hm). rewrite rlp_encs_cons in *. rewrite len_app in Hc, Hm.
  pose proof (len_nonneg (rlp_encs its)). pose proof (len_nonneg (rlp_enc it)).
  assert (Hc1 : c_can (len (rlp_enc it)) c) by (eapply c_can_mono; [|done]; lia).
  assert (Hl : len (rlp_enc it) < 2 ^ 64) by (unfold maxAlloc in Hm; lia).
  split; [|split; [lia|]].
  - split; [done|]. split; [|done]. exists (rlp_encs its ++ t). by rewrite Et, app_assoc.
  - split; [|split; [|split]]; [|exists t|by apply c_can_adv|lia].
    + destruct Hc1 as (_ & Hf & Hi). by apply c_adv_ok.
    + apply c_adv_rest. by rewrite Et, app_assoc.
Qed.

Lemma items_at_single c it : items_at c [it] -> item_at c it /\ len (rlp_enc it) <= maxAlloc.
Proof. intros Ha. by apply items_at_cons in Ha as (? & ? & _). Qed.

(** The cursor inside a list. *)
Definition c_enter (n : Z) (c : cursor) : cursor :=
  let h := len (list_head n) in
  Cursor (c_rest (c_adv h c)) (Listpos 0 n :: bump h (c_stack c)) (c_rem (c_adv h c)).

Lemma item_at_enter c its :
  item_at c (Lst its) -> len (rlp_enc (Lst its)) <= maxAlloc ->
  items_at (c_enter (len (rlp_encs its)) c) its.
Proof.
  intros Hat Hm. pose proof Hat as (Hok & (t & Et) & Hc & Hl).
  destruct (item_at_peek c (Lst its) Hat) as (Hok1 & Hc1 & Hr & _).
  destruct (Hr ltac:(done)) as (t' & Et'). unfold psize, item_hd in *. simpl in *.
  fold (rlp_encs its) in *. rewrite len_app in Hm, Hl, Hc.
  set (n := len (rlp_encs its)) in *. pose proof (len_nonneg (rlp_encs its)) as Hn. fold n in Hn.
  pose proof (len_nonneg (list_head n)).
  destruct Hok1 as (Hb & Hst & Hrem). destruct Hc1 as (Hle & Hf & Hi). unfold c_enter. simpl in *.
  split; [|split; [by exists t'|split; [|lia]]].
  - split; [done|]. split; [|done]. simpl. split; [lia|]. split; [lia|]. split; [|done].
    unfold fits in Hf. simpl in Hf. by destruct (bump (len (list_head n)) (c_stack c)).
  - split; [done|]. split; [unfold fits; simpl; fold n; lia|done].
Qed.

Lemma c_enter_leave c its :
  item_at c (Lst its) ->
  let n := len (rlp_encs its) in
  Cursor (c_rest (c_adv n (c_enter n c))) (bump n (bump (len (list_head n)) (c_stack c)))
    (c_rem (c_adv n (c_enter n c))) = c_adv (len (rlp_enc (Lst its))) c.
Proof.
  intros _ n. simpl. fold (rlp_encs its). fold n. rewrite len_app.
  assert (0 <= n) by apply len_nonneg. assert (0 <= len (list_head n)) by apply len_nonneg.
  fold n. rewrite <- (c_adv_adv (len (list_head n)) n) by done. done.
Qed.

(** ** Decoders of items *)

Section Specs.
Context {R : Type} `{ReaderLaws R}.
Implicit Types s : stream R.

(** [d] reads the item [it] as [v]. *)
Definition decodes {A} (d : SM R A) (it : item) (v : A) : Prop := forall c s,
  item_at c it -> len (rlp_enc it) <= maxAlloc -> ready c it s ->
  exists s', d s = (Ok v, s') /\ fresh (c_adv (len (rlp_enc it)) c) s'.

(** [d] reports the end of the enclosing list. *)
Definition reports_eol {A} (d : SM R A) : Prop := forall c s,
  fresh c s -> at_end c -> exists s', d s = (Err EOL, s') /\ fresh c s'.

Definition reads {A} (d : SM R A) (it : item) (v : A) : Prop := decodes d it v /\ reports_eol d.

Lemma bind_ok {A B} (m : SM R A) (f : A -> SM R B) s a s' :
  m s = (Ok a, s') -> bind m f s = f a s'.
Proof. intros E. unfold bind. by rewrite E. Qed.

Lemma wrap_ok {A} typ (m : SM R A) s a s' : m s = (Ok a, s') -> wrap typ m s = (Ok a, s').
Proof. intros E. unfold wrap, map_err. by rewrite E. Qed.

Lemma decodes_ret {A B} (d : SM R A) it v (f : A -> B) :
  decodes d it v -> decodes (let* x := d in ret (f x)) it (f v).
Proof. intros Hd c s Hat Hm Hr. destruct (Hd c s Hat Hm Hr) as (s' & E & F). exists s'. unfold bind. by rewrite E. Qed.

Lemma eol_bind {A B} (d : SM R A) (f : A -> SM R B) : reports_eol d -> reports_eol (bind d f).
Proof. intros Hd c s Hf He. destruct (Hd c s Hf He) as (s' & E & F). exists s'. unfold bind. by rewrite E. Qed.

Lemma eol_wrap {A} (d : SM R A) typ : reports_eol d -> reports_eol (wrap typ d).
Proof. intros Hd c s Hf He. destruct (Hd c s Hf He) as (s' & E & F). exists s'. unfold wrap, map_err. by rewrite E. Qed.

Lemma decodes_wrap {A} (d : SM R A) typ it v : decodes d it v -> decodes (wrap typ d) it v.
Proof.
  intros Hd c s Hat Hm Hr. destruct (Hd c s Hat Hm Hr) as (s' & E & F). exists s'.
  unfold wrap, map_err. by rewrite E.
Qed.

Lemma reads_ret {A B} (d : SM R A) it v (f : A -> B) :
  reads d it v -> reads (let* x := d in ret (f x)) it (f v).
Proof. intros [? ?]. split; [by apply decodes_ret|by apply eol_bind]. Qed.

Lemma reads_wrap {A} (d : SM R A) typ it v : reads d it v -> reads (wrap typ d) it v.
Proof. intros [? ?]. split; [by apply decodes_wrap|by apply eol_wrap]. Qed.

Lemma Kind_eol : reports_eol Stream_Kind.
Proof.
  intros c s (Hu & Hk & <-) He. exists (set_kinderr None s). by rewrite Stream_Kind_end.
Qed.

Lemma Bytes_reads bs : reads Stream_Bytes (Str bs) bs.
Proof.
  split; [|apply eol_bind, Kind_eol]. intros c s Hat Hm Hr. apply Bytes_ready; [done| |done].
  revert Hm. rewrite rlp_enc_parts, len_app. simpl payload.
  pose proof (len_nonneg (kind_head (item_kind (Str bs)) (len bs))). lia.
Qed.

Lemma Raw_reads it : reads Stream_Raw it (rlp_enc it).
Proof. split; [|apply eol_bind, Kind_eol]. intros c s Hat Hm Hr. by apply Raw_ready. Qed.

Lemma uint_reads n bits :
  0 <= n < 2 ^ bits -> bits = 8 \/ bits = 16 \/ bits = 32 \/ bits = 64 ->
  reads (Stream_uint bits) (Str (big_bytes n)) n.
Proof. intros Hn Hb. split; [|apply eol_bind, Kind_eol]. intros c s Hat Hm Hr. by apply uint_ready. Qed.

Lemma Bool_reads (b : bool) : reads Stream_Bool (Str (if b then [1] else [])) b.
Proof.
  split; [|apply eol_bind, eol_bind, Kind_eol]. intros c s Hat Hm Hr.
  assert (E : (if b then [1] else []) = big_bytes (if b then 1 else 0)) by (by destruct b).
  rewrite E in *. destruct (uint_ready c (if b then 1 else 0) 8 s) as (s' & E1 & F);
    [done|by destruct b|auto|done|].
  exists s'. split; [|done]. unfold Stream_Bool, bind. rewrite E1. by destruct b.
Qed.

Lemma BigInt_reads i : 0 <= i -> reads (decodeBigInt TBigIntPtr) (Str (big_bytes i)) i.
Proof.
  intros Hi. split; [|apply eol_bind, eol_wrap, eol_bind, Kind_eol]. intros c s Hat Hm Hr.
  destruct (decodes_wrap _ TBigIntPtr _ _ (proj1 (Bytes_reads (big_bytes i))) c s Hat Hm Hr) as (s' & E & F).
  exists s'. split; [|done]. unfold decodeBigInt, bind. rewrite E. cbn [is_bigint_ptr negb].
  assert (((0 <? len (big_bytes i)) && (default 0 (big_bytes i !! 0%nat) =? 0)) = false) as ->.
  { destruct (decide (i = 0)) as [->|]; [done|].
    destruct (big_bytes_head i ltac:(lia)) as (x & u & -> & Hx). simpl.
    destruct (Z.eqb_spec x 0); [lia|done]. }
  by rewrite be_val_big_bytes.
Qed.

Lemma ByteArray_reads typ e bs :
  bytes_ok bs -> bs <> [0] -> is_byte e || self_byte bs = true ->
  reads (decodeByteArray typ (len bs) e) (Str bs) (bytes_value e bs).
Proof.
  intros Hb Hnz Hby. split; [|apply eol_bind, Kind_eol]. intros c s Hat Hm Hr.
  destruct (Kind_ready _ _ _ Hat Hr) as (s1 & E & Hp). unfold decodeByteArray, bind. rewrite E.
  assert (Hl : len bs < 2 ^ 64).
  { destruct Hat as (_ & _ & _ & Hl). revert Hl. rewrite rlp_enc_parts, len_app. simpl payload.
    pose proof (len_nonneg (kind_head (item_kind (Str bs)) (len bs))). lia. }
  destruct (item_kind (Str bs)) eqn:Ek.
  - simpl in Ek. destruct (self_byte bs) eqn:Es; [|done]. apply self_byte_spec in Es as (b & -> & Hb7).
    assert (b <> 0) by congruence.
    apply Forall_cons in Hb as [Hb _]. unfold byte_ok in Hb.
    assert (Eb : [b] = big_bytes b) by (by rewrite big_bytes_byte by lia).
    change (len [b]) with 1. simpl. unfold uint_or_zero, Stream_Uint. rewrite Eb in *.
    destruct (uint_ready c b 64 s1 Hat) as (s2 & E2 & F); [lia|auto|by right|].
    rewrite E2. exists s2. rewrite u8_small by (unfold byte_ok; lia). by rewrite <- Eb in *.
  - unfold psize. rewrite Ek. change (payload (Str bs)) with bs. rewrite u64_small by (split; [apply len_nonneg|done]).
    rewrite !Z.ltb_irrefl.
    assert (is_byte e = true) as -> by (simpl in Ek; destruct (self_byte bs); [done|by rewrite orb_false_r in Hby]). cbn [negb].
    destruct (readFull_peeked c (Str bs) s1 Hat Hp) as (s2 & E2 & F); [by rewrite Ek|].
    change (payload (Str bs)) with bs in E2. rewrite E2. exists s2. split; [|done].
    simpl in Ek. destruct (self_byte bs) eqn:Es; [done|].
    destruct bs as [|x [|y l]]; [done| |].
    + simpl in *. by rewrite Es.
    + rewrite !len_cons. pose proof (len_nonneg l). by destruct (Z.eqb_spec (1 + (1 + len l)) 1); [lia|].
  - simpl in Ek. by destruct (self_byte bs).
Qed.

(** ** Lists *)

Lemma List_enter c its s :
  item_at c (Lst its) -> ready c (Lst its) s ->
  exists s', Stream_List s = (Ok (len (rlp_encs its)), s') /\ fresh (c_enter (len (rlp_encs its)) c) s'.
Proof. apply List_ready. Qed.

Lemma ListEnd_leave c its s :
  item_at c (Lst its) -> len (rlp_enc (Lst its)) <= maxAlloc ->
  fresh (c_adv (len (rlp_encs its)) (c_enter (len (rlp_encs its)) c)) s ->
  exists s', Stream_ListEnd s = (Ok tt, s') /\ fresh (c_adv (len (rlp_enc (Lst its))) c) s'.
Proof.
  intros Hat Hm Hf. pose proof (items_at_adv _ _ (item_at_enter c its Hat Hm)) as (_ & Hst & _).
  destruct (ListEnd_ready _ _ _ _ Hf eq_refl) as (s' & E & F); [simpl; lia|done|].
  exists s'. split; [done|]. rewrite <- (c_enter_leave c its Hat). exact F.
Qed.

Lemma List_eol : reports_eol Stream_List.
Proof. apply eol_bind, Kind_eol. Qed.

(** The loop over the elements, up to the end of the enclosing list. *)
Lemma elems_decode (d : value -> SM R value) z its vs :
  Forall2 (reads (d z)) its vs -> forall t st fuel acc c s,
  (length its < fuel)%nat ->
  c_stack c = t :: st -> items_at c its -> pos t + len (rlp_encs its) = lsize t -> fresh c s ->
  reports_eol (d z) ->
  exists s', decodeSliceElems fuel z [] acc d s = (Ok (acc ++ vs), s') /\
    fresh (c_adv (len (rlp_encs its)) c) s'.
Proof.
  induction 1 as [|it v its vs [Hd _] _ IH]; intros t st fuel acc c s Hfu Est Hat Hend Hfr Heol;
    (destruct fuel as [|fuel]; [simpl in *; lia|]); simpl decodeSliceElems; simpl default.
  - destruct (Heol c s Hfr) as (s' & E & F).
    { unfold at_end. rewrite Est. unfold len in Hend. simpl in Hend. lia. }
    rewrite E. exists s'. rewrite app_nil_r. split; [done|]. by rewrite c_adv_0.
  - apply items_at_cons in Hat as (Hit & Hm & Hat). rewrite rlp_encs_cons, len_app in Hend |- *.
    destruct (Hd c s Hit Hm (or_introl Hfr)) as (s1 & E & F). rewrite E.
    destruct (IH (Listpos (pos t + len (rlp_enc it)) (lsize t)) st fuel (acc ++ [v])
      (c_adv (len (rlp_enc it)) c) s1)
      as (s2 & E2 & F2); [simpl in *; lia| |done|simpl; lia|done|done|].
    { simpl. by rewrite Est. }
    exists s2. rewrite E2, <- app_assoc. split; [done|].
    rewrite c_adv_adv in F2 by apply len_nonneg. done.
Qed.

Lemma ListSlice_reads (d : value -> SM R value) typ z its vs fuel :
  Forall2 (reads (d z)) its vs -> reports_eol (d z) -> (length its < fuel)%nat ->
  reads (decodeListSlice fuel typ z [] d) (Lst its) vs.
Proof.
  intros Hd Heol Hfu. split; [|apply eol_bind, eol_wrap, List_eol]. intros c s Hat Hm Hr.
  destruct (List_enter c its s Hat Hr) as (s1 & E1 & F1).
  unfold decodeListSlice, bind, wrap, map_err. rewrite E1.
  pose proof (item_at_enter c its Hat Hm) as Hin.
  destruct (Z.eqb_spec (len (rlp_encs its)) 0) as [E0|].
  - pose proof (rlp_encs_count its). destruct its; [|simpl in *; lia]. inversion Hd; subst.
    destruct (ListEnd_leave c [] s1 Hat Hm) as (s2 & E2 & F2).
    { change (len (rlp_encs [])) with 0 in *. by rewrite c_adv_0. }
    rewrite E2. by exists s2.
  - destruct (elems_decode d z its vs Hd _ _ fuel [] (c_enter (len (rlp_encs its)) c) s1 Hfu eq_refl Hin) as (s2 & E2 & F2);
      [simpl; lia|done|done|].
    rewrite E2. simpl app. destruct (ListEnd_leave c its s2 Hat Hm F2) as (s3 & E3 & F3).
    rewrite E3. by exists s3.
Qed.

Lemma array_decode typ (d : value -> SM R value) z its vs :
  Forall2 (reads (d z)) its vs -> forall i c s, items_at c its -> fresh c s ->
  exists s', decodeArrayElems typ i (replicate (length vs) z) d s = (Ok vs, s') /\
    fresh (c_adv (len (rlp_encs its)) c) s'.
Proof.
  induction 1 as [|it v its vs [Hd _] _ IH]; intros i c s Hat Hfr; simpl.
  - exists s. split; [done|]. by rewrite c_adv_0.
  - apply items_at_cons in Hat as (Hit & Hm & Hat).
    destruct (Hd c s Hit Hm (or_introl Hfr)) as (s1 & E & F). rewrite E.
    destruct (IH (S i) _ s1 Hat F) as (s2 & E2 & F2). exists s2. unfold bind. rewrite E2.
    split; [done|]. rewrite c_adv_adv in F2 by apply len_nonneg. by rewrite rlp_encs_cons, len_app.
Qed.

Lemma ListArray_reads (d : value -> SM R value) typ z its vs :
  Forall2 (reads (d z)) its vs ->
  reads (decodeListArray typ (replicate (length vs) z) d) (Lst its) vs.
Proof.
  intros Hd. split; [|apply eol_bind, eol_wrap, List_eol]. intros c s Hat Hm Hr.
  destruct (List_enter c its s Hat Hr) as (s1 & E1 & F1).
  unfold decodeListArray, bind, wrap, map_err. rewrite E1.
  destruct (array_decode typ d z its vs Hd 0 _ s1 (item_at_enter c its Hat Hm) F1) as (s2 & E2 & F2).
  rewrite E2. destruct (ListEnd_leave c its s2 Hat Hm F2) as (s3 & E3 & F3). rewrite E3. by exists s3.
Qed.

Lemma SimplePtr_reads (d : value -> SM R value) z it v :
  reads (d z) it v -> reads (decodeSimplePtr z d (VPtr None)) it (VPtr (Some v)).
Proof. intros Hd. simpl. by apply (reads_ret _ _ _ (fun v => VPtr (Some v))). Qed.

Lemma NilPtr_reads_some (d : value -> SM R value) e nk z it v :
  payload it <> [] -> reads (d z) it v ->
  reads (decodeNilPtr e nk z d (VPtr None)) it (VPtr (Some v)).
Proof.
  intros Hp Hd. split; [|apply eol_bind, eol_wrap, Kind_eol]. intros c s Hat Hm Hr.
  destruct (Kind_ready _ _ _ Hat Hr) as (s1 & E & Hpk).
  unfold decodeNilPtr, bind, wrap, map_err. rewrite E.
  assert ((negb (bool_decide (item_kind it = KByte)) && (psize it =? 0)) = false) as ->.
  { unfold psize. case_bool_decide; [done|]. simpl.
    assert (len (payload it) <> 0) by (destruct (payload it); [done|rewrite len_cons; pose proof (len_nonneg l); lia]).
    destruct (item_kind it); [done|by apply Z.eqb_neq..]. }
  apply (proj1 (SimplePtr_reads d z it v Hd)); [done|done|by right].
Qed.

Lemma NilPtr_reads_nil (d : value -> SM R value) e nk z v :
  nk <> KByte -> reads (decodeNilPtr e nk z d v) (nil_item nk) (VPtr None).
Proof.
  intros Hn. split; [|apply eol_bind, eol_wrap, Kind_eol]. intros c s Hat Hm Hr.
  destruct (Kind_ready _ _ _ Hat Hr) as (s1 & E & Hpk).
  unfold decodeNilPtr, bind, wrap, map_err. rewrite E.
  assert (Ek : item_kind (nil_item nk) = nk) by (unfold nil_item; by destruct nk).
  assert (Ep : psize (nil_item nk) = 0) by (unfold nil_item; by destruct nk).
  rewrite Ek, Ep. rewrite bool_decide_eq_false_2 by done. simpl. rewrite bool_decide_eq_true_2 by done.
  eexists. split; [done|]. destruct Hpk as (Hu & _ & Ec & _). split; [done|]. split; [done|].
  destruct (item_at_peek _ _ Hat) as (_ & _ & _ & Ea). rewrite Ep, c_adv_0 in Ea.
  rewrite <- Ea. exact Ec.
Qed.

(** ** Interfaces *)

(** The value [decodeInterface] makes of an item. *)
Fixpoint generic (it : item) : value :=
  match it with
  | Str bs => iface_bytes bs
  | Lst its => iface_list (map generic its)
  end.

Lemma Interface_eol fuel typ : reports_eol (decodeInterface (S fuel) typ 0).
Proof. simpl. apply (eol_bind Stream_Kind), Kind_eol. Qed.

Lemma Interface_eol' fuel typ : (0 < fuel)%nat -> reports_eol (decodeInterface fuel typ 0).
Proof. destruct fuel; [lia|]. intros _. apply Interface_eol. Qed.

Lemma generic_elems its fuel :
  Forall (fun it => forall fuel typ, (length (rlp_enc it) < fuel)%nat ->
    reads (decodeInterface fuel typ 0) it (generic it)) its ->
  (length (rlp_encs its) < fuel)%nat ->
  Forall2 (reads (decodeInterface fuel (TInterface 0) 0)) its (map generic its).
Proof.
  induction 1 as [|it its Hit _ IH]; intros Hfu; [constructor|].
  rewrite rlp_encs_cons, length_app in Hfu. simpl. constructor; [apply Hit; lia|apply IH; lia].
Qed.

Lemma decodeInterface_S fuel typ s :
  decodeInterface (S fuel) typ 0 s =
  (let* (k, _) := Stream_Kind in
   if decide (k = KList) then
     let* vs := decodeListSlice fuel ifsliceType (VIface None) []
                  (fun _ => decodeInterface fuel (TInterface 0) 0) in
     ret (iface_list vs)
   else
     let* b := Stream_Bytes in ret (iface_bytes b)) s.
Proof. done. Qed.

Lemma Interface_reads it : forall fuel typ,
  (length (rlp_enc it) < fuel)%nat -> reads (decodeInterface fuel typ 0) it (generic it).
Proof.
  induction it as [bs|its IH] using item_tree_ind; intros [|fuel] typ Hfu; try lia;
    (split; [|apply Interface_eol]); intros c s Hat Hm Hr; rewrite decodeInterface_S;
    destruct (Kind_ready _ _ _ Hat Hr) as (s1 & E & Hpk); rewrite (bind_ok _ _ _ _ _ E).
  - assert (item_kind (Str bs) <> KList) by (simpl; by destruct (self_byte bs)).
    destruct (decide (item_kind (Str bs) = KList)); [done|].
    destruct (proj1 (Bytes_reads bs) c s1 Hat Hm (or_intror Hpk)) as (s2 & E2 & F).
    rewrite (bind_ok _ _ _ _ _ E2). by exists s2.
  - destruct (decide (item_kind (Lst its) = KList)); [|done].
    assert (Hn : (length its < fuel)%nat /\ (length (rlp_encs its) < fuel)%nat).
    { pose proof (rlp_encs_count its). simpl rlp_enc in Hfu. fold (rlp_encs its) in Hfu.
      rewrite length_app in Hfu. pose proof (enc_head_len_pos 0xC0 0xF7 (len (rlp_encs its))).
      unfold list_head in Hfu. unfold len in *. lia. }
    destruct Hn as [Hn1 Hn2].
    destruct (proj1 (ListSlice_reads (fun _ => decodeInterface fuel (TInterface 0) 0) ifsliceType
      (VIface None) its (map generic its) fuel
      (generic_elems its fuel IH Hn2) (Interface_eol' fuel (TInterface 0) ltac:(lia)) Hn1) c s1 Hat Hm
      (or_intror Hpk)) as (s2 & E2 & F).
    rewrite (bind_ok _ _ _ _ _ E2). by exists s2.
Qed.
End Specs.

(** ** Representable values *)

(** What the methods of user types promise each other: [user_item m u v it]
    says that the value [v] of the type with the methods [m] and the literal [u]
    is represented by [it].  On a zero receiver DecodeRLP reads what EncodeRLP writes, and passes on the end of the enclosing
    list. *)
Class UserCodec {R} `{ByteReader R} (EncodeRLP : nat -> value -> WM)
  (DecodeRLP : nat -> value -> SM R value) (user_item : nat -> rtype -> value -> item -> Prop) : Prop := {
  user_writes : forall m u v it, user_item m u v it -> writes (EncodeRLP m v) [it];
  user_decodes : forall m u v it, user_item m u v it -> decodes (DecodeRLP m (zero u)) it v;
  user_eol : forall m u, reports_eol (DecodeRLP m (zero u));
  user_bytes : forall m u v it, user_item m u v it -> item_bytes_ok it
}.

(** Both halves of the codec accept the type. *)
Definition compiles (t : rtype) : Prop :=
  (exists p, makeWriter t no_tags = inr p) /\ (exists d, makeDecoder t no_tags = inr d).

(** Types whose decoders look at the input first: all but interfaces with
    methods. *)
Fixpoint eol_type (t : rtype) : Prop :=
  match t with
  | TInterface n => n = 0%nat
  | TPtr e => eol_type e
  | TNamed m u => negb (is_ptr u) && dec_by_ptr m = true \/ eol_type u
  | _ => True
  end.

Definition elem_ok (e : rtype) : Prop := compiles e /\ eol_type e.

Section Repr.
Variable user_item : nat -> rtype -> value -> item -> Prop.

(** The fields of a struct: unexported and ignored ones hold their zero value,
    the items of the others follow each other. *)
Section Fields.
Context (rp : rtype -> tags -> value -> list item -> Prop) (typ : rtype) (lastPublic : nat).

Fixpoint repr_fields (i : nat) (fs : list sfield) (vs : list value) (itl : list item) : Prop :=
  match fs, vs with
  | [], [] => itl = []
  | f :: fs', v :: vs' =>
      if exported f then
        match parseStructTag typ f i lastPublic with
        | inl _ => False
        | inr ts =>
            if ignored ts then v = zero (ftyp f) /\ repr_fields (S i) fs' vs' itl
            else exists a b, itl = a ++ b /\
              match f with SField _ _ _ t => rp t ts v a end /\ repr_fields (S i) fs' vs' b
        end
      else v = zero (ftyp f) /\ repr_fields (S i) fs' vs' itl
  | _, _ => False
  end.
End Fields.

(** The values of a type that survive a round trip, with the items that
    represent them.  What is left out: nil pointers outside fields tagged nil,
    pointers to empty values inside them, negative integers, element types whose
    methods make the encoder and the decoder disagree about being bytes, the
    one-byte array holding zero, and what the decoder panics on: pointers to
    big.Int of a defined type, and arrays of bytes of a defined type, unless
    they are one byte below 128. *)
Fixpoint repr (t : rtype) (ts : tags) (addr : bool) (v : value) (its : list item) : Prop :=
  match t, v with
  | TRawValue, VBytes b => exists it, item_bytes_ok it /\ b = rlp_enc it /\ its = [it]
  | TBigIntPtr, VBig (Some i) | TBigInt, VInt i => 0 <= i /\ its = [Str (big_bytes i)]
  | TPtr e, VPtr None =>
      compiles e /\ nilOK ts = true /\ nilKind ts <> KByte /\ its = [nil_item (nilKind ts)]
  | TPtr e, VPtr (Some v') =>
      repr e no_tags true v' its /\ (nilOK ts = true -> Forall (fun it => payload it <> []) its)
  | TUint bits, VUint n =>
      (bits = 8 \/ bits = 16 \/ bits = 32 \/ bits = 64) /\ 0 <= n < 2 ^ bits /\
      its = [Str (big_bytes n)]
  | TBool, VBool b => its = [Str (if b then [1] else [])]
  | TString, VBytes s => bytes_ok s /\ its = [Str s]
  | TSlice e, VBytes b => isByte e = true /\ dec_isByte e = true /\ bytes_ok b /\ its = [Str b]
  | TSlice e, VSeq vs =>
      isByte e = false /\ dec_isByte e = false /\ elem_ok e /\
      exists itl, Forall2 (fun v it => repr e no_tags true v [it]) vs itl /\
        its = if tail ts then itl else [Lst itl]
  | TArray n e, VBytes b =>
      isByte e = true /\ dec_isByte e = true /\ bytes_ok b /\ length b = n /\ b <> [0] /\
      is_byte e || self_byte b = true /\ its = [Str b]
  | TArray n e, VSeq vs =>
      isByte e = false /\ dec_isByte e = false /\ elem_ok e /\ tail ts = false /\ length vs = n /\
      exists itl, Forall2 (fun v it => repr e no_tags addr v [it]) vs itl /\ its = [Lst itl]
  | TStruct fs, VStruct vs =>
      exists itl, its = [Lst itl] /\
        repr_fields (fun t ts v its => repr t ts addr v its) t (lastPublicField fs) 0 fs vs itl
  | TInterface O, _ => exists it, item_bytes_ok it /\ v = generic it /\ its = [it]
  | TNamed m u, _ => type_literal u = true /\
      if negb (is_ptr u) && (enc_by_value m || enc_by_ptr m || dec_by_ptr m) then
        (enc_by_value m || (enc_by_ptr m && addr)) = true /\ dec_by_ptr m = true /\
        exists it, user_item (m_id m) u v it /\ its = [it]
      else is_bigint_ptr u = false /\ repr u ts addr v its
  | _, _ => False
  end.
End Repr.

(** ** Struct tags *)

Lemma parse_tag_inr typ typ' f i lp ts t ts' :
  parse_tag typ f i lp ts t = inr ts' ->
  parse_tag typ' f i lp ts t = inr ts' /\ (tail ts' = true -> tail ts = true \/ i = lp).
Proof.
  unfold parse_tag. intros E.
  repeat match type of E with
  | (if ?b then _ else _) = _ => destruct b eqn:?
  end; try done; injection E as <-; simpl; (split; [done|]); try tauto.
  intros _. right. by apply Nat.eqb_eq, negb_false_iff.
Qed.

Lemma parse_tags_inr typ typ' f i lp l : forall ts ts',
  parse_tags typ f i lp ts l = inr ts' ->
  parse_tags typ' f i lp ts l = inr ts' /\ (tail ts' = true -> tail ts = true \/ i = lp).
Proof.
  induction l as [|t l IH]; intros ts ts' E; simpl in *.
  { injection E as <-. tauto. }
  destruct (parse_tag typ f i lp ts t) as [|ts1] eqn:E1; [done|].
  destruct (parse_tag_inr typ typ' f i lp ts t ts1 E1) as [-> T1].
  destruct (IH ts1 ts' E) as [-> T2]. split; [done|]. tauto.
Qed.

(** Success does not depend on the struct type, and only the last exported
    field can be a tail. *)
Lemma parseStructTag_inr typ typ' f i lp ts :
  parseStructTag typ f i lp = inr ts ->
  parseStructTag typ' f i lp = inr ts /\ (tail ts = true -> i = lp).
Proof.
  intros E. destruct (parse_tags_inr typ typ' f i lp _ _ _ E) as [E' T].
  split; [done|]. intros Ht. by destruct (T Ht).
Qed.

Lemma last_public_from_spec fs : forall i last,
  (last_public_from i last fs = last \/ (i <= last_public_from i last fs)%nat) /\
  forall j f, fs !! j = Some f -> exported f = true -> (i + j <= last_public_from i last fs)%nat.
Proof.
  induction fs as [|f fs IH]; intros i last; simpl; [by split; [left|]|].
  destruct (IH (S i) (if exported f then i else last)) as [IH1 IH2]. split.
  - destruct (exported f), IH1 as [->|]; auto; right; lia.
  - intros [|j] g; simpl.
    + intros [= ->] Hg. rewrite Hg in *. destruct IH1 as [->|]; lia.
    + intros Hj Hg. specialize (IH2 j g Hj Hg). lia.
Qed.

Lemma lastPublicField_bound fs j f :
  fs !! j = Some f -> exported f = true -> (j <= lastPublicField fs)%nat.
Proof. apply (proj2 (last_public_from_spec fs 0 0)). Qed.

(** The part of a struct behind its last exported field. *)
Lemma structFields_unexported {P} typ lp (mk : rtype -> tags -> rlp_error + P) fs : forall i,
  (forall j f, fs !! j = Some f -> exported f = false) ->
  structFields typ lp mk i fs = inr [].
Proof.
  induction fs as [|f fs IH]; intros i Hf; simpl; [done|].
  rewrite (Hf 0%nat f eq_refl). apply IH. intros j g. apply (Hf (S j) g).
Qed.

Lemma repr_fields_unexported rp typ lp fs : forall i vs itl,
  (forall j f, fs !! j = Some f -> exported f = false) ->
  repr_fields rp typ lp i fs vs itl -> itl = [] /\ vs = map (fun f => zero (ftyp f)) fs.
Proof.
  induction fs as [|f fs IH]; intros i [|v vs] itl Hf Hr; simpl in *; try done.
  rewrite (Hf 0%nat f eq_refl) in Hr. destruct Hr as [-> Hr].
  destruct (IH (S i) vs itl) as [-> ->]; [intros j g; apply (Hf (S j) g)|done|done].
Qed.

Lemma check_fields_inr {P} typ (l : list (nat * P)) :
  check_fields typ (map (fun ip => (ip.1, inr ip.2)) l) = inr l.
Proof. induction l as [|[i p] l IH]; simpl; [done|by rewrite IH]. Qed.

(** ** The codec theorem *)

Section Codec.
Context {R : Type} `{ReaderLaws R}.
Context (EncodeRLP : nat -> value -> WM) (DecodeRLP : nat -> value -> SM R value)
  (user_item : nat -> rtype -> value -> item -> Prop) `{!UserCodec EncodeRLP DecodeRLP user_item}.

Definition user_items (m : nat) (v : value) (its : list item) : Prop :=
  exists u it, user_item m u v it /\ its = [it].

#[local] Instance user_encoder_laws : EncoderLaws EncodeRLP user_items.
Proof. split. intros m v its w (u & it & Hu & ->) Hw Hl. by apply user_writes with (m := m) (u := u). Qed.

Notation dec := (decode_val DecodeRLP).

(** [d] reads all the items left in the enclosing list. *)
Definition reads_tail (d : SM R value) (its : list item) (v : value) : Prop := forall c s t st,
  c_stack c = t :: st -> items_at c its -> pos t + len (rlp_encs its) = lsize t -> fresh c s ->
  exists s', d s = (Ok v, s') /\ fresh (c_adv (len (rlp_encs its)) c) s'.

Definition single_item (d : dplan) (z : value) (its : list item) (v : value) : Prop :=
  exists it, its = [it] /\
    forall fuel, (length (rlp_enc it) < fuel)%nat -> reads (dec fuel d z) it v.

Definition tail_items (d : dplan) (z : value) (its : list item) (v : value) : Prop :=
  forall fuel, (length (rlp_encs its) < fuel)%nat -> reads_tail (dec fuel d z) its v.

Definition codec_ok (typ t : rtype) (ts : tags) (addr : bool) (v : value) (its : list item) : Prop :=
  exists p d, writer_of typ t ts = inr p /\ decoder_of typ t ts = inr d /\
    denotes user_items v p addr its /\ Forall item_bytes_ok its /\
    (single_item d (zero t) its v \/ (tail ts = true /\ tail_items d (zero t) its v)).

Definition codec_type (t : rtype) : Prop := forall typ ts addr v its,
  repr user_item t ts addr v its -> (is_bigint_ptr t = true -> typ = t) -> codec_ok typ t ts addr v its.

Lemma concat_singletons (itl : list item) : concat (map (fun it => [it]) itl) = itl.
Proof. induction itl as [|it itl IH]; simpl; [done|by rewrite IH]. Qed.

Lemma elems_codec e addr p d vs itl :
  codec_type e -> makeWriter e no_tags = inr p -> makeDecoder e no_tags = inr d ->
  Forall2 (fun v it => repr user_item e no_tags addr v [it]) vs itl ->
  all_denote (map (fun x => denotes user_items x p addr) vs) (map (fun it => [it]) itl) /\
  Forall item_bytes_ok itl /\
  forall fuel, (length (rlp_encs itl) < fuel)%nat -> Forall2 (reads (dec fuel d (zero e))) itl vs.
Proof.
  intros He Hp Hd. induction 1 as [|v it vs itl Hv _ (IH1 & IH2 & IH3)].
  { split; [constructor|]. split; [constructor|]. intros. constructor. }
  destruct (He e no_tags addr v [it] Hv (fun _ => eq_refl)) as (p' & d' & Ep & Ed & Hden & Hb & [(it' & [= <-] & Hrd)|[? _]]); [|done].
  unfold makeWriter, makeDecoder in *. rewrite Hp in Ep. rewrite Hd in Ed. injection Ep as <-. injection Ed as <-.
  split; [by constructor|]. split; [by apply Forall_cons in Hb as [? _]; constructor|].
  intros fuel Hfu. rewrite rlp_encs_cons, length_app in Hfu.
  constructor; [apply Hrd; lia|apply IH3; lia].
Qed.

(** Decoders of element types report the end of the list. *)
Lemma eol_decoder t : forall typ ts d fuel,
  decoder_of typ t ts = inr d -> tail ts = false -> eol_type t -> (0 < fuel)%nat ->
  reports_eol (dec fuel d (zero t)).
Proof.
  induction t as [| | |e IH| | | |e IH|n e IH|fs IH|n|s|m u IH] using type_tree_ind;
    intros typ ts d fuel Hd Ht He Hf; simpl in Hd.
  1-3,5-7: injection Hd as <-; simpl; repeat (apply eol_bind || apply eol_wrap); apply Kind_eol.
  - unfold makePtrDecoder in Hd. destruct (decoder_of e e no_tags) as [err|p] eqn:E; [done|].
    injection Hd as <-. destruct (nilOK ts); simpl.
    + apply eol_bind, eol_wrap, Kind_eol.
    + by apply eol_bind, (IH e no_tags).
  - unfold makeListDecoder in Hd. rewrite Ht in Hd. destruct (dec_isByte e).
    + injection Hd as <-. simpl. apply eol_bind, eol_wrap, eol_bind, Kind_eol.
    + destruct (decoder_of e e no_tags); [done|]. injection Hd as <-. simpl.
      apply eol_bind, eol_bind, eol_wrap, List_eol.
  - unfold makeListDecoder in Hd. destruct (dec_isByte e).
    + injection Hd as <-. simpl. apply eol_bind, Kind_eol.
    + destruct (decoder_of e e no_tags); [done|]. injection Hd as <-. simpl.
      apply eol_bind, eol_bind, eol_wrap, List_eol.
  - unfold makeStructDecoder in Hd. destruct (structFields _ _ _ _ _) as [|l]; [done|].
    destruct (check_fields typ l); [done|]. injection Hd as <-. simpl.
    apply eol_bind, eol_bind, eol_wrap, List_eol.
  - injection Hd as <-. simpl in He. subst n. by apply Interface_eol'.
  - done.
  - destruct (negb (is_ptr u) && dec_by_ptr m) eqn:Em.
    + injection Hd as <-. apply user_eol with (m := m_id m).
    + simpl in He. rewrite Em in He. destruct He as [?|He]; [done|]. by eapply IH.
Qed.

(** The decoder of the fields from index [i] on, run on a target whose fields
    before [i] are decoded. *)
Definition fields_read (typ : rtype) (fs : list sfield) (dl : list (nat * dplan))
  (i : nat) (vs : list value) (itl : list item) : Prop :=
  forall fuel (nm : nat -> string) dn c s t st, (length (rlp_encs itl) < fuel)%nat ->
    length dn = i -> c_stack c = t :: st -> items_at c itl ->
    pos t + len (rlp_encs itl) = lsize t -> fresh c s ->
    exists s', decodeFields typ (map (fun ip => (ip.1, (nm ip.1, dec fuel ip.2))) dl)
        (dn ++ map (fun f => zero (ftyp f)) fs) s = (Ok (dn ++ vs), s') /\
      fresh (c_adv (len (rlp_encs itl)) c) s'.

Definition fields_denote (addr : bool) (wl : list (nat * wplan)) (i : nat) (vs : list value)
  (itss : list (list item)) : Prop :=
  forall dn, length dn = i ->
    all_denote (map (fun ip : nat * wplan =>
      match map (denotes user_items) (dn ++ vs) !! ip.1 with
      | Some d => d ip.2 addr | None => fun _ => False end) wl) itss.

Lemma fields_read_skip typ f fs dl i vs itl :
  fields_read typ fs dl (S i) vs itl -> fields_read typ (f :: fs) dl i (zero (ftyp f) :: vs) itl.
Proof.
  intros Hr fuel nm dn c s t st Hfu Hdn Est Hat He Hf.
  destruct (Hr fuel nm (dn ++ [zero (ftyp f)]) c s t st) as (s' & E & F); try done.
  { rewrite length_app. simpl. lia. }
  exists s'. rewrite <- !app_assoc in E. by simpl in *.
Qed.

Lemma fields_denote_skip addr wl i v vs itss :
  fields_denote addr wl (S i) vs itss -> fields_denote addr wl i (v :: vs) itss.
Proof.
  intros Hd dn Hdn. specialize (Hd (dn ++ [v])). rewrite <- app_assoc in Hd. apply Hd.
  rewrite length_app. simpl. lia.
Qed.

Lemma fields_denote_cons addr p wl i v vs its itss :
  denotes user_items v p addr its -> fields_denote addr wl (S i) vs itss ->
  fields_denote addr ((i, p) :: wl) i (v :: vs) (its :: itss).
Proof.
  intros Hv Hd dn Hdn. simpl. constructor; [|by apply (fields_denote_skip _ _ _ _ _ _ Hd)].
  simpl. rewrite (lookup_map (denotes user_items)), lookup_app_r by lia.
  by replace (i - length dn)%nat with 0%nat by lia.
Qed.

Lemma decodeFields_step typ i nm (d : value -> SM R value) dl dn z zs v s s' :
  length dn = i -> d z s = (Ok v, s') ->
  decodeFields typ ((i, (nm, d)) :: dl) (dn ++ z :: zs) s =
  decodeFields typ dl ((dn ++ [v]) ++ zs) s'.
Proof.
  intros Hi E. simpl. rewrite lookup_app_r by lia. replace (i - length dn)%nat with 0%nat by lia.
  simpl. rewrite E. subst i. by rewrite <- (Nat.add_0_r (length dn)), insert_app_r, <- app_assoc.
Qed.

Lemma fields_read_single typ f fs d dl i v vs it itl :
  (forall fuel, (length (rlp_enc it) < fuel)%nat -> reads (dec fuel d (zero (ftyp f))) it v) ->
  fields_read typ fs dl (S i) vs itl ->
  fields_read typ (f :: fs) ((i, d) :: dl) i (v :: vs) (it :: itl).
Proof.
  intros Hd Hr fuel nm dn c s t st Hfu Hdn Est Hat He Hf.
  rewrite rlp_encs_cons in Hfu, He |- *. rewrite length_app in Hfu. rewrite len_app in He |- *.
  apply items_at_cons in Hat as (Hit & Hm & Hat).
  destruct (proj1 (Hd fuel ltac:(lia)) c s Hit Hm (or_introl Hf)) as (s1 & E1 & F1).
  simpl map. rewrite (decodeFields_step typ i _ _ _ _ _ _ v s s1 Hdn E1).
  destruct (Hr fuel nm (dn ++ [v]) (c_adv (len (rlp_enc it)) c) s1
    (Listpos (pos t + len (rlp_enc it)) (lsize t)) st) as (s2 & E2 & F2); try done.
  - lia.
  - rewrite length_app. simpl. lia.
  - simpl. by rewrite Est.
  - simpl. lia.
  - exists s2. rewrite E2, <- app_assoc. split; [done|].
    rewrite c_adv_adv in F2 by apply len_nonneg. done.
Qed.

Lemma fields_read_tail typ f fs d i v its :
  tail_items d (zero (ftyp f)) its v ->
  fields_read typ (f :: fs) [(i, d)] i (v :: map (fun f => zero (ftyp f)) fs) its.
Proof.
  intros Hd fuel nm dn c s t st Hfu Hdn Est Hat He Hf.
  destruct (Hd fuel Hfu c s t st Est Hat He Hf) as (s1 & E1 & F1).
  simpl map. rewrite (decodeFields_step typ i _ _ _ _ _ _ v s s1 Hdn E1).
  exists s1. simpl. by rewrite <- app_assoc.
Qed.

Lemma fields_codec typ0 typ lp addr fs :
  Forall (fun f => codec_type (ftyp f)) fs -> forall i vs itl,
  repr_fields (fun t ts v its => repr user_item t ts addr v its) typ0 lp i fs vs itl ->
  (forall j f, fs !! j = Some f -> exported f = true -> (i + j <= lp)%nat) ->
  exists wl dl itss,
    structFields typ lp (fun t ts => writer_of t t ts) i fs =
      inr (map (fun ip => (ip.1, inr ip.2)) wl) /\
    structFields typ lp (fun t ts => decoder_of t t ts) i fs =
      inr (map (fun ip => (ip.1, inr ip.2)) dl) /\
    itl = concat itss /\ Forall item_bytes_ok itl /\
    fields_denote addr wl i vs itss /\ fields_read typ fs dl i vs itl.
Proof.
  induction 1 as [|f fs Hf _ IH]; intros i [|v vs] itl Hr Hlp; simpl in Hr; try done.
  { subst. exists [], [], []. split_and!; try done; [intros dn _; constructor|].
    intros fuel nm dn c s t st _ _ _ _ _ Hfr. exists s. split; [done|]. by rewrite c_adv_0. }
  assert (Hlp' : forall j g, fs !! j = Some g -> exported g = true -> (S i + j <= lp)%nat).
  { intros j g Hj Hg. specialize (Hlp (S j) g Hj Hg). lia. }
  simpl structFields. destruct (exported f) eqn:Ex.
  2:{ destruct Hr as [-> Hr]. destruct (IH (S i) vs itl Hr Hlp') as (wl & dl & itss & Ew & Ed & El & Hb & Hd & Hrd).
      exists wl, dl, itss. split_and!; try done; [by apply fields_denote_skip|by apply fields_read_skip]. }
  destruct (parseStructTag typ0 f i lp) as [|ts] eqn:Ep; [done|].
  destruct (parseStructTag_inr typ0 typ f i lp ts Ep) as [-> Htl].
  destruct (ignored ts).
  { destruct Hr as [-> Hr]. destruct (IH (S i) vs itl Hr Hlp') as (wl & dl & itss & Ew & Ed & El & Hb & Hd & Hrd).
    rewrite Ew, Ed. exists wl, dl, itss.
    split_and!; try done; [by apply fields_denote_skip|by apply fields_read_skip]. }
  destruct Hr as (a & b & -> & Hv & Hr).
  destruct (IH (S i) vs b Hr Hlp') as (wl & dl & itss & Ew & Ed & El & Hb & Hd & Hrd).
  destruct f as [fn ex tg ft]. simpl in *.
  destruct (Hf ft ts addr v a Hv (fun _ => eq_refl)) as (p & d & Ep' & Ed' & Hden & Hba & Hcase).
  rewrite Ew, Ed, Ep', Ed'. exists ((i, p) :: wl), ((i, d) :: dl), (a :: itss).
  split; [done|]. split; [done|]. split; [simpl; by rewrite El|]. split; [by apply Forall_app|].
  split; [by apply fields_denote_cons|]. destruct Hcase as [(it & -> & Hs)|[Ht Hs]].
  - by apply (fields_read_single _ (SField fn ex tg ft)).
  - specialize (Htl Ht). subst lp.
    assert (Hun : forall j g, fs !! j = Some g -> exported g = false).
    { intros j g Hj. destruct (exported g) eqn:Eg; [|done]. specialize (Hlp' j g Hj Eg). lia. }
    destruct (repr_fields_unexported _ _ _ _ _ _ _ Hun Hr) as [-> ->].
    rewrite structFields_unexported in Ed by done. destruct dl as [|? dl]; [|done].
    rewrite app_nil_r. by apply (fields_read_tail _ (SField fn ex tg ft)).
Qed.

Lemma zero_struct fs : elems_of (zero (TStruct fs)) = map (fun f => zero (ftyp f)) fs.
Proof. simpl. apply map_ext. by intros []. Qed.

Lemma struct_codec fs : Forall (fun f => codec_type (ftyp f)) fs -> codec_type (TStruct fs).
Proof.
  intros Hfs typ ts addr v its Hr _. simpl in Hr. destruct v as [| | | | | | |vs|]; try done.
  destruct Hr as (itl & -> & Hr).
  destruct (fields_codec (TStruct fs) typ (lastPublicField fs) addr fs Hfs 0 vs itl Hr) as
    (wl & dl & itss & Ew & Ed & El & Hb & Hd & Hrd).
  { intros j f Hj Hx. by apply (lastPublicField_bound _ _ _ Hj). }
  exists (W_struct wl).
  exists (D_struct typ (map (fun ip : nat * dplan =>
    (ip.1, (match fs !! ip.1 with Some f => fname f | None => EmptyString end, ip.2))) dl)).
  simpl. rewrite Ew, Ed. unfold makeStructWriter, makeStructDecoder. rewrite !check_fields_inr.
  split; [done|]. split; [done|]. split; [|split].
  - exists itss. split; [by apply (Hd [])|by rewrite El].
  - constructor; [|done]. by apply items_ok_all.
  - left. exists (Lst itl). split; [done|]. intros fuel Hfu.
    apply (reads_ret _ _ vs VStruct). rewrite map_map.
    pose proof (zero_struct fs) as Ez. simpl in Ez |- *. rewrite Ez.
    split; [|apply eol_bind, eol_wrap, List_eol]. intros c s Hat Hm Hrdy.
    destruct (List_enter c itl s Hat Hrdy) as (s1 & E1 & F1).
    unfold decodeStruct. rewrite (bind_ok _ _ _ _ s1 (wrap_ok _ _ _ _ _ E1)).
    destruct (Hrd fuel (fun i => match fs !! i with Some f => fname f | None => EmptyString end)
      [] (c_enter (len (rlp_encs itl)) c) s1 _ _ ltac:(eapply rlp_encs_lt_Lst; exact Hfu) eq_refl eq_refl
      (item_at_enter c itl Hat Hm)) as (s2 & E2 & F2); [simpl; lia|done|].
    simpl app in E2. rewrite (bind_ok _ _ _ _ s2 E2).
    destruct (ListEnd_leave c itl s2 Hat Hm F2) as (s3 & E3 & F3).
    rewrite (bind_ok _ _ _ _ s3 (wrap_ok _ _ _ _ _ E3)). by exists s3.
Qed.

Lemma generic_denotes it addr : denotes user_items (generic it) W_writeInterface addr [it].
Proof.
  revert addr. induction it as [bs|its IH] using item_tree_ind; intros addr; simpl; [done|].
  exists (map (fun it => [it]) its). split; [|by rewrite concat_singletons].
  unfold all_denote. rewrite map_map.
  induction IH as [|it its Hit _ IH]; simpl; constructor; auto.
Qed.

Lemma seq_value_VSeq e vs : isByte e = false -> seq_value e vs = VSeq vs.
Proof. intros E. unfold seq_value. by rewrite E. Qed.

Lemma bytes_value_VBytes e bs : isByte e = true -> bytes_value e bs = VBytes bs.
Proof. intros E. unfold bytes_value. by rewrite E. Qed.

Lemma slice_codec e : codec_type e -> codec_type (TSlice e).
Proof.
  intros He typ ts addr v its Hr _. simpl in Hr. destruct v as [b| | | | | |vs| |]; try done.
  - destruct Hr as (B1 & B2 & Hb & ->). exists W_writeBytes, (D_decodeByteSlice typ e).
    simpl. rewrite B1. unfold makeListDecoder. rewrite B2. split_and!; try done; [by constructor|].
    left. exists (Str b). split; [done|]. intros fuel _. rewrite <- (bytes_value_VBytes e b B1).
    by apply (reads_ret _ _ b (bytes_value e)), reads_wrap, Bytes_reads.
  - destruct Hr as (B1 & B2 & (((p & Hp) & (d & Hd)) & Heol) & itl & Hvs & ->).
    destruct (elems_codec e true p d vs itl He Hp Hd Hvs) as (Hden & Hb & Hrd).
    exists (W_slice false (tail ts) p), (if tail ts then D_sliceElems e d else D_listSlice typ e d).
    simpl. rewrite B1. unfold makeListDecoder, makeWriter, makeDecoder in *. rewrite B2, Hp, Hd.
    split; [done|]. split; [done|]. split; [|split].
    + exists (map (fun it => [it]) itl). split; [done|]. by rewrite concat_singletons.
    + destruct (tail ts); [done|]. constructor; [by apply items_ok_all|done].
    + pose proof (eol_decoder e e no_tags d) as Eol. destruct (tail ts) eqn:Et; [right|left].
      * split; [done|]. intros fuel Hfu c s t st Est Hat Hend Hf.
        destruct (elems_decode (dec fuel d) (zero e) itl vs (Hrd fuel Hfu) t st fuel [] c s) as (s' & E & F);
          try done; [pose proof (rlp_encs_count itl); unfold len in *; lia|apply Eol; [done..|lia]|].
        exists s'. split; [|done]. simpl. rewrite (bind_ok _ _ _ _ s' E). unfold ret.
        by rewrite seq_value_VSeq.
      * exists (Lst itl). split; [done|]. intros fuel Hfu. apply rlp_encs_lt_Lst in Hfu.
        rewrite <- (seq_value_VSeq e vs B1). apply (reads_ret _ _ vs (seq_value e)).
        apply ListSlice_reads; [by apply Hrd|apply Eol; [done..|lia]|].
        pose proof (rlp_encs_count itl). unfold len in *. lia.
Qed.

Lemma array_codec n e : codec_type e -> codec_type (TArray n e).
Proof.
  intros He typ ts addr v its Hr _. simpl in Hr. destruct v as [b| | | | | |vs| |]; try done.
  - destruct Hr as (B1 & B2 & Hb & <- & Hnz & Hby & ->).
    exists W_writeByteArray, (D_decodeByteArray typ (length b) e).
    simpl. rewrite B1. unfold makeListDecoder. rewrite B2. split_and!; try done; [by constructor|].
    left. exists (Str b). split; [done|]. intros fuel _. rewrite <- (bytes_value_VBytes e b B1).
    by apply ByteArray_reads.
  - destruct Hr as (B1 & B2 & (((p & Hp) & (d & Hd)) & Heol) & Et & <- & itl & Hvs & ->).
    destruct (elems_codec e addr p d vs itl He Hp Hd Hvs) as (Hden & Hb & Hrd).
    exists (W_slice true (tail ts) p), (D_listArray typ (length vs) e d).
    simpl. rewrite B1. unfold makeListDecoder, makeWriter, makeDecoder in *. rewrite B2, Hp, Hd.
    split; [done|]. split; [done|]. split; [|split].
    + exists (map (fun it => [it]) itl). split; [done|]. by rewrite concat_singletons, Et.
    + constructor; [by apply items_ok_all|done].
    + left. exists (Lst itl). split; [done|]. intros fuel Hfu. apply rlp_encs_lt_Lst in Hfu.
      rewrite <- (seq_value_VSeq e vs B1). apply (reads_ret _ _ vs (seq_value e)).
      by apply ListArray_reads, Hrd.
Qed.

Lemma ptr_codec e : codec_type e -> codec_type (TPtr e).
Proof.
  intros He typ ts addr v its Hr _. simpl in Hr. destruct v as [| | | | |[v|]| | |]; try done.
  - destruct Hr as (Hv & Hne).
    destruct (He e no_tags true v its Hv (fun _ => eq_refl)) as (p & d & Hp & Hd & Hden & Hb & [(it & -> & Hrd)|[? _]]); [|done].
    exists (W_ptr (if nilOK ts then nilKind ts else defaultNilKind e) p).
    exists (if nilOK ts then D_nilPtr e (nilKind ts) d else D_simplePtr e d).
    simpl. rewrite Hp, Hd. split_and!; try done. left. exists it. split; [done|]. intros fuel Hfu.
    destruct (nilOK ts).
    + specialize (Hne eq_refl). apply Forall_cons in Hne as [? _]. by apply NilPtr_reads_some, Hrd.
    + by apply SimplePtr_reads, Hrd.
  - destruct Hr as (((p & Hp) & (d & Hd)) & Hnil & Hk & ->).
    exists (W_ptr (nilKind ts) p), (D_nilPtr e (nilKind ts) d).
    simpl. unfold makeWriter, makeDecoder in *. rewrite Hp, Hd. unfold makePtrWriter, makePtrDecoder.
    rewrite Hnil. split_and!; try done.
    + constructor; [|done]. unfold nil_item. by destruct (decide (nilKind ts = KString)); [constructor|].
    + left. eexists. split; [done|]. intros fuel _. by apply NilPtr_reads_nil.
Qed.

(** Every representable value of every type is written as its items and read
    back from them. *)
Lemma codec t : codec_type t.
Proof.
  induction t as [| | |e IH| | | |e IH|n e IH|fs IH|n|nm|m u IH] using type_tree_ind;
    [| | |by apply ptr_codec| | | |by apply slice_codec|by apply array_codec|by apply struct_codec|..];
    intros typ ts addr v its Hr Ht; simpl in Hr.
  - destruct v as [b| | | | | | | |]; try done. destruct Hr as (it & Hb & -> & ->).
    exists W_writeRawValue, D_decodeRawValue. simpl. split_and!; try done.
    + by rewrite rlp_encs_single.
    + by constructor.
    + left. exists it. split; [done|]. intros fuel _. by apply (reads_ret _ _ _ VBytes), Raw_reads.
  - rewrite (Ht eq_refl). destruct v as [| | |[i|]| | | | |]; try done. destruct Hr as (Hi & ->).
    exists (W_writeBigIntPtr TBigIntPtr), (D_decodeBigInt TBigIntPtr). simpl. split_and!; try done.
    + constructor; [apply big_bytes_ok|done].
    + left. eexists. split; [done|]. intros fuel _.
      by apply (reads_ret _ _ i (fun i => VBig (Some i))), BigInt_reads.
  - destruct v as [| | | |i| | | |]; try done. destruct Hr as (Hi & ->).
    exists W_writeBigIntNoPtr, D_decodeBigIntNoPtr. simpl. split_and!; try done.
    + constructor; [apply big_bytes_ok|done].
    + left. eexists. split; [done|]. intros fuel _. by apply (reads_ret _ _ i VInt), BigInt_reads.
  - destruct v as [|n| | | | | | |]; try done. destruct Hr as (Hbits & Hn & ->).
    exists W_writeUint, (D_decodeUint typ b). simpl. split; [done|]. split; [done|]. split; [|split].
    + split; [|done]. unfold u64_ok. assert (2 ^ b <= 2 ^ 64) by (decompose [or] Hbits; subst; lia). lia.
    + constructor; [apply big_bytes_ok|done].
    + left. eexists. split; [done|]. intros fuel _. by apply (reads_ret _ _ n VUint), reads_wrap, uint_reads.
  - destruct v as [| |b| | | | | |]; try done. subst.
    exists W_writeBool, (D_decodeBool typ). simpl. split_and!; try done.
    + constructor; [|done]. destruct b; simpl; [constructor; [done|constructor]|constructor].
    + left. eexists. split; [done|]. intros fuel _. by apply (reads_ret _ _ b VBool), reads_wrap, Bool_reads.
  - destruct v as [s| | | | | | | |]; try done. destruct Hr as (Hb & ->).
    exists W_writeString, (D_decodeString typ). simpl. split_and!; try done; [by constructor|].
    left. eexists. split; [done|]. intros fuel _. by apply (reads_ret _ _ s VBytes), reads_wrap, Bytes_reads.
  - destruct n; [|done]. destruct Hr as (it & Hb & -> & ->).
    exists W_writeInterface, (D_decodeInterface typ 0). split; [done|]. split; [done|].
    split; [apply generic_denotes|]. split; [by constructor|].
    left. exists it. split; [done|]. intros fuel Hfu. by apply Interface_reads.
  - done.
  - unfold codec_ok. simpl.
    destruct Hr as [_ Hr]. assert (Hu : is_bigint_ptr u = false -> is_bigint_ptr u = true -> typ = u) by congruence.
    destruct (negb (is_ptr u)); simpl in *; [|destruct Hr; apply IH; auto].
    destruct (enc_by_value m) eqn:Ev, (enc_by_ptr m) eqn:Ee, (dec_by_ptr m) eqn:Ed; simpl in *;
      try (by destruct Hr as (? & ? & _)); try (destruct Hr; by apply IH; auto).
    all: clear Hu; destruct Hr as (Ha & _ & it & Hu & ->).
    all: exists (makeEncoderWriter m (TNamed m u)), (D_decodeDecoder (m_id m)).
    all: unfold makeEncoderWriter; simpl; rewrite Ev; simpl.
    all: split; [done|]; split; [done|]; split; [destruct v; first [by exists u, it|split; [done|by exists u, it]]|].
    all: split; [constructor; [by eapply user_bytes|done]|].
    all: left; exists it; split; [done|]; intros fuel _; split;
      [by apply user_decodes with (m := m_id m)|apply user_eol with (m := m_id m)].
Qed.
End Codec.

(** ** Whole inputs *)

(** A stream from streamPool: new, or used before. *)
Definition pooled_ok {R} (s : stream R) : Prop := uintbuf s = [] \/ length (uintbuf s) = 8%nat.

Lemma Reset_bytes b pooled :
  pooled_ok pooled -> fresh (Cursor b [] (Some (len b))) (Reset b (len b) pooled).
Proof.
  intros Hp. unfold Reset. pose proof (len_nonneg b).
  assert ((if 0 <? len b then (len b, true)
    else match rd_auto b with Some n => (n, true) | None => (remaining pooled, false) end) =
    (len b, true)) as ->.
  { destruct (Z.ltb_spec 0 (len b)); [done|]. simpl. done. }
  split; [|by split]. simpl. case_decide as E; [done|]. by destruct Hp.
Qed.

Lemma whole_item it :
  item_bytes_ok it -> len (rlp_enc it) <= maxAlloc ->
  item_at (Cursor (rlp_enc it) [] (Some (len (rlp_enc it)))) it.
Proof.
  intros Hb Hm. pose proof (len_nonneg (rlp_enc it)). unfold maxAlloc in Hm.
  split; [|split; [|split]]; simpl.
  - split; [apply rlp_enc_bytes_ok; split; [done|]; lia|]. split; [done|]. simpl. unfold u64_ok. lia.
  - exists []. by rewrite app_nil_r.
  - split; [done|]. split; [done|]. unfold in_limit. simpl. lia.
  - lia.
Qed.

(** Decoding one whole value. *)
Lemma DecodeBytes_reads DecodeRLP pooled t d it v z :
  makeDecoder t no_tags = inr d -> pooled_ok pooled ->
  item_bytes_ok it -> len (rlp_enc it) <= maxAlloc ->
  reads (decode_val DecodeRLP (decode_fuel (rlp_enc it)) d z) it v ->
  DecodeBytes DecodeRLP pooled (rlp_enc it) (Some (TPtr t, VPtr (Some z))) = Ok v.
Proof.
  intros Hd Hp Hb Hm [Hr _]. unfold DecodeBytes, Stream_Decode. simpl. rewrite Hd.
  destruct (Hr _ _ (whole_item it Hb Hm) Hm (or_introl (Reset_bytes (rlp_enc it) pooled Hp)))
    as (s' & E & F).
  unfold map_err. rewrite E. destruct F as (_ & _ & F). unfold cur in F. injection F as F _ _.
  simpl in F. rewrite F, to_nat_len, drop_all. done.
Qed.

Section Whole.
Context (EncodeRLP : nat -> value -> WM) (DecodeRLP : nat -> value -> SM (list Z) value)
  (user_item : nat -> rtype -> value -> item -> Prop) `{!UserCodec EncodeRLP DecodeRLP user_item}.

Lemma repr_val_denotes t v its :
  repr user_item t no_tags false v its -> val_denotes (user_items user_item) t v its.
Proof.
  intros Hr. destruct (codec EncodeRLP DecodeRLP user_item t t no_tags false v its Hr (fun _ => eq_refl)) as
    (p & d & Hp & _ & Hden & _). by exists p.
Qed.

Lemma EncodeToBytes_repr eb t v its :
  repr user_item t no_tags false v its -> len (rlp_encs its) < 2 ^ 64 ->
  length (sizebuf eb) = 9%nat ->
  EncodeToBytes EncodeRLP eb (Some (t, v)) = Ok (rlp_encs its).
Proof.
  intros Hr Hl Hs. pose proof (user_encoder_laws EncodeRLP DecodeRLP user_item) as Laws.
  by apply (EncodeToBytes_denotes EncodeRLP (user_items user_item)); [apply repr_val_denotes|..].
Qed.
End Whole.

Lemma DecodeBytes_repr EncodeRLP (DecodeRLP : nat -> value -> SM (list Z) value) user_item
  `{!UserCodec EncodeRLP DecodeRLP user_item} pooled t addr v it :
  repr user_item t no_tags addr v [it] -> len (rlp_enc it) <= maxAlloc -> pooled_ok pooled ->
  DecodeBytes DecodeRLP pooled (rlp_enc it) (Some (TPtr t, VPtr (Some (zero t)))) = Ok v.
Proof.
  intros Hr Hl Hp. destruct (codec EncodeRLP DecodeRLP user_item t t no_tags addr v [it] Hr (fun _ => eq_refl)) as
    (p & d & _ & Hd & _ & Hb & [(it' & [= <-] & Hrd)|[? _]]); [|done].
  apply Forall_cons in Hb as [Hb _]. eapply DecodeBytes_reads; [done..|]. apply Hrd. unfold decode_fuel. lia.
Qed.

(** The round trip through EncodeToBytes and DecodeBytes. *)
Lemma bytes_roundtrip EncodeRLP DecodeRLP user_item eb pooled t v its :
  UserCodec EncodeRLP DecodeRLP user_item ->
  repr user_item t no_tags false v its -> len (rlp_encs its) <= maxAlloc ->
  length (sizebuf eb) = 9%nat -> pooled_ok pooled ->
  exists it, its = [it] /\
    EncodeToBytes EncodeRLP eb (Some (t, v)) = Ok (rlp_enc it) /\
    DecodeBytes DecodeRLP pooled (rlp_enc it) (Some (TPtr t, VPtr (Some (zero t)))) = Ok v.
Proof.
  intros Hc Hr Hl Hs Hp.
  destruct (codec EncodeRLP DecodeRLP user_item t t no_tags false v its Hr (fun _ => eq_refl)) as
    (p & d & _ & Hd & _ & Hb & [(it & -> & Hrd)|[? _]]); [|done].
  exists it. split; [done|]. rewrite rlp_encs_single in Hl. apply Forall_cons in Hb as [Hb _]. split.
  - rewrite <- rlp_encs_single. apply (EncodeToBytes_repr EncodeRLP DecodeRLP user_item); [done| |done].
    rewrite rlp_encs_single. unfold maxAlloc in Hl. lia.
  - eapply DecodeBytes_reads; [done..|]. apply Hrd. unfold decode_fuel. lia.
Qed.

(** ** Methods of user types

    An EncodeRLP method that encodes another value into the buffer it is given,
    and a DecodeRLP method that decodes one from the stream. *)
Section Methods.
Context (EncodeRLP : nat -> value -> WM) (DecodeRLP : nat -> value -> SM (list Z) value)
  (user_item : nat -> rtype -> value -> item -> Prop) `{!UserCodec EncodeRLP DecodeRLP user_item}.

Lemma encode_repr_writes t v its :
  repr user_item t no_tags false v its -> writes (encode EncodeRLP (Some (t, v))) its.
Proof.
  intros Hr. pose proof (user_encoder_laws EncodeRLP DecodeRLP user_item).
  eapply encode_writes, repr_val_denotes; [done|exact UserCodec0|done].
Qed.

(** Fuel for a decoder in the middle of a stream: the header of the value may
    have been read already. *)
Definition method_fuel (s : stream (list Z)) : nat := decode_fuel (s_r s) + 9.

Definition decode_into (t : rtype) (z : value) : SM (list Z) value := fun s =>
  Stream_Decode DecodeRLP (method_fuel s) (Some (TPtr t, VPtr (Some z))) s.

Lemma item_hd_len it : len (rlp_enc it) < 2 ^ 64 -> len (item_hd it) <= 9.
Proof.
  intros Hl. pose proof (len_nonneg (payload it)). pose proof (payload_len_lt it).
  assert (L : forall small large, len (enc_head small large (len (payload it))) <= 9).
  { intros small large. unfold enc_head. destruct (_ <? 56); [by compute|]. rewrite len_cons.
    enough (len (big_bytes (len (payload it))) <= 8) by lia. apply (big_bytes_len_le _ 8). lia. }
  unfold item_hd. destruct (item_kind it) eqn:Ek; [|apply L|apply L].
  destruct it as [bs|its]; [|done]. simpl in Ek. destruct (self_byte bs) eqn:Es; [|done].
  apply self_byte_spec in Es as (b & -> & _). by compute.
Qed.

Lemma method_fuel_enough c it s :
  item_at c it -> ready c it s -> (length (rlp_enc it) < method_fuel s)%nat.
Proof.
  intros (Hok & (t & Et) & _ & Hl) Hr. unfold method_fuel, decode_fuel.
  destruct Hr as [(_ & _ & Ec)|(_ & _ & Ec & _)]; apply (f_equal c_rest) in Ec; simpl in Ec.
  - rewrite Ec, Et, length_app. lia.
  - pose proof (item_hd_len it Hl). rewrite Ec, Et, length_drop, length_app. unfold len in *. lia.
Qed.

Lemma decode_into_reads t v it :
  repr user_item t no_tags true v [it] ->
  decodes (decode_into t (zero t)) it v.
Proof.
  intros Hr c s Hat Hm Hrd. destruct (codec EncodeRLP DecodeRLP user_item t t no_tags true v [it] Hr (fun _ => eq_refl)) as
    (p & d & _ & Hd & _ & _ & [(it' & [= <-] & Hrds)|[? _]]); [|done].
  destruct (Hrds (method_fuel s) (method_fuel_enough c it s Hat Hrd)) as [Hdec _].
  destruct (Hdec c s Hat Hm Hrd) as (s' & E & F). exists s'. split; [|done].
  unfold decode_into, Stream_Decode. simpl. unfold makeDecoder. rewrite Hd. unfold map_err. by rewrite E.
Qed.

(** A struct decoder reports the end of the list whatever it decodes into. *)
Lemma decode_into_eol fs z :
  compiles (TStruct fs) -> reports_eol (decode_into (TStruct fs) z).
Proof.
  intros [_ [d Hd]] c s Hf Hend. unfold decode_into, Stream_Decode. simpl. rewrite Hd.
  unfold makeDecoder in Hd. simpl in Hd. unfold makeStructDecoder in Hd. destruct (structFields _ _ _ _ _) as [|l]; [done|].
  destruct (check_fields _ l); [done|]. injection Hd as <-.
  destruct (eol_bind _ (fun _ => ret (VStruct [])) (eol_wrap _ (TStruct fs) List_eol) c s Hf Hend) as (s' & E & F).
  exists s'. split; [|done]. unfold map_err. simpl. unfold decodeStruct. unfold bind in *.
  by destruct (wrap (TStruct fs) Stream_List s) as [[]] eqn:Ew; simplify_eq/=.
Qed.
End Methods.

(** C2: Typed round trip.  For every type and every representable value of it,
    EncodeToBytes returns the canonical encoding of the one item that represents
    the value, and DecodeBytes into the zero value of the type gives the value
    back, through structs with nil, tail and ignored fields, pointers, slices,
    arrays, big integers, raw values, interfaces and types whose EncodeRLP and
    DecodeRLP methods agree with each other.  Arrays of a defined byte type and
    defined pointers to big.Int, which the decoder panics on, are not
    representable. *)
Theorem encode_decode_roundtrip EncodeRLP DecodeRLP user_item eb pooled t v its :
  UserCodec EncodeRLP DecodeRLP user_item ->
  repr user_item t no_tags false v its -> len (rlp_encs its) <= maxAlloc ->
  length (sizebuf eb) = 9%nat -> pooled_ok pooled ->
  exists it, its = [it] /\
    EncodeToBytes EncodeRLP eb (Some (t, v)) = Ok (rlp_enc it) /\
    DecodeBytes DecodeRLP pooled (rlp_enc it) (Some (TPtr t, VPtr (Some (zero t)))) = Ok v.
Proof. apply bytes_roundtrip. Qed.

(** User types without methods. *)
Definition no_decoders {R} `{ByteReader R} : nat -> value -> SM R value :=
  fun _ _ => let* _ := Stream_Kind in panic.
#[export] Instance no_user_codec {R} `{ReaderLaws R} :
  UserCodec no_encoders (no_decoders (R := R)) (fun _ _ _ _ => False).
Proof. split; try done. intros m u. apply eol_bind, Kind_eol. Qed.

(** Distinct trees have distinct encodings. *)
Lemma generic_inj a : forall b, generic a = generic b -> a = b.
Proof.
  induction a as [bs|its IH] using item_tree_ind; intros [bs'|its'] E; simpl in E; try done.
  - by injection E as ->.
  - injection E as E. f_equal. revert its' E. induction IH as [|it its Hit _ IHs]; intros [|it' its'] E; try done.
    simpl in E. injection E as E1 E2. f_equal; [by apply Hit|by apply IHs].
Qed.

Lemma rlp_enc_inj a b :
  item_bytes_ok a -> item_bytes_ok b -> len (rlp_enc a) <= maxAlloc -> rlp_enc a = rlp_enc b -> a = b.
Proof.
  intros Ha Hb Hl E. apply generic_inj.
  assert (G : forall it, item_bytes_ok it -> len (rlp_enc it) <= maxAlloc ->
    DecodeBytes no_decoders (zero_stream []) (rlp_enc it) (Some (TPtr (TInterface 0), VPtr (Some (VIface None)))) =
    Ok (generic it)).
  { intros it Hit Hm. destruct (bytes_roundtrip no_encoders no_decoders (fun _ _ _ _ => False) new_encbuf (zero_stream [])
      (TInterface 0) (generic it) [it] _) as (it' & [= <-] & _ & D); try done.
    - by exists it.
    - by rewrite rlp_encs_single.
    - by left. }
  pose proof (G a Ha Hl) as G1. rewrite E in G1. rewrite (G b Hb) in G1 by (by rewrite <- E). congruence.
Qed.

(** The fields of a struct one by one. *)
Lemma repr_fields_cons rp typ lp i f fs v vs ts it its :
  exported f = true -> parseStructTag typ f i lp = inr ts -> ignored ts = false -> rp (ftyp f) ts v [it] ->
  repr_fields rp typ lp (S i) fs vs its -> repr_fields rp typ lp i (f :: fs) (v :: vs) (it :: its).
Proof.
  intros Hx Hp Hi Hr Hs. simpl. rewrite Hx, Hp, Hi. exists [it], its. split; [done|]. by destruct f.
Qed.

Lemma repr_fields_ignored rp typ lp i f fs v vs ts its :
  exported f = true -> parseStructTag typ f i lp = inr ts -> ignored ts = true -> v = zero (ftyp f) ->
  repr_fields rp typ lp (S i) fs vs its -> repr_fields rp typ lp i (f :: fs) (v :: vs) its.
Proof. intros Hx Hp Hi Hr Hs. simpl. by rewrite Hx, Hp, Hi. Qed.

(** Common field types. *)
Lemma uint64_repr ui ts addr n : u64_ok n -> repr ui (TUint 64) ts addr (VUint n) [Str (big_bytes n)].
Proof. intros Hn. split; [by right; right; right|]. by split. Qed.
Lemma byte_slice_repr ui ts addr b : bytes_ok b -> repr ui (TSlice (TUint 8)) ts addr (VBytes b) [Str b].
Proof. by intros Hb. Qed.
Lemma byte_array_repr ui ts addr n b :
  bytes_ok b -> length b = n -> (1 < n)%nat -> repr ui (TArray n (TUint 8)) ts addr (VBytes b) [Str b].
Proof. intros Hb <- Hn. split_and!; try done. intros ->. simpl in Hn. lia. Qed.

(** A field that is written, whose representation [tac] proves. *)
Ltac repr_field tac :=
  eapply repr_fields_cons; [reflexivity|vm_compute; reflexivity|reflexivity|cbn [ftyp]; tac|].

(** A struct with a nil pointer, an ignored field and a tail. *)
Definition sample_type : rtype :=
  TStruct [SField "Price" true EmptyString TBigIntPtr;
           SField "To" true "nil" (TPtr (TArray 2 (TUint 8)));
           SField "cache" false EmptyString (TOther "map");
           SField "Rest" true "tail" (TSlice (TUint 16))].
Definition sample_value : value :=
  VStruct [VBig (Some 300); VPtr None; VStruct []; VSeq [VUint 7; VUint 500]].
Definition sample_items : list item :=
  [Lst [Str [1; 44]; Str []; Str [7]; Str [1; 244]]].

Lemma encode_decode_roundtrip_witness :
  exists it, sample_items = [it] /\
    EncodeToBytes no_encoders new_encbuf (Some (sample_type, sample_value)) = Ok (rlp_enc it) /\
    DecodeBytes no_decoders (zero_stream []) (rlp_enc it)
      (Some (TPtr sample_type, VPtr (Some (zero sample_type)))) = Ok sample_value.
Proof.
  apply (encode_decode_roundtrip no_encoders no_decoders (fun _ _ _ _ => False) new_encbuf (zero_stream [])
    sample_type sample_value sample_items).
  - apply no_user_codec.
  - simpl. exists [Str [1; 44]; Str []; Str [7]; Str [1; 244]]. split; [reflexivity|].
    exists [Str [1; 44]], [Str []; Str [7]; Str [1; 244]]. split; [reflexivity|].
    split; [split; [lia|reflexivity]|].
    exists [Str []], [Str [7]; Str [1; 244]]. split; [reflexivity|].
    split; [split; [split; by eexists|by split]|]. split; [reflexivity|].
    exists [Str [7]; Str [1; 244]], []. split; [reflexivity|]. split; [|reflexivity].
    split; [reflexivity|]. split; [reflexivity|]. split; [split; [split; by eexists|done]|].
    exists [Str [7]; Str [1; 244]]. split; [|reflexivity].
    constructor; [split; [tauto|split; [lia|reflexivity]]|].
    constructor; [split; [tauto|split; [lia|reflexivity]]|constructor].
  - by vm_compute.
  - reflexivity.
  - by left.
Defined.
