(* ===== verification/RlpExact.v ===== *)
(** * Decoding accepts nothing but encodings

    Soundness of the decoder for interface targets: what it accepts is the
    canonical encoding of the value it returns.  With the round trip this makes
    decoding exact. *)

From S2P Require Import Prelude RlpSpec RlpEncode RlpTypes RlpRaw RlpStream RlpWriter RlpDecoder RlpRoundtrip.

Lemma c_can_app n m c : 0 <= n -> c_can n c -> c_can m (c_adv n c) -> c_can (n + m) c.
Proof.
  intros Hn (Hl & Hf & Hi) (Hl' & Hf' & Hi'). unfold c_can, fits, in_limit, c_adv in *. simpl in *.
  unfold len in *. rewrite length_drop in Hl'. split; [lia|]. split.
  - destruct (c_stack c); simpl in *; [done|lia].
  - destruct (c_rem c); simpl in *; [lia|done].
Qed.

Section Sound.
Context {R : Type} `{ReaderLaws R}.
Implicit Types s : stream R.

(** The items [its] have been read on the way from [s] to [s']. *)
Definition consumed (its : list item) s s' : Prop :=
  c_rest (cur s) = rlp_encs its ++ c_rest (cur s') /\
  c_can (len (rlp_encs its)) (cur s) /\
  fresh (c_adv (len (rlp_encs its)) (cur s)) s' /\ Forall item_bytes_ok its.

Lemma consumed_ok its s s' : c_ok (cur s) -> consumed its s s' -> stream_ok s'.
Proof.
  intros Hok (_ & (_ & Hf & Hi) & Hfr & _). eapply fresh_ok; [|done].
  apply c_adv_ok; [apply len_nonneg|done..].
Qed.

Lemma consumed_nil s : c_ok (cur s) -> length (uintbuf s) = 8%nat -> kind s = None -> consumed [] s s.
Proof.
  intros (_ & Hst & Hrem) Hu Hk. split; [done|]. split; [|split; [|done]].
  - split; [apply len_nonneg|]. unfold fits, in_limit. change (len (rlp_encs [])) with 0.
    split; [destruct (c_stack (cur s)); simpl in *; [done|lia]|].
    destruct (c_rem (cur s)); [unfold u64_ok in *; lia|done].
  - split; [done|]. split; [done|]. by rewrite c_adv_0.
Qed.

Lemma consumed_cons it its s s1 s2 :
  consumed [it] s s1 -> consumed its s1 s2 -> consumed (it :: its) s s2.
Proof.
  intros (E1 & C1 & (U1 & K1 & F1) & B1) (E2 & C2 & (U2 & K2 & F2) & B2).
  rewrite rlp_encs_single in *. rewrite F1 in C2, F2.
  split; [|split; [|split]].
  - by rewrite rlp_encs_cons, E1, E2, app_assoc.
  - rewrite rlp_encs_cons, len_app. by apply c_can_app; [apply len_nonneg| |].
  - split; [done|]. split; [done|]. rewrite rlp_encs_cons, len_app, <- c_adv_adv by apply len_nonneg. done.
  - apply Forall_cons in B1 as [? _]. by constructor.
Qed.

(** What a decoder of generic values does on a fresh stream. *)
Definition sound_at (d : SM R value) s : Prop :=
  match d s with
  | (Ok v, s') => exists it, v = generic it /\ consumed [it] s s'
  | (Err EOL, s') => at_end (cur s) /\ fresh (cur s) s'
  | _ => True
  end.

Definition sound_dec (d : SM R value) : Prop := forall s,
  stream_ok s -> kind s = None -> sound_at d s.

Lemma Bytes_sound k n hd s s1 b s' :
  stream_ok s -> k <> KList ->
  is_head k n hd -> c_rest (cur s) = hd ++ c_rest (cur s1) -> c_can (len hd) (cur s) ->
  cur s1 = c_adv (len hd) (cur s) -> (k = KByte -> hd = [byteval s1]) ->
  cached k n s1 -> stream_ok s1 ->
  Stream_Bytes s1 = (Ok b, s') -> consumed [Str b] s s'.
Proof.
  intros Hok Hk Hh Er Hc Ec Hbv Hca Hok1 E.
  assert (Hbs : bytes_ok (c_rest (cur s))) by apply Hok.
  unfold Stream_Bytes in E. rewrite (bind_ok _ _ _ _ _ (Stream_Kind_cached _ _ _ Hca)) in E.
  destruct k; [| |done].
  - injection E as <- <-. specialize (Hbv eq_refl). destruct Hh as (_ & x & E1 & Hx). rewrite E1 in *.
    injection Hbv as ->. unfold consumed. rewrite rlp_encs_single. simpl rlp_enc.
    unfold enc_str. simpl self_byte. destruct (Z.ltb_spec (byteval s1) 128); [|lia].
    split; [done|]. split; [done|]. split.
    + split; [apply Hok1|]. split; [done|]. exact Ec.
    + constructor; [|done]. rewrite Er in Hbs. by apply Forall_app in Hbs as [? _].
  - destruct Hh as (Hn & ->). destruct (Z.ltb_spec maxAlloc n); [done|].
    pose proof Hok1 as (Hco1 & Hu1 & _).
    destruct (readFull_spec n s1 Hco1 Hn) as
      [(bs & s2 & E2 & (Fk & Fu & _) & Hc2 & Hl & Er2 & Ec2)|(e & s2 & E2 & _)];
      unfold bind in E; rewrite E2 in E; [|done].
    destruct ((n =? 1) && (default 0 (bs !! 0%nat) <? 128)) eqn:Ecan; [done|].
    injection E as <- <-.
    assert (Ebs : rlp_enc (Str bs) = str_head n ++ bs).
    { simpl. unfold enc_str. rewrite Hl. destruct (self_byte bs) eqn:Es; [|done].
      apply self_byte_spec in Es as (x & -> & Hx). change (len [x]) with 1 in Hl. subst n.
      simpl in Ecan. apply Z.ltb_ge in Ecan. lia. }
    unfold consumed. rewrite rlp_encs_single, Ebs, len_app, Hl.
    rewrite Ec in Hc2, Ec2. rewrite Er, Er2 in Hbs.
    split; [by rewrite Er, Er2, app_assoc|]. split; [by apply c_can_app; [apply len_nonneg| |]|].
    split; [|constructor; [|done]].
    + split; [by rewrite Fu|]. split; [done|]. rewrite Ec2. apply c_adv_adv; [apply len_nonneg|].
      unfold u64_ok in Hn. lia.
    + simpl. apply Forall_app in Hbs as [_ Hbs]. by apply Forall_app in Hbs as [? _].
Qed.

Lemma elems_sound (d : value -> SM R value) z fuel : sound_dec (d z) -> forall acc s vs s',
  stream_ok s -> kind s = None ->
  decodeSliceElems fuel z [] acc d s = (Ok vs, s') ->
  exists its, vs = acc ++ map generic its /\ consumed its s s' /\ at_end (cur s').
Proof.
  intros Hd. induction fuel as [|fuel IH]; intros acc s vs s' Hok Hk E; [done|].
  simpl in E. pose proof (Hd s Hok Hk) as Hs. unfold sound_at in Hs.
  destruct (d z s) as [[v|e| |] s1] eqn:Ed; try done.
  - destruct Hs as (it & -> & Hc).
    destruct (IH (acc ++ [generic it]) s1 vs s') as (its & -> & Hc2 & He); [by eapply consumed_ok; [apply Hok|]|by apply Hc|done|].
    exists (it :: its). split; [by rewrite <- app_assoc|]. split; [by eapply consumed_cons|done].
  - destruct e; try done. injection E as <- <-. destruct Hs as (He & (Hu & Hk1 & Hf)).
    exists []. rewrite app_nil_r. split; [done|]. split; [|by rewrite Hf].
    destruct (consumed_nil s ltac:(apply Hok) ltac:(apply Hok) Hk) as (C1 & C2 & C3 & C4).
    split; [by rewrite Hf|]. split; [done|]. split; [|done]. destruct C3 as (_ & _ & C3).
    split; [done|]. split; [done|]. by rewrite Hf.
Qed.

Lemma elems_no_eol (d : value -> SM R value) z vals fuel : forall acc s s',
  decodeSliceElems fuel z vals acc d s <> (Err EOL, s').
Proof.
  induction fuel as [|fuel IH]; intros acc s s'; simpl; [done|].
  destruct (d _ s) as [[v|e| |] s1]; [apply IH| |done..]. by destruct e.
Qed.

Lemma ListEnd_no_eol s s' : Stream_ListEnd s <> (Err EOL, s').
Proof. unfold Stream_ListEnd. destruct (stack s); [done|]. by destruct (negb _). Qed.

Lemma Bytes_no_eol k n s s' : cached k n s -> stream_ok s -> Stream_Bytes s <> (Err EOL, s').
Proof.
  intros Hc (Hok & Hu & Hk) E. unfold Stream_Bytes in E.
  rewrite (bind_ok _ _ _ _ _ (Stream_Kind_cached _ _ _ Hc)) in E. destruct k; [done| |done].
  destruct (maxAlloc <? n); [done|]. destruct Hc as (E1 & E2 & <-). rewrite E1, E2 in Hk.
  destruct (readFull_spec (ssize s) s Hok ltac:(apply Hk)) as
    [(bs & s2 & E3 & _)|(e & s2 & E3 & _ & _ & _ & He)]; unfold bind in E; rewrite E3 in E.
  - by destruct (_ && _).
  - injection E as -> _. decompose [or] He; done.
Qed.

(** Closing a list whose elements have been consumed. *)
Lemma list_consumed its n s s1 s2 s3 :
  stream_ok s -> is_head KList n (list_head n) ->
  c_rest (cur s) = list_head n ++ c_rest (cur s1) -> c_can (len (list_head n)) (cur s) ->
  fits n (c_adv (len (list_head n)) (cur s)) ->
  cur s1 = c_enter n (cur s) ->
  consumed its s1 s2 -> Stream_ListEnd s2 = (Ok tt, s3) ->
  consumed [Lst its] s s3.
Proof.
  intros Hok Hh Er Hc Hf Ec1 (E1 & C1 & (U1 & K1 & F1) & B1) E.
  assert (Hi : in_limit (len (rlp_encs its)) (c_adv (len (list_head n)) (cur s)))
    by (destruct C1 as (_ & _ & Hi); by rewrite Ec1 in Hi).
  unfold Stream_ListEnd in E. assert (Est : stack s2 = c_stack (cur s2)) by done.
  rewrite Est, F1, Ec1 in E. unfold c_enter in E. simpl in E.
  set (h := len (list_head n)) in *. assert (0 <= h) by apply len_nonneg.
  rewrite Z.add_0_l in E. destruct (Z.eqb_spec (len (rlp_encs its)) n) as [En|]; [|done].
  injection E as <-. unfold consumed. rewrite rlp_encs_single. simpl rlp_enc. fold (rlp_encs its).
  rewrite len_app, En. fold h. destruct Hh as (Hn & _). unfold u64_ok in Hn.
  assert (Ecn : c_can (h + n) (cur s)).
  { rewrite En in Hi. apply c_can_app; [done|done|]. split; [|by split].
    destruct C1 as (Hl & _). by rewrite Ec1, En in Hl. }
  split; [|split; [done|split; [|constructor; [by apply items_ok_all|done]]]].
  { rewrite Er, E1, app_assoc. done. }
  split; [done|]. split; [done|]. rewrite <- c_adv_adv by lia.
  pose proof (f_equal c_rest F1) as Fr. pose proof (f_equal c_rem F1) as Fm.
  rewrite Ec1, En in Fr, Fm. unfold cur at 1. simpl in Fr, Fm |- *.
  rewrite Fr, Fm. unfold c_adv, c_enter. simpl. f_equal.
  destruct Hok as ((_ & Hst & _) & _). simpl in Hst. unfold fits in Hf. simpl in Hf.
  destruct (stack s) as [|o st]; simpl in *; [done|]. do 2 f_equal. apply u64_small. unfold u64_ok. lia.
Qed.

Lemma ListSlice_sound (d : value -> SM R value) typ z fuel n s s1 vs s' :
  sound_dec (d z) -> stream_ok s -> stream_ok s1 ->
  is_head KList n (list_head n) -> c_rest (cur s) = list_head n ++ c_rest (cur s1) ->
  c_can (len (list_head n)) (cur s) -> cur s1 = c_adv (len (list_head n)) (cur s) ->
  cached KList n s1 ->
  decodeListSlice fuel typ z [] d s1 = (Ok vs, s') ->
  exists its, vs = map generic its /\ consumed [Lst its] s s'.
Proof.
  intros Hd Hok Hok1 Hh Er Hc Ec Hca E.
  set (s2 := set_size 0 (set_kind None (set_stack (Listpos 0 n :: stack s1) s1))).
  assert (EL : Stream_List s1 = (Ok n, s2)).
  { unfold Stream_List. by rewrite (bind_ok _ _ _ _ _ (Stream_Kind_cached _ _ _ Hca)). }
  unfold decodeListSlice in E. rewrite (bind_ok _ _ _ _ s2 (wrap_ok _ _ _ _ _ EL)) in E.
  assert (Hfit : fits n (cur s1)).
  { destruct Hok1 as (_ & _ & Hk). destruct Hca as (E1 & E2 & <-). rewrite E1, E2 in Hk. apply Hk. }
  assert (Ec2 : cur s2 = c_enter n (cur s)).
  { subst s2. unfold c_enter. rewrite <- Ec. unfold cur at 1. simpl. f_equal. f_equal.
    by apply (f_equal c_stack) in Ec. }
  assert (Hok2 : stream_ok s2).
  { apply idle_ok; [|apply Hok1|done]. destruct Hok1 as ((B & St & Rm) & _). split; [done|]. split; [|done].
    simpl in *. destruct Hh as (Hn & _). unfold u64_ok in Hn. split; [lia|]. split; [lia|]. split; [|done].
    unfold fits in Hfit. simpl in Hfit. by destruct (stack s1). }
  rewrite Ec in Hfit.
  assert (Fin : forall its s3 s4, consumed its s2 s3 -> Stream_ListEnd s3 = (Ok tt, s4) -> consumed [Lst its] s s4).
  { intros its s3 s4 Hcs E4. by eapply (list_consumed its n s s2). }
  destruct (n =? 0).
  - unfold bind in E. destruct (Stream_ListEnd s2) as [[[]|e| |] s3] eqn:E3; try done.
    injection E as <- <-. exists []. split; [done|]. eapply Fin; [|done].
    apply consumed_nil; [apply Hok2|apply Hok2|done].
  - unfold bind at 1 in E. destruct (decodeSliceElems fuel z [] [] d s2) as [[vs2|e| |] s3] eqn:E3; try done.
    destruct (elems_sound d z fuel Hd [] s2 vs2 s3 Hok2 eq_refl E3) as (its & -> & Hcs & _).
    unfold bind in E. destruct (Stream_ListEnd s3) as [[[]|e| |] s4] eqn:E4; try done.
    injection E as <- <-. exists its. split; [done|]. by eapply Fin.
Qed.

Lemma ListSlice_no_eol (d : value -> SM R value) typ z vals fuel n s s' :
  cached KList n s -> decodeListSlice fuel typ z vals d s <> (Err EOL, s').
Proof.
  intros Hca E. unfold decodeListSlice, Stream_List in E.
  set (s2 := set_size 0 (set_kind None (set_stack (Listpos 0 n :: stack s) s))) in *.
  assert (EL : Stream_List s = (Ok n, s2)).
  { unfold Stream_List. by rewrite (bind_ok _ _ _ _ _ (Stream_Kind_cached _ _ _ Hca)). }
  rewrite (bind_ok _ _ _ _ s2 (wrap_ok _ _ _ _ _ EL)) in E. destruct (n =? 0).
  - unfold bind in E. destruct (Stream_ListEnd s2) as [[[]|e| |] s3] eqn:E3; try done.
    injection E as -> ->. by apply ListEnd_no_eol in E3.
  - unfold bind in E. destruct (decodeSliceElems fuel z vals [] d s2) as [[vs2|e| |] s3] eqn:E3; try done.
    + destruct (Stream_ListEnd s3) as [[[]|e| |] s4] eqn:E4; try done.
      injection E as -> ->. by apply ListEnd_no_eol in E4.
    + injection E as -> ->. by apply elems_no_eol in E3.
Qed.

Lemma Interface_sound fuel : forall typ, sound_dec (decodeInterface fuel typ 0).
Proof.
  induction fuel as [|fuel IH]; intros typ s Hok Hk; unfold sound_at; [done|].
  rewrite decodeInterface_S. destruct (decide (at_end (cur s))) as [He|He].
  { unfold bind. rewrite Stream_Kind_end by done. split; [done|]. split; [apply Hok|by split]. }
  destruct (Stream_Kind_fresh s Hok Hk He) as
    [(k & n & hd & s1 & E & Hh & Er & Hc & Ec & Hbv & Hca & Hok1)|(e & s1 & E & Hne & _)].
  2:{ unfold bind. rewrite E. by destruct e. }
  rewrite (bind_ok _ _ _ _ _ E). destruct (decide (k = KList)) as [->|Hkl].
  - assert (hd = list_head n) as -> by apply Hh. unfold bind.
    destruct (decodeListSlice _ _ _ _ _ s1) as [[vs|e| |] s2] eqn:E2; try done.
    + destruct (ListSlice_sound _ _ _ _ n s s1 vs s2 (IH (TInterface 0)) Hok Hok1 Hh Er Hc Ec Hca E2)
        as (its & -> & Hcs). by exists (Lst its).
    + destruct e; try done. by apply (ListSlice_no_eol _ _ _ _ _ n) in E2.
  - unfold bind. destruct (Stream_Bytes s1) as [[b|e| |] s2] eqn:E2; try done.
    + exists (Str b). split; [done|]. by eapply (Bytes_sound k n hd s s1).
    + destruct e; try done. by apply (Bytes_no_eol k n) in E2.
Qed.
End Sound.

(** ** Whole inputs *)

Definition iface_target : option (rtype * value) := Some (TPtr (TInterface 0), VPtr (Some (VIface None))).

Lemma whole_cursor_ok b : bytes_ok b -> len b <= maxAlloc -> c_ok (Cursor b [] (Some (len b))).
Proof.
  intros Hb Hl. pose proof (len_nonneg b). unfold maxAlloc in Hl.
  split; [done|]. split; [done|]. simpl. unfold u64_ok. lia.
Qed.

Lemma Stream_Decode_iface {R} `{ByteReader R} fuel (s : stream R) :
  Stream_Decode no_methods fuel iface_target s =
  map_err (add_target (TInterface 0)) (decodeInterface fuel (TInterface 0) 0) s.
Proof. done. Qed.

(** C4: Decoding a byte slice into an empty interface succeeds exactly on the
    canonical encodings: the accepted inputs are the encodings of RLP values,
    the result is the value's tree of byte slices and lists, and inputs with
    leading zeros, oversized headers, truncated or trailing data are errors. *)
Theorem DecodeBytes_interface_exact pooled b v :
  pooled_ok pooled -> bytes_ok b -> len b <= maxAlloc ->
  DecodeBytes no_methods pooled b iface_target = Ok v <->
  exists it, item_bytes_ok it /\ b = rlp_enc it /\ v = generic it.
Proof.
  intros Hp Hb Hl. split.
  - unfold DecodeBytes. rewrite Stream_Decode_iface. unfold map_err.
    pose proof (Reset_bytes b pooled Hp) as Hf. pose proof (whole_cursor_ok b Hb Hl) as Hc.
    pose proof (Interface_sound (decode_fuel b) (TInterface 0) _ (fresh_ok _ _ Hc Hf) (proj1 (proj2 Hf))) as Hs.
    unfold sound_at in Hs.
    destruct (decodeInterface _ _ _ _) as [[w|e| |] s'] eqn:E; try done.
    destruct Hs as (it & -> & (Er & _ & _ & Hit)). destruct (Z.ltb_spec 0 (len (s_r s'))); [done|].
    intros [= <-]. exists it. apply Forall_cons in Hit as [Hit _]. split; [done|]. split; [|done].
    destruct Hf as (_ & _ & Hf). rewrite Hf, rlp_encs_single in Er. simpl in Er.
    destruct (s_r s') as [|x l]; [|rewrite len_cons in *; pose proof (len_nonneg l); lia].
    by rewrite app_nil_r in Er.
  - intros (it & Hit & -> & ->). eapply DecodeBytes_reads; [done..|].
    apply (Interface_reads it). unfold decode_fuel. lia.
Qed.

Lemma DecodeBytes_interface_exact_witness :
  DecodeBytes no_methods (zero_stream []) [0xC3; 0x05; 0x81; 0x80] iface_target =
    Ok (iface_list [iface_bytes [5]; iface_bytes [0x80]]).
Proof.
  apply (DecodeBytes_interface_exact (zero_stream []) [0xC3; 0x05; 0x81; 0x80]).
  - by left.
  - repeat constructor; lia.
  - by vm_compute.
  - exists (Lst [Str [5]; Str [0x80]]). split; [|split; reflexivity].
    simpl. repeat split; repeat constructor; lia.
Defined.
