(* ===== verification/RlpTotal.v ===== *)
(** * The decoder terminates and never panics

    For every input and every target type without methods of its own, decoding
    a byte slice returns a value or an error: the fuel the model gives the loops
    is never used up, [make] is never asked for more than the input can fill,
    and no index is out of range. *)

From Stdlib Require Import String.
From S2P Require Import Prelude RlpSpec RlpEncode RlpTypes RlpRaw RlpStream RlpWriter RlpDecoder RlpRoundtrip.

#[local] Hint Resolve Nat.le_refl : core.

Section Total.
Context {R : Type} `{ReaderLaws R}.
Implicit Types s : stream R.

Definition left s : nat := length (rest (s_r s)).

(** The measure that decreases whenever a value is consumed: a cached header
    counts as half a byte. *)
Definition mu s : nat := 2 * left s + match kind s with Some _ => 1 | None => 0 end.

(** ** The input only shrinks *)

Ltac shrink := intros ?; unfold left; simpl; solve [done|lia].

Definition shrinks {A} (m : SM R A) : Prop := forall s, (left (snd (m s)) <= left s)%nat.

Lemma shrinks_bind {A B} (m : SM R A) (f : A -> SM R B) :
  shrinks m -> (forall a, shrinks (f a)) -> shrinks (bind m f).
Proof.
  intros Hm Hf s. unfold bind. specialize (Hm s). destruct (m s) as [[a|e| |] s1]; simpl in *; [|done..].
  specialize (Hf a s1). lia.
Qed.

Lemma shrinks_ret {A} (a : A) : shrinks (ret a).
Proof. intros s. done. Qed.

Lemma shrinks_fail {A} e : shrinks (A := A) (fail e).
Proof. intros s. done. Qed.

Lemma shrinks_wrap {A} typ (m : SM R A) : shrinks m -> shrinks (wrap typ m).
Proof. intros Hm s. specialize (Hm s). unfold wrap, map_err. by destruct (m s) as [[a|e| |] s1]. Qed.

Lemma shrinks_willRead n : shrinks (willRead n).
Proof.
  intros s. unfold willRead, takeLimit, left. simpl. destruct (stack s) as [|t st].
  - simpl. destruct (limited s); [|done]. by destruct (_ <? n).
  - destruct (_ <? n); [done|]. simpl. destruct (limited s); [|done]. by destruct (_ <? n).
Qed.

Lemma shrinks_readByte : shrinks readByte.
Proof.
  apply shrinks_bind; [apply shrinks_willRead|]. intros _ s. pose proof (ReadByte_law (s_r s)) as L.
  unfold left. destruct (rd_ReadByte (s_r s)) as [[b|] r]; simpl.
  - rewrite L. simpl. lia.
  - destruct L as [-> ->]. done.
Qed.

Lemma readFull_loop_left fuel : forall n acc (r : R) bs eof r',
  readFull_loop fuel n acc r = Some (bs, eof, r') -> (length (rest r') <= length (rest r))%nat.
Proof.
  induction fuel as [|fuel IH]; intros [|n] acc r bs eof r' E; simpl in E; try done.
  1,2: by injection E as <- <- <-.
  destruct (rd_Read (S n) r) as [[bs1 eof1] r1] eqn:Er.
  destruct (Read_law _ _ _ _ _ Er ltac:(lia)) as (L & _). rewrite L, length_app.
  destruct eof1; [injection E as <- <- <-; lia|]. specialize (IH _ _ _ _ _ _ E). lia.
Qed.

Lemma shrinks_readFull n : shrinks (readFull n).
Proof.
  apply shrinks_bind; [apply shrinks_willRead|]. intros _ s. unfold left.
  destruct (readFull_loop _ _ _ (s_r s)) as [[[bs eof] r]|] eqn:E; [|done].
  apply readFull_loop_left in E. by destruct eof.
Qed.

Lemma shrinks_readUint n : shrinks (readUint n).
Proof.
  unfold readUint. destruct (n =? 0); [shrink|]. destruct (n =? 1); [apply shrinks_readByte|].
  destruct (_ <? _); [shrink|]. apply shrinks_bind; [apply shrinks_readFull|]. intros bs s.
  simpl. destruct (_ !! _); [|done]. by destruct (_ =? 0).
Qed.

Lemma shrinks_Kind : shrinks Stream_Kind.
Proof.
  intros s. unfold Stream_Kind. destruct (kind s); [by destruct (kinderr s)|].
  destruct (match stack (set_kinderr None s) with [] => _ | _ => _ end); [done|].
  change (left s) with (left (set_kinderr None s)). generalize (set_kinderr None s). clear s.
  apply shrinks_bind.
  - intros s. unfold s_readKind. pose proof (shrinks_readByte s) as L.
    assert (G : forall k n s1, (left s1 <= left s)%nat ->
      (left (snd (sizedKind k (readUint n) (set_byteval 0 s1))) <= left s)%nat).
    { intros k n s1 Hs. pose proof (shrinks_readUint n (set_byteval 0 s1)) as L1. unfold sizedKind.
      change (left (set_byteval 0 s1)) with (left s1) in L1.
      destruct (readUint n (set_byteval 0 s1)) as [[x|e| |] s2]; simpl in *; lia. }
    destruct (readByte s) as [[b|e| |] s1]; simpl in L; try done.
    destruct (b <? 128); [done|]. destruct (b <? 184); [done|]. destruct (b <? 192); [by apply G|].
    destruct (b <? 248); [done|]. by apply G.
  - intros [[k n] e] s. by destruct (match e with Some _ => _ | _ => _ end).
Qed.

Lemma shrinks_Bytes : shrinks Stream_Bytes.
Proof.
  apply shrinks_bind; [apply shrinks_Kind|]. intros [[] n]; [shrink| |shrink].
  destruct (_ <? n); [shrink|]. apply shrinks_bind; [apply shrinks_readFull|]. intros b.
  destruct (_ && _); shrink.
Qed.

Lemma shrinks_Raw : shrinks Stream_Raw.
Proof.
  apply shrinks_bind; [apply shrinks_Kind|]. intros [k n]. case_decide; [shrink|].
  cbv zeta. destruct ((maxAlloc <? _) || _)%bool; [shrink|]. apply shrinks_bind; [apply shrinks_readFull|]. intros b.
  destruct (if decide (k = KString) then _ else _) as [[? ?]|]; shrink.
Qed.

Lemma shrinks_uint bits : shrinks (Stream_uint bits).
Proof.
  apply shrinks_bind; [apply shrinks_Kind|]. intros [[] n]; [|destruct (_ <? n); [shrink|]|shrink].
  - intros s. by destruct (byteval s =? 0).
  - intros s. pose proof (shrinks_readUint (u8 n) s) as L.
    destruct (readUint (u8 n) s) as [[v|[]| |] s1]; simpl in *; try done. by destruct (_ && _).
Qed.

Lemma shrinks_Bool : shrinks Stream_Bool.
Proof.
  apply shrinks_bind; [apply shrinks_uint|]. intros n. destruct (n =? 0); [shrink|]. destruct (n =? 1); shrink.
Qed.

Lemma shrinks_List : shrinks Stream_List.
Proof. apply shrinks_bind; [apply shrinks_Kind|]. intros [k n]. case_decide; shrink. Qed.

Lemma shrinks_ListEnd : shrinks Stream_ListEnd.
Proof. intros s. unfold Stream_ListEnd. destruct (stack s); [done|]. by destruct (negb _). Qed.

(** ** Values are consumed *)

(** After [m] has returned a value, [Kind] is re-armed. *)
Definition disarms {A} (m : SM R A) : Prop := forall s a s', m s = (Ok a, s') -> kind s' = None.

Lemma disarms_bind {A B} (m : SM R A) (f : A -> SM R B) :
  (forall a, disarms (f a)) -> disarms (bind m f).
Proof.
  intros Hf s b s' E. unfold bind in E. destruct (m s) as [[a|e| |] s1]; try done. by eapply Hf.
Qed.

(** A continuation that leaves the stream alone. *)
Definition pure_k {A} (m : SM R A) : Prop := forall s, snd (m s) = s.

Lemma disarms_bind_pure {A B} (m : SM R A) (f : A -> SM R B) :
  disarms m -> (forall a, pure_k (f a)) -> disarms (bind m f).
Proof.
  intros Hm Hf s b s' E. unfold bind in E. destruct (m s) as [[a|e| |] s1] eqn:Em; try done.
  specialize (Hf a s1). rewrite E in Hf. simpl in Hf. subst. by eapply Hm.
Qed.

Lemma willRead_kind n s : kind (snd (willRead n s)) = None.
Proof.
  unfold willRead, takeLimit. simpl. destruct (stack s) as [|t st].
  - simpl. destruct (limited s); [|done]. by destruct (_ <? n).
  - destruct (_ <? n); [done|]. simpl. destruct (limited s); [|done]. by destruct (_ <? n).
Qed.

Lemma disarms_readByte : disarms readByte.
Proof.
  intros s a s' E. pose proof (willRead_kind 1 s) as K. unfold readByte, bind in E.
  destruct (willRead 1 s) as [[[]|e| |] s1]; try done.
  destruct (rd_ReadByte (s_r s1)) as [[b|] r]; [|done]. by injection E as <- <-.
Qed.

Lemma disarms_readFull n : disarms (readFull n).
Proof.
  intros s a s' E. pose proof (willRead_kind n s) as K. unfold readFull, bind in E.
  destruct (willRead n s) as [[[]|e| |] s1]; try done.
  destruct (readFull_loop _ _ _ (s_r s1)) as [[[bs []] r]|]; try done. by injection E as <- <-.
Qed.

Lemma disarms_readUint n : disarms (readUint n).
Proof.
  unfold readUint. destruct (n =? 0); [by intros s a s' [= <- <-]|].
  destruct (n =? 1); [apply disarms_readByte|]. destruct (_ <? _); [done|].
  intros s a s' E. unfold bind in E. destruct (readFull _ s) as [[bs|e| |] s1] eqn:Er; try done.
  apply disarms_readFull in Er. destruct (_ !! _); [|done]. destruct (_ =? 0); [done|].
  by injection E as <- <-.
Qed.

Lemma Kind_mu s k n s' :
  stream_ok s -> Stream_Kind s = (Ok (k, n), s') -> (mu s' <= mu s)%nat /\ cached k n s'.
Proof.
  intros Hok E. destruct (kind s) as [k'|] eqn:Ek.
  { unfold Stream_Kind in E. rewrite Ek in E. destruct (kinderr s) eqn:Ee; [done|]. by injection E as <- <- <-. }
  destruct (decide (at_end (cur s))) as [He|He]; [by rewrite Stream_Kind_end in E by done|].
  destruct (Stream_Kind_fresh s Hok Ek He) as
    [(k1 & n1 & hd & s1 & E1 & Hh & Er & _ & _ & _ & Hca & _)|(e & s1 & E1 & _)];
    rewrite E1 in E; [|done]. injection E as <- <- <-. split; [|done]. destruct Hca as (Hk & _).
  unfold mu, left. rewrite Ek, Hk. simpl in Er. rewrite Er, length_app.
  assert (1 <= length hd)%nat; [|lia].
  destruct k1; simpl in Hh; [destruct Hh as (_ & b & -> & _); simpl; lia|..]; destruct Hh as (_ & ->);
    [pose proof (enc_head_len_pos 0x80 0xB7 n1)|pose proof (enc_head_len_pos 0xC0 0xF7 n1)];
    unfold str_head, list_head, len in *; lia.
Qed.

Lemma Kind_consumes {A} (f : Kind * Z -> SM R A) s a s' :
  stream_ok s -> shrinks (bind Stream_Kind f) -> (forall x, disarms (f x)) ->
  bind Stream_Kind f s = (Ok a, s') -> (mu s' < mu s)%nat.
Proof.
  intros Hok Hs Hd E. unfold bind in E. destruct (Stream_Kind s) as [[[k n]|e| |] s1] eqn:Ek; try done.
  destruct (Kind_mu s k n s1 Hok Ek) as [Hm Hc]. pose proof (Hs s1) as Hl.
  rewrite (bind_ok _ _ _ _ _ (Stream_Kind_cached _ _ _ Hc)), E in Hl.
  simpl in Hl. apply Hd in E. destruct Hc as (Hk & _). unfold mu in *. rewrite Hk, E in *. lia.
Qed.

Variable L : Z.

(** A decoder that returns, within the bounds, a value it has consumed. *)
Definition total {A} (P : stream R -> Prop) (d : SM R A) : Prop := forall s, inv L s -> P s ->
  match d s with
  | (Ok _, s') => inv L s' /\ (mu s' < mu s)%nat
  | (Err _, s') => inv L s'
  | _ => False
  end.

(** The same without the claim that something was consumed. *)
Definition returns {A} (P : stream R -> Prop) (d : SM R A) : Prop := forall s, inv L s -> P s ->
  match d s with (Ok _, s') | (Err _, s') => inv L s' | _ => False end.

Lemma total_returns {A} P (d : SM R A) : total P d -> returns P d.
Proof. intros Hd s Hi HP. specialize (Hd s Hi HP). destruct (d s) as [[a|e| |] s']; tauto. Qed.

Lemma triple_total {A} P (f : Kind * Z -> SM R A) :
  triple L (inv L) (bind Stream_Kind f) (fun _ => inv L) ->
  shrinks (bind Stream_Kind f) -> (forall x, disarms (f x)) -> total P (bind Stream_Kind f).
Proof.
  intros Ht Hs Hd s Hi _. specialize (Ht s Hi).
  destruct (bind Stream_Kind f s) as [[a|e| |] s'] eqn:E; try done.
  split; [done|]. eapply Kind_consumes; [apply Hi|done..].
Qed.

Lemma total_pure {A B} P (d : SM R A) (f : A -> SM R B) :
  total P d -> (forall a s, (exists b, f a s = (Ok b, s)) \/ (exists e, f a s = (Err e, s))) ->
  total P (bind d f).
Proof.
  intros Hd Hf s Hi HP. specialize (Hd s Hi HP). unfold bind.
  destruct (d s) as [[a|e| |] s1]; try done.
  destruct (Hf a s1) as [[b ->]|[e ->]]; [done|apply Hd].
Qed.

Lemma total_map {A B} P (d : SM R A) (f : A -> B) : total P d -> total P (let* x := d in ret (f x)).
Proof. intros Hd. apply total_pure; [done|]. intros a s. left. by exists (f a). Qed.

Lemma total_wrap {A} P typ (d : SM R A) : total P d -> total P (wrap typ d).
Proof.
  intros Hd s Hi HP. specialize (Hd s Hi HP). unfold wrap, map_err.
  by destruct (d s) as [[a|e| |] s1].
Qed.

(** ** The stream operations *)

Hypothesis HL : L + 9 <= maxAlloc.

Lemma Bytes_total P : total P Stream_Bytes.
Proof.
  apply triple_total; [by apply Bytes_triple|apply shrinks_Bytes|]. intros [[] n]; [|destruct (maxAlloc <? n)|]; try done.
  - by intros s a s' [= <- <-].
  - apply disarms_bind_pure; [apply disarms_readFull|]. intros b s. by destruct ((n =? 1) && _).
Qed.

Lemma Raw_total P : total P Stream_Raw.
Proof.
  apply triple_total; [by apply Raw_triple|apply shrinks_Raw|]. intros [k n].
  case_decide; [by intros s a s' [= <- <-]|]. cbv zeta. destruct ((maxAlloc <? _) || _)%bool; [done|].
  apply disarms_bind_pure; [apply disarms_readFull|]. intros b s.
  by destruct (if decide (k = KString) then _ else _) as [[? ?]|].
Qed.

Lemma uint_total P bits : 0 <= bits <= 64 -> total P (Stream_uint bits).
Proof.
  intros Hb. apply triple_total; [by apply uint_triple|apply shrinks_uint|]. intros [[] n]; [| |done].
  - intros s a s' E. destruct (byteval s =? 0); [done|]. by injection E as <- <-.
  - destruct (_ <? n); [done|]. intros s a s' E.
    destruct (readUint (u8 n) s) as [[v|e| |] s1] eqn:Er; try done; [|by destruct e].
    destruct ((0 <? n) && (v <? 128)); [done|]. injection E as <- <-. by eapply disarms_readUint.
Qed.

Lemma Bool_total P : total P Stream_Bool.
Proof.
  apply total_pure; [by apply uint_total|]. intros n s.
  destruct (n =? 0); [left; by eexists|]. destruct (n =? 1); [left|right]; by eexists.
Qed.

Lemma List_total P : total P Stream_List.
Proof.
  apply triple_total; [by apply List_triple|apply shrinks_List|]. intros [k n].
  case_decide; [|done]. by intros s a s' [= <- <-].
Qed.

(** ** Lists *)

(** Everything between opening and closing a list. *)
Lemma in_list_total {A B} P typ (f : Z -> SM R A) (g : SM R unit) (h : A -> B) :
  (forall s, Stream_ListEnd s = g s \/ exists e e' s', Stream_ListEnd s = (Err e, s') /\ g s = (Err e', s')) ->
  (forall n, shrinks (f n)) ->
  (forall n s0, inv L s0 -> P s0 -> returns (fun s => (mu s < mu s0)%nat /\ (left s <= left s0)%nat) (f n)) ->
  total P (let* n := wrap typ Stream_List in let* vs := f n in let* _ := g in ret (h vs)).
Proof.
  intros Hg Hsh Hf s Hi HP. pose proof (total_wrap P typ _ (List_total P) s Hi HP) as Hl.
  pose proof (shrinks_wrap typ _ shrinks_List s) as Hll.
  assert (Hk : forall n s1, wrap typ Stream_List s = (Ok n, s1) -> kind s1 = None).
  { intros n s1 E. unfold wrap, map_err in E. destruct (Stream_List s) as [[m|e| |] s2] eqn:Es; try done.
    injection E as <- <-. unfold Stream_List, bind in Es.
    destruct (Stream_Kind s) as [[[k x]|e| |] s3]; try done. case_decide; [|done]. by injection Es as <- <-. }
  unfold bind at 1. destruct (wrap typ Stream_List s) as [[n|e| |] s1]; try done.
  destruct Hl as [Hi1 Hm1]. specialize (Hk n s1 eq_refl). simpl in Hll.
  specialize (Hf n s Hi HP s1 Hi1 (conj Hm1 Hll)). specialize (Hsh n s1).
  unfold bind at 1. destruct (f n s1) as [[vs|e| |] s2]; try done. simpl in Hsh.
  pose proof (ListEnd_triple L s2 Hf) as He. pose proof (shrinks_ListEnd s2) as Hle.
  unfold bind. destruct (Hg s2) as [Eg|(e & e' & s3 & E1 & E2)].
  - rewrite <- Eg. destruct (Stream_ListEnd s2) as [[[]|e| |] s3] eqn:E3; try done.
    split; [done|]. simpl in Hle. unfold mu in *. rewrite Hk in Hm1.
    assert (kind s3 = None) as ->; [|lia]. unfold Stream_ListEnd in E3.
    destruct (stack s2); [done|]. destruct (negb _); [done|]. by injection E3 as <-.
  - rewrite E2. rewrite E1 in He. exact He.
Qed.

Lemma ListEnd_plain s :
  Stream_ListEnd s = Stream_ListEnd s \/
  exists e e' s', Stream_ListEnd s = (Err e, s') /\ Stream_ListEnd s = (Err e', s').
Proof. by left. Qed.

Lemma ListEnd_wrap typ s :
  Stream_ListEnd s = wrap typ Stream_ListEnd s \/
  exists e e' s', Stream_ListEnd s = (Err e, s') /\ wrap typ Stream_ListEnd s = (Err e', s').
Proof.
  unfold wrap, map_err. destruct (Stream_ListEnd s) as [[[]|e| |] s']; [by left| |by left..].
  right. by exists e, (wrapStreamError e typ), s'.
Qed.

(** The loops.  [P] is kept by every element. *)
Lemma elems_total (P : stream R -> Prop) (d : value -> SM R value) z fuel :
  total P (d z) -> (forall s v s', inv L s -> P s -> d z s = (Ok v, s') -> P s') -> forall acc,
  returns (fun s => P s /\ (mu s < fuel)%nat) (decodeSliceElems fuel z [] acc d).
Proof.
  intros Hd HP. induction fuel as [|fuel IH]; intros acc s Hi [Hs Hm]; [lia|]. simpl.
  specialize (Hd s Hi Hs). specialize (HP s). destruct (d z s) as [[v|e| |] s1]; try done.
  - destruct Hd as [Hi1 Hm1]. apply IH; [done|]. split; [by eapply HP|lia].
  - by destruct e.
Qed.

Lemma array_total (P : stream R -> Prop) typ (d : value -> SM R value) z n :
  total P (d z) -> (forall s v s', inv L s -> P s -> d z s = (Ok v, s') -> P s') -> forall i,
  returns P (decodeArrayElems typ i (replicate n z) d).
Proof.
  intros Hd HP. induction n as [|n IH]; intros i s Hi Hs; simpl; [done|].
  specialize (Hd s Hi Hs). specialize (HP s). destruct (d z s) as [[v|e| |] s1]; try done.
  - destruct Hd as [Hi1 _]. specialize (IH (S i) s1 Hi1 (HP v s1 Hi Hs eq_refl)). unfold bind.
    by destruct (decodeArrayElems typ (S i) (replicate n z) d s1) as [[vs|e| |] s2].
  - by destruct e.
Qed.

Lemma shrinks_elems (d : value -> SM R value) z vals fuel :
  (forall v, shrinks (d v)) -> forall acc, shrinks (decodeSliceElems fuel z vals acc d).
Proof.
  intros Hd. induction fuel as [|fuel IH]; intros acc s; simpl; [done|].
  pose proof (Hd (default z (vals !! length acc)) s) as L1.
  destruct (d (default z (vals !! length acc)) s) as [[v|e| |] s1]; simpl in *; try done.
  - specialize (IH (acc ++ [v]) s1). lia.
  - by destruct e.
Qed.

Lemma shrinks_array typ (d : value -> SM R value) :
  (forall v, shrinks (d v)) -> forall vals i, shrinks (decodeArrayElems typ i vals d).
Proof.
  intros Hd. induction vals as [|v vals IH]; intros i s; simpl; [done|].
  pose proof (Hd v s) as L1. destruct (d v s) as [[v'|e| |] s1]; simpl in *; try done.
  - specialize (IH (S i) s1). unfold bind. destruct (decodeArrayElems typ (S i) vals d s1) as [[vs|e| |] s2]; simpl in *; lia.
  - by destruct e.
Qed.

Lemma shrinks_fields typ fields : forall vals,
  Forall (fun f : nat * (string * (value -> SM R value)) => forall v, shrinks (f.2.2 v)) fields ->
  shrinks (decodeFields typ fields vals).
Proof.
  induction fields as [|[i [nm d]] fields IH]; intros vals Hf s; simpl; [done|].
  apply Forall_cons in Hf as [Hd Hf]. destruct (vals !! i) as [v|]; [|done].
  specialize (Hd v s). simpl in Hd. destruct (d v s) as [[v'|e| |] s1]; simpl in *; try done.
  - specialize (IH (<[i:=v']> vals) Hf s1). lia.
  - by destruct e.
Qed.

(** [decodeListSlice] as a body between opening and closing. *)
Lemma decodeListSlice_eq fuel typ z vals (d : value -> SM R value) s :
  decodeListSlice fuel typ z vals d s =
  (let* n := wrap typ Stream_List in
   let* vs := (if n =? 0 then ret [] else decodeSliceElems fuel z vals [] d) in
   let* _ := Stream_ListEnd in ret vs) s.
Proof.
  unfold decodeListSlice, bind. destruct (wrap typ Stream_List s) as [[n|e| |] s1]; try done.
  by destruct (n =? 0).
Qed.

Lemma total_ext {A} P (d d' : SM R A) : (forall s, d s = d' s) -> total P d' -> total P d.
Proof. intros E Hd s Hi HP. rewrite E. by apply Hd. Qed.

Lemma shrinks_ext {A} (d d' : SM R A) : (forall s, d s = d' s) -> shrinks d' -> shrinks d.
Proof. intros E Hd s. rewrite E. by apply Hd. Qed.

Lemma shrinks_ListSlice fuel typ z vals (d : value -> SM R value) :
  (forall v, shrinks (d v)) -> shrinks (decodeListSlice fuel typ z vals d).
Proof.
  intros Hd. eapply shrinks_ext; [apply decodeListSlice_eq|].
  apply shrinks_bind; [apply shrinks_wrap, shrinks_List|]. intros n.
  apply shrinks_bind; [destruct (n =? 0); [apply shrinks_ret|by apply shrinks_elems]|]. intros vs.
  apply shrinks_bind; [apply shrinks_ListEnd|]. intros _. apply shrinks_ret.
Qed.

Lemma ListSlice_total (P : stream R -> Prop) typ (d : value -> SM R value) z fuel :
  (forall v, shrinks (d v)) ->
  (forall s0, inv L s0 -> P s0 -> exists Q : stream R -> Prop,
    total Q (d z) /\ (forall s v s', inv L s -> Q s -> d z s = (Ok v, s') -> Q s') /\
    forall s, (mu s < mu s0)%nat -> (left s <= left s0)%nat -> Q s /\ (mu s < fuel)%nat) ->
  total P (decodeListSlice fuel typ z [] d).
Proof.
  intros Hsh HQ. eapply total_ext; [apply decodeListSlice_eq|].
  apply (in_list_total P typ _ _ (fun vs => vs)); [apply ListEnd_plain| |].
  - intros n. destruct (n =? 0); [apply shrinks_ret|by apply shrinks_elems].
  - intros n s0 Hi0 HP0. destruct (HQ s0 Hi0 HP0) as (Q & Hd & Hk & Hq). destruct (n =? 0).
    + intros s Hi _. done.
    + intros s Hi [Hm Hl]. apply (elems_total Q d z fuel Hd Hk []); [done|]. by apply Hq.
Qed.

(** ** Interfaces *)

Lemma shrinks_Interface fuel : forall typ n, shrinks (decodeInterface fuel typ n).
Proof.
  induction fuel as [|fuel IH]; intros typ n s; simpl; [done|]. destruct (negb _); [done|].
  revert s. apply shrinks_bind; [apply shrinks_Kind|]. intros [k m]. destruct (decide (k = KList)).
  - apply shrinks_bind; [|intros vs; apply shrinks_ret]. apply shrinks_ListSlice. intros _. apply IH.
  - apply shrinks_bind; [apply shrinks_Bytes|]. intros b. apply shrinks_ret.
Qed.

Lemma Interface_total fuel : forall typ n,
  total (fun s => (mu s < fuel)%nat) (decodeInterface fuel typ n).
Proof.
  induction fuel as [|fuel IH]; intros typ n s Hi Hm; [lia|]. simpl. destruct (negb _); [done|].
  pose proof (Kind_triple L s Hi) as HK. unfold bind at 1.
  destruct (Stream_Kind s) as [[[k m]|e| |] s1] eqn:Ek; try done. destruct HK as (Hi1 & _).
  destruct (Kind_mu s k m s1 (proj1 Hi) Ek) as [Hm1 _].
  assert (Fin : forall d : SM R value, total (fun s => (mu s < S fuel)%nat) d ->
    match d s1 with
    | (Ok _, s') => inv L s' /\ (mu s' < mu s)%nat | (Err _, s') => inv L s' | _ => False end).
  { intros d Hd. assert (Hm1' : (mu s1 < S fuel)%nat) by lia. specialize (Hd s1 Hi1 Hm1').
    destruct (d s1) as [[v|e| |] s2]; try done. split; [apply Hd|]. destruct Hd. lia. }
  destruct (decide (k = KList)); apply Fin.
  - apply (total_map _ _ iface_list), ListSlice_total; [intros _; apply shrinks_Interface|].
    intros s0 Hi0 Hm0. exists (fun s => (mu s < fuel)%nat). split; [apply IH|split].
    + intros s2 v s3 Hi2 Hm2 E. specialize (IH (TInterface 0) 0%nat s2 Hi2 Hm2). rewrite E in IH.
      destruct IH. lia.
    + intros s2 Hm2 _. lia.
  - apply (total_map _ _ iface_bytes), Bytes_total.
Qed.

(** ** Pointers and arrays *)

(** Fuel for the whole input that is left, whatever is cached. *)
Definition budget (fuel : nat) s : Prop := (2 * left s + 1 < fuel)%nat.

Lemma SimplePtr_total P (d : value -> SM R value) z :
  total P (d z) -> total P (decodeSimplePtr z d (VPtr None)).
Proof. apply (total_map P (d z) (fun v => VPtr (Some v))). Qed.

(** A decoder that looks ahead first and then runs [d]. *)
Lemma NilPtr_total (fuel : nat) e nk (d : value -> SM R value) z :
  total (budget fuel) (d z) -> total (budget fuel) (decodeNilPtr e nk z d (VPtr None)).
Proof.
  intros Hd s Hi Hs. pose proof (Kind_triple L s Hi) as HK. pose proof (shrinks_Kind s) as Hl.
  unfold decodeNilPtr, wrap, map_err, bind at 1.
  destruct (Stream_Kind s) as [[[k m]|er| |] s1] eqn:Ek; try done. destruct HK as (Hi1 & Hca & _).
  destruct (Kind_mu s k m s1 (proj1 Hi) Ek) as [Hm1 _]. simpl in Hl.
  destruct (negb _ && _); [case_bool_decide; [|done]|].
  - split.
    + destruct Hi1 as ((Hc & Hu & _) & Hb). split; [by apply idle_ok|done].
    + destruct Hca as (Hk & _). unfold mu in *. simpl. rewrite Hk in Hm1. unfold left in *. simpl. lia.
  - pose proof (SimplePtr_total _ _ _ Hd s1 Hi1 ltac:(unfold budget in *; lia)) as Ht.
    destruct (decodeSimplePtr z d (VPtr None) s1) as [[v|er| |] s2]; try done.
    destruct Ht. split; [done|lia].
Qed.

Lemma ByteArray_total P typ n e : n <> 1 -> is_byte e = true -> 0 <= n < 2 ^ 64 -> total P (decodeByteArray typ n e).
Proof.
  intros H1 He Hn s Hi HP. pose proof (Kind_triple L s Hi) as HK.
  unfold decodeByteArray, bind at 1.
  destruct (Stream_Kind s) as [[[k m]|er| |] s1] eqn:Ek; try done. pose proof HK as (Hi1 & Hca & Hm).
  destruct (Kind_mu s k m s1 (proj1 Hi) Ek) as [Hm1 _]. destruct k; [| |done].
  - destruct (Z.eqb_spec n 0); [done|]. destruct (Z.ltb_spec 1 n); [done|lia].
  - rewrite u64_small by done. destruct (Z.ltb_spec n m); [done|]. destruct (Z.ltb_spec m n); [done|].
    assert (m = n) as -> by lia. rewrite He. cbn [negb].
    pose proof (readFull_triple L KString n n ltac:(lia) ltac:(lia) s1 HK) as Hr.
    pose proof (shrinks_readFull n s1) as Hl. pose proof (disarms_readFull n s1) as Hdis. unfold bind.
    destruct (readFull n s1) as [[bs|er| |] s2]; try done. destruct Hr as [Hi2 _].
    destruct (_ && _); [done|]. split; [done|]. simpl in Hl. specialize (Hdis bs s2 eq_refl).
    destruct Hca as (Hk & _). unfold mu in *. rewrite Hk in Hm1. rewrite Hdis. lia.
Qed.

Lemma ListArray_total (P : stream R -> Prop) typ (d : value -> SM R value) z n :
  (forall v, shrinks (d v)) -> total P (d z) ->
  (forall s s', P s -> (left s' <= left s)%nat -> P s') ->
  total P (decodeListArray typ (replicate n z) d).
Proof.
  intros Hsh Hd HP. apply (in_list_total P typ _ _ (fun vs => vs)); [apply ListEnd_wrap| |].
  - intros _. by apply shrinks_array.
  - intros _ s0 Hi0 H0P s Hi [_ Hl]. apply (array_total P typ d z n Hd); [|done|by eapply HP].
    intros s1 v s2 _ Hs1 E. eapply HP; [done|]. pose proof (Hsh z s1) as Hl2. by rewrite E in Hl2.
Qed.
End Total.

(** ** Types *)

Ltac shrink := intros ?; unfold left; simpl; solve [done|lia].

(** Types without DecodeRLP methods; arrays have a length of type int.  Arrays
    of one byte are excluded: see [decode_byte_array_loops]; and so are the
    defined types that the assertions of the decoder panic on: see
    [decode_defined_panics]. *)
Fixpoint plain_type (t : rtype) : Prop :=
  match t with
  | TUint bits => 0 <= bits <= 64
  | TPtr e | TSlice e => plain_type e
  | TArray n e => Z.of_nat n < 2 ^ 63 /\ (is_uint8 e = true -> n <> 1%nat /\ is_byte e = true) /\ plain_type e
  | TStruct fs => foldr (fun f P => match f with SField _ _ _ t => plain_type t end /\ P) True fs
  | TNamed m u => dec_by_ptr m = false /\ type_literal u = true /\ is_bigint_ptr u = false /\ plain_type u
  | _ => True
  end.

Lemma plain_fields fs : plain_type (TStruct fs) <-> Forall (fun f => plain_type (ftyp f)) fs.
Proof.
  simpl. induction fs as [|[n x tg t] fs IH]; simpl; [by split|]. rewrite IH. by rewrite Forall_cons.
Qed.

Lemma plain_dec_isByte e : plain_type e -> dec_isByte e = is_uint8 e.
Proof.
  intros Hp. unfold dec_isByte. assert (ptr_implements_decoder e = false) as ->.
  { destruct e; try done. by destruct Hp. }
  apply andb_true_r.
Qed.

Lemma plain_zero_array n e :
  plain_type e -> dec_isByte e = false -> elems_of (zero (TArray n e)) = replicate n (zero e).
Proof.
  intros Hp Hd. rewrite plain_dec_isByte in Hd by done. simpl. unfold isByte. by rewrite Hd.
Qed.

Lemma plain_zero_slice e : plain_type e -> dec_isByte e = false -> elems_of (zero (TSlice e)) = [].
Proof.
  intros Hp Hd. rewrite plain_dec_isByte in Hd by done. simpl. unfold isByte. by rewrite Hd.
Qed.

Section Types.
Context {R : Type} `{ReaderLaws R}.
Variables (L : Z) (fuel : nat).
Hypothesis HL : L + 9 <= maxAlloc.
Notation dec := (decode_val (R := R) no_methods fuel).

Lemma shrinks_NilPtr e nk z (d : value -> SM R value) v :
  (forall v, shrinks (d v)) -> shrinks (decodeNilPtr e nk z d v).
Proof.
  intros Hd. apply shrinks_bind; [apply shrinks_wrap, shrinks_Kind|]. intros [k n].
  destruct (negb _ && _); [case_bool_decide; shrink|]. destruct v; try shrink.
  apply shrinks_bind; [apply Hd|]. intros ?. apply shrinks_ret.
Qed.

Lemma shrinks_ByteArray typ n e : shrinks (R := R) (decodeByteArray typ n e).
Proof.
  apply shrinks_bind; [apply shrinks_Kind|]. intros [[] m]; [| |shrink].
  - destruct (n =? 0); [shrink|]. destruct (1 <? n); [shrink|].
    apply shrinks_bind; [|intros ?; apply shrinks_ret]. intros s. unfold uint_or_zero.
    pose proof (shrinks_uint 64 s) as Hl. unfold Stream_Uint.
    by destruct (Stream_uint 64 s) as [[x|er| |] s1].
  - destruct (u64 n <? m); [shrink|]. destruct (m <? u64 n); [shrink|].
    destruct (negb (is_byte e)); [shrink|]. apply shrinks_bind; [apply shrinks_readFull|]. intros bs. destruct (_ && _); shrink.
Qed.

Lemma shrinks_BigInt typ : shrinks (R := R) (decodeBigInt typ).
Proof.
  apply shrinks_bind; [apply shrinks_wrap, shrinks_Bytes|]. intros b. destruct (negb (is_bigint_ptr typ)); [shrink|]. destruct (_ && _); shrink.
Qed.

Lemma fields_shrink typ lp (mk : rtype -> tags -> rlp_error + dplan) fs : forall i l typ' dl,
  Forall (fun f => forall ts d, mk (ftyp f) ts = inr d -> forall v, shrinks (dec d v)) fs ->
  structFields typ lp mk i fs = inr l -> check_fields typ' l = inr dl ->
  Forall (fun ip : nat * dplan => forall v, shrinks (dec ip.2 v)) dl.
Proof.
  induction fs as [|f fs IH]; intros i l typ' dl Hfs Hl Hc; simpl in Hl.
  { injection Hl as <-. by injection Hc as <-. }
  apply Forall_cons in Hfs as [Hf Hfs]. destruct (exported f); [|by eapply IH].
  destruct (parseStructTag typ f i lp) as [|ts]; [done|].
  destruct (structFields typ lp mk (S i) fs) as [|l'] eqn:El; [done|].
  destruct (ignored ts); [injection Hl as <-; by eapply IH|]. injection Hl as <-. simpl in Hc.
  destruct f as [fn ex tg ft]. simpl in *. destruct (mk ft ts) as [|d] eqn:Ed; [done|].
  destruct (check_fields typ' l') as [|dl'] eqn:Ec; [done|]. injection Hc as <-.
  constructor; [by eapply Hf|by eapply IH].
Qed.

Lemma shrinks_type t : forall typ ts d v, decoder_of typ t ts = inr d -> shrinks (dec d v).
Proof.
  induction t as [| | |e IH|b| | |e IH|n e IH|fs IH|n|nm|m u IH] using type_tree_ind;
    intros typ ts d v Hd; simpl in Hd.
  1-3,5-7: injection Hd as <-; simpl; (apply shrinks_bind; [|intros ?; apply shrinks_ret]);
    auto using shrinks_Raw, shrinks_BigInt, shrinks_wrap, shrinks_uint, shrinks_Bool, shrinks_Bytes.
  - unfold makePtrDecoder in Hd. destruct (decoder_of e e no_tags) as [|p] eqn:E; [done|].
    injection Hd as <-. destruct (nilOK ts); simpl.
    + apply shrinks_NilPtr. intros v'. by eapply IH.
    + destruct v; try shrink. apply shrinks_bind; [by eapply IH|]. intros ?. apply shrinks_ret.
  - unfold makeListDecoder in Hd. destruct (dec_isByte e).
    { injection Hd as <-. apply shrinks_bind; [apply shrinks_wrap, shrinks_Bytes|]. intros ?. apply shrinks_ret. }
    destruct (decoder_of e e no_tags) as [|p] eqn:E; [done|]. injection Hd as <-.
    destruct (tail ts); (apply shrinks_bind; [|intros ?; apply shrinks_ret]);
      [apply shrinks_elems|apply shrinks_ListSlice]; intros v'; by eapply IH.
  - unfold makeListDecoder in Hd. destruct (dec_isByte e); [injection Hd as <-; apply shrinks_ByteArray|].
    destruct (decoder_of e e no_tags) as [|p] eqn:E; [done|]. injection Hd as <-.
    apply shrinks_bind; [|intros ?; apply shrinks_ret]. apply shrinks_bind; [apply shrinks_wrap, shrinks_List|].
    intros _. apply shrinks_bind; [apply shrinks_array; intros v'; by eapply IH|]. intros vs.
    apply shrinks_bind; [apply shrinks_wrap, shrinks_ListEnd|]. intros _. apply shrinks_ret.
  - unfold makeStructDecoder in Hd. destruct (structFields _ _ _ _ _) as [|l] eqn:El; [done|].
    destruct (check_fields typ l) as [|dl] eqn:Ec; [done|]. injection Hd as <-.
    apply shrinks_bind; [|intros ?; apply shrinks_ret]. apply shrinks_bind; [apply shrinks_wrap, shrinks_List|].
    intros _. apply shrinks_bind.
    + apply shrinks_fields. rewrite map_map. apply Forall_map. eapply fields_shrink in El; [|..|exact Ec].
      * eapply Forall_impl; [exact El|]. intros [i p]. done.
      * eapply Forall_impl; [exact IH|]. simpl. intros f Hf ts' d' E v'. by eapply Hf.
    + intros vs. apply shrinks_bind; [apply shrinks_wrap, shrinks_ListEnd|]. intros _. apply shrinks_ret.
  - injection Hd as <-. apply shrinks_Interface.
  - done.
  - destruct (negb (is_ptr u) && dec_by_ptr m); [injection Hd as <-; shrink|by eapply IH].
Qed.

(** A compiled decoder returns; unless it is a tail it consumes its value. *)
Definition decoder_total (t : rtype) : Prop := forall typ ts d, decoder_of typ t ts = inr d ->
  plain_type t -> (is_bigint_ptr t = true -> typ = t) ->
  returns L (budget fuel) (dec d (zero t)) /\
  (tail ts = false -> total L (budget fuel) (dec d (zero t))).

Lemma total_both t d (Q : Prop) :
  total L (budget fuel) (dec d (zero t)) ->
  returns L (budget fuel) (dec d (zero t)) /\
  (Q -> total L (budget fuel) (dec d (zero t))).
Proof. intros Ht. split; [by apply total_returns|done]. Qed.

Lemma budget_left (s s' : stream R) : budget fuel s -> (left s' <= left s)%nat -> budget fuel s'.
Proof. unfold budget. lia. Qed.

Lemma budget_mu (s s0 : stream R) :
  budget fuel s0 -> (mu s < mu s0)%nat -> (left s <= left s0)%nat -> budget fuel s /\ (mu s < fuel)%nat.
Proof. unfold budget, mu. destruct (kind s), (kind s0); lia. Qed.

Lemma fields_total typ lp fs : forall i l typ' dl (nm : nat -> string) dn,
  Forall (fun f => decoder_total (ftyp f)) fs -> Forall (fun f => plain_type (ftyp f)) fs ->
  structFields typ lp (fun t ts => decoder_of t t ts) i fs = inr l -> check_fields typ' l = inr dl ->
  length dn = i ->
  returns L (budget fuel) (decodeFields typ (map (fun ip => (ip.1, (nm ip.1, dec ip.2))) dl)
    (dn ++ map (fun f => zero (ftyp f)) fs)).
Proof.
  induction fs as [|f fs IH]; intros i l typ' dl nm dn Hfs Hpl Hl Hc Hdn; simpl in Hl.
  { injection Hl as <-. injection Hc as <-. intros s Hi _. done. }
  apply Forall_cons in Hfs as [Hf Hfs]. apply Forall_cons in Hpl as [Hp Hpl].
  assert (Hskip : forall l' dl', structFields typ lp (fun t ts => decoder_of t t ts) (S i) fs = inr l' ->
    check_fields typ' l' = inr dl' -> forall v,
    returns L (budget fuel) (decodeFields typ (map (fun ip => (ip.1, (nm ip.1, dec ip.2))) dl')
      (dn ++ v :: map (fun f => zero (ftyp f)) fs))).
  { intros l' dl' El Ec v. specialize (IH (S i) l' typ' dl' nm (dn ++ [v]) Hfs Hpl El Ec).
    rewrite <- app_assoc in IH. apply IH. rewrite length_app. simpl. lia. }
  destruct (exported f); [|by eapply Hskip].
  destruct (parseStructTag typ f i lp) as [|ts]; [done|].
  destruct (structFields typ lp _ (S i) fs) as [|l'] eqn:El; [done|].
  destruct (ignored ts); [injection Hl as <-; by eapply Hskip|]. injection Hl as <-. simpl in Hc.
  destruct f as [fn ex tg ft]. simpl in *. destruct (decoder_of ft ft ts) as [|d] eqn:Ed; [done|].
  destruct (check_fields typ' l') as [|dl'] eqn:Ec; [done|]. injection Hc as <-.
  intros s Hi Hs. simpl. rewrite lookup_app_r by lia. replace (i - length dn)%nat with 0%nat by lia. simpl.
  destruct (Hf ft ts d Ed Hp (fun _ => eq_refl)) as [Hr _]. specialize (Hr s Hi Hs).
  pose proof (shrinks_type ft ft ts d (zero ft) Ed s) as Hl.
  destruct (dec d (zero ft) s) as [[v|e| |] s1]; try done; [|by destruct e].
  subst i. rewrite <- (Nat.add_0_r (length dn)), insert_app_r. simpl.
  apply (Hskip l' dl' eq_refl Ec v); [done|]. by eapply budget_left.
Qed.

Lemma total_type t : decoder_total t.
Proof.
  induction t as [| | |e IH|b| | |e IH|n e IH|fs IH|n|nm|m u IH] using type_tree_ind;
    intros typ ts d Hd Hp Hty; simpl in Hd.
  1-3,5-7: injection Hd as <-; apply total_both; simpl.
  - apply (total_map L _ _ VBytes). by apply Raw_total.
  - rewrite (Hty eq_refl). apply (total_map L _ _ (fun i => VBig (Some i))), total_pure; [by apply total_wrap, Bytes_total|].
    intros b s. cbn [is_bigint_ptr negb]. destruct (_ && _); [right|left]; by eexists.
  - apply (total_map L _ _ VInt), total_pure; [by apply total_wrap, Bytes_total|].
    intros b s. cbn [is_bigint_ptr negb]. destruct (_ && _); [right|left]; by eexists.
  - apply (total_map L _ _ VUint), total_wrap. by apply uint_total.
  - apply (total_map L _ _ VBool), total_wrap. by apply Bool_total.
  - apply (total_map L _ _ VBytes), total_wrap. by apply Bytes_total.
  - unfold makePtrDecoder in Hd. destruct (decoder_of e e no_tags) as [|p] eqn:E; [done|].
    injection Hd as <-. apply total_both. destruct (IH e no_tags p E Hp (fun _ => eq_refl)) as [_ He].
    destruct (nilOK ts); simpl; [apply NilPtr_total|apply SimplePtr_total]; auto.
  - unfold makeListDecoder in Hd. destruct (dec_isByte e) eqn:Eb.
    { injection Hd as <-. apply total_both, (total_map L _ _ (bytes_value e)), total_wrap. by apply Bytes_total. }
    destruct (decoder_of e e no_tags) as [|p] eqn:E; [done|]. injection Hd as <-.
    destruct (IH e no_tags p E Hp (fun _ => eq_refl)) as [_ He]. specialize (He eq_refl).
    assert (Hkeep : forall (s : stream R) v s', inv L s -> budget fuel s -> dec p (zero e) s = (Ok v, s') -> budget fuel s').
    { intros s v s' _ Hs Ev. eapply budget_left; [done|].
      pose proof (shrinks_type e e no_tags p (zero e) E s) as Hl. by rewrite Ev in Hl. }
    pose proof (plain_zero_slice e Hp Eb) as Ez. simpl in Ez.
    destruct (tail ts) eqn:Et; [split; [|done]|apply total_both]; simpl; rewrite Ez.
    + intros s Hi Hs. unfold bind.
      assert (Hm : (mu s < fuel)%nat) by (unfold mu, budget in *; destruct (kind s); lia).
      pose proof (elems_total L (budget fuel) (dec p) (zero e) fuel He Hkeep [] s Hi (conj Hs Hm)) as Hr.
      by destruct (decodeSliceElems fuel (zero e) [] [] (dec p) s) as [[vs|er| |] s1].
    + apply (total_map L _ _ (seq_value e)), ListSlice_total; [intros v; by eapply shrinks_type|].
      intros s0 Hi0 Hs0. exists (budget fuel). split; [done|]. split; [done|].
      intros s Hm Hl. by eapply budget_mu.
  - destruct Hp as (Hn & H1 & Hp). unfold makeListDecoder in Hd. destruct (dec_isByte e) eqn:Eb.
    { injection Hd as <-. apply total_both. rewrite plain_dec_isByte in Eb by done. simpl.
      apply ByteArray_total; [destruct (H1 Eb); lia|by destruct (H1 Eb)|lia]. }
    destruct (decoder_of e e no_tags) as [|p] eqn:E; [done|]. injection Hd as <-.
    destruct (IH e no_tags p E Hp (fun _ => eq_refl)) as [_ He]. specialize (He eq_refl). apply total_both.
    pose proof (plain_zero_array n e Hp Eb) as Ez. simpl in Ez |- *. rewrite Ez.
    apply (total_map L _ _ (seq_value e)), ListArray_total; [intros v; by eapply shrinks_type|done|].
    intros s s'. apply budget_left.
  - unfold makeStructDecoder in Hd. destruct (structFields _ _ _ _ _) as [|l] eqn:El; [done|].
    destruct (check_fields typ l) as [|dl] eqn:Ec; [done|]. injection Hd as <-. apply total_both.
    pose proof (zero_struct fs) as Ez. simpl in Ez |- *. rewrite Ez, map_map. simpl.
    apply (total_map L _ _ VStruct). unfold decodeStruct.
    apply (in_list_total L (budget fuel) typ _ _ (fun vs => vs)); [apply ListEnd_wrap| |].
    + intros _. apply shrinks_fields, Forall_map. simpl.
      eapply fields_shrink in El; [|..|exact Ec]; [done|]. apply Forall_forall. intros f _ ts' d' E v.
      by eapply shrinks_type.
    + intros _ s0 Hi0 Hs0 s Hi [_ Hl]. apply plain_fields in Hp.
      apply (fields_total typ (lastPublicField fs) fs 0 l typ dl
        (fun i => match fs !! i with Some f => fname f | None => EmptyString end) []); try done.
      by eapply budget_left.
  - injection Hd as <-. apply total_both. simpl. intros s Hi Hs. apply Interface_total; [done..|].
    unfold mu, budget in *. destruct (kind s); lia.
  - done.
  - destruct Hp as (Hm & _ & Hu & Hp). rewrite Hm, andb_false_r in Hd. eapply IH; [done..|congruence].
Qed.
End Types.

Lemma Reset_inv b pooled :
  pooled_ok pooled -> bytes_ok b -> len b <= maxAlloc -> inv (len b) (Reset b (len b) pooled).
Proof.
  intros Hp Hb Hl. pose proof (Reset_bytes b pooled Hp) as Hf. split.
  - eapply fresh_ok; [|done]. pose proof (len_nonneg b). unfold maxAlloc in Hl.
    split; [done|]. split; [done|]. simpl. unfold u64_ok. lia.
  - destruct Hf as (_ & _ & Hf). unfold cur in Hf. injection Hf as Hf1 Hf2 Hf3.
    unfold bounded. destruct (limited (Reset b (len b) pooled)); [|done]. injection Hf3 as Hf3.
    rewrite Hf2, Hf3. split; [done|]. split; [lia|constructor].
Qed.

(** C31: For every byte slice up to the allocation limit and every target type
    without DecodeRLP methods, without one-byte arrays, without arrays of a
    defined byte type and without defined types of pointers to big.Int,
    DecodeBytes returns a value or an error: it neither panics nor loops, however
    malformed the input is and however deeply it nests. *)
Theorem DecodeBytes_total pooled b t :
  pooled_ok pooled -> bytes_ok b -> len b + 9 <= maxAlloc -> plain_type t ->
  match DecodeBytes no_methods pooled b (Some (TPtr t, VPtr (Some (zero t)))) with
  | Ok _ | Err _ => True
  | Panic | OutOfFuel => False
  end.
Proof.
  intros Hp Hb Hl Ht. unfold DecodeBytes, Stream_Decode. simpl.
  destruct (makeDecoder t no_tags) as [e|d] eqn:Ed; [done|].
  destruct (total_type (R := list Z) (len b) (decode_fuel b) Hl t t no_tags d Ed Ht (fun _ => eq_refl)) as [Hr _].
  specialize (Hr (Reset b (len b) pooled) (Reset_inv b pooled Hp Hb ltac:(lia))).
  assert (Hbud : budget (decode_fuel b) (Reset b (len b) pooled)).
  { unfold budget, left, decode_fuel. destruct (Reset_bytes b pooled Hp) as (_ & _ & Hc).
    unfold cur in Hc. injection Hc as Hc _ _. simpl in Hc |- *. rewrite Hc. lia. }
  specialize (Hr Hbud). unfold map_err.
  destruct (decode_val no_methods (decode_fuel b) d (zero t) (Reset b (len b) pooled)) as [[v|e| |] s];
    try done. by destruct (0 <? len (s_r s)).
Qed.

Definition sample_struct : rtype :=
  TStruct [SField "Nonce" true EmptyString (TUint 64);
           SField "To" true "nil" (TPtr (TArray 20 (TUint 8)));
           SField "Rest" true "tail" (TSlice (TInterface 0))].

Lemma DecodeBytes_total_witness :
  match DecodeBytes no_methods (zero_stream []) [0xC3; 0x05; 0x80; 0xBF]
      (Some (TPtr sample_struct, VPtr (Some (zero sample_struct)))) with
  | Ok _ | Err _ => True
  | Panic | OutOfFuel => False
  end.
Proof.
  apply (DecodeBytes_total (zero_stream []) [0xC3; 0x05; 0x80; 0xBF] sample_struct).
  - by left.
  - repeat constructor; lia.
  - by vm_compute.
  - simpl. repeat split; try done; lia.
Defined.

(** ** A loop without end

    [decodeByteArray] reads a single byte with [Uint] and drops the error.  For
    the byte 0 that error leaves the header cached, so the value is not
    consumed. *)

Definition byte_arrays : rtype := TSlice (TArray 1 (TUint 8)).

Definition decode_one_byte : SM (list Z) value :=
  decodeByteArray (TArray 1 (TUint 8)) 1 (TUint 8).

Lemma Stream_Decode_byte_arrays fuel s :
  Stream_Decode no_methods fuel (Some (TPtr byte_arrays, VPtr (Some (zero byte_arrays)))) s =
  map_err (add_target byte_arrays)
    (let* vs := decodeListSlice fuel byte_arrays (VBytes [0]) [] (fun _ => decode_one_byte) in
     ret (seq_value (TArray 1 (TUint 8)) vs)) s.
Proof. reflexivity. Qed.

(** The stream does not move when the byte ahead is 0. *)
Lemma decode_one_byte_stuck s :
  kind s = Some KByte -> kinderr s = None -> byteval s = 0 ->
  decode_one_byte s = (Ok (VBytes [0]), s).
Proof.
  intros Hk He Hb.
  unfold decode_one_byte, decodeByteArray, uint_or_zero, Stream_Uint, Stream_uint, Stream_Kind, bind.
  rewrite Hk, He. simpl. by rewrite Hk, He, Hb.
Qed.

Lemma byte_arrays_loop fuel s : forall acc,
  kind s = Some KByte -> kinderr s = None -> byteval s = 0 ->
  decodeSliceElems fuel (VBytes [0]) [] acc (fun _ => decode_one_byte) s = (OutOfFuel, s).
Proof.
  induction fuel as [|fuel IH]; intros acc Hk He Hb; [done|].
  simpl. rewrite decode_one_byte_stuck by done. by apply IH.
Qed.

(** The first two steps: open the list, decode the first element. *)
Lemma byte_arrays_start pooled :
  exists s1 s2, Stream_List (Reset [0xC1; 0x00] 2 pooled) = (Ok 1, s1) /\
    decode_one_byte s1 = (Ok (VBytes [0]), s2) /\
    kind s2 = Some KByte /\ kinderr s2 = None /\ byteval s2 = 0.
Proof.
  eexists _, _. split; [vm_compute; reflexivity|]. split; [vm_compute; reflexivity|]. by split.
Qed.

(** Decoding the two-byte input C1 00 into a slice of one-byte arrays never
    ends: whatever the fuel, the loop of decodeSliceElems runs out of it,
    because the element decoder keeps returning the array holding zero without
    advancing the input. *)
Theorem decode_byte_array_loops fuel pooled :
  fst (Stream_Decode no_methods fuel (Some (TPtr byte_arrays, VPtr (Some (zero byte_arrays))))
    (Reset [0xC1; 0x00] 2 pooled)) = OutOfFuel.
Proof.
  rewrite Stream_Decode_byte_arrays. destruct (byte_arrays_start pooled) as (s1 & s2 & E1 & E2 & Hk & He & Hb).
  assert (E : exists s, decodeListSlice fuel byte_arrays (VBytes [0]) [] (fun _ => decode_one_byte)
    (Reset [0xC1; 0x00] 2 pooled) = (OutOfFuel, s)).
  { unfold decodeListSlice. rewrite (bind_ok _ _ _ _ _ (wrap_ok _ _ _ _ _ E1)).
    change (1 =? 0) with false. cbv iota.
    destruct fuel as [|fuel]; [by eexists|]. exists s2. unfold bind. cbn [decodeSliceElems].
    by rewrite E2, byte_arrays_loop. }
  destruct E as (s & E). unfold map_err, bind. by rewrite E.
Qed.

(** ** Panics of the assertions

    The decoder asserts that the slice of an array of bytes is a []byte and that
    a pointer to big.Int has this type; for defined types it has not, although
    the types are accepted when the decoder is made. *)

Definition defined (u : rtype) : rtype := TNamed (Methods 0 false false false) u.

(** Four bytes into an array of a defined byte type, and a number into a defined
    pointer to big.Int, panic, where the encoder writes the array and panics for
    the pointer too. *)
Theorem decode_defined_panics :
  let bytes := TArray 4 (defined (TUint 8)) in
  let big := defined TBigIntPtr in
  EncodeToBytes no_encoders new_encbuf (Some (bytes, VBytes [1; 2; 3; 4])) = Ok [0x84; 1; 2; 3; 4] /\
  DecodeBytes no_methods (zero_stream []) [0x84; 1; 2; 3; 4] (Some (TPtr bytes, VPtr (Some (zero bytes)))) = Panic /\
  EncodeToBytes no_encoders new_encbuf (Some (big, VBig (Some 5))) = Panic /\
  DecodeBytes no_methods (zero_stream []) [5] (Some (TPtr big, VPtr (Some (zero big)))) = Panic.
Proof. by vm_compute. Qed.
