(* ===== verification/Bitutil.v ===== *)
(** * Bulk bit operations (src/common/bitutil/bitutil.go)

    The word-at-a-time versions of XOR, AND, OR and Test are proved equal to
    the byte-at-a-time ones.  A word is the little-endian number its bytes
    denote; the word size is a parameter, as wordSize is in the source.  The
    destination does not overlap the operands. *)

From S2P Require Import Prelude.

(** ** Words in memory *)

Fixpoint le_val (l : list Z) : Z :=
  match l with [] => 0 | b :: l' => b + 256 * le_val l' end.
Fixpoint le_bytes (n : nat) (z : Z) : list Z :=
  match n with O => [] | S k => z mod 256 :: le_bytes k (z / 256) end.

(** [aw[i]] and [dw[i] = w] for a word size of [ws] bytes; [None] is an access
    outside the slice. *)
Definition load (ws i : nat) (l : list Z) : Z := le_val (take ws (drop (ws * i) l)).
Definition store_word (ws i : nat) (w : Z) (l : list Z) : option (list Z) :=
  if (ws * i + ws <=? length l)%nat
  then Some (take (ws * i) l ++ le_bytes ws w ++ drop (ws * i + ws) l) else None.

(** The number of bytes an operation works on. *)
Definition op_len (a b : list Z) : nat :=
  let n := length a in if (length b <? n)%nat then length b else n.

(** ** The loops *)

Section Ops.
Variable op : Z -> Z -> Z.

(** [for i := 0; i < w; i++ { dw[i] = aw[i] op bw[i] }] *)
Fixpoint word_loop (ws k i : nat) (dst a b : list Z) : option (list Z) :=
  match k with
  | O => Some dst
  | S k' =>
      dst' ← store_word ws i (op (load ws i a) (load ws i b)) dst;
      word_loop ws k' (S i) dst' a b
  end.

(** [for ; i < n; i++ { dst[i] = a[i] op b[i] }] *)
Fixpoint byte_loop (k i : nat) (dst a b : list Z) : option (list Z) :=
  match k with
  | O => Some dst
  | S k' =>
      x ← a !! i; y ← b !! i; _ ← dst !! i;
      byte_loop k' (S i) (<[i := op x y]> dst) a b
  end.

Definition fastBytes (ws : nat) (dst a b : list Z) : option (list Z * Z) :=
  let n := op_len a b in
  dst1 ← word_loop ws (n / ws) 0 dst a b;
  let start := (n - n mod ws)%nat in
  dst2 ← byte_loop (n - start) start dst1 a b;
  Some (dst2, Z.of_nat n).

Definition safeBytes (dst a b : list Z) : option (list Z * Z) :=
  let n := op_len a b in
  dst1 ← byte_loop n 0 dst a b;
  Some (dst1, Z.of_nat n).
End Ops.

Definition fastXORBytes := fastBytes Z.lxor.
Definition safeXORBytes := safeBytes Z.lxor.
Definition XORBytes (supportsUnaligned : bool) (ws : nat) (dst a b : list Z) : option (list Z * Z) :=
  if supportsUnaligned then fastXORBytes ws dst a b else safeXORBytes dst a b.

Definition fastANDBytes := fastBytes Z.land.
Definition safeANDBytes := safeBytes Z.land.
Definition ANDBytes (supportsUnaligned : bool) (ws : nat) (dst a b : list Z) : option (list Z * Z) :=
  if supportsUnaligned then fastANDBytes ws dst a b else safeANDBytes dst a b.

Definition fastORBytes := fastBytes Z.lor.
Definition safeORBytes := safeBytes Z.lor.
Definition ORBytes (supportsUnaligned : bool) (ws : nat) (dst a b : list Z) : option (list Z * Z) :=
  if supportsUnaligned then fastORBytes ws dst a b else safeORBytes dst a b.

Fixpoint test_words (ws k i : nat) (p : list Z) : bool :=
  match k with
  | O => false
  | S k' => if negb (load ws i p =? 0) then true else test_words ws k' (S i) p
  end.

Fixpoint test_bytes (k i : nat) (p : list Z) : bool :=
  match k with
  | O => false
  | S k' => if negb (default 0 (p !! i) =? 0) then true else test_bytes k' (S i) p
  end.

Definition fastTestBytes (ws : nat) (p : list Z) : bool :=
  let n := length p in
  let start := (n - n mod ws)%nat in
  if test_words ws (n / ws) 0 p then true else test_bytes (n - start) start p.

Definition safeTestBytes (p : list Z) : bool := test_bytes (length p) 0 p.

Definition TestBytes (supportsUnaligned : bool) (ws : nat) (p : list Z) : bool :=
  if supportsUnaligned then fastTestBytes ws p else safeTestBytes p.

(** ** Words and bytes *)

(** An operation that works bit by bit. *)
Class Bitwise (op : Z -> Z -> Z) : Prop := {
  bit_fun : exists f : bool -> bool -> bool, f false false = false /\
    forall a b n, 0 <= n -> Z.testbit (op a b) n = f (Z.testbit a n) (Z.testbit b n)
}.
#[export] Instance lxor_bitwise : Bitwise Z.lxor.
Proof. split. exists xorb. split; [done|]. intros. apply Z.lxor_spec. Qed.
#[export] Instance land_bitwise : Bitwise Z.land.
Proof. split. exists andb. split; [done|]. intros. apply Z.land_spec. Qed.
#[export] Instance lor_bitwise : Bitwise Z.lor.
Proof. split. exists orb. split; [done|]. intros. apply Z.lor_spec. Qed.

Lemma testbit_cons b v n :
  byte_ok b -> 0 <= n ->
  Z.testbit (b + 256 * v) n = if n <? 8 then Z.testbit b n else Z.testbit v (n - 8).
Proof.
  intros Hb Hn. unfold byte_ok in Hb.
  assert (E : b + 256 * v = Z.lor b (Z.shiftl v 8)).
  { rewrite Z.lor_comm, lor_shiftl_low by lia. rewrite Z.shiftl_mul_pow2 by lia.
    change (2 ^ 8) with 256. lia. }
  rewrite E, Z.lor_spec. destruct (Z.ltb_spec n 8).
  - rewrite Z.shiftl_spec_low by lia. apply orb_false_r.
  - rewrite Z.shiftl_spec by lia. rewrite <- (Z.mod_small b (2 ^ 8)) by done.
    by rewrite Z.mod_pow2_bits_high by lia.
Qed.

Lemma bitwise_byte op `{!Bitwise op} x y : byte_ok x -> byte_ok y -> byte_ok (op x y).
Proof.
  intros Hx Hy. destruct (bit_fun (op := op)) as (f & Hf & Hb).
  assert (E : op x y = (op x y) mod 2 ^ 8).
  { apply Z.bits_inj'. intros n Hn. destruct (Z.ltb_spec n 8).
    - by rewrite Z.mod_pow2_bits_low by lia.
    - rewrite Z.mod_pow2_bits_high, Hb by lia. unfold byte_ok in *.
      rewrite <- (Z.mod_small x (2 ^ 8)), <- (Z.mod_small y (2 ^ 8)) by done.
      by rewrite !Z.mod_pow2_bits_high by lia. }
  rewrite E. unfold byte_ok. apply Z.mod_pos_bound. lia.
Qed.

Lemma op_cons op `{!Bitwise op} x y v w :
  byte_ok x -> byte_ok y -> op (x + 256 * v) (y + 256 * w) = op x y + 256 * op v w.
Proof.
  intros Hx Hy. pose proof (bitwise_byte op x y Hx Hy). destruct (bit_fun (op := op)) as (f & Hf & Hb).
  apply Z.bits_inj'. intros n Hn. rewrite Hb, !testbit_cons by done.
  destruct (Z.ltb_spec n 8); rewrite Hb by lia; done.
Qed.

Lemma op_zero op `{!Bitwise op} : op 0 0 = 0.
Proof.
  destruct (bit_fun (op := op)) as (f & Hf & Hb). apply Z.bits_inj'. intros n Hn.
  by rewrite Hb, !Z.bits_0, Hf by done.
Qed.

(** A word operation works on each of its bytes. *)
Lemma op_le_val op `{!Bitwise op} a : forall b,
  bytes_ok a -> bytes_ok b -> length a = length b ->
  le_bytes (length a) (op (le_val a) (le_val b)) = zip_with op a b.
Proof.
  induction a as [|x a IH]; intros [|y b] Ha Hb Hl; simpl in *; try done.
  apply Forall_cons in Ha as [Hx Ha]. apply Forall_cons in Hb as [Hy Hb].
  rewrite op_cons by done. pose proof (bitwise_byte op x y Hx Hy) as Hxy. unfold byte_ok in Hxy.
  f_equal.
  - rewrite Z.mul_comm, Z_mod_plus_full. by apply Z.mod_small.
  - rewrite <- (IH b) by (done || lia). f_equal.
    rewrite Z.mul_comm, Z_div_plus_full by lia. rewrite Z.div_small by lia. lia.
Qed.

(** ** The loops compute the bytewise operation *)

Section LoopSpecs.
Context (op : Z -> Z -> Z) `{!Bitwise op}.

(** The destination after the first [n] bytes have been written. *)
Definition done_to (n : nat) (dst a b : list Z) : list Z :=
  zip_with op (take n a) (take n b) ++ drop n dst.

Lemma done_to_length n dst a b :
  (n <= length a)%nat -> (n <= length b)%nat -> (n <= length dst)%nat ->
  length (done_to n dst a b) = length dst.
Proof.
  intros. unfold done_to. rewrite length_app, length_zip_with, !length_take, length_drop. lia.
Qed.

Lemma zip_take_length n a b :
  (n <= length a)%nat -> (n <= length b)%nat -> length (zip_with op (take n a) (take n b)) = n.
Proof. intros. rewrite length_zip_with, !length_take. lia. Qed.

Lemma byte_loop_spec k : forall i dst a b,
  (i + k <= length a)%nat -> (i + k <= length b)%nat -> (i + k <= length dst)%nat ->
  byte_loop op k i (done_to i dst a b) a b = Some (done_to (i + k) dst a b).
Proof.
  induction k as [|k IH]; intros i dst a b Ha Hb Hd; simpl; [by rewrite Nat.add_0_r|].
  destruct (lookup_lt_is_Some_2 a i ltac:(lia)) as [x Ex].
  destruct (lookup_lt_is_Some_2 b i ltac:(lia)) as [y Ey].
  destruct (lookup_lt_is_Some_2 (done_to i dst a b) i) as [z Ez]; [rewrite done_to_length; lia|].
  rewrite Ex, Ey. simpl. rewrite Ez. simpl.
  assert (E : <[i := op x y]> (done_to i dst a b) = done_to (S i) dst a b).
  { unfold done_to. rewrite (take_S_r a i x Ex), (take_S_r b i y Ey).
    rewrite zip_with_app by (rewrite !length_take; lia). simpl.
    destruct (lookup_lt_is_Some_2 dst i ltac:(lia)) as [w Ew].
    rewrite (drop_S dst w i Ew). rewrite <- app_assoc. simpl.
    replace i with (length (zip_with op (take i a) (take i b)) + 0)%nat at 1
      by (rewrite zip_take_length; lia).
    by rewrite insert_app_r. }
  rewrite E, IH by lia. f_equal. f_equal. lia.
Qed.

Lemma word_loop_spec ws k : forall i dst a b,
  (0 < ws)%nat -> bytes_ok a -> bytes_ok b ->
  (ws * (i + k) <= length a)%nat -> (ws * (i + k) <= length b)%nat -> (ws * (i + k) <= length dst)%nat ->
  word_loop op ws k i (done_to (ws * i) dst a b) a b = Some (done_to (ws * (i + k)) dst a b).
Proof.
  induction k as [|k IH]; intros i dst a b Hws Hba Hbb Ha Hb Hd; simpl; [by rewrite Nat.add_0_r|].
  assert (Hlen : length (done_to (ws * i) dst a b) = length dst) by (apply done_to_length; nia).
  unfold store_word. rewrite Hlen. destruct (Nat.leb_spec (ws * i + ws) (length dst)); [|nia]. simpl.
  assert (E : take (ws * i) (done_to (ws * i) dst a b) ++
      le_bytes ws (op (load ws i a) (load ws i b)) ++ drop (ws * i + ws) (done_to (ws * i) dst a b) =
    done_to (ws * S i) dst a b).
  { unfold load. set (wa := take ws (drop (ws * i) a)). set (wb := take ws (drop (ws * i) b)).
    assert (La : length wa = ws) by (subst wa; rewrite length_take, length_drop; nia).
    assert (Lb : length wb = ws) by (subst wb; rewrite length_take, length_drop; nia).
    assert (Ew : le_bytes ws (op (le_val wa) (le_val wb)) = zip_with op wa wb).
    { rewrite <- (op_le_val op wa wb); [by rewrite La|by apply bytes_ok_take, bytes_ok_drop..|lia]. }
    rewrite Ew.
    unfold done_to. rewrite take_app_length' by (rewrite zip_take_length; nia).
    rewrite drop_app_ge by (rewrite zip_take_length; nia). rewrite zip_take_length by nia.
    rewrite drop_drop. replace (ws * S i)%nat with (ws * i + ws)%nat by lia.
    rewrite <- !take_take_drop. fold wa wb. rewrite zip_with_app by (rewrite !length_take; nia).
    rewrite <- app_assoc. do 2 f_equal. f_equal. lia. }
  rewrite E, IH by (done || nia). f_equal. f_equal. lia.
Qed.

Lemma op_len_le a b : (op_len a b <= length a)%nat /\ (op_len a b <= length b)%nat.
Proof. unfold op_len. destruct (Nat.ltb_spec (length b) (length a)); lia. Qed.

Lemma done_to_0 dst a b : done_to 0 dst a b = dst.
Proof. done. Qed.

Lemma safeBytes_spec dst a b :
  (op_len a b <= length dst)%nat ->
  safeBytes op dst a b = Some (done_to (op_len a b) dst a b, Z.of_nat (op_len a b)).
Proof.
  intros Hd. destruct (op_len_le a b). unfold safeBytes. rewrite <- (done_to_0 dst a b) at 1.
  by rewrite byte_loop_spec by lia.
Qed.

Lemma fastBytes_spec ws dst a b :
  (0 < ws)%nat -> bytes_ok a -> bytes_ok b -> (op_len a b <= length dst)%nat ->
  fastBytes op ws dst a b = Some (done_to (op_len a b) dst a b, Z.of_nat (op_len a b)).
Proof.
  intros Hws Ha Hb Hd. destruct (op_len_le a b). unfold fastBytes. set (n := op_len a b) in *.
  pose proof (Nat.div_mod n ws ltac:(lia)) as Hdm. pose proof (Nat.mod_upper_bound n ws ltac:(lia)) as Hmod.
  pose proof (word_loop_spec ws (n / ws) 0 dst a b Hws Ha Hb ltac:(simpl; lia) ltac:(simpl; lia) ltac:(simpl; lia)) as W.
  rewrite Nat.mul_0_r, done_to_0, Nat.add_0_l in W. rewrite W. simpl.
  replace (ws * (n / ws))%nat with (n - n mod ws)%nat by lia.
  rewrite byte_loop_spec by lia. simpl. do 3 f_equal. lia.
Qed.
End LoopSpecs.

(** ** Test *)

Lemma le_val_nonneg l : bytes_ok l -> 0 <= le_val l.
Proof. induction 1 as [|b l Hb _ IH]; simpl; [lia|]. unfold byte_ok in Hb. lia. Qed.

Lemma le_val_zero l : bytes_ok l -> le_val l = 0 <-> Forall (fun b => b = 0) l.
Proof.
  induction 1 as [|b l Hb Hl IH]; simpl; [by split|]. pose proof (le_val_nonneg l Hl).
  unfold byte_ok in Hb. rewrite Forall_cons. split.
  - intros E. split; [lia|]. apply IH. lia.
  - intros [-> Hf]. apply IH in Hf. lia.
Qed.

Lemma test_bytes_spec k : forall i p,
  (i + k <= length p)%nat ->
  test_bytes k i p = negb (bool_decide (Forall (fun b => b = 0) (take k (drop i p)))).
Proof.
  induction k as [|k IH]; intros i p Hl; simpl; [done|].
  destruct (lookup_lt_is_Some_2 p i ltac:(lia)) as [x Ex]. rewrite Ex. simpl.
  rewrite (drop_S p x i Ex). simpl. destruct (Z.eqb_spec x 0) as [->|Hx]; simpl.
  - rewrite IH by lia. f_equal. apply bool_decide_ext. rewrite Forall_cons. tauto.
  - rewrite bool_decide_eq_false_2; [done|]. rewrite Forall_cons. tauto.
Qed.

Lemma test_words_spec ws k : forall i p,
  bytes_ok p -> (ws * (i + k) <= length p)%nat ->
  test_words ws k i p = negb (bool_decide (Forall (fun b => b = 0) (take (ws * k) (drop (ws * i) p)))).
Proof.
  induction k as [|k IH]; intros i p Hp Hl; simpl; [by rewrite Nat.mul_0_r|].
  rewrite IH by (done || lia). unfold load.
  pose proof (le_val_zero (take ws (drop (ws * i) p)) ltac:(by apply bytes_ok_take, bytes_ok_drop)) as Hz.
  assert (E : take (ws * S k) (drop (ws * i) p) =
    take ws (drop (ws * i) p) ++ take (ws * k) (drop (ws * S i) p)).
  { replace (ws * S k)%nat with (ws + ws * k)%nat by lia. rewrite <- take_take_drop, drop_drop.
    do 3 f_equal. lia. }
  rewrite E. destruct (Z.eqb_spec (le_val (take ws (drop (ws * i) p))) 0) as [E0|E0]; simpl.
  - f_equal. apply bool_decide_ext. rewrite Forall_app. tauto.
  - rewrite bool_decide_eq_false_2; [done|]. rewrite Forall_app. tauto.
Qed.

(** ** Theorems *)

(** The word-wise XOR, AND and OR equal their bytewise counterparts on every
    input with room for the result, whatever the word size: both write the
    operation of the common prefix of the operands to the front of the
    destination, leave the rest of it alone and return the number of bytes. *)
Theorem fast_ops_equal_safe ws dst a b :
  (0 < ws)%nat -> bytes_ok a -> bytes_ok b -> (length a `min` length b <= length dst)%nat ->
  let n := (length a `min` length b)%nat in
  fastXORBytes ws dst a b = safeXORBytes dst a b /\
  fastANDBytes ws dst a b = safeANDBytes dst a b /\
  fastORBytes ws dst a b = safeORBytes dst a b /\
  forall u, XORBytes u ws dst a b = Some (zip_with Z.lxor a b ++ drop n dst, Z.of_nat n) /\
    ANDBytes u ws dst a b = Some (zip_with Z.land a b ++ drop n dst, Z.of_nat n) /\
    ORBytes u ws dst a b = Some (zip_with Z.lor a b ++ drop n dst, Z.of_nat n).
Proof.
  intros Hws Ha Hb Hd n. assert (En : op_len a b = n).
  { unfold op_len, n. destruct (Nat.ltb_spec (length b) (length a)); lia. }
  assert (G : forall op `{!Bitwise op}, safeBytes op dst a b = Some (zip_with op a b ++ drop n dst, Z.of_nat n) /\
    fastBytes op ws dst a b = Some (zip_with op a b ++ drop n dst, Z.of_nat n)).
  { intros op ?. assert (Ez : zip_with op (take n a) (take n b) = zip_with op a b)
      by (apply zip_with_take_both'; lia).
    rewrite safeBytes_spec, fastBytes_spec by (done || rewrite En; done).
    rewrite En. unfold done_to. rewrite Ez. done. }
  destruct (G Z.lxor _) as [X1 X2], (G Z.land _) as [A1 A2], (G Z.lor _) as [O1 O2].
  unfold fastXORBytes, safeXORBytes, fastANDBytes, safeANDBytes, fastORBytes, safeORBytes.
  rewrite X1, X2, A1, A2, O1, O2. split_and!; try done.
  intros []; unfold XORBytes, ANDBytes, ORBytes, fastXORBytes, safeXORBytes, fastANDBytes,
    safeANDBytes, fastORBytes, safeORBytes; by rewrite ?X1, ?X2, ?A1, ?A2, ?O1, ?O2.
Qed.

Lemma fast_ops_equal_safe_witness :
  fastXORBytes 8 (zeros 10) [1; 2; 3; 4; 5; 6; 7; 8; 9] [255; 0; 255; 0; 255; 0; 255; 0; 1] =
  safeXORBytes (zeros 10) [1; 2; 3; 4; 5; 6; 7; 8; 9] [255; 0; 255; 0; 255; 0; 255; 0; 1].
Proof.
  apply (fast_ops_equal_safe 8 (zeros 10) [1; 2; 3; 4; 5; 6; 7; 8; 9] [255; 0; 255; 0; 255; 0; 255; 0; 1]).
  - lia.
  - repeat constructor; lia.
  - repeat constructor; lia.
  - by vm_compute; lia.
Defined.

(** TestBytes reports a set bit exactly when some byte is not zero, in the
    word-wise and in the bytewise version. *)
Theorem TestBytes_spec u ws p :
  (0 < ws)%nat -> bytes_ok p ->
  TestBytes u ws p = negb (bool_decide (Forall (fun b => b = 0) p)).
Proof.
  intros Hws Hp. unfold TestBytes. destruct u.
  - unfold fastTestBytes. set (n := length p).
    pose proof (Nat.div_mod n ws ltac:(lia)) as Hdm. pose proof (Nat.mod_upper_bound n ws ltac:(lia)) as Hmod.
    rewrite test_words_spec, test_bytes_spec by (fold n; lia || done).
    rewrite Nat.mul_0_r, drop_0. replace (ws * (n / ws))%nat with (n - n mod ws)%nat by lia.
    set (k := (n - n mod ws)%nat). rewrite (take_ge (drop k p)) by (rewrite length_drop; fold n; lia).
    assert (Fp : Forall (fun b => b = 0) p <->
      Forall (fun b => b = 0) (take k p) /\ Forall (fun b => b = 0) (drop k p))
      by (by rewrite <- Forall_app, take_drop).
    rewrite (bool_decide_ext _ _ Fp), bool_decide_and.
    by destruct (bool_decide (Forall _ (take k p))), (bool_decide (Forall _ (drop k p))).
  - unfold safeTestBytes. rewrite test_bytes_spec by lia. by rewrite drop_0, take_ge.
Qed.

Lemma TestBytes_spec_witness : TestBytes true 8 [0; 0; 0; 0; 0; 0; 0; 0; 0; 4] = true.
Proof.
  apply (TestBytes_spec true 8 [0; 0; 0; 0; 0; 0; 0; 0; 0; 4]).
  - lia.
  - repeat constructor; lia.
Defined.
