(* ===== verification/Compress.v ===== *)
(** * Sparse bitset compression (src/common/bitutil/compress.go)

    Compression recursively stores the bitset of the non-zero bytes in front of
    those bytes.  The theorems: compression followed by decompression is the
    identity, decompression terminates without a panic on every input, and what
    the decoder accepts is the compressed form of its result. *)

From S2P Require Import Prelude Bitutil.

Inductive compress_error : Type :=
| errMissingData | errUnreferencedData | errExceededTarget | errZeroContent.

(** ** Encoding *)

(** [nonZeroBitset[i/8] |= 1 << byte(7-i%8)]; the index is always in range. *)
Definition set_bit (i : nat) (bitset : list Z) : list Z :=
  <[(i / 8)%nat := Z.lor (default 0 (bitset !! (i / 8)%nat)) (Z.shiftl 1 (7 - Z.of_nat (i mod 8)))]> bitset.

(** The loop that collects the bitset and the non-zero bytes. *)
Fixpoint gather (i : nat) (data bitset nz : list Z) : list Z * list Z :=
  match data with
  | [] => (bitset, nz)
  | b :: data' =>
      if b =? 0 then gather (S i) data' bitset nz
      else gather (S i) data' (set_bit i bitset) (nz ++ [b])
  end.

(** The recursion is on a bitset an eighth as long; [None] is a fuel of the
    model that is too small. *)
Fixpoint bitsetEncode (fuel : nat) (data : list Z) : option (list Z) :=
  match data with
  | [] => Some []
  | [b] => Some (if b =? 0 then [] else [b])
  | _ =>
      match fuel with
      | O => None
      | S f =>
          let '(bitset, nz) := gather 0 data (replicate ((length data + 7) / 8) 0) [] in
          match nz with
          | [] => Some []
          | _ => rest ← bitsetEncode f bitset; Some (rest ++ nz)
          end
      end
  end.

Definition bitsetEncodeBytes (data : list Z) : option (list Z) := bitsetEncode (length data) data.

Definition CompressBytes (data : list Z) : option (list Z) :=
  out ← bitsetEncodeBytes data;
  Some (if (length out <? length data)%nat then out else data).

(** ** Decoding *)

(** [nonZeroBitset[i/8]&(1<<byte(7-i%8)) != 0] *)
Definition test_bit (i : nat) (bitset : list Z) : bool :=
  negb (Z.land (default 0 (bitset !! (i / 8)%nat)) (Z.shiftl 1 (7 - Z.of_nat (i mod 8))) =? 0).

(** The loop that distributes the non-zero bytes: [k] rounds from bit [i]. *)
Fixpoint scatter (k i : nat) (bitset data decomp : list Z) (ptr : nat)
  : compress_error + (list Z * nat) :=
  match k with
  | O => inr (decomp, ptr)
  | S k' =>
      if test_bit i bitset then
        match data !! ptr with
        | None => inl errMissingData
        | Some b =>
            if (length decomp <=? i)%nat then inl errExceededTarget
            else if b =? 0 then inl errZeroContent
            else scatter k' (S i) bitset data (<[i := b]> decomp) (S ptr)
        end
      else scatter k' (S i) bitset data decomp ptr
  end.

(** [bitsetDecodePartialBytes]: the output and the length of the input it uses. *)
Fixpoint bitsetDecodePartial (fuel : nat) (data : list Z) (target : nat)
  : outcome compress_error (list Z * nat) :=
  match target with
  | O => Ok ([], 0%nat)
  | S t =>
      match data with
      | [] => Ok (replicate target 0, 0%nat)
      | d0 :: _ =>
          match t with
          | O => if d0 =? 0 then Ok ([d0], 0%nat) else Ok ([d0], 1%nat)
          | S _ =>
              match fuel with
              | O => OutOfFuel
              | S f =>
                  let? (bitset, ptr) := bitsetDecodePartial f data ((target + 7) / 8) in
                  match scatter (8 * length bitset) 0 bitset data (replicate target 0) ptr with
                  | inl e => Err e
                  | inr r => Ok r
                  end
              end
          end
      end
  end.

Definition bitsetDecodePartialBytes (data : list Z) (target : nat) := bitsetDecodePartial target data target.

Definition bitsetDecodeBytes (data : list Z) (target : nat) : outcome compress_error (list Z) :=
  let? (out, sz) := bitsetDecodePartialBytes data target in
  if (sz =? length data)%nat then Ok out else Err errUnreferencedData.

Definition DecompressBytes (data : list Z) (target : nat) : outcome compress_error (list Z) :=
  if (target <? length data)%nat then Err errExceededTarget
  else if (length data =? target)%nat then Ok data
  else bitsetDecodeBytes data target.

Example compress_example :
  CompressBytes [0; 0; 7; 0; 0; 0; 0; 0; 0; 9; 0; 0; 0; 0; 0; 0; 0] = Some [192; 32; 64; 7; 9].
Proof. reflexivity. Qed.
Example decompress_example :
  DecompressBytes [192; 32; 64; 7; 9] 17 = Ok [0; 0; 7; 0; 0; 0; 0; 0; 0; 9; 0; 0; 0; 0; 0; 0; 0].
Proof. reflexivity. Qed.

(** ** Bitsets as lists of bits *)

Definition byte_bits (b : Z) : list bool :=
  map (fun k => Z.testbit b (7 - Z.of_nat k)) (seq 0 8).
Definition bits_of (bitset : list Z) : list bool := concat (map byte_bits bitset).

Definition nonzero (b : Z) : bool := negb (b =? 0).
Definition nonzeros (data : list Z) : list Z := filter (fun b => b <> 0) data.

Lemma bits_of_length bitset : length (bits_of bitset) = (8 * length bitset)%nat.
Proof. unfold bits_of. induction bitset as [|b l IH]; simpl; [done|]. rewrite IH. lia. Qed.

Lemma bits_of_lookup bitset i :
  bits_of bitset !! i = (fun b => Z.testbit b (7 - Z.of_nat (i mod 8))) <$> bitset !! (i / 8)%nat.
Proof.
  revert i. induction bitset as [|b l IH]; intros i; [done|].
  change (bits_of (b :: l)) with (byte_bits b ++ bits_of l).
  destruct (decide (i < 8)%nat) as [Hi|Hi].
  - rewrite lookup_app_l by done. rewrite Nat.div_small, Nat.mod_small by done. simpl fmap.
    unfold byte_bits. rewrite lookup_map, lookup_seq_lt by done. done.
  - rewrite lookup_app_r by (simpl; lia). change (length (byte_bits b)) with 8%nat. rewrite IH.
    assert (Em : (i mod 8 = (i - 8) mod 8)%nat).
    { replace i with ((i - 8) + 1 * 8)%nat at 1 by lia. apply Nat.Div0.mod_add. }
    assert (Ed : (i / 8 = S ((i - 8) / 8))%nat).
    { replace i with ((i - 8) + 1 * 8)%nat at 1 by lia. rewrite Nat.div_add by lia. lia. }
    by rewrite Em, Ed.
Qed.

Lemma test_bit_spec i bitset : test_bit i bitset = default false (bits_of bitset !! i).
Proof.
  unfold test_bit. rewrite bits_of_lookup. pose proof (Nat.mod_upper_bound i 8 ltac:(lia)).
  set (k := 7 - Z.of_nat (i mod 8)). assert (0 <= k) by lia.
  destruct (bitset !! (i / 8)%nat) as [b|]; simpl; [|done].
  rewrite Z.shiftl_1_l. destruct (Z.testbit b k) eqn:E.
  - destruct (Z.eqb_spec (Z.land b (2 ^ k)) 0) as [E0|]; [|done].
    assert (Z.testbit (Z.land b (2 ^ k)) k = true) as C by (by rewrite Z.land_spec, E, Z.pow2_bits_true).
    by rewrite E0, Z.bits_0 in C.
  - replace (Z.land b (2 ^ k)) with 0; [done|]. symmetry. apply Z.bits_inj'. intros n Hn.
    rewrite Z.land_spec, Z.bits_0. destruct (decide (n = k)) as [->|]; [by rewrite E|].
    rewrite Z.pow2_bits_false by done. apply andb_false_r.
Qed.

Lemma set_bit_spec i bitset :
  (i < 8 * length bitset)%nat -> bits_of (set_bit i bitset) = <[i := true]> (bits_of bitset).
Proof.
  intros Hi. assert (Hd : (i / 8 < length bitset)%nat) by (apply Nat.Div0.div_lt_upper_bound; lia).
  destruct (lookup_lt_is_Some_2 _ _ Hd) as [b Eb].
  apply list_eq. intros j. rewrite bits_of_lookup. unfold set_bit. rewrite Eb. simpl default.
  pose proof (Nat.mod_upper_bound j 8 ltac:(lia)). pose proof (Nat.mod_upper_bound i 8 ltac:(lia)).
  pose proof (Nat.div_mod i 8 ltac:(lia)). pose proof (Nat.div_mod j 8 ltac:(lia)).
  destruct (decide (j / 8 = i / 8)%nat) as [Ej|Ej].
  - rewrite Ej, list_lookup_insert_eq by done. cbn [fmap option_fmap option_map]. rewrite Z.lor_spec, Z.shiftl_1_l.
    destruct (decide (i = j)) as [->|Hij].
    + rewrite list_lookup_insert_eq by (rewrite bits_of_length; lia).
      by rewrite Z.pow2_bits_true, orb_true_r by lia.
    + rewrite list_lookup_insert_ne by done. rewrite bits_of_lookup, Ej, Eb. cbn [fmap option_fmap option_map].
      rewrite Z.pow2_bits_false by lia. by rewrite orb_false_r.
  - rewrite list_lookup_insert_ne by done. rewrite list_lookup_insert_ne by congruence.
    by rewrite bits_of_lookup.
Qed.

Lemma bits_of_zeros n : bits_of (replicate n 0) = replicate (8 * n) false.
Proof.
  induction n as [|n IH]; [done|].
  change (bits_of (replicate (S n) 0)) with (byte_bits 0 ++ bits_of (replicate n 0)). rewrite IH.
  replace (8 * S n)%nat with (8 + 8 * n)%nat by lia. by rewrite replicate_add.
Qed.

Lemma bits_of_inj a : forall b, bytes_ok a -> bytes_ok b -> bits_of a = bits_of b -> a = b.
Proof.
  induction a as [|x a IH]; intros [|y b] Ha Hb E; try done.
  apply Forall_cons in Ha as [Hx Ha]. apply Forall_cons in Hb as [Hy Hb].
  change (byte_bits x ++ bits_of a = byte_bits y ++ bits_of b) in E.
  apply app_inj_1 in E as [Exy E]; [|done]. f_equal; [|by apply IH].
  unfold byte_bits in Exy. simpl in Exy. injection Exy as E7 E6 E5 E4 E3 E2 E1 E0. unfold byte_ok in *.
  apply Z.bits_inj'. intros n Hn. destruct (Z.ltb_spec n 8).
  - assert (n = 0 \/ n = 1 \/ n = 2 \/ n = 3 \/ n = 4 \/ n = 5 \/ n = 6 \/ n = 7) as C by lia.
    decompose [or] C; subst; done.
  - rewrite <- (Z.mod_small x (2 ^ 8)), <- (Z.mod_small y (2 ^ 8)) by done.
    by rewrite !Z.mod_pow2_bits_high by lia.
Qed.

(** ** The loops *)

Lemma set_bit_length i bitset : length (set_bit i bitset) = length bitset.
Proof. apply length_insert. Qed.

Lemma set_bit_ok i bitset : bytes_ok bitset -> bytes_ok (set_bit i bitset).
Proof.
  intros Hb. apply Forall_insert; [done|]. apply bitwise_byte; [apply _|..].
  - destruct (bitset !! (i / 8)%nat) as [b|] eqn:E; [by apply (Forall_lookup_1 _ _ _ _ Hb E)|done].
  - pose proof (Nat.mod_upper_bound i 8 ltac:(lia)). rewrite Z.shiftl_1_l. unfold byte_ok.
    assert (2 ^ (7 - Z.of_nat (i mod 8)) <= 2 ^ 7) by (apply Z.pow_le_mono_r; lia).
    pose proof (Z.pow_pos_nonneg 2 (7 - Z.of_nat (i mod 8)) ltac:(lia) ltac:(lia)). lia.
Qed.

Lemma nonzeros_cons b data :
  nonzeros (b :: data) = if b =? 0 then nonzeros data else b :: nonzeros data.
Proof.
  unfold nonzeros. destruct (Z.eqb_spec b 0) as [->|Hb].
  - rewrite filter_cons_False; [done|tauto].
  - by rewrite filter_cons_True.
Qed.

Lemma gather_spec data : forall i bitset nz pre suf,
  bits_of bitset = pre ++ replicate (length data) false ++ suf -> length pre = i -> bytes_ok bitset ->
  exists bs, gather i data bitset nz = (bs, nz ++ nonzeros data) /\
    bits_of bs = pre ++ map nonzero data ++ suf /\ bytes_ok bs /\ length bs = length bitset.
Proof.
  induction data as [|b data IH]; intros i bitset nz pre suf Hb Hi Ho; simpl.
  { exists bitset. by rewrite app_nil_r. }
  rewrite nonzeros_cons. unfold nonzero at 1. simpl in Hb.
  destruct (Z.eqb_spec b 0) as [->|Hb0]; simpl.
  - destruct (IH (S i) bitset nz (pre ++ [false]) suf) as (bs & E & B & O & L); [|rewrite length_app; simpl; lia|done|].
    + by rewrite <- app_assoc.
    + exists bs. rewrite <- app_assoc in B. done.
  - assert (Hlt : (i < 8 * length bitset)%nat).
    { rewrite <- bits_of_length, Hb, length_app. simpl. lia. }
    destruct (IH (S i) (set_bit i bitset) (nz ++ [b]) (pre ++ [true]) suf) as (bs & E & B & O & L).
    + rewrite set_bit_spec, Hb by done. subst i. rewrite <- app_assoc.
      rewrite <- (Nat.add_0_r (length pre)), insert_app_r. done.
    + rewrite length_app. simpl. lia.
    + by apply set_bit_ok.
    + exists bs. rewrite E, <- app_assoc. rewrite <- app_assoc in B. rewrite set_bit_length in L. done.
Qed.

(** What the encoder stores for [data]: the bitset has one bit per byte. *)
Lemma gather_bitset data :
  exists bs pad, gather 0 data (replicate ((length data + 7) / 8) 0) [] = (bs, nonzeros data) /\
    bits_of bs = map nonzero data ++ replicate pad false /\ bytes_ok bs /\
    length bs = ((length data + 7) / 8)%nat.
Proof.
  set (n := ((length data + 7) / 8)%nat).
  assert (Hn : (length data <= 8 * n)%nat).
  { pose proof (Nat.div_mod (length data + 7) 8 ltac:(lia)).
    pose proof (Nat.mod_upper_bound (length data + 7) 8 ltac:(lia)). fold n in H. lia. }
  destruct (gather_spec data 0 (replicate n 0) [] [] (replicate (8 * n - length data) false))
    as (bs & E & B & O & L); [| |by apply Forall_replicate|].
  - rewrite bits_of_zeros. simpl. rewrite <- replicate_add. f_equal. lia.
  - done.
  - exists bs, (8 * n - length data)%nat. rewrite length_replicate in L. done.
Qed.

Lemma drop_S_cons {A} (l : list A) i x t : drop i l = x :: t -> l !! i = Some x /\ drop (S i) l = t.
Proof.
  intros E. split.
  - by rewrite <- (Nat.add_0_r i), <- lookup_drop, E.
  - replace (S i) with (i + 1)%nat by lia. by rewrite <- drop_drop, E.
Qed.

Lemma scatter_tail k : forall i bitset data decomp ptr,
  drop i (bits_of bitset) = replicate k false -> scatter k i bitset data decomp ptr = inr (decomp, ptr).
Proof.
  induction k as [|k IH]; intros i bitset data decomp ptr Hb; simpl; [done|].
  apply drop_S_cons in Hb as [E Hb]. rewrite test_bit_spec, E. simpl. by apply IH.
Qed.

Lemma insert_zero dn n b :
  <[length dn := b]> (dn ++ replicate (S n) 0) = (dn ++ [b]) ++ replicate n 0.
Proof.
  rewrite <- (Nat.add_0_r (length dn)), insert_app_r, <- app_assoc. done.
Qed.

Lemma scatter_complete out : forall i bitset data dn ptr pad pre suf,
  drop i (bits_of bitset) = map nonzero out ++ replicate pad false -> length dn = i ->
  data = pre ++ nonzeros out ++ suf -> length pre = ptr ->
  scatter (length out + pad) i bitset data (dn ++ replicate (length out) 0) ptr =
    inr (dn ++ out, (ptr + length (nonzeros out))%nat).
Proof.
  induction out as [|b out IH]; intros i bitset data dn ptr pad pre suf Hb Hdn Hd Hp.
  { rewrite scatter_tail by done. simpl. by rewrite Nat.add_0_r. }
  simpl in Hb. apply drop_S_cons in Hb as [E Hb]. simpl scatter. rewrite test_bit_spec, E. simpl default.
  rewrite nonzeros_cons in Hd |- *. unfold nonzero. destruct (Z.eqb_spec b 0) as [->|Hb0]; simpl negb; cbv iota.
  - specialize (IH (S i) bitset data (dn ++ [0]) ptr pad pre suf Hb). rewrite <- !app_assoc in IH.
    apply IH; [rewrite length_app; simpl; lia|done|done].
  - subst ptr. rewrite Hd at 1. rewrite lookup_app_r by lia. rewrite Nat.sub_diag. simpl lookup. cbv iota.
    change (0 :: replicate (length out) 0) with (replicate (S (length out)) 0).
    destruct (Nat.leb_spec (length (dn ++ replicate (S (length out)) 0)) i) as [C|_].
    { rewrite length_app, length_replicate in C. lia. }
    destruct (Z.eqb_spec b 0); [done|]. subst i. rewrite insert_zero.
    rewrite (IH (S (length dn)) bitset data (dn ++ [b]) (S (length pre)) pad (pre ++ [b]) suf Hb).
    + rewrite <- app_assoc. simpl. do 2 f_equal. lia.
    + rewrite length_app. simpl. lia.
    + rewrite Hd, <- app_assoc. done.
    + rewrite length_app. simpl. lia.
Qed.

(** Past the end of the output only clear bits are accepted. *)
Lemma scatter_end k : forall i bitset data decomp ptr out ptr',
  length (drop i (bits_of bitset)) = k -> (length decomp <= i)%nat ->
  scatter k i bitset data decomp ptr = inr (out, ptr') ->
  drop i (bits_of bitset) = replicate k false /\ out = decomp /\ ptr' = ptr.
Proof.
  induction k as [|k IH]; intros i bitset data decomp ptr out ptr' Hk Hi E; simpl in E.
  { injection E as <- <-. by destruct (drop i (bits_of bitset)). }
  destruct (drop i (bits_of bitset)) as [|x t] eqn:Ed; [done|].
  apply drop_S_cons in Ed as [Ex Ed]. simpl in Hk. rewrite test_bit_spec, Ex in E. simpl in E. destruct x.
  - destruct (data !! ptr); [|done]. destruct (Nat.leb_spec (length decomp) i); [done|lia].
  - destruct (IH (S i) bitset data decomp ptr out ptr') as (Hb & -> & ->);
      [rewrite Ed; lia|lia|done|]. rewrite Ed in Hb. simpl. by rewrite Hb.
Qed.

Lemma scatter_sound k : forall i r bitset data dn ptr out ptr',
  length (drop i (bits_of bitset)) = k -> length dn = i -> (r <= k)%nat -> (ptr <= length data)%nat ->
  scatter k i bitset data (dn ++ replicate r 0) ptr = inr (out, ptr') ->
  exists out', out = dn ++ out' /\ length out' = r /\ (ptr <= ptr' <= length data)%nat /\
    drop i (bits_of bitset) = map nonzero out' ++ replicate (k - r) false /\
    nonzeros out' = take (ptr' - ptr) (drop ptr data).
Proof.
  induction k as [|k IH]; intros i r bitset data dn ptr out ptr' Hk Hdn Hr Hp E.
  { injection E as <- <-. assert (r = 0%nat) as -> by lia. exists []. simpl.
    destruct (drop i (bits_of bitset)); [|done]. rewrite Nat.sub_diag, take_0. split_and!; done || lia. }
  destruct r as [|r].
  { change (replicate 0 0) with (@nil Z) in E. rewrite app_nil_r in E. apply scatter_end in E as (Hb & -> & ->); [|done|lia].
    exists []. rewrite app_nil_r, Hb, Nat.sub_0_r, Nat.sub_diag, take_0. split_and!; done || lia. }
  simpl in E. destruct (drop i (bits_of bitset)) as [|x t] eqn:Ed; [done|].
  apply drop_S_cons in Ed as [Ex Ed]. simpl in Hk. rewrite test_bit_spec, Ex in E. simpl in E.
  assert (Hk' : length (drop (S i) (bits_of bitset)) = k) by (rewrite Ed; lia).
  destruct x.
  - destruct (data !! ptr) as [b|] eqn:Eb; [|done].
    destruct (Nat.leb_spec (length (dn ++ 0 :: replicate r 0)) i) as [|Hi]; [done|].
    destruct (Z.eqb_spec b 0) as [|Hb0]; [done|]. subst i.
    change (0 :: replicate r 0) with (replicate (S r) 0) in E. rewrite insert_zero in E.
    assert (ptr < length data)%nat by (by apply lookup_lt_Some in Eb).
    destruct (IH (S (length dn)) r bitset data (dn ++ [b]) (S ptr) out ptr') as
      (out' & -> & Hl & Hp' & Hbits & Hnz); [done|rewrite length_app; simpl; lia|lia|lia|done|].
    exists (b :: out'). rewrite <- app_assoc. split; [done|]. split; [simpl; lia|].
    split; [lia|]. split.
    + simpl. unfold nonzero at 1. destruct (Z.eqb_spec b 0); [done|]. simpl. f_equal.
      by rewrite <- Ed, Hbits.
    + rewrite nonzeros_cons. destruct (Z.eqb_spec b 0); [done|]. rewrite Hnz.
      rewrite (drop_S data b ptr Eb). replace (ptr' - ptr)%nat with (S (ptr' - S ptr)) by lia. done.
  - assert (E' : scatter k (S i) bitset data ((dn ++ [0]) ++ replicate r 0) ptr = inr (out, ptr')) by (by rewrite <- app_assoc).
    destruct (IH (S i) r bitset data (dn ++ [0]) ptr out ptr') as
      (out' & -> & Hl & Hp' & Hbits & Hnz); [done|rewrite length_app; simpl; lia|lia|lia|done|].
    exists (0 :: out'). rewrite <- app_assoc. split; [done|]. split; [simpl; lia|].
    split; [lia|]. split; [simpl; f_equal; by rewrite <- Ed, Hbits|]. by rewrite nonzeros_cons.
Qed.

(** ** Round trips *)

Lemma half_lt n : (2 <= n -> (n + 7) / 8 < n)%nat.
Proof. intros Hn. apply Nat.Div0.div_lt_upper_bound. lia. Qed.

Lemma nonzeros_nil data : nonzeros data = [] -> data = replicate (length data) 0.
Proof.
  induction data as [|b data IH]; [done|]. rewrite nonzeros_cons. destruct (Z.eqb_spec b 0) as [->|]; [|done].
  intros E. simpl. f_equal. by apply IH.
Qed.

Lemma nonzeros_map_false out pad n : map nonzero out ++ replicate pad false = replicate n false -> nonzeros out = [].
Proof.
  revert n. induction out as [|b out IH]; intros n E; [done|]. destruct n as [|n]; [done|].
  simpl in E. injection E as E1 E. rewrite nonzeros_cons. unfold nonzero in E1.
  destruct (Z.eqb_spec b 0); [|done]. by eapply IH.
Qed.

(** Two or more bytes with a non-zero one among them. *)
Lemma bitsetEncode_step f data :
  (2 <= length data)%nat -> nonzeros data <> [] ->
  exists bs pad, bitsetEncode (S f) data = (rest ← bitsetEncode f bs; Some (rest ++ nonzeros data)) /\
    bits_of bs = map nonzero data ++ replicate pad false /\ bytes_ok bs /\
    length bs = ((length data + 7) / 8)%nat /\ nonzeros bs <> [].
Proof.
  intros Hl Hnz. destruct (gather_bitset data) as (bs & pad & E & B & O & L).
  exists bs, pad. split; [|split; [done|split; [done|split; [done|]]]].
  - destruct data as [|x [|y data]]; simpl in Hl; [lia..|]. cbn [bitsetEncode]. rewrite E.
    by destruct (nonzeros (x :: y :: data)).
  - intros C. apply nonzeros_nil in C. rewrite C, bits_of_zeros in B. symmetry in B.
    by apply nonzeros_map_false in B.
Qed.

Lemma bitsetEncode_zero f data : (length data <= f)%nat -> nonzeros data = [] -> bitsetEncode f data = Some [].
Proof.
  intros Hf Hz. destruct data as [|x [|y data]]; [by destruct f| |].
  - rewrite nonzeros_cons in Hz. destruct f; simpl; by destruct (x =? 0).
  - destruct f as [|f]; [simpl in Hf; lia|]. cbn [bitsetEncode].
    destruct (gather_bitset (x :: y :: data)) as (bs & pad & E & _). by rewrite E, Hz.
Qed.

Lemma decode_encode f : forall data g suf,
  (length data <= f)%nat -> (length data <= g)%nat -> bytes_ok data -> nonzeros data <> [] ->
  exists enc, bitsetEncode f data = Some enc /\ enc <> [] /\
    bitsetDecodePartial g (enc ++ suf) (length data) = Ok (data, length enc).
Proof.
  induction f as [|f IH]; intros data g suf Hf Hg Hb Hnz;
    [destruct data; [done|simpl in Hf; lia]|].
  destruct data as [|x [|y data]]; [done| |].
  { rewrite nonzeros_cons in Hnz. exists [x]. simpl. destruct (Z.eqb_spec x 0); [done|].
    split; [done|]. split; [done|]. destruct g; simpl; by destruct (Z.eqb_spec x 0). }
  set (d := x :: y :: data) in *. destruct (bitsetEncode_step f d ltac:(simpl; lia) Hnz) as
    (bs & pad & E & B & O & L & Hbz).
  pose proof (half_lt (length d) ltac:(simpl; lia)) as Hh.
  destruct g as [|g]; [simpl in Hg; lia|].
  destruct (IH bs g (nonzeros d ++ suf) ltac:(lia) ltac:(lia) O Hbz) as (enc & E1 & Hne & E2).
  exists (enc ++ nonzeros d). rewrite E, E1. split; [done|]. split; [by destruct enc|].
  rewrite <- app_assoc. rewrite L in E2.
  change (bitsetDecodePartial (S g) (enc ++ nonzeros d ++ suf) (length d)) with
    (match enc ++ nonzeros d ++ suf with
     | [] => Ok (replicate (length d) 0, 0%nat)
     | _ :: _ =>
       let? (bitset, ptr) := bitsetDecodePartial g (enc ++ nonzeros d ++ suf) ((length d + 7) / 8) in
       match scatter (8 * length bitset) 0 bitset (enc ++ nonzeros d ++ suf) (replicate (length d) 0) ptr with
       | inl e => Err e | inr r => Ok r end
     end).
  destruct (enc ++ nonzeros d ++ suf) as [|z l] eqn:El; [by destruct enc|]. rewrite <- El in *. rewrite E2. cbn [obind].
  assert (Hk : (8 * length bs)%nat = (length d + pad)%nat).
  { rewrite <- bits_of_length, B, length_app, length_map, length_replicate. done. }
  rewrite Hk. rewrite (scatter_complete d 0 bs _ [] (length enc) pad enc suf); [|by rewrite drop_0|done|done|done].
  simpl app. by rewrite length_app.
Qed.

(** What a decoded bitset and the bytes behind it encode to. *)
Lemma encode_decode_step f bs out data ptr ptr' pad :
  (2 <= length out)%nat -> bytes_ok bs -> length bs = ((length out + 7) / 8)%nat ->
  bits_of bs = map nonzero out ++ replicate pad false ->
  (ptr <= ptr' <= length data)%nat -> nonzeros out = take (ptr' - ptr) (drop ptr data) ->
  bitsetEncode f bs = Some (take ptr data) -> (length bs <= f)%nat ->
  bitsetEncode (S f) out = Some (take ptr' data).
Proof.
  intros Hl Hb Lb Bits Hp Hnz Ebs Hf. destruct (decide (nonzeros out = [])) as [Hz|Hz].
  - assert (E0 : nonzeros bs = []).
    { assert (Eb : bs = replicate (length bs) 0); [|by rewrite Eb; clear; induction (length bs); [|simpl; rewrite nonzeros_cons]].
      apply bits_of_inj; [done|by apply Forall_replicate|]. rewrite bits_of_zeros, Bits.
      apply nonzeros_nil in Hz. rewrite Hz.
      assert (Em : map nonzero (replicate (length out) 0) = replicate (length out) false)
        by (clear; induction (length out); simpl; by f_equal).
      rewrite Em, <- replicate_add. f_equal.
      rewrite <- bits_of_length, Bits, length_app, length_map, length_replicate. done. }
    rewrite bitsetEncode_zero in Ebs by done. injection Ebs as Ebs.
    assert (ptr = 0%nat) as -> by (destruct ptr, data; simpl in *; try done; lia).
    rewrite Hz, drop_0, Nat.sub_0_r in Hnz.
    destruct out as [|x [|y out]]; simpl in Hl; [lia..|]. cbn [bitsetEncode].
    destruct (gather_bitset (x :: y :: out)) as (bs2 & pad2 & E & _). rewrite E, Hz. by rewrite <- Hnz.
  - destruct (bitsetEncode_step f out Hl Hz) as (bs2 & pad2 & E & B2 & O2 & L2 & _).
    assert (bs2 = bs) as ->.
    { apply bits_of_inj; [done..|]. rewrite B2, Bits. do 2 f_equal.
      assert (length (bits_of bs2) = length (bits_of bs)) as El by (rewrite !bits_of_length; lia).
      rewrite B2, Bits, !length_app, !length_replicate in El. lia. }
    rewrite E, Ebs. simpl. f_equal. rewrite Hnz, take_take_drop. f_equal. lia.
Qed.

Lemma nonzeros_replicate t : nonzeros (replicate t 0) = [].
Proof. induction t; [done|]. simpl. by rewrite nonzeros_cons. Qed.

(** The unfolding of the decoder on two or more bytes. *)
Lemma bitsetDecodePartial_step g d0 data t :
  bitsetDecodePartial (S g) (d0 :: data) (S (S t)) =
  (let? (bitset, ptr) := bitsetDecodePartial g (d0 :: data) ((S (S t) + 7) / 8) in
   match scatter (8 * length bitset) 0 bitset (d0 :: data) (replicate (S (S t)) 0) ptr with
   | inl e => Err e | inr r => Ok r end).
Proof. done. Qed.

Definition decodes_to (data : list Z) (target : nat) (out : list Z) (sz : nat) : Prop :=
  length out = target /\ (sz <= length data)%nat /\ bytes_ok out /\
  forall f, (target <= f)%nat -> bitsetEncode f out = Some (take sz data).

Lemma decodes_zeros data target : decodes_to data target (replicate target 0) 0.
Proof.
  split; [apply length_replicate|]. split; [lia|]. split; [by apply Forall_replicate|].
  intros f Hf. rewrite take_0. apply bitsetEncode_zero; [by rewrite length_replicate|apply nonzeros_replicate].
Qed.

Lemma decodes_one d0 data : byte_ok d0 -> d0 <> 0 -> decodes_to (d0 :: data) 1 [d0] 1.
Proof.
  intros Hd Hz. split; [done|]. split; [simpl; lia|]. split; [constructor; [done|constructor]|].
  intros f Hf. destruct f; [lia|]. simpl. by destruct (Z.eqb_spec d0 0).
Qed.

Lemma encode_decode g : forall data target out sz,
  bytes_ok data -> bitsetDecodePartial g data target = Ok (out, sz) -> decodes_to data target out sz.
Proof.
  assert (Base : forall g data target out sz, bytes_ok data -> (target <= 1)%nat \/ data = [] ->
    bitsetDecodePartial g data target = Ok (out, sz) -> decodes_to data target out sz).
  { intros g0 data target out sz Hb Hc E. destruct target as [|t].
    { destruct g0; injection E as <- <-; apply (decodes_zeros data 0). }
    destruct data as [|d0 data]; [destruct g0; injection E as <- <-; apply (decodes_zeros [] (S t))|].
    destruct t as [|t]; [|by destruct Hc; [lia|]]. apply Forall_cons in Hb as [Hb _].
    assert (E' : (if d0 =? 0 then Ok ([d0], 0%nat) else Ok ([d0], 1%nat)) = Ok (E := compress_error) (out, sz))
      by (by destruct g0). clear E.
    destruct (Z.eqb_spec d0 0) as [->|Hd]; injection E' as <- <-;
      [apply (decodes_zeros (0 :: data) 1)|by apply decodes_one]. }
  induction g as [|g IH]; intros data target out sz Hb E;
    (destruct (decide ((target <= 1)%nat \/ data = [])) as [Hc|Hc]; [by eapply Base|]);
    (destruct data as [|d0 data]; [tauto|]); (destruct target as [|[|t]]; [lia..|]); [done|].
  rewrite bitsetDecodePartial_step in E.
  destruct (bitsetDecodePartial g (d0 :: data) ((S (S t) + 7) / 8)) as [[bs ptr]|e| |] eqn:Eb; try done.
  cbn [obind] in E. destruct (IH _ _ _ _ Hb Eb) as (Lb & Hptr & Ob & Eenc).
  destruct (scatter _ _ _ _ _ _) as [e|r] eqn:Es; [done|]. injection E as ->.
  pose proof (half_lt (S (S t)) ltac:(lia)) as Hh.
  assert (Hk : (S (S t) <= 8 * length bs)%nat).
  { rewrite Lb. pose proof (Nat.div_mod (S (S t) + 7) 8 ltac:(lia)).
    pose proof (Nat.mod_upper_bound (S (S t) + 7) 8 ltac:(lia)). lia. }
  destruct (scatter_sound (8 * length bs) 0 (S (S t)) bs (d0 :: data) [] ptr out sz) as
    (out' & -> & Hl & Hp & Bits & Hnz); [by rewrite drop_0, bits_of_length|done|done|done|done|].
  simpl app in *. rewrite drop_0 in Bits. split; [done|]. split; [lia|]. split.
  - apply Forall_forall. intros x Hx. destruct (decide (x = 0)) as [->|Hx0]; [done|].
    assert (x ∈ nonzeros out') as Hin by (by apply list_elem_of_filter).
    rewrite Hnz in Hin. assert (Hseg : bytes_ok (take (sz - ptr) (drop ptr (d0 :: data))))
      by (by apply bytes_ok_take, bytes_ok_drop).
    unfold bytes_ok in Hseg. rewrite Forall_forall in Hseg. by apply Hseg.
  - intros f Hf. destruct f as [|f]; [lia|].
    eapply (encode_decode_step f bs out' (d0 :: data) ptr sz); try done; try lia; [by rewrite Hl|].
    apply Eenc. lia.
Qed.

Lemma decode_total g : forall data target,
  (target <= g)%nat ->
  match bitsetDecodePartial g data target with Ok _ | Err _ => True | _ => False end.
Proof.
  induction g as [|g IH]; intros data target Hg; (destruct target as [|[|t]]; [done| |]);
    (destruct data as [|d0 data]; [done|]); try lia.
  - simpl. by destruct (d0 =? 0).
  - rewrite bitsetDecodePartial_step. pose proof (half_lt (S (S t)) ltac:(lia)).
    specialize (IH (d0 :: data) ((S (S t) + 7) / 8)%nat ltac:(lia)).
    destruct (bitsetDecodePartial g (d0 :: data) ((S (S t) + 7) / 8)) as [[bs ptr]|e| |]; try done.
    cbn [obind]. by destruct (scatter _ _ _ _ _ _).
Qed.

(** ** Theorems *)

(** Decompressing what CompressBytes returns, with the length of the
    original data as the target, gives the original data, for every byte slice;
    CompressBytes terminates and never returns more bytes than it was given. *)
Theorem compress_roundtrip data :
  bytes_ok data ->
  exists comp, CompressBytes data = Some comp /\ (length comp <= length data)%nat /\
    DecompressBytes comp (length data) = Ok data.
Proof.
  intros Hb. unfold CompressBytes, bitsetEncodeBytes.
  assert (G : exists out, bitsetEncode (length data) data = Some out /\
    ((length out < length data)%nat -> bitsetDecodeBytes out (length data) = Ok data)).
  { destruct (decide (nonzeros data = [])) as [Hz|Hz].
    - exists []. split; [by apply bitsetEncode_zero|]. intros Hl. unfold bitsetDecodeBytes, bitsetDecodePartialBytes.
      pose proof (nonzeros_nil data Hz) as Ed. destruct (length data) as [|n] eqn:En; [simpl in Hl; lia|].
      simpl. by rewrite Ed.
    - destruct (decode_encode (length data) data (length data) [] ltac:(lia) ltac:(lia) Hb Hz) as (enc & E & _ & D).
      exists enc. split; [done|]. intros _. unfold bitsetDecodeBytes, bitsetDecodePartialBytes.
      rewrite app_nil_r in D. rewrite D. simpl. by rewrite Nat.eqb_refl. }
  destruct G as (out & -> & G). simpl. eexists. split; [done|]. unfold DecompressBytes.
  destruct (Nat.ltb_spec (length out) (length data)).
  - split; [lia|]. destruct (Nat.ltb_spec (length data) (length out)); [lia|].
    destruct (Nat.eqb_spec (length out) (length data)); [lia|]. by apply G.
  - split; [lia|]. by rewrite Nat.ltb_irrefl, Nat.eqb_refl.
Qed.

Lemma compress_roundtrip_witness :
  exists comp, CompressBytes [0; 0; 0; 5; 0; 0; 0; 0; 255] = Some comp /\ (length comp <= 9)%nat /\
    DecompressBytes comp 9 = Ok [0; 0; 0; 5; 0; 0; 0; 0; 255].
Proof. apply (compress_roundtrip [0; 0; 0; 5; 0; 0; 0; 0; 255]). repeat constructor; lia. Defined.

(** The bitset decoder is total and exact: on every input and target it
    returns an output or an error, and an accepted input is the bitset encoding
    of the output, which has the target's length.  So every output has one
    accepted compressed form. *)
Theorem bitset_decode_exact data target :
  bytes_ok data ->
  match bitsetDecodeBytes data target with
  | Ok out => length out = target /\ bitsetEncodeBytes out = Some data
  | Err _ => True
  | Panic | OutOfFuel => False
  end.
Proof.
  intros Hb. unfold bitsetDecodeBytes, bitsetDecodePartialBytes, bitsetEncodeBytes.
  pose proof (decode_total target data target ltac:(lia)) as Ht.
  destruct (bitsetDecodePartial target data target) as [[out sz]|e| |] eqn:E; try done. simpl.
  destruct (Nat.eqb_spec sz (length data)) as [->|]; [|done].
  destruct (encode_decode target data target out (length data) Hb E) as (<- & _ & _ & Ee).
  split; [done|]. by rewrite Ee, firstn_all by lia.
Qed.

Lemma bitset_decode_exact_witness :
  match bitsetDecodeBytes [192; 32; 64; 7; 9] 17 with
  | Ok out => length out = 17%nat /\ bitsetEncodeBytes out = Some [192; 32; 64; 7; 9]
  | Err _ => True
  | Panic | OutOfFuel => False
  end.
Proof. apply (bitset_decode_exact [192; 32; 64; 7; 9] 17). repeat constructor; lia. Defined.
