(* ===== verification/GoText.v ===== *)
(** * Text conversions of the Go standard library

    The routines of encoding/hex, strconv, fmt and math/big that the hex and
    number packages call, on byte lists: hex.Encode, hex.Decode (which returns
    the decoded prefix together with its error), strconv.ParseUint,
    strconv.AppendUint, the %#x verb and big.Int.SetString.  The lemmas relate
    them to the digits of a number. *)

From stdpp Require Import list strings.
From Stdlib Require Export Ascii.
From S2P Require Import Prelude.

(** ** Characters *)

Definition chr (c : Ascii.ascii) : Z := Z.of_N (Ascii.N_of_ascii c).
Arguments chr c%_char_scope.
(** A Go string as its bytes. *)
Definition str (s : string) : list Z := map chr (String.list_ascii_of_string s).

Definition digit_char (d : Z) : Z := if d <? 10 then 48 + d else 87 + d.
Definition lower (c : Z) : Z := if (65 <=? c) && (c <=? 90) then c + 32 else c.

(** The value of a digit or letter, as strconv and math/big read it. *)
Definition digit_val (base c : Z) : option Z :=
  let d := if (48 <=? c) && (c <=? 57) then Some (c - 48)
           else if (97 <=? lower c) && (lower c <=? 122) then Some (lower c - 87)
           else None in
  match d with Some d => if d <? base then Some d else None | None => None end.

(** ** encoding/hex *)

Inductive hex_error : Type :=
| InvalidByteError (c : Z)
| ErrLength.

Definition fromHexChar (c : Z) : option Z :=
  if (48 <=? c) && (c <=? 57) then Some (c - 48)
  else if (97 <=? c) && (c <=? 102) then Some (c - 97 + 10)
  else if (65 <=? c) && (c <=? 70) then Some (c - 65 + 10)
  else None.

Definition hex_Encode (src : list Z) : list Z :=
  concat (map (fun v => [digit_char (Z.shiftr v 4); digit_char (Z.land v 15)]) src).

(** The decoded prefix and the error of hex.Decode and hex.DecodeString. *)
Fixpoint hex_Decode (src : list Z) : list Z * option hex_error :=
  match src with
  | [] => ([], None)
  | [c] => match fromHexChar c with
           | None => ([], Some (InvalidByteError c))
           | Some _ => ([], Some ErrLength)
           end
  | c :: d :: rest =>
      match fromHexChar c with
      | None => ([], Some (InvalidByteError c))
      | Some a =>
          match fromHexChar d with
          | None => ([], Some (InvalidByteError d))
          | Some b => let '(out, err) := hex_Decode rest in (Z.lor (Z.shiftl a 4) b :: out, err)
          end
      end
  end.

(** ** strconv *)

Inductive num_error : Type :=
| NumSyntax
| NumRange.

(** The digit loop of ParseUint with a bit size of 64 and an explicit base. *)
Fixpoint ParseUint_loop (base n : Z) (s : list Z) : Z * option num_error :=
  match s with
  | [] => (n, None)
  | c :: s =>
      match digit_val base c with
      | None => (0, Some NumSyntax)
      | Some d =>
          if (2 ^ 64 - 1) / base + 1 <=? n then (2 ^ 64 - 1, Some NumRange)
          else let n := u64 (n * base) in
               let n1 := u64 (n + d) in
               if (n1 <? n) then (2 ^ 64 - 1, Some NumRange)
               else ParseUint_loop base n1 s
      end
  end.

Definition ParseUint (s : list Z) (base : Z) : Z * option num_error :=
  match s with [] => (0, Some NumSyntax) | _ => ParseUint_loop base 0 s end.

(** The digits of formatBits and of big.Int's conversion to text. *)
Fixpoint fmt_loop (fuel : nat) (base u : Z) (a : list Z) : list Z :=
  match fuel with
  | O => a
  | S f => if u <? base then digit_char u :: a
           else fmt_loop f base (u / base) (digit_char (u mod base) :: a)
  end.
Definition FormatUint (u base : Z) : list Z := fmt_loop (S (Z.to_nat (bit_len u))) base u [].
Definition AppendUint (dst : list Z) (u base : Z) : list Z := dst ++ FormatUint u base.

(** fmt.Sprintf of a big.Int or a uint64 with the verb %#x. *)
Definition Sprintf_x (x : Z) : list Z :=
  (if x <? 0 then str "-" else []) ++ str "0x" ++ FormatUint (Z.abs x) 16.

(** ** math/big *)

(** big.Int.SetString with an explicit base up to 36: an optional sign, then
    one or more digits and nothing else. *)
Definition big_SetString (s : list Z) (base : Z) : option Z :=
  let '(neg, ds) := match s with
                    | c :: r => if c =? 45 then (true, r) else if c =? 43 then (false, r) else (false, s)
                    | [] => (false, s)
                    end in
  match ds with
  | [] => None
  | _ => match mapM (digit_val base) ds with
         | Some l => let v := foldl (fun acc d => acc * base + d) 0 l in Some (if neg then - v else v)
         | None => None
         end
  end.

(** ** Digits and the numbers they denote *)

Definition num_val (base : Z) (ds : list Z) : Z := foldl (fun acc d => acc * base + d) 0 ds.
Definition digits_ok (base : Z) (ds : list Z) : Prop := Forall (fun d => 0 <= d < base) ds.
(** No digits, or a leading zero before others, are not canonical. *)
Definition canonical (ds : list Z) : Prop :=
  match ds with [] => False | [_] => True | d :: _ => d <> 0 end.
Definition digits_of (base : Z) (s : list Z) : option (list Z) := mapM (digit_val base) s.

Section digits.
  Context (base : Z) (Hbase : 2 <= base).

Lemma num_val_snoc ds d : num_val base (ds ++ [d]) = num_val base ds * base + d.
Proof. unfold num_val. by rewrite foldl_app. Qed.

Lemma foldl_num_val acc ds :
  foldl (fun a d => a * base + d) acc ds = acc * base ^ len ds + num_val base ds.
Proof.
  unfold num_val. revert acc. induction ds as [|d ds IH]; intros acc; simpl.
  - rewrite len_nil. lia.
  - rewrite IH, (IH (0 * base + d)), len_cons, Z.pow_add_r by (pose proof (len_nonneg ds); lia). lia.
Qed.

Lemma num_val_app a b : num_val base (a ++ b) = num_val base a * base ^ len b + num_val base b.
Proof. unfold num_val at 1. by rewrite foldl_app, foldl_num_val. Qed.

Lemma num_val_cons d ds : num_val base (d :: ds) = d * base ^ len ds + num_val base ds.
Proof. unfold num_val at 1. simpl. rewrite foldl_num_val. lia. Qed.

Lemma num_val_bound ds : digits_ok base ds -> 0 <= num_val base ds < base ^ len ds.
Proof.
  induction ds as [|d ds IH]; intros H; [done|]. apply Forall_cons in H as [Hd Hl]. specialize (IH Hl).
  rewrite num_val_cons, len_cons, Z.pow_add_r by (pose proof (len_nonneg ds); lia). nia.
Qed.

Lemma num_val_lower d ds : digits_ok base (d :: ds) -> d <> 0 -> base ^ len ds <= num_val base (d :: ds).
Proof.
  intros H Hd. apply Forall_cons in H as [Hr Hl]. pose proof (num_val_bound ds Hl).
  rewrite num_val_cons. nia.
Qed.

Lemma canonical_snoc l d : l <> [] -> canonical (l ++ [d]) -> canonical l /\ head l <> Some 0.
Proof. destruct l as [|x [|y l]]; [done| |]; simpl; intros _ H; (split; [done|congruence]). Qed.

Lemma fmt_loop_digits ds : forall f a,
  digits_ok base ds -> canonical ds -> (length ds <= f)%nat ->
  fmt_loop f base (num_val base ds) a = map digit_char ds ++ a.
Proof.
  induction ds as [|d l IH] using rev_ind; intros f a Hd Hc Hf; [done|].
  rewrite length_app in Hf. simpl in Hf. destruct f as [|f]; [lia|].
  apply Forall_app in Hd as [Hl Hd]. apply Forall_cons in Hd as [Hd _].
  destruct (decide (l = [])) as [->|Hne].
  - simpl. unfold num_val. simpl. by bprop.
  - destruct (canonical_snoc l d Hne Hc) as [Hcl Hh].
    assert (1 <= num_val base l).
    { destruct l as [|x l]; [done|]. assert (x <> 0) by (simpl in Hh; congruence).
      pose proof (num_val_lower x l Hl ltac:(done)).
      assert (0 < base ^ len l) by (apply Z.pow_pos_nonneg; [lia|apply len_nonneg]). lia. }
    rewrite num_val_snoc. simpl. destruct (Z.ltb_spec (num_val base l * base + d) base); [nia|].
    rewrite Z.div_add_l, Z.div_small, Z.add_0_r, IH by (done || lia).
    rewrite Z.add_comm, Z.mod_add, Z.mod_small by lia.
    by rewrite map_app, <- app_assoc.
Qed.

Lemma length_le_bit_len ds :
  digits_ok base ds -> canonical ds -> (length ds <= S (Z.to_nat (bit_len (num_val base ds))))%nat.
Proof.
  intros Hd Hc. destruct ds as [|d ds]; [simpl; lia|]. destruct ds as [|e ds]; [simpl; lia|].
  simpl in Hc. pose proof (num_val_lower d (e :: ds) Hd Hc) as H.
  set (v := num_val base (d :: e :: ds)) in *. pose proof (len_nonneg (e :: ds)).
  assert (2 ^ len (e :: ds) <= v) as H2 by (apply (Z.le_trans _ (base ^ len (e :: ds))); [apply Z.pow_le_mono_l; lia|done]).
  assert (0 < 2 ^ len (e :: ds)) by (apply Z.pow_pos_nonneg; lia).
  apply Z.log2_le_pow2 in H2; [|lia]. unfold bit_len. destruct (Z.eqb_spec v 0); [lia|].
  rewrite Z.abs_eq by lia. unfold len in *. simpl in *. lia.
Qed.

(** Formatting a number gives its canonical digits. *)
Lemma FormatUint_digits ds :
  digits_ok base ds -> canonical ds -> FormatUint (num_val base ds) base = map digit_char ds.
Proof.
  intros Hd Hc. unfold FormatUint. rewrite fmt_loop_digits by (done || by apply length_le_bit_len).
  by rewrite app_nil_r.
Qed.

Lemma fmt_loop_spec f : forall u a,
  0 <= u < 2 ^ Z.of_nat f -> (1 <= f)%nat ->
  exists ds, fmt_loop f base u a = map digit_char ds ++ a /\ digits_ok base ds /\
    canonical ds /\ num_val base ds = u.
Proof.
  induction f as [|f IH]; intros u a Hu Hf; [lia|]. simpl. destruct (Z.ltb_spec u base) as [Hl|Hl].
  - exists [u]. split; [done|]. split; [constructor; [lia|constructor]|]. split; [done|]. unfold num_val. simpl. lia.
  - rewrite Nat2Z.inj_succ, Z.pow_succ_r in Hu by lia.
    destruct (decide (f = 0%nat)) as [->|Hf0]; [simpl in Hu; lia|].
    pose proof (Z.div_mod u base ltac:(lia)) as D. pose proof (Z.mod_pos_bound u base ltac:(lia)).
    assert (0 < u / base) by (apply Z.div_str_pos; lia).
    destruct (IH (u / base) (digit_char (u mod base) :: a)) as (ds & -> & Hd & Hc & Hv); [nia|lia|].
    exists (ds ++ [u mod base]). split; [by rewrite map_app, <- app_assoc|].
    split; [apply Forall_app; split; [done|constructor; [lia|constructor]]|]. split.
    + destruct ds as [|x ds]; [done|]. assert (x <> 0).
      { intros ->. destruct ds; [unfold num_val in Hv; simpl in Hv; lia|]. by simpl in Hc. }
      by destruct ds.
    + rewrite num_val_snoc, Hv. lia.
Qed.

Lemma FormatUint_spec u :
  0 <= u -> exists ds, FormatUint u base = map digit_char ds /\ digits_ok base ds /\ canonical ds /\ num_val base ds = u.
Proof.
  intros Hu. unfold FormatUint. edestruct (fmt_loop_spec (S (Z.to_nat (bit_len u))) u []) as (ds & E & H); [|lia|].
  - split; [done|]. unfold bit_len. destruct (Z.eqb_spec u 0) as [->|]; [done|]. rewrite Z.abs_eq by done.
    pose proof (Z.log2_nonneg u). destruct (Z.log2_spec u) as [_ Hh]; [lia|].
    eapply Z.lt_le_trans; [done|]. apply Z.pow_le_mono_r; lia.
  - exists ds. by rewrite app_nil_r in E.
Qed.

End digits.

(** ** Reading digits back *)

Lemma lower_digit base c d :
  base <= 36 -> (digit_val base c = Some d <-> lower c = digit_char d /\ 0 <= d < base).
Proof.
  intros Hb. unfold digit_val, lower, digit_char.
  destruct (Z.leb_spec 48 c), (Z.leb_spec c 57), (Z.leb_spec 65 c), (Z.leb_spec c 90); simpl; try lia;
  repeat match goal with |- context [(?a <=? ?b)] => destruct (Z.leb_spec a b); simpl
    | |- context [(?a <? ?b)] => destruct (Z.ltb_spec a b); simpl end; try lia;
  (split; [intros [=]; subst|intros []; subst; try f_equal]); try lia.
Qed.

(** Reading hexadecimal digits undoes writing them, up to the case of letters. *)
Lemma digits_of_lower base s ds :
  base <= 36 -> (digits_of base s = Some ds <-> map lower s = map digit_char ds /\ digits_ok base ds).
Proof.
  intros Hb. unfold digits_of. rewrite mapM_Some. revert ds.
  induction s as [|c s IH]; intros ds.
  - split; [intros H; inversion H; by split; [|constructor]|intros [E _]; by destruct ds].
  - destruct ds as [|d ds]; simpl.
    + split; [intros H; inversion H|by intros []].
    + split.
      * intros H. inversion H as [|? ? ? ? H1 H2]; subst. apply lower_digit in H1 as [H1 H1']; [|done].
        apply IH in H2 as [H2 H2']. split; [by f_equal|by constructor].
      * intros [E Hd]. injection E as E1 E2. apply Forall_cons in Hd as [Hd Hds].
        constructor; [by apply lower_digit|]. apply IH. done.
Qed.

Lemma digits_of_char base ds : base <= 36 -> digits_ok base ds -> digits_of base (map digit_char ds) = Some ds.
Proof.
  intros Hb Hd. apply digits_of_lower; [done|]. split; [|done].
  induction Hd as [|d ds Hd Hds IH]; [done|]. simpl. rewrite IH. f_equal.
  unfold lower, digit_char. bprop.
Qed.

Lemma digits_of_cons base c s ds :
  digits_of base (c :: s) = Some ds -> exists d r, ds = d :: r /\ digit_val base c = Some d /\ digits_of base s = Some r.
Proof.
  unfold digits_of. simpl. destruct (digit_val base c); [|done]. simpl.
  destruct (mapM (digit_val base) s); [|done]. intros [= <-]. eauto.
Qed.

Lemma digit_val_range base c d : base <= 36 -> digit_val base c = Some d -> 0 <= d < base.
Proof. intros Hb H. by apply lower_digit in H as [_ H]. Qed.

(** ** ParseUint *)

Definition parse_result (v : Z) : Z * option num_error :=
  if v <? 2 ^ 64 then (v, None) else (2 ^ 64 - 1, Some NumRange).

Section parse.
  Context (base : Z) (Hbase : 2 <= base <= 36).

Lemma ParseUint_loop_spec s : forall ds n,
  u64_ok n -> digits_of base s = Some ds ->
  ParseUint_loop base n s = parse_result (n * base ^ len ds + num_val base ds).
Proof.
  unfold parse_result. induction s as [|c s IH]; intros ds n Hn E.
  - injection E as <-. simpl. unfold u64_ok in Hn. change (num_val base []) with 0.
    rewrite len_nil, Z.pow_0_r, Z.mul_1_r, Z.add_0_r. bprop. done.
  - apply digits_of_cons in E as (d & r & -> & Ed & Er).
    pose proof (digit_val_range base c d ltac:(lia) Ed) as Hd.
    assert (Hr : digits_ok base r) by (by apply digits_of_lower in Er as [_ ?]; [|lia]).
    pose proof (num_val_bound base ltac:(lia) r Hr) as Hv. pose proof (len_nonneg r).
    assert (Hp : 0 < base ^ len r) by (apply Z.pow_pos_nonneg; lia).
    simpl ParseUint_loop. rewrite Ed, num_val_cons, len_cons, Z.pow_add_r, Z.pow_1_r by lia.
    replace (n * (base * base ^ len r) + (d * base ^ len r + num_val base r))
      with ((n * base + d) * base ^ len r + num_val base r) by lia.
    pose proof (Z.div_mod (2 ^ 64 - 1) base ltac:(lia)) as D.
    pose proof (Z.mod_pos_bound (2 ^ 64 - 1) base ltac:(lia)) as M.
    set (q := (2 ^ 64 - 1) / base) in *. set (m := (2 ^ 64 - 1) mod base) in *. clearbody q m.
    unfold u64_ok in Hn.
    destruct (Z.leb_spec (q + 1) n).
    { assert ((q + 1) * base <= n * base) by (apply Z.mul_le_mono_nonneg_r; lia).
      pose proof (Z.mul_le_mono_nonneg_l 1 (base ^ len r) (n * base + d) ltac:(lia) ltac:(lia)).
      destruct (Z.ltb_spec ((n * base + d) * base ^ len r + num_val base r) (2 ^ 64)); [lia|done]. }
    assert (n * base <= q * base) by (apply Z.mul_le_mono_nonneg_r; lia).
    assert (0 <= n * base < 2 ^ 64) by (split; [apply Z.mul_nonneg_nonneg|]; lia). rewrite (u64_small (n * base)) by (unfold u64_ok; lia).
    destruct (Z.ltb_spec (n * base + d) (2 ^ 64)).
    + rewrite (u64_small (n * base + d)) by (unfold u64_ok; lia).
      destruct (Z.ltb_spec (n * base + d) (n * base)); [lia|]. apply IH; [unfold u64_ok; lia|done].
    + assert (u64 (n * base + d) = n * base + d - 2 ^ 64) as ->.
      { unfold u64. symmetry. apply Z.mod_unique with 1; lia. }
      destruct (Z.ltb_spec (n * base + d - 2 ^ 64) (n * base)); [|lia].
      pose proof (Z.mul_le_mono_nonneg_l 1 (base ^ len r) (n * base + d) ltac:(lia) ltac:(lia)).
      destruct (Z.ltb_spec ((n * base + d) * base ^ len r + num_val base r) (2 ^ 64)); [lia|done].
Qed.

Lemma ParseUint_loop_bad s : forall n,
  digits_of base s = None -> exists v e, ParseUint_loop base n s = (v, Some e).
Proof.
  induction s as [|c s IH]; intros n E; [done|]. unfold digits_of in *. simpl in *.
  destruct (digit_val base c) as [d|]; [|eauto]. simpl in E.
  destruct (mapM (digit_val base) s) eqn:Es; [done|].
  repeat case_match; eauto.
Qed.

(** ParseUint succeeds exactly on one or more digits of a 64-bit number. *)
Lemma ParseUint_ok s v :
  ParseUint s base = (v, None) <->
  s <> [] /\ exists ds, digits_of base s = Some ds /\ num_val base ds = v /\ v < 2 ^ 64.
Proof.
  unfold ParseUint. destruct s as [|c s]; [split; [done|by intros []]|].
  destruct (digits_of base (c :: s)) as [ds|] eqn:E.
  - rewrite (ParseUint_loop_spec _ ds) by (done || unfold u64_ok; lia). unfold parse_result. rewrite Z.mul_0_l, Z.add_0_l.
    destruct (Z.ltb_spec (num_val base ds) (2 ^ 64)).
    + split; [intros E2; injection E2 as <-; eauto 6|]. intros (_ & ? & E2 & <- & _); by simplify_eq.
    + split; [done|]. intros (_ & ? & E2 & <- & ?). simplify_eq. lia.
  - destruct (ParseUint_loop_bad _ 0 E) as (w & e & ->). split; [done|]. by intros (_ & ? & ? & _).
Qed.

End parse.

(** ** encoding/hex *)

Lemma fromHexChar_digit c : fromHexChar c = digit_val 16 c.
Proof.
  unfold fromHexChar, digit_val, lower. destruct (Z.leb_spec 65 c), (Z.leb_spec c 90); simpl; bprop; try done; bprop; try done; f_equal; lia.
Qed.

Lemma hex_pair v : byte_ok v -> Z.lor (Z.shiftl (Z.shiftr v 4) 4) (Z.land v 15) = v.
Proof.
  intros Hv. change 15 with (Z.ones 4). rewrite Z.land_ones, Z.shiftr_div_pow2, lor_shiftl_low, Z.shiftl_mul_pow2 by
    (try lia; apply Z.mod_pos_bound; lia). pose proof (Z.div_mod v (2 ^ 4)). lia.
Qed.

Lemma nibbles_ok v : byte_ok v -> 0 <= Z.shiftr v 4 < 16 /\ 0 <= Z.land v 15 < 16.
Proof.
  unfold byte_ok. intros Hv. change 15 with (Z.ones 4). rewrite Z.land_ones, Z.shiftr_div_pow2 by lia.
  change (2 ^ 4) with 16. split; [|apply Z.mod_pos_bound; lia].
  split; [apply Z.div_pos; lia|apply Z.div_lt_upper_bound; lia].
Qed.

Lemma pair_nibbles a b :
  0 <= a < 16 -> 0 <= b < 16 ->
  byte_ok (Z.lor (Z.shiftl a 4) b) /\ Z.shiftr (Z.lor (Z.shiftl a 4) b) 4 = a /\
  Z.land (Z.lor (Z.shiftl a 4) b) 15 = b.
Proof.
  intros Ha Hb. change 15 with (Z.ones 4).
  rewrite lor_shiftl_low, Z.shiftl_mul_pow2, Z.land_ones, Z.shiftr_div_pow2 by lia.
  change (2 ^ 4) with 16. unfold byte_ok. split; [lia|].
  rewrite Z.div_add_l, Z.div_small by lia. split; [lia|].
  rewrite Z.add_comm, Z.mod_add, Z.mod_small by lia. done.
Qed.

(** hex.Decode accepts exactly the encodings, in either case of letters. *)
Lemma hex_Decode_exact s out :
  hex_Decode s = (out, None) <-> bytes_ok out /\ map lower s = hex_Encode out.
Proof.
  remember (length s) as n eqn:En. revert s out En.
  induction (lt_wf n) as [n _ IH]; intros s out En. destruct s as [|c [|d s]].
  - simpl. split; [intros [= <-]; by split; [constructor|]|]. intros [_ E]. by destruct out.
  - simpl. split; [by destruct (fromHexChar c)|]. intros [_ E]. by destruct out.
  - simpl. rewrite !fromHexChar_digit. split.
    + destruct (digit_val 16 c) as [a|] eqn:Ea; [|done]. destruct (digit_val 16 d) as [b|] eqn:Eb; [|done].
      destruct (hex_Decode s) as [o e] eqn:Eo. intros [= <- ->].
      apply (IH (length s) ltac:(simpl in *; lia) s o eq_refl) in Eo as [Ho Eo].
      apply lower_digit in Ea as [Ea Ha], Eb as [Eb Hb]; [|lia..].
      destruct (pair_nibbles a b Ha Hb) as (Hok & E1 & E2).
      split; [by constructor|]. change (hex_Encode (?x :: o)) with
        (digit_char (Z.shiftr x 4) :: digit_char (Z.land x 15) :: hex_Encode o).
      by rewrite E1, E2, Ea, Eb, Eo.
    + intros [Ho E]. destruct out as [|v out]; [done|]. apply Forall_cons in Ho as [Hv Ho].
      change (hex_Encode (v :: out)) with
        (digit_char (Z.shiftr v 4) :: digit_char (Z.land v 15) :: hex_Encode out) in E.
      injection E as E1 E2 E3. destruct (nibbles_ok v Hv) as [H1 H2].
      assert (digit_val 16 c = Some (Z.shiftr v 4)) as -> by (by apply lower_digit; [lia|]).
      assert (digit_val 16 d = Some (Z.land v 15)) as -> by (by apply lower_digit; [lia|]).
      destruct (IH (length s) ltac:(simpl in *; lia) s out eq_refl) as [_ H].
      rewrite H by done. by rewrite hex_pair.
Qed.

Lemma lower_digit_char d : 0 <= d < 36 -> lower (digit_char d) = digit_char d.
Proof. intros Hd. unfold lower, digit_char. bprop. Qed.

Lemma lower_hex_Encode b : bytes_ok b -> map lower (hex_Encode b) = hex_Encode b.
Proof.
  induction 1 as [|v b Hv Hb IH]; [done|]. destruct (nibbles_ok v Hv).
  change (hex_Encode (v :: b)) with (digit_char (Z.shiftr v 4) :: digit_char (Z.land v 15) :: hex_Encode b).
  simpl. by rewrite IH, !lower_digit_char by lia.
Qed.

Lemma hex_Encode_length b : length (hex_Encode b) = (2 * length b)%nat.
Proof. induction b as [|v b IH]; [done|]. simpl. fold (hex_Encode b). lia. Qed.

Lemma hex_Decode_Encode b : bytes_ok b -> hex_Decode (hex_Encode b) = (b, None).
Proof. intros Hb. apply hex_Decode_exact. by rewrite lower_hex_Encode. Qed.

(** hex.Decode on text whose characters are all digits. *)
Lemma hex_Decode_digits s ds :
  digits_of 16 s = Some ds -> len s mod 2 = 0 ->
  exists out, hex_Decode s = (out, None) /\ len s = 2 * len out.
Proof.
  remember (length s) as n eqn:En. revert s ds En.
  induction (lt_wf n) as [n _ IH]; intros s ds En E Hm. destruct s as [|c [|d s]]; subst n.
  - by exists [].
  - done.
  - apply digits_of_cons in E as (a & r & -> & Ea & E). apply digits_of_cons in E as (b & t & -> & Eb & E).
    rewrite !len_cons in *. destruct (IH (length s) ltac:(simpl; lia) s t eq_refl E) as (out & Eo & Hl).
    { rewrite <- Hm, <- (Z.mod_add (len s) 1 2) by lia. f_equal. lia. }
    simpl. rewrite !fromHexChar_digit, Ea, Eb, Eo. eexists. split; [done|]. rewrite len_cons. lia.
Qed.

Lemma FormatUint_inj base a b :
  2 <= base <= 36 -> 0 <= a -> 0 <= b -> FormatUint a base = FormatUint b base -> a = b.
Proof.
  intros Hb Ha Hb' E. destruct (FormatUint_spec base ltac:(lia) a Ha) as (da & Ea & Da & _ & <-).
  destruct (FormatUint_spec base ltac:(lia) b Hb') as (db & Eb & Db & _ & <-). f_equal.
  assert (Some da = Some db) as [= ->]; [|done].
  rewrite <- (digits_of_char base da), <- (digits_of_char base db) by (done || lia). congruence.
Qed.
