(* ===== verification/GoSort.v ===== *)
(** * Searching and comparing

    sort.Search and strings.Compare of the standard library, for the packages that
    keep sorted lists. *)

From Stdlib Require Import Sorting.Sorted.
From stdpp Require Import list sorting.
From S2P Require Import Prelude.

(** sort.Search: binary search in [i, j). *)
Fixpoint search (fuel : nat) (f : nat -> bool) (i j : nat) : nat :=
  match fuel with
  | O => i
  | S fuel =>
      if (i <? j)%nat then
        let h := ((i + j) / 2)%nat in
        if negb (f h) then search fuel f (h + 1) j else search fuel f i h
      else i
  end.
Definition Search (n : nat) (f : nat -> bool) : nat := search (S n) f 0 n.

(** The result separates the indices where [f] is false from those where it is
    true, for a predicate that stays true. *)
Lemma search_spec fuel f : forall i j, (i <= j)%nat -> (j - i < fuel)%nat ->
  (forall a b, (a <= b)%nat -> f a = true -> f b = true) ->
  (forall k, (k < i)%nat -> f k = false) ->
  let r := search fuel f i j in (i <= r <= j)%nat /\ (forall k, (k < r)%nat -> f k = false) /\ (r = j \/ f r = true).
Proof.
  induction fuel as [|fuel IH]; intros i j Hij Hf Hmono Hlow; [lia|]. cbn [search]. destruct (Nat.ltb_spec i j) as [Hlt|Hge]; [|cbv zeta; split_and!; [lia|lia|done|left; lia]].
  set (h := ((i + j) / 2)%nat). assert (Hh : (i <= h < j)%nat) by (unfold h; split; [apply Nat.div_le_lower_bound; lia|apply Nat.Div0.div_lt_upper_bound; lia]).
  destruct (f h) eqn:Ef; cbn [negb].
  - destruct (IH i h ltac:(lia) ltac:(lia) Hmono Hlow) as (H1 & H2 & H3). cbv zeta. split_and!; [lia|lia|done|]. right. destruct H3 as [->|H3]; done.
  - assert (Hlow' : forall k, (k < h + 1)%nat -> f k = false). { intros k Hk. destruct (f k) eqn:Ek; [|done]. rewrite (Hmono k h) in Ef by (done || lia). done. }
    destruct (IH (h + 1)%nat j ltac:(lia) ltac:(lia) Hmono Hlow') as (H1 & H2 & H3). cbv zeta. split_and!; [lia|lia|done|done].
Qed.

(** The search for the first element of a list that satisfies [f]. *)
Definition Search_list {A} (f : A -> bool) (l : list A) : nat := Search (length l) (fun i => match l !! i with Some x => f x | None => true end).
Lemma Search_list_spec {A} (f : A -> bool) l : StronglySorted (fun x y => f x = true -> f y = true) l ->
  exists l1 l2, l = l1 ++ l2 /\ Search_list f l = length l1 /\ Forall (fun x => f x = false) l1 /\ (forall x, head l2 = Some x -> f x = true).
Proof.
  intros Hs. set (g := fun i => match l !! i with Some x => f x | None => true end).
  assert (Hm : forall a b, (a <= b)%nat -> g a = true -> g b = true).
  { intros a b Hab. unfold g. destruct (l !! b) as [y|] eqn:Eb; [|done]. destruct (l !! a) as [x|] eqn:Ea; [|apply lookup_ge_None in Ea; apply lookup_lt_Some in Eb; lia].
    destruct (decide (a = b)) as [->|Hn]; [congruence|]. apply (StronglySorted_app_1_elem_of (fun x y => f x = true -> f y = true) (take b l) (drop b l)); [by rewrite take_drop| |].
    - apply list_elem_of_lookup. exists a. rewrite lookup_take_lt by lia. done.
    - apply list_elem_of_lookup. exists 0%nat. rewrite lookup_drop, Nat.add_0_r. done. }
  destruct (search_spec (S (length l)) g 0 (length l) ltac:(lia) ltac:(lia) Hm ltac:(intros; lia)) as (H1 & H2 & H3). change (search (S (length l)) g 0 (length l)) with (Search_list f l) in H1, H2, H3. set (n := Search_list f l) in *.
  exists (take n l), (drop n l). rewrite take_drop, length_take, Nat.min_l by lia. split_and!; [done|done| |].
  - apply Forall_lookup. intros i x Hi. apply lookup_take_Some in Hi as [Hi Hlt]. specialize (H2 i Hlt). unfold g in H2. by rewrite Hi in H2.
  - intros x Hx. assert (Hx0 : drop n l !! 0%nat = Some x) by (destruct (drop n l); [done|exact Hx]). rewrite lookup_drop, Nat.add_0_r in Hx0. clear Hx. rename Hx0 into Hx. destruct H3 as [H3|H3]; [apply lookup_lt_Some in Hx; lia|]. unfold g in H3. by rewrite Hx in H3.
Qed.

(** Two lists in strict order with the same elements are the same. *)
Lemma strict_unique {A} (R : relation A) l1 l2 : (forall x, ~ R x x) -> Transitive R -> StronglySorted R l1 -> StronglySorted R l2 -> (forall x, x ∈ l1 <-> x ∈ l2) -> l1 = l2.
Proof.
  intros Hi Ht H1. revert l2. induction H1 as [|x l1 H1 IH Hx]; intros [|y l2] H2 He; [done|by destruct (not_elem_of_nil y); apply He; left|by destruct (not_elem_of_nil x); apply He; left|].
  apply StronglySorted_inv in H2 as [H2 Hy]. rewrite Forall_forall in Hx, Hy.
  assert (Exy : x = y). { destruct (proj1 (elem_of_cons _ _ _) (proj1 (He x) ltac:(left))) as [->|Hin]; [done|]. destruct (proj1 (elem_of_cons _ _ _) (proj2 (He y) ltac:(left))) as [->|Hin']; [done|]. destruct (Hi x). transitivity y; [by apply Hx|by apply Hy]. }
  subst y. f_equal. apply IH; [done|]. intros z. specialize (He z). rewrite !elem_of_cons in He. split; intros Hz.
  - destruct (proj1 He (or_intror Hz)) as [->|]; [|done]. by destruct (Hi x); apply Hx.
  - destruct (proj2 He (or_intror Hz)) as [->|]; [|done]. by destruct (Hi x); apply Hy.
Qed.

(** strings.Compare: -1, 0 or 1. *)
Fixpoint Compare (a b : list Z) : Z :=
  match a, b with
  | [], [] => 0
  | [], _ :: _ => -1
  | _ :: _, [] => 1
  | x :: a, y :: b => if x <? y then -1 else if y <? x then 1 else Compare a b
  end.

Lemma Compare_eq a b : Compare a b = 0 <-> a = b.
Proof.
  revert b. induction a as [|x a IH]; intros [|y b]; cbn [Compare]; try done. destruct (Z.ltb_spec x y); [split; [done|]; intros [= ]; lia|].
  destruct (Z.ltb_spec y x); [split; [done|]; intros [= ]; lia|]. rewrite IH. split; [intros ->; f_equal; lia|by intros [= _ ->]].
Qed.
Lemma Compare_range a b : Compare a b = -1 \/ Compare a b = 0 \/ Compare a b = 1.
Proof. revert b. induction a as [|x a IH]; intros [|y b]; cbn [Compare]; try tauto. destruct (x <? y); [tauto|]. destruct (y <? x); [tauto|apply IH]. Qed.
Lemma Compare_opp a b : Compare b a = - Compare a b.
Proof. revert b. induction a as [|x a IH]; intros [|y b]; cbn [Compare]; try done. destruct (Z.ltb_spec x y), (Z.ltb_spec y x); try lia. apply IH. Qed.
Lemma Compare_trans a b c : Compare a b < 0 -> Compare b c < 0 -> Compare a c < 0.
Proof.
  revert b c. induction a as [|x a IH]; intros [|y b] [|z c]; cbn [Compare]; try lia. destruct (Z.ltb_spec x y), (Z.ltb_spec y x), (Z.ltb_spec y z), (Z.ltb_spec z y), (Z.ltb_spec x z), (Z.ltb_spec z x); try lia. apply IH.
Qed.

Lemma StronglySorted_weaken {A} (R R' : relation A) l : (forall x y, R x y -> R' x y) -> StronglySorted R l -> StronglySorted R' l.
Proof. intros H. induction 1 as [|x l _ IH Hx]; constructor; [done|]. eapply Forall_impl; [exact Hx|]. apply H. Qed.

Lemma search_ext fuel f g : (forall i, f i = g i) -> forall i j, search fuel f i j = search fuel g i j.
Proof. intros H. induction fuel as [|fuel IH]; intros i j; [done|]. cbn [search]. rewrite H, !IH. done. Qed.
Lemma Search_list_ext {A} (f g : A -> bool) l : Forall (fun x => f x = g x) l -> Search_list f l = Search_list g l.
Proof.
  intros H. apply search_ext. intros i. destruct (l !! i) as [x|] eqn:E; [|done]. rewrite Forall_forall in H. apply H. by eapply list_elem_of_lookup_2.
Qed.
