(* ===== verification/Hexutil.v ===== *)
(** * Package common/hexutil

    The 0x-prefixed hex encodings of byte strings and quantities
    (hexutil.go) and the text and JSON methods of Bytes, Big, Uint64 and Uint
    (json.go).  A function that returns a value and an error is a pair; a
    method on a pointer receiver takes the value it points to and returns the
    value it points to afterwards with the error.  The number of nibbles of a
    big.Word and the width of uint are parameters of the functions that depend
    on them. *)

From stdpp Require Import list strings.
From Stdlib Require Import Ascii.
From S2P Require Import Prelude GoText.

Inductive decError : Type :=
| ErrEmptyString
| ErrSyntax
| ErrMissingPrefix
| ErrOddLength
| ErrEmptyNumber
| ErrLeadingZero
| ErrUint64Range
| ErrUintRange
| ErrBig256Range.

(** Errors of the standard library that reach mapError. *)
Inductive lib_error : Type :=
| NumError (e : num_error)
| HexError (e : hex_error).

Definition mapError (err : lib_error) : decError :=
  match err with
  | NumError NumRange => ErrUint64Range
  | NumError NumSyntax => ErrSyntax
  | HexError (InvalidByteError _) => ErrSyntax
  | HexError ErrLength => ErrOddLength
  end.

Inductive hx_error : Type :=
| DecError (e : decError)
| UnmarshalTypeError (value : option decError) (typ : string)
| WrongLength (got want : Z) (typname : string)
| UnexpectedType (typ : string).

(** ** hexutil.go *)

Definition has0xPrefix (input : list Z) : bool :=
  match input with
  | a :: b :: _ => (a =? chr "0") && ((b =? chr "x") || (b =? chr "X"))
  | _ => false
  end.

Definition Decode (input : list Z) : list Z * option decError :=
  if len input =? 0 then ([], Some ErrEmptyString)
  else if negb (has0xPrefix input) then ([], Some ErrMissingPrefix)
  else let '(b, err) := hex_Decode (drop 2 input) in
       (b, (fun e => mapError (HexError e)) <$> err).

(** [None] is the panic. *)
Definition MustDecode (input : list Z) : option (list Z) :=
  match Decode input with (dec, None) => Some dec | (_, Some _) => None end.

Definition Encode (b : list Z) : list Z :=
  let enc := zeros (len b * 2 + 2) in
  let enc := go_copy enc (str "0x") in
  take 2 enc ++ go_copy (drop 2 enc) (hex_Encode b).

Definition checkNumber (input : list Z) : decError + list Z :=
  if len input =? 0 then inl ErrEmptyString
  else if negb (has0xPrefix input) then inl ErrMissingPrefix
  else let input := drop 2 input in
       if len input =? 0 then inl ErrEmptyNumber
       else if (1 <? len input) && bool_decide (head input = Some (chr "0")) then inl ErrLeadingZero
       else inr input.

Definition DecodeUint64 (input : list Z) : Z * option decError :=
  match checkNumber input with
  | inl err => (0, Some err)
  | inr raw => let '(dec, err) := ParseUint raw 16 in (dec, (fun e => mapError (NumError e)) <$> err)
  end.

Definition MustDecodeUint64 (input : list Z) : option Z :=
  match DecodeUint64 input with (dec, None) => Some dec | (_, Some _) => None end.

Definition EncodeUint64 (i : Z) : list Z :=
  let enc := go_copy (zeros 2) (str "0x") in AppendUint enc i 16.

Definition badNibble : Z := 2 ^ 64 - 1.

Definition decodeNibble (c : Z) : Z :=
  if (chr "0" <=? c) && (c <=? chr "9") then c - chr "0"
  else if (chr "A" <=? c) && (c <=? chr "F") then c - chr "A" + 10
  else if (chr "a" <=? c) && (c <=? chr "f") then c - chr "a" + 10
  else badNibble.

Section words.
  (** The nibbles of a big.Word: 16 or 8. *)
  Context (bigWordNibbles : nat).
Definition word (z : Z) : Z := z mod 2 ^ (4 * Z.of_nat bigWordNibbles).

  (** The inner loop: one word from its characters. *)
Fixpoint read_word (w : Z) (chars : list Z) : option Z :=
  match chars with
  | [] => Some w
  | c :: r => let nib := decodeNibble c in
              if nib =? badNibble then None else read_word (word (word (w * 16) + word nib)) r
  end.

  (** The outer loop over the words, from the end of the digits. *)
Fixpoint read_words (k : nat) (raw : list Z) (end_ : nat) : option (list Z) :=
  match k with
  | O => Some []
  | S k => let start := (end_ - bigWordNibbles)%nat in
           w ← read_word 0 (take (end_ - start) (drop start raw));
           ws ← read_words k raw start; Some (w :: ws)
  end.

  (** big.Int.SetBits of little-endian words. *)
Fixpoint SetBits (ws : list Z) : Z :=
  match ws with [] => 0 | w :: ws => w + 2 ^ (4 * Z.of_nat bigWordNibbles) * SetBits ws end.

Definition DecodeBig (input : list Z) : decError + Z :=
  match checkNumber input with
  | inl err => inl err
  | inr raw =>
      if 64 <? len raw then inl ErrBig256Range
      else match read_words (length raw / bigWordNibbles + 1) raw (length raw) with
           | None => inl ErrSyntax
           | Some words => inr (SetBits words)
           end
  end.

Definition MustDecodeBig (input : list Z) : option Z :=
  match DecodeBig input with inr dec => Some dec | inl _ => None end.
End words.

Definition EncodeBig (bigint : Z) : list Z :=
  let nbits := bit_len bigint in
  if nbits =? 0 then str "0x0" else Sprintf_x bigint.

(** ** json.go *)

Definition isString (input : list Z) : bool :=
  (2 <=? len input) && bool_decide (head input = Some 34) && bool_decide (last input = Some 34).

Definition bytesHave0xPrefix : list Z -> bool := has0xPrefix.

Definition checkText (input : list Z) (wantPrefix : bool) : decError + list Z :=
  if len input =? 0 then inr []
  else
    let cut := if bytesHave0xPrefix input then inr (drop 2 input)
               else if wantPrefix then inl ErrMissingPrefix else inr input in
    match cut with
    | inl err => inl err
    | inr input => if negb (len input mod 2 =? 0) then inl ErrOddLength else inr input
    end.

Definition checkNumberText (input : list Z) : decError + list Z :=
  if len input =? 0 then inr []
  else if negb (bytesHave0xPrefix input) then inl ErrMissingPrefix
  else let input := drop 2 input in
       if len input =? 0 then inl ErrEmptyNumber
       else if (1 <? len input) && bool_decide (head input = Some (chr "0")) then inl ErrLeadingZero
       else inr input.

Definition wrapTypeError (err : option hx_error) (typ : string) : option hx_error :=
  match err with
  | Some (DecError e) => Some (UnmarshalTypeError (Some e) typ)
  | _ => err
  end.
Definition errNonString (typ : string) : hx_error := UnmarshalTypeError None typ.

(** The frame of every UnmarshalJSON: an input in quotes is the text of the
    value; [unmarshal] is the UnmarshalText of the type. *)
Definition UnmarshalJSON {A} (typ : string) (unmarshal : A -> list Z -> A * option hx_error)
    (b : A) (input : list Z) : A * option hx_error :=
  if negb (isString input) then (b, Some (errNonString typ))
  else let '(b', err) := unmarshal b (take (length input - 2) (drop 1 input)) in (b', wrapTypeError err typ).

Definition Bytes_MarshalText (b : list Z) : list Z :=
  let result := go_copy (zeros (len b * 2 + 2)) (str "0x") in
  take 2 result ++ go_copy (drop 2 result) (hex_Encode b).

Definition Bytes_UnmarshalText (b input : list Z) : list Z * option hx_error :=
  match checkText input true with
  | inl err => (b, Some (DecError err))
  | inr raw => match hex_Decode raw with
               | (_, Some err) => (b, Some (DecError (mapError (HexError err))))
               | (dec, None) => (dec, None)
               end
  end.
Definition Bytes_UnmarshalJSON : list Z -> list Z -> list Z * option hx_error :=
  UnmarshalJSON "hexutil.Bytes" Bytes_UnmarshalText.
Definition Bytes_String (b : list Z) : list Z := Encode b.

(** The values a GraphQL query hands over. *)
Inductive graphql : Type :=
| GString (s : list Z)
| GInt32 (i : Z)
| GOther.

Definition Bytes_UnmarshalGraphQL (b : list Z) (input : graphql) : list Z * option hx_error :=
  match input with
  | GString s => match Decode s with
                 | (_, Some err) => (b, Some (DecError err))
                 | (data, None) => (data, None)
                 end
  | _ => (b, Some (UnexpectedType "Bytes"))
  end.

(** The bytes of [out] afterwards.  hex.Decode writes at most the bytes it
    decodes; they fit because the length was checked. *)
Definition fixed_text (typname : string) (wantPrefix : bool) (input out : list Z) : list Z * option hx_error :=
  match checkText input wantPrefix with
  | inl err => (out, Some (DecError err))
  | inr raw =>
      if negb (len raw / 2 =? len out) then (out, Some (WrongLength (len raw) (len out * 2) typname))
      else if existsb (fun c => decodeNibble c =? badNibble) raw then (out, Some (DecError ErrSyntax))
      else (go_copy out (fst (hex_Decode raw)), None)
  end.
Definition UnmarshalFixedText (typname : string) (input out : list Z) := fixed_text typname true input out.
Definition UnmarshalFixedUnprefixedText (typname : string) (input out : list Z) := fixed_text typname false input out.
Definition UnmarshalFixedJSON (typ : string) (input out : list Z) : list Z * option hx_error :=
  UnmarshalJSON typ (fun out text => UnmarshalFixedText typ text out) out input.

Definition Big_MarshalText (b : Z) : list Z := EncodeBig b.
Definition Big_UnmarshalText (bigWordNibbles : nat) (b : Z) (input : list Z) : Z * option hx_error :=
  match checkNumberText input with
  | inl err => (b, Some (DecError err))
  | inr raw =>
      if 64 <? len raw then (b, Some (DecError ErrBig256Range))
      else match read_words bigWordNibbles (length raw / bigWordNibbles + 1) raw (length raw) with
           | None => (b, Some (DecError ErrSyntax))
           | Some words => (SetBits bigWordNibbles words, None)
           end
  end.
Definition Big_UnmarshalJSON (bigWordNibbles : nat) : Z -> list Z -> Z * option hx_error :=
  UnmarshalJSON "*hexutil.Big" (Big_UnmarshalText bigWordNibbles).
Definition Big_UnmarshalGraphQL (bigWordNibbles : nat) (b : Z) (input : graphql) : Z * option hx_error :=
  match input with
  | GString s => Big_UnmarshalText bigWordNibbles b s
  | GInt32 i => (i64 i, None)
  | GOther => (b, Some (UnexpectedType "BigInt"))
  end.

Definition Uint64_MarshalText (b : Z) : list Z := AppendUint (go_copy (zeros 2) (str "0x")) b 16.
Fixpoint read_uint64 (dec : Z) (raw : list Z) : option Z :=
  match raw with
  | [] => Some dec
  | c :: raw => let nib := decodeNibble c in
                if nib =? badNibble then None else read_uint64 (u64 (u64 (dec * 16) + nib)) raw
  end.
Definition Uint64_UnmarshalText (b : Z) (input : list Z) : Z * option hx_error :=
  match checkNumberText input with
  | inl err => (b, Some (DecError err))
  | inr raw =>
      if 16 <? len raw then (b, Some (DecError ErrUint64Range))
      else match read_uint64 0 raw with
           | None => (b, Some (DecError ErrSyntax))
           | Some dec => (dec, None)
           end
  end.
Definition Uint64_UnmarshalJSON : Z -> list Z -> Z * option hx_error :=
  UnmarshalJSON "hexutil.Uint64" Uint64_UnmarshalText.
Definition Uint64_UnmarshalGraphQL (b : Z) (input : graphql) : Z * option hx_error :=
  match input with
  | GString s => Uint64_UnmarshalText b s
  | GInt32 i => (u64 i, None)
  | GOther => (b, Some (UnexpectedType "Long"))
  end.

Definition Uint_MarshalText (b : Z) : list Z := Uint64_MarshalText b.
Definition Uint_UnmarshalText (uintBits : Z) (b : Z) (input : list Z) : Z * option hx_error :=
  let '(v, err) := Uint64_UnmarshalText 0 input in
  match err with
  | Some (DecError ErrUint64Range) => (b, Some (DecError ErrUintRange))
  | _ => if 2 ^ uintBits - 1 <? v then (b, Some (DecError ErrUintRange))
         else match err with
              | Some _ => (b, err)
              | None => (v mod 2 ^ uintBits, None)
              end
  end.
Definition Uint_UnmarshalJSON (uintBits : Z) : Z -> list Z -> Z * option hx_error :=
  UnmarshalJSON "hexutil.Uint" (Uint_UnmarshalText uintBits).

(** ** The encoders *)

Lemma Encode_eq b : Encode b = str "0x" ++ hex_Encode b.
Proof.
  unfold Encode. replace (zeros (len b * 2 + 2)) with ([0; 0] ++ zeros (len b * 2)).
  - rewrite (go_copy_exact [0; 0] (str "0x")) by done. cbv zeta.
    change (take 2 (str "0x" ++ ?z)) with (str "0x"). change (drop 2 (str "0x" ++ ?z)) with z.
    pose proof (go_copy_exact (zeros (len b * 2)) (hex_Encode b) []) as E. rewrite !app_nil_r in E.
    rewrite E; [done|].
    unfold zeros, len. rewrite length_replicate, hex_Encode_length. lia.
  - unfold zeros. replace (Z.to_nat (len b * 2 + 2)) with (S (S (Z.to_nat (len b * 2)))) by (unfold len; lia). done.
Qed.

Lemma EncodeUint64_eq i : EncodeUint64 i = str "0x" ++ FormatUint i 16.
Proof. done. Qed.

Lemma EncodeBig_eq i : 0 <= i -> EncodeBig i = str "0x" ++ FormatUint i 16.
Proof.
  intros Hi. unfold EncodeBig, Sprintf_x, bit_len. destruct (Z.eqb_spec i 0) as [->|]; [done|].
  pose proof (Z.log2_nonneg (Z.abs i)). bprop. by rewrite Z.abs_eq.
Qed.

(** ** Prefixes *)

Lemma has0xPrefix_iff s :
  has0xPrefix s = true <-> exists t, map lower s = str "0x" ++ t.
Proof.
  destruct s as [|a [|b s]]; simpl; [split; [done|by intros []]..|].
  change (chr "0") with 48. change (chr "x") with 120. change (chr "X") with 88.
  unfold str. simpl. unfold chr. simpl. split.
  - destruct (Z.eqb_spec a 48) as [->|]; [|done]. simpl.
    destruct (Z.eqb_spec b 120) as [->|]; [by eexists|]. destruct (Z.eqb_spec b 88) as [->|]; [by eexists|done].
  - intros [t E]. injection E as E1 E2 E3. unfold lower in *.
    repeat match goal with H : context [(?x <=? ?y)] |- _ => destruct (Z.leb_spec x y); simpl in * end; try lia;
    bprop; done.
Qed.

Lemma prefix_drop s t : map lower s = str "0x" ++ t -> map lower (drop 2 s) = t.
Proof. destruct s as [|a [|b s]]; [done..|]. intros E. by injection E. Qed.

Lemma len_eqb_nil {A} (l : list A) : (len l =? 0) = bool_decide (l = []).
Proof. destruct l; [done|]. rewrite len_cons. pose proof (len_nonneg l). case_bool_decide; [done|]. bprop; done. Qed.

(** ** Byte strings *)

Lemma Decode_iff s b :
  Decode s = (b, None) <-> bytes_ok b /\ map lower s = str "0x" ++ hex_Encode b.
Proof.
  unfold Decode. destruct s as [|c s]; [by split; [|intros []]|].
  rewrite len_eqb_nil, bool_decide_false by done.
  destruct (has0xPrefix (c :: s)) eqn:P; simpl negb; cbv iota.
  - apply has0xPrefix_iff in P as [t E]. pose proof (prefix_drop _ _ E) as D.
    destruct (hex_Decode (drop 2 (c :: s))) as [o e] eqn:Eo. rewrite E. split.
    + intros H. injection H as -> He. destruct e; [done|]. apply hex_Decode_exact in Eo as [Ho Eo].
      split; [done|]. by rewrite <- Eo, <- D.
    + intros [Hb Et]. apply app_inv_head in Et as ->.
      destruct (hex_Decode_exact (drop 2 (c :: s)) b) as [_ H]. rewrite H in Eo by done. by injection Eo as -> <-.
  - split; [done|]. intros [_ E]. rewrite (proj2 (has0xPrefix_iff (c :: s))) in P by eauto. done.
Qed.

Lemma checkText_ok s raw :
  checkText s true = inr raw <->
  (s = [] /\ raw = []) \/ (has0xPrefix s = true /\ raw = drop 2 s /\ len raw mod 2 = 0).
Proof.
  unfold checkText, bytesHave0xPrefix. rewrite len_eqb_nil. case_bool_decide as Hs.
  - subst. split; [intros [= <-]; by left|]. by intros [[_ ->]|[? _]].
  - destruct (has0xPrefix s) eqn:P; [|split; [done|]; by intros [[? _]|[? _]]].
    destruct (Z.eqb_spec (len (drop 2 s) mod 2) 0); simpl.
    + split; [intros [= <-]; by right|]. by intros [[? _]|[_ [-> _]]].
    + split; [done|]. by intros [[? _]|[_ [-> ?]]].
Qed.

Lemma Decode_text_iff s b :
  hex_Decode (drop 2 s) = (b, None) -> has0xPrefix s = true ->
  bytes_ok b /\ map lower s = Encode b /\ len (drop 2 s) = 2 * len b.
Proof.
  intros Eo P. apply hex_Decode_exact in Eo as [Ho Eo]. apply has0xPrefix_iff in P as [t E].
  rewrite Encode_eq, E, <- Eo, (prefix_drop _ _ E). split; [done|]. split; [done|].
  unfold len. rewrite <- (length_map lower), Eo, hex_Encode_length. lia.
Qed.

Lemma decodeNibble_digit c :
  decodeNibble c = match digit_val 16 c with Some d => d | None => badNibble end.
Proof.
  rewrite <- fromHexChar_digit. unfold decodeNibble, fromHexChar.
  change (chr "0") with 48. change (chr "9") with 57. change (chr "A") with 65.
  change (chr "F") with 70. change (chr "a") with 97. change (chr "f") with 102. bprop; done.
Qed.

Lemma nibble_good c d : digit_val 16 c = Some d -> (decodeNibble c =? badNibble) = false.
Proof.
  intros E. rewrite decodeNibble_digit, E. apply digit_val_range in E; [|lia].
  unfold badNibble. apply Z.eqb_neq. lia.
Qed.

Lemma nibble_bad c : digit_val 16 c = None -> (decodeNibble c =? badNibble) = true.
Proof. intros E. by rewrite decodeNibble_digit, E, Z.eqb_refl. Qed.

Lemma scan_nibbles raw :
  existsb (fun c => decodeNibble c =? badNibble) raw = false <-> is_Some (digits_of 16 raw).
Proof.
  induction raw as [|c raw IH]; [by split|]. unfold digits_of in *. simpl.
  destruct (digit_val 16 c) as [d|] eqn:E.
  - rewrite (nibble_good _ _ E). simpl. rewrite IH. destruct (mapM (digit_val 16) raw); simpl; [by split|].
    split; by intros [].
  - rewrite (nibble_bad _ E). simpl. split; [done|by intros []].
Qed.

(** ** Quantities *)

(** What the number decoders get from checkNumber: one or more characters
    without a leading zero. *)
Lemma checkNumber_ok s raw :
  checkNumber s = inr raw <->
  has0xPrefix s = true /\ raw = drop 2 s /\ raw <> [] /\ (length raw = 1%nat \/ head raw <> Some 48).
Proof.
  unfold checkNumber. rewrite !len_eqb_nil. change (chr "0") with 48. case_bool_decide as Hs.
  { subst. by split; [|intros []]. }
  destruct (has0xPrefix s) eqn:P; simpl negb; cbv iota; [|by split; [|intros []]].
  case_bool_decide as Hr; [split; [done|intros (_ & -> & ? & _); done]|].
  destruct (Z.ltb_spec 1 (len (drop 2 s))) as [Hl|Hl]; simpl.
  - case_bool_decide as Hh.
    + split; [done|]. intros (_ & -> & _ & [Hn|Hn]); [unfold len in Hl; lia|done].
    + split; [intros [= <-]; auto|]. by intros (_ & -> & _).
  - assert (length (drop 2 s) = 1%nat).
    { destruct (drop 2 s) as [|x [|y l]]; [done..|]. rewrite !len_cons in Hl. pose proof (len_nonneg l). lia. }
    split; [intros [= <-]; auto|]. by intros (_ & -> & _).
Qed.

Lemma checkNumberText_ne s : s <> [] -> checkNumberText s = checkNumber s.
Proof. intros Hs. unfold checkNumberText, checkNumber. by rewrite len_eqb_nil, bool_decide_false. Qed.

Lemma digit_zero c : digit_val 16 c = Some 0 <-> c = 48.
Proof.
  rewrite (lower_digit 16 c 0) by lia. unfold lower, digit_char. simpl.
  destruct (Z.leb_spec 65 c), (Z.leb_spec c 90); simpl; lia.
Qed.

Lemma canonical_raw raw ds :
  digits_of 16 raw = Some ds -> (canonical ds <-> raw <> [] /\ (length raw = 1%nat \/ head raw <> Some 48)).
Proof.
  intros E. assert (length raw = length ds) as El.
  { apply digits_of_lower in E as [E _]; [|lia]. by rewrite <- (length_map lower), E, length_map. }
  destruct raw as [|c raw]; [injection E as <-; by split; [|intros []]|].
  apply digits_of_cons in E as (d & r & -> & Ed & _). simpl in El. injection El as El.
  destruct r as [|e r]; simpl.
  - split; [intros _|done]. split; [done|]. left. by rewrite El.
  - split.
    + intros Hd. split; [done|]. right. intros [= ->]. apply Hd.
      destruct (digit_zero 48) as [_ H]. rewrite H in Ed by done. by injection Ed.
    + intros (_ & [H|H]); [rewrite El in H; done|]. intros ->. apply H. f_equal. by apply digit_zero.
Qed.

(** The quantity grammar: the text is the canonical encoding of the number,
    up to the case of letters. *)
Lemma quantity_iff s n :
  0 <= n ->
  map lower s = str "0x" ++ FormatUint n 16 <->
  exists raw ds, checkNumber s = inr raw /\ digits_of 16 raw = Some ds /\ canonical ds /\ num_val 16 ds = n.
Proof.
  intros Hn. split.
  - intros E. destruct (FormatUint_spec 16 ltac:(lia) n Hn) as (ds & Ef & Hd & Hc & Hv). rewrite Ef in E.
    pose proof (prefix_drop _ _ E) as D.
    assert (Er : digits_of 16 (drop 2 s) = Some ds) by (apply digits_of_lower; [lia|done]).
    exists (drop 2 s), ds. split; [|done]. apply checkNumber_ok. split; [apply has0xPrefix_iff; eauto|].
    split; [done|]. by apply (canonical_raw _ _ Er).
  - intros (raw & ds & Ec & Er & Hc & <-). apply checkNumber_ok in Ec as (P & -> & _ & _).
    apply digits_of_lower in Er as [Er Hd]; [|lia].
    rewrite FormatUint_digits by (done || lia). apply has0xPrefix_iff in P as [t E].
    rewrite E, <- Er. by rewrite (prefix_drop _ _ E).
Qed.

Lemma checkNumber_canonical s raw ds :
  checkNumber s = inr raw -> digits_of 16 raw = Some ds -> canonical ds /\ raw <> [] /\ digits_ok 16 ds /\ len raw = len ds.
Proof.
  intros Ec Er. apply checkNumber_ok in Ec as (_ & _ & Hne & Hl).
  split; [by apply (canonical_raw _ _ Er)|]. split; [done|].
  apply digits_of_lower in Er as [E Hd]; [|lia]. split; [done|].
  unfold len. by rewrite <- (length_map lower), E, length_map.
Qed.

Lemma DecodeUint64_iff s n :
  DecodeUint64 s = (n, None) <-> u64_ok n /\ map lower s = str "0x" ++ FormatUint n 16.
Proof.
  unfold DecodeUint64. split.
  - destruct (checkNumber s) as [e|raw] eqn:Ec; [done|]. destruct (ParseUint raw 16) as [v e] eqn:Ep.
    intros H. injection H as -> He. destruct e; [done|].
    apply ParseUint_ok in Ep as (_ & ds & Er & Hv & Hlt); [|lia].
    destruct (checkNumber_canonical _ _ _ Ec Er) as (Hc & _ & Hd & _).
    pose proof (num_val_bound 16 ltac:(lia) ds Hd). split; [unfold u64_ok; lia|].
    apply quantity_iff; [lia|]. eauto 6.
  - intros [Hn E]. unfold u64_ok in Hn. apply quantity_iff in E as (raw & ds & Ec & Er & Hc & Hv); [|lia].
    rewrite Ec. destruct (checkNumber_canonical _ _ _ Ec Er) as (_ & Hne & _).
    assert (ParseUint raw 16 = (n, None)) as ->; [|done]. apply ParseUint_ok; [lia|].
    split; [done|]. exists ds. split; [done|]. split; [done|]. lia.
Qed.

(** ** Words *)

Section words_lemmas.
  Context (k : nat) (Hk : (0 < k)%nat).

Lemma word_small z : 0 <= z < 16 ^ Z.of_nat k -> word k z = z.
Proof. intros Hz. unfold word. rewrite Z.pow_mul_r by lia. by apply Z.mod_small. Qed.

Lemma read_word_bad chars : forall w, digits_of 16 chars = None -> read_word k w chars = None.
Proof.
  induction chars as [|c chars IH]; intros w E; [done|]. unfold digits_of in *. simpl in *.
  destruct (digit_val 16 c) eqn:Ed; [|by rewrite (nibble_bad _ Ed)]. rewrite (nibble_good _ _ Ed).
  apply IH. simpl in E. by destruct (mapM (digit_val 16) chars).
Qed.

Lemma read_word_spec chars : forall w ds j,
  digits_of 16 chars = Some ds -> 0 <= w < 16 ^ j -> 0 <= j -> j + len ds <= Z.of_nat k ->
  read_word k w chars = Some (w * 16 ^ len ds + num_val 16 ds).
Proof.
  induction chars as [|c chars IH]; intros w ds j E Hw Hj Hl.
  - injection E as <-. simpl. rewrite len_nil. f_equal. unfold num_val. simpl. lia.
  - apply digits_of_cons in E as (d & r & -> & Ed & Er). simpl. rewrite (nibble_good _ _ Ed).
    pose proof (digit_val_range 16 c d ltac:(lia) Ed). rewrite decodeNibble_digit, Ed.
    rewrite len_cons in Hl. pose proof (len_nonneg r).
    assert (16 ^ (j + 1) <= 16 ^ Z.of_nat k) as Hp by (apply Z.pow_le_mono_r; lia).
    assert (0 < 16 ^ j) by (apply Z.pow_pos_nonneg; lia).
    assert (16 ^ (j + 1) = 16 ^ j * 16) as Es by (by rewrite Z.pow_add_r by lia). rewrite Es in Hp.
    rewrite (word_small (w * 16)), (word_small d), word_small by nia.
    rewrite (IH _ r (j + 1)); [|done|rewrite Es; nia|lia|lia].
    f_equal. rewrite len_cons, num_val_cons, Z.pow_add_r by lia. lia.
Qed.

Lemma digits_of_app a b :
  digits_of 16 (a ++ b) = (x ← digits_of 16 a; y ← digits_of 16 b; Some (x ++ y)).
Proof.
  unfold digits_of. induction a as [|c a IH]; simpl.
  - by destruct (mapM (digit_val 16) b).
  - destruct (digit_val 16 c); [|done]. simpl. rewrite IH. destruct (mapM (digit_val 16) a); [|done]. simpl.
    by destruct (mapM (digit_val 16) b).
Qed.

Lemma take_split (raw : list Z) (e : nat) :
  take e raw = take (e - k) raw ++ take (e - (e - k)) (drop (e - k) raw).
Proof. rewrite take_take_drop. f_equal. lia. Qed.

(** The words read from the end of the digits denote the number they spell. *)
Lemma read_words_spec m : forall raw e,
  (e <= length raw)%nat -> (e <= m * k)%nat ->
  SetBits k <$> read_words k m raw e = num_val 16 <$> digits_of 16 (take e raw).
Proof.
  induction m as [|m IH]; intros raw e He Hm.
  - assert (e = 0%nat) as -> by lia. done.
  - cbn [read_words]. rewrite (take_split raw e), digits_of_app.
    assert (Hs : (e - k <= length raw)%nat) by lia.
    specialize (IH raw (e - k)%nat Hs ltac:(lia)).
    destruct (digits_of 16 (take (e - (e - k)) (drop (e - k) raw))) as [lo|] eqn:El.
    + assert (Hlo : len lo = Z.of_nat (e - (e - k)) /\ digits_ok 16 lo).
      { apply digits_of_lower in El as [El Hd]; [|lia]. split; [|done]. unfold len.
        rewrite <- (length_map digit_char), <- El, length_map, length_take, length_drop. lia. }
      destruct Hlo as [Ll Hlo].
      rewrite (read_word_spec _ 0 lo 0) by (done || lia). simpl mbind.
      destruct (read_words k m raw (e - k)) as [ws|]; simpl in IH |- *;
        destruct (digits_of 16 (take (e - k) raw)) as [hi|] eqn:Eh; simpl in IH |- *; try done.
      injection IH as IH. f_equal. rewrite IH, num_val_app, Ll. rewrite Z.pow_mul_r by lia.
      change (2 ^ 4) with 16.
      destruct (decide (k <= e)%nat); [replace (e - (e - k))%nat with k by lia; lia|].
      replace (e - k)%nat with 0%nat in Eh by lia. simpl in Eh. injection Eh as <-.
      change (num_val 16 []) with 0. lia.
    + rewrite read_word_bad by done. simpl. by destruct (digits_of 16 (take (e - k) raw)).
Qed.

Lemma read_words_all raw :
  SetBits k <$> read_words k (length raw / k + 1) raw (length raw) = num_val 16 <$> digits_of 16 raw.
Proof.
  rewrite read_words_spec, firstn_all; [done|lia|].
  pose proof (Nat.div_mod_eq (length raw) k). pose proof (Nat.mod_upper_bound (length raw) k ltac:(lia)). nia.
Qed.
End words_lemmas.

Lemma read_uint64_spec raw : forall w j,
  0 <= w < 16 ^ j -> 0 <= j -> j + len raw <= 16 ->
  read_uint64 w raw = (fun ds => w * 16 ^ len raw + num_val 16 ds) <$> digits_of 16 raw.
Proof.
  induction raw as [|c raw IH]; intros w j Hw Hj Hl.
  - simpl. f_equal. unfold num_val. rewrite len_nil. simpl. lia.
  - unfold digits_of. simpl. destruct (digit_val 16 c) as [d|] eqn:Ed; [|by rewrite (nibble_bad _ Ed)].
    rewrite (nibble_good _ _ Ed). pose proof (digit_val_range 16 c d ltac:(lia) Ed).
    rewrite decodeNibble_digit, Ed. rewrite len_cons in Hl. pose proof (len_nonneg raw).
    assert (16 ^ (j + 1) <= 16 ^ 16) as Hp by (apply Z.pow_le_mono_r; lia).
    assert (0 < 16 ^ j) by (apply Z.pow_pos_nonneg; lia).
    assert (16 ^ (j + 1) = 16 ^ j * 16) as Es by (by rewrite Z.pow_add_r by lia). rewrite Es in Hp.
    rewrite (u64_small (w * 16)), u64_small by (unfold u64_ok; nia).
    rewrite (IH _ (j + 1)); [|rewrite Es; nia|lia|lia]. unfold digits_of.
    destruct (mapM (digit_val 16) raw) as [r|] eqn:Er; [|done]. simpl. f_equal.
    assert (len r = len raw) as El.
    { fold (digits_of 16 raw) in Er. apply digits_of_lower in Er as [Er _]; [|lia]. unfold len.
      by rewrite <- (length_map digit_char), <- Er, length_map. }
    rewrite len_cons, num_val_cons, Z.pow_add_r, El by lia. lia.
Qed.

Lemma Uint64_UnmarshalText_iff b s n :
  Uint64_UnmarshalText b s = (n, None) <->
  (s = [] /\ n = 0) \/ (u64_ok n /\ map lower s = EncodeUint64 n).
Proof.
  rewrite EncodeUint64_eq. unfold Uint64_UnmarshalText. destruct (decide (s = [])) as [->|Hs].
  { change (checkNumberText []) with (inr (A := decError) (@nil Z)). simpl.
    split; [intros [= <-]; by left|]. by intros [[_ ->]|[_ E]]. }
  rewrite checkNumberText_ne by done. split.
  - destruct (checkNumber s) as [e|raw] eqn:Ec; [done|]. destruct (Z.ltb_spec 16 (len raw)) as [|Hl]; [done|].
    rewrite (read_uint64_spec raw 0 0) by lia. destruct (digits_of 16 raw) as [ds|] eqn:Er; [|done].
    simpl. intros [= <-]. right.
    destruct (checkNumber_canonical _ _ _ Ec Er) as (Hc & _ & Hd & El).
    pose proof (num_val_bound 16 ltac:(lia) ds Hd) as Hb. assert (16 ^ len ds <= 16 ^ 16) by (apply Z.pow_le_mono_r; lia).
    split; [unfold u64_ok; lia|]. apply quantity_iff; [lia|]. eauto 6.
  - intros [[? _]|[Hn E]]; [done|]. unfold u64_ok in Hn.
    apply quantity_iff in E as (raw & ds & Ec & Er & Hc & Hv); [|lia]. rewrite Ec.
    destruct (checkNumber_canonical _ _ _ Ec Er) as (_ & Hne & Hd & El).
    assert (len raw <= 16) as Hl.
    { rewrite El. destruct ds as [|d [|e ds]]; [done|by rewrite len_cons|].
      pose proof (num_val_lower 16 ltac:(lia) d (e :: ds) Hd Hc) as Hlo.
      rewrite len_cons. apply Z.nlt_ge. intros C.
      assert (16 ^ 16 <= 16 ^ len (e :: ds)) by (apply Z.pow_le_mono_r; lia). lia. }
    destruct (Z.ltb_spec 16 (len raw)) as [|_]; [lia|].
    rewrite (read_uint64_spec raw 0 0), Er by lia. simpl. by rewrite Hv.
Qed.

(** Both decoders of big quantities after the prefix check. *)
Lemma big_raw k s raw n :
  (0 < k)%nat -> checkNumber s = inr raw ->
  (len raw <= 64 /\ SetBits k <$> read_words k (length raw / k + 1) raw (length raw) = Some n) <->
  (0 <= n < 2 ^ 256 /\ map lower s = EncodeBig n).
Proof.
  intros Hk Ec. rewrite read_words_all by done. split.
  - intros [Hl E]. destruct (digits_of 16 raw) as [ds|] eqn:Er; [|done]. injection E as <-.
    destruct (checkNumber_canonical _ _ _ Ec Er) as (Hc & _ & Hd & El).
    pose proof (num_val_bound 16 ltac:(lia) ds Hd) as Hb.
    assert (16 ^ len ds <= 16 ^ 64) by (apply Z.pow_le_mono_r; lia).
    split; [lia|]. rewrite EncodeBig_eq by lia. apply quantity_iff; [lia|]. eauto 6.
  - intros [Hn E]. rewrite EncodeBig_eq in E by lia.
    apply quantity_iff in E as (raw' & ds & Ec' & Er & Hc & Hv); [|lia]. rewrite Ec in Ec'. injection Ec' as <-.
    destruct (checkNumber_canonical _ _ _ Ec Er) as (_ & Hne & Hd & El). rewrite Er. simpl. rewrite Hv.
    split; [|done]. rewrite El. destruct ds as [|d [|e ds]]; [done|by rewrite len_cons|].
    pose proof (num_val_lower 16 ltac:(lia) d (e :: ds) Hd Hc) as Hlo.
    rewrite len_cons. apply Z.nlt_ge. intros C.
    assert (16 ^ 64 <= 16 ^ len (e :: ds)) by (apply Z.pow_le_mono_r; lia). lia.
Qed.

Lemma DecodeBig_iff k s n :
  (0 < k)%nat -> DecodeBig k s = inr n <-> 0 <= n < 2 ^ 256 /\ map lower s = EncodeBig n.
Proof.
  intros Hk. unfold DecodeBig. destruct (checkNumber s) as [e|raw] eqn:Ec.
  - split; [done|]. intros [Hn E]. rewrite EncodeBig_eq in E by lia.
    apply quantity_iff in E as (raw' & ds & Ec' & _); [|lia]. by rewrite Ec in Ec'.
  - rewrite <- (big_raw k s raw n Hk Ec). destruct (Z.ltb_spec 64 (len raw)); [split; [done|intros []; lia]|].
    destruct (read_words k _ raw _); simpl; (split; [intros [=]|intros []]); by simplify_eq.
Qed.

Lemma Big_UnmarshalText_iff k b s n :
  (0 < k)%nat ->
  Big_UnmarshalText k b s = (n, None) <->
  (s = [] /\ n = 0) \/ (0 <= n < 2 ^ 256 /\ map lower s = EncodeBig n).
Proof.
  intros Hk. unfold Big_UnmarshalText. destruct (decide (s = [])) as [->|Hs].
  { change (checkNumberText []) with (inr (A := decError) (@nil Z)). simpl.
    replace (0 / k)%nat with 0%nat by (symmetry; apply Nat.Div0.div_0_l). simpl.
    split; [intros [= <-]; left; split; [done|lia]|]. intros [[_ ->]|[_ E]]; [by rewrite Z.mul_0_r|].
    unfold EncodeBig in E. destruct (bit_len n =? 0); [done|]. unfold Sprintf_x in E. by destruct (n <? 0). }
  rewrite checkNumberText_ne by done. destruct (checkNumber s) as [e|raw] eqn:Ec.
  - split; [done|]. intros [[? _]|[Hn E]]; [done|]. rewrite EncodeBig_eq in E by lia.
    apply quantity_iff in E as (raw' & ds & Ec' & _); [|lia]. by rewrite Ec in Ec'.
  - rewrite <- (big_raw k s raw n Hk Ec). destruct (Z.ltb_spec 64 (len raw)).
    { split; [done|]. intros [[]|[? _]]; [done|lia]. }
    destruct (read_words k _ raw _); simpl; (split; [intros [=]|intros [[? _]|[]]]); try done; simplify_eq; auto.
Qed.

Lemma Bytes_UnmarshalText_iff b0 s b :
  Bytes_UnmarshalText b0 s = (b, None) <->
  (s = [] /\ b = []) \/ (bytes_ok b /\ map lower s = Encode b).
Proof.
  unfold Bytes_UnmarshalText. split.
  - destruct (checkText s true) as [e|raw] eqn:Ec; [done|].
    destruct (hex_Decode raw) as [o [e|]] eqn:Eo; [done|]. intros [= ->].
    apply checkText_ok in Ec as [[-> ->]|(P & -> & _)]; [left; by injection Eo as <-|right].
    by destruct (Decode_text_iff s b Eo P) as (? & ? & _).
  - intros [[-> ->]|[Hb E]]; [done|]. rewrite Encode_eq in E. pose proof (prefix_drop _ _ E) as D.
    assert (checkText s true = inr (drop 2 s)) as ->.
    { apply checkText_ok. right. split; [apply has0xPrefix_iff; eauto|]. split; [done|].
      unfold len. rewrite <- (length_map lower), D, hex_Encode_length.
      rewrite Nat2Z.inj_mul, Z.mul_comm. apply Z.mod_mul. lia. }
    by rewrite (proj2 (hex_Decode_exact (drop 2 s) b)).
Qed.

Lemma UnmarshalFixedText_iff typ s out out' :
  UnmarshalFixedText typ s out = (out', None) <->
  length out' = length out /\ ((s = [] /\ out' = []) \/ (bytes_ok out' /\ map lower s = Encode out')).
Proof.
  unfold UnmarshalFixedText, fixed_text. split.
  - destruct (checkText s true) as [e|raw] eqn:Ec; [done|].
    destruct (Z.eqb_spec (len raw / 2) (len out)) as [El|]; simpl; [|done].
    destruct (existsb _ raw) eqn:Eb; [done|]. apply scan_nibbles in Eb as [ds Er]. intros [= <-].
    split; [apply go_copy_length|].
    apply checkText_ok in Ec as [[-> ->]|(P & -> & Hm)].
    { left. split; [done|]. assert (out = []) as -> by (apply len_zero_nil; by rewrite <- El). done. }
    right. destruct (hex_Decode_digits _ _ Er Hm) as (o & Eo & Hl). rewrite Eo. simpl.
    assert (length out = length o) as Eoo by (rewrite Hl, Z.mul_comm, Z.div_mul in El by lia; unfold len in *; lia).
    assert (go_copy out o = o) as ->.
    { unfold go_copy. rewrite take_ge, drop_ge, app_nil_r by lia. done. }
    by destruct (Decode_text_iff s o Eo P) as (? & ? & _).
  - intros [Hlen [[-> ->]|[Hb E]]]; [by destruct out|]. rewrite Encode_eq in E. pose proof (prefix_drop _ _ E) as D.
    assert (len (drop 2 s) = len out * 2) as Ll.
    { unfold len. rewrite <- (length_map lower), D, hex_Encode_length. lia. }
    assert (checkText s true = inr (drop 2 s)) as ->.
    { apply checkText_ok. right. split; [apply has0xPrefix_iff; eauto|]. split; [done|].
      rewrite Ll. apply Z.mod_mul. lia. }
    rewrite Ll, Z.div_mul, Z.eqb_refl by lia. simpl.
    pose proof (proj2 (hex_Decode_exact (drop 2 s) out') (conj Hb D)) as Eo.
    assert (is_Some (digits_of 16 (drop 2 s))) as Hd.
    { clear -Hb D. revert D. generalize (drop 2 s). intros l. revert l. induction Hb as [|v b Hv Hb IH]; intros l D.
      - destruct l; [by eexists|done].
      - destruct l as [|x [|y l]]; [done..|]. change (hex_Encode (v :: b)) with
          (digit_char (Z.shiftr v 4) :: digit_char (Z.land v 15) :: hex_Encode b) in D.
        injection D as D1 D2 D3. destruct (nibbles_ok v Hv) as [H1 H2]. destruct (IH l D3) as [ds Hds].
        unfold digits_of in *. simpl.
        rewrite (proj2 (lower_digit 16 x _ ltac:(lia)) (conj D1 H1)), (proj2 (lower_digit 16 y _ ltac:(lia)) (conj D2 H2)), Hds.
        by eexists. }
    apply scan_nibbles in Hd as ->. rewrite Eo. simpl. f_equal.
    unfold go_copy. rewrite take_ge, drop_ge, app_nil_r by lia. done.
Qed.

(** ** Theorems *)

(** The byte-string decoders accept exactly the encodings, in either case
    of letters and digits: Decode succeeds with [b] exactly on the text
    Encode gives for [b]; Bytes.UnmarshalText accepts the same texts and the
    empty one; UnmarshalFixedText accepts exactly those of the length of its
    target. *)
Theorem hex_bytes_exact s b b0 typ out :
  (Decode s = (b, None) <-> bytes_ok b /\ map lower s = Encode b) /\
  (Bytes_UnmarshalText b0 s = (b, None) <->
     (s = [] /\ b = []) \/ (bytes_ok b /\ map lower s = Encode b)) /\
  (UnmarshalFixedText typ s out = (b, None) <->
     length b = length out /\ ((s = [] /\ b = []) \/ (bytes_ok b /\ map lower s = Encode b))).
Proof.
  split; [rewrite Encode_eq; apply Decode_iff|].
  split; [apply Bytes_UnmarshalText_iff|apply UnmarshalFixedText_iff].
Qed.

(** The quantity decoders accept exactly the canonical encodings, in
    either case of letters: a decoded number is in range (64 bits, the width
    of uint, 256 bits) and its encoding is the text; leading zeros, missing
    prefixes and empty numbers are rejected, only the text methods read the
    empty text as zero.  It holds for every width of big.Word. *)
Theorem quantities_exact k w s n b :
  (0 < k)%nat -> 0 <= w <= 64 ->
  (DecodeUint64 s = (n, None) <-> u64_ok n /\ map lower s = EncodeUint64 n) /\
  (DecodeBig k s = inr n <-> 0 <= n < 2 ^ 256 /\ map lower s = EncodeBig n) /\
  (Uint64_UnmarshalText b s = (n, None) <->
     (s = [] /\ n = 0) \/ (u64_ok n /\ map lower s = EncodeUint64 n)) /\
  (Uint_UnmarshalText w b s = (n, None) <->
     (s = [] /\ n = 0) \/ (0 <= n < 2 ^ w /\ map lower s = EncodeUint64 n)) /\
  (Big_UnmarshalText k b s = (n, None) <->
     (s = [] /\ n = 0) \/ (0 <= n < 2 ^ 256 /\ map lower s = EncodeBig n)).
Proof.
  intros Hk Hw. split; [apply DecodeUint64_iff|]. split; [by apply DecodeBig_iff|].
  split; [apply Uint64_UnmarshalText_iff|]. split; [|by apply Big_UnmarshalText_iff].
  assert (0 < 2 ^ w <= 2 ^ 64) as Hp by (split; [apply Z.pow_pos_nonneg; lia|apply Z.pow_le_mono_r; lia]).
  unfold Uint_UnmarshalText. destruct (Uint64_UnmarshalText 0 s) as [v err] eqn:E. split.
  - intros H. assert (err = None /\ v = n /\ v < 2 ^ w) as (-> & -> & Hv).
    { destruct err as [e|].
      - exfalso. destruct e as [[]| | |]; simpl in H; try done; by destruct (2 ^ w - 1 <? v).
      - destruct (Z.ltb_spec (2 ^ w - 1) v); [done|]. injection H as <-.
        apply Uint64_UnmarshalText_iff in E. rewrite Z.mod_small; [split; [done|split; [done|lia]]|].
        destruct E as [[_ ->]|[[] _]]; lia. }
    apply Uint64_UnmarshalText_iff in E as [?|[[] ?]]; [by left|right]. split; [lia|done].
  - intros H. assert (Uint64_UnmarshalText 0 s = (n, None)) as E'.
    { apply Uint64_UnmarshalText_iff. destruct H as [?|[? ?]]; [by left|right]. split; [unfold u64_ok; lia|done]. }
    rewrite E' in E. injection E as <- <-.
    assert (0 <= n < 2 ^ w) by (destruct H as [[_ ->]|[? _]]; lia).
    destruct (Z.ltb_spec (2 ^ w - 1) n); [lia|]. by rewrite Z.mod_small.
Qed.

Lemma quantities_exact_witness :
  DecodeBig 16 (str "0xFf") = inr 255 /\ (Uint_UnmarshalText 32 7 (str "0xfF") = (255, None)).
Proof.
  destruct (quantities_exact 16 32 (str "0xFf") 255 7 ltac:(lia) ltac:(lia)) as (_ & H & _).
  destruct (quantities_exact 16 32 (str "0xfF") 255 7 ltac:(lia) ltac:(lia)) as (_ & _ & _ & H2 & _).
  split; [apply H|apply H2; right]; (split; [lia|reflexivity]).
Defined.

(** A JSON string of text without escapes. *)
Definition quote (s : list Z) : list Z := 34 :: s ++ [34].

Lemma UnmarshalJSON_quote {A} typ (f : A -> list Z -> A * option hx_error) b s :
  UnmarshalJSON typ f b (quote s) = let '(b', err) := f b s in (b', wrapTypeError err typ).
Proof.
  unfold UnmarshalJSON, isString, quote.
  assert ((2 <=? len (34 :: s ++ [34])) = true) as ->
    by (rewrite len_cons, len_app; apply Z.leb_le; change (len [34]) with 1; pose proof (len_nonneg s); lia).
  rewrite app_comm_cons, last_snoc. simpl.
  replace (length (s ++ [34%Z]) - 1)%nat with (length s) by (rewrite length_app; simpl; lia).
  rewrite drop_0, take_app_length. done.
Qed.

Lemma lower_Encode b : bytes_ok b -> map lower (Encode b) = Encode b.
Proof. intros Hb. by rewrite Encode_eq, map_app, lower_hex_Encode. Qed.

Lemma lower_FormatUint n : 0 <= n -> map lower (FormatUint n 16) = FormatUint n 16.
Proof.
  intros Hn. destruct (FormatUint_spec 16 ltac:(lia) n Hn) as (ds & -> & Hd & _).
  induction Hd as [|d ds Hd Hds IH]; [done|]. simpl. by rewrite IH, lower_digit_char by lia.
Qed.

(** Marshalling and unmarshalling undo each other through JSON strings:
    byte strings, 64-bit and uint numbers and 256-bit numbers come back, and
    fixed-size targets are filled with the bytes. *)
Theorem hexutil_json_roundtrip k w b b0 out n n0 x x0 y y0 typ :
  (0 < k)%nat -> 0 <= w <= 64 -> bytes_ok b -> length out = length b ->
  u64_ok n -> 0 <= x < 2 ^ w -> 0 <= y < 2 ^ 256 ->
  Bytes_UnmarshalJSON b0 (quote (Bytes_MarshalText b)) = (b, None) /\
  UnmarshalFixedJSON typ (quote (Bytes_MarshalText b)) out = (b, None) /\
  Uint64_UnmarshalJSON n0 (quote (Uint64_MarshalText n)) = (n, None) /\
  Uint_UnmarshalJSON w x0 (quote (Uint_MarshalText x)) = (x, None) /\
  Big_UnmarshalJSON k y0 (quote (Big_MarshalText y)) = (y, None).
Proof.
  intros Hk Hw Hb Hl Hn Hx Hy. change Bytes_MarshalText with Encode. change Uint64_MarshalText with EncodeUint64.
  change Uint_MarshalText with EncodeUint64. change Big_MarshalText with EncodeBig.
  unfold Bytes_UnmarshalJSON, UnmarshalFixedJSON, Uint64_UnmarshalJSON, Uint_UnmarshalJSON, Big_UnmarshalJSON.
  rewrite !UnmarshalJSON_quote.
  assert (Q : forall z, 0 <= z -> map lower (EncodeUint64 z) = EncodeUint64 z)
    by (intros z Hz; by rewrite EncodeUint64_eq, map_app, lower_FormatUint).
  assert (B : map lower (EncodeBig y) = EncodeBig y)
    by (rewrite EncodeBig_eq, map_app, lower_FormatUint by lia; done).
  assert (0 < 2 ^ w <= 2 ^ 64) as Hp by (split; [apply Z.pow_pos_nonneg; lia|apply Z.pow_le_mono_r; lia]).
  rewrite (proj2 (Bytes_UnmarshalText_iff b0 (Encode b) b)) by (right; by rewrite lower_Encode).
  rewrite (proj2 (UnmarshalFixedText_iff typ (Encode b) out b)) by (split; [done|right; by rewrite lower_Encode]).
  rewrite (proj2 (Uint64_UnmarshalText_iff n0 (EncodeUint64 n) n)) by (right; split; [done|apply Q; by destruct Hn]).
  rewrite (proj2 (Big_UnmarshalText_iff k y0 (EncodeBig y) y Hk)) by (right; done).
  unfold Uint_UnmarshalText.
  rewrite (proj2 (Uint64_UnmarshalText_iff 0 (EncodeUint64 x) x))
    by (right; split; [unfold u64_ok; lia|apply Q; lia]).
  destruct (Z.ltb_spec (2 ^ w - 1) x); [lia|]. by rewrite Z.mod_small.
Qed.

Lemma hexutil_json_roundtrip_witness :
  Bytes_UnmarshalJSON [] (quote (Bytes_MarshalText [1; 171])) = ([1; 171], None) /\
  Big_UnmarshalJSON 8 0 (quote (Big_MarshalText (2 ^ 200))) = (2 ^ 200, None).
Proof.
  destruct (hexutil_json_roundtrip 8 32 [1; 171] [] [0; 0] 5 0 6 0 (2 ^ 200) 0 EmptyString)
    as (H1 & _ & _ & _ & H2); try (unfold u64_ok; lia); [repeat constructor; lia|reflexivity|].
  split; [exact H1|exact H2].
Defined.

(** An unmarshalling method that returns an error leaves the value it was
    called on as it was. *)
Theorem unmarshal_error_keeps_value k w typ input b b' n n' e :
  (Bytes_UnmarshalText b input = (b', Some e) \/ Bytes_UnmarshalJSON b input = (b', Some e) \/
   UnmarshalFixedText typ input b = (b', Some e) \/ UnmarshalFixedUnprefixedText typ input b = (b', Some e) \/
   UnmarshalFixedJSON typ input b = (b', Some e) -> b' = b) /\
  (Uint64_UnmarshalText n input = (n', Some e) \/ Uint_UnmarshalText w n input = (n', Some e) \/
   Big_UnmarshalText k n input = (n', Some e) -> n' = n).
Proof.
  assert (J : forall A (f : A -> list Z -> A * option hx_error) a a' t,
    (forall x y s e, f x s = (y, Some e) -> y = x) -> UnmarshalJSON t f a input = (a', Some e) -> a' = a).
  { intros A f a a' t H. unfold UnmarshalJSON. destruct (negb _); [by intros [= <- _]|].
    destruct (f a _) as [y [e'|]] eqn:E; [|done]. apply H in E as ->. by destruct e'; intros [=]. }
  assert (B : forall x y s e, Bytes_UnmarshalText x s = (y, Some e) -> y = x).
  { intros x y s e'. unfold Bytes_UnmarshalText. by repeat case_match; intros; simplify_eq. }
  assert (F : forall p x y s e, fixed_text typ p s x = (y, Some e) -> y = x).
  { intros p x y s e'. unfold fixed_text. by repeat case_match; intros; simplify_eq. }
  split.
  - intros [H|[H|[H|[H|H]]]]; [by eapply B|by eapply J in H|by eapply F|by eapply F|].
    eapply J in H; [done|]. intros x y s e' H'. by eapply F.
  - intros [H|[H|H]]; [unfold Uint64_UnmarshalText in H|unfold Uint_UnmarshalText in H|unfold Big_UnmarshalText in H];
      by repeat case_match; simplify_eq.
Qed.

Lemma unmarshal_error_keeps_value_witness :
  Bytes_UnmarshalText [1] (str "0x0g") = ([1], Some (DecError ErrSyntax)) /\ [1] = [1] :> list Z.
Proof.
  split; [reflexivity|].
  apply (unmarshal_error_keeps_value 16 64 EmptyString (str "0x0g") [1] [1] 0 0 (DecError ErrSyntax)).
  left. reflexivity.
Defined.

(** EncodeBig keeps the sign of a negative number, although its
    documentation says the sign is ignored: the text starts with a minus sign
    before the prefix, is not the text of the absolute value, and no decoder
    of quantities reads it back. *)
Theorem EncodeBig_keeps_sign n k :
  0 < n ->
  EncodeBig (- n) = str "-" ++ EncodeBig n /\ EncodeBig (- n) <> EncodeBig n /\
  DecodeBig k (EncodeBig (- n)) = inl ErrMissingPrefix.
Proof.
  intros Hn. assert (EncodeBig (- n) = str "-" ++ EncodeBig n) as E.
  { rewrite (EncodeBig_eq n) by lia. unfold EncodeBig, Sprintf_x, bit_len.
    pose proof (Z.log2_nonneg (Z.abs (- n))). bprop. by rewrite Z.abs_opp, Z.abs_eq by lia. }
  rewrite E, EncodeBig_eq by lia. split; [done|]. split; done.
Qed.

Lemma EncodeBig_keeps_sign_witness :
  EncodeBig (-1) = str "-0x1" /\ DecodeBig 16 (EncodeBig (-1)) = inl ErrMissingPrefix.
Proof. destruct (EncodeBig_keeps_sign 1 16 ltac:(lia)) as (H1 & _ & H2). split; [exact H1|exact H2]. Defined.
