(* ===== verification/Math.v ===== *)
(** * Package common/math

    Overflow-checked 64-bit arithmetic, the parsers of numbers in decimal or
    hex (integer.go) and the 256-bit and byte-level operations on big integers
    (big.go).  A big.Int is a Z; the functions that walk its machine words take
    the number of bytes of a big.Word.  Exp changes the integer its first
    argument points to, so it returns that integer's value too. *)

From stdpp Require Import list strings.
From Stdlib Require Import Ascii Zpow_facts.
From S2P Require Import Prelude GoText.

(** ** integer.go *)

Definition MaxUint64 : Z := 2 ^ 64 - 1.

Definition SafeSub (x y : Z) : Z * bool := (u64 (x - y), x <? y).
Definition SafeAdd (x y : Z) : Z * bool := (u64 (x + y), u64 (MaxUint64 - x) <? y).
Definition SafeMul (x y : Z) : Z * bool :=
  if (x =? 0) || (y =? 0) then (0, false) else (u64 (x * y), MaxUint64 / x <? y).

(** The test for a 0x or 0X prefix. *)
Definition has_hex_prefix (s : list Z) : bool :=
  (2 <=? len s) && (bool_decide (take 2 s = str "0x") || bool_decide (take 2 s = str "0X")).

Definition ParseUint64 (s : list Z) : Z * bool :=
  if bool_decide (s = []) then (0, true)
  else if has_hex_prefix s then
    let '(v, err) := ParseUint (drop 2 s) 16 in (v, bool_decide (err = None))
  else
    let '(v, err) := ParseUint s 10 in (v, bool_decide (err = None)).

(** [None] is the panic. *)
Definition MustParseUint64 (s : list Z) : option Z :=
  let '(v, ok) := ParseUint64 s in if ok then Some v else None.

(** The value afterwards, and whether an error is returned. *)
Definition HexOrDecimal64_UnmarshalText (i : Z) (input : list Z) : Z * bool :=
  let '(v, ok) := ParseUint64 input in if ok then (v, true) else (i, false).
Definition HexOrDecimal64_MarshalText (i : Z) : list Z := Sprintf_x i.

(** ** big.go *)

Definition BigPow (a b : Z) : Z := if b <=? 0 then 1 else a ^ b.
Definition tt255 : Z := BigPow 2 255.
Definition tt256 : Z := BigPow 2 256.
Definition tt256m1 : Z := tt256 - 1.

Definition ParseBig256 (s : list Z) : option Z :=
  if bool_decide (s = []) then Some 0
  else
    let bigint := if has_hex_prefix s then big_SetString (drop 2 s) 16 else big_SetString s 10 in
    match bigint with
    | Some v => if 256 <? bit_len v then None else Some v
    | None => None
    end.
Definition MustParseBig256 (s : list Z) : option Z := ParseBig256 s.

Definition HexOrDecimal256_UnmarshalText (i : Z) (input : list Z) : Z * bool :=
  match ParseBig256 input with Some v => (v, true) | None => (i, false) end.
(** [None] is the nil receiver. *)
Definition HexOrDecimal256_MarshalText (i : option Z) : list Z :=
  match i with None => str "0x0" | Some i => Sprintf_x i end.

Definition BigMax (x y : Z) : Z := if x <? y then y else x.
Definition BigMin (x y : Z) : Z := if y <? x then y else x.

(** The loop of FirstBitSet from bit [i] on, [k] bits below BitLen. *)
Fixpoint first_bit (k : nat) (i : Z) (v : Z) : Z :=
  match k with
  | O => bit_len v
  | S k => if Z.testbit v i then i else first_bit k (i + 1) v
  end.
Definition FirstBitSet (v : Z) : Z := first_bit (Z.to_nat (bit_len v)) 0 v.

Definition U256 (x : Z) : Z := Z.land x tt256m1.
Definition S256 (x : Z) : Z := if x <? tt255 then x else x - tt256.

Section words.
  (** The bytes of a big.Word: 8 or 4. *)
  Context (wordBytes : nat).

(** big.Int.Bits: the words of the absolute value, least significant first,
    without leading zeros. *)
Fixpoint big_words (fuel : nat) (z : Z) : list Z :=
  match fuel with
  | O => []
  | S f => if z =? 0 then [] else
           z mod 256 ^ Z.of_nat wordBytes :: big_words f (z / 256 ^ Z.of_nat wordBytes)
  end.
Definition Bits (x : Z) : list Z := big_words (Z.to_nat (bit_len x)) (Z.abs x).

(** The inner loop of ReadBits: at most [j] bytes of [d] below index [i]. *)
Fixpoint put_word (j : nat) (d : Z) (i : nat) (buf : list Z) : nat * list Z :=
  match j, i with
  | S j, S i => put_word j (Z.shiftr d 8) i (<[i := u8 d]> buf)
  | _, _ => (i, buf)
  end.
Fixpoint put_words (ws : list Z) (i : nat) (buf : list Z) : list Z :=
  match ws with
  | [] => buf
  | d :: ws => let '(i, buf) := put_word wordBytes d i buf in put_words ws i buf
  end.
Definition ReadBits (bigint : Z) (buf : list Z) : list Z := put_words (Bits bigint) (length buf) buf.

Definition PaddedBigBytes (bigint n : Z) : list Z :=
  if n <=? bit_len bigint / 8 then big_bytes bigint
  else ReadBits bigint (zeros n).

Definition bigEndianByteAt (bigint : Z) (n : nat) : Z :=
  match Bits bigint !! (n / wordBytes)%nat with
  | None => 0
  | Some word => u8 (Z.shiftr word (8 * Z.of_nat (n mod wordBytes)))
  end.
Definition Byte (bigint padlength n : Z) : Z :=
  if padlength <=? n then 0 else bigEndianByteAt bigint (Z.to_nat (padlength - 1 - n)).

(** The loop of Exp over the bits of one word: the result and the base. *)
Fixpoint exp_bits (k : nat) (word result base : Z) : Z * Z :=
  match k with
  | O => (result, base)
  | S k => let result := if Z.land word 1 =? 1 then U256 (result * base) else result in
           exp_bits k (Z.shiftr word 1) result (U256 (base * base))
  end.
Fixpoint exp_words (ws : list Z) (result base : Z) : Z * Z :=
  match ws with
  | [] => (result, base)
  | word :: ws => let '(result, base) := exp_bits (8 * wordBytes) word result base in exp_words ws result base
  end.
(** The result, and the value of the first argument afterwards; the two
    arguments are distinct integers. *)
Definition Exp (base exponent : Z) : Z * Z := exp_words (Bits exponent) 1 base.
End words.

(** ** 64-bit arithmetic *)

(** C36: The checked operations return the result modulo 2^64 and report an
    overflow exactly when the mathematical result does not fit in 64 bits. *)
Theorem safe_arithmetic_exact x y :
  u64_ok x -> u64_ok y ->
  SafeAdd x y = ((x + y) mod 2 ^ 64, negb (bool_decide (u64_ok (x + y)))) /\
  SafeSub x y = ((x - y) mod 2 ^ 64, negb (bool_decide (u64_ok (x - y)))) /\
  SafeMul x y = ((x * y) mod 2 ^ 64, negb (bool_decide (u64_ok (x * y)))).
Proof.
  unfold u64_ok. intros Hx Hy. split; [|split].
  - unfold SafeAdd, MaxUint64. f_equal. unfold u64. rewrite Z.mod_small by lia.
    case_bool_decide; simpl; bprop; lia.
  - unfold SafeSub. f_equal. case_bool_decide; simpl; bprop; lia.
  - unfold SafeMul, MaxUint64. destruct (Z.eqb_spec x 0) as [->|]; simpl; [done|].
    destruct (Z.eqb_spec y 0) as [->|]; simpl; [by rewrite Z.mul_0_r|]. unfold u64. f_equal.
    pose proof (Z.mul_div_le (2 ^ 64 - 1) x ltac:(lia)). pose proof (Z.mul_succ_div_gt (2 ^ 64 - 1) x ltac:(lia)).
    set (q := (2 ^ 64 - 1) / x) in *. change 18446744073709551615 with (2 ^ 64 - 1). fold q. clearbody q.
    case_bool_decide; simpl; bprop; try done; nia.
Qed.

Lemma safe_arithmetic_exact_witness :
  SafeAdd (2 ^ 64 - 1) 1 = (0, true) /\ SafeSub 0 1 = (2 ^ 64 - 1, true) /\ SafeMul (2 ^ 32) (2 ^ 32) = (0, true).
Proof.
  destruct (safe_arithmetic_exact (2 ^ 64 - 1) 1 ltac:(unfold u64_ok; lia) ltac:(unfold u64_ok; lia)) as (H1 & _).
  destruct (safe_arithmetic_exact 0 1 ltac:(unfold u64_ok; lia) ltac:(unfold u64_ok; lia)) as (_ & H2 & _).
  destruct (safe_arithmetic_exact (2 ^ 32) (2 ^ 32) ltac:(unfold u64_ok; lia) ltac:(unfold u64_ok; lia)) as (_ & _ & H3).
  split; [exact H1|]. split; [exact H2|exact H3].
Defined.

(** ** Bytes of a big integer *)

Lemma be_bytes_cons t X : be_bytes (S t) X = (X / 256 ^ Z.of_nat t) mod 256 :: be_bytes t X.
Proof.
  revert X. induction t as [|t IH]; intros X; [simpl; by rewrite Z.div_1_r|].
  change (be_bytes (S (S t)) X) with (be_bytes (S t) (X / 256) ++ [X mod 256]).
  rewrite IH, Z.div_div by (try lia; apply Z.pow_pos_nonneg; lia).
  rewrite Nat2Z.inj_succ, Z.pow_succ_r by lia. done.
Qed.

Lemma be_bytes_pad k t X : 0 <= X < 256 ^ Z.of_nat t -> be_bytes (k + t) X = replicate k 0 ++ be_bytes t X.
Proof.
  intros HX. induction k as [|k IH]; [done|]. cbn [Nat.add]. rewrite be_bytes_cons, IH. simpl. f_equal.
  rewrite Z.div_small; [done|]. split; [lia|]. eapply Z.lt_le_trans; [apply HX|]. apply Z.pow_le_mono_r; lia.
Qed.

Lemma be_bytes_lookup m X n :
  (n < m)%nat -> be_bytes m X !! n = Some ((X / 256 ^ Z.of_nat (m - 1 - n)) mod 256).
Proof.
  revert n. induction m as [|m IH]; intros n Hn; [lia|]. rewrite be_bytes_cons.
  destruct n as [|n]; simpl; [by rewrite Nat.sub_0_r, Nat.sub_0_r|]. rewrite IH by lia.
  do 4 f_equal. lia.
Qed.

Lemma abs_lt_pow x : Z.abs x < 2 ^ bit_len x.
Proof.
  unfold bit_len. destruct (Z.eqb_spec x 0) as [->|]; [done|].
  destruct (Z.log2_spec (Z.abs x)) as [_ H]; [lia|]. by rewrite Z.add_1_r.
Qed.

Lemma bit_len_nonneg x : 0 <= bit_len x.
Proof. unfold bit_len. pose proof (Z.log2_nonneg (Z.abs x)). destruct (x =? 0); lia. Qed.

Lemma bit_len_le x k : 0 <= k -> (bit_len x <= k <-> Z.abs x < 2 ^ k).
Proof.
  intros Hk. unfold bit_len. destruct (Z.eqb_spec x 0) as [->|Hx].
  { split; [intros _; simpl; apply Z.pow_pos_nonneg; lia|lia]. }
  rewrite Z.log2_lt_pow2 by lia. lia.
Qed.

Section words_lemmas.
  Context (wb : nat) (Hwb : (0 < wb)%nat).
  Local Abbreviation W := (256 ^ Z.of_nat wb).

Lemma word_ge : 2 <= W.
Proof.
  assert (256 ^ 1 <= W) by (apply Z.pow_le_mono_r; lia). lia.
Qed.

Lemma big_words_step f z : 0 <= z < 2 ^ Z.of_nat (S f) -> 0 <= z / W < 2 ^ Z.of_nat f.
Proof.
  intros Hz. pose proof word_ge. rewrite Nat2Z.inj_succ, Z.pow_succ_r in Hz by lia.
  split; [apply Z.div_pos; lia|]. apply Z.div_lt_upper_bound; [lia|]. nia.
Qed.

Lemma big_words_lookup f : forall z i,
  0 <= z < 2 ^ Z.of_nat f ->
  big_words wb f z !! i = if z / W ^ Z.of_nat i =? 0 then None else Some ((z / W ^ Z.of_nat i) mod W).
Proof.
  pose proof word_ge. induction f as [|f IH]; intros z i Hz.
  - assert (z = 0) as -> by (simpl in Hz; lia). by rewrite Z.div_0_l by (apply Z.pow_nonzero; lia).
  - simpl. destruct (Z.eqb_spec z 0) as [->|Hne]; [by rewrite Z.div_0_l by (apply Z.pow_nonzero; lia)|].
    destruct i as [|i]; simpl; [rewrite Z.div_1_r; by destruct (Z.eqb_spec z 0)|].
    rewrite IH by (by apply big_words_step). change (Z.pos (Pos.of_succ_nat i)) with (Z.of_nat (S i)).
    rewrite Z.div_div by (try lia; apply Z.pow_pos_nonneg; lia).
    by rewrite Nat2Z.inj_succ, Z.pow_succ_r by lia.
Qed.

(** The number that little-endian words denote. *)
Fixpoint words_val (ws : list Z) : Z :=
  match ws with [] => 0 | w :: ws => w + W * words_val ws end.

Lemma big_words_val f : forall z,
  0 <= z < 2 ^ Z.of_nat f -> words_val (big_words wb f z) = z /\ Forall (fun w => 0 <= w < W) (big_words wb f z).
Proof.
  pose proof word_ge. induction f as [|f IH]; intros z Hz; [simpl in *; split; [lia|constructor]|].
  simpl. destruct (Z.eqb_spec z 0) as [->|]; [by split; [|constructor]|].
  destruct (IH (z / W)) as [E F]; [by apply big_words_step|]. simpl. rewrite E. split.
  - pose proof (Z.div_mod z W). lia.
  - constructor; [apply Z.mod_pos_bound; lia|done].
Qed.

Lemma Bits_fuel x : 0 <= Z.abs x < 2 ^ Z.of_nat (Z.to_nat (bit_len x)).
Proof. rewrite Z2Nat.id by apply bit_len_nonneg. split; [lia|apply abs_lt_pow]. Qed.

Lemma words_val_bound ws :
  Forall (fun w => 0 <= w < W) ws -> 0 <= words_val ws < 256 ^ Z.of_nat (wb * length ws).
Proof.
  induction 1 as [|w ws Hw _ IH]; [by rewrite Nat.mul_0_r|]. simpl words_val. simpl length.
  replace (Z.of_nat (wb * S (length ws))) with (Z.of_nat wb + Z.of_nat (wb * length ws)) by lia.
  rewrite Z.pow_add_r by lia. nia.
Qed.

(** The bytes below index [n - t] are those of the buffer, the others the [t]
    low bytes of the number. *)
Definition filled (buf0 : list Z) (X : Z) (t : nat) : list Z :=
  take (length buf0 - t) buf0 ++ be_bytes t X.

Lemma filled_step buf0 X t :
  (t < length buf0)%nat ->
  <[(length buf0 - S t)%nat := (X / 256 ^ Z.of_nat t) mod 256]> (filled buf0 X t) = filled buf0 X (S t).
Proof.
  intros Ht. unfold filled. rewrite be_bytes_cons.
  replace (length buf0 - t)%nat with (S (length buf0 - S t)) by lia. set (i := (length buf0 - S t)%nat).
  destruct (lookup_lt_is_Some_2 buf0 i) as [y Hy]; [lia|].
  rewrite (take_S_r _ _ _ Hy), <- app_assoc. simpl.
  assert (length (take i buf0) = i) as Hl by (rewrite length_take; lia).
  rewrite <- Hl at 1. by rewrite insert_app_r_alt, Nat.sub_diag by lia.
Qed.

Lemma put_word_spec buf0 X j : forall d t,
  (t <= length buf0)%nat -> d mod 256 ^ Z.of_nat j = (X / 256 ^ Z.of_nat t) mod 256 ^ Z.of_nat j ->
  put_word j d (length buf0 - t) (filled buf0 X t) =
  let t' := Nat.min (t + j) (length buf0) in ((length buf0 - t')%nat, filled buf0 X t').
Proof.
  induction j as [|j IH]; intros d t Ht Hd; cbv zeta.
  - by replace (Nat.min (t + 0) (length buf0)) with t by lia.
  - simpl. destruct (length buf0 - t)%nat as [|i] eqn:Ei.
    { replace (Nat.min (t + S j) (length buf0)) with t by lia. by rewrite Ei. }
    replace i with (length buf0 - S t)%nat by lia.
    rewrite Nat2Z.inj_succ, Z.pow_succ_r in Hd by lia.
    assert (0 < 256 ^ Z.of_nat j) by (apply Z.pow_pos_nonneg; lia).
    assert (0 < 256 ^ Z.of_nat t) by (apply Z.pow_pos_nonneg; lia).
    rewrite !Z.rem_mul_r in Hd by lia.
    pose proof (Z.mod_pos_bound d 256 ltac:(lia)). pose proof (Z.mod_pos_bound (X / 256 ^ Z.of_nat t) 256 ltac:(lia)).
    assert (d mod 256 = (X / 256 ^ Z.of_nat t) mod 256) as E0 by lia.
    assert (u8 d = (X / 256 ^ Z.of_nat t) mod 256) as -> by done.
    rewrite filled_step by lia. rewrite IH; [|lia|].
    + cbv zeta. by replace (Nat.min (S t + j) (length buf0)) with (Nat.min (t + S j) (length buf0)) by lia.
    + rewrite Z.shiftr_div_pow2 by lia. change (2 ^ 8) with 256.
      rewrite Nat2Z.inj_succ, Z.pow_succ_r, (Z.mul_comm 256 (256 ^ Z.of_nat t)), <- Z.div_div by lia. lia.
Qed.

Lemma put_words_spec buf0 X f : forall t,
  (t <= length buf0)%nat -> 0 <= X / 256 ^ Z.of_nat t < 2 ^ Z.of_nat f ->
  put_words wb (big_words wb f (X / 256 ^ Z.of_nat t)) (length buf0 - t) (filled buf0 X t) =
  filled buf0 X (Nat.min (t + wb * length (big_words wb f (X / 256 ^ Z.of_nat t))) (length buf0)).
Proof.
  pose proof word_ge. induction f as [|f IH]; intros t Ht Hz.
  - simpl. rewrite Nat.mul_0_r. f_equal. lia.
  - pose proof (big_words_step f _ Hz) as Hz'. simpl big_words.
    destruct (Z.eqb_spec (X / 256 ^ Z.of_nat t) 0) as [|Hne]; [simpl; f_equal; lia|].
    assert (0 < 256 ^ Z.of_nat t) by (apply Z.pow_pos_nonneg; lia).
    cbn [put_words]. rewrite put_word_spec; [|done|apply Z.mod_mod; lia]. cbv zeta.
    destruct (decide (t + wb <= length buf0)%nat) as [Hle|Hgt].
    + rewrite (Nat.min_l (t + wb)) by done.
      assert (X / 256 ^ Z.of_nat t / W = X / 256 ^ Z.of_nat (t + wb)) as Eq.
      { rewrite Z.div_div, <- Z.pow_add_r by lia. do 2 f_equal. lia. }
      rewrite Eq in *. rewrite IH by done. f_equal. simpl length. lia.
    + rewrite (Nat.min_r (t + wb)) by lia. rewrite Nat.min_r by (simpl length; lia).
      rewrite Nat.sub_diag. generalize (big_words wb f (X / 256 ^ Z.of_nat t / W)). clear -Hwb.
      intros ws. induction ws as [|w ws IHw]; [done|]. simpl. by destruct wb.
Qed.

Lemma ReadBits_zeros x n : ReadBits wb x (replicate n 0) = be_bytes n (Z.abs x).
Proof.
  unfold ReadBits, Bits. pose proof (Bits_fuel x) as Hf. set (f := Z.to_nat (bit_len x)) in *.
  pose proof (put_words_spec (replicate n 0) (Z.abs x) f 0 ltac:(lia)) as H.
  change (256 ^ Z.of_nat 0) with 1 in H. rewrite Z.div_1_r in H. specialize (H Hf).
  unfold filled at 1 in H. rewrite Nat.sub_0_r, firstn_all in H. simpl in H. rewrite app_nil_r in H.
  rewrite H. unfold filled. rewrite length_replicate. destruct (big_words_val f (Z.abs x) Hf) as [Ev Fv].
  pose proof (words_val_bound _ Fv) as Hb. rewrite Ev in Hb.
  set (t := (wb * length (big_words wb f (Z.abs x)))%nat) in *.
  rewrite take_replicate. destruct (Nat.le_gt_cases t n) as [Hle|Hgt].
  - rewrite (Nat.min_l t n), Nat.min_l, <- (be_bytes_pad (n - t) t) by (done || lia).
    f_equal. lia.
  - by rewrite (Nat.min_r t n), Nat.sub_diag by lia.
Qed.

Lemma bigEndianByteAt_eq x n : bigEndianByteAt wb x n = (Z.abs x / 256 ^ Z.of_nat n) mod 256.
Proof.
  unfold bigEndianByteAt, Bits. pose proof word_ge. rewrite big_words_lookup by apply Bits_fuel.
  pose proof (Nat.div_mod_eq n wb) as D. pose proof (Nat.mod_upper_bound n wb ltac:(lia)) as M.
  set (q := (n / wb)%nat) in *. set (r := (n mod wb)%nat) in *.
  assert (256 ^ Z.of_nat n = W ^ Z.of_nat q * 256 ^ Z.of_nat r) as ->.
  { rewrite <- Z.pow_mul_r, <- Z.pow_add_r by lia. f_equal. lia. }
  assert (0 < W ^ Z.of_nat q) by (apply Z.pow_pos_nonneg; lia).
  assert (0 < 256 ^ Z.of_nat r) by (apply Z.pow_pos_nonneg; lia).
  rewrite <- Z.div_div by lia. destruct (Z.eqb_spec (Z.abs x / W ^ Z.of_nat q) 0) as [->|]; [by rewrite Z.div_0_l by lia|].
  set (y := Z.abs x / W ^ Z.of_nat q). unfold u8. rewrite Z.shiftr_div_pow2, Z.pow_mul_r by lia.
  change (2 ^ 8) with 256.
  replace (Z.of_nat wb) with (Z.of_nat r + Z.of_nat (wb - r)) by lia.
  rewrite Z.pow_add_r, Z.rem_mul_r by (try apply Z.pow_nonzero; try apply Z.pow_pos_nonneg; lia).
  assert (0 <= y mod 256 ^ Z.of_nat r < 256 ^ Z.of_nat r) by (apply Z.mod_pos_bound; lia).
  rewrite Z.add_comm, (Z.mul_comm (256 ^ Z.of_nat r)), Z.div_add_l, (Z.div_small (y mod _)), Z.add_0_r by lia.
  replace (Z.of_nat (wb - r)) with (1 + Z.of_nat (wb - r - 1)) by lia.
  rewrite Z.pow_add_r, Z.pow_1_r, Z.rem_mul_r by (try apply Z.pow_pos_nonneg; lia).
  rewrite Z.add_comm, Z.mul_comm, Z.add_comm, Z.mod_add, Z.mod_mod by lia. done.
Qed.

Lemma PaddedBigBytes_fits x n :
  0 <= n -> Z.abs x < 256 ^ n -> PaddedBigBytes wb x n = be_bytes (Z.to_nat n) (Z.abs x).
Proof.
  intros Hn Hx. unfold PaddedBigBytes. destruct (Z.leb_spec n (bit_len x / 8)) as [Hl|Hl].
  - change 256 with (2 ^ 8) in Hx. rewrite <- Z.pow_mul_r in Hx by lia. apply bit_len_le in Hx; [|lia].
    unfold big_bytes. do 2 f_equal. pose proof (Z.mul_div_le (bit_len x) 8 ltac:(lia)).
    assert (bit_len x = 8 * n) as -> by lia. symmetry. apply Z.div_unique with 7; lia.
  - apply ReadBits_zeros.
Qed.
End words_lemmas.

(** PaddedBigBytes returns the big-endian bytes of the absolute value,
    padded with zeros to at least the asked length, and Byte reads the bytes of
    that encoding, for every width of big.Word. *)
Theorem PaddedBigBytes_and_Byte wb x n i :
  (0 < wb)%nat -> 0 <= n ->
  be_val (PaddedBigBytes wb x n) = Z.abs x /\ bytes_ok (PaddedBigBytes wb x n) /\
  len (PaddedBigBytes wb x n) = Z.max n (len (big_bytes x)) /\
  (Z.abs x < 256 ^ n -> 0 <= i < n ->
   PaddedBigBytes wb x n !! Z.to_nat i = Some (Byte wb x n i)).
Proof.
  intros Hwb Hn. assert (Hb : Z.abs x < 256 ^ n \/ n <= bit_len x / 8).
  { change 256 with (2 ^ 8). rewrite <- Z.pow_mul_r by lia. rewrite <- bit_len_le by lia.
    pose proof (Z.mul_succ_div_gt (bit_len x) 8 ltac:(lia)). lia. }
  split; [|split; [|split]].
  - destruct Hb as [Hb|Hb].
    + rewrite PaddedBigBytes_fits, be_val_be_bytes, Z2Nat.id by done. apply Z.mod_small. lia.
    + unfold PaddedBigBytes. destruct (Z.leb_spec n (bit_len x / 8)); [|lia].
      rewrite <- (be_val_big_bytes (Z.abs x)) by lia. unfold big_bytes, bit_len. rewrite Z.abs_idemp.
      by destruct (Z.eqb_spec x 0), (Z.eqb_spec (Z.abs x) 0); try lia; subst.
  - unfold PaddedBigBytes. destruct (_ <=? _); [apply big_bytes_ok|]. unfold zeros.
    rewrite ReadBits_zeros by done. apply be_bytes_ok.
  - unfold PaddedBigBytes. pose proof (bit_len_nonneg x).
    assert (L : len (big_bytes x) = (bit_len x + 7) / 8).
    { unfold len, big_bytes. rewrite be_bytes_length, Z2Nat.id; [done|]. apply Z.div_pos; lia. }
    rewrite L. pose proof (Z.div_mod (bit_len x) 8). pose proof (Z.mod_pos_bound (bit_len x) 8).
    pose proof (Z.div_mod (bit_len x + 7) 8). pose proof (Z.mod_pos_bound (bit_len x + 7) 8).
    destruct (Z.leb_spec n (bit_len x / 8)); [lia|]. unfold zeros.
    rewrite ReadBits_zeros by done. unfold len. rewrite be_bytes_length. lia.
  - intros Hx Hi. rewrite PaddedBigBytes_fits, be_bytes_lookup by (done || lia). f_equal.
    unfold Byte. destruct (Z.leb_spec n i); [lia|]. rewrite bigEndianByteAt_eq by done. do 3 f_equal. lia.
Qed.

Lemma PaddedBigBytes_and_Byte_witness :
  PaddedBigBytes 8 5 32 !! 31%nat = Some (Byte 8 5 32 31) /\ be_val (PaddedBigBytes 4 (-300) 1) = 300.
Proof.
  destruct (PaddedBigBytes_and_Byte 8 5 32 31 ltac:(lia) ltac:(lia)) as (_ & _ & _ & H).
  destruct (PaddedBigBytes_and_Byte 4 (-300) 1 0 ltac:(lia) ltac:(lia)) as (H2 & _).
  split; [apply H; lia|exact H2].
Defined.

(** ** 256-bit arithmetic *)

Lemma U256_mod x : U256 x = x mod 2 ^ 256.
Proof. unfold U256. change tt256m1 with (Z.ones 256). by rewrite Z.land_ones. Qed.

(** U256 and S256 are the two's complement of 256 bits: U256 reduces
    modulo 2^256, S256 undoes it on the signed range, and U256 undoes S256 on
    the unsigned one. *)
Theorem twos_complement_256 x :
  U256 x = x mod 2 ^ 256 /\
  (S256 (U256 x) = x <-> - 2 ^ 255 <= x < 2 ^ 255) /\
  (0 <= x < 2 ^ 256 -> U256 (S256 x) = x /\ - 2 ^ 255 <= S256 x < 2 ^ 255).
Proof.
  rewrite !U256_mod. change tt255 with (2 ^ 255). unfold S256. change tt255 with (2 ^ 255). change tt256 with (2 ^ 256).
  pose proof (Z.mod_pos_bound x (2 ^ 256) ltac:(lia)) as Hm. pose proof (Z.div_mod x (2 ^ 256) ltac:(lia)) as D.
  split; [done|]. split.
  - set (q := x / 2 ^ 256) in *. set (m := x mod 2 ^ 256) in *. clearbody q m. bprop.
  - intros Hx. destruct (Z.ltb_spec x (2 ^ 255)).
    + split; [by apply Z.mod_small|lia].
    + split; [|lia]. symmetry. apply Z.mod_unique with (-1); lia.
Qed.

Lemma twos_complement_256_witness : S256 (U256 (-1)) = -1 /\ U256 (S256 (2 ^ 255)) = 2 ^ 255.
Proof.
  destruct (twos_complement_256 (-1)) as (_ & H & _). destruct (twos_complement_256 (2 ^ 255)) as (_ & _ & H2).
  split; [apply H; lia|apply H2; lia].
Defined.

Section exp.
  Context (wb : nat) (Hwb : (0 < wb)%nat).
  Local Abbreviation M := (2 ^ 256).

Lemma pow_mod_l a n : 0 <= n -> (a mod M) ^ n mod M = a ^ n mod M.
Proof. intros Hn. symmetry. apply Zpower_mod. lia. Qed.

Lemma U256_idem a : U256 a mod M = a mod M.
Proof. rewrite U256_mod. apply Z.mod_mod. lia. Qed.

Lemma exp_bits_spec k : forall w r b,
  0 <= w ->
  let '(r', b') := exp_bits k w r b in
  r' mod M = (r * b ^ (w mod 2 ^ Z.of_nat k)) mod M /\ b' mod M = b ^ (2 ^ Z.of_nat k) mod M /\
  (0 <= r < M -> 0 <= r' < M) /\ ((0 < k)%nat -> 0 <= b' < M).
Proof.
  induction k as [|k IH]; intros w r b Hw.
  - simpl. rewrite Z.mod_1_r, Z.pow_0_r, Z.mul_1_r. change (2 ^ 0) with 1. rewrite Z.pow_1_r.
    repeat split; try done; lia.
  - cbn [exp_bits]. set (r1 := if Z.land w 1 =? 1 then U256 (r * b) else r).
    specialize (IH (Z.shiftr w 1) r1 (U256 (b * b)) ltac:(by apply Z.shiftr_nonneg)).
    destruct (exp_bits k (Z.shiftr w 1) r1 (U256 (b * b))) as [r' b'] eqn:E.
    destruct IH as (Hr & Hb & Rr & Rb).
    assert (Hk : 0 < 2 ^ Z.of_nat k) by (apply Z.pow_pos_nonneg; lia).
    assert (Sq : forall n, 0 <= n -> U256 (b * b) ^ n mod M = b ^ (2 * n) mod M).
    { intros n Hn. rewrite U256_mod, pow_mod_l, Z.pow_mul_r by lia. by rewrite Z.pow_2_r. }
    rewrite Z.shiftr_div_pow2 in Hr by lia. change (2 ^ 1) with 2 in Hr.
    set (h := (w / 2) mod 2 ^ Z.of_nat k) in *.
    assert (0 <= h) by (by apply Z.mod_pos_bound).
    assert (Hm : w mod 2 ^ Z.of_nat (S k) = w mod 2 + 2 * h).
    { rewrite Nat2Z.inj_succ, Z.pow_succ_r, Z.rem_mul_r by lia. done. }
    split; [|split; [|split]].
    + rewrite Hr, <- Zmult_mod_idemp_r, Sq, Zmult_mod_idemp_r, Hm by done.
      subst r1. change (Z.land w 1) with (Z.land w (Z.ones 1)). rewrite Z.land_ones by lia. change (2 ^ 1) with 2.
      pose proof (Z.mod_pos_bound w 2 ltac:(lia)).
      destruct (Z.eqb_spec (w mod 2) 1) as [->|].
      * rewrite <- Zmult_mod_idemp_l, U256_idem, Zmult_mod_idemp_l, Z.pow_add_r, Z.pow_1_r by lia. f_equal. lia.
      * replace (w mod 2) with 0 by lia. by rewrite Z.add_0_l.
    + rewrite Hb, Sq by lia. by rewrite Nat2Z.inj_succ, Z.pow_succ_r by lia.
    + intros Hr0. apply Rr. subst r1. destruct (_ =? _); [|done]. rewrite U256_mod. apply Z.mod_pos_bound. lia.
    + intros _. destruct k; [|apply Rb; lia]. injection E as <- <-. rewrite U256_mod. apply Z.mod_pos_bound. lia.
Qed.

Lemma exp_words_spec ws : forall r b,
  Forall (fun w => 0 <= w < 256 ^ Z.of_nat wb) ws ->
  let '(r', b') := exp_words wb ws r b in
  r' mod M = (r * b ^ words_val wb ws) mod M /\ b' mod M = b ^ (2 ^ (Z.of_nat (8 * wb * length ws))) mod M /\
  (0 <= r < M -> 0 <= r' < M) /\ (ws <> [] -> 0 <= b' < M).
Proof.
  induction ws as [|w ws IH]; intros r b H.
  - simpl. rewrite Nat.mul_0_r, Z.mul_1_r. change (2 ^ Z.of_nat 0) with 1. rewrite Z.pow_1_r. done.
  - apply Forall_cons in H as [Hw H]. cbn [exp_words].
    pose proof (exp_bits_spec (8 * wb) w r b ltac:(lia)) as Hs.
    destruct (exp_bits (8 * wb) w r b) as [r1 b1]. destruct Hs as (E1 & E2 & R1 & R2).
    specialize (IH r1 b1 H). destruct (exp_words wb ws r1 b1) as [r' b'] eqn:E. destruct IH as (F1 & F2 & R3 & R4).
    assert (EW : 2 ^ Z.of_nat (8 * wb) = 256 ^ Z.of_nat wb).
    { change 256 with (2 ^ 8). rewrite <- Z.pow_mul_r by lia. f_equal. lia. }
    rewrite EW, (Z.mod_small w) in E1 by done.
    pose proof (proj1 (words_val_bound wb Hwb ws H)) as Hv.
    assert (0 < 256 ^ Z.of_nat wb) by (apply Z.pow_pos_nonneg; lia).
    split; [|split; [|split]].
    + rewrite F1, <- Zmult_mod_idemp_l, E1, Zmult_mod_idemp_l, <- Zmult_mod_idemp_r, <- pow_mod_l, E2, EW by done.
      rewrite pow_mod_l, Zmult_mod_idemp_r, <- Z.pow_mul_r by (done || by apply Z.lt_le_incl). simpl words_val.
      rewrite Z.pow_add_r by first [by apply Z.mul_nonneg_nonneg; [apply Z.lt_le_incl|]|apply Hw]. f_equal. ring.
    + rewrite F2, <- pow_mod_l, E2, pow_mod_l, <- Z.pow_mul_r, <- Z.pow_add_r
        by first [apply Nat2Z.is_nonneg|by apply Z.pow_nonneg].
      do 3 f_equal. clear. simpl length. lia.
    + intros Hr. by apply R3, R1.
    + intros _. destruct ws; [injection E as <- <-; apply R2; clear -Hwb; lia|by apply R4].
Qed.
End exp.

(** Exp returns the power of the base to the absolute value of the
    exponent modulo 2^256, for every base and every width of big.Word; unless
    the exponent is zero it also overwrites its base, with the base raised to
    2^(bits of the exponent's words), modulo 2^256.  Its documentation says
    the base is not changed. *)
Theorem Exp_spec wb base exponent :
  (0 < wb)%nat ->
  fst (Exp wb base exponent) = base ^ Z.abs exponent mod 2 ^ 256 /\
  (exponent <> 0 ->
   snd (Exp wb base exponent) = base ^ (2 ^ Z.of_nat (8 * wb * length (Bits wb exponent))) mod 2 ^ 256).
Proof.
  intros Hwb. unfold Exp. destruct (big_words_val wb Hwb _ _ (Bits_fuel wb Hwb exponent)) as [Ev Fv].
  fold (Bits wb exponent) in *. pose proof (exp_words_spec wb Hwb (Bits wb exponent) 1 base Fv) as H.
  destruct (exp_words wb (Bits wb exponent) 1 base) as [r b]. destruct H as (H1 & H2 & H3 & H4). simpl fst. simpl snd.
  rewrite Ev, Z.mul_1_l in H1. split.
  - rewrite <- H1. symmetry. apply Z.mod_small. apply H3. lia.
  - intros He. rewrite <- H2. symmetry. apply Z.mod_small. apply H4. intros E. rewrite E in Ev. simpl in Ev. lia.
Qed.

Lemma Exp_spec_witness : fst (Exp 8 3 5) = 243 /\ snd (Exp 8 2 1) = 0.
Proof.
  destruct (Exp_spec 8 3 5 ltac:(lia)) as [H1 _]. destruct (Exp_spec 8 2 1 ltac:(lia)) as [_ H2].
  split; [rewrite H1; reflexivity|]. vm_compute. reflexivity.
Defined.

(** ** Bits *)

Lemma first_bit_spec k : forall i v,
  0 <= i -> bit_len v = i + Z.of_nat k -> (forall j, 0 <= j < i -> Z.testbit v j = false) ->
  let r := first_bit k i v in
  (forall j, 0 <= j < r -> Z.testbit v j = false) /\ i <= r <= bit_len v /\
  (r < bit_len v -> Z.testbit v r = true).
Proof.
  induction k as [|k IH]; intros i v Hi Hl Hz; simpl.
  - rewrite Hl. split; [intros j Hj; apply Hz; lia|]. split; lia.
  - destruct (Z.testbit v i) eqn:E; [split; [done|]; split; [lia|done]|].
    destruct (IH (i + 1) v) as (H1 & H2 & H3); [lia|lia| |].
    + intros j Hj. destruct (decide (j = i)) as [->|]; [done|]. apply Hz. lia.
    + split; [done|]. split; [lia|done].
Qed.

(** FirstBitSet returns the position of the lowest bit that is set, in
    two's complement for negative numbers, and 0 for zero: the number is that
    power of two times an odd number. *)
Theorem FirstBitSet_spec v :
  (v = 0 /\ FirstBitSet v = 0) \/
  (v <> 0 /\ 0 <= FirstBitSet v < bit_len v /\ Z.testbit v (FirstBitSet v) = true /\
   forall j, 0 <= j < FirstBitSet v -> Z.testbit v j = false).
Proof.
  destruct (decide (v = 0)) as [->|Hv]; [by left|right]. split; [done|].
  destruct (first_bit_spec (Z.to_nat (bit_len v)) 0 v) as (H1 & H2 & H3); [lia| |lia|].
  { rewrite Z2Nat.id by apply bit_len_nonneg. lia. }
  fold (FirstBitSet v) in *. destruct (decide (FirstBitSet v < bit_len v)) as [Hlt|Hge]; [by repeat split; try lia; auto|].
  exfalso. assert (FirstBitSet v = bit_len v) as E by lia. rewrite E in H1.
  assert (v mod 2 ^ bit_len v = 0) as Hm.
  { apply Z.bits_inj'. intros j Hj. rewrite Z.bits_0. destruct (Z.ltb_spec j (bit_len v)).
    - rewrite Z.mod_pow2_bits_low by done. by apply H1.
    - apply Z.mod_pow2_bits_high; pose proof (bit_len_nonneg v); lia. }
  pose proof (abs_lt_pow v) as Hb. apply Z.mod_divide in Hm as [q Hq]; [|apply Z.pow_nonzero; [lia|apply bit_len_nonneg]].
  assert (0 < 2 ^ bit_len v) by (apply Z.pow_pos_nonneg; [lia|apply bit_len_nonneg]).
  set (P := 2 ^ bit_len v) in *. clearbody P.
  destruct (decide (q = 0)) as [->|]; [lia|]. rewrite Hq, Z.abs_mul in Hb. nia.
Qed.

(** ** Numbers as text *)

Lemma has_hex_prefix_0x t : has_hex_prefix (str "0x" ++ t) = true.
Proof.
  unfold has_hex_prefix. rewrite len_app. change (len (str "0x")) with 2. pose proof (len_nonneg t).
  destruct (Z.leb_spec 2 (2 + len t)); [|lia]. by rewrite bool_decide_true.
Qed.

Lemma digits_FormatUint base n :
  2 <= base <= 36 -> 0 <= n -> exists ds, digits_of base (FormatUint n base) = Some ds /\ num_val base ds = n /\
    FormatUint n base <> [].
Proof.
  intros Hb Hn. destruct (FormatUint_spec base ltac:(lia) n Hn) as (ds & -> & Hd & Hc & Hv).
  exists ds. split; [by apply digits_of_char; [lia|]|]. split; [done|]. by destruct ds.
Qed.

Lemma decimal_no_prefix n : 0 <= n -> has_hex_prefix (FormatUint n 10) = false /\ FormatUint n 10 <> [].
Proof.
  intros Hn. destruct (FormatUint_spec 10 ltac:(lia) n Hn) as (ds & -> & Hd & Hc & Hv).
  destruct ds as [|d ds]; [done|]. split; [|done]. unfold has_hex_prefix. destruct ds as [|e ds]; [done|].
  simpl. rewrite !bool_decide_false; [by rewrite andb_false_r|..]; simpl in Hc;
    apply Forall_cons in Hd as [Hd Hd2]; apply Forall_cons in Hd2 as [He _]; unfold digit_char, str, chr; simpl;
    intros E; injection E as E1 E2; bprop.
Qed.

Lemma SetString_FormatUint base n :
  2 <= base <= 36 -> 0 <= n -> big_SetString (FormatUint n base) base = Some n.
Proof.
  intros Hb Hn. destruct (digits_FormatUint base n Hb Hn) as (ds & E & Hv & Hne).
  destruct (FormatUint n base) as [|c t] eqn:Ef; [done|]. unfold big_SetString.
  assert (digit_val base c <> None) as Hc.
  { unfold digits_of in E. simpl in E. by destruct (digit_val base c). }
  destruct (Z.eqb_spec c 45) as [->|]; [done|]. destruct (Z.eqb_spec c 43) as [->|]; [done|].
  unfold digits_of in E. rewrite E. unfold num_val in Hv. by rewrite Hv.
Qed.

(** The parsers read back what the marshallers and the decimal formatter
    write: hex and decimal texts of 64-bit and of non-negative 256-bit numbers
    give the number, and the empty text gives zero. *)
Theorem hex_or_decimal_roundtrip n n0 x x0 :
  u64_ok n -> 0 <= x < 2 ^ 256 ->
  HexOrDecimal64_UnmarshalText n0 (HexOrDecimal64_MarshalText n) = (n, true) /\
  ParseUint64 (FormatUint n 10) = (n, true) /\
  HexOrDecimal256_UnmarshalText x0 (HexOrDecimal256_MarshalText (Some x)) = (x, true) /\
  ParseBig256 (FormatUint x 10) = Some x.
Proof.
  intros Hn Hx. unfold u64_ok in Hn. destruct (decimal_no_prefix n ltac:(lia)) as [Pn Nn].
  destruct (decimal_no_prefix x ltac:(lia)) as [Px Nx].
  assert (Hl : (256 <? bit_len x) = false).
  { apply Z.ltb_ge. apply bit_len_le; [lia|]. lia. }
  assert (PU : forall b, 2 <= b <= 36 -> ParseUint (FormatUint n b) b = (n, None)).
  { intros b Hb. destruct (digits_FormatUint b n Hb ltac:(lia)) as (ds & E & Hv & Hne).
    apply ParseUint_ok; [done|]. split; [done|]. exists ds. split; [done|]. split; [done|lia]. }
  split; [|split; [|split]].
  - unfold HexOrDecimal64_UnmarshalText, HexOrDecimal64_MarshalText, Sprintf_x, ParseUint64.
    destruct (Z.ltb_spec n 0); [lia|]. rewrite app_nil_l, has_hex_prefix_0x, bool_decide_false by done.
    change (drop 2 (str "0x" ++ ?t)) with t. rewrite Z.abs_eq, PU by lia. done.
  - unfold ParseUint64. rewrite bool_decide_false, Pn, PU by (done || lia). done.
  - unfold HexOrDecimal256_UnmarshalText, HexOrDecimal256_MarshalText, Sprintf_x, ParseBig256.
    destruct (Z.ltb_spec x 0); [lia|]. rewrite app_nil_l, has_hex_prefix_0x, bool_decide_false by done.
    change (drop 2 (str "0x" ++ ?t)) with t. by rewrite Z.abs_eq, SetString_FormatUint, Hl by lia.
  - unfold ParseBig256. by rewrite bool_decide_false, Px, SetString_FormatUint, Hl by (done || lia).
Qed.

Lemma hex_or_decimal_roundtrip_witness :
  ParseUint64 (str "255") = (255, true) /\ HexOrDecimal256_UnmarshalText 0 (str "0xff") = (255, true).
Proof.
  destruct (hex_or_decimal_roundtrip 255 0 255 0 ltac:(unfold u64_ok; lia) ltac:(lia)) as (_ & H1 & H2 & _).
  split; [exact H1|exact H2].
Defined.

(** A negative number that HexOrDecimal256 marshals cannot be unmarshalled
    again, whereas a minus sign after the prefix, which no marshaller writes,
    is accepted. *)
Theorem negative_hex_or_decimal x x0 :
  0 < x < 2 ^ 256 ->
  HexOrDecimal256_UnmarshalText x0 (HexOrDecimal256_MarshalText (Some (- x))) = (x0, false) /\
  ParseBig256 (str "0x-" ++ FormatUint x 16) = Some (- x).
Proof.
  intros Hx. split.
  - unfold HexOrDecimal256_UnmarshalText, HexOrDecimal256_MarshalText, Sprintf_x, ParseBig256.
    destruct (Z.ltb_spec (- x) 0); [|lia]. generalize (FormatUint (Z.abs (- x)) 16). intros t.
    assert (has_hex_prefix (str "-" ++ str "0x" ++ t) = false) as ->; [|done].
    unfold has_hex_prefix. by rewrite !bool_decide_false, andb_false_r by done.
  - unfold ParseBig256. rewrite bool_decide_false by done. change (str "0x-" ++ ?t) with (str "0x" ++ str "-" ++ t).
    rewrite has_hex_prefix_0x. change (drop 2 (str "0x" ++ ?t)) with t.
    destruct (digits_FormatUint 16 x ltac:(lia) ltac:(lia)) as (ds & E & Hv & Hne).
    assert (big_SetString (str "-" ++ FormatUint x 16) 16 = Some (- x)) as ->.
    { unfold big_SetString. simpl. change (chr "-" =? 45) with true. cbv iota zeta beta.
      destruct (FormatUint x 16); [done|]. unfold digits_of in E. rewrite E. unfold num_val in Hv. by rewrite Hv. }
    destruct (Z.ltb_spec 256 (bit_len (- x))) as [C|]; [|done]. exfalso. apply Z.lt_nge in C. apply C.
    apply bit_len_le; lia.
Qed.

Lemma negative_hex_or_decimal_witness :
  HexOrDecimal256_UnmarshalText 7 (str "-0x5") = (7, false) /\ ParseBig256 (str "0x-5") = Some (-5).
Proof. apply (negative_hex_or_decimal 5 7). lia. Defined.
