(* ===== verification/Common.v ===== *)
(** * Package common: bytes, hashes and addresses

    The helpers of bytes.go and the Hash, Address and MixedcaseAddress types of
    types.go.  A fixed-size array is a list of its length.  The Keccak-256
    function that Address.Hex calls is a parameter, with the length and range of
    its digest as its only law. *)

From stdpp Require Import list strings.
From Stdlib Require Import Ascii.
From S2P Require Import Prelude GoText Hexutil.

(** ** bytes.go *)

Definition Bytes2Hex (d : list Z) : list Z := hex_Encode d.
(** The error of hex.DecodeString is dropped, the decoded prefix is kept. *)
Definition Hex2Bytes (s : list Z) : list Z := fst (hex_Decode s).

Definition ToHex (b : list Z) : list Z :=
  let hex := Bytes2Hex b in
  let hex := if len hex =? 0 then str "0" else hex in
  str "0x" ++ hex.
Definition ToHexArray (b : list (list Z)) : list (list Z) := map ToHex b.

Definition FromHex (s : list Z) : list Z :=
  let s := if has0xPrefix s then drop 2 s else s in
  let s := if len s mod 2 =? 1 then str "0" ++ s else s in
  Hex2Bytes s.

Definition CopyBytes (b : option (list Z)) : option (list Z) :=
  match b with None => None | Some b => Some (go_copy (zeros (len b)) b) end.

Definition isHexCharacter (c : Z) : bool :=
  ((chr "0" <=? c) && (c <=? chr "9")) || ((chr "a" <=? c) && (c <=? chr "f")) || ((chr "A" <=? c) && (c <=? chr "F")).
Definition isHex (s : list Z) : bool :=
  if negb (len s mod 2 =? 0) then false else forallb isHexCharacter s.

(** [None] is the panic of a negative length. *)
Definition Hex2BytesFixed (s : list Z) (flen : Z) : option (list Z) :=
  let h := Hex2Bytes s in
  if len h =? flen then Some h
  else if flen <? len h then go_from h (len h - flen)
  else go_copy_at (zeros flen) (flen - len h) h.

Definition RightPadBytes (slice : list Z) (l : Z) : list Z :=
  if l <=? len slice then slice else go_copy (zeros l) slice.
Definition LeftPadBytes (slice : list Z) (l : Z) : option (list Z) :=
  if l <=? len slice then Some slice else go_copy_at (zeros l) (l - len slice) slice.

(** The index where the loop of TrimLeftZeroes stops. *)
Fixpoint left_idx (s : list Z) : Z :=
  match s with [] => 0 | b :: s => if negb (b =? 0) then 0 else 1 + left_idx s end.
Definition TrimLeftZeroes (s : list Z) : option (list Z) := go_from s (left_idx s).
Fixpoint right_idx (k : nat) (s : list Z) : Z :=
  match k with
  | O => 0
  | S k => match s !! k with
           | Some b => if negb (b =? 0) then Z.of_nat (S k) else right_idx k s
           | None => 0
           end
  end.
Definition TrimRightZeroes (s : list Z) : option (list Z) := go_slice s 0 (right_idx (length s) s).

(** ** types.go: hashes and addresses *)

Definition HashLength : Z := 32.
Definition AddressLength : Z := 20.

(** SetBytes of an array of [n] bytes holding [h]. *)
Definition set_bytes (n : Z) (h b : list Z) : option (list Z) :=
  match (if n <? len b then go_from b (len b - n) else Some b) with
  | Some b => go_copy_at h (n - len b) b
  | None => None
  end.
Definition Hash_SetBytes := set_bytes HashLength.
Definition Address_SetBytes := set_bytes AddressLength.
Definition BytesToHash (b : list Z) : option (list Z) := Hash_SetBytes (zeros HashLength) b.
Definition BytesToAddress (b : list Z) : option (list Z) := Address_SetBytes (zeros AddressLength) b.
Definition BigToHash (b : Z) := BytesToHash (big_bytes b).
Definition BigToAddress (b : Z) := BytesToAddress (big_bytes b).
Definition HexToHash (s : list Z) := BytesToHash (FromHex s).
Definition HexToAddress (s : list Z) := BytesToAddress (FromHex s).
Definition Hash_Big (h : list Z) : Z := be_val h.
Definition Hash_Hex (h : list Z) : list Z := Encode h.
Definition Address_Hash (a : list Z) := BytesToHash a.

Definition Hash_UnmarshalText (h input : list Z) := UnmarshalFixedText "Hash" input h.
Definition Hash_UnmarshalJSON (h input : list Z) := UnmarshalFixedJSON "common.Hash" input h.
Definition Hash_MarshalText (h : list Z) := Bytes_MarshalText h.
Definition Address_UnmarshalText (a input : list Z) := UnmarshalFixedText "Address" input a.
Definition Address_UnmarshalJSON (a input : list Z) := UnmarshalFixedJSON "common.Address" input a.
Definition Address_MarshalText (a : list Z) := Bytes_MarshalText a.
Definition UnprefixedHash_UnmarshalText (h input : list Z) := UnmarshalFixedUnprefixedText "UnprefixedHash" input h.
Definition UnprefixedHash_MarshalText (h : list Z) := hex_Encode h.
Definition UnprefixedAddress_UnmarshalText (a input : list Z) := UnmarshalFixedUnprefixedText "UnprefixedAddress" input a.
Definition UnprefixedAddress_MarshalText (a : list Z) := hex_Encode a.

(** The source of a database scan: bytes or some other type.  The array
    afterwards and whether the scan succeeded. *)
Definition scan (n : Z) (h : list Z) (src : option (list Z)) : list Z * bool :=
  match src with
  | None => (h, false)
  | Some srcB => if negb (len srcB =? n) then (h, false) else (go_copy h srcB, true)
  end.
Definition Hash_Scan := scan HashLength.
Definition Address_Scan := scan AddressLength.

Definition IsHexAddress (s : list Z) : bool :=
  let s := if has0xPrefix s then drop 2 s else s in
  (len s =? 2 * AddressLength) && isHex s.

Section checksum.
  Context (Keccak256 : list Z -> list Z).

(** The loop of Address.Hex over the digits; [None] is an index out of range. *)
Fixpoint checksum (hash : list Z) (i : nat) (result : list Z) : option (list Z) :=
  match result with
  | [] => Some []
  | c :: result =>
      match hash !! (i / 2)%nat with
      | None => None
      | Some hashByte =>
          let hashByte := if (i mod 2 =? 0)%nat then Z.shiftr hashByte 4 else Z.land hashByte 15 in
          let c := if (chr "9" <? c) && (7 <? hashByte) then c - 32 else c in
          rest ← checksum hash (S i) result; Some (c :: rest)
      end
  end.
Definition Address_Hex (a : list Z) : option (list Z) :=
  let unchecksummed := hex_Encode a in
  result ← checksum (Keccak256 unchecksummed) 0 unchecksummed; Some (str "0x" ++ result).

Record MixedcaseAddress : Type := { addr : list Z; original : list Z }.
Definition NewMixedcaseAddress (a : list Z) : option MixedcaseAddress :=
  h ← Address_Hex a; Some {| addr := a; original := h |}.
(** [inl tt] is the error of an invalid address. *)
Definition NewMixedcaseAddressFromString (hexaddr : list Z) : unit + option MixedcaseAddress :=
  if negb (IsHexAddress hexaddr) then inl tt
  else inr (a ← BytesToAddress (FromHex hexaddr); Some {| addr := a; original := hexaddr |}).
Definition ValidChecksum (ma : MixedcaseAddress) : bool :=
  bool_decide (Some (original ma) = Address_Hex (addr ma)).
End checksum.

(** ** Cropping and padding *)

Lemma go_from_drop {A} (l : list A) n : 0 <= n <= len l -> go_from l n = Some (drop (Z.to_nat n) l).
Proof.
  intros Hn. unfold go_from, go_slice. bprop. f_equal. apply take_ge. rewrite length_drop. unfold len in *. lia.
Qed.

Lemma set_bytes_eq n h b :
  0 <= n -> len h = n ->
  set_bytes n h b = Some (take (Z.to_nat (n - len b)) h ++ drop (Z.to_nat (len b - n)) b).
Proof.
  intros Hn Hh. pose proof (len_nonneg b). unfold set_bytes.
  assert (C : forall s, len s <= n -> go_copy_at h (n - len s) s = Some (take (Z.to_nat (n - len s)) h ++ s)).
  { intros s Hs. unfold go_copy_at. pose proof (len_nonneg s). bprop. do 2 f_equal. unfold go_copy.
    rewrite take_ge by (rewrite length_drop; unfold len in *; lia).
    by rewrite (drop_ge (drop _ _)), app_nil_r by (rewrite length_drop; unfold len in *; lia). }
  destruct (Z.ltb_spec n (len b)).
  - rewrite go_from_drop by lia. rewrite C by (rewrite len_drop; lia).
    rewrite len_drop. do 3 f_equal. lia.
  - rewrite C by lia. by replace (Z.to_nat (len b - n)) with 0%nat by lia.
Qed.

Lemma be_bytes_low n b :
  bytes_ok b -> be_bytes n (be_val b) = replicate (n - length b) 0 ++ drop (length b - n) b.
Proof.
  intros Hb. apply be_val_inj.
  - rewrite be_bytes_length, length_app, length_replicate, length_drop. lia.
  - apply be_bytes_ok.
  - apply bytes_ok_app. split; [by apply Forall_replicate|by apply bytes_ok_drop].
  - rewrite be_val_be_bytes, be_val_app.
    assert (be_val (replicate (n - length b) 0) = 0) as ->.
    { induction (n - length b)%nat as [|k IH]; [done|]. simpl replicate. rewrite be_val_cons, IH. lia. }
    rewrite Z.mul_0_l, Z.add_0_l. rewrite <- (take_drop (length b - n) b) at 1. rewrite be_val_app.
    pose proof (be_val_bound (drop (length b - n) b) (bytes_ok_drop _ _ Hb)) as Hd.
    assert (0 < 256 ^ Z.of_nat n) by (apply Z.pow_pos_nonneg; lia).
    destruct (Nat.le_gt_cases n (length b)).
    + assert (len (drop (length b - n) b) = Z.of_nat n) as -> by (unfold len; rewrite length_drop; lia).
      rewrite Z.add_comm, Z.mod_add by lia. apply Z.mod_small. unfold len in Hd. rewrite length_drop in Hd.
      replace (length b - (length b - n))%nat with n in Hd by lia. done.
    + replace (length b - n)%nat with 0%nat in * by lia. rewrite take_0. change (be_val []) with 0.
      rewrite Z.mul_0_l, Z.add_0_l. apply Z.mod_small. split; [lia|]. eapply Z.lt_le_trans; [apply Hd|].
      apply Z.pow_le_mono_r; [lia|]. unfold len. rewrite length_drop. lia.
Qed.

(** Hashes and addresses made from bytes, big integers and other
    addresses hold the low-order bytes of the number, cropped or padded on the
    left; SetBytes itself keeps the old bytes on the left of a shorter value
    and crops a longer one: it never panics. *)
Theorem fixed_bytes_from b x h a :
  bytes_ok b -> length h = 32%nat -> length a = 20%nat ->
  BytesToHash b = Some (be_bytes 32 (be_val b)) /\
  BytesToAddress b = Some (be_bytes 20 (be_val b)) /\
  (forall h', BigToHash x = Some h' -> Hash_Big h' = Z.abs x mod 2 ^ 256) /\
  Hash_SetBytes h b = Some (take (32 - length b) h ++ drop (length b - 32) b) /\
  Address_SetBytes a b = Some (take (20 - length b) a ++ drop (length b - 20) b).
Proof.
  intros Hb Hh Ha.
  assert (G : forall n c, bytes_ok c -> set_bytes (Z.of_nat n) (zeros (Z.of_nat n)) c = Some (be_bytes n (be_val c))).
  { intros n c Hc. rewrite set_bytes_eq, be_bytes_low by (done || lia || apply len_zeros; lia). unfold zeros, len.
    rewrite take_replicate. do 3 f_equal; lia. }
  split; [by apply (G 32%nat)|]. split; [by apply (G 20%nat)|]. split; [|split].
  - intros h' E. unfold BigToHash, BytesToHash, Hash_SetBytes in E.
    rewrite (G 32%nat) in E by apply big_bytes_ok. assert (h' = be_bytes 32 (be_val (big_bytes x))) as -> by congruence. clear E. unfold Hash_Big.
    rewrite be_val_be_bytes. rewrite <- (be_val_big_bytes (Z.abs x)) by lia. unfold big_bytes, bit_len.
    rewrite Z.abs_idemp. by destruct (Z.eqb_spec x 0), (Z.eqb_spec (Z.abs x) 0); try lia; subst.
  - unfold Hash_SetBytes, HashLength. rewrite set_bytes_eq by (unfold len; lia). unfold len. do 3 f_equal; lia.
  - unfold Address_SetBytes, AddressLength. rewrite set_bytes_eq by (unfold len; lia). unfold len. do 3 f_equal; lia.
Qed.

Lemma fixed_bytes_from_witness :
  BytesToAddress [1; 2] = Some (be_bytes 20 258) /\
  Address_SetBytes (replicate 20 7) (replicate 21 9) = Some (replicate 20 9).
Proof.
  destruct (fixed_bytes_from [1; 2] 0 (replicate 32 0) (replicate 20 0)) as (_ & H & _);
    [repeat constructor; lia|reflexivity..|].
  destruct (fixed_bytes_from (replicate 21 9) 0 (replicate 32 0) (replicate 20 7)) as (_ & _ & _ & _ & H2);
    [apply Forall_replicate; split; lia|reflexivity..|].
  split; [exact H|exact H2].
Defined.

(** ** Checksummed addresses *)

Section checksum_lemmas.
  Context (Keccak256 : list Z -> list Z) (Keccak256_length : forall x, length (Keccak256 x) = 32%nat).

Lemma checksum_lower hash r : forall i,
  (i + length r <= 2 * length hash)%nat -> map lower r = r -> Forall (fun c => c <= 57 \/ 97 <= c <= 102) r ->
  exists s, checksum hash i r = Some s /\ map lower s = r /\ length s = length r.
Proof.
  induction r as [|c r IH]; intros i Hi Hl Hc; [by exists []|]. injection Hl as Hc1 Hl.
  apply Forall_cons in Hc as [Hc2 Hc]. simpl in Hi.
  destruct (lookup_lt_is_Some_2 hash (i / 2)%nat) as [hb Hhb]; [apply Nat.Div0.div_lt_upper_bound; lia|].
  destruct (IH (S i)) as (s & Es & Hs & Hls); [lia|done|done|].
  cbn [checksum]. rewrite Hhb, Es. eexists. split; [done|]. cbn [map length]. rewrite Hs, Hls. split; [|done]. f_equal.
  change (chr "9") with 57. destruct (Z.ltb_spec 57 c); simpl; [|done].
  destruct (7 <? _); [|done]. unfold lower in *. revert Hc1.
  destruct (Z.leb_spec 65 c), (Z.leb_spec c 90), (Z.leb_spec 65 (c - 32)), (Z.leb_spec (c - 32) 90); simpl; lia.
Qed.

Lemma hex_Encode_chars b : bytes_ok b -> Forall (fun c => 48 <= c <= 57 \/ 97 <= c <= 102) (hex_Encode b).
Proof.
  induction 1 as [|v b Hv _ IH]; [constructor|]. destruct (nibbles_ok v Hv).
  change (hex_Encode (v :: b)) with (digit_char (Z.shiftr v 4) :: digit_char (Z.land v 15) :: hex_Encode b).
  constructor; [|constructor; [|done]]; unfold digit_char; bprop.
Qed.

Lemma isHex_lower s b : bytes_ok b -> map lower s = hex_Encode b -> isHex s = true.
Proof.
  intros Hb E. unfold isHex. assert ((len s mod 2 =? 0) = true) as ->.
  { unfold len. rewrite <- (length_map lower), E, hex_Encode_length, Nat2Z.inj_mul, Z.mul_comm.
    by rewrite Z.mod_mul. }
  simpl. pose proof (hex_Encode_chars b Hb) as Hc. rewrite <- E in Hc. clear E.
  apply forallb_forall. intros c Hin. rewrite Forall_map in Hc. rewrite Forall_forall in Hc.
  assert (c ∈ s) as Hin' by (by apply list_elem_of_In). specialize (Hc c Hin'). simpl in Hc.
  unfold isHexCharacter, lower in *. change (chr "0") with 48. change (chr "9") with 57. change (chr "a") with 97.
  change (chr "f") with 102. change (chr "A") with 65. change (chr "F") with 70.
  destruct (Z.leb_spec 65 c), (Z.leb_spec c 90); simpl in Hc; bprop; done.
Qed.

(** Prefixed text of bytes, in either case, read by FromHex. *)
Lemma FromHex_text s b : bytes_ok b -> map lower s = Encode b -> FromHex s = b.
Proof.
  intros Hb E. rewrite Encode_eq in E. pose proof (prefix_drop _ _ E) as D.
  unfold FromHex. rewrite (proj2 (has0xPrefix_iff s)) by eauto.
  assert (len (drop 2 s) = 2 * len b) as L.
  { unfold len. rewrite <- (length_map lower), D, hex_Encode_length. lia. }
  assert ((len (drop 2 s) mod 2 =? 1) = false) as ->.
  { rewrite L, Z.mul_comm, Z.mod_mul by lia. done. }
  unfold Hex2Bytes. by rewrite (proj2 (hex_Decode_exact (drop 2 s) b)).
Qed.

(** The checksummed text of an address stands for the address: Address.Hex
    never indexes outside the digest, its text differs from the plain hex text
    only in the case of letters, IsHexAddress accepts it, HexToAddress,
    UnmarshalText and NewMixedcaseAddressFromString read the address back, and
    the checksum of the result is valid. *)
Theorem address_hex_roundtrip a a0 :
  bytes_ok a -> length a = 20%nat -> length a0 = 20%nat ->
  exists s, Address_Hex Keccak256 a = Some s /\ map lower s = Encode a /\ IsHexAddress s = true /\
    HexToAddress s = Some a /\ Address_UnmarshalText a0 s = (a, None) /\
    exists m, NewMixedcaseAddressFromString s = inr (Some m) /\ addr m = a /\ ValidChecksum Keccak256 m = true.
Proof.
  intros Ha La La0.
  destruct (checksum_lower (Keccak256 (hex_Encode a)) (hex_Encode a) 0) as (r & Er & Hr & Hlen).
  { rewrite hex_Encode_length, Keccak256_length. lia. }
  { by apply lower_hex_Encode. }
  { eapply Forall_impl; [by apply hex_Encode_chars|]. intros c Hc. simpl in Hc. lia. }
  set (s := str "0x" ++ r). assert (map lower s = Encode a) as E by (rewrite Encode_eq; subst s; by rewrite map_app, Hr).
  assert (HX : Address_Hex Keccak256 a = Some s) by (unfold Address_Hex; by rewrite Er).
  assert (Hf : FromHex s = a) by (by apply FromHex_text).
  assert (HB : BytesToAddress a = Some a).
  { unfold BytesToAddress, Address_SetBytes. rewrite set_bytes_eq by (done || by apply len_zeros).
    unfold len, AddressLength. rewrite La. done. }
  assert (HI : IsHexAddress s = true).
  { unfold IsHexAddress. change (has0xPrefix s) with true. cbv iota. change (drop 2 s) with r.
    rewrite (isHex_lower r a Ha Hr), andb_true_r. apply Z.eqb_eq. unfold len.
    rewrite Hlen, hex_Encode_length, La. done. }
  exists s. split; [done|]. split; [done|]. split; [done|]. split; [unfold HexToAddress; by rewrite Hf|].
  split; [unfold Address_UnmarshalText; apply UnmarshalFixedText_iff; split; [by rewrite La|by right]|].
  eexists. unfold NewMixedcaseAddressFromString. rewrite HI, Hf, HB. split; [done|]. split; [done|].
  unfold ValidChecksum. simpl. by rewrite HX, bool_decide_true.
Qed.
End checksum_lemmas.

Lemma address_hex_roundtrip_witness :
  let keccak (_ : list Z) := replicate 32 255 in
  let a := replicate 20 171 in
  exists s, Address_Hex keccak a = Some s /\ map lower s = Encode a /\ IsHexAddress s = true /\
    HexToAddress s = Some a /\ Address_UnmarshalText (replicate 20 0) s = (a, None) /\
    exists m, NewMixedcaseAddressFromString s = inr (Some m) /\ addr m = a /\ ValidChecksum keccak m = true.
Proof.
  apply (address_hex_roundtrip (fun _ => replicate 32 255) (fun _ => eq_refl) (replicate 20 171) (replicate 20 0));
    [apply Forall_replicate; split; lia|reflexivity..].
Defined.

(** ** Padding and trimming *)

Lemma left_idx_spec s :
  bytes_ok s -> 0 <= left_idx s <= len s /\ drop (Z.to_nat (left_idx s)) s = big_bytes (be_val s).
Proof.
  induction 1 as [|b s Hb Hs IH]; [done|]. rewrite len_cons. pose proof (len_nonneg s). cbn [left_idx].
  destruct (Z.eqb_spec b 0) as [->|Hb0]; simpl.
  - destruct IH as [IH1 IH2]. split; [lia|].
    replace (Z.to_nat (1 + left_idx s)) with (S (Z.to_nat (left_idx s))) by lia. simpl. rewrite IH2, be_val_cons. f_equal; lia.
  - split; [lia|]. rewrite big_bytes_be_val; [done|by constructor|]. simpl. congruence.
Qed.

Lemma be_val_zeros n s : be_val (replicate n 0 ++ s) = be_val s.
Proof. induction n as [|n IH]; [done|]. simpl. rewrite be_val_cons, IH. lia. Qed.

Lemma right_idx_snoc s b k : (k <= length s)%nat -> right_idx k (s ++ [b]) = right_idx k s.
Proof.
  induction k as [|k IH]; intros Hk; [done|]. simpl. rewrite lookup_app_l by lia.
  destruct (s !! k); [|done]. by destruct (negb _); [|apply IH; lia].
Qed.

Lemma right_idx_zeros s n : right_idx (length s + n) (s ++ replicate n 0) = right_idx (length s) s.
Proof.
  induction n as [|n IH]; [by rewrite app_nil_r, Nat.add_0_r|].
  rewrite Nat.add_succ_r. replace (replicate (S n) 0) with (replicate n 0 ++ [0]) by (by rewrite <- replicate_S_end).
  rewrite app_assoc. cbn [right_idx]. rewrite lookup_app_r by (rewrite length_app, length_replicate; lia).
  replace (length s + n - length (s ++ replicate n 0%Z))%nat with 0%nat by (rewrite length_app, length_replicate; lia).
  simpl. rewrite right_idx_snoc by (rewrite length_app, length_replicate; lia). apply IH.
Qed.

Lemma right_idx_bound s k : (k <= length s)%nat -> 0 <= right_idx k s <= Z.of_nat k.
Proof.
  induction k as [|k IH]; intros Hk; [done|]. cbn [right_idx]. destruct (s !! k); [|lia].
  destruct (negb _); [lia|]. specialize (IH ltac:(lia)). lia.
Qed.

(** Padding on the left keeps the number a byte string denotes and reaches
    the asked length, trimming on the left gives the shortest bytes of the
    number, and trimming on the right forgets exactly the padding on the
    right. *)
Theorem padding_and_trimming b l :
  bytes_ok b ->
  (exists r, LeftPadBytes b l = Some r /\ be_val r = be_val b /\ len r = Z.max l (len b) /\
     TrimLeftZeroes r = Some (big_bytes (be_val b))) /\
  len (RightPadBytes b l) = Z.max l (len b) /\
  TrimRightZeroes (RightPadBytes b l) = TrimRightZeroes b /\ is_Some (TrimRightZeroes b).
Proof.
  intros Hb. pose proof (len_nonneg b). split; [|split; [|split]].
  - assert (exists n, LeftPadBytes b l = Some (replicate n 0 ++ b) /\ Z.of_nat n = Z.max l (len b) - len b) as (n & E & Hn).
    { unfold LeftPadBytes. destruct (Z.leb_spec l (len b)).
      - exists 0%nat. split; [done|lia].
      - exists (Z.to_nat (l - len b)). split; [|lia]. unfold go_copy_at. rewrite len_zeros by lia. bprop.
        f_equal. unfold zeros. rewrite take_replicate, drop_replicate. f_equal; [f_equal; lia|].
        unfold go_copy. rewrite length_replicate, take_ge, drop_ge, app_nil_r;
          [done|rewrite length_replicate|]; unfold len in *; lia. }
    exists (replicate n 0 ++ b). split; [done|]. rewrite be_val_zeros. split; [done|].
    split; [unfold len in *; rewrite length_app, length_replicate; lia|].
    assert (Hr : bytes_ok (replicate n 0 ++ b)) by (apply bytes_ok_app; split; [by apply Forall_replicate|done]).
    destruct (left_idx_spec _ Hr) as [H1 H2]. unfold TrimLeftZeroes.
    rewrite go_from_drop, H2, be_val_zeros by done. done.
  - unfold RightPadBytes. destruct (Z.leb_spec l (len b)); [lia|]. unfold len. rewrite go_copy_length.
    unfold zeros, len. rewrite length_replicate. unfold len in *. lia.
  - unfold RightPadBytes. destruct (Z.leb_spec l (len b)); [done|].
    assert (go_copy (zeros l) b = b ++ replicate (Z.to_nat l - length b) 0) as ->.
    { unfold go_copy, zeros. rewrite length_replicate, take_ge, drop_replicate by (unfold len in *; lia). done. }
    unfold TrimRightZeroes. set (n := (Z.to_nat l - length b)%nat).
    rewrite length_app, length_replicate, right_idx_zeros.
    pose proof (right_idx_bound b (length b) ltac:(lia)). unfold go_slice. rewrite len_app.
    pose proof (len_nonneg (replicate n 0)).
    destruct (Z.leb_spec 0 0), (Z.leb_spec 0 (right_idx (length b) b)),
      (Z.leb_spec (right_idx (length b) b) (len b + len (replicate n 0))),
      (Z.leb_spec (right_idx (length b) b) (len b)); simpl; unfold len in *; try lia.
    rewrite !drop_0, take_app_le by lia. done.
  - pose proof (right_idx_bound b (length b) ltac:(lia)). unfold TrimRightZeroes, go_slice. unfold len.
    bprop. by eexists.
Qed.

Lemma padding_and_trimming_witness :
  len (RightPadBytes [7; 0] 5) = 5 /\ TrimRightZeroes (RightPadBytes [7; 0] 5) = TrimRightZeroes [7; 0].
Proof.
  destruct (padding_and_trimming [7; 0] 5) as (_ & H1 & H2 & _); [repeat constructor; lia|].
  split; [exact H1|exact H2].
Defined.
