(* ===== verification/ClientMessage.v ===== *)
(** * Package client: channel messages

    The framing of the channel protocol: Message with NewMessage, Encode and
    DecodeMessage (message.go), the helpers of utils.go, and the part of
    channelClient.readResponse that puts a message together from the reads of
    the connection (channel.go).  Strings and byte slices are byte lists.  What
    json.Marshal returned and the random bytes read for the sequence number are
    arguments. *)

From stdpp Require Import list strings.
From Stdlib Require Import Ascii.
From S2P Require Import Prelude GoText.

(** ** types.go: message types *)

Definition TypeRPCRequest : Z := 0x12.
Definition TypeHeartBeat : Z := 0x13.
Definition TypeHandshake : Z := 0x14.
Definition TypeRegisterEventLog : Z := 0x15.
Definition TypeTransactionNotify : Z := 0x1000.
Definition TypeBlockNotify : Z := 0x1001.
Definition TypeEventLog : Z := 0x1002.

(** ** message.go *)

Record Message : Type := {
  Length : Z;
  Type_ : Z;
  Seq : list Z;
  Result : Z;
  TopicLength : Z;
  Topic : list Z;
  Data : list Z
}.

(** newSeq: the hex text of sixteen random bytes. *)
Definition newSeq (random : list Z) : list Z := hex_Encode random.
Definition NewFilterID (random : list Z) : list Z := newSeq random.

(** [d] is the JSON of the data, or [None] when json.Marshal failed. *)
Definition NewMessage (typ : Z) (topic : list Z) (d : option (list Z)) (random : list Z) : option Message :=
  match d with
  | None => None
  | Some d =>
      let length := u32 (42 + len d) in
      let length := if typ =? TypeRegisterEventLog then u32 (length + u32 (1 + len topic)) else length in
      Some {| Length := length; Type_ := u16 typ; Seq := newSeq random; Result := 0;
              TopicLength := u8 (len topic + 1); Topic := topic; Data := d |}
  end.

Definition msg_Encode (msg : Message) : list Z :=
  be_bytes 4 (Length msg) ++ be_bytes 2 (Type_ msg) ++ Seq msg ++ be_bytes 4 (Result msg) ++
  (if Type_ msg =? TypeRegisterEventLog then TopicLength msg :: Topic msg else []) ++ Data msg.

Inductive msg_error : Type :=
| MsgEOF
| MsgUnexpectedEOF
| MsgIncomplete.

(** binary.Read of [n] bytes from a buffer: the bytes and the rest. *)
Definition buf_read (n : nat) (buf : list Z) : msg_error + (list Z * list Z) :=
  if len buf =? 0 then inl MsgEOF
  else if len buf <? Z.of_nat n then inl MsgUnexpectedEOF
  else inr (take n buf, drop n buf).

(** The number little-endian bytes denote. *)
Definition le_val (l : list Z) : Z := be_val (rev l).

Definition empty_msg : Message :=
  {| Length := 0; Type_ := 0; Seq := []; Result := 0; TopicLength := 0; Topic := []; Data := [] |}.

(** The message as far as it was read, and the error. *)
Definition DecodeMessage (data : list Z) : Message * option msg_error :=
  match buf_read 4 data with
  | inl err => (empty_msg, Some err)
  | inr (b, buf) =>
      let length := be_val b in
      let msg := {| Length := length; Type_ := 0; Seq := []; Result := 0; TopicLength := 0; Topic := []; Data := [] |} in
      if u32 (len data) <? length then (msg, Some MsgIncomplete)
      else match buf_read 2 buf with
      | inl err => (msg, Some err)
      | inr (b, buf) =>
          let typ := be_val b in
          let msg := {| Length := length; Type_ := typ; Seq := []; Result := 0; TopicLength := 0; Topic := []; Data := [] |} in
          match buf_read 32 buf with
          | inl err => (msg, Some err)
          | inr (seq, buf) =>
              let msg := {| Length := length; Type_ := typ; Seq := seq; Result := 0; TopicLength := 0; Topic := []; Data := [] |} in
              match buf_read 4 buf with
              | inl err => (msg, Some err)
              | inr (b, buf) =>
                  ({| Length := length; Type_ := typ; Seq := seq; Result := i32 (le_val b);
                      TopicLength := 0; Topic := []; Data := buf |}, None)
              end
          end
      end
  end.

(** ** utils.go *)

Definition getMessageLength (data : list Z) : Z :=
  if len data <? 4 then 0 else be_val (take 4 data).

(** The index after the last byte that is not zero. *)
Fixpoint trim_tail (k : nat) (b : list Z) : nat :=
  match k with
  | O => O
  | S k => match b !! k with Some v => if negb (v =? 0) then S k else trim_tail k b | None => O end
  end.

Definition getReceiptOutput (output : list Z) : list Z :=
  let output := if bool_decide (take 2 output = str "0x") then drop 2 output else output in
  match hex_Decode output with
  | (b, None) => if len b <? 36 then output
                 else let b := drop 36 b in take (trim_tail (length b) b) b
  | (_, Some _) => output
  end.

(** ** channel.go: one message from the reads of the connection

    Each element of [reads] is what one successful Read delivered; [None] is a
    Read that failed.  The result is what DecodeMessage returned and the reads
    that are left for the next round, or [None] while the client still waits
    for a Read. *)
Fixpoint read_more (totalLen : Z) (all : list Z) (reads : list (option (list Z))) :
    option (list Z * list (option (list Z))) :=
  if len all <? totalLen then
    match reads with
    | Some chunk :: reads => read_more totalLen (all ++ chunk) reads
    | None :: reads => Some (all, reads)
    | [] => None
    end
  else Some (all, reads).

Definition readMessage (first : list Z) (reads : list (option (list Z))) :
    option ((Message * option msg_error) * list (option (list Z))) :=
  let totalLen := getMessageLength first in
  if len first <? totalLen then
    '(all, reads) ← read_more totalLen first reads; Some (DecodeMessage all, reads)
  else Some (DecodeMessage first, reads).

(** ** Reading back the fields *)

(** A message that fits its fields, with a sequence number of 32 characters. *)
Record msg_wf (m : Message) : Prop := {
  wf_length : 0 <= Length m < 2 ^ 32;
  wf_type : 0 <= Type_ m < 2 ^ 16;
  wf_seq : length (Seq m) = 32%nat
}.

(** What follows the fixed fields. *)
Definition body (m : Message) : list Z :=
  (if Type_ m =? TypeRegisterEventLog then TopicLength m :: Topic m else []) ++ Data m.

(** The result field as the decoder sees it: its bytes in the other order. *)
Definition swap32 (r : Z) : Z := i32 (le_val (be_bytes 4 r)).

(** The message the decoder makes of an encoded one. *)
Definition seen (m : Message) (data : list Z) : Message :=
  {| Length := Length m; Type_ := Type_ m; Seq := Seq m; Result := swap32 (Result m);
     TopicLength := 0; Topic := []; Data := data |}.

Lemma msg_Encode_eq m :
  msg_Encode m = be_bytes 4 (Length m) ++ be_bytes 2 (Type_ m) ++ Seq m ++ be_bytes 4 (Result m) ++ body m.
Proof. done. Qed.

Lemma buf_read_app n a b : length a = n -> (0 < n)%nat -> buf_read n (a ++ b) = inr (a, b).
Proof.
  intros <- Hn. unfold buf_read. rewrite len_app. pose proof (len_nonneg b).
  assert (0 < len a) by (unfold len; lia).
  destruct (Z.eqb_spec (len a + len b) 0); [lia|]. fold (len a).
  destruct (Z.ltb_spec (len a + len b) (len a)); [lia|]. by rewrite take_app_length, drop_app_length.
Qed.

Lemma msg_Encode_length m :
  length (Seq m) = 32%nat -> len (msg_Encode m) = 42 + len (body m).
Proof.
  intros Hs. rewrite msg_Encode_eq, !len_app. unfold len at 1 2 3 4. rewrite !be_bytes_length, Hs. lia.
Qed.

(** Decoding an encoded message followed by other bytes: they all end up in
    the data. *)
Lemma DecodeMessage_app m rest :
  msg_wf m -> len (msg_Encode m ++ rest) < 2 ^ 32 -> Length m <= len (msg_Encode m ++ rest) ->
  DecodeMessage (msg_Encode m ++ rest) = (seen m (body m ++ rest), None).
Proof.
  intros [Hl Ht Hs] Hw Hle. unfold DecodeMessage.
  rewrite msg_Encode_eq, <- !app_assoc in *. rewrite buf_read_app by (try apply be_bytes_length; lia).
  rewrite be_val_be_bytes, (Z.mod_small (Length m)) by (change (256 ^ Z.of_nat 4) with (2 ^ 32); lia).
  unfold u32. rewrite Z.mod_small by (split; [apply len_nonneg|done]).
  destruct (Z.ltb_spec (len (be_bytes 4 (Length m) ++ be_bytes 2 (Type_ m) ++ Seq m ++ be_bytes 4 (Result m) ++ body m ++ rest)) (Length m)); [lia|].
  rewrite buf_read_app by (try apply be_bytes_length; lia).
  rewrite be_val_be_bytes, (Z.mod_small (Type_ m)) by (change (256 ^ Z.of_nat 2) with (2 ^ 16); lia).
  rewrite buf_read_app by (done || lia). rewrite buf_read_app by (try apply be_bytes_length; lia). done.
Qed.

Lemma getMessageLength_app m rest :
  msg_wf m -> getMessageLength (msg_Encode m ++ rest) = Length m.
Proof.
  intros [Hl _ _]. unfold getMessageLength. rewrite msg_Encode_eq, <- !app_assoc.
  rewrite len_app. pose proof (len_nonneg ((be_bytes 2 (Type_ m) ++ Seq m ++ be_bytes 4 (Result m) ++ body m ++ rest))).
  unfold len at 1. rewrite be_bytes_length. destruct (Z.ltb_spec (Z.of_nat 4 + len (be_bytes 2 (Type_ m) ++ Seq m ++ be_bytes 4 (Result m) ++ body m ++ rest)) 4); [lia|].
  rewrite take_app_length' by (by rewrite be_bytes_length). rewrite be_val_be_bytes. apply Z.mod_small.
  change (256 ^ Z.of_nat 4) with (2 ^ 32). lia.
Qed.

Lemma NewMessage_wf typ topic d random m :
  NewMessage typ topic (Some d) random = Some m ->
  0 <= typ < 2 ^ 16 -> length random = 16%nat -> 43 + len topic + len d < 2 ^ 32 ->
  msg_wf m /\ Length m = len (msg_Encode m) /\ Data m = d /\ Type_ m = typ /\ Result m = 0 /\ Topic m = topic.
Proof.
  intros E Ht Hr Hw. unfold NewMessage in E. injection E as <-. pose proof (len_nonneg d). pose proof (len_nonneg topic).
  assert (Hseq : length (newSeq random) = 32%nat) by (unfold newSeq; rewrite hex_Encode_length, Hr; done).
  assert (Et : u16 typ = typ) by (unfold u16; by apply Z.mod_small).
  match goal with |- msg_wf ?m /\ _ => set (m0 := m) end.
  assert (El : Length m0 = len (msg_Encode m0)).
  { rewrite msg_Encode_length by done. unfold body. subst m0. simpl. rewrite Et.
    destruct (Z.eqb_spec typ TypeRegisterEventLog); rewrite ?len_app, ?len_cons; unfold u32.
    - rewrite (Z.mod_small (1 + len topic)), (Z.mod_small (42 + len d)), Z.mod_small by lia. lia.
    - rewrite Z.mod_small by lia. done. }
  split; [|by repeat split; subst m0].
  split; [|by subst m0; simpl; rewrite Et|done].
  rewrite El, msg_Encode_length by done. unfold body. subst m0. simpl. rewrite Et.
  destruct (typ =? TypeRegisterEventLog); rewrite ?app_nil_l, ?len_app, ?len_cons; lia.
Qed.

Lemma getMessageLength_first first rest : 4 <= len first -> getMessageLength (first ++ rest) = getMessageLength first.
Proof.
  intros Hf. unfold getMessageLength. rewrite len_app. pose proof (len_nonneg rest). destruct (Z.ltb_spec (len first) 4), (Z.ltb_spec (len first + len rest) 4); try lia. rewrite take_app_le by (unfold len in *; lia). done.
Qed.
Lemma short_read_lost short reads : len short < 4 -> exists e, readMessage short reads = Some ((empty_msg, Some e), reads).
Proof.
  intros Hs. unfold readMessage, getMessageLength. destruct (Z.ltb_spec (len short) 4); [|lia]. pose proof (len_nonneg short). destruct (Z.ltb_spec (len short) 0); [lia|].
  unfold DecodeMessage, buf_read. destruct (Z.eqb_spec (len short) 0); [by eexists|]. destruct (Z.ltb_spec (len short) (Z.of_nat 4)); [by eexists|lia].
Qed.

Lemma last_concat (chunks : list (list Z)) c : last chunks = Some c -> len c <= len (concat chunks).
Proof.
  induction chunks as [|d chunks IH]; intros H; [done|]. cbn [concat]. rewrite len_app. pose proof (len_nonneg d). pose proof (len_nonneg (concat chunks)). destruct chunks as [|e chunks]; [injection H as ->; lia|].
  specialize (IH H). lia.
Qed.

(** The reads up to the one that completes the message. *)
Lemma read_more_chunks total all chunks more :
  total <= len (all ++ concat chunks) -> (forall c, last chunks = Some c -> len (all ++ concat chunks) < total + len c) ->
  read_more total all (map Some chunks ++ more) = Some (all ++ concat chunks, more).
Proof.
  revert all. induction chunks as [|c chunks IH]; intros all Hl Hc.
  - simpl in *. rewrite app_nil_r in *. destruct more as [|[|] more]; simpl; (destruct (Z.ltb_spec (len all) total); [lia|done]).
  - cbn [concat] in *. rewrite app_assoc in *. assert (Hlt : len all < total).
    { destruct chunks as [|d chunks]; [specialize (Hc c eq_refl); cbn [concat] in Hc; rewrite app_nil_r, len_app in Hc; lia|]. destruct (last (d :: chunks)) as [e|] eqn:El; [|by apply last_None in El].
      specialize (Hc e El). pose proof (last_concat _ _ El). rewrite !len_app in Hc. pose proof (len_nonneg c). lia. }
    cbn [map app read_more]. destruct (Z.ltb_spec (len all) total); [|lia]. apply IH; [done|]. intros d Hd. apply Hc. by destruct chunks.
Qed.

(** ** Theorems *)

(** C33: A message made by NewMessage carries the length of its encoding.  When
    it comes in reads of which the last one needed may go on with [extra] bytes
    of what follows it: if the first read has the four bytes of the length at
    least, the client puts the message together, leaves the following reads
    alone, and decodes the type, the sequence number and the data (for a
    registration the topic stays in front of it) with the extra bytes behind it,
    so that the data is exactly what was sent only if there are none; if the
    first read is shorter, the client reports a decoding error, drops it, and
    goes on with the rest of the message as if it were the next one. *)
Theorem message_reassembled typ topic d random m first chunks extra more :
  NewMessage typ topic (Some d) random = Some m ->
  0 <= typ < 2 ^ 16 -> length random = 16%nat -> 43 + len topic + len d + len extra < 2 ^ 32 ->
  first ++ concat chunks = msg_Encode m ++ extra -> (forall c, last chunks = Some c -> len extra < len c) ->
  Length m = len (msg_Encode m) /\
  (4 <= len first ->
   readMessage first (map Some chunks ++ more) =
     Some (({| Length := Length m; Type_ := typ; Seq := Seq m; Result := 0; TopicLength := 0; Topic := [];
               Data := (if typ =? TypeRegisterEventLog then u8 (len topic + 1) :: topic else []) ++ d ++ extra |}, None), more)) /\
  (len first < 4 -> exists e, readMessage first (map Some chunks ++ more) = Some ((empty_msg, Some e), map Some chunks ++ more)).
Proof.
  intros En Ht Hr Hw Ef Hc. pose proof (len_nonneg extra). destruct (NewMessage_wf _ _ _ _ _ En Ht Hr ltac:(lia)) as (Hm & El & Ed & Ety & Er & Eto).
  split; [done|]. split; [|apply short_read_lost]. intros Hf.
  assert (Hb : len (msg_Encode m ++ extra) < 2 ^ 32).
  { destruct Hm as [_ _ Hs]. pose proof (len_nonneg topic). rewrite len_app, msg_Encode_length by done. unfold body. rewrite Ety, Ed, Eto. destruct (typ =? TypeRegisterEventLog); rewrite ?app_nil_l, ?len_app, ?len_cons; lia. }
  assert (Dec : DecodeMessage (msg_Encode m ++ extra) = (seen m (body m ++ extra), None)) by (apply DecodeMessage_app; [done|done|rewrite len_app; lia]).
  assert (Seen : seen m (body m ++ extra) = {| Length := Length m; Type_ := typ; Seq := Seq m; Result := 0; TopicLength := 0; Topic := [];
              Data := (if typ =? TypeRegisterEventLog then u8 (len topic + 1) :: topic else []) ++ d ++ extra |}).
  { unfold seen, body. rewrite Ety, Ed, Er, Eto. f_equal. unfold NewMessage in En. injection En as <-. by rewrite <- app_assoc. }
  assert (Gl : getMessageLength first = Length m) by (rewrite <- (getMessageLength_app m extra Hm), <- Ef; symmetry; by apply getMessageLength_first).
  unfold readMessage. rewrite Gl. destruct (Z.ltb_spec (len first) (Length m)) as [Hlt|Hge].
  - rewrite read_more_chunks; [cbn [mbind option_bind]; by rewrite Ef, Dec, Seen|rewrite Ef, len_app; lia|]. intros c Hl. specialize (Hc c Hl). rewrite Ef, len_app. lia.
  - assert (chunks = []) as ->.
    { destruct (last chunks) as [c|] eqn:E; [|by apply last_None]. specialize (Hc c eq_refl). pose proof (last_concat _ _ E). apply (f_equal len) in Ef. rewrite !len_app in Ef. lia. }
    cbn [concat] in Ef. rewrite app_nil_r in Ef. by rewrite Ef, Dec, Seen.
Qed.

Lemma message_reassembled_witness :
  match NewMessage TypeRPCRequest [] (Some [123; 125]) (replicate 16 171) with
  | Some m => Length m = len (msg_Encode m) /\
      readMessage (take 10 (msg_Encode m)) (map Some [drop 10 (msg_Encode m)] ++ [None]) =
        Some (({| Length := Length m; Type_ := 18; Seq := Seq m; Result := 0; TopicLength := 0; Topic := [];
                  Data := [123; 125] |}, None), [None]) /\
      exists e, readMessage (take 2 (msg_Encode m)) (map Some [drop 2 (msg_Encode m)] ++ []) = Some ((empty_msg, Some e), [Some (drop 2 (msg_Encode m))])
  | None => False
  end.
Proof.
  pose proof (message_reassembled TypeRPCRequest [] [123; 125] (replicate 16 171)) as H.
  destruct (NewMessage TypeRPCRequest [] (Some [123; 125]) (replicate 16 171)) as [m|] eqn:E; [|discriminate].
  assert (Ht : 0 <= TypeRPCRequest < 2 ^ 16) by (unfold TypeRPCRequest; lia).
  destruct (H m (take 10 (msg_Encode m)) [drop 10 (msg_Encode m)] [] [None] eq_refl Ht eq_refl ltac:(by vm_compute)) as (H1 & H2 & _);
    [cbn [concat]; rewrite !app_nil_r; apply take_drop|intros c [= <-]; injection E as <-; vm_compute; reflexivity|].
  destruct (H m (take 2 (msg_Encode m)) [drop 2 (msg_Encode m)] [] [] eq_refl Ht eq_refl ltac:(by vm_compute)) as (_ & _ & H3);
    [cbn [concat]; rewrite !app_nil_r; apply take_drop|intros c [= <-]; injection E as <-; vm_compute; reflexivity|].
  split_and!; [exact H1|apply H2; injection E as <-; by vm_compute|apply H3; injection E as <-; by vm_compute].
Defined.

(** The client reads one message per round: when a read delivers two
    messages at once the second one becomes part of the data of the first, and
    when a read delivers fewer than four bytes of a message they are dropped
    with a decoding error.  In both cases a message is lost. *)
Theorem messages_lost m1 m2 reads short :
  msg_wf m1 -> Length m1 = len (msg_Encode m1) -> len (msg_Encode m1 ++ msg_Encode m2) < 2 ^ 32 -> len short < 4 ->
  readMessage (msg_Encode m1 ++ msg_Encode m2) reads = Some ((seen m1 (body m1 ++ msg_Encode m2), None), reads) /\
  exists e, readMessage short reads = Some ((empty_msg, Some e), reads).
Proof.
  intros Hm El Hw Hs. pose proof (len_nonneg (msg_Encode m2)). split.
  - unfold readMessage. rewrite getMessageLength_app by done. rewrite len_app in *.
    destruct (Z.ltb_spec (len (msg_Encode m1) + len (msg_Encode m2)) (Length m1)); [lia|].
    rewrite DecodeMessage_app; [done|done|rewrite len_app; lia|rewrite len_app; lia].
  - by apply short_read_lost.
Qed.

Lemma messages_lost_witness :
  exists m, readMessage (msg_Encode m ++ msg_Encode m) [] = Some ((seen m (body m ++ msg_Encode m), None), []) /\
  exists e, readMessage [0; 0] [] = Some ((empty_msg, Some e), []).
Proof.
  exists {| Length := 42; Type_ := 19; Seq := replicate 32 48; Result := 0; TopicLength := 1; Topic := []; Data := [] |}.
  apply messages_lost; [constructor; simpl; lia|reflexivity..].
Defined.

(** Encode writes the result field big-endian and DecodeMessage reads it
    little-endian: a decoded result is the encoded one with its four bytes in
    the other order, so only the results whose bytes read the same both ways
    survive; a result of 1 becomes 16777216. *)
Theorem message_result_swapped m :
  msg_wf m -> Length m = len (msg_Encode m) -> - 2 ^ 31 <= Result m < 2 ^ 31 ->
  exists m', DecodeMessage (msg_Encode m) = (m', None) /\
    be_bytes 4 (Result m') = rev (be_bytes 4 (Result m)) /\
    (Result m' = Result m <-> be_bytes 4 (Result m) = rev (be_bytes 4 (Result m))).
Proof.
  intros Hm El Hr. exists (seen m (body m)). split.
  { rewrite <- (app_nil_r (msg_Encode m)), DecodeMessage_app, app_nil_r; [done|done|..]; rewrite app_nil_r, <- El; [destruct Hm; lia|lia]. }
  assert (I : forall z, be_bytes 4 (i32 z) = be_bytes 4 z).
  { intros z. apply be_val_inj; [by rewrite !be_bytes_length|apply be_bytes_ok..|].
    rewrite !be_val_be_bytes. change (256 ^ Z.of_nat 4) with (2 ^ 32). unfold i32, sint.
    destruct (_ <? _); [apply Z.mod_mod; lia|].
    replace (z mod 2 ^ 32 - 2 ^ 32) with (z mod 2 ^ 32 + (-1) * 2 ^ 32) by lia.
    rewrite Z.mod_add, Z.mod_mod by lia. done. }
  assert (S : be_bytes 4 (swap32 (Result m)) = rev (be_bytes 4 (Result m))).
  { unfold swap32. rewrite I. unfold le_val.
    rewrite <- (be_bytes_be_val (rev (be_bytes 4 (Result m)))) at 2.
    - by rewrite length_rev, be_bytes_length.
    - apply Forall_rev, be_bytes_ok. }
  split; [done|]. change (Result (seen m (body m))) with (swap32 (Result m)). rewrite <- S. split; [by intros ->|]. intros E.
  assert (Range : forall z, - 2 ^ 31 <= i32 z < 2 ^ 31).
  { intros z. unfold i32, sint. pose proof (Z.mod_pos_bound z (2 ^ 32) ltac:(lia)).
    change (2 ^ (32 - 1)) with (2 ^ 31). destruct (Z.ltb_spec (z mod 2 ^ 32) (2 ^ 31)); lia. }
  pose proof (Range (le_val (be_bytes 4 (Result m)))) as Hsw. fold (swap32 (Result m)) in Hsw.
  apply (f_equal be_val) in E. rewrite !be_val_be_bytes in E. change (256 ^ Z.of_nat 4) with (2 ^ 32) in E.
  pose proof (Z.div_mod (Result m) (2 ^ 32) ltac:(lia)). pose proof (Z.div_mod (swap32 (Result m)) (2 ^ 32) ltac:(lia)). lia.
Qed.

Lemma message_result_swapped_witness :
  exists m m', Result m = 1 /\ DecodeMessage (msg_Encode m) = (m', None) /\ Result m' = 16777216.
Proof.
  pose (m := {| Length := 42; Type_ := 18; Seq := replicate 32 48; Result := 1; TopicLength := 1; Topic := []; Data := [] |}).
  destruct (message_result_swapped m) as (m' & E & _ & _); [constructor; simpl; lia|reflexivity|simpl; lia|].
  exists m, m'. split; [reflexivity|]. split; [exact E|]. injection E as <-. reflexivity.
Defined.
