(* ===== verification/ClientChannel.v ===== *)
(** * Package client: the channel client

    channelClient of channel.go as a state machine.  The state holds the fields
    of the struct, the goroutines that run rpcCall and SubEventLogs with the
    point they have reached, the reader goroutine of readResponse and the
    channels between them.  A label is one atomic action of a goroutine or of
    the environment: the sync.Map operations, the channel operations and the
    writes to the connection are separate labels, so every interleaving of the
    code is a sequence of labels.  [exec] runs one label; [None] means that the
    action is not possible in that state.

    JSON decoding (encoding/json into the response types, gjson on raw bytes)
    enters as functions on the message data; the theorems hold for all of
    them. *)

From stdpp Require Import list gmap strings.
From Stdlib Require Import Ascii.
From S2P Require Import Prelude GoText Hexutil ClientMessage.

(** ** types.go *)

Record jsonError : Type := { Code : Z; EMessage : list Z }.
Record jsonrpcMessage : Type := {
  Version : list Z;
  ID : list Z;
  Method : list Z;
  Params : list Z;
  Error : option jsonError;
  RpcResult : list Z
}.
(** The fields of jsonrpcFiscoMsg that the client reads or drops. *)
Record jsonrpcFiscoMsg : Type := {
  fisco_ID : list Z;
  fisco_Jsonrpc : list Z;
  fisco_Error : option jsonError;
  fisco_Output : list Z
}.
Record logEntry : Type := {
  le_Address : list Z; le_Topics : list (list Z); le_Data : list Z; le_BlockNumber : list Z;
  le_TxHash : list Z; le_TxIndex : list Z; le_BlockHash : list Z; le_Index : list Z; le_Removed : bool
}.
Record EventLogResponse : Type := { FilterID : list Z; Logs : list logEntry; EResult : Z }.
Record BlockNotifyResponse : Type := { BGroupID : list Z; BBlockNumber : list Z }.

(** types.Log as the client fills it; uint is 64 bits wide. *)
Record Log : Type := {
  Address : list Z; Topics : list (list Z); LData : list Z; BlockNumber : Z; TxHash : list Z;
  TxIndex : Z; BlockHash : list Z; Index : Z; Removed : bool
}.

(** The log handed to a watcher; decoding errors leave the decoder's value. *)
Definition to_Log (l : logEntry) : Log :=
  {| Address := le_Address l; Topics := le_Topics l; LData := fst (Decode (le_Data l));
     BlockNumber := fst (DecodeUint64 (le_BlockNumber l)); TxHash := le_TxHash l;
     TxIndex := fst (DecodeUint64 (le_TxIndex l)); BlockHash := le_BlockHash l;
     Index := fst (DecodeUint64 (le_Index l)); Removed := le_Removed l |}.

(** ** Goroutines and state *)

Inductive cli_error : Type :=
| ErrMarshal
| ErrClosed
| ErrWrite
| ErrTimeout
| ErrFilterID
| ErrRegister (code : Z)
| ErrRPC (e : jsonError)
| NotFound.

(** The points of newRpcMessage and sendRPC a call can have reached. *)
Inductive call_state : Type :=
| CallStart
| CallHasID (id : Z)
| CallStored (id : Z)
| CallWaiting (id : Z)
| CallGot (id : Z) (r : cli_error + jsonrpcMessage)
| CallDone (id : Z) (r : cli_error + jsonrpcMessage).

(** The points of SubEventLogs. *)
Inductive sub_state : Type :=
| SubStart
| SubSending
| SubSent (seq : list Z)
| SubPending (seq : list Z)
| SubGot (seq : list Z) (res : option cli_error)
| SubStoring
| SubDone (res : option cli_error).

Inductive thread : Type :=
| TCall (method : list Z) (params : option (list Z)) (st : call_state)
| TSub (filterID : list Z) (ch : nat) (st : sub_state).

(** The reader: in its select, blocked on the unbuffered channel of a
    registration, blocked on the channel of a watcher, or gone. *)
Inductive reader_state : Type :=
| RSelect
| RSendReg (t : nat) (res : option cli_error)
| RSendLogs (ch : nat) (rest : list Log)
| RExit.

Record channelClient : Type := {
  pending : gmap (list Z) nat;
  watcher : gmap (list Z) nat;
  onBlock : list (option nat);
  notifyBlockOnce : bool;
  idCounter : Z;
  rpcResponse : gmap (list Z) (nat * list Z);
  isClosed : bool;
  threads : list thread;
  chans : gmap nat jsonrpcMessage;
  reader : reader_state;
  delivered : list (nat * Log);
  notified : list (nat * Z * Z)
}.

Definition newChannel : channelClient :=
  {| pending := ∅; watcher := ∅; onBlock := []; notifyBlockOnce := false; idCounter := 0; rpcResponse := ∅;
     isClosed := false; threads := []; chans := ∅; reader := RSelect; delivered := []; notified := [] |}.

(** ** Updates of one field *)

Definition set_pending f (c : channelClient) := {| pending := f (pending c); watcher := watcher c; onBlock := onBlock c;
  notifyBlockOnce := notifyBlockOnce c; idCounter := idCounter c; rpcResponse := rpcResponse c; isClosed := isClosed c;
  threads := threads c; chans := chans c; reader := reader c; delivered := delivered c; notified := notified c |}.
Definition set_watcher f (c : channelClient) := {| pending := pending c; watcher := f (watcher c); onBlock := onBlock c;
  notifyBlockOnce := notifyBlockOnce c; idCounter := idCounter c; rpcResponse := rpcResponse c; isClosed := isClosed c;
  threads := threads c; chans := chans c; reader := reader c; delivered := delivered c; notified := notified c |}.
Definition set_onBlock o n (c : channelClient) := {| pending := pending c; watcher := watcher c; onBlock := o;
  notifyBlockOnce := n; idCounter := idCounter c; rpcResponse := rpcResponse c; isClosed := isClosed c;
  threads := threads c; chans := chans c; reader := reader c; delivered := delivered c; notified := notified c |}.
Definition set_idCounter i (c : channelClient) := {| pending := pending c; watcher := watcher c; onBlock := onBlock c;
  notifyBlockOnce := notifyBlockOnce c; idCounter := i; rpcResponse := rpcResponse c; isClosed := isClosed c;
  threads := threads c; chans := chans c; reader := reader c; delivered := delivered c; notified := notified c |}.
Definition set_rpcResponse f (c : channelClient) := {| pending := pending c; watcher := watcher c; onBlock := onBlock c;
  notifyBlockOnce := notifyBlockOnce c; idCounter := idCounter c; rpcResponse := f (rpcResponse c); isClosed := isClosed c;
  threads := threads c; chans := chans c; reader := reader c; delivered := delivered c; notified := notified c |}.
Definition set_isClosed (c : channelClient) := {| pending := pending c; watcher := watcher c; onBlock := onBlock c;
  notifyBlockOnce := notifyBlockOnce c; idCounter := idCounter c; rpcResponse := rpcResponse c; isClosed := true;
  threads := threads c; chans := chans c; reader := reader c; delivered := delivered c; notified := notified c |}.
Definition set_threads f (c : channelClient) := {| pending := pending c; watcher := watcher c; onBlock := onBlock c;
  notifyBlockOnce := notifyBlockOnce c; idCounter := idCounter c; rpcResponse := rpcResponse c; isClosed := isClosed c;
  threads := f (threads c); chans := chans c; reader := reader c; delivered := delivered c; notified := notified c |}.
Definition set_chans f (c : channelClient) := {| pending := pending c; watcher := watcher c; onBlock := onBlock c;
  notifyBlockOnce := notifyBlockOnce c; idCounter := idCounter c; rpcResponse := rpcResponse c; isClosed := isClosed c;
  threads := threads c; chans := f (chans c); reader := reader c; delivered := delivered c; notified := notified c |}.
Definition set_reader r (c : channelClient) := {| pending := pending c; watcher := watcher c; onBlock := onBlock c;
  notifyBlockOnce := notifyBlockOnce c; idCounter := idCounter c; rpcResponse := rpcResponse c; isClosed := isClosed c;
  threads := threads c; chans := chans c; reader := r; delivered := delivered c; notified := notified c |}.
Definition set_delivered d (c : channelClient) := {| pending := pending c; watcher := watcher c; onBlock := onBlock c;
  notifyBlockOnce := notifyBlockOnce c; idCounter := idCounter c; rpcResponse := rpcResponse c; isClosed := isClosed c;
  threads := threads c; chans := chans c; reader := reader c; delivered := d; notified := notified c |}.
Definition set_notified n (c : channelClient) := {| pending := pending c; watcher := watcher c; onBlock := onBlock c;
  notifyBlockOnce := notifyBlockOnce c; idCounter := idCounter c; rpcResponse := rpcResponse c; isClosed := isClosed c;
  threads := threads c; chans := chans c; reader := reader c; delivered := delivered c; notified := n |}.
Definition set_thread (t : nat) (th : thread) (c : channelClient) := set_threads <[t := th]> c.

(** The key under which a call waits: string(msg.ID). *)
Definition id_key (id : Z) : list Z := AppendUint [] id 10.

(** Outcome of Send for a goroutine: closed, a failed or short write, or sent. *)
Definition Send (c : channelClient) (ok : bool) : option cli_error :=
  if isClosed c then Some ErrClosed else if ok then None else Some ErrWrite.

(** nextID: the counter after the atomic increment is the new id. *)
Definition nextID (c : channelClient) : Z * channelClient :=
  let id := u64 (idCounter c + 1) in (id, set_idCounter id c).

(** ** The actions of the callers *)

Section actions.

(** newRpcMessage: the id is drawn before the parameters are marshalled. *)
Definition newRpcMessage (c : channelClient) (t : nat) : option channelClient :=
  match threads c !! t with
  | Some (TCall m p CallStart) =>
      let '(id, c) := nextID c in
      Some (set_thread t (TCall m p (match p with
                                     | None => CallDone id (inl ErrMarshal)
                                     | Some _ => CallHasID id
                                     end)) c)
  | _ => None
  end.

(** sendRPC, first part: a fresh channel of capacity one is stored under the id. *)
Definition sendRPC_store (c : channelClient) (t : nat) : option channelClient :=
  match threads c !! t with
  | Some (TCall m p (CallHasID id)) =>
      Some (set_thread t (TCall m p (CallStored id))
             (set_chans (delete t) (set_rpcResponse <[id_key id := (t, m)]> c)))
  | _ => None
  end.
(** the request is written; an error returns through the deferred Delete *)
Definition sendRPC_send (c : channelClient) (t : nat) (ok : bool) : option channelClient :=
  match threads c !! t with
  | Some (TCall m p (CallStored id)) =>
      Some (set_thread t (TCall m p (match Send c ok with
                                     | Some e => CallGot id (inl e)
                                     | None => CallWaiting id
                                     end)) c)
  | _ => None
  end.
(** the select: a response is there, or the timeout *)
Definition sendRPC_recv (c : channelClient) (t : nat) : option channelClient :=
  match threads c !! t, chans c !! t with
  | Some (TCall m p (CallWaiting id)), Some r =>
      Some (set_thread t (TCall m p (CallGot id (inr r))) (set_chans (delete t) c))
  | _, _ => None
  end.
Definition sendRPC_timeout (c : channelClient) (t : nat) : option channelClient :=
  match threads c !! t with
  | Some (TCall m p (CallWaiting id)) => Some (set_thread t (TCall m p (CallGot id (inl ErrTimeout))) c)
  | _ => None
  end.
(** the deferred Delete *)
Definition sendRPC_return (c : channelClient) (t : nat) : option channelClient :=
  match threads c !! t with
  | Some (TCall m p (CallGot id r)) =>
      Some (set_thread t (TCall m p (CallDone id r)) (set_rpcResponse (delete (id_key id)) c))
  | _ => None
  end.

(** What rpcCall makes of the result of sendRPC; a result is handed to
    json.Unmarshal. *)
Definition rpcCall_result (r : cli_error + jsonrpcMessage) : cli_error + list Z :=
  match r with
  | inl e => inl e
  | inr resp => match Error resp with
                | Some e => inl (ErrRPC e)
                | None => if len (RpcResult resp) =? 0 then inl NotFound else inr (RpcResult resp)
                end
  end.

(** SubEventLogs: the checks on the filter *)
Definition SubEventLogs_start (c : channelClient) (t : nat) : option channelClient :=
  match threads c !! t with
  | Some (TSub f ch SubStart) =>
      if negb (len f =? 32) then Some (set_thread t (TSub f ch (SubDone (Some ErrFilterID))) c)
      else match watcher c !! f with
           | Some _ => Some (set_thread t (TSub f ch (SubDone None)) (set_watcher <[f := ch]> c))
           | None => Some (set_thread t (TSub f ch SubSending) c)
           end
  | _ => None
  end.
(** the registration is sent under the sequence number [seq] *)
Definition SubEventLogs_send (c : channelClient) (t : nat) (ok : bool) (seq : list Z) : option channelClient :=
  match threads c !! t with
  | Some (TSub f ch SubSending) =>
      Some (set_thread t (TSub f ch (match Send c ok with
                                     | Some e => SubDone (Some e)
                                     | None => SubSent seq
                                     end)) c)
  | _ => None
  end.
(** its unbuffered channel is stored, after the send *)
Definition SubEventLogs_store (c : channelClient) (t : nat) : option channelClient :=
  match threads c !! t with
  | Some (TSub f ch (SubSent seq)) =>
      Some (set_thread t (TSub f ch (SubPending seq)) (set_pending <[seq := t]> c))
  | _ => None
  end.
(** the rendezvous with the reader *)
Definition SubEventLogs_recv (c : channelClient) (t : nat) : option channelClient :=
  match threads c !! t, reader c with
  | Some (TSub f ch (SubPending seq)), RSendReg t' res =>
      if (t' =? t)%nat then Some (set_thread t (TSub f ch (SubGot seq res)) (set_reader RSelect c)) else None
  | _, _ => None
  end.
Definition SubEventLogs_delete (c : channelClient) (t : nat) : option channelClient :=
  match threads c !! t with
  | Some (TSub f ch (SubGot seq res)) =>
      Some (set_thread t (TSub f ch (match res with Some e => SubDone (Some e) | None => SubStoring end))
             (set_pending (delete seq) c))
  | _ => None
  end.
Definition SubEventLogs_finish (c : channelClient) (t : nat) : option channelClient :=
  match threads c !! t with
  | Some (TSub f ch SubStoring) =>
      Some (set_thread t (TSub f ch (SubDone None)) (set_watcher <[f := ch]> c))
  | _ => None
  end.

(** BlockNotify: the subscription is sent once; the state and the error. *)
Definition BlockNotify (c : channelClient) (cb : option nat) (ok : bool) : channelClient * option cli_error :=
  let err := if notifyBlockOnce c then None else Send c ok in
  match err with
  | Some e => (set_onBlock (onBlock c) true c, Some e)
  | None => (set_onBlock (onBlock c ++ [cb]) true c, None)
  end.

Definition Close (c : channelClient) : channelClient := if isClosed c then c else set_isClosed c.
End actions.

(** ** The reader goroutine *)

Section reader.
  Context (gjson_id : list Z -> list Z) (gjson_result : list Z -> Z)
    (unmarshal_rpc : list Z -> option jsonrpcMessage) (unmarshal_fisco : list Z -> option jsonrpcFiscoMsg)
    (unmarshal_event : list Z -> option EventLogResponse) (unmarshal_block : list Z -> option BlockNotifyResponse).

(** The response message made of the data, by the method of the request. *)
Definition rpc_respmsg (method data : list Z) : option jsonrpcMessage :=
  if bool_decide (method = str "call") then
    match unmarshal_fisco data with
    | None => None
    | Some fiscomsg => Some {| Version := fisco_Jsonrpc fiscomsg; ID := fisco_ID fiscomsg; Method := []; Params := [];
                               Error := None; RpcResult := fisco_Output fiscomsg |}
    end
  else unmarshal_rpc data.

Definition handle_rpc (c : channelClient) (data : list Z) : channelClient :=
  match rpcResponse c !! gjson_id data with
  | None => c
  | Some (t, method) =>
      match rpc_respmsg method data with
      | None => c
      | Some respmsg =>
          (* select: send into the channel of capacity one, or drop *)
          match chans c !! t with
          | None => set_chans <[t := respmsg]> c
          | Some _ => c
          end
      end
  end.

Definition handle_register (c : channelClient) (msg : Message) : channelClient :=
  let res := gjson_result (Data msg) in
  match pending c !! Seq msg with
  | None => c
  | Some t => set_reader (RSendReg t (if res =? 0 then None else Some (ErrRegister res))) c
  end.

Definition handle_event (c : channelClient) (data : list Z) : channelClient :=
  match unmarshal_event data with
  | None => c
  | Some eventLog =>
      match watcher c !! FilterID eventLog with
      | None => c
      | Some ch => match map to_Log (Logs eventLog) with
                   | [] => c
                   | logs => set_reader (RSendLogs ch logs) c
                   end
      end
  end.

Definition handle_block (c : channelClient) (data : list Z) : channelClient :=
  match onBlock c with
  | [] => c
  | cbs =>
      match unmarshal_block data with
      | None => c
      | Some blockNotify =>
          match ParseUint (BGroupID blockNotify) 10 with
          | (_, Some _) => c
          | (groupID, None) =>
              match ParseUint (BBlockNumber blockNotify) 10 with
              | (_, Some _) => c
              | (blockNumber, None) =>
                  set_notified (notified c ++ omap (fun cb => (fun n => (n, groupID, blockNumber)) <$> cb) cbs) c
              end
          end
      end
  end.

(** The switch of readResponse on a decoded message. *)
Definition handle (c : channelClient) (msg : Message) : channelClient :=
  if Type_ msg =? TypeRPCRequest then handle_rpc c (Data msg)
  else if Type_ msg =? TypeRegisterEventLog then handle_register c msg
  else if Type_ msg =? TypeEventLog then handle_event c (Data msg)
  else if Type_ msg =? TypeBlockNotify then handle_block c (Data msg)
  else c.

Inductive label : Type :=
| LSpawn (th : thread)
| LNextID (t : nat)
| LStore (t : nat)
| LSend (t : nat) (ok : bool)
| LRecv (t : nat)
| LTimeout (t : nat)
| LReturn (t : nat)
| LSubStart (t : nat)
| LSubSend (t : nat) (ok : bool) (seq : list Z)
| LSubStore (t : nat)
| LSubRecv (t : nat)
| LSubDelete (t : nat)
| LSubFinish (t : nat)
| LBlockNotify (cb : option nat) (ok : bool)
| LDeliver (msg : Message)
| LTakeLog
| LClose
| LExit.

Definition fresh (th : thread) : bool :=
  match th with TCall _ _ CallStart | TSub _ _ SubStart => true | _ => false end.

Definition exec (c : channelClient) (l : label) : option channelClient :=
  match l with
  | LSpawn th => if fresh th then Some (set_threads (fun ts => ts ++ [th]) c) else None
  | LNextID t => newRpcMessage c t
  | LStore t => sendRPC_store c t
  | LSend t ok => sendRPC_send c t ok
  | LRecv t => sendRPC_recv c t
  | LTimeout t => sendRPC_timeout c t
  | LReturn t => sendRPC_return c t
  | LSubStart t => SubEventLogs_start c t
  | LSubSend t ok seq => SubEventLogs_send c t ok seq
  | LSubStore t => SubEventLogs_store c t
  | LSubRecv t => SubEventLogs_recv c t
  | LSubDelete t => SubEventLogs_delete c t
  | LSubFinish t => SubEventLogs_finish c t
  | LBlockNotify cb ok => Some (fst (BlockNotify c cb ok))
  | LDeliver msg => match reader c with RSelect => Some (handle c msg) | _ => None end
  | LTakeLog => match reader c with
                | RSendLogs ch (l :: rest) =>
                    Some (set_delivered (delivered c ++ [(ch, l)])
                           (set_reader (match rest with [] => RSelect | _ => RSendLogs ch rest end) c))
                | _ => None
                end
  | LClose => Some (Close c)
  | LExit => match reader c with RSelect => if isClosed c then Some (set_reader RExit c) else None | _ => None end
  end.

(** States reached from a new client by a sequence of labels, oldest first. *)
Inductive reach : list label -> channelClient -> Prop :=
| reach_new : reach [] newChannel
| reach_step tr c l c' : reach tr c -> exec c l = Some c' -> reach (tr ++ [l]) c'.

Inductive runs : channelClient -> list label -> channelClient -> Prop :=
| runs_nil c : runs c [] c
| runs_cons c l c' ls c'' : exec c l = Some c' -> runs c' ls c'' -> runs c (l :: ls) c''.

Definition exec_all (c : channelClient) (ls : list label) : option channelClient := foldl (fun o l => c ← o; exec c l) (Some c) ls.

(** ** Which labels touch the calls *)

Definition id_of (st : call_state) : option Z :=
  match st with
  | CallStart => None
  | CallHasID id | CallStored id | CallWaiting id | CallGot id _ | CallDone id _ => Some id
  end.

(** The call has an entry in rpcResponse under its id. *)
Definition registered (st : call_state) (id : Z) : Prop :=
  match st with
  | CallStored i | CallWaiting i | CallGot i _ => i = id
  | _ => False
  end.

(** The response comes from a delivered message that carries the id. *)
Definition evidence (tr : list label) (m : list Z) (id : Z) (r : jsonrpcMessage) : Prop :=
  exists msg, LDeliver msg ∈ tr /\ Type_ msg = TypeRPCRequest /\ gjson_id (Data msg) = id_key id /\
    rpc_respmsg m (Data msg) = Some r.

Definition frame (c c' : channelClient) : Prop :=
  rpcResponse c' = rpcResponse c /\ chans c' = chans c /\ idCounter c' = idCounter c /\
  (forall t m p st, threads c !! t = Some (TCall m p st) -> threads c' !! t = Some (TCall m p st)) /\
  (forall t m p st, threads c' !! t = Some (TCall m p st) ->
     threads c !! t = Some (TCall m p st) \/ st = CallStart).

(** A call moves on: from [st] to [st']. *)
Definition call_moves (c c' : channelClient) (t : nat) (m : list Z) (p : option (list Z)) (st st' : call_state) : Prop :=
  threads c !! t = Some (TCall m p st) /\ threads c' = <[t := TCall m p st']> (threads c).

Inductive call_effect (c : channelClient) (l : label) (c' : channelClient) : Prop :=
| eff_frame : frame c c' -> (forall t, l <> LNextID t) -> call_effect c l c'
| eff_next t m p st' : l = LNextID t -> call_moves c c' t m p CallStart st' ->
    rpcResponse c' = rpcResponse c -> chans c' = chans c -> idCounter c' = u64 (idCounter c + 1) ->
    (st' = CallHasID (idCounter c') \/ st' = CallDone (idCounter c') (inl ErrMarshal)) -> call_effect c l c'
| eff_store t m p id : l = LStore t -> call_moves c c' t m p (CallHasID id) (CallStored id) ->
    rpcResponse c' = <[id_key id := (t, m)]> (rpcResponse c) -> chans c' = delete t (chans c) ->
    idCounter c' = idCounter c -> call_effect c l c'
| eff_move t m p id st st' : call_moves c c' t m p st st' -> (forall t, l <> LNextID t) ->
    (st = CallStored id \/ st = CallWaiting id) ->
    (st' = CallWaiting id \/ exists e, st' = CallGot id (inl e)) ->
    rpcResponse c' = rpcResponse c -> chans c' = chans c -> idCounter c' = idCounter c -> call_effect c l c'
| eff_recv t m p id r : l = LRecv t -> call_moves c c' t m p (CallWaiting id) (CallGot id (inr r)) ->
    chans c !! t = Some r -> rpcResponse c' = rpcResponse c -> chans c' = delete t (chans c) ->
    idCounter c' = idCounter c -> call_effect c l c'
| eff_return t m p id r : l = LReturn t -> call_moves c c' t m p (CallGot id r) (CallDone id r) ->
    rpcResponse c' = delete (id_key id) (rpcResponse c) -> chans c' = chans c ->
    idCounter c' = idCounter c -> call_effect c l c'
| eff_deliver t m msg r : l = LDeliver msg -> Type_ msg = TypeRPCRequest ->
    rpcResponse c !! gjson_id (Data msg) = Some (t, m) -> rpc_respmsg m (Data msg) = Some r ->
    chans c !! t = None -> c' = set_chans <[t := r]> c -> call_effect c l c'.

Lemma frame_refl_fields c c' :
  rpcResponse c' = rpcResponse c -> chans c' = chans c -> idCounter c' = idCounter c -> threads c' = threads c -> frame c c'.
Proof. intros H1 H2 H3 H4. unfold frame. rewrite H4. repeat split; auto. Qed.

Lemma frame_sub c c' t f ch st st' :
  rpcResponse c' = rpcResponse c -> chans c' = chans c -> idCounter c' = idCounter c ->
  threads c !! t = Some (TSub f ch st) -> threads c' = <[t := TSub f ch st']> (threads c) -> frame c c'.
Proof.
  intros H1 H2 H3 H4 H5. unfold frame. rewrite H5. do 3 (split; [done|]).
  assert (t < length (threads c))%nat by (by eapply lookup_lt_Some).
  split; intros u m p s Hu; destruct (decide (u = t)) as [->|Hne].
  - congruence.
  - by rewrite list_lookup_insert_ne.
  - by rewrite list_lookup_insert_eq in Hu.
  - rewrite list_lookup_insert_ne in Hu by done. by left.
Qed.

Ltac finish_frame := first [by apply frame_refl_fields|by eapply frame_sub].

Lemma handle_effect c msg : call_effect c (LDeliver msg) (handle c msg).
Proof.
  unfold handle. destruct (Z.eqb_spec (Type_ msg) TypeRPCRequest) as [Ht|_].
  - unfold handle_rpc. destruct (rpcResponse c !! gjson_id (Data msg)) as [[t m]|] eqn:Er; [|by apply eff_frame; [finish_frame|]].
    destruct (rpc_respmsg m (Data msg)) as [r|] eqn:Em; [|by apply eff_frame; [finish_frame|]].
    destruct (chans c !! t) eqn:Ec; [by apply eff_frame; [finish_frame|]|]. by eapply eff_deliver.
  - apply eff_frame; [|done]. unfold handle_register, handle_event, handle_block.
    repeat case_match; finish_frame.
Qed.

Lemma exec_effect c l c' : exec c l = Some c' -> call_effect c l c'.
Proof.
  destruct l; simpl; intros E.
  - destruct (fresh th) eqn:F; [|done]. injection E as <-. apply eff_frame; [|done].
    unfold frame. do 3 (split; [done|]). simpl. split; intros t m p st H.
    + by apply lookup_app_l_Some.
    + apply lookup_app_Some in H as [?|[? H]]; [by left|]. apply list_lookup_singleton_Some in H as [_ ->].
      right. by destruct st.
  - unfold newRpcMessage in E. destruct (threads c !! t) as [[m p []|]|] eqn:Et; simplify_eq/=.
    destruct p; (eapply eff_next; [done|by split|done|done|done|]); [by left|by right].
  - unfold sendRPC_store in E. destruct (threads c !! t) as [[m p []|]|] eqn:Et; simplify_eq/=. by eapply eff_store.
  - unfold sendRPC_send in E. destruct (threads c !! t) as [[m p []|]|] eqn:Et; simplify_eq/=.
    eapply eff_move; [by split| |by left| |done..]; [done|]. destruct (Send c ok); [right; by eexists|by left].
  - unfold sendRPC_recv in E. destruct (threads c !! t) as [[m p []|]|] eqn:Et; simplify_eq/=.
    destruct (chans c !! t) eqn:Ec; simplify_eq/=. by eapply eff_recv.
  - unfold sendRPC_timeout in E. destruct (threads c !! t) as [[m p []|]|] eqn:Et; simplify_eq/=.
    eapply eff_move; [by split| |by right| |done..]; [done|]. right. by eexists.
  - unfold sendRPC_return in E. destruct (threads c !! t) as [[m p []|]|] eqn:Et; simplify_eq/=. by eapply eff_return.
  - unfold SubEventLogs_start in E. destruct (threads c !! t) as [[|f ch []]|] eqn:Et; simplify_eq/=.
    apply eff_frame; [|done]. destruct (negb _); [|destruct (watcher c !! f)]; simplify_eq; finish_frame.
  - unfold SubEventLogs_send in E. destruct (threads c !! t) as [[|f ch []]|] eqn:Et; simplify_eq/=.
    apply eff_frame; [finish_frame|done].
  - unfold SubEventLogs_store in E. destruct (threads c !! t) as [[|f ch []]|] eqn:Et; simplify_eq/=.
    apply eff_frame; [finish_frame|done].
  - unfold SubEventLogs_recv in E. destruct (threads c !! t) as [[|f ch []]|] eqn:Et; simplify_eq/=.
    destruct (reader c); simplify_eq/=. destruct (_ =? t)%nat; simplify_eq/=. apply eff_frame; [finish_frame|done].
  - unfold SubEventLogs_delete in E. destruct (threads c !! t) as [[|f ch []]|] eqn:Et; simplify_eq/=.
    apply eff_frame; [finish_frame|done].
  - unfold SubEventLogs_finish in E. destruct (threads c !! t) as [[|f ch []]|] eqn:Et; simplify_eq/=.
    apply eff_frame; [finish_frame|done].
  - injection E as <-. apply eff_frame; [|done]. unfold BlockNotify.
    destruct (if notifyBlockOnce c then None else Send c ok); finish_frame.
  - destruct (reader c); simplify_eq. apply handle_effect.
  - destruct (reader c) as [| |ch []|]; simplify_eq. apply eff_frame; [finish_frame|done].
  - injection E as <-. apply eff_frame; [|done]. unfold Close. destruct (isClosed c); finish_frame.
  - destruct (reader c); simplify_eq. destruct (isClosed c); simplify_eq. apply eff_frame; [finish_frame|done].
Qed.

(** ** Where responses come from *)

Record routed (tr : list label) (c : channelClient) : Prop := {
  routed_rpc : forall k t m, rpcResponse c !! k = Some (t, m) ->
    exists p st id, threads c !! t = Some (TCall m p st) /\ registered st id /\ k = id_key id;
  routed_chan : forall t r, chans c !! t = Some r ->
    exists m p st id, threads c !! t = Some (TCall m p st) /\ id_of st = Some id /\ evidence tr m id r;
  routed_got : forall t m p st id r, threads c !! t = Some (TCall m p st) ->
    st = CallGot id (inr r) \/ st = CallDone id (inr r) -> evidence tr m id r
}.

Lemma evidence_app tr l m id r : evidence tr m id r -> evidence (tr ++ [l]) m id r.
Proof. intros (msg & H & ?). exists msg. split; [set_solver|done]. Qed.

Lemma registered_id st id : registered st id -> id_of st = Some id.
Proof. by destruct st; simpl; intros; subst. Qed.

(** The threads after a call has moved. *)
Lemma moved_lookup c c' t m p st st' u th :
  call_moves c c' t m p st st' ->
  threads c' !! u = Some th <-> (u = t /\ th = TCall m p st') \/ (u <> t /\ threads c !! u = Some th).
Proof.
  intros [H1 H2]. rewrite H2. assert (t < length (threads c))%nat by (by eapply lookup_lt_Some).
  destruct (decide (u = t)) as [->|Hne].
  - rewrite list_lookup_insert_eq by done. split; [intros [= <-]; by left|]. by intros [[_ ->]|[? _]].
  - rewrite list_lookup_insert_ne by done. split; [by right|]. by intros [[? _]|[_ ?]].
Qed.

(** A move that keeps the id keeps what is known of the two maps. *)
Lemma moved_keep c c' t m p st st' u m' q s :
  call_moves c c' t m p st st' -> threads c !! u = Some (TCall m' q s) ->
  (u = t /\ m' = m /\ q = p /\ s = st /\ threads c' !! u = Some (TCall m p st')) \/
  (u <> t /\ threads c' !! u = Some (TCall m' q s)).
Proof.
  intros Hm Hu. destruct (decide (u = t)) as [->|Hne].
  - left. pose proof (proj1 Hm) as Ht. rewrite Ht in Hu. injection Hu as <- <- <-.
    split; [done|]. split; [done|]. split; [done|]. split; [done|]. by apply (moved_lookup _ _ _ _ _ _ _ _ _ Hm); left.
  - right. split; [done|]. by apply (moved_lookup _ _ _ _ _ _ _ _ _ Hm); right.
Qed.

Lemma routed_rpc_moves c c' t m p st st' :
  call_moves c c' t m p st st' -> (forall id, registered st id -> registered st' id) ->
  (forall k u m', rpcResponse c !! k = Some (u, m') ->
     exists q s id, threads c !! u = Some (TCall m' q s) /\ registered s id /\ k = id_key id) ->
  forall k u m', rpcResponse c !! k = Some (u, m') ->
     exists q s id, threads c' !! u = Some (TCall m' q s) /\ registered s id /\ k = id_key id.
Proof.
  intros Hm Hr H k u m' E. destruct (H k u m' E) as (q & s & id & Hu & Hs & ->).
  destruct (moved_keep _ _ _ _ _ _ _ _ _ _ _ Hm Hu) as [(-> & -> & -> & -> & Ht)|(_ & Hu')]; eauto 8.
Qed.

Lemma routed_chan_moves tr l c c' t m p st st' id :
  call_moves c c' t m p st st' -> id_of st = None \/ id_of st = Some id -> id_of st' = Some id ->
  (forall u r, chans c !! u = Some r ->
     exists m' q s i, threads c !! u = Some (TCall m' q s) /\ id_of s = Some i /\ evidence tr m' i r) ->
  forall u r, chans c !! u = Some r ->
     exists m' q s i, threads c' !! u = Some (TCall m' q s) /\ id_of s = Some i /\ evidence (tr ++ [l]) m' i r.
Proof.
  intros Hm Hi Hi' H u r E. destruct (H u r E) as (m' & q & s & i & Hu & Hs & Ev).
  destruct (moved_keep _ _ _ _ _ _ _ _ _ _ _ Hm Hu) as [(-> & -> & -> & -> & Ht)|(_ & Hu')].
  - destruct Hi as [Hi|Hi]; [congruence|]. rewrite Hs in Hi. injection Hi as ->. eauto 8 using evidence_app.
  - eauto 8 using evidence_app.
Qed.

Lemma routed_got_moves tr l c c' t m p st st' :
  call_moves c c' t m p st st' ->
  (forall id r, st' = CallGot id (inr r) \/ st' = CallDone id (inr r) -> evidence (tr ++ [l]) m id r) ->
  (forall u m' q s id r, threads c !! u = Some (TCall m' q s) ->
     s = CallGot id (inr r) \/ s = CallDone id (inr r) -> evidence tr m' id r) ->
  forall u m' q s id r, threads c' !! u = Some (TCall m' q s) ->
     s = CallGot id (inr r) \/ s = CallDone id (inr r) -> evidence (tr ++ [l]) m' id r.
Proof.
  intros Hm Hn H u m' q s id r Hu Hs. apply (moved_lookup _ _ _ _ _ _ _ _ _ Hm) in Hu as [[-> [= -> -> ->]]|[_ Hu]].
  - by apply Hn.
  - eapply evidence_app, H; eauto.
Qed.

Lemma reach_routed tr c : reach tr c -> routed tr c.
Proof.
  induction 1 as [|tr c l c' _ [IR IC IG] E].
  { split; [intros ? ? ? H|intros ? ? H|intros ? ? ? ? ? ? H]; simpl in H; by rewrite ?lookup_empty, ?lookup_nil in H. }
  apply exec_effect in E.
  destruct E as [(F1 & F2 & F3 & F4 & F5) _|t m p st' -> Hm E1 E2 E3 Hst|t m p id -> Hm E1 E2 E3
    |t m p id st st' Hm _ Hst Hst' E1 E2 E3|t m p id r -> Hm Hc E1 E2 E3|t m p id r -> Hm E1 E2 E3
    |t m msg r -> Ht Hr Hp Hc ->].
  - split; rewrite ?F1, ?F2.
    + intros k t m H. destruct (IR k t m H) as (p & st & id & Ht & ?). eauto 8.
    + intros t r H. destruct (IC t r H) as (m & p & st & id & Ht & ? & ?). eauto 9 using evidence_app.
    + intros t m p st id r H Hs. apply F5 in H as [H| ->]; [|by destruct Hs]. eapply evidence_app, IG; eauto.
  - split; rewrite ?E1, ?E2.
    + eapply routed_rpc_moves; [done|by intros ? []|done].
    + eapply (routed_chan_moves _ _ _ _ _ _ _ _ _ (idCounter c')); [done|by left| |done]. by destruct Hst as [-> | ->].
    + eapply routed_got_moves; [done| |done]. by intros i r; destruct Hst as [-> | ->]; intros [[=]|[=]].
  - split; rewrite ?E1, ?E2.
    + intros k u m' H. destruct (decide (k = id_key id)) as [->|Hk].
      * rewrite lookup_insert_eq in H. injection H as <- <-. exists p, (CallStored id), id.
        split; [apply (moved_lookup _ _ _ _ _ _ _ _ _ Hm); by left|done].
      * rewrite lookup_insert_ne in H by done. eapply (routed_rpc_moves c c'); [done|by intros ? []|done|done].
    + intros u r H. apply lookup_delete_Some in H as [Hne H].
      eapply (routed_chan_moves _ _ c c' t m p _ _ id); eauto.
    + eapply routed_got_moves; [done| |done]. by intros i r [|].
  - split; rewrite ?E1, ?E2.
    + eapply routed_rpc_moves; [done| |done]. intros i Hi.
      destruct Hst as [-> | ->]; destruct Hst' as [-> |[e ->]]; exact Hi.
    + eapply (routed_chan_moves _ _ _ _ _ _ _ _ _ id); [done|right; by destruct Hst as [-> | ->]| |done].
      by destruct Hst' as [-> |[e ->]].
    + eapply routed_got_moves; [done| |done]. intros i r. by destruct Hst' as [-> |[e ->]]; intros [|].
  - split; rewrite ?E1, ?E2.
    + eapply routed_rpc_moves; [done|by intros i Hi; exact Hi|done].
    + intros u r' H. apply lookup_delete_Some in H as [Hne H].
      eapply (routed_chan_moves _ _ c c' t m p _ _ id); eauto.
    + eapply routed_got_moves; [done| |done]. intros i r' [[= <- <-]|[=]].
      destruct (IC t r Hc) as (m' & q & s & j & Hu & Hs & Ev). pose proof (proj1 Hm) as Hw. rewrite Hw in Hu.
      injection Hu as <- <- <-. injection Hs as <-. by apply evidence_app.
  - split; rewrite ?E1, ?E2.
    + intros k u m' H. apply lookup_delete_Some in H as [Hk H].
      destruct (IR k u m' H) as (q & s & i & Hu & Hs & ->).
      destruct (moved_keep _ _ _ _ _ _ _ _ _ _ _ Hm Hu) as [(-> & -> & -> & -> & Hu')|(_ & Hu')]; [|eauto 8].
      simpl in Hs. by subst.
    + eapply (routed_chan_moves _ _ _ _ _ _ _ _ _ id); [done|by right|done|done].
    + eapply routed_got_moves; [done| |done]. intros i r' [[=]|[= -> ->]]. eapply evidence_app, IG; [apply Hm|by left].
  - split; simpl.
    + done.
    + intros u r' H. destruct (decide (u = t)) as [->|Hne].
      * rewrite lookup_insert_eq in H. injection H as <-.
        destruct (IR _ _ _ Hr) as (p & st & id & Hu & Hs & Hk). exists m, p, st, id. split; [done|].
        split; [by apply registered_id|]. exists msg. split; [set_solver|done].
      * rewrite lookup_insert_ne in H by done.
        destruct (IC u r' H) as (m' & p & st & id & Hu & ? & ?). eauto 9 using evidence_app.
    + intros u m' q s id r' H Hs. eapply evidence_app, IG; eauto.
Qed.

(** ** Ids are unique *)

Definition is_next (l : label) : bool := match l with LNextID _ => true | _ => false end.
(** How many ids were drawn. *)
Definition calls (tr : list label) : Z := len (List.filter is_next tr).

Lemma calls_snoc tr l : calls (tr ++ [l]) = calls tr + (if is_next l then 1 else 0).
Proof. unfold calls. rewrite List.filter_app, len_app. simpl. by destruct (is_next l). Qed.

Record unique (tr : list label) (c : channelClient) : Prop := {
  unique_count : idCounter c = calls tr;
  unique_range : forall t m p st id, threads c !! t = Some (TCall m p st) -> id_of st = Some id -> 1 <= id <= calls tr;
  unique_ids : forall t t' m m' p p' st st' id,
    threads c !! t = Some (TCall m p st) -> threads c !! t' = Some (TCall m' p' st') ->
    id_of st = Some id -> id_of st' = Some id -> t = t';
  unique_entry : forall t m p st id, threads c !! t = Some (TCall m p st) -> registered st id ->
    rpcResponse c !! id_key id = Some (t, m)
}.

Lemma id_key_inj a b : 0 <= a -> 0 <= b -> id_key a = id_key b -> a = b.
Proof. intros Ha Hb E. unfold id_key, AppendUint in E. by apply (FormatUint_inj 10) in E; [|lia..]. Qed.

(** A call that keeps its id. *)
Lemma unique_moves tr c c' t m p st st' id :
  unique tr c -> call_moves c c' t m p st st' -> id_of st = Some id -> id_of st' = Some id ->
  idCounter c' = idCounter c ->
  (forall u m' q s i, threads c' !! u = Some (TCall m' q s) -> registered s i -> rpcResponse c' !! id_key i = Some (u, m')) ->
  unique tr c'.
Proof.
  intros [UC UR UI _] Hm Hi Hi' Hc He.
  assert (B : forall u m' q s i, threads c' !! u = Some (TCall m' q s) -> id_of s = Some i ->
    exists m'' q' s', threads c !! u = Some (TCall m'' q' s') /\ id_of s' = Some i).
  { intros u m' q s i Hu Hs. apply (moved_lookup _ _ _ _ _ _ _ _ _ Hm) in Hu as [[-> [= -> -> ->]]|[_ Hu]]; [|eauto].
    destruct Hm as [Hm _]. rewrite Hi' in Hs. injection Hs as ->. eauto. }
  split; [congruence| | |done].
  - intros u m' q s i Hu Hs. destruct (B _ _ _ _ _ Hu Hs) as (? & ? & ? & ? & ?). eauto.
  - intros u u' m1 m2 p1 p2 s1 s2 i H1 H2 S1 S2.
    destruct (B _ _ _ _ _ H1 S1) as (? & ? & ? & ? & ?). destruct (B _ _ _ _ _ H2 S2) as (? & ? & ? & ? & ?). eauto.
Qed.

(** Entries of the other calls stay when a call touches its own key. *)
Lemma other_key tr c t u m m' p q st s i j :
  unique tr c -> threads c !! t = Some (TCall m p st) -> threads c !! u = Some (TCall m' q s) ->
  id_of st = Some i -> id_of s = Some j -> u <> t -> id_key j <> id_key i.
Proof.
  intros [UC UR UI _] Ht Hu Hi Hj Hne E. pose proof (UR _ _ _ _ _ Ht Hi). pose proof (UR _ _ _ _ _ Hu Hj).
  apply id_key_inj in E; [|lia..]. subst. by apply Hne, (UI u t m' m q p s st i).
Qed.

Lemma unique_new_id tr c c' t m p st' id :
  unique tr c -> call_moves c c' t m p CallStart st' -> id = calls tr + 1 -> id_of st' = Some id ->
  (forall i, ~ registered st' i) -> idCounter c' = id -> rpcResponse c' = rpcResponse c ->
  unique (tr ++ [LNextID t]) c'.
Proof.
  intros [UC UR UI UE] Hm -> Hid Hnr Hc Hr.
  assert (calls (tr ++ [LNextID t]) = calls tr + 1) as Ec by apply calls_snoc. rewrite <- Ec in Hid, Hc.
  assert (Old : forall u m' q s i, threads c' !! u = Some (TCall m' q s) -> id_of s = Some i -> u <> t ->
    threads c !! u = Some (TCall m' q s) /\ 1 <= i <= calls tr).
  { intros u m' q s i Hu Hi Hne. apply (moved_lookup _ _ _ _ _ _ _ _ _ Hm) in Hu as [[-> _]|[_ Hu]]; [done|].
    split; [done|]. eapply UR; eauto. }
  assert (New : forall m' q s i, threads c' !! t = Some (TCall m' q s) -> id_of s = Some i -> i = calls (tr ++ [LNextID t])).
  { intros m' q s i Hu Hi. apply (moved_lookup _ _ _ _ _ _ _ _ _ Hm) in Hu as [[_ [= -> -> ->]]|[? _]]; [|done]. congruence. }
  assert (0 <= calls tr) by apply len_nonneg.
  split; [done| | |].
  - intros u m' q s i Hu Hi. destruct (decide (u = t)) as [->|Hne].
    + rewrite (New _ _ _ _ Hu Hi). lia.
    + destruct (Old _ _ _ _ _ Hu Hi Hne). lia.
  - intros u u' m1 m2 p1 p2 s1 s2 i H1 H2 S1 S2.
    destruct (decide (u = t)) as [->|N1], (decide (u' = t)) as [->|N2]; [done|..].
    + rewrite (New _ _ _ _ H1 S1) in S2. destruct (Old _ _ _ _ _ H2 S2 N2). lia.
    + rewrite (New _ _ _ _ H2 S2) in S1. destruct (Old _ _ _ _ _ H1 S1 N1). lia.
    + destruct (Old _ _ _ _ _ H1 S1 N1), (Old _ _ _ _ _ H2 S2 N2). eauto.
  - intros u m' q s i Hu Hs. destruct (decide (u = t)) as [->|Hne].
    + apply (moved_lookup _ _ _ _ _ _ _ _ _ Hm) in Hu as [[_ [= -> -> ->]]|[? _]]; [|done]. by apply Hnr in Hs.
    + destruct (Old _ _ _ _ _ Hu (registered_id _ _ Hs) Hne). rewrite Hr. eauto.
Qed.

Lemma reach_unique tr c : reach tr c -> calls tr < 2 ^ 64 -> unique tr c.
Proof.
  induction 1 as [|tr c l c' _ IH E]; intros Hb.
  { split; [done|..]; intros *; simpl; by rewrite lookup_nil. }
  rewrite calls_snoc in Hb. assert (0 <= calls tr) by apply len_nonneg.
  assert (U : unique tr c) by (apply IH; destruct (is_next l); lia). clear IH.
  apply exec_effect in E.
  assert (NN : (forall t, l <> LNextID t) -> forall d, unique tr d -> unique (tr ++ [l]) d).
  { intros Hl d Hd. assert (calls (tr ++ [l]) = calls tr) as Ec.
    { rewrite calls_snoc. destruct l; simpl; try lia. by destruct (Hl t). }
    destruct Hd as [UC UR UI UE]. split; rewrite ?Ec; eauto. }
  destruct E as [(F1 & F2 & F3 & F4 & F5) Hl|t m p st' -> Hm E1 E2 E3 Hst|t m p id -> Hm E1 E2 E3
    |t m p id st st' Hm Hl Hst Hst' E1 E2 E3|t m p id r -> Hm Hc E1 E2 E3|t m p id r -> Hm E1 E2 E3
    |t m msg r -> Ht Hr Hp Hc ->].
  - apply NN; [done|]. destruct U as [UC UR UI UE].
    assert (B : forall u m' q s i, threads c' !! u = Some (TCall m' q s) -> id_of s = Some i -> threads c !! u = Some (TCall m' q s)).
    { intros u m' q s i Hu Hi. by apply F5 in Hu as [?| ->]. }
    split; [congruence|eauto| |].
    + intros u u' m1 m2 p1 p2 s1 s2 i H1 H2 S1 S2. eapply (UI u u'); eauto.
    + intros u m' q s i Hu Hs. rewrite F1. eapply UE; [|done]. eapply B; [done|by apply registered_id].
  - simpl in Hb. assert (idCounter c' = calls tr + 1) as Ei.
    { rewrite E3, (unique_count _ _ U). unfold u64. apply Z.mod_small. lia. }
    eapply unique_new_id; eauto.
    + by destruct Hst as [-> | ->]; simpl; rewrite Ei.
    + intros i; destruct Hst as [-> | ->]; by intros [].
  - apply NN; [done|]. eapply unique_moves; [done|done|done|done|done|].
    intros u m' q s i Hu Hs. rewrite E1. apply (moved_lookup _ _ _ _ _ _ _ _ _ Hm) in Hu as [[-> [= -> -> ->]]|[Hne Hu]].
    + simpl in Hs. subst. by rewrite lookup_insert_eq.
    + rewrite lookup_insert_ne; [eapply (unique_entry _ _ U); eauto|].
      apply not_eq_sym. eapply (other_key tr c t u); [done|apply Hm|done|done|by apply registered_id|done].
  - apply NN; [done|]. assert (id_of st = Some id) by (by destruct Hst as [-> | ->]).
    assert (id_of st' = Some id) by (by destruct Hst' as [-> |[e ->]]).
    eapply unique_moves; [done|done|done|done|done|].
    intros u m' q s i Hu Hs. rewrite E1. apply (moved_lookup _ _ _ _ _ _ _ _ _ Hm) in Hu as [[-> [= -> -> ->]]|[Hne Hu]].
    + eapply (unique_entry _ _ U); [apply Hm|]. apply registered_id in Hs. assert (i = id) as -> by congruence.
      by destruct Hst as [-> | ->].
    + eapply (unique_entry _ _ U); eauto.
  - apply NN; [done|]. eapply unique_moves; [done|done|done|done|done|].
    intros u m' q s i Hu Hs. rewrite E1. apply (moved_lookup _ _ _ _ _ _ _ _ _ Hm) in Hu as [[-> [= -> -> ->]]|[Hne Hu]].
    + eapply (unique_entry _ _ U); [apply Hm|exact Hs].
    + eapply (unique_entry _ _ U); eauto.
  - apply NN; [done|]. eapply unique_moves; [done|done|done|done|done|].
    intros u m' q s i Hu Hs. rewrite E1. apply (moved_lookup _ _ _ _ _ _ _ _ _ Hm) in Hu as [[-> [= -> -> ->]]|[Hne Hu]]; [done|].
    rewrite lookup_delete_ne; [eapply (unique_entry _ _ U); eauto|].
    apply not_eq_sym. eapply (other_key tr c t u); [done|apply Hm|done|done|by apply registered_id|done].
  - apply NN; [done|]. destruct U as [UC UR UI UE]. by split.
Qed.

(** ** Theorems about calls *)

(** C5: A call gets its own answer: in every interleaving of callers, network
    and reader, the response that a finished call returns was made, by its own
    method, of a delivered RPC message that carries the id of the call; and as
    long as fewer than 2^64 ids were drawn, no two calls have the same id. *)
Theorem rpc_response_routed tr c t m p id r :
  reach tr c -> calls tr < 2 ^ 64 -> threads c !! t = Some (TCall m p (CallDone id (inr r))) ->
  (exists msg, LDeliver msg ∈ tr /\ Type_ msg = TypeRPCRequest /\ gjson_id (Data msg) = id_key id /\
     rpc_respmsg m (Data msg) = Some r) /\
  (forall t' m' p' st', threads c !! t' = Some (TCall m' p' st') -> id_of st' = Some id -> t' = t).
Proof.
  intros Hr Hb Ht. split.
  - eapply (routed_got _ _ (reach_routed _ _ Hr)); [done|by right].
  - intros t' m' p' st' Ht' Hi. by eapply (unique_ids _ _ (reach_unique _ _ Hr Hb)).
Qed.

(** An answer that arrives while its call waits reaches it: when the
    reader is free, a call waits and nothing has answered it yet, delivering a
    message with its id that decodes makes the response available, the call
    can take it at once and the reader is free again. *)
Theorem rpc_response_received tr c t m p id msg r :
  reach tr c -> calls tr < 2 ^ 64 -> threads c !! t = Some (TCall m p (CallWaiting id)) ->
  reader c = RSelect -> chans c !! t = None ->
  Type_ msg = TypeRPCRequest -> gjson_id (Data msg) = id_key id -> rpc_respmsg m (Data msg) = Some r ->
  exists c', exec_all c [LDeliver msg; LRecv t] = Some c' /\ reader c' = RSelect /\
    threads c' !! t = Some (TCall m p (CallGot id (inr r))).
Proof.
  intros Hr Hb Ht Hs Hc Hty Hid Hresp.
  pose proof (unique_entry _ _ (reach_unique _ _ Hr Hb) t m p (CallWaiting id) id Ht eq_refl) as He.
  unfold exec_all. simpl. rewrite Hs. simpl. unfold handle, handle_rpc.
  rewrite Hty. simpl. rewrite Hid, He, Hresp, Hc. unfold sendRPC_recv. simpl. rewrite Ht, lookup_insert_eq.
  eexists. split; [done|]. split; [done|]. simpl. rewrite list_lookup_insert_eq; [done|].
  by eapply lookup_lt_Some.
Qed.

(** The answer to a contract call that carries an error is reported as
    not found: for the method call the reader copies only the version, the id
    and the output of the answer, so an error without an output reaches the
    caller as NotFound, whereas for any other method it is returned. *)
Theorem call_error_dropped data f e :
  unmarshal_fisco data = Some f -> fisco_Error f = Some e -> fisco_Output f = [] ->
  (exists r, rpc_respmsg (str "call") data = Some r /\ rpcCall_result (inr r) = inl NotFound) /\
  (forall m r, m <> str "call" -> unmarshal_rpc data = Some r -> Error r = Some e ->
     rpc_respmsg m data = Some r /\ rpcCall_result (inr r) = inl (ErrRPC e)).
Proof.
  intros Hf He Ho. split.
  - unfold rpc_respmsg. rewrite bool_decide_true, Hf by done. eexists. split; [done|]. simpl. by rewrite Ho.
  - intros m r Hm Hu Hr. unfold rpc_respmsg. rewrite bool_decide_false by done. split; [done|]. simpl. by rewrite Hr.
Qed.

(** ** Theorems about subscriptions *)

(** The logs of an event are handed over one by one. *)
Lemma take_logs c ch logs :
  reader c = RSendLogs ch logs -> logs <> [] ->
  exists c', exec_all c (replicate (length logs) LTakeLog) = Some c' /\ reader c' = RSelect /\
    delivered c' = delivered c ++ map (fun l => (ch, l)) logs.
Proof.
  revert c. induction logs as [|l logs IH]; intros c Hr Hne; [done|]. simpl replicate. unfold exec_all in *. simpl.
  rewrite Hr. destruct logs as [|l' logs].
  - simpl. by eexists.
  - destruct (IH (set_delivered (delivered c ++ [(ch, l)]) (set_reader (RSendLogs ch (l' :: logs)) c))) as (c' & E & H1 & H2);
      [done|done|]. exists c'. split; [done|]. split; [done|]. rewrite H2. simpl. by rewrite <- app_assoc.
Qed.

(** The logs of an event message reach the watcher of its filter, all of
    them and in order, and then the reader is free again; a message for a
    filter without a watcher, or one that does not decode, changes nothing. *)
Theorem event_logs_in_order c msg :
  reader c = RSelect -> Type_ msg = TypeEventLog ->
  match unmarshal_event (Data msg) with
  | Some ev =>
      match watcher c !! FilterID ev with
      | Some ch =>
          exists c', exec_all c (LDeliver msg :: replicate (length (Logs ev)) LTakeLog) = Some c' /\ reader c' = RSelect /\
            delivered c' = delivered c ++ map (fun l => (ch, to_Log l)) (Logs ev)
      | None => exec c (LDeliver msg) = Some c
      end
  | None => exec c (LDeliver msg) = Some c
  end.
Proof.
  intros Hr Ht.
  assert (E : exec c (LDeliver msg) = Some (handle_event c (Data msg))).
  { simpl. rewrite Hr. unfold handle. by rewrite Ht. }
  unfold handle_event in E. destruct (unmarshal_event (Data msg)) as [ev|]; [|done].
  destruct (watcher c !! FilterID ev) as [ch|]; [|done].
  destruct (Logs ev) as [|l logs] eqn:El.
  - exists c. unfold exec_all. simpl foldl. simpl in E. rewrite E. split; [done|]. split; [done|]. by rewrite app_nil_r.
  - simpl map in E. destruct (take_logs (set_reader (RSendLogs ch (map to_Log (l :: logs))) c) ch (map to_Log (l :: logs)))
      as (c' & E' & H1 & H2); [done|done|].
    exists c'. unfold exec_all in *. rewrite length_map in E'.
    split; [change (foldl ?g (Some c) (LDeliver msg :: ?ls)) with (foldl g (exec c (LDeliver msg)) ls); by rewrite E|]. split; [done|]. rewrite H2. by rewrite map_map.
Qed.

Section registration.
  Context (f : list Z) (ch : nat) (seq : list Z) (msg : Message)
    (Hf : len f = 32) (Hty : Type_ msg = TypeRegisterEventLog) (Hseq : Seq msg = seq).

(** The registration of goroutine 0 waits, and the reader has nothing for it. *)
Definition waits_alone (c : channelClient) : Prop :=
  threads c !! 0%nat = Some (TSub f ch (SubPending seq)) /\ (forall res, reader c <> RSendReg 0 res) /\
  (forall s, pending c !! s = Some 0%nat -> s = seq).

(** Goroutine 0 is past its rendezvous and the reader tries to send to it. *)
Definition reader_stuck (c : channelClient) : Prop :=
  (exists st, threads c !! 0%nat = Some (TSub f ch st) /\
     match st with SubGot _ _ | SubStoring | SubDone _ => True | _ => False end) /\
  exists res, reader c = RSendReg 0 res.

Lemma other_thread (c : channelClient) t th th' :
  threads c !! 0%nat = Some th -> (t = 0%nat -> False) -> <[t := th']> (threads c) !! 0%nat = Some th.
Proof. intros H Hne. by rewrite list_lookup_insert_ne. Qed.

Ltac other_call H :=
  first [exact H | apply other_thread; [exact H|intros ->; congruence] | by apply lookup_app_l_Some].

Lemma waits_alone_keep c c' :
  waits_alone c -> threads c' !! 0%nat = threads c !! 0%nat ->
  (reader c' = reader c \/ forall res, reader c' <> RSendReg 0 res) ->
  (forall s, pending c' !! s = Some 0%nat -> pending c !! s = Some 0%nat) -> waits_alone c'.
Proof.
  intros (Ht & Hr & Hp) E1 E2 E3. split; [by rewrite E1|]. split; [|by eauto].
  destruct E2 as [-> |]; done.
Qed.

(** Split an action into its cases and show that goroutine 0 is not moved. *)
Ltac action_cases :=
  repeat case_match; simplify_eq/=.
Ltac not_moved Ht :=
  simpl; first [done | rewrite list_lookup_insert_ne; [done|intros ->; congruence]
               | rewrite lookup_app_l; [done|by eapply lookup_lt_Some]].

Lemma waits_alone_step c l c' :
  exec c l = Some c' -> (forall m, l = LDeliver m -> Type_ m = TypeRegisterEventLog -> Seq m <> seq) ->
  waits_alone c -> waits_alone c'.
Proof.
  intros E Hl W. pose proof W as (Ht & Hr & Hp).
  destruct l; simpl in E;
    unfold newRpcMessage, nextID, sendRPC_store, sendRPC_send, sendRPC_recv, sendRPC_timeout, sendRPC_return,
      SubEventLogs_start, SubEventLogs_send, SubEventLogs_finish, Close in E;
    try (action_cases; (eapply waits_alone_keep; [exact W|not_moved Ht|by left|intros s Hs; exact Hs])).
  - unfold SubEventLogs_store in E. action_cases. eapply waits_alone_keep; [exact W|not_moved Ht|by left|].
    intros s Hs. simpl in Hs. apply lookup_insert_Some in Hs as [[_ ->]|[_ Hs]]; [congruence|done].
  - unfold SubEventLogs_recv in E. action_cases.
    eapply waits_alone_keep; [exact W| |by right|intros s Hs; exact Hs].
    destruct (decide (t = 0%nat)) as [->|]; [|not_moved Ht]. exfalso. eapply Hr.
    match goal with H : (_ =? _)%nat = true |- _ => apply Nat.eqb_eq in H as -> end. reflexivity.
  - unfold SubEventLogs_delete in E. action_cases; (eapply waits_alone_keep; [exact W|not_moved Ht|by left|]);
      intros s Hs; simpl in Hs; by apply lookup_delete_Some in Hs as [_ Hs].
  - injection E as <-. unfold BlockNotify.
    destruct (if notifyBlockOnce c then None else Send c ok); (eapply waits_alone_keep; [exact W|done|by left|intros s Hs; exact Hs]).
  - destruct (reader c) eqn:Er; simplify_eq. unfold handle.
    destruct (Z.eqb_spec (Type_ msg0) TypeRPCRequest).
    { unfold handle_rpc. action_cases; (eapply waits_alone_keep; [exact W|done|by left|intros s Hs; exact Hs]). }
    destruct (Z.eqb_spec (Type_ msg0) TypeRegisterEventLog) as [Hreg|].
    { unfold handle_register. destruct (pending c !! Seq msg0) as [t|] eqn:Es; [|done].
      eapply waits_alone_keep; [exact W|done| |intros s Hs; exact Hs]. right. intros res [= -> _].
      by apply (Hl msg0 eq_refl Hreg), Hp. }
    unfold handle_event, handle_block.
    action_cases; (eapply waits_alone_keep; [exact W|done|first [by left|by right]|intros s Hs; exact Hs]).
  - action_cases; (eapply waits_alone_keep; [exact W|done|by right|intros s Hs; exact Hs]).
  - action_cases; (eapply waits_alone_keep; [exact W|done|by right|intros s Hs; exact Hs]).
Qed.

Lemma reader_stuck_keep c c' :
  reader_stuck c -> threads c' !! 0%nat = threads c !! 0%nat -> reader c' = reader c -> reader_stuck c'.
Proof. intros [H1 H2] E1 E2. unfold reader_stuck. by rewrite E1, E2. Qed.

Lemma reader_stuck_step c l c' : exec c l = Some c' -> reader_stuck c -> reader_stuck c'.
Proof.
  intros E W. pose proof W as ((st & Ht & Hst) & res & Hr).
  destruct l; simpl in E;
    unfold newRpcMessage, nextID, sendRPC_store, sendRPC_send, sendRPC_recv, sendRPC_timeout, sendRPC_return,
      SubEventLogs_start, SubEventLogs_send, SubEventLogs_store, Close in E;
    try (rewrite Hr in E; done);
    try (action_cases; (eapply reader_stuck_keep; [exact W| |done]); simpl;
         first [done | rewrite list_lookup_insert_ne; [done|intros ->; simplify_eq; done]
               | rewrite lookup_app_l; [done|by eapply lookup_lt_Some]]).
  - unfold SubEventLogs_recv in E. rewrite Hr in E. destruct (threads c !! t) as [[|g k []]|] eqn:Eg; try done.
    destruct (Nat.eqb_spec 0 t); [subst; by simplify_eq|done].
  - unfold SubEventLogs_delete in E. destruct (threads c !! t) as [[|g k []]|] eqn:Eg; simplify_eq/=.
    destruct (decide (t = 0%nat)) as [->|].
    + rewrite Ht in Eg. injection Eg as <- <- ->. split; [|by exists res].
      eexists. simpl. rewrite list_lookup_insert_eq by (by eapply lookup_lt_Some). split; [done|]. by destruct res0.
    + eapply reader_stuck_keep; [exact W|by simpl; rewrite list_lookup_insert_ne|done].
  - unfold SubEventLogs_finish in E. destruct (threads c !! t) as [[|g k []]|] eqn:Eg; simplify_eq/=.
    destruct (decide (t = 0%nat)) as [->|].
    + rewrite Ht in Eg. injection Eg as <- <- ->. split; [|by exists res].
      eexists. simpl. rewrite list_lookup_insert_eq by (by eapply lookup_lt_Some). by split.
    + eapply reader_stuck_keep; [exact W|by simpl; rewrite list_lookup_insert_ne|done].
  - injection E as <-. unfold BlockNotify.
    destruct (if notifyBlockOnce c then None else Send c ok); (by eapply reader_stuck_keep).
Qed.

Lemma runs_waits ls c c' :
  runs c ls c' -> (forall m, LDeliver m ∈ ls -> Type_ m = TypeRegisterEventLog -> Seq m <> seq) ->
  waits_alone c -> waits_alone c'.
Proof.
  induction 1 as [|c l c1 ls c2 E _ IH]; intros Hl W; [done|].
  apply IH; [intros m Hm; apply Hl; by right|]. eapply waits_alone_step; [done| |done].
  intros m ->. apply Hl. by left.
Qed.

Lemma runs_stuck ls c c' : runs c ls c' -> reader_stuck c -> reader_stuck c'.
Proof. induction 1 as [|c l c1 ls c2 E _ IH]; intros W; [done|]. apply IH. by eapply reader_stuck_step. Qed.

Lemma reach_snoc tr c l c' : reach tr c -> exec c l = Some c' -> reach (tr ++ [l]) c'.
Proof. apply reach_step. Qed.

(** A registration can lose its answer: SubEventLogs stores the channel
    it waits on only after the request was sent, so when the node answers in
    between, the reader finds nothing under the sequence number and drops the
    answer; from then on, whatever happens, the registration never returns
    unless the node answers the same request a second time. *)
Theorem registration_answer_lost :
  exists c, reach [LSpawn (TSub f ch SubStart); LSubStart 0; LSubSend 0 true seq; LDeliver msg; LSubStore 0] c /\
    threads c !! 0%nat = Some (TSub f ch (SubPending seq)) /\
    forall ls c', runs c ls c' -> (forall m, LDeliver m ∈ ls -> Type_ m = TypeRegisterEventLog -> Seq m <> seq) ->
      threads c' !! 0%nat = Some (TSub f ch (SubPending seq)).
Proof.
  assert (Hf' : negb (len f =? 32) = false) by (by rewrite Hf).
  set (c0 := set_threads (fun ts => ts ++ [TSub f ch SubStart]) newChannel).
  set (c1 := set_thread 0 (TSub f ch SubSending) c0).
  set (c2 := set_thread 0 (TSub f ch (SubSent seq)) c1).
  exists (set_thread 0 (TSub f ch (SubPending seq)) (set_pending <[seq := 0%nat]> c2)). split.
  { apply (reach_snoc [_; _; _; _] c2); [|done].
    apply (reach_snoc [_; _; _] c2); [|by simpl; unfold handle; rewrite Hty].
    apply (reach_snoc [_; _] c1); [|done]. apply (reach_snoc [_] c0); [by apply (reach_snoc [] newChannel); [apply reach_new|]|].
    simpl. unfold SubEventLogs_start. simpl. by rewrite Hf'. }
  split; [done|]. intros ls c' Hr Hl. apply (runs_waits ls _ c' Hr Hl). split; [done|]. split; [done|].
  simpl. intros s Hs. apply lookup_insert_Some in Hs as [[<- _]|[_ Hs]]; [done|]. by rewrite lookup_empty in Hs.
Qed.

(** A second answer to a registration blocks the client for good: when it
    arrives after SubEventLogs took the first one and before it deleted its
    channel, the reader blocks sending on a channel nobody receives from, and in
    every continuation it reads no further message. *)
Theorem duplicate_answer_blocks_reader :
  exists c, reach [LSpawn (TSub f ch SubStart); LSubStart 0; LSubSend 0 true seq; LSubStore 0; LDeliver msg;
                   LSubRecv 0; LDeliver msg] c /\
    forall ls c', runs c ls c' -> (exists res, reader c' = RSendReg 0 res) /\ forall m, exec c' (LDeliver m) = None.
Proof.
  assert (Hf' : negb (len f =? 32) = false) by (by rewrite Hf).
  set (res := if gjson_result (Data msg) =? 0 then None else Some (ErrRegister (gjson_result (Data msg)))).
  set (c0 := set_threads (fun ts => ts ++ [TSub f ch SubStart]) newChannel).
  set (c2 := set_thread 0 (TSub f ch (SubSent seq)) (set_thread 0 (TSub f ch SubSending) c0)).
  set (c3 := set_thread 0 (TSub f ch (SubPending seq)) (set_pending <[seq := 0%nat]> c2)).
  set (c5 := set_thread 0 (TSub f ch (SubGot seq res)) (set_reader RSelect (set_reader (RSendReg 0 res) c3))).
  assert (D : forall c, reader c = RSelect -> pending c = {[seq := 0%nat]} ->
    exec c (LDeliver msg) = Some (set_reader (RSendReg 0 res) c)).
  { intros c Hc Hp. simpl. rewrite Hc. unfold handle. rewrite Hty. simpl. unfold handle_register.
    by rewrite Hseq, Hp, lookup_singleton_eq. }
  exists (set_reader (RSendReg 0 res) c5). split.
  { apply (reach_snoc [_; _; _; _; _; _]) with (c := c5); [|by apply D].
    apply (reach_snoc [_; _; _; _; _]) with (c := set_reader (RSendReg 0 res) c3); [|done].
    apply (reach_snoc [_; _; _; _]) with (c := c3); [|by apply D].
    apply (reach_snoc [_; _; _]) with (c := c2); [|done].
    apply (reach_snoc [_; _] (set_thread 0 (TSub f ch SubSending) c0)); [|done].
    apply (reach_snoc [_] c0); [by apply (reach_snoc [] newChannel); [apply reach_new|]|].
    simpl. unfold SubEventLogs_start. simpl. by rewrite Hf'. }
  intros ls c' Hr. apply runs_stuck in Hr as [_ [res' Hres]].
  - split; [by exists res'|]. intros m. simpl. by rewrite Hres.
  - split; [by exists (SubGot seq res)|by exists res].
Qed.
End registration.
End reader.

(** After a failed first BlockNotify the client never subscribes: the
    first call uses up the sync.Once even though its request was not sent, so
    every later call reports success and only adds its callback, without ever
    sending the request that makes the node notify blocks. *)
Theorem block_notify_after_failure c cb e ok cb' ok' :
  notifyBlockOnce c = false -> Send c ok = Some e ->
  let '(c1, err1) := BlockNotify c cb ok in
  err1 = Some e /\ onBlock c1 = onBlock c /\
  let '(c2, err2) := BlockNotify c1 cb' ok' in
  err2 = None /\ onBlock c2 = onBlock c ++ [cb'].
Proof. intros Hn Hs. unfold BlockNotify. rewrite Hn, Hs. simpl. done. Qed.

Lemma block_notify_after_failure_witness :
  let '(c1, err1) := BlockNotify newChannel (Some 1%nat) false in
  err1 = Some ErrWrite /\ onBlock c1 = [] /\
  let '(c2, err2) := BlockNotify c1 (Some 2%nat) false in err2 = None /\ onBlock c2 = [Some 2%nat].
Proof. exact (block_notify_after_failure newChannel (Some 1%nat) ErrWrite false (Some 2%nat) false eq_refl eq_refl). Defined.

(** ** A concrete decoder for the witnesses *)

Module Demo.
Definition gid (d : list Z) : list Z := take 1 d.
Definition gres (d : list Z) : Z := 0.
Definition urpc (d : list Z) : option jsonrpcMessage :=
  Some {| Version := str "2.0"; ID := take 1 d; Method := []; Params := []; Error := Some {| Code := 1; EMessage := [] |}; RpcResult := drop 1 d |}.
Definition ufisco (d : list Z) : option jsonrpcFiscoMsg :=
  Some {| fisco_ID := take 1 d; fisco_Jsonrpc := str "2.0"; fisco_Error := Some {| Code := 1; EMessage := [] |}; fisco_Output := [] |}.
Definition entry : logEntry :=
  {| le_Address := []; le_Topics := []; le_Data := str "0x01"; le_BlockNumber := str "0x10"; le_TxHash := [];
     le_TxIndex := str "0x0"; le_BlockHash := []; le_Index := str "0x1"; le_Removed := false |}.
Definition uev (d : list Z) : option EventLogResponse := Some {| FilterID := []; Logs := [entry]; EResult := 0 |}.
Definition ublk (d : list Z) : option BlockNotifyResponse := None.
Definition answer : Message :=
  {| Length := 44; Type_ := TypeRPCRequest; Seq := []; Result := 0; TopicLength := 0; Topic := []; Data := str "1x" |}.
Definition tr : list label :=
  [LSpawn (TCall (str "m") (Some []) CallStart); LNextID 0; LStore 0; LSend 0 true].
Definition registered_answer : Message :=
  {| Length := 42; Type_ := TypeRegisterEventLog; Seq := str "s"; Result := 0; TopicLength := 0; Topic := []; Data := [] |}.
End Demo.

Lemma reach_exec_all gi gr ur uf ue ub ls c :
  exec_all gi gr ur uf ue ub newChannel ls = Some c -> reach gi gr ur uf ue ub ls c.
Proof.
  revert c. induction ls as [|l ls IH] using rev_ind; intros c E; [injection E as <-; apply reach_new|].
  unfold exec_all in E. rewrite foldl_app in E. simpl in E.
  destruct (foldl _ _ ls) as [c0|] eqn:E0; [|done]. eapply reach_step; [by apply IH|done].
Qed.

Definition demo_run (ls : list label) : channelClient :=
  match exec_all Demo.gid Demo.gres Demo.urpc Demo.ufisco Demo.uev Demo.ublk newChannel ls with Some c => c | None => newChannel end.

Lemma rpc_response_routed_witness :
  exists r, (exists msg, LDeliver msg ∈ Demo.tr ++ [LDeliver Demo.answer; LRecv 0; LReturn 0] /\
    Type_ msg = TypeRPCRequest /\ Demo.gid (Data msg) = id_key 1 /\
    rpc_respmsg Demo.urpc Demo.ufisco (str "m") (Data msg) = Some r) /\ RpcResult r = str "x".
Proof.
  eexists. split.
  - eapply (rpc_response_routed Demo.gid Demo.gres Demo.urpc Demo.ufisco Demo.uev Demo.ublk
      (Demo.tr ++ [LDeliver Demo.answer; LRecv 0; LReturn 0])
      (demo_run (Demo.tr ++ [LDeliver Demo.answer; LRecv 0; LReturn 0])) 0 (str "m") (Some [])).
    + apply reach_exec_all. vm_compute. reflexivity.
    + vm_compute. reflexivity.
    + vm_compute. reflexivity.
  - reflexivity.
Defined.

Lemma rpc_response_received_witness :
  exists c', exec_all Demo.gid Demo.gres Demo.urpc Demo.ufisco Demo.uev Demo.ublk
    (demo_run Demo.tr) [LDeliver Demo.answer; LRecv 0] = Some c' /\ reader c' = RSelect /\
    exists r, threads c' !! 0%nat = Some (TCall (str "m") (Some []) (CallGot 1 (inr r))).
Proof.
  destruct (rpc_response_received Demo.gid Demo.gres Demo.urpc Demo.ufisco Demo.uev Demo.ublk
    Demo.tr (demo_run Demo.tr) 0 (str "m") (Some []) 1 Demo.answer
    {| Version := str "2.0"; ID := str "1"; Method := []; Params := []; Error := Some {| Code := 1; EMessage := [] |}; RpcResult := str "x" |})
    as (c' & H1 & H2 & H3); try (vm_compute; reflexivity).
  - apply reach_exec_all. vm_compute. reflexivity.
  - exists c'. split; [exact H1|]. split; [exact H2|]. eexists. exact H3.
Defined.

Lemma call_error_dropped_witness :
  exists r, rpc_respmsg Demo.urpc Demo.ufisco (str "call") (str "1") = Some r /\ rpcCall_result (inr r) = inl NotFound.
Proof.
  apply (call_error_dropped Demo.urpc Demo.ufisco (str "1")
    {| fisco_ID := str "1"; fisco_Jsonrpc := str "2.0"; fisco_Error := Some {| Code := 1; EMessage := [] |}; fisco_Output := [] |}
    {| Code := 1; EMessage := [] |}); reflexivity.
Defined.

Lemma event_logs_in_order_witness :
  exists c', exec_all Demo.gid Demo.gres Demo.urpc Demo.ufisco Demo.uev Demo.ublk (set_watcher <[[] := 5%nat]> newChannel)
    [LDeliver {| Length := 42; Type_ := TypeEventLog; Seq := []; Result := 0; TopicLength := 0; Topic := []; Data := [] |};
     LTakeLog] = Some c' /\ reader c' = RSelect /\ delivered c' = [(5%nat, to_Log Demo.entry)].
Proof.
  exact (event_logs_in_order Demo.gid Demo.gres Demo.urpc Demo.ufisco Demo.uev Demo.ublk (set_watcher <[[] := 5%nat]> newChannel)
    {| Length := 42; Type_ := TypeEventLog; Seq := []; Result := 0; TopicLength := 0; Topic := []; Data := [] |} eq_refl eq_refl).
Defined.

Lemma registration_answer_lost_witness :
  exists c, reach Demo.gid Demo.gres Demo.urpc Demo.ufisco Demo.uev Demo.ublk
      [LSpawn (TSub (replicate 32 48) 7 SubStart); LSubStart 0; LSubSend 0 true (str "s"); LDeliver Demo.registered_answer; LSubStore 0] c /\
    threads c !! 0%nat = Some (TSub (replicate 32 48) 7 (SubPending (str "s"))).
Proof.
  destruct (registration_answer_lost Demo.gid Demo.gres Demo.urpc Demo.ufisco Demo.uev Demo.ublk
    (replicate 32 48) 7 (str "s") Demo.registered_answer eq_refl eq_refl) as (c & H1 & H2 & _).
  exists c. split; [exact H1|exact H2].
Defined.

Lemma duplicate_answer_blocks_reader_witness :
  exists c, forall ls c', runs Demo.gid Demo.gres Demo.urpc Demo.ufisco Demo.uev Demo.ublk c ls c' ->
    (exists res, reader c' = RSendReg 0 res) /\
    forall m, exec Demo.gid Demo.gres Demo.urpc Demo.ufisco Demo.uev Demo.ublk c' (LDeliver m) = None.
Proof.
  destruct (duplicate_answer_blocks_reader Demo.gid Demo.gres Demo.urpc Demo.ufisco Demo.uev Demo.ublk
    (replicate 32 48) 7 (str "s") Demo.registered_answer eq_refl eq_refl eq_refl) as (c & _ & H).
  exists c. exact H.
Defined.
