(* ===== verification/Bloom.v ===== *)
(** * Log bloom filters and their rotation

    The 2048-bit bloom filter over logs of core/types/bloom9.go and the
    generator of core/bloombits that transposes the filters of a section into
    one bit vector per filter bit.  A filter is the list of its 256 bytes.
    Keccak-256 is a parameter, with the length of its digest as its law; a log
    is its address and its topics. *)

From stdpp Require Import list strings.
From S2P Require Import Prelude Bitutil Compress GoText Hexutil Math Common.

Definition BloomByteLength : Z := 256.
Definition BloomBitLength : Z := 8 * BloomByteLength.

(** ** core/types/bloom9.go *)

(** [None] is the panic of bytes that are too long. *)
Definition Bloom_SetBytes (b d : list Z) : option (list Z) :=
  if BloomByteLength <? len d then None else go_copy_at b (BloomByteLength - len d) d.
Definition BytesToBloom (b : list Z) : option (list Z) := Bloom_SetBytes (zeros BloomByteLength) b.
Definition Bloom_Big (b : list Z) : Z := be_val b.
Definition Bloom_MarshalText (b : list Z) : list Z := Bytes_MarshalText b.
Definition Bloom_UnmarshalText (b input : list Z) := UnmarshalFixedText "Bloom" input b.

Section bloom.
  Context (Keccak256 : list Z -> list Z).

(** One round of bloom9: the bit that two bytes of the digest select. *)
Definition bloom_bit (h : list Z) (i : nat) (r : Z) : option Z :=
  hi ← h !! i; lo ← h !! S i;
  Some (Z.lor r (Z.shiftl 1 (Z.land (lo + Z.shiftl hi 8) 2047))).

(** [None] is an index outside the digest. *)
Definition bloom9 (b : list Z) : option Z :=
  let h := Keccak256 b in
  r ← bloom_bit h 0 0; r ← bloom_bit h 2 r; bloom_bit h 4 r.

(** A log: its address and its topics. *)
Definition LogsBloom_topics (bin : option Z) (topics : list (list Z)) : option Z :=
  foldl (fun bin b => bin ← bin; x ← bloom9 b; Some (Z.lor bin x)) bin topics.
Definition LogsBloom (logs : list (list Z * list (list Z))) : option Z :=
  foldl (fun bin log => LogsBloom_topics bin (fst log :: snd log)) (Some 0) logs.
Definition CreateBloom (receipts : list (list (list Z * list (list Z)))) : option (list Z) :=
  bin ← foldl (fun bin logs => bin ← bin; x ← LogsBloom logs; Some (Z.lor bin x)) (Some 0) receipts;
  BytesToBloom (big_bytes bin).

Definition BloomLookup (bin topic : list Z) : option bool :=
  let bloom := Bloom_Big bin in
  cmp ← bloom9 topic; Some (Z.land bloom cmp =? cmp).

(** Add and Test take a big integer and hash its bytes. *)
Definition Bloom_Add (b : list Z) (d : Z) : option (list Z) :=
  x ← bloom9 (big_bytes d); Bloom_SetBytes b (big_bytes (Z.lor (be_val b) x)).
Definition Bloom_Test (b : list Z) (test : Z) : option bool := BloomLookup b (big_bytes test).
Definition Bloom_TestBytes (b test : list Z) : option bool := Bloom_Test b (be_val test).
End bloom.

(** ** core/bloombits/generator.go *)

Inductive bloombits_error : Type :=
| errSectionCount
| errSectionOutOfBounds
| errUnexpectedIndex
| errNotGenerated
| errBloomBitOutOfBounds.

Record Generator : Type := { blooms : list (list Z); sections : nat; nextSec : nat }.

Definition NewGenerator (sections : nat) : bloombits_error + Generator :=
  if negb (sections mod 8 =? 0)%nat then inl errSectionCount
  else inr {| blooms := replicate (Z.to_nat BloomBitLength) (replicate (sections / 8) 0); sections := sections; nextSec := 0 |}.

(** The test of bit [i] of a filter. *)
Definition bloom_has (bloom : list Z) (i : nat) : bool :=
  negb (Z.land (default 0 (bloom !! (256 - 1 - i / 8)%nat)) (Z.shiftl 1 (Z.of_nat (i mod 8))) =? 0).

Definition AddBloom (g : Generator) (index : nat) (bloom : list Z) : bloombits_error + Generator :=
  if (sections g <=? nextSec g)%nat then inl errSectionOutOfBounds
  else if negb (nextSec g =? index)%nat then inl errUnexpectedIndex
  else inr {| blooms := imap (fun i row => if bloom_has bloom i then set_bit (nextSec g) row else row) (blooms g);
              sections := sections g; nextSec := S (nextSec g) |}.

Definition Bitset (g : Generator) (idx : nat) : bloombits_error + list Z :=
  if negb (nextSec g =? sections g)%nat then inl errNotGenerated
  else if BloomBitLength <=? Z.of_nat idx then inl errBloomBitOutOfBounds
  else inr (default [] (blooms g !! idx)).

(** Adding the filters of a whole section in order. *)
Fixpoint add_blooms (g : Generator) (bs : list (list Z)) : bloombits_error + Generator :=
  match bs with
  | [] => inr g
  | b :: bs => match AddBloom g (nextSec g) b with inl e => inl e | inr g => add_blooms g bs end
  end.

(** ** Sets of bits *)

(** Every bit of [x] is set in [v]. *)
Definition covers (v x : Z) : Prop := Z.land v x = x.

Lemma covers_bits v x : covers v x <-> forall n, 0 <= n -> Z.testbit x n = true -> Z.testbit v n = true.
Proof.
  unfold covers. split.
  - intros E n Hn Hx. rewrite <- E, Z.land_spec in Hx. by apply andb_true_iff in Hx as [? _].
  - intros H. apply Z.bits_inj'. intros n Hn. rewrite Z.land_spec. destruct (Z.testbit x n) eqn:E; [|by rewrite andb_false_r].
    by rewrite (H n Hn E).
Qed.

Lemma covers_refl v : covers v v.
Proof. unfold covers. apply Z.land_diag. Qed.
Lemma covers_trans a b c : covers a b -> covers b c -> covers a c.
Proof. rewrite !covers_bits. eauto. Qed.
Lemma covers_lor_l a b : covers (Z.lor a b) a.
Proof. apply covers_bits. intros n _ H. by rewrite Z.lor_spec, H. Qed.
Lemma covers_lor_r a b : covers (Z.lor a b) b.
Proof. apply covers_bits. intros n _ H. by rewrite Z.lor_spec, H, orb_true_r. Qed.

Lemma lor_bound a b n : 0 <= n -> 0 <= a < 2 ^ n -> 0 <= b < 2 ^ n -> 0 <= Z.lor a b < 2 ^ n.
Proof.
  intros Hn Ha Hb. assert (0 <= Z.lor a b) by (apply Z.lor_nonneg; lia). split; [done|].
  destruct (decide (Z.lor a b = 0)) as [->|Hne]; [apply Z.pow_pos_nonneg; lia|].
  apply Z.log2_lt_pow2; [lia|]. rewrite Z.log2_lor by lia.
  destruct (decide (n = 0)) as [->|]; [simpl in *; assert (a = 0) by lia; assert (b = 0) by lia; by subst|].
  apply Z.max_lub_lt; [destruct (decide (a = 0)) as [->|]|destruct (decide (b = 0)) as [->|]];
    try (simpl; lia); apply Z.log2_lt_pow2; lia.
Qed.

Lemma covers_bound v x n : 0 <= n -> 0 <= x -> 0 <= v < 2 ^ n -> covers v x -> x < 2 ^ n.
Proof.
  intros Hn Hx Hv C. destruct (decide (x = 0)) as [->|]; [apply Z.pow_pos_nonneg; lia|].
  apply Z.log2_lt_pow2; [lia|]. apply Z.nle_gt. intros Hge.
  rewrite covers_bits in C. specialize (C (Z.log2 x) ltac:(apply Z.log2_nonneg) ltac:(apply Z.bit_log2; lia)).
  rewrite <- (Z.mod_small v (2 ^ n)), Z.mod_pow2_bits_high in C by lia. done.
Qed.

Lemma BytesToBloom_ok z :
  0 <= z < 2 ^ 2048 -> exists b, BytesToBloom (big_bytes z) = Some b /\ be_val b = z /\ length b = 256%nat /\ bytes_ok b.
Proof.
  intros Hz. assert (len (big_bytes z) <= 256) as Hl.
  { apply (big_bytes_len_le z 256). change (256 ^ Z.of_nat 256) with ((2 ^ 8) ^ 256).
    rewrite <- Z.pow_mul_r by lia. exact Hz. }
  pose proof (set_bytes_eq 256 (zeros 256) (big_bytes z) ltac:(lia) ltac:(by apply len_zeros)) as E.
  unfold BytesToBloom, Bloom_SetBytes, BloomByteLength. unfold set_bytes in E.
  destruct (Z.ltb_spec 256 (len (big_bytes z))); [lia|]. rewrite E. eexists. split; [done|].
  pose proof (len_nonneg (big_bytes z)).
  replace (Z.to_nat (len (big_bytes z) - 256)) with 0%nat by lia. rewrite drop_0. unfold zeros. rewrite take_replicate.
  split; [rewrite be_val_zeros; apply be_val_big_bytes; lia|]. split.
  - rewrite length_app, length_replicate. unfold len in *. lia.
  - apply bytes_ok_app. split; [by apply Forall_replicate|apply big_bytes_ok].
Qed.

(** ** No false negatives *)

Section bloom_lemmas.
  Context (Keccak256 : list Z -> list Z) (Keccak256_length : forall x, length (Keccak256 x) = 32%nat).

Lemma bloom_bit_ok h i r :
  (S i < length h)%nat -> 0 <= r < 2 ^ 2048 ->
  exists r', bloom_bit h i r = Some r' /\ 0 <= r' < 2 ^ 2048.
Proof.
  intros Hi Hr. unfold bloom_bit. destruct (lookup_lt_is_Some_2 h i) as [hi ->]; [lia|].
  destruct (lookup_lt_is_Some_2 h (S i)) as [lo ->]; [lia|]. simpl. eexists. split; [done|].
  apply lor_bound; [lia|done|]. change 2047 with (Z.ones 11). rewrite Z.land_ones by lia.
  pose proof (Z.mod_pos_bound (lo + Z.shiftl hi 8) (2 ^ 11) ltac:(lia)). rewrite Z.shiftl_1_l.
  split; [apply Z.pow_nonneg; lia|]. apply Z.pow_lt_mono_r; lia.
Qed.

Lemma bloom9_ok b : exists x, bloom9 Keccak256 b = Some x /\ 0 <= x < 2 ^ 2048.
Proof.
  unfold bloom9. pose proof (Keccak256_length b) as Hl.
  destruct (bloom_bit_ok (Keccak256 b) 0 0) as (r1 & -> & H1); [lia|lia|]. simpl.
  destruct (bloom_bit_ok (Keccak256 b) 2 r1) as (r2 & -> & H2); [lia|done|]. simpl.
  apply bloom_bit_ok; [lia|done].
Qed.

(** A number of 2048 bits that covers the filter bits of all of [items]. *)
Definition holds (v : Z) (items : list (list Z)) : Prop :=
  0 <= v < 2 ^ 2048 /\ Forall (fun b => exists x, bloom9 Keccak256 b = Some x /\ covers v x) items.

Lemma holds_lor v w items items' : holds v items -> holds w items' -> holds (Z.lor v w) (items ++ items').
Proof.
  intros [Bv Hv] [Bw Hw]. split; [by apply lor_bound|]. apply Forall_app. split.
  - eapply Forall_impl; [done|]. intros b (x & E & C). exists x. split; [done|]. eapply covers_trans; [apply covers_lor_l|done].
  - eapply Forall_impl; [done|]. intros b (x & E & C). exists x. split; [done|]. eapply covers_trans; [apply covers_lor_r|done].
Qed.

Lemma LogsBloom_topics_ok topics : forall v items,
  holds v items -> exists v', LogsBloom_topics Keccak256 (Some v) topics = Some v' /\ holds v' (items ++ topics).
Proof.
  induction topics as [|b topics IH]; intros v items Hv; [exists v; by rewrite app_nil_r|].
  destruct (bloom9_ok b) as (x & Ex & Bx). unfold LogsBloom_topics. simpl. rewrite Ex. simpl.
  destruct (IH (Z.lor v x) (items ++ [b])) as (v' & E & H).
  - apply holds_lor; [done|]. split; [done|]. constructor; [|constructor]. exists x. split; [done|apply covers_refl].
  - exists v'. rewrite <- app_assoc in H. done.
Qed.

Lemma holds_nil : holds 0 [].
Proof. split; [lia|constructor]. Qed.

Definition log_items (logs : list (list Z * list (list Z))) : list (list Z) :=
  concat (map (fun log => fst log :: snd log) logs).

Lemma LogsBloom_ok logs : exists v, LogsBloom Keccak256 logs = Some v /\ holds v (log_items logs).
Proof.
  unfold LogsBloom, log_items.
  assert (G : forall v items, holds v items -> exists v',
    foldl (fun bin log => LogsBloom_topics Keccak256 bin (fst log :: snd log)) (Some v) logs = Some v' /\
    holds v' (items ++ concat (map (fun log => fst log :: snd log) logs))).
  { induction logs as [|log logs IH]; intros v items Hv; [exists v; by rewrite app_nil_r|]. cbn [foldl map concat].
    destruct (LogsBloom_topics_ok (fst log :: snd log) v items Hv) as (v1 & -> & H1).
    destruct (IH v1 _ H1) as (v2 & E & H2). exists v2. by rewrite app_assoc. }
  apply (G 0 []), holds_nil.
Qed.

Lemma holds_lookup v items b bin :
  holds v items -> b ∈ items -> be_val bin = v -> BloomLookup Keccak256 bin b = Some true.
Proof.
  intros [_ Hv] Hin <-. rewrite Forall_forall in Hv. destruct (Hv b Hin) as (x & E & C).
  unfold BloomLookup, Bloom_Big. rewrite E. simpl. f_equal. by apply Z.eqb_eq.
Qed.

Lemma CreateBloom_lookup receipts :
  exists bin, CreateBloom Keccak256 receipts = Some bin /\ length bin = 256%nat /\ bytes_ok bin /\
    forall logs log item, logs ∈ receipts -> log ∈ logs -> item = fst log \/ item ∈ snd log ->
      BloomLookup Keccak256 bin item = Some true.
Proof.
  assert (G : forall v items, holds v items -> exists v',
    foldl (fun bin logs => bin ← bin; x ← LogsBloom Keccak256 logs; Some (Z.lor bin x)) (Some v) receipts = Some v' /\
    holds v' (items ++ concat (map log_items receipts))).
  { induction receipts as [|logs receipts IH]; intros v items Hv; [exists v; by rewrite app_nil_r|]. cbn [foldl map concat].
    destruct (LogsBloom_ok logs) as (x & Ex & Hx). simpl. rewrite Ex. simpl.
    destruct (IH _ _ (holds_lor _ _ _ _ Hv Hx)) as (v2 & E & H2). exists v2. by rewrite app_assoc. }
  destruct (G 0 [] holds_nil) as (v & E & H). simpl in H. unfold CreateBloom. rewrite E. simpl.
  destruct (BytesToBloom_ok v (proj1 H)) as (bin & -> & Hv & Hl & Hb). exists bin. split; [done|]. split; [done|]. split; [done|].
  intros logs log item H1 H2 H3. eapply holds_lookup; [done| |done].
  apply list_elem_of_In, in_concat. exists (log_items logs). split; [by apply in_map, list_elem_of_In|].
  apply in_concat. exists (fst log :: snd log). split.
  - apply in_map_iff. exists log. split; [done|by apply list_elem_of_In].
  - apply list_elem_of_In. destruct H3 as [-> |H3]; [by left|by right].
Qed.

(** A receipt's bloom filter has no false negatives: CreateBloom never
    panics, and looking up the address or any topic of any log of any of the
    receipts in the filter it returns succeeds. *)
Theorem bloom_no_false_negatives receipts :
  exists bin, CreateBloom Keccak256 receipts = Some bin /\ length bin = 256%nat /\
    forall logs log item, logs ∈ receipts -> log ∈ logs -> item = fst log \/ item ∈ snd log ->
      BloomLookup Keccak256 bin item = Some true.
Proof. destruct (CreateBloom_lookup receipts) as (bin & E & L & _ & H). by exists bin. Qed.

(** Add and Test agree: after Add of a number the filter is still 256
    bytes, Test of that number succeeds, and everything the filter matched
    before it still matches. *)
Theorem bloom_add_then_test b d :
  bytes_ok b -> length b = 256%nat ->
  exists b', Bloom_Add Keccak256 b d = Some b' /\ length b' = 256%nat /\ bytes_ok b' /\
    Bloom_Test Keccak256 b' d = Some true /\
    forall item, BloomLookup Keccak256 b item = Some true -> BloomLookup Keccak256 b' item = Some true.
Proof.
  intros Hb Hl. pose proof (be_val_bound b Hb) as Bb. unfold len in Bb. rewrite Hl in Bb.
  change (256 ^ Z.of_nat 256) with ((2 ^ 8) ^ 256) in Bb. rewrite <- Z.pow_mul_r in Bb by lia. change (8 * 256) with 2048 in Bb.
  destruct (bloom9_ok (big_bytes d)) as (x & Ex & Bx). unfold Bloom_Add. rewrite Ex. simpl mbind.
  set (v := Z.lor (be_val b) x). assert (Bv : 0 <= v < 2 ^ 2048) by (by apply lor_bound).
  (* the old bytes to the left of the new ones are zero *)
  assert (E : Bloom_SetBytes b (big_bytes v) = Some (be_bytes 256 v)).
  { assert (len (big_bytes v) <= 256) as Hlv.
    { apply (big_bytes_len_le v 256). change (256 ^ Z.of_nat 256) with ((2 ^ 8) ^ 256).
      rewrite <- Z.pow_mul_r by lia. exact Bv. }
    pose proof (set_bytes_eq 256 b (big_bytes v) ltac:(lia) ltac:(unfold len; lia)) as E. unfold set_bytes in E.
    unfold Bloom_SetBytes, BloomByteLength. destruct (Z.ltb_spec 256 (len (big_bytes v))); [lia|].
    rewrite E. f_equal. pose proof (len_nonneg (big_bytes v)).
    replace (Z.to_nat (len (big_bytes v) - 256)) with 0%nat by lia. rewrite drop_0.
    assert (be_bytes 256 v = replicate (256 - length (big_bytes v)) 0 ++ drop (length (big_bytes v) - 256) (big_bytes v)) as ->.
    { rewrite <- be_bytes_low by apply big_bytes_ok. by rewrite be_val_big_bytes by lia. }
    replace (length (big_bytes v) - 256)%nat with 0%nat by (unfold len in *; lia). rewrite drop_0. f_equal.
    set (k := length (big_bytes v)) in *. assert (Hk : (k <= 256)%nat) by (unfold len in *; lia).
    assert (be_val b < 256 ^ Z.of_nat k) as Hlt.
    { pose proof (be_val_bound (big_bytes v) (big_bytes_ok v)) as Hv. rewrite be_val_big_bytes in Hv by lia.
      unfold len in Hv. fold k in Hv. change 256 with (2 ^ 8) in *. rewrite <- Z.pow_mul_r in * by lia.
      eapply (covers_bound v); [lia|lia|done|apply covers_lor_l]. }
    rewrite <- (be_bytes_be_val b Hb), Hl. replace 256%nat with (256 - k + k)%nat at 1 by lia.
    rewrite (be_bytes_pad (256 - k) k) by lia. unfold len. fold k.
    rewrite take_app_le by (rewrite length_replicate; lia). rewrite take_replicate. f_equal. lia. }
  exists (be_bytes 256 v). rewrite E. split; [done|]. split; [apply be_bytes_length|]. split; [apply be_bytes_ok|].
  assert (Hval : be_val (be_bytes 256 v) = v).
  { rewrite be_val_be_bytes. apply Z.mod_small. change (256 ^ Z.of_nat 256) with ((2 ^ 8) ^ 256).
    rewrite <- Z.pow_mul_r by lia. exact Bv. }
  split.
  - unfold Bloom_Test, BloomLookup, Bloom_Big. rewrite Ex, Hval. simpl. f_equal. apply Z.eqb_eq. apply covers_lor_r.
  - intros item. unfold BloomLookup, Bloom_Big. rewrite Hval. destruct (bloom9 Keccak256 item) as [y|]; [|done]. simpl.
    intros H. injection H as H. apply Z.eqb_eq in H. f_equal. apply Z.eqb_eq.
    eapply covers_trans; [apply covers_lor_l|exact H].
Qed.
End bloom_lemmas.

Lemma bloom_no_false_negatives_witness :
  let keccak (x : list Z) := replicate 32 (len x) in
  exists bin, CreateBloom keccak [[([1; 2], [[3]])]] = Some bin /\ BloomLookup keccak bin [3] = Some true.
Proof.
  destruct (bloom_no_false_negatives (fun x => replicate 32 (len x)) (fun _ => eq_refl) [[([1; 2], [[3]])]])
    as (bin & E & _ & H).
  exists bin. split; [exact E|]. apply (H [([1; 2], [[3]])] ([1; 2], [[3]]) [3]); [left|left|right; left].
Defined.

Lemma bloom_add_then_test_witness :
  let keccak (x : list Z) := replicate 32 (len x) in
  exists b', Bloom_Add keccak (replicate 256 0) 77 = Some b' /\ Bloom_Test keccak b' 77 = Some true.
Proof.
  destruct (bloom_add_then_test (fun x => replicate 32 (len x)) (fun _ => eq_refl) (replicate 256 0) 77)
    as (b' & E & _ & _ & H & _); [apply Forall_replicate; split; lia|reflexivity|].
  exists b'. split; [exact E|exact H].
Defined.

(** TestBytes can miss bytes that are in the filter: it goes through a big
    integer, which loses leading zero bytes, so it looks up the hash of the
    shortened bytes; a filter made of a log can then answer no for the log's own
    address, although BloomLookup of the address answers yes. *)
Theorem TestBytes_false_negative :
  exists keccak : list Z -> list Z, (forall x, length (keccak x) = 32%nat) /\
  exists bin addr, CreateBloom keccak [[(addr, [])]] = Some bin /\ length addr = 20%nat /\
    BloomLookup keccak bin addr = Some true /\ Bloom_TestBytes keccak bin addr = Some false.
Proof.
  exists (fun x => replicate 32 (len x)). split; [done|].
  destruct (bloom_no_false_negatives (fun x => replicate 32 (len x)) (fun _ => eq_refl) [[(0 :: replicate 19 7, [])]])
    as (bin & E & _ & H).
  exists bin, (0 :: replicate 19 7). split; [done|]. split; [done|].
  split; [apply (H [(0 :: replicate 19 7, [])] (0 :: replicate 19 7, [])); [left|left|by left]|].
  vm_compute in E. injection E as <-. vm_compute. reflexivity.
Qed.

(** ** The generator transposes *)

Lemma bloom_has_testbit b i :
  bytes_ok b -> length b = 256%nat -> (i < 2048)%nat -> bloom_has b i = Z.testbit (Bloom_Big b) (Z.of_nat i).
Proof.
  intros Hb Hl Hi. assert (Hd : (i / 8 < 256)%nat) by (apply Nat.Div0.div_lt_upper_bound; lia).
  unfold bloom_has, Bloom_Big. rewrite <- (be_bytes_be_val b Hb) at 1. rewrite Hl, be_bytes_lookup by lia.
  replace (256 - 1 - (256 - 1 - i / 8))%nat with (i / 8)%nat by lia. cbn [default from_option id].
  pose proof (Nat.div_mod_eq i 8) as D. pose proof (Nat.mod_upper_bound i 8 ltac:(lia)) as M.
  set (q := (i / 8)%nat) in *. set (r := (i mod 8)%nat) in *. rewrite Z.shiftl_1_l.
  assert (T : Z.testbit ((be_val b / 256 ^ Z.of_nat q) mod 256) (Z.of_nat r) = Z.testbit (be_val b) (Z.of_nat i)).
  { change 256 with (2 ^ 8) at 2. rewrite Z.mod_pow2_bits_low by lia.
    change 256 with (2 ^ 8). rewrite <- Z.pow_mul_r, Z.div_pow2_bits by lia. f_equal. lia. }
  rewrite <- T. set (w := (be_val b / 256 ^ Z.of_nat q) mod 256). destruct (Z.testbit w (Z.of_nat r)) eqn:E.
  - destruct (Z.eqb_spec (Z.land w (2 ^ Z.of_nat r)) 0) as [E0|]; [|done].
    assert (Z.testbit (Z.land w (2 ^ Z.of_nat r)) (Z.of_nat r) = true) as C by (rewrite Z.land_spec, E, Z.pow2_bits_true by lia; done).
    by rewrite E0, Z.bits_0 in C.
  - replace (Z.land w (2 ^ Z.of_nat r)) with 0; [done|]. symmetry. apply Z.bits_inj'. intros n Hn.
    rewrite Z.land_spec, Z.bits_0. destruct (decide (n = Z.of_nat r)) as [->|]; [by rewrite E|].
    rewrite Z.pow2_bits_false by done. apply andb_false_r.
Qed.

(** The filters added so far, one bit of each per row, then zeros. *)
Record gen_inv (g : Generator) (added : list (list Z)) : Prop := {
  inv_next : nextSec g = length added;
  inv_room : (length added <= sections g)%nat;
  inv_rows : length (blooms g) = 2048%nat;
  inv_ok : Forall bytes_ok (blooms g);
  inv_bits : forall i row, blooms g !! i = Some row ->
    bits_of row = map (fun b => bloom_has b i) added ++ replicate (sections g - length added) false
}.

Lemma AddBloom_inv g added b :
  gen_inv g added -> (length added < sections g)%nat ->
  exists g', AddBloom g (nextSec g) b = inr g' /\ gen_inv g' (added ++ [b]) /\ sections g' = sections g.
Proof.
  intros [Hn Hr Hl Ho Hb] Hlt. unfold AddBloom. destruct (Nat.leb_spec (sections g) (nextSec g)); [lia|].
  rewrite Nat.eqb_refl. simpl. eexists. split; [done|]. split; [|done].
  split; simpl; [rewrite length_app; simpl; lia|rewrite length_app; simpl; lia|by rewrite length_imap| |].
  { apply Forall_lookup. intros i row Hrow. rewrite list_lookup_imap in Hrow. destruct (blooms g !! i) as [r|] eqn:Er; [|done]. injection Hrow as <-.
    pose proof (Forall_lookup_1 _ _ _ _ Ho Er). destruct (bloom_has b i); [by apply set_bit_ok|done]. }
  intros i row Hrow. rewrite list_lookup_imap in Hrow. destruct (blooms g !! i) as [r|] eqn:Er; [|done]. injection Hrow as <-.
  specialize (Hb i r Er). rewrite length_app, map_app, <- app_assoc. simpl.
  replace (replicate (sections g - length added) false) with (false :: replicate (sections g - (length added + 1)) false) in Hb
    by (replace (sections g - length added)%nat with (S (sections g - (length added + 1))) by lia; done).
  destruct (bloom_has b i); [|done]. rewrite set_bit_spec, Hb, Hn.
  - rewrite <- (Nat.add_0_r (length added)) at 1.
    rewrite <- (length_map (fun b => bloom_has b i) added) at 1. by rewrite insert_app_r.
  - rewrite <- bits_of_length, Hb, length_app, length_map. simpl. rewrite Hn. lia.
Qed.

Lemma add_blooms_inv bs : forall g added,
  gen_inv g added -> (length added + length bs <= sections g)%nat ->
  exists g', add_blooms g bs = inr g' /\ gen_inv g' (added ++ bs) /\ sections g' = sections g.
Proof.
  induction bs as [|b bs IH]; intros g added Hg Hl; [exists g; by rewrite app_nil_r|]. simpl in Hl. simpl.
  destruct (AddBloom_inv g added b Hg ltac:(lia)) as (g1 & -> & Hg1 & Hs1).
  destruct (IH g1 (added ++ [b]) Hg1) as (g2 & E & Hg2 & Hs2); [rewrite length_app, Hs1; simpl; lia|].
  exists g2. rewrite <- app_assoc in Hg2. by rewrite Hs2, Hs1.
Qed.

(** The rows of a generator to which a whole section was added. *)
Lemma generator_rows bs :
  (length bs mod 8 = 0)%nat -> Forall (fun b => bytes_ok b /\ length b = 256%nat) bs ->
  exists g0 g, NewGenerator (length bs) = inr g0 /\ add_blooms g0 bs = inr g /\ nextSec g = sections g /\ sections g = length bs /\
    (bs <> [] -> nextSec g0 = 0%nat /\ sections g0 = length bs) /\
    forall idx, (idx < 2048)%nat -> exists row, Bitset g idx = inr row /\ bytes_ok row /\
      bits_of row = map (fun b => Z.testbit (Bloom_Big b) (Z.of_nat idx)) bs.
Proof.
  intros Hm Hbs. unfold NewGenerator. rewrite Hm. cbn [Nat.eqb negb].
  set (g0 := {| blooms := _; sections := length bs; nextSec := 0 |}).
  assert (I0 : gen_inv g0 []).
  { split; [done|simpl; lia|apply length_replicate|by apply Forall_replicate, Forall_replicate|]. intros i row H. apply lookup_replicate in H as [-> _].
    rewrite bits_of_zeros. cbn [map app length sections g0]. rewrite Nat.sub_0_r. f_equal. pose proof (Nat.div_mod_eq (length bs) 8). lia. }
  destruct (add_blooms_inv bs g0 [] I0 ltac:(simpl; lia)) as (g & E & Ig & Hs). simpl in Ig, Hs.
  exists g0, g. split; [done|]. split; [done|]. destruct Ig as [In Ir Il Io Ib]. split_and!; [by rewrite Hs|done|done|].
  intros idx Hi. destruct (lookup_lt_is_Some_2 (blooms g) idx ltac:(lia)) as [row Hrow].
  exists row. unfold Bitset. rewrite In, Hs, Nat.eqb_refl. simpl negb. cbv iota.
  destruct (Z.leb_spec BloomBitLength (Z.of_nat idx)) as [C|_]; [unfold BloomBitLength, BloomByteLength in C; lia|].
  rewrite Hrow. split; [done|]. split; [by eapply (Forall_lookup_1 _ _ _ _ Io Hrow)|]. rewrite (Ib idx row Hrow), Hs, Nat.sub_diag, app_nil_r.
  apply map_ext_in. intros b Hb. apply list_elem_of_In in Hb. rewrite Forall_forall in Hbs.
  destruct (Hbs b Hb). by apply bloom_has_testbit.
Qed.

(** The generator transposes: after the filters of a whole section were
    added in order, the bit vector of every bit index holds, for each filter in
    turn, whether that bit of the filter is set; asking before all were added,
    adding one more, or adding out of order is an error. *)
Theorem generator_transposes bs extra :
  (length bs mod 8 = 0)%nat -> Forall (fun b => bytes_ok b /\ length b = 256%nat) bs ->
  exists g0 g, NewGenerator (length bs) = inr g0 /\ add_blooms g0 bs = inr g /\
    (forall idx, (idx < 2048)%nat -> exists row, Bitset g idx = inr row /\
       bits_of row = map (fun b => Z.testbit (Bloom_Big b) (Z.of_nat idx)) bs) /\
    AddBloom g (length bs) extra = inl errSectionOutOfBounds /\
    (bs <> [] -> Bitset g0 0 = inl errNotGenerated /\ AddBloom g0 1 extra = inl errUnexpectedIndex).
Proof.
  intros Hm Hbs. destruct (generator_rows bs Hm Hbs) as (g0 & g & E0 & E & Hn & Hs & H0 & Hr). exists g0, g. split_and!; [done|done| | |].
  - intros idx Hi. destruct (Hr idx Hi) as (row & H1 & _ & H2). by exists row.
  - unfold AddBloom. rewrite Hn, Hs. by destruct (Nat.leb_spec (length bs) (length bs)); [|lia].
  - intros Hne. destruct (H0 Hne) as [H1 H2]. unfold Bitset, AddBloom. rewrite H1, H2. destruct bs as [|b bs]; [done|]. done.
Qed.

Lemma generator_transposes_witness :
  exists g0 g, NewGenerator 8 = inr g0 /\ add_blooms g0 (replicate 8 (replicate 256 255)) = inr g /\
    exists row, Bitset g 5 = inr row /\
      bits_of row = map (fun b => Z.testbit (Bloom_Big b) 5) (replicate 8 (replicate 256 255)).
Proof.
  destruct (generator_transposes (replicate 8 (replicate 256 255)) []) as (g0 & g & H1 & H2 & H3 & _);
    [reflexivity|apply Forall_replicate; split; [apply Forall_replicate; split; lia|reflexivity]|].
  exists g0, g. split; [exact H1|]. split; [exact H2|]. apply (H3 5%nat). lia.
Defined.
