(* ===== verification/Prque.v ===== *)
(** * Package common/prque: the priority queue

    The block-based stack of sstack.go, the priority queue of prque.go on top of
    it, and the heap algorithm of the standard library's container/heap between
    the two.  The algorithm is written once against the interface [Heap], as
    heap.Interface is in Go; it runs on the stack of blocks and on a plain list,
    and the stack refines the list.  The calls of the SetIndexCallback are
    recorded in the order they are made. *)

From stdpp Require Import list.
From Stdlib Require Import Sorting.Permutation.
From S2P Require Import Prelude.

Record item : Type := Item { value : nat; priority : Z }.

(** ** heap.Interface and container/heap *)

(** [None] is a panic (an index out of range, a nil item that is read) or a
    step that touches a nil cell, one at or above the size, which the code only
    carries out silently when no callback is set: every [Some] result is one the
    code has, and the theorems show that the queue's own calls give [Some]. *)
Class Heap (S : Type) : Type := {
  h_Len : S -> nat;
  h_Less : S -> nat -> nat -> option bool;
  h_Swap : S -> nat -> nat -> option S;
  h_Push : S -> item -> option S;
  h_Pop : S -> option (item * S)
}.

Section heap.
  Context {S : Type} `{Heap S}.

(** The loop of up; [j] at most halves, so the fuel [j + 1] suffices. *)
Fixpoint heap_up (fuel : nat) (h : S) (j : nat) : option S :=
  match fuel with
  | O => None
  | Datatypes.S f =>
      let i := ((j - 1) / 2)%nat in
      if (i =? j)%nat then Some h
      else b ← h_Less h j i;
           if negb b then Some h
           else h ← h_Swap h i j; heap_up f h i
  end.

(** The loop of down; the index grows, so the fuel [n] suffices. *)
Fixpoint heap_down (fuel : nat) (h : S) (i n : nat) : option (nat * S) :=
  match fuel with
  | O => None
  | Datatypes.S f =>
      let j1 := (2 * i + 1)%nat in
      if (n <=? j1)%nat then Some (i, h)
      else
        let j2 := (j1 + 1)%nat in
        j ← (if (j2 <? n)%nat then b ← h_Less h j2 j1; Some (if (b : bool) then j2 else j1) else Some j1);
        b ← h_Less h j i;
        if negb b then Some (i, h)
        else h ← h_Swap h i j; heap_down f h j n
  end.

Definition heap_Push (h : S) (x : item) : option S :=
  h ← h_Push h x; heap_up (h_Len h) h (h_Len h - 1).

Definition heap_Pop (h : S) : option (item * S) :=
  let n := (h_Len h - 1)%nat in
  h ← h_Swap h 0 n;
  '(_, h) ← heap_down (Datatypes.S n) h 0 n;
  h_Pop h.

Definition heap_Remove (h : S) (i : nat) : option (item * S) :=
  let n := (h_Len h - 1)%nat in
  h ← (if (n =? i)%nat then Some h
       else h ← h_Swap h i n;
            '(i', h) ← heap_down (Datatypes.S n) h i n;
            if (i <? i')%nat then Some h else heap_up (Datatypes.S i) h i);
  h_Pop h.
End heap.

(** ** sstack.go *)

(** Less on priorities: the difference wraps around in int64. *)
Definition less (a b : item) : bool := 0 <? i64 (priority a - priority b).

(** The active block is the one [active] names; nil items are [None].  With
    [indexed] the callback is set, and [events] are its calls. *)
Record sstack : Type := SStack {
  s_size : nat;
  capacity : nat;
  offset : nat;
  blocks : list (list (option item));
  active : nat;
  indexed : bool;
  events : list (nat * Z)
}.

Section sstack.
  Context (blockSize : nat).

Definition newSstack (indexed : bool) (events : list (nat * Z)) : sstack :=
  SStack 0 blockSize 0 [replicate blockSize None] 0 indexed events.

Definition call_index (indexed : bool) (ev : list (nat * Z)) (v : nat) (i : Z) : list (nat * Z) :=
  if indexed then ev ++ [(v, i)] else ev.

Definition sget (s : sstack) (i : nat) : option item :=
  b ← blocks s !! (i / blockSize)%nat; x ← b !! (i mod blockSize)%nat; x.

(** s.blocks[b][o] = x *)
Definition sset (bs : list (list (option item))) (b o : nat) (x : option item) : option (list (list (option item))) :=
  row ← bs !! b; _ ← row !! o; Some (<[b := <[o := x]> row]> bs).

Definition s_Push (s : sstack) (data : item) : option sstack :=
  let '(bs, cap, act, off) :=
    if (s_size s =? capacity s)%nat then
      (blocks s ++ [replicate blockSize None], (capacity s + blockSize)%nat, length (blocks s), 0%nat)
    else if (offset s =? blockSize)%nat then (blocks s, capacity s, (s_size s / blockSize)%nat, 0%nat)
    else (blocks s, capacity s, active s, offset s) in
  let ev := call_index (indexed s) (events s) (value data) (Z.of_nat (s_size s)) in
  bs ← sset bs act off (Some data);
  Some (SStack (s_size s + 1) cap (off + 1) bs act (indexed s) ev).

Definition s_Pop (s : sstack) : option (item * sstack) :=
  match s_size s with
  | O => None
  | S size =>
      let '(act, off) := match offset s with
                         | O => ((size / blockSize)%nat, (blockSize - 1)%nat)
                         | S off => (active s, off)
                         end in
      row ← blocks s !! act; x ← row !! off; res ← x;
      bs ← sset (blocks s) act off None;
      Some (res, SStack size (capacity s) off bs act (indexed s) (call_index (indexed s) (events s) (value res) (-1)))
  end.

Definition s_Less (s : sstack) (i j : nat) : option bool :=
  a ← sget s i; b ← sget s j; Some (less a b).

Definition s_Swap (s : sstack) (i j : nat) : option sstack :=
  a ← sget s j; b ← sget s i;
  let ev := call_index (indexed s) (call_index (indexed s) (events s) (value a) (Z.of_nat i)) (value b) (Z.of_nat j) in
  bs ← sset (blocks s) (i / blockSize) (i mod blockSize) (Some a);
  bs ← sset bs (j / blockSize) (j mod blockSize) (Some b);
  Some (SStack (s_size s) (capacity s) (offset s) bs (active s) (indexed s) ev).

Definition s_Reset (s : sstack) : sstack := newSstack (indexed s) (events s).

#[export] Instance sstack_heap : Heap sstack := {|
  h_Len := s_size; h_Less := s_Less; h_Swap := s_Swap; h_Push := s_Push; h_Pop := s_Pop
|}.

(** ** prque.go *)

Definition Prque_New (indexed : bool) : sstack := newSstack indexed [].
Definition Prque_Push (p : sstack) (data : nat) (pri : Z) : option sstack := heap_Push p (Item data pri).
Definition Prque_Peek (p : sstack) : option (nat * Z) :=
  b ← blocks p !! 0%nat; x ← b !! 0%nat; it ← x; Some (value it, priority it).
Definition Prque_Pop (p : sstack) : option ((nat * Z) * sstack) :=
  '(it, p) ← heap_Pop p; Some ((value it, priority it), p).
Definition Prque_PopItem (p : sstack) : option (nat * sstack) :=
  '(it, p) ← heap_Pop p; Some (value it, p).
(** Remove returns the heap item itself, or nil for a negative index. *)
Definition Prque_Remove (p : sstack) (i : Z) : option (option item * sstack) :=
  if i <? 0 then Some (None, p)
  else '(it, p) ← heap_Remove p (Z.to_nat i); Some (Some it, p).
Definition Prque_Empty (p : sstack) : bool := (s_size p =? 0)%nat.
Definition Prque_Size (p : sstack) : nat := s_size p.
Definition Prque_Reset (p : sstack) : sstack := newSstack (indexed p) (events p).
End sstack.

(** ** The abstract queue: a list *)

Record lqueue : Type := LQueue { litems : list item; lindexed : bool; levents : list (nat * Z) }.

Definition l_Swap (q : lqueue) (i j : nat) : option lqueue :=
  a ← litems q !! j; b ← litems q !! i;
  Some (LQueue (<[j := b]> (<[i := a]> (litems q))) (lindexed q)
    (call_index (lindexed q) (call_index (lindexed q) (levents q) (value a) (Z.of_nat i)) (value b) (Z.of_nat j))).

#[export] Instance list_heap : Heap lqueue := {|
  h_Len q := length (litems q);
  h_Less q i j := a ← litems q !! i; b ← litems q !! j; Some (less a b);
  h_Swap := l_Swap;
  h_Push q x := Some (LQueue (litems q ++ [x]) (lindexed q)
                        (call_index (lindexed q) (levents q) (value x) (Z.of_nat (length (litems q)))));
  h_Pop q := x ← last (litems q);
    Some (x, LQueue (take (length (litems q) - 1) (litems q)) (lindexed q) (call_index (lindexed q) (levents q) (value x) (-1)))
|}.

(** ** The algorithm respects a simulation between two heaps *)

Class HeapSim {S T} `{Heap S} `{Heap T} (R : S -> T -> Prop) : Prop := {
  sim_len s t : R s t -> h_Len s = h_Len t;
  sim_less s t i j : R s t -> h_Less s i j = h_Less t i j;
  sim_swap s t i j : R s t -> option_Forall2 R (h_Swap s i j) (h_Swap t i j);
  sim_push s t x : R s t -> option_Forall2 R (h_Push s x) (h_Push t x);
  sim_pop s t : R s t -> option_Forall2 (fun a b => fst a = fst b /\ R (snd a) (snd b)) (h_Pop s) (h_Pop t)
}.

Section sim.
  Context {S T : Type} `{Heap S} `{Heap T} (R : S -> T -> Prop) `{!HeapSim R}.

(** Two related intermediate states and what follows from them. *)
Lemma bind_sim {A B A' B'} (Q : A -> A' -> Prop) (Q' : B -> B' -> Prop) o o' (k : A -> option B) (k' : A' -> option B') :
  option_Forall2 Q o o' -> (forall a a', Q a a' -> option_Forall2 Q' (k a) (k' a')) -> option_Forall2 Q' (o ≫= k) (o' ≫= k').
Proof. intros [a a' Ha|] Hk; [by apply Hk|constructor]. Qed.

Lemma up_sim fuel : forall s t j, R s t -> option_Forall2 R (heap_up fuel s j) (heap_up fuel t j).
Proof.
  induction fuel as [|f IH]; intros s t j Hr; cbn [heap_up]; [constructor|]. set (i := ((j - 1) / 2)%nat).
  destruct (i =? j)%nat; [by constructor|]. rewrite (sim_less s t) by done.
  destruct (h_Less t j i) as [[]|]; simpl; [|by constructor|constructor].
  eapply bind_sim; [by apply sim_swap|]. intros a b Hab. by apply IH.
Qed.

Lemma down_sim fuel : forall s t i n, R s t ->
  option_Forall2 (fun a b => fst a = fst b /\ R (snd a) (snd b)) (heap_down fuel s i n) (heap_down fuel t i n).
Proof.
  induction fuel as [|f IH]; intros s t i n Hr; simpl; [constructor|].
  destruct (n <=? _)%nat; [by constructor|].
  set (o1 := if (_ <? n)%nat then _ else _). set (o2 := if (_ <? n)%nat then _ else _).
  assert (o1 = o2) as -> by (subst o1 o2; by rewrite (sim_less s t)).
  destruct o2 as [j|]; simpl; [|constructor]. rewrite (sim_less s t) by done.
  destruct (h_Less t j i) as [[]|]; simpl; [|by constructor|constructor].
  eapply bind_sim; [by apply sim_swap|]. intros a b Hab. by apply IH.
Qed.

Lemma Push_sim s t x : R s t -> option_Forall2 R (heap_Push s x) (heap_Push t x).
Proof.
  intros Hr. unfold heap_Push. eapply bind_sim; [by apply sim_push|]. intros a b Hab.
  rewrite (sim_len a b) by done. by apply up_sim.
Qed.

Lemma Pop_sim s t :
  R s t -> option_Forall2 (fun a b => fst a = fst b /\ R (snd a) (snd b)) (heap_Pop s) (heap_Pop t).
Proof.
  intros Hr. unfold heap_Pop. rewrite (sim_len s t) by done.
  eapply bind_sim; [by apply sim_swap|]. intros a b Hab.
  eapply bind_sim; [by apply down_sim|]. intros [i a'] [j b'] [_ Hab']. by apply sim_pop.
Qed.

Lemma Remove_sim s t i :
  R s t -> option_Forall2 (fun a b => fst a = fst b /\ R (snd a) (snd b)) (heap_Remove s i) (heap_Remove t i).
Proof.
  intros Hr. unfold heap_Remove. rewrite (sim_len s t) by done.
  eapply bind_sim; [|intros a b Hab; by apply sim_pop]. destruct (_ =? i)%nat; [by constructor|].
  eapply bind_sim; [by apply sim_swap|]. intros a b Hab.
  eapply bind_sim; [by apply down_sim|]. intros [i' a'] [j' b'] [E Hab']. simpl in E. subst.
  destruct (i <? j')%nat; [by constructor|]. by apply up_sim.
Qed.
End sim.

(** ** The stack of blocks refines the list *)

Section refines.
  Context (B : nat) (HB : (0 < B)%nat).
#[local] Instance block_heap : Heap sstack := sstack_heap B.

Definition cell (bs : list (list (option item))) (i : nat) : option item :=
  b ← bs !! (i / B)%nat; x ← b !! (i mod B)%nat; x.

Record stack_rep (s : sstack) (q : lqueue) : Prop := {
  rep_size : s_size s = length (litems q);
  rep_cap : capacity s = (B * length (blocks s))%nat;
  rep_rows : Forall (fun b => length b = B) (blocks s);
  rep_active : (active s < length (blocks s))%nat;
  rep_pos : s_size s = (B * active s + offset s)%nat;
  rep_offset : (offset s <= B)%nat;
  rep_cells : forall i, cell (blocks s) i = litems q !! i;
  rep_indexed : indexed s = lindexed q;
  rep_events : events s = levents q
}.

Lemma sset_spec bs i x :
  Forall (fun b => length b = B) bs -> (i < B * length bs)%nat ->
  exists bs', sset bs (i / B) (i mod B) x = Some bs' /\ length bs' = length bs /\ Forall (fun b => length b = B) bs' /\
    forall k, cell bs' k = if decide (k = i) then x else cell bs k.
Proof.
  intros Hr Hi. assert (Hd : (i / B < length bs)%nat) by (apply Nat.Div0.div_lt_upper_bound; lia).
  destruct (lookup_lt_is_Some_2 bs _ Hd) as [row Erow].
  assert (Hrow : length row = B) by (by apply (Forall_lookup_1 _ _ _ _ Hr Erow)).
  pose proof (Nat.mod_upper_bound i B ltac:(lia)) as Hm.
  destruct (lookup_lt_is_Some_2 row (i mod B)) as [y Ey]; [lia|].
  unfold sset. rewrite Erow. simpl. rewrite Ey. simpl. eexists. split; [done|]. split; [apply length_insert|].
  split; [by apply Forall_insert; [|rewrite length_insert]|]. intros k. unfold cell.
  pose proof (Nat.div_mod_eq i B). pose proof (Nat.div_mod_eq k B).
  destruct (decide (k / B = i / B)%nat) as [Eq|Ne].
  - rewrite Eq, list_lookup_insert_eq, Erow by done. simpl. destruct (decide (k mod B = i mod B)%nat) as [Em|Nm].
    + rewrite Em, list_lookup_insert_eq by lia. rewrite decide_True; [done|congruence].
    + rewrite list_lookup_insert_ne by done. rewrite decide_False; [done|]. by intros ->.
  - rewrite list_lookup_insert_ne by done. rewrite decide_False; [done|]. by intros ->.
Qed.

Lemma cell_app bs i row :
  Forall (fun b => length b = B) bs -> cell (bs ++ [row]) i = if decide (i / B = length bs)%nat then x ← row !! (i mod B)%nat; x else cell bs i.
Proof.
  intros Hr. unfold cell. destruct (decide (i / B = length bs)%nat) as [->|Hne].
  - by rewrite lookup_app_r, Nat.sub_diag by lia.
  - destruct (decide (i / B < length bs)%nat); [by rewrite lookup_app_l by done|].
    rewrite lookup_app_r, lookup_ge_None_2, lookup_ge_None_2; [done|lia| |lia]. simpl. lia.
Qed.

Lemma div_mod_pos a o : (o < B)%nat -> ((B * a + o) / B = a /\ (B * a + o) mod B = o)%nat.
Proof.
  intros Ho. rewrite (Nat.mul_comm B a). split.
  - rewrite Nat.div_add_l, Nat.div_small by lia. lia.
  - rewrite Nat.add_comm, Nat.Div0.mod_add. by apply Nat.mod_small.
Qed.

Lemma rep_room s q i : stack_rep s q -> (i < length (litems q))%nat -> (i < B * length (blocks s))%nat.
Proof.
  intros [H1 _ _ H4 H5 H6 _ _ _] Hi. assert (B * active s + B <= B * length (blocks s))%nat by nia. lia.
Qed.

Lemma rep_swap s q i j : stack_rep s q -> option_Forall2 stack_rep (s_Swap B s i j) (l_Swap q i j).
Proof.
  intros Hr. pose proof Hr as [H1 H2 H3 H4 H5 H6 H7 H8 H9]. unfold s_Swap, l_Swap.
  change (sget B s j) with (cell (blocks s) j). change (sget B s i) with (cell (blocks s) i). rewrite !H7.
  destruct (litems q !! j) as [a|] eqn:Ea; simpl; [|constructor].
  destruct (litems q !! i) as [b|] eqn:Eb; simpl; [|constructor].
  pose proof (lookup_lt_Some _ _ _ Ea) as Hj. pose proof (lookup_lt_Some _ _ _ Eb) as Hi.
  destruct (sset_spec (blocks s) i (Some a) H3 (rep_room _ _ _ Hr Hi)) as (bs1 & -> & L1 & R1 & C1). simpl.
  destruct (sset_spec bs1 j (Some b) R1) as (bs2 & -> & L2 & R2 & C2);
    [rewrite L1; by apply (rep_room _ _ _ Hr)|]. simpl.
  constructor. split; simpl; rewrite ?length_insert, ?L2, ?L1; try done; [|by rewrite H8, H9].
  intros k. rewrite C2, C1, H7. destruct (decide (k = j)) as [->|Hkj].
  - by rewrite list_lookup_insert_eq by (by rewrite length_insert).
  - rewrite list_lookup_insert_ne by done. destruct (decide (k = i)) as [->|Hki].
    + by rewrite list_lookup_insert_eq.
    + by rewrite list_lookup_insert_ne.
Qed.

Lemma cell_fresh bs i : Forall (fun b => length b = B) bs -> cell (bs ++ [replicate B None]) i = cell bs i.
Proof.
  intros Hr. rewrite cell_app by done. destruct (decide (i / B = length bs)%nat) as [E|]; [|done].
  unfold cell. rewrite (lookup_ge_None_2 bs) by lia. simpl.
  pose proof (Nat.mod_upper_bound i B ltac:(lia)). by rewrite lookup_replicate_2 by lia.
Qed.

(** Storing the new item in the cell behind the last one. *)
Lemma rep_store s q bs cap act off data :
  stack_rep s q -> Forall (fun b => length b = B) bs -> cap = (B * length bs)%nat -> (act < length bs)%nat -> (off < B)%nat ->
  s_size s = (B * act + off)%nat -> (forall i, cell bs i = cell (blocks s) i) ->
  exists bs', sset bs act off (Some data) = Some bs' /\
    stack_rep (SStack (s_size s + 1) cap (off + 1) bs' act (indexed s)
                (call_index (indexed s) (events s) (value data) (Z.of_nat (s_size s))))
      (LQueue (litems q ++ [data]) (lindexed q)
         (call_index (lindexed q) (levents q) (value data) (Z.of_nat (length (litems q))))).
Proof.
  intros [H1 H2 H3 H4 H5 H6 H7 H8 H9] Hr Hc Ha Ho Hs Hcell.
  destruct (div_mod_pos act off Ho) as [Ed Em]. rewrite <- Hs in Ed, Em.
  destruct (sset_spec bs (s_size s) (Some data) Hr) as (bs' & E & L & R & C).
  { rewrite Hs. assert (B * act + B <= B * length bs)%nat by nia. lia. }
  rewrite Ed, Em in E. exists bs'. split; [done|].
  split; simpl; rewrite ?length_app, ?L; simpl; try done; try lia; [|by rewrite H8, H9, H1].
  intros i. rewrite C, Hcell, H7. destruct (decide (i = s_size s)) as [->|Hne].
  - rewrite H1. by rewrite lookup_app_r, Nat.sub_diag by lia.
  - destruct (decide (i < length (litems q))%nat); [by rewrite lookup_app_l by done|].
    rewrite !lookup_ge_None_2; [done|rewrite length_app; simpl; lia|lia].
Qed.

Lemma rep_push s q data :
  stack_rep s q -> option_Forall2 stack_rep (s_Push B s data) (h_Push q data).
Proof.
  intros Hr. pose proof Hr as [H1 H2 H3 H4 H5 H6 H7 H8 H9]. unfold s_Push.
  destruct (Nat.eqb_spec (s_size s) (capacity s)) as [Hc|Hc].
  - destruct (rep_store s q (blocks s ++ [replicate B None]) (capacity s + B) (length (blocks s)) 0 data)
      as (bs' & -> & Hrep); try done; try lia.
    + apply Forall_app. split; [done|]. constructor; [apply length_replicate|constructor].
    + rewrite length_app. simpl. lia.
    + rewrite length_app. simpl. lia.
    + intros i. by apply cell_fresh.
    + simpl. by constructor.
  - destruct (Nat.eqb_spec (offset s) B) as [Ho|Ho].
    + assert (Hd : (s_size s / B = active s + 1)%nat).
      { replace (s_size s) with (B * (active s + 1) + 0)%nat by lia. by apply div_mod_pos. }
      rewrite Hd. destruct (rep_store s q (blocks s) (capacity s) (active s + 1) 0 data) as (bs' & -> & Hrep); try done; try lia.
      * assert (active s + 1 <> length (blocks s))%nat; [|lia]. intros E. apply Hc. rewrite H2, <- E. lia.
      * simpl. by constructor.
    + destruct (rep_store s q (blocks s) (capacity s) (active s) (offset s) data) as (bs' & -> & Hrep); try done; try lia.
      simpl. by constructor.
Qed.

(** Clearing the last cell. *)
Lemma rep_clear s q act off size x :
  stack_rep s q -> last (litems q) = Some x -> s_size s = S size -> (act < length (blocks s))%nat -> (off < B)%nat ->
  size = (B * act + off)%nat ->
  exists row bs', blocks s !! act = Some row /\ row !! off = Some (Some x) /\ sset (blocks s) act off None = Some bs' /\
    stack_rep (SStack size (capacity s) off bs' act (indexed s) (call_index (indexed s) (events s) (value x) (-1)))
      (LQueue (take (length (litems q) - 1) (litems q)) (lindexed q) (call_index (lindexed q) (levents q) (value x) (-1))).
Proof.
  intros [H1 H2 H3 H4 H5 H6 H7 H8 H9] Hx Hs Ha Ho He. destruct (div_mod_pos act off Ho) as [Ed Em]. rewrite <- He in Ed, Em.
  assert (Hlast : litems q !! size = Some x).
  { rewrite last_lookup in Hx. rewrite <- Hx. f_equal. lia. }
  destruct (lookup_lt_is_Some_2 _ _ Ha) as [row Erow].
  assert (Hrow : length row = B) by (by apply (Forall_lookup_1 _ _ _ _ H3 Erow)).
  pose proof (H7 size) as Hc. unfold cell in Hc. rewrite Ed, Em, Erow, Hlast in Hc. simpl in Hc.
  destruct (row !! off) as [y|] eqn:Ey; [|done]. simpl in Hc. subst y.
  destruct (sset_spec (blocks s) size None H3) as (bs' & E & L & R & C).
  { rewrite He. assert (B * act + B <= B * length (blocks s))%nat by nia. lia. }
  rewrite Ed, Em in E. exists row, bs'. split; [done|]. split; [done|]. split; [done|].
  split; simpl; rewrite ?length_take, ?L; try done; try lia; [|by rewrite H8, H9].
  intros i. rewrite C, H7. destruct (decide (i = size)) as [->|Hne].
  - symmetry. apply lookup_ge_None_2. rewrite length_take. lia.
  - destruct (decide (i < size)%nat); [by rewrite lookup_take_lt by lia|].
    rewrite !lookup_ge_None_2; [done|rewrite length_take; lia|lia].
Qed.

Lemma rep_pop s q :
  stack_rep s q -> option_Forall2 (fun a b => fst a = fst b /\ stack_rep (snd a) (snd b)) (s_Pop B s) (h_Pop q).
Proof.
  intros Hr. pose proof Hr as [H1 H2 H3 H4 H5 H6 H7 H8 H9]. unfold s_Pop. simpl h_Pop.
  destruct (s_size s) as [|size] eqn:Es.
  { assert (litems q = []) as -> by (by apply nil_length_inv). constructor. }
  destruct (last (litems q)) as [x|] eqn:Ex.
  2:{ apply last_None in Ex. rewrite Ex in H1. done. }
  set (p := match offset s with O => _ | S off => _ end).
  assert (Hp : exists act off, p = (act, off) /\ (act < length (blocks s))%nat /\ (off < B)%nat /\ size = (B * act + off)%nat).
  { subst p. destruct (offset s) as [|off] eqn:Eo.
    - assert (active s <> 0)%nat by (intros E; rewrite E in H5; lia).
      assert (size = B * (active s - 1) + (B - 1))%nat as Hsz by nia.
      destruct (div_mod_pos (active s - 1) (B - 1) ltac:(lia)) as [Ed _]. rewrite <- Hsz in Ed.
      exists (active s - 1)%nat, (B - 1)%nat. rewrite Ed. split; [done|]. split; [lia|]. split; [lia|done].
    - exists (active s), off. split; [done|]. split; [done|]. split; lia. }
  destruct Hp as (act & off & -> & Ha & Ho & He).
  destruct (rep_clear s q act off size x Hr Ex Es Ha Ho He) as (row & bs' & -> & Ey & E & Hrep). simpl.
  rewrite Ey. simpl. rewrite E. simpl. constructor. done.
Qed.

#[export] Instance stack_sim : HeapSim stack_rep.
Proof.
  split.
  - intros s q Hr. apply Hr.
  - intros s q i j Hr. simpl. unfold s_Less. change (sget B s) with (cell (blocks s)).
    by rewrite !(rep_cells _ _ Hr).
  - apply rep_swap.
  - apply rep_push.
  - apply rep_pop.
Qed.
End refines.

(** ** Order on the abstract queue *)

Lemma insert_perm (l : list item) i b : (i < length l)%nat -> <[i := b]> l ≡ₚ b :: delete i l.
Proof.
  intros Hi. rewrite insert_take_drop, delete_take_drop by done. symmetry. apply Permutation_middle.
Qed.

Lemma swap_perm (l : list item) i j a b :
  l !! i = Some a -> l !! j = Some b -> <[j := a]> (<[i := b]> l) ≡ₚ l.
Proof.
  intros Ha Hb. pose proof (lookup_lt_Some _ _ _ Ha). pose proof (lookup_lt_Some _ _ _ Hb).
  destruct (decide (i = j)) as [->|Hne].
  - assert (a = b) as -> by congruence. rewrite list_insert_insert_eq. by rewrite list_insert_id.
  - set (l' := <[i := b]> l). assert (Hj : l' !! j = Some b) by (subst l'; by rewrite list_lookup_insert_ne).
    assert (Hl : (j < length l')%nat) by (subst l'; by rewrite length_insert).
    rewrite (insert_perm l' j a Hl). rewrite (delete_Permutation l i a Ha). constructor.
    apply (Permutation_cons_inv (a := b)). rewrite <- (delete_Permutation l' j b Hj). by apply insert_perm.
Qed.

Section order.
  Context (key : item -> Z).

(** The key at an index. *)
Definition at_ (q : lqueue) (k : nat) : Z := match litems q !! k with Some a => key a | None => 0 end.

(** Less compares keys on the items of the queue. *)
Definition comparable (l : list item) : Prop := forall a b, a ∈ l -> b ∈ l -> less a b = (key b <? key a).

Definition parent (k : nat) : nat := ((k - 1) / 2)%nat.

Lemma parent_iff k i : (0 < k)%nat -> (parent k = i <-> k = 2 * i + 1 \/ k = 2 * i + 2)%nat.
Proof.
  intros Hk. unfold parent. pose proof (Nat.div_mod_eq (k - 1) 2). pose proof (Nat.mod_upper_bound (k - 1) 2 ltac:(lia)). lia.
Qed.
Lemma parent_lt k : (0 < k)%nat -> (parent k < k)%nat.
Proof. intros Hk. apply Nat.Div0.div_lt_upper_bound. lia. Qed.

(** The first [n] keys form a heap, but for the edges at index [i]. *)
Definition hole (n : nat) (f : nat -> Z) (i : nat) : Prop :=
  (forall k, (0 < k < n)%nat -> k <> i -> parent k <> i -> f k <= f (parent k)) /\
  (forall k, (0 < k < n)%nat -> parent k = i -> (0 < i)%nat -> f k <= f (parent i)).
Definition heap_ok (n : nat) (f : nat -> Z) : Prop := forall k, (0 < k < n)%nat -> f k <= f (parent k).
Definition children_ok (n : nat) (f : nat -> Z) (i : nat) : Prop := forall k, (0 < k < n)%nat -> parent k = i -> f k <= f i.

Definition swapped (f f' : nat -> Z) (i j : nat) : Prop :=
  f' i = f j /\ f' j = f i /\ forall k, k <> i -> k <> j -> f' k = f k.

Lemma heap_root n f : heap_ok n f -> forall k, (k < n)%nat -> f k <= f 0%nat.
Proof.
  intros Hh k. induction (lt_wf k) as [k _ IH]. intros Hk. destruct (decide (k = 0)%nat) as [->|]; [done|].
  pose proof (parent_lt k ltac:(lia)). specialize (Hh k ltac:(lia)). specialize (IH (parent k) ltac:(lia) ltac:(lia)). lia.
Qed.

Lemma hole_up n f f' j :
  hole n f j -> children_ok n f j -> (0 < j < n)%nat -> f (parent j) < f j -> swapped f f' (parent j) j ->
  hole n f' (parent j) /\ children_ok n f' (parent j).
Proof.
  intros [H1 H2] Hc Hj Hlt (S1 & S2 & S3). set (i := parent j) in *.
  pose proof (parent_lt j ltac:(lia)) as Hij. fold i in Hij.
  assert (Pi : (0 < i)%nat -> (parent i < i)%nat) by apply parent_lt.
  split; [split|].
  - intros k Hk Hki Hpk. destruct (decide (k = j)) as [->|Hkj]; [done|].
    destruct (decide (parent k = j)) as [Ep|Ep].
    + rewrite Ep, S2, S3 by done. apply H2; [done|done|lia].
    + rewrite !S3 by done. by apply H1.
  - intros k Hk Hpk Hi. assert (Ei : f' (parent i) = f (parent i)) by (apply S3; specialize (Pi Hi); lia). rewrite Ei.
    assert (f i <= f (parent i)) as Hfi by (apply H1; [lia|lia|specialize (Pi Hi); lia]).
    destruct (decide (k = j)) as [->|Hkj]; [by rewrite S2|].
    assert (k <> i) by (intros ->; specialize (Pi Hi); lia). rewrite S3 by done.
    assert (f k <= f i); [|lia]. rewrite <- Hpk. apply H1; [done|done|]. rewrite Hpk. lia.
  - intros k Hk Hpk. rewrite S1. destruct (decide (k = j)) as [->|Hkj]; [rewrite S2; lia|].
    assert (k <> i) by (intros ->; pose proof (parent_lt i ltac:(lia)); lia). rewrite S3 by done.
    assert (f k <= f i); [|lia]. rewrite <- Hpk. apply H1; [done|done|]. rewrite Hpk. lia.
Qed.

Lemma hole_down n f f' i j :
  hole n f i -> (0 < j < n)%nat -> parent j = i -> (forall k, (0 < k < n)%nat -> parent k = i -> f k <= f j) ->
  f i < f j -> swapped f f' i j -> hole n f' j /\ f' j <= f' (parent j).
Proof.
  intros [H1 H2] Hj Hpj Hmax Hlt (S1 & S2 & S3). pose proof (parent_lt j ltac:(lia)) as Hij. rewrite Hpj in Hij.
  split; [split|].
  - intros k Hk Hkj Hpk. destruct (decide (k = i)) as [->|Hki].
    + rewrite S1. pose proof (parent_lt i ltac:(lia)). rewrite S3 by lia. apply H2; [done|done|lia].
    + rewrite (S3 k) by done. destruct (decide (parent k = i)) as [Ep|Ep].
      * rewrite Ep, S1. by apply Hmax.
      * rewrite S3 by done. by apply H1.
  - intros k Hk Hpk _. rewrite Hpj, S1. pose proof (parent_lt k ltac:(lia)). rewrite S3 by lia.
    rewrite <- Hpk. apply H1; [done|lia|]. rewrite Hpk. lia.
  - rewrite S2, Hpj, S1. lia.
Qed.

Lemma hole_ok n f j : hole n f j -> children_ok n f j -> ((0 < j)%nat -> f j <= f (parent j)) -> heap_ok n f.
Proof.
  intros [H1 _] Hc He k Hk. destruct (decide (k = j)) as [->|Hkj]; [apply He; lia|].
  destruct (decide (parent k = j)) as [Ep|]; [rewrite Ep; by apply Hc|by apply H1].
Qed.

(** ** The heap algorithm on lists *)

(** The queue after some swaps of indices below [n]. *)
Record reordered (n : nat) (q q' : lqueue) : Prop := {
  re_perm : litems q' ≡ₚ litems q;
  re_same : forall k, (n <= k)%nat -> litems q' !! k = litems q !! k
}.

Lemma reordered_refl n q : reordered n q q.
Proof. by split. Qed.
Lemma reordered_trans n q q' q'' : reordered n q q' -> reordered n q' q'' -> reordered n q q''.
Proof. intros [P1 S1] [P2 S2]. split; [by rewrite P2|]. intros k Hk. by rewrite S2, S1. Qed.
Lemma reordered_length n q q' : reordered n q q' -> length (litems q') = length (litems q).
Proof. intros [P _]. by rewrite P. Qed.
Lemma reordered_comparable n q q' : reordered n q q' -> comparable (litems q) -> comparable (litems q').
Proof. intros [P _] H a b Ha Hb. apply H; by rewrite <- P. Qed.

Lemma swap_ok n q i j :
  (i < n)%nat -> (j < n)%nat -> (n <= length (litems q))%nat ->
  exists q', h_Swap q i j = Some q' /\ reordered n q q' /\ swapped (at_ q) (at_ q') i j.
Proof.
  intros Hi Hj Hn. destruct (lookup_lt_is_Some_2 (litems q) i) as [b Eb]; [lia|].
  destruct (lookup_lt_is_Some_2 (litems q) j) as [a Ea]; [lia|].
  simpl. unfold l_Swap. rewrite Ea, Eb. simpl. eexists. split; [done|]. split.
  - split; simpl; [by apply swap_perm|]. intros k Hk. by rewrite !list_lookup_insert_ne by lia.
  - unfold swapped, at_. simpl. rewrite list_lookup_insert_eq by (rewrite length_insert; lia).
    rewrite Eb, Ea. split; [|split; [done|]].
    + destruct (decide (i = j)) as [->|]; [|rewrite list_lookup_insert_ne, list_lookup_insert_eq by (done || lia); done].
      rewrite list_lookup_insert_eq by (rewrite length_insert; lia). congruence.
    + intros k Hki Hkj. by rewrite !list_lookup_insert_ne by done.
Qed.

Lemma less_ok q i j :
  comparable (litems q) -> (i < length (litems q))%nat -> (j < length (litems q))%nat ->
  h_Less q i j = Some (at_ q j <? at_ q i).
Proof.
  intros Hc Hi Hj. destruct (lookup_lt_is_Some_2 (litems q) i) as [a Ea]; [lia|].
  destruct (lookup_lt_is_Some_2 (litems q) j) as [b Eb]; [lia|].
  simpl. unfold at_. rewrite Ea, Eb. simpl. f_equal. apply Hc; by eapply list_elem_of_lookup_2.
Qed.

Lemma up_ok fuel : forall n q j,
  comparable (litems q) -> (j < n <= length (litems q))%nat -> (j < fuel)%nat ->
  hole n (at_ q) j -> children_ok n (at_ q) j ->
  exists q', heap_up fuel q j = Some q' /\ reordered n q q' /\ heap_ok n (at_ q').
Proof.
  induction fuel as [|fuel IH]; intros n q j Hc Hj Hf Hh Hch; [lia|]. cbn [heap_up]. fold (parent j).
  destruct (decide (j = 0)%nat) as [->|Hj0].
  { exists q. split; [done|]. split; [apply reordered_refl|]. eapply hole_ok; [done|done|lia]. }
  pose proof (parent_lt j ltac:(lia)) as Hp. destruct (Nat.eqb_spec (parent j) j); [lia|].
  rewrite less_ok by (done || lia). simpl. destruct (Z.ltb_spec (at_ q (parent j)) (at_ q j)) as [Hlt|Hge]; simpl.
  - destruct (swap_ok n q (parent j) j ltac:(lia) ltac:(lia) ltac:(lia)) as (q1 & E & R & Sw).
    simpl in E. rewrite E. simpl.
    destruct (hole_up n (at_ q) (at_ q1) j Hh Hch ltac:(lia) Hlt Sw) as [Hh1 Hc1].
    pose proof (reordered_length _ _ _ R).
    destruct (IH n q1 (parent j)) as (q2 & -> & R2 & H2); [by eapply reordered_comparable|lia|lia|done|done|].
    exists q2. split; [done|]. split; [by eapply reordered_trans|done].
  - exists q. split; [done|]. split; [apply reordered_refl|]. eapply hole_ok; [done|done|lia].
Qed.

(** The larger child of [i] among the first [n]. *)
Lemma larger_child n q i j1 :
  comparable (litems q) -> (n <= length (litems q))%nat -> j1 = (2 * i + 1)%nat -> (j1 < n)%nat ->
  exists j, (if (j1 + 1 <? n)%nat then b ← h_Less q (j1 + 1) j1; Some (if (b : bool) then (j1 + 1)%nat else j1) else Some j1) = Some j /\
    (0 < j < n)%nat /\ parent j = i /\ (forall k, (0 < k < n)%nat -> parent k = i -> at_ q k <= at_ q j).
Proof.
  intros Hc Hn -> Hj. assert (Hch : forall k, (0 < k < n)%nat -> parent k = i -> (k = 2 * i + 1 \/ k = 2 * i + 2)%nat)
    by (intros k Hk Hp; by apply parent_iff; [lia|]).
  destruct (Nat.ltb_spec (2 * i + 1 + 1) n) as [H2|H2].
  - rewrite less_ok by (done || lia). cbn [mbind option_bind]. eexists. split; [done|].
    destruct (Z.ltb_spec (at_ q (2 * i + 1)) (at_ q (2 * i + 1 + 1))) as [Hlt|Hge]; cbv iota;
      (split; [lia|]); (split; [apply parent_iff; lia|]); intros k Hk Hp; destruct (Hch k Hk Hp) as [-> | ->]; try lia;
      replace (2 * i + 2)%nat with (2 * i + 1 + 1)%nat by lia; lia.
  - eexists. split; [done|]. split; [lia|]. split; [apply parent_iff; lia|].
    intros k Hk Hp. destruct (Hch k Hk Hp) as [-> | ->]; [lia|lia].
Qed.

Lemma down_ok fuel : forall n q i,
  comparable (litems q) -> (i <= n <= length (litems q))%nat -> (n < i + fuel)%nat -> hole n (at_ q) i ->
  exists i' q', heap_down fuel q i n = Some (i', q') /\ reordered n q q' /\
    ((i' = i /\ q' = q /\ children_ok n (at_ q) i) \/ ((i < i')%nat /\ heap_ok n (at_ q'))).
Proof.
  induction fuel as [|fuel IH]; intros n q i Hc Hi Hf Hh; [lia|]. cbn [heap_down].
  destruct (Nat.leb_spec n (2 * i + 1)) as [Hl|Hl].
  { exists i, q. split; [done|]. split; [apply reordered_refl|]. left. split; [done|]. split; [done|].
    intros k Hk Hp. apply parent_iff in Hp; lia. }
  destruct (larger_child n q i _ Hc ltac:(lia) eq_refl Hl) as (j & -> & Hj & Hp & Hmax). cbn [mbind option_bind].
  assert (i < j)%nat by (apply parent_iff in Hp; lia).
  rewrite less_ok by (done || lia). cbn [mbind option_bind].
  destruct (Z.ltb_spec (at_ q i) (at_ q j)) as [Hlt|Hge]; cbn [negb].
  - destruct (swap_ok n q i j ltac:(lia) ltac:(lia) ltac:(lia)) as (q1 & E & R & Sw). simpl in E. simpl h_Swap. rewrite E.
    cbn [mbind option_bind]. destruct (hole_down n (at_ q) (at_ q1) i j Hh Hj Hp Hmax Hlt Sw) as [Hh1 He1].
    pose proof (reordered_length _ _ _ R).
    destruct (IH n q1 j) as (i' & q2 & -> & R2 & H2); [by eapply reordered_comparable|lia|lia|done|].
    exists i', q2. split; [done|]. split; [by eapply reordered_trans|]. right.
    destruct H2 as [(-> & -> & Hch)|[Hlt' Hok]]; [|split; [lia|done]]. split; [done|].
    eapply hole_ok; [done|done|done].
  - exists i, q. split; [done|]. split; [apply reordered_refl|]. left. split; [done|]. split; [done|].
    intros k Hk Hpk. specialize (Hmax k Hk Hpk). lia.
Qed.

(** A queue whose items are comparable and form a heap. *)
Definition queue_ok (q : lqueue) : Prop := comparable (litems q) /\ heap_ok (length (litems q)) (at_ q).

Lemma at_ext q q' k : litems q !! k = litems q' !! k -> at_ q k = at_ q' k.
Proof. unfold at_. by intros ->. Qed.

Lemma Push_ok q x :
  queue_ok q -> comparable (litems q ++ [x]) ->
  exists q', heap_Push q x = Some q' /\ queue_ok q' /\ litems q' ≡ₚ x :: litems q.
Proof.
  intros [_ Hh] Hc. unfold heap_Push. simpl h_Push. cbn [mbind option_bind].
  set (q1 := LQueue (litems q ++ [x]) _ _). assert (L : length (litems q1) = S (length (litems q))).
  { simpl. rewrite length_app. simpl. lia. }
  change (h_Len q1) with (length (litems q1)). rewrite L. replace (S (length (litems q)) - 1)%nat with (length (litems q)) by lia.
  assert (A : forall k, (k < length (litems q))%nat -> at_ q1 k = at_ q k).
  { intros k Hk. apply at_ext. simpl. by rewrite lookup_app_l. }
  destruct (up_ok (S (length (litems q))) (S (length (litems q))) q1 (length (litems q))) as (q2 & E & R & H2);
    [done|lia|lia| | |].
  - split.
    + intros k Hk Hkn Hpn. pose proof (parent_lt k ltac:(lia)). rewrite !A by lia. apply Hh. lia.
    + intros k Hk Hp. pose proof (parent_lt k ltac:(lia)). lia.
  - intros k Hk Hp. pose proof (parent_lt k ltac:(lia)). lia.
  - exists q2. split; [done|]. split; [split|].
    + by eapply reordered_comparable.
    + rewrite (reordered_length _ _ _ R), L. done.
    + rewrite (re_perm _ _ _ R). simpl. symmetry. apply Permutation_cons_append.
Qed.

(** Removing the last item of a queue whose other items form a heap. *)
Lemma Pop_last q n x :
  comparable (litems q) -> length (litems q) = S n -> heap_ok n (at_ q) -> litems q !! n = Some x ->
  exists q', h_Pop q = Some (x, q') /\ queue_ok q' /\ litems q ≡ₚ x :: litems q'.
Proof.
  intros Hc Hl Hh Hx. simpl. rewrite last_lookup, Hl. simpl. rewrite Hx. simpl. rewrite Nat.sub_0_r.
  assert (Es : litems q = take n (litems q) ++ [x]).
  { rewrite <- (take_S_r (litems q) n x Hx). by rewrite take_ge by lia. }
  eexists. split; [done|]. split; [split; simpl|].
  - intros a b Ha Hb. apply Hc; rewrite Es; apply elem_of_app; by left.
  - rewrite length_take, Hl. replace (n `min` S n)%nat with n by lia. intros k Hk.
    pose proof (parent_lt k ltac:(lia)).
    rewrite (at_ext _ q k), (at_ext _ q (parent k)) by (simpl; apply lookup_take_lt; lia). by apply Hh.
  - simpl. rewrite Es at 1. symmetry. apply Permutation_cons_append.
Qed.

Lemma Pop_ok q :
  queue_ok q -> litems q <> [] ->
  exists x q', heap_Pop q = Some (x, q') /\ queue_ok q' /\ litems q ≡ₚ x :: litems q' /\
    litems q !! 0%nat = Some x /\ (forall y, y ∈ litems q -> key y <= key x).
Proof.
  intros [Hc Hh] Hne. unfold heap_Pop. change (h_Len q) with (length (litems q)).
  destruct (length (litems q)) as [|n] eqn:Hl; [by apply nil_length_inv in Hl|].
  replace (S n - 1)%nat with n by lia.
  destruct (swap_ok (S n) q 0 n ltac:(lia) ltac:(lia) ltac:(lia)) as (q1 & E1 & R1 & (S1 & S2 & S3)). simpl h_Swap. simpl in E1.
  rewrite E1. cbn [mbind option_bind]. pose proof (reordered_length _ _ _ R1) as L1. rewrite Hl in L1.
  assert (Hc1 : comparable (litems q1)) by (by eapply reordered_comparable).
  destruct (down_ok (S n) n q1 0) as (i' & q2 & E2 & R2 & H2); [done|lia|lia| |].
  { split; [|lia]. intros k Hk _ Hp. pose proof (parent_lt k ltac:(lia)). rewrite !S3 by lia. apply Hh. lia. }
  rewrite E2. cbn [mbind option_bind].
  assert (Hh2 : heap_ok n (at_ q2)).
  { destruct H2 as [(-> & -> & Hch)|[_ Hok]]; [|done]. eapply (hole_ok n _ 0); [|done|lia].
    split; [|lia]. intros k Hk _ Hp. pose proof (parent_lt k ltac:(lia)). rewrite !S3 by lia. apply Hh. lia. }
  destruct (lookup_lt_is_Some_2 (litems q) 0) as [x Ex]; [lia|].
  assert (Ex1 : litems q1 !! n = Some x).
  { unfold l_Swap in E1. destruct (litems q !! n) as [b|] eqn:Eb; [|done]. simpl in E1. rewrite Ex in E1. simpl in E1.
    injection E1 as <-. simpl. by rewrite list_lookup_insert_eq by (rewrite length_insert; lia). }
  destruct (Pop_last q2 n x) as (q3 & E3 & O3 & P3).
  - by eapply reordered_comparable.
  - by rewrite (reordered_length _ _ _ R2).
  - done.
  - by rewrite (re_same _ _ _ R2) by lia.
  - exists x, q3. split; [done|]. split; [done|]. split.
    + by rewrite <- P3, (re_perm _ _ _ R2), (re_perm _ _ _ R1).
    + split; [done|]. intros y Hy. apply list_elem_of_lookup_1 in Hy as [k Hk]. pose proof (lookup_lt_Some _ _ _ Hk).
      pose proof (heap_root _ _ Hh k ltac:(lia)) as Hr. unfold at_ in Hr. by rewrite Hk, Ex in Hr.
Qed.

Lemma Remove_ok q i x :
  queue_ok q -> litems q !! i = Some x ->
  exists q', heap_Remove q i = Some (x, q') /\ queue_ok q' /\ litems q ≡ₚ x :: litems q'.
Proof.
  intros [Hc Hh] Hx. pose proof (lookup_lt_Some _ _ _ Hx) as Hi. unfold heap_Remove.
  change (h_Len q) with (length (litems q)).
  destruct (length (litems q)) as [|n] eqn:Hl; [lia|]. replace (S n - 1)%nat with n by lia.
  destruct (Nat.eqb_spec n i) as [->|Hne]; cbn [mbind option_bind].
  { apply (Pop_last q i x); [done|done| |done]. intros k Hk. apply Hh. lia. }
  destruct (swap_ok (S n) q i n ltac:(lia) ltac:(lia) ltac:(lia)) as (q1 & E1 & R1 & (S1 & S2 & S3)). simpl h_Swap. simpl in E1.
  rewrite E1. cbn [mbind option_bind]. pose proof (reordered_length _ _ _ R1) as L1. rewrite Hl in L1.
  assert (Hc1 : comparable (litems q1)) by (by eapply reordered_comparable).
  assert (Hhole : hole n (at_ q1) i).
  { split.
    - intros k Hk Hki Hp. pose proof (parent_lt k ltac:(lia)). rewrite !S3 by lia. apply Hh. lia.
    - intros k Hk Hp Hi0. pose proof (parent_lt k ltac:(lia)). pose proof (parent_lt i ltac:(lia)). rewrite !S3 by lia.
      pose proof (Hh k ltac:(lia)) as H1. pose proof (Hh i ltac:(lia)). rewrite Hp in H1. lia. }
  assert (Ex1 : litems q1 !! n = Some x).
  { unfold l_Swap in E1. destruct (litems q !! n) as [b|] eqn:Eb; [|done]. simpl in E1. rewrite Hx in E1. simpl in E1.
    injection E1 as <-. simpl. by rewrite list_lookup_insert_eq by (rewrite length_insert; lia). }
  destruct (down_ok (S n) n q1 i) as (i' & q2 & E2 & R2 & H2); [done|lia|lia|done|]. rewrite E2. cbn [mbind option_bind].
  assert (F : exists q3, (if (i <? i')%nat then Some q2 else heap_up (S i) q2 i) = Some q3 /\ reordered n q1 q3 /\ heap_ok n (at_ q3)).
  { destruct H2 as [(-> & -> & Hch)|[Hlt Hok]].
    - rewrite Nat.ltb_irrefl. apply up_ok; [done|lia|lia|done|done].
    - destruct (Nat.ltb_spec i i'); [|lia]. eauto. }
  destruct F as (q3 & -> & R3 & Hh3). cbn [mbind option_bind].
  destruct (Pop_last q3 n x) as (q4 & E4 & O4 & P4).
  - by eapply reordered_comparable.
  - by rewrite (reordered_length _ _ _ R3).
  - done.
  - by rewrite (re_same _ _ _ R3) by lia.
  - exists q4. split; [done|]. split; [done|]. by rewrite <- P4, (re_perm _ _ _ R3), (re_perm _ _ _ R1).
Qed.
End order.

(** ** Priorities that wrap around *)

(** The priority of an item relative to [c], as int64. *)
Definition rank (c : Z) (x : item) : Z := i64 (priority x - c).

(** All priorities lie in a window of 2^63 values starting at [c], which may
    wrap around the range of int64. *)
Definition in_window (c : Z) (l : list item) : Prop := Forall (fun x => 0 <= rank c x < 2 ^ 63) l.

Lemma i64_mod z : i64 z mod 2 ^ 64 = z mod 2 ^ 64.
Proof.
  unfold i64, sint. destruct (_ <? _); [apply Z.mod_mod; lia|].
  replace (z mod 2 ^ 64 - 2 ^ 64) with (z mod 2 ^ 64 + (-1) * 2 ^ 64) by lia. rewrite Z.mod_add, Z.mod_mod by lia. done.
Qed.
Lemma i64_range z : - 2 ^ 63 <= i64 z < 2 ^ 63.
Proof.
  unfold i64, sint. pose proof (Z.mod_pos_bound z (2 ^ 64) ltac:(lia)). change (2 ^ (64 - 1)) with (2 ^ 63).
  destruct (Z.ltb_spec (z mod 2 ^ 64) (2 ^ 63)); lia.
Qed.
Lemma i64_unique z y : - 2 ^ 63 <= y < 2 ^ 63 -> y mod 2 ^ 64 = z mod 2 ^ 64 -> i64 z = y.
Proof.
  intros Hy E. pose proof (i64_range z). pose proof (i64_mod z) as E'. rewrite <- E in E'.
  pose proof (Z.div_mod (i64 z) (2 ^ 64) ltac:(lia)). pose proof (Z.div_mod y (2 ^ 64) ltac:(lia)). lia.
Qed.

Lemma less_rank c a b : 0 <= rank c a < 2 ^ 63 -> 0 <= rank c b < 2 ^ 63 -> less a b = (rank c b <? rank c a).
Proof.
  intros Ha Hb. unfold less. assert (i64 (priority a - priority b) = rank c a - rank c b) as ->.
  { apply i64_unique; [lia|]. unfold rank. rewrite Zminus_mod, !i64_mod, <- Zminus_mod. f_equal. lia. }
  destruct (Z.ltb_spec 0 (rank c a - rank c b)), (Z.ltb_spec (rank c b) (rank c a)); lia.
Qed.

Lemma window_comparable c l : in_window c l -> comparable (rank c) l.
Proof. intros Hw a b Ha Hb. unfold in_window in Hw. rewrite Forall_forall in Hw. apply less_rank; by apply Hw. Qed.

(** ** Theorems *)

(** The queue [p] holds the items [l], in some order. *)
Definition represents (B : nat) (c : Z) (p : sstack) (l : list item) : Prop :=
  exists q, stack_rep B p q /\ queue_ok (rank c) q /\ litems q ≡ₚ l.

Lemma rep_new B ix : (0 < B)%nat -> stack_rep B (Prque_New B ix) (LQueue [] ix []).
Proof.
  intros HB. split; simpl; try done; try lia.
  - constructor; [apply length_replicate|constructor].
  - intros i. unfold cell. destruct (i / B)%nat as [|k] eqn:E; [|done]. simpl.
    pose proof (Nat.mod_upper_bound i B ltac:(lia)). by rewrite lookup_replicate_2 by lia.
Qed.

Lemma option_Forall2_Some_r {A A'} (R : A -> A' -> Prop) o y : option_Forall2 R o (Some y) -> exists x, o = Some x /\ R x y.
Proof. intros H. inversion H; subst. eauto. Qed.

(** The operations of the heap on a stack and on the list that it represents. *)
Section stack_ops.
  Context (B : nat) (HB : (0 < B)%nat) (c : Z).

Lemma stack_Push p q x :
  stack_rep B p q -> queue_ok (rank c) q -> in_window c (x :: litems q) ->
  exists p' q', heap_Push (H := sstack_heap B) p x = Some p' /\ heap_Push q x = Some q' /\ stack_rep B p' q' /\ queue_ok (rank c) q' /\ litems q' ≡ₚ x :: litems q.
Proof.
  intros Hr Hq Hw. destruct (Push_ok (rank c) q x Hq) as (q' & E & Hq' & Hp').
  { apply window_comparable. unfold in_window in *. by rewrite <- Permutation_cons_append. }
  pose proof (@Push_sim sstack lqueue (block_heap B) list_heap (stack_rep B) (stack_sim B HB) p q x Hr) as Hs. rewrite E in Hs.
  apply option_Forall2_Some_r in Hs as (p' & Ep & Hr'). by exists p', q'.
Qed.

Lemma stack_Pop p q :
  stack_rep B p q -> queue_ok (rank c) q -> litems q <> [] ->
  exists y p' q', heap_Pop (H := sstack_heap B) p = Some (y, p') /\ heap_Pop q = Some (y, q') /\ stack_rep B p' q' /\ queue_ok (rank c) q' /\
    litems q ≡ₚ y :: litems q' /\ litems q !! 0%nat = Some y /\ forall z, z ∈ litems q -> rank c z <= rank c y.
Proof.
  intros Hr Hq Hne. destruct (Pop_ok (rank c) q Hq Hne) as (y & q' & E & Hq' & Hp' & H0 & Hmax).
  pose proof (@Pop_sim sstack lqueue (block_heap B) list_heap (stack_rep B) (stack_sim B HB) p q Hr) as Hs. rewrite E in Hs.
  apply option_Forall2_Some_r in Hs as ([y' p'] & Ep & [Ey Hr']). simpl in Ey, Hr'. subst y'. by exists y, p', q'.
Qed.

Lemma stack_Remove p q i y :
  stack_rep B p q -> queue_ok (rank c) q -> litems q !! i = Some y ->
  exists p' q', heap_Remove (H := sstack_heap B) p i = Some (y, p') /\ heap_Remove q i = Some (y, q') /\ stack_rep B p' q' /\ queue_ok (rank c) q' /\
    litems q ≡ₚ y :: litems q'.
Proof.
  intros Hr Hq Hy. destruct (Remove_ok (rank c) q i y Hq Hy) as (q' & E & Hq' & Hp').
  pose proof (@Remove_sim sstack lqueue (block_heap B) list_heap (stack_rep B) (stack_sim B HB) p q i Hr) as Hs. rewrite E in Hs.
  apply option_Forall2_Some_r in Hs as ([y' p'] & Ep & [Ey Hr']). simpl in Ey, Hr'. subst y'. by exists p', q'.
Qed.

(** blocks[0][0] is the first item. *)
Lemma stack_Peek p q : stack_rep B p q -> Prque_Peek p = (fun x => (value x, priority x)) <$> litems q !! 0%nat.
Proof.
  intros Hr. pose proof (rep_cells _ _ _ Hr 0) as Hc. unfold cell in Hc. rewrite Nat.Div0.div_0_l, Nat.Div0.mod_0_l in Hc.
  unfold Prque_Peek. rewrite <- Hc. destruct (blocks p !! 0%nat) as [b|]; [|done]. simpl. by destruct (b !! 0%nat) as [[]|].
Qed.
End stack_ops.

Lemma queue_ok_nil c ix ev : queue_ok (rank c) (LQueue [] ix ev).
Proof. split; [intros ? ? []%elem_of_nil|]. intros k Hk. simpl in Hk. lia. Qed.

(** C35: The priority queue refines a multiset of items, for every block size
    and as long as the priorities fit a window of 2^63 values, which may wrap
    around int64: no operation panics; Push adds an item; Pop returns an item of
    the greatest priority, the one Peek showed, and takes it out; Remove takes
    out the item at the index, and nothing else. *)
Theorem prque_refines_multiset B c p l x i :
  (0 < B)%nat -> represents B c p l ->
  represents B c (Prque_New B (indexed p)) [] /\ Prque_Size p = length l /\
  (in_window c (x :: l) -> exists p', Prque_Push B p (value x) (priority x) = Some p' /\ represents B c p' (x :: l)) /\
  (l <> [] -> exists y p' l', Prque_Pop B p = Some ((value y, priority y), p') /\ Prque_Peek p = Some (value y, priority y) /\
     l ≡ₚ y :: l' /\ represents B c p' l' /\ forall z, z ∈ l -> rank c z <= rank c y) /\
  (0 <= i < Z.of_nat (length l) -> exists y p' l', Prque_Remove B p i = Some (Some y, p') /\ l ≡ₚ y :: l' /\ represents B c p' l').
Proof.
  intros HB (q & Hr & Hq & Hp). assert (Hl : length (litems q) = length l) by (by rewrite Hp).
  split; [|split; [|split; [|split]]].
  - eexists. split; [by apply rep_new|]. split; [apply queue_ok_nil|done].
  - unfold Prque_Size. by rewrite (rep_size _ _ _ Hr).
  - intros Hw. destruct (stack_Push B HB c p q x Hr Hq) as (p' & q' & Ep & _ & Hr' & Hq' & Hp').
    { unfold in_window in *. by rewrite Hp. }
    exists p'. split; [by destruct x|]. exists q'. split; [done|]. split; [done|]. by rewrite Hp', Hp.
  - intros Hne. destruct (stack_Pop B HB c p q Hr Hq) as (y & p' & q' & Ep & _ & Hr' & Hq' & Hp' & H0 & Hmax).
    { intros E. rewrite E in Hp. by apply Hne, Permutation_nil. }
    exists y, p', (litems q'). split; [unfold Prque_Pop; by rewrite Ep|]. split; [by rewrite (stack_Peek B p q), H0|].
    split; [by rewrite <- Hp, Hp'|]. split; [by exists q'|]. intros z Hz. apply Hmax. by rewrite Hp.
  - intros Hi. destruct (lookup_lt_is_Some_2 (litems q) (Z.to_nat i)) as [y Hy]; [lia|].
    destruct (stack_Remove B HB c p q (Z.to_nat i) y Hr Hq Hy) as (p' & q' & Ep & _ & Hr' & Hq' & Hp').
    exists y, p', (litems q'). split.
    { unfold Prque_Remove. destruct (Z.ltb_spec i 0); [lia|]. by rewrite Ep. }
    split; [by rewrite <- Hp, Hp'|]. by exists q'.
Qed.

Lemma prque_refines_multiset_witness :
  exists p', Prque_Push 4 (Prque_New 4 true) 7 (2 ^ 63 - 1) = Some p' /\ represents 4 (2 ^ 63 - 1) p' [Item 7 (2 ^ 63 - 1)].
Proof.
  destruct (prque_refines_multiset 4 (2 ^ 63 - 1) (Prque_New 4 true) [] (Item 7 (2 ^ 63 - 1)) 0 ltac:(lia)) as (_ & _ & H & _).
  - exists (LQueue [] true []). split; [apply rep_new; lia|]. split; [|reflexivity].
    split; [intros a b Ha; inversion Ha|intros k Hk; simpl in Hk; lia].
  - apply H. constructor; [vm_compute; split; [discriminate|reflexivity]|constructor].
Defined.

(** ** The index callback *)

(** The index the application was told last for a value. *)
Definition told (ev : list (nat * Z)) (v : nat) : option Z :=
  foldl (fun acc e => if decide (fst e = v) then Some (snd e) else acc) None ev.

Lemma told_snoc ev w i v : told (ev ++ [(w, i)]) v = if decide (w = v) then Some i else told ev v.
Proof. unfold told. by rewrite foldl_app. Qed.

(** Distinct values, each with its index told. *)
Record tracked (q : lqueue) : Prop := {
  tr_indexed : lindexed q = true;
  tr_nodup : NoDup (map value (litems q));
  tr_told : forall i x, litems q !! i = Some x -> told (levents q) (value x) = Some (Z.of_nat i)
}.

Lemma value_inj (l : list item) i j a b :
  NoDup (map value l) -> l !! i = Some a -> l !! j = Some b -> value a = value b -> i = j.
Proof.
  intros Hn Ha Hb E. eapply (NoDup_lookup (map value l)); [done|..]; rewrite lookup_map; [by rewrite Ha|].
  rewrite Hb. simpl. by f_equal.
Qed.

Lemma tracked_swap q i j q' : tracked q -> h_Swap q i j = Some q' -> tracked q'.
Proof.
  intros [Hi Hn Ht] E. simpl in E. unfold l_Swap in E.
  destruct (litems q !! j) as [a|] eqn:Ea; [|done]. destruct (litems q !! i) as [b|] eqn:Eb; [|done]. simpl in E.
  injection E as <-. split; simpl; [done| |].
  - by rewrite (swap_perm (litems q) i j b a Eb Ea).
  - intros k x Hk. rewrite Hi. unfold call_index. rewrite !told_snoc.
    pose proof (lookup_lt_Some _ _ _ Ea). pose proof (lookup_lt_Some _ _ _ Eb).
    destruct (decide (k = j)) as [->|Hkj].
    + rewrite list_lookup_insert_eq in Hk by (by rewrite length_insert). injection Hk as <-. by rewrite decide_True.
    + rewrite list_lookup_insert_ne in Hk by done. destruct (decide (k = i)) as [->|Hki].
      * rewrite list_lookup_insert_eq in Hk by done. injection Hk as <-.
        rewrite decide_False; [by rewrite decide_True|]. intros E. by apply Hkj, (value_inj (litems q) i j b a).
      * rewrite list_lookup_insert_ne in Hk by done.
        rewrite !decide_False; [by apply Ht| |]; intros E; symmetry in E;
          [apply Hkj, (value_inj (litems q) k j x a)|apply Hki, (value_inj (litems q) k i x b)]; done.
Qed.

(** A property that swaps preserve is preserved by up and down. *)
Lemma up_preserves (P : lqueue -> Prop) fuel :
  (forall q i j q', P q -> h_Swap q i j = Some q' -> P q') ->
  forall q j q', P q -> heap_up fuel q j = Some q' -> P q'.
Proof.
  intros Hs. induction fuel as [|f IH]; intros q j q' Hq E; [done|]. cbn [heap_up] in E.
  destruct (_ =? j)%nat; [congruence|]. destruct (h_Less q j _) as [[]|]; simpl in E; [|congruence|done].
  destruct (l_Swap q _ j) as [q1|] eqn:E1; [|done]. eapply IH; [|done]. by eapply Hs.
Qed.

Lemma down_preserves (P : lqueue -> Prop) fuel :
  (forall q i j q', P q -> h_Swap q i j = Some q' -> P q') ->
  forall q i n i' q', P q -> heap_down fuel q i n = Some (i', q') -> P q'.
Proof.
  intros Hs. induction fuel as [|f IH]; intros q i n i' q' Hq E; [done|]. cbn [heap_down] in E.
  destruct (n <=? _)%nat; [congruence|].
  destruct (if (_ <? n)%nat then _ else _) as [j|]; cbn [mbind option_bind] in E; [|done].
  destruct (h_Less q j i) as [[]|]; cbn [mbind option_bind negb] in E; [|congruence|done].
  destruct (h_Swap q i j) as [q1|] eqn:E1; cbn [mbind option_bind] in E; [|done]. eapply IH; [|done]. by eapply Hs.
Qed.

Lemma tracked_pop q x q' : tracked q -> h_Pop q = Some (x, q') -> tracked q' /\ told (levents q') (value x) = Some (-1).
Proof.
  intros [Hi Hn Ht] E. simpl in E. destruct (last (litems q)) as [y|] eqn:Ey; [|done]. simpl in E. injection E as -> <-.
  rewrite last_lookup in Ey. set (n := length (litems q)) in *. assert (Hne : (0 < n)%nat).
  { apply lookup_lt_Some in Ey. lia. }
  split; [split|]; simpl.
  - done.
  - rewrite <- (take_drop (n - 1) (litems q)), map_app in Hn. by apply NoDup_app in Hn as [? _].
  - intros i z Hz. assert (Hin : (i < n - 1)%nat) by (apply lookup_lt_Some in Hz; rewrite length_take in Hz; lia).
    rewrite lookup_take_lt in Hz by done. rewrite Hi. unfold call_index. rewrite told_snoc, decide_False; [by apply Ht|].
    intros E. assert (pred n = i); [|lia]. by apply (value_inj (litems q) (pred n) i x z).
  - rewrite Hi. unfold call_index. by rewrite told_snoc, decide_True.
Qed.

(** The operations of the heap keep the indices told. *)
Lemma tracked_heap_Push q x q' :
  tracked q -> (forall k y, litems q !! k = Some y -> value y <> value x) -> heap_Push q x = Some q' -> tracked q'.
Proof.
  intros [Hi Hn Hto] Hnew E. unfold heap_Push in E. simpl h_Push in E. cbn [mbind option_bind] in E.
  eapply up_preserves in E; [done|exact tracked_swap|]. split; simpl.
  - done.
  - rewrite map_app. apply NoDup_app. split; [done|]. split; [|apply NoDup_singleton].
    intros w Hw Hv. apply list_elem_of_singleton in Hv as ->. apply list_elem_of_In, in_map_iff in Hw as (y & Ey & Hy).
    apply list_elem_of_In, list_elem_of_lookup_1 in Hy as [k Hk]. by apply (Hnew k y).
  - intros k y Hk. rewrite Hi. unfold call_index. rewrite told_snoc. simpl.
    apply lookup_app_Some in Hk as [Hk|[Hk Hx]].
    + rewrite decide_False; [by apply Hto|]. intros Ev. by apply (Hnew k y).
    + apply list_lookup_singleton_Some in Hx as [Hk0 <-]. rewrite decide_True by done. do 2 f_equal. lia.
Qed.

Lemma tracked_heap_Pop q x q' :
  tracked q -> heap_Pop q = Some (x, q') -> tracked q' /\ told (levents q') (value x) = Some (-1).
Proof.
  intros Ht E. unfold heap_Pop in E.
  destruct (h_Swap q 0 _) as [q1|] eqn:S1; cbn [mbind option_bind] in E; [|done].
  destruct (heap_down _ q1 0 _) as [[i' q2]|] eqn:D; cbn [mbind option_bind] in E; [|done].
  eapply (tracked_swap _ _ _ _ Ht) in S1. eapply down_preserves in D; [|exact tracked_swap|done].
  by apply (tracked_pop q2).
Qed.

Lemma tracked_heap_Remove q i x q' :
  tracked q -> heap_Remove q i = Some (x, q') -> tracked q' /\ told (levents q') (value x) = Some (-1).
Proof.
  intros Ht E. unfold heap_Remove in E. destruct (_ =? i)%nat; cbn [mbind option_bind] in E; [by apply (tracked_pop q)|].
  destruct (h_Swap q i _) as [q1|] eqn:S1; cbn [mbind option_bind] in E; [|done].
  destruct (heap_down _ q1 _ _) as [[i' q2]|] eqn:D; cbn [mbind option_bind] in E; [|done].
  eapply (tracked_swap _ _ _ _ Ht) in S1. eapply down_preserves in D; [|exact tracked_swap|done].
  destruct (_ <? i')%nat; cbn [mbind option_bind] in E; [by apply (tracked_pop q2)|].
  destruct (heap_up _ q2 _) as [q3|] eqn:U; cbn [mbind option_bind] in E; [|done].
  eapply up_preserves in U; [|exact tracked_swap|done]. by apply (tracked_pop q3).
Qed.

(** The application is told the index of every item of [p]. *)
Definition indices_told (B : nat) (p : sstack) : Prop := exists q, stack_rep B p q /\ tracked q.

Lemma rep_sget B p q k : stack_rep B p q -> sget B p k = litems q !! k.
Proof. intros Hr. change (sget B p k) with (cell B (blocks p) k). by rewrite (rep_cells _ _ _ Hr). Qed.

Lemma new_indices_told B : (0 < B)%nat -> indices_told B (Prque_New B true).
Proof.
  intros HB. exists (LQueue [] true []). split; [by apply rep_new|]. split; [done|constructor|]. intros i x Hx. discriminate Hx.
Qed.

Lemma new_sget B ix k : (0 < B)%nat -> sget B (Prque_New B ix) k = None.
Proof. intros HB. by rewrite (rep_sget _ _ _ _ (rep_new B ix HB)). Qed.

(** The index callback is kept exact: in a queue with the callback set and
    distinct values, after every Push of a new value, Pop and Remove the index
    last reported for each value in the queue is its current index, so that
    Remove at the reported index removes that value; a value that leaves the
    queue is reported with index -1. *)
Theorem prque_indices_told B p v pri p' i y :
  (0 < B)%nat -> indices_told B p ->
  (Prque_Push B p v pri = Some p' ->
     (forall k x, sget B p k = Some x -> value x <> v) -> indices_told B p') /\
  (Prque_Pop B p = Some ((v, pri), p') -> indices_told B p' /\ told (events p') v = Some (-1)) /\
  (0 <= i -> Prque_Remove B p i = Some (Some y, p') ->
     indices_told B p' /\ told (events p') (value y) = Some (-1)) /\
  (forall k x, sget B p k = Some x -> told (events p) (value x) = Some (Z.of_nat k)).
Proof.
  intros HB (q & Hr & Ht). pose proof (stack_sim B HB) as Sim. split; [|split; [|split]].
  - intros E Hnew. pose proof (@Push_sim sstack lqueue (block_heap B) list_heap (stack_rep B) Sim p q (Item v pri) Hr) as Hs.
    change (@heap_Push sstack (block_heap B) p (Item v pri) = Some p') in E. rewrite E in Hs.
    inversion Hs as [? q' Hr' E1 E2|]; subst. exists q'. split; [done|].
    apply (tracked_heap_Push q (Item v pri)); [done| |done]. intros k y' Hy. apply (Hnew k). by rewrite (rep_sget _ _ _ _ Hr).
  - intros E. unfold Prque_Pop in E. pose proof (@Pop_sim sstack lqueue (block_heap B) list_heap (stack_rep B) Sim p q Hr) as Hs.
    change (@heap_Pop sstack (sstack_heap B) p) with (@heap_Pop sstack (block_heap B) p) in E.
    inversion Hs as [[x p1] [x' q'] [Ex Hr'] E1 E2|E1 E2]; rewrite <- E1 in E; [|done]. simpl in Ex, Hr', E. subst x'.
    injection E as Ev Ep ->. destruct (tracked_heap_Pop q x q' Ht ltac:(done)) as [T1 T2].
    split; [by exists q'|]. by rewrite (rep_events _ _ _ Hr'), <- Ev.
  - intros Hi E. unfold Prque_Remove in E. destruct (Z.ltb_spec i 0); [lia|].
    pose proof (@Remove_sim sstack lqueue (block_heap B) list_heap (stack_rep B) Sim p q (Z.to_nat i) Hr) as Hs.
    change (@heap_Remove sstack (sstack_heap B) p) with (@heap_Remove sstack (block_heap B) p) in E.
    inversion Hs as [[x p1] [x' q'] [Ex Hr'] E1 E2|E1 E2]; rewrite <- E1 in E; [|done]. simpl in Ex, Hr', E. subst x'.
    injection E as -> ->. destruct (tracked_heap_Remove q (Z.to_nat i) y q' Ht ltac:(done)) as [T1 T2].
    split; [by exists q'|]. by rewrite (rep_events _ _ _ Hr').
  - intros k x Hk. rewrite (rep_sget _ _ _ _ Hr) in Hk. rewrite (rep_events _ _ _ Hr). by apply (tr_told _ Ht).
Qed.

Lemma prque_indices_told_witness :
  exists p', Prque_Push 4 (Prque_New 4 true) 7 1 = Some p' /\ indices_told 4 p'.
Proof.
  eexists. split; [vm_compute; reflexivity|].
  refine (proj1 (prque_indices_told 4 (Prque_New 4 true) 7 1 _ 0 (Item 0 0) ltac:(lia) (new_indices_told 4 ltac:(lia))) _ _).
  - vm_compute; reflexivity.
  - intros k x Hk. rewrite new_sget in Hk by lia. discriminate Hk.
Defined.
