(* ===== verification/LazyQueue.v ===== *)
(** * Package common/prque: the lazy queue

    LazyQueue of lazyqueue.go: a priority queue whose priorities change with
    time.  Items wait in two stacks ordered by upper estimates of their
    priorities and are evaluated when they are popped.  The clock is a reading
    given to each operation; the estimate of an item may depend on the moment it
    is asked for.  The calls of the SetIndexCallback are recorded, after their
    translation by setIndex0 and setIndex1. *)

From stdpp Require Import list.
From Stdlib Require Import Sorting.Permutation Sorting.Sorted.
From S2P Require Import Prelude Prque.

(** A stack with the callback it was made with: setIndex1 when [odd]. *)
Record half : Type := Half { stack : sstack; odd : bool }.

Record LazyQueue : Type := MkLazy {
  queue0 : half;
  queue1 : half;
  popQueue : sstack;
  maxUntil : Z;
  indexOffset : Z;
  calls : list (nat * Z)
}.

Definition setIndex0 (e : nat * Z) : nat * Z := (fst e, if snd e =? -1 then -1 else snd e + snd e).
Definition setIndex1 (e : nat * Z) : nat * Z := (fst e, snd e + snd e + 1).
Definition set_index (odd : bool) : nat * Z -> nat * Z := if odd then setIndex1 else setIndex0.

Definition queue (q : LazyQueue) (k : bool) : half := if k then queue1 q else queue0 q.

(** A stack after an operation, with the calls that the operation made. *)
Definition put (q : LazyQueue) (k : bool) (s : sstack) : LazyQueue :=
  let h := queue q k in
  let calls := calls q ++ map (set_index (odd h)) (drop (length (events (stack h))) (events s)) in
  if k then MkLazy (queue0 q) (Half s (odd h)) (popQueue q) (maxUntil q) (indexOffset q) calls
  else MkLazy (Half s (odd h)) (queue1 q) (popQueue q) (maxUntil q) (indexOffset q) calls.
Definition put_pop (q : LazyQueue) (s : sstack) : LazyQueue :=
  MkLazy (queue0 q) (queue1 q) s (maxUntil q) (indexOffset q) (calls q).
Definition set_maxUntil (q : LazyQueue) (t : Z) : LazyQueue :=
  MkLazy (queue0 q) (queue1 q) (popQueue q) t (indexOffset q) (calls q).

Section lazyqueue.
  Context (blockSize : nat).
  (** PriorityCallback, MaxPriorityCallback (with the moment of the call) and the
      refresh period. *)
  Context (priorityAt : nat -> Z -> Z) (maxPriority : Z -> nat -> Z -> Z) (period : Z).
#[local] Instance lazy_heap : Heap sstack := sstack_heap blockSize.

Definition Reset (q : LazyQueue) : LazyQueue :=
  MkLazy (Half (newSstack blockSize true []) false) (Half (newSstack blockSize true []) true) (popQueue q) (maxUntil q) (indexOffset q)
    (calls q).

Definition Push (now : Z) (q : LazyQueue) (data : nat) : option LazyQueue :=
  s ← heap_Push (stack (queue1 q)) (Item data (maxPriority now data (maxUntil q)));
  Some (put q true s).

(** The loop of Refresh, once for every item of the first stack. *)
Fixpoint refresh_items (now : Z) (fuel : nat) (q : LazyQueue) : option LazyQueue :=
  if (s_size (stack (queue0 q)) =? 0)%nat then Some q
  else match fuel with
  | O => None
  | S fuel =>
      '(x, s) ← heap_Pop (stack (queue0 q));
      q ← Push now (put q false s) (value x);
      refresh_items now fuel q
  end.

Definition Refresh (now : Z) (q : LazyQueue) : option LazyQueue :=
  q ← refresh_items now (s_size (stack (queue0 q))) (set_maxUntil q (i64 (now + period)));
  Some (MkLazy (queue1 q) (queue0 q) (popQueue q) (i64 (maxUntil q + period)) (1 - indexOffset q) (calls q)).

Definition NewLazyQueue (now : Z) : option LazyQueue :=
  let nothing := Half (newSstack blockSize false []) false in
  Refresh now (Reset (MkLazy nothing nothing (newSstack blockSize false []) 0 0 [])).

(** The stack with the highest estimate; -1 is [Some None]. *)
Definition peekIndex (q : LazyQueue) : option (option bool) :=
  if negb (s_size (stack (queue0 q)) =? 0)%nat then
    if negb (s_size (stack (queue1 q)) =? 0)%nat then
      p1 ← Prque_Peek (stack (queue1 q)); p0 ← Prque_Peek (stack (queue0 q));
      Some (Some (snd p0 <? snd p1))
    else Some (Some false)
  else if negb (s_size (stack (queue1 q)) =? 0)%nat then Some (Some true)
  else Some None.

(** The items that were evaluated and not handed out go back. *)
Fixpoint put_back (now : Z) (fuel : nat) (q : LazyQueue) : option LazyQueue :=
  if (s_size (popQueue q) =? 0)%nat then Some q
  else match fuel with
  | O => None
  | S fuel =>
      '(x, s) ← heap_Pop (popQueue q);
      q ← Push now (put_pop q s) (value x);
      put_back now fuel q
  end.

Section multipop.
  (** The callback with the state it closes over. *)
  Context {C : Type} (callback : C -> nat -> Z -> C * bool).

(** The inner loop of MultiPop; the flag tells that the callback ended it. *)
Fixpoint hand_out (now : Z) (fuel : nat) (nextIndex : option bool) (st : C) (q : LazyQueue) : option (C * LazyQueue * bool) :=
  if (s_size (popQueue q) =? 0)%nat then Some (st, q, false)
  else
    go ← match nextIndex with
         | None => Some true
         | Some k => a ← Prque_Peek (stack (queue q k)); b ← Prque_Peek (popQueue q); Some (snd a <? snd b)
         end;
    if negb go then Some (st, q, false)
    else match fuel with
    | O => None
    | S fuel =>
        '(i, s) ← heap_Pop (popQueue q);
        let q := put_pop q s in
        let '(st, more) := callback st (value i) (priority i) in
        if negb more then q ← put_back now (s_size (popQueue q)) q; Some (st, q, true)
        else hand_out now fuel nextIndex st q
    end.

Fixpoint multipop (now : Z) (fuel : nat) (nextIndex : option bool) (st : C) (q : LazyQueue) : option (C * LazyQueue) :=
  match nextIndex with
  | None => Some (st, q)
  | Some k =>
      match fuel with
      | O => None
      | S fuel =>
          '(x, s) ← heap_Pop (stack (queue q k));
          let q := put q k s in
          s ← heap_Push (popQueue q) (Item (value x) (priorityAt (value x) now));
          let q := put_pop q s in
          nextIndex ← peekIndex q;
          '(st, q, stop) ← hand_out now (s_size (popQueue q)) nextIndex st q;
          if (stop : bool) then Some (st, q) else multipop now fuel nextIndex st q
      end
  end.

Definition MultiPop (now : Z) (st : C) (q : LazyQueue) : option (C * LazyQueue) :=
  nextIndex ← peekIndex q;
  multipop now (s_size (stack (queue0 q)) + s_size (stack (queue1 q))) nextIndex st q.
End multipop.

(** nil is [None]. *)
Definition Pop (now : Z) (q : LazyQueue) : option (option (nat * Z) * LazyQueue) :=
  MultiPop (fun _ data pri => (Some (data, pri), false)) now None q.
Definition PopItem (now : Z) (q : LazyQueue) : option (option nat * LazyQueue) :=
  match Pop now q with Some (i, q) => Some (fst <$> i, q) | None => None end.

Definition Remove (q : LazyQueue) (index : Z) : option (option nat * LazyQueue) :=
  if index <? 0 then Some (None, q)
  else
    let k := Z.lxor (Z.land index 1) (indexOffset q) in
    k ← (if k =? 0 then Some false else if k =? 1 then Some true else None);
    '(x, s) ← heap_Remove (stack (queue q k)) (Z.to_nat (Z.shiftr index 1));
    Some (Some (value x), put q k s).

(** For an index in range; Update of a negative index pushes nil. *)
Definition Update (now : Z) (q : LazyQueue) (index : Z) : option LazyQueue :=
  '(v, q) ← Remove q index; v ← v; Push now q v.

Definition Empty (q : LazyQueue) : bool := (s_size (stack (queue0 q)) =? 0)%nat && (s_size (stack (queue1 q)) =? 0)%nat.
Definition Size (q : LazyQueue) : nat := (s_size (stack (queue0 q)) + s_size (stack (queue1 q)))%nat.
End lazyqueue.

(** ** The calls of the index callback *)

Lemma told_app a b v : told (a ++ b) v = match told b v with Some i => Some i | None => told a v end.
Proof.
  induction b as [|[w i] b IH] using rev_ind; [by rewrite app_nil_r|]. rewrite app_assoc, !told_snoc, IH. by destruct (decide (w = v)).
Qed.

Lemma told_translate odd b v : told (map (set_index odd) b) v = (fun i => snd (set_index odd (v, i))) <$> told b v.
Proof.
  induction b as [|[w i] b IH] using rev_ind; [done|]. rewrite map_app. cbn [map].
  replace (set_index odd (w, i)) with (w, snd (set_index odd (w, i))) by (by destruct odd). rewrite !told_snoc, IH.
  destruct (decide (w = v)); [|done]. by destruct odd.
Qed.

Lemma told_None b v : told b v = None <-> Forall (fun e => fst e <> v) b.
Proof.
  induction b as [|[w i] b IH] using rev_ind; [done|]. rewrite told_snoc, Forall_app, Forall_singleton. cbn [fst].
  destruct (decide (w = v)); [split; [done|by intros [_ ?]]|]. rewrite IH. split; [done|by intros [? _]].
Qed.

(** What a step of the heap algorithm does to the calls: it adds calls for items
    that are there. *)
Definition calls_since (base : list (nat * Z)) (l : list item) (r : lqueue) : Prop :=
  litems r ≡ₚ l /\ exists more, levents r = base ++ more /\ Forall (fun e => fst e ∈ map value l) more.

Lemma calls_since_swap base l r i j r' : calls_since base l r -> h_Swap r i j = Some r' -> calls_since base l r'.
Proof.
  intros [Hp (more & He & Hm)] E. simpl in E. unfold l_Swap in E.
  destruct (litems r !! j) as [a|] eqn:Ea; [|done]. destruct (litems r !! i) as [b|] eqn:Eb; [|done]. simpl in E.
  injection E as <-. split; simpl; [by rewrite (swap_perm (litems r) i j b a Eb Ea)|].
  unfold call_index. rewrite He. destruct (lindexed r); [|by exists more].
  exists (more ++ [(value a, Z.of_nat i); (value b, Z.of_nat j)]). rewrite <- !app_assoc. split; [done|].
  assert (forall k x, litems r !! k = Some x -> value x ∈ map value l) as Hin.
  { intros k x Hk. apply list_elem_of_fmap_2. rewrite <- Hp. by eapply list_elem_of_lookup_2. }
  apply Forall_app. split; [done|]. repeat constructor; simpl; eauto.
Qed.

Lemma heap_Push_calls r x r' :
  heap_Push r x = Some r' -> lindexed r = true ->
  exists more, levents r' = levents r ++ (value x, Z.of_nat (length (litems r))) :: more /\ Forall (fun e => fst e ∈ map value (x :: litems r)) more.
Proof.
  intros E Hi. unfold heap_Push in E. simpl h_Push in E. cbn [mbind option_bind] in E.
  eapply (up_preserves (calls_since (levents r ++ [(value x, Z.of_nat (length (litems r)))]) (x :: litems r))) in E.
  - destruct E as [_ (more & He & Hm)]. exists more. by rewrite He, <- app_assoc.
  - apply calls_since_swap.
  - split; simpl; [symmetry; apply Permutation_cons_append|]. exists []. rewrite Hi, app_nil_r. by split.
Qed.

Lemma h_Pop_calls base l r x r' :
  calls_since base l r -> h_Pop r = Some (x, r') -> exists more, levents r' = base ++ more /\ Forall (fun e => fst e ∈ map value l) more.
Proof.
  intros [Hp (more & He & Hm)] E. simpl in E. destruct (last (litems r)) as [y|] eqn:Ey; [|done]. simpl in E. injection E as -> <-. simpl.
  unfold call_index. rewrite He. destruct (lindexed r); [|by exists more]. exists (more ++ [(value x, -1)]). rewrite <- app_assoc.
  split; [done|]. apply Forall_app. split; [done|]. constructor; [|constructor]. simpl. apply list_elem_of_fmap_2. rewrite <- Hp.
  rewrite last_lookup in Ey. by eapply list_elem_of_lookup_2.
Qed.

Lemma calls_since_start r : calls_since (levents r) (litems r) r.
Proof. split; [done|]. exists []. by rewrite app_nil_r. Qed.

Lemma heap_Pop_calls r x r' :
  heap_Pop r = Some (x, r') -> exists more, levents r' = levents r ++ more /\ Forall (fun e => fst e ∈ map value (litems r)) more.
Proof.
  intros E. unfold heap_Pop in E.
  destruct (h_Swap r 0 _) as [r1|] eqn:S1; cbn [mbind option_bind] in E; [|done].
  destruct (heap_down _ r1 0 _) as [[i' r2]|] eqn:D; cbn [mbind option_bind] in E; [|done].
  eapply calls_since_swap in S1; [|apply calls_since_start]. eapply down_preserves in D; [|apply calls_since_swap|exact S1].
  by eapply h_Pop_calls.
Qed.

Lemma heap_Remove_calls r i x r' :
  heap_Remove r i = Some (x, r') -> exists more, levents r' = levents r ++ more /\ Forall (fun e => fst e ∈ map value (litems r)) more.
Proof.
  intros E. unfold heap_Remove in E. destruct (_ =? i)%nat; cbn [mbind option_bind] in E; [by eapply h_Pop_calls; [apply calls_since_start|]|].
  destruct (h_Swap r i _) as [r1|] eqn:S1; cbn [mbind option_bind] in E; [|done].
  destruct (heap_down _ r1 _ _) as [[i' r2]|] eqn:D; cbn [mbind option_bind] in E; [|done].
  eapply calls_since_swap in S1; [|apply calls_since_start]. eapply down_preserves in D; [|apply calls_since_swap|exact S1].
  destruct (_ <? i')%nat; cbn [mbind option_bind] in E; [by eapply h_Pop_calls|].
  destruct (heap_up _ r2 _) as [r3|] eqn:U; cbn [mbind option_bind] in E; [|done].
  eapply up_preserves in U; [|apply calls_since_swap|exact D]. by eapply h_Pop_calls.
Qed.

(** ** Items handed to a callback *)

Section trace.
  Context {C : Type} (callback : C -> nat -> Z -> C * bool).

(** The state after calls with these arguments, all but the last answered with
    true, and the last answer. *)
Fixpoint called (st : C) (tr : list (nat * Z)) : option (C * bool) :=
  match tr with
  | [] => Some (st, true)
  | (v, p) :: tr =>
      let '(st, more) := callback st v p in
      if (more : bool) then called st tr else match tr with [] => Some (st, false) | _ => None end
  end.

Lemma called_app st st' a b : called st a = Some (st', true) -> called st (a ++ b) = called st' b.
Proof.
  revert st. induction a as [|[v p] a IH]; intros st E; cbn [called app] in *; [by injection E as ->|].
  destruct (callback st v p) as [st1 []]; [by apply IH|]. by destruct a.
Qed.
End trace.

(** From the values [before], those of [tr] were handed out in the order of their
    priorities at [now], and none of the values [after] has a higher one. *)
Record handed (priorityAt : nat -> Z -> Z) (now : Z) (before after : list nat) (tr : list (nat * Z)) : Prop := {
  hd_sorted : StronglySorted (fun a b => snd b <= snd a) tr;
  hd_exact : forall e, e ∈ tr -> snd e = priorityAt (fst e) now;
  hd_perm : map fst tr ++ after ≡ₚ before;
  hd_greatest : forall e w, e ∈ tr -> w ∈ after -> priorityAt w now <= snd e
}.

Lemma handed_nil f now a b : a ≡ₚ b -> handed f now a b [].
Proof. intros Hp. split; [constructor|by intros ? ?%elem_of_nil|by symmetry|by intros ? ? ?%elem_of_nil]. Qed.

Lemma handed_app f now a b d t u : handed f now a b t -> handed f now b d u -> handed f now a d (t ++ u).
Proof.
  intros [S1 E1 P1 G1] [S2 E2 P2 G2].
  assert (Hu : forall e, e ∈ u -> fst e ∈ b) by (intros e He; rewrite <- P2; apply elem_of_app; left; by apply list_elem_of_fmap_2).
  assert (Hd : forall w, w ∈ d -> w ∈ b) by (intros w Hw; rewrite <- P2; apply elem_of_app; by right).
  split.
  - clear E1 P1. induction S1 as [|e t S1 IH F]; [done|]. cbn [app]. constructor.
    + apply IH. intros e' w He'. apply G1. by right.
    + apply Forall_app. split; [done|]. apply Forall_forall. intros e' He'. rewrite (E2 e' He'). apply G1; [by left|by apply Hu].
  - intros e. rewrite elem_of_app. intros [|]; auto.
  - by rewrite map_app, <- (assoc_L (++)), P2.
  - intros e w. rewrite elem_of_app. intros [He|He] Hw; [by apply G1, Hd|by apply G2].
Qed.

(** ** The invariant *)

Section invariant.
  Context (B : nat) (HB : (0 < B)%nat).
  Context (priorityAt : nat -> Z -> Z) (maxPriority : Z -> nat -> Z -> Z) (period c : Z).
  (** Priorities fit a window of 2^63 values, in which int64 comparisons and
      differences agree. *)
  Context (Hpri : forall v t, c <= priorityAt v t < c + 2 ^ 63) (Hmax : forall now v t, c <= maxPriority now v t < c + 2 ^ 63).
  (** Whether the values are distinct, so that an index names one. *)
  Context (D : Prop).

Definition bounded (l : list item) : Prop := Forall (fun x => c <= priority x < c + 2 ^ 63) l.

Lemma rank_bounded x : c <= priority x < c + 2 ^ 63 -> rank c x = priority x - c.
Proof. intros Hx. unfold rank. apply i64_unique; [lia|done]. Qed.

Lemma bounded_window l : bounded l -> in_window c l.
Proof. intros H. eapply Forall_impl; [exact H|]. intros x Hx. simpl in Hx. rewrite rank_bounded by done. lia. Qed.

Record holds (s : sstack) (r : lqueue) : Prop := {
  h_rep : stack_rep B s r;
  h_ok : queue_ok (rank c) r;
  h_bounded : bounded (litems r)
}.

(** Every item of a half has had its translated index told. *)
Record half_told (q : LazyQueue) (k : bool) (r : lqueue) : Prop := {
  ht_tracked : tracked r;
  ht_told : forall i x, litems r !! i = Some x ->
    told (calls q) (value x) = Some (snd (set_index (odd (queue q k)) (value x, Z.of_nat i)))
}.

Definition items (r : bool -> lqueue) (rp : lqueue) : list item := litems (r false) ++ litems (r true) ++ litems rp.
Definition upd (r : bool -> lqueue) (k : bool) (x : lqueue) : bool -> lqueue := fun k' => if Bool.eqb k k' then x else r k'.

Record indexed_ok (q : LazyQueue) (r : bool -> lqueue) (rp : lqueue) : Prop := {
  ix_nodup : NoDup (map value (items r rp));
  ix_told : forall k, half_told q k (r k);
  ix_odd : odd (queue1 q) = negb (odd (queue0 q));
  ix_offset : indexOffset q = if odd (queue0 q) then 1 else 0
}.

Record inv (q : LazyQueue) (r : bool -> lqueue) (rp : lqueue) : Prop := {
  inv_half : forall k, holds (stack (queue q k)) (r k);
  inv_pop : holds (popQueue q) rp;
  inv_ix : D -> indexed_ok q r rp
}.

(** Operations of the heap on one stack. *)
Lemma holds_Push s r x : holds s r -> c <= priority x < c + 2 ^ 63 ->
  exists s' r', heap_Push (H := lazy_heap B) s x = Some s' /\ heap_Push r x = Some r' /\ holds s' r' /\ litems r' ≡ₚ x :: litems r.
Proof.
  intros [Hr Hq Hb] Hx. destruct (stack_Push B HB c s r x Hr Hq) as (s' & r' & E1 & E2 & Hr' & Hq' & Hp).
  { apply bounded_window. by constructor. }
  exists s', r'. split_and!; [done|done| |done]. split; [done|done|]. unfold bounded. rewrite Hp. by constructor.
Qed.

Lemma holds_Pop s r : holds s r -> litems r <> [] ->
  exists x s' r', heap_Pop (H := lazy_heap B) s = Some (x, s') /\ heap_Pop r = Some (x, r') /\ holds s' r' /\ litems r ≡ₚ x :: litems r' /\
    Prque_Peek s = Some (value x, priority x) /\ forall z, z ∈ litems r -> priority z <= priority x.
Proof.
  intros [Hr Hq Hb] Hne. destruct (stack_Pop B HB c s r Hr Hq Hne) as (x & s' & r' & E1 & E2 & Hr' & Hq' & Hp & H0 & Hm).
  exists x, s', r'. split_and!; [done|done| |done| |].
  - split; [done|done|]. unfold bounded in Hb. rewrite Hp in Hb. by apply Forall_cons in Hb as [_ ?].
  - by rewrite (stack_Peek B s r), H0.
  - intros z Hz. pose proof (Hm z Hz) as L. unfold bounded in Hb. rewrite Forall_forall in Hb. pose proof (Hb z Hz).
    assert (Hx : x ∈ litems r) by (rewrite Hp; left). pose proof (Hb x Hx). rewrite !rank_bounded in L by done. lia.
Qed.

Lemma holds_size s r : holds s r -> s_size s = length (litems r).
Proof. intros [Hr _ _]. apply (rep_size _ _ _ Hr). Qed.

Lemma holds_empty s r : holds s r -> (s_size s =? 0)%nat = true <-> litems r = [].
Proof. intros H. rewrite (holds_size s r H), Nat.eqb_eq. split; [apply nil_length_inv|by intros ->]. Qed.

Lemma put_calls q k s r r' more :
  stack_rep B (stack (queue q k)) r -> stack_rep B s r' -> levents r' = levents r ++ more ->
  calls (put q k s) = calls q ++ map (set_index (odd (queue q k))) more.
Proof.
  intros Hr Hr' He. assert (E : drop (length (events (stack (queue q k)))) (events s) = more).
  { rewrite (rep_events _ _ _ Hr), (rep_events _ _ _ Hr'), He. apply drop_app_length. }
  unfold put. rewrite E. by destruct k.
Qed.

Lemma queue_put q k s k' : queue (put q k s) k' = if Bool.eqb k k' then Half s (odd (queue q k)) else queue q k'.
Proof. by destruct k, k'. Qed.

(** The indices told after the calls of one operation, in the half it works on
    and elsewhere. *)
Lemma told_here cs (o : bool) r r' more :
  tracked r -> tracked r' -> levents r' = levents r ++ more ->
  (forall x, x ∈ litems r' -> (exists y, y ∈ litems r /\ value y = value x) \/ told more (value x) <> None) ->
  (forall i x, litems r !! i = Some x -> told cs (value x) = Some (snd (set_index o (value x, Z.of_nat i)))) ->
  forall i x, litems r' !! i = Some x -> told (cs ++ map (set_index o) more) (value x) = Some (snd (set_index o (value x, Z.of_nat i))).
Proof.
  intros T T' He Hin Ht i x Hx. pose proof (tr_told _ T' i x Hx) as Hi. rewrite He, told_app in Hi. rewrite told_app, told_translate.
  destruct (told more (value x)) as [j|] eqn:Em; [by injection Hi as ->|]. cbn.
  destruct (Hin x) as [(y & Hy & Ey)|]; [by eapply list_elem_of_lookup_2| |done].
  apply list_elem_of_lookup_1 in Hy as [j Hj]. pose proof (tr_told _ T j y Hj) as Hj'. rewrite Ey in Hj'. rewrite Hj' in Hi. injection Hi as E.
  assert (j = i) as -> by lia. rewrite <- Ey. by apply Ht.
Qed.

Lemma told_elsewhere cs (o : bool) more v : Forall (fun e => fst e <> v) more -> told (cs ++ map (set_index o) more) v = told cs v.
Proof. intros H. rewrite told_app, told_translate. apply told_None in H. by rewrite H. Qed.

Lemma items_half r rp k : items r rp ≡ₚ litems (r k) ++ litems (r (negb k)) ++ litems rp.
Proof. unfold items. destruct k; cbn [negb]; [|done]. rewrite !(assoc_L (++)). apply Permutation_app_tail, Permutation_app_comm. Qed.

Lemma items_upd r rp k r' : items (upd r k r') rp ≡ₚ litems r' ++ litems (r (negb k)) ++ litems rp.
Proof. rewrite (items_half _ _ k). unfold upd. by destruct k. Qed.

Lemma upd_same r k r' : upd r k r' k = r'.
Proof. unfold upd. by destruct k. Qed.
Lemma upd_other r k r' : upd r k r' (negb k) = r (negb k).
Proof. unfold upd. by destruct k. Qed.

Lemma inv_put q k s r rp r' :
  inv q r rp -> holds s r' ->
  (D -> exists more, levents r' = levents (r k) ++ more /\ tracked r' /\ NoDup (map value (items (upd r k r') rp)) /\
     (forall x, x ∈ litems r' -> (exists y, y ∈ litems (r k) /\ value y = value x) \/ told more (value x) <> None) /\
     Forall (fun e => fst e ∉ map value (litems (r (negb k)))) more) ->
  inv (put q k s) (upd r k r') rp.
Proof.
  intros [Hh Hp Hi] Hs Hm. split.
  - intros k'. rewrite queue_put. unfold upd. destruct (Bool.eqb k k'); [done|apply Hh].
  - unfold put. by destruct k.
  - intros HD. destruct (Hi HD) as [Hn Ht Ho Hf]. destruct (Hm HD) as (more & He & T' & Hn' & Hin & Hout).
    pose proof (put_calls q k s (r k) r' more (h_rep _ _ (Hh k)) (h_rep _ _ Hs) He) as Ec. split; [done| |by destruct k|by destruct k].
    intros k'. destruct (Ht k) as [T HT]. destruct (Ht (negb k)) as [T2 HT2].
    destruct (Bool.bool_dec k k') as [<-|Hne].
    + split; [by rewrite upd_same|]. rewrite upd_same, Ec, queue_put, Bool.eqb_reflx. cbn [odd]. exact (told_here (calls q) _ _ _ more T T' He Hin HT).
    + assert (k' = negb k) as -> by (destruct k, k'; done). split; [by rewrite upd_other|]. rewrite upd_other, Ec, queue_put.
      assert (Bool.eqb k (negb k) = false) as -> by (by destruct k). intros i x Hx. rewrite told_elsewhere; [by apply HT2|].
      eapply Forall_impl; [exact Hout|]. intros e Hx' E. apply Hx'. rewrite E. apply list_elem_of_fmap_2. by eapply list_elem_of_lookup_2.
Qed.

Lemma map_value_cons x l : map value (x :: l) = value x :: map value l.
Proof. done. Qed.

Lemma values_perm (l k : list item) : l ≡ₚ k -> map value l ≡ₚ map value k.
Proof. apply Permutation_map. Qed.

(** An item that leaves a list of distinct values, or joins it. *)
Lemma NoDup_leave l l' x : l ≡ₚ x :: l' -> NoDup (map value l) -> (value x ∉ map value l') /\ NoDup (map value l').
Proof. intros Hp Hn. apply values_perm in Hp. rewrite Hp in Hn. by apply NoDup_cons in Hn. Qed.
Lemma NoDup_join l l' x : l ≡ₚ x :: l' -> value x ∉ map value l' -> NoDup (map value l') -> NoDup (map value l).
Proof. intros Hp Hx Hn. apply values_perm in Hp. rewrite Hp. by apply NoDup_cons. Qed.

Lemma inv_Push now q r rp v :
  inv q r rp -> (D -> v ∉ map value (items r rp)) ->
  exists s r', Push B maxPriority now q v = Some (put q true s) /\ inv (put q true s) (upd r true r') rp /\
    litems r' ≡ₚ Item v (maxPriority now v (maxUntil q)) :: litems (r true).
Proof.
  intros Hi Hv. destruct (holds_Push (stack (queue1 q)) (r true) (Item v (maxPriority now v (maxUntil q))) (inv_half _ _ _ Hi true) (Hmax _ _ _))
    as (s & r' & E & Er & Hs & Hp).
  exists s, r'. split; [unfold Push; by rewrite E|]. split; [|done]. apply inv_put; [done|done|]. intros HD.
  destruct (inv_ix _ _ _ Hi HD) as [Hn Ht _ _]. destruct (Ht true) as [T _]. specialize (Hv HD).
  destruct (heap_Push_calls (r true) _ r' Er (tr_indexed _ T)) as (more & He & Hm). eexists. split; [exact He|].
  assert (Hv1 : forall y, y ∈ litems (r true) -> value y <> v).
  { intros y Hy E'. apply Hv. rewrite <- E'. apply list_elem_of_fmap_2. rewrite (items_half r rp true). apply elem_of_app. by left. }
  split; [|split; [|split]].
  - eapply (tracked_heap_Push (r true)); [done| |exact Er]. intros k y Hk. apply Hv1. by eapply list_elem_of_lookup_2.
  - eapply (NoDup_join _ (items r rp) (Item v (maxPriority now v (maxUntil q)))); [|exact Hv|exact Hn]. by rewrite items_upd, (items_half r rp true), Hp.
  - intros x Hx. rewrite Hp in Hx. apply elem_of_cons in Hx as [->|Hx]; [|left; eauto]. right. intros E'. apply told_None in E'.
    apply Forall_cons in E' as [E' _]. by apply E'.
  - assert (Hdis : forall w, w ∈ v :: map value (litems (r true)) -> w ∉ map value (litems (r (negb true)))).
    { intros w Hw Hw'. apply elem_of_cons in Hw as [->|Hw].
      - apply Hv. apply list_elem_of_fmap in Hw' as (y & -> & Hy). apply list_elem_of_fmap_2. rewrite (items_half r rp true).
        apply elem_of_app. right. apply elem_of_app. by left.
      - rewrite (values_perm _ _ (items_half r rp true)), !map_app in Hn. apply NoDup_app in Hn as (_ & Hn & _). apply (Hn w Hw). apply elem_of_app. by left. }
    constructor; [apply Hdis; left|]. eapply Forall_impl; [exact Hm|]. intros e. apply Hdis.
Qed.

(** An item that leaves a half, whichever way. *)
Lemma inv_leave q r rp k x s r' more :
  inv q r rp -> holds s r' -> litems (r k) ≡ₚ x :: litems r' -> levents r' = levents (r k) ++ more ->
  Forall (fun e => fst e ∈ map value (litems (r k))) more -> (D -> tracked (r k) -> tracked r') ->
  inv (put q k s) (upd r k r') rp /\ items r rp ≡ₚ x :: items (upd r k r') rp.
Proof.
  intros Hi Hs Hp He Hm HT. assert (Hall : items r rp ≡ₚ x :: items (upd r k r') rp) by (by rewrite items_upd, (items_half r rp k), Hp).
  split; [|done]. apply inv_put; [done|done|]. intros HD. destruct (inv_ix _ _ _ Hi HD) as [Hn Ht _ _]. destruct (Ht k) as [T _].
  exists more. split_and!; [done|by apply HT| | |].
  - by apply (NoDup_leave _ _ x Hall).
  - intros y Hy. left. exists y. split; [|done]. rewrite Hp. by right.
  - eapply Forall_impl; [exact Hm|]. intros e He' Ho. rewrite (values_perm _ _ (items_half r rp k)), !map_app in Hn.
    apply NoDup_app in Hn as (_ & Hn & _). apply (Hn _ He'). apply elem_of_app. by left.
Qed.

Lemma inv_pop_half q r rp k :
  inv q r rp -> litems (r k) <> [] ->
  exists x s r', heap_Pop (H := lazy_heap B) (stack (queue q k)) = Some (x, s) /\ inv (put q k s) (upd r k r') rp /\
    litems (r k) ≡ₚ x :: litems r' /\ items r rp ≡ₚ x :: items (upd r k r') rp /\
    Prque_Peek (stack (queue q k)) = Some (value x, priority x) /\ (forall z, z ∈ litems (r k) -> priority z <= priority x).
Proof.
  intros Hi Hne. destruct (holds_Pop _ _ (inv_half _ _ _ Hi k) Hne) as (x & s & r' & E & Er & Hs & Hp & Hk & Hm).
  destruct (heap_Pop_calls _ _ _ Er) as (more & He & Hmo).
  destruct (inv_leave q r rp k x s r' more Hi Hs Hp He Hmo) as [H1 H2]; [|by exists x, s, r'].
  intros _ T. by apply (tracked_heap_Pop (r k) x r').
Qed.

Lemma inv_remove_half q r rp k i x :
  inv q r rp -> litems (r k) !! i = Some x ->
  exists s r', heap_Remove (H := lazy_heap B) (stack (queue q k)) i = Some (x, s) /\ inv (put q k s) (upd r k r') rp /\
    litems (r k) ≡ₚ x :: litems r' /\ items r rp ≡ₚ x :: items (upd r k r') rp.
Proof.
  intros Hi Hx. destruct (inv_half _ _ _ Hi k) as [Hr Hq Hb].
  destruct (stack_Remove B HB c _ _ i x Hr Hq Hx) as (s & r' & E & Er & Hr' & Hq' & Hp).
  destruct (heap_Remove_calls _ _ _ _ Er) as (more & He & Hmo).
  destruct (inv_leave q r rp k x s r' more Hi) as [H1 H2]; try done; [| |by exists s, r'].
  - split; [done|done|]. unfold bounded in Hb. rewrite Hp in Hb. by apply Forall_cons in Hb as [_ ?].
  - intros _ T. by apply (tracked_heap_Remove (r k) i x r').
Qed.

(** The queue of evaluated items. *)
Lemma inv_put_pop q r rp s rp' :
  inv q r rp -> holds s rp' -> (D -> NoDup (map value (items r rp'))) -> inv (put_pop q s) r rp'.
Proof.
  intros [Hh Hp Hi] Hs Hn. split; [by intros []; [apply (Hh true)|apply (Hh false)]|done|]. intros HD.
  destruct (Hi HD) as [_ Ht Ho Hf]. split; [by apply Hn| |done|done]. intros k. destruct (Ht k) as [T1 T2]. by split; [|destruct k].
Qed.

Lemma items_pop_perm r rp rp' x : litems rp' ≡ₚ x :: litems rp -> items r rp' ≡ₚ x :: items r rp.
Proof. intros Hp. unfold items. rewrite Hp, !(assoc_L (++)). symmetry. apply Permutation_middle. Qed.

Lemma inv_push_pop q r rp x :
  inv q r rp -> c <= priority x < c + 2 ^ 63 -> (D -> value x ∉ map value (items r rp)) ->
  exists s rp', heap_Push (H := lazy_heap B) (popQueue q) x = Some s /\ inv (put_pop q s) r rp' /\ litems rp' ≡ₚ x :: litems rp.
Proof.
  intros Hi Hb Hx. destruct (holds_Push _ _ x (inv_pop _ _ _ Hi) Hb) as (s & rp' & E & _ & Hs & Hp). exists s, rp'. split; [done|].
  split; [|done]. eapply inv_put_pop; [done|done|]. intros HD.
  eapply NoDup_join; [by apply items_pop_perm|by apply Hx|apply (ix_nodup _ _ _ (inv_ix _ _ _ Hi HD))].
Qed.

Lemma inv_pop_pop q r rp :
  inv q r rp -> litems rp <> [] ->
  exists x s rp', heap_Pop (H := lazy_heap B) (popQueue q) = Some (x, s) /\ inv (put_pop q s) r rp' /\ litems rp ≡ₚ x :: litems rp' /\
    Prque_Peek (popQueue q) = Some (value x, priority x) /\ (forall z, z ∈ litems rp -> priority z <= priority x).
Proof.
  intros Hi Hne. destruct (holds_Pop _ _ (inv_pop _ _ _ Hi) Hne) as (x & s & rp' & E & _ & Hs & Hp & Hk & Hm).
  exists x, s, rp'. split; [done|]. split; [|done]. eapply inv_put_pop; [done|done|]. intros HD.
  eapply NoDup_leave; [by apply items_pop_perm|apply (ix_nodup _ _ _ (inv_ix _ _ _ Hi HD))].
Qed.

(** ** Loops *)

(** Estimates hold for the time they were made for: until the next refresh in
    the first half, until the one after it in the second. *)
Definition until (q : LazyQueue) (k : bool) : Z := if k then maxUntil q else maxUntil q - period.
Definition valid (now : Z) (q : LazyQueue) (r : bool -> lqueue) : Prop :=
  forall k x t, x ∈ litems (r k) -> now <= t <= until q k -> priorityAt (value x) t <= priority x.

Context (Hperiod : 0 <= period).
Context (Hest : forall now v t u, now <= t <= u -> priorityAt v t <= maxPriority now v u).

Lemma valid_same now q q' r : maxUntil q' = maxUntil q -> valid now q r -> valid now q' r.
Proof. intros E Hv k x t. unfold until. rewrite E. apply Hv. Qed.

Lemma valid_upd now q r k r' :
  valid now q r -> (forall x, x ∈ litems r' -> x ∈ litems (r k) \/ forall t, now <= t <= until q k -> priorityAt (value x) t <= priority x) ->
  valid now q (upd r k r').
Proof.
  intros Hv Hn k' x t Hx Ht. unfold upd in Hx. destruct (Bool.eqb k k') eqn:E; [|by apply (Hv k')].
  apply Bool.eqb_prop in E as <-. destruct (Hn x Hx) as [H|H]; [by apply (Hv k)|by apply H].
Qed.

Lemma valid_leave now q r k r' x : valid now q r -> litems (r k) ≡ₚ x :: litems r' -> valid now q (upd r k r').
Proof. intros Hv Hp. apply valid_upd; [done|]. intros y Hy. left. rewrite Hp. by right. Qed.

Lemma maxUntil_put q k s : maxUntil (put q k s) = maxUntil q.
Proof. by destruct k. Qed.

(** Push of a value, with its estimate. *)
Lemma Push_valid now q r rp v :
  inv q r rp -> valid now q r -> (D -> v ∉ map value (items r rp)) ->
  exists q' r', Push B maxPriority now q v = Some q' /\ inv q' r' rp /\ valid now q' r' /\ maxUntil q' = maxUntil q /\
    map value (items r' rp) ≡ₚ v :: map value (items r rp) /\ litems (r' false) = litems (r false).
Proof.
  intros Hi Hv Hn. destruct (inv_Push now q r rp v Hi Hn) as (s & r' & E & Hi' & Hp). exists (put q true s), (upd r true r').
  split_and!; [done|done| |done| |done].
  - apply (valid_same now q); [done|]. apply valid_upd; [done|]. intros x Hx. rewrite Hp in Hx. apply elem_of_cons in Hx as [->|Hx]; [right|by left].
    intros t Ht. by apply Hest.
  - rewrite <- map_value_cons with (x := Item v (maxPriority now v (maxUntil q))). apply values_perm.
    by rewrite items_upd, (items_half r rp true), Hp.
Qed.

Lemma refresh_items_ok now fuel : forall q r rp,
  inv q r rp -> (length (litems (r false)) <= fuel)%nat ->
  (forall x t, x ∈ litems (r true) -> now <= t <= maxUntil q -> priorityAt (value x) t <= priority x) ->
  exists q' r', refresh_items B maxPriority now fuel q = Some q' /\ inv q' r' rp /\ litems (r' false) = [] /\ maxUntil q' = maxUntil q /\
    map value (items r' rp) ≡ₚ map value (items r rp) /\
    (forall x t, x ∈ litems (r' true) -> now <= t <= maxUntil q -> priorityAt (value x) t <= priority x).
Proof.
  induction fuel as [|fuel IH]; intros q r rp Hi Hf Hv; cbn [refresh_items]; destruct (_ =? 0)%nat eqn:E0.
  1, 3: apply (holds_empty _ _ (inv_half _ _ _ Hi false)) in E0; exists q, r; done.
  - assert (litems (r false) = []) as E by (apply nil_length_inv; lia). apply (holds_empty _ _ (inv_half _ _ _ Hi false)) in E.
    change (queue q false) with (queue0 q) in E. by rewrite E in E0.
  - assert (litems (r false) <> []) as Hne.
    { intros E. apply (holds_empty _ _ (inv_half _ _ _ Hi false)) in E. change (queue q false) with (queue0 q) in E. by rewrite E in E0. }
    destruct (inv_pop_half q r rp false Hi Hne) as (x & s & r1 & E & Hi1 & Hp & Hall & _ & _). change (queue q false) with (queue0 q) in E.
    rewrite E. cbn [mbind option_bind].
    destruct (inv_Push now _ _ _ (value x) Hi1) as (s2 & r2 & E2 & Hi2 & Hp2).
    { intros HD. eapply NoDup_leave; [exact Hall|]. apply (ix_nodup _ _ _ (inv_ix _ _ _ Hi HD)). }
    rewrite E2. cbn [mbind option_bind]. rewrite maxUntil_put in Hp2. change (upd r false r1 true) with (r true) in Hp2.
    destruct (IH _ _ _ Hi2) as (q' & r' & E' & Hi' & H0 & Hm & Hval & Hv').
    + change (upd (upd r false r1) true r2 false) with r1. apply Permutation_length in Hp. simpl in Hp. lia.
    + change (upd (upd r false r1) true r2 true) with r2. intros y t Hy Ht. rewrite Hp2 in Hy. apply elem_of_cons in Hy as [->|Hy]; [by apply Hest|by apply Hv].
    + exists q', r'. split_and!; [done|done|done|done| |done]. rewrite Hval. symmetry. rewrite (values_perm _ _ Hall), map_value_cons.
      rewrite (values_perm (items (upd _ true _) _) _ (items_upd _ _ _ _)). rewrite (values_perm _ _ (items_half (upd r false r1) rp true)).
      rewrite !map_app, (values_perm _ _ Hp2). done.
Qed.

Lemma put_back_ok now fuel : forall q r rp,
  inv q r rp -> valid now q r -> (length (litems rp) <= fuel)%nat ->
  exists q' r' rp', put_back B maxPriority now fuel q = Some q' /\ inv q' r' rp' /\ valid now q' r' /\ litems rp' = [] /\
    map value (items r' rp') ≡ₚ map value (items r rp) /\ maxUntil q' = maxUntil q.
Proof.
  induction fuel as [|fuel IH]; intros q r rp Hi Hv Hf; cbn [put_back]; destruct (_ =? 0)%nat eqn:E0.
  1, 3: apply (holds_empty _ _ (inv_pop _ _ _ Hi)) in E0; by exists q, r, rp.
  - assert (litems rp = []) as E by (apply nil_length_inv; lia). apply (holds_empty _ _ (inv_pop _ _ _ Hi)) in E. by rewrite E in E0.
  - assert (litems rp <> []) as Hne by (intros E; apply (holds_empty _ _ (inv_pop _ _ _ Hi)) in E; by rewrite E in E0).
    destruct (inv_pop_pop q r rp Hi Hne) as (x & s & rp1 & E & Hi1 & Hp & _). rewrite E. cbn [mbind option_bind].
    destruct (Push_valid now (put_pop q s) r rp1 (value x) Hi1 Hv) as (q2 & r2 & E2 & Hi2 & Hv2 & Hm2 & Hp2 & _).
    { intros HD. eapply NoDup_leave; [by apply items_pop_perm|]. apply (ix_nodup _ _ _ (inv_ix _ _ _ Hi HD)). }
    rewrite E2. cbn [mbind option_bind]. destruct (IH q2 r2 rp1 Hi2 Hv2) as (q' & r' & rp' & E' & Hi' & Hv' & H0 & Hp' & Hm').
    { apply Permutation_length in Hp. simpl in Hp. lia. }
    exists q', r', rp'. split_and!; [done|done|done|done| |by rewrite Hm', Hm2]. rewrite Hp', Hp2. symmetry.
    by rewrite (values_perm _ _ (items_pop_perm r rp1 rp x Hp)).
Qed.

(** The half that peekIndex names has the highest estimate of all. *)
Definition next_ok (nextIndex : option bool) (q : LazyQueue) (r : bool -> lqueue) : Prop :=
  match nextIndex with
  | None => forall k, litems (r k) = []
  | Some k => litems (r k) <> [] /\ exists v p, Prque_Peek (stack (queue q k)) = Some (v, p) /\ forall k' z, z ∈ litems (r k') -> priority z <= p
  end.

Lemma peekIndex_ok q r rp : inv q r rp -> exists nextIndex, peekIndex q = Some nextIndex /\ next_ok nextIndex q r.
Proof.
  intros Hi. unfold peekIndex. pose proof (holds_empty _ _ (inv_half _ _ _ Hi false)) as H0. pose proof (holds_empty _ _ (inv_half _ _ _ Hi true)) as H1.
  cbn [queue] in H0, H1. assert (Hk : forall k, litems (r k) <> [] -> exists x, Prque_Peek (stack (queue q k)) = Some (value x, priority x) /\
    forall z, z ∈ litems (r k) -> priority z <= priority x).
  { intros k Hne. destruct (inv_pop_half q r rp k Hi Hne) as (x & s & r' & _ & _ & _ & _ & H). by exists x. }
  destruct (s_size (stack (queue0 q)) =? 0)%nat; destruct (s_size (stack (queue1 q)) =? 0)%nat; cbn [negb].
  - exists None. split; [done|]. intros []; [by apply H1|by apply H0].
  - exists (Some true). split; [done|]. assert (Hne : litems (r true) <> []) by (intros E; by apply H1 in E). split; [done|].
    destruct (Hk true Hne) as (x & Ex & Hx). exists (value x), (priority x). split; [done|]. intros []; [done|]. intros z Hz.
    assert (litems (r false) = []) as E by (by apply H0). by rewrite E in Hz; apply elem_of_nil in Hz.
  - exists (Some false). split; [done|]. assert (Hne : litems (r false) <> []) by (intros E; by apply H0 in E). split; [done|].
    destruct (Hk false Hne) as (x & Ex & Hx). exists (value x), (priority x). split; [done|]. intros []; [|done]. intros z Hz.
    assert (litems (r true) = []) as E by (by apply H1). by rewrite E in Hz; apply elem_of_nil in Hz.
  - assert (N0 : litems (r false) <> []) by (intros E; by apply H0 in E). assert (N1 : litems (r true) <> []) by (intros E; by apply H1 in E).
    destruct (Hk false N0) as (x & Ex & Hx), (Hk true N1) as (y & Ey & Hy). cbn [queue] in Ex, Ey. rewrite Ex, Ey. cbn [mbind option_bind snd].
    eexists. split; [done|]. destruct (Z.ltb_spec (priority x) (priority y)).
    + split; [done|]. exists (value y), (priority y). split; [done|]. intros [] z Hz; [by apply Hy|]. apply Hx in Hz. lia.
    + split; [done|]. exists (value x), (priority x). split; [done|]. intros [] z Hz; [|by apply Hx]. apply Hy in Hz. lia.
Qed.

Section handing.
  Context {C : Type} (callback : C -> nat -> Z -> C * bool).

Definition evaluated (now : Z) (rp : lqueue) : Prop := forall z, z ∈ litems rp -> priority z = priorityAt (value z) now.

Lemma hand_one now q r rp rp' x :
  valid now q r -> now <= maxUntil q - period -> evaluated now rp -> litems rp ≡ₚ x :: litems rp' ->
  (forall z, z ∈ litems rp -> priority z <= priority x) -> (forall k z, z ∈ litems (r k) -> priority z <= priority x) ->
  handed priorityAt now (map value (items r rp)) (map value (items r rp')) [(value x, priority x)].
Proof.
  intros Hv Hn He Hp Hx Hr. split.
  - repeat constructor.
  - intros e ->%list_elem_of_singleton. apply He. rewrite Hp. by left.
  - by rewrite (values_perm _ _ (items_pop_perm r rp' rp x Hp)).
  - intros e w ->%list_elem_of_singleton Hw. apply list_elem_of_fmap in Hw as (z & -> & Hz). cbn [snd].
    assert (Hk : forall k, z ∈ litems (r k) -> priorityAt (value z) now <= priority x).
    { intros k Hz'. pose proof (Hv k z now Hz') as L. pose proof (Hr k z Hz'). destruct k; cbn [until] in L; lia. }
    unfold items in Hz. apply elem_of_app in Hz as [Hz|Hz]; [by apply (Hk false)|]. apply elem_of_app in Hz as [Hz|Hz]; [by apply (Hk true)|].
    assert (Hz' : z ∈ litems rp) by (rewrite Hp; by right). rewrite <- (He z Hz'). by apply Hx.
Qed.

Lemma hand_out_ok now fuel : forall nextIndex st q r rp,
  inv q r rp -> valid now q r -> now <= maxUntil q - period -> evaluated now rp -> next_ok nextIndex q r -> (length (litems rp) <= fuel)%nat ->
  exists st' q' stop r' rp' tr, hand_out B maxPriority callback now fuel nextIndex st q = Some (st', q', stop) /\
    inv q' r' rp' /\ valid now q' r' /\ maxUntil q' = maxUntil q /\ called callback st tr = Some (st', negb stop) /\
    handed priorityAt now (map value (items r rp)) (map value (items r' rp')) tr /\ evaluated now rp' /\
    if (stop : bool) then litems rp' = [] else r' = r /\ next_ok nextIndex q' r' /\ (nextIndex = None -> litems rp' = []).
Proof.
  induction fuel as [|fuel IH]; intros nextIndex st q r rp Hi Hv Hn He Hnext Hf; cbn [hand_out]; destruct (_ =? 0)%nat eqn:E0.
  1, 3: apply (holds_empty _ _ (inv_pop _ _ _ Hi)) in E0; exists st, q, false, r, rp, []; split_and!; try done; by apply handed_nil.
  { assert (litems rp = []) as E by (apply nil_length_inv; lia). apply (holds_empty _ _ (inv_pop _ _ _ Hi)) in E. by rewrite E in E0. }
  assert (litems rp <> []) as Hne by (intros E; apply (holds_empty _ _ (inv_pop _ _ _ Hi)) in E; by rewrite E in E0).
  destruct (inv_pop_pop q r rp Hi Hne) as (x & s & rp1 & E & Hi1 & Hp & Hpk & Hx).
  set (go := match nextIndex with None => _ | Some k => _ end).
  assert (Hgo : (go = Some false /\ nextIndex <> None) \/ (go = Some true /\ forall k z, z ∈ litems (r k) -> priority z <= priority x)).
  { subst go. destruct nextIndex as [k|]; [|right; split; [done|]; intros k z; by rewrite (Hnext k); intros ?%elem_of_nil].
    destruct Hnext as (_ & v & p & -> & Hz). rewrite Hpk. cbn [mbind option_bind snd]. destruct (Z.ltb_spec p (priority x)); [right|by left].
    split; [done|]. intros k' z Hz'. apply Hz in Hz'. lia. }
  destruct Hgo as [[-> Hsome]|[-> Hall]]; cbn [mbind option_bind negb].
  { exists st, q, false, r, rp, []. split_and!; try done. by apply handed_nil. }
  rewrite E. cbn [mbind option_bind]. pose proof (hand_one now q r rp rp1 x Hv Hn He Hp Hx Hall) as Hh.
  assert (He1 : evaluated now rp1) by (intros z Hz; apply He; rewrite Hp; by right).
  destruct (callback st (value x) (priority x)) as [st1 more] eqn:Ecb. destruct more; cbn [negb].
  - destruct (IH nextIndex st1 (put_pop q s) r rp1 Hi1 Hv Hn He1) as (st' & q' & stop & r' & rp' & tr & E' & Hi' & Hv' & Hm & Hc' & Hh' & Hr').
    { by destruct nextIndex as [[]|]. }
    { apply Permutation_length in Hp. simpl in Hp. lia. }
    exists st', q', stop, r', rp', ((value x, priority x) :: tr). split_and!; try done.
    + cbn [called]. by rewrite Ecb.
    + by apply (handed_app _ _ _ _ _ _ _ Hh).
    + apply Hr'.
    + apply Hr'.
  - destruct (put_back_ok now (s_size (popQueue (put_pop q s))) (put_pop q s) r rp1 Hi1 Hv) as (q' & r' & rp' & E' & Hi' & Hv' & H0 & Hp' & Hm').
    { by rewrite (holds_size _ _ (inv_pop _ _ _ Hi1)). }
    rewrite E'. cbn [mbind option_bind]. exists st1, q', true, r', rp', [(value x, priority x)]. split_and!; try done.
    + cbn [called]. by rewrite Ecb.
    + apply (handed_app _ _ _ _ _ [_] [] Hh). by apply handed_nil.
    + intros z. rewrite H0. by intros ?%elem_of_nil.
Qed.

Lemma items_move r rp rp' k r1 x y :
  items r rp ≡ₚ x :: items (upd r k r1) rp -> litems rp' ≡ₚ y :: litems rp -> value y = value x ->
  map value (items (upd r k r1) rp') ≡ₚ map value (items r rp).
Proof.
  intros H1 H2 E. rewrite (values_perm _ _ (items_pop_perm (upd r k r1) rp rp' y H2)), (values_perm _ _ H1), !map_value_cons. by rewrite E.
Qed.

Lemma multipop_ok now fuel : forall nextIndex st q r rp,
  inv q r rp -> valid now q r -> now <= maxUntil q - period -> evaluated now rp -> next_ok nextIndex q r ->
  (nextIndex = None -> litems rp = []) -> (length (litems (r false)) + length (litems (r true)) <= fuel)%nat ->
  exists st' q' r' rp' tr more, multipop B priorityAt maxPriority callback now fuel nextIndex st q = Some (st', q') /\
    inv q' r' rp' /\ valid now q' r' /\ maxUntil q' = maxUntil q /\ litems rp' = [] /\ called callback st tr = Some (st', more) /\
    handed priorityAt now (map value (items r rp)) (map value (items r' rp')) tr /\ (more = true -> items r' rp' = []).
Proof.
  induction fuel as [|fuel IH]; intros nextIndex st q r rp Hi Hv Hn He Hnext Hnone Hf; cbn [multipop]; destruct nextIndex as [k|].
  2, 4: exists st, q, r, rp, [], true; split_and!; try done; [by apply Hnone|by apply handed_nil|];
        intros _; unfold items; by rewrite !Hnext, Hnone.
  { exfalso. destruct Hnext as [Hne _]. apply Hne, nil_length_inv. destruct k; lia. }
  destruct Hnext as [Hne _].
  destruct (inv_pop_half q r rp k Hi Hne) as (x & s & r1 & E & Hi1 & Hp & Hall & _). rewrite E. cbn [mbind option_bind].
  destruct (inv_push_pop (put q k s) (upd r k r1) rp (Item (value x) (priorityAt (value x) now)) Hi1 (Hpri _ _)) as (s2 & rp2 & E2 & Hi2 & Hp2).
  { intros HD. cbn [value]. eapply (NoDup_leave _ _ x); [exact Hall|]. apply (ix_nodup _ _ _ (inv_ix _ _ _ Hi HD)). }
  rewrite E2. cbn [mbind option_bind]. set (q2 := put_pop (put q k s) s2) in *.
  assert (Hm2 : maxUntil q2 = maxUntil q) by (apply (maxUntil_put q k s)).
  assert (Hv2 : valid now q2 (upd r k r1)) by (apply (valid_same now q); [done|]; by eapply valid_leave).
  assert (He2 : evaluated now rp2).
  { intros z Hz. rewrite Hp2 in Hz. apply elem_of_cons in Hz as [->|Hz]; [done|by apply He]. }
  destruct (peekIndex_ok q2 _ _ Hi2) as (next & -> & Hnx). cbn [mbind option_bind].
  destruct (hand_out_ok now (s_size (popQueue q2)) next st q2 (upd r k r1) rp2 Hi2 Hv2 ltac:(lia) He2 Hnx)
    as (st3 & q3 & stop & r3 & rp3 & tr & E3 & Hi3 & Hv3 & Hm3 & Hc3 & Hh3 & He3 & Hr3).
  { by rewrite (holds_size _ _ (inv_pop _ _ _ Hi2)). }
  rewrite E3. cbn [mbind option_bind].
  assert (Hmv : handed priorityAt now (map value (items r rp)) (map value (items (upd r k r1) rp2)) []).
  { apply handed_nil. symmetry. by eapply items_move. }
  destruct stop.
  - exists st3, q3, r3, rp3, tr, false. split_and!; try done; [lia|]. exact (handed_app _ _ _ _ _ [] _ Hmv Hh3).
  - destruct Hr3 as (-> & Hnx3 & Hno3). destruct (IH next st3 q3 _ rp3 Hi3 Hv3 ltac:(lia) He3 Hnx3 Hno3)
      as (st' & q' & r' & rp' & tr' & more & E' & Hi' & Hv' & Hm' & H0' & Hc' & Hh' & Hmo').
    { apply Permutation_length in Hp. simpl in Hp. destruct k; cbn [upd Bool.eqb] in *; lia. }
    exists st', q', r', rp', (tr ++ tr'), more. split_and!; try done; [lia| |].
    + by rewrite (called_app callback st st3).
    + exact (handed_app _ _ _ _ _ [] _ Hmv (handed_app _ _ _ _ _ _ _ Hh3 Hh')).
Qed.
End handing.

(** ** What the queue promises *)

(** The queue holds these values, with estimates that hold from [now] on. *)
Definition lazy_holds (now : Z) (q : LazyQueue) (l : list nat) : Prop :=
  exists r rp, inv q r rp /\ litems rp = [] /\ valid now q r /\ map value (items r rp) ≡ₚ l.

Lemma lazy_Push now q l v : lazy_holds now q l -> (D -> v ∉ l) ->
  exists q', Push B maxPriority now q v = Some q' /\ lazy_holds now q' (v :: l) /\ maxUntil q' = maxUntil q.
Proof.
  intros (r & rp & Hi & H0 & Hv & Hp) Hn. destruct (Push_valid now q r rp v Hi Hv) as (q' & r' & E & Hi' & Hv' & Hm & Hp' & _).
  { intros HD. rewrite Hp. by apply Hn. }
  exists q'. split; [done|]. split; [|done]. exists r', rp. split_and!; try done. by rewrite Hp', Hp.
Qed.

Lemma lazy_later now now' q l : now <= now' -> lazy_holds now q l -> lazy_holds now' q l.
Proof. intros Hn (r & rp & Hi & H0 & Hv & Hp). exists r, rp. split_and!; try done. intros k x t Hx Ht. apply (Hv k); [done|lia]. Qed.

Lemma inv_swap q r rp :
  inv q r rp -> inv (MkLazy (queue1 q) (queue0 q) (popQueue q) (i64 (maxUntil q + period)) (1 - indexOffset q) (calls q)) (fun k => r (negb k)) rp.
Proof.
  intros [Hh Hp Hi]. split; [intros []; [apply (Hh false)|apply (Hh true)]|done|]. intros HD. destruct (Hi HD) as [Hn Ht Ho Hf].
  split; cbn [queue0 queue1 indexOffset].
  - rewrite (values_perm _ _ (items_half r rp true)) in Hn. exact Hn.
  - intros k. destruct (Ht (negb k)) as [T1 T2]. split; [done|]. intros i x Hx. pose proof (T2 i x Hx). by destruct k.
  - rewrite Ho. by destruct (odd (queue0 q)).
  - rewrite Hf, Ho. by destruct (odd (queue0 q)).
Qed.

Lemma lazy_Refresh now q l :
  lazy_holds now q l -> now <= maxUntil q - period \/ l = [] -> - 2 ^ 63 <= now -> now + 2 * period < 2 ^ 63 ->
  exists q', Refresh B maxPriority period now q = Some q' /\ lazy_holds now q' l /\ maxUntil q' = now + 2 * period.
Proof.
  intros (r & rp & Hi & H0 & Hv & Hp) Hn Hlo Hhi. unfold Refresh.
  assert (E1 : i64 (now + period) = now + period) by (apply i64_unique; [lia|done]).
  assert (E2 : i64 (now + period + period) = now + 2 * period) by (apply i64_unique; [lia|f_equal; lia]).
  assert (Hi1 : inv (set_maxUntil q (now + period)) r rp).
  { destruct Hi as [Hh Hpo Hix]. split; [by intros []; [apply (Hh true)|apply (Hh false)]|done|]. intros HD. destruct (Hix HD) as [N T O F].
    split; try done. intros k. destruct (T k). by split; [|destruct k]. }
  destruct (refresh_items_ok now (s_size (stack (queue0 q))) (set_maxUntil q (now + period)) r rp Hi1) as (q1 & r1 & E & Hi2 & Hr & Hm & Hpv & Hv2).
  { by rewrite <- (holds_size _ _ (inv_half _ _ _ Hi false)). }
  { intros x t Hx Ht. cbn [maxUntil set_maxUntil] in Ht. destruct Hn as [Hn| ->]; [apply (Hv true); [done|]; cbn [until]; lia|].
    apply Permutation_nil_r, (f_equal length) in Hp. unfold items in Hp. rewrite length_map, !length_app in Hp. apply list_elem_of_lookup_1 in Hx as [j Hj].
    apply lookup_lt_Some in Hj. simpl in Hp. lia. }
  rewrite E1, E. cbn [mbind option_bind]. eexists. split; [reflexivity|]. cbn [maxUntil set_maxUntil] in Hm, Hv2. rewrite Hm, E2. split; [|done].
  exists (fun k => r1 (negb k)), rp. split_and!.
  - apply inv_swap in Hi2. by rewrite Hm, E2 in Hi2.
  - done.
  - intros [] x t Hx Ht; cbn [until maxUntil negb] in *; [by rewrite Hr in Hx; apply elem_of_nil in Hx|]. apply Hv2; [done|lia].
  - rewrite <- Hp, <- Hpv. apply values_perm. by rewrite (items_half r1 rp true).
Qed.

Lemma lazy_MultiPop {C} (callback : C -> nat -> Z -> C * bool) now st q l :
  lazy_holds now q l -> now <= maxUntil q - period ->
  exists st' q' l' tr more, MultiPop B priorityAt maxPriority callback now st q = Some (st', q') /\ lazy_holds now q' l' /\
    called callback st tr = Some (st', more) /\ handed priorityAt now l l' tr /\ (more = true -> l' = []) /\ maxUntil q' = maxUntil q.
Proof.
  intros (r & rp & Hi & H0 & Hv & Hp) Hn. unfold MultiPop. destruct (peekIndex_ok q r rp Hi) as (next & -> & Hnx). cbn [mbind option_bind].
  destruct (multipop_ok callback now (s_size (stack (queue0 q)) + s_size (stack (queue1 q))) next st q r rp Hi Hv Hn)
    as (st' & q' & r' & rp' & tr & more & E & Hi' & Hv' & Hm & H0' & Hc' & Hh & Hmo); try done.
  { intros z. rewrite H0. by intros ?%elem_of_nil. }
  { by rewrite <- (holds_size _ _ (inv_half _ _ _ Hi false)), <- (holds_size _ _ (inv_half _ _ _ Hi true)). }
  exists st', q', (map value (items r' rp')), tr, more. split_and!; try done.
  - by exists r', rp'.
  - destruct Hh as [S1 E1 P1 G1]. split; try done. by rewrite P1.
  - intros Hmore. by rewrite Hmo.
Qed.

Lemma index_offset_bit (o b : bool) i :
  0 <= i ->
  Z.lxor (Z.land (snd (set_index o (0%nat, i))) 1) (if b then 1 else 0) = (if Bool.eqb o b then 0 else 1) /\
  Z.shiftr (snd (set_index o (0%nat, i))) 1 = i.
Proof.
  intros Hi. assert (E : snd (set_index o (0%nat, i)) = 2 * i + (if o then 1 else 0)).
  { destruct o; cbn [set_index setIndex0 setIndex1 snd]; [lia|]. destruct (Z.eqb_spec i (-1)); lia. }
  rewrite E. change 1 with (Z.ones 1) at 2. rewrite Z.land_ones, Z.shiftr_div_pow2 by lia. change (2 ^ 1) with 2.
  rewrite (Z.mul_comm 2 i), Z.add_comm, Z.mod_add, Z.div_add by lia. by destruct o, b.
Qed.

(** Remove with the index last told for a value removes that value. *)
Lemma lazy_Remove now q l v i :
  D -> lazy_holds now q l -> v ∈ l -> told (calls q) v = Some i ->
  exists q' l', Remove B q i = Some (Some v, q') /\ l ≡ₚ v :: l' /\ lazy_holds now q' l' /\ maxUntil q' = maxUntil q.
Proof.
  intros HD (r & rp & Hi & H0 & Hv & Hp) Hin Ht. destruct (inv_ix _ _ _ Hi HD) as [Hn HT Ho Hf].
  rewrite <- Hp in Hin. apply list_elem_of_fmap in Hin as (x & -> & Hx). unfold items in Hx. rewrite H0, app_nil_r in Hx.
  assert (exists k j, litems (r k) !! j = Some x) as (k & j & Hj).
  { apply elem_of_app in Hx as [Hx|Hx]; apply list_elem_of_lookup_1 in Hx as [j Hj]; [by exists false, j|by exists true, j]. }
  rewrite (ht_told _ _ _ (HT k) j x Hj) in Ht. injection Ht as <-.
  destruct (inv_remove_half q r rp k j x Hi Hj) as (s & r' & E & Hi' & Hpk & Hall).
  assert (Es : snd (set_index (odd (queue q k)) (value x, Z.of_nat j)) = snd (set_index (odd (queue q k)) (0%nat, Z.of_nat j))) by (by destruct (odd (queue q k))).
  destruct (index_offset_bit (odd (queue q k)) (odd (queue0 q)) (Z.of_nat j) ltac:(lia)) as [B1 B2].
  exists (put q k s), (map value (items (upd r k r') rp)). unfold Remove. rewrite Es, Hf, B1, B2, Nat2Z.id.
  assert (0 <= snd (set_index (odd (queue q k)) (0%nat, Z.of_nat j))) as Hpos.
  { destruct (odd (queue q k)); cbn [set_index setIndex0 setIndex1 snd]; [lia|]. destruct (Z.eqb_spec (Z.of_nat j) (-1)); lia. }
  destruct (Z.ltb_spec (snd (set_index (odd (queue q k)) (0%nat, Z.of_nat j))) 0); [lia|].
  assert ((if (if Bool.eqb (odd (queue q k)) (odd (queue0 q)) then 0 else 1) =? 0 then Some false
           else if (if Bool.eqb (odd (queue q k)) (odd (queue0 q)) then 0 else 1) =? 1 then Some true else None) = Some k) as ->.
  { destruct k; cbn [queue]; [rewrite Ho|]; by destruct (odd (queue0 q)). }
  cbn [mbind option_bind]. rewrite E. cbn [mbind option_bind]. split; [done|]. split; [by rewrite <- Hp, (values_perm _ _ Hall)|].
  split; [|apply maxUntil_put]. exists (upd r k r'), rp. split_and!; [done|done| |done].
  apply (valid_same now q); [apply maxUntil_put|]. by eapply valid_leave.
Qed.

Lemma holds_new ix ev : holds (newSstack B ix ev) (LQueue [] ix ev).
Proof.
  split; [|apply queue_ok_nil|constructor]. destruct (rep_new B ix HB). by split.
Qed.

Lemma lazy_new now : - 2 ^ 63 <= now -> now + 2 * period < 2 ^ 63 ->
  exists q, NewLazyQueue B maxPriority period now = Some q /\ lazy_holds now q [] /\ maxUntil q = now + 2 * period.
Proof.
  intros Hlo Hhi. unfold NewLazyQueue. apply lazy_Refresh; [|by right|done|done].
  exists (fun _ => LQueue [] true []), (LQueue [] false []). split_and!; [|done| |done].
  - split; [intros []; apply holds_new|apply holds_new|]. intros _. split; [constructor| |done|done].
    intros k. split; [|intros i x Hx; discriminate Hx]. split; [done|constructor|intros i x Hx; discriminate Hx].
  - intros k x t Hx. by apply elem_of_nil in Hx.
Qed.

Lemma lazy_Pop now q l :
  lazy_holds now q l -> now <= maxUntil q - period ->
  match l with
  | [] => exists q', Pop B priorityAt maxPriority now q = Some (None, q') /\ lazy_holds now q' []
  | _ => exists v q' l', Pop B priorityAt maxPriority now q = Some (Some (v, priorityAt v now), q') /\ l ≡ₚ v :: l' /\
      lazy_holds now q' l' /\ maxUntil q' = maxUntil q /\ forall w, w ∈ l -> priorityAt w now <= priorityAt v now
  end.
Proof.
  intros Hl Hn. destruct (lazy_MultiPop (fun _ data pri => (Some (data, pri), false)) now None q l Hl Hn)
    as (st' & q' & l' & tr & more & E & Hl' & Hc' & [_ Hex Hpe Hgr] & Hmo & Hm). unfold Pop. rewrite E.
  destruct tr as [|[v p] tr]; cbn [called] in Hc'.
  - injection Hc' as <- <-. specialize (Hmo eq_refl). subst l'. cbn in Hpe. apply Permutation_nil_l in Hpe. subst l. by exists q'.
  - destruct tr; [|done]. injection Hc' as <- <-. pose proof (Hex (v, p) ltac:(by left)) as Ep. cbn in Ep, Hpe. subst p.
    destruct l as [|w l]; [by apply Permutation_sym, Permutation_nil_cons in Hpe|].
    exists v, q', l'. split_and!; try done. intros u Hu. rewrite <- Hpe in Hu. apply elem_of_cons in Hu as [->|Hu]; [lia|].
    by apply (Hgr (v, priorityAt v now) u ltac:(by left)).
Qed.

Lemma lazy_Size now q l : lazy_holds now q l -> Size q = length l /\ (Empty q = true <-> l = []).
Proof.
  intros (r & rp & Hi & H0 & Hv & Hp). apply Permutation_length in Hp. unfold items in Hp. rewrite H0, app_nil_r, length_map, length_app in Hp.
  pose proof (holds_size _ _ (inv_half _ _ _ Hi false)) as S0. pose proof (holds_size _ _ (inv_half _ _ _ Hi true)) as S1. cbn [queue] in S0, S1. unfold Size, Empty. rewrite S0, S1. split; [done|]. rewrite andb_true_iff, !Nat.eqb_eq. split.
  - intros [H1 H2]. apply nil_length_inv. lia.
  - intros ->. cbn in Hp. lia.
Qed.
End invariant.

(** ** Reset *)

(** Reset empties the queue; its indices are right if the side that an even index
    names was the first one. *)
Lemma lazy_Reset B priorityAt period c (D D' : Prop) now q l :
  (0 < B)%nat -> lazy_holds B priorityAt period c D now q l -> (D' -> indexOffset q = 0) -> lazy_holds B priorityAt period c D' now (Reset B q) [].
Proof.
  intros HB (r & rp & Hi & H0 & _ & _) Ho. exists (fun _ => LQueue [] true []), rp. split_and!; [|done| |by unfold items; rewrite H0].
  - split; [intros []; by apply holds_new|apply Hi|]. intros HD. split; [by unfold items; rewrite H0; constructor| |done|by rewrite <- (Ho HD)].
    intros k. split; [|intros i x Hx; discriminate Hx]. split; [done|constructor|intros i x Hx; discriminate Hx].
  - intros k x t Hx. by apply elem_of_nil in Hx.
Qed.

(** Otherwise the index reported for the first value is refused with a panic. *)
Lemma lazy_Reset_swapped B maxPriority now q v : (0 < B)%nat -> indexOffset q = 1 ->
  exists q', Push B maxPriority now (Reset B q) v = Some q' /\ told (calls q') v = Some 1 /\ Remove B q' 1 = None.
Proof.
  intros HB Ho. set (x := Item v (maxPriority now v (maxUntil (Reset B q)))).
  destruct (stack_Push B HB (priority x) (newSstack B true []) (LQueue [] true []) x) as (s & r & E & Er & Hr & _); [by destruct (rep_new B true HB); split|apply queue_ok_nil| |].
  { constructor; [|constructor]. unfold rank. rewrite Z.sub_diag. done. }
  change (sstack_heap B) with (lazy_heap B) in E. exists (put (Reset B q) true s). split; [unfold Push; fold x; cbn [Reset queue1 stack]; by rewrite E|]. split.
  - cbn in Er. injection Er as <-. unfold put. cbn [queue Reset queue1 stack odd newSstack events length drop calls]. rewrite (rep_events _ _ _ Hr). change (told (calls q ++ [(v, 1)]) v = Some 1). by rewrite told_snoc, decide_True.
  - unfold Remove. cbn [Z.ltb Z.compare]. change (Z.land 1 1) with 1. cbn [indexOffset put queue Reset]. rewrite Ho. done.
Qed.

(** ** Theorems *)

(** The contract of the callbacks: the estimate asked for at [now] bounds the
    priority at every moment from then until the given time, and all priorities
    fit a window of 2^63 values. *)
Record callbacks_ok (priorityAt : nat -> Z -> Z) (maxPriority : Z -> nat -> Z -> Z) (period c : Z) : Prop := {
  cb_priority : forall v t, c <= priorityAt v t < c + 2 ^ 63;
  cb_estimate : forall now v t, c <= maxPriority now v t < c + 2 ^ 63;
  cb_period : 0 <= period;
  cb_bound : forall now v t u, now <= t <= u -> priorityAt v t <= maxPriority now v u
}.

(** C34: The lazy queue is a multiset of values ordered by their priorities of the
    moment.  With callbacks that keep their contract, as long as Refresh is called
    in time: a new queue is empty; Size and Empty tell the number of values; Push
    adds a value; Refresh changes nothing but the time until the next refresh;
    MultiPop hands values to the callback in descending order of their priorities
    now, until the callback returns false or nothing is left, and every value that
    stays has a priority not above those handed out; Pop and PopItem return a
    value of the greatest priority, nil if there is none; Remove of a negative
    index does nothing.  With distinct values, Remove with the index last reported
    for a value removes that value, and Update keeps the values.  Reset empties
    the queue, but keeps the side that an index names: if that was the second one
    (after a new queue and an even number of further calls of Refresh) the index
    reported for the next value makes Remove panic; only else the indices are
    right again. *)
Theorem lazy_queue_refines B priorityAt maxPriority period c (distinct : Prop) now q l {C} (callback : C -> nat -> Z -> C * bool) st v i :
  (0 < B)%nat -> callbacks_ok priorityAt maxPriority period c -> - 2 ^ 63 <= now -> now + 2 * period < 2 ^ 63 ->
  let holds := lazy_holds B priorityAt period c distinct in
  holds now q l -> now <= maxUntil q - period ->
  (exists q', NewLazyQueue B maxPriority period now = Some q' /\ holds now q' [] /\ maxUntil q' = now + 2 * period) /\
  (Size q = length l /\ (Empty q = true <-> l = [])) /\
  (forall now', now <= now' -> holds now' q l) /\
  ((distinct -> v ∉ l) -> exists q', Push B maxPriority now q v = Some q' /\ holds now q' (v :: l)) /\
  (exists q', Refresh B maxPriority period now q = Some q' /\ holds now q' l /\ maxUntil q' = now + 2 * period) /\
  (exists st' q' l' tr more, MultiPop B priorityAt maxPriority callback now st q = Some (st', q') /\ holds now q' l' /\
     called callback st tr = Some (st', more) /\ handed priorityAt now l l' tr /\ (more = true -> l' = [])) /\
  (if decide (l = []) then
     exists q1 q2, Pop B priorityAt maxPriority now q = Some (None, q1) /\ holds now q1 [] /\ PopItem B priorityAt maxPriority now q = Some (None, q2) /\ holds now q2 []
   else exists w q' l', Pop B priorityAt maxPriority now q = Some (Some (w, priorityAt w now), q') /\ PopItem B priorityAt maxPriority now q = Some (Some w, q') /\
     l ≡ₚ w :: l' /\ holds now q' l' /\ forall u, u ∈ l -> priorityAt u now <= priorityAt w now) /\
  (forall j, j < 0 -> Remove B q j = Some (None, q)) /\
  (distinct -> v ∈ l -> told (calls q) v = Some i ->
     (exists q' l', Remove B q i = Some (Some v, q') /\ l ≡ₚ v :: l' /\ holds now q' l') /\
     exists q', Update B maxPriority now q i = Some q' /\ holds now q' l) /\
  lazy_holds B priorityAt period c (distinct /\ indexOffset q = 0) now (Reset B q) [] /\
  (indexOffset q = 1 -> exists q', Push B maxPriority now (Reset B q) v = Some q' /\ told (calls q') v = Some 1 /\ Remove B q' 1 = None).
Proof.
  intros HB [Hp Hm Hper Hest] Hlo Hhi h Hl Hn. split_and!.
  - by apply lazy_new.
  - eapply lazy_Size; done.
  - eapply lazy_Size; done.
  - intros now' Hn'. by eapply lazy_later.
  - intros Hv. destruct (lazy_Push B HB priorityAt maxPriority period c Hm distinct Hest now q l v Hl Hv) as (q' & E & Hl' & _). by exists q'.
  - apply lazy_Refresh; auto.
  - destruct (lazy_MultiPop B HB priorityAt maxPriority period c Hp Hm distinct Hper Hest callback now st q l Hl Hn)
      as (st' & q' & l' & tr & more & H1 & H2 & H3 & H4 & H5 & _). by exists st', q', l', tr, more.
  - pose proof (lazy_Pop B HB priorityAt maxPriority period c Hp Hm distinct Hper Hest now q l Hl Hn) as HP.
    destruct (decide (l = [])) as [-> |Hne]; [destruct HP as (q' & E & H); exists q', q'; unfold PopItem; by rewrite E|].
    destruct l as [|w0 l]; [done|]. destruct HP as (w & q' & l' & H1 & H2 & H3 & _ & H4). exists w, q', l'. unfold PopItem. by rewrite H1.
  - intros j Hj. unfold Remove. by destruct (Z.ltb_spec j 0); [|lia].
  - intros HD Hv Ht. destruct (lazy_Remove B HB priorityAt period c distinct now q l v i HD Hl Hv Ht) as (q' & l' & E & Hpe & Hl' & Hm').
    split; [by exists q', l'|].
    destruct (lazy_Push B HB priorityAt maxPriority period c Hm distinct Hest now q' l' v Hl') as (q2 & E2 & Hl2 & _).
    { intros _ Hin. destruct Hl as (r & rp & Hi & _ & _ & Hpv). pose proof (ix_nodup _ _ _ (inv_ix _ _ _ _ _ _ Hi HD)) as Hnd.
      rewrite Hpv, Hpe in Hnd. by apply NoDup_cons in Hnd as [? _]. }
    exists q2. unfold Update. rewrite E. cbn [mbind option_bind]. split; [done|]. destruct Hl2 as (r & rp & A1 & A2 & A3 & A4).
    exists r, rp. split_and!; try done. by rewrite A4, Hpe.
  - eapply lazy_Reset; [done|exact Hl|]. tauto.
  - by apply lazy_Reset_swapped.
Qed.

Definition sample_priority (v : nat) (t : Z) : Z := Z.of_nat (v mod 7) + t mod 2.
Definition sample_estimate (now : Z) (v : nat) (t : Z) : Z := Z.of_nat (v mod 7) + 1.

Lemma sample_callbacks_ok : callbacks_ok sample_priority sample_estimate 10 0.
Proof.
  assert (forall v, (v mod 7 < 7)%nat) as Hv by (intros v; apply Nat.mod_upper_bound; lia).
  assert (forall t, 0 <= t mod 2 < 2) as Ht by (intros t; apply Z.mod_pos_bound; lia).
  split; unfold sample_priority, sample_estimate; intros; try (pose proof (Hv v)); try (pose proof (Ht t)); lia.
Qed.

Lemma lazy_queue_refines_witness :
  exists q q' w, NewLazyQueue 4 sample_estimate 10 5 = Some q /\ Push 4 sample_estimate 5 q 9 = Some q' /\
    lazy_holds 4 sample_priority 10 0 True 5 q' [9%nat] /\ Pop 4 sample_priority sample_estimate 5 q' = Some (Some (9%nat, 3), w).
Proof.
  destruct sample_callbacks_ok as [H1 H2 H3 H4].
  destruct (lazy_new 4 ltac:(lia) sample_priority sample_estimate 10 0 H2 True H3 H4 5 ltac:(lia) ltac:(lia)) as (q & Eq & Hq & Mq).
  pose proof (lazy_queue_refines 4 sample_priority sample_estimate 10 0 True 5 q [] (fun st _ _ => (st, true)) tt 9 0 ltac:(lia)
    sample_callbacks_ok ltac:(lia) ltac:(lia) Hq ltac:(lia)) as (_ & _ & _ & HP & _).
  destruct HP as (q' & E' & Hq'); [intros _ Hin; by apply elem_of_nil in Hin|].
  injection Eq as <-. injection E' as <-. do 3 eexists. split; [reflexivity|]. split; [reflexivity|]. split; [exact Hq'|]. vm_compute. reflexivity.
Defined.

(** Reset does not reset the side that an index names.  After a new queue is
    reset, a value 1 that was pushed and refreshed has been reported with index 1
    while Remove with that index takes out the value 2 pushed later. *)
Theorem lazy_reset_mixes_indices :
  exists q q1 q2 q3 q4, NewLazyQueue 4096 sample_estimate 10 0 = Some q /\
    Push 4096 sample_estimate 0 (Reset 4096 q) 1 = Some q1 /\ Refresh 4096 sample_estimate 10 5 q1 = Some q2 /\
    Push 4096 sample_estimate 5 q2 2 = Some q3 /\ told (calls q3) 1 = Some 1 /\ Remove 4096 q3 1 = Some (Some 2%nat, q4).
Proof. do 5 eexists. repeat (split; [vm_compute; reflexivity|]). vm_compute. reflexivity. Qed.
