(* ===== verification/Crypto.v ===== *)
(** * Keys and signatures

    Package crypto (crypto.go and the cgo build of signature_cgo.go) and its
    bindings of libsecp256k1 (secp256k1/secp256.go and the marshalling part of
    secp256k1/curve.go).  The C library is the class [Secp256k1]: what it
    returns for byte strings; [SecpLaws] states what its header promises.
    Keccak-256 is a parameter.  A file is the sequence of what ReadByte returns,
    a byte or a read error, and ends with io.EOF. *)

From Stdlib Require Import String.
From S2P Require Import Prelude GoText Math Common.

(** ** The curve of curve.go *)

Definition curve_P : Z := 0xFFFFFFFFFFFFFFFFFFFFFFFFFFFFFFFFFFFFFFFFFFFFFFFFFFFFFFFEFFFFFC2F.
Definition curve_N : Z := 0xFFFFFFFFFFFFFFFFFFFFFFFFFFFFFFFEBAAEDCE6AF48A03BBFD25E8CD0364141.
Definition curve_B : Z := 7.
Definition curve_Gx : Z := 0x79BE667EF9DCBBAC55A06295CE870B07029BFCDB2DCE28D959F2815B16F81798.
Definition curve_Gy : Z := 0x483ADA7726A3C4655DA4FBFC0E1108A8FD17B448A68554199C47D08FFB10D4B8.
Definition BitSize : Z := 256.

Definition IsOnCurve (x y : Z) : bool :=
  let y2 := (y * y) mod curve_P in
  let x3 := (x * x * x + curve_B) mod curve_P in
  x3 =? y2.

(** ** Errors *)

Inductive crypto_error : Type :=
| ErrInvalidMsgLen
| ErrInvalidSignatureLen
| ErrInvalidRecoveryID
| ErrInvalidKey
| ErrSignFailed
| ErrRecoverFailed
| errInvalidPubkey
| errDigestLength (n : Z)
| errKeyLength
| errKeyTooLarge
| errKeyNotPositive
| errKeyInvalid
| errHexChar (c : Z)
| errHexData
| errOpen
| errRead
| errKeyFileShort
| errKeyFileEnd (c : Z)
| errKeyFileLong.

(** crypto.go *)
Definition secp256k1N : Z := 0xfffffffffffffffffffffffffffffffebaaedce6af48a03bbfd25e8cd0364141.
Definition secp256k1halfN : Z := secp256k1N / 2.

Definition ValidateSignatureValues (v r s : Z) (homestead : bool) : bool :=
  if (r <? 1) || (s <? 1) then false
  else if homestead && (secp256k1halfN <? s) then false
  else (r <? secp256k1N) && (s <? secp256k1N) && ((v =? 0) || (v =? 1)).

Record PrivateKey : Type := PrivKey { key_D : Z; key_pub : Z * Z }.

(** ** libsecp256k1 *)

(** The functions of the C library on byte strings: [None] is the return value
    0.  A recoverable signature is its compact form with its recovery id. *)
Class Secp256k1 : Type := {
  ec_seckey_verify : list Z -> bool;
  ecdsa_sign_recoverable : list Z -> list Z -> option (list Z * Z);
  ext_ecdsa_recover : list Z -> list Z -> option (list Z);
  ext_scalar_mul : list Z -> list Z -> option (list Z)
}.

Section crypto.
  Context (wb : nat) `{Secp256k1} (Keccak256 : list Z -> list Z).

(** ** curve.go *)

Definition readBits (bigint : Z) (buf : list Z) : list Z := ReadBits wb bigint buf.

(** [None] is the result nil, nil; the outer panic is for long scalars. *)
Definition ScalarMult (Bx By : Z) (scalar : list Z) : outcome unit (option (Z * Z)) :=
  if 32 <? len scalar then Panic
  else
    let padded := zeros (32 - len scalar) ++ scalar in
    let point := readBits Bx (zeros 32) ++ readBits By (zeros 32) in
    match ext_scalar_mul point padded with
    | None => Ok None
    | Some p => Ok (Some (be_val (take 32 p), be_val (drop 32 p)))
    end.
Definition ScalarBaseMult (k : list Z) := ScalarMult curve_Gx curve_Gy k.

Definition Marshal (x y : Z) : list Z :=
  let byteLen := Z.shiftr (BitSize + 7) 3 in
  4 :: readBits x (zeros byteLen) ++ readBits y (zeros byteLen).
Definition Unmarshal (data : list Z) : option (Z * Z) :=
  let byteLen := Z.shiftr (BitSize + 7) 3 in
  if negb (len data =? 1 + 2 * byteLen) then None
  else match data with
       | 4 :: t => Some (be_val (take (Z.to_nat byteLen) t), be_val (drop (Z.to_nat byteLen) t))
       | _ => None
       end.

(** Marshal and Unmarshal of the standard library's crypto/elliptic: a
    coordinate of more than 32 bytes panics. *)
Definition elliptic_Marshal (x y : Z) : option (list Z) :=
  if (len (big_bytes x) <=? 32) && (len (big_bytes y) <=? 32)
  then Some (4 :: be_bytes 32 (Z.abs x) ++ be_bytes 32 (Z.abs y)) else None.
Definition elliptic_Unmarshal (data : list Z) : option (Z * Z) :=
  if negb (len data =? 65) then None
  else match data with
       | 4 :: t =>
           let x := be_val (take 32 t) in
           let y := be_val (drop 32 t) in
           if (curve_P <=? x) || (curve_P <=? y) then None
           else if negb (IsOnCurve x y) then None else Some (x, y)
       | _ => None
       end.

(** ** secp256.go *)

Definition secp_Sign (msg seckey : list Z) : crypto_error + list Z :=
  if negb (len msg =? 32) then inl ErrInvalidMsgLen
  else if negb (len seckey =? 32) then inl ErrInvalidKey
  else if negb (ec_seckey_verify seckey) then inl ErrInvalidKey
  else match ecdsa_sign_recoverable msg seckey with
       | None => inl ErrSignFailed
       | Some (sig, recid) => inr (sig ++ [u8 recid])
       end.

Definition checkSignature (sig : list Z) : option crypto_error :=
  if negb (len sig =? 65) then Some ErrInvalidSignatureLen
  else if 4 <=? default 0 (sig !! 64%nat) then Some ErrInvalidRecoveryID
  else None.

Definition RecoverPubkey (msg sig : list Z) : crypto_error + list Z :=
  if negb (len msg =? 32) then inl ErrInvalidMsgLen
  else match checkSignature sig with
       | Some e => inl e
       | None => match ext_ecdsa_recover sig msg with
                 | None => inl ErrRecoverFailed
                 | Some pubkey => inr pubkey
                 end
       end.

(** ** signature_cgo.go *)

Definition Ecrecover (hash sig : list Z) := RecoverPubkey hash sig.
Definition SigToPub (hash sig : list Z) : crypto_error + option (Z * Z) :=
  match Ecrecover hash sig with
  | inl e => inl e
  | inr s => inr (elliptic_Unmarshal s)
  end.
Definition crypto_Sign (digestHash : list Z) (prv : PrivateKey) : crypto_error + list Z :=
  if negb (len digestHash =? 32) then inl (errDigestLength (len digestHash))
  else secp_Sign digestHash (PaddedBigBytes wb (key_D prv) (BitSize / 8)).

(** ** crypto.go *)

Definition toECDSA (d : list Z) (strict : bool) : outcome crypto_error PrivateKey :=
  if strict && negb (8 * len d =? BitSize) then Err errKeyLength
  else
    let D := be_val d in
    if secp256k1N <=? D then Err errKeyTooLarge
    else if D <=? 0 then Err errKeyNotPositive
    else match ScalarBaseMult d with
         | Ok (Some pub) => Ok (PrivKey D pub)
         | Ok None => Err errKeyInvalid
         | _ => Panic
         end.
Definition ToECDSA (d : list Z) := toECDSA d true.
(** The error is dropped: nil is [None]. *)
Definition ToECDSAUnsafe (d : list Z) : outcome unit (option PrivateKey) :=
  match toECDSA d false with
  | Ok k => Ok (Some k)
  | Err _ => Ok None
  | Panic => Panic
  | OutOfFuel => OutOfFuel
  end.

Definition FromECDSA (priv : option PrivateKey) : list Z :=
  match priv with
  | None => []
  | Some k => PaddedBigBytes wb (key_D k) (BitSize / 8)
  end.

Definition UnmarshalPubkey (pub : list Z) : crypto_error + (Z * Z) :=
  match elliptic_Unmarshal pub with None => inl errInvalidPubkey | Some p => inr p end.
(** [None] is a panic, [Some []] the result nil. *)
Definition FromECDSAPub (pub : option (Z * Z)) : option (list Z) :=
  match pub with None => Some [] | Some (x, y) => elliptic_Marshal x y end.

Definition HexToECDSA (hexkey : list Z) : outcome crypto_error PrivateKey :=
  match hex_Decode hexkey with
  | (_, Some (InvalidByteError c)) => Err (errHexChar c)
  | (_, Some _) => Err errHexData
  | (b, None) => ToECDSA b
  end.

(** What successive calls of ReadByte return, before io.EOF. *)
Definition reader : Type := list (unit + Z).

(** ReadByte returns the byte 0 with an error, so a read error is taken by the
    first case of the switch like a control character. *)
Fixpoint readASCII (room : nat) (buf : list Z) (r : reader) : list Z * reader :=
  match room with
  | O => (buf, r)
  | S room' =>
      match r with
      | [] => (buf, [])
      | x :: r' =>
          let b := match x with inl _ => 0 | inr b => b end in
          if b <? 33 then (buf, r') else readASCII room' (buf ++ [b]) r'
      end
  end.

Fixpoint checkKeyFileEnd (i : nat) (r : reader) : option crypto_error :=
  match r with
  | [] => None
  | inl _ :: _ => Some errRead
  | inr b :: r' =>
      if negb (b =? 10) && negb (b =? 13) then Some (errKeyFileEnd b)
      else if (2 <=? i)%nat then Some errKeyFileLong
      else checkKeyFileEnd (S i) r'
  end.

(** [None] is a file that os.Open does not open. *)
Definition LoadECDSA (file : option reader) : outcome crypto_error PrivateKey :=
  match file with
  | None => Err errOpen
  | Some fd =>
      let '(buf, r) := readASCII 64 [] fd in
      if negb (len buf =? 64) then Err errKeyFileShort
      else match checkKeyFileEnd 0 r with
           | Some e => Err e
           | None => HexToECDSA buf
           end
  end.

(** The contents that are written. *)
Definition SaveECDSA (key : option PrivateKey) : list Z := hex_Encode (FromECDSA key).

Definition PubkeyToAddress (p : Z * Z) : option (list Z) :=
  pubBytes ← FromECDSAPub (Some p);
  t ← go_from pubBytes 1;
  h ← go_from (Keccak256 t) 12;
  BytesToAddress h.

Definition CreateAddress2 (b salt inithash : list Z) : option (list Z) :=
  h ← go_from (Keccak256 ([255] ++ b ++ salt ++ inithash)) 12;
  BytesToAddress h.
End crypto.

(** ** What the library promises *)

(** secp256k1.h: valid keys are the numbers below the group order; a signature
    has its two halves in range, the second in the lower half of the order, a
    recovery id below 4, and recovers to the public key; multiplying the base
    point by a key gives a point of the curve. *)
Class SecpLaws `{Secp256k1} (pub_of : Z -> Z * Z) : Prop := {
  seckey_verify_spec : forall k, length k = 32%nat -> bytes_ok k ->
    ec_seckey_verify k = true <-> 0 < be_val k < secp256k1N;
  scalar_mul_base : forall d, 0 < d < secp256k1N ->
    ext_scalar_mul (be_bytes 32 curve_Gx ++ be_bytes 32 curve_Gy) (be_bytes 32 d) =
    Some (be_bytes 32 (fst (pub_of d)) ++ be_bytes 32 (snd (pub_of d)));
  pub_on_curve : forall d, 0 < d < secp256k1N ->
    0 <= fst (pub_of d) < curve_P /\ 0 <= snd (pub_of d) < curve_P /\
    IsOnCurve (fst (pub_of d)) (snd (pub_of d)) = true;
  sign_recovers : forall h d sig v, length h = 32%nat -> 0 < d < secp256k1N ->
    ecdsa_sign_recoverable h (be_bytes 32 d) = Some (sig, v) ->
    length sig = 64%nat /\ bytes_ok sig /\ 0 <= v < 4 /\
    0 < be_val (take 32 sig) < secp256k1N /\ 0 < be_val (drop 32 sig) <= secp256k1halfN /\
    ext_ecdsa_recover (sig ++ [v]) h =
      Some (4 :: be_bytes 32 (fst (pub_of d)) ++ be_bytes 32 (snd (pub_of d)))
}.

(** A library that knows one key: every key has the base point as its public
    key, and every signature is the pair of ones. *)
Definition one_point_library : Secp256k1 := {|
  ec_seckey_verify k := (0 <? be_val k) && (be_val k <? secp256k1N);
  ecdsa_sign_recoverable _ _ := Some (be_bytes 32 1 ++ be_bytes 32 1, 0);
  ext_ecdsa_recover _ _ := Some (4 :: be_bytes 32 curve_Gx ++ be_bytes 32 curve_Gy);
  ext_scalar_mul _ _ := Some (be_bytes 32 curve_Gx ++ be_bytes 32 curve_Gy)
|}.
Lemma one_point_laws : @SecpLaws one_point_library (fun _ => (curve_Gx, curve_Gy)).
Proof.
  split; cbn [ec_seckey_verify ecdsa_sign_recoverable ext_ecdsa_recover ext_scalar_mul one_point_library fst snd].
  - intros k _ _. rewrite andb_true_iff, Z.ltb_lt, Z.ltb_lt. lia.
  - done.
  - intros d _. split; [by vm_compute|]. split; [by vm_compute|]. by vm_compute.
  - intros h d sig v _ _ E. assert (sig = be_bytes 32 1 ++ be_bytes 32 1) as -> by congruence.
    assert (v = 0) as -> by congruence. split; [done|]. split.
    { apply bytes_ok_app. split; apply be_bytes_ok. }
    split; [lia|]. by vm_compute.
Qed.

(** ** Points and keys as bytes *)

Lemma small_32 x : 0 <= x < curve_P -> Z.abs x < 256 ^ 32.
Proof. intros Hx. rewrite Z.abs_eq by lia. eapply Z.lt_trans; [apply Hx|]. by vm_compute. Qed.

Lemma key_range d : 0 < d < secp256k1N -> 0 <= d < curve_P.
Proof. intros Hd. split; [lia|]. eapply Z.lt_trans; [apply Hd|]. by vm_compute. Qed.

Lemma be_val_be32 x : 0 <= x < curve_P -> be_val (be_bytes 32 x) = x.
Proof.
  intros Hx. rewrite be_val_be_bytes. apply Z.mod_small. pose proof (small_32 x Hx) as H.
  rewrite Z.abs_eq in H by lia. change (Z.of_nat 32) with 32. lia.
Qed.

Lemma be_bytes_len n z : len (be_bytes n z) = Z.of_nat n.
Proof. unfold len. by rewrite be_bytes_length. Qed.

Lemma elliptic_Marshal_ok x y :
  0 <= x < curve_P -> 0 <= y < curve_P -> elliptic_Marshal x y = Some (4 :: be_bytes 32 x ++ be_bytes 32 y).
Proof.
  intros Hx Hy. unfold elliptic_Marshal. rewrite !Z.abs_eq by lia.
  assert (L : forall z, 0 <= z < curve_P -> (len (big_bytes z) <=? 32) = true).
  { intros z Hz. apply Z.leb_le. apply (big_bytes_len_le z 32). split; [lia|].
    pose proof (small_32 z Hz). rewrite Z.abs_eq in * by lia. change (Z.of_nat 32) with 32. lia. }
  by rewrite !L.
Qed.

Section keys.
  Context (wb : nat) (Hwb : (0 < wb)%nat) `{SecpLaws}.

Lemma padded_key d : 0 < d < secp256k1N -> PaddedBigBytes wb d (BitSize / 8) = be_bytes 32 d.
Proof.
  intros Hd. pose proof (small_32 d (key_range d Hd)). change (BitSize / 8) with 32.
  rewrite PaddedBigBytes_fits by (done || lia). by rewrite Z.abs_eq by lia.
Qed.

Lemma ScalarBaseMult_key d :
  0 < d < secp256k1N -> ScalarBaseMult wb (be_bytes 32 d) = Ok (Some (pub_of d)).
Proof.
  intros Hd. unfold ScalarBaseMult, ScalarMult, readBits. rewrite be_bytes_len. simpl (_ <? _).
  change (zeros (32 - Z.of_nat 32)) with (@nil Z). change (zeros 32) with (replicate 32 0).
  rewrite !ReadBits_zeros by done. change (Z.abs curve_Gx) with curve_Gx. change (Z.abs curve_Gy) with curve_Gy.
  cbn [app]. rewrite scalar_mul_base by done. destruct (pub_on_curve d Hd) as (Hx & Hy & _).
  rewrite take_app_length', drop_app_length' by (by rewrite be_bytes_length).
  rewrite !be_val_be32 by done. by destruct (pub_of d).
Qed.

(** The public key of a private key is its product with the base point. *)
Definition key_ok (k : PrivateKey) : Prop := 0 < key_D k < secp256k1N /\ key_pub k = pub_of (key_D k).

Lemma ToECDSA_exact d k :
  bytes_ok d -> ToECDSA wb d = Ok k <-> length d = 32%nat /\ key_D k = be_val d /\ key_ok k.
Proof.
  intros Hb. unfold ToECDSA, toECDSA, key_ok. change BitSize with 256. cbn [andb].
  destruct (Z.eqb_spec (8 * len d) 256) as [El|Nl]; cbn [negb].
  2: { split; [done|]. intros (Hl & _). unfold len in Nl. lia. }
  assert (Hl : length d = 32%nat) by (unfold len in El; lia).
  destruct (Z.leb_spec secp256k1N (be_val d)); [split; [done|]; intros (_ & E & ?); lia|].
  destruct (Z.leb_spec (be_val d) 0); [split; [done|]; intros (_ & E & ?); lia|].
  rewrite <- (be_bytes_be_val d Hb) at 1. rewrite Hl, ScalarBaseMult_key by lia. split.
  - intros [= <-]. simpl. split; [done|]. split; [done|]. split; [lia|done].
  - intros (_ & E & _ & Ep). destruct k as [D p]. simpl in *. by rewrite Ep, E.
Qed.
End keys.

(** ** Key files *)

Definition newline (b : Z) : Prop := b = 10 \/ b = 13.

Lemma readASCII_full room : forall buf r key r',
  readASCII room buf r = (buf ++ key, r') /\ length key = room <->
  r = map inr key ++ r' /\ length key = room /\ Forall (fun b => 33 <= b) key.
Proof.
  induction room as [|room IH]; intros buf r key r'.
  - simpl. split.
    + intros [E Hl]. apply nil_length_inv in Hl. subst. rewrite app_nil_r in E. by injection E as ->.
    + intros (-> & Hl & _). apply nil_length_inv in Hl. subst. by rewrite app_nil_r.
  - simpl. destruct r as [|x r].
    + split; [|by intros (E & Hl & _); destruct key].
      intros [[= E _] Hl]. rewrite <- (app_nil_r buf) in E at 1. apply app_inv_head in E. by subst.
    + assert (Hx : exists b, match x with inl _ => 0 | inr b => b end = b /\ (forall c, x = inr c -> c = b) /\ (33 <= b -> x = inr b)).
      { destruct x as [e|b]; [exists 0|exists b]; (split; [done|]); (split; [congruence|]); (done || lia). }
      destruct Hx as (b & -> & Hc & Hx). destruct (Z.ltb_spec b 33) as [Hb|Hb].
      * split.
        -- intros [[= E _] Hl]. rewrite <- (app_nil_r buf) in E at 1. apply app_inv_head in E. by subst.
        -- intros (E & Hl & Hf). destruct key as [|c key]; [done|]. injection E as E _.
           apply Forall_cons in Hf as [? _]. apply Hc in E. lia.
      * destruct key as [|c key]; [split; [by intros [_ ?]|by intros (_ & ? & _)]|].
        rewrite Hx by done. simpl length. split.
        -- intros [E Hl]. destruct (decide (b = c)) as [<-|Hne].
           ++ assert (Ea : buf ++ b :: key = (buf ++ [b]) ++ key) by (by rewrite <- app_assoc). rewrite Ea in E.
              destruct (IH (buf ++ [b]) r key r') as [I _]. destruct I as (-> & L & F); [split; [done|lia]|].
              split; [done|]. split; [lia|]. by constructor.
           ++ exfalso. assert (G : forall n u w v w', readASCII n u w = (v, w') -> exists t, v = u ++ t).
              { clear. induction n as [|n IHn]; intros u w v w' E; simpl in E.
                - exists []. rewrite app_nil_r. congruence.
                - destruct w as [|y w]; [exists []; rewrite app_nil_r; congruence|].
                  destruct (_ <? 33); [exists []; rewrite app_nil_r; congruence|].
                  apply IHn in E as [t ->]. eexists. by rewrite <- app_assoc. }
              apply G in E as [t E]. rewrite <- app_assoc in E. apply app_inv_head in E. simpl in E. congruence.
        -- intros (E & Hl & Hf). injection E as <- ->. apply Forall_cons in Hf as [_ Hf].
           assert (buf ++ b :: key = (buf ++ [b]) ++ key) as -> by (by rewrite <- app_assoc). destruct (IH (buf ++ [b]) (map inr key ++ r') key r') as [_ I].
           destruct I as [-> _]; [split; [done|]; split; [lia|done]|]. by split.
Qed.

Lemma checkKeyFileEnd_ok r : forall i,
  checkKeyFileEnd i r = None <-> exists nl, r = map inr nl /\ Forall newline nl /\ (i + length nl <= 2 \/ nl = [])%nat.
Proof.
  induction r as [|[e|b] r IH]; intros i; cbn [checkKeyFileEnd].
  - split; [|done]. intros _. exists []. split; [done|]. split; [constructor|by right].
  - split; [done|]. intros (nl & E & _). by destruct nl.
  - split.
    + destruct (Z.eqb_spec b 10) as [Eb|Nb], (Z.eqb_spec b 13) as [Eb'|Nb']; cbn [negb andb]; try done;
        (destruct (Nat.leb_spec 2 i); [done|]); intros E; apply IH in E as (nl & -> & Hf & Hl);
        exists (b :: nl); (split; [done|]); (split; [constructor; [unfold newline; lia|done]|]); left; simpl;
        (destruct Hl as [Hl| ->]; simpl; lia).
    + intros (nl & E & Hf & Hl). destruct nl as [|c nl]; [done|]. injection E as <- ->.
      apply Forall_cons in Hf as [Hb Hf]. destruct Hl as [Hl|]; [|done]. simpl in Hl.
      assert (negb (b =? 10) && negb (b =? 13) = false) as -> by (destruct Hb; subst; done).
      destruct (Nat.leb_spec 2 i); [lia|]. apply IH. exists nl. split; [done|]. split; [done|]. left. lia.
Qed.

Lemma hex_chars_printable s d : hex_Decode s = (d, None) -> Forall (fun b => 33 <= b) s.
Proof.
  intros E. apply hex_Decode_exact in E as [Hd E]. pose proof (hex_Encode_chars d Hd) as Hc. rewrite <- E in Hc.
  apply Forall_map in Hc. eapply Forall_impl; [exact Hc|]. intros c. simpl. unfold lower.
  destruct (Z.leb_spec 65 c), (Z.leb_spec c 90); simpl; lia.
Qed.

(** Key files.  LoadECDSA accepts exactly the files that hold 64 hex digits
    of a number between 1 and the group order, in either case, followed by at
    most two newline characters, and returns that number with its public key;
    in particular what SaveECDSA writes for a valid key loads as that key. *)
Theorem key_file_exact wb `{SecpLaws} r k :
  (0 < wb)%nat ->
  (LoadECDSA wb (Some r) = Ok k <->
   exists hexkey nl d, r = map inr (hexkey ++ nl) /\ length hexkey = 64%nat /\ hex_Decode hexkey = (d, None) /\
     Forall newline nl /\ (length nl <= 2)%nat /\ key_D k = be_val d /\ key_ok (pub_of := pub_of) k) /\
  (key_ok (pub_of := pub_of) k -> LoadECDSA wb (Some (map inr (SaveECDSA wb (Some k)))) = Ok k).
Proof.
  intros Hwb.
  assert (G : forall r, LoadECDSA wb (Some r) = Ok k <->
   exists hexkey nl d, r = map inr (hexkey ++ nl) /\ length hexkey = 64%nat /\ hex_Decode hexkey = (d, None) /\
     Forall newline nl /\ (length nl <= 2)%nat /\ key_D k = be_val d /\ key_ok (pub_of := pub_of) k).
  { clear r. intros r. unfold LoadECDSA. split.
    - destruct (readASCII 64 [] r) as [buf r'] eqn:Er. destruct (Z.eqb_spec (len buf) 64) as [El|]; [|done]. simpl.
      destruct (checkKeyFileEnd 0 r') as [e|] eqn:Ec; [done|]. apply checkKeyFileEnd_ok in Ec as (nl & -> & Hf & Hl).
      destruct (readASCII_full 64 [] r buf (map inr nl)) as [R _]. simpl in R.
      destruct R as (-> & L & _); [split; [done|unfold len in El; lia]|].
      unfold HexToECDSA. destruct (hex_Decode buf) as [d [[]|]] eqn:Eh; try done.
      pose proof Eh as Eh'. apply hex_Decode_exact in Eh' as [Hd Em]. intros E.
      apply (ToECDSA_exact wb Hwb d k Hd) in E as (Ld & Ek & Ok).
      exists buf, nl, d. rewrite map_app. split_and!; try done. destruct Hl as [Hl| ->]; simpl in *; lia.
    - intros (hexkey & nl & d & -> & L & Eh & Hf & Hl & Ek & Ok).
      destruct (readASCII_full 64 [] (map inr (hexkey ++ nl)) hexkey (map inr nl)) as [_ R].
      destruct R as [-> _]; [split; [by rewrite map_app|]; split; [done|by eapply hex_chars_printable]|].
      simpl. unfold len. rewrite L. simpl. destruct (checkKeyFileEnd_ok (map inr nl) 0) as [_ C].
      rewrite C by (exists nl; split; [done|]; split; [done|]; left; lia).
      unfold HexToECDSA. rewrite Eh. apply hex_Decode_exact in Eh as [Hd Em].
      apply (ToECDSA_exact wb Hwb d k Hd). split; [|done].
      apply (f_equal length) in Em. rewrite length_map, hex_Encode_length in Em. lia. }
  split; [apply G|]. intros Hk. apply G. pose proof Hk as [Hd _]. unfold SaveECDSA, FromECDSA.
  rewrite padded_key by done. exists (hex_Encode (be_bytes 32 (key_D k))), [], (be_bytes 32 (key_D k)).
  rewrite app_nil_r. split; [done|]. split; [by rewrite hex_Encode_length, be_bytes_length|].
  split; [apply hex_Decode_Encode, be_bytes_ok|]. split; [constructor|]. split; [simpl; lia|].
  split; [by rewrite be_val_be32 by (by apply key_range)|done].
Qed.

Lemma key_file_exact_witness :
  @LoadECDSA 8 one_point_library (Some (map inr (SaveECDSA 8 (Some (PrivKey 1 (curve_Gx, curve_Gy)))))) =
  Ok (PrivKey 1 (curve_Gx, curve_Gy)).
Proof.
  apply (@key_file_exact 8 one_point_library _ one_point_laws [] (PrivKey 1 (curve_Gx, curve_Gy)) ltac:(lia)).
  split; [split; by vm_compute|reflexivity].
Defined.
