(* ===== verification/Transaction.v ===== *)
(** * Transactions and their signatures

    transaction.go, transaction_signing.go and the hashing of block.go of
    src/core/types, and the signer of src/client/signer.go.  A transaction is
    encoded and decoded through the rlp model, as a type with EncodeRLP and
    DecodeRLP methods of its own.  A *big.Int and a *common.Address are options,
    nil being [None].  The caches of a transaction (atomic.Value) are fields, and
    the methods that fill them return the transaction afterwards.  StorageSize, a
    float64, is a Z: it is exact below 2^53. *)

From Stdlib Require Import String.
From S2P Require Import Prelude RlpSpec RlpEncode RlpTypes RlpRaw RlpStream RlpWriter RlpDecoder RlpRoundtrip.
From S2P Require Import GoText Math Common Crypto.

(** ** Data *)

Record txdata : Type := Txdata {
  RandomId : Z;
  Price : option Z;
  GasLimit : Z;
  BlockLimit : Z;
  Recipient : option (list Z);
  Amount : option Z;
  Payload : list Z;
  ChainId : option Z;
  GroupId : option Z;
  ExtraData : list Z;
  tx_V : option Z;
  tx_R : option Z;
  tx_S : option Z;
  tx_Hash : option (list Z)
}.

Definition address_type : rtype := TArray 20 (TUint 8).
Definition hash_type : rtype := TArray 32 (TUint 8).

Definition txdata_type : rtype := TStruct
  [SField "RandomId" true EmptyString (TUint 64);
   SField "Price" true EmptyString TBigIntPtr;
   SField "GasLimit" true EmptyString (TUint 64);
   SField "BlockLimit" true EmptyString (TUint 64);
   SField "Recipient" true "nil" (TPtr address_type);
   SField "Amount" true EmptyString TBigIntPtr;
   SField "Payload" true EmptyString (TSlice (TUint 8));
   SField "ChainId" true EmptyString TBigIntPtr;
   SField "GroupId" true EmptyString TBigIntPtr;
   SField "ExtraData" true EmptyString (TSlice (TUint 8));
   SField "V" true EmptyString TBigIntPtr;
   SField "R" true EmptyString TBigIntPtr;
   SField "S" true EmptyString TBigIntPtr;
   SField "Hash" true "-" (TPtr hash_type)].

Definition txdata_value (d : txdata) : value := VStruct
  [VUint (RandomId d); VBig (Price d); VUint (GasLimit d); VUint (BlockLimit d);
   VPtr (VBytes <$> Recipient d); VBig (Amount d); VBytes (Payload d); VBig (ChainId d); VBig (GroupId d);
   VBytes (ExtraData d); VBig (tx_V d); VBig (tx_R d); VBig (tx_S d); VPtr (VBytes <$> tx_Hash d)].

(** The value of a *[n]byte. *)
Definition bytes_ptr (v : option value) : option (option (list Z)) :=
  match v with
  | None => Some None
  | Some (VBytes b) => Some (Some b)
  | _ => None
  end.

Definition txdata_of (v : value) : option txdata :=
  match v with
  | VStruct [VUint id; VBig price; VUint gas; VUint bl; VPtr to; VBig amount; VBytes payload; VBig cid; VBig gid;
             VBytes extra; VBig v; VBig r; VBig s; VPtr h] =>
      to ← bytes_ptr to; h ← bytes_ptr h;
      Some (Txdata id price gas bl to amount payload cid gid extra v r s h)
  | _ => None
  end.

(** ** Signers *)

Inductive Signer : Type :=
| EIP155Signer (chainId chainIdMul : Z)
| HomesteadSigner
| FrontierSigner
| senderFromServer (addr blockhash : list Z).

Definition NewEIP155Signer (chainId : option Z) : Signer :=
  let c := default 0 chainId in EIP155Signer c (c * 2).

Definition Signer_Equal (s s2 : Signer) : bool :=
  match s, s2 with
  | EIP155Signer c _, EIP155Signer c2 _ => c2 =? c
  | HomesteadSigner, HomesteadSigner => true
  | FrontierSigner, FrontierSigner => true
  | senderFromServer _ h, senderFromServer _ h2 => bool_decide (h2 = h)
  | _, _ => false
  end.

(** A transaction with its caches; sigCache is a signer and an address. *)
Record Transaction : Type := Tx {
  data : txdata;
  hash_cache : option (list Z);
  size_cache : option Z;
  from_cache : option (Signer * list Z)
}.

Definition newTransaction (nonce blockLimit : Z) (to : option (list Z)) (amount : option Z) (gasLimit : Z)
  (gasPrice : option Z) (payload : list Z) (chainId groupId : Z) (extraData : list Z) : Transaction :=
  Tx (Txdata nonce gasPrice gasLimit blockLimit to amount payload (Some chainId) (Some groupId) extraData
        (Some 0) (Some 0) (Some 0) None) None None None.
Definition NewTransaction (nonce blockLimit : Z) (to : list Z) := newTransaction nonce blockLimit (Some to).
Definition NewContractCreation (nonce blockLimit : Z) := newTransaction nonce blockLimit None.

(** The accessors return copies; [None] is a nil dereference. *)
Definition Transaction_Data (tx : Transaction) : list Z := Payload (data tx).
Definition Transaction_Gas (tx : Transaction) : Z := GasLimit (data tx).
Definition Transaction_GasPrice (tx : Transaction) : option Z := Price (data tx).
Definition Transaction_Value (tx : Transaction) : option Z := Amount (data tx).
Definition Transaction_To (tx : Transaction) : option (list Z) := Recipient (data tx).
Definition Transaction_Cost (tx : Transaction) : option Z :=
  p ← Price (data tx); a ← Amount (data tx); Some (p * GasLimit (data tx) + a).

(** ** RLP methods *)

(** The type Transaction as rlp sees it: EncodeRLP and DecodeRLP on the pointer,
    no exported fields. *)
Definition tx_methods : methods := Methods 0 false true true.
Definition tx_struct : rtype := TStruct
  [SField "data" false EmptyString txdata_type; SField "hash" false EmptyString (TOther "atomic.Value");
   SField "size" false EmptyString (TOther "atomic.Value"); SField "from" false EmptyString (TOther "atomic.Value")].
Definition tx_type : rtype := TNamed tx_methods tx_struct.
Definition tx_value (d : txdata) : value :=
  VStruct [txdata_value d; VStruct []; VStruct []; VStruct []].

(** [rlp.Encode(w, &tx.data)]: the writer is the encbuf of the encoder. *)
Definition Transaction_EncodeRLP (d : txdata) : WM :=
  encode no_encoders (Some (TPtr txdata_type, VPtr (Some (txdata_value d)))).

(** The error of Kind is dropped; Decode meets it again. *)
Definition Transaction_DecodeRLP (tx : Transaction) : SM (list Z) Transaction := fun s =>
  let '(k, s1) := Stream_Kind s in
  match k with
  | Panic => (Panic, s1)
  | OutOfFuel => (OutOfFuel, s1)
  | _ =>
      let size := match k with Ok (_, n) => n | _ => 0 end in
      match decode_into no_decoders txdata_type (txdata_value (data tx)) s1 with
      | (Ok v, s2) =>
          match txdata_of v with
          | Some d => (Ok (Tx d (hash_cache tx) (Some (ListSize size)) (from_cache tx)), s2)
          | None => (Panic, s2)
          end
      | (Err e, s2) => (Err e, s2)
      | (Panic, s2) => (Panic, s2)
      | (OutOfFuel, s2) => (OutOfFuel, s2)
      end
  end.

(** The methods in the form the codec calls them; a receiver that is not a
    transaction does not occur. *)
Definition tx_data_of (v : value) : option txdata :=
  match v with VStruct (d :: _) => txdata_of d | _ => None end.
Definition empty_txdata : txdata :=
  Txdata 0 None 0 0 None None [] None None [] None None None None.
Definition tx_encoders : nat -> value -> WM := fun _ v w =>
  match tx_data_of v with Some d => Transaction_EncodeRLP d w | None => Panic end.
Definition tx_decoders : nat -> value -> SM (list Z) value := fun _ v0 =>
  let* tx := Transaction_DecodeRLP (Tx (default empty_txdata (tx_data_of v0)) None None None) in
  ret (tx_value (data tx)).

Definition tx_ptr (d : txdata) : option (rtype * value) := Some (TPtr tx_type, VPtr (Some (tx_value d))).

(** ** Hashing *)

Section hashing.
  Context (wb : nat) `{Secp256k1} (Keccak256 : list Z -> list Z).

(** [eb] is the buffer taken from the pool.  An error of rlp.Encode is dropped:
    the hash is then that of no input.  [None] is a panic. *)
Definition rlpHash (eb : encbuf) (x : option (rtype * value)) : option (list Z) :=
  match Encode tx_encoders eb (inr ([] : list Z)) x with
  | Ok (inr hw) => Some (Keccak256 hw)
  | Err _ => Some (Keccak256 [])
  | _ => None
  end.

(** The elements of a []interface{}. *)
Definition iface (t : rtype) (v : value) : value := VIface (Some (t, v)).
Definition iface_slice (vs : list value) : option (rtype * value) := Some (TSlice (TInterface 0), VSeq vs).

(** The interface values that are hashed for a signature. *)
Definition eip155_fields (chainId : Z) (d : txdata) : list value :=
  [iface (TUint 64) (VUint (RandomId d));
   iface TBigIntPtr (VBig (Price d));
   iface (TUint 64) (VUint (GasLimit d));
   iface (TPtr address_type) (VPtr (VBytes <$> Recipient d));
   iface TBigIntPtr (VBig (Amount d));
   iface (TSlice (TUint 8)) (VBytes (Payload d));
   iface TBigIntPtr (VBig (Some chainId)); iface (TUint 64) (VUint 0); iface (TUint 64) (VUint 0)].
Definition frontier_fields (d : txdata) : list value :=
  [iface (TUint 64) (VUint (RandomId d));
   iface TBigIntPtr (VBig (Price d));
   iface (TUint 64) (VUint (GasLimit d));
   iface (TUint 64) (VUint (BlockLimit d));
   iface (TPtr address_type) (VPtr (VBytes <$> Recipient d));
   iface TBigIntPtr (VBig (Amount d));
   iface (TSlice (TUint 8)) (VBytes (Payload d));
   iface TBigIntPtr (VBig (ChainId d));
   iface TBigIntPtr (VBig (GroupId d));
   iface (TSlice (TUint 8)) (VBytes (ExtraData d))].

Definition EIP155_Hash (eb : encbuf) (chainId : Z) (d : txdata) : option (list Z) :=
  rlpHash eb (iface_slice (eip155_fields chainId d)).
Definition Frontier_Hash (eb : encbuf) (d : txdata) : option (list Z) :=
  rlpHash eb (iface_slice (frontier_fields d)).

(** HomesteadSigner embeds FrontierSigner. *)
Definition Signer_Hash (eb : encbuf) (s : Signer) (d : txdata) : option (list Z) :=
  match s with
  | EIP155Signer c _ => EIP155_Hash eb c d
  | HomesteadSigner | FrontierSigner => Frontier_Hash eb d
  | senderFromServer _ _ => None
  end.

Definition Transaction_Hash (eb : encbuf) (tx : Transaction) : option (list Z * Transaction) :=
  match hash_cache tx with
  | Some h => Some (h, tx)
  | None => v ← rlpHash eb (tx_ptr (data tx));
            Some (v, Tx (data tx) (Some v) (size_cache tx) (from_cache tx))
  end.

(** writeCounter adds up the lengths of what is written; [rlp.Encode] of the
    data, its error dropped. *)
Definition Transaction_Size (eb : encbuf) (tx : Transaction) : option (Z * Transaction) :=
  match size_cache tx with
  | Some n => Some (n, tx)
  | None =>
      n ← match Encode no_encoders eb (inr ([] : list Z)) (Some (TPtr txdata_type, VPtr (Some (txdata_value (data tx))))) with
          | Ok (inr c) => Some (len c)
          | Err _ => Some 0
          | _ => None
          end;
      Some (n, Tx (data tx) (hash_cache tx) (Some n) (from_cache tx))
  end.

(** ** Signing *)

Inductive tx_error : Type :=
| ErrInvalidSig
| ErrInvalidChainId
| errNotCached
| errInvalidPublicKey
| errCrypto (e : crypto_error).

(** V.BitLen, V.Uint64: nil dereferences panic. *)
Definition isProtectedV (V : Z) : bool :=
  if bit_len V <=? 8 then let v := u64 (Z.abs V) in negb (v =? 27) && negb (v =? 28) else true.

Definition deriveChainId (v : Z) : Z :=
  if bit_len v <=? 64 then
    let v := u64 (Z.abs v) in
    if (v =? 27) || (v =? 28) then 0 else u64 (v - 35) / 2
  else (v - 35) / 2.

Definition recoverPlain (sighash : list Z) (R S Vb : Z) (homestead : bool) : outcome tx_error (list Z) :=
  if 8 <? bit_len Vb then Err ErrInvalidSig
  else
    let V := u8 (u64 (Z.abs Vb) - 27) in
    if negb (ValidateSignatureValues V R S homestead) then Err ErrInvalidSig
    else
      let r := big_bytes R in
      let s := big_bytes S in
      if (32 <? len r) || (32 <? len s) then Panic
      else
        let sig := zeros (32 - len r) ++ r ++ zeros (32 - len s) ++ s ++ [V] in
        match Ecrecover sighash sig with
        | inl e => Err (errCrypto e)
        | inr pub =>
            match pub with
            | 4 :: t => match go_from (Keccak256 t) 12 with
                        | Some h => Ok (go_copy (zeros 20) h)
                        | None => Panic
                        end
            | _ => Err errInvalidPublicKey
            end
        end.

(** The receivers dereference V, R and S. *)
Definition sig_values (d : txdata) : option (Z * Z * Z) :=
  v ← tx_V d; r ← tx_R d; s ← tx_S d; Some (v, r, s).

Definition Homestead_Sender (eb : encbuf) (homestead : bool) (d : txdata) : outcome tx_error (list Z) :=
  match sig_values d, Frontier_Hash eb d with
  | Some (v, r, s), Some h => recoverPlain h r s v homestead
  | _, _ => Panic
  end.

Definition EIP155_Sender (eb : encbuf) (chainId chainIdMul : Z) (d : txdata) : outcome tx_error (list Z) :=
  match sig_values d with
  | None => Panic
  | Some (v, r, s) =>
      if negb (isProtectedV v) then Homestead_Sender eb true d
      else if negb (deriveChainId v =? chainId) then Err ErrInvalidChainId
      else match EIP155_Hash eb chainId d with
           | None => Panic
           | Some h => recoverPlain h r s (v - chainIdMul - 8) true
           end
  end.

Definition Signer_Sender (eb : encbuf) (s : Signer) (d : txdata) : outcome tx_error (list Z) :=
  match s with
  | EIP155Signer c m => EIP155_Sender eb c m d
  | HomesteadSigner => Homestead_Sender eb true d
  | FrontierSigner => Homestead_Sender eb false d
  | senderFromServer addr h =>
      if bool_decide (h = zeros 32) then Err errNotCached else Ok addr
  end.

(** [types.Sender]: the address, or the error, and the transaction with its
    cache. *)
Definition Sender (eb : encbuf) (signer : Signer) (tx : Transaction) : outcome tx_error (list Z * Transaction) :=
  let derive :=
    let? addr := Signer_Sender eb signer (data tx) in
    Ok (addr, Tx (data tx) (hash_cache tx) (size_cache tx) (Some (signer, addr))) in
  match from_cache tx with
  | Some (s, a) => if Signer_Equal s signer then Ok (a, tx) else derive
  | None => derive
  end.

(** [R], [S] and [V] of a signature. *)
Definition Frontier_SignatureValues (sig : list Z) : option (Z * Z * Z) :=
  if negb (len sig =? 65) then None
  else Some (be_val (take 32 sig), be_val (take 32 (drop 32 sig)), u8 (default 0 (sig !! 64%nat) + 27)).

Definition SignatureValues (s : Signer) (sig : list Z) : option (Z * Z * Z) :=
  match s with
  | EIP155Signer c m =>
      '(r, s, v) ← Frontier_SignatureValues sig;
      Some (r, s, if negb (c =? 0) then u8 (default 0 (sig !! 64%nat) + 35) + m else v)
  | HomesteadSigner | FrontierSigner => Frontier_SignatureValues sig
  | senderFromServer _ _ => None
  end.

Definition set_signature (d : txdata) (r s v : Z) : txdata :=
  Txdata (RandomId d) (Price d) (GasLimit d) (BlockLimit d) (Recipient d) (Amount d) (Payload d) (ChainId d)
    (GroupId d) (ExtraData d) (Some v) (Some r) (Some s) (tx_Hash d).

Definition WithSignature (signer : Signer) (tx : Transaction) (sig : list Z) : option Transaction :=
  '(r, s, v) ← SignatureValues signer sig;
  Some (Tx (set_signature (data tx) r s v) None None None).

Definition SignTx (eb : encbuf) (tx : Transaction) (s : Signer) (prv : PrivateKey) : outcome tx_error Transaction :=
  match Signer_Hash eb s (data tx) with
  | None => Panic
  | Some h =>
      match crypto_Sign wb h prv with
      | inl e => Err (errCrypto e)
      | inr sig => of_option (WithSignature s tx sig)
      end
  end.
End hashing.

(** ** What a transaction denotes *)

Definition big_item (z : option Z) : item := Str (big_bytes (default 0 z)).
Definition tx_items (d : txdata) : list item :=
  [Str (big_bytes (RandomId d)); big_item (Price d); Str (big_bytes (GasLimit d)); Str (big_bytes (BlockLimit d));
   Str (default [] (Recipient d)); big_item (Amount d); Str (Payload d); big_item (ChainId d); big_item (GroupId d);
   Str (ExtraData d); big_item (tx_V d); big_item (tx_R d); big_item (tx_S d)].
Definition frontier_items (d : txdata) : list item :=
  [Str (big_bytes (RandomId d)); big_item (Price d); Str (big_bytes (GasLimit d)); Str (big_bytes (BlockLimit d));
   Str (default [] (Recipient d)); big_item (Amount d); Str (Payload d); big_item (ChainId d); big_item (GroupId d);
   Str (ExtraData d)].
Definition eip155_items (c : Z) (d : txdata) : list item :=
  [Str (big_bytes (RandomId d)); big_item (Price d); Str (big_bytes (GasLimit d));
   Str (default [] (Recipient d)); big_item (Amount d); Str (Payload d); Str (big_bytes c); Str []; Str []].

(** Integers that rlp can write. *)
Definition nonneg (z : option Z) : Prop := 0 <= default 0 z.
Record txdata_ok (d : txdata) : Prop := {
  ok_RandomId : u64_ok (RandomId d);
  ok_Price : nonneg (Price d);
  ok_GasLimit : u64_ok (GasLimit d);
  ok_BlockLimit : u64_ok (BlockLimit d);
  ok_Recipient : forall a, Recipient d = Some a -> length a = 20%nat /\ bytes_ok a;
  ok_Amount : nonneg (Amount d);
  ok_Payload : bytes_ok (Payload d);
  ok_ChainId : nonneg (ChainId d);
  ok_GroupId : nonneg (GroupId d);
  ok_ExtraData : bytes_ok (ExtraData d);
  ok_V : nonneg (tx_V d);
  ok_R : nonneg (tx_R d);
  ok_S : nonneg (tx_S d)
}.

(** The lengths of the encodings fit in a machine word. *)
Definition size_ok (its : list item) : Prop := len (rlp_enc (Lst its)) <= maxAlloc.

Lemma big_denotes z :
  nonneg z -> TBigIntPtr = TBigIntPtr /\ match z with None => [big_item z] = [Str []] | Some i => 0 <= i /\ [big_item z] = [Str (big_bytes i)] end.
Proof. by destruct z. Qed.

Lemma recipient_denotes ui a :
  match VBytes <$> a with
  | Some v => denotes ui v W_writeByteArray true [Str (default [] a)]
  | None => [Str (default [] a)] = [nil_item (defaultNilKind address_type)]
  end.
Proof. by destruct a. Qed.

Lemma txdata_of_value d : txdata_of (txdata_value d) = Some d.
Proof. destruct d as [? ? ? ? to ? ? ? ? ? ? ? ? h]. by destruct to, h. Qed.

(** One field after the other. *)
Ltac tx_denote :=
  unfold all_denote; simpl;
  repeat (apply Forall2_cons; split; [cbv beta; first [by apply big_denotes|apply recipient_denotes|done]|]); try apply Forall2_nil_2.

(** The plan of the data's writer, and its items. *)
Lemma txdata_denotes ui d :
  txdata_ok d -> val_denotes ui (TPtr txdata_type) (VPtr (Some (txdata_value d))) [Lst (tx_items d)].
Proof.
  intros [? ? ? ? ? ? ? ? ? ? ? ? ?]. eexists. split; [reflexivity|]. simpl.
  exists (map (fun it => [it]) (tx_items d)). split; [|reflexivity]. tx_denote.
Qed.

Definition tx_user_items (_ : nat) (v : value) (its : list item) : Prop :=
  exists d, tx_data_of v = Some d /\ txdata_ok d /\ its = [Lst (tx_items d)].

#[export] Instance tx_encoder_laws : EncoderLaws tx_encoders tx_user_items.
Proof.
  split. intros m v its w (d & Ed & Hd & ->) Hw Hl. unfold tx_encoders. rewrite Ed.
  by apply (encode_writes no_encoders no_items _ _ _ (txdata_denotes no_items d Hd)).
Qed.

Lemma tx_denotes d :
  txdata_ok d -> val_denotes tx_user_items (TPtr tx_type) (VPtr (Some (tx_value d))) [Lst (tx_items d)].
Proof.
  intros Hd. eexists. split; [reflexivity|]. simpl. split; [done|]. exists d. split; [apply txdata_of_value|done].
Qed.

Lemma frontier_denotes ui d :
  txdata_ok d -> val_denotes ui (TSlice (TInterface 0)) (VSeq (frontier_fields d)) [Lst (frontier_items d)].
Proof.
  intros [? ? ? ? ? ? ? ? ? ? ? ? ?]. eexists. split; [reflexivity|]. simpl.
  exists (map (fun it => [it]) (frontier_items d)). split; [|reflexivity]. tx_denote.
Qed.

Lemma eip155_denotes ui c d :
  txdata_ok d -> 0 <= c -> val_denotes ui (TSlice (TInterface 0)) (VSeq (eip155_fields c d)) [Lst (eip155_items c d)].
Proof.
  intros [? ? ? ? ? ? ? ? ? ? ? ? ?] Hc. eexists. split; [reflexivity|]. simpl.
  exists (map (fun it => [it]) (eip155_items c d)). split; [|reflexivity]. tx_denote.
Qed.

(** ** Hashes of encodings *)

Section hashes.
  Context (wb : nat) `{Secp256k1} (Keccak256 : list Z -> list Z).

Lemma Encode_buffer encs uitems `{!EncoderLaws encs uitems} eb t v its :
  val_denotes uitems t v its -> len (rlp_encs its) < 2 ^ 64 -> length (sizebuf eb) = 9%nat ->
  Encode encs eb (inr ([] : list Z)) (Some (t, v)) = Ok (inr (rlp_encs its)).
Proof.
  intros Hd Hl Hs. destruct (encode_reset encs uitems eb t v its Hd Hl Hs) as (w & E & Ho & Er & _).
  unfold Encode. rewrite E. pose proof (toWriter_render w ([] : list Z) Ho) as Hw.
  destruct (toWriter w []) as [[out w']|e| |]; try done.
  - destruct Hw as [Hw _]. simpl in Hw. by rewrite Hw, Er.
  - by destruct Hw as (o & b & o' & n & Hw).
Qed.

Lemma rlpHash_denotes eb t v its :
  val_denotes tx_user_items t v its -> len (rlp_encs its) < 2 ^ 64 -> length (sizebuf eb) = 9%nat ->
  rlpHash Keccak256 eb (Some (t, v)) = Some (Keccak256 (rlp_encs its)).
Proof. intros Hd Hl Hs. unfold rlpHash. by rewrite (Encode_buffer tx_encoders tx_user_items eb t v its). Qed.

Lemma size_ok_lt its : size_ok its -> len (rlp_encs [Lst its]) < 2 ^ 64.
Proof. unfold size_ok, maxAlloc. rewrite rlp_encs_single. lia. Qed.

Lemma Frontier_Hash_eq eb d :
  txdata_ok d -> size_ok (frontier_items d) -> length (sizebuf eb) = 9%nat ->
  Frontier_Hash Keccak256 eb d = Some (Keccak256 (rlp_enc (Lst (frontier_items d)))).
Proof.
  intros Hd Hl Hs. unfold Frontier_Hash, iface_slice.
  rewrite (rlpHash_denotes eb _ _ _ (frontier_denotes _ d Hd)) by (done || by apply size_ok_lt). by rewrite rlp_encs_single.
Qed.

Lemma EIP155_Hash_eq eb c d :
  txdata_ok d -> 0 <= c -> size_ok (eip155_items c d) -> length (sizebuf eb) = 9%nat ->
  EIP155_Hash Keccak256 eb c d = Some (Keccak256 (rlp_enc (Lst (eip155_items c d)))).
Proof.
  intros Hd Hc Hl Hs. unfold EIP155_Hash, iface_slice.
  rewrite (rlpHash_denotes eb _ _ _ (eip155_denotes _ c d Hd Hc)) by (done || by apply size_ok_lt). by rewrite rlp_encs_single.
Qed.
End hashes.

(** ** Encodings determine the fields *)

Lemma big_bytes_inj a b : 0 <= a -> 0 <= b -> big_bytes a = big_bytes b -> a = b.
Proof. intros Ha Hb E. by rewrite <- (be_val_big_bytes a), <- (be_val_big_bytes b), E. Qed.

Lemma big_item_inj a b : nonneg a -> nonneg b -> big_item a = big_item b -> default 0 a = default 0 b.
Proof. unfold nonneg, big_item. intros Ha Hb [= E]. by apply big_bytes_inj. Qed.

Lemma recipient_inj a b :
  (forall x, a = Some x -> length x = 20%nat /\ bytes_ok x) ->
  (forall x, b = Some x -> length x = 20%nat /\ bytes_ok x) -> default [] a = default [] b -> a = b.
Proof.
  intros Ha Hb E. destruct a as [x|], b as [y|]; simpl in E; try done; [by subst|..]; subst.
  - by destruct (Ha _ eq_refl).
  - by destruct (Hb _ eq_refl).
Qed.

(** The fields a signature should bind. *)
Definition same_signed (d1 d2 : txdata) : Prop :=
  RandomId d1 = RandomId d2 /\ default 0 (Price d1) = default 0 (Price d2) /\ GasLimit d1 = GasLimit d2 /\
  BlockLimit d1 = BlockLimit d2 /\ Recipient d1 = Recipient d2 /\ default 0 (Amount d1) = default 0 (Amount d2) /\
  Payload d1 = Payload d2 /\ default 0 (ChainId d1) = default 0 (ChainId d2) /\
  default 0 (GroupId d1) = default 0 (GroupId d2) /\ ExtraData d1 = ExtraData d2.

Lemma recipient_bytes d : txdata_ok d -> bytes_ok (default [] (Recipient d)).
Proof. intros Hd. destruct (Recipient d) as [a|] eqn:E; [|constructor]. by apply (ok_Recipient d Hd). Qed.

(** Items of a transaction consist of bytes. *)
Ltac tx_items_ok :=
  apply item_bytes_ok_lst; repeat (apply Forall_cons; split; [cbn [item_bytes_ok big_item]; first [apply big_bytes_ok|by apply recipient_bytes|done|apply Forall_nil_2]|]);
  try apply Forall_nil_2.

Lemma frontier_items_ok d : txdata_ok d -> item_bytes_ok (Lst (frontier_items d)).
Proof. intros Hd. pose proof (ok_Payload d Hd). pose proof (ok_ExtraData d Hd). tx_items_ok. Qed.

Lemma frontier_items_inj d1 d2 :
  txdata_ok d1 -> txdata_ok d2 -> frontier_items d1 = frontier_items d2 -> same_signed d1 d2.
Proof.
  intros H1 H2 [= E1 E2 E3 E4 E5 E6 E7 E8 E9 E10]. pose proof H1 as [? ? ? ? ? ? ? ? ? ? ? ? ?].
  pose proof H2 as [? ? ? ? ? ? ? ? ? ? ? ? ?]. unfold u64_ok, nonneg in *.
  split_and!; try done; try (by apply big_bytes_inj; try lia); by apply recipient_inj.
Qed.

Definition sample_tx : txdata :=
  Txdata 7 (Some 1) 100 500 (Some (replicate 20 9)) (Some 5) [1; 2; 3] (Some 1) (Some 2) [] (Some 0) (Some 0) (Some 0) None.
Lemma sample_tx_ok : txdata_ok sample_tx.
Proof.
  split; try (by vm_compute); try (repeat constructor; done).
  intros a [= <-]. split; [done|]. repeat (constructor; [by vm_compute|]). constructor.
Qed.

(** Other chain data in the same transaction. *)
Definition with_chain_data (d : txdata) (bl : Z) (cid gid : option Z) (extra : list Z) : txdata :=
  Txdata (RandomId d) (Price d) (GasLimit d) bl (Recipient d) (Amount d) (Payload d) cid gid extra
    (tx_V d) (tx_R d) (tx_S d) (tx_Hash d).

(** The hash of EIP155Signer leaves out the block limit, the chain and
    group ids and the extra data of the transaction: whoever changes them in a
    protected signed transaction keeps its signature valid, and every EIP155
    signer still recovers the same sender. *)
Theorem eip155_leaves_chain_data_unsigned (Keccak256 : list Z -> list Z) `{Secp256k1} eb c m d v bl cid gid extra :
  tx_V d = Some v -> isProtectedV v = true ->
  EIP155_Hash Keccak256 eb c (with_chain_data d bl cid gid extra) = EIP155_Hash Keccak256 eb c d /\
  Signer_Sender Keccak256 eb (EIP155Signer c m) (with_chain_data d bl cid gid extra) =
  Signer_Sender Keccak256 eb (EIP155Signer c m) d.
Proof.
  intros Ev Hp. split; [done|]. unfold Signer_Sender, EIP155_Sender, sig_values. simpl. rewrite Ev. simpl.
  destruct (tx_R d), (tx_S d); simpl; try done. by rewrite Hp.
Qed.

Lemma eip155_leaves_chain_data_unsigned_witness :
  let d := set_signature sample_tx 1 1 37 in
  @Signer_Sender one_point_library (fun _ => zeros 32) new_encbuf (EIP155Signer 1 2)
    (with_chain_data d 999 (Some 8) (Some 9) [1]) =
  @Signer_Sender one_point_library (fun _ => zeros 32) new_encbuf (EIP155Signer 1 2) d.
Proof.
  apply (@eip155_leaves_chain_data_unsigned (fun _ => zeros 32) one_point_library new_encbuf 1 2
    (set_signature sample_tx 1 1 37) 37 999 (Some 8) (Some 9) [1]); reflexivity.
Defined.

(** ** Signing and recovering *)

Lemma pad_big l : bytes_ok l -> length l = 32%nat ->
  len (big_bytes (be_val l)) <= 32 /\ zeros (32 - len (big_bytes (be_val l))) ++ big_bytes (be_val l) = l.
Proof.
  intros Hb Hl. pose proof (be_val_bound l Hb) as [Hv1 Hv2]. unfold len in Hv2. rewrite Hl in Hv2.
  pose proof (big_bytes_len_le (be_val l) 32 (conj Hv1 Hv2)) as Hle. split; [done|].
  pose proof (be_bytes_low 32 (big_bytes (be_val l)) (big_bytes_ok _)) as E. rewrite be_val_big_bytes in E by done.
  rewrite <- Hl, be_bytes_be_val in E by done. etransitivity; [|symmetry; exact E]. unfold len in Hle. rewrite Hl.
  replace (length (big_bytes (be_val l)) - 32)%nat with 0%nat by lia. rewrite drop_0. unfold zeros, len. do 2 f_equal. lia.
Qed.

Lemma sig_layout {A} (a b c d x y : list A) (v : A) :
  a ++ b = x -> c ++ d = y -> a ++ b ++ c ++ d ++ [v] = (x ++ y) ++ [v].
Proof. intros <- <-. by rewrite <- !app_assoc. Qed.

(** The number that is added to the recovery id, by signer. *)
Definition v_base (s : Signer) : Z :=
  match s with EIP155Signer c _ => if c =? 0 then 27 else 35 + 2 * c | _ => 27 end.
Definition homestead_rules (s : Signer) : bool := match s with FrontierSigner => false | _ => true end.

Lemma bit_len_small z n : 0 <= n -> 0 <= z < 2 ^ n -> bit_len z <= n.
Proof. intros Hn Hz. apply bit_len_le; [done|]. rewrite Z.abs_eq; lia. Qed.

Lemma ValidateSignatureValues_low v r s hs :
  0 < r < secp256k1N -> 0 < s <= secp256k1halfN -> 0 <= v -> ValidateSignatureValues v r s hs = (v <? 2).
Proof.
  intros Hr Hs Hv. assert (HN : secp256k1halfN < secp256k1N) by (by vm_compute).
  unfold ValidateSignatureValues. destruct (Z.ltb_spec r 1); [lia|]. destruct (Z.ltb_spec s 1); [lia|]. cbn [orb].
  destruct (Z.ltb_spec secp256k1halfN s); [lia|]. rewrite andb_false_r.
  destruct (Z.ltb_spec r secp256k1N); [|lia]. destruct (Z.ltb_spec s secp256k1N); [|lia]. cbn [andb].
  destruct (Z.eqb_spec v 0), (Z.eqb_spec v 1), (Z.ltb_spec v 2); cbn [orb]; first [reflexivity|lia].
Qed.

Section signing.
  Context `{SecpLaws} (Keccak256 : list Z -> list Z)
    (Hk : forall x, length (Keccak256 x) = 32%nat /\ bytes_ok (Keccak256 x)).

(** The address of a private key. *)
Lemma key_address k :
  key_ok (pub_of := pub_of) k ->
  PubkeyToAddress Keccak256 (key_pub k) =
  Some (drop 12 (Keccak256 (be_bytes 32 (fst (key_pub k)) ++ be_bytes 32 (snd (key_pub k))))).
Proof.
  intros [Hd Hp]. rewrite Hp. destruct (pub_on_curve _ Hd) as (Hx & Hy & _).
  unfold PubkeyToAddress, FromECDSAPub. destruct (pub_of (key_D k)) as [x y]. simpl in Hx, Hy.
  rewrite elliptic_Marshal_ok by done. cbn [mbind option_bind fst snd].
  set (pb := be_bytes 32 x ++ be_bytes 32 y). assert (go_from (4 :: pb) 1 = Some pb) as -> by apply (go_from_app [4] pb).
  cbn [mbind option_bind]. destruct (Hk pb) as [L B].
  rewrite go_from_drop by (unfold len; lia). cbn [mbind option_bind].
  unfold BytesToAddress, Address_SetBytes. rewrite set_bytes_eq by (done || unfold len; rewrite ?length_replicate; lia).
  rewrite len_drop. unfold len. rewrite L. change (Z.to_nat 12) with 12%nat. by rewrite take_0, drop_0.
Qed.

(** What recoverPlain makes of a signature of the library. *)
Lemma recoverPlain_sig h k sig v hs :
  length h = 32%nat -> key_ok (pub_of := pub_of) k -> 0 <= v < 4 ->
  ecdsa_sign_recoverable h (be_bytes 32 (key_D k)) = Some (sig, v) ->
  recoverPlain Keccak256 h (be_val (take 32 sig)) (be_val (take 32 (drop 32 sig))) (v + 27) hs =
  if v <? 2 then of_option (PubkeyToAddress Keccak256 (key_pub k)) else Err ErrInvalidSig.
Proof.
  intros Hh Hko Hv E. pose proof Hko as [Hd Hp]. destruct (sign_recovers h _ sig v Hh Hd E) as (L & B & _ & HR & HS & Rec).
  rewrite key_address by done.
  assert (L1 : length (take 32 sig) = 32%nat) by (rewrite length_take; lia).
  assert (L2 : length (drop 32 sig) = 32%nat) by (rewrite length_drop; lia).
  rewrite (take_ge (drop 32 sig)) by lia. pose proof (bytes_ok_take 32 sig B) as B1. pose proof (bytes_ok_drop 32 sig B) as B2.
  unfold recoverPlain. destruct (Z.ltb_spec 8 (bit_len (v + 27))) as [Hb|_].
  { pose proof (bit_len_small (v + 27) 8). lia. }
  assert (u8 (u64 (Z.abs (v + 27)) - 27) = v) as ->.
  { rewrite Z.abs_eq, u64_small by (unfold u64_ok; lia). rewrite Z.add_simpl_r. apply u8_small. unfold byte_ok. lia. }
  rewrite ValidateSignatureValues_low by (done || lia).
  destruct (Z.ltb_spec v 2) as [Hv2|]; [|done]. cbn [negb].
  destruct (pad_big _ B1 L1) as [Z1 P1]. destruct (pad_big _ B2 L2) as [Z2 P2].
  destruct (Z.ltb_spec 32 (len (big_bytes (be_val (take 32 sig))))); [lia|].
  destruct (Z.ltb_spec 32 (len (big_bytes (be_val (drop 32 sig))))); [lia|]. cbn [orb].
  rewrite (sig_layout _ _ _ _ _ _ v P1 P2), take_drop. unfold Ecrecover, RecoverPubkey, checkSignature.
  unfold len. rewrite Hh, length_app, L. change (negb (Z.of_nat 32 =? 32)) with false.
  change (negb (Z.of_nat (64 + length [v]) =? 65)) with false. cbv iota.
  rewrite lookup_app_r, L by lia. change (default 0 ([v] !! (64 - 64)%nat)) with v.
  destruct (Z.leb_spec 4 v); [lia|]. rewrite Rec, <- Hp.
  set (pb := be_bytes 32 (fst (key_pub k)) ++ be_bytes 32 (snd (key_pub k))). destruct (Hk pb) as [Lk Bk].
  rewrite go_from_drop by (unfold len; lia). change (Z.to_nat 12) with 12%nat. cbn [of_option]. f_equal.
  unfold go_copy. rewrite take_ge by (rewrite length_drop, Lk; simpl; lia).
  rewrite (drop_ge (zeros 20)) by (rewrite length_drop, Lk; simpl; lia). apply app_nil_r.
Qed.

(** The signers that sign, as NewEIP155Signer makes them. *)
Definition signer_ok (s : Signer) : Prop :=
  match s with
  | EIP155Signer c m => 0 <= c /\ m = c * 2
  | HomesteadSigner | FrontierSigner => True
  | senderFromServer _ _ => False
  end.
Definition signer_items (s : Signer) (d : txdata) : list item :=
  match s with EIP155Signer c _ => eip155_items c d | _ => frontier_items d end.

Lemma Signer_Hash_eq eb s d :
  signer_ok s -> txdata_ok d -> size_ok (signer_items s d) -> length (sizebuf eb) = 9%nat ->
  Signer_Hash Keccak256 eb s d = Some (Keccak256 (rlp_enc (Lst (signer_items s d)))).
Proof.
  intros Hs Hd Hz Hb. destruct s as [c m| | |]; simpl in *; [|by apply Frontier_Hash_eq..|done].
  destruct Hs. by apply EIP155_Hash_eq.
Qed.

Lemma SignatureValues_sig s sig v :
  signer_ok s -> length sig = 64%nat -> 0 <= v < 4 ->
  SignatureValues s (sig ++ [v]) = Some (be_val (take 32 sig), be_val (take 32 (drop 32 sig)), v + v_base s).
Proof.
  intros Hs L Hv.
  assert (F : Frontier_SignatureValues (sig ++ [v]) = Some (be_val (take 32 sig), be_val (take 32 (drop 32 sig)), v + 27)).
  { unfold Frontier_SignatureValues, len. rewrite length_app, L. change (negb (Z.of_nat (64 + length [v]) =? 65)) with false.
    cbv iota. rewrite lookup_app_r, L by lia. change (default 0 ([v] !! (64 - 64)%nat)) with v.
    rewrite take_app_le, drop_app_le by lia. rewrite take_app_le by (rewrite length_drop; lia).
    by rewrite u8_small by (unfold byte_ok; lia). }
  destruct s as [c m| | |]; simpl in Hs; try done. destruct Hs as [Hc ->].
  unfold SignatureValues. rewrite F. simpl. rewrite lookup_app_r, L by lia. change (default 0 ([v] !! (64 - 64)%nat)) with v.
  unfold v_base. rewrite u8_small by (unfold byte_ok; lia). destruct (c =? 0); simpl; do 2 f_equal; lia.
Qed.

(** What SignTx makes of a signature of the library. *)
Lemma SignTx_sig wb eb tx s k :
  (0 < wb)%nat -> signer_ok s -> txdata_ok (data tx) -> size_ok (signer_items s (data tx)) -> length (sizebuf eb) = 9%nat ->
  key_ok (pub_of := pub_of) k ->
  let h := Keccak256 (rlp_enc (Lst (signer_items s (data tx)))) in
  match ecdsa_sign_recoverable h (be_bytes 32 (key_D k)) with
  | None => SignTx wb Keccak256 eb tx s k = Err (errCrypto ErrSignFailed)
  | Some (sig, v) => 0 <= v < 4 /\ SignTx wb Keccak256 eb tx s k =
      Ok (Tx (set_signature (data tx) (be_val (take 32 sig)) (be_val (take 32 (drop 32 sig))) (v + v_base s)) None None None)
  end.
Proof.
  intros Hwb Hs Hd Hz Hb Hko h. pose proof Hko as [HD _]. destruct (Hk (rlp_enc (Lst (signer_items s (data tx))))) as [L B].
  unfold SignTx. rewrite Signer_Hash_eq by done. fold h. fold h in L, B. unfold crypto_Sign, secp_Sign.
  rewrite padded_key by done. unfold len. rewrite L, be_bytes_length. change (negb (Z.of_nat 32 =? 32)) with false. cbv iota.
  assert (ec_seckey_verify (be_bytes 32 (key_D k)) = true) as ->.
  { apply seckey_verify_spec; [apply be_bytes_length|apply be_bytes_ok|]. by rewrite be_val_be32 by (by apply key_range). }
  cbn [negb]. destruct (ecdsa_sign_recoverable h _) as [[sig v]|] eqn:E; [|done].
  destruct (sign_recovers h _ sig v L HD E) as (Ls & _ & Hv & _). split; [done|].
  rewrite u8_small by (unfold byte_ok; lia). unfold WithSignature. by rewrite SignatureValues_sig.
Qed.

Lemma eip155_v v c :
  0 <= v < 4 -> 0 < c -> isProtectedV (v + (35 + 2 * c)) = true /\ deriveChainId (v + (35 + 2 * c)) = c + v / 2.
Proof.
  intros Hv Hc. set (V := v + (35 + 2 * c)). assert (HV : 37 <= V) by lia.
  assert (U : forall n, 0 <= n <= 64 -> bit_len V <= n -> u64 (Z.abs V) = V).
  { intros n Hn Hl. apply bit_len_le in Hl; [|lia]. rewrite Z.abs_eq in * by lia. apply u64_small. unfold u64_ok.
    split; [lia|]. eapply Z.lt_le_trans; [exact Hl|]. apply Z.pow_le_mono_r; lia. }
  assert (D : (V - 35) / 2 = c + v / 2).
  { replace (V - 35) with (v + c * 2) by (subst V; lia). rewrite Z.div_add by lia. lia. }
  split.
  - unfold isProtectedV. destruct (Z.leb_spec (bit_len V) 8); [|done]. rewrite (U 8) by lia.
    destruct (Z.eqb_spec V 27); [lia|]. destruct (Z.eqb_spec V 28); [lia|]. done.
  - unfold deriveChainId. destruct (Z.leb_spec (bit_len V) 64) as [Hl|]; [|done]. rewrite (U 64) by lia.
    destruct (Z.eqb_spec V 27); [lia|]. destruct (Z.eqb_spec V 28); [lia|]. cbn [orb].
    rewrite u64_small; [done|]. pose proof (U 64 ltac:(lia) Hl) as E. pose proof (u64_u64_ok (Z.abs V)). unfold u64_ok in *. lia.
Qed.

Lemma Signer_Sender_sig eb d s k sig v :
  signer_ok s -> v_base s <> 27 \/ homestead_rules s = false \/ s = HomesteadSigner ->
  txdata_ok d -> size_ok (signer_items s d) -> length (sizebuf eb) = 9%nat -> key_ok (pub_of := pub_of) k -> 0 <= v < 4 ->
  ecdsa_sign_recoverable (Keccak256 (rlp_enc (Lst (signer_items s d)))) (be_bytes 32 (key_D k)) = Some (sig, v) ->
  let d' := set_signature d (be_val (take 32 sig)) (be_val (take 32 (drop 32 sig))) (v + v_base s) in
  if v <? 2 then Signer_Sender Keccak256 eb s d' = of_option (PubkeyToAddress Keccak256 (key_pub k))
  else exists e, Signer_Sender Keccak256 eb s d' = Err e.
Proof.
  intros Hs Hc Hd Hz Hb Hko Hv E d'. destruct (Hk (rlp_enc (Lst (signer_items s d)))) as [L _].
  pose proof (recoverPlain_sig _ k sig v (homestead_rules s) L Hko Hv E) as R.
  destruct s as [c m| | |]; try done.
  - simpl in Hs. destruct Hs as [Hc0 ->]. unfold v_base in *. destruct (Z.eqb_spec c 0) as [|Nc].
    { destruct Hc as [Hc|[Hc|Hc]]; done. }
    destruct (eip155_v v c Hv ltac:(lia)) as [P D]. unfold Signer_Sender, EIP155_Sender, sig_values. simpl.
    rewrite P, D. simpl. change (EIP155_Hash Keccak256 eb c d') with (EIP155_Hash Keccak256 eb c d).
    rewrite EIP155_Hash_eq by done.
    destruct (Z.ltb_spec v 2).
    + rewrite (Z.div_small v 2), Z.add_0_r, Z.eqb_refl by lia. simpl. replace (v + (35 + 2 * c) - c * 2 - 8) with (v + 27) by lia.
      exact R.
    + assert (v / 2 = 1) as -> by (symmetry; apply Z.div_unique with (v - 2); lia).
      destruct (Z.eqb_spec (c + 1) c); [lia|]. by eexists.
  - unfold Signer_Sender, Homestead_Sender, sig_values. simpl.
    change (Frontier_Hash Keccak256 eb d') with (Frontier_Hash Keccak256 eb d). rewrite Frontier_Hash_eq by done.
    cbn [homestead_rules signer_items] in R. rewrite R. destruct (v <? 2); [done|by eexists].
  - unfold Signer_Sender, Homestead_Sender, sig_values. simpl.
    change (Frontier_Hash Keccak256 eb d') with (Frontier_Hash Keccak256 eb d). rewrite Frontier_Hash_eq by done.
    cbn [homestead_rules signer_items] in R. rewrite R. destruct (v <? 2); [done|by eexists].
Qed.
End signing.

(** A library with laws: hypotheses of the theorems below. *)
Definition keccak_ok (Keccak256 : list Z -> list Z) : Prop :=
  forall x, length (Keccak256 x) = 32%nat /\ bytes_ok (Keccak256 x).

Lemma SignTx_then_Sender wb `{SecpLaws} Keccak256 eb eb' tx s k :
  (0 < wb)%nat -> keccak_ok Keccak256 ->
  signer_ok s -> s <> EIP155Signer 0 0 -> txdata_ok (data tx) -> size_ok (signer_items s (data tx)) ->
  length (sizebuf eb) = 9%nat -> length (sizebuf eb') = 9%nat -> key_ok (pub_of := pub_of) k ->
  match SignTx wb Keccak256 eb tx s k with
  | Ok tx' => exists v r t a, 0 <= v < 4 /\ data tx' = set_signature (data tx) r t (v + v_base s) /\
      PubkeyToAddress Keccak256 (key_pub k) = Some a /\
      if v <? 2 then Sender Keccak256 eb' s tx' = Ok (a, Tx (data tx') None None (Some (s, a)))
      else exists e, Sender Keccak256 eb' s tx' = Err e
  | Err e => e = errCrypto ErrSignFailed
  | _ => False
  end.
Proof.
  intros Hwb Hk Hs Hn Hd Hz Hb Hb' Hko. pose proof (SignTx_sig Keccak256 Hk wb eb tx s k Hwb Hs Hd Hz Hb Hko) as HS.
  cbv zeta in HS. destruct (ecdsa_sign_recoverable _ _) as [[sig v]|] eqn:E; [|by rewrite HS].
  destruct HS as [Hv ->]. rewrite (key_address Keccak256 Hk k Hko). do 4 eexists. split; [exact Hv|].
  split; [reflexivity|]. split; [reflexivity|].
  assert (Hc : v_base s <> 27 \/ homestead_rules s = false \/ s = HomesteadSigner).
  { destruct s as [c m| | |]; [|by right; right|by right; left|done]. left. simpl in *. destruct Hs as [? ->].
    destruct (Z.eqb_spec c 0); [by subst|lia]. }
  pose proof (Signer_Sender_sig Keccak256 Hk eb' (data tx) s k sig v Hs Hc Hd Hz Hb' Hko Hv E) as HR. cbv zeta in HR.
  unfold Sender. cbn [from_cache data]. destruct (v <? 2).
  - rewrite HR, (key_address Keccak256 Hk k Hko). reflexivity.
  - destruct HR as [e ->]. by exists e.
Qed.

(** The numbers of a signature. *)
Lemma SignTx_values wb `{SecpLaws} Keccak256 eb tx s k tx' r t v :
  (0 < wb)%nat -> keccak_ok Keccak256 -> signer_ok s -> txdata_ok (data tx) -> size_ok (signer_items s (data tx)) -> length (sizebuf eb) = 9%nat ->
  key_ok (pub_of := pub_of) k -> SignTx wb Keccak256 eb tx s k = Ok tx' -> data tx' = set_signature (data tx) r t v -> 0 < r < secp256k1N /\ 0 < t <= secp256k1halfN.
Proof.
  intros Hwb Hk Hs Hd Hz Hb Hko HT Ed. pose proof (SignTx_sig Keccak256 Hk wb eb tx s k Hwb Hs Hd Hz Hb Hko) as HS. cbv zeta in HS. rewrite HT in HS.
  destruct (ecdsa_sign_recoverable _ _) as [[sig v']|] eqn:E; [|done]. destruct HS as [_ [= ->]]. cbn [data] in Ed. destruct Hko as [HD _].
  destruct (sign_recovers _ _ sig v' (proj1 (Hk _)) HD E) as (L & _ & _ & Hr & Ht & _). injection Ed as _ <- <-.
  rewrite (take_ge (drop 32 sig)) by (rewrite length_drop, L; done). done.
Qed.

Lemma sample_keccak_ok : keccak_ok (fun _ => zeros 32).
Proof. intros x. split; [done|]. by apply Forall_replicate. Qed.

Lemma sample_key_ok : key_ok (pub_of := fun _ => (curve_Gx, curve_Gy)) (PrivKey 1 (curve_Gx, curve_Gy)).
Proof. split; [split; by vm_compute|done]. Qed.

(** The fields that the hash of a signer covers; a number stands for itself and nil
    for 0.  EIP155 signers leave out the block limit, the ids and the extra data. *)
Definition same_eip155 (d1 d2 : txdata) : Prop :=
  RandomId d1 = RandomId d2 /\ default 0 (Price d1) = default 0 (Price d2) /\ GasLimit d1 = GasLimit d2 /\
  Recipient d1 = Recipient d2 /\ default 0 (Amount d1) = default 0 (Amount d2) /\ Payload d1 = Payload d2.
Definition signs_same (s1 s2 : Signer) (d1 d2 : txdata) : Prop :=
  match s1, s2 with
  | EIP155Signer c1 _, EIP155Signer c2 _ => c1 = c2 /\ same_eip155 d1 d2
  | EIP155Signer _ _, _ | _, EIP155Signer _ _ => False
  | _, _ => same_signed d1 d2
  end.

Lemma eip155_items_inj c1 c2 d1 d2 :
  txdata_ok d1 -> txdata_ok d2 -> 0 <= c1 -> 0 <= c2 -> eip155_items c1 d1 = eip155_items c2 d2 -> c1 = c2 /\ same_eip155 d1 d2.
Proof.
  intros H1 H2 Hc1 Hc2 [= E1 E2 E3 E4 E5 E6 E7]. pose proof H1 as [? ? ? ? ? ? ? ? ? ? ? ? ?].
  pose proof H2 as [? ? ? ? ? ? ? ? ? ? ? ? ?]. unfold u64_ok, nonneg in *.
  split; [by apply big_bytes_inj|]. split_and!; try done; try (by apply big_bytes_inj; try lia); by apply recipient_inj.
Qed.

(** The items that are hashed agree exactly if the fields do. *)
Lemma signer_items_inj s1 s2 d1 d2 :
  signer_ok s1 -> signer_ok s2 -> txdata_ok d1 -> txdata_ok d2 ->
  signer_items s1 d1 = signer_items s2 d2 <-> signs_same s1 s2 d1 d2.
Proof.
  intros H1 H2 Hd1 Hd2.
  assert (F : frontier_items d1 = frontier_items d2 <-> same_signed d1 d2).
  { split; [by apply frontier_items_inj|]. intros (E1 & E2 & E3 & E4 & E5 & E6 & E7 & E8 & E9 & E10).
    unfold frontier_items, big_item. by rewrite E1, E2, E3, E4, E5, E6, E7, E8, E9, E10. }
  destruct s1 as [c1 m1| | |], s2 as [c2 m2| | |]; cbn [signer_ok] in H1, H2; try done; cbn [signer_items signs_same]; try exact F;
    try (split; [intros E; discriminate (f_equal length E)|done]).
  destruct H1, H2. split; [by apply eip155_items_inj|]. intros (-> & E1 & E2 & E3 & E4 & E5 & E6).
  unfold eip155_items, big_item. by rewrite E1, E2, E3, E4, E5, E6.
Qed.

Lemma signer_items_bytes s d : signer_ok s -> txdata_ok d -> item_bytes_ok (Lst (signer_items s d)).
Proof.
  intros Hs Hd. destruct s as [c m| | |]; try done; [|by apply frontier_items_ok..]. pose proof (ok_Payload _ Hd). simpl in Hs. cbn [signer_items]. tx_items_ok.
Qed.





(** ** The chain id 0

    A signer made by NewEIP155Signer for the chain id 0, which it takes for nil,
    signs the EIP155 encoding but writes V as 27 or 28, and Sender, taking the
    transaction for unprotected, recovers the sender from the Homestead encoding. *)

Lemma eip155_zero_differs d : txdata_ok d -> size_ok (eip155_items 0 d) ->
  rlp_enc (Lst (eip155_items 0 d)) <> rlp_enc (Lst (frontier_items d)).
Proof.
  intros Hd Hz Ex. apply rlp_enc_inj in Ex; [|pose proof (ok_Payload _ Hd); tx_items_ok|by apply frontier_items_ok|exact Hz].
  apply (f_equal (fun it => match it with Lst l => length l | _ => 0%nat end)) in Ex. discriminate Ex.
Qed.
Lemma eip155_zero_sender wb `{SecpLaws} Keccak256 eb eb' tx k tx' :
  (0 < wb)%nat -> keccak_ok Keccak256 -> txdata_ok (data tx) -> size_ok (eip155_items 0 (data tx)) ->
  length (sizebuf eb) = 9%nat -> key_ok (pub_of := pub_of) k ->
  SignTx wb Keccak256 eb tx (NewEIP155Signer None) k = Ok tx' ->
  Signer_Sender Keccak256 eb' (NewEIP155Signer None) (data tx') = Homestead_Sender Keccak256 eb' true (data tx') \/
  Signer_Sender Keccak256 eb' (NewEIP155Signer None) (data tx') = Err ErrInvalidChainId.
Proof.
  intros Hwb Hk Hd Hz Hb Hko E. pose proof (SignTx_sig Keccak256 Hk wb eb tx (EIP155Signer 0 0) k Hwb ltac:(simpl; lia) Hd Hz Hb Hko) as HS.
  cbv zeta in HS. change (NewEIP155Signer None) with (EIP155Signer 0 0) in *.
  destruct (ecdsa_sign_recoverable _ _) as [[sig v]|]; [|rewrite HS in E; done]. destruct HS as [Hv HS]. rewrite HS in E. injection E as <-.
  unfold Signer_Sender, EIP155_Sender, sig_values. cbn -[isProtectedV deriveChainId Homestead_Sender EIP155_Hash].
  assert (Hc : v = 0 \/ v = 1 \/ v = 2 \/ v = 3) by lia. destruct Hc as [-> | [-> | [-> | ->]]]; [by left|by left|by right|by right].
Qed.

(** C3: Signing and recovering fit together, for the four kinds of signers.  With
    a valid key and an EIP155 signer for a positive chain id, a Homestead or a
    Frontier signer, SignTx succeeds unless the library fails to sign; it changes
    nothing but the signature; and Sender with the same signer returns the address
    of the key and caches it, except for the signatures with recovery id 2 or 3,
    which are rejected.  An EIP155 signer for the chain id 0, or nil, does not fit:
    it signs one encoding, and Sender recovers from another that differs, or fails.
    With the signer that stands for an answer of a server, SignTx panics. *)
Theorem sign_then_sender wb `{SecpLaws} Keccak256 eb eb' tx k :
  (0 < wb)%nat -> keccak_ok Keccak256 -> txdata_ok (data tx) -> size_ok (eip155_items 0 (data tx)) ->
  length (sizebuf eb) = 9%nat -> length (sizebuf eb') = 9%nat -> key_ok (pub_of := pub_of) k ->
  (forall s, signer_ok s -> s <> EIP155Signer 0 0 -> size_ok (signer_items s (data tx)) ->
   match SignTx wb Keccak256 eb tx s k with
   | Ok tx' => exists v r t a, 0 <= v < 4 /\ data tx' = set_signature (data tx) r t (v + v_base s) /\
       PubkeyToAddress Keccak256 (key_pub k) = Some a /\
       if v <? 2 then Sender Keccak256 eb' s tx' = Ok (a, Tx (data tx') None None (Some (s, a)))
       else exists e, Sender Keccak256 eb' s tx' = Err e
   | Err e => e = errCrypto ErrSignFailed
   | _ => False
   end) /\
  (Signer_Hash Keccak256 eb (NewEIP155Signer None) (data tx) = Some (Keccak256 (rlp_enc (Lst (eip155_items 0 (data tx))))) /\
   rlp_enc (Lst (eip155_items 0 (data tx))) <> rlp_enc (Lst (frontier_items (data tx))) /\
   forall tx', SignTx wb Keccak256 eb tx (NewEIP155Signer None) k = Ok tx' ->
     Signer_Sender Keccak256 eb' (NewEIP155Signer None) (data tx') = Homestead_Sender Keccak256 eb' true (data tx') \/
     Signer_Sender Keccak256 eb' (NewEIP155Signer None) (data tx') = Err ErrInvalidChainId) /\
  (forall addr h, SignTx wb Keccak256 eb tx (senderFromServer addr h) k = Panic).
Proof.
  intros Hwb Hk Hd Hz Hb Hb' Hko. split; [|split; [|done]].
  - intros s Hs Hn Hsz. eapply SignTx_then_Sender; eassumption.
  - split; [by apply (Signer_Hash_eq Keccak256 eb (EIP155Signer 0 0))|]. split; [by apply eip155_zero_differs|]. intros tx' E.
    by eapply (eip155_zero_sender wb Keccak256 eb eb' tx k).
Qed.

Lemma sign_then_sender_witness :
  match @SignTx 8 one_point_library (fun _ => zeros 32) new_encbuf (Tx sample_tx None None None) (EIP155Signer 1 2)
          (PrivKey 1 (curve_Gx, curve_Gy)) with
  | Ok tx' => exists v r t a, 0 <= v < 4 /\ data tx' = set_signature sample_tx r t (v + 37) /\
      PubkeyToAddress (fun _ => zeros 32) (curve_Gx, curve_Gy) = Some a /\
      if v <? 2 then @Sender one_point_library (fun _ => zeros 32) new_encbuf (EIP155Signer 1 2) tx' =
                     Ok (a, Tx (data tx') None None (Some (EIP155Signer 1 2, a)))
      else exists e, @Sender one_point_library (fun _ => zeros 32) new_encbuf (EIP155Signer 1 2) tx' = Err e
  | Err e => e = errCrypto ErrSignFailed
  | _ => False
  end /\
  @SignTx 8 one_point_library (fun _ => zeros 32) new_encbuf (Tx sample_tx None None None) (senderFromServer [] []) (PrivKey 1 (curve_Gx, curve_Gy)) = Panic.
Proof.
  destruct (@sign_then_sender 8 one_point_library _ one_point_laws (fun _ => zeros 32) new_encbuf new_encbuf
    (Tx sample_tx None None None) (PrivKey 1 (curve_Gx, curve_Gy))) as (H & _ & H2);
    try first [exact sample_keccak_ok|exact sample_tx_ok|exact sample_key_ok|lia|by vm_compute|reflexivity].
  split; [|exact (H2 [] [])]. apply (H (EIP155Signer 1 2)); first [discriminate|by vm_compute].
Defined.

(** ** Round trips *)

(** What decoding makes of the data: nil integers come back as 0, and the Hash
    field, which is for JSON only, as nil. *)
Definition normal (d : txdata) : txdata :=
  let big z := Some (default 0 z) in
  Txdata (RandomId d) (big (Price d)) (GasLimit d) (BlockLimit d) (Recipient d) (big (Amount d)) (Payload d)
    (big (ChainId d)) (big (GroupId d)) (ExtraData d) (big (tx_V d)) (big (tx_R d)) (big (tx_S d)) None.

Lemma recipient_repr ui a :
  (forall x, a = Some x -> length x = 20%nat /\ bytes_ok x) ->
  repr ui (TPtr address_type) (Tags true KString false false) true (VPtr (VBytes <$> a)) [Str (default [] a)].
Proof.
  intros Ha. destruct a as [x|]; simpl.
  - destruct (Ha x eq_refl) as [L B]. split.
    + split_and!; try done. intros ->. done.
    + intros _. constructor; [|constructor]. simpl. by destruct x.
  - split_and!; try done. split; by eexists.
Qed.

Lemma big_repr ui ts z : nonneg z -> repr ui TBigIntPtr ts true (VBig (Some (default 0 z))) [big_item z].
Proof. by intros Hz. Qed.
Lemma txdata_repr ui d :
  txdata_ok d -> repr ui txdata_type no_tags true (txdata_value (normal d)) [Lst (tx_items d)].
Proof.
  intros [? ? ? ? ? ? ? ? ? ? ? ? ?]. exists (tx_items d). split; [done|].
  repeat repr_field ltac:(first [by apply uint64_repr|by apply big_repr|by apply recipient_repr|by apply byte_slice_repr]).
  eapply repr_fields_ignored; [reflexivity|vm_compute; reflexivity|done..].
Qed.

Lemma tx_items_bytes d : txdata_ok d -> item_bytes_ok (Lst (tx_items d)).
Proof. intros Hd. pose proof (ok_Payload d Hd). pose proof (ok_ExtraData d Hd). tx_items_ok. Qed.

Definition tx_user_item (_ : nat) (u : rtype) (v : value) (it : item) : Prop :=
  u = tx_struct /\ exists d, txdata_ok d /\ v = tx_value (normal d) /\ it = Lst (tx_items d).

Lemma normal_ok d : txdata_ok d -> txdata_ok (normal d).
Proof. by intros []. Qed.

Lemma ListSize_enc its : len (rlp_enc (Lst its)) < 2 ^ 64 -> ListSize (psize (Lst its)) = len (rlp_enc (Lst its)).
Proof.
  intros Hl. unfold ListSize, psize. simpl item_kind. cbn [payload]. rewrite rlp_enc_lst, len_app in *.
  pose proof (len_nonneg (rlp_encs its)). pose proof (len_nonneg (list_head (len (rlp_encs its)))).
  rewrite (headsize_spec 0xC0 0xF7) by (unfold u64_ok; lia). fold (list_head (len (rlp_encs its))).
  rewrite !u64_small by (unfold u64_ok; rewrite ?u64_small by (unfold u64_ok; lia); lia). done.
Qed.

Lemma txdata_compiles : compiles txdata_type.
Proof. split; eexists; vm_compute; reflexivity. Qed.

(** DecodeRLP reads the data and stores the size of the encoding. *)
Lemma Transaction_DecodeRLP_reads d tx :
  txdata_ok d -> txdata_value (data tx) = RlpTypes.zero txdata_type ->
  decodes (Transaction_DecodeRLP tx) (Lst (tx_items d))
    (Tx (normal d) (hash_cache tx) (Some (len (rlp_enc (Lst (tx_items d))))) (from_cache tx)).
Proof.
  intros Hd Hz c s Hat Hm Hr. destruct (Kind_ready c _ s Hat Hr) as (s1 & E1 & P1).
  destruct (decode_into_reads no_encoders no_decoders (fun _ _ _ _ => False) txdata_type _ _ (txdata_repr _ d Hd) c s1 Hat Hm
    (or_intror P1)) as (s2 & E2 & F2).
  exists s2. split; [|done]. unfold Transaction_DecodeRLP. rewrite E1, Hz, E2, txdata_of_value. do 4 f_equal.
  apply ListSize_enc. by destruct Hat as (_ & _ & _ & Hl).
Qed.

#[export] Instance tx_user_codec : UserCodec tx_encoders tx_decoders tx_user_item.
Proof.
  split.
  - intros m u v it (-> & d & Hd & -> & ->) w Hw Hl.
    apply (EncodeRLP_emits (EncoderLaws := tx_encoder_laws) m (tx_value (normal d))); [|done..].
    exists (normal d). split; [apply txdata_of_value|]. split; [by apply normal_ok|done].
  - intros m u v it (-> & d & Hd & -> & ->). unfold tx_decoders.
    apply (decodes_ret _ _ (Tx (normal d) None (Some (len (rlp_enc (Lst (tx_items d))))) None) (fun tx => tx_value (data tx))).
    by apply Transaction_DecodeRLP_reads.
  - intros m u. unfold tx_decoders. apply eol_bind. intros c s Hf He. unfold Transaction_DecodeRLP.
    destruct (Kind_eol c s Hf He) as (s1 & -> & F1).
    destruct (decode_into_eol no_decoders _
      (txdata_value (data (Tx (default empty_txdata (tx_data_of (RlpTypes.zero u))) None None None))) txdata_compiles c s1 F1 He) as (s2 & E2 & F2).
    exists s2. fold txdata_type in E2. by rewrite E2.
  - intros m u v it (-> & d & Hd & -> & ->). by apply tx_items_bytes.
Qed.

Lemma tx_bytes eb d : txdata_ok d -> size_ok (tx_items d) -> length (sizebuf eb) = 9%nat -> EncodeToBytes tx_encoders eb (tx_ptr d) = Ok (rlp_enc (Lst (tx_items d))).
Proof.
  intros Hd Hz Hb. pose proof (size_ok_lt _ Hz) as Hl. rewrite <- rlp_encs_single. by apply (EncodeToBytes_denotes tx_encoders tx_user_items); [apply tx_denotes|..].
Qed.
Lemma tx_read pooled d : txdata_ok d -> size_ok (tx_items d) -> pooled_ok pooled ->
  DecodeBytes tx_decoders pooled (rlp_enc (Lst (tx_items d))) (Some (TPtr tx_type, VPtr (Some (RlpTypes.zero tx_type)))) = Ok (tx_value (normal d)).
Proof.
  intros Hd Hz Hp. pose proof (tx_items_bytes d Hd) as Hib. assert (U : tx_user_item 0 tx_struct (tx_value (normal d)) (Lst (tx_items d))) by (split; [done|]; by exists d).
  apply (DecodeBytes_reads tx_decoders pooled tx_type (D_decodeDecoder 0)); try done. split; [|apply (user_eol (UserCodec := tx_user_codec) 0 tx_struct)].
  apply (user_decodes (UserCodec := tx_user_codec) 0 tx_struct _ _ U).
Qed.

(** C10: Transactions survive RLP.  For every transaction with non-negative
    integers, EncodeToBytes returns the list of its thirteen fields; decoding it
    gives the transaction back, with nil integers as 0; DecodeRLP on a new
    transaction stores the length of the encoding as its size, the number Size
    computes by encoding; and Hash is the Keccak-256 of the encoding. *)
Theorem transaction_rlp_roundtrip Keccak256 eb pooled d :
  txdata_ok d -> size_ok (tx_items d) -> length (sizebuf eb) = 9%nat -> pooled_ok pooled ->
  let enc := rlp_enc (Lst (tx_items d)) in
  EncodeToBytes tx_encoders eb (tx_ptr d) = Ok enc /\
  DecodeBytes tx_decoders pooled enc (Some (TPtr tx_type, VPtr (Some (RlpTypes.zero tx_type)))) = Ok (tx_value (normal d)) /\
  (exists s', Transaction_DecodeRLP (Tx empty_txdata None None None) (Reset enc (len enc) pooled) =
     (Ok (Tx (normal d) None (Some (len enc)) None), s')) /\
  Transaction_Size eb (Tx d None None None) = Some (len enc, Tx d None (Some (len enc)) None) /\
  Transaction_Hash Keccak256 eb (Tx d None None None) = Some (Keccak256 enc, Tx d (Some (Keccak256 enc)) None None).
Proof.
  intros Hd Hz Hb Hp enc. pose proof (size_ok_lt _ Hz) as Hl. pose proof (tx_items_bytes d Hd) as Hib.
  split; [by apply tx_bytes|split; [by apply tx_read|split; [|split]]].
  - destruct (Transaction_DecodeRLP_reads d (Tx empty_txdata None None None) Hd eq_refl _ (Reset enc (len enc) pooled)
      (whole_item _ Hib Hz) Hz (or_introl (Reset_bytes _ _ Hp))) as (s' & E & _). by exists s'.
  - unfold Transaction_Size. cbn [size_cache data].
    rewrite (Encode_buffer no_encoders no_items eb _ _ _ (txdata_denotes no_items d Hd)) by done.
    by rewrite rlp_encs_single.
  - unfold Transaction_Hash. cbn [hash_cache data]. unfold tx_ptr.
    rewrite (rlpHash_denotes Keccak256 eb _ _ _ (tx_denotes d Hd)) by done. by rewrite rlp_encs_single.
Qed.

Lemma transaction_rlp_roundtrip_witness :
  EncodeToBytes tx_encoders new_encbuf (tx_ptr sample_tx) = Ok (rlp_enc (Lst (tx_items sample_tx))) /\
  DecodeBytes tx_decoders (zero_stream []) (rlp_enc (Lst (tx_items sample_tx)))
    (Some (TPtr tx_type, VPtr (Some (RlpTypes.zero tx_type)))) = Ok (tx_value sample_tx).
Proof.
  assert (Hz : size_ok (tx_items sample_tx)) by (by vm_compute).
  destruct (transaction_rlp_roundtrip (fun _ => zeros 32) new_encbuf (zero_stream []) sample_tx sample_tx_ok Hz eq_refl
    (or_introl eq_refl)) as (H1 & H2 & _).
  exact (conj H1 H2).
Defined.

(** ** The caches *)

(** The cached hash, size and sender are those of the data. *)
Definition caches_ok `{Secp256k1} Keccak256 (tx : Transaction) : Prop :=
  (forall h, hash_cache tx = Some h -> h = Keccak256 (rlp_enc (Lst (tx_items (data tx))))) /\
  (forall n, size_cache tx = Some n -> n = len (rlp_enc (Lst (tx_items (data tx))))) /\
  (forall s a, from_cache tx = Some (s, a) -> signer_ok s /\
     forall eb, length (sizebuf eb) = 9%nat -> Signer_Sender Keccak256 eb s (data tx) = Ok a).

Lemma Signer_Equal_ok s s2 : signer_ok s -> signer_ok s2 -> Signer_Equal s s2 = true -> s = s2.
Proof.
  destruct s, s2; simpl; intros Hs Hs2 E; try done. apply Z.eqb_eq in E. destruct Hs as [_ ->], Hs2 as [_ ->]. by subst.
Qed.

Lemma Signer_Sender_eb `{Secp256k1} Keccak256 eb eb' s d :
  signer_ok s -> txdata_ok d -> size_ok (signer_items s d) -> size_ok (frontier_items d) ->
  length (sizebuf eb) = 9%nat -> length (sizebuf eb') = 9%nat ->
  Signer_Sender Keccak256 eb s d = Signer_Sender Keccak256 eb' s d.
Proof.
  intros Hs Hd Hz Hf Hb Hb'.
  assert (HF : forall hs, Homestead_Sender Keccak256 eb hs d = Homestead_Sender Keccak256 eb' hs d).
  { intros hs. unfold Homestead_Sender. by rewrite !Frontier_Hash_eq. }
  destruct s as [c m| | |]; simpl in *; [|apply HF|apply HF|done].
  destruct Hs as [Hc ->]. unfold EIP155_Sender. by rewrite HF, !EIP155_Hash_eq.
Qed.

(** The caches of a transaction are sound: Hash, Size and Sender return what
    they would compute without a cache and keep the caches sound, for the
    signers of the package made by their constructors; a transaction returned by
    WithSignature has empty caches.  DecodeRLP into a transaction that was used
    before keeps its cached hash and sender, which then belong to the old data. *)
Theorem transaction_caches `{Secp256k1} Keccak256 eb tx signer sig :
  txdata_ok (data tx) -> size_ok (tx_items (data tx)) -> size_ok (frontier_items (data tx)) ->
  size_ok (signer_items signer (data tx)) -> signer_ok signer -> length (sizebuf eb) = 9%nat -> caches_ok Keccak256 tx ->
  (exists tx', Transaction_Hash Keccak256 eb tx = Some (Keccak256 (rlp_enc (Lst (tx_items (data tx)))), tx') /\
     data tx' = data tx /\ caches_ok Keccak256 tx') /\
  (exists tx', Transaction_Size eb tx = Some (len (rlp_enc (Lst (tx_items (data tx)))), tx') /\
     data tx' = data tx /\ caches_ok Keccak256 tx') /\
  Signer_Sender Keccak256 eb signer (data tx) = (let? r := Sender Keccak256 eb signer tx in Ok (fst r)) /\
  (forall a tx', Sender Keccak256 eb signer tx = Ok (a, tx') -> data tx' = data tx /\ caches_ok Keccak256 tx') /\
  (forall tx', WithSignature signer tx sig = Some tx' -> caches_ok Keccak256 tx') /\
  (forall s s' tx', Transaction_DecodeRLP tx s = (Ok tx', s') ->
     hash_cache tx' = hash_cache tx /\ from_cache tx' = from_cache tx).
Proof.
  intros Hd Hz Hf Hzs Hs Hb (C1 & C2 & C3). split; [|split; [|split; [|split; [|split]]]].
  - unfold Transaction_Hash. destruct (hash_cache tx) as [h|] eqn:Eh.
    + rewrite <- (C1 h) by done. exists tx. split; [done|]. split; [done|]. rewrite <- Eh in C1. done.
    + unfold tx_ptr. rewrite (rlpHash_denotes Keccak256 eb _ _ _ (tx_denotes _ Hd)) by (done || by apply size_ok_lt).
      rewrite rlp_encs_single. eexists. split; [done|]. split; [done|]. split; [|done]. intros h E. apply (inj Some) in E. symmetry. exact E.
  - unfold Transaction_Size. destruct (size_cache tx) as [n|] eqn:En.
    + rewrite <- (C2 n) by done. exists tx. split; [done|]. split; [done|]. rewrite <- En in C2. done.
    + rewrite (Encode_buffer no_encoders no_items eb _ _ _ (txdata_denotes no_items _ Hd)) by (done || by apply size_ok_lt).
      rewrite rlp_encs_single. eexists. split; [done|]. split; [done|]. split; [done|]. split; [|done].
      intros n E. apply (inj Some) in E. symmetry. exact E.
  - unfold Sender. destruct (from_cache tx) as [[s a]|] eqn:Ef; [|by destruct (Signer_Sender _ eb signer _)].
    destruct (Signer_Equal s signer) eqn:Eq; [|by destruct (Signer_Sender _ eb signer _)].
    destruct (C3 s a eq_refl) as [Hs' HS]. apply Signer_Equal_ok in Eq as ->; [|done..]. by apply HS.
  - intros a tx'. unfold Sender. set (derive := obind _ _). intros E.
    assert (C : tx' = tx \/ derive = Ok (a, tx')).
    { destruct (from_cache tx) as [[s b]|]; [|by right]. destruct (Signer_Equal s signer); [left; congruence|by right]. }
    destruct C as [->|C]; [by split; [|split; [|split]]|]. unfold derive in C.
    destruct (Signer_Sender Keccak256 eb signer (data tx)) as [a'|e| |] eqn:E'; simpl in C; try done. injection C as -> <-.
    split; [done|]. split; [done|]. split; [done|]. intros s b [= <- <-]. split; [done|].
    intros eb' Hb'. rewrite <- E'. by apply Signer_Sender_eb.
  - intros tx' E. unfold WithSignature in E. destruct (SignatureValues signer sig) as [[[r s] v]|]; simpl in E; [|done].
    injection E as <-. by split; [|split].
  - intros s s' tx' E. unfold Transaction_DecodeRLP in E. destruct (Stream_Kind s) as [[k|e| |] s1]; try done;
      (destruct (decode_into _ _ _ s1) as [[v|e'| |] s2]; try done; destruct (txdata_of v) as [d|]; [|done];
       injection E as <- _; done).
Qed.

Lemma transaction_caches_witness :
  exists tx', @Transaction_Hash (fun _ => zeros 32) new_encbuf (Tx sample_tx None None None) = Some (zeros 32, tx') /\
    data tx' = sample_tx /\ @caches_ok one_point_library (fun _ => zeros 32) tx'.
Proof.
  assert (H1 : size_ok (tx_items sample_tx)) by (by vm_compute).
  assert (H2 : size_ok (frontier_items sample_tx)) by (by vm_compute).
  assert (H3 : @caches_ok one_point_library (fun _ => zeros 32) (Tx sample_tx None None None)) by (by split; [|split]).
  destruct (@transaction_caches one_point_library (fun _ => zeros 32) new_encbuf (Tx sample_tx None None None) HomesteadSigner []
    sample_tx_ok H1 H2 H2 I eq_refl H3) as (H & _). exact H.
Defined.

(** ** Transactions that cannot be encoded *)

Lemma write_seq_err ms itss (m : WM) ms' e w :
  Forall2 writes ms itss -> (forall w, m w = Err e) -> length (sizebuf w) = 9%nat -> len (rlp_encs (concat itss)) < 2 ^ 64 ->
  write_seq (ms ++ m :: ms') w = Err e.
Proof.
  intros Hf Hm Hs Hl. assert (A : forall a b w, write_seq (a ++ b) w = (let? w1 := write_seq a w in write_seq b w1)).
  { induction a as [|x a IH]; intros b w'; [done|]. simpl. destruct (x w'); simpl; [apply IH|done..]. }
  rewrite A. destruct (write_seq_writes ms itss Hf w Hs Hl) as (w' & -> & _). simpl. by rewrite Hm.
Qed.

Lemma in_list_err m e w : (forall w, length (sizebuf w) = 9%nat -> m w = Err e) -> length (sizebuf w) = 9%nat -> in_list m w = Err e.
Proof. intros Hm Hs. unfold in_list. destruct (list_ w) as [lh w1] eqn:E. injection E as _ <-. by rewrite Hm. Qed.

Definition with_chain_id (d : txdata) (c : Z) : txdata :=
  with_chain_data d (BlockLimit d) (Some c) (GroupId d) (ExtraData d).

Lemma rlpHash_err Keccak256 eb x e :
  (forall w, length (sizebuf w) = 9%nat -> encode tx_encoders x w = Err e) -> length (sizebuf eb) = 9%nat ->
  rlpHash Keccak256 eb x = Some (Keccak256 []).
Proof. intros He Hs. unfold rlpHash, Encode. by rewrite He. Qed.

Lemma rlp_encs_prefix a b : len (rlp_encs a) <= len (rlp_encs (a ++ b)).
Proof. rewrite rlp_encs_app, len_app. pose proof (len_nonneg (rlp_encs b)). lia. Qed.

Lemma size_ok_prefix a b : size_ok (a ++ b) -> len (rlp_encs (concat (map (fun it => [it]) a))) < 2 ^ 64.
Proof.
  intros Hz. unfold size_ok, maxAlloc in Hz. rewrite rlp_enc_lst, len_app in Hz. pose proof (rlp_encs_prefix a b).
  pose proof (len_nonneg (list_head (len (rlp_encs (a ++ b))))). rewrite concat_singletons. lia.
Qed.

(** The hash functions drop the error of the encoder.  A transaction made
    with a negative chain id has the hash of the empty string, for signing and
    as its own hash, whatever its other fields are: one signature fits all of
    them. *)
Theorem negative_chain_id_hash Keccak256 eb d c :
  txdata_ok (with_chain_id d 0) -> size_ok (frontier_items (with_chain_id d 0)) -> size_ok (tx_items (with_chain_id d 0)) ->
  length (sizebuf eb) = 9%nat -> c < 0 ->
  Frontier_Hash Keccak256 eb (with_chain_id d c) = Some (Keccak256 []) /\
  rlpHash Keccak256 eb (tx_ptr (with_chain_id d c)) = Some (Keccak256 []).
Proof.
  intros Hd Hz Hz' Hs Hc. pose proof (write_denotes tx_encoders tx_user_items) as WD. pose proof (write_denotes no_encoders no_items) as WN.
  assert (Neg : forall w, writeBigIntPtr TBigIntPtr (VBig (Some c)) w = Err errNegativeBigInt).
  { intros w. unfold writeBigIntPtr, writeBigInt. simpl. destruct (Z.ltb_spec c 0); [done|lia]. }
  split.
  - apply (rlpHash_err _ _ _ errNegativeBigInt); [|done]. intros w Hw. unfold encode, iface_slice. apply in_list_err; [|done]. intros w1 Hw1.
    apply (write_seq_err (map (fun x => write tx_encoders x W_writeInterface true) (take 7 (frontier_fields (with_chain_id d 0))))
      (map (fun it => [it]) (take 7 (frontier_items (with_chain_id d 0))))); [|exact Neg|done|].
    + apply (elems_writes tx_encoders tx_user_items); [by apply Forall_forall|]. destruct Hd. tx_denote.
    + by apply (size_ok_prefix _ (drop 7 (frontier_items (with_chain_id d 0)))).
  - apply (rlpHash_err _ _ _ errNegativeBigInt); [|done]. intros w Hw. unfold encode, tx_ptr. cbn [makeWriter].
    change (tx_encoders 0 (tx_value (with_chain_id d c)) w = Err errNegativeBigInt). unfold tx_encoders.
    change (tx_data_of (tx_value (with_chain_id d c))) with (txdata_of (txdata_value (with_chain_id d c))).
    rewrite txdata_of_value. unfold Transaction_EncodeRLP, encode. apply in_list_err; [|done]. intros w1 Hw1.
    apply (write_seq_err
      (map (fun ip : nat * wplan => match map (write no_encoders) (elems_of (txdata_value (with_chain_id d c))) !! ip.1 with
            | Some f => f ip.2 true | None => fun _ => Panic end)
        [(0%nat, W_writeUint); (1%nat, W_writeBigIntPtr TBigIntPtr); (2%nat, W_writeUint); (3%nat, W_writeUint);
         (4%nat, W_ptr KString W_writeByteArray); (5%nat, W_writeBigIntPtr TBigIntPtr); (6%nat, W_writeBytes)])
      (map (fun it => [it]) (take 7 (tx_items (with_chain_id d 0))))); [|exact Neg|done|].
    + apply (fields_writes no_encoders no_items); [by apply Forall_forall|]. destruct Hd. tx_denote.
    + by apply (size_ok_prefix _ (drop 7 (tx_items (with_chain_id d 0)))).
Qed.

Lemma negative_chain_id_hash_witness :
  Frontier_Hash (fun b => be_bytes 32 (len b)) new_encbuf (with_chain_id sample_tx (-1)) = Some (be_bytes 32 0).
Proof.
  assert (H1 : size_ok (frontier_items (with_chain_id sample_tx 0))) by (by vm_compute).
  assert (H2 : size_ok (tx_items (with_chain_id sample_tx 0))) by (by vm_compute).
  assert (H3 : txdata_ok (with_chain_id sample_tx 0)) by (destruct sample_tx_ok; by split).
  exact (proj1 (negative_chain_id_hash (fun b => be_bytes 32 (len b)) new_encbuf sample_tx (-1) H3 H1 H2 eq_refl ltac:(lia))).
Defined.
