(* ===== verification/Receipt.v ===== *)
(** * Logs and receipts

    log.go and receipt.go of src/core/types: the consensus encoding of logs and
    receipts, their storage encoding, and the older storage formats that are
    still read.  The types have EncodeRLP and DecodeRLP methods of their own,
    which the rlp codec calls; the methods of a receipt in turn make the codec
    call those of its logs.  The pointers to logs in a receipt are not nil. *)

From Stdlib Require Import String.
From S2P Require Import Prelude GoText Common Bloom.
From S2P Require Import RlpSpec RlpEncode RlpTypes RlpRaw RlpStream RlpWriter RlpDecoder RlpRoundtrip.

(** ** Types *)

Record Log : Type := MkLog {
  log_Address : list Z;
  log_Topics : list (list Z);
  log_Data : list Z;
  log_BlockNumber : Z;
  log_TxHash : list Z;
  log_TxIndex : Z;
  log_BlockHash : list Z;
  log_Index : Z;
  log_Removed : bool
}.

Record Receipt : Type := MkReceipt {
  rc_BlockHash : list Z;
  rc_BlockNumber : list Z;
  rc_ContractAddress : list Z;
  rc_From : list Z;
  rc_GasUsed : list Z;
  rc_Input : list Z;
  rc_Logs : list Log;
  rc_Bloom : list Z;
  rc_Output : list Z;
  rc_Status : list Z;
  rc_To : list Z;
  rc_TxHash : list Z;
  rc_TxIndex : list Z
}.

Definition byte_array (n : nat) : rtype := TArray n (TUint 8).
Definition byte_slice : rtype := TSlice (TUint 8).
Definition hash_slice : rtype := TSlice (byte_array 32).
Definition field (name : string) (t : rtype) : sfield := SField name true EmptyString t.

(** The struct Log; uint is 64 bits wide. *)
Definition log_struct : rtype := TStruct
  [field "Address" (byte_array 20); field "Topics" hash_slice; field "Data" byte_slice;
   field "BlockNumber" (TUint 64); field "TxHash" (byte_array 32); field "TxIndex" (TUint 64);
   field "BlockHash" (byte_array 32); field "Index" (TUint 64); field "Removed" TBool].
Definition log_type : rtype := TNamed (Methods 1 false true true) log_struct.
Definition storage_log_type : rtype := TNamed (Methods 2 false true true) log_struct.

Definition rlpLog : rtype := TStruct
  [field "Address" (byte_array 20); field "Topics" hash_slice; field "Data" byte_slice].
Definition legacyRlpStorageLog : rtype := TStruct
  [field "Address" (byte_array 20); field "Topics" hash_slice; field "Data" byte_slice;
   field "BlockNumber" (TUint 64); field "TxHash" (byte_array 32); field "TxIndex" (TUint 64);
   field "BlockHash" (byte_array 32); field "Index" (TUint 64)].

Definition receipt_struct : rtype := TStruct
  [field "BlockHash" (byte_array 32); field "BlockNumber" TString; field "ContractAddress" (byte_array 20);
   field "From" (byte_array 20); field "GasUsed" TString; field "Input" TString; field "Logs" (TSlice (TPtr log_type));
   field "Bloom" (byte_array 256); field "Output" TString; field "Status" TString; field "To" (byte_array 20);
   field "TxHash" (byte_array 32); field "TxIndex" TString].
Definition receipt_type : rtype := TNamed (Methods 3 false true true) receipt_struct.
Definition storage_receipt_type : rtype := TNamed (Methods 4 false true true) receipt_struct.

Definition receiptRLP : rtype := TStruct
  [field "PostStateOrStatus" byte_slice; field "Bloom" (byte_array 256); field "Logs" (TSlice (TPtr log_type))].
Definition storedReceiptRLP : rtype := TStruct
  [field "PostStateOrStatus" byte_slice; field "Logs" (TSlice (TPtr storage_log_type))].
Definition v4StoredReceiptRLP : rtype := TStruct
  [field "PostStateOrStatus" byte_slice; field "TxHash" (byte_array 32); field "ContractAddress" (byte_array 20);
   field "Logs" (TSlice (TPtr storage_log_type)); field "GasUsed" TString].
Definition v3StoredReceiptRLP : rtype := TStruct
  [field "PostStateOrStatus" byte_slice; field "Bloom" (byte_array 256); field "TxHash" (byte_array 32);
   field "ContractAddress" (byte_array 20); field "Logs" (TSlice (TPtr storage_log_type)); field "GasUsed" TString].

(** ** Values *)

Definition hashes_value (hs : list (list Z)) : value := VSeq (map VBytes hs).
Definition log_value (l : Log) : value := VStruct
  [VBytes (log_Address l); hashes_value (log_Topics l); VBytes (log_Data l); VUint (log_BlockNumber l);
   VBytes (log_TxHash l); VUint (log_TxIndex l); VBytes (log_BlockHash l); VUint (log_Index l); VBool (log_Removed l)].
Definition log_ptrs (ls : list Log) : value := VSeq (map (fun l => VPtr (Some (log_value l))) ls).
Definition receipt_value (r : Receipt) : value := VStruct
  [VBytes (rc_BlockHash r); VBytes (rc_BlockNumber r); VBytes (rc_ContractAddress r); VBytes (rc_From r);
   VBytes (rc_GasUsed r); VBytes (rc_Input r); log_ptrs (rc_Logs r); VBytes (rc_Bloom r); VBytes (rc_Output r);
   VBytes (rc_Status r); VBytes (rc_To r); VBytes (rc_TxHash r); VBytes (rc_TxIndex r)].

Definition bytes_of (v : value) : option (list Z) := match v with VBytes b => Some b | _ => None end.
Definition hashes_of (v : value) : option (list (list Z)) :=
  match v with VSeq vs => mapM bytes_of vs | _ => None end.
Definition log_of (v : value) : option Log :=
  match v with
  | VStruct [VBytes a; ts; VBytes d; VUint bn; VBytes th; VUint ti; VBytes bh; VUint ix; VBool rm] =>
      ts ← hashes_of ts; Some (MkLog a ts d bn th ti bh ix rm)
  | _ => None
  end.
Definition log_ptr_of (v : value) : option Log := match v with VPtr (Some v) => log_of v | _ => None end.
Definition logs_of (v : value) : option (list Log) :=
  match v with VSeq vs => mapM log_ptr_of vs | _ => None end.
Definition receipt_of (v : value) : option Receipt :=
  match v with
  | VStruct [VBytes bh; VBytes bn; VBytes ca; VBytes fr; VBytes gu; VBytes inp; ls; VBytes bl; VBytes out; VBytes st; VBytes to;
             VBytes th; VBytes ti] =>
      ls ← logs_of ls; Some (MkReceipt bh bn ca fr gu inp ls bl out st to th ti)
  | _ => None
  end.

Definition zero_log : Log := MkLog (zeros 20) [] [] 0 (zeros 32) 0 (zeros 32) 0 false.
Definition zero_receipt : Receipt :=
  MkReceipt (zeros 32) [] (zeros 20) (zeros 20) [] [] [] (zeros 256) [] [] (zeros 20) (zeros 32) [].

(** ** log.go *)

(** The value [rlpLog{Address: ..., Topics: ..., Data: ...}]. *)
Definition rlpLog_value (l : Log) : value :=
  VStruct [VBytes (log_Address l); hashes_value (log_Topics l); VBytes (log_Data l)].

Definition Log_EncodeRLP (l : Log) : WM := encode no_encoders (Some (rlpLog, rlpLog_value l)).

(** The fields an rlpLog or a legacyRlpStorageLog starts with, in [l]. *)
Definition set_consensus (l : Log) (v : value) : option Log :=
  match v with
  | VStruct (VBytes a :: ts :: VBytes d :: _) =>
      ts ← hashes_of ts;
      Some (MkLog a ts d (log_BlockNumber l) (log_TxHash l) (log_TxIndex l) (log_BlockHash l) (log_Index l) (log_Removed l))
  | _ => None
  end.

Definition lift {A} (o : option A) : SM (list Z) A := match o with Some a => ret a | None => panic end.

Definition Log_DecodeRLP (l : Log) : SM (list Z) Log :=
  let* dec := decode_into no_decoders rlpLog (zero rlpLog) in lift (set_consensus l dec).

Section storage.
  (** The stream that DecodeBytes takes from the pool. *)
  Context (pooled : stream (list Z)) (Keccak256 : list Z -> list Z).

(** rlpStorageLog has the fields of rlpLog. *)
Definition LogForStorage_EncodeRLP (l : Log) : WM := encode no_encoders (Some (rlpLog, rlpLog_value l)).

Definition LogForStorage_DecodeRLP : SM (list Z) Log :=
  let* blob := Stream_Raw in
  match DecodeBytes no_decoders pooled blob (Some (TPtr rlpLog, VPtr (Some (zero rlpLog)))) with
  | Ok dec => lift (set_consensus zero_log dec)
  | Err _ =>
      match DecodeBytes no_decoders pooled blob (Some (TPtr legacyRlpStorageLog, VPtr (Some (zero legacyRlpStorageLog)))) with
      | Ok dec => lift (set_consensus zero_log dec)
      | Err e => fail e
      | _ => panic
      end
  | _ => panic
  end.

(** The methods the codec calls for logs; a receiver that is no log does not
    occur. *)
Definition log_encoders : nat -> value -> WM := fun m v w =>
  match log_of v with
  | None => Panic
  | Some l => match m with
              | 1%nat => Log_EncodeRLP l w
              | 2%nat => LogForStorage_EncodeRLP l w
              | _ => Panic
              end
  end.
Definition log_decoders : nat -> value -> SM (list Z) value := fun m v0 =>
  match m with
  | 1%nat => let* l := Log_DecodeRLP (default zero_log (log_of v0)) in ret (log_value l)
  | 2%nat => let* l := LogForStorage_DecodeRLP in ret (log_value l)
  | _ => no_decoders m v0
  end.

(** ** receipt.go *)

Definition receiptStatusFailedRLP : list Z := [].
Definition receiptStatusSuccessfulRLP : list Z := [1].
(** string(1) and string(0) are one-character strings. *)
Definition ReceiptStatusFailed : list Z := [1].
Definition ReceiptStatusSuccessful : list Z := [0].

Definition set_status (r : Receipt) (st : list Z) : Receipt :=
  MkReceipt (rc_BlockHash r) (rc_BlockNumber r) (rc_ContractAddress r) (rc_From r) (rc_GasUsed r) (rc_Input r) (rc_Logs r)
    (rc_Bloom r) (rc_Output r) st (rc_To r) (rc_TxHash r) (rc_TxIndex r).
Definition set_logs (r : Receipt) (ls : list Log) (bloom : list Z) : Receipt :=
  MkReceipt (rc_BlockHash r) (rc_BlockNumber r) (rc_ContractAddress r) (rc_From r) (rc_GasUsed r) (rc_Input r) ls
    bloom (rc_Output r) (rc_Status r) (rc_To r) (rc_TxHash r) (rc_TxIndex r).
Definition set_derived (r : Receipt) (txhash addr gas : list Z) : Receipt :=
  MkReceipt (rc_BlockHash r) (rc_BlockNumber r) addr (rc_From r) gas (rc_Input r) (rc_Logs r)
    (rc_Bloom r) (rc_Output r) (rc_Status r) (rc_To r) txhash (rc_TxIndex r).

Definition NewReceipt (failed : bool) : Receipt :=
  set_status zero_receipt (if failed then ReceiptStatusFailed else ReceiptStatusSuccessful).

Definition statusEncoding (r : Receipt) : list Z :=
  if bool_decide (rc_Status r = ReceiptStatusFailed) then receiptStatusFailedRLP else receiptStatusSuccessfulRLP.

(** The error: invalid receipt status. *)
Definition errInvalidStatus : rlp_error := errCustom 1.
Definition setStatus (r : Receipt) (b : list Z) : rlp_error + Receipt :=
  if bool_decide (b = receiptStatusSuccessfulRLP) then inr (set_status r ReceiptStatusSuccessful)
  else if bool_decide (b = receiptStatusFailedRLP) then inr (set_status r ReceiptStatusFailed)
  else inl errInvalidStatus.

Definition Receipt_EncodeRLP (r : Receipt) : WM :=
  encode log_encoders (Some (TPtr receiptRLP, VPtr (Some
    (VStruct [VBytes (statusEncoding r); VBytes (rc_Bloom r); log_ptrs (rc_Logs r)])))).

Definition Receipt_DecodeRLP (r : Receipt) : SM (list Z) Receipt :=
  let* dec := decode_into log_decoders receiptRLP (zero receiptRLP) in
  match dec with
  | VStruct [VBytes status; VBytes bloom; logs] =>
      match setStatus r status with
      | inl e => fail e
      | inr r => lift (ls ← logs_of logs; Some (set_logs r ls bloom))
      end
  | _ => panic
  end.

Definition ReceiptForStorage_EncodeRLP (r : Receipt) : WM :=
  encode log_encoders (Some (TPtr storedReceiptRLP, VPtr (Some
    (VStruct [VBytes (statusEncoding r); log_ptrs (rc_Logs r)])))).

(** The filter over the logs of one receipt. *)
Definition receipt_bloom (ls : list Log) : option (list Z) :=
  CreateBloom Keccak256 [map (fun l => (log_Address l, log_Topics l)) ls].

Definition decode_stored (t : rtype) (blob : list Z) : outcome rlp_error value :=
  DecodeBytes log_decoders pooled blob (Some (TPtr t, VPtr (Some (zero t)))).

Definition decodeStoredReceiptRLP (r : Receipt) (blob : list Z) : outcome rlp_error Receipt :=
  let? stored := decode_stored storedReceiptRLP blob in
  match stored with
  | VStruct [VBytes status; logs] =>
      match setStatus r status with
      | inl e => Err e
      | inr r => of_option (ls ← logs_of logs; bl ← receipt_bloom ls; Some (set_logs r ls bl))
      end
  | _ => Panic
  end.

Definition decodeV4StoredReceiptRLP (r : Receipt) (blob : list Z) : outcome rlp_error Receipt :=
  let? stored := decode_stored v4StoredReceiptRLP blob in
  match stored with
  | VStruct [VBytes status; VBytes txhash; VBytes addr; logs; VBytes gas] =>
      match setStatus r status with
      | inl e => Err e
      | inr r => of_option (ls ← logs_of logs; bl ← receipt_bloom ls; Some (set_logs (set_derived r txhash addr gas) ls bl))
      end
  | _ => Panic
  end.

Definition decodeV3StoredReceiptRLP (r : Receipt) (blob : list Z) : outcome rlp_error Receipt :=
  let? stored := decode_stored v3StoredReceiptRLP blob in
  match stored with
  | VStruct [VBytes status; VBytes bloom; VBytes txhash; VBytes addr; logs; VBytes gas] =>
      match setStatus r status with
      | inl e => Err e
      | inr r => of_option (ls ← logs_of logs; Some (set_logs (set_derived r txhash addr gas) ls bloom))
      end
  | _ => Panic
  end.

Definition lift_outcome {A} (o : outcome rlp_error A) : SM (list Z) A := fun s =>
  match o with Ok a => (Ok a, s) | Err e => (Err e, s) | Panic => (Panic, s) | OutOfFuel => (OutOfFuel, s) end.

Definition ReceiptForStorage_DecodeRLP (r : Receipt) : SM (list Z) Receipt :=
  let* blob := Stream_Raw in
  lift_outcome
    match decodeStoredReceiptRLP r blob with
    | Err _ => match decodeV3StoredReceiptRLP r blob with
               | Err _ => decodeV4StoredReceiptRLP r blob
               | o => o
               end
    | o => o
    end.

Definition receipt_encoders : nat -> value -> WM := fun m v w =>
  match m with
  | 3%nat => match receipt_of v with Some r => Receipt_EncodeRLP r w | None => Panic end
  | 4%nat => match receipt_of v with Some r => ReceiptForStorage_EncodeRLP r w | None => Panic end
  | _ => log_encoders m v w
  end.
Definition receipt_decoders : nat -> value -> SM (list Z) value := fun m v0 =>
  match m with
  | 3%nat => let* r := Receipt_DecodeRLP (default zero_receipt (receipt_of v0)) in ret (receipt_value r)
  | 4%nat => let* r := ReceiptForStorage_DecodeRLP (default zero_receipt (receipt_of v0)) in ret (receipt_value r)
  | _ => log_decoders m v0
  end.

(** The panic on an encoding error is [None]. *)
Definition Receipts_GetRlp (eb : encbuf) (rs : list Receipt) (i : nat) : option (list Z) :=
  r ← rs !! i;
  match EncodeToBytes receipt_encoders eb (Some (TPtr receipt_type, VPtr (Some (receipt_value r)))) with
  | Ok b => Some b
  | _ => None
  end.
End storage.

(** ** Logs as items *)

Definition log_ok (l : Log) : Prop :=
  (length (log_Address l) = 20%nat /\ bytes_ok (log_Address l)) /\
  Forall (fun t => length t = 32%nat /\ bytes_ok t) (log_Topics l) /\ bytes_ok (log_Data l).
Definition log_tree (l : Log) : item := Lst [Str (log_Address l); Lst (map Str (log_Topics l)); Str (log_Data l)].
(** The log without its derived fields. *)
Definition consensus (l : Log) : Log :=
  MkLog (log_Address l) (log_Topics l) (log_Data l) 0 (zeros 32) 0 (zeros 32) 0 false.

Lemma hashes_of_value hs : hashes_of (hashes_value hs) = Some hs.
Proof. simpl. induction hs as [|h hs IH]; [done|]. simpl. by rewrite IH. Qed.

Lemma log_of_value l : log_of (log_value l) = Some l.
Proof. unfold log_of, log_value. rewrite hashes_of_value. by destruct l. Qed.

Lemma set_consensus_value l0 l :
  set_consensus l0 (rlpLog_value l) = Some (MkLog (log_Address l) (log_Topics l) (log_Data l) (log_BlockNumber l0)
    (log_TxHash l0) (log_TxIndex l0) (log_BlockHash l0) (log_Index l0) (log_Removed l0)).
Proof. unfold set_consensus, rlpLog_value. by rewrite hashes_of_value. Qed.

Lemma hash_slice_repr ui ts addr hs :
  Forall (fun t => length t = 32%nat /\ bytes_ok t) hs -> tail ts = false ->
  repr ui hash_slice ts addr (hashes_value hs) [Lst (map Str hs)].
Proof.
  intros Hh Ht. split; [done|]. split; [done|]. split; [split; [split; by eexists|done]|].
  exists (map Str hs). rewrite Ht. split; [|done]. induction Hh as [|h hs [L B] _ IH]; [constructor|].
  constructor; [|done]. apply byte_array_repr; [done|done|lia].
Qed.

Lemma rlpLog_repr ui addr l : log_ok l -> repr ui rlpLog no_tags addr (rlpLog_value l) [log_tree l].
Proof.
  intros ([L B] & Ht & Hd). eexists. split; [done|].
  repr_field ltac:(by apply byte_array_repr; [..|lia]). repr_field ltac:(by apply hash_slice_repr).
  repr_field ltac:(by apply byte_slice_repr). done.
Qed.

Lemma log_tree_ok l : log_ok l -> item_bytes_ok (log_tree l).
Proof.
  intros ([L B] & Ht & Hd). apply item_bytes_ok_lst. constructor; [done|]. constructor; [|by constructor].
  apply item_bytes_ok_lst, Forall_map. eapply Forall_impl; [done|]. by intros t [_ ?].
Qed.

(** ** The methods of logs agree *)

Definition log_user_items (m : nat) (v : value) (its : list item) : Prop :=
  (m = 1%nat \/ m = 2%nat) /\ exists l, log_of v = Some l /\ log_ok l /\ its = [log_tree l].
Definition log_user_item (m : nat) (u : rtype) (v : value) (it : item) : Prop :=
  u = log_struct /\ (m = 1%nat \/ m = 2%nat) /\ exists l, log_ok l /\ v = log_value (consensus l) /\ it = log_tree l.

Lemma Log_writes l : log_ok l -> writes (Log_EncodeRLP l) [log_tree l].
Proof.
  intros Hl. apply (encode_repr_writes no_encoders (no_decoders (R := list Z)) (fun _ _ _ _ => False)).
  by apply rlpLog_repr.
Qed.

#[export] Instance log_encoder_laws : EncoderLaws log_encoders log_user_items.
Proof.
  split. intros m v its w (Hm & l & El & Hl & ->) Hw Hz. unfold log_encoders. rewrite El.
  destruct Hm as [->| ->]; by apply Log_writes.
Qed.

Section codec.
  Context (pooled : stream (list Z)) (Hp : pooled_ok pooled).

#[export] Instance log_user_codec : UserCodec log_encoders (log_decoders pooled) log_user_item.
Proof.
  split.
  - intros m u v it (-> & Hm & l & Hl & -> & ->) w Hw Hz.
    apply (EncodeRLP_emits (EncoderLaws := log_encoder_laws) m (log_value (consensus l))); [|done..].
    split; [done|]. exists (consensus l). split; [apply log_of_value|done].
  - intros m u v it (-> & Hm & l & Hl & -> & ->). destruct Hm as [-> | ->]; unfold log_decoders.
    + apply (decodes_ret _ _ (consensus l) log_value). unfold Log_DecodeRLP. intros c s Hat Hz Hr.
      destruct (decode_into_reads no_encoders no_decoders (fun _ _ _ _ => False) rlpLog _ _ (rlpLog_repr _ true l Hl) c s Hat Hz Hr)
        as (s' & E & F).
      exists s'. split; [|done]. unfold bind. rewrite E, set_consensus_value. done.
    + apply (decodes_ret _ _ (consensus l) log_value). unfold LogForStorage_DecodeRLP. intros c s Hat Hz Hr.
      destruct (Raw_reads (R := list Z) (log_tree l)) as [HR _]. destruct (HR c s Hat Hz Hr) as (s' & E & F).
      exists s'. split; [|done]. unfold bind. rewrite E.
      rewrite (DecodeBytes_repr no_encoders no_decoders (fun _ _ _ _ => False) pooled rlpLog true _ _ (rlpLog_repr _ true l Hl) Hz Hp).
      by rewrite set_consensus_value.
  - intros m u. destruct m as [|[|[|m]]]; unfold log_decoders.
    + apply (user_eol (UserCodec := no_user_codec)).
    + apply eol_bind, eol_bind, decode_into_eol. split; by eexists.
    + apply eol_bind, eol_bind. apply (Raw_reads (Str [])).
    + apply (user_eol (UserCodec := no_user_codec)).
  - intros m u v it (-> & Hm & l & Hl & -> & ->). by apply log_tree_ok.
Qed.
End codec.

(** ** Receipts as items *)

Definition receipt_ok (r : Receipt) : Prop :=
  (length (rc_Bloom r) = 256%nat /\ bytes_ok (rc_Bloom r)) /\ Forall log_ok (rc_Logs r).
Definition logs_tree (ls : list Log) : item := Lst (map log_tree ls).
Definition receipt_tree (r : Receipt) : item :=
  Lst [Str (statusEncoding r); Str (rc_Bloom r); logs_tree (rc_Logs r)].
Definition stored_tree (r : Receipt) : item := Lst [Str (statusEncoding r); logs_tree (rc_Logs r)].

(** What a status becomes. *)
Definition decoded_status (st : list Z) : list Z :=
  if bool_decide (st = ReceiptStatusFailed) then ReceiptStatusFailed else ReceiptStatusSuccessful.
(** A new receipt with status, logs and filter. *)
Definition consensus_receipt (r : Receipt) (bloom : list Z) : Receipt :=
  set_logs (set_status zero_receipt (decoded_status (rc_Status r))) (map consensus (rc_Logs r)) bloom.

Lemma logs_of_ptrs ls : logs_of (log_ptrs ls) = Some ls.
Proof. unfold logs_of, log_ptrs. induction ls as [|l ls IH]; [done|]. cbn [map mapM log_ptr_of]. by rewrite log_of_value, IH. Qed.

Lemma receipt_of_value r : receipt_of (receipt_value r) = Some r.
Proof. unfold receipt_of, receipt_value, log_ptrs. fold (log_ptrs (rc_Logs r)). rewrite logs_of_ptrs. by destruct r. Qed.

Lemma setStatus_encoding r0 r : setStatus r0 (statusEncoding r) = inr (set_status r0 (decoded_status (rc_Status r))).
Proof. unfold statusEncoding, decoded_status. by destruct (bool_decide (rc_Status r = ReceiptStatusFailed)). Qed.

Lemma statusEncoding_ok r : bytes_ok (statusEncoding r).
Proof. unfold statusEncoding. case_bool_decide; [constructor|]. by constructor; [|constructor]. Qed.

Definition ptrs (vs : list value) : value := VSeq (map (fun v => VPtr (Some v)) vs).

Lemma log_ptrs_ptrs ls : log_ptrs ls = ptrs (map log_value ls).
Proof. unfold log_ptrs, ptrs. by rewrite map_map. Qed.

(** Slices of pointers to values with methods. *)
Lemma ptrs_denote ui m typ nk vs its :
  Forall2 (fun v it => ui m v [it]) vs its ->
  denotes ui (ptrs vs) (W_slice false false (W_ptr nk (W_ptr_encoder m typ))) true [Lst its].
Proof.
  intros H. exists (map (fun it => [it]) its). split.
  - induction H as [|v it vs its Hv _ IH]; [constructor|]. constructor; [|done]. by destruct v.
  - do 2 f_equal. clear H. induction its as [|it its IH]; [done|]. simpl. by f_equal.
Qed.

Lemma logs_denote m typ nk ls :
  m = 1%nat \/ m = 2%nat -> Forall log_ok ls ->
  denotes log_user_items (log_ptrs ls) (W_slice false false (W_ptr nk (W_ptr_encoder m typ))) true [logs_tree ls].
Proof.
  intros Hm Hl. rewrite log_ptrs_ptrs. apply ptrs_denote, Forall2_fmap_2, Forall_Forall2_diag.
  eapply Forall_impl; [done|]. intros l H. split; [done|]. exists l. split; [apply log_of_value|done].
Qed.

Lemma receipt_denotes r :
  receipt_ok r ->
  val_denotes log_user_items (TPtr receiptRLP)
    (VPtr (Some (VStruct [VBytes (statusEncoding r); VBytes (rc_Bloom r); log_ptrs (rc_Logs r)]))) [receipt_tree r].
Proof.
  intros [_ Hl]. pose proof (logs_denote 1 log_type KList _ (or_introl eq_refl) Hl) as HL.
  eexists. split; [reflexivity|]. exists [[Str (statusEncoding r)]; [Str (rc_Bloom r)]; [logs_tree (rc_Logs r)]]. split; [|done].
  constructor; [done|]. constructor; [done|]. by constructor.
Qed.

Lemma stored_denotes r :
  Forall log_ok (rc_Logs r) ->
  val_denotes log_user_items (TPtr storedReceiptRLP)
    (VPtr (Some (VStruct [VBytes (statusEncoding r); log_ptrs (rc_Logs r)]))) [stored_tree r].
Proof.
  intros Hl. pose proof (logs_denote 2 storage_log_type KList _ (or_intror eq_refl) Hl) as HL.
  eexists. split; [reflexivity|]. exists [[Str (statusEncoding r)]; [logs_tree (rc_Logs r)]]. split; [|done].
  constructor; [done|]. by constructor.
Qed.

Definition receipt_user_items (m : nat) (v : value) (its : list item) : Prop :=
  match m with
  | 3%nat => exists r, receipt_of v = Some r /\ receipt_ok r /\ its = [receipt_tree r]
  | 4%nat => exists r, receipt_of v = Some r /\ receipt_ok r /\ its = [stored_tree r]
  | _ => log_user_items m v its
  end.

#[export] Instance receipt_encoder_laws : EncoderLaws receipt_encoders receipt_user_items.
Proof.
  split. intros m v its w Hu Hw Hz. destruct m as [|[|[|[|[|m]]]]]; simpl in Hu;
    try (by apply (EncodeRLP_emits (EncoderLaws := log_encoder_laws))).
  - destruct Hu as (r & Er & Hr & ->). simpl. rewrite Er.
    by apply (encode_writes log_encoders log_user_items _ _ _ (receipt_denotes r Hr)).
  - destruct Hu as (r & Er & Hr & ->). simpl. rewrite Er.
    by apply (encode_writes log_encoders log_user_items _ _ _ (stored_denotes r (proj2 Hr))).
Qed.

(** ** Decoding receipts *)

Lemma ptrs_repr ui m fs ts addr vs its :
  elem_ok (TPtr (TNamed (Methods m false true true) (TStruct fs))) ->
  Forall2 (fun v it => ui m (TStruct fs) v it) vs its -> tail ts = false ->
  repr ui (TSlice (TPtr (TNamed (Methods m false true true) (TStruct fs)))) ts addr (ptrs vs) [Lst its].
Proof.
  intros He H Ht. split; [done|]. split; [done|]. split; [done|]. exists its. rewrite Ht. split; [|done].
  apply Forall2_fmap_l. eapply Forall2_impl; [done|]. intros v it Hi. split; [|done]. split; [done|]. split; [done|].
  split; [done|]. by exists it.
Qed.

Lemma logs_repr m ts addr ls :
  m = 1%nat \/ m = 2%nat -> Forall log_ok ls -> tail ts = false ->
  repr log_user_item (TSlice (TPtr (TNamed (Methods m false true true) log_struct))) ts addr
    (log_ptrs (map consensus ls)) [logs_tree ls].
Proof.
  intros Hm Hl Ht. rewrite log_ptrs_ptrs, map_map. apply ptrs_repr; [| |done].
  { split; [|by left]. destruct Hm as [-> | ->]; split; by eexists. }
  apply Forall2_fmap_2, Forall_Forall2_diag. eapply Forall_impl; [done|]. intros l H. split; [done|]. split; [done|]. by exists l.
Qed.

Lemma receiptRLP_repr r :
  receipt_ok r ->
  repr log_user_item receiptRLP no_tags true
    (VStruct [VBytes (statusEncoding r); VBytes (rc_Bloom r); log_ptrs (map consensus (rc_Logs r))]) [receipt_tree r].
Proof.
  intros [[L B] Hl]. eexists. split; [done|]. pose proof (statusEncoding_ok r).
  repr_field ltac:(by apply byte_slice_repr). repr_field ltac:(by apply byte_array_repr; [..|lia]).
  repr_field ltac:(apply (logs_repr 1); [by left|done|done]). done.
Qed.

Lemma storedReceiptRLP_repr r :
  Forall log_ok (rc_Logs r) ->
  repr log_user_item storedReceiptRLP no_tags true
    (VStruct [VBytes (statusEncoding r); log_ptrs (map consensus (rc_Logs r))]) [stored_tree r].
Proof.
  intros Hl. eexists. split; [done|]. pose proof (statusEncoding_ok r).
  repr_field ltac:(by apply byte_slice_repr). repr_field ltac:(apply (logs_repr 2); [by right|done|done]). done.
Qed.


(** Writing a receipt that has been read writes the same bytes. *)
Lemma consensus_receipt_trees r bl :
  stored_tree (consensus_receipt r bl) = stored_tree r /\ receipt_tree (consensus_receipt r (rc_Bloom r)) = receipt_tree r.
Proof.
  assert (statusEncoding (consensus_receipt r bl) = statusEncoding r /\
    statusEncoding (consensus_receipt r (rc_Bloom r)) = statusEncoding r) as [E1 E2].
  { unfold statusEncoding, consensus_receipt, set_logs, set_status, decoded_status. cbn [rc_Status].
    by destruct (bool_decide (rc_Status r = ReceiptStatusFailed)). }
  unfold stored_tree, receipt_tree. rewrite E1, E2. unfold logs_tree. simpl. rewrite map_map. done.
Qed.

Lemma log_ok_consensus ls : Forall log_ok ls -> Forall log_ok (map consensus ls).
Proof. intros H. by apply Forall_map. Qed.

Section receipts.
  Context (pooled : stream (list Z)) (Hp : pooled_ok pooled).
  Context (Keccak256 : list Z -> list Z).
  Context (Keccak256_length : forall x, length (Keccak256 x) = 32%nat).

#[local] Instance log_codec : UserCodec log_encoders (log_decoders pooled) log_user_item := log_user_codec pooled Hp.

Lemma Receipt_DecodeRLP_reads r :
  receipt_ok r ->
  decodes (Receipt_DecodeRLP pooled zero_receipt) (receipt_tree r) (consensus_receipt r (rc_Bloom r)).
Proof.
  intros Hr c s Hat Hz Hrd. unfold Receipt_DecodeRLP, bind.
  destruct (decode_into_reads log_encoders (log_decoders pooled) log_user_item receiptRLP _ _ (receiptRLP_repr r Hr) c s Hat Hz Hrd)
    as (s' & E & F).
  exists s'. split; [|done]. rewrite E, setStatus_encoding, logs_of_ptrs. done.
Qed.

Lemma receipt_bloom_ok ls :
  exists bl, receipt_bloom Keccak256 ls = Some bl /\ length bl = 256%nat /\ bytes_ok bl /\
    forall l item, l ∈ ls -> item = log_Address l \/ item ∈ log_Topics l -> BloomLookup Keccak256 bl item = Some true.
Proof.
  destruct (CreateBloom_lookup Keccak256 Keccak256_length [map (fun l => (log_Address l, log_Topics l)) ls]) as (bl & E & L & B & H).
  exists bl. split; [done|]. split; [done|]. split; [done|]. intros l item Hl Hi.
  apply (H (map (fun l => (log_Address l, log_Topics l)) ls) (log_Address l, log_Topics l)); [by left| |done].
  by apply (list_elem_of_fmap_2 (fun l => (log_Address l, log_Topics l))).
Qed.

Lemma decodeStored_tree r bl :
  Forall log_ok (rc_Logs r) -> receipt_bloom Keccak256 (map consensus (rc_Logs r)) = Some bl ->
  len (rlp_enc (stored_tree r)) <= maxAlloc ->
  decodeStoredReceiptRLP pooled Keccak256 zero_receipt (rlp_enc (stored_tree r)) = Ok (consensus_receipt r bl).
Proof.
  intros Hl Hbl Hz. unfold decodeStoredReceiptRLP, decode_stored.
  rewrite (DecodeBytes_repr log_encoders (log_decoders pooled) log_user_item pooled storedReceiptRLP true _ _
    (storedReceiptRLP_repr r Hl) Hz Hp).
  cbn [obind]. rewrite setStatus_encoding, logs_of_ptrs. simpl mbind. by rewrite Hbl.
Qed.

Lemma ReceiptForStorage_DecodeRLP_reads r bl :
  Forall log_ok (rc_Logs r) -> receipt_bloom Keccak256 (map consensus (rc_Logs r)) = Some bl ->
  decodes (ReceiptForStorage_DecodeRLP pooled Keccak256 zero_receipt) (stored_tree r) (consensus_receipt r bl).
Proof.
  intros Hl Hbl c s Hat Hz Hrd. unfold ReceiptForStorage_DecodeRLP, bind.
  destruct (Raw_reads (R := list Z) (stored_tree r)) as [HR _]. destruct (HR c s Hat Hz Hrd) as (s' & E & F).
  exists s'. split; [|done]. by rewrite E, (decodeStored_tree r bl).
Qed.

Definition receipt_user_item (m : nat) (u : rtype) (v : value) (it : item) : Prop :=
  match m with
  | 3%nat => u = receipt_struct /\ exists r, receipt_ok r /\ v = receipt_value (consensus_receipt r (rc_Bloom r)) /\
               it = receipt_tree r
  | 4%nat => u = receipt_struct /\ exists r bl, Forall log_ok (rc_Logs r) /\
               receipt_bloom Keccak256 (map consensus (rc_Logs r)) = Some bl /\
               v = receipt_value (consensus_receipt r bl) /\ it = stored_tree r
  | _ => log_user_item m u v it
  end.

Lemma receipt_tree_ok r : receipt_ok r -> item_bytes_ok (receipt_tree r) /\ item_bytes_ok (stored_tree r).
Proof.
  intros [[_ B] Hl]. pose proof (statusEncoding_ok r).
  assert (item_bytes_ok (logs_tree (rc_Logs r))).
  { apply item_bytes_ok_lst, Forall_map. eapply Forall_impl; [done|]. apply log_tree_ok. }
  split; apply item_bytes_ok_lst; repeat constructor; done.
Qed.

Lemma receipt_user_writes m u v it :
  receipt_user_item m u v it -> writes (receipt_encoders m v) [it].
Proof.
  intros Hu w Hw Hz.
  destruct m as [|[|[|[|[|m]]]]]; cbn [receipt_user_item] in Hu;
    try (by apply (user_writes (UserCodec := log_user_codec pooled Hp) _ _ _ _ Hu)).
  - destruct Hu as (_ & r & [Hb Hl] & -> & ->). destruct (consensus_receipt_trees r []) as [_ <-].
    refine (EncodeRLP_emits (EncoderLaws := receipt_encoder_laws) 3 _ _ w _ Hw _); [|by destruct (consensus_receipt_trees r []) as [_ ->]].
    eexists. split; [apply receipt_of_value|]. split; [|done]. split; [done|by apply log_ok_consensus].
  - destruct Hu as (_ & r & bl & Hl & Hbl & -> & ->). destruct (consensus_receipt_trees r bl) as [E _]. rewrite <- E.
    refine (EncodeRLP_emits (EncoderLaws := receipt_encoder_laws) 4 _ _ w _ Hw _); [|by rewrite E].
    eexists. split; [apply receipt_of_value|]. split; [|done]. split; [|by apply log_ok_consensus].
    destruct (receipt_bloom_ok (map consensus (rc_Logs r))) as (bl' & E' & L & B & _). by simplify_eq/=.
Qed.

#[export] Instance receipt_user_codec : UserCodec receipt_encoders (receipt_decoders pooled Keccak256) receipt_user_item.
Proof.
  split.
  - apply receipt_user_writes.
  - intros m u v it Hu. destruct m as [|[|[|[|[|m]]]]]; cbn [receipt_user_item] in Hu;
      try (by apply (user_decodes (UserCodec := log_codec))).
    + destruct Hu as (-> & r & Hr & -> & ->). apply (decodes_ret _ _ _ receipt_value). by apply Receipt_DecodeRLP_reads.
    + destruct Hu as (-> & r & bl & Hl & Hbl & -> & ->). apply (decodes_ret _ _ _ receipt_value).
      by apply ReceiptForStorage_DecodeRLP_reads.
  - intros m u. destruct m as [|[|[|[|[|m]]]]]; try apply (user_eol (UserCodec := log_codec)).
    + apply eol_bind, eol_bind, decode_into_eol. split; by eexists.
    + apply eol_bind, eol_bind. apply (Raw_reads (Str [])).
  - intros m u v it Hu. destruct m as [|[|[|[|[|m]]]]]; cbn [receipt_user_item] in Hu;
      try (by apply (user_bytes (UserCodec := log_codec) _ _ _ _ Hu)).
    + destruct Hu as (_ & r & Hr & _ & ->). by apply receipt_tree_ok.
    + destruct Hu as (_ & r & bl & Hl & _ & _ & ->).
      apply (receipt_tree_ok (set_logs r (rc_Logs r) (zeros 256))). split; [split; [done|]|done]. by apply Forall_replicate.
Qed.
End receipts.

(** ** Round trips *)

(** The values [[]*Receipt] and [[]*ReceiptForStorage]. *)
Definition receipts_type : rtype := TSlice (TPtr receipt_type).
Definition storage_receipts_type : rtype := TSlice (TPtr storage_receipt_type).
Definition receipts_value (rs : list Receipt) : value := ptrs (map receipt_value rs).

Lemma receipts_denote t f m rs :
  (t = receipts_type /\ f = receipt_tree /\ m = 3%nat \/ t = storage_receipts_type /\ f = stored_tree /\ m = 4%nat) ->
  Forall receipt_ok rs -> val_denotes receipt_user_items t (receipts_value rs) [Lst (map f rs)].
Proof.
  intros Ht Hr. assert (H : Forall2 (fun v it => receipt_user_items m v [it]) (map receipt_value rs) (map f rs)).
  { apply Forall2_fmap_2, Forall_Forall2_diag. eapply Forall_impl; [done|]. intros r Hok.
    destruct Ht as [(-> & -> & ->)|(-> & -> & ->)]; exists r; (split; [apply receipt_of_value|done]). }
  destruct Ht as [(-> & -> & ->)|(-> & -> & ->)]; (eexists; split; [reflexivity|]).
  - exact (ptrs_denote _ 3 receipt_type KList _ _ H).
  - exact (ptrs_denote _ 4 storage_receipt_type KList _ _ H).
Qed.

Lemma receipts_encode eb t f m rs :
  (t = receipts_type /\ f = receipt_tree /\ m = 3%nat \/ t = storage_receipts_type /\ f = stored_tree /\ m = 4%nat) ->
  Forall receipt_ok rs -> len (rlp_enc (Lst (map f rs))) <= maxAlloc -> length (sizebuf eb) = 9%nat ->
  EncodeToBytes receipt_encoders eb (Some (t, receipts_value rs)) = Ok (rlp_enc (Lst (map f rs))).
Proof.
  intros Ht Hr Hz Hb. rewrite <- rlp_encs_single.
  apply (EncodeToBytes_denotes receipt_encoders receipt_user_items); [by eapply receipts_denote| |done].
  rewrite rlp_encs_single. eapply Z.le_lt_trans; [done|]. by vm_compute.
Qed.

(** Receipts survive their consensus encoding.  A list of receipts, whatever
    their statuses, is encoded to the list of their triples of status, filter
    and logs; decoding that gives receipts with the same filters, with the
    address, topics and data of each log, with a status that is failed exactly
    when it was, and with every other field zero. *)
Theorem receipts_rlp_roundtrip Keccak256 eb pooled rs :
  Forall receipt_ok rs -> len (rlp_enc (Lst (map receipt_tree rs))) <= maxAlloc ->
  length (sizebuf eb) = 9%nat -> pooled_ok pooled -> (forall x, length (Keccak256 x) = 32%nat) ->
  EncodeToBytes receipt_encoders eb (Some (receipts_type, receipts_value rs)) = Ok (rlp_enc (Lst (map receipt_tree rs))) /\
  DecodeBytes (receipt_decoders pooled Keccak256) pooled (rlp_enc (Lst (map receipt_tree rs)))
    (Some (TPtr receipts_type, VPtr (Some (zero receipts_type)))) =
    Ok (receipts_value (map (fun r => consensus_receipt r (rc_Bloom r)) rs)).
Proof.
  intros Hr Hz Hb Hp Hk. split; [eapply receipts_encode; [by left|done..]|].
  pose proof (receipt_user_codec pooled Hp Keccak256 Hk).
  apply (DecodeBytes_repr receipt_encoders _ (receipt_user_item Keccak256) pooled _ true); [|done..].
  apply ptrs_repr; [split; [split; by eexists|by left]| |done].
  rewrite map_map. apply Forall2_fmap_2, Forall_Forall2_diag. eapply Forall_impl; [done|]. intros r Hok.
  split; [done|]. by exists r.
Qed.

Definition sample_log : Log := MkLog (repeat 7 20) [repeat 9 32; repeat 8 32] [1; 2; 3] 12 (repeat 1 32) 3 (repeat 2 32) 4 true.
Definition sample_receipt : Receipt :=
  set_logs (set_derived (NewReceipt false) (repeat 5 32) (repeat 6 20) [48]) [sample_log] (repeat 1 256).
(** The status 0x16 a FISCO BCOS node reports for an execution that ran out of
    gas. *)
Definition node_failure : Receipt := set_status sample_receipt (GoText.str "0x16"%string).
Definition some_hash (b : list Z) : list Z := repeat (len b `mod` 256) 32.

Lemma sample_log_ok : log_ok sample_log.
Proof. unfold log_ok, bytes_ok. split_and!; try done; repeat constructor; try done; by vm_compute. Qed.

Lemma some_hash_length b : length (some_hash b) = 32%nat.
Proof. apply repeat_length. Qed.

Lemma sample_receipts_ok : Forall receipt_ok [sample_receipt; node_failure].
Proof.
  pose proof sample_log_ok. repeat constructor; try done; by vm_compute.
Qed.

Lemma receipts_rlp_roundtrip_witness :
  DecodeBytes (receipt_decoders (zero_stream []) some_hash) (zero_stream [])
    (rlp_enc (Lst (map receipt_tree [sample_receipt; node_failure])))
    (Some (TPtr receipts_type, VPtr (Some (zero receipts_type)))) =
    Ok (receipts_value [consensus_receipt sample_receipt (repeat 1 256); consensus_receipt sample_receipt (repeat 1 256)]).
Proof.
  assert (Hz : len (rlp_enc (Lst (map receipt_tree [sample_receipt; node_failure]))) <= maxAlloc) by (by vm_compute).
  exact (proj2 (receipts_rlp_roundtrip some_hash new_encbuf (zero_stream []) [sample_receipt; node_failure]
    sample_receipts_ok Hz eq_refl (or_introl eq_refl) some_hash_length)).
Defined.

(** Stored receipts survive storage.  A list of receipts in storage form is
    encoded without its filters; decoding recomputes them, so that the address
    and every topic of every log of a receipt is found in its filter, and gives
    back the logs and whether the status was failed. *)
Theorem stored_receipts_roundtrip Keccak256 eb pooled rs :
  Forall receipt_ok rs -> len (rlp_enc (Lst (map stored_tree rs))) <= maxAlloc ->
  length (sizebuf eb) = 9%nat -> pooled_ok pooled -> (forall x, length (Keccak256 x) = 32%nat) ->
  EncodeToBytes receipt_encoders eb (Some (storage_receipts_type, receipts_value rs)) = Ok (rlp_enc (Lst (map stored_tree rs))) /\
  exists blooms,
    DecodeBytes (receipt_decoders pooled Keccak256) pooled (rlp_enc (Lst (map stored_tree rs)))
      (Some (TPtr storage_receipts_type, VPtr (Some (zero storage_receipts_type)))) =
      Ok (receipts_value (zip_with consensus_receipt rs blooms)) /\
    Forall2 (fun r bloom => forall l item, l ∈ rc_Logs r -> item = log_Address l \/ item ∈ log_Topics l ->
      BloomLookup Keccak256 bloom item = Some true) rs blooms.
Proof.
  intros Hr Hz Hb Hp Hk. split; [eapply receipts_encode; [by right|done..]|].
  pose proof (receipt_user_codec pooled Hp Keccak256 Hk) as Hc.
  assert (exists blooms, Forall2 (fun r bl => receipt_bloom Keccak256 (map consensus (rc_Logs r)) = Some bl /\
    forall l item, l ∈ rc_Logs r -> item = log_Address l \/ item ∈ log_Topics l -> BloomLookup Keccak256 bl item = Some true)
    rs blooms) as [blooms Hbl].
  { clear Hr Hz. induction rs as [|r rs [bls IH]]; [by exists []|].
    destruct (receipt_bloom_ok Keccak256 Hk (map consensus (rc_Logs r))) as (bl & E & _ & _ & H).
    exists (bl :: bls). constructor; [|done]. split; [done|]. intros l item Hl Hi.
    by apply (H (consensus l)); [by apply (list_elem_of_fmap_2 consensus)|]. }
  exists blooms. split; [|by eapply Forall2_impl; [done|]; intros r bl [_ ?]].
  apply (DecodeBytes_repr receipt_encoders _ (receipt_user_item Keccak256) pooled _ true); [|done..].
  apply ptrs_repr; [split; [split; by eexists|by left]| |done].
  clear Hz. induction Hbl as [|r bl rs bls [E _] _ IH]; [constructor|]. apply Forall_cons in Hr as [[_ Hl] Hr].
  constructor; [|by apply IH]. split; [done|]. by exists r, bl.
Qed.

Lemma stored_receipts_roundtrip_witness :
  exists blooms,
    DecodeBytes (receipt_decoders (zero_stream []) some_hash) (zero_stream [])
      (rlp_enc (Lst (map stored_tree [sample_receipt; node_failure])))
      (Some (TPtr storage_receipts_type, VPtr (Some (zero storage_receipts_type)))) =
      Ok (receipts_value (zip_with consensus_receipt [sample_receipt; node_failure] blooms)).
Proof.
  assert (Hz : len (rlp_enc (Lst (map stored_tree [sample_receipt; node_failure]))) <= maxAlloc) by (by vm_compute).
  destruct (stored_receipts_roundtrip some_hash new_encbuf (zero_stream []) [sample_receipt; node_failure]
    sample_receipts_ok Hz eq_refl (or_introl eq_refl) some_hash_length) as (_ & blooms & H & _).
  exact (ex_intro _ blooms H).
Defined.

(** ** The older storage formats *)

Definition decode_storage (it : item) : outcome rlp_error value :=
  DecodeBytes (receipt_decoders (zero_stream []) some_hash) (zero_stream []) (rlp_enc it)
    (Some (TPtr storage_receipt_type, VPtr (Some (zero storage_receipt_type)))).
Definition legacy_log_tree (l : Log) : item :=
  Lst [Str (log_Address l); Lst (map Str (log_Topics l)); Str (log_Data l); Str (big_bytes (log_BlockNumber l));
       Str (log_TxHash l); Str (big_bytes (log_TxIndex l)); Str (log_BlockHash l); Str (big_bytes (log_Index l))].

(** Version 3 keeps the stored filter and the derived fields, and drops those of
    a legacy log. *)
Example decode_v3 :
  decode_storage (Lst [Str [1]; Str (repeat 3 256); Str (repeat 5 32); Str (repeat 6 20); Lst [legacy_log_tree sample_log]; Str [48]]) =
    Ok (receipt_value (set_logs (set_derived (NewReceipt false) (repeat 5 32) (repeat 6 20) [48]) [consensus sample_log] (repeat 3 256))).
Proof. by vm_compute. Qed.

(** Version 4 has no filter: it is computed. *)
Example decode_v4 :
  match receipt_bloom some_hash [consensus sample_log] with
  | Some bl =>
      decode_storage (Lst [Str []; Str (repeat 5 32); Str (repeat 6 20); Lst [log_tree sample_log]; Str [48]]) =
        Ok (receipt_value (set_logs (set_derived (NewReceipt true) (repeat 5 32) (repeat 6 20) [48]) [consensus sample_log] bl))
  | None => False
  end.
Proof. by vm_compute. Qed.

(** Any other status is refused by each of the three. *)
Example decode_bad_status : decode_storage (Lst [Str [2]; Lst []]) <> Ok (receipt_value zero_receipt) /\
  exists e, decode_storage (Lst [Str [2]; Lst []]) = Err e.
Proof. split; [by vm_compute|]. eexists. vm_compute. reflexivity. Qed.
