(* ===== verification/AbiType.v ===== *)
(** * Types and values of the contract ABI

    type.go, error.go and reflect.go of src/accounts/abi: the type expressions of
    contract interfaces, the Go values that are checked against them, and the
    pairing of tuple components with struct fields.

    A [Type] has the constructors of the field T that NewType makes; its text
    [stringKind] is returned next to it.  A Go value carries what the codec asks
    reflect for: its kind, the kind of its elements, the names and abi tags of
    its fields.  Names are ASCII, structs have no embedded fields, and array
    types are small enough for reflect.ArrayOf. *)

From Stdlib Require Import String.
From stdpp Require Import gmap.
From S2P Require Import Prelude GoText.

(** ** Types *)

Inductive Type_ : Type :=
| IntTy (size : Z)
| UintTy (size : Z)
| BoolTy
| StringTy
| SliceTy (elem : Type_)
| ArrayTy (size : Z) (elem : Type_)
| TupleTy (rawName : list Z) (rawNames : list (list Z)) (elems : list Type_)
| AddressTy
| FixedBytesTy (size : Z)
| BytesTy
| FunctionTy.

Section Type_ind.
  Context (P : Type_ -> Prop).
  Context (HInt : forall n, P (IntTy n)) (HUint : forall n, P (UintTy n)) (HBool : P BoolTy) (HString : P StringTy).
  Context (HSlice : forall e, P e -> P (SliceTy e)) (HArray : forall n e, P e -> P (ArrayTy n e)).
  Context (HTuple : forall r ns es, Forall P es -> P (TupleTy r ns es)).
  Context (HAddress : P AddressTy) (HFixed : forall n, P (FixedBytesTy n)) (HBytes : P BytesTy) (HFunction : P FunctionTy).

(** Induction that reaches the components of tuples. *)
Fixpoint Type_nested_ind (t : Type_) : P t :=
  match t with
  | IntTy n => HInt n
  | UintTy n => HUint n
  | BoolTy => HBool
  | StringTy => HString
  | SliceTy e => HSlice e (Type_nested_ind e)
  | ArrayTy n e => HArray n e (Type_nested_ind e)
  | TupleTy r ns es =>
      HTuple r ns es ((fix go es : Forall P es := match es with
                       | [] => Forall_nil_2 P
                       | e :: es => Forall_cons_2 P e es (Type_nested_ind e) (go es)
                       end) es)
  | AddressTy => HAddress
  | FixedBytesTy n => HFixed n
  | BytesTy => HBytes
  | FunctionTy => HFunction
  end.
End Type_ind.

(** reflect.Kind; [Other] stands for the kinds the codec never asks for. *)
Inductive rkind : Type :=
| KBool
| KInt (bits : Z)
| KUint (bits : Z)
| KString
| KSlice
| KArray
| KStruct
| KPtr
| KOther.
#[export] Instance rkind_eq_dec : EqDecision rkind.
Proof. solve_decision. Defined.

Definition reflectIntKindAndType (unsigned : bool) (size : Z) : rkind :=
  if (size =? 8) || (size =? 16) || (size =? 32) || (size =? 64) then
    if unsigned then KUint size else KInt size
  else KPtr.

Definition type_Kind (t : Type_) : rkind :=
  match t with
  | IntTy n => reflectIntKindAndType false n
  | UintTy n => reflectIntKindAndType true n
  | BoolTy => KBool
  | StringTy => KString
  | SliceTy _ | BytesTy => KSlice
  | ArrayTy _ _ | AddressTy | FixedBytesTy _ | FunctionTy => KArray
  | TupleTy _ _ _ => KStruct
  end.

Definition requiresLengthPrefix (t : Type_) : bool :=
  match t with StringTy | BytesTy | SliceTy _ => true | _ => false end.

Fixpoint isDynamicType (t : Type_) : bool :=
  match t with
  | TupleTy _ _ es => existsb isDynamicType es
  | StringTy | BytesTy | SliceTy _ => true
  | ArrayTy _ e => isDynamicType e
  | _ => false
  end.

Definition sum (l : list Z) : Z := foldr Z.add 0 l.

Fixpoint getTypeSize (t : Type_) : Z :=
  match t with
  | ArrayTy n e =>
      if negb (isDynamicType e) then
        match e with ArrayTy _ _ => n * getTypeSize e | _ => n * 32 end
      else 32
  | TupleTy _ _ es => if negb (isDynamicType t) then sum (map getTypeSize es) else 32
  | _ => 32
  end.

(** ** Errors *)

Inductive abi_error : Type :=
| errBrackets | errArraySize | errArrayFormat | errInvalidType | errVarSize | errUnsupported | errAnonymousField
| errTypeCheck | errTagEmpty | errTagMapped | errTagNotFound | errUnderscored | errMultipleVariables | errMultipleOutputs
| errFieldNotFound | errArgCount
| errBadBool | errFunctionType | errNegativeSize | errArrayBound | errLengthInsufficient
| errOffsetBound | errOffsetLarge | errLengthLarge | errTotalBound
| errNilMap | errEmptyData | errFormattedOutput | errNotLocated | errMethodNotFound | errShortData | errNoMethod | errNoEvent
| errInvalidRevert | errSingleFallback | errSingleReceive | errReceiveMutability | errFieldType.

(** ** Parsing type expressions *)

Definition is_letter (c : Z) : bool := (65 <=? c) && (c <=? 90) || (97 <=? c) && (c <=? 122).
Definition is_digit (c : Z) : bool := (48 <=? c) && (c <=? 57).

Fixpoint span (p : Z -> bool) (s : list Z) : list Z * list Z :=
  match s with
  | [] => ([], [])
  | c :: r => if p c then let '(a, b) := span p r in (c :: a, b) else ([], s)
  end.

(** The first match of typeRegex: letters (group 1), then perhaps digits (group
    3) and perhaps an x and more digits (group 2, with the first digits). *)
Definition typeRegex (t : list Z) : option (list Z * list Z * list Z) :=
  let '(_, s) := span (fun c => negb (is_letter c)) t in
  match s with
  | [] => None
  | _ =>
      let '(letters, s) := span is_letter s in
      let '(digits, s) := span is_digit s in
      match digits, s with
      | _ :: _, x :: s' =>
          match span is_digit s' with
          | (_ :: _ as more, _) => if x =? 120 then Some (letters, digits ++ x :: more, digits) else Some (letters, digits, digits)
          | _ => Some (letters, digits, digits)
          end
      | _, _ => Some (letters, digits, digits)
      end
  end.

(** The maximal runs of digits. *)
Fixpoint digit_runs (fuel : nat) (s : list Z) : list (list Z) :=
  match fuel with
  | O => []
  | S f =>
      let '(_, s) := span (fun c => negb (is_digit c)) s in
      match span is_digit s with
      | ([], _) => []
      | (run, s) => run :: digit_runs f s
      end
  end.

(** strconv.Atoi of a text without sign. *)
Definition Atoi (s : list Z) : option Z :=
  match ParseUint s 10 with
  | (n, None) => if n <? 2 ^ 63 then Some n else None
  | _ => None
  end.

(** strings.Count and strings.LastIndex of one character. *)
Definition count (c : Z) (s : list Z) : nat := length (List.filter (Z.eqb c) s).
Fixpoint LastIndex (s : list Z) (c : Z) : option nat :=
  match s with
  | [] => None
  | x :: s => match LastIndex s c with
              | Some i => Some (S i)
              | None => if x =? c then Some O else None
              end
  end.

(** strings.Split at underscores. *)
Fixpoint split_underscore (s : list Z) : list (list Z) :=
  match s with
  | [] => [[]]
  | c :: s =>
      if c =? 95 then [] :: split_underscore s
      else match split_underscore s with p :: ps => (c :: p) :: ps | [] => [[c]] end
  end.
Definition upper (c : Z) : Z := if (97 <=? c) && (c <=? 122) then c - 32 else c.
Definition capitalize (s : list Z) : list Z := match s with [] => [] | c :: s => upper c :: s end.
Definition ToCamelCase (input : list Z) : list Z := concat (map capitalize (split_underscore input)).

(** reflect.StructOf panics unless the names are those of exported fields, all
    different. *)
Definition exported_name (n : list Z) : bool :=
  match n with
  | [] => false
  | c :: n => (65 <=? c) && (c <=? 90) && forallb (fun c => is_letter c || is_digit c || (c =? 95)) n
  end.
Definition StructOf_ok (names : list (list Z)) : bool := forallb exported_name names && bool_decide (NoDup names).

Definition structPrefix : list Z := str "struct ".
Definition tuple_raw_name (internalType : list Z) : list Z :=
  if bool_decide (take 7 internalType = structPrefix) then List.filter (fun c => negb (c =? 46)) (drop 7 internalType) else [].

(** The loop over the components of a tuple: their types, names and texts. *)
Fixpoint tuple_components (comps : list (list Z * outcome abi_error (Type_ * list Z))) :
    outcome abi_error (list Type_ * list (list Z) * list (list Z)) :=
  match comps with
  | [] => Ok ([], [], [])
  | (name, c) :: comps =>
      let? (cType, text) := c in
      if bool_decide (ToCamelCase name = []) then Err errAnonymousField
      else let? (elems, names, texts) := tuple_components comps in
           Ok (cType :: elems, name :: names, text :: texts)
  end.
Fixpoint join (sep : list Z) (ss : list (list Z)) : list Z :=
  match ss with
  | [] => []
  | [s] => s
  | s :: ss => s ++ sep ++ join sep ss
  end.

(** The part of NewType for expressions without brackets. *)
Definition new_base_type (t internalType : list Z) (comps : list (list Z * outcome abi_error (Type_ * list Z))) :
    outcome abi_error (Type_ * list Z) :=
  match typeRegex t with
  | None => Err errInvalidType
  | Some (varType, group2, group3) =>
      let? varSize :=
        match group3 with
        | _ :: _ => match Atoi group2 with Some n => Ok n | None => Err errVarSize end
        | [] => if bool_decide (varType = str "uint") || bool_decide (varType = str "int") then Err errUnsupported else Ok 0
        end in
      if bool_decide (varType = str "int") then Ok (IntTy varSize, t)
      else if bool_decide (varType = str "uint") then Ok (UintTy varSize, t)
      else if bool_decide (varType = str "bool") then Ok (BoolTy, t)
      else if bool_decide (varType = str "address") then Ok (AddressTy, t)
      else if bool_decide (varType = str "string") then Ok (StringTy, t)
      else if bool_decide (varType = str "bytes") then Ok (if varSize =? 0 then BytesTy else FixedBytesTy varSize, t)
      else if bool_decide (varType = str "tuple") then
        let? (elems, names, texts) := tuple_components comps in
        if negb (StructOf_ok (map ToCamelCase names)) then Panic
        else Ok (TupleTy (tuple_raw_name internalType) names elems, str "(" ++ join (str ",") texts ++ str ")")
      else if bool_decide (varType = str "function") then Ok (FunctionTy, t)
      else Err errUnsupported
  end.

(** NewType; the components are given by their names and what NewType returns
    for them.  Each call for an array shortens the expression. *)
Fixpoint NewType_ (fuel : nat) (t internalType : list Z) (comps : list (list Z * outcome abi_error (Type_ * list Z))) :
    outcome abi_error (Type_ * list Z) :=
  match fuel with
  | O => OutOfFuel
  | S f =>
      if negb (count 91 t =? count 93 t)%nat then Err errBrackets
      else match LastIndex t 91 with
      | None => new_base_type t internalType comps
      | Some i =>
          let subInternal := match LastIndex internalType 91 with Some j => take j internalType | None => internalType end in
          let? (embedded, text) := NewType_ f (take i t) subInternal comps in
          let sliced := drop i t in
          match digit_runs (length sliced) sliced with
          | [] => Ok (SliceTy embedded, text ++ sliced)
          | [n] => match Atoi n with
                   | Some n => Ok (ArrayTy n embedded, text ++ sliced)
                   | None => Err errArraySize
                   end
          | _ => Err errArrayFormat
          end
      end
  end.

Inductive ArgumentMarshaling : Type :=
| ArgMarshaling (Name Type_ InternalType : list Z) (Components : list ArgumentMarshaling) (Indexed : bool).
Definition arg_name (a : ArgumentMarshaling) : list Z := let 'ArgMarshaling n _ _ _ _ := a in n.
Definition arg_indexed (a : ArgumentMarshaling) : bool := let 'ArgMarshaling _ _ _ _ i := a in i.

Fixpoint arg_type (a : ArgumentMarshaling) : outcome abi_error (Type_ * list Z) :=
  let 'ArgMarshaling _ t internal comps _ := a in
  NewType_ (S (length t)) t internal (map (fun c => (arg_name c, arg_type c)) comps).
Definition NewType (t internalType : list Z) (components : list ArgumentMarshaling) : outcome abi_error (Type_ * list Z) :=
  arg_type (ArgMarshaling [] t internalType components false).

(** ** Go values *)

(** [GInt] holds values of the integer kinds, [GBig] a *big.Int, [GPtr] every
    other pointer; [None] is nil. *)
Inductive goval : Type :=
| GBool (b : bool)
| GInt (k : rkind) (z : Z)
| GBig (z : option Z)
| GString (s : list Z)
| GSeq (array : bool) (elem : rkind) (vs : list goval)
| GStruct (fields : list (list Z * option (list Z))) (vs : list goval)
| GPtr (v : option goval)
| GOther.

Definition val_Kind (v : goval) : rkind :=
  match v with
  | GBool _ => KBool
  | GInt k _ => k
  | GBig _ | GPtr _ => KPtr
  | GString _ => KString
  | GSeq true _ _ => KArray
  | GSeq false _ _ => KSlice
  | GStruct _ _ => KStruct
  | GOther => KOther
  end.

(** A [[]byte], or an array of bytes. *)
Definition GBytes (array : bool) (b : list Z) : goval := GSeq array (KUint 8) (map (GInt (KUint 8)) b).

(** The bytes of a slice or array of bytes; reflect panics on other elements. *)
Definition byte_of (v : goval) : option Z := match v with GInt _ z => Some z | _ => None end.
Definition val_Bytes (v : goval) : option (list Z) :=
  match v with
  | GSeq _ k vs => if bool_decide (k = KUint 8) then mapM byte_of vs else None
  | _ => None
  end.

(** [indirect]; asking a nil pointer for the type it points to panics. *)
Fixpoint indirect (v : goval) : option goval :=
  match v with
  | GPtr (Some v) => indirect v
  | GPtr None | GBig None => None
  | _ => Some v
  end.

(** ** Type checks of error.go *)

Fixpoint sliceTypeCheck (t : Type_) (val : goval) : outcome abi_error unit :=
  match t with
  | SliceTy e | ArrayTy _ e =>
      match val with
      | GSeq _ ek vs =>
          if match t with ArrayTy n _ => negb (len vs =? n) | _ => false end then Err errTypeCheck
          else
            let elemKind := if bool_decide (ek = type_Kind e) then Ok tt else Err errTypeCheck in
            match e with
            | SliceTy _ => match vs with v :: _ => sliceTypeCheck e v | [] => elemKind end
            | ArrayTy _ _ => match vs with v :: _ => sliceTypeCheck e v | [] => Panic end
            | _ => elemKind
            end
      | _ => Err errTypeCheck
      end
  | _ => Panic
  end.

Definition typeCheck (t : Type_) (value : goval) : outcome abi_error unit :=
  match t with
  | SliceTy _ | ArrayTy _ _ => sliceTypeCheck t value
  | _ =>
      if bool_decide (type_Kind t = val_Kind value) then
        match t, value with
        | FixedBytesTy n, GSeq _ _ vs => if n =? len vs then Ok tt else Err errTypeCheck
        | _, _ => Ok tt
        end
      else Err errTypeCheck
  end.

(** ** Struct fields *)

Definition FieldByName (fields : list (list Z * option (list Z))) (vs : list goval) (name : list Z) : option goval :=
  '(i, _) ← list_find (fun f => fst f = name) fields; vs !! i.

(** [m[k]] of a map from strings to strings, and whether it is not empty. *)
Definition set_in (m : gmap (list Z) (list Z)) (k : list Z) : bool := negb (bool_decide (default [] (m !! k) = [])).

(** The arguments whose name is the tag of a field. *)
Fixpoint pair_tag (field tag : list Z) (argNames : list (list Z)) (found : bool) (a2s s2a : gmap (list Z) (list Z)) :
    abi_error + (bool * gmap (list Z) (list Z) * gmap (list Z) (list Z)) :=
  match argNames with
  | [] => inr (found, a2s, s2a)
  | arg :: argNames =>
      if bool_decide (arg = tag) then
        if set_in a2s arg then inl errTagMapped
        else pair_tag field tag argNames true (<[arg := field]> a2s) (<[field := arg]> s2a)
      else pair_tag field tag argNames found a2s s2a
  end.

Fixpoint map_tags (argNames : list (list Z)) (fields : list (list Z * option (list Z))) (a2s s2a : gmap (list Z) (list Z)) :
    abi_error + (gmap (list Z) (list Z) * gmap (list Z) (list Z)) :=
  match fields with
  | [] => inr (a2s, s2a)
  | (name, tag) :: fields =>
      if negb (bool_decide (map upper (take 1 name) = take 1 name)) then map_tags argNames fields a2s s2a
      else match tag with
      | None => map_tags argNames fields a2s s2a
      | Some [] => inl errTagEmpty
      | Some tag =>
          match pair_tag name tag argNames false a2s s2a with
          | inl e => inl e
          | inr (false, _, _) => inl errTagNotFound
          | inr (true, a2s, s2a) => map_tags argNames fields a2s s2a
          end
      end
  end.

Fixpoint map_names (fields : list (list Z * option (list Z))) (vs : list goval) (argNames : list (list Z)) (a2s s2a : gmap (list Z) (list Z)) :
    abi_error + gmap (list Z) (list Z) :=
  match argNames with
  | [] => inr a2s
  | argName :: argNames =>
      let structFieldName := ToCamelCase argName in
      let valid := match FieldByName fields vs structFieldName with Some _ => true | None => false end in
      if bool_decide (structFieldName = []) then inl errUnderscored
      else if set_in a2s argName then
        if negb (bool_decide (default [] (a2s !! argName) = structFieldName)) && negb (set_in s2a structFieldName) && valid
        then inl errMultipleVariables
        else map_names fields vs argNames a2s s2a
      else if set_in s2a structFieldName then inl errMultipleOutputs
      else if valid then
        map_names fields vs argNames (<[argName := structFieldName]> a2s) (<[structFieldName := argName]> s2a)
      else map_names fields vs argNames a2s (<[structFieldName := argName]> s2a)
  end.

Definition mapArgNamesToStructFields (argNames : list (list Z)) (fields : list (list Z * option (list Z))) (vs : list goval) :
    abi_error + gmap (list Z) (list Z) :=
  match map_tags argNames fields ∅ ∅ with
  | inl e => inl e
  | inr (a2s, s2a) => map_names fields vs argNames a2s s2a
  end.

(** ** Examples of type expressions *)

Example NewType_array :
  NewType (str "uint256[2][]") [] [] = Ok (SliceTy (ArrayTy 2 (UintTy 256)), str "uint256[2][]").
Proof. by vm_compute. Qed.

Example NewType_tuple :
  NewType (str "tuple[3]") (str "struct Lib.Point[3]")
    [ArgMarshaling (str "x_pos") (str "int64") [] [] false; ArgMarshaling (str "name") (str "string") [] [] false] =
  Ok (ArrayTy 3 (TupleTy (str "LibPoint") [str "x_pos"; str "name"] [IntTy 64; StringTy]), str "(int64,string)[3]").
Proof. by vm_compute. Qed.

Example NewType_errors :
  NewType (str "uint") [] [] = Err errUnsupported /\ NewType (str "fixed128x18") [] [] = Err errVarSize /\
  NewType (str "uint8[3x4]") [] [] = Err errArrayFormat /\ NewType (str "uint8]") [] [] = Err errBrackets /\
  NewType (str "tuple") [] [ArgMarshaling (str "_") (str "bool") [] [] false] = Err errAnonymousField.
Proof. by vm_compute. Qed.
