(* ===== verification/AbiParse.v ===== *)
(** * Type expressions

    NewType of src/accounts/abi/type.go read back: every type has an expression,
    with components for its tuples, that NewType parses to the type, and the text
    NewType keeps for it is the one that goes into the signatures of methods and
    events. *)

From Stdlib Require Import String.
From S2P Require Import Prelude GoText AbiType.

(** ** Expressions *)

Definition decimal (n : Z) : list Z := FormatUint n 10.

(** The expression of a type in a contract description. *)
Fixpoint expr (t : Type_) : list Z :=
  match t with
  | IntTy n => str "int" ++ decimal n
  | UintTy n => str "uint" ++ decimal n
  | BoolTy => str "bool"
  | StringTy => str "string"
  | SliceTy e => expr e ++ 91 :: [] ++ [93]
  | ArrayTy n e => expr e ++ 91 :: decimal n ++ [93]
  | TupleTy _ _ _ => str "tuple"
  | AddressTy => str "address"
  | FixedBytesTy n => str "bytes" ++ decimal n
  | BytesTy => str "bytes"
  | FunctionTy => str "function"
  end.

(** The components of the tuple in an expression. *)
Fixpoint components (t : Type_) : list ArgumentMarshaling :=
  match t with
  | SliceTy e | ArrayTy _ e => components e
  | TupleTy _ ns es => zip_with (fun n p => ArgMarshaling n (fst p) [] (snd p) false) ns (map (fun e => (expr e, components e)) es)
  | _ => []
  end.

(** The text in signatures: tuples by their components. *)
Fixpoint text (t : Type_) : list Z :=
  match t with
  | SliceTy e => text e ++ 91 :: [] ++ [93]
  | ArrayTy n e => text e ++ 91 :: decimal n ++ [93]
  | TupleTy _ _ es => str "(" ++ join (str ",") (map text es) ++ str ")"
  | _ => expr t
  end.

(** The types that descriptions without internal types can give: sizes are
    those of an int, and the component names make exported field names, all
    different. *)
Fixpoint wf (t : Type_) : Prop :=
  match t with
  | IntTy n | UintTy n => 0 <= n < 2 ^ 63
  | FixedBytesTy n => 0 < n < 2 ^ 63
  | SliceTy e => wf e
  | ArrayTy n e => 0 <= n < 2 ^ 63 /\ wf e
  | TupleTy r ns es =>
      r = [] /\ length ns = length es /\ StructOf_ok (map ToCamelCase ns) = true /\ foldr (fun t P => wf t /\ P) True es
  | _ => True
  end.

Lemma wf_tuple r ns es :
  wf (TupleTy r ns es) <-> r = [] /\ length ns = length es /\ StructOf_ok (map ToCamelCase ns) = true /\ Forall wf es.
Proof.
  cbn [wf]. assert (foldr (fun t P => wf t /\ P) True es <-> Forall wf es) as ->; [|done].
  induction es as [|e es IH]; simpl; [done|]. rewrite IH, Forall_cons. done.
Qed.

(** ** Characters *)

Lemma span_app p a b :
  Forall (fun c => p c = true) a -> match b with [] => True | c :: _ => p c = false end -> span p (a ++ b) = (a, b).
Proof.
  intros Ha Hb. induction Ha as [|c a Hc _ IH]; cbn [app span].
  - destruct b as [|c b]; [done|]. cbn [span]. by rewrite Hb.
  - by rewrite Hc, IH.
Qed.

Lemma decimal_spec n : 0 <= n -> exists ds, decimal n = map digit_char ds /\ digits_ok 10 ds /\ ds <> [] /\ num_val 10 ds = n.
Proof.
  intros Hn. destruct (FormatUint_spec 10 ltac:(lia) n Hn) as (ds & E & Hd & Hc & Hv). exists ds. split_and!; [done|done| |done].
  by intros ->.
Qed.

Lemma decimal_digits n : 0 <= n -> decimal n <> [] /\ Forall (fun c => is_digit c = true) (decimal n).
Proof.
  intros Hn. destruct (decimal_spec n Hn) as (ds & -> & Hd & Hne & _). split; [by destruct ds|]. apply Forall_map.
  eapply Forall_impl; [done|]. intros d Hd'. cbn beta in Hd'. unfold digit_char, is_digit.
  destruct (Z.ltb_spec d 10); [|lia]. apply andb_true_intro. split; apply Z.leb_le; lia.
Qed.

Lemma Atoi_decimal n : 0 <= n < 2 ^ 63 -> Atoi (decimal n) = Some n.
Proof.
  intros Hn. destruct (decimal_spec n ltac:(lia)) as (ds & E & Hd & Hne & Hv). unfold Atoi.
  assert (ParseUint (decimal n) 10 = (n, None)) as ->.
  { apply ParseUint_ok; [lia|]. rewrite E. split; [by destruct ds|]. exists ds. split_and!; [|done|lia].
    by apply digits_of_char. }
  destruct (Z.ltb_spec n (2 ^ 63)); [done|lia].
Qed.

(** ** Base types *)

Lemma typeRegex_parts letters digits :
  letters <> [] -> Forall (fun c => is_letter c = true) letters -> Forall (fun c => is_digit c = true) digits ->
  typeRegex (letters ++ digits) = Some (letters, digits, digits).
Proof.
  intros Hne Hl Hd. unfold typeRegex. destruct letters as [|c letters]; [done|]. pose proof Hl as [Hc _]%Forall_cons.
  cbn [app span]. rewrite Hc. cbn [negb]. change (c :: letters ++ digits) with ((c :: letters) ++ digits).
  rewrite span_app; [|done|].
  - rewrite <- (app_nil_r digits) at 1. rewrite span_app by done. by destruct digits.
  - destruct Hd as [|d digits Hd _]; [done|]. unfold is_digit, is_letter in *. by bprop.
Qed.

(** A character outside of a text. *)
Lemma LastIndex_none c s : Forall (fun x => x <> c) s -> LastIndex s c = None.
Proof. induction 1 as [|x s Hx _ IH]; [done|]. cbn [LastIndex]. rewrite IH. by destruct (Z.eqb_spec x c). Qed.

Lemma LastIndex_app s c r : Forall (fun x => x <> c) r -> LastIndex (s ++ c :: r) c = Some (length s).
Proof.
  intros Hr. induction s as [|x s IH]; cbn [app LastIndex length]; [|by rewrite IH].
  by rewrite LastIndex_none, Z.eqb_refl.
Qed.

Lemma count_app c a b : count c (a ++ b) = (count c a + count c b)%nat.
Proof. unfold count. by rewrite List.filter_app, length_app. Qed.

Lemma count_none c s : Forall (fun x => x <> c) s -> count c s = 0%nat.
Proof. unfold count. induction 1 as [|x s Hx _ IH]; [done|]. cbn [List.filter]. by destruct (Z.eqb_spec c x); [subst|]. Qed.

Lemma digits_no_bracket c s : (c = 91 \/ c = 93) -> Forall (fun c => is_digit c = true) s -> Forall (fun x => x <> c) s.
Proof.
  intros Hc Hs. eapply Forall_impl; [done|]. intros x Hx ->. unfold is_digit in Hx. destruct Hc as [-> | ->]; done.
Qed.

Lemma expr_balanced t : wf t -> count 91 (expr t) = count 93 (expr t).
Proof.
  assert (HD : forall l n, 0 <= n -> count 91 (l ++ decimal n) = count 91 l /\ count 93 (l ++ decimal n) = count 93 l).
  { intros l n Hn. destruct (decimal_digits n Hn) as [_ Hd].
    rewrite !count_app, !(count_none _ (decimal n)) by (eapply digits_no_bracket; eauto). by rewrite !Nat.add_0_r. }
  induction t as [n|n| | |e IH|n e IH|r ns es IH| |n| |] using Type_nested_ind; intros Hw; cbn [expr wf] in *; try done.
  - by destruct (HD (str "int") n) as [-> ->]; [lia|].
  - by destruct (HD (str "uint") n) as [-> ->]; [lia|].
  - rewrite !count_app. by rewrite (IH Hw).
  - rewrite !count_app, (IH (proj2 Hw)). change (91 :: decimal n ++ [93]) with ([91] ++ decimal n ++ [93]). rewrite !count_app.
    destruct (decimal_digits n) as [_ Hd]; [lia|]. rewrite !(count_none _ (decimal n)) by (eapply digits_no_bracket; eauto). done.
  - by destruct (HD (str "bytes") n) as [-> ->]; [lia|].
Qed.

Lemma digit_runs_brackets d :
  Forall (fun c => is_digit c = true) d ->
  digit_runs (length (91 :: d ++ [93])) (91 :: d ++ [93]) = match d with [] => [] | _ => [d] end.
Proof.
  intros Hd. destruct d as [|c d]; [done|]. pose proof Hd as [Hc _]%Forall_cons.
  rewrite length_cons, length_app, Nat.add_comm. cbn [length Nat.add]. change (91 :: (c :: d) ++ [93]) with ([91] ++ (c :: d) ++ [93]).
  cbn [digit_runs]. rewrite span_app; [|by constructor|by cbn [app]; rewrite Hc].
  rewrite span_app by done. done.
Qed.

(** ** Reading expressions *)

Definition parses (t : Type_) : Prop := forall fuel,
  (length (expr t) < fuel)%nat ->
  NewType_ fuel (expr t) [] (map (fun c => (arg_name c, arg_type c)) (components t)) = Ok (t, text t).

(** An expression of letters and digits. *)
Lemma parses_base letters digits t fuel comps :
  (0 < fuel)%nat -> letters <> [] -> Forall (fun c => is_letter c = true) letters -> Forall (fun c => is_digit c = true) digits ->
  new_base_type (letters ++ digits) [] comps = Ok t -> NewType_ fuel (letters ++ digits) [] comps = Ok t.
Proof.
  intros Hf Hne Hl Hd E. destruct fuel as [|fuel]; [lia|]. cbn [NewType_].
  assert (HN : forall c, c = 91 \/ c = 93 -> Forall (fun x => x <> c) (letters ++ digits)).
  { intros c Hc. apply Forall_app. split; [|by eapply digits_no_bracket]. eapply Forall_impl; [done|]. intros x Hx ->.
    unfold is_letter in Hx. by destruct Hc as [-> | ->]. }
  rewrite !count_none, LastIndex_none by auto. done.
Qed.

Lemma parses_array e d t fuel comps :
  wf e -> (length (expr e ++ 91%Z :: d ++ [93%Z]) < fuel)%nat -> Forall (fun c => is_digit c = true) d ->
  (forall f, (length (expr e) < f)%nat -> NewType_ f (expr e) [] comps = Ok (e, text e)) ->
  match d with
  | [] => t = SliceTy e
  | _ => exists n, Atoi d = Some n /\ t = ArrayTy n e
  end ->
  NewType_ fuel (expr e ++ 91 :: d ++ [93]) [] comps = Ok (t, text e ++ 91 :: d ++ [93]).
Proof.
  intros Hw Hf Hd IH Ht. destruct fuel as [|fuel]; [lia|]. cbn [NewType_].
  assert (Hno : forall c, c = 91 \/ c = 93 -> Forall (fun x => x <> c) d) by (intros c Hc; by eapply digits_no_bracket).
  assert (count 91 (expr e ++ 91 :: d ++ [93]) = count 93 (expr e ++ 91 :: d ++ [93])) as ->.
  { change (91 :: d ++ [93]) with ([91] ++ d ++ [93]). rewrite !count_app, expr_balanced, !(count_none _ d) by auto. done. }
  rewrite Nat.eqb_refl. cbn [negb]. rewrite LastIndex_app by (apply Forall_app; split; [by auto|by repeat constructor]).
  rewrite take_app_length, drop_app_length. cbn [LastIndex]. rewrite IH by (rewrite length_app, length_cons in Hf; lia). cbn [obind].
  rewrite digit_runs_brackets by done. destruct d as [|c d]; [by subst|]. destruct Ht as (n & -> & ->). done.
Qed.

Lemma exported_camel ns : StructOf_ok (map ToCamelCase ns) = true -> Forall (fun n => ToCamelCase n <> []) ns.
Proof.
  unfold StructOf_ok. intros [H _]%andb_prop. induction ns as [|n ns IH]; [constructor|].
  cbn [map forallb] in H. apply andb_prop in H as [H1 H2]. constructor; [by intros E; rewrite E in H1|by apply IH].
Qed.

Lemma tuple_components_ok ns es :
  length ns = length es -> Forall (fun n => ToCamelCase n <> []) ns -> Forall parses es ->
  tuple_components (map (fun c => (arg_name c, arg_type c))
    (zip_with (fun n p => ArgMarshaling n (fst p) [] (snd p) false) ns (map (fun e => (expr e, components e)) es))) =
  Ok (es, ns, map text es).
Proof.
  intros Hl Hn Hp. revert es Hl Hp. induction Hn as [|n ns Hn _ IH]; intros [|e es] Hl Hp; try done.
  apply Forall_cons in Hp as [He Hp]. cbn [map zip_with arg_name fst snd tuple_components]. cbn [arg_type].
  rewrite He by lia. cbn [obind]. rewrite bool_decide_eq_false_2 by done. rewrite IH by (done || by injection Hl). done.
Qed.

(** The types with a number in their name. *)
Lemma parses_sized l n fuel t :
  wf t -> t = IntTy n /\ l = str "int" \/ t = UintTy n /\ l = str "uint" \/ t = FixedBytesTy n /\ l = str "bytes" ->
  (length (l ++ decimal n) < fuel)%nat -> NewType_ fuel (l ++ decimal n) [] [] = Ok (t, l ++ decimal n).
Proof.
  intros Hw Ht Hf. assert (0 <= n < 2 ^ 63) by (destruct Ht as [[-> _]|[[-> _]|[-> _]]]; cbn [wf] in Hw; lia).
  destruct (decimal_digits n) as [Hne Hd]; [lia|].
  assert (Hl : l <> [] /\ Forall (fun c => is_letter c = true) l)
    by (destruct Ht as [[_ ->]|[[_ ->]|[_ ->]]]; (split; [done|by repeat constructor])).
  apply parses_base; [lia|apply Hl|apply Hl|done|]. unfold new_base_type. rewrite typeRegex_parts by (done || apply Hl).
  rewrite Atoi_decimal by lia. destruct (decimal n) as [|c d] eqn:E; [done|]. cbn [obind].
  destruct Ht as [[-> ->]|[[-> ->]|[-> ->]]]; try done. cbn [wf] in Hw.
  repeat (rewrite bool_decide_eq_false_2 by done). rewrite bool_decide_eq_true_2 by done.
  by destruct (Z.eqb_spec n 0); [lia|].
Qed.

(** The types without. *)
Lemma parses_plain t fuel :
  t = BoolTy \/ t = StringTy \/ t = AddressTy \/ t = BytesTy \/ t = FunctionTy ->
  (length (expr t) < fuel)%nat -> NewType_ fuel (expr t) [] [] = Ok (t, expr t).
Proof.
  intros Ht Hf. rewrite <- (app_nil_r (expr t)). apply parses_base; [lia| | |constructor|];
    destruct Ht as [-> |[-> |[-> |[-> | ->]]]]; first [done|by repeat constructor].
Qed.

Lemma parses_tuple r ns es : wf (TupleTy r ns es) -> Forall parses es -> parses (TupleTy r ns es).
Proof.
  intros Hw Hp fuel Hf. apply wf_tuple in Hw as (-> & Hl & Hs & _). cbn [expr components text] in *.
  rewrite <- (app_nil_r (str "tuple")). apply parses_base; [lia|done|by repeat constructor|constructor|].
  unfold new_base_type. rewrite typeRegex_parts by (done || by repeat constructor).
  repeat (rewrite bool_decide_eq_false_2 by done). cbn [orb obind]. rewrite bool_decide_eq_true_2 by done.
  rewrite tuple_components_ok by (done || by apply exported_camel). cbn [obind]. by rewrite Hs.
Qed.

Lemma parses_all t : wf t -> parses t.
Proof.
  induction t as [n|n| | |e IH|n e IH|r ns es IH| |n| |] using Type_nested_ind; intros Hw;
    try (intros fuel Hf; by apply parses_plain; [tauto|]); try (intros fuel Hf; by apply parses_sized; [|tauto|]).
  - intros fuel Hf. apply (parses_array e []); [done|done|constructor|by apply IH|done].
  - destruct Hw as [Hn Hw]. intros fuel Hf. destruct (decimal_digits n) as [Hne Hd]; [lia|].
    apply (parses_array e (decimal n)); [done|done|done|by apply IH|]. destruct (decimal n) eqn:E; [done|]. exists n. split; [|done].
    rewrite <- E. by apply Atoi_decimal.
  - apply parses_tuple; [done|]. apply wf_tuple in Hw as (_ & _ & _ & Hw). rewrite Forall_forall in *. auto.
Qed.

(** Type expressions are read back.  NewType on the expression of a type, with
    the components of its tuples, returns that type and its canonical text,
    which the signatures of methods and events are made of. *)
Theorem NewType_expr t : wf t -> NewType (expr t) [] (components t) = Ok (t, text t).
Proof. intros Hw. apply (parses_all t Hw). lia. Qed.

Definition sample_type : Type_ :=
  ArrayTy 3 (SliceTy (TupleTy [] [str "x_pos"; str "tags"] [IntTy 64; SliceTy (FixedBytesTy 4)])).

Lemma NewType_expr_witness :
  NewType (str "tuple[][3]") [] (components sample_type) = Ok (sample_type, str "(int64,bytes4[])[][3]").
Proof.
  assert (Hw : wf sample_type) by (vm_compute; intuition congruence).
  exact (NewType_expr sample_type Hw).
Defined.
