(* ===== verification/AbiPack.v ===== *)
(** * Packing values by the contract ABI

    Type.pack of src/accounts/abi/type.go, pack.go and Arguments.Pack of
    argument.go, and the encoding that the ABI specification defines.  The
    specification puts the components of a tuple or array into a head part; a
    component of dynamic type has its offset there and its encoding in the tail
    part.  Packing implements it for the types on which getTypeSize gives the
    length of the head. *)

From stdpp Require Import gmap.
From S2P Require Import Prelude GoText Math Common AbiType.

(** ** Packing *)

Record Argument : Type := MkArgument {
  Name : list Z;
  arg_Type : Type_;
  arg_text : list Z;
  Indexed : bool
}.

(** Argument.UnmarshalJSON after the JSON parser. *)
Definition Argument_UnmarshalJSON (arg : ArgumentMarshaling) : outcome abi_error Argument :=
  let? (t, text) := arg_type arg in Ok (MkArgument (arg_name arg) t text (arg_indexed arg)).

Section pack.
  (** The bytes of a big.Word. *)
  Context (wb : nat).

Definition abi_U256 (n : Z) : list Z := PaddedBigBytes wb (U256 n) 32.

Definition packNum (value : goval) : option (list Z) :=
  match value with
  | GInt _ z | GBig (Some z) => Some (abi_U256 z)
  | _ => None
  end.

Definition packBytesSlice (bytes : list Z) (l : Z) : list Z := abi_U256 l ++ RightPadBytes bytes ((l + 31) / 32 * 32).

Definition packElement (t : Type_) (v : goval) : outcome abi_error (list Z) :=
  match t with
  | IntTy _ | UintTy _ => of_option (packNum v)
  | StringTy => match v with GString s => Ok (packBytesSlice s (len s)) | _ => Panic end
  | AddressTy => of_option (b ← val_Bytes v; LeftPadBytes b 32)
  | BoolTy => match v with GBool b => Ok (PaddedBigBytes wb (if b then 1 else 0) 32) | _ => Panic end
  | BytesTy => of_option (b ← val_Bytes v; Some (packBytesSlice b (len b)))
  | FixedBytesTy _ | FunctionTy => of_option (b ← val_Bytes v; Some (RightPadBytes b 32))
  | _ => Panic
  end.

(** The loop over the elements of a slice or array. *)
Fixpoint packElems (packElem : goval -> outcome abi_error (list Z)) (offsetReq : bool) (offset : Z) (ret tail : list Z)
    (vs : list goval) : outcome abi_error (list Z) :=
  match vs with
  | [] => Ok (ret ++ tail)
  | v :: vs =>
      let? val := packElem v in
      if negb offsetReq then packElems packElem offsetReq offset (ret ++ val) tail vs
      else packElems packElem offsetReq (offset + len val) (ret ++ abi_U256 offset) (tail ++ val) vs
  end.

(** The loop over the components of a tuple or over arguments: whether the type
    is dynamic, and what packing the component returns. *)
Fixpoint packFields (fields : list (bool * outcome abi_error (list Z))) (offset : Z) (ret tail : list Z) :
    outcome abi_error (list Z) :=
  match fields with
  | [] => Ok (ret ++ tail)
  | (dynamic, packed) :: fields =>
      let? val := packed in
      if dynamic : bool then packFields fields (offset + len val) (ret ++ abi_U256 offset) (tail ++ val)
      else packFields fields offset (ret ++ val) tail
  end.

Fixpoint pack (t : Type_) (v : goval) : outcome abi_error (list Z) :=
  match indirect v with
  | None => Panic
  | Some v =>
      let? _ := typeCheck t v in
      match t, v with
      | SliceTy e, GSeq _ _ vs | ArrayTy _ e, GSeq _ _ vs =>
          let ret := if requiresLengthPrefix t then abi_U256 (len vs) else [] in
          let offsetReq := isDynamicType e in
          packElems (pack e) offsetReq (if offsetReq then getTypeSize e * len vs else 0) ret [] vs
      | TupleTy _ names es, GStruct fields vs =>
          match mapArgNamesToStructFields names fields vs with
          | inl err => Err err
          | inr fieldmap =>
              packFields (zip_with (fun name p =>
                  (fst p, match FieldByName fields vs (default [] (fieldmap !! name)) with
                          | None => Err errFieldNotFound
                          | Some field => snd p field
                          end)) names (map (fun e => (isDynamicType e, pack e)) es))
                (sum (map getTypeSize es)) [] []
          end
      | _, _ => packElement t v
      end
  end.

Definition Pack (arguments : list Argument) (args : list goval) : outcome abi_error (list Z) :=
  if negb (len args =? len arguments) then Err errArgCount
  else packFields (zip_with (fun input a => (isDynamicType (arg_Type input), pack (arg_Type input) a)) arguments args)
         (sum (map (fun a => getTypeSize (arg_Type a)) arguments)) [] [].
End pack.

(** ** The encoding of the specification *)

Definition word (z : Z) : list Z := be_bytes 32 (z mod 2 ^ 256).
Definition pad_right (b : list Z) (n : Z) : list Z := b ++ zeros (n - len b).
Definition encoded_bytes (b : list Z) : list Z := word (len b) ++ pad_right b ((len b + 31) / 32 * 32).

(** Components, each with whether its type is dynamic and its encoding. *)
Definition head_len (it : bool * list Z) : Z := if fst it then 32 else len (snd it).
Fixpoint heads (off : Z) (its : list (bool * list Z)) : list Z :=
  match its with
  | [] => []
  | (true, e) :: its => word off ++ heads (off + len e) its
  | (false, e) :: its => e ++ heads off its
  end.
Fixpoint tails (its : list (bool * list Z)) : list Z :=
  match its with
  | [] => []
  | (true, e) :: its => e ++ tails its
  | (false, _) :: its => tails its
  end.
Definition enc_items (its : list (bool * list Z)) : list Z := heads (sum (map head_len its)) its ++ tails its.

Definition bytes_of (v : goval) : list Z := default [] (val_Bytes v).
Fixpoint enc (t : Type_) (v : goval) : list Z :=
  match t, v with
  | (IntTy _ | UintTy _), (GInt _ z | GBig (Some z)) => word z
  | BoolTy, GBool b => word (if b then 1 else 0)
  | StringTy, GString s => encoded_bytes s
  | BytesTy, _ => encoded_bytes (bytes_of v)
  | AddressTy, _ => zeros 12 ++ bytes_of v
  | (FixedBytesTy _ | FunctionTy), _ => pad_right (bytes_of v) 32
  | SliceTy e, GSeq _ _ vs => word (len vs) ++ enc_items (map (fun v => (isDynamicType e, enc e v)) vs)
  | ArrayTy _ e, GSeq _ _ vs => enc_items (map (fun v => (isDynamicType e, enc e v)) vs)
  | TupleTy _ _ es, GStruct _ vs =>
      enc_items (zip_with (fun p v => (fst p, snd p v)) (map (fun e => (isDynamicType e, enc e)) es) vs)
  | _, _ => []
  end.
Definition enc_args (ts : list Type_) (vs : list goval) : list Z :=
  enc_items (zip_with (fun t v => (isDynamicType t, enc t v)) ts vs).

(** ** Values of a type *)

Definition int_range (signed : bool) (bits z : Z) : Prop :=
  if signed then - 2 ^ (bits - 1) <= z < 2 ^ (bits - 1) else 0 <= z < 2 ^ bits.
Definition int_ok (signed : bool) (size : Z) (v : goval) : Prop :=
  match reflectIntKindAndType (negb signed) size, v with
  | KPtr, GBig (Some z) => int_range signed 256 z
  | k, GInt k' z => k = k' /\ k <> KPtr /\ int_range signed size z
  | _, _ => False
  end.
Definition bytes_val (array : bool) (n : Z) (v : goval) : Prop := exists b, v = GBytes array b /\ len b = n.
Definition is_array (t : Type_) : bool := match t with ArrayTy _ _ => true | _ => false end.

(** The fields of the struct type that NewType makes for a tuple: names in camel
    case, without abi tags. *)
Definition tuple_fields (names : list (list Z)) : list (list Z * option (list Z)) := map (fun n => (ToCamelCase n, None)) names.

(** The values that unpacking a type returns.  A slice of arrays is not empty,
    and arrays and tuples are not. *)
Fixpoint value_ok (t : Type_) (v : goval) : Prop :=
  match t with
  | IntTy n => int_ok true n v
  | UintTy n => int_ok false n v
  | BoolTy => exists b, v = GBool b
  | StringTy => exists s, v = GString s
  | BytesTy => exists b, v = GBytes false b
  | AddressTy => bytes_val true 20 v
  | FixedBytesTy n => bytes_val true n v /\ n <= 32
  | FunctionTy => bytes_val true 24 v
  | SliceTy e => exists vs, v = GSeq false (type_Kind e) vs /\ Forall (value_ok e) vs /\ (is_array e = true -> vs <> [])
  | ArrayTy n e => exists vs, v = GSeq true (type_Kind e) vs /\ Forall (value_ok e) vs /\ len vs = n /\ 0 < n
  | TupleTy _ names es =>
      exists vs, v = GStruct (tuple_fields names) vs /\ length names = length es /\ es <> [] /\
        NoDup (map ToCamelCase names) /\ ([] ∉ map ToCamelCase names) /\
        Forall2 (fun (P : goval -> Prop) v => P v) (map value_ok es) vs
  end.

(** The types on which getTypeSize is the length of the head: static arrays hold
    no tuples of more than one word. *)
Fixpoint sized (t : Type_) : Prop :=
  match t with
  | SliceTy e => sized e
  | ArrayTy _ e =>
      sized e /\ match e with TupleTy _ _ _ => (isDynamicType e = false -> getTypeSize e = 32) | _ => True end
  | TupleTy _ _ es => foldr (fun t P => sized t /\ P) True es
  | _ => True
  end.

(** ** Words *)

Lemma word_len z : len (word z) = 32.
Proof. unfold word, len. by rewrite be_bytes_length. Qed.

Lemma be_val_word z : 0 <= z < 2 ^ 256 -> be_val (word z) = z.
Proof.
  intros Hz. unfold word. rewrite be_val_be_bytes, (Z.mod_small z) by done. change (256 ^ Z.of_nat 32) with (2 ^ 256).
  by apply Z.mod_small.
Qed.

Lemma abi_U256_word wb z : (0 < wb)%nat -> abi_U256 wb z = word z.
Proof.
  intros Hw. unfold abi_U256, word. assert (E : U256 z = z mod 2 ^ 256) by (unfold U256, tt256m1; by rewrite <- (Z.land_ones z 256)).
  rewrite E. pose proof (Z.mod_pos_bound z (2 ^ 256) eq_refl).
  rewrite PaddedBigBytes_fits by (try done; rewrite Z.abs_eq by lia; change (256 ^ 32) with (2 ^ 256); lia).
  by rewrite Z.abs_eq by lia.
Qed.

Lemma pad_right_len b n : len b <= n -> len (pad_right b n) = n.
Proof. intros. unfold pad_right. rewrite len_app, len_zeros; lia. Qed.

Lemma RightPadBytes_pad b n : RightPadBytes b n = pad_right b n.
Proof.
  unfold RightPadBytes, pad_right. destruct (Z.leb_spec n (len b)) as [H|H].
  - unfold zeros. replace (Z.to_nat (n - len b)) with 0%nat by lia. by rewrite app_nil_r.
  - unfold go_copy, zeros, len in *. rewrite length_replicate, take_ge, drop_replicate by lia. do 2 f_equal. lia.
Qed.

Lemma LeftPadBytes_pad b n : len b <= n -> LeftPadBytes b n = Some (zeros (n - len b) ++ b).
Proof.
  intros Hb. unfold LeftPadBytes. destruct (Z.leb_spec n (len b)) as [H|H].
  { replace (n - len b) with 0 by lia. done. }
  pose proof (len_nonneg b). unfold go_copy_at. rewrite len_zeros by lia.
  destruct (Z.leb_spec 0 (n - len b)), (Z.leb_spec (n - len b) n); try lia. cbn [andb]. f_equal.
  unfold zeros. rewrite take_replicate, drop_replicate. f_equal.
  - f_equal. lia.
  - unfold go_copy. rewrite length_replicate, drop_replicate, take_ge by (unfold len in *; lia).
    replace (_ - _)%nat with 0%nat by (unfold len in *; lia). by rewrite app_nil_r.
Qed.

(** ** Heads and tails *)

Lemma head_len_nonneg its : 0 <= sum (map head_len its).
Proof.
  induction its as [|[[] e] its IH]; [done|..]; unfold sum in *; cbn [map foldr]; unfold head_len at 1; cbn [fst snd];
    pose proof (len_nonneg e); lia.
Qed.

Lemma heads_len off its : len (heads off its) = sum (map head_len its).
Proof.
  revert off. induction its as [|[[] e] its IH]; intros off; [done|..]; unfold sum; cbn [map foldr heads head_len fst snd];
    rewrite len_app, IH, ?word_len; reflexivity.
Qed.

Lemma heads_static off its : Forall (fun it => fst it = false) its -> heads off its = concat (map snd its) /\ tails its = [].
Proof.
  induction 1 as [|[d e] its Hd _ [IH1 IH2]]; [done|]. simpl in Hd. subst d. cbn [heads map concat snd]. by rewrite IH1.
Qed.

(** A sequence without dynamic components is their concatenation. *)
Lemma enc_items_static its : Forall (fun it => fst it = false) its -> enc_items its = concat (map snd its).
Proof. intros H. unfold enc_items. destruct (heads_static (sum (map head_len its)) its H) as [-> ->]. by rewrite app_nil_r. Qed.

Lemma packElems_spec wb f g d off ret tail vs :
  (0 < wb)%nat -> Forall (fun v => f v = Ok (g v)) vs ->
  packElems wb f d off ret tail vs =
    Ok (ret ++ heads off (map (fun v => (d, g v)) vs) ++ tail ++ tails (map (fun v => (d, g v)) vs)).
Proof.
  intros Hw H. revert off ret tail. induction H as [|v vs E _ IH]; intros off ret tail.
  { simpl. by rewrite app_nil_r. }
  cbn [packElems]. rewrite E. cbn [obind]. destruct d; cbn [negb map heads tails]; rewrite IH.
  - by rewrite abi_U256_word, <- !app_assoc.
  - by rewrite <- !app_assoc.
Qed.

Lemma packFields_spec wb its off ret tail :
  (0 < wb)%nat ->
  packFields wb (map (fun it => (fst it, Ok (snd it))) its) off ret tail = Ok (ret ++ heads off its ++ tail ++ tails its).
Proof.
  intros Hw. revert off ret tail. induction its as [|[d e] its IH]; intros off ret tail.
  { simpl. by rewrite app_nil_r. }
  cbn [map packFields fst snd obind]. destruct d; cbn [heads tails]; rewrite IH.
  - by rewrite abi_U256_word, <- !app_assoc.
  - by rewrite <- !app_assoc.
Qed.

(** ** Sizes *)

Lemma getTypeSize_dynamic t : isDynamicType t = true -> getTypeSize t = 32.
Proof. intros H. destruct t; try done; cbn [getTypeSize]; [|by rewrite H]. cbn [isDynamicType] in H. by rewrite H. Qed.

Lemma sum_app l k : sum (l ++ k) = sum l + sum k.
Proof. unfold sum. induction l; simpl; lia. Qed.

Lemma len_concat (ls : list (list Z)) : len (concat ls) = sum (map len ls).
Proof. unfold sum. induction ls as [|l ls IH]; [done|]. cbn [concat map foldr]. by rewrite len_app, IH. Qed.

Lemma sum_const (l : list Z) c : Forall (fun x => x = c) l -> sum l = len l * c.
Proof. unfold sum. induction 1 as [|x l -> _ IH]; [done|]. rewrite len_cons. simpl. lia. Qed.

Lemma existsb_false {A} (f : A -> bool) l : existsb f l = false <-> Forall (fun x => f x = false) l.
Proof.
  induction l as [|x l IH]; simpl; [by split|]. rewrite orb_false_iff, IH. split; [by intros []; constructor|].
  inversion 1; by split.
Qed.

Lemma sized_tuple r ns es : sized (TupleTy r ns es) <-> Forall sized es.
Proof. cbn [sized]. induction es as [|e es IH]; simpl; [done|]. rewrite IH, Forall_cons. done. Qed.

(** The encoding of a value of static type has the size of the type. *)
Definition static_len (t : Type_) : Prop :=
  forall v, value_ok t v -> sized t -> isDynamicType t = false -> len (enc t v) = getTypeSize t.

Lemma elem_size n e : sized (ArrayTy n e) -> isDynamicType e = false -> getTypeSize (ArrayTy n e) = n * getTypeSize e.
Proof.
  intros [_ Hs] Hd. cbn [getTypeSize]. rewrite Hd. cbn [negb]. destruct e; try done. by rewrite (Hs Hd).
Qed.

Lemma static_len_array n e : static_len e -> static_len (ArrayTy n e).
Proof.
  intros IH v (vs & -> & Hvs & Hn & _) Hs Hd. rewrite elem_size by done. cbn [enc isDynamicType] in *. rewrite Hd.
  rewrite enc_items_static by (apply Forall_map, Forall_true; done). rewrite !map_map. cbn [snd].
  rewrite len_concat, map_map, (sum_const _ (getTypeSize e)).
  - unfold len at 1. rewrite length_map. unfold len in Hn. lia.
  - apply Forall_map. eapply Forall_impl; [done|]. intros v Hv. apply IH; [done|apply Hs|done].
Qed.

Lemma static_len_tuple r ns es : Forall static_len es -> static_len (TupleTy r ns es).
Proof.
  intros IH v (vs & -> & _ & _ & _ & _ & Hvs) Hs Hd. apply sized_tuple in Hs.
  cbn [getTypeSize]. rewrite Hd. cbn [negb enc isDynamicType] in *. apply existsb_false in Hd.
  apply Forall2_fmap_l in Hvs. rewrite enc_items_static.
  - rewrite len_concat. f_equal. induction Hvs as [|e v es vs Hv _ IHes]; [done|].
    apply Forall_cons in IH as [H1 IH], Hs as [Hs1 Hs], Hd as [Hd1 Hd]. cbn [map zip_with fst snd]. by rewrite H1, IHes.
  - clear IH Hs. induction Hvs as [|e v es vs Hv _ IHes]; [constructor|]. apply Forall_cons in Hd as [Hd1 Hd].
    cbn [map zip_with fst]. constructor; [done|by apply IHes].
Qed.

Lemma mapM_byte_of b : mapM byte_of (map (GInt (KUint 8)) b) = Some b.
Proof. induction b as [|x b IH]; [done|]. cbn [map mapM byte_of]. simpl. simpl in IH. by rewrite IH. Qed.

Lemma val_Bytes_GBytes a b : val_Bytes (GBytes a b) = Some b.
Proof. unfold GBytes, val_Bytes. rewrite bool_decide_eq_true_2 by done. apply mapM_byte_of. Qed.

Lemma bytes_of_GBytes a b : bytes_of (GBytes a b) = b.
Proof. unfold bytes_of. by rewrite val_Bytes_GBytes. Qed.

Lemma int_ok_enc signed size v :
  int_ok signed size v -> exists z, int_range signed (if bool_decide (val_Kind v = KPtr) then 256 else size) z /\
    val_Kind v = reflectIntKindAndType (negb signed) size /\ indirect v = Some v /\
    (v = GBig (Some z) \/ exists k, v = GInt k z).
Proof.
  unfold int_ok. intros H. destruct (reflectIntKindAndType _ _) eqn:E; destruct v as [| | [z|] | | | | |]; try done;
    try (destruct H as (<- & H1 & H2); exists z; rewrite bool_decide_eq_false_2 by done; split_and!; eauto).
  exists z. rewrite bool_decide_eq_true_2 by done. split_and!; eauto.
Qed.

Lemma enc_static_len t : static_len t.
Proof.
  induction t using Type_nested_ind; intros v Hv Hs Hd; try done.
  - destruct (int_ok_enc _ _ _ Hv) as (z & _ & _ & _ & [->|[k ->]]); apply word_len.
  - destruct (int_ok_enc _ _ _ Hv) as (z & _ & _ & _ & [->|[k ->]]); apply word_len.
  - destruct Hv as [b ->]. apply word_len.
  - by apply static_len_array.
  - by apply static_len_tuple.
  - destruct Hv as (b & -> & Hb). cbn [enc]. rewrite bytes_of_GBytes, len_app, len_zeros, Hb by lia. done.
  - destruct Hv as ((b & -> & Hb) & Hn). cbn [enc]. rewrite bytes_of_GBytes, pad_right_len by lia. done.
  - destruct Hv as (b & -> & Hb). cbn [enc]. rewrite bytes_of_GBytes, pad_right_len by lia. done.
Qed.

Lemma enc_head_len t v : value_ok t v -> sized t -> head_len (isDynamicType t, enc t v) = getTypeSize t.
Proof.
  intros Hv Hs. unfold head_len. cbn [fst snd]. destruct (isDynamicType t) eqn:E; [by rewrite getTypeSize_dynamic|].
  by apply enc_static_len.
Qed.

(** ** Values pass the checks *)

Lemma value_kind t v : value_ok t v -> val_Kind v = type_Kind t /\ indirect v = Some v.
Proof.
  destruct t; cbn [value_ok]; intros H.
  1-2: by destruct (int_ok_enc _ _ _ H) as (z & _ & E & Hi & _).
  all: repeat match goal with H : _ /\ _ |- _ => destruct H | H : exists _, _ |- _ => destruct H | H : bytes_val _ _ _ |- _ => destruct H end;
    subst; done.
Qed.

Lemma sliceTypeCheck_ok t v : (is_array t = true \/ exists e, t = SliceTy e) -> value_ok t v -> sliceTypeCheck t v = Ok tt.
Proof.
  revert v. induction t as [| | | |e IH|n e IH| | | | |] using Type_nested_ind; intros v Ha Hv;
    try (by destruct Ha as [?|[? ?]]); destruct Hv as (vs & -> & Hvs & Hn).
  - cbn [sliceTypeCheck]. rewrite bool_decide_eq_true_2 by done.
    destruct e as [| | | | | | | | | |]; try done; (destruct vs as [|v vs]; [|apply Forall_cons in Hvs as [Hv _]]); try done.
    + apply IH; [right; by eexists|done].
    + by specialize (Hn eq_refl).
    + apply IH; [by left|done].
  - cbn [sliceTypeCheck]. rewrite bool_decide_eq_true_2 by done. destruct Hn as [<- Hp]. rewrite Z.eqb_refl. cbn [negb].
    destruct e as [| | | | | | | | | |]; try done; (destruct vs as [|v vs]; [|apply Forall_cons in Hvs as [Hv _]]); try done.
    + apply IH; [right; by eexists|done].
    + apply IH; [by left|done].
Qed.

Lemma typeCheck_ok t v : value_ok t v -> typeCheck t v = Ok tt.
Proof.
  intros Hv. destruct (value_kind t v Hv) as [Hk _]. unfold typeCheck.
  destruct t; try (by apply sliceTypeCheck_ok; [by (left + (right; eexists))|]);
    rewrite bool_decide_eq_true_2 by done; try done.
  destruct Hv as ((b & -> & Hb) & Hn). unfold GBytes. unfold len in *. rewrite length_map, Hb. by rewrite Z.eqb_refl.
Qed.

(** ** Pairing names and fields *)

Lemma map_tags_none args ns a s : map_tags args (tuple_fields ns) a s = inr (a, s).
Proof. induction ns as [|n ns IH]; [done|]. simpl. by destruct (negb _). Qed.

Lemma FieldByName_tuple ns vs i n v :
  NoDup (map ToCamelCase ns) -> ns !! i = Some n -> vs !! i = Some v ->
  FieldByName (tuple_fields ns) vs (ToCamelCase n) = Some v.
Proof.
  intros Hn Ei Ev. unfold FieldByName.
  assert (E : list_find (fun f => fst f = ToCamelCase n) (tuple_fields ns) = Some (i, (ToCamelCase n, None))).
  { apply list_find_Some. unfold tuple_fields. rewrite list_lookup_fmap, Ei. split; [done|]. split; [done|].
    intros j y Hj Hlt E. rewrite list_lookup_fmap in Hj. destruct (ns !! j) as [m|] eqn:Em; simplify_eq/=.
    assert (i = j); [|lia]. eapply NoDup_lookup; [done|..]; rewrite list_lookup_fmap; [by rewrite Ei|by rewrite Em; simpl; f_equal]. }
  by rewrite E.
Qed.

Lemma set_in_insert (m : gmap (list Z) (list Z)) k v k' : k <> k' -> set_in (<[k := v]> m) k' = set_in m k'.
Proof. intros H. unfold set_in. by rewrite lookup_insert_ne. Qed.

Lemma NoDup_map {A B} (f : A -> B) l : NoDup (map f l) -> NoDup l.
Proof.
  induction l as [|x l IH]; [constructor|]. cbn [map]. intros [Hx Hl]%NoDup_cons. constructor; [|by apply IH].
  intros Hin. apply Hx. by apply (list_elem_of_fmap_2 f).
Qed.

Lemma map_names_ok ns vs args a s :
  NoDup (map ToCamelCase ns) -> length ns = length vs ->
  NoDup (map ToCamelCase args) -> [] ∉ map ToCamelCase args -> args ⊆ ns ->
  (forall n, n ∈ args -> set_in a n = false /\ set_in s (ToCamelCase n) = false) ->
  exists m, map_names (tuple_fields ns) vs args a s = inr m /\
    (forall n, n ∈ args -> m !! n = Some (ToCamelCase n)) /\ (forall n, n ∉ args -> m !! n = a !! n).
Proof.
  intros Hns Hl. revert a s. induction args as [|n args IH]; intros a s Hd He Hsub Hset.
  { exists a. split; [done|]. split; [|done]. intros n Hn. by apply not_elem_of_nil in Hn. }
  cbn [map] in Hd, He. apply NoDup_cons in Hd as [Hn Hd]. apply not_elem_of_cons in He as [Hn0 He].
  destruct (Hset n) as [Ea Es]; [by left|].
  assert (Hin : n ∈ ns) by (apply Hsub; by left). apply list_elem_of_lookup in Hin as [i Ei].
  destruct (lookup_lt_is_Some_2 vs i) as [v Ev]; [rewrite <- Hl; by eapply lookup_lt_Some|].
  cbn [map_names]. rewrite bool_decide_eq_false_2 by done. rewrite Ea, Es, (FieldByName_tuple ns vs i n v Hns Ei Ev).
  assert (Hne : forall m, m ∈ args -> n <> m /\ ToCamelCase n <> ToCamelCase m).
  { intros m Hm. assert (ToCamelCase n <> ToCamelCase m); [|split; [congruence|done]].
    intros E. apply Hn. rewrite E. by apply (list_elem_of_fmap_2 ToCamelCase). }
  destruct (IH (<[n := ToCamelCase n]> a) (<[ToCamelCase n := n]> s)) as (m & Em & H1 & H2); [done|done|..].
  { intros x Hx. apply Hsub. by right. }
  { intros m Hm. destruct (Hne m Hm), (Hset m) as [? ?]; [by right|]. by rewrite !set_in_insert. }
  exists m. split; [done|]. split.
  - intros x [->|Hx]%elem_of_cons; [|by apply H1]. rewrite H2; [by rewrite lookup_insert_eq|]. intros Hx. by destruct (Hne n Hx).
  - intros x [Hx Hx']%not_elem_of_cons. rewrite H2 by done. by rewrite lookup_insert_ne.
Qed.

Lemma tuple_names_pair ns vs :
  NoDup (map ToCamelCase ns) -> [] ∉ map ToCamelCase ns -> length ns = length vs ->
  exists m, mapArgNamesToStructFields ns (tuple_fields ns) vs = inr m /\
    Forall2 (fun n v => FieldByName (tuple_fields ns) vs (default [] (m !! n)) = Some v) ns vs.
Proof.
  intros Hd He Hl. unfold mapArgNamesToStructFields. rewrite map_tags_none.
  destruct (map_names_ok ns vs ns ∅ ∅ Hd Hl Hd He) as (m & -> & H & _); [done| |].
  { intros n _. unfold set_in. by rewrite !lookup_empty. }
  exists m. split; [done|]. apply Forall2_same_length_lookup_2; [done|]. intros i n v En Ev.
  rewrite (H n) by (by eapply list_elem_of_lookup_2). by eapply FieldByName_tuple.
Qed.

(** ** Packing implements the specification *)

Definition packs (wb : nat) (t : Type_) : Prop := forall v, value_ok t v -> sized t -> pack wb t v = Ok (enc t v).

(** The offset a sequence starts with does not matter without dynamic elements. *)
Lemma seq_heads e vs :
  let its := map (fun v => (isDynamicType e, enc e v)) vs in
  heads (if isDynamicType e then getTypeSize e * len vs else 0) its = heads (sum (map head_len its)) its.
Proof.
  cbv zeta. destruct (isDynamicType e) eqn:Hd.
  - f_equal. rewrite (sum_const _ 32), getTypeSize_dynamic by (try done; rewrite map_map; by apply Forall_map, Forall_true).
    unfold len. rewrite !length_map. lia.
  - assert (H : Forall (fun it => fst it = false) (map (fun v => (false, enc e v)) vs)) by (by apply Forall_map, Forall_true).
    by rewrite !(proj1 (heads_static _ _ H)).
Qed.

Lemma packs_seq wb t e array vs :
  (0 < wb)%nat -> packs wb e -> t = SliceTy e \/ (exists n, t = ArrayTy n e) ->
  value_ok t (GSeq array (type_Kind e) vs) -> Forall (value_ok e) vs -> sized e ->
  pack wb t (GSeq array (type_Kind e) vs) = Ok (enc t (GSeq array (type_Kind e) vs)).
Proof.
  intros Hw IH Ht Hv Hvs Hs.
  assert (Hp : Forall (fun v => pack wb e v = Ok (enc e v)) vs) by (eapply Forall_impl; [done|]; intros v ?; by apply IH).
  assert (E : typeCheck t (GSeq array (type_Kind e) vs) = Ok tt) by (by apply typeCheck_ok).
  destruct Ht as [-> |[n ->]]; cbn [pack indirect]; rewrite E; cbn [obind requiresLengthPrefix enc];
    rewrite (packElems_spec _ _ (enc e)), seq_heads by done; unfold enc_items; cbn [app].
  - by rewrite abi_U256_word.
  - done.
Qed.

Lemma tuple_items_packed (wb : nat) (F : list (list Z * option (list Z))) (vs : list goval) (m : gmap (list Z) (list Z))
    (ns : list (list Z)) (es : list Type_) :
  Forall2 (fun n v => FieldByName F vs (default [] (m !! n)) = Some v) ns vs ->
  Forall (packs wb) es -> Forall2 (fun (P : goval -> Prop) v => P v) (map value_ok es) vs -> Forall sized es ->
  zip_with (fun name p => (fst p, match FieldByName F vs (default [] (m !! name)) with
                                  | None => Err errFieldNotFound
                                  | Some field => snd p field
                                  end)) ns (map (fun e => (isDynamicType e, pack wb e)) es) =
  map (fun it => (fst it, Ok (snd it)))
    (zip_with (fun p v => (fst p, snd p v)) (map (fun e => (isDynamicType e, enc e)) es) vs) /\
  sum (map getTypeSize es) =
    sum (map head_len (zip_with (fun p v => (fst p, snd p v)) (map (fun e => (isDynamicType e, enc e)) es) vs)).
Proof.
  generalize vs at 1 4. intros V HF. revert es. induction HF as [|n v ns vs E HF IH]; intros es Hp Hv Hs.
  - by destruct es; inversion Hv.
  - destruct es as [|e es]; [inversion Hv|]. cbn [map] in Hv. apply Forall2_cons in Hv as [Hv1 Hv].
    apply Forall_cons in Hp as [Hp1 Hp], Hs as [Hs1 Hs]. destruct (IH es Hp Hv Hs) as [E1 E2].
    cbn [map zip_with fst snd]. rewrite E, Hp1 by done. split; [by f_equal|]. unfold sum in *. cbn [map foldr].
    rewrite enc_head_len by done. by rewrite E2.
Qed.

Lemma packs_tuple wb r ns es : (0 < wb)%nat -> Forall (packs wb) es -> packs wb (TupleTy r ns es).
Proof.
  intros Hw IH v Hv Hs. pose proof (typeCheck_ok _ _ Hv) as Ht. destruct Hv as (vs & -> & Hl & _ & Hd & He & Hvs).
  apply sized_tuple in Hs. pose proof (Forall2_length _ _ _ Hvs) as Hl2. rewrite length_map in Hl2.
  destruct (tuple_names_pair ns vs Hd He ltac:(congruence)) as (m & Em & HF).
  cbn [pack indirect]. rewrite Ht. cbn [obind]. rewrite Em.
  destruct (tuple_items_packed wb _ vs m ns es HF IH Hvs Hs) as [-> ->]. by rewrite packFields_spec.
Qed.

Lemma pack_enc wb t : (0 < wb)%nat -> packs wb t.
Proof.
  intros Hw. induction t using Type_nested_ind.
  5: { intros v Hv Hs. pose proof Hv as (vs & -> & Hvs & _). apply packs_seq; eauto. }
  5: { intros v Hv [Hs ?]. pose proof Hv as (vs & -> & Hvs & _). apply packs_seq; eauto. }
  5: by apply packs_tuple.
  all: intros v Hv Hs; pose proof (typeCheck_ok _ _ Hv) as Ht; destruct (value_kind _ _ Hv) as [_ Hi]; unfold pack;
    rewrite Hi, Ht; cbn [obind].
  1-2: destruct (int_ok_enc _ _ _ Hv) as (z & _ & _ & _ & [->|[k ->]]); cbn; by rewrite abi_U256_word.
  - destruct Hv as [b ->]. cbn [packElement enc]. f_equal. rewrite PaddedBigBytes_fits by (done || by destruct b). by destruct b.
  - destruct Hv as [s ->]. cbn [packElement enc]. unfold packBytesSlice, encoded_bytes.
    by rewrite abi_U256_word, RightPadBytes_pad.
  - destruct Hv as (b & -> & Hb). cbn [packElement enc]. rewrite val_Bytes_GBytes, bytes_of_GBytes. simpl mbind.
    rewrite LeftPadBytes_pad by lia. rewrite Hb. done.
  - destruct Hv as ((b & -> & Hb) & Hn). cbn [packElement enc]. rewrite val_Bytes_GBytes, bytes_of_GBytes. simpl mbind.
    by rewrite RightPadBytes_pad.
  - destruct Hv as [b ->]. cbn [packElement enc]. rewrite val_Bytes_GBytes, bytes_of_GBytes. simpl mbind.
    unfold packBytesSlice, encoded_bytes. by rewrite abi_U256_word, RightPadBytes_pad.
  - destruct Hv as (b & -> & Hb). cbn [packElement enc]. rewrite val_Bytes_GBytes, bytes_of_GBytes. simpl mbind.
    by rewrite RightPadBytes_pad.
Qed.
