(* ===== verification/AbiUnpack.v ===== *)
(** * Unpacking values by the contract ABI

    unpack.go of src/accounts/abi and Arguments.UnpackValues and UnpackIntoMap of
    argument.go.  ToGoType reads a value of a type at an index of the output of a
    contract call; it is structural in the type, so it always returns.  The
    capacity of the output is its length. *)

From Stdlib Require Import String.
From stdpp Require Import gmap.
From S2P Require Import Prelude GoText Math Common AbiType AbiPack.

(** ** Words *)

Definition MaxUint256 : Z := 2 ^ 256 - 1.

(** The number in the last bytes of [b]. *)
Definition last_bytes (b : list Z) (n : Z) : option Z := be_val <$> go_from b (len b - n).

Definition ReadInteger (unsigned : bool) (kind : rkind) (b : list Z) : option goval :=
  match kind with
  | KUint n => GInt kind <$> last_bytes b (n / 8)
  | KInt n => (fun z => GInt kind (sint n z)) <$> last_bytes b (n / 8)
  | _ =>
      let ret := be_val b in
      Some (GBig (Some (if unsigned then ret
                        else if Z.testbit ret 255 then - (MaxUint256 + - ret + 1)
                        else ret)))
  end.

Definition readBool (word : list Z) : outcome abi_error goval :=
  match go_slice word 0 31, go_index word 31 with
  | Some first, Some b =>
      if existsb (fun b => negb (b =? 0)) first then Err errBadBool
      else if b =? 0 then Ok (GBool false)
      else if b =? 1 then Ok (GBool true)
      else Err errBadBool
  | _, _ => Panic
  end.

Definition readFunctionType (word : list Z) : outcome abi_error goval :=
  match go_slice word 24 32, go_slice word 0 24 with
  | Some garbage, Some funcTy => if negb (be_val garbage =? 0) then Err errFunctionType else Ok (GBytes true funcTy)
  | _, _ => Panic
  end.

(** [word[0:t.Size]] may reach past the word, up to the end of the output. *)
Definition ReadFixedBytes (size : Z) (word_on : list Z) : outcome abi_error goval :=
  of_option (GBytes true <$> go_slice word_on 0 size).

(** ** Offsets *)

Definition lengthPrefixPointsTo (index : Z) (output : list Z) : outcome abi_error (Z * Z) :=
  let? word := of_option (go_slice output index (index + 32)) in
  let bigOffsetEnd := be_val word + 32 in
  let outputLength := len output in
  if outputLength <? bigOffsetEnd then Err errOffsetBound
  else if 63 <? bit_len bigOffsetEnd then Err errOffsetLarge
  else
    let offsetEnd := bigOffsetEnd in
    let? word := of_option (go_slice output (offsetEnd - 32) offsetEnd) in
    let lengthBig := be_val word in
    let totalSize := bigOffsetEnd + lengthBig in
    if 63 <? bit_len totalSize then Err errLengthLarge
    else if outputLength <? totalSize then Err errTotalBound
    else Ok (bigOffsetEnd, lengthBig).

Definition tuplePointsTo (index : Z) (output : list Z) : outcome abi_error Z :=
  let? word := of_option (go_slice output index (index + 32)) in
  let offset := be_val word in
  if len output <? offset then Err errOffsetBound
  else if 63 <? bit_len offset then Err errOffsetLarge
  else Ok offset.

(** ** Sequences and tuples *)

(** The loop of forEachUnpack. *)
Fixpoint unpackElems (toGo : Z -> list Z -> outcome abi_error goval) (elemSize : Z) (output : list Z) (i : Z) (n : nat) :
    outcome abi_error (list goval) :=
  match n with
  | O => Ok []
  | S n =>
      let? inter := toGo i output in
      let? rest := unpackElems toGo elemSize output (i + elemSize) n in
      Ok (inter :: rest)
  end.

Definition forEachUnpack (array : bool) (elem : Type_) (toGo : Z -> list Z -> outcome abi_error goval)
    (output : list Z) (start size : Z) : outcome abi_error goval :=
  if size <? 0 then Err errNegativeSize
  else if len output <? start + 32 * size then Err errArrayBound
  else
    let? vs := unpackElems toGo (getTypeSize elem) output start (Z.to_nat size) in
    Ok (GSeq array (type_Kind elem) vs).

(** How many words more than one a component takes. *)
Definition virtual_args (t : Type_) : Z :=
  match t with
  | ArrayTy _ _ | TupleTy _ _ _ => if negb (isDynamicType t) then getTypeSize t / 32 - 1 else 0
  | _ => 0
  end.

(** The loop over components, each with its virtual arguments and the function
    that reads it. *)
Fixpoint unpackFields (elems : list (Z * (Z -> list Z -> outcome abi_error goval))) (index virtualArgs : Z) (output : list Z) :
    outcome abi_error (list goval) :=
  match elems with
  | [] => Ok []
  | (virtual, toGo) :: elems =>
      let? v := toGo ((index + virtualArgs) * 32) output in
      let? vs := unpackFields elems (index + 1) (virtualArgs + virtual) output in
      Ok (v :: vs)
  end.

Definition forTupleUnpack (names : list (list Z)) (elems : list (Z * (Z -> list Z -> outcome abi_error goval)))
    (output : list Z) : outcome abi_error goval :=
  let? vs := unpackFields elems 0 0 output in Ok (GStruct (tuple_fields names) vs).

Fixpoint ToGoType (t : Type_) (index : Z) (output : list Z) : outcome abi_error goval :=
  if len output <? index + 32 then Err errLengthInsufficient
  else
    let? (begin, length) := if requiresLengthPrefix t then lengthPrefixPointsTo index output else Ok (0, 0) in
    let? returnOutput := if requiresLengthPrefix t then Ok [] else of_option (go_slice output index (index + 32)) in
    match t with
    | TupleTy _ names es =>
        let elems := map (fun e => (virtual_args e, ToGoType e)) es in
        if isDynamicType t then
          let? begin := tuplePointsTo index output in
          let? output := of_option (go_from output begin) in
          forTupleUnpack names elems output
        else
          let? output := of_option (go_from output index) in
          forTupleUnpack names elems output
    | SliceTy e =>
        let? output := of_option (go_from output begin) in
        forEachUnpack false e (ToGoType e) output 0 length
    | ArrayTy n e =>
        if isDynamicType e then
          let? offset := of_option (last_bytes returnOutput 8) in
          let? output := of_option (go_from output (i64 offset)) in
          forEachUnpack true e (ToGoType e) output 0 n
        else
          let? output := of_option (go_from output index) in
          forEachUnpack true e (ToGoType e) output 0 n
    | StringTy => of_option (GString <$> go_slice output begin (begin + length))
    | IntTy n => of_option (ReadInteger false (type_Kind t) returnOutput)
    | UintTy n => of_option (ReadInteger true (type_Kind t) returnOutput)
    | BoolTy => readBool returnOutput
    | AddressTy => of_option (GBytes true <$> BytesToAddress returnOutput)
    | BytesTy => of_option (GBytes false <$> go_slice output begin (begin + length))
    | FixedBytesTy n =>
        let? word_on := of_option (go_from output index) in
        ReadFixedBytes n word_on
    | FunctionTy => readFunctionType returnOutput
    end.

(** ** Arguments *)

Definition NonIndexed (arguments : list Argument) : list Argument := List.filter (fun a => negb (Indexed a)) arguments.
Definition LengthNonIndexed (arguments : list Argument) : Z := len (NonIndexed arguments).
Definition isTuple (arguments : list Argument) : bool := 1 <? len arguments.

Definition UnpackValues (arguments : list Argument) (data : list Z) : outcome abi_error (list goval) :=
  unpackFields (map (fun a => (virtual_args (arg_Type a), ToGoType (arg_Type a))) (NonIndexed arguments)) 0 0 data.

(** The map after the call; an error leaves it as it was. *)
Definition Args_UnpackIntoMap (arguments : list Argument) (v : option (gmap (list Z) goval)) (data : list Z) :
    outcome abi_error (gmap (list Z) goval) :=
  match v with
  | None => Err errNilMap
  | Some v =>
      if len data =? 0 then (if negb (len arguments =? 0) then Err errEmptyData else Ok v)
      else
        let? marshalledValues := UnpackValues arguments data in
        Ok (foldl (fun v p => <[Name (fst p) := snd p]> v) v (zip (NonIndexed arguments) marshalledValues))
  end.

(** ** Where values are *)

(** [e] stands in [output] at [off]. *)
Definition starts (output : list Z) (off : Z) (e : list Z) : Prop := exists pre post, output = pre ++ e ++ post /\ len pre = off.

Lemma starts_slice output off e : starts output off e -> go_slice output off (off + len e) = Some e.
Proof. intros (pre & post & -> & <-). apply go_slice_app. Qed.

Lemma starts_bound output off e : starts output off e -> 0 <= off /\ off + len e <= len output.
Proof.
  intros (pre & post & -> & <-). rewrite !len_app. pose proof (len_nonneg pre). pose proof (len_nonneg post). lia.
Qed.

Lemma starts_from output off e :
  starts output off e -> exists rest, go_from output off = Some (e ++ rest) /\ len (e ++ rest) <= len output.
Proof.
  intros (pre & post & -> & <-). exists post. rewrite go_from_app. split; [done|]. rewrite !len_app. pose proof (len_nonneg pre). lia.
Qed.

Lemma starts_prefix output off a b : starts output off (a ++ b) -> starts output off a /\ starts output (off + len a) b.
Proof.
  intros (pre & post & -> & <-). split.
  - exists pre, (b ++ post). by rewrite <- app_assoc.
  - exists (pre ++ a), post. by rewrite len_app, <- !app_assoc.
Qed.

Lemma starts_word output off z e :
  starts output off (word z ++ e) -> go_slice output off (off + 32) = Some (word z) /\ starts output (off + 32) e.
Proof.
  intros H. apply starts_prefix in H as [H1 H2]. rewrite word_len in H2. split; [|done].
  rewrite <- (word_len z). by apply starts_slice.
Qed.

(** A value of dynamic type is found through its offset. *)
Definition located (t : Type_) (v : goval) (index : Z) (output : list Z) : Prop :=
  if isDynamicType t then exists off, starts output index (word off) /\ starts output off (enc t v)
  else starts output index (enc t v).

(** ** Components of a sequence *)

Lemma heads_app off a b : heads off (a ++ b) = heads off a ++ heads (off + len (tails a)) b.
Proof.
  revert off. induction a as [|[[] e] a IH]; intros off; cbn [app heads tails]; rewrite ?len_nil, ?Z.add_0_r; [done|..];
    rewrite IH, <- app_assoc; [|done]. by rewrite len_app, Z.add_assoc.
Qed.

Lemma tails_app a b : tails (a ++ b) = tails a ++ tails b.
Proof. induction a as [|[[] e] a IH]; cbn [app tails]; [done|..]; rewrite IH; [by rewrite app_assoc|done]. Qed.

Lemma items_located a d e b rest :
  let its := a ++ (d, e) :: b in
  let D := enc_items its ++ rest in
  let pos := sum (map head_len a) in
  if d then exists off, starts D pos (word off) /\ starts D off e else starts D pos e.
Proof.
  cbv zeta. unfold enc_items. set (off := sum (map head_len (a ++ (d, e) :: b))). rewrite heads_app, tails_app.
  destruct d; cbn [heads tails].
  - exists (off + len (tails a)). split.
    + exists (heads off a), (heads (off + len (tails a) + len e) b ++ (tails a ++ e ++ tails b) ++ rest).
      rewrite <- !app_assoc, heads_len. done.
    + exists ((heads off a ++ word (off + len (tails a)) ++ heads (off + len (tails a) + len e) b) ++ tails a), (tails b ++ rest).
      rewrite <- !app_assoc. split; [done|]. rewrite !len_app, !heads_len, word_len. unfold off.
      rewrite map_app, sum_app. unfold sum. cbn [map foldr]. unfold head_len at 4. cbn [fst]. lia.
  - exists (heads off a), (heads (off + len (tails a)) b ++ (tails a ++ tails b) ++ rest).
    rewrite <- !app_assoc, heads_len. done.
Qed.

(** ** Sizes *)

Lemma getTypeSize_words t : getTypeSize t mod 32 = 0.
Proof.
  induction t as [| | | |e IH|n e IH|r ns es IH| | | |] using Type_nested_ind; try done; cbn [getTypeSize].
  - destruct (negb _); [|done]. destruct e; try (by apply Z.mod_mul). rewrite Z.mul_mod, IH by lia. by rewrite Z.mul_0_r.
  - destruct (negb _); [|done]. induction IH as [|e es He _ IHes]; [done|]. unfold sum in *. cbn [map foldr].
    by rewrite Z.add_mod, He, IHes by lia.
Qed.

Lemma virtual_args_size t : (1 + virtual_args t) * 32 = getTypeSize t.
Proof.
  assert (H : (1 + (getTypeSize t / 32 - 1)) * 32 = getTypeSize t).
  { pose proof (getTypeSize_words t). pose proof (Z.div_mod (getTypeSize t) 32). lia. }
  destruct t; try done; unfold virtual_args; destruct (isDynamicType _) eqn:Hd; try done; cbn [negb]; by rewrite getTypeSize_dynamic.
Qed.

Lemma static_size_pos t v : value_ok t v -> sized t -> 32 <= getTypeSize t.
Proof.
  revert v. induction t as [| | | |e IH|n e IH|r ns es IH| | | |] using Type_nested_ind; intros v Hv Hs; try done.
  - destruct Hv as (vs & -> & Hvs & Hn & Hp). destruct (isDynamicType (ArrayTy n e)) eqn:Hd; [by rewrite getTypeSize_dynamic|].
    cbn [isDynamicType] in Hd. rewrite elem_size by done.
    destruct vs as [|v vs]; [unfold len in Hn; simpl in Hn; lia|]. apply Forall_cons in Hvs as [Hv _].
    pose proof (IH v Hv (proj1 Hs)). nia.
  - destruct (isDynamicType (TupleTy r ns es)) eqn:Hd; [by rewrite getTypeSize_dynamic|].
    destruct Hv as (vs & -> & _ & Hne & _ & _ & Hvs). apply sized_tuple in Hs. cbn [getTypeSize]. rewrite Hd. cbn [negb].
    assert (G : Forall2 (fun e v => 32 <= getTypeSize e) es vs).
    { apply Forall2_fmap_l in Hvs. clear Hne Hd. induction Hvs as [|e v es vs Hv _ IHv]; [constructor|].
      apply Forall_cons in IH as [H1 IH], Hs as [Hs1 Hs]. constructor; [by eapply H1|by apply IHv]. }
    destruct G as [|e v es vs He G]; [done|]. unfold sum. cbn [map foldr].
    assert (0 <= foldr Z.add 0 (map getTypeSize es)); [|lia].
    clear -G. induction G; cbn [map foldr]; lia.
Qed.

(** ** Reading what is there *)

Lemma unpackElems_ok f size D vs i :
  (forall j v, vs !! j = Some v -> f (i + Z.of_nat j * size) D = Ok v) ->
  unpackElems f size D i (length vs) = Ok vs.
Proof.
  revert i. induction vs as [|v vs IH]; intros i H; [done|]. cbn [length unpackElems].
  pose proof (H 0%nat v eq_refl) as H0. replace (i + Z.of_nat 0 * size) with i in H0 by lia. rewrite H0. cbn [obind].
  rewrite IH; [done|]. intros j w Hj. rewrite <- (H (S j) w Hj). f_equal. lia.
Qed.

Lemma unpackFields_ok es vs D index virtual :
  length es = length vs ->
  (forall a e b a' v b', es = a ++ e :: b -> vs = a' ++ v :: b' -> length a = length a' ->
    ToGoType e ((index + virtual) * 32 + sum (map getTypeSize a)) D = Ok v) ->
  unpackFields (map (fun e => (virtual_args e, ToGoType e)) es) index virtual D = Ok vs.
Proof.
  revert vs index virtual. induction es as [|e es IH]; intros [|v vs] index virtual Hl H; try done.
  cbn [map unpackFields]. pose proof (H [] e es [] v vs eq_refl eq_refl eq_refl) as H0. cbn in H0. rewrite Z.add_0_r in H0.
  rewrite H0. cbn [obind].
  rewrite (IH vs); [done|by injection Hl|]. intros a e' b a' v' b' -> -> Hab.
  rewrite <- (H (e :: a) e' b (v :: a') v' b' eq_refl eq_refl) by (simpl; lia). f_equal. unfold sum. cbn [map foldr].
  rewrite <- (virtual_args_size e). lia.
Qed.

Definition reads (t : Type_) : Prop := forall v index output,
  value_ok t v -> sized t -> len output < 2 ^ 63 -> located t v index output -> ToGoType t index output = Ok v.

(** The head of a value is inside the output. *)
Lemma located_bound t v index output :
  value_ok t v -> sized t -> located t v index output -> 0 <= index /\ index + 32 <= len output.
Proof.
  intros Hv Hs Hl. unfold located in Hl. destruct (isDynamicType t) eqn:Hd.
  - destruct Hl as (off & H & _). apply starts_bound in H. by rewrite word_len in H.
  - apply starts_bound in Hl. rewrite enc_static_len in Hl by done. pose proof (static_size_pos t v Hv Hs). lia.
Qed.

Lemma located_word t v index output :
  value_ok t v -> sized t -> located t v index output ->
  (len output <? index + 32) = false /\ exists w, go_slice output index (index + 32) = Some w /\ length w = 32%nat.
Proof.
  intros Hv Hs Hl. destruct (located_bound t v index output Hv Hs Hl). split; [by apply Z.ltb_ge|].
  unfold go_slice. destruct (Z.leb_spec 0 index), (Z.leb_spec index (index + 32)), (Z.leb_spec (index + 32) (len output)); try lia.
  eexists. split; [done|]. rewrite length_take, length_drop. unfold len in *. lia.
Qed.

(** The elements of a sequence at the start of [D]. *)
Lemma elems_read e vs D rest :
  reads e -> Forall (value_ok e) vs -> sized e -> len D < 2 ^ 63 ->
  D = enc_items (map (fun v => (isDynamicType e, enc e v)) vs) ++ rest ->
  unpackElems (ToGoType e) (getTypeSize e) D 0 (length vs) = Ok vs.
Proof.
  intros IH Hvs Hs Hl HD. apply unpackElems_ok. intros j v Hj.
  pose proof (Forall_lookup_1 _ _ _ _ Hvs Hj) as Hv. apply IH; [done..|]. unfold located.
  pose proof (items_located (map (fun v => (isDynamicType e, enc e v)) (take j vs)) (isDynamicType e) (enc e v)
    (map (fun v => (isDynamicType e, enc e v)) (drop (S j) vs)) rest) as HL. cbv zeta in HL.
  rewrite <- (take_drop_middle vs j v Hj) in HD at 1. rewrite map_app in HD. cbn [map] in HD. rewrite <- HD in HL.
  assert (E : sum (map head_len (map (fun v => (isDynamicType e, enc e v)) (take j vs))) = 0 + Z.of_nat j * getTypeSize e);
    [|by rewrite <- E].
  rewrite (sum_const _ (getTypeSize e)).
  - unfold len. rewrite !length_map, length_take_le by (apply lookup_lt_Some in Hj; lia). lia.
  - rewrite map_map. apply Forall_map, Forall_take. eapply Forall_impl; [done|]. intros w Hw. by apply enc_head_len.
Qed.

(** The components of a tuple at the start of [D]. *)
Lemma fields_read es vs D rest :
  Forall reads es -> Forall2 (fun (P : goval -> Prop) v => P v) (map value_ok es) vs -> Forall sized es -> len D < 2 ^ 63 ->
  D = enc_items (zip_with (fun p v => (fst p, snd p v)) (map (fun e => (isDynamicType e, enc e)) es) vs) ++ rest ->
  unpackFields (map (fun e => (virtual_args e, ToGoType e)) es) 0 0 D = Ok vs.
Proof.
  intros IH Hvs Hs Hl HD. apply Forall2_fmap_l in Hvs. apply unpackFields_ok; [by eapply Forall2_length|].
  intros a e b a' v b' -> -> Hab. rewrite map_app, zip_with_app in HD by (by rewrite length_map). cbn [map zip_with fst snd] in HD.
  apply Forall2_app_inv in Hvs as [Ha Hvs]; [|done]. apply Forall2_cons in Hvs as [Hv _].
  apply Forall_app in IH as [_ IH], Hs as [Hsa Hs]. apply Forall_cons in IH as [IH _], Hs as [Hs _].
  apply IH; [done..|]. unfold located.
  pose proof (items_located (zip_with (fun p v => (fst p, snd p v)) (map (fun e => (isDynamicType e, enc e)) a) a')
    (isDynamicType e) (enc e v) (zip_with (fun p v => (fst p, snd p v)) (map (fun e => (isDynamicType e, enc e)) b) b') rest) as HL.
  cbv zeta in HL. rewrite <- HD in HL.
  assert (E : sum (map head_len (zip_with (fun p v => (fst p, snd p v)) (map (fun e => (isDynamicType e, enc e)) a) a')) =
    (0 + 0) * 32 + sum (map getTypeSize a)); [|by rewrite <- E].
  clear -Ha Hsa. rewrite Z.add_0_l. f_equal. induction Ha as [|x w a a' Hw _ IHa]; [done|].
  apply Forall_cons in Hsa as [H1 Hsa]. cbn [map zip_with fst snd]. by rewrite enc_head_len, IHa.
Qed.

(** ** Words of integers, booleans and bytes *)

Lemma drop_be_bytes k m X : drop k (be_bytes (k + m) X) = be_bytes m X.
Proof. induction k as [|k IH]; [done|]. cbn [Nat.add]. by rewrite be_bytes_cons. Qed.

Lemma last_bytes_word z n : (n <= 32)%nat -> last_bytes (word z) (Z.of_nat n) = Some (z mod 256 ^ Z.of_nat n).
Proof.
  intros Hn. unfold last_bytes, go_from, go_slice. rewrite word_len.
  destruct (Z.leb_spec 0 (32 - Z.of_nat n)), (Z.leb_spec (32 - Z.of_nat n) 32); try lia. cbn [andb].
  replace (32 - (32 - Z.of_nat n)) with (Z.of_nat n) by lia. rewrite Z.leb_refl.
  unfold word. replace (Z.to_nat (32 - Z.of_nat n)) with (32 - n)%nat by lia. replace 32%nat with ((32 - n) + n)%nat at 2 by lia.
  rewrite drop_be_bytes, take_ge by (rewrite be_bytes_length; lia). cbn [fmap option_fmap option_map]. rewrite be_val_be_bytes. f_equal.
  replace (2 ^ 256) with (256 ^ Z.of_nat n * 256 ^ (32 - Z.of_nat n)).
  - apply Z.mod_mod_divide. by exists (256 ^ (32 - Z.of_nat n)); rewrite Z.mul_comm.
  - rewrite <- Z.pow_add_r by lia. replace (Z.of_nat n + (32 - Z.of_nat n)) with 32 by lia. done.
Qed.

Lemma sint_id bits z : 0 < bits -> - 2 ^ (bits - 1) <= z < 2 ^ (bits - 1) -> sint bits (z mod 2 ^ bits) = z.
Proof.
  intros Hb Hz. unfold sint. rewrite Z.mod_mod by (apply Z.pow_nonzero; lia).
  assert (E : 2 ^ bits = 2 * 2 ^ (bits - 1)) by (rewrite <- Z.pow_succ_r by lia; f_equal; lia).
  destruct (Z.lt_ge_cases z 0) as [Hn|Hn].
  - replace (z mod 2 ^ bits) with (z + 2 ^ bits) by (symmetry; rewrite <- (Z.mod_small (z + 2 ^ bits) (2 ^ bits)) by lia;
      rewrite <- (Z.mod_add z 1 (2 ^ bits)) by lia; f_equal; lia).
    destruct (Z.ltb_spec (z + 2 ^ bits) (2 ^ (bits - 1))); lia.
  - rewrite Z.mod_small by lia. destruct (Z.ltb_spec z (2 ^ (bits - 1))); lia.
Qed.

Lemma small_int unsigned size :
  reflectIntKindAndType unsigned size <> KPtr ->
  exists n, (n = 1 \/ n = 2 \/ n = 4 \/ n = 8)%nat /\ size = 8 * Z.of_nat n /\
    reflectIntKindAndType unsigned size = if unsigned then KUint size else KInt size.
Proof.
  unfold reflectIntKindAndType. destruct (Z.eqb_spec size 8); [by exists 1%nat; split_and!; [lia|lia|]|].
  destruct (Z.eqb_spec size 16); [by exists 2%nat; split_and!; [lia|lia|]|].
  destruct (Z.eqb_spec size 32); [by exists 4%nat; split_and!; [lia|lia|]|].
  destruct (Z.eqb_spec size 64); [by exists 8%nat; split_and!; [lia|lia|]|]. done.
Qed.

Lemma testbit_255 z : - 2 ^ 255 <= z < 2 ^ 255 -> Z.testbit (z mod 2 ^ 256) 255 = (z <? 0).
Proof.
  intros Hz. rewrite Z.mod_pow2_bits_low by lia.
  assert (E : Z.testbit z 255 = Z.testbit (Z.shiftr z 255) 0) by (by rewrite Z.shiftr_spec).
  rewrite E, Z.shiftr_div_pow2 by lia. destruct (Z.ltb_spec z 0).
  - by rewrite <- (Z.div_unique z (2 ^ 255) (-1) (z + 2 ^ 255)) by lia.
  - by rewrite Z.div_small by lia.
Qed.

Lemma ReadInteger_word signed size v z :
  int_ok signed size v -> v = GBig (Some z) \/ (exists k, v = GInt k z) ->
  ReadInteger (negb signed) (reflectIntKindAndType (negb signed) size) (word z) = Some v.
Proof.
  unfold int_ok. intros Hi Hv.
  destruct (decide (reflectIntKindAndType (negb signed) size = KPtr)) as [E|E].
  - rewrite E in Hi |- *. destruct Hv as [->|[k ->]]; [|destruct Hi as (_ & ? & _); done]. unfold ReadInteger. do 3 f_equal.
    unfold word. rewrite be_val_be_bytes. change (256 ^ Z.of_nat 32) with (2 ^ 256). rewrite Z.mod_mod by done.
    destruct signed; cbn [negb int_range] in *.
    + rewrite testbit_255 by done. unfold MaxUint256. destruct (Z.ltb_spec z 0).
      * replace (z mod 2 ^ 256) with (z + 2 ^ 256); [lia|]. symmetry. rewrite <- (Z.mod_small (z + 2 ^ 256) (2 ^ 256)) by lia.
        rewrite <- (Z.mod_add z 1 (2 ^ 256)) by lia. done.
      * apply Z.mod_small. lia.
    + by apply Z.mod_small.
  - destruct (small_int _ _ E) as (n & Hn & -> & Ek). rewrite Ek in Hi |- *.
    destruct Hv as [->|[k ->]]; [by destruct signed|]. assert (Hd : 8 * Z.of_nat n / 8 = Z.of_nat n) by (by rewrite Z.mul_comm, Z.div_mul).
    assert (Hp : 256 ^ Z.of_nat n = 2 ^ (8 * Z.of_nat n)) by (by rewrite Z.pow_mul_r by lia).
    destruct signed; cbn [negb int_range] in *; destruct Hi as (<- & _ & Hz); unfold ReadInteger; rewrite Hd, last_bytes_word by lia;
      cbn [fmap option_fmap option_map]; rewrite Hp; do 2 f_equal.
    + apply sint_id; [lia|done].
    + by apply Z.mod_small.
Qed.

Lemma bit_len_63 z : 0 <= z < 2 ^ 63 -> (63 <? bit_len z) = false.
Proof.
  intros Hz. apply Z.ltb_ge, bit_len_le; lia.
Qed.

Lemma lengthPrefix_reads output index off n body :
  len output < 2 ^ 63 -> starts output index (word off) -> starts output off (word n ++ body) -> 0 <= n <= len body ->
  0 <= off /\ lengthPrefixPointsTo index output = Ok (off + 32, n) /\ starts output (off + 32) body.
Proof.
  intros Hl Hi Ho Hn. pose proof (starts_bound _ _ _ Ho) as [Hp Hb]. rewrite len_app, word_len in Hb. split; [done|].
  apply starts_word in Ho as [Hw Ho]. split; [|done]. unfold lengthPrefixPointsTo.
  pose proof (starts_slice _ _ _ Hi) as Hs. rewrite word_len in Hs. rewrite Hs. cbn [of_option obind].
  rewrite be_val_word by lia. destruct (Z.ltb_spec (len output) (off + 32)); [lia|]. rewrite bit_len_63 by lia.
  replace (off + 32 - 32) with off by lia. rewrite Hw. cbn [of_option obind]. rewrite be_val_word by lia.
  rewrite bit_len_63 by lia. destruct (Z.ltb_spec (len output) (off + 32 + n)); [lia|]. done.
Qed.

Lemma starts_take output off b rest : starts output off (b ++ rest) -> go_slice output off (off + len b) = Some b.
Proof. intros H. apply starts_slice. by apply starts_prefix in H as [H _]. Qed.

Lemma BytesToAddress_word b : len b = 20 -> BytesToAddress (zeros 12 ++ b) = Some b.
Proof.
  intros Hb. unfold BytesToAddress, Address_SetBytes, set_bytes, AddressLength. rewrite len_app, Hb. cbn [len zeros].
  replace (20 <? len (zeros 12) + 20) with true by done.
  replace (len (zeros 12) + 20 - 20) with (len (zeros 12)) by lia. rewrite go_from_app. unfold go_copy_at. rewrite Hb.
  cbn. f_equal. unfold go_copy, len in *. simpl. rewrite take_ge, drop_ge by (simpl; lia). apply app_nil_r.
Qed.

(** ** ToGoType reads every type *)

Lemma reads_bytes t b v :
  (t = StringTy /\ v = GString b \/ t = BytesTy /\ v = GBytes false b) ->
  forall index output, len output < 2 ^ 63 -> located t v index output -> ToGoType t index output = Ok v.
Proof.
  intros Ht index output Hl Hloc.
  assert (exists off, starts output index (word off) /\ starts output off (encoded_bytes b)) as (off & Hi & Ho).
  { destruct Ht as [[-> ->]|[-> ->]]; destruct Hloc as (off & Hi & Ho); exists off; split; try done.
    cbn [enc] in Ho. by rewrite bytes_of_GBytes in Ho. }
  pose proof (starts_bound _ _ _ Hi) as Hb. rewrite word_len in Hb. pose proof (len_nonneg b).
  destruct (lengthPrefix_reads output index off (len b) (pad_right b ((len b + 31) / 32 * 32)) Hl Hi Ho) as (Hp & E & Hs).
  { pose proof (Z.div_mod (len b + 31) 32). pose proof (Z.mod_pos_bound (len b + 31) 32). rewrite pad_right_len; lia. }
  apply starts_take in Hs. destruct Ht as [[-> ->]|[-> ->]]; cbn [ToGoType requiresLengthPrefix];
    (destruct (Z.ltb_spec (len output) (index + 32)); [lia|]); rewrite E; cbn [obind]; by rewrite Hs.
Qed.

(** What a type without a length prefix reads first. *)
Lemma reads_word t v index output :
  requiresLengthPrefix t = false -> value_ok t v -> sized t -> isDynamicType t = false -> len (enc t v) = 32 ->
  located t v index output -> (len output <? index + 32) = false /\ go_slice output index (index + 32) = Some (enc t v).
Proof.
  intros Hr Hv Hs Hd He Hl. destruct (located_word t v index output Hv Hs Hl) as [E _]. split; [done|].
  unfold located in Hl. rewrite Hd in Hl. rewrite <- He. by apply starts_slice.
Qed.

(** A sequence of enough bytes for its elements. *)
Lemma seq_bytes e vs :
  Forall (value_ok e) vs -> sized e -> 32 * len vs <= len (enc_items (map (fun v => (isDynamicType e, enc e v)) vs)).
Proof.
  intros Hvs Hs. unfold enc_items. rewrite len_app, heads_len.
  match goal with |- context [len (tails ?l)] => pose proof (len_nonneg (tails l)) end.
  assert (32 * len vs <= sum (map head_len (map (fun v => (isDynamicType e, enc e v)) vs))); [|lia]. clear H.
  induction Hvs as [|v vs Hv _ IH]; [done|]. rewrite len_cons. unfold sum in *. cbn [map foldr]. rewrite enc_head_len by done.
  pose proof (static_size_pos e v Hv Hs). lia.
Qed.

Lemma forEachUnpack_reads array e vs D rest :
  reads e -> Forall (value_ok e) vs -> sized e -> len D < 2 ^ 63 ->
  D = enc_items (map (fun v => (isDynamicType e, enc e v)) vs) ++ rest ->
  forEachUnpack array e (ToGoType e) D 0 (len vs) = Ok (GSeq array (type_Kind e) vs).
Proof.
  intros IH Hvs Hs Hl HD. pose proof (seq_bytes e vs Hvs Hs) as Hb. pose proof (len_nonneg vs). pose proof (len_nonneg rest).
  assert (len D = len (enc_items (map (fun v => (isDynamicType e, enc e v)) vs)) + len rest) as El by (by rewrite HD, len_app).
  unfold forEachUnpack. destruct (Z.ltb_spec (len vs) 0); [lia|]. destruct (Z.ltb_spec (len D) (0 + 32 * len vs)); [lia|].
  rewrite to_nat_len, (elems_read e vs D rest) by done. done.
Qed.

Lemma reads_slice e : reads e -> reads (SliceTy e).
Proof.
  intros IH v index output (vs & -> & Hvs & _) Hs Hl (off & Hi & Ho). cbn [enc] in Ho. cbn [sized] in Hs.
  pose proof (seq_bytes e vs Hvs Hs) as Hb. pose proof (len_nonneg vs).
  pose proof (starts_bound _ _ _ Hi) as Hb'. rewrite word_len in Hb'.
  destruct (lengthPrefix_reads output index off (len vs) _ Hl Hi Ho) as (Hp & E & Hst); [lia|].
  destruct (starts_from _ _ _ Hst) as (rest & Ef & Hlr).
  cbn [ToGoType requiresLengthPrefix]. destruct (Z.ltb_spec (len output) (index + 32)); [lia|].
  rewrite E. cbn [obind]. rewrite Ef. cbn [of_option obind]. by apply (forEachUnpack_reads false e vs _ rest); [..|lia|].
Qed.

Lemma reads_array n e : reads e -> reads (ArrayTy n e).
Proof.
  intros IH v index output Hv Hs Hl Hloc. destruct (located_word _ _ _ _ Hv Hs Hloc) as (E & w & Ew & Lw).
  destruct Hv as (vs & -> & Hvs & Hn & Hp). unfold located in Hloc. cbn [isDynamicType enc] in Hloc. destruct Hs as [Hs _].
  cbn [ToGoType requiresLengthPrefix]. rewrite E. cbn [obind]. rewrite Ew. cbn [of_option obind].
  destruct (isDynamicType e) eqn:Hd.
  - destruct Hloc as (off & Hi & Ho). pose proof (starts_slice _ _ _ Hi) as Hw. rewrite word_len, Ew in Hw. apply (inj Some) in Hw as ->.
    change (last_bytes (word off) 8) with (last_bytes (word off) (Z.of_nat 8)). rewrite last_bytes_word by lia. cbn [of_option obind].
    pose proof (starts_bound _ _ _ Ho) as Hb. match type of Hb with context [len ?l] => pose proof (len_nonneg l) end.
    rewrite Z.mod_small, i64_id by lia. destruct (starts_from _ _ _ Ho) as (rest & Ef & Hlr). rewrite Ef. cbn [of_option obind].
    rewrite <- Hn. apply (forEachUnpack_reads true e vs _ rest); [done|done|done|lia|by rewrite Hd].
  - destruct (starts_from _ _ _ Hloc) as (rest & Ef & Hlr). rewrite Ef. cbn [of_option obind].
    rewrite <- Hn. apply (forEachUnpack_reads true e vs _ rest); [done|done|done|lia|by rewrite Hd].
Qed.

Lemma reads_tuple r ns es : Forall reads es -> reads (TupleTy r ns es).
Proof.
  intros IH v index output Hv Hs Hl Hloc. destruct (located_word _ _ _ _ Hv Hs Hloc) as (E & w & Ew & Lw).
  destruct Hv as (vs & -> & _ & _ & _ & _ & Hvs). apply sized_tuple in Hs. unfold located in Hloc.
  cbn [ToGoType requiresLengthPrefix]. rewrite E. cbn [obind]. rewrite Ew. cbn [of_option obind].
  set (t := TupleTy r ns es) in *. assert (HF : forall off, starts output off (enc t (GStruct (tuple_fields ns) vs)) ->
    (let? output := of_option (go_from output off) in
     forTupleUnpack ns (map (fun e => (virtual_args e, ToGoType e)) es) output) = Ok (GStruct (tuple_fields ns) vs)).
  { intros off Ho. destruct (starts_from _ _ _ Ho) as (rest & Ef & Hlr). rewrite Ef. cbn [of_option obind].
    unfold forTupleUnpack. rewrite (fields_read es vs _ rest IH Hvs Hs) by (done || lia). done. }
  destruct (isDynamicType t) eqn:Hd; [|by apply HF].
  destruct Hloc as (off & Hi & Ho). pose proof (starts_slice _ _ _ Hi) as Hw. rewrite word_len in Hw.
  pose proof (starts_bound _ _ _ Ho) as Hb. match type of Hb with context [len ?l] => pose proof (len_nonneg l) end.
  unfold tuplePointsTo. rewrite Hw. cbn [of_option obind]. rewrite be_val_word by lia.
  destruct (Z.ltb_spec (len output) off); [lia|]. rewrite bit_len_63 by lia. cbn [obind]. by apply HF.
Qed.

Lemma ReadFixed_reads output index b n :
  starts output index (pad_right b n) -> exists rest, go_from output index = Some rest /\ go_slice rest 0 (len b) = Some b.
Proof.
  intros H. destruct (starts_from _ _ _ H) as (rest & E & _). eexists. split; [done|]. unfold pad_right. rewrite <- app_assoc.
  apply (go_slice_app [] b).
Qed.

Lemma readFunctionType_word b : len b = 24 -> readFunctionType (pad_right b 32) = Ok (GBytes true b).
Proof.
  intros Hb. unfold readFunctionType, pad_right. rewrite Hb. change (zeros (32 - 24)) with (zeros 8).
  pose proof (go_slice_app b (zeros 8) []) as H1. pose proof (go_slice_app [] b (zeros 8)) as H2. rewrite app_nil_r, Hb in H1.
  change (go_slice (b ++ zeros 8) 0 (len b) = Some b) in H2. rewrite Hb in H2. change (24 + len (zeros 8)) with 32 in H1. by rewrite H1, H2.
Qed.

Lemma ToGoType_reads t : reads t.
Proof.
  induction t using Type_nested_ind.
  5: by apply reads_slice.
  5: by apply reads_array.
  5: by apply reads_tuple.
  4: intros v index output [b ->] _ Hl Hloc; eapply reads_bytes; eauto.
  6: intros v index output [b ->] _ Hl Hloc; eapply reads_bytes; eauto.
  all: intros v index output Hv Hs Hl Hloc;
    match type of Hv with value_ok ?t _ =>
      pose proof (reads_word t v index output eq_refl Hv Hs eq_refl (enc_static_len t v Hv Hs eq_refl) Hloc) as [E Ew] end;
    cbn [ToGoType requiresLengthPrefix]; rewrite E; cbn [obind]; rewrite Ew; cbn [of_option obind].
  - destruct (int_ok_enc _ _ _ Hv) as (z & _ & _ & _ & Hz). cbn [type_Kind].
    assert (enc (IntTy n) v = word z) as -> by (by destruct Hz as [->|[k ->]]). 
    pose proof (ReadInteger_word true n v z Hv Hz) as HR. cbn [negb] in HR. by rewrite HR.
  - destruct (int_ok_enc _ _ _ Hv) as (z & _ & _ & _ & Hz). cbn [type_Kind].
    assert (enc (UintTy n) v = word z) as -> by (by destruct Hz as [->|[k ->]]). 
    pose proof (ReadInteger_word false n v z Hv Hz) as HR. cbn [negb] in HR. by rewrite HR.
  - destruct Hv as [[] ->]; by vm_compute.
  - destruct Hv as (b & -> & Hb). cbn [enc]. rewrite bytes_of_GBytes. by rewrite BytesToAddress_word.
  - destruct Hv as ((b & -> & Hb) & Hn). unfold located in Hloc. cbn [isDynamicType enc] in Hloc. rewrite bytes_of_GBytes in Hloc.
    destruct (ReadFixed_reads _ _ _ _ Hloc) as (rest & Ef & Es). rewrite Ef. cbn [of_option obind]. unfold ReadFixedBytes.
    rewrite <- Hb, Es. done.
  - destruct Hv as (b & -> & Hb). cbn [enc]. rewrite bytes_of_GBytes. by apply readFunctionType_word.
Qed.

(** ** Arguments *)

Lemma Pack_enc wb arguments vs :
  (0 < wb)%nat -> Forall2 value_ok (map arg_Type arguments) vs -> Forall sized (map arg_Type arguments) ->
  Pack wb arguments vs = Ok (enc_args (map arg_Type arguments) vs).
Proof.
  intros Hw Hv Hs. unfold Pack. pose proof (Forall2_length _ _ _ Hv) as Hl. rewrite length_map in Hl. unfold len at 1 2.
  rewrite Hl, Z.eqb_refl. cbn [negb].
  assert (zip_with (fun input a => (isDynamicType (arg_Type input), pack wb (arg_Type input) a)) arguments vs =
    map (fun it => (fst it, Ok (snd it))) (zip_with (fun t v => (isDynamicType t, enc t v)) (map arg_Type arguments) vs) /\
    sum (map (fun a => getTypeSize (arg_Type a)) arguments) =
    sum (map head_len (zip_with (fun t v => (isDynamicType t, enc t v)) (map arg_Type arguments) vs))) as [-> ->].
  { clear Hl. revert vs Hv. induction arguments as [|a arguments IH]; intros vs Hv; [by inversion Hv|].
    cbn [map] in *. apply Forall2_cons_inv_l in Hv as (v & vs' & Hv1 & Hv & ->). apply Forall_cons in Hs as [Hs1 Hs].
    destruct (IH Hs vs' Hv) as [E1 E2]. cbn [zip_with map fst snd]. split; [by rewrite pack_enc, E1|].
    unfold sum in *. cbn [foldr]. by rewrite E2, enc_head_len. }
  by rewrite packFields_spec.
Qed.

Lemma NonIndexed_all arguments : Forall (fun a => Indexed a = false) arguments -> NonIndexed arguments = arguments.
Proof. unfold NonIndexed. induction 1 as [|a arguments Ha _ IH]; [done|]. cbn [List.filter]. rewrite Ha. cbn [negb]. by f_equal. Qed.

Lemma Pack_Unpack wb arguments vs rest :
  (0 < wb)%nat -> Forall (fun a => Indexed a = false) arguments ->
  Forall2 value_ok (map arg_Type arguments) vs -> Forall sized (map arg_Type arguments) ->
  len (enc_args (map arg_Type arguments) vs ++ rest) < 2 ^ 63 ->
  Pack wb arguments vs = Ok (enc_args (map arg_Type arguments) vs) /\
  UnpackValues arguments (enc_args (map arg_Type arguments) vs ++ rest) = Ok vs.
Proof.
  intros Hw Hi Hv Hs Hl. split; [by apply Pack_enc|]. unfold UnpackValues.
  rewrite NonIndexed_all by done.
  rewrite <- (map_map arg_Type (fun t => (virtual_args t, ToGoType t))).
  apply (fields_read _ _ _ rest); [apply Forall_true, ToGoType_reads|by apply Forall2_fmap_l|done|done|].
  f_equal. unfold enc_args. f_equal. clear. revert vs. induction (map arg_Type arguments) as [|t ts IH]; intros [|v vs]; try done.
  cbn [map zip_with fst snd]. by rewrite <- IH.
Qed.

(** C9: Packed arguments come back.  For arguments without indexed ones, of types
    on which getTypeSize is right, and values of these types, Pack returns the
    encoding of the ABI specification and UnpackValues on it returns the values;
    what follows the encoding does not matter. *)
Theorem pack_unpack_roundtrip wb arguments vs rest :
  (0 < wb)%nat -> Forall (fun a => Indexed a = false) arguments ->
  Forall2 value_ok (map arg_Type arguments) vs -> Forall sized (map arg_Type arguments) ->
  len (enc_args (map arg_Type arguments) vs ++ rest) < 2 ^ 63 ->
  Pack wb arguments vs = Ok (enc_args (map arg_Type arguments) vs) /\
  UnpackValues arguments (enc_args (map arg_Type arguments) vs ++ rest) = Ok vs.
Proof. apply Pack_Unpack. Qed.

Definition point : Type_ := TupleTy (str "Point") [str "x"; str "y_pos"] [IntTy 64; UintTy 256].
Definition sample_args : list Argument :=
  [MkArgument (str "owner") AddressTy [] false; MkArgument (str "names") (SliceTy StringTy) [] false;
   MkArgument (str "points") (ArrayTy 2 (SliceTy point)) [] false; MkArgument (str "ids") (ArrayTy 2 (UintTy 8)) [] false].
Definition sample_point (x y : Z) : goval :=
  GStruct (tuple_fields [str "x"; str "y_pos"]) [GInt (KInt 64) x; GBig (Some y)].
Definition sample_values : list goval :=
  [GBytes true (repeat 7 20); GSeq false KString [GString (str "abc"); GString []];
   GSeq true KSlice [GSeq false KStruct [sample_point (-5) (2 ^ 255)]; GSeq false KStruct []];
   GSeq true (KUint 8) [GInt (KUint 8) 1; GInt (KUint 8) 255]].

Lemma sample_point_ok x y : - 2 ^ 63 <= x < 2 ^ 63 -> 0 <= y < 2 ^ 256 -> value_ok point (sample_point x y).
Proof.
  intros Hx Hy. eexists. split; [done|]. split; [done|]. split; [done|].
  split; [refine (bool_decide_unpack _ _); by vm_compute|]. split; [refine (bool_decide_unpack _ _); by vm_compute|].
  constructor; [split; [done|]; split; [done|exact Hx]|]. constructor; [exact Hy|constructor].
Qed.

Lemma sample_values_ok : Forall2 value_ok (map arg_Type sample_args) sample_values.
Proof.
  constructor; [by exists (repeat 7 20)|]. constructor.
  { eexists. split; [done|]. split; [|done]. repeat constructor; by eexists. }
  constructor.
  { eexists. split; [done|]. split; [|done]. repeat constructor.
    - eexists. split; [done|]. split; [|done]. constructor; [|constructor]. by apply sample_point_ok.
    - by eexists. }
  constructor; [|constructor]. eexists. split; [done|]. split; [|done]. by repeat constructor.
Qed.

Lemma pack_unpack_roundtrip_witness :
  Pack 8 sample_args sample_values = Ok (enc_args (map arg_Type sample_args) sample_values) /\
  UnpackValues sample_args (enc_args (map arg_Type sample_args) sample_values ++ [1; 2; 3]) = Ok sample_values.
Proof.
  assert (Hl : len (enc_args (map arg_Type sample_args) sample_values ++ [1; 2; 3]) < 2 ^ 63) by (by vm_compute).
  assert (Hi : Forall (fun a => Indexed a = false) sample_args) by (by repeat constructor).
  assert (Hs : Forall sized (map arg_Type sample_args)) by (by repeat constructor).
  exact (pack_unpack_roundtrip 8 sample_args sample_values [1; 2; 3] (Nat.lt_0_succ 7) Hi sample_values_ok Hs Hl).
Defined.

(** ** Any output *)

(** The Go type of the value that unpacking a type returns. *)
Fixpoint typed (t : Type_) (v : goval) : Prop :=
  match t with
  | IntTy n => int_ok true n v
  | UintTy n => int_ok false n v
  | BoolTy => exists b, v = GBool b
  | StringTy => exists s, v = GString s
  | BytesTy => exists b, v = GBytes false b
  | AddressTy => bytes_val true 20 v
  | FixedBytesTy n => bytes_val true n v
  | FunctionTy => bytes_val true 24 v
  | SliceTy e => exists vs, v = GSeq false (type_Kind e) vs /\ Forall (typed e) vs
  | ArrayTy n e => exists vs, v = GSeq true (type_Kind e) vs /\ Forall (typed e) vs /\ len vs = n
  | TupleTy _ names es =>
      exists vs, v = GStruct (tuple_fields names) vs /\ Forall2 (fun (P : goval -> Prop) v => P v) (map typed es) vs
  end.

(** Types of sizes that NewType accepts, without arrays of dynamic elements. *)
Fixpoint safe (t : Type_) : Prop :=
  match t with
  | SliceTy e => safe e
  | ArrayTy n e => 0 <= n /\ isDynamicType e = false /\ safe e
  | TupleTy _ _ es => foldr (fun t P => safe t /\ P) True es
  | FixedBytesTy n => 0 <= n <= 32
  | _ => True
  end.

(** A value of the type, or an error. *)
Definition yields {A} (P : A -> Prop) (o : outcome abi_error A) : Prop :=
  match o with Ok v => P v | Err _ => True | _ => False end.

Definition unpacks (t : Type_) : Prop := forall index output,
  0 <= index -> bytes_ok output -> yields (typed t) (ToGoType t index output).

Lemma yields_bind {A B} (P : A -> Prop) (Q : B -> Prop) (o : outcome abi_error A) f :
  yields P o -> (forall a, P a -> yields Q (f a)) -> yields Q (obind o f).
Proof. intros H Hf. destruct o; try done. by apply Hf. Qed.

Lemma size_nonneg t : safe t -> 0 <= getTypeSize t.
Proof.
  induction t as [| | | |e IH|n e IH|r ns es IH| | | |] using Type_nested_ind; intros Hs; try done; cbn [getTypeSize].
  - destruct Hs as (Hn & Hd & Hs). rewrite Hd. cbn [negb]. specialize (IH Hs). destruct e; try lia.
  - destruct (negb _); [|done]. cbn [safe] in Hs. induction IH as [|e es He _ IHes]; [done|]. destruct Hs as [H1 Hs].
    unfold sum in *. cbn [map foldr]. specialize (IHes Hs). specialize (He H1). lia.
Qed.

Lemma virtual_args_nonneg t : safe t -> 0 <= 1 + virtual_args t.
Proof. intros Hs. pose proof (size_nonneg t Hs). rewrite <- virtual_args_size in H. lia. Qed.

Lemma go_from_ok (l : list Z) i : 0 <= i <= len l -> bytes_ok l -> exists r, go_from l i = Some r /\ bytes_ok r.
Proof.
  intros Hi Hb. unfold go_from, go_slice. destruct (Z.leb_spec 0 i), (Z.leb_spec i (len l)); try lia. rewrite Z.leb_refl.
  eexists. split; [done|]. by apply bytes_ok_take, bytes_ok_drop.
Qed.

Lemma go_slice_ok (l : list Z) i j :
  0 <= i <= j -> j <= len l -> bytes_ok l -> exists r, go_slice l i j = Some r /\ bytes_ok r /\ len r = j - i.
Proof.
  intros Hi Hj Hb. unfold go_slice. destruct (Z.leb_spec 0 i), (Z.leb_spec i j), (Z.leb_spec j (len l)); try lia.
  eexists. split; [done|]. split; [by apply bytes_ok_take, bytes_ok_drop|]. rewrite len_take, len_drop. lia.
Qed.

Lemma sint_range bits z : 0 < bits -> - 2 ^ (bits - 1) <= sint bits z < 2 ^ (bits - 1).
Proof.
  intros Hb. unfold sint. pose proof (Z.mod_pos_bound z (2 ^ bits) ltac:(lia)).
  assert (E : 2 ^ bits = 2 * 2 ^ (bits - 1)) by (rewrite <- Z.pow_succ_r by lia; f_equal; lia).
  destruct (Z.ltb_spec (z mod 2 ^ bits) (2 ^ (bits - 1))); lia.
Qed.

Lemma last_bytes_ok w n :
  bytes_ok w -> len w = 32 -> (n <= 32)%nat -> exists z, last_bytes w (Z.of_nat n) = Some z /\ 0 <= z < 256 ^ Z.of_nat n.
Proof.
  intros Hb Hl Hn. unfold last_bytes, go_from. destruct (go_slice_ok w (len w - Z.of_nat n) (len w)) as (r & -> & Hr & Lr);
    [lia|lia|done|]. eexists. split; [done|]. replace (Z.of_nat n) with (len r) by lia. by apply be_val_bound.
Qed.

Lemma big_range signed z : 0 <= z < 2 ^ 256 ->
  int_range signed 256 (if negb signed then z else if Z.testbit z 255 then - (MaxUint256 + - z + 1) else z).
Proof.
  intros Hz. unfold MaxUint256. destruct signed; cbn [negb int_range]; [|done].
  assert (Ez : Z.testbit z 255 = Z.testbit (Z.shiftr z 255) 0) by (by rewrite Z.shiftr_spec).
  rewrite Ez, Z.shiftr_div_pow2 by lia. change (256 - 1) with 255. destruct (Z.lt_ge_cases z (2 ^ 255)).
  - rewrite Z.div_small by lia. simpl Z.testbit. cbv iota. lia.
  - rewrite <- (Z.div_unique z (2 ^ 255) 1 (z - 2 ^ 255)) by lia. simpl Z.testbit. cbv iota. lia.
Qed.

Lemma ReadInteger_ok signed size w :
  bytes_ok w -> len w = 32 ->
  exists v, ReadInteger (negb signed) (reflectIntKindAndType (negb signed) size) w = Some v /\ int_ok signed size v.
Proof.
  intros Hb Hl. unfold int_ok. destruct (decide (reflectIntKindAndType (negb signed) size = KPtr)) as [E|E].
  - rewrite E. eexists. split; [done|]. apply big_range. change (2 ^ 256) with (256 ^ 32). rewrite <- Hl. by apply be_val_bound.
  - destruct (small_int _ _ E) as (n & Hn & -> & Ek). rewrite Ek.
    assert (Hd : 8 * Z.of_nat n / 8 = Z.of_nat n) by (by rewrite Z.mul_comm, Z.div_mul).
    assert (Hp : 256 ^ Z.of_nat n = 2 ^ (8 * Z.of_nat n)) by (by rewrite Z.pow_mul_r by lia).
    destruct (last_bytes_ok w n Hb Hl ltac:(lia)) as (z & Ez & Hz). rewrite Hp in Hz.
    destruct signed; cbn [negb]; unfold ReadInteger; rewrite Hd, Ez; cbn [fmap option_fmap option_map]; eexists;
      (split; [done|]); (split; [done|]); (split; [done|]).
    + apply sint_range. lia.
    + done.
Qed.

Lemma lengthPrefix_yields index output :
  0 <= index -> index + 32 <= len output -> bytes_ok output ->
  yields (fun bl => 0 <= fst bl /\ 0 <= snd bl /\ fst bl + snd bl <= len output) (lengthPrefixPointsTo index output).
Proof.
  intros Hi Hl Hb. unfold lengthPrefixPointsTo. destruct (go_slice_ok output index (index + 32)) as (w & -> & Hw & _); [lia|done|done|].
  cbn [of_option obind]. pose proof (be_val_bound w Hw) as [H0 _].
  destruct (Z.ltb_spec (len output) (be_val w + 32)); [done|]. destruct (63 <? _); [done|].
  destruct (go_slice_ok output (be_val w + 32 - 32) (be_val w + 32)) as (w2 & -> & Hw2 & _); [lia|lia|done|].
  cbn [of_option obind]. pose proof (be_val_bound w2 Hw2) as [H1 _]. destruct (63 <? _); [done|].
  destruct (Z.ltb_spec (len output) (be_val w + 32 + be_val w2)); [done|]. simpl. lia.
Qed.

Lemma unpackElems_yields e D n i :
  unpacks e -> safe e -> bytes_ok D -> 0 <= i ->
  yields (fun vs => Forall (typed e) vs /\ length vs = n) (unpackElems (ToGoType e) (getTypeSize e) D i n).
Proof.
  intros He Hs Hb. revert i. induction n as [|n IH]; intros i Hi; [done|]. cbn [unpackElems].
  apply (yields_bind (typed e)); [by apply He|]. intros v Hv. pose proof (size_nonneg e Hs).
  apply (yields_bind (fun vs => Forall (typed e) vs /\ length vs = n)); [apply IH; lia|].
  intros vs [Hvs Hn]. split; [by constructor|]. simpl. by f_equal.
Qed.

Lemma unpackFields_yields es D index virtual :
  Forall unpacks es -> Forall safe es -> bytes_ok D -> 0 <= index + virtual ->
  yields (fun vs => Forall2 typed es vs) (unpackFields (map (fun e => (virtual_args e, ToGoType e)) es) index virtual D).
Proof.
  intros He Hs Hb. revert index virtual Hs. induction He as [|e es He _ IH]; intros index virtual Hs Hi; [by constructor|].
  apply Forall_cons in Hs as [Hs1 Hs]. cbn [map unpackFields]. apply (yields_bind (typed e)); [apply He; [lia|done]|].
  intros v Hv. pose proof (virtual_args_nonneg e Hs1). apply (yields_bind (fun vs => Forall2 typed es vs)); [apply IH; [done|lia]|].
  intros vs Hvs. by constructor.
Qed.

Lemma forEachUnpack_yields array e D size :
  unpacks e -> safe e -> bytes_ok D ->
  yields (fun v => exists vs, v = GSeq array (type_Kind e) vs /\ Forall (typed e) vs /\ len vs = size)
    (forEachUnpack array e (ToGoType e) D 0 size).
Proof.
  intros He Hs Hb. unfold forEachUnpack. destruct (Z.ltb_spec size 0); [done|]. destruct (_ <? _); [done|].
  eapply yields_bind; [by apply unpackElems_yields|]. intros vs [Hvs Hn]. exists vs. split; [done|]. split; [done|]. unfold len. lia.
Qed.

Lemma safe_tuple r ns es : safe (TupleTy r ns es) <-> Forall safe es.
Proof. cbn [safe]. induction es as [|e es IH]; simpl; [done|]. rewrite IH, Forall_cons. done. Qed.

Lemma forTupleUnpack_yields r ns es D :
  Forall unpacks es -> Forall safe es -> bytes_ok D ->
  yields (typed (TupleTy r ns es)) (forTupleUnpack ns (map (fun e => (virtual_args e, ToGoType e)) es) D).
Proof.
  intros He Hs Hb. unfold forTupleUnpack. eapply yields_bind; [by apply unpackFields_yields|].
  intros vs Hvs. exists vs. split; [done|]. by apply Forall2_fmap_l.
Qed.

Lemma ToGoType_yields t : safe t -> unpacks t.
Proof.
  induction t as [n|n| | |e IH|n e IH|r ns es IH| |n| |] using Type_nested_ind; intros Hs index output Hi Hb; cbn [ToGoType];
    destruct (Z.ltb_spec (len output) (index + 32)); try done; cbn [requiresLengthPrefix obind];
    try (destruct (go_slice_ok output index (index + 32)) as (w & -> & Hw & Lw); [lia|done|done|]; cbn [of_option obind];
         replace (index + 32 - index) with 32 in Lw by lia);
    try (apply (yields_bind _ _ _ _ (lengthPrefix_yields index output Hi H Hb)); intros [begin length] (H1 & H2 & H3); cbn [fst snd] in *).
  - destruct (ReadInteger_ok true n w Hw Lw) as (v & E & Hv). cbn [negb] in E. cbn [type_Kind]. by rewrite E.
  - destruct (ReadInteger_ok false n w Hw Lw) as (v & E & Hv). cbn [negb] in E. cbn [type_Kind]. by rewrite E.
  - unfold readBool. destruct (go_slice_ok w 0 31) as (f & -> & _); [lia|lia|done|]. change (go_index w 31) with (w !! 31%nat).
    destruct (lookup_lt_is_Some_2 w 31) as [b Eb]; [unfold len in Lw; lia|]. rewrite Eb.
    destruct (existsb _ _); [done|]. repeat case_match; try done; by eexists.
  - destruct (go_slice_ok output begin (begin + length)) as (s & -> & _); [lia|lia|done|]. by exists s.
  - destruct (go_from_ok output begin) as (D & -> & HD); [lia|done|]. cbn [of_option obind].
    pose proof (forEachUnpack_yields false e D length (IH Hs) Hs HD) as HF. destruct (forEachUnpack _ _ _ _ _ _); try done.
    destruct HF as (vs & -> & Hvs & _). by exists vs.
  - destruct Hs as (Hn & Hd & Hs). rewrite Hd. destruct (go_from_ok output index) as (D & -> & HD); [lia|done|]. cbn [of_option obind].
    by apply forEachUnpack_yields; [apply IH|..].
  - apply safe_tuple in Hs. assert (Forall unpacks es) by (rewrite Forall_forall in *; intros x Hx; by apply IH, Hs).
    destruct (isDynamicType (TupleTy r ns es)).
    + unfold tuplePointsTo. destruct (go_slice_ok output index (index + 32)) as (w2 & -> & Hw2 & _); [lia|done|done|].
      cbn [of_option obind]. pose proof (be_val_bound w2 Hw2) as [H1 _].
      destruct (Z.ltb_spec (len output) (be_val w2)); [done|]. destruct (63 <? _); [done|]. cbn [obind].
      destruct (go_from_ok output (be_val w2)) as (D & -> & HD); [lia|done|]. by apply forTupleUnpack_yields.
    + destruct (go_from_ok output index) as (D & -> & HD); [lia|done|]. by apply forTupleUnpack_yields.
  - unfold BytesToAddress, Address_SetBytes, set_bytes, AddressLength. rewrite Lw. change (20 <? 32) with true. cbv iota.
    destruct (go_slice_ok w 12 32) as (a & Ea & _ & La); [lia|lia|done|]. unfold go_from. rewrite Lw. change (32 - 20) with 12. rewrite Ea.
    assert (len a = 20) as -> by lia. change (go_copy_at (zeros 20) (20 - 20) a) with (Some (go_copy (zeros 20) a)).
    exists (go_copy (zeros 20) a). split; [done|]. unfold len. by rewrite go_copy_length.
  - destruct (go_from_ok output index) as (D & ED & HD); [lia|done|]. rewrite ED. cbn [of_option obind]. unfold ReadFixedBytes.
    cbn [safe] in Hs. assert (32 <= len D).
    { unfold go_from in ED. destruct (go_slice_ok output index (len output)) as (D' & E' & _ & L); [lia|lia|done|]. rewrite ED in E'.
      injection E' as ->. lia. }
    destruct (go_slice_ok D 0 n) as (b & -> & _ & Lb); [lia|lia|done|]. exists b. split; [done|lia].
  - destruct (go_slice_ok output begin (begin + length)) as (s & -> & _); [lia|lia|done|]. by exists s.
  - unfold readFunctionType. destruct (go_slice_ok w 24 32) as (g & -> & _); [lia|lia|done|].
    destruct (go_slice_ok w 0 24) as (f & -> & _ & Lf); [lia|lia|done|]. destruct (negb _); [done|]. exists f. split; [done|lia].
Qed.

Lemma UnpackValues_yields arguments data :
  Forall safe (map arg_Type arguments) -> bytes_ok data ->
  yields (Forall2 typed (map arg_Type (NonIndexed arguments))) (UnpackValues arguments data).
Proof.
  intros Hs Hb. unfold UnpackValues. rewrite <- (map_map arg_Type (fun t => (virtual_args t, ToGoType t))).
  assert (Hs' : Forall safe (map arg_Type (NonIndexed arguments))).
  { apply Forall_map. unfold NonIndexed. apply Forall_forall. intros a Ha.
    apply list_elem_of_In, filter_In in Ha as [Ha _]. rewrite Forall_forall in Hs.
    apply Hs, (list_elem_of_fmap_2 arg_Type). by apply list_elem_of_In. }
  apply unpackFields_yields; [|done|done|done]. eapply Forall_impl; [done|]. intros t Ht. by apply ToGoType_yields.
Qed.

(** An array of dynamic elements with an offset outside of the output. *)
Lemma array_offset_panics n e output index off : isDynamicType e = true -> starts output index (word off) -> len output < off < 2 ^ 64 -> ToGoType (ArrayTy n e) index output = Panic.
Proof.
  intros Hd Hi Ho. pose proof (starts_bound _ _ _ Hi) as Hb. rewrite word_len in Hb.
  pose proof (starts_slice _ _ _ Hi) as Hw. rewrite word_len in Hw. cbn [ToGoType requiresLengthPrefix].
  destruct (Z.ltb_spec (len output) (index + 32)); [lia|]. cbn [obind]. rewrite Hw. cbn [of_option obind]. rewrite Hd.
  change (last_bytes (word off) 8) with (last_bytes (word off) (Z.of_nat 8)). rewrite last_bytes_word by lia. cbn [of_option obind].
  rewrite Z.mod_small by lia. unfold go_from, go_slice, i64, sint. rewrite Z.mod_small by lia. change (64 - 1) with 63.
  destruct (Z.ltb_spec off (2 ^ 63)), (Z.leb_spec 0 off), (Z.leb_spec off (len output)), (Z.leb_spec 0 (off - 2 ^ 64)); try lia; done.
Qed.

(** C23: Unpacking is typed, and total but for two kinds of types.  For every byte
    string and every list of arguments of types without arrays of dynamic
    elements and without fixed bytes longer than a word, UnpackValues returns an
    error or one value of the Go type of each argument; it does not panic.  For
    the types left out it can: an array of dynamic elements panics on an offset
    outside of the output, and fixed bytes of more than 32 bytes panic on an
    output of one word. *)
Theorem UnpackValues_typed arguments data :
  Forall safe (map arg_Type arguments) -> bytes_ok data ->
  match UnpackValues arguments data with
  | Ok vs => Forall2 typed (map arg_Type (NonIndexed arguments)) vs
  | Err _ => True
  | _ => False
  end /\
  (forall name text n e off, isDynamicType e = true -> 32 < off < 2 ^ 64 -> UnpackValues [MkArgument name (ArrayTy n e) text false] (word off) = Panic) /\
  (forall name text n x, 32 < n -> UnpackValues [MkArgument name (FixedBytesTy n) text false] (word x) = Panic).
Proof.
  intros Hs Hb. split; [by apply UnpackValues_yields|]. unfold UnpackValues. cbn [NonIndexed List.filter Indexed negb map arg_Type unpackFields]. split.
  - intros _ _ n e off He Ho. change ((0 + 0) * 32) with 0. rewrite (array_offset_panics n e (word off) 0 off He); [done| |rewrite word_len; lia]. exists [], []. by rewrite app_nil_r.
  - intros _ _ n x Hn. cbn [ToGoType requiresLengthPrefix]. rewrite word_len. change (32 <? (0 + 0) * 32 + 32) with false. cbn [obind]. assert (Hx : starts (word x) 0 (word x)) by (exists [], []; by rewrite app_nil_r).
    pose proof (starts_slice _ _ _ Hx) as Hw. rewrite word_len in Hw. change ((0 + 0) * 32) with 0. rewrite Hw. cbn [of_option obind]. unfold go_from. change (0 + 32) with 32 in Hw. rewrite word_len, Hw. cbn [of_option obind]. unfold ReadFixedBytes, go_slice. rewrite word_len.
    destruct (Z.leb_spec 0 n), (Z.leb_spec n 32); try lia; done.
Qed.

Lemma UnpackValues_typed_witness :
  match UnpackValues (take 2 sample_args) (repeat 0 64) with
  | Ok vs => Forall2 typed [AddressTy; SliceTy StringTy] vs
  | Err _ => True
  | _ => False
  end /\ UnpackValues [MkArgument [] (ArrayTy 2 StringTy) [] false] (word 1000) = Panic.
Proof.
  assert (Hs : Forall safe (map arg_Type (take 2 sample_args))) by (by repeat constructor).
  assert (Hb : bytes_ok (repeat 0 64)) by (by repeat constructor).
  destruct (UnpackValues_typed (take 2 sample_args) (repeat 0 64) Hs Hb) as (H1 & H2 & _).
  exact (conj H1 (H2 [] [] 2 StringTy 1000 eq_refl ltac:(lia))).
Defined.

(** ** Where the codec departs from the specification *)

(** Two panics of the codec.  Packing an empty slice of arrays, whose encoding
    is the word 0, panics in the type check, which looks at the first element;
    and unpacking an array of dynamic elements panics when its offset lies
    outside of the output, which is the choice of whoever wrote the output. *)
Theorem abi_codec_panics wb n e output index off :
  isDynamicType e = true -> starts output index (word off) -> len output < off < 2 ^ 64 ->
  pack wb (SliceTy (ArrayTy n e)) (GSeq false KArray []) = Panic /\
  enc (SliceTy (ArrayTy n e)) (GSeq false KArray []) = word 0 /\
  ToGoType (ArrayTy n e) index output = Panic.
Proof.
  intros Hd Hi Ho. split; [done|]. split; [done|]. by apply (array_offset_panics n e output index off).
Qed.

Lemma abi_codec_panics_witness :
  pack 8 (SliceTy (ArrayTy 2 StringTy)) (GSeq false KArray []) = Panic /\ ToGoType (ArrayTy 2 StringTy) 0 (word 1000) = Panic.
Proof.
  assert (Hi : starts (word 1000) 0 (word 1000)) by (exists [], []; by rewrite app_nil_r).
  assert (Ho : len (word 1000) < 1000 < 2 ^ 64) by (rewrite word_len; lia).
  destruct (abi_codec_panics 8 2 StringTy (word 1000) 0 1000 eq_refl Hi Ho) as (H1 & _ & H3).
  exact (conj H1 H3).
Defined.

(** getTypeSize is wrong on static arrays of tuples.  It counts one word per
    element, while packing such an array gives as many as the tuple has: the
    offsets of dynamic arguments next to it, and the positions where the
    arguments after it are read, are wrong. *)
Theorem tuple_array_size_wrong wb n r ns es v :
  (0 < wb)%nat -> value_ok (ArrayTy n (TupleTy r ns es)) v -> Forall sized es -> isDynamicType (TupleTy r ns es) = false ->
  getTypeSize (ArrayTy n (TupleTy r ns es)) = n * 32 /\
  (1 + virtual_args (ArrayTy n (TupleTy r ns es))) * 32 = n * 32 /\
  exists b, pack wb (ArrayTy n (TupleTy r ns es)) v = Ok b /\ len b = n * sum (map getTypeSize es).
Proof.
  intros Hw Hv Hs Hd. set (t := TupleTy r ns es) in *. assert (Hst : sized t) by (by apply sized_tuple).
  rewrite virtual_args_size. assert (getTypeSize (ArrayTy n t) = n * 32) as -> by (cbn [getTypeSize]; by rewrite Hd).
  split; [done|]. split; [done|]. pose proof Hv as (vs & -> & Hvs & Hn & _).
  eexists. split; [apply packs_seq; eauto using pack_enc|]. cbn [enc]. rewrite Hd.
  rewrite enc_items_static by (by apply Forall_map, Forall_true). rewrite !map_map. cbn [snd].
  rewrite len_concat, map_map, (sum_const _ (getTypeSize t)).
  - unfold len at 1. rewrite length_map. unfold len in Hn. rewrite Hn. f_equal. unfold t. cbn [getTypeSize]. fold t. by rewrite Hd.
  - apply Forall_map. eapply Forall_impl; [done|]. intros w Hw'. by apply enc_static_len.
Qed.

Definition points_args : list Argument :=
  [MkArgument (str "points") (ArrayTy 1 point) [] false; MkArgument (str "name") StringTy [] false].
Definition points_values : list goval := [GSeq true KStruct [sample_point 1 2]; GString (str "abc")].

Lemma tuple_array_size_wrong_witness :
  (getTypeSize (ArrayTy 1 point) = 32 /\ (1 + virtual_args (ArrayTy 1 point)) * 32 = 32 /\ exists b, pack 8 (ArrayTy 1 point) (GSeq true KStruct [sample_point 1 2]) = Ok b /\ len b = 64) /\
  exists b, Pack 8 points_args points_values = Ok b /\ UnpackValues points_args b <> Ok points_values.
Proof.
  assert (Hv : value_ok (ArrayTy 1 point) (GSeq true KStruct [sample_point 1 2])).
  { eexists. split; [done|]. split; [|done]. constructor; [by apply sample_point_ok|constructor]. }
  assert (Hs : Forall sized [IntTy 64; UintTy 256]) by (by repeat constructor).
  split; [|eexists; split; [by vm_compute|by vm_compute]].
  exact (tuple_array_size_wrong 8 1 _ _ _ _ (Nat.lt_0_succ 7) Hv Hs eq_refl).
Defined.
