(* ===== verification/Abi.v ===== *)
(** * Contract interfaces

    abi.go, method.go and event.go of src/accounts/abi: the methods and events of
    a contract, built from the fields of its JSON description, the data of calls
    and the reason of a reverted call.  The JSON parser is encoding/json: the
    description is the list of fields that it delivers.  Go visits a map in an
    order of its own choice; the operations that do take the order as an
    argument.  Keccak-256 is a parameter. *)

From Stdlib Require Import String.
From stdpp Require Import gmap.
From S2P Require Import Prelude GoText Common AbiType AbiPack AbiUnpack.

(** ** Methods and events *)

Inductive FunctionType : Type := Constructor | Fallback | Receive | Function_.
#[export] Instance FunctionType_eq_dec : EqDecision FunctionType.
Proof. solve_decision. Defined.

Record Method : Type := MkMethod {
  m_Name : list Z;
  m_RawName : list Z;
  m_Type : FunctionType;
  m_StateMutability : list Z;
  m_Constant : bool;
  m_Payable : bool;
  m_Inputs : list Argument;
  m_Outputs : list Argument;
  m_str : list Z;
  m_Sig : list Z;
  m_ID : list Z
}.

Record Event : Type := MkEvent {
  e_Name : list Z;
  e_RawName : list Z;
  e_Anonymous : bool;
  e_Inputs : list Argument;
  e_str : list Z;
  e_Sig : list Z;
  e_ID : list Z
}.

(** The zero value of Method; its type is Constructor. *)
Definition zero_method : Method := MkMethod [] [] Constructor [] false false [] [] [] [] [].

Record ABI : Type := MkABI {
  abi_Constructor : Method;
  Methods : gmap (list Z) Method;
  Events : gmap (list Z) Event;
  abi_Fallback : Method;
  abi_Receive : Method
}.
Definition zero_ABI : ABI := MkABI zero_method ∅ ∅ zero_method zero_method.

(** One entry of a JSON description. *)
Record abi_field : Type := MkField {
  f_Type : list Z;
  f_Name : list Z;
  f_Inputs : list Argument;
  f_Outputs : list Argument;
  f_StateMutability : list Z;
  f_Constant : bool;
  f_Payable : bool;
  f_Anonymous : bool
}.

Definition IsConstant (m : Method) : bool :=
  bool_decide (m_StateMutability m = str "view") || bool_decide (m_StateMutability m = str "pure") || m_Constant m.
Definition IsPayable (m : Method) : bool := bool_decide (m_StateMutability m = str "payable") || m_Payable m.

(** [for idx := 0; ok; idx++]: the first of name0, name1, ... that is not taken. *)
Fixpoint next_name (taken : list Z -> bool) (fuel : nat) (rawName : list Z) (idx : Z) : option (list Z) :=
  match fuel with
  | O => None
  | S f =>
      let name := rawName ++ FormatUint idx 10 in
      if taken name then next_name taken f rawName (idx + 1) else Some name
  end.
Definition overloaded_name {A} (m : gmap (list Z) A) (rawName : list Z) : option (list Z) :=
  let taken name := bool_decide (is_Some (m !! name)) in
  if taken rawName then next_name taken (S (size m)) rawName 0 else Some rawName.
Definition overloadedMethodName (abi : ABI) (rawName : list Z) : option (list Z) := overloaded_name (Methods abi) rawName.
Definition overloadedEventName (abi : ABI) (rawName : list Z) : option (list Z) := overloaded_name (Events abi) rawName.

Definition HasFallback (abi : ABI) : bool := bool_decide (m_Type (abi_Fallback abi) = Fallback).
Definition HasReceive (abi : ABI) : bool := bool_decide (m_Type (abi_Receive abi) = Receive).

(** Inputs without a name are called arg0, arg1, ... *)
Fixpoint name_inputs (i : Z) (inputs : list Argument) : list Argument :=
  match inputs with
  | [] => []
  | a :: inputs =>
      (if bool_decide (Name a = []) then MkArgument (str "arg" ++ FormatUint i 10) (arg_Type a) (arg_text a) (Indexed a) else a)
      :: name_inputs (i + 1) inputs
  end.

Section abi.
  Context (wb : nat) (Keccak256 : list Z -> list Z).

Definition signature (rawName : list Z) (inputs : list Argument) : list Z :=
  rawName ++ str "(" ++ join (str ",") (map arg_text inputs) ++ str ")".

Definition NewMethod (name rawName : list Z) (funType : FunctionType) (mutability : list Z) (isConst isPayable : bool)
    (inputs outputs : list Argument) : Method :=
  let inputNames := map (fun i => arg_text i ++ str " " ++ Name i) inputs in
  let outputNames := map (fun o => arg_text o ++ if 0 <? len (Name o) then str " " ++ Name o else []) outputs in
  let isFunction := bool_decide (funType = Function_) in
  let sig := if isFunction then signature rawName inputs else [] in
  let id := if isFunction then take 4 (Keccak256 sig) else [] in
  let state := if bool_decide (mutability = str "nonpayable") then [] else mutability in
  let state := if bool_decide (state = []) then state else state ++ str " " in
  let identity := match funType with
                  | Function_ => str "function " ++ rawName
                  | Fallback => str "fallback"
                  | Receive => str "receive"
                  | Constructor => str "constructor"
                  end in
  let text := identity ++ str "(" ++ join (str ", ") inputNames ++ str ") " ++ state ++ str "returns(" ++
              join (str ", ") outputNames ++ str ")" in
  MkMethod name rawName funType mutability isConst isPayable inputs outputs text sig id.

Definition NewEvent (name rawName : list Z) (anonymous : bool) (inputs : list Argument) : option Event :=
  let inputs := name_inputs 0 inputs in
  let names := map (fun i => arg_text i ++ (if Indexed i then str " indexed " else str " ") ++ Name i) inputs in
  let text := str "event " ++ rawName ++ str "(" ++ join (str ", ") names ++ str ")" in
  let sig := signature rawName inputs in
  id ← BytesToHash (Keccak256 sig);
  Some (MkEvent name rawName anonymous inputs text sig id).

(** The loop of UnmarshalJSON over the fields. *)
Fixpoint parse_fields (abi : ABI) (fields : list abi_field) : outcome abi_error ABI :=
  match fields with
  | [] => Ok abi
  | f :: fields =>
      if bool_decide (f_Type f = str "constructor") then
        let m := NewMethod [] [] Constructor (f_StateMutability f) (f_Constant f) (f_Payable f) (f_Inputs f) [] in
        parse_fields (MkABI m (Methods abi) (Events abi) (abi_Fallback abi) (abi_Receive abi)) fields
      else if bool_decide (f_Type f = str "function") then
        match overloadedMethodName abi (f_Name f) with
        | None => OutOfFuel
        | Some name =>
            let m := NewMethod name (f_Name f) Function_ (f_StateMutability f) (f_Constant f) (f_Payable f) (f_Inputs f) (f_Outputs f) in
            parse_fields (MkABI (abi_Constructor abi) (<[name := m]> (Methods abi)) (Events abi) (abi_Fallback abi) (abi_Receive abi)) fields
        end
      else if bool_decide (f_Type f = str "fallback") then
        if HasFallback abi then Err errSingleFallback
        else let m := NewMethod [] [] Fallback (f_StateMutability f) (f_Constant f) (f_Payable f) [] [] in
             parse_fields (MkABI (abi_Constructor abi) (Methods abi) (Events abi) m (abi_Receive abi)) fields
      else if bool_decide (f_Type f = str "receive") then
        if HasReceive abi then Err errSingleReceive
        else if negb (bool_decide (f_StateMutability f = str "payable")) then Err errReceiveMutability
        else let m := NewMethod [] [] Receive (f_StateMutability f) (f_Constant f) (f_Payable f) [] [] in
             parse_fields (MkABI (abi_Constructor abi) (Methods abi) (Events abi) (abi_Fallback abi) m) fields
      else if bool_decide (f_Type f = str "event") then
        match overloadedEventName abi (f_Name f) with
        | None => OutOfFuel
        | Some name =>
            let? e := of_option (NewEvent name (f_Name f) (f_Anonymous f) (f_Inputs f)) in
            parse_fields (MkABI (abi_Constructor abi) (Methods abi) (<[name := e]> (Events abi)) (abi_Fallback abi) (abi_Receive abi)) fields
        end
      else Err errFieldType
  end.

(** UnmarshalJSON replaces the methods and events of [abi]. *)
Definition ABI_UnmarshalJSON (abi : ABI) (fields : list abi_field) : outcome abi_error ABI :=
  parse_fields (MkABI (abi_Constructor abi) ∅ ∅ (abi_Fallback abi) (abi_Receive abi)) fields.

(** [JSON] parses into a new ABI. *)
Definition JSON (fields : list abi_field) : outcome abi_error ABI := ABI_UnmarshalJSON zero_ABI fields.

Definition ABI_Pack (abi : ABI) (name : list Z) (args : list goval) : outcome abi_error (list Z) :=
  if bool_decide (name = []) then Pack wb (m_Inputs (abi_Constructor abi)) args
  else match Methods abi !! name with
  | None => Err errMethodNotFound
  | Some method =>
      let? arguments := Pack wb (m_Inputs method) args in
      Ok (m_ID method ++ arguments)
  end.

Definition ABI_UnpackIntoMap (abi : ABI) (v : option (gmap (list Z) goval)) (name data : list Z) :
    outcome abi_error (gmap (list Z) goval) :=
  match Methods abi !! name with
  | Some method =>
      if negb (len data mod 32 =? 0) then Err errFormattedOutput else Args_UnpackIntoMap (m_Outputs method) v data
  | None =>
      match Events abi !! name with
      | Some event => Args_UnpackIntoMap (e_Inputs event) v data
      | None => Err errNotLocated
      end
  end.

(** The methods and events in the order of the iteration. *)
Definition MethodById (order : list (list Z * Method)) (sigdata : list Z) : outcome abi_error Method :=
  if len sigdata <? 4 then Err errShortData
  else match List.find (fun m => bool_decide (m_ID (snd m) = take 4 sigdata)) order with
       | Some m => Ok (snd m)
       | None => Err errNoMethod
       end.
Definition EventByID (order : list (list Z * Event)) (topic : list Z) : outcome abi_error Event :=
  match List.find (fun e => bool_decide (e_ID (snd e) = topic)) order with
  | Some e => Ok (snd e)
  | None => Err errNoEvent
  end.

Definition revertSelector : list Z := take 4 (Keccak256 (str "Error(string)")).

(** Unpack of one string argument into a variable of type string. *)
Definition UnpackRevert (data : list Z) : outcome abi_error (list Z) :=
  if len data <? 4 then Err errInvalidRevert
  else if negb (bool_decide (take 4 data = revertSelector)) then Err errInvalidRevert
  else
    let data := drop 4 data in
    if len data =? 0 then Err errEmptyData
    else
      let? values := UnpackValues [MkArgument [] StringTy (str "string") false] data in
      match values with [GString reason] => Ok reason | _ => Panic end.
End abi.

(** ** Names of overloaded methods *)

Lemma next_name_spec taken fuel raw idx :
  match next_name taken fuel raw idx with
  | Some name => taken name = false
  | None => forall i, 0 <= i < Z.of_nat fuel -> taken (raw ++ FormatUint (idx + i) 10) = true
  end.
Proof.
  revert idx. induction fuel as [|fuel IH]; intros idx; cbn [next_name]; [lia|].
  destruct (taken (raw ++ FormatUint idx 10)) eqn:E; [|done]. specialize (IH (idx + 1)).
  destruct (next_name _ _ _ _); [done|]. intros i Hi. destruct (Z.eq_dec i 0) as [->|]; [by rewrite Z.add_0_r|].
  replace (idx + i) with (idx + 1 + (i - 1)) by lia. apply IH. lia.
Qed.

(** More numbered names than entries of a map are not all taken. *)
Lemma names_outnumber {A} (m : gmap (list Z) A) (raw : list Z) :
  ~ forall i, 0 <= i < Z.of_nat (S (size m)) -> is_Some (m !! (raw ++ FormatUint (0 + i) 10)).
Proof.
  intros H. set (l := map (fun i => raw ++ FormatUint (Z.of_nat i) 10) (seq 0 (S (size m)))).
  assert (Hn : NoDup l).
  { apply NoDup_fmap_2_strong; [|apply NoDup_seq]. intros i j Hi Hj E. apply app_inv_head in E.
    apply FormatUint_inj in E; lia. }
  assert (Hsub : list_to_set l ⊆ dom m).
  { intros x Hx. apply elem_of_list_to_set, list_elem_of_fmap in Hx as (i & -> & Hi). apply elem_of_seq in Hi.
    apply elem_of_dom. apply (H (Z.of_nat i)). lia. }
  apply subseteq_size in Hsub. rewrite size_list_to_set, size_dom in Hsub by done. unfold l in Hsub.
  rewrite length_fmap, length_seq in Hsub. lia.
Qed.

Lemma overloaded_name_fresh {A} (m : gmap (list Z) A) raw : exists name, overloaded_name m raw = Some name /\ m !! name = None.
Proof.
  unfold overloaded_name. case_bool_decide as E; [|exists raw; split; [done|]; by apply eq_None_not_Some].
  pose proof (next_name_spec (fun name => bool_decide (is_Some (m !! name))) (S (size m)) raw 0) as H.
  destruct (next_name _ _ _ _) as [name|].
  - exists name. split; [done|]. apply eq_None_not_Some. by apply bool_decide_eq_false in H.
  - exfalso. apply (names_outnumber m raw). intros i Hi. apply (bool_decide_eq_true_1 _ (H i Hi)).
Qed.

(** The comment of overloadedMethodName expects send2 here. *)
Example overload_numbers_from_zero :
  overloaded_name (<[str "send" := 1]> (<[str "send1" := 2]> ∅)) (str "send") = Some (str "send0").
Proof. by vm_compute. Qed.

(** ** Parsing keeps every method and event *)

Lemma BytesToHash_total b : exists h, BytesToHash b = Some h.
Proof.
  unfold BytesToHash, Hash_SetBytes, set_bytes, HashLength. pose proof (len_nonneg b).
  assert (exists c, (if 32 <? len b then go_from b (len b - 32) else Some b) = Some c /\ len c <= 32) as (c & -> & Hc).
  { destruct (Z.ltb_spec 32 (len b)); [|by exists b]. unfold go_from, go_slice.
    destruct (Z.leb_spec 0 (len b - 32)), (Z.leb_spec (len b - 32) (len b)); try lia. rewrite Z.leb_refl. eexists. split; [done|].
    rewrite len_take, len_drop. lia. }
  unfold go_copy_at. pose proof (len_nonneg c). rewrite len_zeros by lia.
  destruct (Z.leb_spec 0 (32 - len c)), (Z.leb_spec (32 - len c) 32); try lia. by eexists.
Qed.

Definition functions (fields : list abi_field) : list abi_field := List.filter (fun f => bool_decide (f_Type f = str "function")) fields.
Definition events (fields : list abi_field) : list abi_field := List.filter (fun f => bool_decide (f_Type f = str "event")) fields.
Definition method_of (Keccak256 : list Z -> list Z) (f : abi_field) (name : list Z) : Method :=
  NewMethod Keccak256 name (f_Name f) Function_ (f_StateMutability f) (f_Constant f) (f_Payable f) (f_Inputs f) (f_Outputs f).

(** [m] is [m0] with one new entry for each element of [fs], under names that
    are all different. *)
Definition adds {A B} (mk : A -> list Z -> B -> Prop) (m0 m : gmap (list Z) B) (fs : list A) : Prop :=
  exists entries, NoDup (entries.*1) /\ Forall (fun n => m0 !! n = None) (entries.*1) /\ m = list_to_map entries ∪ m0 /\
    Forall2 (fun f nb => mk f (fst nb) (snd nb)) fs entries.

Lemma adds_nil {A B} (mk : A -> list Z -> B -> Prop) m : adds mk m m [].
Proof. exists []. split_and!; [constructor|constructor| |constructor]. simpl. by rewrite (left_id_L ∅ (∪)). Qed.

Lemma adds_cons {A B} (mk : A -> list Z -> B -> Prop) m0 m f name b fs :
  m0 !! name = None -> mk f name b -> adds mk (<[name := b]> m0) m fs -> adds mk m0 m (f :: fs).
Proof.
  intros Hn Hb (es & Hd & Hf & -> & H2). exists ((name, b) :: es). rewrite Forall_forall in Hf.
  assert (Hni : name ∉ es.*1).
  { intros Hi. specialize (Hf name Hi). by rewrite lookup_insert_eq in Hf. }
  split_and!.
  - by constructor.
  - constructor; [done|]. apply Forall_forall. intros n Hi. specialize (Hf n Hi). by apply lookup_insert_None in Hf as [? _].
  - simpl. rewrite <- insert_union_l. symmetry. apply insert_union_r. by apply not_elem_of_list_to_map_1.
  - by constructor.
Qed.

Definition parsed (Keccak256 : list Z -> list Z) (abi0 : ABI) (fields : list abi_field) (o : outcome abi_error ABI) : Prop :=
  match o with
  | Ok abi =>
      adds (fun f name m => m = method_of Keccak256 f name) (Methods abi0) (Methods abi) (functions fields) /\
      adds (fun f name e => NewEvent Keccak256 name (f_Name f) (f_Anonymous f) (f_Inputs f) = Some e)
        (Events abi0) (Events abi) (events fields)
  | Err _ => True
  | _ => False
  end.

(** A field that is no function or event. *)
Lemma parsed_skip K abi0 abi1 f fields o :
  f_Type f <> str "function" -> f_Type f <> str "event" -> Methods abi1 = Methods abi0 -> Events abi1 = Events abi0 ->
  parsed K abi1 fields o -> parsed K abi0 (f :: fields) o.
Proof.
  intros H1 H2 HM HE. unfold parsed, functions, events. cbn [List.filter]. rewrite !bool_decide_eq_false_2 by done.
  by rewrite HM, HE.
Qed.

Lemma parse_fields_parsed K abi0 fields : parsed K abi0 fields (parse_fields K abi0 fields).
Proof.
  revert abi0. induction fields as [|f fields IH]; intros abi0; [split; apply adds_nil|]. cbn [parse_fields].
  case_bool_decide as E1; [by eapply parsed_skip; [rewrite E1..| | |apply IH]|].
  case_bool_decide as E2.
  { unfold overloadedMethodName. destruct (overloaded_name_fresh (Methods abi0) (f_Name f)) as (name & -> & Hn).
    match goal with |- parsed _ _ _ (parse_fields K ?a fields) => specialize (IH a) end. unfold parsed in *.
    destruct (parse_fields _ _ _) as [abi| | |]; try done. destruct IH as [HM HE]. cbn [Methods Events] in HM, HE.
    unfold functions, events. cbn [List.filter]. rewrite (bool_decide_eq_true_2 (f_Type f = str "function")) by done.
    rewrite (bool_decide_eq_false_2 (f_Type f = str "event")) by (by rewrite E2). split; [|exact HE].
    by eapply adds_cons. }
  case_bool_decide as E3; [destruct (HasFallback abi0); [done|by eapply parsed_skip; [rewrite E3..| | |apply IH]]|].
  case_bool_decide as E4.
  { destruct (HasReceive abi0); [done|]. destruct (negb _); [done|]. by eapply parsed_skip; [rewrite E4..| | |apply IH]. }
  case_bool_decide as E5; [|done].
  unfold overloadedEventName. destruct (overloaded_name_fresh (Events abi0) (f_Name f)) as (name & -> & Hn).
  destruct (NewEvent K name _ _ _) as [e|] eqn:Ee.
  2: { unfold NewEvent in Ee. by destruct (BytesToHash_total (K (signature (f_Name f) (name_inputs 0 (f_Inputs f))))) as [h Eh];
         rewrite Eh in Ee. }
  cbn [of_option obind]. match goal with |- parsed _ _ _ (parse_fields K ?a fields) => specialize (IH a) end. unfold parsed in *.
  destruct (parse_fields _ _ _) as [abi| | |]; try done. destruct IH as [HM HE]. cbn [Methods Events] in HM, HE.
  unfold functions, events. cbn [List.filter]. rewrite (bool_decide_eq_true_2 (f_Type f = str "event")) by done.
  rewrite (bool_decide_eq_false_2 (f_Type f = str "function")) by done. split; [exact HM|].
  by eapply adds_cons.
Qed.

(** No method or event is lost.  Reading a contract description returns an
    error, or an interface whose methods are exactly those of the function
    entries, one each under names that are all different, and whose events are
    those of the event entries; the search for a free name always ends. *)
Theorem JSON_keeps_methods_and_events Keccak256 fields :
  match JSON Keccak256 fields with
  | Ok abi =>
      (exists ms, NoDup (ms.*1) /\ Methods abi = list_to_map ms /\
         Forall2 (fun f nm => snd nm = method_of Keccak256 f (fst nm)) (functions fields) ms) /\
      (exists es, NoDup (es.*1) /\ Events abi = list_to_map es /\
         Forall2 (fun f ne => NewEvent Keccak256 (fst ne) (f_Name f) (f_Anonymous f) (f_Inputs f) = Some (snd ne)) (events fields) es)
  | Err _ => True
  | _ => False
  end.
Proof.
  unfold JSON, ABI_UnmarshalJSON. match goal with |- context [parse_fields _ ?a _] => pose proof (parse_fields_parsed Keccak256 a fields) as H end.
  unfold parsed in H. destruct (parse_fields _ _ _) as [abi| | |]; try done. cbn [Methods Events] in H.
  destruct H as [(ms & Hd & _ & Hm & HF) (es & Hd' & _ & He & HF')]. rewrite (right_id_L ∅ (∪)) in Hm. rewrite (right_id_L ∅ (∪)) in He.
  split; [by exists ms|by exists es].
Qed.

(** ** Calls *)

Lemma find_some_first {A} (p : A -> bool) l x : x ∈ l -> p x = true -> exists y, List.find p l = Some y /\ y ∈ l /\ p y = true.
Proof.
  intros Hx Hp. destruct (List.find p l) as [y|] eqn:E.
  - apply find_some in E as [Hy Hpy]. exists y. split_and!; [done|by apply list_elem_of_In|done].
  - exfalso. apply list_elem_of_In in Hx. by rewrite (find_none _ _ E x Hx) in Hp.
Qed.

(** Call data can be taken apart again.  For a method with a four-byte id and
    arguments of its input types, Pack returns the id and the encoding of the
    arguments; whatever the order of the map, MethodById finds a method with
    that id, the method itself when ids are different; and unpacking the rest by
    its inputs returns the arguments. *)
Theorem call_data_roundtrip wb abi name m args order :
  (0 < wb)%nat -> name <> [] -> Methods abi !! name = Some m -> length (m_ID m) = 4%nat ->
  Forall (fun a => Indexed a = false) (m_Inputs m) ->
  Forall2 value_ok (map arg_Type (m_Inputs m)) args -> Forall sized (map arg_Type (m_Inputs m)) ->
  len (enc_args (map arg_Type (m_Inputs m)) args) < 2 ^ 63 ->
  order ≡ₚ map_to_list (Methods abi) ->
  exists data, ABI_Pack wb abi name args = Ok data /\ take 4 data = m_ID m /\
    UnpackValues (m_Inputs m) (drop 4 data) = Ok args /\
    exists m', MethodById order data = Ok m' /\ m_ID m' = m_ID m /\
      ((forall n1 n2 m1 m2, Methods abi !! n1 = Some m1 -> Methods abi !! n2 = Some m2 -> m_ID m1 = m_ID m2 -> n1 = n2) -> m' = m).
Proof.
  intros Hw Hn Hm Hid Hi Hv Hs Hl Ho.
  destruct (Pack_Unpack wb (m_Inputs m) args [] Hw Hi Hv Hs) as [HP HU]; [by rewrite app_nil_r|]. rewrite app_nil_r in HU.
  exists (m_ID m ++ enc_args (map arg_Type (m_Inputs m)) args).
  set (X := enc_args (map arg_Type (m_Inputs m)) args) in *.
  assert (take 4 (m_ID m ++ X) = m_ID m /\ drop 4 (m_ID m ++ X) = X) as [E4 E5] by (by rewrite <- Hid, take_app_length, drop_app_length).
  unfold ABI_Pack. rewrite bool_decide_eq_false_2, Hm, HP by done. split; [done|]. rewrite E4, E5.
  split; [done|]. split; [done|]. unfold MethodById. rewrite len_app, E4. pose proof (len_nonneg X).
  destruct (Z.ltb_spec (len (m_ID m) + len X) 4); [unfold len in *; lia|].
  destruct (find_some_first (fun x => bool_decide (m_ID (snd x) = m_ID m)) order (name, m)) as ((n' & m') & E & Hin & Hp).
  { rewrite Ho. by apply elem_of_map_to_list. }
  { by apply bool_decide_eq_true_2. }
  rewrite E. exists m'. split; [done|]. apply bool_decide_eq_true in Hp. split; [done|]. intros Hu.
  rewrite Ho in Hin. apply elem_of_map_to_list in Hin. assert (n' = name) by (by eapply Hu). simpl in *. congruence.
Qed.

(** A contract with two methods of the same name and an event. *)
Definition sample_hash (b : list Z) : list Z := repeat (len b) 32.
Definition sample_fields : list abi_field :=
  [MkField (str "function") (str "set") sample_args [] [] false false false;
   MkField (str "function") (str "set") [MkArgument (str "v") StringTy (str "string") false] [] [] false false false;
   MkField (str "event") (str "Done") [MkArgument [] BoolTy (str "bool") true] [] [] false false false].
Definition sample_abi : ABI :=
  match JSON sample_hash sample_fields with Ok abi => abi | _ => zero_ABI end.

Lemma call_data_roundtrip_witness :
  exists data, ABI_Pack 8 sample_abi (str "set") sample_values = Ok data /\ take 4 data = [8; 8; 8; 8] /\
    UnpackValues sample_args (drop 4 data) = Ok sample_values.
Proof.
  destruct (Methods sample_abi !! str "set") as [m|] eqn:Hm; [|by vm_compute in Hm].
  assert (Em : m = method_of sample_hash (MkField (str "function") (str "set") sample_args [] [] false false false) (str "set"))
    by (assert (Methods sample_abi !! str "set" = Some (method_of sample_hash
          (MkField (str "function") (str "set") sample_args [] [] false false false) (str "set"))) by (by vm_compute); congruence).
  assert (Hi : Forall (fun a => Indexed a = false) (m_Inputs m)) by (rewrite Em; by repeat constructor).
  assert (Hs : Forall sized (map arg_Type (m_Inputs m))) by (rewrite Em; by repeat constructor).
  assert (Hv : Forall2 value_ok (map arg_Type (m_Inputs m)) sample_values) by (rewrite Em; exact sample_values_ok).
  assert (Hl : len (enc_args (map arg_Type (m_Inputs m)) sample_values) < 2 ^ 63) by (rewrite Em; by vm_compute).
  assert (Hid : length (m_ID m) = 4%nat) by (rewrite Em; by vm_compute).
  assert (Hn : str "set" <> []) by done.
  destruct (call_data_roundtrip 8 sample_abi (str "set") m sample_values _ (Nat.lt_0_succ 7) Hn Hm Hid Hi Hv Hs Hl (reflexivity _))
    as (data & H1 & H2 & H3 & _).
  exists data. rewrite Em in H2, H3. split; [exact H1|]. split; [rewrite H2; by vm_compute|exact H3].
Defined.

Example sample_names :
  (fst <$> map_to_list (Methods sample_abi)) ≡ₚ [str "set"; str "set0"] /\
  (e_Inputs <$> Events sample_abi !! str "Done") = Some [MkArgument (str "arg0") BoolTy (str "bool") true].
Proof. split; [by vm_compute|by vm_compute]. Qed.

(** ** Reverted calls *)

(** The reason of a reverted call.  UnpackRevert on the selector of
    Error(string) followed by the encoding of a string, and anything after it,
    returns the string; on every other byte string it returns a string or an
    error, an error unless it starts with the selector. *)
Theorem revert_reason Keccak256 reason rest data :
  length (revertSelector Keccak256) = 4%nat -> len (enc_args [StringTy] [GString reason] ++ rest) < 2 ^ 63 -> bytes_ok data ->
  UnpackRevert Keccak256 (revertSelector Keccak256 ++ enc_args [StringTy] [GString reason] ++ rest) = Ok reason /\
  match UnpackRevert Keccak256 data with
  | Ok _ => take 4 data = revertSelector Keccak256
  | Err _ => True
  | _ => False
  end.
Proof.
  intros Hk Hl Hb. set (a := [MkArgument [] StringTy (str "string") false]). split.
  - assert (HU : UnpackValues a (enc_args [StringTy] [GString reason] ++ rest) = Ok [GString reason]).
    { apply (Pack_Unpack 8 a [GString reason] rest); [lia|by repeat constructor| |by repeat constructor|done].
      constructor; [by eexists|constructor]. }
    set (X := enc_args [StringTy] [GString reason] ++ rest) in *.
    assert (take 4 (revertSelector Keccak256 ++ X) = revertSelector Keccak256 /\ drop 4 (revertSelector Keccak256 ++ X) = X)
      as [E4 E5] by (by rewrite <- Hk, take_app_length, drop_app_length).
    unfold UnpackRevert. fold a. rewrite E4, E5, bool_decide_eq_true_2, len_app by done. pose proof (len_nonneg X).
    destruct (Z.ltb_spec (len (revertSelector Keccak256) + len X) 4); [unfold len in *; lia|]. cbn [negb].
    destruct (Z.eqb_spec (len X) 0); [|by rewrite HU].
    exfalso. unfold X, enc_args in e. rewrite len_app in e. pose proof (len_nonneg rest). unfold enc_items in e. rewrite len_app, heads_len in e.
    match type of e with context [len (tails ?l)] => pose proof (len_nonneg (tails l)) end.
    assert (Hs : sum (map head_len (zip_with (fun t v => (isDynamicType t, enc t v)) [StringTy] [GString reason])) = 32) by done.
    rewrite Hs in e. lia.
  - unfold UnpackRevert. destruct (_ <? _); [done|]. case_bool_decide as E; [|done]. cbn [negb].
    destruct (_ =? 0); [done|]. assert (Hs : Forall safe (map arg_Type a)) by (by repeat constructor).
    pose proof (UnpackValues_yields a (drop 4 data) Hs (bytes_ok_drop _ _ Hb)) as H. fold a. unfold yields in H.
    destruct (UnpackValues a _) as [vs| | |]; try done. cbn [obind]. cbn in H.
    inversion H as [|? v ? vs' Hv HF]; subst. destruct Hv as [s ->]. by inversion HF.
Qed.

Lemma revert_reason_witness :
  UnpackRevert sample_hash (revertSelector sample_hash ++ enc_args [StringTy] [GString (str "no")] ++ [9]) = Ok (str "no").
Proof.
  assert (Hl : len (enc_args [StringTy] [GString (str "no")] ++ [9]) < 2 ^ 63) by (by vm_compute).
  assert (Hb : bytes_ok []) by constructor.
  exact (proj1 (revert_reason sample_hash (str "no") [9] [] eq_refl Hl Hb)).
Defined.
