(* ===== verification/Bind.v ===== *)
(** * Bound contracts

    base.go, topics.go, auth.go and util.go of src/accounts/abi/bind: calls and
    transactions of a contract, the topics of event filters and the logs of
    events.  The node behind the interfaces of backend.go is the record
    [backend]; a transaction that is sent is part of the result.  The UUIDs that
    uuid.NewUUID returns one after the other and MD5 are parameters.  Results are
    given as the values that were unpacked; assigning them to Go variables, the
    contexts and the waiting are left out. *)

From Stdlib Require Import String.
From stdpp Require Import gmap.
From S2P Require Import Prelude GoText Hexutil Math Common Crypto AbiType AbiPack AbiUnpack Abi.
From S2P Require Import RlpSpec RlpEncode RlpTypes RlpWriter RlpRoundtrip Receipt Transaction.

Inductive bind_error : Type :=
| errAbi (e : abi_error)
| errBackend (e : nat)
| errGetBlockNumber (e : nat)
| errSigning (e : tx_error)
| errNoSigner
| errNotAuthorized
| ErrNoCode
| ErrNoCodeAfterDeploy
| errDeployTimeout
| errNotCreation
| errZeroAddress
| errUnsupportedTopic
| errTopicCount
| errNonIndexed
| errTupleTopic
| errFunctionTopic
| errNoValues
| errCancelled.

Definition abi_result {A} (o : outcome abi_error A) : outcome bind_error A :=
  match o with Ok a => Ok a | Err e => Err (errAbi e) | Panic => Panic | OutOfFuel => OutOfFuel end.
Definition tx_result {A} (o : outcome tx_error A) : outcome bind_error A :=
  match o with Ok a => Ok a | Err e => Err (errSigning e) | Panic => Panic | OutOfFuel => OutOfFuel end.

(** ** The node *)

Record CallMsg : Type := MkCallMsg { msg_GroupId : Z; msg_From : list Z; msg_To : list Z; msg_Data : list Z }.

Record backend : Type := MkBackend {
  BlockNumber : nat + Z;
  SendTransaction : Transaction -> option nat;
  (** The answer to the query for a receipt in a round, nil being [None]. *)
  TransactionReceipt : nat -> list Z -> nat + option Receipt;
  CallContract : CallMsg -> nat + list Z;
  CodeAt : list Z -> nat + list Z
}.

(** ** Topics *)

(** A filter rule, by its Go type: byte arrays that are no hash or address are
    [RArray]. *)
Inductive rule : Type :=
| RHash (b : list Z)
| RAddress (b : list Z)
| RBig (z : option Z)
| RBool (b : bool)
| RInt (size : Z) (z : Z)
| RUint (size : Z) (z : Z)
| RString (s : list Z)
| RBytes (b : list Z)
| RArray (b : list Z)
| ROther.

(** The loop of genIntType: the low bytes of the number. *)
Fixpoint put_low (rule : Z) (topic : list Z) (i : nat) : list Z :=
  match i with
  | O => topic
  | S i => <[(31 - i)%nat := u8 (Z.shiftr rule (Z.of_nat i * 8))]> (put_low rule topic i)
  end.
Definition genIntType (rule : Z) (size : nat) : list Z := put_low rule (if rule <? 0 then replicate 32 255 else zeros 32) size.

Section topics.
  Context (Keccak256 : list Z -> list Z).

Definition copy_right (blob : list Z) : outcome bind_error (list Z) := of_option (go_copy_at (zeros 32) (32 - len blob) blob).

Definition makeTopic (r : rule) : outcome bind_error (list Z) :=
  match r with
  | RHash b => Ok (go_copy (zeros 32) b)
  | RAddress b => of_option (go_copy_at (zeros 32) (32 - 20) b)
  | RBig None => Panic
  | RBig (Some z) => copy_right (big_bytes z)
  | RBool b => Ok (if b then zeros 31 ++ [1] else zeros 32)
  | RInt size z => Ok (go_copy (zeros 32) (genIntType z (Z.to_nat (size / 8))))
  | RUint _ z => copy_right (big_bytes z)
  | RString s | RBytes s => Ok (go_copy (zeros 32) (Keccak256 s))
  | RArray b => if len b <=? 32 then Ok (b ++ drop (length b) (zeros 32)) else Panic
  | ROther => Err errUnsupportedTopic
  end.

Fixpoint make_filter (filter : list rule) : outcome bind_error (list (list Z)) :=
  match filter with
  | [] => Ok []
  | r :: filter => let? t := makeTopic r in let? ts := make_filter filter in Ok (t :: ts)
  end.
Fixpoint makeTopics (query : list (list rule)) : outcome bind_error (list (list (list Z))) :=
  match query with
  | [] => Ok []
  | filter :: query => let? t := make_filter filter in let? ts := makeTopics query in Ok (t :: ts)
  end.

Definition parse_topic (arg : Argument) (topic : list Z) : outcome bind_error goval :=
  match arg_Type arg with
  | TupleTy _ _ _ => Err errTupleTopic
  | StringTy | BytesTy | SliceTy _ | ArrayTy _ _ => Ok (GBytes true topic)
  | FunctionTy =>
      match go_slice topic 0 8, go_slice topic 8 32 with
      | Some garbage, Some f => if negb (be_val garbage =? 0) then Err errFunctionTopic else Ok (GBytes true f)
      | _, _ => Panic
      end
  | t => abi_result (ToGoType t 0 topic)
  end.

(** parseTopicWithSetter with the setter of parseTopicsIntoMap. *)
Fixpoint parse_topics (out : gmap (list Z) goval) (fields : list Argument) (topics : list (list Z)) :
    outcome bind_error (gmap (list Z) goval) :=
  match fields, topics with
  | arg :: fields, topic :: topics =>
      if negb (Indexed arg) then Err errNonIndexed
      else let? v := parse_topic arg topic in parse_topics (<[Name arg := v]> out) fields topics
  | _, _ => Ok out
  end.
Definition parseTopicsIntoMap (out : gmap (list Z) goval) (fields : list Argument) (topics : list (list Z)) :
    outcome bind_error (gmap (list Z) goval) :=
  if negb (len fields =? len topics) then Err errTopicCount else parse_topics out fields topics.

(** ** Logs *)

(** An event that is not in the interface has no inputs and the zero id. *)
Definition event_inputs (abi : ABI) (name : list Z) : list Argument :=
  match Events abi !! name with Some e => e_Inputs e | None => [] end.
Definition event_id (abi : ABI) (name : list Z) : list Z :=
  match Events abi !! name with Some e => e_ID e | None => zeros 32 end.

Definition UnpackLogIntoMap (abi : ABI) (out : gmap (list Z) goval) (event : list Z) (log : Log) :
    outcome bind_error (gmap (list Z) goval) :=
  let? out := if 0 <? len (log_Data log) then abi_result (ABI_UnpackIntoMap abi (Some out) event (log_Data log)) else Ok out in
  let indexed := List.filter Indexed (event_inputs abi event) in
  let? topics := of_option (go_from (log_Topics log) 1) in
  parseTopicsIntoMap out indexed topics.

(** The topics of the query of FilterLogs and WatchLogs. *)
Definition filter_topics (abi : ABI) (name : list Z) (query : list (list rule)) : outcome bind_error (list (list (list Z))) :=
  makeTopics ([RHash (event_id abi name)] :: query).
End topics.

(** ** Transactions *)

Definition SignerFn : Type := Signer -> list Z -> Transaction -> outcome bind_error Transaction.

Record TransactOpts : Type := MkTransactOpts {
  To_From : list Z;
  To_RandomId : Z;
  To_Signer : option SignerFn;
  To_Value : option Z;
  To_GasPrice : option Z;
  To_GasLimit : Z;
  To_ChainId : Z;
  To_GroupId : Z;
  To_BlockLimit : Z
}.
Definition set_limits (opts : TransactOpts) (blockLimit randomId : Z) : TransactOpts :=
  MkTransactOpts (To_From opts) randomId (To_Signer opts) (To_Value opts) (To_GasPrice opts) (To_GasLimit opts) (To_ChainId opts)
    (To_GroupId opts) blockLimit.

(** A result with the options after the call and the transactions sent. *)
Record sent (A : Type) : Type := MkSent { s_opts : TransactOpts; s_txs : list Transaction; s_result : outcome bind_error A }.
Arguments MkSent {A} _ _ _.
Arguments s_opts {A} _.
Arguments s_txs {A} _.
Arguments s_result {A} _.

Section transact.
  Context (wb : nat) `{Secp256k1} (Keccak256 : list Z -> list Z).
  (** The encoding buffer, the hex digits of a big.Word, MD5, the UUIDs. *)
  Context (eb : encbuf) (wordNibbles : nat) (md5 : list Z -> list Z) (NewUUID : nat -> list Z).

(** NewKeyedTransactor: the options and the signer function. *)
Definition keyed_signer (key : PrivateKey) (keyAddr : list Z) : SignerFn := fun signer address tx =>
  if negb (bool_decide (address = keyAddr)) then Err errNotAuthorized
  else match Signer_Hash Keccak256 eb signer (data tx) with
       | None => Panic
       | Some h =>
           match crypto_Sign wb h key with
           | inl e => Err (errSigning (errCrypto e))
           | inr signature => of_option (WithSignature signer tx signature)
           end
       end.
Definition NewKeyedTransactor (key : PrivateKey) (chainId groupId : Z) : option TransactOpts :=
  keyAddr ← PubkeyToAddress Keccak256 (key_pub key);
  Some (MkTransactOpts keyAddr 0 (Some (keyed_signer key keyAddr)) None None 0 chainId groupId 0).

(** [for nonce == nil]: the first UUID, from number [k] on, whose hash DecodeBig
    accepts as a number. *)
Definition uuid_number (k : nat) : outcome bind_error (option Z) :=
  match EncodeToBytes no_encoders eb (Some (TSlice (TUint 8), VBytes (NewUUID k))) with
  | Ok b =>
      match go_slice b 0 8 with
      | None => Panic
      | Some b8 =>
          match DecodeBig wordNibbles (GoText.str "0x" ++ hex_Encode (md5 b8)) with
          | inr n => Ok (Some n)
          | inl _ => Ok None
          end
      end
  | _ => Panic
  end.
Fixpoint next_nonce (fuel k : nat) : outcome bind_error Z :=
  match fuel with
  | O => OutOfFuel
  | S fuel =>
      let? n := uuid_number k in
      match n with Some n => Ok n | None => next_nonce fuel (S k) end
  end.

(** The block limit and the random id that both kinds of transactions set. *)
Definition limits (b : backend) (fuel : nat) (opts : TransactOpts) : TransactOpts * outcome bind_error unit :=
  match BlockNumber b with
  | inl e => (opts, Err (errGetBlockNumber e))
  | inr lmt =>
      let limit := u64 (u64 (Z.abs lmt) + 200) in
      match next_nonce fuel 0 with
      | Ok nonce => (set_limits opts limit (u64 nonce), Ok tt)
      | Err e => (set_limits opts limit (To_RandomId opts), Err e)
      | Panic => (set_limits opts limit (To_RandomId opts), Panic)
      | OutOfFuel => (set_limits opts limit (To_RandomId opts), OutOfFuel)
      end
  end.

(** Signing with the Homestead signer, and sending. *)
Definition sign_and_send (b : backend) (opts : TransactOpts) (sign : SignerFn) (rawTx : Transaction) : sent Transaction :=
  match sign HomesteadSigner (To_From opts) rawTx with
  | Ok signedTx =>
      match SendTransaction b signedTx with
      | Some e => MkSent opts [signedTx] (Err (errBackend e))
      | None => MkSent opts [signedTx] (Ok signedTx)
      end
  | Err e => MkSent opts [] (Err e)
  | Panic => MkSent opts [] Panic
  | OutOfFuel => MkSent opts [] OutOfFuel
  end.

Definition transact (b : backend) (address : list Z) (fuel : nat) (opts : TransactOpts) (input : list Z) : sent Transaction :=
  let value := match To_Value opts with None => Some 0 | v => v end in
  match limits b fuel opts with
  | (opts, Ok _) =>
      let rawTx := NewTransaction (To_RandomId opts) (To_BlockLimit opts) address value (To_GasLimit opts) (To_GasPrice opts) input
                     (To_ChainId opts) (To_GroupId opts) [] in
      match To_Signer opts with
      | None => MkSent opts [] (Err errNoSigner)
      | Some sign => sign_and_send b opts sign rawTx
      end
  | (opts, Err e) => MkSent opts [] (Err e)
  | (opts, Panic) => MkSent opts [] Panic
  | (opts, OutOfFuel) => MkSent opts [] OutOfFuel
  end.

Definition Transact (b : backend) (abi : ABI) (address : list Z) (fuel : nat) (opts : TransactOpts) (method : list Z)
    (params : list goval) : sent Transaction :=
  match abi_result (ABI_Pack wb abi method params) with
  | Ok input => transact b address fuel opts input
  | Err e => MkSent opts [] (Err e)
  | Panic => MkSent opts [] Panic
  | OutOfFuel => MkSent opts [] OutOfFuel
  end.
Definition RawTransact (b : backend) (address : list Z) (fuel : nat) (opts : TransactOpts) (calldata : list Z) : sent Transaction :=
  transact b address fuel opts calldata.

(** The ten rounds of waiting for the receipt of a deployment. *)
Fixpoint await_receipt (b : backend) (hash : list Z) (round rounds : nat) : outcome bind_error Receipt :=
  match rounds with
  | O => Err errDeployTimeout
  | S rounds =>
      match TransactionReceipt b round hash with
      | inl e => Err (errBackend e)
      | inr None => await_receipt b hash (S round) rounds
      | inr (Some receipt) => Ok receipt
      end
  end.

(** The address of the new contract and the transaction.  Calling a nil signer
    panics. *)
Definition DeployContract (b : backend) (abi : ABI) (bytecode : list Z) (fuel : nat) (opts : TransactOpts) (params : list goval) :
    sent (list Z * Transaction) :=
  match abi_result (ABI_Pack wb abi [] params) with
  | Ok input =>
      match limits b fuel opts with
      | (opts, Ok _) =>
          let rawTx := NewContractCreation (To_RandomId opts) (To_BlockLimit opts) (To_Value opts) (To_GasLimit opts) (To_GasPrice opts)
                         (bytecode ++ input) (To_ChainId opts) (To_GroupId opts) [] in
          match To_Signer opts with
          | None => MkSent opts [] Panic
          | Some sign =>
              let s := sign_and_send b opts sign rawTx in
              MkSent opts (s_txs s)
                (let? signedTx := s_result s in
                 let? (hash, signedTx) := of_option (Transaction_Hash Keccak256 eb signedTx) in
                 let? receipt := await_receipt b hash 0 10 in
                 Ok (rc_ContractAddress receipt, signedTx))
          end
      | (opts, Err e) => MkSent opts [] (Err e)
      | (opts, Panic) => MkSent opts [] Panic
      | (opts, OutOfFuel) => MkSent opts [] OutOfFuel
      end
  | Err e => MkSent opts [] (Err e)
  | Panic => MkSent opts [] Panic
  | OutOfFuel => MkSent opts [] OutOfFuel
  end.

(** ** Calls *)

(** ABI.Unpack up to the assignment. *)
Definition Unpack_method (abi : ABI) (name output : list Z) : outcome bind_error (list goval) :=
  let unpack arguments :=
    if len output =? 0 then (if negb (len arguments =? 0) then Err (errAbi errEmptyData) else Ok [])
    else let? values := abi_result (UnpackValues arguments output) in
         if len values =? 0 then Err errNoValues else Ok values in
  match Abi.Methods abi !! name with
  | Some method => if negb (len output mod 32 =? 0) then Err (errAbi errFormattedOutput) else unpack (m_Outputs method)
  | None =>
      match Events abi !! name with
      | Some event => unpack (e_Inputs event)
      | None => Err (errAbi errNotLocated)
      end
  end.

Definition Call (b : backend) (abi : ABI) (address from : list Z) (groupId : Z) (method : list Z) (params : list goval) :
    outcome bind_error (list goval) :=
  let? input := abi_result (ABI_Pack wb abi method params) in
  match CallContract b (MkCallMsg groupId from address input) with
  | inl e => Err (errBackend e)
  | inr output =>
      let? _ := if len output =? 0 then
                  match CodeAt b address with
                  | inl e => Err (errBackend e)
                  | inr code => if len code =? 0 then Err ErrNoCode else Ok tt
                  end
                else Ok tt in
      Unpack_method abi method output
  end.

(** ** Waiting *)

(** WaitMined: the ticks until the context is done. *)
Fixpoint WaitMined (b : backend) (hash : list Z) (round ticks : nat) : outcome bind_error Receipt :=
  match TransactionReceipt b round hash with
  | inr (Some receipt) => Ok receipt
  | _ => match ticks with O => Err errCancelled | S ticks => WaitMined b hash (S round) ticks end
  end.

Definition WaitDeployed (b : backend) (tx : Transaction) (ticks : nat) : outcome bind_error (list Z * option bind_error) :=
  match Transaction_To tx with
  | Some _ => Err errNotCreation
  | None =>
      let? (hash, tx) := of_option (Transaction_Hash Keccak256 eb tx) in
      let? receipt := WaitMined b hash 0 ticks in
      if bool_decide (rc_ContractAddress receipt = zeros 20) then Err errZeroAddress
      else Ok (rc_ContractAddress receipt,
               match CodeAt b (rc_ContractAddress receipt) with
               | inl e => Some (errBackend e)
               | inr code => if len code =? 0 then Some ErrNoCodeAfterDeploy else None
               end)
  end.
End transact.

(** ** Integers as topics *)

Lemma be_bytes_mod n m z : (n <= m)%nat -> be_bytes n (z mod 256 ^ Z.of_nat m) = be_bytes n z.
Proof.
  intros Hn. revert Hn. induction n as [|n IH]; intros Hn; [done|]. rewrite !be_bytes_cons, IH by lia. f_equal.
  replace (Z.of_nat m) with (Z.of_nat n + (1 + Z.of_nat (m - n - 1))) by lia. rewrite !Z.pow_add_r by lia.
  rewrite Z.rem_mul_r by lia. rewrite (Z.mul_comm (256 ^ Z.of_nat n)), Z.div_add by lia.
  rewrite (Z.div_small (z mod 256 ^ Z.of_nat n)) by (apply Z.mod_pos_bound; lia). rewrite Z.add_0_l.
  change (256 ^ 1) with 256. rewrite Z.rem_mul_r by lia. rewrite (Z.mul_comm 256), Z.mod_add by lia. apply Z.mod_mod. lia.
Qed.

(** The byte that extends the sign. *)
Definition sign_byte (z : Z) : Z := if z <? 0 then 255 else 0.

Lemma be_bytes_sign k n z :
  - 256 ^ Z.of_nat n <= z < 256 ^ Z.of_nat n -> be_bytes (k + n) z = replicate k (sign_byte z) ++ be_bytes n z.
Proof.
  intros Hz. induction k as [|k IH]; [done|]. cbn [Nat.add]. rewrite be_bytes_cons, IH. cbn [replicate app]. f_equal.
  assert (256 ^ Z.of_nat n <= 256 ^ Z.of_nat (k + n)) by (apply Z.pow_le_mono_r; lia). unfold sign_byte.
  destruct (Z.ltb_spec z 0).
  - replace (z / 256 ^ Z.of_nat (k + n)) with (-1); [done|]. apply (Z.div_unique z _ (-1) (z + 256 ^ Z.of_nat (k + n))); lia.
  - by rewrite Z.div_small by lia.
Qed.

Lemma word_sign n z :
  (n <= 32)%nat -> - 256 ^ Z.of_nat n <= z < 256 ^ Z.of_nat n -> word z = replicate (32 - n) (sign_byte z) ++ be_bytes n z.
Proof.
  intros Hn Hz. unfold word. change (2 ^ 256) with (256 ^ Z.of_nat 32). rewrite be_bytes_mod by done.
  replace 32%nat with (32 - n + n)%nat at 1 by lia. by apply be_bytes_sign.
Qed.

Lemma put_low_spec z c n : (n <= 32)%nat -> put_low z (replicate 32 c) n = replicate (32 - n) c ++ be_bytes n z.
Proof.
  induction n as [|n IH]; intros Hn; [done|]. cbn [put_low]. rewrite IH by lia. rewrite be_bytes_cons.
  replace (32 - n)%nat with (S (32 - S n)) by lia. rewrite replicate_S_end, <- app_assoc.
  rewrite insert_app_r_alt by (rewrite length_replicate; lia). rewrite length_replicate. replace (31 - n - (32 - S n))%nat with 0%nat by lia.
  cbn [app]. f_equal. change (<[0%nat:=u8 (Z.shiftr z (Z.of_nat n * 8))]> (c :: be_bytes n z)) with (u8 (Z.shiftr z (Z.of_nat n * 8)) :: be_bytes n z).
  f_equal. unfold u8. rewrite Z.shiftr_div_pow2 by lia. change (2 ^ 8) with 256. do 2 f_equal.
  rewrite Z.mul_comm, Z.pow_mul_r by lia. done.
Qed.

Lemma genIntType_word z n : (n <= 32)%nat -> - 256 ^ Z.of_nat n <= z < 256 ^ Z.of_nat n -> genIntType z n = word z.
Proof.
  intros Hn Hz. rewrite (word_sign n) by done. unfold genIntType, sign_byte. change (zeros 32) with (replicate 32 0).
  destruct (z <? 0); by apply put_low_spec.
Qed.

Lemma go_copy_right b : len b <= 32 -> go_copy_at (zeros 32) (32 - len b) b = Some (zeros (32 - len b) ++ b).
Proof.
  intros Hb. pose proof (len_nonneg b). unfold go_copy_at. rewrite len_zeros by lia.
  destruct (Z.leb_spec 0 (32 - len b)), (Z.leb_spec (32 - len b) 32); try lia. cbn [andb]. f_equal.
  unfold zeros. rewrite take_replicate, drop_replicate. f_equal; [f_equal; lia|].
  unfold go_copy. rewrite length_replicate, drop_replicate, take_ge by (unfold len in *; lia).
  replace (_ - _)%nat with 0%nat by (unfold len in *; lia). by rewrite app_nil_r.
Qed.

Lemma copy_right_word z : 0 <= z < 2 ^ 256 -> copy_right (big_bytes z) = Ok (word z).
Proof.
  intros Hz. pose proof (big_bytes_len_le z 32 Hz) as Hl. unfold copy_right. rewrite go_copy_right by lia. cbn [of_option]. f_equal.
  assert (Hb : be_val (big_bytes z) = z) by (apply be_val_big_bytes; lia). pose proof (be_val_bound _ (big_bytes_ok z)) as B. rewrite Hb in B.
  pose proof (be_bytes_be_val _ (big_bytes_ok z)) as E. rewrite Hb in E. rewrite <- E at 2.
  unfold word. rewrite Z.mod_small by lia. unfold zeros, len in *.
  rewrite <- be_bytes_pad by done. f_equal. lia.
Qed.

Lemma go_copy_zeros b : length b = 32%nat -> go_copy (zeros 32) b = b.
Proof. intros Hb. unfold go_copy, zeros. rewrite length_replicate, take_ge, drop_ge by (rewrite ?length_replicate; lia). apply app_nil_r. Qed.

Lemma RArray_topic b : len b <= 32 -> b ++ drop (length b) (zeros 32) = pad_right b 32.
Proof. intros Hb. unfold pad_right, zeros. rewrite drop_replicate. do 2 f_equal. unfold len. lia. Qed.

(** ** Rules and types *)

(** The rule for a value of a type whose values are topics themselves; big
    integers are not negative. *)
Definition rule_for (r : rule) (t : Type_) (v : goval) : Prop :=
  match r with
  | RAddress b => t = AddressTy /\ v = GBytes true b
  | RBig (Some z) => (exists n, t = IntTy n \/ t = UintTy n) /\ v = GBig (Some z) /\ 0 <= z
  | RBool b => t = BoolTy /\ v = GBool b
  | RInt n z => t = IntTy n /\ v = GInt (KInt n) z
  | RUint n z => t = UintTy n /\ v = GInt (KUint n) z
  | RArray b => t = FixedBytesTy (len b) /\ v = GBytes true b
  | _ => False
  end.

Lemma GBytes_inj a b b' : GBytes a b = GBytes a b' -> b = b'.
Proof. intros E. apply (f_equal val_Bytes) in E. rewrite !val_Bytes_GBytes in E. congruence. Qed.

Lemma int_ok_range signed n v z : int_ok signed n v -> v = GBig (Some z) -> int_range signed 256 z.
Proof.
  intros Hi ->. unfold int_ok in Hi. by destruct (reflectIntKindAndType (negb signed) n).
Qed.

Lemma int_ok_small signed n v k z :
  int_ok signed n v -> v = GInt k z -> exists m, (m = 1 \/ m = 2 \/ m = 4 \/ m = 8)%nat /\ n = 8 * Z.of_nat m /\ int_range signed n z.
Proof.
  intros Hi ->. unfold int_ok in Hi. destruct (reflectIntKindAndType (negb signed) n) eqn:E; try done;
    destruct Hi as (_ & Hk & Hr); (destruct (small_int (negb signed) n) as (m & Hm & -> & _); [by rewrite E|]); by exists m.
Qed.

Lemma makeTopic_enc K r t v : rule_for r t v -> value_ok t v -> makeTopic K r = Ok (enc t v) /\ isDynamicType t = false /\ t <> FunctionTy.
Proof.
  destruct r as [|b|[z|]|b|n z|n z| | |b|]; try done; cbn [rule_for].
  - intros [-> ->] (b' & E & Hb). apply GBytes_inj in E as <-. split; [|done]. cbn [makeTopic enc]. rewrite bytes_of_GBytes.
    rewrite <- Hb at 1. rewrite go_copy_right by lia. by rewrite Hb.
  - intros ([n Ht] & -> & Hz) Hv. assert (0 <= z < 2 ^ 256).
    { destruct Ht as [-> | ->]; pose proof (int_ok_range _ _ _ z Hv eq_refl) as Hr;
        unfold int_range in Hr; change (256 - 1) with 255 in Hr; lia. }
    cbn [makeTopic]. rewrite copy_right_word by done. by destruct Ht as [-> | ->].
  - intros [-> ->] _. split; [by destruct b|done].
  - intros [-> ->] Hv. destruct (int_ok_small _ _ _ _ z Hv eq_refl) as (m & Hm & -> & Hr). split; [|done]. cbn [makeTopic enc].
    replace (Z.to_nat (8 * Z.of_nat m / 8)) with m by (rewrite Z.mul_comm, Z.div_mul by done; lia).
    assert (Hw : - 256 ^ Z.of_nat m <= z < 256 ^ Z.of_nat m).
    { unfold int_range in Hr. change 256 with (2 ^ 8). rewrite <- Z.pow_mul_r by lia.
      assert (2 ^ (8 * Z.of_nat m - 1) <= 2 ^ (8 * Z.of_nat m)) by (apply Z.pow_le_mono_r; lia). lia. }
    rewrite genIntType_word by (done || lia). by rewrite go_copy_zeros by apply be_bytes_length.
  - intros [-> ->] Hv. destruct (int_ok_small _ _ _ _ z Hv eq_refl) as (m & Hm & -> & Hr). split; [|done]. cbn [makeTopic enc].
    apply copy_right_word. unfold int_range in Hr. assert (2 ^ (8 * Z.of_nat m) <= 2 ^ 256) by (apply Z.pow_le_mono_r; lia). lia.
  - intros [-> ->] ((b' & E & Hb) & Hn). apply GBytes_inj in E as <-. split; [|done]. cbn [makeTopic enc]. rewrite bytes_of_GBytes.
    destruct (Z.leb_spec (len b) 32); [|lia]. by rewrite RArray_topic.
Qed.

Lemma parse_topic_enc arg v :
  value_ok (arg_Type arg) v -> isDynamicType (arg_Type arg) = false -> arg_Type arg <> FunctionTy ->
  match arg_Type arg with ArrayTy _ _ | TupleTy _ _ _ => False | _ => True end ->
  parse_topic arg (enc (arg_Type arg) v) = Ok v.
Proof.
  intros Hv Hd Hf Ha. unfold parse_topic.
  assert (Hs : sized (arg_Type arg)) by (by destruct (arg_Type arg)).
  assert (E : ToGoType (arg_Type arg) 0 (enc (arg_Type arg) v) = Ok v).
  { apply ToGoType_reads; [done|done| |].
    - rewrite enc_static_len by done. by destruct (arg_Type arg).
    - unfold located. rewrite Hd. exists [], []. by rewrite app_nil_r. }
  destruct (arg_Type arg); try done; by rewrite E.
Qed.

(** Filters and logs agree on topics.  For a value of an address, boolean,
    fixed bytes or integer type, where big integers are not negative, makeTopics
    makes the topic that a contract emits for the value as an indexed argument,
    its ABI encoding, and reading that topic back returns the value. *)
Theorem topic_roundtrip Keccak256 r arg v :
  rule_for r (arg_Type arg) v -> value_ok (arg_Type arg) v -> Indexed arg = true ->
  makeTopics Keccak256 [[r]] = Ok [[enc (arg_Type arg) v]] /\
  parseTopicsIntoMap ∅ [arg] [enc (arg_Type arg) v] = Ok {[Name arg := v]}.
Proof.
  intros Hr Hv Hi. destruct (makeTopic_enc Keccak256 r _ v Hr Hv) as (E & Hd & Hf). split.
  - cbn [makeTopics make_filter]. by rewrite E.
  - unfold parseTopicsIntoMap. cbn [parse_topics len length Z.of_nat]. rewrite Hi, parse_topic_enc; try done.
    destruct r as [| |[]| | | | | | |]; try done; cbn [rule_for] in Hr; try (by destruct Hr as [-> _]). by destruct Hr as ([n [-> | ->]] & _).
Qed.

Lemma topic_roundtrip_witness :
  makeTopics (fun _ => []) [[RInt 16 (-2)]] = Ok [[replicate 31 255 ++ [254]]] /\
  parseTopicsIntoMap ∅ [MkArgument [120] (IntTy 16) [] true] [replicate 31 255 ++ [254]] = Ok {[ [120] := GInt (KInt 16) (-2)]}.
Proof.
  assert (Hr : rule_for (RInt 16 (-2)) (IntTy 16) (GInt (KInt 16) (-2))) by done.
  assert (Hv : value_ok (IntTy 16) (GInt (KInt 16) (-2))) by (split; [done|split; [done|by vm_compute]]).
  assert (E : enc (IntTy 16) (GInt (KInt 16) (-2)) = replicate 31 255 ++ [254]) by (by vm_compute).
  rewrite <- E.
  exact (topic_roundtrip (fun _ => []) (RInt 16 (-2)) (MkArgument [120] (IntTy 16) [] true) (GInt (KInt 16) (-2)) Hr Hv eq_refl).
Defined.

(** ** Logs *)

Lemma insert_all_lookup {V} (l : list (list Z * V)) (m : gmap (list Z) V) :
  NoDup (l.*1) ->
  (forall k v, (k, v) ∈ l -> foldl (fun m p => <[fst p := snd p]> m) m l !! k = Some v) /\
  (forall k, k ∉ l.*1 -> foldl (fun m p => <[fst p := snd p]> m) m l !! k = m !! k).
Proof.
  revert m. induction l as [|[k0 v0] l IH]; intros m Hn; [split; [intros k v H; by apply not_elem_of_nil in H|done]|].
  apply NoDup_cons in Hn as [H0 Hn]. cbn [foldl fst snd fmap list_fmap] in *. destruct (IH (<[k0 := v0]> m) Hn) as [H1 H2]. split.
  - intros k v [[= -> ->]|Hin]%elem_of_cons; [|by apply H1]. rewrite H2 by done. apply lookup_insert_eq.
  - intros k [Hk Hk']%not_elem_of_cons. rewrite H2 by done. by apply lookup_insert_ne.
Qed.

(** The topic of an indexed argument, as the contract makes it, and what is read
    from it: the value; the hash of a value of dynamic or array type; of a
    function value, which the contract aligns to the left, the last sixteen bytes
    and eight zeros, if the first eight are zero. *)
Definition topic_of (arg : Argument) (topic : list Z) (v : goval) : Prop :=
  match arg_Type arg with
  | StringTy | BytesTy | SliceTy _ | ArrayTy _ _ => v = GBytes true topic
  | TupleTy _ _ _ => False
  | FunctionTy => exists f, len f = 24 /\ bytes_ok f /\ be_val (take 8 f) = 0 /\ topic = enc FunctionTy (GBytes true f) /\ v = GBytes true (drop 8 f ++ zeros 8)
  | t => value_ok t v /\ topic = enc t v
  end.
(** The topics that are refused: those of tuples and of other function values. *)
Definition topic_refused (arg : Argument) (topic : list Z) (e : bind_error) : Prop :=
  match arg_Type arg with
  | TupleTy _ _ _ => e = errTupleTopic
  | FunctionTy => exists f, len f = 24 /\ bytes_ok f /\ be_val (take 8 f) <> 0 /\ topic = enc FunctionTy (GBytes true f) /\ e = errFunctionTopic
  | _ => False
  end.

Lemma function_topic name text f : len f = 24 -> bytes_ok f ->
  parse_topic (MkArgument name FunctionTy text true) (enc FunctionTy (GBytes true f)) =
    if be_val (take 8 f) =? 0 then Ok (GBytes true (drop 8 f ++ zeros 8)) else Err errFunctionTopic.
Proof.
  intros Hl Hb. cbn [enc]. rewrite bytes_of_GBytes. unfold parse_topic. cbn [arg_Type].
  assert (L : len (pad_right f 32) = 32) by (apply pad_right_len; lia). assert (E : pad_right f 32 = f ++ zeros 8) by (unfold pad_right; by rewrite Hl).
  unfold go_slice. rewrite L. cbn [Z.leb Z.compare andb Pos.compare Pos.compare_cont]. change (Z.to_nat (8 - 0)) with 8%nat. change (Z.to_nat 0) with 0%nat. change (Z.to_nat (32 - 8)) with 24%nat. change (Z.to_nat 8) with 8%nat.
  rewrite drop_0, E. assert (Hn : length f = 24%nat) by (unfold len in Hl; lia). rewrite take_app_le, drop_app_le by lia. rewrite (take_ge (drop 8 f ++ zeros 8)) by (rewrite length_app, length_drop, Hn; change (length (zeros 8)) with 8%nat; lia). by destruct (be_val (take 8 f) =? 0).
Qed.
Lemma parse_topic_of arg topic v : topic_of arg topic v -> parse_topic arg topic = Ok v.
Proof.
  unfold topic_of. destruct (arg_Type arg) eqn:E; intros H; try done;
    try (unfold parse_topic; rewrite E; by subst).
  all: try (destruct H as [Hv ->]; rewrite <- E; rewrite <- E in Hv; (apply parse_topic_enc; [done|by rewrite E..])).
  destruct H as (f & Hl & Hb & Hz & -> & ->). pose proof (function_topic [] [] f Hl Hb) as P. rewrite Hz in P. unfold parse_topic in *. by rewrite E.
Qed.
Lemma parse_topic_refused arg topic e : topic_refused arg topic e -> parse_topic arg topic = Err e.
Proof.
  unfold topic_refused. destruct (arg_Type arg) eqn:E; intros H; try done; [unfold parse_topic; rewrite E; by subst|].
  destruct H as (f & Hl & Hb & Hz & -> & ->). pose proof (function_topic [] [] f Hl Hb) as P. destruct (Z.eqb_spec (be_val (take 8 f)) 0); [lia|]. unfold parse_topic in *. by rewrite E.
Qed.

Lemma parse_topics_ok out fields topics vs :
  Forall (fun a => Indexed a = true) fields -> length topics = length fields ->
  Forall2 (fun p v => topic_of (fst p) (snd p) v) (zip fields topics) vs ->
  parse_topics out fields topics = Ok (foldl (fun m p => <[fst p := snd p]> m) out (zip (map Name fields) vs)).
Proof.
  intros Hi Hl H. revert out topics vs Hl H. induction Hi as [|a fields Ha _ IH]; intros out [|t topics] vs Hl H; try done.
  cbn [zip zip_with] in H. apply Forall2_cons_inv_l in H as (v & vs' & Hv & H & ->). cbn [fst snd] in Hv.
  cbn [parse_topics map zip zip_with foldl fst snd]. rewrite Ha, (parse_topic_of a t v Hv). cbn [negb obind].
  apply IH; [by injection Hl|done].
Qed.

Lemma parse_topics_refused out fields topics vs k a t e :
  Forall (fun a => Indexed a = true) fields -> fields !! k = Some a -> topics !! k = Some t ->
  Forall2 (fun p v => topic_of (fst p) (snd p) v) (take k (zip fields topics)) vs -> topic_refused a t e ->
  parse_topics out fields topics = Err e.
Proof.
  intros Hi Ha Ht H Hr. revert out topics vs k Ha Ht H. induction Hi as [|b fields Hb _ IH]; intros out [|t' topics] vs [|k] Ha Ht H; try done; cbn [parse_topics]; rewrite Hb; cbn [negb].
  - injection Ha as ->. injection Ht as ->. by rewrite (parse_topic_refused a t e Hr).
  - cbn [zip zip_with take] in H. apply Forall2_cons_inv_l in H as (v & vs' & Hv & H & ->). cbn [fst snd] in Hv. rewrite (parse_topic_of b t' v Hv). cbn [obind]. by apply (IH _ topics vs' k).
Qed.

Lemma NonIndexed_idem args : NonIndexed (NonIndexed args) = NonIndexed args.
Proof. apply NonIndexed_all. unfold NonIndexed. apply Forall_forall. intros a Ha. apply list_elem_of_In, filter_In in Ha as [_ Ha]. by apply negb_true_iff. Qed.

Lemma enc_args_nonempty ts vs : Forall2 value_ok ts vs -> Forall sized ts -> ts <> [] -> 0 < len (enc_args ts vs).
Proof.
  intros Hv Hs Hne. destruct Hv as [|t v ts vs Hv _]; [done|]. apply Forall_cons in Hs as [Hs _]. unfold enc_args, enc_items.
  cbn [zip_with]. rewrite len_app, heads_len. unfold sum. cbn [map foldr]. rewrite enc_head_len by done.
  pose proof (static_size_pos t v Hv Hs). match goal with |- context [len (tails ?l)] => pose proof (len_nonneg (tails l)) end.
  pose proof (head_len_nonneg (zip_with (fun t v => (isDynamicType t, enc t v)) ts vs)) as Hh. unfold sum in Hh. lia.
Qed.

(** Indexed and other arguments have different names. *)
Lemma names_split args :
  NoDup (map Name args) ->
  NoDup (map Name (NonIndexed args)) /\ NoDup (map Name (List.filter Indexed args)) /\
  forall x, x ∈ map Name (NonIndexed args) -> x ∉ map Name (List.filter Indexed args).
Proof.
  unfold NonIndexed. induction args as [|a args IH]; intros Hn.
  { split_and!; [constructor|constructor|]. intros x Hx. by apply not_elem_of_nil in Hx. }
  cbn [map] in Hn. apply NoDup_cons in Hn as [Ha Hn]. destruct (IH Hn) as (H1 & H2 & H3).
  assert (Hf : forall p, Name a ∉ map Name (List.filter p args)).
  { intros p Hin. apply Ha. apply list_elem_of_fmap in Hin as (b & E & Hb). rewrite E. apply (list_elem_of_fmap_2 Name).
    apply list_elem_of_In, filter_In in Hb as [Hb _]. by apply list_elem_of_In. }
  cbn [List.filter]. destruct (Indexed a); cbn [negb map].
  - split_and!; [done|by constructor|]. intros x Hx. apply not_elem_of_cons. split; [|by apply H3]. intros ->. by apply (Hf (fun a => negb (Indexed a))).
  - split_and!; [by constructor|done|]. intros x [->|Hx]%elem_of_cons; [apply Hf|by apply H3].
Qed.

Lemma Forall_filter_indexed args : Forall (fun a => Indexed a = true) (List.filter Indexed args).
Proof. apply Forall_forall. intros a Ha. by apply list_elem_of_In, filter_In in Ha as [_ Ha]. Qed.

Lemma zip_name {V} (a : Argument) (v : V) args vs : (a, v) ∈ zip args vs -> (Name a, v) ∈ zip (map Name args) vs.
Proof.
  revert vs. induction args as [|b args IH]; intros [|w vs] H; cbn [map zip zip_with] in *; try (by apply not_elem_of_nil in H).
  apply elem_of_cons in H as [[= -> ->]|H]; [by left|right; by apply IH].
Qed.


Definition sample_event : Event :=
  default (MkEvent [] [] false [] [] [] []) (NewEvent (fun b => repeat (len b mod 256) 32) [84] [84] false
    [MkArgument [102] AddressTy (GoText.str "address") true; MkArgument [118] (UintTy 256) (GoText.str "uint256") false;
     MkArgument [109] StringTy (GoText.str "string") true]).
Definition sample_event_abi : ABI := MkABI zero_method ∅ {[ [84] := sample_event ]} zero_method zero_method.
Definition sample_event_log : Log :=
  MkLog (repeat 1 20) [e_ID sample_event; zeros 12 ++ repeat 7 20; repeat 9 32] (word 1000) 0 [] 0 [] 0 false.


(** Where filters and logs disagree.  The topic of a negative big integer is
    that of its absolute value, so a filter for -z matches z; the topic of a
    function value, left-aligned as the ABI has it, is refused by the reader
    unless it starts with eight zeros; a log without topics makes UnpackLog
    panic. *)
Theorem topic_mismatches Keccak256 z name text f abi out event log :
  len f = 24 -> bytes_ok f -> be_val (take 8 f) <> 0 -> log_Topics log = [] -> log_Data log = [] ->
  makeTopic Keccak256 (RBig (Some (- z))) = makeTopic Keccak256 (RBig (Some z)) /\
  (makeTopic Keccak256 (RArray f) = Ok (enc FunctionTy (GBytes true f)) /\
   parse_topic (MkArgument name FunctionTy text true) (enc FunctionTy (GBytes true f)) = Err errFunctionTopic) /\
  UnpackLogIntoMap abi out event log = Panic.
Proof.
  intros Hl Hb Hz Ht Hd. split_and!.
  - cbn [makeTopic]. unfold big_bytes, bit_len. rewrite Z.abs_opp. destruct (Z.eqb_spec (- z) 0), (Z.eqb_spec z 0); try lia; done.
  - cbn [makeTopic enc]. rewrite bytes_of_GBytes. destruct (Z.leb_spec (len f) 32); [|lia]. by rewrite RArray_topic by lia.
  - rewrite function_topic by done. by destruct (Z.eqb_spec (be_val (take 8 f)) 0).
  - unfold UnpackLogIntoMap. by rewrite Hd, Ht.
Qed.

Lemma topic_mismatches_witness :
  makeTopic (fun _ => []) (RBig (Some (- 1))) = makeTopic (fun _ => []) (RBig (Some 1)) /\
  parse_topic (MkArgument [] FunctionTy [] true) (enc FunctionTy (GBytes true (repeat 5 24))) = Err errFunctionTopic /\
  UnpackLogIntoMap sample_event_abi ∅ [84] zero_log = Panic.
Proof.
  assert (Hb : bytes_ok (repeat 5 24)) by (by repeat constructor).
  assert (Hz : be_val (take 8 (repeat 5 24)) <> 0) by (by vm_compute).
  destruct (topic_mismatches (fun _ => []) 1 [] [] (repeat 5 24) sample_event_abi ∅ [84] zero_log eq_refl Hb Hz eq_refl eq_refl)
    as (H1 & [_ H2] & H3).
  exact (conj H1 (conj H2 H3)).
Defined.

(** ** Random ids *)

Definition nibbles (b : list Z) : list Z := concat (map (fun v => [Z.shiftr v 4; Z.land v 15]) b).

Lemma hex_Encode_nibbles b : bytes_ok b ->
  hex_Encode b = map digit_char (nibbles b) /\ digits_ok 16 (nibbles b) /\ len (nibbles b) = 2 * len b /\ num_val 16 (nibbles b) = be_val b.
Proof.
  induction b as [|v b IH]; intros Hb; [split_and!; [done|constructor|done|done]|]. apply Forall_cons in Hb as [Hv Hb]. destruct (IH Hb) as (E & Hd & Hl & Hn).
  pose proof (nibbles_ok v Hv) as [H1 H2].
  change (hex_Encode (v :: b)) with ([digit_char (Z.shiftr v 4); digit_char (Z.land v 15)] ++ hex_Encode b).
  change (nibbles (v :: b)) with (Z.shiftr v 4 :: Z.land v 15 :: nibbles b). rewrite E. split; [done|]. split; [constructor; [done|by constructor]|].
  rewrite !len_cons, !num_val_cons, be_val_cons, len_cons, Hn, Hl. split; [lia|].
  rewrite Z.pow_add_r, Z.pow_mul_r by (pose proof (len_nonneg b); lia). change (16 ^ 2) with 256.
  rewrite <- (hex_pair v Hv) at 3. rewrite lor_shiftl_low, Z.shiftl_mul_pow2 by lia. lia.
Qed.

Lemma DecodeBig_hex k b : (0 < k)%nat -> bytes_ok b -> 2 <= len b <= 32 ->
  match DecodeBig k (GoText.str "0x" ++ hex_Encode b) with
  | inr n => 16 <= default 0 (head b) /\ n = be_val b
  | inl _ => default 0 (head b) < 16
  end.
Proof.
  intros Hk Hb Hl. destruct (hex_Encode_nibbles b Hb) as (E & Hd & Hln & Hn).
  assert (Hlow : map lower (GoText.str "0x" ++ hex_Encode b) = GoText.str "0x" ++ hex_Encode b)
    by (rewrite map_app, lower_hex_Encode by done; done).
  destruct b as [|x b]; [done|]. cbn [head default]. apply Forall_cons in Hb as [Hx Hb].
  change (nibbles (x :: b)) with (Z.shiftr x 4 :: Z.land x 15 :: nibbles b) in *.
  assert (Hx4 : Z.shiftr x 4 = 0 <-> x < 16).
  { rewrite Z.shiftr_div_pow2 by lia. change (2 ^ 4) with 16. unfold byte_ok in Hx. rewrite Z.div_small_iff by lia. lia. }
  pose proof (be_val_bound (x :: b) ltac:(by constructor)) as B.
  assert (256 ^ len (x :: b) <= 2 ^ 256) by (change (2 ^ 256) with (256 ^ 32); apply Z.pow_le_mono_r; lia).
  destruct (DecodeBig k _) as [e|n] eqn:D.
  - destruct (Z.ltb_spec x 16) as [|Hx16]; [done|]. exfalso.
    assert (DecodeBig k (GoText.str "0x" ++ hex_Encode (x :: b)) = inr (be_val (x :: b))) as D'; [|by rewrite D in D'].
    apply DecodeBig_iff; [done|]. split; [lia|]. rewrite Hlow, EncodeBig_eq, E, <- Hn by lia. f_equal. symmetry.
    apply FormatUint_digits; [lia|done|]. cbn. rewrite Hx4. lia.
  - apply DecodeBig_iff in D as [Hr D]; [|done]. rewrite Hlow, EncodeBig_eq, E in D by lia. apply app_inv_head in D.
    destruct (FormatUint_spec 16 ltac:(lia) n ltac:(lia)) as (ds & Ef & Hd' & Hc & Hv). rewrite Ef in D.
    assert (Z.shiftr x 4 :: Z.land x 15 :: nibbles b = ds) as <-.
    { apply (f_equal (digits_of 16)) in D. rewrite !digits_of_char in D by (done || lia). congruence. }
    cbn in Hc. rewrite Hx4 in Hc. split; [change (16 <= x); lia|]. congruence.
Qed.

(** MD5 and the UUIDs give 16 bytes. *)
Definition sixteen (b : list Z) : Prop := length b = 16%nat /\ bytes_ok b.
Section random.
  Context (eb : encbuf) (wn : nat) (md5 : list Z -> list Z) (NewUUID : nat -> list Z).
  Context (Heb : length (sizebuf eb) = 9%nat) (Hwn : (0 < wn)%nat).
  Context (Hmd5 : forall x, sixteen (md5 x)) (Huuid : forall k, sixteen (NewUUID k)).

(** The hash of a UUID: of its header and first seven bytes. *)
Definition uuid_hash (k : nat) : list Z := md5 (144 :: take 7 (NewUUID k)).

Lemma uuid_encoding k : EncodeToBytes no_encoders eb (Some (TSlice (TUint 8), VBytes (NewUUID k))) = Ok (144 :: NewUUID k).
Proof.
  destruct (Huuid k) as [Hl _]. assert (E : rlp_encs [Str (NewUUID k)] = 144 :: NewUUID k).
  { unfold rlp_encs. cbn [map concat rlp_enc]. rewrite app_nil_r. unfold enc_str, len. rewrite Hl.
    by destruct (NewUUID k) as [|x [|y l]]. }
  rewrite <- E. apply (EncodeToBytes_denotes no_encoders no_items); [by exists W_writeBytes| |done].
  rewrite E, len_cons. unfold len. rewrite Hl. done.
Qed.

Lemma uuid_number_eq k :
  uuid_number eb wn md5 NewUUID k = Ok (if 16 <=? default 0 (head (uuid_hash k)) then Some (be_val (uuid_hash k)) else None).
Proof.
  unfold uuid_number. rewrite uuid_encoding.
  assert (E : go_slice (144 :: NewUUID k) 0 8 = Some (144 :: take 7 (NewUUID k))).
  { unfold go_slice. rewrite len_cons. destruct (Huuid k) as [Hl _]. unfold len. rewrite Hl. done. }
  rewrite E. fold (uuid_hash k). destruct (Hmd5 (144 :: take 7 (NewUUID k))) as [Hm Hb]. fold (uuid_hash k) in Hm, Hb.
  pose proof (DecodeBig_hex wn (uuid_hash k) Hwn Hb ltac:(unfold len; lia)) as D.
  destruct (DecodeBig _ _); destruct (Z.leb_spec 16 (default 0 (head (uuid_hash k)))); try lia; [done|]. by destruct D as [_ ->].
Qed.

(** The first hash with a leading digit other than zero is the nonce. *)
Lemma next_nonce_eq fuel j : forall k,
  (j < fuel)%nat -> (forall i, (i < j)%nat -> default 0 (head (uuid_hash (k + i))) < 16) ->
  16 <= default 0 (head (uuid_hash (k + j))) -> next_nonce eb wn md5 NewUUID fuel k = Ok (be_val (uuid_hash (k + j))).
Proof.
  revert j. induction fuel as [|fuel IH]; intros j k Hf Hlow Hj; [lia|]. cbn [next_nonce]. rewrite uuid_number_eq. cbn [obind].
  destruct j as [|j].
  - rewrite Nat.add_0_r in *. by destruct (Z.leb_spec 16 (default 0 (head (uuid_hash k)))); [|lia].
  - pose proof (Hlow 0%nat ltac:(lia)) as H0. rewrite Nat.add_0_r in H0.
    destruct (Z.leb_spec 16 (default 0 (head (uuid_hash k)))); [lia|]. rewrite (IH j).
    + do 3 f_equal. lia.
    + lia.
    + intros i Hi. replace (S k + i)%nat with (k + S i)%nat by lia. apply Hlow. lia.
    + by replace (S k + j)%nat with (k + S j)%nat by lia.
Qed.
End random.

(** ** Transactions that are sent *)

Lemma keyed_signer_SignTx wb `{Secp256k1} Keccak256 eb key a s tx :
  keyed_signer wb Keccak256 eb key a s a tx = tx_result (SignTx wb Keccak256 eb tx s key).
Proof.
  unfold keyed_signer, SignTx. rewrite bool_decide_true by done. cbn [negb].
  destruct (Signer_Hash _ _ _ _); [|done]. destruct (crypto_Sign _ _ _); [done|]. by destruct (WithSignature _ _ _).
Qed.

(** The transaction that transact builds from options and a nonce. *)
Definition raw_data (opts : TransactOpts) (address input : list Z) (lmt nonce : Z) : txdata :=
  Txdata (u64 nonce) (To_GasPrice opts) (To_GasLimit opts) (u64 (u64 (Z.abs lmt) + 200)) (Some address) (Some (default 0 (To_Value opts)))
    input (Some (To_ChainId opts)) (Some (To_GroupId opts)) [] (Some 0) (Some 0) (Some 0) None.

(** What Transact does with a signer of its key: it sends one signed transaction,
    or the library failed to sign. *)
Lemma transact_signed wb `{SecpLaws} Keccak256 eb eb' wn md5 NewUUID b abi address fuel j key a opts method params input lmt :
  (0 < wb)%nat -> (0 < wn)%nat -> keccak_ok Keccak256 -> (forall x, sixteen (md5 x)) -> (forall k, sixteen (NewUUID k)) ->
  length (sizebuf eb) = 9%nat -> length (sizebuf eb') = 9%nat -> key_ok (pub_of := pub_of) key ->
  PubkeyToAddress Keccak256 (key_pub key) = Some a -> To_Signer opts = Some (keyed_signer wb Keccak256 eb key a) ->
  ABI_Pack wb abi method params = Ok input -> BlockNumber b = inr lmt ->
  (j < fuel)%nat -> (forall i, (i < j)%nat -> default 0 (head (uuid_hash md5 NewUUID i)) < 16) ->
  16 <= default 0 (head (uuid_hash md5 NewUUID j)) ->
  let raw := raw_data opts address input lmt (be_val (uuid_hash md5 NewUUID j)) in
  txdata_ok raw -> size_ok (frontier_items raw) ->
  let s := Transact wb eb wn md5 NewUUID b abi address fuel opts method params in
  To_From opts = a ->
  (exists tx v r t, s_txs s = [tx] /\ 0 <= v < 4 /\ (0 < r < secp256k1N /\ 0 < t <= secp256k1halfN) /\ data tx = set_signature raw r t (v + 27) /\
     (if v <? 2 then Sender Keccak256 eb' HomesteadSigner tx = Ok (a, Tx (data tx) None None (Some (HomesteadSigner, a)))
      else exists e, Sender Keccak256 eb' HomesteadSigner tx = Err e) /\
     s_result s = match SendTransaction b tx with Some e => Err (errBackend e) | None => Ok tx end) \/
  (s_txs s = [] /\ s_result s = Err (errSigning (errCrypto ErrSignFailed))).
Proof.
  intros Hwb Hwn Hk Hm Hu Hb Hb' Hko Ha Hsig Hp Hlmt Hj Hlow Hhigh raw Hd Hz s Hfrom.
  pose proof (next_nonce_eq eb wn md5 NewUUID Hb Hwn Hm Hu fuel j 0 Hj Hlow Hhigh) as Hn. cbn [Nat.add] in Hn.
  assert (Es : s = sign_and_send b (set_limits opts (BlockLimit raw) (RandomId raw)) (keyed_signer wb Keccak256 eb key a) (Tx raw None None None)).
  { unfold s, Transact. rewrite Hp. cbn [abi_result]. unfold transact, limits. rewrite Hlmt, Hn. cbn [set_limits To_Signer].
    rewrite Hsig. unfold raw, raw_data. by destruct (To_Value opts). }
  rewrite Es. unfold sign_and_send. cbn [set_limits To_From]. rewrite Hfrom, keyed_signer_SignTx.
  pose proof (SignTx_then_Sender wb Keccak256 eb eb' (Tx raw None None None) HomesteadSigner key Hwb Hk I ltac:(done) Hd Hz Hb Hb' Hko) as HS.
  destruct (SignTx _ _ _ _ _ _) as [tx|e| |] eqn:HT; try done; [|right; by rewrite HS]. left. cbn [tx_result].
  destruct HS as (v & r & t & a' & Hv & Ed & Ea & HS). rewrite Ha in Ea. injection Ea as <-. exists tx, v, r, t.
  pose proof (SignTx_values wb Keccak256 eb (Tx raw None None None) HomesteadSigner key tx r t (v + 27) Hwb Hk I Hd Hz Hb Hko HT Ed) as Hrt.
  by destruct (SendTransaction b tx) eqn:Est; cbn [s_txs s_result].
Qed.

(** What a bound contract sends.  With options whose signer comes from
    NewKeyedTransactor and whose From is the address of the key, Transact sends
    exactly one transaction, unless the library fails to sign: its data are the
    packed call, the fields of the options, a block limit 200 above the height
    of the chain and the random id of the first UUID whose hash has a leading
    digit other than zero, whatever the options said of both; only the signature
    is added, and the sender recovered from it is the key's address (but for
    recovery ids 2 and 3).  Its result is that of sending.  With another From
    nothing is sent. *)
Theorem transact_sends wb `{SecpLaws} Keccak256 eb eb' wn md5 NewUUID b abi address fuel j key a opts method params input lmt :
  (0 < wb)%nat -> (0 < wn)%nat -> keccak_ok Keccak256 -> (forall x, sixteen (md5 x)) -> (forall k, sixteen (NewUUID k)) ->
  length (sizebuf eb) = 9%nat -> length (sizebuf eb') = 9%nat -> key_ok (pub_of := pub_of) key ->
  PubkeyToAddress Keccak256 (key_pub key) = Some a -> To_Signer opts = Some (keyed_signer wb Keccak256 eb key a) ->
  ABI_Pack wb abi method params = Ok input -> BlockNumber b = inr lmt ->
  (j < fuel)%nat -> (forall i, (i < j)%nat -> default 0 (head (uuid_hash md5 NewUUID i)) < 16) ->
  16 <= default 0 (head (uuid_hash md5 NewUUID j)) ->
  let raw := raw_data opts address input lmt (be_val (uuid_hash md5 NewUUID j)) in
  txdata_ok raw -> size_ok (frontier_items raw) ->
  let s := Transact wb eb wn md5 NewUUID b abi address fuel opts method params in
  if bool_decide (To_From opts = a) then
    match s_txs s with
    | [tx] => (exists v r t, 0 <= v < 4 /\ data tx = set_signature raw r t (v + 27) /\
        if v <? 2 then Sender Keccak256 eb' HomesteadSigner tx = Ok (a, Tx (data tx) None None (Some (HomesteadSigner, a)))
        else exists e, Sender Keccak256 eb' HomesteadSigner tx = Err e) /\
        s_result s = match SendTransaction b tx with Some e => Err (errBackend e) | None => Ok tx end
    | [] => s_result s = Err (errSigning (errCrypto ErrSignFailed))
    | _ => False
    end
  else s_txs s = [] /\ s_result s = Err errNotAuthorized.
Proof.
  intros Hwb Hwn Hk Hm Hu Hb Hb' Hko Ha Hsig Hp Hlmt Hj Hlow Hhigh raw Hd Hz s. destruct (bool_decide_reflect (To_From opts = a)) as [Hfrom|Hne].
  - destruct (transact_signed wb Keccak256 eb eb' wn md5 NewUUID b abi address fuel j key a opts method params input lmt Hwb Hwn Hk Hm Hu Hb Hb' Hko Ha Hsig Hp Hlmt Hj Hlow Hhigh Hd Hz Hfrom)
      as [(tx & v & r & t & E & Hv & _ & Ed & HS & Hr)|[E Hr]]; fold s in E, Hr; rewrite E; [|done]. split; [by exists v, r, t|done].
  - pose proof (next_nonce_eq eb wn md5 NewUUID Hb Hwn Hm Hu fuel j 0 Hj Hlow Hhigh) as Hn. cbn [Nat.add] in Hn.
    unfold s, Transact. rewrite Hp. cbn [abi_result]. unfold transact, limits. rewrite Hlmt, Hn. cbn [set_limits To_Signer]. rewrite Hsig. unfold sign_and_send, keyed_signer. cbn [set_limits To_From].
    by rewrite bool_decide_false by done.
Qed.

Definition sample_backend : backend :=
  MkBackend (inr 1000) (fun _ => None) (fun _ _ => inl 0%nat) (fun _ => inl 0%nat) (fun _ => inl 0%nat).
Definition sample_opts (from : list Z) : TransactOpts :=
  MkTransactOpts from 1 (Some (@keyed_signer 8 one_point_library (fun _ => zeros 32) new_encbuf (PrivKey 1 (curve_Gx, curve_Gy)) (zeros 20)))
    None (Some 30) 100 1 2 5.

Lemma sample_input : exists input, ABI_Pack 8 sample_abi (GoText.str "set") sample_values = Ok input /\ bytes_ok input /\
  size_ok (frontier_items (raw_data (sample_opts (zeros 20)) (replicate 20 9) input 1000 (be_val (replicate 16 17)))).
Proof. eexists. split; [vm_compute; reflexivity|]. split; [repeat (constructor; [by vm_compute|]); constructor|]. by vm_compute. Qed.

Lemma sample_sent : exists tx, s_txs (Transact 8 new_encbuf 16 (fun _ => replicate 16 17) (fun _ => replicate 16 1) sample_backend sample_abi
    (replicate 20 9) 1 (sample_opts (zeros 20)) (GoText.str "set") sample_values) = [tx] /\ tx_V (data tx) = Some 27.
Proof. eexists. split; [vm_compute; reflexivity|reflexivity]. Qed.

Lemma transact_sends_witness :
  let s := Transact 8 new_encbuf 16 (fun _ => replicate 16 17) (fun _ => replicate 16 1) sample_backend sample_abi (replicate 20 9) 1
             (sample_opts (zeros 20)) (GoText.str "set") sample_values in
  exists tx, s_txs s = [tx] /\ s_result s = Ok tx /\
    exists a tx', @Sender one_point_library (fun _ => zeros 32) new_encbuf HomesteadSigner tx = Ok (a, tx').
Proof.
  destruct sample_input as (input & Hp & Hb & Hz).
  assert (Hd : txdata_ok (raw_data (sample_opts (zeros 20)) (replicate 20 9) input 1000 (be_val (replicate 16 17)))).
  { split; try (by vm_compute); try exact Hb. intros a [= <-]. split; [done|]. exact (Forall_replicate byte_ok 20 9 ltac:(done)). }
  assert (H16 : forall c (A : Type) (x : A), byte_ok c -> sixteen (replicate 16 c)) by (intros; split; [done|by apply Forall_replicate]).
  assert (H0 : forall i, (i < 0)%nat -> default 0 (head (uuid_hash (fun _ => replicate 16 17) (fun _ => replicate 16 1) i)) < 16) by lia.
  pose proof (@transact_sends 8 one_point_library _ one_point_laws (fun _ => zeros 32) new_encbuf new_encbuf 16 (fun _ => replicate 16 17)
    (fun _ => replicate 16 1) sample_backend sample_abi (replicate 20 9) 1 0 (PrivKey 1 (curve_Gx, curve_Gy)) (zeros 20)
    (sample_opts (zeros 20)) (GoText.str "set") sample_values input 1000 ltac:(lia) ltac:(lia) sample_keccak_ok
    (fun x => H16 17 _ x ltac:(done)) (fun k => H16 1 _ k ltac:(done)) eq_refl eq_refl sample_key_ok eq_refl eq_refl Hp eq_refl
    ltac:(lia) H0 ltac:(done) Hd Hz) as H.
  rewrite bool_decide_true in H by done. destruct sample_sent as (tx & E & Ev). cbv zeta in H |- *. rewrite E in H |- *.
  destruct H as [(v & r & t & Hv & Ed & Hs) Hr]. exists tx. split; [reflexivity|].
  split; [exact Hr|]. rewrite Ed in Ev. cbn in Ev. assert (v = 0) as -> by (injection Ev; lia). exact (ex_intro _ _ (ex_intro _ _ Hs)).
Defined.

(** ** Calls that are answered *)

(** What a bound contract reads.  A call sends the selector of the method and
    the arguments as the node can unpack them; an answer that starts with the
    encoding of values of the output types is returned as those values.  An empty
    answer is ErrNoCode when there is no code at the address, and otherwise an
    error for the methods that return something. *)
Theorem call_reads_answer wb b abi address from groupId method m args :
  (0 < wb)%nat -> method <> [] -> Abi.Methods abi !! method = Some m -> length (m_ID m) = 4%nat ->
  Forall (fun a => Indexed a = false) (m_Inputs m) -> Forall2 value_ok (map arg_Type (m_Inputs m)) args ->
  Forall sized (map arg_Type (m_Inputs m)) -> len (enc_args (map arg_Type (m_Inputs m)) args) < 2 ^ 63 ->
  let input := m_ID m ++ enc_args (map arg_Type (m_Inputs m)) args in
  let msg := MkCallMsg groupId from address input in
  UnpackValues (m_Inputs m) (drop 4 input) = Ok args /\
  (forall vs rest, Forall (fun a => Indexed a = false) (m_Outputs m) -> m_Outputs m <> [] ->
    Forall2 value_ok (map arg_Type (m_Outputs m)) vs -> Forall sized (map arg_Type (m_Outputs m)) ->
    let output := enc_args (map arg_Type (m_Outputs m)) vs ++ rest in
    len output < 2 ^ 63 -> len output mod 32 = 0 -> CallContract b msg = inr output ->
    Call wb b abi address from groupId method args = Ok vs) /\
  (forall code, CallContract b msg = inr [] -> CodeAt b address = inr code ->
    Call wb b abi address from groupId method args =
      if len code =? 0 then Err ErrNoCode else if len (m_Outputs m) =? 0 then Ok [] else Err (errAbi errEmptyData)) /\
  (forall e, CallContract b msg = inl e -> Call wb b abi address from groupId method args = Err (errBackend e)).
Proof.
  intros Hw Hn Hm Hid Hi Hv Hs Hl input msg.
  destruct (Pack_Unpack wb (m_Inputs m) args [] Hw Hi Hv Hs) as [HP HU]; [by rewrite app_nil_r|]. rewrite app_nil_r in HU.
  assert (EP : ABI_Pack wb abi method args = Ok input) by (unfold ABI_Pack; by rewrite bool_decide_eq_false_2, Hm, HP).
  split; [unfold input; by rewrite <- Hid, drop_app_length|]. unfold Call. rewrite EP. cbn [abi_result obind]. fold msg.
  split_and!.
  - intros vs rest Ho Hne Hvo Hso. set (output := enc_args (map arg_Type (m_Outputs m)) vs ++ rest). intros Hlo Hmod ->. destruct (Pack_Unpack wb (m_Outputs m) vs rest Hw Ho Hvo Hso Hlo) as [_ Hout].
    pose proof (enc_args_nonempty _ _ Hvo Hso ltac:(by destruct (m_Outputs m))) as Hpos. pose proof (len_nonneg rest).
    assert (0 < len output) by (unfold output; rewrite len_app; lia). destruct (Z.eqb_spec (len output) 0); [lia|]. cbn [obind].
    unfold Unpack_method. rewrite Hm, Hmod. cbn [Z.eqb negb]. destruct (Z.eqb_spec (len output) 0); [lia|].
    fold output in Hout. rewrite Hout. cbn [abi_result obind].
    destruct vs as [|v vs]; [|by rewrite len_cons; pose proof (len_nonneg vs); destruct (Z.eqb_spec (1 + len vs) 0); [lia|]].
    by destruct (m_Outputs m); [|inversion Hvo].
  - intros code -> ->. cbn [len length Z.of_nat Z.eqb]. destruct (len code =? 0); [done|]. cbn [obind]. unfold Unpack_method. rewrite Hm.
    cbn. by destruct (len (m_Outputs m) =? 0).
  - by intros e ->.
Qed.

Lemma call_reads_answer_witness :
  Call 8 (MkBackend (inr 0) (fun _ => None) (fun _ _ => inl 0%nat)
      (fun msg => if bool_decide (msg_Data msg = repeat 1 4 ++ word 7) then inr (word 1) else inl 0%nat) (fun _ => inl 0%nat))
    (MkABI zero_method {[ [103] := MkMethod [103] [103] Function_ [] false false
        [MkArgument [120] (UintTy 256) (GoText.str "uint256") false] [MkArgument [] BoolTy (GoText.str "bool") false] [] [] (repeat 1 4) ]} ∅
      zero_method zero_method)
    (repeat 3 20) (repeat 4 20) 1 [103] [GBig (Some 7)] = Ok [GBool true].
Proof.
  match goal with |- Call ?wb ?b ?abi ?address ?from ?g ?method ?args = _ => set (B := b); set (A := abi) end.
  assert (Em' : Abi.Methods A !! [103] = Some (MkMethod [103] [103] Function_ [] false false
        [MkArgument [120] (UintTy 256) (GoText.str "uint256") false] [MkArgument [] BoolTy (GoText.str "bool") false] [] [] (repeat 1 4)))
    by apply lookup_singleton_eq.
  assert (Hi : Forall2 value_ok [UintTy 256] [GBig (Some 7)]) by (constructor; [by vm_compute|constructor]).
  assert (Ho : Forall2 value_ok [BoolTy] [GBool true]) by (constructor; [by exists true|constructor]).
  refine (proj1 (proj2 (call_reads_answer 8 B A (repeat 3 20) (repeat 4 20) 1 [103] _ [GBig (Some 7)] ltac:(lia) ltac:(done) Em' eq_refl
    ltac:(by repeat constructor) Hi ltac:(by repeat constructor) ltac:(by vm_compute))) [GBool true] [] ltac:(by repeat constructor) ltac:(done)
    Ho ltac:(by repeat constructor) ltac:(by vm_compute) ltac:(by vm_compute) _).
  by vm_compute.
Defined.
