(* ===== verification/Modular.v ===== *)
(** * Arithmetic modulo a number, and points in Jacobian coordinates

    What the elliptic-curve packages share: congruence with its ring structure
    and morphisms, the ModInverse of math/big, and the formulas for adding and
    doubling points of a curve y^2 = x^3 + b in Jacobian coordinates over any
    commutative ring, with the affine chord-and-tangent law they implement. *)

From Stdlib Require Import Ring Setoid Morphisms Znumtheory.
From S2P Require Import Prelude.

(** ** Congruence *)

Definition eqm (n a b : Z) : Prop := a mod n = b mod n.

#[export] Instance eqm_equiv n : Equivalence (eqm n).
Proof. split; unfold eqm; congruence. Qed.
#[export] Instance eqm_add n : Proper (eqm n ==> eqm n ==> eqm n) Z.add.
Proof. intros a a' Ha b b' Hb. unfold eqm in *. rewrite Zplus_mod, Ha, Hb, <- Zplus_mod. reflexivity. Qed.
#[export] Instance eqm_mul n : Proper (eqm n ==> eqm n ==> eqm n) Z.mul.
Proof. intros a a' Ha b b' Hb. unfold eqm in *. rewrite Zmult_mod, Ha, Hb, <- Zmult_mod. reflexivity. Qed.
#[export] Instance eqm_sub n : Proper (eqm n ==> eqm n ==> eqm n) Z.sub.
Proof. intros a a' Ha b b' Hb. unfold eqm in *. rewrite Zminus_mod, Ha, Hb, <- Zminus_mod. reflexivity. Qed.
#[export] Instance eqm_opp n : Proper (eqm n ==> eqm n) Z.opp.
Proof. intros a a' Ha. change (eqm n (0 - a) (0 - a')). by rewrite Ha. Qed.

Lemma eqm_mod n a : eqm n (a mod n) a.
Proof. apply Zmod_mod. Qed.
Lemma eqm_eq n a b : a = b -> eqm n a b.
Proof. by intros ->. Qed.
(** An addition of the modulus, as the code corrects a sign. *)
Lemma eqm_self n a : eqm n (a + n) a.
Proof. unfold eqm. rewrite <- (Z.mul_1_l n) at 1. apply Z_mod_plus_full. Qed.
Lemma eqm_zero n a : eqm n a 0 <-> a mod n = 0.
Proof. unfold eqm. by rewrite Zmod_0_l. Qed.

Lemma eqm_ring n : ring_theory 0 1 Z.add Z.mul Z.sub Z.opp (eqm n).
Proof. split; intros; apply eqm_eq; ring. Qed.
Lemma eqm_ext n : ring_eq_ext Z.add Z.mul Z.opp (eqm n).
Proof. split; [apply eqm_add|apply eqm_mul|apply eqm_opp]. Qed.

(** A reduced intermediate value, named and kept up to congruence. *)
Ltac reduced n x H t :=
  let E := fresh in
  assert (E : exists y, y = t) by (eexists; reflexivity); destruct E as [x E]; assert (H : eqm n x t) by (by rewrite E); rewrite <- E; clear E.

(** Equality of reduced numbers, as the code tests it. *)
Lemma reduced_equal n a b : (a mod n - b mod n =? 0) = true <-> eqm n a b.
Proof. rewrite Z.eqb_eq. unfold eqm. lia. Qed.

Lemma eqm_cancel n a b w i : eqm n (w * i) 1 -> eqm n (a * w) (b * w) -> eqm n a b.
Proof.
  intros Hi H. transitivity (a * (w * i)); [rewrite Hi; apply eqm_eq; ring|]. transitivity (b * (w * i)); [|rewrite Hi; apply eqm_eq; ring].
  transitivity (a * w * i); [apply eqm_eq; ring|]. rewrite H. apply eqm_eq. ring.
Qed.

(** ** ModInverse of math/big *)

(** Extended Euclid: g, u with u * a = g modulo b, for the fuel of the bits. *)
Fixpoint egcd (fuel : nat) (a b u v : Z) : Z * Z :=
  match fuel with
  | O => (a, u)
  | S fuel => if b =? 0 then (a, u) else egcd fuel b (a mod b) v (u - a / b * v)
  end.

(** nil, when there is no inverse, is [None]. *)
Definition ModInverse (g n : Z) : option Z :=
  let g := g mod n in
  let '(d, x) := egcd (Z.to_nat (2 * (Z.log2 n + 2))) g n 1 0 in
  if d =? 1 then Some (x mod n) else None.

Lemma egcd_bezout n g fuel : forall a b u v d x,
  eqm n (u * g) a -> eqm n (v * g) b -> egcd fuel a b u v = (d, x) -> eqm n (x * g) d.
Proof.
  induction fuel as [|fuel IH]; intros a b u v d x Ha Hb E; cbn [egcd] in E; [by injection E as <- <-|].
  destruct (Z.eqb_spec b 0) as [->|Hne]; [by injection E as <- <-|]. eapply IH; [exact Hb| |exact E].
  rewrite Z.mul_sub_distr_r, Ha, <- Z.mul_assoc, Hb. apply eqm_eq. rewrite (Z.mod_eq a b) by done. lia.
Qed.

Lemma ModInverse_correct g n i : 0 < n -> ModInverse g n = Some i -> eqm n (g * i) 1 /\ 0 <= i < n.
Proof.
  intros Hn. unfold ModInverse. destruct (egcd _ _ _ _ _) as [d x] eqn:E. destruct (Z.eqb_spec d 1) as [->|]; [|done]. intros [= <-].
  split; [|by apply Z.mod_pos_bound]. apply (egcd_bezout n (g mod n)) in E.
  - rewrite eqm_mod, Z.mul_comm. rewrite <- E. by rewrite (eqm_mod n g).
  - apply eqm_eq. lia.
  - unfold eqm. by rewrite Z.mul_0_l, Zmod_0_l, Z_mod_same_full.
Qed.

(** Two steps of the algorithm halve the second number, so that the fuel is
    enough and every invertible number has its inverse. *)
Lemma egcd_gcd k : forall fuel a b u v, 0 <= a -> 0 <= b < 2 ^ Z.of_nat k -> (2 * k < fuel)%nat -> fst (egcd fuel a b u v) = Z.gcd a b.
Proof.
  induction k as [|k IH]; intros fuel a b u v Ha Hb Hf.
  - destruct fuel as [|fuel]; [lia|]. cbn [egcd]. assert (b = 0) as -> by (change (2 ^ Z.of_nat 0) with 1 in Hb; lia). cbn.
    rewrite Z.gcd_0_r. lia.
  - destruct fuel as [|[|fuel]]; [lia|lia|]. cbn [egcd]. destruct (Z.eqb_spec b 0) as [->|Hne]; [cbn; rewrite Z.gcd_0_r; lia|].
    pose proof (Z.mod_pos_bound a b ltac:(lia)) as Hr.
    assert (E1 : Z.gcd b (a mod b) = Z.gcd a b) by (rewrite Z.gcd_comm, Z.gcd_mod by done; apply Z.gcd_comm).
    destruct (Z.eqb_spec (a mod b) 0) as [E0|Hne2]; [rewrite E0, Z.gcd_0_r in E1; cbn; lia|].
    pose proof (Z.mod_pos_bound b (a mod b) ltac:(lia)) as Hr2.
    assert (E2 : Z.gcd (a mod b) (b mod (a mod b)) = Z.gcd a b) by (rewrite <- E1, Z.gcd_comm, Z.gcd_mod by done; apply Z.gcd_comm).
    rewrite <- E2. apply IH; [lia| |lia]. rewrite Nat2Z.inj_succ, Z.pow_succ_r in Hb by lia.
    pose proof (Z.div_mod b (a mod b) ltac:(lia)) as D. assert (0 < b / (a mod b)) by (apply Z.div_str_pos; lia). nia.
Qed.

Lemma ModInverse_complete g n : 0 < n -> Z.gcd g n = 1 -> exists i, ModInverse g n = Some i.
Proof.
  intros Hn Hg. unfold ModInverse. pose proof (Z.log2_spec n Hn) as L. pose proof (Z.log2_nonneg n).
  pose proof (egcd_gcd (Z.to_nat (Z.log2 n + 1)) (Z.to_nat (2 * (Z.log2 n + 2))) (g mod n) n 1 0) as E.
  destruct (egcd _ _ _ _ _) as [d x]. cbn [fst] in E. rewrite E.
  - rewrite Z.gcd_mod, Z.gcd_comm, Hg by lia. by eexists.
  - apply Z.mod_pos_bound. lia.
  - rewrite Z2Nat.id by lia. replace (Z.log2 n + 1) with (Z.succ (Z.log2 n)) by lia. lia.
  - lia.
Qed.

Lemma unit_gcd n a b : 0 < n -> eqm n (a * b) 1 -> Z.gcd a n = 1.
Proof.
  intros Hn H. pose proof (Z.gcd_nonneg a n). destruct (Z.gcd_divide_l a n) as [x Hx], (Z.gcd_divide_r a n) as [y Hy]. set (g := Z.gcd a n) in *.
  assert (D : (g | 1)); [|apply Z.divide_1_r in D; lia]. unfold eqm in H. exists (x * b - y * (a * b / n) + y * (1 / n)).
  pose proof (Z.div_mod (a * b) n). pose proof (Z.div_mod 1 n). assert (1 = a * b - n * (a * b / n) + n * (1 / n)) as E by lia.
  rewrite E at 1. rewrite Hx at 1. rewrite Hy at 1 3. ring.
Qed.

(** ** Jacobian coordinates *)

Section jacobian.
  Context {R : Type} (r0 r1 : R) (radd rmul rsub : R -> R -> R) (ropp : R -> R) (req : R -> R -> Prop).
  Context (Rth : ring_theory r0 r1 radd rmul rsub ropp req) (Rst : Equivalence req) (Rext : ring_eq_ext radd rmul ropp req).
  Add Ring base_ring : Rth (setoid Rst Rext).
#[local] Instance radd_proper : Proper (req ==> req ==> req) radd.
Proof. apply (Radd_ext Rext). Qed.
#[local] Instance rmul_proper : Proper (req ==> req ==> req) rmul.
Proof. apply (Rmul_ext Rext). Qed.
#[local] Instance ropp_proper : Proper (req ==> req) ropp.
Proof. apply (Ropp_ext Rext). Qed.
#[local] Instance rsub_proper : Proper (req ==> req ==> req) rsub.
Proof. intros a a' Ha b b' Hb. rewrite !(Rsub_def Rth). by rewrite Ha, Hb. Qed.
#[local] Notation "a + b" := (radd a b).
#[local] Notation "a * b" := (rmul a b).
#[local] Notation "a - b" := (rsub a b).
#[local] Notation "a == b" := (req a b) (at level 70).
#[local] Notation "'two' a" := (radd a a) (at level 30, right associativity).

Record jpoint : Type := JPoint { jx : R; jy : R; jz : R }.

(** The formulas add-2007-bl and dbl-2009-l that the packages cite. *)
Definition jadd (a b : jpoint) : jpoint :=
  let z1z1 := jz a * jz a in let z2z2 := jz b * jz b in
  let u1 := jx a * z2z2 in let u2 := jx b * z1z1 in
  let s1 := jy a * (jz b * z2z2) in let s2 := jy b * (jz a * z1z1) in
  let h := u2 - u1 in let i := (two h) * (two h) in let j := h * i in let r := two (s2 - s1) in let v := u1 * i in
  let x := r * r - j - two v in
  JPoint x (r * (v - x) - two (s1 * j)) (((jz a + jz b) * (jz a + jz b) - z1z1 - z2z2) * h).

Definition jdouble (p : jpoint) : jpoint :=
  let a := jx p * jx p in let b := jy p * jy p in let c := b * b in
  let d := two ((jx p + b) * (jx p + b) - a - c) in let e := (two a) + a in let f := e * e in
  let x := f - two d in
  JPoint x (e * (d - x) - two two two c) (two (jy p * jz p)).

Definition jeq (a b : jpoint) : Prop := jx a == jx b /\ jy a == jy b /\ jz a == jz b.

(** The point (x, y) in Jacobian coordinates: (x z^2, y z^3, z). *)
Definition jrep (p : jpoint) (x y : R) : Prop := jx p == x * (jz p * jz p) /\ jy p == y * (jz p * (jz p * jz p)).

(** On the curve y^2 = x^3 + b. *)
Definition on_curve (b x y : R) : Prop := y * y == x * x * x + b.
Definition jon (b : R) (p : jpoint) : Prop :=
  let z3 := jz p * jz p * jz p in jy p * jy p == jx p * jx p * jx p + b * (z3 * z3).

(** The chord through two points with slope [l], and the tangent with slope [l]. *)
Lemma jadd_chord a b x1 y1 x2 y2 l :
  jrep a x1 y1 -> jrep b x2 y2 -> l * (x2 - x1) == y2 - y1 ->
  let x3 := l * l - x1 - x2 in jrep (jadd a b) x3 (l * (x1 - x3) - y1).
Proof.
  intros [Ax Ay] [Bx By] Hl x3. assert (Hy : y2 == y1 + l * (x2 - x1)) by (rewrite Hl; ring).
  unfold jrep, jadd. cbn [jx jy jz]. rewrite Ax, Ay, Bx, By, Hy. subst x3. split; ring.
Qed.

Lemma jdouble_tangent p x y l :
  jrep p x y -> l * (two y) == (two (x * x)) + x * x ->
  let x3 := l * l - x - x in jrep (jdouble p) x3 (l * (x - x3) - y).
Proof.
  intros [Px Py] Hl x3. unfold jrep, jdouble. cbn [jx jy jz]. set (z := jz p) in *.
  assert (He : (two (x * (z * z) * (x * (z * z)))) + x * (z * z) * (x * (z * z)) == l * (two y) * (z * z * (z * z)))
    by (rewrite Hl; ring).
  rewrite Px, Py, He. subst x3. split; [ring|]. ring.
Qed.

(** The results stay on the curve. *)
Lemma jdouble_on b p : jon b p -> jon b (jdouble p).
Proof.
  unfold jon, jdouble. cbn [jx jy jz]. intros H. set (z3 := jz p * jz p * jz p) in *.
  assert (Hb : b * (z3 * z3) == jy p * jy p - jx p * jx p * jx p) by (rewrite H; ring).
  set (w := b * _). assert (Hw : w == (b * (z3 * z3)) * (two two two two two two (jy p * jy p * (jy p * jy p) * (jy p * jy p))))
    by (unfold w, z3; ring).
  rewrite Hw, Hb. ring.
Qed.

(** With u, s for the scaled coordinates and d, h for their differences. *)
Lemma chord_identity u s d h : let x := d * d - h * h * h - two (u * (h * h)) in
  let y := d * (u * (h * h) - x) - s * (h * h * h) in
  y * y - x * x * x - (h * h * h) * (h * h * h) * (s * s - u * u * u) ==
  ropp ((h * h * h) * (u * (h * h) - x) * ((two (s * d)) + d * d - h * h * h - (two (u * (h * h))) - u * (h * h) - (two (u * u * h)) - u * u * h)).
Proof. intros x y. subst x y. ring. Qed.

Lemma jadd_on b p q : jon b p -> jon b q -> jon b (jadd p q).
Proof.
  unfold jon, jadd. cbn [jx jy jz]. intros Hp Hq.
  set (u1 := jx p * (jz q * jz q)). set (u2 := jx q * (jz p * jz p)).
  set (s1 := jy p * (jz q * (jz q * jz q))). set (s2 := jy q * (jz p * (jz p * jz p))).
  set (w := jz p * jz q). set (w6 := b * (w * w * w * (w * w * w))).
  assert (H1 : s1 * s1 - u1 * u1 * u1 == w6).
  { transitivity ((jy p * jy p - jx p * jx p * jx p) * (jz q * jz q * jz q * (jz q * jz q * jz q))); [unfold s1, u1; ring|].
    rewrite Hp. unfold w6, w. ring. }
  assert (H2 : s2 * s2 - u2 * u2 * u2 == w6).
  { transitivity ((jy q * jy q - jx q * jx q * jx q) * (jz p * jz p * jz p * (jz p * jz p * jz p))); [unfold s2, u2; ring|].
    rewrite Hq. unfold w6, w. ring. }
  set (h := u2 - u1). set (d := s2 - s1).
  assert (HE : (two (s1 * d)) + d * d - h * h * h - (two (u1 * (h * h))) - u1 * (h * h) - (two (u1 * u1 * h)) - u1 * u1 * h == r0).
  { transitivity ((s2 * s2 - u2 * u2 * u2) - (s1 * s1 - u1 * u1 * u1)); [unfold d, h; ring|]. rewrite H1, H2. ring. }
  pose proof (chord_identity u1 s1 d h) as C. cbv zeta in C. rewrite HE in C.
  set (x := d * d - h * h * h - two (u1 * (h * h))) in C. set (y := d * (u1 * (h * h) - x) - s1 * (h * h * h)) in C.
  assert (C' : y * y == x * x * x + h * h * h * (h * h * h) * w6).
  { rewrite <- H1. transitivity (y * y - x * x * x - h * h * h * (h * h * h) * (s1 * s1 - u1 * u1 * u1) + (x * x * x + h * h * h * (h * h * h) * (s1 * s1 - u1 * u1 * u1))); [ring|].
    rewrite C. ring. }
  transitivity (two two two two two two (y * y)); [unfold y, x; ring|]. rewrite C'. unfold w6, w, x. ring.
Qed.
End jacobian.
