(* ===== verification/SecpCurve.v ===== *)
(** * Package crypto/secp256k1: points of the curve

    The arithmetic of curve.go: sums and doubles of points by Jacobian
    coordinates.  A nil inverse that is used is a panic, [None]. *)

From Stdlib Require Import Setoid Znumtheory.
From S2P Require Import Prelude Crypto Modular.

Definition fix_sign (h : Z) : Z := if h <? 0 then h + curve_P else h.

Definition affineFromJacobian (x y z : Z) : option (Z * Z) :=
  zinv ← ModInverse z curve_P;
  let zinvsq := zinv * zinv in
  let xOut := (x * zinvsq) mod curve_P in
  let zinvsq := zinvsq * zinv in
  let yOut := (y * zinvsq) mod curve_P in
  Some (xOut, yOut).

Definition addJacobian (x1 y1 z1 x2 y2 z2 : Z) : Z * Z * Z :=
  let z1z1 := (z1 * z1) mod curve_P in
  let z2z2 := (z2 * z2) mod curve_P in
  let u1 := (x1 * z2z2) mod curve_P in
  let u2 := (x2 * z1z1) mod curve_P in
  let h := fix_sign (u2 - u1) in
  let i := Z.shiftl h 1 in
  let i := i * i in
  let j := h * i in
  let s1 := (y1 * z2 * z2z2) mod curve_P in
  let s2 := (y2 * z1 * z1z1) mod curve_P in
  let r := Z.shiftl (fix_sign (s2 - s1)) 1 in
  let v := u1 * i in
  let x3 := (r * r - j - v - v) mod curve_P in
  let v := v - x3 in
  let s1 := Z.shiftl (s1 * j) 1 in
  let y3 := (r * v - s1) mod curve_P in
  let z3 := (z1 + z2) * (z1 + z2) in
  let z3 := fix_sign (z3 - z1z1) in
  let z3 := fix_sign (z3 - z2z2) in
  let z3 := (z3 * h) mod curve_P in
  (x3, y3, z3).

Definition BitCurve_Add (x1 y1 x2 y2 : Z) : option (Z * Z) :=
  let '(x3, y3, z3) := addJacobian x1 y1 1 x2 y2 1 in affineFromJacobian x3 y3 z3.

Definition doubleJacobian (x y z : Z) : Z * Z * Z :=
  let a := x * x in
  let b := y * y in
  let c := b * b in
  let d := x + b in
  let d := (d * d - a - c) * 2 in
  let e := 3 * a in
  let f := e * e in
  let x3 := (f - 2 * d) mod curve_P in
  let y3 := (e * (d - x3) - 8 * c) mod curve_P in
  let z3 := (2 * (y * z)) mod curve_P in
  (x3, y3, z3).

Definition BitCurve_Double (x1 y1 : Z) : option (Z * Z) :=
  let '(x3, y3, z3) := doubleJacobian x1 y1 1 in affineFromJacobian x3 y3 z3.

(** ** The formulas *)

#[local] Notation "a ≡ b" := (eqm curve_P a b) (at level 70).
#[local] Abbreviation Zadd := (jadd Z.add Z.mul Z.sub).
#[local] Abbreviation Zdouble := (jdouble Z.add Z.mul Z.sub).

Lemma fix_sign_eqm h : fix_sign h ≡ h.
Proof. unfold fix_sign. destruct (h <? 0); [apply eqm_self|done]. Qed.

Lemma shiftl_eqm h : Z.shiftl h 1 = h + h.
Proof. rewrite Z.shiftl_mul_pow2 by lia. lia. Qed.

Lemma addJacobian_formula x1 y1 z1 x2 y2 z2 :
  let '(x3, y3, z3) := addJacobian x1 y1 z1 x2 y2 z2 in
  let p := Zadd (JPoint x1 y1 z1) (JPoint x2 y2 z2) in x3 ≡ jx p /\ y3 ≡ jy p /\ z3 ≡ jz p.
Proof.
  unfold addJacobian, jadd. cbn [jx jy jz]. rewrite !shiftl_eqm.
  reduced curve_P z1z1 H1 ((z1 * z1) mod curve_P). reduced curve_P z2z2 H2 ((z2 * z2) mod curve_P).
  reduced curve_P u1 Hu1 ((x1 * z2z2) mod curve_P). reduced curve_P u2 Hu2 ((x2 * z1z1) mod curve_P). reduced curve_P h Hh (fix_sign (u2 - u1)).
  reduced curve_P s1 Hs1 ((y1 * z2 * z2z2) mod curve_P). reduced curve_P s2 Hs2 ((y2 * z1 * z1z1) mod curve_P). reduced curve_P d Hd (fix_sign (s2 - s1)).
  rewrite eqm_mod in H1, H2. rewrite eqm_mod, H2 in Hu1, Hs1. rewrite eqm_mod, H1 in Hu2, Hs2.
  rewrite fix_sign_eqm, Hu1, Hu2 in Hh. rewrite fix_sign_eqm, Hs1, Hs2 in Hd.
  set (x3 := (_ - _ - _ - _) mod curve_P). assert (Hx : x3 ≡ (d + d) * (d + d) - h * ((h + h) * (h + h)) - u1 * ((h + h) * (h + h)) - u1 * ((h + h) * (h + h))) by apply eqm_mod.
  clearbody x3. rewrite Hu1 in Hx. split; [|split].
  - rewrite Hx, Hh, Hd. apply eqm_eq. ring.
  - rewrite eqm_mod, Hx, Hu1, Hs1, Hh, Hd. apply eqm_eq. ring.
  - rewrite eqm_mod, !fix_sign_eqm, H1, H2, Hh. apply eqm_eq. ring.
Qed.

Lemma doubleJacobian_formula x y z :
  let '(x3, y3, z3) := doubleJacobian x y z in
  let p := Zdouble (JPoint x y z) in x3 ≡ jx p /\ y3 ≡ jy p /\ z3 ≡ jz p.
Proof. unfold doubleJacobian, jdouble. cbn [jx jy jz]. split_and!; rewrite ?eqm_mod; apply eqm_eq; ring. Qed.

(** ** Back to affine coordinates *)

#[local] Abbreviation rep := (jrep Z.mul (eqm curve_P)).
#[local] Abbreviation on_j := (jon Z.add Z.mul (eqm curve_P) curve_B).

Lemma curve_P_pos : 0 < curve_P.
Proof. by vm_compute. Qed.

Lemma invertible_mul a b : Z.gcd a curve_P = 1 -> Z.gcd b curve_P = 1 -> Z.gcd (a * b) curve_P = 1.
Proof. apply Z.coprime_mul_l. Qed.

Lemma invertible_eqm a b : a ≡ b -> Z.gcd a curve_P = Z.gcd b curve_P.
Proof.
  intros E. pose proof curve_P_pos. unfold eqm in E. rewrite (Z.gcd_comm a), (Z.gcd_comm b).
  rewrite <- (Z.gcd_mod a), <- (Z.gcd_mod b) by lia. by rewrite E.
Qed.

Lemma affine_rep x y z a b : rep (JPoint x y z) a b -> Z.gcd z curve_P = 1 -> affineFromJacobian x y z = Some (a mod curve_P, b mod curve_P).
Proof.
  intros [Hx Hy] Hz. cbn [jx jy jz] in Hx, Hy. pose proof curve_P_pos. destruct (ModInverse_complete z curve_P) as [i Ei]; [done|done|].
  destruct (ModInverse_correct z curve_P i) as [Hi _]; [done|done|]. unfold affineFromJacobian. rewrite Ei. cbn [mbind option_bind].
  f_equal. f_equal.
  - change (x * (i * i) ≡ a). rewrite Hx. transitivity (a * (z * i) * (z * i)); [apply eqm_eq; ring|]. rewrite Hi. apply eqm_eq. ring.
  - change (y * (i * i * i) ≡ b). rewrite Hy. transitivity (b * (z * i) * (z * i) * (z * i)); [apply eqm_eq; ring|]. rewrite Hi. apply eqm_eq. ring.
Qed.

Lemma IsOnCurve_eqm x y : IsOnCurve x y = true <-> on_curve Z.add Z.mul (eqm curve_P) curve_B x y.
Proof. unfold IsOnCurve, on_curve, eqm. rewrite Z.eqb_eq. split; intros; congruence. Qed.

Lemma affine_on x y z a b :
  on_j (JPoint x y z) -> Z.gcd z curve_P = 1 -> affineFromJacobian x y z = Some (a, b) -> IsOnCurve a b = true.
Proof.
  intros Ho Hz E. pose proof curve_P_pos. destruct (ModInverse_complete z curve_P) as [i Ei]; [done|done|].
  destruct (ModInverse_correct z curve_P i) as [Hi _]; [done|done|]. unfold affineFromJacobian in E. rewrite Ei in E. cbn [mbind option_bind] in E.
  injection E as <- <-. apply IsOnCurve_eqm. unfold on_curve. rewrite !eqm_mod. unfold jon in Ho. cbn [jx jy jz] in Ho.
  transitivity (y * y * (i * i * i * (i * i * i))); [apply eqm_eq; ring|]. rewrite Ho.
  transitivity (x * (i * i) * (x * (i * i)) * (x * (i * i)) + curve_B * (z * i * (z * i) * (z * i) * (z * i) * (z * i) * (z * i)));
    [apply eqm_eq; ring|]. rewrite Hi. apply eqm_eq. ring.
Qed.

(** Division by an invertible number. *)
Lemma slope d n : Z.gcd d curve_P = 1 -> exists l, l * d ≡ n.
Proof.
  intros Hd. pose proof curve_P_pos. destruct (ModInverse_complete d curve_P) as [i Ei]; [done|done|].
  destruct (ModInverse_correct d curve_P i) as [Hi _]; [done|done|]. exists (n * i).
  transitivity (n * (d * i)); [apply eqm_eq; ring|]. rewrite Hi. apply eqm_eq. ring.
Qed.

Lemma rep_eqm p x3 y3 z3 a b : x3 ≡ jx p -> y3 ≡ jy p -> z3 ≡ jz p -> rep p a b -> rep (JPoint x3 y3 z3) a b.
Proof. intros H1 H2 H3 [Hx Hy]. unfold jrep. cbn [jx jy jz]. by rewrite H1, H2, H3. Qed.
Lemma on_eqm p x3 y3 z3 : x3 ≡ jx p -> y3 ≡ jy p -> z3 ≡ jz p -> on_j p -> on_j (JPoint x3 y3 z3).
Proof. intros H1 H2 H3 Hp. unfold jon in *. cbn [jx jy jz]. by rewrite H1, H2, H3. Qed.

(** ** Theorems *)

(** Points of secp256k1 are added by the chord-and-tangent law.  For points
    whose x coordinates differ by an invertible number, Add returns the third
    point on the chord, reflected; for an invertible y, Double does so with the
    tangent; points on the curve give points on the curve.  Add of points with
    equal x, a point and itself among them, panics. *)
Theorem secp256k1_group_law x1 y1 x2 y2 :
  (Z.gcd (x2 - x1) curve_P = 1 -> exists l, l * (x2 - x1) ≡ y2 - y1 /\
     let x3 := l * l - x1 - x2 in let y3 := l * (x1 - x3) - y1 in
     BitCurve_Add x1 y1 x2 y2 = Some (x3 mod curve_P, y3 mod curve_P) /\
     (IsOnCurve x1 y1 = true -> IsOnCurve x2 y2 = true -> IsOnCurve (x3 mod curve_P) (y3 mod curve_P) = true)) /\
  (Z.gcd y1 curve_P = 1 -> exists l, l * (y1 + y1) ≡ 3 * (x1 * x1) /\
     let x3 := l * l - x1 - x1 in let y3 := l * (x1 - x3) - y1 in
     BitCurve_Double x1 y1 = Some (x3 mod curve_P, y3 mod curve_P) /\
     (IsOnCurve x1 y1 = true -> IsOnCurve (x3 mod curve_P) (y3 mod curve_P) = true)) /\
  (x1 ≡ x2 -> BitCurve_Add x1 y1 x2 y2 = None).
Proof.
  assert (Hr : forall x y, rep (JPoint x y 1) x y) by (intros x y; unfold jrep; cbn [jx jy jz]; split; apply eqm_eq; ring).
  assert (Ho : forall x y, IsOnCurve x y = true -> on_j (JPoint x y 1)).
  { intros x y E. apply IsOnCurve_eqm in E. unfold jon. cbn [jx jy jz]. unfold on_curve in E. rewrite E. apply eqm_eq. ring. }
  assert (H2 : Z.gcd 2 curve_P = 1) by (by vm_compute).
  pose proof (addJacobian_formula x1 y1 1 x2 y2 1) as HA. pose proof (doubleJacobian_formula x1 y1 1) as HD.
  unfold BitCurve_Add, BitCurve_Double. destruct (addJacobian x1 y1 1 x2 y2 1) as [[x3 y3] z3]. destruct (doubleJacobian x1 y1 1) as [[x4 y4] z4].
  cbv zeta in HA, HD. destruct HA as (Ax & Ay & Az), HD as (Dx & Dy & Dz). split_and!.
  - intros Hg. destruct (slope _ (y2 - y1) Hg) as [l Hl]. exists l. split; [done|]. cbv zeta.
    assert (Hz : Z.gcd z3 curve_P = 1).
    { rewrite (invertible_eqm z3 (2 * (x2 - x1))); [by apply invertible_mul|]. rewrite Az. unfold jadd. cbn [jx jy jz]. apply eqm_eq. ring. }
    assert (HR : affineFromJacobian x3 y3 z3 = Some ((l * l - x1 - x2) mod curve_P, (l * (x1 - (l * l - x1 - x2)) - y1) mod curve_P)).
    { apply affine_rep; [|done]. eapply rep_eqm; [done|done|done|].
      by apply (jadd_chord 0 1 Z.add Z.mul Z.sub Z.opp (eqm curve_P) (eqm_ring _) _ (eqm_ext _) (JPoint x1 y1 1) (JPoint x2 y2 1) x1 y1 x2 y2 l). }
    split; [done|]. intros O1 O2. eapply affine_on; [|exact Hz|exact HR]. eapply on_eqm; [done|done|done|].
    apply (jadd_on 0 1 Z.add Z.mul Z.sub Z.opp (eqm curve_P) (eqm_ring _) _ (eqm_ext _)); by apply Ho.
  - intros Hg. assert (Hg2 : Z.gcd (y1 + y1) curve_P = 1) by (replace (y1 + y1) with (2 * y1) by ring; by apply invertible_mul).
    destruct (slope _ (3 * (x1 * x1)) Hg2) as [l Hl]. exists l. split; [done|]. cbv zeta.
    assert (Hz : Z.gcd z4 curve_P = 1).
    { rewrite (invertible_eqm z4 (y1 + y1)); [done|]. rewrite Dz. unfold jdouble. cbn [jx jy jz]. apply eqm_eq. ring. }
    assert (HR : affineFromJacobian x4 y4 z4 = Some ((l * l - x1 - x1) mod curve_P, (l * (x1 - (l * l - x1 - x1)) - y1) mod curve_P)).
    { apply affine_rep; [|done]. eapply rep_eqm; [done|done|done|].
      apply (jdouble_tangent 0 1 Z.add Z.mul Z.sub Z.opp (eqm curve_P) (eqm_ring _) _ (eqm_ext _) (JPoint x1 y1 1)); [done|].
      rewrite Hl. apply eqm_eq. ring. }
    split; [done|]. intros O1. eapply affine_on; [|exact Hz|exact HR]. eapply on_eqm; [done|done|done|].
    apply (jdouble_on 0 1 Z.add Z.mul Z.sub Z.opp (eqm curve_P) (eqm_ring _) _ (eqm_ext _)). by apply Ho.
  - intros E. assert (Z0 : z3 ≡ 0) by (rewrite Az; unfold jadd; cbn [jx jy jz]; rewrite E; apply eqm_eq; ring).
    unfold affineFromJacobian, ModInverse. apply eqm_zero in Z0. rewrite Z0. by vm_compute.
Qed.

Example secp256k1_double_G : BitCurve_Double curve_Gx curve_Gy =
  Some (0xc6047f9441ed7d6d3045406e95c07cd85c778e4b8cef3ca7abac09b95c709ee5,
        0x1ae168fea63dc339a3c58419466ceaeef7f632653266d0e1236431a950cfe52a).
Proof. vm_compute. reflexivity. Qed.

Lemma secp256k1_group_law_witness :
  BitCurve_Add curve_Gx curve_Gy curve_Gx curve_Gy = None /\
  exists l, l * (curve_Gy + curve_Gy) ≡ 3 * (curve_Gx * curve_Gx) /\
    BitCurve_Double curve_Gx curve_Gy = Some ((l * l - curve_Gx - curve_Gx) mod curve_P, (l * (curve_Gx - (l * l - curve_Gx - curve_Gx)) - curve_Gy) mod curve_P).
Proof.
  assert (Hy : Z.gcd curve_Gy curve_P = 1) by (by vm_compute).
  destruct (secp256k1_group_law curve_Gx curve_Gy curve_Gx curve_Gy) as (_ & HD & HA). split; [by apply HA|].
  destruct (HD Hy) as (l & Hl & E & _). exists l. exact (conj Hl E).
Defined.
