(* ===== verification/Bn256Field.v ===== *)
(** * Package crypto/bn256/google: the tower of fields

    constants.go, gfp2.go, gfp6.go and gfp12.go: elements of GF(p^2), GF(p^6) and
    GF(p^12) as pairs and triples of integers that are reduced only by some of
    the operations.  Equality is congruence of the components.  The pool of
    integers is left out: every operation reads its arguments before it writes
    its result.  [None] stands for an inverse that does not exist: Invert of gfp2.go
    then computes with what the pool left in its variable, and the result is not
    specified. *)

From Stdlib Require Import Ring Setoid Morphisms.
From S2P Require Import Prelude Modular.

(** ** constants.go *)

Definition u : Z := 4965661367192848881.
Definition P : Z := 21888242871839275222246405745257275088696311157297823662689037894645226208583.
Definition Order : Z := 21888242871839275222246405745257275088548364400416034343698204186575808495617.

(** ** gfp2.go *)

(** x i + y *)
Record gfP2 : Type := GFp2 { x2 : Z; y2 : Z }.

Definition gfP2_SetZero : gfP2 := GFp2 0 0.
Definition gfP2_SetOne : gfP2 := GFp2 0 1.
Definition minimal (z : Z) : Z := if (z <? 0) || (P <=? z) then z mod P else z.
Definition gfP2_Minimal (e : gfP2) : gfP2 := GFp2 (minimal (x2 e)) (minimal (y2 e)).
Definition gfP2_IsZero (e : gfP2) : bool := (x2 e =? 0) && (y2 e =? 0).
(** Bits are those of the absolute value. *)
Definition gfP2_IsOne (e : gfP2) : bool := if negb (x2 e =? 0) then false else Z.abs (y2 e) =? 1.
Definition gfP2_Conjugate (a : gfP2) : gfP2 := GFp2 (- x2 a) (y2 a).
Definition gfP2_Negative (a : gfP2) : gfP2 := GFp2 (- x2 a) (- y2 a).
Definition gfP2_Add (a b : gfP2) : gfP2 := GFp2 (x2 a + x2 b) (y2 a + y2 b).
Definition gfP2_Sub (a b : gfP2) : gfP2 := GFp2 (x2 a - x2 b) (y2 a - y2 b).
Definition gfP2_Double (a : gfP2) : gfP2 := GFp2 (Z.shiftl (x2 a) 1) (Z.shiftl (y2 a) 1).

Definition gfP2_Mul (a b : gfP2) : gfP2 :=
  let tx := x2 a * y2 b in
  let t := x2 b * y2 a in
  let tx := (tx + t) mod P in
  let ty := y2 a * y2 b in
  let t := x2 a * x2 b in
  let ty := ty - t in
  GFp2 tx (ty mod P).

Definition gfP2_MulScalar (a : gfP2) (b : Z) : gfP2 := GFp2 (x2 a * b) (y2 a * b).

Definition gfP2_MulXi (a : gfP2) : gfP2 :=
  let tx := Z.shiftl (x2 a) 3 + x2 a + y2 a in
  let ty := Z.shiftl (y2 a) 3 + y2 a - x2 a in
  GFp2 tx ty.

Definition gfP2_Square (a : gfP2) : gfP2 :=
  let t1 := y2 a - x2 a in
  let t2 := x2 a + y2 a in
  let ty := (t1 * t2) mod P in
  let t1 := Z.shiftl (x2 a * y2 a) 1 in
  GFp2 (t1 mod P) ty.

Definition gfP2_Invert (a : gfP2) : option gfP2 :=
  let t := y2 a * y2 a + x2 a * x2 a in
  inv ← ModInverse t P;
  Some (GFp2 ((- x2 a * inv) mod P) ((y2 a * inv) mod P)).

(** The loop of Exp over the bits of the power, from the highest. *)
Fixpoint gfP2_exp (a : gfP2) (power : Z) (i : nat) (sum : gfP2) : gfP2 :=
  match i with
  | O => sum
  | S i =>
      let t := gfP2_Square sum in
      gfP2_exp a power i (if Z.testbit power (Z.of_nat i) then gfP2_Mul t a else t)
  end.
Definition gfP2_Exp (a : gfP2) (power : Z) : gfP2 := gfP2_exp a power (Z.to_nat (bit_len power)) gfP2_SetOne.

(** The constants of constants.go in GF(p^2) and GF(p). *)
Definition xiToPMinus1Over6 : gfP2 :=
  GFp2 16469823323077808223889137241176536799009286646108169935659301613961712198316
       8376118865763821496583973867626364092589906065868298776909617916018768340080.
Definition xiToPMinus1Over3 : gfP2 :=
  GFp2 10307601595873709700152284273816112264069230130616436755625194854815875713954
       21575463638280843010398324269430826099269044274347216827212613867836435027261.
Definition xiToPMinus1Over2 : gfP2 :=
  GFp2 3505843767911556378687030309984248845540243509899259641013678093033130930403
       2821565182194536844548159561693502659359617185244120367078079554186484126554.
Definition xiToPSquaredMinus1Over3 : Z := 21888242871839275220042445260109153167277707414472061641714758635765020556616.
Definition xiTo2PSquaredMinus2Over3 : Z := 2203960485148121921418603742825762020974279258880205651966.
Definition xiToPSquaredMinus1Over6 : Z := 21888242871839275220042445260109153167277707414472061641714758635765020556617.
Definition xiTo2PMinus2Over3 : gfP2 :=
  GFp2 19937756971775647987995932169929341994314640652964949448313374472400716661030
       2581911344467009335267311115468803099551665605076196740867805258568234346338.

(** ** gfp6.go *)

(** x t^2 + y t + z *)
Record gfP6 : Type := GFp6 { x6 : gfP2; y6 : gfP2; z6 : gfP2 }.

Definition gfP6_SetZero : gfP6 := GFp6 gfP2_SetZero gfP2_SetZero gfP2_SetZero.
Definition gfP6_SetOne : gfP6 := GFp6 gfP2_SetZero gfP2_SetZero gfP2_SetOne.
Definition gfP6_Minimal (e : gfP6) : gfP6 := GFp6 (gfP2_Minimal (x6 e)) (gfP2_Minimal (y6 e)) (gfP2_Minimal (z6 e)).
Definition gfP6_IsZero (e : gfP6) : bool := gfP2_IsZero (x6 e) && gfP2_IsZero (y6 e) && gfP2_IsZero (z6 e).
Definition gfP6_IsOne (e : gfP6) : bool := gfP2_IsZero (x6 e) && gfP2_IsZero (y6 e) && gfP2_IsOne (z6 e).
Definition gfP6_Negative (a : gfP6) : gfP6 := GFp6 (gfP2_Negative (x6 a)) (gfP2_Negative (y6 a)) (gfP2_Negative (z6 a)).

Definition gfP6_Frobenius (a : gfP6) : gfP6 :=
  GFp6 (gfP2_Mul (gfP2_Conjugate (x6 a)) xiTo2PMinus2Over3) (gfP2_Mul (gfP2_Conjugate (y6 a)) xiToPMinus1Over3) (gfP2_Conjugate (z6 a)).
Definition gfP6_FrobeniusP2 (a : gfP6) : gfP6 :=
  GFp6 (gfP2_MulScalar (x6 a) xiTo2PSquaredMinus2Over3) (gfP2_MulScalar (y6 a) xiToPSquaredMinus1Over3) (z6 a).

Definition gfP6_Add (a b : gfP6) : gfP6 := GFp6 (gfP2_Add (x6 a) (x6 b)) (gfP2_Add (y6 a) (y6 b)) (gfP2_Add (z6 a) (z6 b)).
Definition gfP6_Sub (a b : gfP6) : gfP6 := GFp6 (gfP2_Sub (x6 a) (x6 b)) (gfP2_Sub (y6 a) (y6 b)) (gfP2_Sub (z6 a) (z6 b)).
Definition gfP6_Double (a : gfP6) : gfP6 := GFp6 (gfP2_Double (x6 a)) (gfP2_Double (y6 a)) (gfP2_Double (z6 a)).

Definition gfP6_Mul (a b : gfP6) : gfP6 :=
  let v0 := gfP2_Mul (z6 a) (z6 b) in
  let v1 := gfP2_Mul (y6 a) (y6 b) in
  let v2 := gfP2_Mul (x6 a) (x6 b) in
  let t0 := gfP2_Add (x6 a) (y6 a) in
  let t1 := gfP2_Add (x6 b) (y6 b) in
  let tz := gfP2_Mul t0 t1 in
  let tz := gfP2_Sub tz v1 in
  let tz := gfP2_Sub tz v2 in
  let tz := gfP2_MulXi tz in
  let tz := gfP2_Add tz v0 in
  let t0 := gfP2_Add (y6 a) (z6 a) in
  let t1 := gfP2_Add (y6 b) (z6 b) in
  let ty := gfP2_Mul t0 t1 in
  let ty := gfP2_Sub ty v0 in
  let ty := gfP2_Sub ty v1 in
  let t0 := gfP2_MulXi v2 in
  let ty := gfP2_Add ty t0 in
  let t0 := gfP2_Add (x6 a) (z6 a) in
  let t1 := gfP2_Add (x6 b) (z6 b) in
  let tx := gfP2_Mul t0 t1 in
  let tx := gfP2_Sub tx v0 in
  let tx := gfP2_Add tx v1 in
  let tx := gfP2_Sub tx v2 in
  GFp6 tx ty tz.

Definition gfP6_MulScalar (a : gfP6) (b : gfP2) : gfP6 := GFp6 (gfP2_Mul (x6 a) b) (gfP2_Mul (y6 a) b) (gfP2_Mul (z6 a) b).
Definition gfP6_MulGFP (a : gfP6) (b : Z) : gfP6 := GFp6 (gfP2_MulScalar (x6 a) b) (gfP2_MulScalar (y6 a) b) (gfP2_MulScalar (z6 a) b).
Definition gfP6_MulTau (a : gfP6) : gfP6 := GFp6 (y6 a) (z6 a) (gfP2_MulXi (x6 a)).

Definition gfP6_Square (a : gfP6) : gfP6 :=
  let v0 := gfP2_Square (z6 a) in
  let v1 := gfP2_Square (y6 a) in
  let v2 := gfP2_Square (x6 a) in
  let c0 := gfP2_Add (x6 a) (y6 a) in
  let c0 := gfP2_Square c0 in
  let c0 := gfP2_Sub c0 v1 in
  let c0 := gfP2_Sub c0 v2 in
  let c0 := gfP2_MulXi c0 in
  let c0 := gfP2_Add c0 v0 in
  let c1 := gfP2_Add (y6 a) (z6 a) in
  let c1 := gfP2_Square c1 in
  let c1 := gfP2_Sub c1 v0 in
  let c1 := gfP2_Sub c1 v1 in
  let xiV2 := gfP2_MulXi v2 in
  let c1 := gfP2_Add c1 xiV2 in
  let c2 := gfP2_Add (x6 a) (z6 a) in
  let c2 := gfP2_Square c2 in
  let c2 := gfP2_Sub c2 v0 in
  let c2 := gfP2_Add c2 v1 in
  let c2 := gfP2_Sub c2 v2 in
  GFp6 c2 c1 c0.

Definition gfP6_Invert (a : gfP6) : option gfP6 :=
  let A := gfP2_Square (z6 a) in
  let t1 := gfP2_MulXi (gfP2_Mul (x6 a) (y6 a)) in
  let A := gfP2_Sub A t1 in
  let B := gfP2_MulXi (gfP2_Square (x6 a)) in
  let t1 := gfP2_Mul (y6 a) (z6 a) in
  let B := gfP2_Sub B t1 in
  let C_ := gfP2_Square (y6 a) in
  let t1 := gfP2_Mul (x6 a) (z6 a) in
  let C_ := gfP2_Sub C_ t1 in
  let F := gfP2_MulXi (gfP2_Mul C_ (y6 a)) in
  let t1 := gfP2_Mul A (z6 a) in
  let F := gfP2_Add F t1 in
  let t1 := gfP2_MulXi (gfP2_Mul B (x6 a)) in
  let F := gfP2_Add F t1 in
  F ← gfP2_Invert F;
  Some (GFp6 (gfP2_Mul C_ F) (gfP2_Mul B F) (gfP2_Mul A F)).

(** ** gfp12.go *)

(** x w + y *)
Record gfP12 : Type := GFp12 { x12 : gfP6; y12 : gfP6 }.

Definition gfP12_SetZero : gfP12 := GFp12 gfP6_SetZero gfP6_SetZero.
Definition gfP12_SetOne : gfP12 := GFp12 gfP6_SetZero gfP6_SetOne.
Definition gfP12_Minimal (e : gfP12) : gfP12 := GFp12 (gfP6_Minimal (x12 e)) (gfP6_Minimal (y12 e)).
Definition gfP12_IsZero (e : gfP12) : bool := let e := gfP12_Minimal e in gfP6_IsZero (x12 e) && gfP6_IsZero (y12 e).
Definition gfP12_IsOne (e : gfP12) : bool := let e := gfP12_Minimal e in gfP6_IsZero (x12 e) && gfP6_IsOne (y12 e).
(** The value that e is set to; the method returns its argument. *)
Definition gfP12_Conjugate (a : gfP12) : gfP12 := GFp12 (gfP6_Negative (x12 a)) (y12 a).
Definition gfP12_Negative (a : gfP12) : gfP12 := GFp12 (gfP6_Negative (x12 a)) (gfP6_Negative (y12 a)).
Definition gfP12_Frobenius (a : gfP12) : gfP12 :=
  GFp12 (gfP6_MulScalar (gfP6_Frobenius (x12 a)) xiToPMinus1Over6) (gfP6_Frobenius (y12 a)).
Definition gfP12_FrobeniusP2 (a : gfP12) : gfP12 :=
  GFp12 (gfP6_MulGFP (gfP6_FrobeniusP2 (x12 a)) xiToPSquaredMinus1Over6) (gfP6_FrobeniusP2 (y12 a)).
Definition gfP12_Add (a b : gfP12) : gfP12 := GFp12 (gfP6_Add (x12 a) (x12 b)) (gfP6_Add (y12 a) (y12 b)).
Definition gfP12_Sub (a b : gfP12) : gfP12 := GFp12 (gfP6_Sub (x12 a) (x12 b)) (gfP6_Sub (y12 a) (y12 b)).

Definition gfP12_Mul (a b : gfP12) : gfP12 :=
  let tx := gfP6_Mul (x12 a) (y12 b) in
  let t := gfP6_Mul (x12 b) (y12 a) in
  let tx := gfP6_Add tx t in
  let ty := gfP6_Mul (y12 a) (y12 b) in
  let t := gfP6_MulTau (gfP6_Mul (x12 a) (x12 b)) in
  GFp12 tx (gfP6_Add ty t).

(** MulScalar multiplies its receiver, and not [a]. *)
Definition gfP12_MulScalar (e a : gfP12) (b : gfP6) : gfP12 := GFp12 (gfP6_Mul (x12 e) b) (gfP6_Mul (y12 e) b).

Definition gfP12_Square (a : gfP12) : gfP12 :=
  let v0 := gfP6_Mul (x12 a) (y12 a) in
  let t := gfP6_MulTau (x12 a) in
  let t := gfP6_Add (y12 a) t in
  let ty := gfP6_Add (x12 a) (y12 a) in
  let ty := gfP6_Mul ty t in
  let ty := gfP6_Sub ty v0 in
  let t := gfP6_MulTau v0 in
  let ty := gfP6_Sub ty t in
  GFp12 (gfP6_Double v0) ty.

Fixpoint gfP12_exp (a : gfP12) (power : Z) (i : nat) (sum : gfP12) : gfP12 :=
  match i with
  | O => sum
  | S i =>
      let t := gfP12_Square sum in
      gfP12_exp a power i (if Z.testbit power (Z.of_nat i) then gfP12_Mul t a else t)
  end.
Definition gfP12_Exp (a : gfP12) (power : Z) : gfP12 := gfP12_exp a power (Z.to_nat (bit_len power)) gfP12_SetOne.

Definition gfP12_Invert (a : gfP12) : option gfP12 :=
  let t1 := gfP6_Square (x12 a) in
  let t2 := gfP6_Square (y12 a) in
  let t1 := gfP6_MulTau t1 in
  let t1 := gfP6_Sub t2 t1 in
  t2 ← gfP6_Invert t1;
  let e := GFp12 (gfP6_Negative (x12 a)) (y12 a) in
  Some (gfP12_MulScalar e e t2).

(** ** GF(p^2) is a ring *)

#[local] Opaque P.

Definition eq2 (a b : gfP2) : Prop := eqm P (x2 a) (x2 b) /\ eqm P (y2 a) (y2 b).

#[export] Instance eq2_equiv : Equivalence eq2.
Proof.
  split.
  - intros a. by split.
  - intros a b [H1 H2]. by split; symmetry.
  - intros a b c [H1 H2] [H3 H4]. by split; [rewrite H1|rewrite H2].
Qed.
#[export] Instance gfP2_Add_proper : Proper (eq2 ==> eq2 ==> eq2) gfP2_Add.
Proof. intros a a' [H1 H2] b b' [H3 H4]. split; cbn; [by rewrite H1, H3|by rewrite H2, H4]. Qed.
#[export] Instance gfP2_Sub_proper : Proper (eq2 ==> eq2 ==> eq2) gfP2_Sub.
Proof. intros a a' [H1 H2] b b' [H3 H4]. split; cbn; [by rewrite H1, H3|by rewrite H2, H4]. Qed.
#[export] Instance gfP2_Negative_proper : Proper (eq2 ==> eq2) gfP2_Negative.
Proof. intros a a' [H1 H2]. split; cbn; [by rewrite H1|by rewrite H2]. Qed.
#[export] Instance gfP2_Conjugate_proper : Proper (eq2 ==> eq2) gfP2_Conjugate.
Proof. intros a a' [H1 H2]. split; cbn; [by rewrite H1|done]. Qed.
#[export] Instance gfP2_Mul_proper : Proper (eq2 ==> eq2 ==> eq2) gfP2_Mul.
Proof. intros a a' [H1 H2] b b' [H3 H4]. split; cbn; rewrite !eqm_mod; by rewrite H1, H2, H3, H4. Qed.

(** The generators: i with i^2 = -1, and xi = i + 9. *)
Definition i_ : gfP2 := GFp2 1 0.
Definition xi : gfP2 := GFp2 1 9.
Definition scalar (z : Z) : gfP2 := GFp2 0 z.

(** Components of an identity, up to reductions and shifts. *)
Ltac components :=
  cbn [x2 y2 gfP2_SetZero gfP2_SetOne gfP2_Add gfP2_Sub gfP2_Negative gfP2_Conjugate gfP2_Mul gfP2_Square gfP2_MulXi gfP2_Double
       gfP2_MulScalar i_ xi scalar];
  rewrite ?Z.shiftl_mul_pow2 by lia; rewrite ?eqm_mod; apply eqm_eq; ring.

Lemma gfP2_ring : ring_theory gfP2_SetZero gfP2_SetOne gfP2_Add gfP2_Mul gfP2_Sub gfP2_Negative eq2.
Proof. split; intros; split; components. Qed.
Lemma gfP2_ext : ring_eq_ext gfP2_Add gfP2_Mul gfP2_Negative eq2.
Proof. split; [apply gfP2_Add_proper|apply gfP2_Mul_proper|apply gfP2_Negative_proper]. Qed.
Add Ring gfP2_tower : gfP2_ring (setoid eq2_equiv gfP2_ext).

Lemma i_squared : eq2 (gfP2_Mul i_ i_) (gfP2_Negative gfP2_SetOne).
Proof. split; components. Qed.
Lemma gfP2_MulXi_Mul a : eq2 (gfP2_MulXi a) (gfP2_Mul xi a).
Proof. split; components. Qed.
Lemma gfP2_Square_eq a : gfP2_Square a = gfP2_Mul a a.
Proof.
  unfold gfP2_Square, gfP2_Mul. rewrite Z.shiftl_mul_pow2 by lia. f_equal; [f_equal; ring|]. f_equal. ring.
Qed.
Lemma gfP2_Square_Mul a : eq2 (gfP2_Square a) (gfP2_Mul a a).
Proof. by rewrite gfP2_Square_eq. Qed.
Lemma gfP2_Double_Add a : eq2 (gfP2_Double a) (gfP2_Add a a).
Proof. split; components. Qed.
Lemma gfP2_MulScalar_Mul a z : eq2 (gfP2_MulScalar a z) (gfP2_Mul a (scalar z)).
Proof. split; components. Qed.
Lemma gfP2_Conjugate_Mul a b : eq2 (gfP2_Conjugate (gfP2_Mul a b)) (gfP2_Mul (gfP2_Conjugate a) (gfP2_Conjugate b)).
Proof. split; components. Qed.
Lemma gfP2_Conjugate_Add a b : eq2 (gfP2_Conjugate (gfP2_Add a b)) (gfP2_Add (gfP2_Conjugate a) (gfP2_Conjugate b)).
Proof. split; components. Qed.

Lemma P_pos : 0 < P.
Proof. by vm_compute. Qed.

Lemma gfP2_Invert_correct a b : gfP2_Invert a = Some b -> eq2 (gfP2_Mul a b) gfP2_SetOne.
Proof.
  unfold gfP2_Invert. destruct (ModInverse _ P) as [inv|] eqn:E; [|done]. intros [= <-]. apply ModInverse_correct in E as [E _]; [|exact P_pos].
  split; cbn [x2 y2 gfP2_Mul gfP2_SetOne]; rewrite !eqm_mod; [apply eqm_eq; ring|].
  transitivity ((y2 a * y2 a + x2 a * x2 a) * inv); [apply eqm_eq; ring|done].
Qed.

(** ** GF(p^6) is a ring *)

Definition eq6 (a b : gfP6) : Prop := eq2 (x6 a) (x6 b) /\ eq2 (y6 a) (y6 b) /\ eq2 (z6 a) (z6 b).

#[export] Instance eq6_equiv : Equivalence eq6.
Proof.
  split.
  - intros a. split_and!; reflexivity.
  - intros a b (H1 & H2 & H3). split_and!; by symmetry.
  - intros a b c (H1 & H2 & H3) (H4 & H5 & H6). split_and!; etransitivity; eassumption.
Qed.

(** The product of the code, without its shortcuts. *)
Ltac plain2 := rewrite ?gfP2_MulXi_Mul, ?gfP2_Square_Mul, ?gfP2_Double_Add, ?gfP2_MulScalar_Mul.

Lemma gfP6_Mul_schoolbook a b :
  eq6 (gfP6_Mul a b)
    (GFp6 (gfP2_Add (gfP2_Add (gfP2_Mul (x6 a) (z6 b)) (gfP2_Mul (y6 a) (y6 b))) (gfP2_Mul (z6 a) (x6 b)))
          (gfP2_Add (gfP2_Add (gfP2_Mul (y6 a) (z6 b)) (gfP2_Mul (z6 a) (y6 b))) (gfP2_Mul xi (gfP2_Mul (x6 a) (x6 b))))
          (gfP2_Add (gfP2_Mul (z6 a) (z6 b)) (gfP2_Mul xi (gfP2_Add (gfP2_Mul (x6 a) (y6 b)) (gfP2_Mul (y6 a) (x6 b)))))).
Proof. unfold gfP6_Mul. split_and!; cbn [x6 y6 z6]; plain2; ring. Qed.

#[export] Instance gfP6_Add_proper : Proper (eq6 ==> eq6 ==> eq6) gfP6_Add.
Proof. intros a a' (H1 & H2 & H3) b b' (H4 & H5 & H6). split_and!; cbn [x6 y6 z6 gfP6_Add]; by apply gfP2_Add_proper. Qed.
#[export] Instance gfP6_Sub_proper : Proper (eq6 ==> eq6 ==> eq6) gfP6_Sub.
Proof. intros a a' (H1 & H2 & H3) b b' (H4 & H5 & H6). split_and!; cbn [x6 y6 z6 gfP6_Sub]; by apply gfP2_Sub_proper. Qed.
#[export] Instance gfP6_Negative_proper : Proper (eq6 ==> eq6) gfP6_Negative.
Proof. intros a a' (H1 & H2 & H3). split_and!; cbn [x6 y6 z6 gfP6_Negative]; by apply gfP2_Negative_proper. Qed.
#[export] Instance gfP6_Mul_proper : Proper (eq6 ==> eq6 ==> eq6) gfP6_Mul.
Proof.
  intros a a' (H1 & H2 & H3) b b' (H4 & H5 & H6). rewrite !gfP6_Mul_schoolbook.
  split_and!; cbn [x6 y6 z6]; by rewrite H1, H2, H3, H4, H5, H6.
Qed.

Lemma gfP6_ring : ring_theory gfP6_SetZero gfP6_SetOne gfP6_Add gfP6_Mul gfP6_Sub gfP6_Negative eq6.
Proof.
  split; intros; rewrite ?gfP6_Mul_schoolbook; split_and!;
    cbn [x6 y6 z6 gfP6_SetZero gfP6_SetOne gfP6_Add gfP6_Sub gfP6_Negative]; try ring;
    unfold gfP6_Mul; cbn [x6 y6 z6]; plain2; ring.
Qed.
Lemma gfP6_ext : ring_eq_ext gfP6_Add gfP6_Mul gfP6_Negative eq6.
Proof. split; [apply gfP6_Add_proper|apply gfP6_Mul_proper|apply gfP6_Negative_proper]. Qed.
Add Ring gfP6_tower : gfP6_ring (setoid eq6_equiv gfP6_ext).

(** t with t^3 = xi, and the embedding of GF(p^2). *)
Definition tau : gfP6 := GFp6 gfP2_SetZero gfP2_SetOne gfP2_SetZero.
Definition in6 (a : gfP2) : gfP6 := GFp6 gfP2_SetZero gfP2_SetZero a.

Ltac components6 :=
  rewrite ?gfP6_Mul_schoolbook; split_and!;
  cbn [x6 y6 z6 tau in6 gfP6_SetZero gfP6_SetOne gfP6_Add gfP6_Sub gfP6_Negative gfP6_MulTau gfP6_MulScalar gfP6_MulGFP gfP6_Double
       gfP6_Square]; plain2; ring.

Lemma gfP6_MulTau_Mul a : eq6 (gfP6_MulTau a) (gfP6_Mul tau a).
Proof. components6. Qed.
Lemma gfP6_MulScalar_Mul a b : eq6 (gfP6_MulScalar a b) (gfP6_Mul a (in6 b)).
Proof. components6. Qed.
Lemma gfP6_MulGFP_Mul a z : eq6 (gfP6_MulGFP a z) (gfP6_Mul a (in6 (scalar z))).
Proof. components6. Qed.
Lemma gfP6_Square_Mul a : eq6 (gfP6_Square a) (gfP6_Mul a a).
Proof. components6. Qed.
Lemma gfP6_Double_Add a : eq6 (gfP6_Double a) (gfP6_Add a a).
Proof. components6. Qed.
Lemma tau_cubed : eq6 (gfP6_Mul tau (gfP6_Mul tau tau)) (in6 xi).
Proof. rewrite <- (gfP6_MulTau_Mul tau), <- gfP6_MulTau_Mul. components6. Qed.

Lemma gfP6_Invert_correct a b : gfP6_Invert a = Some b -> eq6 (gfP6_Mul a b) gfP6_SetOne.
Proof.
  unfold gfP6_Invert. match goal with |- context [gfP2_Invert ?f] => destruct (gfP2_Invert f) as [F|] eqn:E end; [|done].
  intros [= <-]. apply gfP2_Invert_correct in E. rewrite gfP6_Mul_schoolbook.
  split_and!; cbn [x6 y6 z6 gfP6_SetOne]; plain2; [ring|ring|]. rewrite <- E. plain2. ring.
Qed.

(** ** GF(p^12) is a ring *)

Definition eq12 (a b : gfP12) : Prop := eq6 (x12 a) (x12 b) /\ eq6 (y12 a) (y12 b).

#[export] Instance eq12_equiv : Equivalence eq12.
Proof.
  split.
  - intros a. split; reflexivity.
  - intros a b (H1 & H2). split; by symmetry.
  - intros a b c (H1 & H2) (H3 & H4). split; etransitivity; eassumption.
Qed.

Ltac plain6 := rewrite ?gfP6_MulTau_Mul, ?gfP6_Square_Mul, ?gfP6_Double_Add, ?gfP6_MulScalar_Mul, ?gfP6_MulGFP_Mul.

#[export] Instance gfP12_Add_proper : Proper (eq12 ==> eq12 ==> eq12) gfP12_Add.
Proof. intros a a' (H1 & H2) b b' (H3 & H4). split; cbn [x12 y12 gfP12_Add]; by apply gfP6_Add_proper. Qed.
#[export] Instance gfP12_Negative_proper : Proper (eq12 ==> eq12) gfP12_Negative.
Proof. intros a a' (H1 & H2). split; cbn [x12 y12 gfP12_Negative]; by apply gfP6_Negative_proper. Qed.
#[export] Instance gfP12_Mul_proper : Proper (eq12 ==> eq12 ==> eq12) gfP12_Mul.
Proof. intros a a' (H1 & H2) b b' (H3 & H4). split; cbn [x12 y12 gfP12_Mul]; plain6; by rewrite H1, H2, H3, H4. Qed.

Ltac components12 :=
  split; cbn [x12 y12 gfP12_SetZero gfP12_SetOne gfP12_Add gfP12_Sub gfP12_Negative gfP12_Mul gfP12_Square gfP12_Conjugate]; plain6; ring.

Lemma gfP12_ring : ring_theory gfP12_SetZero gfP12_SetOne gfP12_Add gfP12_Mul gfP12_Sub gfP12_Negative eq12.
Proof. split; intros; components12. Qed.
Lemma gfP12_ext : ring_eq_ext gfP12_Add gfP12_Mul gfP12_Negative eq12.
Proof. split; [apply gfP12_Add_proper|apply gfP12_Mul_proper|apply gfP12_Negative_proper]. Qed.
Add Ring gfP12_tower : gfP12_ring (setoid eq12_equiv gfP12_ext).

(** w with w^2 = t, and the embedding of GF(p^6). *)
Definition omega : gfP12 := GFp12 gfP6_SetOne gfP6_SetZero.
Definition in12 (a : gfP6) : gfP12 := GFp12 gfP6_SetZero a.

Lemma omega_squared : eq12 (gfP12_Mul omega omega) (in12 tau).
Proof. unfold omega, in12. components12. Qed.
Lemma in12_Mul a b : eq12 (in12 (gfP6_Mul a b)) (gfP12_Mul (in12 a) (in12 b)).
Proof. unfold in12. components12. Qed.
Lemma in6_Mul a b : eq6 (in6 (gfP2_Mul a b)) (gfP6_Mul (in6 a) (in6 b)).
Proof. components6. Qed.
Lemma gfP12_Square_Mul a : eq12 (gfP12_Square a) (gfP12_Mul a a).
Proof. components12. Qed.

Lemma gfP12_Invert_correct a b : gfP12_Invert a = Some b -> eq12 (gfP12_Mul a b) gfP12_SetOne.
Proof.
  unfold gfP12_Invert, gfP12_MulScalar. match goal with |- context [gfP6_Invert ?f] => destruct (gfP6_Invert f) as [F|] eqn:E end; [|done].
  intros [= <-]. apply gfP6_Invert_correct in E. split; cbn [x12 y12 gfP12_Mul gfP12_SetOne]; plain6; [ring|]. rewrite <- E. plain6. ring.
Qed.

(** Invert succeeds on every unit, because the norms are multiplicative. *)

Lemma gfP2_Invert_unit a b : eq2 (gfP2_Mul a b) gfP2_SetOne -> is_Some (gfP2_Invert a).
Proof.
  intros [Hx Hy]. unfold gfP2_Invert. destruct (ModInverse_complete (y2 a * y2 a + x2 a * x2 a) P) as [i ->]; [exact P_pos| |by eexists].
  apply (unit_gcd _ _ (y2 b * y2 b + x2 b * x2 b)); [exact P_pos|].
  transitivity (y2 (gfP2_Mul a b) * y2 (gfP2_Mul a b) + x2 (gfP2_Mul a b) * x2 (gfP2_Mul a b)).
  - unfold gfP2_Mul. cbn [x2 y2]. rewrite !eqm_mod. apply eqm_eq. ring.
  - rewrite Hx, Hy. by apply eqm_eq.
Qed.

Definition norm6 (a : gfP6) : gfP2 :=
  gfP2_Add (gfP2_Add (gfP2_Mul xi (gfP2_Mul (gfP2_Sub (gfP2_Mul (y6 a) (y6 a)) (gfP2_Mul (x6 a) (z6 a))) (y6 a)))
              (gfP2_Mul (gfP2_Sub (gfP2_Mul (z6 a) (z6 a)) (gfP2_Mul xi (gfP2_Mul (x6 a) (y6 a)))) (z6 a)))
    (gfP2_Mul xi (gfP2_Mul (gfP2_Sub (gfP2_Mul xi (gfP2_Mul (x6 a) (x6 a))) (gfP2_Mul (y6 a) (z6 a))) (x6 a))).
#[local] Instance norm6_proper : Proper (eq6 ==> eq2) norm6.
Proof. intros a b (H1 & H2 & H3). unfold norm6. by rewrite H1, H2, H3. Qed.
Lemma norm6_Mul a b : eq2 (norm6 (gfP6_Mul a b)) (gfP2_Mul (norm6 a) (norm6 b)).
Proof. rewrite gfP6_Mul_schoolbook. unfold norm6. cbn [x6 y6 z6]. plain2. ring. Qed.

Lemma gfP6_Invert_unit a b : eq6 (gfP6_Mul a b) gfP6_SetOne -> is_Some (gfP6_Invert a).
Proof.
  intros H. unfold gfP6_Invert. match goal with |- context [gfP2_Invert ?f] => destruct (gfP2_Invert_unit f (norm6 b)) as [i ->] end; [|by eexists].
  transitivity (gfP2_Mul (norm6 a) (norm6 b)); [apply gfP2_Mul_proper; [|reflexivity]; unfold norm6; plain2; ring|].
  rewrite <- norm6_Mul, H. unfold norm6. cbn [x6 y6 z6 gfP6_SetOne]. ring.
Qed.

Lemma gfP12_Invert_unit a b : eq12 (gfP12_Mul a b) gfP12_SetOne -> is_Some (gfP12_Invert a).
Proof.
  intros [Hx Hy]. unfold gfP12_Invert. set (norm12 := fun a => gfP6_Sub (gfP6_Mul (y12 a) (y12 a)) (gfP6_Mul tau (gfP6_Mul (x12 a) (x12 a)))).
  match goal with |- context [gfP6_Invert ?f] => destruct (gfP6_Invert_unit f (norm12 b)) as [i ->] end; [|by eexists].
  transitivity (norm12 (gfP12_Mul a b)).
  - unfold norm12. cbn [x12 y12 gfP12_Mul]. plain6. ring.
  - unfold norm12. rewrite Hx, Hy. cbn [x12 y12 gfP12_SetOne]. ring.
Qed.

Lemma Invert_iff a : is_Some (gfP12_Invert a) <-> exists b, eq12 (gfP12_Mul a b) gfP12_SetOne.
Proof. split; [intros [b Hb]; exists b; by apply gfP12_Invert_correct|intros [b Hb]; by eapply gfP12_Invert_unit]. Qed.

(** ** Powers *)

Fixpoint pow12 (a : gfP12) (n : nat) : gfP12 := match n with O => gfP12_SetOne | S n => gfP12_Mul a (pow12 a n) end.

Lemma pow12_add a n m : eq12 (pow12 a (n + m)) (gfP12_Mul (pow12 a n) (pow12 a m)).
Proof. induction n as [|n IH]; cbn [Nat.add pow12]; [ring|]. rewrite IH. ring. Qed.

Lemma gfP12_exp_pow a power i : forall sum k,
  0 <= power -> eq12 sum (pow12 a (Z.to_nat (Z.shiftr power (Z.of_nat i)))) -> k = Z.to_nat power ->
  eq12 (gfP12_exp a power i sum) (pow12 a k).
Proof.
  intros sum k Hp. revert sum k. induction i as [|i IH]; intros sum k Hs ->; cbn [gfP12_exp].
  - rewrite Z.shiftr_0_r in Hs. exact Hs.
  - apply IH; [|done]. set (q := Z.shiftr power (Z.of_nat (S i))) in *. assert (Hq : 0 <= q) by (by apply Z.shiftr_nonneg).
    assert (E : Z.shiftr power (Z.of_nat i) = 2 * q + Z.b2z (Z.testbit power (Z.of_nat i))).
    { unfold q. rewrite (Z.testbit_spec' power (Z.of_nat i)) by lia. rewrite !Z.shiftr_div_pow2 by lia.
      rewrite Nat2Z.inj_succ, Z.pow_succ_r, (Z.mul_comm 2 (2 ^ _)), <- Z.div_div by lia. rewrite (Z.div_mod (power / 2 ^ Z.of_nat i) 2) at 1 by lia. lia. }
    rewrite E. destruct (Z.testbit _ _); cbn [Z.b2z]; rewrite gfP12_Square_Mul, Hs.
    + replace (Z.to_nat (2 * q + 1)) with (S (Z.to_nat q + Z.to_nat q)) by lia. cbn [pow12]. rewrite pow12_add. ring.
    + replace (Z.to_nat (2 * q + 0)) with (Z.to_nat q + Z.to_nat q)%nat by lia. by rewrite pow12_add.
Qed.

Lemma gfP12_Exp_pow a power : 0 <= power -> eq12 (gfP12_Exp a power) (pow12 a (Z.to_nat power)).
Proof.
  intros Hp. unfold gfP12_Exp. apply gfP12_exp_pow; [done| |done]. rewrite Z.shiftr_div_pow2, Z.div_small; [done| |lia].
  unfold bit_len. destruct (Z.eqb_spec power 0) as [->|]; [done|]. rewrite Z.abs_eq by lia. pose proof (Z.log2_spec power ltac:(lia)) as L.
  pose proof (Z.log2_nonneg power). rewrite Z2Nat.id by lia. replace (Z.log2 power + 1) with (Z.succ (Z.log2 power)) by lia. lia.
Qed.

(** ** The Frobenius maps *)

(** What the constants are: with g for xi^((p-1)/6), the numbers g^2, g^3, g^4,
    the relation xi g^6 = xi^p, the conjugate of xi, and the norms of g, g^2 and
    g^4. *)
Lemma constants_consistent :
  eq2 xiToPMinus1Over3 (gfP2_Mul xiToPMinus1Over6 xiToPMinus1Over6) /\
  eq2 xiToPMinus1Over2 (gfP2_Mul xiToPMinus1Over6 xiToPMinus1Over3) /\
  eq2 xiTo2PMinus2Over3 (gfP2_Mul xiToPMinus1Over3 xiToPMinus1Over3) /\
  eq2 (gfP2_Conjugate xi) (gfP2_Mul xi (gfP2_Mul xiToPMinus1Over3 (gfP2_Mul xiToPMinus1Over3 xiToPMinus1Over3))) /\
  eq2 (gfP2_Mul (gfP2_Conjugate xiToPMinus1Over6) xiToPMinus1Over6) (scalar xiToPSquaredMinus1Over6) /\
  eq2 (gfP2_Mul (gfP2_Conjugate xiToPMinus1Over3) xiToPMinus1Over3) (scalar xiToPSquaredMinus1Over3) /\
  eq2 (gfP2_Mul (gfP2_Conjugate xiTo2PMinus2Over3) xiTo2PMinus2Over3) (scalar xiTo2PSquaredMinus2Over3).
Proof. repeat apply conj; vm_compute; reflexivity. Qed.

#[export] Instance gfP6_Frobenius_proper : Proper (eq6 ==> eq6) gfP6_Frobenius.
Proof. intros a a' (H1 & H2 & H3). split_and!; cbn [x6 y6 z6 gfP6_Frobenius]; by rewrite ?H1, ?H2, ?H3. Qed.

Lemma gfP6_Frobenius_Mul a b : eq6 (gfP6_Frobenius (gfP6_Mul a b)) (gfP6_Mul (gfP6_Frobenius a) (gfP6_Frobenius b)).
Proof.
  destruct constants_consistent as (_ & _ & H4 & Hx & _). rewrite !gfP6_Mul_schoolbook.
  split_and!; cbn [x6 y6 z6 gfP6_Frobenius]; rewrite ?gfP2_Conjugate_Add, ?gfP2_Conjugate_Mul, ?gfP2_Conjugate_Add, ?gfP2_Conjugate_Mul, ?Hx, ?H4; ring.
Qed.

Lemma gfP6_Frobenius_Add a b : eq6 (gfP6_Frobenius (gfP6_Add a b)) (gfP6_Add (gfP6_Frobenius a) (gfP6_Frobenius b)).
Proof. split_and!; cbn [x6 y6 z6 gfP6_Frobenius gfP6_Add]; rewrite gfP2_Conjugate_Add; ring. Qed.

Lemma gfP2_Conjugate_twice a : eq2 (gfP2_Conjugate (gfP2_Conjugate a)) a.
Proof. split; components. Qed.

Lemma gfP6_Frobenius_twice a : eq6 (gfP6_Frobenius (gfP6_Frobenius a)) (gfP6_FrobeniusP2 a).
Proof.
  destruct constants_consistent as (_ & _ & _ & _ & _ & N3 & N4).
  split_and!; cbn [x6 y6 z6 gfP6_Frobenius gfP6_FrobeniusP2]; rewrite ?gfP2_Conjugate_Mul, ?gfP2_Conjugate_twice, ?gfP2_MulScalar_Mul;
    [rewrite <- N4|rewrite <- N3|]; ring.
Qed.

Lemma Frobenius_tau : eq6 (gfP6_Frobenius tau) (gfP6_Mul tau (in6 xiToPMinus1Over3)).
Proof.
  assert (Z0 : eq2 (gfP2_Conjugate gfP2_SetZero) gfP2_SetZero) by (split; components).
  assert (Z1 : eq2 (gfP2_Conjugate gfP2_SetOne) gfP2_SetOne) by (split; components).
  rewrite gfP6_Mul_schoolbook. split_and!; cbn [x6 y6 z6 gfP6_Frobenius tau in6]; rewrite ?Z0, ?Z1; ring.
Qed.

Lemma Frobenius_in6 a : eq6 (gfP6_Frobenius (in6 a)) (in6 (gfP2_Conjugate a)).
Proof.
  assert (Z0 : eq2 (gfP2_Conjugate gfP2_SetZero) gfP2_SetZero) by (split; components).
  split_and!; cbn [x6 y6 z6 gfP6_Frobenius in6]; rewrite ?Z0; ring.
Qed.

Lemma gfP12_Frobenius_Mul a b : eq12 (gfP12_Frobenius (gfP12_Mul a b)) (gfP12_Mul (gfP12_Frobenius a) (gfP12_Frobenius b)).
Proof.
  destruct constants_consistent as (H2 & _).
  assert (Hg : eq6 (in6 xiToPMinus1Over3) (gfP6_Mul (in6 xiToPMinus1Over6) (in6 xiToPMinus1Over6))).
  { rewrite <- in6_Mul. split_and!; cbn [x6 y6 z6 in6]; [reflexivity|reflexivity|exact H2]. }
  split; cbn [x12 y12 gfP12_Frobenius gfP12_Mul]; rewrite ?gfP6_MulScalar_Mul, ?gfP6_MulTau_Mul, gfP6_Frobenius_Add, !gfP6_Frobenius_Mul; [ring|].
  rewrite !gfP6_MulScalar_Mul, Frobenius_tau, Hg. ring.
Qed.

Lemma gfP12_Frobenius_twice a : eq12 (gfP12_Frobenius (gfP12_Frobenius a)) (gfP12_FrobeniusP2 a).
Proof.
  destruct constants_consistent as (_ & _ & _ & _ & N6 & _).
  split; cbn [x12 y12 gfP12_Frobenius gfP12_FrobeniusP2]; [|apply gfP6_Frobenius_twice].
  rewrite !gfP6_MulScalar_Mul, gfP6_MulGFP_Mul, gfP6_Frobenius_Mul, Frobenius_in6, gfP6_Frobenius_twice.
  assert (Hn : eq6 (in6 (scalar xiToPSquaredMinus1Over6)) (gfP6_Mul (in6 (gfP2_Conjugate xiToPMinus1Over6)) (in6 xiToPMinus1Over6))).
  { rewrite <- in6_Mul. split_and!; cbn [x6 y6 z6 in6]; [reflexivity|reflexivity|symmetry; exact N6]. }
  rewrite Hn. ring.
Qed.

(** ** Theorems *)

(** The tower is a tower of rings.  With equality modulo p, the operations of
    gfP12 satisfy the laws of a commutative ring, whose elements i, t and w have
    i^2 = -1, t^3 = i + 9 and w^2 = t; the squarings are products; Invert, where
    it succeeds, gives the inverse in each of the three rings, and it succeeds
    on every unit of gfP12; and Exp is the power. *)
Theorem tower_of_rings :
  ring_theory gfP2_SetZero gfP2_SetOne gfP2_Add gfP2_Mul gfP2_Sub gfP2_Negative eq2 /\
  ring_theory gfP6_SetZero gfP6_SetOne gfP6_Add gfP6_Mul gfP6_Sub gfP6_Negative eq6 /\
  ring_theory gfP12_SetZero gfP12_SetOne gfP12_Add gfP12_Mul gfP12_Sub gfP12_Negative eq12 /\
  (eq2 (gfP2_Mul i_ i_) (gfP2_Negative gfP2_SetOne) /\ eq6 (gfP6_Mul tau (gfP6_Mul tau tau)) (in6 xi) /\
   eq12 (gfP12_Mul omega omega) (in12 tau)) /\
  (forall a, eq2 (gfP2_Square a) (gfP2_Mul a a)) /\ (forall a, eq6 (gfP6_Square a) (gfP6_Mul a a)) /\
  (forall a, eq12 (gfP12_Square a) (gfP12_Mul a a)) /\
  (forall a b, gfP2_Invert a = Some b -> eq2 (gfP2_Mul a b) gfP2_SetOne) /\
  (forall a b, gfP6_Invert a = Some b -> eq6 (gfP6_Mul a b) gfP6_SetOne) /\
  (forall a b, gfP12_Invert a = Some b -> eq12 (gfP12_Mul a b) gfP12_SetOne) /\
  (forall a, is_Some (gfP12_Invert a) <-> exists b, eq12 (gfP12_Mul a b) gfP12_SetOne) /\
  (forall a n, 0 <= n -> eq12 (gfP12_Exp a n) (pow12 a (Z.to_nat n))).
Proof.
  exact (conj gfP2_ring (conj gfP6_ring (conj gfP12_ring (conj (conj i_squared (conj tau_cubed omega_squared))
    (conj gfP2_Square_Mul (conj gfP6_Square_Mul (conj gfP12_Square_Mul (conj gfP2_Invert_correct (conj gfP6_Invert_correct
    (conj gfP12_Invert_correct (conj Invert_iff gfP12_Exp_pow))))))))))).
Qed.

Lemma tower_of_rings_witness : exists b, gfP12_Invert omega = Some b /\ eq12 (gfP12_Mul omega b) gfP12_SetOne.
Proof.
  destruct (gfP12_Invert omega) as [b|] eqn:E; [|vm_compute in E; discriminate]. exists b. split; [done|].
  destruct tower_of_rings as (_ & _ & _ & _ & _ & _ & _ & _ & _ & Hi & _). by apply Hi.
Defined.

(** The Frobenius maps.  Frobenius of gfP12 is multiplicative, its square is
    FrobeniusP2, and it acts as conjugation on GF(p^2): the constants of the
    package fit each other. *)
Theorem frobenius_maps a b c :
  eq12 (gfP12_Frobenius (gfP12_Mul a b)) (gfP12_Mul (gfP12_Frobenius a) (gfP12_Frobenius b)) /\
  eq12 (gfP12_Frobenius (gfP12_Frobenius a)) (gfP12_FrobeniusP2 a) /\
  eq12 (gfP12_Frobenius (in12 (in6 c))) (in12 (in6 (gfP2_Conjugate c))).
Proof.
  split; [apply gfP12_Frobenius_Mul|]. split; [apply gfP12_Frobenius_twice|].
  assert (Z0 : eq6 (gfP6_Frobenius gfP6_SetZero) gfP6_SetZero).
  { change gfP6_SetZero with (in6 gfP2_SetZero). rewrite Frobenius_in6. split_and!; cbn [x6 y6 z6 in6]; [reflexivity|reflexivity|split; components]. }
  split; cbn [x12 y12 gfP12_Frobenius in12]; [rewrite gfP6_MulScalar_Mul, Z0; ring|apply Frobenius_in6].
Qed.
