(* ===== verification/Bn256Curve.v ===== *)
(** * Package crypto/bn256/google: curves and points

    curve.go, twist.go and the point operations of bn256.go.  A point is in
    Jacobian coordinates (x/z^2, y/z^3), over the integers modulo p for curve.go
    and over GF(p^2) for twist.go; t is used by the pairing.  Operations take the
    receiver where a field of it stays as it was.  Points out of newCurvePoint
    and newTwistPoint are zero; what the pool leaves in them is never read. *)

From Stdlib Require Import Ring Setoid Morphisms.
From S2P Require Import Prelude Modular Bn256Field.

#[local] Opaque P.

(** ** curve.go *)

Record curvePoint : Type := CurvePoint { cx : Z; cy : Z; cz : Z; ct : Z }.

Definition curveB : Z := 3.
Definition curveGen : curvePoint := CurvePoint 1 2 1 1.
Definition newCurvePoint : curvePoint := CurvePoint 0 0 0 0.

Definition curve_IsOnCurve (c : curvePoint) : bool :=
  let yy := cy c * cy c in
  let xxx := cx c * cx c * cx c in
  let yy := yy - xxx - curveB in
  let yy := minimal yy in
  yy =? 0.

Definition curve_SetInfinity (c : curvePoint) : curvePoint := CurvePoint (cx c) (cy c) 0 (ct c).
Definition curve_IsInfinity (c : curvePoint) : bool := cz c =? 0.

Definition curve_Double (c a : curvePoint) : curvePoint :=
  let A := (cx a * cx a) mod P in
  let B := (cy a * cy a) mod P in
  let C_ := (B * B) mod P in
  let t := cx a + B in
  let t2 := (t * t) mod P in
  let t := t2 - A in
  let t2 := t - C_ in
  let d := t2 + t2 in
  let t := A + A in
  let e := t + A in
  let f := (e * e) mod P in
  let t := d + d in
  let x := f - t in
  let t := C_ + C_ in
  let t2 := t + t in
  let t := t2 + t2 in
  let y := d - x in
  let t2 := (e * y) mod P in
  let y := t2 - t in
  let t := (cy a * cz a) mod P in
  CurvePoint x y (t + t) (ct c).

Definition curve_Add (c a b : curvePoint) : curvePoint :=
  if curve_IsInfinity a then b
  else if curve_IsInfinity b then a
  else
  let z1z1 := (cz a * cz a) mod P in
  let z2z2 := (cz b * cz b) mod P in
  let u1 := (cx a * z2z2) mod P in
  let u2 := (cx b * z1z1) mod P in
  let t := (cz b * z2z2) mod P in
  let s1 := (cy a * t) mod P in
  let t := (cz a * z1z1) mod P in
  let s2 := (cy b * t) mod P in
  let h := u2 - u1 in
  let xEqual := h =? 0 in
  let t := h + h in
  let i := (t * t) mod P in
  let j := (h * i) mod P in
  let t := s2 - s1 in
  let yEqual := t =? 0 in
  if xEqual && yEqual then curve_Double c a
  else
  let r := t + t in
  let v := (u1 * i) mod P in
  let t4 := (r * r) mod P in
  let t := v + v in
  let t6 := t4 - j in
  let x := t6 - t in
  let t := v - x in
  let t4 := (s1 * j) mod P in
  let t6 := t4 + t4 in
  let t4 := (r * t) mod P in
  let y := t4 - t6 in
  let t := cz a + cz b in
  let t4 := (t * t) mod P in
  let t := t4 - z1z1 in
  let t4 := t - z2z2 in
  CurvePoint x y ((t4 * h) mod P) (ct c).

(** The loop of Mul, from bit BitLen down. *)
Fixpoint curve_mul (a : curvePoint) (scalar : Z) (i : nat) (sum t : curvePoint) : curvePoint :=
  match i with
  | O => sum
  | S i =>
      let t := curve_Double t sum in
      curve_mul a scalar i (if Z.testbit scalar (Z.of_nat i) then curve_Add sum t a else t) t
  end.
Definition curve_Mul (a : curvePoint) (scalar : Z) : curvePoint :=
  curve_mul a scalar (S (Z.to_nat (bit_len scalar))) (curve_SetInfinity newCurvePoint) newCurvePoint.

(** [None]: the inverse of z is nil. *)
Definition curve_MakeAffine (c : curvePoint) : option curvePoint :=
  if Z.abs (cz c) =? 1 then Some c
  else if curve_IsInfinity c then Some (CurvePoint 0 1 0 0)
  else
  zInv ← ModInverse (cz c) P;
  let t := (cy c * zInv) mod P in
  let zInv2 := (zInv * zInv) mod P in
  let y := (t * zInv2) mod P in
  let t := (cx c * zInv2) mod P in
  Some (CurvePoint t y 1 1).

Definition curve_Negative (a : curvePoint) : curvePoint := CurvePoint (cx a) (- cy a) (cz a) 0.

(** Double of a point into itself: y has been overwritten when z is computed. *)
Definition curve_Double_self (a : curvePoint) : curvePoint :=
  let c := curve_Double a a in
  let t := (cy c * cz a) mod P in
  CurvePoint (cx c) (cy c) (t + t) (ct a).

(** ** twist.go *)

Record twistPoint : Type := TwistPoint { tx : gfP2; ty : gfP2; tz : gfP2; tt_ : gfP2 }.

Definition twistB : gfP2 :=
  GFp2 266929791119991161246907387137283842545076965332900288569378510910307636690
       19485874751759354771024239261021720505790618469301721065564631296452457478373.
Definition twistGen : twistPoint := TwistPoint
  (GFp2 11559732032986387107991004021392285783925812861821192530917403151452391805634
        10857046999023057135944570762232829481370756359578518086990519993285655852781)
  (GFp2 4082367875863433681332203403145435568316851327593401208105741076214120093531
        8495653923123431417604973247489272438418190587263600148770280649306958101930)
  (GFp2 0 1) (GFp2 0 1).
Definition newTwistPoint : twistPoint := TwistPoint gfP2_SetZero gfP2_SetZero gfP2_SetZero gfP2_SetZero.

Definition twist_SetInfinity (c : twistPoint) : twistPoint := TwistPoint (tx c) (ty c) gfP2_SetZero (tt_ c).
Definition twist_IsInfinity (c : twistPoint) : bool := gfP2_IsZero (tz c).

Definition twist_Double (c a : twistPoint) : twistPoint :=
  let A := gfP2_Square (tx a) in
  let B := gfP2_Square (ty a) in
  let C_ := gfP2_Square B in
  let t := gfP2_Add (tx a) B in
  let t2 := gfP2_Square t in
  let t := gfP2_Sub t2 A in
  let t2 := gfP2_Sub t C_ in
  let d := gfP2_Add t2 t2 in
  let t := gfP2_Add A A in
  let e := gfP2_Add t A in
  let f := gfP2_Square e in
  let t := gfP2_Add d d in
  let x := gfP2_Sub f t in
  let t := gfP2_Add C_ C_ in
  let t2 := gfP2_Add t t in
  let t := gfP2_Add t2 t2 in
  let y := gfP2_Sub d x in
  let t2 := gfP2_Mul e y in
  let y := gfP2_Sub t2 t in
  let t := gfP2_Mul (ty a) (tz a) in
  TwistPoint x y (gfP2_Add t t) (tt_ c).

Definition twist_Add (c a b : twistPoint) : twistPoint :=
  if twist_IsInfinity a then b
  else if twist_IsInfinity b then a
  else
  let z1z1 := gfP2_Square (tz a) in
  let z2z2 := gfP2_Square (tz b) in
  let u1 := gfP2_Mul (tx a) z2z2 in
  let u2 := gfP2_Mul (tx b) z1z1 in
  let t := gfP2_Mul (tz b) z2z2 in
  let s1 := gfP2_Mul (ty a) t in
  let t := gfP2_Mul (tz a) z1z1 in
  let s2 := gfP2_Mul (ty b) t in
  let h := gfP2_Sub u2 u1 in
  let xEqual := gfP2_IsZero h in
  let t := gfP2_Add h h in
  let i := gfP2_Square t in
  let j := gfP2_Mul h i in
  let t := gfP2_Sub s2 s1 in
  let yEqual := gfP2_IsZero t in
  if xEqual && yEqual then twist_Double c a
  else
  let r := gfP2_Add t t in
  let v := gfP2_Mul u1 i in
  let t4 := gfP2_Square r in
  let t := gfP2_Add v v in
  let t6 := gfP2_Sub t4 j in
  let x := gfP2_Sub t6 t in
  let t := gfP2_Sub v x in
  let t4 := gfP2_Mul s1 j in
  let t6 := gfP2_Add t4 t4 in
  let t4 := gfP2_Mul r t in
  let y := gfP2_Sub t4 t6 in
  let t := gfP2_Add (tz a) (tz b) in
  let t4 := gfP2_Square t in
  let t := gfP2_Sub t4 z1z1 in
  let t4 := gfP2_Sub t z2z2 in
  TwistPoint x y (gfP2_Mul t4 h) (tt_ c).

Fixpoint twist_mul (a : twistPoint) (scalar : Z) (i : nat) (sum t : twistPoint) : twistPoint :=
  match i with
  | O => sum
  | S i =>
      let t := twist_Double t sum in
      twist_mul a scalar i (if Z.testbit scalar (Z.of_nat i) then twist_Add sum t a else t) t
  end.
Definition twist_Mul (a : twistPoint) (scalar : Z) : twistPoint :=
  twist_mul a scalar (S (Z.to_nat (bit_len scalar))) (twist_SetInfinity newTwistPoint) newTwistPoint.

Definition twist_IsOnCurve (c : twistPoint) : bool :=
  let yy := gfP2_Square (ty c) in
  let xxx := gfP2_Square (tx c) in
  let xxx := gfP2_Mul xxx (tx c) in
  let yy := gfP2_Sub yy xxx in
  let yy := gfP2_Sub yy twistB in
  let yy := gfP2_Minimal yy in
  if negb (x2 yy =? 0) || negb (y2 yy =? 0) then false
  else
    let cneg := twist_Mul c Order in
    gfP2_IsZero (tz cneg).

Definition twist_MakeAffine (c : twistPoint) : option twistPoint :=
  if gfP2_IsOne (tz c) then Some c
  else if twist_IsInfinity c then Some (TwistPoint gfP2_SetZero gfP2_SetOne gfP2_SetZero gfP2_SetZero)
  else
  zInv ← gfP2_Invert (tz c);
  let t := gfP2_Mul (ty c) zInv in
  let zInv2 := gfP2_Square zInv in
  let y := gfP2_Mul t zInv2 in
  let t := gfP2_Mul (tx c) zInv2 in
  Some (TwistPoint t y gfP2_SetOne gfP2_SetOne).

Definition twist_Negative (a : twistPoint) : twistPoint := TwistPoint (tx a) (gfP2_Sub gfP2_SetZero (ty a)) (tz a) gfP2_SetZero.

(** ** The formulas of curve.go *)

#[local] Abbreviation jp := (fun c => JPoint (cx c) (cy c) (cz c)).
#[local] Abbreviation Zadd := (jadd Z.add Z.mul Z.sub).
#[local] Abbreviation Zdouble := (jdouble Z.add Z.mul Z.sub).
#[local] Abbreviation Zeq := (jeq (eqm P)).
#[local] Abbreviation Zrep := (jrep Z.mul (eqm P)).
#[local] Abbreviation Zon := (jon Z.add Z.mul (eqm P) curveB).

Lemma curve_Double_formula c a : Zeq (jp (curve_Double c a)) (Zdouble (jp a)).
Proof.
  unfold curve_Double, jdouble, jeq. cbn [jx jy jz cx cy cz].
  reduced P A HA ((cx a * cx a) mod P). reduced P B HB ((cy a * cy a) mod P). reduced P C HC ((B * B) mod P).
  reduced P t2 Ht (((cx a + B) * (cx a + B)) mod P). reduced P f Hf (((A + A + A) * (A + A + A)) mod P).
  rewrite eqm_mod in HA, HB, HC, Ht, Hf. rewrite HB in HC, Ht. rewrite HA in Hf.
  split_and!; rewrite ?eqm_mod, ?Ht, ?HC, ?Hf, ?HA, ?HB; apply eqm_eq; ring.
Qed.

(** The second half of Add, from the differences on. *)
Lemma curve_Add_core X1 Y1 z1 X2 Y2 z2 z1z1 z2z2 u1 s1 h d :
  eqm P z1z1 (z1 * z1) -> eqm P z2z2 (z2 * z2) -> eqm P u1 (X1 * (z2 * z2)) -> eqm P s1 (Y1 * (z2 * (z2 * z2))) ->
  eqm P h (X2 * (z1 * z1) - X1 * (z2 * z2)) -> eqm P d (Y2 * (z1 * (z1 * z1)) - Y1 * (z2 * (z2 * z2))) ->
  let i := ((h + h) * (h + h)) mod P in let j := (h * i) mod P in let r := d + d in let v := (u1 * i) mod P in
  let t4 := (r * r) mod P in let x := t4 - j - (v + v) in let t := v - x in let t8 := (s1 * j) mod P in let t10 := (r * t) mod P in
  let y := t10 - (t8 + t8) in let t12 := ((z1 + z2) * (z1 + z2)) mod P in
  Zeq (JPoint x y (((t12 - z1z1 - z2z2) * h) mod P)) (Zadd (JPoint X1 Y1 z1) (JPoint X2 Y2 z2)).
Proof.
  intros H1 H2 Hu1 Hs1 Hh Hd. cbv zeta.
  reduced P i Hi (((h + h) * (h + h)) mod P). reduced P j Hj ((h * i) mod P). reduced P v Hv ((u1 * i) mod P).
  reduced P t4 Ht4 (((d + d) * (d + d)) mod P). reduced P x Hx (t4 - j - (v + v)).
  rewrite eqm_mod in Hi, Hj, Hv, Ht4. rewrite Hi in Hj, Hv. rewrite Hh in Hj, Hv, Hi. rewrite Hu1 in Hv. rewrite Hd in Ht4. rewrite Ht4, Hj, Hv in Hx.
  unfold jeq, jadd. cbn [jx jy jz]. split; [rewrite Hx; apply eqm_eq; ring|]. split.
  - rewrite !eqm_mod, Hs1, Hj, Hv, Hx, Hd. apply eqm_eq. ring.
  - rewrite !eqm_mod, H1, H2, Hh. apply eqm_eq. ring.
Qed.

Lemma curve_Add_formula c a b :
  curve_IsInfinity a = false -> curve_IsInfinity b = false ->
  let u1 := cx a * (cz b * cz b) in let u2 := cx b * (cz a * cz a) in
  let s1 := cy a * (cz b * (cz b * cz b)) in let s2 := cy b * (cz a * (cz a * cz a)) in
  (eqm P u1 u2 /\ eqm P s1 s2 /\ curve_Add c a b = curve_Double c a) \/
  (~ (eqm P u1 u2 /\ eqm P s1 s2) /\ Zeq (jp (curve_Add c a b)) (Zadd (jp a) (jp b)) /\
   (eqm P u1 u2 -> curve_IsInfinity (curve_Add c a b) = true)).
Proof.
  intros Ia Ib u1' u2' s1' s2'. unfold curve_Add. rewrite Ia, Ib. cbv zeta.
  reduced P z1z1 H1 ((cz a * cz a) mod P). reduced P z2z2 H2 ((cz b * cz b) mod P). rewrite eqm_mod in H1, H2.
  reduced P t1 Ht1 ((cz b * z2z2) mod P). reduced P t2 Ht2 ((cz a * z1z1) mod P). rewrite eqm_mod, H2 in Ht1. rewrite eqm_mod, H1 in Ht2.
  assert (Eu : (cx b * z1z1) mod P - (cx a * z2z2) mod P = 0 <-> eqm P u1' u2').
  { unfold u1', u2'. rewrite <- H1, <- H2. unfold eqm. split; intros; lia. }
  assert (Es : (cy b * t2) mod P - (cy a * t1) mod P = 0 <-> eqm P s1' s2').
  { unfold s1', s2'. rewrite <- Ht1, <- Ht2. unfold eqm. split; intros; lia. }
  revert Eu Es. reduced P u1 Hu1 ((cx a * z2z2) mod P). reduced P u2 Hu2 ((cx b * z1z1) mod P).
  reduced P s1 Hs1 ((cy a * t1) mod P). reduced P s2 Hs2 ((cy b * t2) mod P).
  intros Eu Es. rewrite eqm_mod in Hu1, Hu2, Hs1, Hs2. rewrite H1 in Hu2. rewrite H2 in Hu1. rewrite Ht1 in Hs1. rewrite Ht2 in Hs2.
  destruct (Z.eqb_spec (u2 - u1) 0) as [E1|N1], (Z.eqb_spec (s2 - s1) 0) as [E2|N2]; cbn [andb].
  1: left; split_and!; [by apply Eu|by apply Es|done].
  all: right; split; [rewrite <- Eu, <- Es; tauto|]; (split; [|intros E; apply Eu in E; unfold curve_IsInfinity; cbn [cz]; try lia; rewrite E; by rewrite Z.mul_0_r, Zmod_0_l]).
  all: apply curve_Add_core; [done|done|done|done|by rewrite Hu1, Hu2|by rewrite Hs1, Hs2].
Qed.

(** ** Points of the curve *)

Lemma P_gt_1 : 1 < P.
Proof. by vm_compute. Qed.

(** A point that is not at infinity, by an inverse of z. *)
Definition finite (c : curvePoint) : Prop := exists i, eqm P (cz c * i) 1.

Lemma finite_not_infinity c : finite c -> curve_IsInfinity c = false.
Proof.
  intros [i Hi]. unfold curve_IsInfinity. apply Z.eqb_neq. intros E. rewrite E in Hi. unfold eqm in Hi. pose proof P_gt_1.
  rewrite Z.mul_0_l, Zmod_0_l, Z.mod_1_l in Hi by done. done.
Qed.

Lemma Zon_eq p q : Zeq p q -> Zon q -> Zon p.
Proof. intros (H1 & H2 & H3) H. unfold jon in *. by rewrite H1, H2, H3. Qed.
Lemma Zrep_eq p q x y : Zeq p q -> Zrep q x y -> Zrep p x y.
Proof. intros (H1 & H2 & H3) [Hx Hy]. unfold jrep. by rewrite H1, H2, H3. Qed.

Definition curve_on (c : curvePoint) : Prop := curve_IsInfinity c = true \/ Zon (jp c).

Lemma curve_on_Double c a : curve_on a -> curve_on (curve_Double c a).
Proof.
  intros [H|H].
  - left. unfold curve_IsInfinity in *. apply Z.eqb_eq in H. unfold curve_Double. cbn [cz]. by rewrite H, Z.mul_0_r, Zmod_0_l.
  - right. eapply Zon_eq; [apply curve_Double_formula|].
    by apply (jdouble_on 0 1 Z.add Z.mul Z.sub Z.opp (eqm P) (eqm_ring _) _ (eqm_ext _)).
Qed.

Lemma curve_on_Add c a b : curve_on a -> curve_on b -> curve_on (curve_Add c a b).
Proof.
  intros Ha Hb. destruct (curve_IsInfinity a) eqn:Ia; [unfold curve_Add; by rewrite Ia|].
  destruct (curve_IsInfinity b) eqn:Ib; [unfold curve_Add; by rewrite Ia, Ib|].
  destruct (curve_Add_formula c a b Ia Ib) as [(_ & _ & ->)|(_ & E & _)]; [by apply curve_on_Double|]. right.
  destruct Ha as [|Ha]; [congruence|]. destruct Hb as [|Hb]; [congruence|]. eapply Zon_eq; [exact E|].
  by apply (jadd_on 0 1 Z.add Z.mul Z.sub Z.opp (eqm P) (eqm_ring _) _ (eqm_ext _)).
Qed.

Lemma curve_on_Mul a k : curve_on a -> curve_on (curve_Mul a k).
Proof.
  intros Ha. unfold curve_Mul. generalize newCurvePoint at 2 as t. assert (Hs : curve_on (curve_SetInfinity newCurvePoint)) by (by left).
  revert Hs. generalize (curve_SetInfinity newCurvePoint) as sum. induction (S _) as [|i IH]; intros sum Hs t; cbn [curve_mul]; [done|].
  apply IH. destruct (Z.testbit _ _); [by apply curve_on_Add; [apply curve_on_Double|]|by apply curve_on_Double].
Qed.

Lemma minimal_zero z : minimal z = 0 <-> eqm P z 0.
Proof.
  pose proof P_pos. rewrite eqm_zero. unfold minimal. destruct (Z.ltb_spec z 0), (Z.leb_spec P z); cbn [orb]; try done.
  by rewrite Z.mod_small by lia.
Qed.

(** IsOnCurve looks at the affine coordinates. *)
Lemma curve_IsOnCurve_iff c : curve_IsOnCurve c = true <-> on_curve Z.add Z.mul (eqm P) curveB (cx c) (cy c).
Proof.
  unfold curve_IsOnCurve, on_curve. rewrite Z.eqb_eq, minimal_zero. split; intros H.
  - transitivity (cy c * cy c - cx c * cx c * cx c - curveB + (cx c * cx c * cx c + curveB)); [apply eqm_eq; ring|]. rewrite H. apply eqm_eq. ring.
  - rewrite H. apply eqm_eq. ring.
Qed.

Lemma curve_MakeAffine_rep c d x y :
  finite c -> Zrep (jp c) x y -> curve_MakeAffine c = Some d -> Z.abs (cz c) <> 1 -> cz d = 1 /\ cx d = x mod P /\ cy d = y mod P.
Proof.
  intros Hf [Hx Hy] E Hz. unfold curve_MakeAffine in E. destruct (Z.eqb_spec (Z.abs (cz c)) 1); [done|]. rewrite finite_not_infinity in E by done.
  destruct (ModInverse (cz c) P) as [i|] eqn:Ei; [|done]. apply ModInverse_correct in Ei as [Ei _]; [|exact P_pos].
  cbn [mbind option_bind] in E. injection E as <-. cbn [cx cy cz jx jy jz] in *. split; [done|]. split.
  - change (eqm P (cx c * ((i * i) mod P)) x). rewrite eqm_mod, Hx. transitivity (x * (cz c * i) * (cz c * i)); [apply eqm_eq; ring|].
    rewrite Ei. apply eqm_eq. ring.
  - change (eqm P ((cy c * i) mod P * ((i * i) mod P)) y). rewrite !eqm_mod, Hy.
    transitivity (y * (cz c * i) * (cz c * i) * (cz c * i)); [apply eqm_eq; ring|]. rewrite Ei. apply eqm_eq. ring.
Qed.

(** The group law of the curve y^2 = x^3 + 3.  For finite points (x1, y1) and
    (x2, y2) in any Jacobian coordinates: Add of points with different x gives
    the chord, Add of a point and itself the tangent, Add of opposite points
    infinity; infinity is neutral; sums, doubles and multiples of points on the
    curve are on the curve; MakeAffine returns the affine coordinates. *)
Theorem bn256_curve_group_law c a b x1 y1 x2 y2 :
  finite a -> finite b -> Zrep (jp a) x1 y1 -> Zrep (jp b) x2 y2 ->
  (forall l, ~ eqm P x1 x2 -> eqm P (l * (x2 - x1)) (y2 - y1) ->
     Zrep (jp (curve_Add c a b)) (l * l - x1 - x2) (l * (x1 - (l * l - x1 - x2)) - y1)) /\
  (forall l, eqm P x1 x2 -> eqm P y1 y2 -> eqm P (l * (y1 + y1)) (x1 * x1 + x1 * x1 + x1 * x1) ->
     Zrep (jp (curve_Add c a b)) (l * l - x1 - x1) (l * (x1 - (l * l - x1 - x1)) - y1)) /\
  (eqm P x1 x2 -> ~ eqm P y1 y2 -> curve_IsInfinity (curve_Add c a b) = true) /\
  (forall o, curve_IsInfinity o = true -> curve_Add c o a = a /\ curve_Add c a o = a) /\
  (curve_on a -> curve_on b -> curve_on (curve_Add c a b) /\ forall k, curve_on (curve_Mul a k)) /\
  (forall d, Z.abs (cz a) <> 1 -> curve_MakeAffine a = Some d -> cz d = 1 /\ cx d = x1 mod P /\ cy d = y1 mod P).
Proof.
  intros Fa Fb Ra Rb. pose proof (finite_not_infinity a Fa) as Ia. pose proof (finite_not_infinity b Fb) as Ib.
  destruct Fa as [ia Ha], Fb as [ib Hb]. destruct Ra as [Xa Ya], Rb as [Xb Yb]. cbn [jx jy jz] in Xa, Ya, Xb, Yb.
  set (w := cz a * cz b). assert (Hw : eqm P (w * (ia * ib)) 1).
  { transitivity (cz a * ia * (cz b * ib)); [apply eqm_eq; unfold w; ring|]. by rewrite Ha, Hb. }
  assert (Hx : eqm P (cx a * (cz b * cz b)) (cx b * (cz a * cz a)) <-> eqm P x1 x2).
  { rewrite Xa, Xb. split; intros H; [|rewrite H; apply eqm_eq; ring]. apply (eqm_cancel P _ _ w _ Hw), (eqm_cancel P _ _ w _ Hw).
    transitivity (x1 * (cz a * cz a) * (cz b * cz b)); [apply eqm_eq; unfold w; ring|]. rewrite H. apply eqm_eq. unfold w. ring. }
  assert (Hy : eqm P (cy a * (cz b * (cz b * cz b))) (cy b * (cz a * (cz a * cz a))) <-> eqm P y1 y2).
  { rewrite Ya, Yb. split; intros H; [|rewrite H; apply eqm_eq; ring].
    apply (eqm_cancel P _ _ w _ Hw), (eqm_cancel P _ _ w _ Hw), (eqm_cancel P _ _ w _ Hw).
    transitivity (y1 * (cz a * (cz a * cz a)) * (cz b * (cz b * cz b))); [apply eqm_eq; unfold w; ring|]. rewrite H. apply eqm_eq. unfold w. ring. }
  pose proof (curve_Add_formula c a b Ia Ib) as HF. cbv zeta in HF. rewrite Hx, Hy in HF. split_and!.
  - intros l Hne Hl. destruct HF as [(E & _)|(_ & E & _)]; [done|]. eapply Zrep_eq; [exact E|].
    apply (jadd_chord 0 1 Z.add Z.mul Z.sub Z.opp (eqm P) (eqm_ring _) _ (eqm_ext _) (jp a) (jp b) x1 y1 x2 y2 l); done.
  - intros l Ex Ey Hl. destruct HF as [(_ & _ & ->)|(N & _)]; [|by destruct N]. eapply Zrep_eq; [apply curve_Double_formula|].
    apply (jdouble_tangent 0 1 Z.add Z.mul Z.sub Z.opp (eqm P) (eqm_ring _) _ (eqm_ext _) (jp a) x1 y1 l); done.
  - intros Ex Ny. destruct HF as [(_ & Ey & _)|(_ & _ & H)]; [done|by apply H].
  - intros o Ho. unfold curve_Add. by rewrite Ho, Ia.
  - intros Oa Ob. split; [by apply curve_on_Add|]. intros k. by apply curve_on_Mul.
  - intros d Hz Hd. eapply curve_MakeAffine_rep; [by exists ia|by split|done|done].
Qed.

Lemma bn256_curve_group_law_witness :
  exists l, Zrep (jp (curve_Add newCurvePoint curveGen curveGen)) (l * l - 1 - 1) (l * (1 - (l * l - 1 - 1)) - 2).
Proof.
  assert (F : finite curveGen) by (by exists 1). assert (R : Zrep (jp curveGen) 1 2) by (by split).
  destruct (ModInverse (2 + 2) P) as [i|] eqn:Ei; [|by vm_compute in Ei]. apply ModInverse_correct in Ei as [Ei _]; [|exact P_pos].
  exists (3 * i). refine (proj1 (proj2 (bn256_curve_group_law newCurvePoint curveGen curveGen 1 2 1 2 F F R R)) (3 * i) _ _ _); [done|done|].
  transitivity (3 * ((2 + 2) * i)); [apply eqm_eq; ring|]. rewrite Ei. by apply eqm_eq.
Defined.

(** Doubling a point into itself goes wrong.  With the receiver as argument,
    as in G1.Add(e, e) on e, z is computed from the new y: the double of the
    generator is no longer on the curve. *)
Theorem bn256_double_in_place :
  curve_on (curve_Double newCurvePoint curveGen) /\ ~ curve_on (curve_Double_self curveGen).
Proof.
  split; [apply curve_on_Double; right; by vm_compute|]. intros [H|H].
  - by vm_compute in H.
  - revert H. vm_compute. discriminate.
Qed.

(** ** The twist, over GF(p^2) *)

Add Ring gfP2_here : gfP2_ring (setoid eq2_equiv gfP2_ext).

#[local] Abbreviation tp := (fun c => JPoint (tx c) (ty c) (tz c)).
#[local] Abbreviation Tadd := (jadd gfP2_Add gfP2_Mul gfP2_Sub).
#[local] Abbreviation Tdouble := (jdouble gfP2_Add gfP2_Mul gfP2_Sub).
#[local] Abbreviation Teq := (jeq eq2).
#[local] Abbreviation Trep := (jrep gfP2_Mul eq2).
#[local] Abbreviation Ton := (jon gfP2_Add gfP2_Mul eq2 twistB).

Lemma twist_Double_formula c a : Teq (tp (twist_Double c a)) (Tdouble (tp a)).
Proof. unfold twist_Double, jdouble, jeq. cbn [jx jy jz tx ty tz]. split_and!; rewrite ?gfP2_Square_eq; ring. Qed.

Lemma IsZero_reduced a b c d : gfP2_IsZero (gfP2_Sub (gfP2_Mul a b) (gfP2_Mul c d)) = true <-> eq2 (gfP2_Mul a b) (gfP2_Mul c d).
Proof.
  unfold gfP2_IsZero, eq2, eqm. cbn [x2 y2 gfP2_Sub gfP2_Mul]. rewrite andb_true_iff, !Z.eqb_eq, !Zmod_mod. split; intros []; split; lia.
Qed.

Lemma Mul_zero_r a b : gfP2_IsZero b = true -> gfP2_IsZero (gfP2_Mul a b) = true.
Proof.
  unfold gfP2_IsZero. rewrite !andb_true_iff, !Z.eqb_eq. cbn [x2 y2 gfP2_Mul]. intros [-> ->].
  rewrite !Z.mul_0_r, Z.mul_0_l, Z.sub_0_r. by rewrite !Zmod_0_l.
Qed.

Lemma twist_Add_formula c a b :
  twist_IsInfinity a = false -> twist_IsInfinity b = false ->
  let u1 := gfP2_Mul (tx a) (gfP2_Mul (tz b) (tz b)) in let u2 := gfP2_Mul (tx b) (gfP2_Mul (tz a) (tz a)) in
  let s1 := gfP2_Mul (ty a) (gfP2_Mul (tz b) (gfP2_Mul (tz b) (tz b))) in
  let s2 := gfP2_Mul (ty b) (gfP2_Mul (tz a) (gfP2_Mul (tz a) (tz a))) in
  (eq2 u1 u2 /\ eq2 s1 s2 /\ twist_Add c a b = twist_Double c a) \/
  (~ (eq2 u1 u2 /\ eq2 s1 s2) /\ Teq (tp (twist_Add c a b)) (Tadd (tp a) (tp b)) /\
   (eq2 u1 u2 -> twist_IsInfinity (twist_Add c a b) = true)).
Proof.
  intros Ia Ib u1' u2' s1' s2'. unfold twist_Add. rewrite Ia, Ib. cbv zeta.
  match goal with |- context [if gfP2_IsZero ?h && gfP2_IsZero ?d then _ else _] => set (xe := gfP2_IsZero h); set (ye := gfP2_IsZero d) end.
  assert (Hx : xe = true <-> eq2 u1' u2').
  { unfold xe. rewrite IsZero_reduced, !gfP2_Square_eq. unfold u1', u2'. split; intros H; by symmetry. }
  assert (Hy : ye = true <-> eq2 s1' s2').
  { unfold ye. rewrite IsZero_reduced, !gfP2_Square_eq. unfold s1', s2'. split; intros H; by symmetry. }
  destruct (xe && ye) eqn:E.
  - apply andb_true_iff in E as [E1 E2]. left. split_and!; [by apply Hx|by apply Hy|done].
  - right. split; [rewrite <- Hx, <- Hy; intros [-> ->]; done|]. split.
    + unfold jeq, jadd. cbn [jx jy jz tx ty tz]. split_and!; rewrite ?gfP2_Square_eq; ring.
    + intros H. apply Hx in H. unfold xe in H. by apply Mul_zero_r.
Qed.

(** ** Points of the twist *)

Definition twist_finite (c : twistPoint) : Prop := exists i, eq2 (gfP2_Mul (tz c) i) gfP2_SetOne.

Lemma twist_finite_not_infinity c : twist_finite c -> twist_IsInfinity c = false.
Proof.
  intros [i [_ Hi]]. unfold twist_IsInfinity. destruct (gfP2_IsZero (tz c)) eqn:E; [|done]. exfalso. unfold gfP2_IsZero in E.
  apply andb_true_iff in E as [E1%Z.eqb_eq E2%Z.eqb_eq]. cbn [y2 gfP2_Mul gfP2_SetOne] in Hi. rewrite E1, E2 in Hi. unfold eqm in Hi.
  pose proof P_gt_1. rewrite !Z.mul_0_l, Z.sub_0_r, !Zmod_0_l, Z.mod_1_l in Hi by done. done.
Qed.

Lemma Ton_eq p q : Teq p q -> Ton q -> Ton p.
Proof. intros (H1 & H2 & H3) H. unfold jon in *. by rewrite H1, H2, H3. Qed.
Lemma Trep_eq p q x y : Teq p q -> Trep q x y -> Trep p x y.
Proof. intros (H1 & H2 & H3) [Hx Hy]. unfold jrep. by rewrite H1, H2, H3. Qed.

Definition twist_on (c : twistPoint) : Prop := twist_IsInfinity c = true \/ Ton (tp c).

Lemma twist_on_Double c a : twist_on a -> twist_on (twist_Double c a).
Proof.
  intros [H|H].
  - left. unfold twist_IsInfinity, twist_Double in *. cbn [tz]. apply (Mul_zero_r (ty a)) in H. unfold gfP2_IsZero in *.
    apply andb_true_iff in H as [H1%Z.eqb_eq H2%Z.eqb_eq]. cbn [x2 y2 gfP2_Add]. by rewrite H1, H2.
  - right. eapply Ton_eq; [apply twist_Double_formula|].
    by apply (jdouble_on gfP2_SetZero gfP2_SetOne gfP2_Add gfP2_Mul gfP2_Sub gfP2_Negative eq2 gfP2_ring eq2_equiv gfP2_ext).
Qed.

Lemma twist_on_Add c a b : twist_on a -> twist_on b -> twist_on (twist_Add c a b).
Proof.
  intros Ha Hb. destruct (twist_IsInfinity a) eqn:Ia; [unfold twist_Add; by rewrite Ia|].
  destruct (twist_IsInfinity b) eqn:Ib; [unfold twist_Add; by rewrite Ia, Ib|].
  destruct (twist_Add_formula c a b Ia Ib) as [(_ & _ & ->)|(_ & E & _)]; [by apply twist_on_Double|]. right.
  destruct Ha as [|Ha]; [congruence|]. destruct Hb as [|Hb]; [congruence|]. eapply Ton_eq; [exact E|].
  by apply (jadd_on gfP2_SetZero gfP2_SetOne gfP2_Add gfP2_Mul gfP2_Sub gfP2_Negative eq2 gfP2_ring eq2_equiv gfP2_ext).
Qed.

Lemma twist_on_Mul a k : twist_on a -> twist_on (twist_Mul a k).
Proof.
  intros Ha. unfold twist_Mul. generalize newTwistPoint at 2 as t. assert (Hs : twist_on (twist_SetInfinity newTwistPoint)) by (by left).
  revert Hs. generalize (twist_SetInfinity newTwistPoint) as sum. induction (S _) as [|i IH]; intros sum Hs t; cbn [twist_mul]; [done|].
  apply IH. destruct (Z.testbit _ _); [by apply twist_on_Add; [apply twist_on_Double|]|by apply twist_on_Double].
Qed.

Lemma eq2_cancel a b w i : eq2 (gfP2_Mul w i) gfP2_SetOne -> eq2 (gfP2_Mul a w) (gfP2_Mul b w) -> eq2 a b.
Proof.
  intros Hi H. transitivity (gfP2_Mul a (gfP2_Mul w i)); [rewrite Hi; ring|]. transitivity (gfP2_Mul b (gfP2_Mul w i)); [|rewrite Hi; ring].
  transitivity (gfP2_Mul (gfP2_Mul a w) i); [ring|]. rewrite H. ring.
Qed.

Lemma twist_MakeAffine_rep c d x y :
  twist_finite c -> Trep (tp c) x y -> twist_MakeAffine c = Some d -> gfP2_IsOne (tz c) = false ->
  tz d = gfP2_SetOne /\ tt_ d = gfP2_SetOne /\ eq2 (tx d) x /\ eq2 (ty d) y.
Proof.
  intros Hf [Hx Hy] E Hz. unfold twist_MakeAffine in E. rewrite Hz in E. rewrite twist_finite_not_infinity in E by done.
  destruct (gfP2_Invert (tz c)) as [i|] eqn:Ei; [|done]. apply gfP2_Invert_correct in Ei. cbn [mbind option_bind] in E. injection E as <-.
  cbn [tx ty tz tt_ jx jy jz] in *. rewrite gfP2_Square_eq. split_and!; [done|done| |].
  - rewrite Hx. transitivity (gfP2_Mul x (gfP2_Mul (gfP2_Mul (tz c) i) (gfP2_Mul (tz c) i))); [ring|]. rewrite Ei. ring.
  - rewrite Hy. transitivity (gfP2_Mul y (gfP2_Mul (gfP2_Mul (tz c) i) (gfP2_Mul (gfP2_Mul (tz c) i) (gfP2_Mul (tz c) i)))); [ring|].
    rewrite Ei. ring.
Qed.

(** The group law of the twist, over GF(p^2): Add of finite points is the
    chord, the tangent or infinity, as for the curve; infinity is neutral; sums
    and multiples stay on the twist; MakeAffine returns the affine
    coordinates. *)
Theorem bn256_twist_group_law c a b x1 y1 x2 y2 :
  twist_finite a -> twist_finite b -> Trep (tp a) x1 y1 -> Trep (tp b) x2 y2 ->
  let chord l x1 y1 x2 := let x3 := gfP2_Sub (gfP2_Sub (gfP2_Mul l l) x1) x2 in (x3, gfP2_Sub (gfP2_Mul l (gfP2_Sub x1 x3)) y1) in
  (forall l, ~ eq2 x1 x2 -> eq2 (gfP2_Mul l (gfP2_Sub x2 x1)) (gfP2_Sub y2 y1) ->
     Trep (tp (twist_Add c a b)) (fst (chord l x1 y1 x2)) (snd (chord l x1 y1 x2))) /\
  (forall l, eq2 x1 x2 -> eq2 y1 y2 ->
     eq2 (gfP2_Mul l (gfP2_Add y1 y1)) (gfP2_Add (gfP2_Add (gfP2_Mul x1 x1) (gfP2_Mul x1 x1)) (gfP2_Mul x1 x1)) ->
     Trep (tp (twist_Add c a b)) (fst (chord l x1 y1 x1)) (snd (chord l x1 y1 x1))) /\
  (eq2 x1 x2 -> ~ eq2 y1 y2 -> twist_IsInfinity (twist_Add c a b) = true) /\
  (forall o, twist_IsInfinity o = true -> twist_Add c o a = a /\ twist_Add c a o = a) /\
  (twist_on a -> twist_on b -> twist_on (twist_Add c a b) /\ forall k, twist_on (twist_Mul a k)) /\
  (forall d, gfP2_IsOne (tz a) = false -> twist_MakeAffine a = Some d -> tz d = gfP2_SetOne /\ eq2 (tx d) x1 /\ eq2 (ty d) y1).
Proof.
  intros Fa Fb Ra Rb chord. pose proof (twist_finite_not_infinity a Fa) as Ia. pose proof (twist_finite_not_infinity b Fb) as Ib.
  destruct Fa as [ia Ha], Fb as [ib Hb]. destruct Ra as [Xa Ya], Rb as [Xb Yb]. cbn [jx jy jz] in Xa, Ya, Xb, Yb.
  set (w := gfP2_Mul (tz a) (tz b)). assert (Hw : eq2 (gfP2_Mul w (gfP2_Mul ia ib)) gfP2_SetOne).
  { transitivity (gfP2_Mul (gfP2_Mul (tz a) ia) (gfP2_Mul (tz b) ib)); [unfold w; ring|]. rewrite Ha, Hb. ring. }
  assert (Hx : eq2 (gfP2_Mul (tx a) (gfP2_Mul (tz b) (tz b))) (gfP2_Mul (tx b) (gfP2_Mul (tz a) (tz a))) <-> eq2 x1 x2).
  { rewrite Xa, Xb. split; intros H; [|rewrite H; ring]. apply (eq2_cancel _ _ w _ Hw), (eq2_cancel _ _ w _ Hw).
    transitivity (gfP2_Mul (gfP2_Mul x1 (gfP2_Mul (tz a) (tz a))) (gfP2_Mul (tz b) (tz b))); [unfold w; ring|]. rewrite H. unfold w. ring. }
  assert (Hy : eq2 (gfP2_Mul (ty a) (gfP2_Mul (tz b) (gfP2_Mul (tz b) (tz b)))) (gfP2_Mul (ty b) (gfP2_Mul (tz a) (gfP2_Mul (tz a) (tz a))))
               <-> eq2 y1 y2).
  { rewrite Ya, Yb. split; intros H; [|rewrite H; ring]. apply (eq2_cancel _ _ w _ Hw), (eq2_cancel _ _ w _ Hw), (eq2_cancel _ _ w _ Hw).
    transitivity (gfP2_Mul (gfP2_Mul y1 (gfP2_Mul (tz a) (gfP2_Mul (tz a) (tz a)))) (gfP2_Mul (tz b) (gfP2_Mul (tz b) (tz b))));
      [unfold w; ring|]. rewrite H. unfold w. ring. }
  pose proof (twist_Add_formula c a b Ia Ib) as HF. cbv zeta in HF. split_and!.
  - intros l Hne Hl. destruct HF as [(E & _)|(_ & E & _)]; [by apply Hx in E|]. eapply Trep_eq; [exact E|].
    by apply (jadd_chord gfP2_SetZero gfP2_SetOne gfP2_Add gfP2_Mul gfP2_Sub gfP2_Negative eq2 gfP2_ring eq2_equiv gfP2_ext (tp a) (tp b) x1 y1 x2 y2 l).
  - intros l Ex Ey Hl. destruct HF as [(_ & _ & ->)|(N & _)]; [|by destruct N; split; [apply Hx|apply Hy]]. eapply Trep_eq; [apply twist_Double_formula|].
    by apply (jdouble_tangent gfP2_SetZero gfP2_SetOne gfP2_Add gfP2_Mul gfP2_Sub gfP2_Negative eq2 gfP2_ring eq2_equiv gfP2_ext (tp a) x1 y1 l).
  - intros Ex Ny. destruct HF as [(_ & Ey & _)|(_ & _ & H)]; [by apply Hy in Ey|by apply H, Hx].
  - intros o Ho. unfold twist_Add. by rewrite Ho, Ia.
  - intros Oa Ob. split; [by apply twist_on_Add|]. intros k. by apply twist_on_Mul.
  - intros d Hz Hd. destruct (twist_MakeAffine_rep a d x1 y1) as (H1 & _ & H2 & H3); [by exists ia|by split|done|done|done].
Qed.

Lemma bn256_twist_group_law_witness :
  twist_on (twist_Add newTwistPoint twistGen twistGen) /\ forall k, twist_on (twist_Mul twistGen k).
Proof.
  assert (F : twist_finite twistGen) by (exists gfP2_SetOne; split; vm_compute; reflexivity).
  assert (R : Trep (tp twistGen) (tx twistGen) (ty twistGen)) by (split; split; vm_compute; reflexivity).
  assert (O : twist_on twistGen) by (right; split; vm_compute; reflexivity).
  exact (proj1 (proj2 (proj2 (proj2 (proj2 (bn256_twist_group_law newTwistPoint twistGen twistGen _ _ _ _ F F R R))))) O O).
Defined.
