(* ===== verification/Bn256Pair.v ===== *)
(** * Package crypto/bn256/google: the pairing

    optate.go: the line functions, the Miller loop, the final exponentiation and
    the optimal ate pairing.  [None] stands for a number without an inverse:
    MakeAffine of curve.go then panics, and Invert of gfp2.go computes with what
    the pool left in its variable. *)

From Stdlib Require Import Ring Setoid Morphisms.
From S2P Require Import Prelude Modular Bn256Field Bn256Curve.

#[local] Opaque P.

(** ** optate.go *)

(** a, b, c and rOut. *)
Definition lineFunctionAdd (r p : twistPoint) (q : curvePoint) (r2 : gfP2) : gfP2 * gfP2 * gfP2 * twistPoint :=
  let B := gfP2_Mul (tx p) (tt_ r) in
  let D := gfP2_Add (ty p) (tz r) in
  let D := gfP2_Square D in
  let D := gfP2_Sub D r2 in
  let D := gfP2_Sub D (tt_ r) in
  let D := gfP2_Mul D (tt_ r) in
  let H := gfP2_Sub B (tx r) in
  let I := gfP2_Square H in
  let E := gfP2_Add I I in
  let E := gfP2_Add E E in
  let J := gfP2_Mul H E in
  let L1 := gfP2_Sub D (ty r) in
  let L1 := gfP2_Sub L1 (ty r) in
  let V := gfP2_Mul (tx r) E in
  let x := gfP2_Square L1 in
  let x := gfP2_Sub x J in
  let x := gfP2_Sub x V in
  let x := gfP2_Sub x V in
  let z := gfP2_Add (tz r) H in
  let z := gfP2_Square z in
  let z := gfP2_Sub z (tt_ r) in
  let z := gfP2_Sub z I in
  let t := gfP2_Sub V x in
  let t := gfP2_Mul t L1 in
  let t2 := gfP2_Mul (ty r) J in
  let t2 := gfP2_Add t2 t2 in
  let y := gfP2_Sub t t2 in
  let rt := gfP2_Square z in
  let t := gfP2_Add (ty p) z in
  let t := gfP2_Square t in
  let t := gfP2_Sub t r2 in
  let t := gfP2_Sub t rt in
  let t2 := gfP2_Mul L1 (tx p) in
  let t2 := gfP2_Add t2 t2 in
  let a := gfP2_Sub t2 t in
  let c := gfP2_MulScalar z (cy q) in
  let c := gfP2_Add c c in
  let b := gfP2_Sub gfP2_SetZero L1 in
  let b := gfP2_MulScalar b (cx q) in
  let b := gfP2_Add b b in
  (a, b, c, TwistPoint x y z rt).

Definition lineFunctionDouble (r : twistPoint) (q : curvePoint) : gfP2 * gfP2 * gfP2 * twistPoint :=
  let A := gfP2_Square (tx r) in
  let B := gfP2_Square (ty r) in
  let C_ := gfP2_Square B in
  let D := gfP2_Add (tx r) B in
  let D := gfP2_Square D in
  let D := gfP2_Sub D A in
  let D := gfP2_Sub D C_ in
  let D := gfP2_Add D D in
  let E := gfP2_Add A A in
  let E := gfP2_Add E A in
  let G := gfP2_Square E in
  let x := gfP2_Sub G D in
  let x := gfP2_Sub x D in
  let z := gfP2_Add (ty r) (tz r) in
  let z := gfP2_Square z in
  let z := gfP2_Sub z B in
  let z := gfP2_Sub z (tt_ r) in
  let y := gfP2_Sub D x in
  let y := gfP2_Mul y E in
  let t := gfP2_Add C_ C_ in
  let t := gfP2_Add t t in
  let t := gfP2_Add t t in
  let y := gfP2_Sub y t in
  let rt := gfP2_Square z in
  let t := gfP2_Mul E (tt_ r) in
  let t := gfP2_Add t t in
  let b := gfP2_Sub gfP2_SetZero t in
  let b := gfP2_MulScalar b (cx q) in
  let a := gfP2_Add (tx r) E in
  let a := gfP2_Square a in
  let a := gfP2_Sub a A in
  let a := gfP2_Sub a G in
  let t := gfP2_Add B B in
  let t := gfP2_Add t t in
  let a := gfP2_Sub a t in
  let c := gfP2_Mul z (tt_ r) in
  let c := gfP2_Add c c in
  let c := gfP2_MulScalar c (cy q) in
  (a, b, c, TwistPoint x y z rt).

Definition mulLine (ret : gfP12) (a b c : gfP2) : gfP12 :=
  let a2 := GFp6 gfP2_SetZero a b in
  let a2 := gfP6_Mul a2 (x12 ret) in
  let t3 := gfP6_MulScalar (y12 ret) c in
  let t := gfP2_Add b c in
  let t2 := GFp6 gfP2_SetZero a t in
  let rx := gfP6_Add (x12 ret) (y12 ret) in
  let ry := t3 in
  let rx := gfP6_Mul rx t2 in
  let rx := gfP6_Sub rx a2 in
  let rx := gfP6_Sub rx ry in
  let a2 := gfP6_MulTau a2 in
  let ry := gfP6_Add ry a2 in
  GFp12 rx ry.

Definition sixuPlus2NAF : list Z :=
  [0; 0; 0; 1; 0; 1; 0; -1; 0; 0; 1; -1; 0; 0; 1; 0;
   0; 1; 1; 0; -1; 0; 0; 1; 0; -1; 0; 0; 0; 0; 1; 1;
   1; 0; 0; -1; 0; 0; 1; 0; 0; 0; 0; 0; -1; 0; 0; 1;
   1; 0; 0; -1; 0; 0; 0; 1; 1; 0; -1; 0; 0; 1; 0; 1; 1].

(** The loop of miller, for the digits below index i. *)
Fixpoint miller_loop (aAffine minusA : twistPoint) (bAffine : curvePoint) (r2 : gfP2) (i : nat) (ret : gfP12) (r : twistPoint)
    : gfP12 * twistPoint :=
  match i with
  | O => (ret, r)
  | S j =>
      let '(a, b, c, newR) := lineFunctionDouble r bAffine in
      let ret := if negb (Nat.eqb i (length sixuPlus2NAF - 1)) then gfP12_Square ret else ret in
      let ret := mulLine ret a b c in
      let r := newR in
      let digit := nth j sixuPlus2NAF 0 in
      if digit =? 1 then
        let '(a, b, c, newR) := lineFunctionAdd r aAffine bAffine r2 in
        miller_loop aAffine minusA bAffine r2 j (mulLine ret a b c) newR
      else if digit =? -1 then
        let '(a, b, c, newR) := lineFunctionAdd r minusA bAffine r2 in
        miller_loop aAffine minusA bAffine r2 j (mulLine ret a b c) newR
      else miller_loop aAffine minusA bAffine r2 j ret r
  end.

(** The points Q1 and -Q2 of miller. *)
Definition frobenius_q1 (aAffine : twistPoint) : twistPoint :=
  TwistPoint (gfP2_Mul (gfP2_Conjugate (tx aAffine)) xiToPMinus1Over3) (gfP2_Mul (gfP2_Conjugate (ty aAffine)) xiToPMinus1Over2)
    gfP2_SetOne gfP2_SetOne.
Definition frobenius_minusQ2 (aAffine : twistPoint) : twistPoint :=
  TwistPoint (gfP2_MulScalar (tx aAffine) xiToPSquaredMinus1Over3) (ty aAffine) gfP2_SetOne gfP2_SetOne.

Definition miller (q : twistPoint) (p : curvePoint) : option gfP12 :=
  aAffine ← twist_MakeAffine q;
  bAffine ← curve_MakeAffine p;
  let minusA := twist_Negative aAffine in
  let r2 := gfP2_Square (ty aAffine) in
  let '(ret, r) := miller_loop aAffine minusA bAffine r2 (length sixuPlus2NAF - 1) gfP12_SetOne aAffine in
  let q1 := frobenius_q1 aAffine in
  let minusQ2 := frobenius_minusQ2 aAffine in
  let r2 := gfP2_Square (ty q1) in
  let '(a, b, c, newR) := lineFunctionAdd r q1 bAffine r2 in
  let ret := mulLine ret a b c in
  let r := newR in
  let r2 := gfP2_Square (ty minusQ2) in
  let '(a, b, c, newR) := lineFunctionAdd r minusQ2 bAffine r2 in
  Some (mulLine ret a b c).

Definition finalExponentiation (in_ : gfP12) : option gfP12 :=
  let t1 := GFp12 (gfP6_Negative (x12 in_)) (y12 in_) in
  inv ← gfP12_Invert in_;
  let t1 := gfP12_Mul t1 inv in
  let t2 := gfP12_FrobeniusP2 t1 in
  let t1 := gfP12_Mul t1 t2 in
  let fp := gfP12_Frobenius t1 in
  let fp2 := gfP12_FrobeniusP2 t1 in
  let fp3 := gfP12_Frobenius fp2 in
  let fu := gfP12_Exp t1 u in
  let fu2 := gfP12_Exp fu u in
  let fu3 := gfP12_Exp fu2 u in
  let y3 := gfP12_Frobenius fu in
  let fu2p := gfP12_Frobenius fu2 in
  let fu3p := gfP12_Frobenius fu3 in
  let y2 := gfP12_FrobeniusP2 fu2 in
  let y0 := gfP12_Mul fp fp2 in
  let y0 := gfP12_Mul y0 fp3 in
  let y1 := gfP12_Conjugate t1 in
  let y5 := gfP12_Conjugate fu2 in
  let y3 := gfP12_Conjugate y3 in
  let y4 := gfP12_Mul fu fu2p in
  let y4 := gfP12_Conjugate y4 in
  let y6 := gfP12_Mul fu3 fu3p in
  let y6 := gfP12_Conjugate y6 in
  let t0 := gfP12_Square y6 in
  let t0 := gfP12_Mul t0 y4 in
  let t0 := gfP12_Mul t0 y5 in
  let t1 := gfP12_Mul y3 y5 in
  let t1 := gfP12_Mul t1 t0 in
  let t0 := gfP12_Mul t0 y2 in
  let t1 := gfP12_Square t1 in
  let t1 := gfP12_Mul t1 t0 in
  let t1 := gfP12_Square t1 in
  let t0 := gfP12_Mul t1 y1 in
  let t1 := gfP12_Mul t1 y0 in
  let t0 := gfP12_Square t0 in
  let t0 := gfP12_Mul t0 t1 in
  Some t0.

(** At infinity the value of the exponentiation is overwritten, whatever it was. *)
Definition optimalAte (a : twistPoint) (b : curvePoint) : option gfP12 :=
  let ret := e ← miller a b; finalExponentiation e in
  if twist_IsInfinity a || curve_IsInfinity b then _ ← curve_MakeAffine b; Some gfP12_SetOne else ret.

(** ** The line functions *)

#[local] Abbreviation tp := (fun c => JPoint (tx c) (ty c) (tz c)).
#[local] Abbreviation Teq := (jeq eq2).

Lemma lineFunctionDouble_point r q : eq2 (tt_ r) (gfP2_Mul (tz r) (tz r)) ->
  let '(_, _, _, o) := lineFunctionDouble r q in
  Teq (tp o) (jdouble gfP2_Add gfP2_Mul gfP2_Sub (tp r)) /\ eq2 (tt_ o) (gfP2_Mul (tz o) (tz o)).
Proof.
  intros Ht. unfold lineFunctionDouble, jdouble, jeq. cbv zeta. cbn [tx ty tz tt_ jx jy jz]. rewrite !gfP2_Square_eq.
  split_and!; [ring|ring| |ring]. rewrite Ht. ring.
Qed.

Lemma lineFunctionAdd_point r p q r2 :
  eq2 (tt_ r) (gfP2_Mul (tz r) (tz r)) -> eq2 r2 (gfP2_Mul (ty p) (ty p)) ->
  let '(_, _, _, o) := lineFunctionAdd r p q r2 in
  Teq (tp o) (jadd gfP2_Add gfP2_Mul gfP2_Sub (tp r) (JPoint (tx p) (ty p) gfP2_SetOne)) /\ eq2 (tt_ o) (gfP2_Mul (tz o) (tz o)).
Proof.
  intros Ht Hr. unfold lineFunctionAdd, jadd, jeq. cbv zeta. cbn [tx ty tz tt_ jx jy jz]. rewrite !gfP2_Square_eq.
  split_and!; [| | |ring]; rewrite Ht, ?Hr; ring.
Qed.

(** The line a + b X + c Y on the twist, evaluated at a point in Jacobian
    coordinates and multiplied by z^3. *)
Definition line_at (a b c X Y z : gfP2) : gfP2 :=
  gfP2_Add (gfP2_Add (gfP2_Mul a (gfP2_Mul z (gfP2_Mul z z))) (gfP2_Mul (gfP2_Mul b X) z)) (gfP2_Mul c Y).

#[export] Instance line_at_proper : Proper (eq2 ==> eq2 ==> eq2 ==> eq2 ==> eq2 ==> eq2 ==> eq2) line_at.
Proof. intros a a' Ha b b' Hb c c' Hc X X' HX Y Y' HY z z' Hz. unfold line_at. by rewrite Ha, Hb, Hc, HX, HY, Hz. Qed.

Lemma lineFunctionAdd_line r p q r2 :
  eq2 (tt_ r) (gfP2_Mul (tz r) (tz r)) -> eq2 r2 (gfP2_Mul (ty p) (ty p)) ->
  let '(a, b, c, o) := lineFunctionAdd r p q r2 in
  exists b' c', eq2 b (gfP2_Mul b' (scalar (cx q))) /\ eq2 c (gfP2_Mul c' (scalar (cy q))) /\
    eq2 (line_at a b' c' (tx p) (ty p) gfP2_SetOne) gfP2_SetZero /\ eq2 (line_at a b' c' (tx r) (ty r) (tz r)) gfP2_SetZero /\
    eq2 (line_at a b' c' (tx o) (gfP2_Negative (ty o)) (tz o)) gfP2_SetZero.
Proof.
  intros Ht Hr. unfold lineFunctionAdd, line_at. cbv zeta. cbn [tx ty tz tt_ jx jy jz]. rewrite !gfP2_Square_eq.
  match goal with |- exists b' c', eq2 (gfP2_Add (gfP2_MulScalar ?l _) _) _ /\ eq2 (gfP2_Add (gfP2_MulScalar ?m _) _) _ /\ _ =>
    exists (gfP2_Add l l), (gfP2_Add m m) end.
  split; [rewrite gfP2_MulScalar_Mul; ring|]. split; [rewrite gfP2_MulScalar_Mul; ring|]. split_and!; rewrite Ht, ?Hr; ring.
Qed.

Lemma lineFunctionDouble_line r q :
  eq2 (tt_ r) (gfP2_Mul (tz r) (tz r)) ->
  let '(a, b, c, o) := lineFunctionDouble r q in
  exists b' c', eq2 b (gfP2_Mul b' (scalar (cx q))) /\ eq2 c (gfP2_Mul c' (scalar (cy q))) /\
    eq2 (line_at a b' c' (tx r) (ty r) (tz r)) gfP2_SetZero /\
    eq2 (gfP2_Add (gfP2_Mul b' (gfP2_Mul (gfP2_Double (ty r)) (tz r)))
                  (gfP2_Mul c' (gfP2_Mul (tx r) (gfP2_Add (gfP2_Double (tx r)) (tx r))))) gfP2_SetZero /\
    eq2 (line_at a b' c' (tx o) (gfP2_Negative (ty o)) (tz o)) gfP2_SetZero.
Proof.
  intros Ht. unfold lineFunctionDouble, line_at. cbv zeta. cbn [tx ty tz tt_ jx jy jz]. rewrite !gfP2_Square_eq.
  match goal with |- exists b' c', eq2 (gfP2_MulScalar ?l _) _ /\ eq2 (gfP2_MulScalar ?m _) _ /\ _ => exists l, m end.
  split; [apply gfP2_MulScalar_Mul|]. split; [apply gfP2_MulScalar_Mul|]. split_and!; rewrite Ht, ?gfP2_Double_Add; ring.
Qed.

(** The element of GF(p^12) of a line: c + b w + a w^3. *)
Definition line_element (a b c : gfP2) : gfP12 :=
  gfP12_Add (in12 (in6 c)) (gfP12_Mul omega (gfP12_Add (in12 (in6 b)) (gfP12_Mul (in12 (in6 a)) (in12 tau)))).

Lemma line_element_eq a b c : eq12 (line_element a b c) (GFp12 (GFp6 gfP2_SetZero a b) (in6 c)).
Proof.
  assert (Ha : eq6 (gfP6_Mul (in6 a) tau) (GFp6 gfP2_SetZero a gfP2_SetZero)).
  { rewrite gfP6_Mul_schoolbook. split_and!; cbn [x6 y6 z6 in6 tau]; rewrite ?gfP2_MulXi_Mul; ring. }
  assert (Hb : eq6 (GFp6 gfP2_SetZero a b) (gfP6_Add (in6 b) (GFp6 gfP2_SetZero a gfP2_SetZero))).
  { split_and!; cbn [x6 y6 z6 in6 gfP6_Add]; ring. }
  unfold line_element. split; cbn [x12 y12 gfP12_Add gfP12_Mul in12 omega]; rewrite !gfP6_MulTau_Mul.
  - rewrite Hb, <- Ha. ring.
  - ring.
Qed.

Lemma mulLine_Mul ret a b c : eq12 (mulLine ret a b c) (gfP12_Mul ret (line_element a b c)).
Proof.
  rewrite line_element_eq. assert (Hb : eq6 (GFp6 gfP2_SetZero a (gfP2_Add b c)) (gfP6_Add (GFp6 gfP2_SetZero a b) (in6 c))).
  { split_and!; cbn [x6 y6 z6 in6 gfP6_Add]; ring. }
  unfold mulLine. cbv zeta. split; cbn [x12 y12 gfP12_Mul]; rewrite ?gfP6_MulTau_Mul, ?Hb, ?gfP6_MulScalar_Mul; ring.
Qed.

(** ** The point of the Miller loop *)

#[local] Abbreviation Tadd := (jadd gfP2_Add gfP2_Mul gfP2_Sub).
#[local] Abbreviation Tdouble := (jdouble gfP2_Add gfP2_Mul gfP2_Sub).

#[local] Instance Teq_equiv : Equivalence Teq.
Proof.
  split.
  - intros a. by split_and!.
  - intros a b (H1 & H2 & H3). by split_and!; symmetry.
  - intros a b c (H1 & H2 & H3) (H4 & H5 & H6). split_and!; by etransitivity.
Qed.
#[local] Instance Tdouble_proper : Proper (Teq ==> Teq) Tdouble.
Proof. intros a b (H1 & H2 & H3). split_and!; unfold jdouble; cbv zeta; cbn [jx jy jz]; by rewrite ?H1, ?H2, ?H3. Qed.
#[local] Instance Tadd_proper : Proper (Teq ==> Teq ==> Teq) Tadd.
Proof.
  intros a b (H1 & H2 & H3) c d (H4 & H5 & H6).
  split_and!; unfold jadd; cbv zeta; cbn [jx jy jz]; by rewrite ?H1, ?H2, ?H3, ?H4, ?H5, ?H6.
Qed.

(** Double and add along signed digits below index i, from the highest. *)
Fixpoint signed_mul (ds : list Z) (a minusA : jpoint) (i : nat) (r : jpoint) : jpoint :=
  match i with
  | O => r
  | S j =>
      let r := Tdouble r in
      signed_mul ds a minusA j (if nth j ds 0 =? 1 then Tadd r a else if nth j ds 0 =? -1 then Tadd r minusA else r)
  end.
#[local] Instance signed_mul_proper ds a m i : Proper (Teq ==> Teq) (signed_mul ds a m i).
Proof.
  induction i as [|i IH]; intros r s H; [done|]. cbn [signed_mul]. apply IH. destruct (_ =? 1); [by rewrite H|]. destruct (_ =? -1); by rewrite H.
Qed.

Definition digits_value (ds : list Z) : Z := foldr (fun d acc => d + 2 * acc) 0 ds.

Lemma miller_loop_point a b r2 i : eq2 r2 (gfP2_Mul (ty a) (ty a)) -> forall ret r,
  eq2 (tt_ r) (gfP2_Mul (tz r) (tz r)) ->
  let o := snd (miller_loop a (twist_Negative a) b r2 i ret r) in
  Teq (tp o) (signed_mul sixuPlus2NAF (JPoint (tx a) (ty a) gfP2_SetOne) (JPoint (tx a) (gfP2_Negative (ty a)) gfP2_SetOne) i (tp r)) /\
  eq2 (tt_ o) (gfP2_Mul (tz o) (tz o)).
Proof.
  intros Hr2. assert (Hm : eq2 r2 (gfP2_Mul (ty (twist_Negative a)) (ty (twist_Negative a)))).
  { rewrite Hr2. cbn [twist_Negative ty]. ring. }
  assert (Hn : Teq (JPoint (tx (twist_Negative a)) (ty (twist_Negative a)) gfP2_SetOne) (JPoint (tx a) (gfP2_Negative (ty a)) gfP2_SetOne)).
  { split_and!; cbn [twist_Negative tx ty jx jy jz]; ring. }
  induction i as [|j IH]; intros ret r Ht; [by split|]. cbn [miller_loop signed_mul].
  pose proof (lineFunctionDouble_point r b Ht) as HD. destruct (lineFunctionDouble r b) as [[[la lb] lc] d]. destruct HD as [Ed Td].
  destruct (nth j sixuPlus2NAF 0 =? 1).
  { pose proof (lineFunctionAdd_point d a b r2 Td Hr2) as HA. destruct (lineFunctionAdd d a b r2) as [[[la' lb'] lc'] d']. destruct HA as [Ea Ta].
    eapply (IH _ d') in Ta as [IH1 IH2]. split; [|exact IH2]. rewrite IH1. by rewrite Ea, Ed. }
  destruct (nth j sixuPlus2NAF 0 =? -1).
  { pose proof (lineFunctionAdd_point d (twist_Negative a) b r2 Td Hm) as HA. destruct (lineFunctionAdd d (twist_Negative a) b r2) as [[[la' lb'] lc'] d'].
    destruct HA as [Ea Ta]. eapply (IH _ d') in Ta as [IH1 IH2]. split; [|exact IH2]. rewrite IH1. by rewrite Ea, Ed, Hn. }
  eapply (IH _ d) in Td as [IH1 IH2]. split; [|exact IH2]. by rewrite IH1, Ed.
Qed.

(** The Miller loop follows the lines of a double-and-add.  For a point r of
    the loop, whose t is z^2, lineFunctionDouble returns the double of r and the
    tangent at r, and lineFunctionAdd the sum of r and the affine point p and
    the line through them, each line also meeting the negated result; the
    coefficients are evaluated at q; mulLine multiplies by the element of that
    line; the digits of the loop are those of 6u+2, and its last point is that
    multiple by double-and-add. *)
Theorem miller_loop_lines r p q r2 ret b :
  eq2 (tt_ r) (gfP2_Mul (tz r) (tz r)) -> eq2 r2 (gfP2_Mul (ty p) (ty p)) ->
  (let '(a, b, c, o) := lineFunctionDouble r q in
   Teq (tp o) (Tdouble (tp r)) /\ eq2 (tt_ o) (gfP2_Mul (tz o) (tz o)) /\
   (exists b' c', eq2 b (gfP2_Mul b' (scalar (cx q))) /\ eq2 c (gfP2_Mul c' (scalar (cy q))) /\
     eq2 (line_at a b' c' (tx r) (ty r) (tz r)) gfP2_SetZero /\
     eq2 (gfP2_Add (gfP2_Mul b' (gfP2_Mul (gfP2_Double (ty r)) (tz r)))
                   (gfP2_Mul c' (gfP2_Mul (tx r) (gfP2_Add (gfP2_Double (tx r)) (tx r))))) gfP2_SetZero /\
     eq2 (line_at a b' c' (tx o) (gfP2_Negative (ty o)) (tz o)) gfP2_SetZero) /\
   eq12 (mulLine ret a b c) (gfP12_Mul ret (line_element a b c))) /\
  (let '(a, b, c, o) := lineFunctionAdd r p q r2 in
   Teq (tp o) (Tadd (tp r) (JPoint (tx p) (ty p) gfP2_SetOne)) /\ eq2 (tt_ o) (gfP2_Mul (tz o) (tz o)) /\
   (exists b' c', eq2 b (gfP2_Mul b' (scalar (cx q))) /\ eq2 c (gfP2_Mul c' (scalar (cy q))) /\
     eq2 (line_at a b' c' (tx p) (ty p) gfP2_SetOne) gfP2_SetZero /\ eq2 (line_at a b' c' (tx r) (ty r) (tz r)) gfP2_SetZero /\
     eq2 (line_at a b' c' (tx o) (gfP2_Negative (ty o)) (tz o)) gfP2_SetZero) /\
   eq12 (mulLine ret a b c) (gfP12_Mul ret (line_element a b c))) /\
  digits_value sixuPlus2NAF = 6 * u + 2 /\
  Teq (tp (snd (miller_loop p (twist_Negative p) b r2 (length sixuPlus2NAF - 1) ret r)))
      (signed_mul sixuPlus2NAF (JPoint (tx p) (ty p) gfP2_SetOne) (JPoint (tx p) (gfP2_Negative (ty p)) gfP2_SetOne)
         (length sixuPlus2NAF - 1) (tp r)).
Proof.
  intros Ht Hr. split_and!.
  - pose proof (lineFunctionDouble_point r q Ht) as H1. pose proof (lineFunctionDouble_line r q Ht) as H2.
    destruct (lineFunctionDouble r q) as [[[la lb] lc] o]. destruct H1 as [H1 H3]. by split_and!; [..|apply mulLine_Mul].
  - pose proof (lineFunctionAdd_point r p q r2 Ht Hr) as H1. pose proof (lineFunctionAdd_line r p q r2 Ht Hr) as H2.
    destruct (lineFunctionAdd r p q r2) as [[[la lb] lc] o]. destruct H1 as [H1 H3]. by split_and!; [..|apply mulLine_Mul].
  - reflexivity.
  - by apply miller_loop_point.
Qed.

Lemma miller_loop_lines_witness :
  Teq (tp (snd (miller_loop twistGen (twist_Negative twistGen) curveGen (gfP2_Square (ty twistGen)) (length sixuPlus2NAF - 1) gfP12_SetOne twistGen)))
      (signed_mul sixuPlus2NAF (tp twistGen) (tp (twist_Negative twistGen)) (length sixuPlus2NAF - 1) (tp twistGen)).
Proof.
  destruct (miller_loop_lines twistGen twistGen curveGen (gfP2_Square (ty twistGen)) gfP12_SetOne curveGen) as (_ & _ & _ & H).
  - split; vm_compute; reflexivity.
  - rewrite gfP2_Square_eq. reflexivity.
  - exact H.
Defined.

(** ** The final exponentiation *)

(** The maps that the exponentiation is composed of: multiplicative, and
    commuting with the conjugation. *)
Record hom (f : gfP12 -> gfP12) : Prop := {
  hom_proper : Proper (eq12 ==> eq12) f;
  hom_Mul : forall a b, eq12 (f (gfP12_Mul a b)) (gfP12_Mul (f a) (f b));
  hom_one : eq12 (f gfP12_SetOne) gfP12_SetOne;
  hom_conj : forall a, eq12 (f (gfP12_Conjugate a)) (gfP12_Conjugate (f a)) }.

#[local] Instance Conjugate12_proper : Proper (eq12 ==> eq12) gfP12_Conjugate.
Proof. intros a b [H1 H2]. split; cbn [x12 y12 gfP12_Conjugate]; [by rewrite H1|done]. Qed.
#[local] Instance Frobenius12_proper : Proper (eq12 ==> eq12) gfP12_Frobenius.
Proof. intros a b [H1 H2]. split; cbn [x12 y12 gfP12_Frobenius]; rewrite ?gfP6_MulScalar_Mul; [by rewrite H1|by rewrite H2]. Qed.

Lemma hom_id : hom (fun x => x).
Proof. split; [by intros a b|reflexivity|reflexivity|reflexivity]. Qed.
Lemma hom_comp g f : hom g -> hom f -> hom (fun x => g (f x)).
Proof.
  intros [Pg Mg Og Cg] [Pf Mf Of Cf]. split; [intros a b H; by apply Pg, Pf|intros a b| |intros a].
  - etransitivity; [apply Pg, Mf|apply Mg].
  - etransitivity; [apply Pg, Of|apply Og].
  - etransitivity; [apply Pg, Cf|apply Cg].
Qed.
Lemma Conjugate_Mul a b : eq12 (gfP12_Conjugate (gfP12_Mul a b)) (gfP12_Mul (gfP12_Conjugate a) (gfP12_Conjugate b)).
Proof. components12. Qed.
Lemma Conjugate_one : eq12 (gfP12_Conjugate gfP12_SetOne) gfP12_SetOne.
Proof. components12. Qed.
Lemma hom_mul f g : hom f -> hom g -> hom (fun x => gfP12_Mul (f x) (g x)).
Proof.
  intros [Pf Mf Of Cf] [Pg Mg Og Cg]. split; [intros a b H; by rewrite (Pf _ _ H), (Pg _ _ H)|intros a b| |intros a].
  - rewrite Mf, Mg. ring.
  - rewrite Of, Og. ring.
  - by rewrite Cf, Cg, Conjugate_Mul.
Qed.
Lemma hom_eq f g : (forall x, eq12 (f x) (g x)) -> hom g -> hom f.
Proof. intros E [Pg Mg Og Cg]. split; [intros a b H|intros a b| |intros a]; rewrite !E; auto. Qed.
Lemma hom_Square : hom gfP12_Square.
Proof. apply (hom_eq _ (fun x => gfP12_Mul x x)); [apply gfP12_Square_Mul|]. apply hom_mul; apply hom_id. Qed.
Lemma hom_Conjugate : hom gfP12_Conjugate.
Proof. split; [apply _|apply Conjugate_Mul|apply Conjugate_one|reflexivity]. Qed.
Lemma hom_Frobenius : hom gfP12_Frobenius.
Proof.
  split; [apply _|apply gfP12_Frobenius_Mul| |intros a].
  - split; cbn [x12 y12 gfP12_Frobenius gfP12_SetOne]; rewrite ?gfP6_MulScalar_Mul; split_and!; split; vm_compute; reflexivity.
  - split; cbn [x12 y12 gfP12_Frobenius gfP12_Conjugate]; [|reflexivity]. rewrite !gfP6_MulScalar_Mul.
    assert (eq6 (gfP6_Frobenius (gfP6_Negative (x12 a))) (gfP6_Negative (gfP6_Frobenius (x12 a)))) as ->; [|ring].
    split_and!; split; cbn; try ring; rewrite ?eqm_mod; apply eqm_eq; ring.
Qed.
Lemma hom_FrobeniusP2 : hom gfP12_FrobeniusP2.
Proof.
  apply (hom_eq _ (fun x => gfP12_Frobenius (gfP12_Frobenius x))); [intros x; symmetry; apply gfP12_Frobenius_twice|].
  apply hom_comp; apply hom_Frobenius.
Qed.
Lemma hom_pow n : hom (fun x => pow12 x n).
Proof.
  induction n as [|n IH]; cbn [pow12]; [|by apply hom_mul; [apply hom_id|]].
  split; [by intros a b|intros a b; ring|reflexivity|intros a; symmetry; apply Conjugate_one].
Qed.
Lemma hom_Exp n : 0 <= n -> hom (fun x => gfP12_Exp x n).
Proof. intros Hn. apply (hom_eq _ (fun x => pow12 x (Z.to_nat n))); [intros x; by apply gfP12_Exp_pow|apply hom_pow]. Qed.

(** What follows the inversion, on the quotient of the conjugate and in_. *)
Definition exponents (q : gfP12) : gfP12 :=
  let t := gfP12_Mul q (gfP12_FrobeniusP2 q) in
  let fu := gfP12_Exp t u in
  let fu2 := gfP12_Exp fu u in
  let fu3 := gfP12_Exp fu2 u in
  let y0 := gfP12_Mul (gfP12_Mul (gfP12_Frobenius t) (gfP12_FrobeniusP2 t)) (gfP12_Frobenius (gfP12_FrobeniusP2 t)) in
  let y1 := gfP12_Conjugate t in
  let y2 := gfP12_FrobeniusP2 fu2 in
  let y3 := gfP12_Conjugate (gfP12_Frobenius fu) in
  let y4 := gfP12_Conjugate (gfP12_Mul fu (gfP12_Frobenius fu2)) in
  let y5 := gfP12_Conjugate fu2 in
  let y6 := gfP12_Conjugate (gfP12_Mul fu3 (gfP12_Frobenius fu3)) in
  gfP12_Mul y0 (gfP12_Mul (pow12 y1 2) (gfP12_Mul (pow12 y2 6) (gfP12_Mul (pow12 y3 12) (gfP12_Mul (pow12 y4 18)
    (gfP12_Mul (pow12 y5 30) (pow12 y6 36)))))).

Lemma finalExponentiation_eq a :
  match gfP12_Invert a, finalExponentiation a with
  | Some i, Some r => eq12 r (exponents (gfP12_Mul (gfP12_Conjugate a) i))
  | None, None => True
  | _, _ => False
  end.
Proof.
  unfold finalExponentiation. destruct (gfP12_Invert a) as [i|]; cbn [mbind option_bind]; [|done].
  change (GFp12 (gfP6_Negative (x12 a)) (y12 a)) with (gfP12_Conjugate a). unfold exponents. cbv zeta.
  generalize (gfP12_Mul (gfP12_Conjugate a) i) as q. intros q. generalize (gfP12_Mul q (gfP12_FrobeniusP2 q)) as t. intros t.
  generalize (gfP12_Exp t u) as fu. intros fu. generalize (gfP12_Exp fu u) as fu2. intros fu2. generalize (gfP12_Exp fu2 u) as fu3. intros fu3.
  generalize (gfP12_Mul (gfP12_Mul (gfP12_Frobenius t) (gfP12_FrobeniusP2 t)) (gfP12_Frobenius (gfP12_FrobeniusP2 t))) as y0.
  generalize (gfP12_Conjugate t) as y1, (gfP12_FrobeniusP2 fu2) as y2, (gfP12_Conjugate (gfP12_Frobenius fu)) as y3, (gfP12_Conjugate (gfP12_Mul fu (gfP12_Frobenius fu2))) as y4,
    (gfP12_Conjugate fu2) as y5, (gfP12_Conjugate (gfP12_Mul fu3 (gfP12_Frobenius fu3))) as y6.
  intros y6 y5 y4 y3 y2 y1 y0. cbn [pow12]. rewrite !gfP12_Square_Mul. ring.
Qed.

Lemma u_nonneg : 0 <= u.
Proof. by vm_compute. Qed.

#[local] Opaque gfP12_Mul gfP12_Square gfP12_Conjugate gfP12_Frobenius gfP12_FrobeniusP2 gfP12_Exp pow12.

Ltac hom_solve := repeat first
  [apply hom_id | exact hom_Square | exact hom_Conjugate | exact hom_Frobenius | exact hom_FrobeniusP2 | apply hom_Exp, u_nonneg | apply hom_pow
  | apply hom_mul | apply (hom_comp gfP12_Conjugate) | apply (hom_comp gfP12_Frobenius) | apply (hom_comp gfP12_FrobeniusP2)
  | apply (hom_comp (fun x => gfP12_Exp x u)) | apply (hom_comp (fun x => pow12 x _))].

Lemma hom_exponents : hom exponents.
Proof. unfold exponents. cbv zeta. hom_solve. Qed.

#[local] Transparent gfP12_Mul gfP12_Square gfP12_Conjugate gfP12_Frobenius gfP12_FrobeniusP2 gfP12_Exp pow12.

Lemma inverse_unique a i j : eq12 (gfP12_Mul a i) gfP12_SetOne -> eq12 (gfP12_Mul a j) gfP12_SetOne -> eq12 i j.
Proof.
  intros Hi Hj. transitivity (gfP12_Mul (gfP12_Mul a j) i); [rewrite Hj; ring|]. transitivity (gfP12_Mul (gfP12_Mul a i) j); [ring|].
  rewrite Hi. ring.
Qed.

Lemma finalExponentiation_Mul a b x y : finalExponentiation a = Some x -> finalExponentiation b = Some y ->
  exists z, finalExponentiation (gfP12_Mul a b) = Some z /\ eq12 z (gfP12_Mul x y).
Proof.
  intros Ha Hb. pose proof (finalExponentiation_eq a) as Ea. pose proof (finalExponentiation_eq b) as Eb.
  rewrite Ha in Ea. rewrite Hb in Eb. destruct (gfP12_Invert a) as [i|] eqn:Ia; [|done]. destruct (gfP12_Invert b) as [j|] eqn:Ib; [|done].
  apply gfP12_Invert_correct in Ia, Ib. assert (Hu : eq12 (gfP12_Mul (gfP12_Mul a b) (gfP12_Mul i j)) gfP12_SetOne).
  { transitivity (gfP12_Mul (gfP12_Mul a i) (gfP12_Mul b j)); [ring|]. rewrite Ia, Ib. ring. }
  destruct (gfP12_Invert_unit _ _ Hu) as [k Ek]. pose proof (finalExponentiation_eq (gfP12_Mul a b)) as E. rewrite Ek in E.
  destruct (finalExponentiation (gfP12_Mul a b)) as [z|]; [|done]. exists z. split; [done|].
  apply gfP12_Invert_correct in Ek. pose proof (inverse_unique _ _ _ Ek Hu) as Hk. rewrite E, Ea, Eb, <- (hom_Mul _ hom_exponents).
  apply (hom_proper _ hom_exponents). rewrite Hk, Conjugate_Mul. ring.
Qed.

Lemma finalExponentiation_unit a : is_Some (finalExponentiation a) <-> exists b, eq12 (gfP12_Mul a b) gfP12_SetOne.
Proof.
  rewrite <- Invert_iff. pose proof (finalExponentiation_eq a) as E.
  destruct (gfP12_Invert a), (finalExponentiation a); [|done|done|]; by rewrite !is_Some_alt.
Qed.

Lemma finalExponentiation_value a x i : finalExponentiation a = Some x -> eq12 (gfP12_Mul a i) gfP12_SetOne ->
  eq12 x (exponents (gfP12_Mul (gfP12_Conjugate a) i)).
Proof.
  intros Hx Hi. pose proof (finalExponentiation_eq a) as E. rewrite Hx in E. destruct (gfP12_Invert a) as [j|] eqn:Ej; [|done].
  apply gfP12_Invert_correct in Ej. rewrite E. apply (hom_proper _ hom_exponents). by rewrite (inverse_unique _ _ _ Ej Hi).
Qed.

Lemma finalExponentiation_unitary a x : finalExponentiation a = Some x -> eq12 (gfP12_Mul x (gfP12_Conjugate x)) gfP12_SetOne.
Proof.
  intros Hx. destruct (proj1 (finalExponentiation_unit a)) as [i Hi]; [by eexists|]. rewrite (finalExponentiation_value a x i Hx Hi).
  rewrite <- (hom_conj _ hom_exponents), <- (hom_Mul _ hom_exponents), <- (hom_one _ hom_exponents).
  apply (hom_proper _ hom_exponents). assert (Hc : eq12 (gfP12_Conjugate (gfP12_Conjugate a)) a) by components12.
  rewrite Conjugate_Mul, Hc. transitivity (gfP12_Mul (gfP12_Mul a i) (gfP12_Conjugate (gfP12_Mul a i))); [rewrite Conjugate_Mul; ring|].
  rewrite Hi, Conjugate_one. ring.
Qed.

(** The final exponentiation.  It has a value exactly on the units of
    GF(p^12); the value is y0 y1^2 y2^6 y3^12 y4^18 y5^30 y6^36 for the powers
    of the conjugate over the argument that the source names; it is a
    homomorphism, and its values are unitary: the conjugate is the inverse. *)
Theorem final_exponentiation a :
  (is_Some (finalExponentiation a) <-> exists b, eq12 (gfP12_Mul a b) gfP12_SetOne) /\
  (forall x, finalExponentiation a = Some x ->
     (forall i, eq12 (gfP12_Mul a i) gfP12_SetOne -> eq12 x (exponents (gfP12_Mul (gfP12_Conjugate a) i))) /\
     eq12 (gfP12_Mul x (gfP12_Conjugate x)) gfP12_SetOne /\
     (forall b y, finalExponentiation b = Some y ->
        exists z, finalExponentiation (gfP12_Mul a b) = Some z /\ eq12 z (gfP12_Mul x y))).
Proof.
  split; [apply finalExponentiation_unit|]. intros x Hx. split_and!.
  - intros i. by apply finalExponentiation_value.
  - by eapply finalExponentiation_unitary.
  - intros b y. by apply finalExponentiation_Mul.
Qed.

Lemma final_exponentiation_witness :
  exists x, finalExponentiation omega = Some x /\ eq12 (gfP12_Mul x (gfP12_Conjugate x)) gfP12_SetOne.
Proof.
  destruct (final_exponentiation omega) as [[_ H] V]. destruct H as [x Hx].
  - destruct (proj1 (Invert_iff omega)) as [b Hb]; [by vm_compute; eexists|by exists b].
  - exists x. split; [done|]. by apply V.
Defined.
