(* ===== verification/Bn256.v ===== *)
(** * Package crypto/bn256/google: groups and pairing checks

    bn256.go: the groups G1, G2 and GT over the points and field elements of the
    files before this one, their byte encodings, Pair and PairingCheck.  A
    receiver whose p is nil is [None]; arguments have a point, as the source asks
    for.  Receivers are distinct from the arguments. *)

From Stdlib Require Import Ring Setoid Morphisms.
From S2P Require Import Prelude Modular Bn256Field Bn256Curve Bn256Pair.

#[local] Opaque P.

(** ** bn256.go *)

Definition numBytes : Z := 256 / 8.

Inductive bn_error : Type :=
| ENotEnoughData
| ECoordinateExceedsModulus
| EMalformedPoint.

(** The copies of Marshal: the bytes of value k end at (k+1) * numBytes. *)
Fixpoint put_coords (k : Z) (vs ret : list Z) : option (list Z) :=
  match vs with
  | [] => Some ret
  | v :: vs => ret ← go_copy_at ret ((k + 1) * numBytes - len (big_bytes v)) (big_bytes v); put_coords (k + 1) vs ret
  end.
Definition marshal_words (vs : list Z) : option (list Z) := put_coords 0 vs (zeros (numBytes * len vs)).
(** SetBytes(m[i*numBytes : (i+1)*numBytes]) *)
Definition coord (m : list Z) (i : nat) : Z := be_val (take 32 (drop (32 * i) m)).

Definition G1_ScalarBaseMult (k : Z) : curvePoint := curve_Mul curveGen k.
Definition G1_ScalarMult (a : curvePoint) (k : Z) : curvePoint := curve_Mul a k.
Definition G1_Add (e : option curvePoint) (a b : curvePoint) : curvePoint := curve_Add (default newCurvePoint e) a b.
Definition G1_Neg (a : curvePoint) : curvePoint := curve_Negative a.

(** The bytes, and the receiver made affine. *)
Definition G1_Marshal (e : curvePoint) : option (list Z * curvePoint) :=
  if curve_IsInfinity e then Some (zeros (numBytes * 2), e)
  else
  e ← curve_MakeAffine e;
  ret ← marshal_words [cx e mod P; cy e mod P];
  Some (ret, e).

(** The receiver afterwards, and an error or the bytes left. *)
Definition G1_Unmarshal (e : option curvePoint) (m : list Z) : option curvePoint * (bn_error + list Z) :=
  if negb (len m =? 2 * numBytes) then (e, inl ENotEnoughData)
  else
  let p := default newCurvePoint e in
  let x := coord m 0 in
  if P <=? x then (Some (CurvePoint x (cy p) (cz p) (ct p)), inl ECoordinateExceedsModulus)
  else
  let y := coord m 1 in
  if P <=? y then (Some (CurvePoint x y (cz p) (ct p)), inl ECoordinateExceedsModulus)
  else if (x =? 0) && (y =? 0) then (Some (CurvePoint x 1 0 0), inr (drop 64 m))
  else
  let p := CurvePoint x y 1 1 in
  if negb (curve_IsOnCurve p) then (Some p, inl EMalformedPoint)
  else (Some p, inr (drop 64 m)).

Definition G2_ScalarBaseMult (k : Z) : twistPoint := twist_Mul twistGen k.
Definition G2_ScalarMult (a : twistPoint) (k : Z) : twistPoint := twist_Mul a k.
Definition G2_Add (e : option twistPoint) (a b : twistPoint) : twistPoint := twist_Add (default newTwistPoint e) a b.

Definition G2_Marshal (n : twistPoint) : option (list Z * twistPoint) :=
  if twist_IsInfinity n then Some (zeros (numBytes * 4), n)
  else
  n ← twist_MakeAffine n;
  ret ← marshal_words [x2 (tx n) mod P; y2 (tx n) mod P; x2 (ty n) mod P; y2 (ty n) mod P];
  Some (ret, n).

Definition G2_Unmarshal (e : option twistPoint) (m : list Z) : option twistPoint * (bn_error + list Z) :=
  if negb (len m =? 4 * numBytes) then (e, inl ENotEnoughData)
  else
  let p := default newTwistPoint e in
  let xx := coord m 0 in
  if P <=? xx then (Some (TwistPoint (GFp2 xx (y2 (tx p))) (ty p) (tz p) (tt_ p)), inl ECoordinateExceedsModulus)
  else
  let xy := coord m 1 in
  if P <=? xy then (Some (TwistPoint (GFp2 xx xy) (ty p) (tz p) (tt_ p)), inl ECoordinateExceedsModulus)
  else
  let yx := coord m 2 in
  if P <=? yx then (Some (TwistPoint (GFp2 xx xy) (GFp2 yx (y2 (ty p))) (tz p) (tt_ p)), inl ECoordinateExceedsModulus)
  else
  let yy := coord m 3 in
  if P <=? yy then (Some (TwistPoint (GFp2 xx xy) (GFp2 yx yy) (tz p) (tt_ p)), inl ECoordinateExceedsModulus)
  else if (xx =? 0) && (xy =? 0) && (yx =? 0) && (yy =? 0) then
    (Some (TwistPoint (GFp2 xx xy) gfP2_SetOne gfP2_SetZero gfP2_SetZero), inr (drop 128 m))
  else
  let p := TwistPoint (GFp2 xx xy) (GFp2 yx yy) gfP2_SetOne gfP2_SetOne in
  if negb (twist_IsOnCurve p) then (Some p, inl EMalformedPoint)
  else (Some p, inr (drop 128 m)).

Definition GT_ScalarMult (a : gfP12) (k : Z) : gfP12 := gfP12_Exp a k.
Definition GT_Add (a b : gfP12) : gfP12 := gfP12_Mul a b.
Definition GT_Neg (a : gfP12) : option gfP12 := gfP12_Invert a.

Definition GT_Marshal (n : gfP12) : option (list Z * gfP12) :=
  let n := gfP12_Minimal n in
  ret ← marshal_words
    [x2 (x6 (x12 n)); y2 (x6 (x12 n)); x2 (y6 (x12 n)); y2 (y6 (x12 n)); x2 (z6 (x12 n)); y2 (z6 (x12 n));
     x2 (x6 (y12 n)); y2 (x6 (y12 n)); x2 (y6 (y12 n)); y2 (y6 (y12 n)); x2 (z6 (y12 n)); y2 (z6 (y12 n))];
  Some (ret, n).

(** [None]: false, with the receiver as it was. *)
Definition GT_Unmarshal (m : list Z) : option gfP12 :=
  if negb (len m =? 12 * numBytes) then None
  else Some (GFp12 (GFp6 (GFp2 (coord m 0) (coord m 1)) (GFp2 (coord m 2) (coord m 3)) (GFp2 (coord m 4) (coord m 5)))
                   (GFp6 (GFp2 (coord m 6) (coord m 7)) (GFp2 (coord m 8) (coord m 9)) (GFp2 (coord m 10) (coord m 11)))).

Definition Pair (g1 : curvePoint) (g2 : twistPoint) : option gfP12 := optimalAte g2 g1.

(** [None]: b has no element for a finite one of a, or an element has no inverse. *)
Fixpoint pairing_loop (a : list curvePoint) (b : list twistPoint) (acc : gfP12) : option gfP12 :=
  match a with
  | [] => Some acc
  | ai :: a =>
      if curve_IsInfinity ai then pairing_loop a (tail b) acc
      else
      bi ← head b;
      if twist_IsInfinity bi then pairing_loop a (tail b) acc
      else m ← miller bi ai; pairing_loop a (tail b) (gfP12_Mul acc m)
  end.
Definition PairingCheck (a : list curvePoint) (b : list twistPoint) : option bool :=
  acc ← pairing_loop a b gfP12_SetOne;
  ret ← finalExponentiation acc;
  Some (gfP12_IsOne ret).

(** ** Pairing checks *)

Lemma minimal_bound z : 0 <= minimal z < P.
Proof. pose proof P_pos. unfold minimal. destruct (z <? 0) eqn:E1, (P <=? z) eqn:E2; cbn [orb]; bprop; try lia; apply Z.mod_pos_bound; lia. Qed.

Lemma minimal_eqm z : eqm P (minimal z) z.
Proof. unfold minimal. destruct (_ || _); [apply eqm_mod|reflexivity]. Qed.

Lemma minimal_unique z v : 0 <= v < P -> eqm P z v -> minimal z = v.
Proof.
  intros Hv H. rewrite <- (Z.mod_small _ _ (minimal_bound z)), <- (Z.mod_small v P Hv). exact (transitivity (minimal_eqm z) H).
Qed.

Lemma gfP2_IsZero_minimal a : gfP2_IsZero (gfP2_Minimal a) = true <-> eq2 a gfP2_SetZero.
Proof. unfold gfP2_IsZero, gfP2_Minimal, eq2. cbn [x2 y2 gfP2_SetZero]. rewrite andb_true_iff, !Z.eqb_eq. by rewrite !minimal_zero. Qed.

Lemma gfP2_IsOne_minimal a : gfP2_IsOne (gfP2_Minimal a) = true <-> eq2 a gfP2_SetOne.
Proof.
  unfold gfP2_IsOne, gfP2_Minimal, eq2. cbn [x2 y2 gfP2_SetOne]. rewrite <- minimal_zero. pose proof (minimal_bound (y2 a)). pose proof P_gt_1.
  destruct (minimal (x2 a) =? 0) eqn:E; cbn [negb]; [apply Z.eqb_eq in E|apply Z.eqb_neq in E; split; [discriminate|intros [? _]; contradiction]].
  rewrite Z.eqb_eq, Z.abs_eq by lia. split.
  - intros H1. split; [done|]. rewrite <- (minimal_eqm (y2 a)), H1. reflexivity.
  - intros [_ H1]. by apply minimal_unique.
Qed.

Lemma gfP12_IsOne_iff a : gfP12_IsOne a = true <-> eq12 a gfP12_SetOne.
Proof.
  unfold gfP12_IsOne, gfP12_Minimal, gfP6_IsZero, gfP6_IsOne, gfP6_Minimal. cbn [x12 y12 x6 y6 z6].
  rewrite !andb_true_iff, !gfP2_IsZero_minimal, gfP2_IsOne_minimal. unfold eq12, eq6. cbn [x12 y12 x6 y6 z6 gfP12_SetOne gfP6_SetOne gfP6_SetZero]. tauto.
Qed.

Definition product (es : list gfP12) : gfP12 := foldr gfP12_Mul gfP12_SetOne es.
Definition Pairs (a : list curvePoint) (b : list twistPoint) : option (list gfP12) := mapM (fun '(x, y) => Pair x y) (zip a b).

Lemma product_cons e es : product (e :: es) = gfP12_Mul e (product es).
Proof. reflexivity. Qed.

Lemma finalExponentiation_one : exists v, finalExponentiation gfP12_SetOne = Some v /\ eq12 v gfP12_SetOne.
Proof.
  assert (H1 : eq12 (gfP12_Mul gfP12_SetOne gfP12_SetOne) gfP12_SetOne) by ring.
  destruct (proj2 (finalExponentiation_unit gfP12_SetOne)) as [v Hv]; [by exists gfP12_SetOne|]. exists v. split; [done|].
  rewrite (finalExponentiation_value _ _ _ Hv H1). rewrite <- (hom_one _ hom_exponents) at 3. apply (hom_proper _ hom_exponents).
  rewrite Conjugate_one. ring.
Qed.

#[local] Opaque finalExponentiation miller gfP12_Mul curve_MakeAffine.

Lemma pairing_loop_product a : forall b acc v es, length a = length b -> finalExponentiation acc = Some v -> Pairs a b = Some es ->
  exists e r, pairing_loop a b acc = Some e /\ finalExponentiation e = Some r /\ eq12 r (gfP12_Mul v (product es)).
Proof.
  unfold Pairs. induction a as [|x a IH]; intros b acc v es Hl Hv He.
  - destruct b; [|done]. injection He as <-. exists acc, v. split_and!; [done|done|]. cbn. ring.
  - destruct b as [|y b]; [done|]. cbn [zip zip_with mapM] in He. destruct (Pair x y) as [e|] eqn:E; [|done]. cbn [mbind option_bind] in He.
    destruct (mapM _ (zip a b)) as [es'|] eqn:Es; [|done]. injection He as <-. injection Hl as Hl. unfold Pair, optimalAte in E.
    cbn [pairing_loop head tail mbind option_bind]. destruct (curve_IsInfinity x) eqn:Ix.
    { rewrite orb_true_r in E. destruct (curve_MakeAffine x); [|done]. injection E as <-.
      destruct (IH b acc v es' Hl Hv Es) as (e & r & H1 & H2 & H3). exists e, r. split_and!; [done|done|]. rewrite H3, product_cons. ring. }
    destruct (twist_IsInfinity y) eqn:Iy; cbn [orb] in E.
    { destruct (curve_MakeAffine x); [|done]. injection E as <-.
      destruct (IH b acc v es' Hl Hv Es) as (e & r & H1 & H2 & H3). exists e, r. split_and!; [done|done|]. rewrite H3, product_cons. ring. }
    destruct (miller y x) as [m|]; [|done]. cbn [mbind option_bind] in E |- *.
    destruct (finalExponentiation_Mul acc m v e Hv E) as (z & Hz & Ez).
    destruct (IH b _ z es' Hl Hz Es) as (e' & r & H1 & H2 & H3). exists e', r. split_and!; [done|done|]. rewrite H3, Ez, product_cons. ring.
Qed.

Lemma PairingCheck_value a b e r : pairing_loop a b gfP12_SetOne = Some e -> finalExponentiation e = Some r ->
  PairingCheck a b = Some (gfP12_IsOne r).
Proof. intros H1 H2. apply bind_Some. exists e. split; [exact H1|]. apply bind_Some. by exists r. Qed.

Lemma Pair_unitary x y e : Pair x y = Some e -> eq12 (gfP12_Mul e (gfP12_Conjugate e)) gfP12_SetOne.
Proof.
  unfold Pair, optimalAte. intros E. destruct (_ || _).
  - destruct (curve_MakeAffine x); [|done]. injection E as <-. rewrite Conjugate_one. ring.
  - destruct (miller y x) as [m|]; [|done]. by eapply finalExponentiation_unitary.
Qed.

(** PairingCheck against Pair.  Where the pairings of the points have
    values, PairingCheck, which multiplies the Miller values and exponentiates
    once, answers whether the product of the pairings is one; each pairing is
    unitary, so that GT_Neg of it is its conjugate; and a point at infinity
    contributes nothing. *)
Theorem pairing_check_product a b es :
  length a = length b -> Pairs a b = Some es ->
  (exists r, PairingCheck a b = Some r /\ (r = true <-> eq12 (product es) gfP12_SetOne)) /\
  Forall (fun e => eq12 (gfP12_Mul e (gfP12_Conjugate e)) gfP12_SetOne) es.
Proof.
  intros Hl He. split.
  - destruct finalExponentiation_one as (v & Hv & Ev). destruct (pairing_loop_product a b _ v es Hl Hv He) as (e & r & H1 & H2 & H3).
    exists (gfP12_IsOne r). split; [by eapply PairingCheck_value|].
    rewrite gfP12_IsOne_iff, H3, Ev. assert (eq12 (gfP12_Mul gfP12_SetOne (product es)) (product es)) as -> by ring. done.
  - unfold Pairs in He. apply mapM_Some in He. revert He. generalize (zip a b) as l. intros l He. induction He as [|[x y] e l es E _ IH]; [done|].
    constructor; [|done]. by eapply Pair_unitary.
Qed.

#[local] Transparent finalExponentiation miller gfP12_Mul curve_MakeAffine.

Lemma pairing_check_product_witness :
  exists r, PairingCheck [curve_SetInfinity curveGen; curveGen] [twistGen; twist_SetInfinity twistGen] = Some r /\ r = true.
Proof.
  destruct (pairing_check_product [curve_SetInfinity curveGen; curveGen] [twistGen; twist_SetInfinity twistGen] [gfP12_SetOne; gfP12_SetOne])
    as [(r & H1 & H2) _]; [reflexivity|reflexivity|]. exists r. split; [exact H1|]. apply H2. cbn [product foldr]. ring.
Defined.

(** ** Encodings *)

Lemma put_coords_spec vs : Forall (fun v => 0 <= v < 256 ^ 32) vs -> forall k pre, len pre = k * numBytes ->
  put_coords k vs (pre ++ zeros (numBytes * len vs)) = Some (pre ++ concat (map (be_bytes 32) vs)).
Proof.
  change numBytes with 32. induction 1 as [|v vs Hv _ IH]; intros k pre Hp; [by rewrite !app_nil_r|]. cbn [put_coords map concat].
  change numBytes with 32. pose proof (big_bytes_len_le v 32 Hv) as Hl. pose proof (len_nonneg (big_bytes v)). pose proof (len_nonneg vs). set (b := big_bytes v) in *.
  assert (zeros (32 * len (v :: vs)) = zeros (32 - len b) ++ zeros (len b) ++ zeros (32 * len vs)) as ->.
  { unfold zeros. rewrite <- !replicate_add. f_equal. rewrite len_cons. lia. }
  unfold go_copy_at. rewrite !len_app, !len_zeros, Hp by lia.
  destruct (Z.leb_spec 0 ((k + 1) * 32 - len b)); [|pose proof (len_nonneg pre); lia].
  destruct (Z.leb_spec ((k + 1) * 32 - len b) (k * 32 + (32 - len b + (len b + 32 * len vs)))); [|lia]. cbn [andb].
  assert (Hn : Z.to_nat ((k + 1) * 32 - len b) = length (pre ++ zeros (32 - len b))).
  { rewrite length_app. unfold zeros, len in *. rewrite length_replicate. lia. }
  rewrite Hn, app_assoc, take_app_length, drop_app_length, go_copy_exact by (unfold zeros, len; rewrite length_replicate; lia). cbn [mbind option_bind].
  pose proof (padded_big_bytes 32 v Hv) as Hb. change (Z.of_nat 32) with 32 in Hb. fold b in Hb.
  rewrite <- !app_assoc, (app_assoc (zeros _) b), Hb, !app_assoc. rewrite IH; [done|].
  rewrite len_app, Hp. unfold len. rewrite be_bytes_length. lia.
Qed.

Lemma marshal_words_spec vs : Forall (fun v => 0 <= v < 256 ^ 32) vs -> marshal_words vs = Some (concat (map (be_bytes 32) vs)).
Proof. intros H. exact (put_coords_spec vs H 0 [] eq_refl). Qed.

Lemma coord_concat vs : Forall (fun v => 0 <= v < 256 ^ 32) vs -> forall i v, vs !! i = Some v -> coord (concat (map (be_bytes 32) vs)) i = v.
Proof.
  intros H. induction H as [|w vs Hw _ IH]; intros i v Hi; [done|]. unfold coord. cbn [map concat]. destruct i as [|i].
  - injection Hi as ->. change (32 * 0)%nat with 0%nat. rewrite drop_0. rewrite <- (be_bytes_length 32 v) at 1.
    rewrite take_app_length, be_val_be_bytes. apply Z.mod_small. exact Hw.
  - replace (32 * S i)%nat with (length (be_bytes 32 w) + 32 * i)%nat by (rewrite be_bytes_length; lia). rewrite <- drop_drop, drop_app_length. by apply IH.
Qed.

Lemma words_concat n : forall m, bytes_ok m -> length m = (32 * n)%nat -> concat (map (be_bytes 32) (map (coord m) (seq 0 n))) = m.
Proof.
  induction n as [|n IH]; intros m Hm Hl; [by destruct m|]. cbn [seq map concat]. rewrite <- (take_drop 32 m) at 3. f_equal.
  - unfold coord. change (32 * 0)%nat with 0%nat. rewrite drop_0. transitivity (be_bytes (length (take 32 m)) (be_val (take 32 m))).
    + f_equal. rewrite length_take. lia.
    + by apply be_bytes_be_val, bytes_ok_take.
  - rewrite <- (IH (drop 32 m)) by (by apply bytes_ok_drop || (rewrite length_drop, Hl; lia)). rewrite <- seq_shift, !map_map. f_equal. apply map_ext.
    intros i. unfold coord. rewrite drop_drop. do 4 f_equal. lia.
Qed.

Lemma P_bytes : 3 < P < 256 ^ 32.
Proof. by vm_compute. Qed.

Lemma mod_bytes z : 0 <= z mod P < 256 ^ 32.
Proof. pose proof P_bytes. pose proof (Z.mod_pos_bound z P). lia. Qed.

(** The encoding of a finite point of the curve, and of a finite point of the twist. *)
Definition g1_bytes (x y : Z) : list Z := concat (map (be_bytes 32) [x mod P; y mod P]).
Definition g2_bytes (x y : gfP2) : list Z := concat (map (be_bytes 32) [x2 x mod P; y2 x mod P; x2 y mod P; y2 y mod P]).
Definition reduced2 (a : gfP2) : gfP2 := GFp2 (x2 a mod P) (y2 a mod P).

Lemma curve_affine p x y : finite p -> jrep Z.mul (eqm P) (JPoint (cx p) (cy p) (cz p)) x y -> cz p <> -1 ->
  exists d, curve_MakeAffine p = Some d /\ cx d mod P = x mod P /\ cy d mod P = y mod P.
Proof.
  intros Hf Hr Hz. destruct (decide (cz p = 1)) as [H1|H1].
  - exists p. unfold curve_MakeAffine. rewrite H1. split; [done|]. destruct Hr as [Hx Hy]. cbn [jx jy jz] in Hx, Hy. rewrite H1 in Hx, Hy.
    rewrite Z.mul_1_r in Hx. by rewrite Z.mul_1_r in Hy.
  - destruct (curve_MakeAffine p) as [d|] eqn:E.
    + exists d. destruct (curve_MakeAffine_rep p d x y) as (_ & -> & ->); [done|done|done|lia|]. split; [done|]. by rewrite !Z.mod_mod by (pose proof P_pos; lia).
    + unfold curve_MakeAffine in E. destruct (Z.eqb_spec (Z.abs (cz p)) 1); [done|]. rewrite finite_not_infinity in E by done.
      destruct Hf as [i Hi]. destruct (ModInverse_complete (cz p) P) as [j Hj]; [exact P_pos|by apply (unit_gcd P (cz p) i P_pos)|].
      by rewrite Hj in E.
Qed.

Lemma G1_Unmarshal_bytes e x y : on_curve Z.add Z.mul (eqm P) curveB x y ->
  G1_Unmarshal e (g1_bytes x y) = (Some (CurvePoint (x mod P) (y mod P) 1 1), inr []).
Proof.
  intros Ho. unfold G1_Unmarshal. assert (Hl : length (g1_bytes x y) = 64%nat) by (unfold g1_bytes; cbn [map concat]; by rewrite !length_app, !be_bytes_length).
  unfold len. rewrite Hl. assert (F : Forall (fun v => 0 <= v < 256 ^ 32) [x mod P; y mod P]) by (by repeat constructor; apply mod_bytes).
  unfold g1_bytes. rewrite (coord_concat _ F 0 _ eq_refl), (coord_concat _ F 1 _ eq_refl). fold (g1_bytes x y). pose proof (Z.mod_pos_bound x P P_pos). pose proof (Z.mod_pos_bound y P P_pos).
  cbn [negb]. change (Z.of_nat 64 =? 2 * numBytes) with true. cbn [negb].
  destruct (Z.leb_spec P (x mod P)); [lia|]. destruct (Z.leb_spec P (y mod P)); [lia|]. rewrite (drop_ge _ _) by (by rewrite Hl).
  destruct ((x mod P =? 0) && (y mod P =? 0)) eqn:E0.
  { apply andb_true_iff in E0 as [Ex Ey]. apply Z.eqb_eq, eqm_zero in Ex, Ey. unfold on_curve in Ho. rewrite Ex, Ey in Ho.
    by vm_compute in Ho. }
  assert (curve_IsOnCurve (CurvePoint (x mod P) (y mod P) 1 1) = true) as ->; [|done].
  apply curve_IsOnCurve_iff. unfold on_curve in *. cbn [cx cy]. by rewrite !eqm_mod.
Qed.

Lemma coord_nonneg m i : bytes_ok m -> 0 <= coord m i.
Proof. intros Hm. unfold coord. apply be_val_bound. by apply bytes_ok_take, bytes_ok_drop. Qed.

Lemma marshal_words_reduced vs m : bytes_ok m -> Forall (fun v => 0 <= v < P) vs -> length m = (32 * length vs)%nat ->
  map (coord m) (seq 0 (length vs)) = vs -> marshal_words vs = Some m.
Proof.
  intros Hm Hv Hl Hw. rewrite marshal_words_spec; [by rewrite <- Hw, words_concat|].
  eapply Forall_impl; [exact Hv|]. intros v Hb. pose proof P_bytes. cbn in *. lia.
Qed.

Lemma zero_words n m : bytes_ok m -> length m = (32 * n)%nat -> Forall (fun w => w = 0) (map (coord m) (seq 0 n)) -> m = zeros (numBytes * Z.of_nat n).
Proof.
  intros Hm Hl H0. rewrite <- (words_concat n m) by done. assert (Hr : map (coord m) (seq 0 n) = replicate n 0).
  { symmetry. apply replicate_as_Forall_2; [by rewrite length_map, length_seq|]. eapply Forall_impl; [exact H0|done]. }
  rewrite Hr. change numBytes with 32. clear. unfold zeros. replace (Z.to_nat (32 * Z.of_nat n)) with (32 * n)%nat by lia.
  induction n as [|n IH]; [done|]. cbn [replicate map concat]. rewrite IH. change (be_bytes 32 0) with (replicate 32 0). rewrite <- replicate_add. f_equal. lia.
Qed.

Lemma G1_Unmarshal_exact e m : bytes_ok m ->
  match G1_Unmarshal e m with
  | (Some p, inr rest) => rest = [] /\ (curve_IsInfinity p = true \/ curve_IsOnCurve p = true /\ cz p = 1) /\ G1_Marshal p = Some (m, p)
  | (_, inl ENotEnoughData) => len m <> 2 * numBytes
  | (_, inl ECoordinateExceedsModulus) => len m = 2 * numBytes /\ (P <= coord m 0 \/ P <= coord m 1)
  | (_, inl EMalformedPoint) => len m = 2 * numBytes /\ ~ on_curve Z.add Z.mul (eqm P) curveB (coord m 0) (coord m 1)
  | (None, inr _) => False
  end.
Proof.
  intros Hm. unfold G1_Unmarshal. destruct (Z.eqb_spec (len m) (2 * numBytes)) as [El|El]; cbn [negb]; [|by destruct e].
  pose proof (coord_nonneg m 0 Hm). pose proof (coord_nonneg m 1 Hm). assert (Hl : length m = (32 * 2)%nat) by (unfold len in El; change numBytes with 32 in El; lia).
  destruct (Z.leb_spec P (coord m 0)); [by split; [|left]|]. destruct (Z.leb_spec P (coord m 1)); [by split; [|right]|].
  rewrite (drop_ge m 64) by (rewrite Hl; lia). destruct ((coord m 0 =? 0) && (coord m 1 =? 0)) eqn:E0.
  - apply andb_true_iff in E0 as [Ex Ey]. apply Z.eqb_eq in Ex, Ey. split_and!; [done|by left|]. unfold G1_Marshal. cbn [curve_IsInfinity cz].
    do 2 f_equal. symmetry. apply (zero_words 2); [done|done|]. by repeat constructor.
  - destruct (curve_IsOnCurve (CurvePoint (coord m 0) (coord m 1) 1 1)) eqn:Eo; cbn [negb].
    + split_and!; [done|by right|]. unfold G1_Marshal. cbn [curve_IsInfinity cz]. change (1 =? 0) with false. change (curve_MakeAffine (CurvePoint (coord m 0) (coord m 1) 1 1)) with (Some (CurvePoint (coord m 0) (coord m 1) 1 1)).
      cbn [mbind option_bind cx cy]. rewrite !Z.mod_small by lia. rewrite (marshal_words_reduced _ m); [done|done|by repeat constructor|done|done].
    + split; [done|]. intros Ho. by rewrite (proj2 (curve_IsOnCurve_iff (CurvePoint _ _ 1 1)) Ho) in Eo.
Qed.

Lemma twist_affine p x y : twist_finite p -> jrep gfP2_Mul eq2 (JPoint (tx p) (ty p) (tz p)) x y -> tz p = gfP2_SetOne \/ gfP2_IsOne (tz p) = false ->
  exists d, twist_MakeAffine p = Some d /\ reduced2 (tx d) = reduced2 x /\ reduced2 (ty d) = reduced2 y.
Proof.
  assert (Hred : forall a b, eq2 a b -> reduced2 a = reduced2 b) by (intros a b [H1 H2]; unfold reduced2; by rewrite H1, H2).
  intros Hf Hr [H1|H1].
  - exists p. unfold twist_MakeAffine. rewrite H1. split; [done|]. destruct Hr as [Hx Hy]. cbn [jx jy jz] in Hx, Hy. rewrite H1 in Hx, Hy.
    split; apply Hred; [rewrite Hx|rewrite Hy]; ring.
  - destruct (twist_MakeAffine p) as [d|] eqn:E.
    + exists d. destruct (twist_MakeAffine_rep p d x y) as (_ & _ & Hx & Hy); [done|done|done|done|]. split; [done|]. split; by apply Hred.
    + unfold twist_MakeAffine in E. rewrite H1, twist_finite_not_infinity in E by done. destruct Hf as [i Hi].
      destruct (gfP2_Invert_unit _ _ Hi) as [j Hj]. by rewrite Hj in E.
Qed.

Lemma twist_origin x y z t : twist_IsOnCurve (TwistPoint x y z t) = true -> ~ (x = gfP2_SetZero /\ y = gfP2_SetZero).
Proof. intros H [-> ->]. unfold twist_IsOnCurve in H. cbn [tx ty] in H. by vm_compute in H. Qed.

Lemma G2_Unmarshal_bytes e x y : twist_IsOnCurve (TwistPoint (reduced2 x) (reduced2 y) gfP2_SetOne gfP2_SetOne) = true ->
  G2_Unmarshal e (g2_bytes x y) = (Some (TwistPoint (reduced2 x) (reduced2 y) gfP2_SetOne gfP2_SetOne), inr []).
Proof.
  intros Ho. unfold G2_Unmarshal.
  assert (Hl : length (g2_bytes x y) = 128%nat) by (unfold g2_bytes; cbn [map concat]; by rewrite !length_app, !be_bytes_length).
  unfold len. rewrite Hl. change (Z.of_nat 128 =? 4 * numBytes) with true. cbn [negb].
  assert (F : Forall (fun v => 0 <= v < 256 ^ 32) [x2 x mod P; y2 x mod P; x2 y mod P; y2 y mod P]) by (by repeat constructor; apply mod_bytes).
  unfold g2_bytes. rewrite (coord_concat _ F 0 _ eq_refl), (coord_concat _ F 1 _ eq_refl), (coord_concat _ F 2 _ eq_refl), (coord_concat _ F 3 _ eq_refl).
  fold (g2_bytes x y). rewrite (drop_ge _ _) by (by rewrite Hl). pose proof P_pos as HP.
  assert (Hb : forall z, (P <=? z mod P) = false) by (intros z; apply Z.leb_gt; by apply Z.mod_pos_bound). rewrite !Hb.
  change (GFp2 (x2 x mod P) (y2 x mod P)) with (reduced2 x). change (GFp2 (x2 y mod P) (y2 y mod P)) with (reduced2 y). rewrite Ho. cbn [negb].
  destruct (_ && _) eqn:E0; [|done]. exfalso. apply (twist_origin _ _ _ _ Ho). rewrite !andb_true_iff, !Z.eqb_eq in E0.
  destruct E0 as [[[Exx Exy] Eyx] Eyy]. unfold reduced2. by rewrite Exx, Exy, Eyx, Eyy.
Qed.

Lemma GT_roundtrip n : exists m, GT_Marshal n = Some (m, gfP12_Minimal n) /\ GT_Unmarshal m = Some (gfP12_Minimal n) /\ eq12 (gfP12_Minimal n) n.
Proof.
  assert (M2 : forall a, eq2 (gfP2_Minimal a) a) by (intros a; split; apply minimal_eqm). assert (Hb : forall z, 0 <= minimal z < 256 ^ 32).
  { intros z. pose proof (minimal_bound z). pose proof P_bytes. lia. }
  unfold GT_Marshal. cbv zeta. set (vs := [_; _; _; _; _; _; _; _; _; _; _; _]). assert (F : Forall (fun v => 0 <= v < 256 ^ 32) vs).
  { unfold vs. unfold gfP12_Minimal, gfP6_Minimal, gfP2_Minimal. cbn [x12 y12 x6 y6 z6 x2 y2]. repeat constructor; apply Hb. }
  exists (concat (map (be_bytes 32) vs)). rewrite (marshal_words_spec vs F). split_and!; [done| |by repeat split; cbn; apply minimal_eqm].
  unfold GT_Unmarshal. assert (Hl : len (concat (map (be_bytes 32) vs)) = 12 * numBytes).
  { unfold len, vs. cbn [map concat]. by rewrite !length_app, !be_bytes_length. }
  rewrite Hl, Z.eqb_refl. cbn [negb].
  rewrite (coord_concat _ F 0 _ eq_refl), (coord_concat _ F 1 _ eq_refl), (coord_concat _ F 2 _ eq_refl), (coord_concat _ F 3 _ eq_refl),
    (coord_concat _ F 4 _ eq_refl), (coord_concat _ F 5 _ eq_refl), (coord_concat _ F 6 _ eq_refl), (coord_concat _ F 7 _ eq_refl),
    (coord_concat _ F 8 _ eq_refl), (coord_concat _ F 9 _ eq_refl), (coord_concat _ F 10 _ eq_refl), (coord_concat _ F 11 _ eq_refl). done.
Qed.

(** The encodings of the groups.  A finite point of the curve is written as
    its affine coordinates, 32 bytes each, and read back as that point; what
    G1_Unmarshal accepts is infinity or a point of the curve and is written back
    as the same bytes, and each error says what is wrong; the encoding of a
    point of the twist that passes the check of IsOnCurve is read back as its
    affine coordinates; an element of GT is read back reduced. *)
Theorem bn256_encodings p q x y x' y' n :
  finite p -> jrep Z.mul (eqm P) (JPoint (cx p) (cy p) (cz p)) x y -> cz p <> -1 -> on_curve Z.add Z.mul (eqm P) curveB x y ->
  twist_finite q -> jrep gfP2_Mul eq2 (JPoint (tx q) (ty q) (tz q)) x' y' -> tz q = gfP2_SetOne \/ gfP2_IsOne (tz q) = false ->
  (exists d, G1_Marshal p = Some (g1_bytes x y, d) /\ forall e, G1_Unmarshal e (g1_bytes x y) = (Some (CurvePoint (x mod P) (y mod P) 1 1), inr [])) /\
  (forall e m, bytes_ok m -> match G1_Unmarshal e m with
    | (Some p, inr rest) => rest = [] /\ (curve_IsInfinity p = true \/ curve_IsOnCurve p = true /\ cz p = 1) /\ G1_Marshal p = Some (m, p)
    | (_, inl ENotEnoughData) => len m <> 2 * numBytes
    | (_, inl ECoordinateExceedsModulus) => len m = 2 * numBytes /\ (P <= coord m 0 \/ P <= coord m 1)
    | (_, inl EMalformedPoint) => len m = 2 * numBytes /\ ~ on_curve Z.add Z.mul (eqm P) curveB (coord m 0) (coord m 1)
    | (None, inr _) => False
    end) /\
  (exists d, G2_Marshal q = Some (g2_bytes x' y', d) /\
     let c := TwistPoint (reduced2 x') (reduced2 y') gfP2_SetOne gfP2_SetOne in
     (twist_IsOnCurve c = true -> forall e, G2_Unmarshal e (g2_bytes x' y') = (Some c, inr []))) /\
  (exists m, GT_Marshal n = Some (m, gfP12_Minimal n) /\ GT_Unmarshal m = Some (gfP12_Minimal n) /\ eq12 (gfP12_Minimal n) n).
Proof.
  intros Fp Rp Zp Op Fq Rq Zq. split_and!.
  - destruct (curve_affine p x y Fp Rp Zp) as (d & Hd & Ex & Ey). exists d. split; [|intros e; by apply G1_Unmarshal_bytes].
    unfold G1_Marshal. rewrite finite_not_infinity, Hd by done. cbn [mbind option_bind]. rewrite Ex, Ey, marshal_words_spec; [done|].
    by repeat constructor; apply mod_bytes.
  - intros e m. apply G1_Unmarshal_exact.
  - destruct (twist_affine q x' y' Fq Rq Zq) as (d & Hd & Ex & Ey). exists d. split; [|intros c Hc e; by apply G2_Unmarshal_bytes].
    unfold reduced2 in Ex, Ey. injection Ex as Ex1 Ex2. injection Ey as Ey1 Ey2. unfold G2_Marshal. rewrite twist_finite_not_infinity, Hd by done.
    cbn [mbind option_bind]. rewrite Ex1, Ex2, Ey1, Ey2, marshal_words_spec; [done|]. by repeat constructor; apply mod_bytes.
  - apply GT_roundtrip.
Qed.

Lemma bn256_encodings_witness : exists d, G1_Marshal curveGen = Some (g1_bytes 1 2, d) /\
  forall e, G1_Unmarshal e (g1_bytes 1 2) = (Some (CurvePoint (1 mod P) (2 mod P) 1 1), inr []).
Proof.
  refine (proj1 (bn256_encodings curveGen twistGen 1 2 (tx twistGen) (ty twistGen) gfP12_SetOne _ _ _ _ _ _ _)).
  - by exists 1.
  - by split.
  - done.
  - by vm_compute.
  - exists gfP2_SetOne. split; vm_compute; reflexivity.
  - split; split; vm_compute; reflexivity.
  - by left.
Defined.
