(* ===== verification/Primality.v ===== *)
(** * The modulus of the pairing curve is prime

    Fermat's little theorem and Pocklington's criterion for integers, and with them a
    proof that the modulus of src/crypto/bn256 is a prime number, on which the inverse
    of an element as a power relies. *)

From stdpp Require Import list.
From Stdlib Require Import Znumtheory Zpow_facts.
From S2P Require Import Prelude Modular Bn256Field.

(** ** Fermat *)

Definition prod (l : list Z) : Z := foldr Z.mul 1 l.
Lemma prod_perm l l' : l ≡ₚ l' -> prod l = prod l'.
Proof. induction 1; cbn; try fold (prod l) (prod l'); try (unfold prod in *; lia). Qed.
Lemma prod_scaled p a l : eqm p (prod (map (fun i => (a * i) mod p) l)) (a ^ len l * prod l).
Proof.
  induction l as [|x l IH]; [done|]. rewrite len_cons, Z.pow_add_r, Z.pow_1_r by (pose proof (len_nonneg l); lia). cbn [map]. change (prod ((a * x) mod p :: map (fun i => (a * i) mod p) l)) with ((a * x) mod p * prod (map (fun i => (a * i) mod p) l)). change (prod (x :: l)) with (x * prod l). rewrite IH, eqm_mod. apply eqm_eq. ring.
Qed.
Lemma prod_coprime p l : prime p -> Forall (fun x => 0 < x < p) l -> rel_prime (prod l) p.
Proof.
  intros Hp. induction 1 as [|x l Hx _ IH]; [apply rel_prime_1|]. apply rel_prime_sym, rel_prime_mult; apply rel_prime_sym; [apply rel_prime_le_prime; [done|lia]|exact IH].
Qed.
Lemma eqm_divide p a b : 0 < p -> eqm p a b <-> (p | a - b).
Proof. intros Hp. unfold eqm. split; intros H; [apply Z.cong_iff_0 in H; by apply Z.mod_divide; [lia|]|apply Z.cong_iff_0; by apply Z.mod_divide; [lia|]]. Qed.
Lemma cancel_coprime p a b c : 0 < p -> rel_prime c p -> eqm p (a * c) (b * c) -> eqm p a b.
Proof. intros Hp Hc E. apply eqm_divide in E; [|done]. apply eqm_divide; [done|]. apply (Gauss p c); [replace (c * (a - b)) with (a * c - b * c) by ring; done|by apply rel_prime_sym]. Qed.

Lemma fermat p a : prime p -> ~ (p | a) -> eqm p (a ^ (p - 1)) 1.
Proof.
  intros Hp Ha. assert (Hp1 : 1 < p) by (by destruct Hp). set (l := map Z.of_nat (seq 1 (Z.to_nat (p - 1)))).
  assert (Hl : forall x, In x l <-> 0 < x < p).
  { intros x. unfold l. rewrite in_map_iff. split; [intros (n & <- & Hn); apply in_seq in Hn; lia|]. intros Hx. exists (Z.to_nat x). split; [lia|]. apply in_seq. lia. }
  assert (Hlen : length l = Z.to_nat (p - 1)) by (unfold l; by rewrite length_map, length_seq).
  assert (Hrange : forall x, In x l -> 0 < (a * x) mod p < p).
  { intros x Hx. apply Hl in Hx. pose proof (Z.mod_pos_bound (a * x) p ltac:(lia)) as Hm. assert ((a * x) mod p <> 0); [|lia]. intros E. apply Z.mod_divide in E; [|lia]. destruct (prime_mult p Hp a x E) as [D|D]; [done|]. apply Z.divide_pos_le in D; lia. }
  assert (Hperm : map (fun i => (a * i) mod p) l ≡ₚ l).
  { apply NoDup_Permutation_bis.
    - apply NoDup_map_NoDup_ForallPairs; [|unfold l; apply NoDup_map_NoDup_ForallPairs; [intros x y _ _ E; lia|apply seq_NoDup]]. intros x y Hx Hy E. apply Hl in Hx, Hy. assert (Em : eqm p x y).
      { apply (cancel_coprime p _ _ a); [lia|apply rel_prime_sym; by apply prime_rel_prime|]. by rewrite !(Z.mul_comm _ a). }
      unfold eqm in Em. rewrite !Z.mod_small in Em by lia. done.
    - by rewrite length_map.
    - intros x Hx. apply in_map_iff in Hx as (y & <- & Hy). apply Hl. by apply Hrange. }
  apply (cancel_coprime p _ _ (prod l)); [lia|apply prod_coprime; [done|apply Forall_forall; intros x Hx; apply Hl; by apply list_elem_of_In]|].
  rewrite Z.mul_1_l. rewrite <- (prod_perm _ _ Hperm) at 2. rewrite prod_scaled. replace (len l) with (p - 1) by (unfold len; lia). done.
Qed.

(** ** Pocklington *)

Lemma eqm_power n a b k : eqm n a b -> eqm n (a ^ k) (b ^ k).
Proof.
  intros H. destruct (Z.le_gt_cases 0 k) as [Hk|Hk]; [|by rewrite !Z.pow_neg_r]. revert k Hk. apply (natlike_ind (fun k => eqm n (a ^ k) (b ^ k))); [done|]. intros k Hk IH. rewrite !Z.pow_succ_r by done. apply eqm_mul; [exact H|exact IH].
Qed.
(** A prime factor [q] of [N - 1] divides [r - 1] for the prime factors [r] of [N]. *)
Lemma pocklington_divides N q a r : prime q -> 1 < N -> (q | N - 1) -> eqm N (a ^ (N - 1)) 1 -> Z.gcd (a ^ ((N - 1) / q) - 1) N = 1 -> prime r -> (r | N) -> (q | r - 1).
Proof.
  intros Hq HN [m Hm] Hone Hgcd Hr Hrn. assert (Hq1 : 1 < q) by (by destruct Hq). assert (Hr1 : 1 < r) by (by destruct Hr). assert (Hm0 : 0 < m) by nia. rewrite Hm, Z.div_mul in Hgcd by lia. set (b := a ^ m) in *.
  assert (Hdown : forall x y, eqm N x y -> eqm r x y) by (intros x y E; apply eqm_divide in E; [|lia]; apply eqm_divide; [lia|]; by transitivity N).
  assert (Hbq : eqm r (b ^ q) 1) by (unfold b; rewrite <- Z.pow_mul_r, <- Hm by lia; by apply Hdown).
  assert (Hb1 : ~ eqm r b 1).
  { intros E. apply eqm_divide in E; [|lia]. assert (D : (r | 1)) by (rewrite <- Hgcd; by apply Z.gcd_greatest). apply Z.divide_pos_le in D; lia. }
  assert (Hrb : ~ (r | b)).
  { intros D. apply Hb1. assert (E0 : eqm r b 0) by (apply eqm_divide; [lia|]; by rewrite Z.sub_0_r). rewrite (eqm_power r b 0 q E0), Z.pow_0_l in Hbq by lia. by rewrite E0. }
  destruct (Zdivide_dec q (r - 1)) as [D|D]; [done|]. exfalso. apply Hb1. pose proof (fermat r b Hr Hrb) as Hf.
  destruct (rel_prime_bezout q (r - 1)) as [u v E]; [by apply prime_rel_prime|].
  (* a multiple of q that is one more than a multiple of r - 1 *)
  set (u' := u mod (r - 1)). destruct (Z.eq_dec r 2) as [->|Hr2]; [change (2 - 1) with 1 in Hf; by rewrite Z.pow_1_r in Hf|]. assert (Hu' : 0 <= u' < r - 1) by (apply Z.mod_pos_bound; lia).
  assert (Ek : u' * q = 1 + (- v - (u / (r - 1)) * q) * (r - 1)) by (unfold u'; rewrite Z.mod_eq by lia; lia). set (k := - v - _) in *. assert (Hk : 0 <= k) by nia.
  transitivity (b ^ (u' * q)); [|rewrite Z.mul_comm, Z.pow_mul_r by lia; rewrite (eqm_power r _ 1 u' Hbq); by rewrite Z.pow_1_l by lia]. rewrite Ek, Z.pow_add_r, Z.pow_1_r by nia. rewrite (Z.mul_comm k), Z.pow_mul_r by lia. rewrite (eqm_power r _ 1 k Hf), Z.pow_1_l by lia. apply eqm_eq. ring.
Qed.

Lemma small_factor n : 1 < n -> ~ prime n -> exists r, prime r /\ (r | n) /\ r * r <= n.
Proof.
  intros Hn. assert (H0 : 0 <= n) by lia. revert Hn. apply (Zlt_0_ind (fun n => 1 < n -> ~ prime n -> exists r, prime r /\ (r | n) /\ r * r <= n)); [|exact H0]. clear n H0. intros n IH _ Hn Hp. destruct (not_prime_divide n Hn Hp) as (x & Hx & [y Hy]).
  assert (Hy1 : 1 < y < n) by nia. assert (Hcase : forall z, 1 < z < n -> (z | n) -> z * z <= n -> exists r, prime r /\ (r | n) /\ r * r <= n).
  { intros z Hz Dz Hzz. destruct (prime_dec z) as [Pz|Pz]; [by exists z|]. destruct (IH z ltac:(lia) ltac:(lia) Pz) as (r & R1 & R2 & R3). exists r. split; [done|]. split; [by transitivity z|lia]. }
  destruct (Z.le_gt_cases x y); [apply (Hcase x); [lia|by exists y|nia]|apply (Hcase y); [lia|exists x; lia|nia]].
Qed.

(** Trial division by the numbers from [d]. *)
Fixpoint no_factor (fuel : nat) (d n : Z) : bool :=
  match fuel with
  | O => false
  | S fuel => if n <? d * d then true else if n mod d =? 0 then false else no_factor fuel (d + 1) n
  end.
Lemma no_factor_spec fuel : forall d n r, no_factor fuel d n = true -> 0 < d <= r -> (r | n) -> r * r <= n -> False.
Proof.
  induction fuel as [|fuel IH]; intros d n r H Hd Hr Hrr; cbn [no_factor] in H; [done|]. destruct (Z.ltb_spec n (d * d)); [nia|]. destruct (Z.eqb_spec (n mod d) 0) as [|Hne]; [done|]. destruct (Z.eq_dec d r) as [->|]; [apply Hne; apply Z.mod_divide; [lia|done]|]. apply (IH (d + 1) n r); [done|lia|done|done].
Qed.
Lemma trial_prime fuel n : 1 < n -> no_factor fuel 2 n = true -> prime n.
Proof.
  intros Hn H. destruct (prime_dec n) as [|Hp]; [done|]. destruct (small_factor n Hn Hp) as (r & R1 & R2 & R3). exfalso. apply (no_factor_spec fuel 2 n r H); [destruct R1; lia|done|done].
Qed.

(** The conditions of the criterion, which are computed. *)
Definition pock_witness (N q a : Z) : bool := ((N - 1) mod q =? 0) && let b := Zpow_mod a ((N - 1) / q) N in (Zpow_mod b q N =? 1) && (Z.gcd (b - 1) N =? 1).
Lemma pock_divides N q a r : 1 < N -> prime q -> pock_witness N q a = true -> prime r -> (r | N) -> (q | r - 1).
Proof.
  intros HN Hq H. unfold pock_witness in H. apply andb_true_iff in H as [H1 [H2 H3]%andb_true_iff]. apply Z.eqb_eq in H1, H2, H3. rewrite !Zpow_mod_correct in H2 by lia. rewrite Zpow_mod_correct in H3 by lia. assert (1 < q) by (by destruct Hq). assert (D : (q | N - 1)) by (apply Z.mod_divide; [lia|done]).
  apply (pocklington_divides N q a r); [done|done|done| |].
  - set (m := (N - 1) / q) in *. assert (Em : N - 1 = m * q) by (unfold m; rewrite Z.mul_comm; by apply Z_div_exact_full_2; [lia|]). rewrite Em, Z.pow_mul_r by nia. rewrite <- (eqm_power N _ _ q (eqm_mod N (a ^ m))). unfold eqm. rewrite H2. symmetry. apply Z.mod_small. lia.
  - etransitivity; [|exact H3]. rewrite (Z.gcd_comm (a ^ ((N - 1) / q) - 1)), (Z.gcd_comm ((a ^ ((N - 1) / q)) mod N - 1)). rewrite <- (Z.gcd_mod (a ^ ((N - 1) / q) - 1) N), <- (Z.gcd_mod ((a ^ ((N - 1) / q)) mod N - 1) N) by lia. f_equal. by rewrite Zminus_mod_idemp_l.
Qed.
Lemma pock_prime N F : 1 < N -> N < (F + 1) * (F + 1) -> 0 < F -> (forall r, prime r -> (r | N) -> (F | r - 1)) -> prime N.
Proof.
  intros HN HF HF0 H. destruct (prime_dec N) as [|Hp]; [done|]. destruct (small_factor N HN Hp) as (r & R1 & R2 & R3). pose proof (H r R1 R2) as D. assert (1 < r) by (by destruct R1). apply Z.divide_pos_le in D; nia.
Qed.

Lemma pock_prime2 N p q a b : 1 < N -> N < (p * q + 1) * (p * q + 1) -> prime p -> prime q -> p <> q -> pock_witness N p a = true -> pock_witness N q b = true -> prime N.
Proof.
  intros HN HF Hp Hq Hne Wp Wq. assert (1 < p) by (by destruct Hp). assert (1 < q) by (by destruct Hq). apply (pock_prime N (p * q)); [done|done|nia|]. intros r Hr D. destruct (pock_divides N p a r HN Hp Wp Hr D) as [k Hk]. pose proof (pock_divides N q b r HN Hq Wq Hr D) as Dq.
  rewrite Hk, (Z.mul_comm k). apply Z.mul_divide_mono_l. apply (Gauss q p k); [rewrite Z.mul_comm, <- Hk; done|]. apply prime_rel_prime; [done|]. intros Dp. apply Hne. by apply prime_div_prime in Dp.
Qed.
Lemma pock_prime1 N q a : 1 < N -> N < (q + 1) * (q + 1) -> prime q -> pock_witness N q a = true -> prime N.
Proof. intros HN HF Hq W. assert (1 < q) by (by destruct Hq). apply (pock_prime N q); [done|done|lia|]. intros r Hr D. by apply (pock_divides N q a r). Qed.

(** ** The modulus *)

Lemma prime_small n : 1 < n < 16384 -> no_factor 128 2 n = true -> prime n.
Proof. intros Hn. apply trial_prime. lia. Qed.
Lemma prime_1263766531 : prime 1263766531.
Proof. apply (pock_prime2 _ 3557 13 2 2); [lia|lia|apply prime_small; [lia|reflexivity]|apply prime_small; [lia|reflexivity]|lia|vm_compute; reflexivity|vm_compute; reflexivity]. Qed.
Lemma prime_35385462869 : prime 35385462869.
Proof. apply (pock_prime1 _ 1263766531 2); [lia|lia|apply prime_1263766531|vm_compute; reflexivity]. Qed.
Lemma prime_173171039 : prime 173171039.
Proof. apply (pock_prime1 _ 13327 2); [lia|lia|apply prime_small; [lia|reflexivity]|vm_compute; reflexivity]. Qed.
Lemma prime_2480874801745591 : prime 2480874801745591.
Proof. apply (pock_prime1 _ 35385462869 3); [lia|lia|apply prime_35385462869|vm_compute; reflexivity]. Qed.
Lemma prime_P_factor : prime 13427688667394608761327070753331941386769.
Proof. apply (pock_prime2 _ 2480874801745591 173171039 2 2); [lia|lia|apply prime_2480874801745591|apply prime_173171039|lia|vm_compute; reflexivity|vm_compute; reflexivity]. Qed.
(** The modulus of the curve is prime. *)
Lemma P_prime : prime P.
Proof. apply (pock_prime1 _ 13427688667394608761327070753331941386769 2); [unfold P; lia|unfold P; lia|apply prime_P_factor|vm_compute; reflexivity]. Qed.
