(* ===== verification/Gfp.v ===== *)
(** * Package crypto/bn256/cloudflare: words and Montgomery arithmetic

    gfp_generic.go, gfp.go and the words of constants.go: an element of GF(p) is an
    array of four 64-bit words that hold its product with 2^256.  All the operations
    read their arguments word by word before they write the result, so that a result
    may be stored in an argument.  The assembly that amd64 and arm64 use instead of
    gfp_generic.go is not modelled. *)

From stdpp Require Import list.
From Stdlib Require Import Znumtheory.
From S2P Require Import Prelude Modular Bn256Field Primality.

(** Arrays of words, the lowest word first. *)
#[local] Abbreviation words := (list Z) (only parsing).

(** ** constants.go *)

Definition p2 : words := [0x3c208c16d87cfd47; 0x97816a916871ca8d; 0xb85045b68181585d; 0x30644e72e131a029].
Definition np : words := [0x87d20782e4866389; 0x9ede7d651eca6ac9; 0xd8afcbd01833da80; 0xf57a22b791888c6b].
Definition rN1 : words := [0xed84884a014afa37; 0xeb2022850278edf8; 0xcf63e9cfb74492d9; 0x2e67157159e5c639].
Definition r2 : words := [0xf32cfc5b538afa89; 0xb5e71911d44501fb; 0x47ab1eff0a417ff6; 0x06d89f71cab8351f].
Definition r3 : words := [0xb1cd6dafda1530df; 0x62f210e6a7283db6; 0xef7f0b0c0ada0afb; 0x20fd6e902d592544].

(** ** gfp_generic.go *)

Definition not64 (a : Z) : Z := u64 (Z.lnot a).

(** The loops that add and subtract words, with the carry from the top bits. *)
Fixpoint add_words (a b : words) (carry : Z) : words * Z :=
  match a, b with
  | ai :: a, bi :: b =>
      let ci := u64 (ai + bi + carry) in
      let '(c, carry) := add_words a b (Z.shiftr (Z.lor (Z.land ai bi) (Z.ldiff (Z.lor ai bi) ci)) 63) in
      (ci :: c, carry)
  | _, _ => ([], carry)
  end.
Fixpoint sub_words (a b : words) (carry : Z) : words * Z :=
  match a, b with
  | ai :: a, bi :: b =>
      let ci := u64 (ai - bi - carry) in
      let '(c, carry) := sub_words a b (Z.shiftr (Z.lor (Z.ldiff bi ai) (Z.land (Z.lor bi (not64 ai)) ci)) 63) in
      (ci :: c, carry)
  | _, _ => ([], carry)
  end.

Definition gfpCarry (a : words) (head : Z) : words :=
  let '(b, carry) := sub_words a p2 0 in
  let carry := Z.ldiff carry head in
  let carry := u64 (- carry) in
  let ncarry := not64 carry in
  zip_with (fun ai bi => Z.lor (Z.land ai carry) (Z.land bi ncarry)) a b.

Definition gfpNeg (a : words) : words := let '(c, _) := sub_words p2 a 0 in gfpCarry c 0.
Definition gfpAdd (a b : words) : words := let '(c, carry) := add_words a b 0 in gfpCarry c carry.
Definition gfpSub (a b : words) : words :=
  let '(t, _) := sub_words p2 b 0 in
  let '(c, carry) := add_words a t 0 in
  gfpCarry c carry.

Definition mask16 : Z := 0x0000ffff.
Definition mask32 : Z := 0xffffffff.

Definition add_at (buff : words) (k : nat) (x : Z) : words := <[k := u64 (buff !!! k + x)]> buff.
(** The products of a word of [a] and a word of [b], in pieces of 16 and 32 bits. *)
Definition add_product (buff : words) (off : nat) (ai bj : Z) : words :=
  let a0 := Z.land ai mask16 in
  let a1 := Z.land (Z.shiftr ai 16) mask16 in
  let a2 := Z.land (Z.shiftr ai 32) mask16 in
  let a3 := Z.shiftr ai 48 in
  let b0 := Z.land bj mask32 in
  let b2 := Z.shiftr bj 32 in
  let buff := add_at buff (off + 0) (u64 (a0 * b0)) in
  let buff := add_at buff (off + 1) (u64 (a1 * b0)) in
  let buff := add_at buff (off + 2) (u64 (a2 * b0 + a0 * b2)) in
  let buff := add_at buff (off + 3) (u64 (a3 * b0 + a1 * b2)) in
  let buff := add_at buff (off + 4) (u64 (a2 * b2)) in
  add_at buff (off + 5) (u64 (a3 * b2)).
(** The loops over the words; [fits] is false where halfMul breaks. *)
Fixpoint mul_row (fits : nat -> bool) (buff : words) (i j : nat) (ai : Z) (b : words) : words :=
  match b with
  | [] => buff
  | bj :: b => if fits (i + j)%nat then mul_row fits (add_product buff (4 * (i + j)) ai bj) i (S j) ai b else buff
  end.
Fixpoint mul_rows (fits : nat -> bool) (buff : words) (i : nat) (a b : words) : words :=
  match a with
  | [] => buff
  | ai :: a => mul_rows fits (mul_row fits buff i 0 ai b) (S i) a b
  end.

(** The loop that adds the entries at a distance [i] of the blocks to the blocks. *)
Fixpoint mul_column (n : nat) (i j : nat) (buff : words) (head carry : Z) : words :=
  match n with
  | O => buff
  | S n =>
      let shift := 16 * Z.of_nat i in
      let block := (4 * j)%nat in
      let xi := buff !!! block in
      let yi := u64 (u64 (Z.shiftl (buff !!! (block + i)%nat) shift) + head) in
      let zi := u64 (xi + yi + carry) in
      let buff := <[block := zi]> buff in
      mul_column n i (S j) buff (Z.shiftr (buff !!! (block + i)%nat) (64 - shift)) (Z.shiftr (Z.lor (Z.land xi yi) (Z.ldiff (Z.lor xi yi) zi)) 63)
  end.
Definition mul_columns (n : nat) (buff : words) : words :=
  let buff := mul_column n 1 0 buff 0 0 in
  let buff := mul_column n 2 0 buff 0 0 in
  let buff := mul_column n 3 0 buff 0 0 in
  map (fun k => buff !!! (4 * k)%nat) (seq 0 n).

Definition mul (a b : words) : words := mul_columns 8 (mul_rows (fun _ => true) (replicate 32 0) 0 a b).
Definition halfMul (a b : words) : words := mul_columns 4 (mul_rows (fun k => negb (3 <? k)%nat) (replicate 18 0) 0 a b).

Definition gfpMul (a b : words) : words :=
  let T := mul a b in
  let m := halfMul (take 4 T) np in
  let t := mul m p2 in
  let '(T, carry) := add_words T t 0 in
  gfpCarry (drop 4 T) carry.

(** ** gfp.go *)

Definition montEncode (a : words) : words := gfpMul a r2.
Definition montDecode (a : words) : words := gfpMul a [1; 0; 0; 0].

(** [x] is an int64. *)
Definition newGFp (x : Z) : words :=
  let out := if 0 <=? x then [u64 x; 0; 0; 0] else gfpNeg [u64 (- x); 0; 0; 0] in
  montEncode out.

(** The 64 bits of a word of the exponent, from the lowest. *)
Fixpoint invert_word (n : nat) (word : Z) (bit : Z) (sum power : words) : words * words :=
  match n with
  | O => (sum, power)
  | S n =>
      let sum := if Z.land (Z.shiftr word bit) 1 =? 1 then gfpMul sum power else sum in
      invert_word n word (bit + 1) sum (gfpMul power power)
  end.
Fixpoint invert_words (bits : words) (sum power : words) : words :=
  match bits with
  | [] => sum
  | word :: bits => let '(sum, power) := invert_word 64 word 0 sum power in invert_words bits sum power
  end.
Definition invert_bits : words := [0x3c208c16d87cfd45; 0x97816a916871ca8d; 0xb85045b68181585d; 0x30644e72e131a029].
Definition gfP_Invert (f : words) : words := gfpMul (invert_words invert_bits rN1 f) r3.

Definition gfP_Marshal (e : words) : list Z :=
  concat (map (fun w => map (fun b => u8 (Z.shiftr (e !!! (3 - w)%nat) (56 - 8 * Z.of_nat b))) (seq 0 8)) (seq 0 4)).

(** The bytes are added to the words that are there; [None] if [inp] is too short. *)
Fixpoint unmarshal_word (n : nat) (inp : list Z) (w : nat) (b : nat) (word : Z) : option Z :=
  match n with
  | O => Some word
  | S n =>
      x ← inp !! (8 * w + b)%nat;
      unmarshal_word n inp w (S b) (u64 (word + u64 (Z.shiftl x (56 - 8 * Z.of_nat b))))
  end.
Fixpoint unmarshal_words (n : nat) (inp : list Z) (w : nat) (e : words) : option words :=
  match n with
  | O => Some e
  | S n => word ← unmarshal_word 8 inp w 0 (e !!! (3 - w)%nat); unmarshal_words n inp (S w) (<[(3 - w)%nat := word]> e)
  end.
Inductive gfp_error : Type := ErrExceedsModulus | ErrEqualsModulus.
(** The words from the highest one. *)
Fixpoint below_modulus (i : nat) (e : words) : option gfp_error :=
  match i with
  | O => Some ErrEqualsModulus
  | S i => if e !!! i <? p2 !!! i then None else if p2 !!! i <? e !!! i then Some ErrExceedsModulus else below_modulus i e
  end.
Definition gfP_Unmarshal (e : words) (inp : list Z) : outcome gfp_error words :=
  match unmarshal_words 4 inp 0 e with
  | None => Panic
  | Some e => match below_modulus 4 e with None => Ok e | Some err => Err err end
  end.

(** ** Words *)

Definition val64 (l : words) : Z := foldr (fun x r => x + 2 ^ 64 * r) 0 l.
Definition words_ok (n : nat) (l : words) : Prop := length l = n /\ Forall u64_ok l.

Lemma val64_bound l : Forall u64_ok l -> 0 <= val64 l < 2 ^ (64 * len l).
Proof.
  induction 1 as [|x l Hx _ IH]; [done|]. cbn [val64 foldr]. fold (val64 l). rewrite len_cons. replace (64 * (1 + len l)) with (64 + 64 * len l) by lia. rewrite Z.pow_add_r by (pose proof (len_nonneg l); lia). unfold u64_ok in Hx. nia.
Qed.
Lemma words_bound n l : words_ok n l -> 0 <= val64 l < 2 ^ (64 * Z.of_nat n).
Proof. intros [<- H]. by apply val64_bound. Qed.
Lemma val64_app l k : val64 (l ++ k) = val64 l + 2 ^ (64 * len l) * val64 k.
Proof.
  induction l as [|x l IH]; [cbn [app val64 foldr]; fold (val64 k); change (64 * len (@nil Z)) with 0; lia|]. cbn [app val64 foldr]. fold (val64 l) (val64 (l ++ k)). rewrite IH, len_cons. replace (64 * (1 + len l)) with (64 + 64 * len l) by lia. rewrite Z.pow_add_r by (pose proof (len_nonneg l); lia). ring.
Qed.
(** Arrays with one value are equal, as Go compares them word by word. *)
Lemma val64_inj n l k : words_ok n l -> words_ok n k -> val64 l = val64 k -> l = k.
Proof.
  revert l k. induction n as [|n IH]; intros [|x l] [|y k] [Hl Fl] [Hk Fk]; cbn in Hl, Hk; try lia; [done|]. inversion Fl; subst. inversion Fk; subst. cbn [val64 foldr]. fold (val64 l) (val64 k). intros E. unfold u64_ok in *.
  assert (x = y /\ val64 l = val64 k) as [-> E']; [|f_equal; apply IH; [split; [lia|done]|split; [lia|done]|done]]. split; [|lia]. lia.
Qed.

(** The top bit of a word. *)
Lemma top_bit x : u64_ok x -> Z.shiftr x 63 = Z.b2z (Z.testbit x 63).
Proof.
  intros H. unfold u64_ok in H. rewrite Z.testbit_spec' by lia. rewrite Z.shiftr_div_pow2 by lia. symmetry. apply Z.mod_small. split; [apply Z.div_pos; lia|apply Z.div_lt_upper_bound; lia].
Qed.
Lemma top_split x : u64_ok x -> exists y, x = Z.b2z (Z.testbit x 63) * 2 ^ 63 + y /\ 0 <= y < 2 ^ 63.
Proof.
  intros H. rewrite <- top_bit by done. rewrite Z.shiftr_div_pow2 by lia. exists (x mod 2 ^ 63). split; [rewrite (Z.div_mod x (2 ^ 63)) at 1 by lia; ring|apply Z.mod_pos_bound; lia].
Qed.
Lemma u64_ok_land a b : u64_ok a -> u64_ok b -> u64_ok (Z.land a b).
Proof. unfold u64_ok. intros Ha Hb. split; [apply Z.land_nonneg; lia|]. destruct (Z.eq_dec (Z.land a b) 0) as [->|]; [lia|]. apply Z.log2_lt_pow2; [pose proof (Z.land_nonneg a b); lia|]. eapply Z.le_lt_trans; [apply Z.log2_land; lia|]. destruct (Z.eq_dec a 0) as [->|]; [done|]. apply Z.min_lt_iff. left. apply Z.log2_lt_pow2; lia. Qed.
Lemma u64_ok_lor a b : u64_ok a -> u64_ok b -> u64_ok (Z.lor a b).
Proof.
  unfold u64_ok. intros Ha Hb. split; [apply Z.lor_nonneg; lia|]. destruct (Z.eq_dec (Z.lor a b) 0) as [->|]; [lia|]. apply Z.log2_lt_pow2; [pose proof (Z.lor_nonneg a b); lia|]. rewrite Z.log2_lor by lia. apply Z.max_lub_lt; [destruct (Z.eq_dec a 0) as [->|]; [done|]; apply Z.log2_lt_pow2; lia|destruct (Z.eq_dec b 0) as [->|]; [done|]; apply Z.log2_lt_pow2; lia].
Qed.
Lemma u64_ok_ldiff a b : u64_ok a -> u64_ok (Z.ldiff a b).
Proof.
  unfold u64_ok. intros Ha. split; [apply Z.ldiff_nonneg; lia|]. destruct (Z.eq_dec (Z.ldiff a b) 0) as [->|]; [lia|]. eapply Z.le_lt_trans; [|exact (proj2 Ha)]. apply Z.ldiff_le; [lia|]. apply Z.bits_inj'. intros m Hm. rewrite Z.ldiff_spec, Z.bits_0, Z.ldiff_spec. by destruct (Z.testbit a m), (Z.testbit b m).
Qed.
Lemma not64_val a : u64_ok a -> not64 a = 2 ^ 64 - 1 - a.
Proof. intros H. unfold not64, Z.lnot. unfold u64_ok in H. unfold u64. symmetry. apply (Z.mod_unique _ _ (-1)); lia. Qed.
Lemma not64_ok a : u64_ok (not64 a).
Proof. apply u64_u64_ok. Qed.
Lemma not64_top a : Z.testbit (not64 a) 63 = negb (Z.testbit a 63).
Proof. unfold not64, u64. rewrite Z.mod_pow2_bits_low by lia. apply Z.lnot_spec. lia. Qed.
Create HintDb words.
#[local] Hint Resolve u64_ok_land u64_ok_lor u64_ok_ldiff not64_ok u64_u64_ok : words.

(** The carry of an addition and of a subtraction, as the code computes it from the
    top bits. *)
Lemma add_carry a b carry c : u64_ok a -> u64_ok b -> 0 <= carry <= 1 -> c = u64 (a + b + carry) ->
  let carry' := Z.shiftr (Z.lor (Z.land a b) (Z.ldiff (Z.lor a b) c)) 63 in a + b + carry = c + 2 ^ 64 * carry' /\ 0 <= carry' <= 1.
Proof.
  intros Ha Hb Hc Ec. cbv zeta. assert (Hcok : u64_ok c) by (rewrite Ec; apply u64_u64_ok). rewrite top_bit by eauto with words. rewrite Z.lor_spec, Z.ldiff_spec, Z.land_spec, Z.lor_spec.
  pose proof (Z.div_mod (a + b + carry) (2 ^ 64) ltac:(lia)) as D. fold (u64 (a + b + carry)) in D. rewrite <- Ec in D. clear Ec.
  assert (Hq : 0 <= (a + b + carry) / 2 ^ 64 <= 1) by (unfold u64_ok in *; split; [apply Z.div_pos; lia|apply Z.lt_succ_r, Z.div_lt_upper_bound; lia]). set (q := (a + b + carry) / 2 ^ 64) in *. clearbody q.
  destruct (top_split a Ha) as (a' & Ea & La), (top_split b Hb) as (b' & Eb & Lb), (top_split c Hcok) as (c' & Ecc & Lc). destruct (Z.testbit a 63), (Z.testbit b 63), (Z.testbit c 63); cbn [Z.b2z andb orb negb] in *; lia.
Qed.
Lemma sub_carry a b carry c : u64_ok a -> u64_ok b -> 0 <= carry <= 1 -> c = u64 (a - b - carry) ->
  let carry' := Z.shiftr (Z.lor (Z.ldiff b a) (Z.land (Z.lor b (not64 a)) c)) 63 in a - b - carry = c - 2 ^ 64 * carry' /\ 0 <= carry' <= 1.
Proof.
  intros Ha Hb Hc Ec. cbv zeta. assert (Hcok : u64_ok c) by (rewrite Ec; apply u64_u64_ok). rewrite top_bit by eauto with words. rewrite Z.lor_spec, Z.ldiff_spec, Z.land_spec, Z.lor_spec, not64_top.
  pose proof (Z.div_mod (a - b - carry) (2 ^ 64) ltac:(lia)) as D. fold (u64 (a - b - carry)) in D. rewrite <- Ec in D. clear Ec.
  assert (Hq : -1 <= (a - b - carry) / 2 ^ 64 <= 0) by (unfold u64_ok in *; split; [apply Z.div_le_lower_bound; lia|apply Z.lt_succ_r, Z.div_lt_upper_bound; lia]). set (q := (a - b - carry) / 2 ^ 64) in *. clearbody q.
  destruct (top_split a Ha) as (a' & Ea & La), (top_split b Hb) as (b' & Eb & Lb), (top_split c Hcok) as (c' & Ecc & Lc). destruct (Z.testbit a 63), (Z.testbit b 63), (Z.testbit c 63); cbn [Z.b2z andb orb negb] in *; lia.
Qed.

Lemma add_words_spec n : forall a b carry, words_ok n a -> words_ok n b -> 0 <= carry <= 1 ->
  let '(c, carry') := add_words a b carry in words_ok n c /\ 0 <= carry' <= 1 /\ val64 a + val64 b + carry = val64 c + 2 ^ (64 * Z.of_nat n) * carry'.
Proof.
  induction n as [|n IH]; intros [|x a] [|y b] carry [La Fa] [Lb Fb] Hc; cbn in La, Lb; try lia; [cbn; split; [split; [done|constructor]|split; [lia|change (2 ^ 0) with 1; lia]]|]. apply Forall_cons in Fa as [Hx Fa], Fb as [Hy Fb]. cbn [add_words].
  destruct (add_carry x y carry _ Hx Hy Hc eq_refl) as [E1 H1]. cbv zeta in E1, H1. set (c1 := Z.shiftr _ 63) in *. specialize (IH a b c1 ltac:(by split; [lia|]) ltac:(by split; [lia|]) H1). destruct (add_words a b c1) as [c c2]. destruct IH as ([Lc Fc] & H2 & E2).
  split; [split; [cbn; lia|constructor; [apply u64_u64_ok|done]]|]. split; [done|]. cbn [val64 foldr]. fold (val64 a) (val64 b) (val64 c). rewrite Nat2Z.inj_succ. replace (64 * Z.succ (Z.of_nat n)) with (64 + 64 * Z.of_nat n) by lia. rewrite Z.pow_add_r by lia. nia.
Qed.
Lemma sub_words_spec n : forall a b carry, words_ok n a -> words_ok n b -> 0 <= carry <= 1 ->
  let '(c, carry') := sub_words a b carry in words_ok n c /\ 0 <= carry' <= 1 /\ val64 a - val64 b - carry = val64 c - 2 ^ (64 * Z.of_nat n) * carry'.
Proof.
  induction n as [|n IH]; intros [|x a] [|y b] carry [La Fa] [Lb Fb] Hc; cbn in La, Lb; try lia; [cbn; split; [split; [done|constructor]|split; [lia|change (2 ^ 0) with 1; lia]]|]. apply Forall_cons in Fa as [Hx Fa], Fb as [Hy Fb]. cbn [sub_words].
  destruct (sub_carry x y carry _ Hx Hy Hc eq_refl) as [E1 H1]. cbv zeta in E1, H1. set (c1 := Z.shiftr _ 63) in *. specialize (IH a b c1 ltac:(by split; [lia|]) ltac:(by split; [lia|]) H1). destruct (sub_words a b c1) as [c c2]. destruct IH as ([Lc Fc] & H2 & E2).
  split; [split; [cbn; lia|constructor; [apply u64_u64_ok|done]]|]. split; [done|]. cbn [val64 foldr]. fold (val64 a) (val64 b) (val64 c). rewrite Nat2Z.inj_succ. replace (64 * Z.succ (Z.of_nat n)) with (64 + 64 * Z.of_nat n) by lia. rewrite Z.pow_add_r by lia. nia.
Qed.

(** ** Reduction and the linear operations *)

#[local] Opaque P.
Lemma p2_ok : words_ok 4 p2.
Proof. split; [done|]. repeat constructor; done. Qed.
Lemma p2_val : val64 p2 = P.
Proof. vm_compute. reflexivity. Qed.
Lemma P_bounds : 2 ^ 253 < P < 2 ^ 254.
Proof. Transparent P. unfold P. lia. Opaque P. Qed.
(** Elements are kept below the modulus. *)
Definition gfp_ok (a : words) : Prop := words_ok 4 a /\ val64 a < P.

Lemma zip_select n a b : words_ok n a -> words_ok n b ->
  zip_with (fun ai bi => Z.lor (Z.land ai (u64 (Z.opp 0))) (Z.land bi (not64 (u64 (Z.opp 0))))) a b = b /\
  zip_with (fun ai bi => Z.lor (Z.land ai (u64 (Z.opp 1))) (Z.land bi (not64 (u64 (Z.opp 1))))) a b = a.
Proof.
  revert a b. induction n as [|n IH]; intros [|x a] [|y b] [La Fa] [Lb Fb]; cbn in La, Lb; try lia; [done|]. apply Forall_cons in Fa as [Hx Fa], Fb as [Hy Fb]. destruct (IH a b) as [E1 E2]; [by split; [lia|]|by split; [lia|]|]. cbn [zip_with].
  change (not64 (u64 (Z.opp 0))) with (Z.ones 64) in *. change (u64 (Z.opp 0)) with 0 in *. change (not64 (u64 (Z.opp 1))) with 0 in *. change (u64 (Z.opp 1)) with (Z.ones 64) in *.
  rewrite E1, E2, !Z.land_0_r, Z.lor_0_r, Z.lor_0_l, !Z.land_ones by lia. fold (u64 x) (u64 y). by rewrite !u64_small.
Qed.

Lemma gfpCarry_spec a head : words_ok 4 a -> 0 <= head <= 1 -> 2 ^ 256 * head + val64 a < 2 * P -> gfp_ok (gfpCarry a head) /\ val64 (gfpCarry a head) = (2 ^ 256 * head + val64 a) mod P.
Proof.
  intros Ha Hh Hlt. unfold gfpCarry. pose proof (sub_words_spec 4 a p2 0 Ha p2_ok ltac:(lia)) as Hs. destruct (sub_words a p2 0) as [b carry]. destruct Hs as (Hb & Hc & E). rewrite p2_val in E. change (64 * Z.of_nat 4) with 256 in E. cbv zeta.
  pose proof (words_bound 4 a Ha) as Ba. pose proof (words_bound 4 b Hb) as Bb. change (64 * Z.of_nat 4) with 256 in *. pose proof P_bounds as HP. destruct (zip_select 4 a b Ha Hb) as [S0 S1].
  assert (carry = 0 \/ carry = 1) as [-> | ->] by lia; assert (head = 0 \/ head = 1) as [-> | ->] by lia.
  - change (Z.ldiff 0 0) with 0. rewrite S0. assert (E' : val64 b = val64 a - P) by lia. split; [by split; [|lia]|]. rewrite E'. apply (Z.mod_unique _ _ 1); lia.
  - change (Z.ldiff 0 1) with 0. rewrite S0. lia.
  - change (Z.ldiff 1 0) with 1. rewrite S1. split; [by split; [|lia]|]. symmetry. rewrite Z.mul_0_r, Z.add_0_l. apply Z.mod_small. lia.
  - change (Z.ldiff 1 1) with 0. rewrite S0. assert (E' : val64 b = 2 ^ 256 * 1 + val64 a - P) by lia. split; [by split; [|lia]|]. rewrite E'. apply (Z.mod_unique _ _ 1); lia.
Qed.

Lemma gfpNeg_spec a : gfp_ok a -> gfp_ok (gfpNeg a) /\ val64 (gfpNeg a) = (- val64 a) mod P.
Proof.
  intros [Ha La]. unfold gfpNeg. pose proof (sub_words_spec 4 p2 a 0 p2_ok Ha ltac:(lia)) as Hs. destruct (sub_words p2 a 0) as [c carry]. destruct Hs as (Hc & Hk & E). rewrite p2_val in E. pose proof (words_bound 4 a Ha). pose proof (words_bound 4 c Hc). change (64 * Z.of_nat 4) with 256 in *. pose proof P_bounds.
  destruct (gfpCarry_spec c 0 Hc ltac:(lia) ltac:(lia)) as [C1 C2]. split; [done|]. rewrite C2. replace (2 ^ 256 * 0 + val64 c) with (- val64 a + 1 * P) by lia. apply Z_mod_plus_full.
Qed.
Lemma gfpAdd_spec a b : gfp_ok a -> gfp_ok b -> gfp_ok (gfpAdd a b) /\ val64 (gfpAdd a b) = (val64 a + val64 b) mod P.
Proof.
  intros [Ha La] [Hb Lb]. unfold gfpAdd. pose proof (add_words_spec 4 a b 0 Ha Hb ltac:(lia)) as Hs. destruct (add_words a b 0) as [c carry]. destruct Hs as (Hc & Hk & E). change (64 * Z.of_nat 4) with 256 in *.
  destruct (gfpCarry_spec c carry Hc Hk ltac:(lia)) as [C1 C2]. split; [done|]. rewrite C2. f_equal. lia.
Qed.
Lemma gfpSub_spec a b : gfp_ok a -> gfp_ok b -> gfp_ok (gfpSub a b) /\ val64 (gfpSub a b) = (val64 a - val64 b) mod P.
Proof.
  intros [Ha La] [Hb Lb]. unfold gfpSub. pose proof (sub_words_spec 4 p2 b 0 p2_ok Hb ltac:(lia)) as Hs. destruct (sub_words p2 b 0) as [t k]. destruct Hs as (Ht & Hk & E). rewrite p2_val in E. pose proof (add_words_spec 4 a t 0 Ha Ht ltac:(lia)) as Hs. destruct (add_words a t 0) as [c carry]. destruct Hs as (Hc & Hk' & E').
  pose proof (words_bound 4 b Hb). pose proof (words_bound 4 t Ht). change (64 * Z.of_nat 4) with 256 in *. pose proof P_bounds. destruct (gfpCarry_spec c carry Hc Hk' ltac:(lia)) as [C1 C2]. split; [done|]. rewrite C2. replace (2 ^ 256 * carry + val64 c) with (val64 a - val64 b + 1 * P) by lia. apply Z_mod_plus_full.
Qed.

(** ** Products *)

(** The value of the buffer: entries of 16 bits that overflow into each other. *)
Definition val16 (l : words) : Z := foldr (fun x r => x + 2 ^ 16 * r) 0 l.
Definition entries (B : Z) (l : words) : Prop := Forall (fun x => 0 <= x <= B) l.

Lemma val16_insert l : forall k y, (k < length l)%nat -> val16 (<[k := y]> l) = val16 l + (y - l !!! k) * 2 ^ (16 * Z.of_nat k).
Proof.
  induction l as [|x l IH]; intros k y Hk; [cbn in Hk; lia|]. destruct k as [|k]; [cbn [insert list_insert val16 foldr]; rewrite Z.mul_0_r; change (2 ^ 0) with 1; cbn; lia|].
  change (val16 (<[S k := y]> (x :: l))) with (x + 2 ^ 16 * val16 (<[k := y]> l)). change (val16 (x :: l)) with (x + 2 ^ 16 * val16 l). change ((x :: l) !!! S k) with (l !!! k). rewrite IH by (cbn in Hk; lia). replace (16 * Z.of_nat (S k)) with (16 + 16 * Z.of_nat k) by lia. rewrite Z.pow_add_r by lia. ring.
Qed.
Lemma entries_lookup B l k : entries B l -> (k < length l)%nat -> 0 <= l !!! k <= B.
Proof. intros H Hk. destruct (lookup_lt_is_Some_2 l k Hk) as [x Hx]. rewrite (list_lookup_total_correct _ _ _ Hx). by eapply (Forall_lookup_1 _ _ _ _ H). Qed.
Lemma entries_mono B C l : entries B l -> B <= C -> entries C l.
Proof. intros H HB. eapply Forall_impl; [exact H|]. cbn. lia. Qed.

Definition grows (B C v : Z) (l l' : words) : Prop := entries B l -> length l' = length l /\ entries (B + C) l' /\ val16 l' = val16 l + v.
Lemma add_at_grows B C l k x : (k < length l)%nat -> 0 <= B -> B + C < 2 ^ 64 -> 0 <= x <= C -> grows B C (x * 2 ^ (16 * Z.of_nat k)) l (add_at l k (u64 x)).
Proof.
  intros Hk HB HC Hx He. pose proof (entries_lookup B l k He Hk) as Hl. unfold add_at. rewrite (u64_small x), u64_small by (unfold u64_ok; lia). split_and!; [by rewrite length_insert| |rewrite val16_insert by done; ring].
  apply Forall_insert; [by apply (entries_mono B); [|lia]|lia].
Qed.
Lemma grows_trans B C D v w l l' l'' : grows B C v l l' -> grows (B + C) D w l' l'' -> grows B (C + D) (v + w) l l''.
Proof. intros H1 H2 He. destruct (H1 He) as (L1 & E1 & V1). destruct (H2 E1) as (L2 & E2 & V2). split_and!; [lia|by rewrite Z.add_assoc|lia]. Qed.

Lemma land_mask16 x : Z.land x mask16 = x mod 2 ^ 16.
Proof. change mask16 with (Z.ones 16). by rewrite Z.land_ones. Qed.
Lemma land_mask32 x : Z.land x mask32 = x mod 2 ^ 32.
Proof. change mask32 with (Z.ones 32). by rewrite Z.land_ones. Qed.
Lemma pieces16 a : u64_ok a -> exists a0 a1 a2 a3, Z.land a mask16 = a0 /\ Z.land (Z.shiftr a 16) mask16 = a1 /\ Z.land (Z.shiftr a 32) mask16 = a2 /\ Z.shiftr a 48 = a3 /\
  a = a0 + 2 ^ 16 * a1 + 2 ^ 32 * a2 + 2 ^ 48 * a3 /\ 0 <= a0 < 2 ^ 16 /\ 0 <= a1 < 2 ^ 16 /\ 0 <= a2 < 2 ^ 16 /\ 0 <= a3 < 2 ^ 16.
Proof.
  intros H. unfold u64_ok in H. eexists _, _, _, _. split_and!; [reflexivity|reflexivity|reflexivity|reflexivity|..]; rewrite ?land_mask16, ?Z.shiftr_div_pow2 by lia; Z.to_euclidean_division_equations; lia.
Qed.
Lemma pieces32 b : u64_ok b -> exists b0 b2, Z.land b mask32 = b0 /\ Z.shiftr b 32 = b2 /\ b = b0 + 2 ^ 32 * b2 /\ 0 <= b0 < 2 ^ 32 /\ 0 <= b2 < 2 ^ 32.
Proof.
  intros H. unfold u64_ok in H. eexists _, _. split_and!; [reflexivity|reflexivity|..]; rewrite ?land_mask32, ?Z.shiftr_div_pow2 by lia; Z.to_euclidean_division_equations; lia.
Qed.

Lemma add_product_grows B l off a b : u64_ok a -> u64_ok b -> (off + 5 < length l)%nat -> 0 <= B < 2 ^ 60 -> grows B (6 * 2 ^ 49) (a * b * 2 ^ (16 * Z.of_nat off)) l (add_product l off a b).
Proof.
  intros Ha Hb Hoff HB. destruct (pieces16 a Ha) as (a0 & a1 & a2 & a3 & E0 & E1 & E2 & E3 & Ea & H0 & H1 & H2 & H3), (pieces32 b Hb) as (b0 & b2 & F0 & F2 & Eb & G0 & G2). unfold add_product. rewrite E0, E1, E2, E3, F0, F2. clear E0 E1 E2 E3 F0 F2.
  assert (Hp : forall x y, 0 <= x < 2 ^ 16 -> 0 <= y < 2 ^ 32 -> 0 <= x * y < 2 ^ 48) by (intros x y Hx Hy; nia).
  pose proof (Hp a0 b0 H0 G0). pose proof (Hp a1 b0 H1 G0). pose proof (Hp a2 b0 H2 G0). pose proof (Hp a3 b0 H3 G0). pose proof (Hp a0 b2 H0 G2). pose proof (Hp a1 b2 H1 G2). pose proof (Hp a2 b2 H2 G2). pose proof (Hp a3 b2 H3 G2).
  assert (Hv : a * b * 2 ^ (16 * Z.of_nat off) = a0 * b0 * 2 ^ (16 * Z.of_nat (off + 0)) + a1 * b0 * 2 ^ (16 * Z.of_nat (off + 1)) + (a2 * b0 + a0 * b2) * 2 ^ (16 * Z.of_nat (off + 2)) + (a3 * b0 + a1 * b2) * 2 ^ (16 * Z.of_nat (off + 3)) + a2 * b2 * 2 ^ (16 * Z.of_nat (off + 4)) + a3 * b2 * 2 ^ (16 * Z.of_nat (off + 5))).
  { rewrite !Nat2Z.inj_add, !Z.mul_add_distr_l, !Z.pow_add_r by lia. rewrite Ea, Eb. change (2 ^ (16 * Z.of_nat 0)) with 1. change (2 ^ (16 * Z.of_nat 1)) with (2 ^ 16). change (2 ^ (16 * Z.of_nat 2)) with (2 ^ 32). change (2 ^ (16 * Z.of_nat 3)) with (2 ^ 48). change (2 ^ (16 * Z.of_nat 4)) with (2 ^ 16 * 2 ^ 48). change (2 ^ (16 * Z.of_nat 5)) with (2 ^ 32 * 2 ^ 48). change (2 ^ 48) with (2 ^ 16 * 2 ^ 32). change (2 ^ 32) with (2 ^ 16 * 2 ^ 16). ring. }
  rewrite Hv. clear Hv. replace (6 * 2 ^ 49) with (2 ^ 49 + 2 ^ 49 + 2 ^ 49 + 2 ^ 49 + 2 ^ 49 + 2 ^ 49) by lia.
  repeat (eapply grows_trans; [|apply add_at_grows; [unfold add_at; rewrite ?length_insert; lia|lia|lia|lia]]). apply add_at_grows; lia.
Qed.

(** The rows, up to a power of 2^64 past which halfMul drops products.  No sum of
    products overflows. *)
Section rows.
Context (fits : nat -> bool) (n L : nat).
Context (Hdrop : forall k, fits k = false -> (n <= k)%nat) (Hroom : forall k, (k <= 6)%nat -> fits k = true -> (4 * k + 5 < L)%nat).
#[local] Abbreviation M := (2 ^ (64 * Z.of_nat n)) (only parsing).

Definition rows_to (B C v : Z) (l l' : words) : Prop := length l = L -> entries B l -> length l' = L /\ entries (B + C) l' /\ eqm M (val16 l') (val16 l + v).
Lemma eqm_multiple k x : (n <= k)%nat -> eqm M (x * 2 ^ (64 * Z.of_nat k)) 0.
Proof. intros Hk. apply eqm_zero. replace (64 * Z.of_nat k) with (64 * Z.of_nat (k - n) + 64 * Z.of_nat n) by lia. rewrite Z.pow_add_r, Z.mul_assoc by lia. apply Z_mod_mult. Qed.
Lemma mul_row_spec b : forall B l i j a, u64_ok a -> Forall u64_ok b -> (i + j + length b <= 7)%nat -> 0 <= B -> B + Z.of_nat (length b) * (6 * 2 ^ 49) < 2 ^ 60 ->
  rows_to B (Z.of_nat (length b) * (6 * 2 ^ 49)) (a * val64 b * 2 ^ (64 * Z.of_nat (i + j))) l (mul_row fits l i j a b).
Proof.
  induction b as [|y b IH]; intros B l i j a Ha Hb Hij HB HC HL He; cbn [mul_row]; [split_and!; [done|cbn; by rewrite Z.add_0_r|cbn; apply eqm_eq; lia]|]. apply Forall_cons in Hb as [Hy Hb]. cbn [length] in *. destruct (fits (i + j)%nat) eqn:Ef.
  - pose proof (Hroom (i + j)%nat ltac:(lia) Ef) as Hr. destruct (add_product_grows B l (4 * (i + j)) a y Ha Hy ltac:(lia) ltac:(lia) He) as (L1 & E1 & V1).
    destruct (IH (B + 6 * 2 ^ 49) _ i (S j) a Ha Hb ltac:(lia) ltac:(lia) ltac:(lia) (eq_trans L1 HL) E1) as (L2 & E2 & V2). split_and!; [done|eapply entries_mono; [exact E2|lia]|]. rewrite V2, V1. cbn [val64 foldr]. fold (val64 b). apply eqm_eq. replace (16 * Z.of_nat (4 * (i + j))) with (64 * Z.of_nat (i + j)) by lia. replace (64 * Z.of_nat (i + S j)) with (64 + 64 * Z.of_nat (i + j)) by lia. rewrite Z.pow_add_r by lia. ring.
  - split_and!; [done|apply (entries_mono B); [done|lia]|]. rewrite (eqm_multiple (i + j)) by (by apply Hdrop). apply eqm_eq. lia.
Qed.
Lemma mul_rows_spec a b : forall B l i, Forall u64_ok a -> Forall u64_ok b -> length b = 4%nat -> (i + length a <= 4)%nat -> 0 <= B -> B + Z.of_nat (length a) * (24 * 2 ^ 49) < 2 ^ 60 ->
  rows_to B (Z.of_nat (length a) * (24 * 2 ^ 49)) (val64 a * val64 b * 2 ^ (64 * Z.of_nat i)) l (mul_rows fits l i a b).
Proof.
  induction a as [|x a IH]; intros B l i Ha Hb Lb Hi HB HC HL He; cbn [mul_rows]; [split_and!; [done|cbn; by rewrite Z.add_0_r|cbn; apply eqm_eq; lia]|]. apply Forall_cons in Ha as [Hx Ha]. cbn [length] in *.
  destruct (mul_row_spec b B l i 0 x Hx Hb ltac:(lia) HB ltac:(lia) HL He) as (L1 & E1 & V1). rewrite Lb in E1.
  destruct (IH (B + Z.of_nat 4 * (6 * 2 ^ 49)) _ (S i) Ha Hb Lb ltac:(lia) ltac:(lia) ltac:(lia) L1 E1) as (L2 & E2 & V2). split_and!; [done|eapply entries_mono; [exact E2|lia]|]. rewrite V2, V1. cbn [val64 foldr]. fold (val64 a). apply eqm_eq. replace (i + 0)%nat with i by lia. replace (64 * Z.of_nat (S i)) with (64 + 64 * Z.of_nat i) by lia. rewrite Z.pow_add_r by lia. ring.
Qed.
End rows.

(** ** Columns *)

(** The value of [n] words. *)
Fixpoint sumw (n : nat) (f : nat -> Z) : Z := match n with O => 0 | S n => f O + 2 ^ 64 * sumw n (fun k => f (S k)) end.
Lemma sumw_ext n : forall f g, (forall k, (k < n)%nat -> f k = g k) -> sumw n f = sumw n g.
Proof. induction n as [|n IH]; intros f g H; [done|]. cbn [sumw]. rewrite (H O) by lia. f_equal. f_equal. apply IH. intros k Hk. apply H. lia. Qed.
Lemma sumw_add n : forall f g, sumw n (fun k => f k + g k) = sumw n f + sumw n g.
Proof. induction n as [|n IH]; intros f g; [done|]. cbn [sumw]. rewrite IH. ring. Qed.
Lemma sumw_val64 n f : val64 (map f (seq 0 n)) = sumw n f.
Proof.
  revert f. induction n as [|n IH]; intros f; [done|]. cbn [seq map val64 foldr sumw]. fold (val64 (map f (seq 1 n))). rewrite <- seq_shift, map_map, IH. done.
Qed.
Lemma val16_groups n : forall l, length l = (4 * n)%nat -> val16 l = sumw n (fun k => l !!! (4 * k)%nat + l !!! (4 * k + 1)%nat * 2 ^ 16 + l !!! (4 * k + 2)%nat * 2 ^ 32 + l !!! (4 * k + 3)%nat * 2 ^ 48).
Proof.
  induction n as [|n IH]; intros l Hl; [by destruct l|]. destruct l as [|a [|b [|c [|d l]]]]; cbn in Hl; try lia. cbn [sumw]. rewrite (sumw_ext n _ (fun k => l !!! (4 * k)%nat + l !!! (4 * k + 1)%nat * 2 ^ 16 + l !!! (4 * k + 2)%nat * 2 ^ 32 + l !!! (4 * k + 3)%nat * 2 ^ 48)).
  - rewrite <- IH by lia. change (val16 (a :: b :: c :: d :: l)) with (a + 2 ^ 16 * (b + 2 ^ 16 * (c + 2 ^ 16 * (d + 2 ^ 16 * val16 l)))). cbn. lia.
  - intros k _. by rewrite !Nat.mul_succ_r, !(Nat.add_comm (4 * k) 4).
Qed.

Lemma column_word i x c head carry : (1 <= i <= 3)%nat -> u64_ok x -> 0 <= c < 2 ^ 56 -> 0 <= head < 2 ^ (16 * Z.of_nat i) -> 0 <= carry <= 1 ->
  let shift := 16 * Z.of_nat i in let y := u64 (u64 (Z.shiftl c shift) + head) in let z := u64 (x + y + carry) in let carry' := Z.shiftr (Z.lor (Z.land x y) (Z.ldiff (Z.lor x y) z)) 63 in let head' := Z.shiftr c (64 - shift) in
  u64_ok z /\ 0 <= head' < 2 ^ shift /\ 0 <= carry' <= 1 /\ z + 2 ^ 64 * (head' + carry') = x + c * 2 ^ shift + head + carry.
Proof.
  intros Hi Hx Hc Hh Hk. cbv zeta. set (s := 16 * Z.of_nat i) in *. assert (Hs : 16 <= s <= 48) by lia. rewrite (Z.shiftl_mul_pow2 c s), (Z.shiftr_div_pow2 c (64 - s)) by lia.
  assert (Hp : 2 ^ 64 = 2 ^ s * 2 ^ (64 - s)) by (rewrite <- Z.pow_add_r by lia; f_equal; lia). assert (Hps : 0 < 2 ^ s) by lia. assert (Hpt : 0 < 2 ^ (64 - s)) by lia.
  assert (Hu : u64 (c * 2 ^ s) = (c mod 2 ^ (64 - s)) * 2 ^ s) by (unfold u64; rewrite Hp, (Z.mul_comm (2 ^ s) (2 ^ (64 - s))); apply Zmult_mod_distr_r).
  pose proof (Z.mod_pos_bound c (2 ^ (64 - s)) Hpt) as Hm. pose proof (Z.div_mod c (2 ^ (64 - s)) ltac:(lia)) as Hd.
  assert (Hy : u64 (u64 (c * 2 ^ s) + head) = (c mod 2 ^ (64 - s)) * 2 ^ s + head) by (rewrite Hu; apply u64_small; unfold u64_ok; rewrite Hp; nia). rewrite Hy.
  destruct (add_carry x ((c mod 2 ^ (64 - s)) * 2 ^ s + head) carry _ Hx ltac:(rewrite <- Hy; apply u64_u64_ok) Hk eq_refl) as [E1 H1]. split_and!; [apply u64_u64_ok|apply Z.div_pos; lia| |lia|lia|].
  - apply Z.div_lt_upper_bound; [lia|]. rewrite Z.mul_comm, <- Hp. lia.
  - revert E1. set (z := u64 _). set (k := Z.shiftr _ 63). intros E1. assert (E2 : c * 2 ^ s = 2 ^ 64 * (c / 2 ^ (64 - s)) + c mod 2 ^ (64 - s) * 2 ^ s) by (rewrite Hp; rewrite Hd at 1; ring). lia.
Qed.

Lemma mul_column_spec i : (1 <= i <= 3)%nat -> forall n j l head carry, (4 * (j + n) <= length l)%nat -> (forall k, (k < n)%nat -> u64_ok (l !!! (4 * (j + k))%nat)) -> (forall k, (k < n)%nat -> 0 <= l !!! (4 * (j + k) + i)%nat < 2 ^ 56) -> 0 <= head < 2 ^ (16 * Z.of_nat i) -> 0 <= carry <= 1 ->
  let l' := mul_column n i j l head carry in
  length l' = length l /\ (forall k, (k < n)%nat -> u64_ok (l' !!! (4 * (j + k))%nat)) /\ (forall m, (forall k, (k < n)%nat -> m <> (4 * (j + k))%nat) -> l' !!! m = l !!! m) /\
  exists out, sumw n (fun k => l' !!! (4 * (j + k))%nat) + 2 ^ (64 * Z.of_nat n) * out = head + carry + sumw n (fun k => l !!! (4 * (j + k))%nat + l !!! (4 * (j + k) + i)%nat * 2 ^ (16 * Z.of_nat i)).
Proof.
  intros Hi. induction n as [|n IH]; intros j l head carry HL Hx Hc Hh Hk; cbv zeta; [split_and!; [done|intros k Hlt; lia|done|]; exists (head + carry); cbn; change (2 ^ 0) with 1; lia|]. cbn [mul_column].
  pose proof (Hx 0%nat ltac:(lia)) as Hx0. pose proof (Hc 0%nat ltac:(lia)) as Hc0. rewrite Nat.add_0_r in Hx0, Hc0. destruct (column_word i (l !!! (4 * j)%nat) (l !!! (4 * j + i)%nat) head carry Hi Hx0 Hc0 Hh Hk) as (Z1 & Z2 & Z3 & Z4). cbv zeta in Z1, Z2, Z3, Z4.
  set (y := u64 (u64 (Z.shiftl _ _) + head)) in *. set (z := u64 (l !!! (4 * j)%nat + y + carry)) in *. set (l1 := <[(4 * j)%nat := z]> l) in *. assert (Hother : forall m, m <> (4 * j)%nat -> l1 !!! m = l !!! m) by (intros m Hm; unfold l1; by rewrite list_lookup_total_insert_ne by lia). assert (Hhere : l1 !!! (4 * j)%nat = z) by (unfold l1; rewrite list_lookup_total_insert_eq by lia; done).
  rewrite (Hother (4 * j + i)%nat) by lia. set (head' := Z.shiftr (l !!! (4 * j + i)%nat) _) in *. set (carry' := Z.shiftr _ 63) in *.
  destruct (IH (S j) l1 head' carry') as (I1 & I2 & I3 & out & I4); [unfold l1; rewrite length_insert; lia|intros k Hlt; rewrite Hother by lia; replace (S j + k)%nat with (j + S k)%nat by lia; apply Hx; lia|intros k Hlt; rewrite Hother by lia; replace (S j + k)%nat with (j + S k)%nat by lia; apply Hc; lia|done|done|].
  set (l2 := mul_column n i (S j) l1 head' carry') in *. assert (Hz : l2 !!! (4 * j)%nat = z) by (rewrite I3 by lia; done). split_and!.
  - rewrite I1. unfold l1. by rewrite length_insert.
  - intros [|k] Hlt; [rewrite Nat.add_0_r, Hz; done|]. replace (j + S k)%nat with (S j + k)%nat by lia. apply I2. lia.
  - intros m Hm. rewrite I3 by (intros k Hlt; replace (S j + k)%nat with (j + S k)%nat by lia; apply Hm; lia). apply Hother. specialize (Hm 0%nat ltac:(lia)). lia.
  - exists out. cbn [sumw]. rewrite Nat.add_0_r, Hz. rewrite (sumw_ext n _ (fun k => l2 !!! (4 * (S j + k))%nat)) by (intros k _; by replace (j + S k)%nat with (S j + k)%nat by lia).
    rewrite (sumw_ext n (fun k => l !!! (4 * (j + S k))%nat + _) (fun k => l1 !!! (4 * (S j + k))%nat + l1 !!! (4 * (S j + k) + i)%nat * 2 ^ (16 * Z.of_nat i))) by (intros k _; rewrite !Hother by lia; by replace (j + S k)%nat with (S j + k)%nat by lia).
    replace (64 * Z.of_nat (S n)) with (64 + 64 * Z.of_nat n) by lia. rewrite Z.pow_add_r by lia. nia.
Qed.

Lemma val16_take n l : (4 * n <= length l)%nat -> eqm (2 ^ (64 * Z.of_nat n)) (val16 l) (val16 (take (4 * n) l)).
Proof.
  intros Hl. assert (Happ : forall a b, val16 (a ++ b) = val16 a + 2 ^ (16 * len a) * val16 b).
  { induction a as [|x a IH]; intros b; [change (16 * len (@nil Z)) with 0; cbn [app]; change (val16 []) with 0; lia|]. rewrite len_cons. change (val16 ((x :: a) ++ b)) with (x + 2 ^ 16 * val16 (a ++ b)). change (val16 (x :: a)) with (x + 2 ^ 16 * val16 a). rewrite IH. replace (16 * (1 + len a)) with (16 + 16 * len a) by lia. rewrite Z.pow_add_r by (pose proof (len_nonneg a); lia). ring. }
  rewrite <- (take_drop (4 * n) l) at 1. rewrite Happ. unfold len. rewrite length_take, Nat.min_l by lia. replace (16 * Z.of_nat (4 * n)) with (64 * Z.of_nat n) by lia. unfold eqm. rewrite Z.mul_comm. apply Z_mod_plus_full.
Qed.
Lemma mul_columns_spec n l B : (4 * n <= length l)%nat -> entries B l -> B < 2 ^ 56 -> words_ok n (mul_columns n l) /\ eqm (2 ^ (64 * Z.of_nat n)) (val64 (mul_columns n l)) (val16 l).
Proof.
  intros Hl He HB. assert (Hb : forall m, (m < 4 * n)%nat -> 0 <= l !!! m < 2 ^ 56) by (intros m Hm; pose proof (entries_lookup B l m He ltac:(lia)); lia). unfold mul_columns.
  destruct (mul_column_spec 1 ltac:(lia) n 0 l 0 0) as (L1 & U1 & O1 & o1 & S1); [lia|intros k Hk; unfold u64_ok; pose proof (Hb (4 * (0 + k))%nat); lia|intros k Hk; apply Hb; lia|lia|lia|]. set (l1 := mul_column n 1 0 l 0 0) in *.
  destruct (mul_column_spec 2 ltac:(lia) n 0 l1 0 0) as (L2 & U2 & O2 & o2 & S2); [lia|done|intros k Hk; rewrite O1 by lia; apply Hb; lia|lia|lia|]. set (l2 := mul_column n 2 0 l1 0 0) in *.
  destruct (mul_column_spec 3 ltac:(lia) n 0 l2 0 0) as (L3 & U3 & O3 & o3 & S3); [lia|done|intros k Hk; rewrite O2, O1 by lia; apply Hb; lia|lia|lia|]. set (l3 := mul_column n 3 0 l2 0 0) in *. cbv zeta. split.
  - split; [by rewrite length_map, length_seq|]. apply Forall_map, Forall_seq. intros k Hk. apply (U3 k). lia.
  - rewrite sumw_val64, val16_take by done. rewrite (val16_groups n) by (rewrite length_take; lia).
    rewrite (sumw_ext n (fun k => take (4 * n) l !!! (4 * k)%nat + _ + _ + _) (fun k => (l !!! (4 * k)%nat + l !!! (4 * k + 1)%nat * 2 ^ 16) + l !!! (4 * k + 2)%nat * 2 ^ 32 + l !!! (4 * k + 3)%nat * 2 ^ 48)) by (intros k Hk; rewrite !list_lookup_total_alt, !lookup_take_lt by lia; done).
    change (2 ^ (16 * Z.of_nat 1)) with (2 ^ 16) in S1. change (2 ^ (16 * Z.of_nat 2)) with (2 ^ 32) in S2. change (2 ^ (16 * Z.of_nat 3)) with (2 ^ 48) in S3. change (fun k => l3 !!! (4 * k)%nat) with (fun k => l3 !!! (4 * (0 + k))%nat).
    rewrite (sumw_ext n (fun k => l1 !!! (4 * (0 + k))%nat + l1 !!! (4 * (0 + k) + 2)%nat * 2 ^ 32) (fun k => l1 !!! (4 * (0 + k))%nat + l !!! (4 * (0 + k) + 2)%nat * 2 ^ 32)) in S2 by (intros k Hk; by rewrite (O1 (4 * (0 + k) + 2)%nat) by lia).
    rewrite (sumw_ext n (fun k => l2 !!! (4 * (0 + k))%nat + l2 !!! (4 * (0 + k) + 3)%nat * 2 ^ 48) (fun k => l2 !!! (4 * (0 + k))%nat + l !!! (4 * (0 + k) + 3)%nat * 2 ^ 48)) in S3 by (intros k Hk; by rewrite (O2 (4 * (0 + k) + 3)%nat), (O1 (4 * (0 + k) + 3)%nat) by lia).
    rewrite (sumw_add n (fun k => l1 !!! (4 * (0 + k))%nat)) in S2. rewrite (sumw_add n (fun k => l2 !!! (4 * (0 + k))%nat)) in S3. rewrite !sumw_add in S1. rewrite !sumw_add. cbn [Nat.add] in *. set (M := 2 ^ (64 * Z.of_nat n)) in *.
    unfold eqm. match goal with |- ?x mod _ = ?y mod _ => replace y with (x + (o1 + o2 + o3) * M) by lia end. symmetry. apply Z_mod_plus_full.
Qed.

Lemma mul_rows_entries a b : words_ok 4 a -> words_ok 4 b -> forall fits n L, (forall k, fits k = false -> (n <= k)%nat) -> (forall k, (k <= 6)%nat -> fits k = true -> (4 * k + 5 < L)%nat) -> (4 * n <= L)%nat ->
  let r := mul_columns n (mul_rows fits (replicate L 0) 0 a b) in words_ok n r /\ val64 r = (val64 a * val64 b) mod 2 ^ (64 * Z.of_nat n).
Proof.
  intros [La Fa] [Lb Fb] fits n L Hd Hr HL. cbv zeta. destruct (mul_rows_spec fits n L Hd Hr a b 0 (replicate L 0) 0 Fa Fb Lb ltac:(lia) ltac:(lia) ltac:(rewrite La; lia)) as (L1 & E1 & V1); [by rewrite length_replicate|apply Forall_replicate; lia|]. rewrite La in E1.
  destruct (mul_columns_spec n _ _ ltac:(by rewrite L1) E1 ltac:(lia)) as [W1 W2]. split; [done|]. assert (E : eqm (2 ^ (64 * Z.of_nat n)) (val64 (mul_columns n (mul_rows fits (replicate L 0) 0 a b))) (val64 a * val64 b)).
  { rewrite W2, V1. assert (Ez : val16 (replicate L 0) = 0) by (clear; induction L as [|L IH]; [done|]; cbn [replicate]; change (val16 (0 :: replicate L 0)) with (0 + 2 ^ 16 * val16 (replicate L 0)); rewrite IH; lia). rewrite Ez. apply eqm_eq. change (64 * Z.of_nat 0) with 0. lia. }
  unfold eqm in E. rewrite <- E. symmetry. apply Z.mod_small. by apply words_bound.
Qed.
Lemma mul_spec a b : words_ok 4 a -> words_ok 4 b -> words_ok 8 (mul a b) /\ val64 (mul a b) = val64 a * val64 b.
Proof.
  intros Ha Hb. destruct (mul_rows_entries a b Ha Hb (fun _ => true) 8 32) as [H1 H2]; [done|lia|lia|]. split; [done|]. etransitivity; [exact H2|]. pose proof (words_bound 4 a Ha). pose proof (words_bound 4 b Hb). change (64 * Z.of_nat 4) with 256 in *. change (64 * Z.of_nat 8) with 512. apply Z.mod_small. change (2 ^ 512) with (2 ^ 256 * 2 ^ 256). nia.
Qed.
Lemma halfMul_spec a b : words_ok 4 a -> words_ok 4 b -> words_ok 4 (halfMul a b) /\ val64 (halfMul a b) = (val64 a * val64 b) mod 2 ^ 256.
Proof.
  intros Ha Hb. apply (mul_rows_entries a b Ha Hb (fun k => negb (3 <? k)%nat) 4 18); [|intros k Hk|lia].
  - intros k Hk. destruct (Nat.ltb_spec 3 k); [lia|done].
  - destruct (Nat.ltb_spec 3 k); [done|lia].
Qed.

(** ** Montgomery multiplication *)

Definition R : Z := 2 ^ 256.
Lemma np_ok : words_ok 4 np.
Proof. split; [done|]. repeat constructor; done. Qed.
Lemma np_inverse : eqm R (val64 np * P) (-1).
Proof. vm_compute. reflexivity. Qed.
Lemma words_split n m l : words_ok (n + m) l -> words_ok n (take n l) /\ words_ok m (drop n l) /\ val64 l = val64 (take n l) + 2 ^ (64 * Z.of_nat n) * val64 (drop n l).
Proof.
  intros [Hl Hf]. split_and!; [split; [rewrite length_take; lia|by apply Forall_take]|split; [rewrite length_drop; lia|by apply Forall_drop]|]. rewrite <- (take_drop n l) at 1. rewrite val64_app. unfold len. rewrite length_take, Nat.min_l by lia. done.
Qed.

Lemma gfpMul_spec a b : words_ok 4 a -> words_ok 4 b -> val64 a * val64 b < R * P -> gfp_ok (gfpMul a b) /\ eqm P (val64 (gfpMul a b) * R) (val64 a * val64 b).
Proof.
  intros Ha Hb Hlt. unfold gfpMul. destruct (mul_spec a b Ha Hb) as [HT ET]. set (T := mul a b) in *. destruct (words_split 4 4 T HT) as (Hlo & _ & Esplit). destruct (halfMul_spec (take 4 T) np Hlo np_ok) as [Hm Em]. set (m := halfMul (take 4 T) np) in *. destruct (mul_spec m p2 Hm p2_ok) as [Ht Et]. rewrite p2_val in Et. set (t := mul m p2) in *.
  pose proof (add_words_spec 8 T t 0 HT Ht ltac:(lia)) as Hs. destruct (add_words T t 0) as [S carry]. destruct Hs as (HS & Hc & ES). destruct (words_split 4 4 S HS) as (Hl & Hh & ESs). change (64 * Z.of_nat 4) with 256 in *. change (64 * Z.of_nat 8) with 512 in *. change (2 ^ 256) with R in *. change (2 ^ 512) with (R * R) in ES.
  pose proof (words_bound 4 _ Hm) as Bm. pose proof (words_bound 4 _ Hl) as Bl. change (2 ^ (64 * Z.of_nat 4)) with R in *. assert (HRp : 0 < R) by done.
  (* the low words of the sum vanish *)
  assert (Hz : val64 (take 4 S) = 0).
  { assert (E : eqm R (val64 (take 4 S)) 0).
    { transitivity (val64 T + val64 m * P); [unfold eqm; replace (val64 T + val64 m * P) with (val64 (take 4 S) + (val64 (drop 4 S) + R * carry) * R) by lia; symmetry; apply Z_mod_plus_full|].
      assert (E1 : eqm R (val64 m) (val64 (take 4 T) * val64 np)) by (rewrite Em; apply eqm_mod). assert (E2 : eqm R (val64 T) (val64 (take 4 T))) by (unfold eqm; rewrite Esplit, Z.mul_comm; apply Z_mod_plus_full). rewrite E2, E1, <- Z.mul_assoc, np_inverse. apply eqm_eq. lia. }
    apply (proj1 (eqm_zero _ _)) in E. rewrite Z.mod_small in E; done. }
  assert (Hv : R * (R * carry + val64 (drop 4 S)) = val64 a * val64 b + val64 m * P) by lia. pose proof P_bounds as HP.
  destruct (gfpCarry_spec (drop 4 S) carry Hh Hc) as [G1 G2]; [change (2 ^ 256) with R; nia|]. split; [done|]. rewrite G2, eqm_mod. change (2 ^ 256) with R. unfold eqm. rewrite Z.mul_comm, Hv. apply Z_mod_plus_full.
Qed.
Lemma gfpMul_ok a b : gfp_ok a -> gfp_ok b -> gfp_ok (gfpMul a b) /\ eqm P (val64 (gfpMul a b) * R) (val64 a * val64 b).
Proof. intros [Ha La] [Hb Lb]. apply gfpMul_spec; [done|done|]. pose proof (words_bound 4 a Ha). pose proof (words_bound 4 b Hb). change (2 ^ (64 * Z.of_nat 4)) with R in *. pose proof P_bounds. nia. Qed.

(** ** Elements of the field *)

(** The number that an array stands for. *)
Definition Rinv : Z := val64 rN1.
Lemma R_Rinv : eqm P (R * Rinv) 1.
Proof. vm_compute. reflexivity. Qed.
#[local] Opaque R Rinv gfpMul gfpAdd gfpSub gfpNeg.
Definition gfp_num (a : words) : Z := (val64 a * Rinv) mod P.

Lemma gfp_num_range a : 0 <= gfp_num a < P.
Proof. apply Z.mod_pos_bound. apply P_pos. Qed.
Lemma gfp_num_R a : eqm P (gfp_num a * R) (val64 a).
Proof. unfold gfp_num. rewrite eqm_mod. transitivity (val64 a * (R * Rinv)); [apply eqm_eq; ring|]. rewrite R_Rinv. apply eqm_eq. ring. Qed.
Lemma gfp_num_unique a z : eqm P (z * R) (val64 a) -> eqm P (gfp_num a) z.
Proof. intros H. unfold gfp_num. rewrite eqm_mod, <- H. transitivity (z * (R * Rinv)); [apply eqm_eq; ring|]. rewrite R_Rinv. apply eqm_eq. ring. Qed.
Lemma gfp_ok_bound a : gfp_ok a -> 0 <= val64 a < P.
Proof. intros [H1 H2]. pose proof (words_bound 4 a H1). lia. Qed.
Lemma gfp_num_inj a b : gfp_ok a -> gfp_ok b -> gfp_num a = gfp_num b -> a = b.
Proof.
  intros Ha Hb E. apply (val64_inj 4); [apply Ha|apply Hb|]. assert (Em : eqm P (val64 a) (val64 b)) by (rewrite <- (gfp_num_R a), <- (gfp_num_R b), E; done). unfold eqm in Em. rewrite !Z.mod_small in Em by (by apply gfp_ok_bound). done.
Qed.

Lemma gfp_num_Neg a : gfp_ok a -> gfp_ok (gfpNeg a) /\ eqm P (gfp_num (gfpNeg a)) (- gfp_num a).
Proof. intros Ha. destruct (gfpNeg_spec a Ha) as [H1 H2]. split; [done|]. apply gfp_num_unique. rewrite H2, eqm_mod, <- (gfp_num_R a). apply eqm_eq. ring. Qed.
Lemma gfp_num_Add a b : gfp_ok a -> gfp_ok b -> gfp_ok (gfpAdd a b) /\ eqm P (gfp_num (gfpAdd a b)) (gfp_num a + gfp_num b).
Proof. intros Ha Hb. destruct (gfpAdd_spec a b Ha Hb) as [H1 H2]. split; [done|]. apply gfp_num_unique. rewrite H2, eqm_mod, <- (gfp_num_R a), <- (gfp_num_R b). apply eqm_eq. ring. Qed.
Lemma gfp_num_Sub a b : gfp_ok a -> gfp_ok b -> gfp_ok (gfpSub a b) /\ eqm P (gfp_num (gfpSub a b)) (gfp_num a - gfp_num b).
Proof. intros Ha Hb. destruct (gfpSub_spec a b Ha Hb) as [H1 H2]. split; [done|]. apply gfp_num_unique. rewrite H2, eqm_mod, <- (gfp_num_R a), <- (gfp_num_R b). apply eqm_eq. ring. Qed.
Lemma gfp_num_Mul a b : gfp_ok a -> gfp_ok b -> gfp_ok (gfpMul a b) /\ eqm P (gfp_num (gfpMul a b)) (gfp_num a * gfp_num b).
Proof.
  intros Ha Hb. destruct (gfpMul_ok a b Ha Hb) as [H1 H2]. split; [done|]. unfold gfp_num at 1. rewrite eqm_mod. set (c := val64 (gfpMul a b)) in *. transitivity (c * R * (Rinv * Rinv)); [transitivity (c * Rinv * (R * Rinv)); [rewrite R_Rinv|]; apply eqm_eq; ring|]. rewrite H2. unfold gfp_num. rewrite !eqm_mod. apply eqm_eq. ring.
Qed.

(** ** Conversions *)

Lemma r2_val : eqm P (val64 r2) (R * R).
Proof. Transparent R. vm_compute. reflexivity. Qed.
Lemma r3_val : eqm P (val64 r3) (R * R * R).
Proof. vm_compute. reflexivity. Qed.
Lemma constants_ok : gfp_ok r2 /\ gfp_ok r3 /\ gfp_ok rN1.
Proof. split_and!; (split; [split; [done|repeat constructor; done]|vm_compute; reflexivity]). Qed.
Lemma one_ok : words_ok 4 [1; 0; 0; 0].
Proof. split; [done|]. repeat constructor; done. Qed.
#[local] Opaque R.

Lemma montEncode_spec a : gfp_ok a -> gfp_ok (montEncode a) /\ eqm P (gfp_num (montEncode a)) (val64 a).
Proof.
  intros Ha. destruct constants_ok as (H2 & _ & _). unfold montEncode. destruct (gfp_num_Mul a r2 Ha H2) as [H1 E]. split; [done|]. rewrite E. unfold gfp_num. rewrite !eqm_mod, r2_val. transitivity (val64 a * (R * Rinv) * (R * Rinv)); [apply eqm_eq; ring|]. rewrite !R_Rinv. apply eqm_eq. ring.
Qed.
Lemma montDecode_spec a : gfp_ok a -> gfp_ok (montDecode a) /\ val64 (montDecode a) = gfp_num a.
Proof.
  intros Ha. unfold montDecode. destruct (gfpMul_spec a [1; 0; 0; 0] (proj1 Ha) one_ok) as [H1 E]; [change (val64 [1; 0; 0; 0]) with 1; pose proof (gfp_ok_bound a Ha); assert (1 < R) by (by vm_compute); nia|]. split; [done|]. change (val64 [1; 0; 0; 0]) with 1 in E.
  assert (Em : eqm P (val64 (gfpMul a [1; 0; 0; 0])) (gfp_num a)); [|unfold eqm in Em; rewrite !Z.mod_small in Em by (apply gfp_num_range || by apply gfp_ok_bound); done].
  set (c := val64 _) in *. unfold gfp_num. rewrite eqm_mod. transitivity (c * (R * Rinv)); [rewrite R_Rinv; apply eqm_eq; ring|]. transitivity (c * R * Rinv); [apply eqm_eq; ring|]. rewrite E. apply eqm_eq. ring.
Qed.
Lemma word_ok x : u64_ok x -> gfp_ok [x; 0; 0; 0] /\ val64 [x; 0; 0; 0] = x.
Proof. intros H. assert (E : val64 [x; 0; 0; 0] = x) by (cbn; lia). split; [|done]. split; [split; [done|constructor; [done|repeat constructor; done]]|]. rewrite E. pose proof P_bounds. unfold u64_ok in H. lia. Qed.
Lemma newGFp_spec x : - 2 ^ 63 <= x < 2 ^ 63 -> gfp_ok (newGFp x) /\ eqm P (gfp_num (newGFp x)) x.
Proof.
  intros Hx. unfold newGFp. destruct (Z.leb_spec 0 x) as [H0|H0].
  - destruct (word_ok (u64 x) (u64_u64_ok x)) as [H1 E1]. destruct (montEncode_spec _ H1) as [H2 E2]. split; [done|]. rewrite E2, E1, u64_small by (unfold u64_ok; lia). done.
  - destruct (word_ok (u64 (- x)) (u64_u64_ok _)) as [H1 E1]. rewrite (u64_small (- x)) in * by (unfold u64_ok; lia). destruct (gfpNeg_spec _ H1) as [H2 E2]. destruct (montEncode_spec _ H2) as [H3 E3]. split; [done|]. rewrite E3, E2, eqm_mod, E1. apply eqm_eq. lia.
Qed.

(** ** Inversion *)

Lemma invert_word_spec n : forall word bit sum power, 0 <= word -> 0 <= bit -> gfp_ok sum -> gfp_ok power -> let '(sum', power') := invert_word n word bit sum power in
  gfp_ok sum' /\ gfp_ok power' /\ eqm P (gfp_num sum') (gfp_num sum * gfp_num power ^ (Z.shiftr word bit mod 2 ^ Z.of_nat n)) /\ eqm P (gfp_num power') (gfp_num power ^ 2 ^ Z.of_nat n).
Proof.
  induction n as [|n IH]; intros word bit sum power Hw Hb Hs Hp; cbn [invert_word]; [split_and!; [exact Hs|exact Hp|rewrite Z.mod_1_r, Z.pow_0_r|rewrite Z.pow_0_r, Z.pow_1_r]; apply eqm_eq; lia|].
  destruct (gfp_num_Mul power power Hp Hp) as [Hpp Epp]. destruct (gfp_num_Mul sum power Hs Hp) as [Hsp Esp]. set (s1 := if _ =? 1 then _ else sum). set (x := Z.shiftr word bit) in *. assert (Hx0 : 0 <= x) by (by apply Z.shiftr_nonneg).
  assert (Hs1 : gfp_ok s1 /\ eqm P (gfp_num s1) (gfp_num sum * gfp_num power ^ (x mod 2))).
  { assert (El : Z.land x 1 = x mod 2) by exact (Z.land_ones x 1 ltac:(lia)). unfold s1. rewrite El. pose proof (Z.mod_pos_bound x 2 ltac:(lia)). destruct (Z.eqb_spec (x mod 2) 1) as [->|Hne]; [split; [exact Hsp|]; rewrite Z.pow_1_r; exact Esp|]. assert (x mod 2 = 0) as -> by lia. split; [exact Hs|]. apply eqm_eq. rewrite Z.pow_0_r. lia. }
  destruct Hs1 as [Hs1 Es1]. specialize (IH word (bit + 1) s1 (gfpMul power power) Hw ltac:(lia) Hs1 Hpp). destruct (invert_word n word (bit + 1) s1 (gfpMul power power)) as [sum' power']. destruct IH as (I1 & I2 & I3 & I4).
  assert (Ex : Z.shiftr word (bit + 1) = x / 2) by (unfold x; rewrite <- Z.shiftr_shiftr by lia; by rewrite Z.shiftr_div_pow2). rewrite Ex in I3. set (g := gfp_num power) in *. assert (Hp2 : 0 < 2 ^ Z.of_nat n) by lia. pose proof (Z.mod_pos_bound (x / 2) (2 ^ Z.of_nat n) Hp2). pose proof (Z.mod_pos_bound x 2 ltac:(lia)). split_and!; [exact I1|exact I2| |].
  - rewrite I3, Es1, (eqm_power P _ _ _ Epp), <- Z.mul_assoc. apply eqm_eq. f_equal. rewrite <- Z.pow_2_r, <- Z.pow_mul_r, <- Z.pow_add_r by lia. f_equal. rewrite Nat2Z.inj_succ, Z.pow_succ_r by lia. rewrite Z.rem_mul_r by lia. done.
  - rewrite I4, (eqm_power P _ _ _ Epp), <- Z.pow_2_r, <- Z.pow_mul_r by lia. apply eqm_eq. f_equal. rewrite Nat2Z.inj_succ, Z.pow_succ_r by lia. done.
Qed.
Lemma invert_words_spec bits : forall sum power, Forall u64_ok bits -> gfp_ok sum -> gfp_ok power ->
  gfp_ok (invert_words bits sum power) /\ eqm P (gfp_num (invert_words bits sum power)) (gfp_num sum * gfp_num power ^ val64 bits).
Proof.
  induction bits as [|w bits IH]; intros sum power Hf Hs Hp; cbn [invert_words]; [split; [exact Hs|]; apply eqm_eq; change (val64 []) with 0; rewrite Z.pow_0_r; lia|]. apply Forall_cons in Hf as [Hw Hf]. unfold u64_ok in Hw.
  pose proof (invert_word_spec 64 w 0 sum power ltac:(lia) ltac:(lia) Hs Hp) as H. destruct (invert_word 64 w 0 sum power) as [sum' power']. destruct H as (H1 & H2 & H3 & H4). rewrite Z.shiftr_0_r in H3. change (Z.of_nat 64) with 64 in H3, H4. rewrite (Z.mod_small w) in H3 by exact Hw. destruct (IH sum' power' Hf H1 H2) as [I1 I2]. split; [exact I1|]. rewrite I2, H3, (eqm_power P _ _ _ H4). destruct (val64_bound bits Hf) as [Hv _]. change (val64 (w :: bits)) with (w + 2 ^ 64 * val64 bits). clear - Hw Hv. rewrite Z.pow_add_r, Z.pow_mul_r by lia. apply eqm_eq. symmetry. apply Z.mul_assoc.
Qed.
Lemma gfP_Invert_spec f : gfp_ok f -> gfp_ok (gfP_Invert f) /\ eqm P (gfp_num (gfP_Invert f)) (gfp_num f ^ (P - 2)).
Proof.
  intros Hf. destruct constants_ok as (_ & H3 & HN). assert (Hb : Forall u64_ok invert_bits) by (repeat constructor; done). destruct (invert_words_spec invert_bits rN1 f Hb HN Hf) as [H1 E1]. unfold gfP_Invert. destruct (gfp_num_Mul _ r3 H1 H3) as [H4 E4]. split; [exact H4|]. rewrite E4, E1. assert (Ev : val64 invert_bits = P - 2) by (vm_compute; reflexivity). rewrite Ev. generalize (gfp_num f ^ (P - 2)). intros x. unfold gfp_num. rewrite !eqm_mod, r3_val.
  change (val64 rN1) with Rinv. transitivity (x * (R * Rinv) * (R * Rinv) * (R * Rinv)); [apply eqm_eq; ring|]. rewrite !R_Rinv. apply eqm_eq. ring.
Qed.

(** The modulus is prime: an element that is not zero has an inverse. *)
Lemma gfP_Invert_inverse f : gfp_ok f -> gfp_num f <> 0 -> eqm P (gfp_num f * gfp_num (gfP_Invert f)) 1.
Proof.
  intros Hf Hn. destruct (gfP_Invert_spec f Hf) as [_ E]. rewrite E, <- Z.pow_succ_r by (pose proof P_bounds; lia). replace (Z.succ (P - 2)) with (P - 1) by lia. apply fermat; [apply P_prime|]. intros D. pose proof (gfp_num_range f). apply Z.divide_pos_le in D; lia.
Qed.
Lemma gfP_Invert_zero f : gfp_ok f -> gfp_num f = 0 -> gfp_num (gfP_Invert f) = 0.
Proof. intros Hf E. destruct (gfP_Invert_spec f Hf) as [_ Ei]. rewrite E, Z.pow_0_l in Ei by (pose proof P_bounds; lia). unfold eqm in Ei. rewrite Z.mod_0_l, Z.mod_small in Ei by (apply gfp_num_range || (pose proof P_bounds; lia)). done. Qed.

(** ** Bytes *)

Lemma word_bytes w : map (fun b => u8 (Z.shiftr w (56 - 8 * Z.of_nat b))) (seq 0 8) = be_bytes 8 w.
Proof. cbn [seq map be_bytes app]. rewrite !Z.shiftr_div_pow2 by lia. unfold u8. cbn. rewrite !Z.div_div by lia. rewrite ?Z.div_1_r. reflexivity. Qed.
Lemma words4 e : words_ok 4 e -> exists a b c d, e = [a; b; c; d] /\ u64_ok a /\ u64_ok b /\ u64_ok c /\ u64_ok d.
Proof. intros [Hl Hf]. destruct e as [|a [|b [|c [|d [|]]]]]; cbn in Hl; try lia. apply Forall_cons in Hf as [Ha Hf]. apply Forall_cons in Hf as [Hb Hf]. apply Forall_cons in Hf as [Hc Hf]. apply Forall_cons in Hf as [Hd _]. by exists a, b, c, d. Qed.
Lemma gfP_Marshal_spec e : words_ok 4 e -> gfP_Marshal e = be_bytes 32 (val64 e).
Proof.
  intros He. pose proof (words_bound 4 e He) as B. destruct (words4 e He) as (a & b & c & d & -> & Ha & Hb & Hc & Hd). assert (E : gfP_Marshal [a; b; c; d] = be_bytes 8 d ++ be_bytes 8 c ++ be_bytes 8 b ++ be_bytes 8 a).
  { rewrite <- !word_bytes. unfold gfP_Marshal. change (seq 0 4) with [0%nat; 1%nat; 2%nat; 3%nat]. cbn [map concat]. rewrite app_nil_r. reflexivity. }
  rewrite E. apply be_val_inj; [by rewrite !length_app, !be_bytes_length|do 3 (apply bytes_ok_app; split; [apply be_bytes_ok|]); apply be_bytes_ok|apply be_bytes_ok|]. rewrite !be_val_app, !be_val_be_bytes. unfold len. rewrite !length_app, !be_bytes_length. change (256 ^ Z.of_nat 8) with (2 ^ 64). fold (u64 a) (u64 b) (u64 c) (u64 d). rewrite !u64_small by done. change (256 ^ Z.of_nat 32) with (2 ^ (64 * Z.of_nat 4)). rewrite Z.mod_small by exact B. cbn. lia.
Qed.

Lemma unmarshal_word_spec n : forall inp w b word, bytes_ok inp -> (8 * w + b + n <= length inp)%nat -> (b + n <= 8)%nat -> u64_ok word ->
  unmarshal_word n inp w b word = Some (u64 (word + be_val (take n (drop (8 * w + b) inp)) * 256 ^ Z.of_nat (8 - b - n))).
Proof.
  induction n as [|n IH]; intros inp w b word Hi Hl Hb Hw; cbn [unmarshal_word]; [cbn [take]; change (be_val []) with 0; by rewrite Z.mul_0_l, Z.add_0_r, u64_small|].
  destruct (lookup_lt_is_Some_2 inp (8 * w + b)) as [x Hx]; [lia|]. rewrite Hx. cbn [mbind option_bind]. rewrite IH by (done || lia || apply u64_u64_ok). f_equal.
  assert (Ex : take (S n) (drop (8 * w + b) inp) = x :: take n (drop (8 * w + S b) inp)) by (rewrite (drop_S inp x _ Hx); cbn [take]; by replace (8 * w + S b)%nat with (S (8 * w + b)) by lia). rewrite Ex, be_val_cons. unfold len. rewrite length_take, length_drop, Nat.min_l by lia.
  replace (8 - S b - n)%nat with (8 - b - S n)%nat by lia. rewrite Z.shiftl_mul_pow2 by lia. assert (Ep : 2 ^ (56 - 8 * Z.of_nat b) = 256 ^ Z.of_nat n * 256 ^ Z.of_nat (8 - b - S n)) by (rewrite <- Z.pow_add_r by lia; change 256 with (2 ^ 8); rewrite <- Z.pow_mul_r by lia; f_equal; lia). rewrite Ep.
  unfold u64. rewrite Zplus_mod_idemp_r, Zplus_mod_idemp_l. f_equal. ring.
Qed.
Lemma below_modulus_spec e : words_ok 4 e -> below_modulus 4 e = if val64 e <? P then None else if val64 e =? P then Some ErrEqualsModulus else Some ErrExceedsModulus.
Proof.
  intros He. destruct (words4 e He) as (a & b & c & d & -> & Ha & Hb & Hc & Hd). rewrite <- p2_val. unfold u64_ok in *. cbn. change (18446744073709551616) with (2 ^ 64) in *.
  repeat match goal with |- context [?x <? ?y] => destruct (Z.ltb_spec x y) | |- context [?x =? ?y] => destruct (Z.eqb_spec x y) end; try reflexivity; lia.
Qed.
(** What Unmarshal does with an array that holds something. *)
Lemma unmarshal_words_spec e inp : words_ok 4 e -> bytes_ok inp -> (32 <= length inp)%nat -> exists e', unmarshal_words 4 inp 0 e = Some e' /\ words_ok 4 e' /\
  (val64 e + be_val (take 32 inp) < R -> Forall2 (fun x n => x + be_val (take 8 (drop n inp)) < 2 ^ 64) e [24%nat; 16%nat; 8%nat; 0%nat] -> val64 e' = val64 e + be_val (take 32 inp)).
Proof.
  intros He Hi Hl. destruct (words4 e He) as (a & b & c & d & -> & Ha & Hb & Hc & Hd). set (x := fun n => be_val (take 8 (drop n inp))).
  assert (Hx : forall w word, (w < 4)%nat -> u64_ok word -> unmarshal_word 8 inp w 0 word = Some (u64 (word + x (8 * w)%nat))) by (intros w word Hw Hok; rewrite unmarshal_word_spec by (done || lia); unfold x; by rewrite Nat.add_0_r, Z.mul_1_r).
  exists [u64 (a + x 24%nat); u64 (b + x 16%nat); u64 (c + x 8%nat); u64 (d + x 0%nat)]. split_and!.
  - cbn [unmarshal_words]. change ([a; b; c; d] !!! (3 - 0)%nat) with d. rewrite (Hx 0%nat) by (done || lia). cbn -[u64 unmarshal_word x]. rewrite (Hx 1%nat) by (done || lia). cbn -[u64 unmarshal_word x]. rewrite (Hx 2%nat) by (done || lia). cbn -[u64 unmarshal_word x]. rewrite (Hx 3%nat) by (done || lia). reflexivity.
  - split; [done|]. repeat (constructor; [apply u64_u64_ok|]). constructor.
  - intros _ Hf. fold (x 24%nat) in Hf. rewrite !Forall2_cons in Hf. destruct Hf as (F1 & F2 & F3 & F4 & _). change (a + x 24%nat < 2 ^ 64) in F1. change (b + x 16%nat < 2 ^ 64) in F2. change (c + x 8%nat < 2 ^ 64) in F3. change (d + x 0%nat < 2 ^ 64) in F4.
    assert (Hx0 : forall n, 0 <= x n) by (intros n; apply be_val_bound; by apply bytes_ok_take, bytes_ok_drop). pose proof (Hx0 0%nat). pose proof (Hx0 8%nat). pose proof (Hx0 16%nat). pose proof (Hx0 24%nat). unfold u64_ok in *. rewrite !u64_small by (unfold u64_ok; lia).
    assert (Et : take 32 inp = take 8 (drop 0 inp) ++ take 8 (drop 8 inp) ++ take 8 (drop 16 inp) ++ take 8 (drop 24 inp)).
    { do 32 (destruct inp as [|? inp]; [cbn in Hl; lia|]). reflexivity. }
    rewrite Et, !be_val_app. unfold len. rewrite !length_app, !length_take, !length_drop. rewrite !Nat.min_l by lia. fold (x 0%nat) (x 8%nat) (x 16%nat) (x 24%nat). cbn. lia.
Qed.

Definition gfP_zero : words := [0; 0; 0; 0].
Lemma gfP_zero_ok : gfp_ok gfP_zero.
Proof. split; [split; [done|repeat constructor; done]|]. change (val64 gfP_zero) with 0. apply P_pos. Qed.
Lemma gfP_Unmarshal_zero inp : bytes_ok inp -> (32 <= length inp)%nat ->
  let v := be_val (take 32 inp) in
  if v <? P then exists e, gfP_Unmarshal gfP_zero inp = Ok e /\ gfp_ok e /\ val64 e = v
  else gfP_Unmarshal gfP_zero inp = Err (if v =? P then ErrEqualsModulus else ErrExceedsModulus).
Proof.
  intros Hi Hl. cbv zeta. destruct (unmarshal_words_spec gfP_zero inp (proj1 gfP_zero_ok) Hi Hl) as (e & E1 & He & E2). change (val64 gfP_zero) with 0 in E2. rewrite Z.add_0_l in E2.
  assert (Hb : forall n m, (n + m <= length inp)%nat -> 0 <= be_val (take n (drop m inp)) < 256 ^ Z.of_nat n) by (intros n m Hnm; pose proof (be_val_bound (take n (drop m inp)) (bytes_ok_take _ _ (bytes_ok_drop _ _ Hi))) as B; unfold len in B; by rewrite length_take, length_drop, Nat.min_l in B by lia).
  assert (E3 : val64 e = be_val (take 32 inp)).
  { apply E2; [exact (proj2 (Hb 32%nat 0%nat ltac:(lia)))|]. unfold gfP_zero. repeat constructor; rewrite Z.add_0_l; change (2 ^ 64) with (256 ^ Z.of_nat 8); apply Hb; lia. }
  unfold gfP_Unmarshal. rewrite E1, (below_modulus_spec e He), E3. destruct (Z.ltb_spec (be_val (take 32 inp)) P) as [Hlt|Hge]; [exists e; split; [done|]; split; [split; [done|lia]|done]|]. by destruct (be_val (take 32 inp) =? P).
Qed.

(** C37: The words implement the field.  On arrays below the modulus every operation
    of gfp_generic.go yields an array below the modulus, which stands for the sum,
    the difference, the product or the opposite of the numbers that the arguments
    stand for; equal arrays are equal numbers; Invert yields the inverse of every
    number but zero, of which it makes zero; and the conversions, to and from the
    numbers and from machine integers, are exact. *)
Theorem gfp_refines_field a b : gfp_ok a -> gfp_ok b ->
  (gfp_ok (gfpAdd a b) /\ gfp_num (gfpAdd a b) = (gfp_num a + gfp_num b) mod P) /\ (gfp_ok (gfpSub a b) /\ gfp_num (gfpSub a b) = (gfp_num a - gfp_num b) mod P) /\
  (gfp_ok (gfpMul a b) /\ gfp_num (gfpMul a b) = (gfp_num a * gfp_num b) mod P) /\ (gfp_ok (gfpNeg a) /\ gfp_num (gfpNeg a) = (- gfp_num a) mod P) /\
  (a = b <-> gfp_num a = gfp_num b) /\
  (gfp_ok (gfP_Invert a) /\ (gfp_num a <> 0 -> (gfp_num a * gfp_num (gfP_Invert a)) mod P = 1) /\ (gfp_num a = 0 -> gfp_num (gfP_Invert a) = 0)) /\
  (gfp_ok (montEncode a) /\ gfp_num (montEncode a) = val64 a /\ montDecode (montEncode a) = a /\ val64 (montDecode a) = gfp_num a /\ montEncode (montDecode a) = a) /\
  (forall x, - 2 ^ 63 <= x < 2 ^ 63 -> gfp_ok (newGFp x) /\ gfp_num (newGFp x) = x mod P).
Proof.
  intros Ha Hb. assert (Hred : forall c z, eqm P (gfp_num c) z -> gfp_num c = z mod P) by (intros c z E; unfold eqm in E; rewrite <- E; symmetry; apply Z.mod_small, gfp_num_range).
  destruct (montEncode_spec a Ha) as [He Ee]. destruct (montDecode_spec a Ha) as [Hd Ed]. destruct (montDecode_spec _ He) as [Hde Ede]. destruct (montEncode_spec _ Hd) as [Hed Eed]. assert (Ee' : gfp_num (montEncode a) = val64 a) by (rewrite (Hred _ _ Ee); apply Z.mod_small; by apply gfp_ok_bound). assert (Eed' : gfp_num (montEncode (montDecode a)) = gfp_num a) by (rewrite (Hred _ _ Eed), Ed; apply Z.mod_small, gfp_num_range).
  destruct (gfp_num_Add a b Ha Hb) as [A1 A2], (gfp_num_Sub a b Ha Hb) as [S1 S2], (gfp_num_Mul a b Ha Hb) as [M1 M2], (gfp_num_Neg a Ha) as [N1 N2], (gfP_Invert_spec a Ha) as [I1 _].
  split; [exact (conj A1 (Hred _ _ A2))|]. split; [exact (conj S1 (Hred _ _ S2))|]. split; [exact (conj M1 (Hred _ _ M2))|]. split; [exact (conj N1 (Hred _ _ N2))|]. split; [split; [by intros ->|exact (gfp_num_inj a b Ha Hb)]|]. split; [|split; [split_and!|]].
  - split; [exact I1|]. split; [|exact (gfP_Invert_zero a Ha)]. intros Hn. pose proof (gfP_Invert_inverse a Ha Hn) as E. unfold eqm in E. rewrite E. apply Z.mod_small. clear. pose proof P_bounds. lia.
  - exact He.
  - exact Ee'.
  - apply (val64_inj 4); [exact (proj1 Hde)|exact (proj1 Ha)|]. rewrite Ede. exact Ee'.
  - exact Ed.
  - exact (gfp_num_inj _ _ Hed Ha Eed').
  - intros x Hx. destruct (newGFp_spec x Hx) as [H1 H2]. exact (conj H1 (Hred _ _ H2)).
Qed.
Lemma gfp_refines_field_witness : gfp_num (gfpMul (newGFp 6) (gfP_Invert (newGFp 2))) = (gfp_num (newGFp 6) * gfp_num (gfP_Invert (newGFp 2))) mod P /\ (gfp_num (newGFp 2) * gfp_num (gfP_Invert (newGFp 2))) mod P = 1.
Proof.
  assert (H6 : gfp_ok (newGFp 6)) by exact (proj1 (newGFp_spec 6 ltac:(lia))). assert (H2 : gfp_ok (newGFp 2)) by exact (proj1 (newGFp_spec 2 ltac:(lia))).
  destruct (gfp_refines_field (newGFp 2) (newGFp 2) H2 H2) as (_ & _ & _ & _ & _ & (Hi & Hinv & _) & _). destruct (gfp_refines_field (newGFp 6) _ H6 Hi) as (_ & _ & (_ & Hm) & _). split; [exact Hm|]. apply Hinv. vm_compute. discriminate.
Defined.

(** C38: Bytes of elements.  Marshal writes the 32 bytes of the number below the
    modulus and Unmarshal, into an array of zeros, reads them back, whatever
    follows; it accepts the numbers below the modulus only and tells whether a
    number equals or exceeds it.  It adds to what the array holds, so that it reads
    wrong numbers into an array that is used again. *)
Theorem gfp_bytes :
  (forall e rest, gfp_ok e -> bytes_ok rest -> length (gfP_Marshal e) = 32%nat /\ gfP_Unmarshal gfP_zero (gfP_Marshal e ++ rest) = Ok e) /\
  (forall inp e, bytes_ok inp -> (32 <= length inp)%nat -> gfP_Unmarshal gfP_zero inp = Ok e -> gfp_ok e /\ gfP_Marshal e = take 32 inp) /\
  (forall inp, bytes_ok inp -> (32 <= length inp)%nat -> P <= be_val (take 32 inp) -> gfP_Unmarshal gfP_zero inp = Err (if be_val (take 32 inp) =? P then ErrEqualsModulus else ErrExceedsModulus)) /\
  gfP_Unmarshal [1; 0; 0; 0] (gfP_Marshal [1; 0; 0; 0]) = Ok [2; 0; 0; 0].
Proof.
  assert (HR : forall e, gfp_ok e -> 0 <= val64 e < 256 ^ Z.of_nat 32) by (intros e He; pose proof (gfp_ok_bound e He); pose proof P_bounds; change (256 ^ Z.of_nat 32) with (2 ^ 256); lia). split_and!.
  - intros e rest He Hr. rewrite gfP_Marshal_spec by apply He. split; [apply be_bytes_length|]. set (inp := be_bytes 32 (val64 e) ++ rest). assert (Ht : take 32 inp = be_bytes 32 (val64 e)) by (unfold inp; apply take_app_length'; symmetry; apply be_bytes_length).
    pose proof (gfP_Unmarshal_zero inp ltac:(apply bytes_ok_app; split; [apply be_bytes_ok|done]) ltac:(unfold inp; rewrite length_app, be_bytes_length; lia)) as H. rewrite Ht, be_val_be_bytes, Z.mod_small in H by (by apply HR). cbv zeta in H. pose proof (gfp_ok_bound e He). destruct (Z.ltb_spec (val64 e) P); [|lia]. destruct H as (e' & -> & He' & Ev). f_equal. by apply (val64_inj 4); [apply He'|apply He|].
  - intros inp e Hi Hl E. pose proof (gfP_Unmarshal_zero inp Hi Hl) as H. cbv zeta in H. destruct (Z.ltb_spec (be_val (take 32 inp)) P); [|congruence]. destruct H as (e' & E' & He' & Ev). assert (e' = e) as -> by congruence. split; [done|]. rewrite gfP_Marshal_spec, Ev by apply He'. replace 32%nat with (length (take 32 inp)) at 1 by (rewrite length_take; lia). apply be_bytes_be_val. by apply bytes_ok_take.
  - intros inp Hi Hl Hge. pose proof (gfP_Unmarshal_zero inp Hi Hl) as H. cbv zeta in H. destruct (Z.ltb_spec (be_val (take 32 inp)) P); [lia|done].
  - vm_compute. reflexivity.
Qed.
