(* ===== verification/CfField.v ===== *)
(** * Package crypto/bn256/cloudflare: the tower of fields

    gfp2.go, gfp6.go and gfp12.go over the words of Gfp.v.  The names are those of the
    package crypto/bn256/google with a prefix, since the two packages declare the
    same types: every operation here represents what the operation of that package
    computes with integers. *)

From stdpp Require Import list.
From Stdlib Require Import Ring Setoid Morphisms Znumtheory.
From S2P Require Import Prelude Modular Bn256Field Primality Gfp.

#[local] Abbreviation gfP := (list Z) (only parsing).
#[export] Instance words_eq_dec : EqDecision (list Z) := _.

(** ** gfp2.go *)

(** x i + y *)
Record cf_gfP2 : Type := CfGFp2 { u2 : gfP; v2 : gfP }.

Definition gfP2Decode (a : cf_gfP2) : cf_gfP2 := CfGFp2 (montDecode (u2 a)) (montDecode (v2 a)).
Definition cf_gfP2_SetZero : cf_gfP2 := CfGFp2 gfP_zero gfP_zero.
Definition cf_gfP2_SetOne : cf_gfP2 := CfGFp2 gfP_zero (newGFp 1).
Definition cf_gfP2_IsZero (e : cf_gfP2) : bool := bool_decide (u2 e = gfP_zero) && bool_decide (v2 e = gfP_zero).
Definition cf_gfP2_IsOne (e : cf_gfP2) : bool := bool_decide (u2 e = gfP_zero) && bool_decide (v2 e = newGFp 1).
Definition cf_gfP2_Conjugate (a : cf_gfP2) : cf_gfP2 := CfGFp2 (gfpNeg (u2 a)) (v2 a).
Definition cf_gfP2_Neg (a : cf_gfP2) : cf_gfP2 := CfGFp2 (gfpNeg (u2 a)) (gfpNeg (v2 a)).
Definition cf_gfP2_Add (a b : cf_gfP2) : cf_gfP2 := CfGFp2 (gfpAdd (u2 a) (u2 b)) (gfpAdd (v2 a) (v2 b)).
Definition cf_gfP2_Sub (a b : cf_gfP2) : cf_gfP2 := CfGFp2 (gfpSub (u2 a) (u2 b)) (gfpSub (v2 a) (v2 b)).

Definition cf_gfP2_Mul (a b : cf_gfP2) : cf_gfP2 :=
  let tx := gfpMul (u2 a) (v2 b) in
  let t := gfpMul (u2 b) (v2 a) in
  let tx := gfpAdd tx t in
  let ty := gfpMul (v2 a) (v2 b) in
  let t := gfpMul (u2 a) (u2 b) in
  let ty := gfpSub ty t in
  CfGFp2 tx ty.

Definition cf_gfP2_MulScalar (a : cf_gfP2) (b : gfP) : cf_gfP2 := CfGFp2 (gfpMul (u2 a) b) (gfpMul (v2 a) b).

Definition cf_gfP2_MulXi (a : cf_gfP2) : cf_gfP2 :=
  let tx := gfpAdd (u2 a) (u2 a) in
  let tx := gfpAdd tx tx in
  let tx := gfpAdd tx tx in
  let tx := gfpAdd tx (u2 a) in
  let tx := gfpAdd tx (v2 a) in
  let ty := gfpAdd (v2 a) (v2 a) in
  let ty := gfpAdd ty ty in
  let ty := gfpAdd ty ty in
  let ty := gfpAdd ty (v2 a) in
  let ty := gfpSub ty (u2 a) in
  CfGFp2 tx ty.

Definition cf_gfP2_Square (a : cf_gfP2) : cf_gfP2 :=
  let tx := gfpSub (v2 a) (u2 a) in
  let ty := gfpAdd (u2 a) (v2 a) in
  let ty := gfpMul tx ty in
  let tx := gfpMul (u2 a) (v2 a) in
  let tx := gfpAdd tx tx in
  CfGFp2 tx ty.

Definition cf_gfP2_Invert (a : cf_gfP2) : cf_gfP2 :=
  let t1 := gfpMul (u2 a) (u2 a) in
  let t2 := gfpMul (v2 a) (v2 a) in
  let t1 := gfpAdd t1 t2 in
  let inv := gfP_Invert t1 in
  let t1 := gfpNeg (u2 a) in
  CfGFp2 (gfpMul t1 inv) (gfpMul (v2 a) inv).

(** ** The constants of constants.go *)

Definition cf_xiToPMinus1Over6 : cf_gfP2 := CfGFp2 [0xa222ae234c492d72; 0xd00f02a4565de15b; 0xdc2ff3a253dfc926; 0x10a75716b3899551] [0xaf9ba69633144907; 0xca6b1d7387afb78a; 0x11bded5ef08a2087; 0x02f34d751a1f3a7c].
Definition cf_xiToPMinus1Over3 : cf_gfP2 := CfGFp2 [0x6e849f1ea0aa4757; 0xaa1c7b6d89f89141; 0xb6e713cdfae0ca3a; 0x26694fbb4e82ebc3] [0xb5773b104563ab30; 0x347f91c8a9aa6454; 0x7a007127242e0991; 0x1956bcd8118214ec].
Definition cf_xiToPMinus1Over2 : cf_gfP2 := CfGFp2 [0xa1d77ce45ffe77c7; 0x07affd117826d1db; 0x6d16bd27bb7edc6b; 0x2c87200285defecc] [0xe4bbdd0c2936b629; 0xbb30f162e133bacb; 0x31a9d1b6f9645366; 0x253570bea500f8dd].
Definition cf_xiToPSquaredMinus1Over3 : gfP := [0x3350c88e13e80b9c; 0x7dce557cdb5e56b9; 0x6001b4b8b615564a; 0x2682e617020217e0].
Definition cf_xiTo2PSquaredMinus2Over3 : gfP := [0x71930c11d782e155; 0xa6bb947cffbe3323; 0xaa303344d4741444; 0x2c3b3f0d26594943].
Definition cf_xiToPSquaredMinus1Over6 : gfP := [0xca8d800500fa1bf2; 0xf0c5d61468b39769; 0x0e201271ad0d4418; 0x04290f65bad856e6].
Definition cf_xiTo2PMinus2Over3 : cf_gfP2 := CfGFp2 [0x5dddfd154bd8c949; 0x62cb29a5a4445b60; 0x37bc870a0c7dd2b9; 0x24830a9d3171f0fd] [0x7361d77f843abe92; 0xa5bb2bd3273411fb; 0x9c941f314b3e2399; 0x15df9cddbb9fd3ec].

(** ** gfp6.go *)

(** x t^2 + y t + z *)
Record cf_gfP6 : Type := CfGFp6 { u6 : cf_gfP2; v6 : cf_gfP2; w6 : cf_gfP2 }.

Definition cf_gfP6_SetZero : cf_gfP6 := CfGFp6 cf_gfP2_SetZero cf_gfP2_SetZero cf_gfP2_SetZero.
Definition cf_gfP6_SetOne : cf_gfP6 := CfGFp6 cf_gfP2_SetZero cf_gfP2_SetZero cf_gfP2_SetOne.
Definition cf_gfP6_IsZero (e : cf_gfP6) : bool := cf_gfP2_IsZero (u6 e) && cf_gfP2_IsZero (v6 e) && cf_gfP2_IsZero (w6 e).
Definition cf_gfP6_IsOne (e : cf_gfP6) : bool := cf_gfP2_IsZero (u6 e) && cf_gfP2_IsZero (v6 e) && cf_gfP2_IsOne (w6 e).
Definition cf_gfP6_Neg (a : cf_gfP6) : cf_gfP6 := CfGFp6 (cf_gfP2_Neg (u6 a)) (cf_gfP2_Neg (v6 a)) (cf_gfP2_Neg (w6 a)).
Definition cf_gfP6_Frobenius (a : cf_gfP6) : cf_gfP6 :=
  CfGFp6 (cf_gfP2_Mul (cf_gfP2_Conjugate (u6 a)) cf_xiTo2PMinus2Over3) (cf_gfP2_Mul (cf_gfP2_Conjugate (v6 a)) cf_xiToPMinus1Over3) (cf_gfP2_Conjugate (w6 a)).
Definition cf_gfP6_FrobeniusP2 (a : cf_gfP6) : cf_gfP6 :=
  CfGFp6 (cf_gfP2_MulScalar (u6 a) cf_xiTo2PSquaredMinus2Over3) (cf_gfP2_MulScalar (v6 a) cf_xiToPSquaredMinus1Over3) (w6 a).
Definition cf_gfP6_FrobeniusP4 (a : cf_gfP6) : cf_gfP6 :=
  CfGFp6 (cf_gfP2_MulScalar (u6 a) cf_xiToPSquaredMinus1Over3) (cf_gfP2_MulScalar (v6 a) cf_xiTo2PSquaredMinus2Over3) (w6 a).
Definition cf_gfP6_Add (a b : cf_gfP6) : cf_gfP6 := CfGFp6 (cf_gfP2_Add (u6 a) (u6 b)) (cf_gfP2_Add (v6 a) (v6 b)) (cf_gfP2_Add (w6 a) (w6 b)).
Definition cf_gfP6_Sub (a b : cf_gfP6) : cf_gfP6 := CfGFp6 (cf_gfP2_Sub (u6 a) (u6 b)) (cf_gfP2_Sub (v6 a) (v6 b)) (cf_gfP2_Sub (w6 a) (w6 b)).

Definition cf_gfP6_Mul (a b : cf_gfP6) : cf_gfP6 :=
  let v0 := cf_gfP2_Mul (w6 a) (w6 b) in
  let v1 := cf_gfP2_Mul (v6 a) (v6 b) in
  let v2 := cf_gfP2_Mul (u6 a) (u6 b) in
  let t0 := cf_gfP2_Add (u6 a) (v6 a) in
  let t1 := cf_gfP2_Add (u6 b) (v6 b) in
  let tz := cf_gfP2_Mul t0 t1 in
  let tz := cf_gfP2_Add (cf_gfP2_MulXi (cf_gfP2_Sub (cf_gfP2_Sub tz v1) v2)) v0 in
  let t0 := cf_gfP2_Add (v6 a) (w6 a) in
  let t1 := cf_gfP2_Add (v6 b) (w6 b) in
  let ty := cf_gfP2_Mul t0 t1 in
  let t0 := cf_gfP2_MulXi v2 in
  let ty := cf_gfP2_Add (cf_gfP2_Sub (cf_gfP2_Sub ty v0) v1) t0 in
  let t0 := cf_gfP2_Add (u6 a) (w6 a) in
  let t1 := cf_gfP2_Add (u6 b) (w6 b) in
  let tx := cf_gfP2_Mul t0 t1 in
  let tx := cf_gfP2_Sub (cf_gfP2_Add (cf_gfP2_Sub tx v0) v1) v2 in
  CfGFp6 tx ty tz.

Definition cf_gfP6_MulScalar (a : cf_gfP6) (b : cf_gfP2) : cf_gfP6 := CfGFp6 (cf_gfP2_Mul (u6 a) b) (cf_gfP2_Mul (v6 a) b) (cf_gfP2_Mul (w6 a) b).
Definition cf_gfP6_MulGFP (a : cf_gfP6) (b : gfP) : cf_gfP6 := CfGFp6 (cf_gfP2_MulScalar (u6 a) b) (cf_gfP2_MulScalar (v6 a) b) (cf_gfP2_MulScalar (w6 a) b).
Definition cf_gfP6_MulTau (a : cf_gfP6) : cf_gfP6 := CfGFp6 (v6 a) (w6 a) (cf_gfP2_MulXi (u6 a)).

Definition cf_gfP6_Square (a : cf_gfP6) : cf_gfP6 :=
  let v0 := cf_gfP2_Square (w6 a) in
  let v1 := cf_gfP2_Square (v6 a) in
  let v2 := cf_gfP2_Square (u6 a) in
  let c0 := cf_gfP2_Add (u6 a) (v6 a) in
  let c0 := cf_gfP2_Add (cf_gfP2_MulXi (cf_gfP2_Sub (cf_gfP2_Sub (cf_gfP2_Square c0) v1) v2)) v0 in
  let c1 := cf_gfP2_Add (v6 a) (w6 a) in
  let c1 := cf_gfP2_Sub (cf_gfP2_Sub (cf_gfP2_Square c1) v0) v1 in
  let xiV2 := cf_gfP2_MulXi v2 in
  let c1 := cf_gfP2_Add c1 xiV2 in
  let c2 := cf_gfP2_Add (u6 a) (w6 a) in
  let c2 := cf_gfP2_Sub (cf_gfP2_Add (cf_gfP2_Sub (cf_gfP2_Square c2) v0) v1) v2 in
  CfGFp6 c2 c1 c0.

Definition cf_gfP6_Invert (a : cf_gfP6) : cf_gfP6 :=
  let t1 := cf_gfP2_MulXi (cf_gfP2_Mul (u6 a) (v6 a)) in
  let A := cf_gfP2_Sub (cf_gfP2_Square (w6 a)) t1 in
  let B := cf_gfP2_MulXi (cf_gfP2_Square (u6 a)) in
  let t1 := cf_gfP2_Mul (v6 a) (w6 a) in
  let B := cf_gfP2_Sub B t1 in
  let C_ := cf_gfP2_Square (v6 a) in
  let t1 := cf_gfP2_Mul (u6 a) (w6 a) in
  let C_ := cf_gfP2_Sub C_ t1 in
  let F := cf_gfP2_MulXi (cf_gfP2_Mul C_ (v6 a)) in
  let t1 := cf_gfP2_Mul A (w6 a) in
  let F := cf_gfP2_Add F t1 in
  let t1 := cf_gfP2_MulXi (cf_gfP2_Mul B (u6 a)) in
  let F := cf_gfP2_Add F t1 in
  let F := cf_gfP2_Invert F in
  CfGFp6 (cf_gfP2_Mul C_ F) (cf_gfP2_Mul B F) (cf_gfP2_Mul A F).

(** ** gfp12.go *)

(** x w + y *)
Record cf_gfP12 : Type := CfGFp12 { u12 : cf_gfP6; v12 : cf_gfP6 }.

Definition cf_gfP12_SetZero : cf_gfP12 := CfGFp12 cf_gfP6_SetZero cf_gfP6_SetZero.
Definition cf_gfP12_SetOne : cf_gfP12 := CfGFp12 cf_gfP6_SetZero cf_gfP6_SetOne.
Definition cf_gfP12_IsZero (e : cf_gfP12) : bool := cf_gfP6_IsZero (u12 e) && cf_gfP6_IsZero (v12 e).
Definition cf_gfP12_IsOne (e : cf_gfP12) : bool := cf_gfP6_IsZero (u12 e) && cf_gfP6_IsOne (v12 e).
Definition cf_gfP12_Conjugate (a : cf_gfP12) : cf_gfP12 := CfGFp12 (cf_gfP6_Neg (u12 a)) (v12 a).
Definition cf_gfP12_Neg (a : cf_gfP12) : cf_gfP12 := CfGFp12 (cf_gfP6_Neg (u12 a)) (cf_gfP6_Neg (v12 a)).
Definition cf_gfP12_Frobenius (a : cf_gfP12) : cf_gfP12 := CfGFp12 (cf_gfP6_MulScalar (cf_gfP6_Frobenius (u12 a)) cf_xiToPMinus1Over6) (cf_gfP6_Frobenius (v12 a)).
Definition cf_gfP12_FrobeniusP2 (a : cf_gfP12) : cf_gfP12 := CfGFp12 (cf_gfP6_MulGFP (cf_gfP6_FrobeniusP2 (u12 a)) cf_xiToPSquaredMinus1Over6) (cf_gfP6_FrobeniusP2 (v12 a)).
Definition cf_gfP12_FrobeniusP4 (a : cf_gfP12) : cf_gfP12 := CfGFp12 (cf_gfP6_MulGFP (cf_gfP6_FrobeniusP4 (u12 a)) cf_xiToPSquaredMinus1Over3) (cf_gfP6_FrobeniusP4 (v12 a)).
Definition cf_gfP12_Add (a b : cf_gfP12) : cf_gfP12 := CfGFp12 (cf_gfP6_Add (u12 a) (u12 b)) (cf_gfP6_Add (v12 a) (v12 b)).
Definition cf_gfP12_Sub (a b : cf_gfP12) : cf_gfP12 := CfGFp12 (cf_gfP6_Sub (u12 a) (u12 b)) (cf_gfP6_Sub (v12 a) (v12 b)).

Definition cf_gfP12_Mul (a b : cf_gfP12) : cf_gfP12 :=
  let tx := cf_gfP6_Mul (u12 a) (v12 b) in
  let t := cf_gfP6_Mul (u12 b) (v12 a) in
  let tx := cf_gfP6_Add tx t in
  let ty := cf_gfP6_Mul (v12 a) (v12 b) in
  let t := cf_gfP6_MulTau (cf_gfP6_Mul (u12 a) (u12 b)) in
  CfGFp12 tx (cf_gfP6_Add ty t).

(** MulScalar multiplies its receiver, and not [a]. *)
Definition cf_gfP12_MulScalar (e a : cf_gfP12) (b : cf_gfP6) : cf_gfP12 := CfGFp12 (cf_gfP6_Mul (u12 e) b) (cf_gfP6_Mul (v12 e) b).

Definition cf_gfP12_Square (a : cf_gfP12) : cf_gfP12 :=
  let v0 := cf_gfP6_Mul (u12 a) (v12 a) in
  let t := cf_gfP6_MulTau (u12 a) in
  let t := cf_gfP6_Add (v12 a) t in
  let ty := cf_gfP6_Add (u12 a) (v12 a) in
  let ty := cf_gfP6_Sub (cf_gfP6_Mul ty t) v0 in
  let t := cf_gfP6_MulTau v0 in
  let ty := cf_gfP6_Sub ty t in
  CfGFp12 (cf_gfP6_Add v0 v0) ty.

Fixpoint cf_gfP12_exp (a : cf_gfP12) (power : Z) (i : nat) (sum : cf_gfP12) : cf_gfP12 :=
  match i with
  | O => sum
  | S i =>
      let t := cf_gfP12_Square sum in
      cf_gfP12_exp a power i (if Z.testbit power (Z.of_nat i) then cf_gfP12_Mul t a else t)
  end.
Definition cf_gfP12_Exp (a : cf_gfP12) (power : Z) : cf_gfP12 := cf_gfP12_exp a power (Z.to_nat (bit_len power)) cf_gfP12_SetOne.

Definition cf_gfP12_Invert (a : cf_gfP12) : cf_gfP12 :=
  let t1 := cf_gfP6_Square (u12 a) in
  let t2 := cf_gfP6_Square (v12 a) in
  let t1 := cf_gfP6_Sub t2 (cf_gfP6_MulTau t1) in
  let t2 := cf_gfP6_Invert t1 in
  let e := CfGFp12 (cf_gfP6_Neg (u12 a)) (v12 a) in
  cf_gfP12_MulScalar e e t2.

(** ** Representation *)

#[local] Opaque P gfpAdd gfpSub gfpMul gfpNeg gfP_Invert newGFp gfp_num.
Create HintDb rep.

(** An array stands for an integer up to congruence. *)
Definition rep1 (a : gfP) (z : Z) : Prop := gfp_ok a /\ eqm P (gfp_num a) z.
Lemma rep1_eqm a z z' : rep1 a z -> eqm P z z' -> rep1 a z'.
Proof. intros [H1 H2] E. split; [exact H1|]. by rewrite H2. Qed.
Lemma rep1_Add a b x y : rep1 a x -> rep1 b y -> rep1 (gfpAdd a b) (x + y).
Proof. intros [Ha Ea] [Hb Eb]. destruct (gfp_num_Add a b Ha Hb) as [H E]. split; [exact H|]. by rewrite E, Ea, Eb. Qed.
Lemma rep1_Sub a b x y : rep1 a x -> rep1 b y -> rep1 (gfpSub a b) (x - y).
Proof. intros [Ha Ea] [Hb Eb]. destruct (gfp_num_Sub a b Ha Hb) as [H E]. split; [exact H|]. by rewrite E, Ea, Eb. Qed.
Lemma rep1_Mul a b x y : rep1 a x -> rep1 b y -> rep1 (gfpMul a b) (x * y).
Proof. intros [Ha Ea] [Hb Eb]. destruct (gfp_num_Mul a b Ha Hb) as [H E]. split; [exact H|]. by rewrite E, Ea, Eb. Qed.
Lemma rep1_Neg a x : rep1 a x -> rep1 (gfpNeg a) (- x).
Proof. intros [Ha Ea]. destruct (gfp_num_Neg a Ha) as [H E]. split; [exact H|]. by rewrite E, Ea. Qed.
Lemma rep1_new x : - 2 ^ 63 <= x < 2 ^ 63 -> rep1 (newGFp x) x.
Proof. intros Hx. destruct (newGFp_spec x Hx) as [H E]. by split. Qed.
Lemma rep1_zero : rep1 gfP_zero 0.
Proof. split; [apply gfP_zero_ok|]. Transparent gfp_num. unfold gfp_num. rewrite eqm_mod. done. Opaque gfp_num. Qed.
Lemma rep1_Invert a x i : rep1 a x -> eqm P (x * i) 1 -> rep1 (gfP_Invert a) i.
Proof.
  intros [Ha Ea] Hi. destruct (gfP_Invert_spec a Ha) as [H _]. split; [exact H|]. assert (Hn : gfp_num a <> 0).
  { intros E0. rewrite E0 in Ea. rewrite <- Ea, Z.mul_0_l in Hi. unfold eqm in Hi. pose proof P_bounds. rewrite Zmod_0_l, Z.mod_small in Hi by lia. done. }
  apply (eqm_cancel P _ _ (gfp_num a) i); [by rewrite Ea|]. rewrite (Z.mul_comm _ (gfp_num a)), (gfP_Invert_inverse a Ha Hn), Ea, Z.mul_comm. symmetry. exact Hi.
Qed.
(** Arrays are compared in order to compare what they stand for. *)
Lemma rep1_inj a b x y : rep1 a x -> rep1 b y -> a = b <-> eqm P x y.
Proof.
  intros [Ha Ea] [Hb Eb]. split; [intros ->; by rewrite <- Ea, <- Eb|]. intros E. apply gfp_num_inj; [exact Ha|exact Hb|]. assert (Em : eqm P (gfp_num a) (gfp_num b)) by (by rewrite Ea, E, Eb). unfold eqm in Em. rewrite !Z.mod_small in Em by apply gfp_num_range. done.
Qed.
Lemma rep1_num a : gfp_ok a -> rep1 a (gfp_num a).
Proof. intros H. by split. Qed.
Lemma rep1_dec a x : words_ok 4 a -> (val64 a <? P) && ((val64 a * Rinv - x) mod P =? 0) = true -> rep1 a x.
Proof.
  intros Ha H. apply andb_true_iff in H as [H1%Z.ltb_lt H2%Z.eqb_eq]. split; [by split|]. Transparent gfp_num. unfold gfp_num. Opaque gfp_num. rewrite eqm_mod. apply (proj2 (eqm_zero _ _)) in H2. transitivity (val64 a * Rinv - x + x); [apply eqm_eq; ring|]. rewrite H2. done.
Qed.
#[export] Hint Resolve rep1_Add rep1_Sub rep1_Mul rep1_Neg rep1_zero : rep.

Definition rep2 (a : cf_gfP2) (g : gfP2) : Prop := rep1 (u2 a) (x2 g) /\ rep1 (v2 a) (y2 g).
Lemma rep2_eq a g g' : rep2 a g -> eq2 g g' -> rep2 a g'.
Proof. intros [H1 H2] [E1 E2]. split; by eapply rep1_eqm. Qed.
(** The integers of a pair are those of the operation up to congruence. *)
Ltac rep_ring := match goal with |- eqm _ _ _ => rewrite ?eqm_mod, ?Z.shiftl_mul_pow2 by lia; apply eqm_eq; ring end.
Ltac rep_components := intros; repeat match goal with H : rep2 _ _ |- _ => destruct H end; split; cbn [u2 v2 x2 y2 cf_gfP2_Conjugate gfP2_Conjugate cf_gfP2_Neg gfP2_Negative cf_gfP2_Add gfP2_Add cf_gfP2_Sub gfP2_Sub cf_gfP2_MulScalar gfP2_MulScalar]; (eapply rep1_eqm; [eauto 20 with rep|rep_ring]).

Lemma rep2_zero : rep2 cf_gfP2_SetZero gfP2_SetZero.
Proof. split; apply rep1_zero. Qed.
Lemma rep2_one : rep2 cf_gfP2_SetOne gfP2_SetOne.
Proof. split; [apply rep1_zero|exact (rep1_new 1 ltac:(lia))]. Qed.
Lemma rep2_Conjugate a g : rep2 a g -> rep2 (cf_gfP2_Conjugate a) (gfP2_Conjugate g).
Proof. rep_components. Qed.
Lemma rep2_Neg a g : rep2 a g -> rep2 (cf_gfP2_Neg a) (gfP2_Negative g).
Proof. rep_components. Qed.
Lemma rep2_Add a b g h : rep2 a g -> rep2 b h -> rep2 (cf_gfP2_Add a b) (gfP2_Add g h).
Proof. rep_components. Qed.
Lemma rep2_Sub a b g h : rep2 a g -> rep2 b h -> rep2 (cf_gfP2_Sub a b) (gfP2_Sub g h).
Proof. rep_components. Qed.
Lemma rep2_Mul a b g h : rep2 a g -> rep2 b h -> rep2 (cf_gfP2_Mul a b) (gfP2_Mul g h).
Proof. unfold cf_gfP2_Mul, gfP2_Mul. rep_components. Qed.
Lemma rep2_MulScalar a b g z : rep2 a g -> rep1 b z -> rep2 (cf_gfP2_MulScalar a b) (gfP2_MulScalar g z).
Proof. rep_components. Qed.
Lemma rep2_MulXi a g : rep2 a g -> rep2 (cf_gfP2_MulXi a) (gfP2_MulXi g).
Proof. unfold cf_gfP2_MulXi, gfP2_MulXi. rep_components. Qed.
Lemma rep2_Square a g : rep2 a g -> rep2 (cf_gfP2_Square a) (gfP2_Square g).
Proof. unfold cf_gfP2_Square, gfP2_Square. rep_components. Qed.
Lemma rep2_Double a g : rep2 a g -> rep2 (cf_gfP2_Add a a) (gfP2_Double g).
Proof. intros H. eapply rep2_eq; [by apply rep2_Add|]. by rewrite gfP2_Double_Add. Qed.
Lemma rep2_IsZero a g : rep2 a g -> cf_gfP2_IsZero a = true <-> eq2 g gfP2_SetZero.
Proof. intros [H1 H2]. unfold cf_gfP2_IsZero. rewrite andb_true_iff, !bool_decide_eq_true, (rep1_inj _ _ _ _ H1 rep1_zero), (rep1_inj _ _ _ _ H2 rep1_zero). done. Qed.
Lemma rep2_IsOne a g : rep2 a g -> cf_gfP2_IsOne a = true <-> eq2 g gfP2_SetOne.
Proof. intros [H1 H2]. unfold cf_gfP2_IsOne. rewrite andb_true_iff, !bool_decide_eq_true, (rep1_inj _ _ _ _ H1 rep1_zero), (rep1_inj _ _ _ _ H2 (rep1_new 1 ltac:(lia))). done. Qed.
Lemma rep2_Invert a g h : rep2 a g -> gfP2_Invert g = Some h -> rep2 (cf_gfP2_Invert a) h.
Proof.
  intros [H1 H2]. unfold gfP2_Invert. set (t := y2 g * y2 g + x2 g * x2 g). destruct (ModInverse t P) as [i|] eqn:E; [|done]. cbn. intros [= <-]. destruct (ModInverse_correct t P i P_pos E) as [Hi _].
  assert (Hinv : rep1 (gfP_Invert (gfpAdd (gfpMul (u2 a) (u2 a)) (gfpMul (v2 a) (v2 a)))) i) by (eapply rep1_Invert; [eauto with rep|]; rewrite <- Hi; apply eqm_eq; unfold t; ring).
  unfold cf_gfP2_Invert. cbv zeta. set (inv := gfP_Invert _) in *. clearbody inv. split; cbn [u2 v2 x2 y2]; (eapply rep1_eqm; [|symmetry; apply eqm_mod]); apply rep1_Mul; auto with rep.
Qed.
(** -1 is not a square modulo P, so that all elements but zero have an inverse. *)
Lemma sum_of_squares x y : eqm P (x * x + y * y) 0 -> eqm P x 0 /\ eqm P y 0.
Proof.
  intros H. pose proof P_bounds as HP. assert (Hmain : forall x y, eqm P (x * x + y * y) 0 -> eqm P y 0).
  { clear x y H. intros x y H. destruct (Z.eq_dec (y mod P) 0) as [E|E]; [by apply (proj2 (eqm_zero _ _))|]. exfalso.
    assert (Hy : ~ (P | y)) by (intros D; apply E; by apply Z.mod_divide; [lia|]). set (k := (P - 1) / 2). assert (Hk : P - 1 = 2 * k /\ Z.odd k = true) by (unfold k; vm_compute; split; reflexivity). destruct Hk as [Hk Hodd].
    assert (Hx : ~ (P | x)). { intros [m Hm]. apply Hy. assert (D : (P | y * y)). { apply eqm_divide in H; [|lia]. rewrite Z.sub_0_r in H. destruct H as [q Hq]. exists (q - m * x). rewrite Hm in Hq at 1. lia. } by destruct (prime_mult P P_prime y y D). }
    pose proof (fermat P x P_prime Hx) as Fx. pose proof (fermat P y P_prime Hy) as Fy. rewrite Hk, Z.pow_mul_r, Z.pow_2_r in Fx, Fy by lia.
    assert (Ex : eqm P (x * x) (- (y * y))) by (transitivity (x * x + y * y - y * y); [apply eqm_eq; ring|]; rewrite H; apply eqm_eq; ring). rewrite (eqm_power P _ _ k Ex), Z.pow_opp_odd, Fy in Fx by (by apply Z.odd_spec). apply eqm_divide in Fx; [|lia]. apply Z.divide_opp_r in Fx. apply Z.divide_pos_le in Fx; lia. }
  split; [apply (Hmain y x); by rewrite Z.add_comm|by apply (Hmain x y)].
Qed.
Lemma gfP2_Invert_total g : ~ eq2 g gfP2_SetZero -> is_Some (gfP2_Invert g).
Proof.
  intros Hn. unfold gfP2_Invert. set (t := y2 g * y2 g + x2 g * x2 g). destruct (ModInverse_complete t P P_pos) as [i ->]; [|by eexists]. assert (Hd : ~ (P | t)).
  { intros D. apply Hn. assert (E : eqm P (x2 g * x2 g + y2 g * y2 g) 0) by (apply eqm_divide; [apply P_pos|]; rewrite Z.sub_0_r, Z.add_comm; exact D). exact (sum_of_squares _ _ E). }
  apply Zgcd_1_rel_prime. apply rel_prime_sym. by apply prime_rel_prime; [apply P_prime|].
Qed.
Lemma cf_gfP2_Invert_inverse a g : rep2 a g -> ~ eq2 g gfP2_SetZero -> exists h, rep2 (cf_gfP2_Invert a) h /\ eq2 (gfP2_Mul g h) gfP2_SetOne.
Proof. intros Ha Hn. destruct (gfP2_Invert_total g Hn) as [h Hh]. exists h. split; [by eapply rep2_Invert|by apply gfP2_Invert_correct]. Qed.
Lemma rep2_num a : gfp_ok (u2 a) -> gfp_ok (v2 a) -> rep2 a (GFp2 (gfp_num (u2 a)) (gfp_num (v2 a))).
Proof. intros H1 H2. split; by apply rep1_num. Qed.

(** The constants are those of the other package. *)
Ltac rep_constant := apply rep1_dec; [split; [reflexivity|repeat (constructor; [done|]); constructor]|vm_compute; reflexivity].
Lemma rep_xiToPMinus1Over6 : rep2 cf_xiToPMinus1Over6 xiToPMinus1Over6.
Proof. split; rep_constant. Qed.
Lemma rep_xiToPMinus1Over3 : rep2 cf_xiToPMinus1Over3 xiToPMinus1Over3.
Proof. split; rep_constant. Qed.
Lemma rep_xiToPMinus1Over2 : rep2 cf_xiToPMinus1Over2 xiToPMinus1Over2.
Proof. split; rep_constant. Qed.
Lemma rep_xiTo2PMinus2Over3 : rep2 cf_xiTo2PMinus2Over3 xiTo2PMinus2Over3.
Proof. split; rep_constant. Qed.
Lemma rep_xiToPSquaredMinus1Over3 : rep1 cf_xiToPSquaredMinus1Over3 xiToPSquaredMinus1Over3.
Proof. rep_constant. Qed.
Lemma rep_xiTo2PSquaredMinus2Over3 : rep1 cf_xiTo2PSquaredMinus2Over3 xiTo2PSquaredMinus2Over3.
Proof. rep_constant. Qed.
Lemma rep_xiToPSquaredMinus1Over6 : rep1 cf_xiToPSquaredMinus1Over6 xiToPSquaredMinus1Over6.
Proof. rep_constant. Qed.
#[local] Opaque cf_xiToPMinus1Over6 xiToPMinus1Over6 cf_xiToPMinus1Over3 xiToPMinus1Over3 cf_xiToPMinus1Over2 xiToPMinus1Over2 cf_xiTo2PMinus2Over3 xiTo2PMinus2Over3 cf_xiToPSquaredMinus1Over3 xiToPSquaredMinus1Over3 cf_xiTo2PSquaredMinus2Over3 xiTo2PSquaredMinus2Over3 cf_xiToPSquaredMinus1Over6 xiToPSquaredMinus1Over6.

#[local] Opaque gfP2_Add gfP2_Sub gfP2_Mul gfP2_MulScalar gfP2_MulXi gfP2_Square gfP2_Double gfP2_Negative gfP2_Conjugate gfP2_Invert cf_gfP2_Add cf_gfP2_Sub cf_gfP2_Mul cf_gfP2_MulScalar cf_gfP2_MulXi cf_gfP2_Square cf_gfP2_Neg cf_gfP2_Conjugate cf_gfP2_Invert.
(** Both packages compute with the same steps. *)
Ltac rep2_steps := repeat match goal with
  | H : rep2 ?a ?g |- rep2 ?a ?g => exact H
  | H : rep1 ?a ?g |- rep1 ?a ?g => exact H
  | |- rep2 (cf_gfP2_Add ?a ?a) (gfP2_Double _) => apply rep2_Double
  | |- rep2 (cf_gfP2_Add _ _) _ => apply rep2_Add
  | |- rep2 (cf_gfP2_Sub _ _) _ => apply rep2_Sub
  | |- rep2 (cf_gfP2_Mul _ _) _ => apply rep2_Mul
  | |- rep2 (cf_gfP2_MulScalar _ _) _ => apply rep2_MulScalar
  | |- rep2 (cf_gfP2_MulXi _) _ => apply rep2_MulXi
  | |- rep2 (cf_gfP2_Square _) _ => apply rep2_Square
  | |- rep2 (cf_gfP2_Neg _) _ => apply rep2_Neg
  | |- rep2 (cf_gfP2_Conjugate _) _ => apply rep2_Conjugate
  | |- rep2 cf_gfP2_SetZero _ => exact rep2_zero
  | |- rep2 cf_gfP2_SetOne _ => exact rep2_one
  | |- rep2 cf_xiToPMinus1Over6 _ => exact rep_xiToPMinus1Over6
  | |- rep2 cf_xiToPMinus1Over3 _ => exact rep_xiToPMinus1Over3
  | |- rep2 cf_xiToPMinus1Over2 _ => exact rep_xiToPMinus1Over2
  | |- rep2 cf_xiTo2PMinus2Over3 _ => exact rep_xiTo2PMinus2Over3
  | |- rep1 cf_xiToPSquaredMinus1Over3 _ => exact rep_xiToPSquaredMinus1Over3
  | |- rep1 cf_xiTo2PSquaredMinus2Over3 _ => exact rep_xiTo2PSquaredMinus2Over3
  | |- rep1 cf_xiToPSquaredMinus1Over6 _ => exact rep_xiToPSquaredMinus1Over6
  end.

Definition rep6 (a : cf_gfP6) (g : gfP6) : Prop := rep2 (u6 a) (x6 g) /\ rep2 (v6 a) (y6 g) /\ rep2 (w6 a) (z6 g).
Ltac rep6_components := intros; repeat match goal with H : rep6 _ _ |- _ => destruct H as (? & ? & ?) end; cbv zeta; split; [|split]; cbn [u6 v6 w6 x6 y6 z6]; rep2_steps.
Lemma rep6_eq a g g' : rep6 a g -> eq6 g g' -> rep6 a g'.
Proof. intros (H1 & H2 & H3) (E1 & E2 & E3). split_and!; by eapply rep2_eq. Qed.
Lemma rep6_zero : rep6 cf_gfP6_SetZero gfP6_SetZero.
Proof. split_and!; apply rep2_zero. Qed.
Lemma rep6_one : rep6 cf_gfP6_SetOne gfP6_SetOne.
Proof. split_and!; [apply rep2_zero|apply rep2_zero|apply rep2_one]. Qed.
Lemma rep6_Neg a g : rep6 a g -> rep6 (cf_gfP6_Neg a) (gfP6_Negative g).
Proof. unfold cf_gfP6_Neg, gfP6_Negative. rep6_components. Qed.
Lemma rep6_Frobenius a g : rep6 a g -> rep6 (cf_gfP6_Frobenius a) (gfP6_Frobenius g).
Proof. unfold cf_gfP6_Frobenius, gfP6_Frobenius. rep6_components. Qed.
Lemma rep6_FrobeniusP2 a g : rep6 a g -> rep6 (cf_gfP6_FrobeniusP2 a) (gfP6_FrobeniusP2 g).
Proof. unfold cf_gfP6_FrobeniusP2, gfP6_FrobeniusP2. rep6_components. Qed.
Lemma rep6_Add a b g h : rep6 a g -> rep6 b h -> rep6 (cf_gfP6_Add a b) (gfP6_Add g h).
Proof. unfold cf_gfP6_Add, gfP6_Add. rep6_components. Qed.
Lemma rep6_Sub a b g h : rep6 a g -> rep6 b h -> rep6 (cf_gfP6_Sub a b) (gfP6_Sub g h).
Proof. unfold cf_gfP6_Sub, gfP6_Sub. rep6_components. Qed.
Lemma rep6_Mul a b g h : rep6 a g -> rep6 b h -> rep6 (cf_gfP6_Mul a b) (gfP6_Mul g h).
Proof. unfold cf_gfP6_Mul, gfP6_Mul. rep6_components. Qed.
Lemma rep6_MulScalar a b g h : rep6 a g -> rep2 b h -> rep6 (cf_gfP6_MulScalar a b) (gfP6_MulScalar g h).
Proof. unfold cf_gfP6_MulScalar, gfP6_MulScalar. rep6_components. Qed.
Lemma rep6_MulGFP a b g z : rep6 a g -> rep1 b z -> rep6 (cf_gfP6_MulGFP a b) (gfP6_MulGFP g z).
Proof. unfold cf_gfP6_MulGFP, gfP6_MulGFP. rep6_components. Qed.
Lemma rep6_MulTau a g : rep6 a g -> rep6 (cf_gfP6_MulTau a) (gfP6_MulTau g).
Proof. unfold cf_gfP6_MulTau, gfP6_MulTau. rep6_components. Qed.
Lemma rep6_Square a g : rep6 a g -> rep6 (cf_gfP6_Square a) (gfP6_Square g).
Proof. unfold cf_gfP6_Square, gfP6_Square. rep6_components. Qed.
Lemma rep6_Double a g : rep6 a g -> rep6 (cf_gfP6_Add a a) (gfP6_Double g).
Proof. unfold cf_gfP6_Add, gfP6_Double. rep6_components. Qed.
Lemma rep6_Invert a g h : rep6 a g -> gfP6_Invert g = Some h -> rep6 (cf_gfP6_Invert a) h.
Proof.
  intros (H1 & H2 & H3) E. unfold gfP6_Invert in E. cbv zeta in E. unfold cf_gfP6_Invert. cbv zeta. match type of E with (gfP2_Invert ?F ≫= _) = _ => destruct (gfP2_Invert F) as [i|] eqn:Ei; [|done] end. cbn in E. injection E as <-.
  match goal with |- context [cf_gfP2_Invert ?F] => assert (Hi : rep2 (cf_gfP2_Invert F) i) by (eapply rep2_Invert; [|exact Ei]; rep2_steps); set (inv := cf_gfP2_Invert F) in * end. clearbody inv. cbv zeta; split; [|split]; cbn [u6 v6 w6 x6 y6 z6]; rep2_steps.
Qed.
Lemma rep6_IsZero a g : rep6 a g -> cf_gfP6_IsZero a = true <-> eq6 g gfP6_SetZero.
Proof. intros (H1 & H2 & H3). unfold cf_gfP6_IsZero. rewrite !andb_true_iff, (rep2_IsZero _ _ H1), (rep2_IsZero _ _ H2), (rep2_IsZero _ _ H3). unfold eq6. cbn [x6 y6 z6 gfP6_SetZero]. tauto. Qed.
Lemma rep6_IsOne a g : rep6 a g -> cf_gfP6_IsOne a = true <-> eq6 g gfP6_SetOne.
Proof. intros (H1 & H2 & H3). unfold cf_gfP6_IsOne. rewrite !andb_true_iff, (rep2_IsZero _ _ H1), (rep2_IsZero _ _ H2), (rep2_IsOne _ _ H3). unfold eq6. cbn [x6 y6 z6 gfP6_SetOne]. tauto. Qed.

#[local] Opaque gfP6_Add gfP6_Sub gfP6_Mul gfP6_MulScalar gfP6_MulGFP gfP6_MulTau gfP6_Square gfP6_Double gfP6_Negative gfP6_Frobenius gfP6_FrobeniusP2 gfP6_Invert cf_gfP6_Add cf_gfP6_Sub cf_gfP6_Mul cf_gfP6_MulScalar cf_gfP6_MulGFP cf_gfP6_MulTau cf_gfP6_Square cf_gfP6_Neg cf_gfP6_Frobenius cf_gfP6_FrobeniusP2 cf_gfP6_Invert.
Ltac rep6_steps := repeat match goal with
  | H : rep6 ?a ?g |- rep6 ?a ?g => exact H
  | |- rep6 (cf_gfP6_Add ?a ?a) (gfP6_Double _) => apply rep6_Double
  | |- rep6 (cf_gfP6_Add _ _) _ => apply rep6_Add
  | |- rep6 (cf_gfP6_Sub _ _) _ => apply rep6_Sub
  | |- rep6 (cf_gfP6_Mul _ _) _ => apply rep6_Mul
  | |- rep6 (cf_gfP6_MulScalar _ _) _ => apply rep6_MulScalar
  | |- rep6 (cf_gfP6_MulGFP _ _) _ => apply rep6_MulGFP
  | |- rep6 (cf_gfP6_MulTau _) _ => apply rep6_MulTau
  | |- rep6 (cf_gfP6_Square _) _ => apply rep6_Square
  | |- rep6 (cf_gfP6_Neg _) _ => apply rep6_Neg
  | |- rep6 (cf_gfP6_Frobenius _) _ => apply rep6_Frobenius
  | |- rep6 (cf_gfP6_FrobeniusP2 _) _ => apply rep6_FrobeniusP2
  | |- rep6 cf_gfP6_SetZero _ => exact rep6_zero
  | |- rep6 cf_gfP6_SetOne _ => exact rep6_one
  | |- rep2 _ _ => rep2_steps
  | |- rep1 _ _ => rep2_steps
  end.

Definition rep12 (a : cf_gfP12) (g : gfP12) : Prop := rep6 (u12 a) (x12 g) /\ rep6 (v12 a) (y12 g).
Ltac rep12_components := intros; repeat match goal with H : rep12 _ _ |- _ => destruct H end; cbv zeta; split; cbn [u12 v12 x12 y12]; rep6_steps.
Lemma rep12_eq a g g' : rep12 a g -> eq12 g g' -> rep12 a g'.
Proof. intros [H1 H2] [E1 E2]. split; by eapply rep6_eq. Qed.
Lemma rep12_zero : rep12 cf_gfP12_SetZero gfP12_SetZero.
Proof. split; apply rep6_zero. Qed.
Lemma rep12_one : rep12 cf_gfP12_SetOne gfP12_SetOne.
Proof. split; [apply rep6_zero|apply rep6_one]. Qed.
Lemma rep12_Conjugate a g : rep12 a g -> rep12 (cf_gfP12_Conjugate a) (gfP12_Conjugate g).
Proof. unfold cf_gfP12_Conjugate, gfP12_Conjugate. rep12_components. Qed.
Lemma rep12_Neg a g : rep12 a g -> rep12 (cf_gfP12_Neg a) (gfP12_Negative g).
Proof. unfold cf_gfP12_Neg, gfP12_Negative. rep12_components. Qed.
Lemma rep12_Frobenius a g : rep12 a g -> rep12 (cf_gfP12_Frobenius a) (gfP12_Frobenius g).
Proof. unfold cf_gfP12_Frobenius, gfP12_Frobenius. rep12_components. Qed.
Lemma rep12_FrobeniusP2 a g : rep12 a g -> rep12 (cf_gfP12_FrobeniusP2 a) (gfP12_FrobeniusP2 g).
Proof. unfold cf_gfP12_FrobeniusP2, gfP12_FrobeniusP2. rep12_components. Qed.
Lemma rep12_Add a b g h : rep12 a g -> rep12 b h -> rep12 (cf_gfP12_Add a b) (gfP12_Add g h).
Proof. unfold cf_gfP12_Add, gfP12_Add. rep12_components. Qed.
Lemma rep12_Sub a b g h : rep12 a g -> rep12 b h -> rep12 (cf_gfP12_Sub a b) (gfP12_Sub g h).
Proof. unfold cf_gfP12_Sub, gfP12_Sub. rep12_components. Qed.
Lemma rep12_Mul a b g h : rep12 a g -> rep12 b h -> rep12 (cf_gfP12_Mul a b) (gfP12_Mul g h).
Proof. unfold cf_gfP12_Mul, gfP12_Mul. rep12_components. Qed.
Lemma rep12_MulScalar e a b g h k : rep12 e g -> rep6 b k -> rep12 (cf_gfP12_MulScalar e a b) (gfP12_MulScalar g h k).
Proof. unfold cf_gfP12_MulScalar, gfP12_MulScalar. rep12_components. Qed.
Lemma rep12_Square a g : rep12 a g -> rep12 (cf_gfP12_Square a) (gfP12_Square g).
Proof. unfold cf_gfP12_Square, gfP12_Square. rep12_components. Qed.
Lemma rep12_exp a g power i : rep12 a g -> forall sum h, rep12 sum h -> rep12 (cf_gfP12_exp a power i sum) (gfP12_exp g power i h).
Proof.
  intros Ha. induction i as [|i IH]; intros sum h Hs; cbn [cf_gfP12_exp gfP12_exp]; [done|]. apply IH. destruct (Z.testbit power (Z.of_nat i)); [apply rep12_Mul; [by apply rep12_Square|done]|by apply rep12_Square].
Qed.
Lemma rep12_Exp a g power : rep12 a g -> rep12 (cf_gfP12_Exp a power) (gfP12_Exp g power).
Proof. intros Ha. apply rep12_exp; [done|apply rep12_one]. Qed.
Lemma rep12_Invert a g h : rep12 a g -> gfP12_Invert g = Some h -> rep12 (cf_gfP12_Invert a) h.
Proof.
  intros [H1 H2] E. unfold gfP12_Invert in E. cbv zeta in E. unfold cf_gfP12_Invert. cbv zeta. match type of E with (gfP6_Invert ?F ≫= _) = _ => destruct (gfP6_Invert F) as [i|] eqn:Ei; [|done] end. cbn in E. injection E as <-.
  match goal with |- context [cf_gfP6_Invert ?F] => assert (Hi : rep6 (cf_gfP6_Invert F) i) by (eapply rep6_Invert; [|exact Ei]; rep6_steps); set (inv := cf_gfP6_Invert F) in * end. clearbody inv. split; cbn [u12 v12 x12 y12 cf_gfP12_MulScalar gfP12_MulScalar]; rep6_steps.
Qed.
Lemma rep12_IsOne a g : rep12 a g -> cf_gfP12_IsOne a = true <-> eq12 g gfP12_SetOne.
Proof. intros [H1 H2]. unfold cf_gfP12_IsOne. rewrite andb_true_iff, (rep6_IsZero _ _ H1), (rep6_IsOne _ _ H2). unfold eq12. cbn [x12 y12 gfP12_SetOne]. tauto. Qed.
Lemma rep12_IsZero a g : rep12 a g -> cf_gfP12_IsZero a = true <-> eq12 g gfP12_SetZero.
Proof. intros [H1 H2]. unfold cf_gfP12_IsZero. rewrite andb_true_iff, (rep6_IsZero _ _ H1), (rep6_IsZero _ _ H2). unfold eq12. cbn [x12 y12 gfP12_SetZero]. tauto. Qed.

(** FrobeniusP4, which the other package does not have, is FrobeniusP2 twice. *)
Lemma rep2_MulScalar_eqm a b g z z' : rep2 a g -> rep1 b z -> eqm P z z' -> rep2 (cf_gfP2_MulScalar a b) (gfP2_MulScalar g z').
Proof. intros Ha Hb E. apply rep2_MulScalar; [exact Ha|]. by eapply rep1_eqm. Qed.
Lemma MulScalar_twice g z z' : eq2 (gfP2_MulScalar (gfP2_MulScalar g z) z') (gfP2_MulScalar g (z * z')).
Proof. Transparent gfP2_MulScalar. split; cbn [gfP2_MulScalar x2 y2]; apply eqm_eq; ring. Opaque gfP2_MulScalar. Qed.
Lemma rep6_FrobeniusP4 a g : rep6 a g -> rep6 (cf_gfP6_FrobeniusP4 a) (gfP6_FrobeniusP2 (gfP6_FrobeniusP2 g)).
Proof.
  Transparent gfP6_FrobeniusP2. intros (H1 & H2 & H3). split; [|split]; cbn [cf_gfP6_FrobeniusP4 gfP6_FrobeniusP2 u6 v6 w6 x6 y6 z6]; [| |exact H3].
  - eapply rep2_eq; [|symmetry; apply MulScalar_twice]. eapply rep2_MulScalar_eqm; [exact H1|exact rep_xiToPSquaredMinus1Over3|vm_compute; reflexivity].
  - eapply rep2_eq; [|symmetry; apply MulScalar_twice]. eapply rep2_MulScalar_eqm; [exact H2|exact rep_xiTo2PSquaredMinus2Over3|vm_compute; reflexivity]. Opaque gfP6_FrobeniusP2.
Qed.
Lemma FrobeniusP2_MulGFP g z : eq6 (gfP6_FrobeniusP2 (gfP6_MulGFP g z)) (gfP6_MulGFP (gfP6_FrobeniusP2 g) z).
Proof.
  Transparent gfP6_FrobeniusP2 gfP6_MulGFP gfP2_MulScalar. split; [|split]; split; cbn [gfP6_FrobeniusP2 gfP6_MulGFP gfP2_MulScalar x6 y6 z6 x2 y2]; apply eqm_eq; ring. Opaque gfP6_FrobeniusP2 gfP6_MulGFP gfP2_MulScalar.
Qed.
Lemma MulGFP_twice g z z' w : eqm P (z * z') w -> eq6 (gfP6_MulGFP (gfP6_MulGFP g z) z') (gfP6_MulGFP g w).
Proof.
  Transparent gfP6_MulGFP gfP2_MulScalar. intros E. split; [|split]; split; cbn [gfP6_MulGFP gfP2_MulScalar x6 y6 z6 x2 y2]; rewrite <- E; apply eqm_eq; ring. Opaque gfP6_MulGFP gfP2_MulScalar.
Qed.
Lemma eq6_MulGFP g h z : eq6 g h -> eq6 (gfP6_MulGFP g z) (gfP6_MulGFP h z).
Proof.
  Transparent gfP6_MulGFP gfP2_MulScalar. intros ((A1 & A2) & (B1 & B2) & (C1 & C2)). split; [|split]; split; cbn [gfP6_MulGFP gfP2_MulScalar x6 y6 z6 x2 y2]; by apply eqm_mul. Opaque gfP6_MulGFP gfP2_MulScalar.
Qed.
Lemma rep12_FrobeniusP4 a g : rep12 a g -> rep12 (cf_gfP12_FrobeniusP4 a) (gfP12_FrobeniusP2 (gfP12_FrobeniusP2 g)).
Proof.
  intros [H1 H2]. split; cbn [cf_gfP12_FrobeniusP4 gfP12_FrobeniusP2 u12 v12 x12 y12]; [|by apply rep6_FrobeniusP4].
  eapply rep6_eq; [apply rep6_MulGFP; [apply rep6_FrobeniusP4; exact H1|exact rep_xiToPSquaredMinus1Over3]|]. symmetry. etransitivity; [apply eq6_MulGFP, FrobeniusP2_MulGFP|]. apply MulGFP_twice. vm_compute. reflexivity.
Qed.

(** The tower on words is the tower on integers.  For elements of GF(p^12) on
    words that represent elements with integers, the results of the operations
    represent the results of the other package: sums, differences, products, squares,
    powers, inverses, conjugates and the Frobenius maps; the tests for zero and one
    decide equality with zero and one; FrobeniusP4 is FrobeniusP2 twice; and every
    element of GF(p^2) but zero has an inverse. *)
Theorem tower_on_words a b g h : rep12 a g -> rep12 b h ->
  rep12 (cf_gfP12_Add a b) (gfP12_Add g h) /\ rep12 (cf_gfP12_Sub a b) (gfP12_Sub g h) /\ rep12 (cf_gfP12_Neg a) (gfP12_Negative g) /\
  rep12 (cf_gfP12_Mul a b) (gfP12_Mul g h) /\ rep12 (cf_gfP12_Square a) (gfP12_Mul g g) /\ (forall n, rep12 (cf_gfP12_Exp a n) (gfP12_Exp g n)) /\
  ((exists i, eq12 (gfP12_Mul g i) gfP12_SetOne) -> exists i, rep12 (cf_gfP12_Invert a) i /\ eq12 (gfP12_Mul g i) gfP12_SetOne) /\
  rep12 (cf_gfP12_Conjugate a) (gfP12_Conjugate g) /\ rep12 (cf_gfP12_Frobenius a) (gfP12_Frobenius g) /\ rep12 (cf_gfP12_FrobeniusP2 a) (gfP12_FrobeniusP2 g) /\ rep12 (cf_gfP12_FrobeniusP4 a) (gfP12_FrobeniusP2 (gfP12_FrobeniusP2 g)) /\
  (cf_gfP12_IsZero a = true <-> eq12 g gfP12_SetZero) /\ (cf_gfP12_IsOne a = true <-> eq12 g gfP12_SetOne) /\
  (forall c k, rep2 c k -> ~ eq2 k gfP2_SetZero -> exists i, rep2 (cf_gfP2_Invert c) i /\ eq2 (gfP2_Mul k i) gfP2_SetOne).
Proof.
  intros Ha Hb. split; [by apply rep12_Add|]. split; [by apply rep12_Sub|]. split; [by apply rep12_Neg|]. split; [by apply rep12_Mul|]. split; [eapply rep12_eq; [by apply rep12_Square|apply gfP12_Square_Mul]|]. split; [intros n; by apply rep12_Exp|]. split.
  { intros Hi. apply Invert_iff in Hi as [i Hi]. exists i. split; [by eapply rep12_Invert|by apply gfP12_Invert_correct]. }
  split; [by apply rep12_Conjugate|]. split; [by apply rep12_Frobenius|]. split; [by apply rep12_FrobeniusP2|]. split; [by apply rep12_FrobeniusP4|]. split; [by apply rep12_IsZero|]. split; [by apply rep12_IsOne|]. apply cf_gfP2_Invert_inverse.
Qed.
(** The element w, on words and on integers. *)
Lemma rep12_omega : rep12 (CfGFp12 cf_gfP6_SetOne cf_gfP6_SetZero) omega.
Proof. split; [apply rep6_one|apply rep6_zero]. Qed.
Lemma tower_on_words_witness : rep12 (cf_gfP12_Mul (CfGFp12 cf_gfP6_SetOne cf_gfP6_SetZero) (CfGFp12 cf_gfP6_SetOne cf_gfP6_SetZero)) (gfP12_Mul omega omega) /\
  exists i, rep12 (cf_gfP12_Invert (CfGFp12 cf_gfP6_SetOne cf_gfP6_SetZero)) i /\ eq12 (gfP12_Mul omega i) gfP12_SetOne.
Proof.
  destruct (tower_on_words _ _ omega omega rep12_omega rep12_omega) as (_ & _ & _ & Hm & _ & _ & Hi & _). split; [exact Hm|]. apply Hi. apply Invert_iff. destruct (gfP12_Invert omega) as [i|] eqn:E; [by exists i|]. exfalso. revert E. vm_compute. discriminate.
Defined.
