(* ===== verification/CfCurve.v ===== *)
(** * Package crypto/bn256/cloudflare: curves, points and the lattice

    curve.go, twist.go and lattice.go.  A point is in Jacobian coordinates, over the
    words of Gfp.v for curve.go and over pairs of them for twist.go.  Operations take
    the receiver where a field of it stays as it was.  Scalars of points of the curve
    are split in two halves by a lattice. *)

From stdpp Require Import list.
From Stdlib Require Import Ring Setoid Morphisms Znumtheory.
From S2P Require Import Prelude Modular Bn256Field Bn256Curve Primality Gfp CfField.

#[local] Abbreviation gfP := (list Z) (only parsing).

(** ** lattice.go *)

Definition half : Z := Z.shiftr Order 1.
Record lattice : Type := Lattice { l_vectors : list (list Z); l_inverse : list Z; l_det : Z }.
Definition curveLattice : lattice := Lattice
  [[147946756881789319000765030803803410728; 147946756881789319010696353538189108491];
   [147946756881789319020627676272574806254; -147946756881789318990833708069417712965]]
  [147946756881789318990833708069417712965; 147946756881789319010696353538189108491]
  43776485743678550444492811490514550177096728800832068687396408373151616991234.

(** DivMod is Euclidean, and the divisors are positive. *)
Definition round (num denom : Z) : Z :=
  let r := num mod denom in
  let num := num / denom in
  if half <? r then num + 1 else num.

(** The entry [i] of a vector and the closest vectors. *)
Definition closest (l : lattice) (k : Z) : list Z := map (fun inv => round (k * inv) (l_det l)) (l_inverse l).
Definition column (l : lattice) (i : nat) : list Z := map (fun v => v !!! i) (l_vectors l).
Definition decompose (l : lattice) (k : Z) : list Z :=
  let n := length (l_inverse l) in
  let c := closest l k in
  let out := map (fun i =>
    let out := foldl (fun acc '(cj, vj) => acc + cj * vj) 0 (zip c (column l i)) in
    let v0 := (l_vectors l !!! 0%nat) !!! i in
    - out + v0 + v0) (seq 0 n) in
  match out with
  | o :: out => (o + k) :: out
  | [] => []
  end.

Definition Multi (l : lattice) (scalar : Z) : list Z :=
  let decomp := decompose l scalar in
  let maxLen := foldl (fun m x => if m <? bit_len x then bit_len x else m) 0 decomp in
  map (fun i => foldl (fun acc '(j, x) => u8 (acc + u8 (Z.shiftl (Z.b2z (Z.testbit x (Z.of_nat i))) (Z.of_nat j)))) 0 (imap pair decomp)) (seq 0 (Z.to_nat maxLen)).

(** ** curve.go *)

Record cf_curvePoint : Type := CfCurvePoint { px : gfP; py : gfP; pz : gfP; pt : gfP }.

Definition cf_curveB : gfP := newGFp 3.
Definition cf_curveGen : cf_curvePoint := CfCurvePoint (newGFp 1) (newGFp 2) (newGFp 1) (newGFp 1).
Definition new_curvePoint : cf_curvePoint := CfCurvePoint gfP_zero gfP_zero gfP_zero gfP_zero.

Definition cf_curve_SetInfinity : cf_curvePoint := CfCurvePoint gfP_zero (newGFp 1) gfP_zero gfP_zero.
Definition cf_curve_IsInfinity (c : cf_curvePoint) : bool := bool_decide (pz c = gfP_zero).

Definition cf_curve_MakeAffine (c : cf_curvePoint) : cf_curvePoint :=
  if bool_decide (pz c = newGFp 1) then c
  else if bool_decide (pz c = newGFp 0) then CfCurvePoint gfP_zero (newGFp 1) (pz c) gfP_zero
  else
  let zInv := gfP_Invert (pz c) in
  let t := gfpMul (py c) zInv in
  let zInv2 := gfpMul zInv zInv in
  CfCurvePoint (gfpMul (px c) zInv2) (gfpMul t zInv2) (newGFp 1) (newGFp 1).

(** IsOnCurve makes its point affine. *)
Definition cf_curve_IsOnCurve (c : cf_curvePoint) : cf_curvePoint * bool :=
  let c := cf_curve_MakeAffine c in
  if cf_curve_IsInfinity c then (c, true)
  else
  let y2 := gfpMul (py c) (py c) in
  let x3 := gfpMul (px c) (px c) in
  let x3 := gfpMul x3 (px c) in
  let x3 := gfpAdd x3 cf_curveB in
  (c, bool_decide (y2 = x3)).

Definition cf_curve_Double (c a : cf_curvePoint) : cf_curvePoint :=
  let A := gfpMul (px a) (px a) in
  let B := gfpMul (py a) (py a) in
  let C_ := gfpMul B B in
  let t := gfpAdd (px a) B in
  let t2 := gfpMul t t in
  let t := gfpSub t2 A in
  let t2 := gfpSub t C_ in
  let d := gfpAdd t2 t2 in
  let t := gfpAdd A A in
  let e := gfpAdd t A in
  let f := gfpMul e e in
  let t := gfpAdd d d in
  let x := gfpSub f t in
  let t := gfpAdd C_ C_ in
  let t2 := gfpAdd t t in
  let t := gfpAdd t2 t2 in
  let y := gfpSub d x in
  let t2 := gfpMul e y in
  let y := gfpSub t2 t in
  let t := gfpMul (py a) (pz a) in
  CfCurvePoint x y (gfpAdd t t) (pt c).
(** With the argument as receiver, z is computed from the new y. *)
Definition cf_curve_Double_self (a : cf_curvePoint) : cf_curvePoint :=
  let r := cf_curve_Double a a in
  let t := gfpMul (py r) (pz a) in
  CfCurvePoint (px r) (py r) (gfpAdd t t) (pt r).

Definition cf_curve_Add (c a b : cf_curvePoint) : cf_curvePoint :=
  if cf_curve_IsInfinity a then b
  else if cf_curve_IsInfinity b then a
  else
  let z12 := gfpMul (pz a) (pz a) in
  let z22 := gfpMul (pz b) (pz b) in
  let u1 := gfpMul (px a) z22 in
  let u2 := gfpMul (px b) z12 in
  let t := gfpMul (pz b) z22 in
  let s1 := gfpMul (py a) t in
  let t := gfpMul (pz a) z12 in
  let s2 := gfpMul (py b) t in
  let h := gfpSub u2 u1 in
  let xEqual := bool_decide (h = gfP_zero) in
  let t := gfpAdd h h in
  let i := gfpMul t t in
  let j := gfpMul h i in
  let t := gfpSub s2 s1 in
  let yEqual := bool_decide (t = gfP_zero) in
  if xEqual && yEqual then cf_curve_Double c a
  else
  let r := gfpAdd t t in
  let v := gfpMul u1 i in
  let t4 := gfpMul r r in
  let t := gfpAdd v v in
  let t6 := gfpSub t4 j in
  let x := gfpSub t6 t in
  let t := gfpSub v x in
  let t4 := gfpMul s1 j in
  let t6 := gfpAdd t4 t4 in
  let t4 := gfpMul r t in
  let y := gfpSub t4 t6 in
  let t := gfpAdd (pz a) (pz b) in
  let t4 := gfpMul t t in
  let t := gfpSub t4 z12 in
  let t4 := gfpSub t z22 in
  CfCurvePoint x y (gfpMul t4 h) (pt c).

(** With the first argument as receiver: every step reads its arguments before
    they are overwritten, but for the doubling. *)
Definition cf_curve_Add_self (a b : cf_curvePoint) : cf_curvePoint :=
  if cf_curve_IsInfinity a then b
  else if cf_curve_IsInfinity b then a
  else
  let z12 := gfpMul (pz a) (pz a) in
  let z22 := gfpMul (pz b) (pz b) in
  let u1 := gfpMul (px a) z22 in
  let u2 := gfpMul (px b) z12 in
  let s1 := gfpMul (py a) (gfpMul (pz b) z22) in
  let s2 := gfpMul (py b) (gfpMul (pz a) z12) in
  let xEqual := bool_decide (gfpSub u2 u1 = gfP_zero) in
  let yEqual := bool_decide (gfpSub s2 s1 = gfP_zero) in
  if xEqual && yEqual then cf_curve_Double_self a else cf_curve_Add a a b.

Definition cf_curve_Neg (a : cf_curvePoint) : cf_curvePoint := CfCurvePoint (px a) (gfpNeg (py a)) (pz a) gfP_zero.

(** The points that digits of two bits stand for; entry 0 is nil. *)
Definition curve_precomp (a : cf_curvePoint) : list cf_curvePoint :=
  let p1 := a in
  let p2 := CfCurvePoint (gfpMul (px a) cf_xiTo2PSquaredMinus2Over3) (py a) (pz a) (pt a) in
  [new_curvePoint; p1; p2; cf_curve_Add new_curvePoint p1 p2].
(** The loop over the digits, the last one first; [t] is reused. *)
Fixpoint cf_curve_mul (precomp : list cf_curvePoint) (digits : list Z) (sum t : cf_curvePoint) : cf_curvePoint :=
  match digits with
  | [] => sum
  | d :: digits =>
      let t := cf_curve_Double t sum in
      let sum := if d =? 0 then t else cf_curve_Add sum t (default new_curvePoint (precomp !! Z.to_nat d)) in
      cf_curve_mul precomp digits sum t
  end.
Definition cf_curve_Mul (a : cf_curvePoint) (scalar : Z) : cf_curvePoint :=
  cf_curve_mul (curve_precomp a) (rev (Multi curveLattice scalar)) cf_curve_SetInfinity new_curvePoint.

(** ** twist.go *)

Record cf_twistPoint : Type := CfTwistPoint { qx : cf_gfP2; qy : cf_gfP2; qz : cf_gfP2; qt : cf_gfP2 }.

Definition cf_twistB : cf_gfP2 := CfGFp2
  [0x38e7ecccd1dcff67; 0x65f0b37d93ce0d3e; 0xd749d0dd22ac00aa; 0x0141b9ce4a688d4d]
  [0x3bf938e377b802a8; 0x020b1b273633535d; 0x26b7edf049755260; 0x2514c6324384a86d].
Definition cf_twistGen : cf_twistPoint := CfTwistPoint
  (CfGFp2 [0xafb4737da84c6140; 0x6043dd5a5802d8c4; 0x09e950fc52a02f86; 0x14fef0833aea7b6b] [0x8e83b5d102bc2026; 0xdceb1935497b0172; 0xfbb8264797811adf; 0x19573841af96503b])
  (CfGFp2 [0x64095b56c71856ee; 0xdc57f922327d3cbb; 0x55f935be33351076; 0x0da4a0e693fd6482] [0x619dfa9d886be9f6; 0xfe7fd297f59e9b78; 0xff9e1a62231b7dfe; 0x28fd7eebae9e4206])
  (CfGFp2 (newGFp 0) (newGFp 1)) (CfGFp2 (newGFp 0) (newGFp 1)).
Definition new_twistPoint : cf_twistPoint := CfTwistPoint cf_gfP2_SetZero cf_gfP2_SetZero cf_gfP2_SetZero cf_gfP2_SetZero.

Definition cf_twist_SetInfinity : cf_twistPoint := CfTwistPoint cf_gfP2_SetZero cf_gfP2_SetOne cf_gfP2_SetZero cf_gfP2_SetZero.
Definition cf_twist_IsInfinity (c : cf_twistPoint) : bool := cf_gfP2_IsZero (qz c).

Definition cf_twist_Double (c a : cf_twistPoint) : cf_twistPoint :=
  let A := cf_gfP2_Square (qx a) in
  let B := cf_gfP2_Square (qy a) in
  let C_ := cf_gfP2_Square B in
  let t := cf_gfP2_Add (qx a) B in
  let t2 := cf_gfP2_Square t in
  let t := cf_gfP2_Sub t2 A in
  let t2 := cf_gfP2_Sub t C_ in
  let d := cf_gfP2_Add t2 t2 in
  let t := cf_gfP2_Add A A in
  let e := cf_gfP2_Add t A in
  let f := cf_gfP2_Square e in
  let t := cf_gfP2_Add d d in
  let x := cf_gfP2_Sub f t in
  let t := cf_gfP2_Add C_ C_ in
  let t2 := cf_gfP2_Add t t in
  let t := cf_gfP2_Add t2 t2 in
  let y := cf_gfP2_Sub d x in
  let t2 := cf_gfP2_Mul e y in
  let y := cf_gfP2_Sub t2 t in
  let t := cf_gfP2_Mul (qy a) (qz a) in
  CfTwistPoint x y (cf_gfP2_Add t t) (qt c).

Definition cf_twist_Add (c a b : cf_twistPoint) : cf_twistPoint :=
  if cf_twist_IsInfinity a then b
  else if cf_twist_IsInfinity b then a
  else
  let z12 := cf_gfP2_Square (qz a) in
  let z22 := cf_gfP2_Square (qz b) in
  let u1 := cf_gfP2_Mul (qx a) z22 in
  let u2 := cf_gfP2_Mul (qx b) z12 in
  let t := cf_gfP2_Mul (qz b) z22 in
  let s1 := cf_gfP2_Mul (qy a) t in
  let t := cf_gfP2_Mul (qz a) z12 in
  let s2 := cf_gfP2_Mul (qy b) t in
  let h := cf_gfP2_Sub u2 u1 in
  let xEqual := cf_gfP2_IsZero h in
  let t := cf_gfP2_Add h h in
  let i := cf_gfP2_Square t in
  let j := cf_gfP2_Mul h i in
  let t := cf_gfP2_Sub s2 s1 in
  let yEqual := cf_gfP2_IsZero t in
  if xEqual && yEqual then cf_twist_Double c a
  else
  let r := cf_gfP2_Add t t in
  let v := cf_gfP2_Mul u1 i in
  let t4 := cf_gfP2_Square r in
  let t := cf_gfP2_Add v v in
  let t6 := cf_gfP2_Sub t4 j in
  let x := cf_gfP2_Sub t6 t in
  let t := cf_gfP2_Sub v x in
  let t4 := cf_gfP2_Mul s1 j in
  let t6 := cf_gfP2_Add t4 t4 in
  let t4 := cf_gfP2_Mul r t in
  let y := cf_gfP2_Sub t4 t6 in
  let t := cf_gfP2_Add (qz a) (qz b) in
  let t4 := cf_gfP2_Square t in
  let t := cf_gfP2_Sub t4 z12 in
  let t4 := cf_gfP2_Sub t z22 in
  CfTwistPoint x y (cf_gfP2_Mul t4 h) (qt c).

(** The bits from BitLen down. *)
Fixpoint cf_twist_mul (a : cf_twistPoint) (scalar : Z) (i : nat) (sum t : cf_twistPoint) : cf_twistPoint :=
  match i with
  | O => sum
  | S i =>
      let t := cf_twist_Double t sum in
      let sum := if Z.testbit scalar (Z.of_nat i) then cf_twist_Add sum t a else t in
      cf_twist_mul a scalar i sum t
  end.
Definition cf_twist_Mul (a : cf_twistPoint) (scalar : Z) : cf_twistPoint := cf_twist_mul a scalar (S (Z.to_nat (bit_len scalar))) new_twistPoint new_twistPoint.

Definition cf_twist_MakeAffine (c : cf_twistPoint) : cf_twistPoint :=
  if cf_gfP2_IsOne (qz c) then c
  else if cf_gfP2_IsZero (qz c) then CfTwistPoint cf_gfP2_SetZero cf_gfP2_SetOne (qz c) cf_gfP2_SetZero
  else
  let zInv := cf_gfP2_Invert (qz c) in
  let t := cf_gfP2_Mul (qy c) zInv in
  let zInv2 := cf_gfP2_Square zInv in
  let y := cf_gfP2_Mul t zInv2 in
  let t := cf_gfP2_Mul (qx c) zInv2 in
  CfTwistPoint t y cf_gfP2_SetOne cf_gfP2_SetOne.

#[export] Instance cf_gfP2_eq_dec : EqDecision cf_gfP2.
Proof. solve_decision. Defined.
(** IsOnCurve makes its point affine and checks that it has the right order. *)
Definition cf_twist_IsOnCurve (c : cf_twistPoint) : cf_twistPoint * bool :=
  let c := cf_twist_MakeAffine c in
  if cf_twist_IsInfinity c then (c, true)
  else
  let y2 := cf_gfP2_Square (qy c) in
  let x3 := cf_gfP2_Square (qx c) in
  let x3 := cf_gfP2_Mul x3 (qx c) in
  let x3 := cf_gfP2_Add x3 cf_twistB in
  if negb (bool_decide (y2 = x3)) then (c, false)
  else
  let cneg := cf_twist_Mul c Order in
  (c, cf_gfP2_IsZero (qz cneg)).

Definition cf_twist_Neg (a : cf_twistPoint) : cf_twistPoint := CfTwistPoint (qx a) (cf_gfP2_Neg (qy a)) (qz a) cf_gfP2_SetZero.

(** ** Jacobian coordinates over a field *)

(** The abstract group: affine points and infinity, with the chord and the tangent. *)
Section affine_group.
Context {R : Type} (r0 r1 : R) (radd rmul rsub : R -> R -> R) (ropp : R -> R) (req : R -> R -> Prop).
Context (Rth : ring_theory r0 r1 radd rmul rsub ropp req) (Rst : Equivalence req) (Rext : ring_eq_ext radd rmul ropp req).
Context (rinv : R -> R) (rdec : forall a b, {req a b} + {~ req a b}) (rinv_r : forall a, ~ req a r0 -> req (rmul a (rinv a)) r1) (two_unit : ~ req (radd r1 r1) r0).
Add Ring field_ring : Rth (setoid Rst Rext).
#[local] Instance fadd_proper : Proper (req ==> req ==> req) radd.
Proof. apply (Radd_ext Rext). Qed.
#[local] Instance fmul_proper : Proper (req ==> req ==> req) rmul.
Proof. apply (Rmul_ext Rext). Qed.
#[local] Instance fopp_proper : Proper (req ==> req) ropp.
Proof. apply (Ropp_ext Rext). Qed.
#[local] Instance fsub_proper : Proper (req ==> req ==> req) rsub.
Proof. intros a a' Ha b b' Hb. rewrite !(Rsub_def Rth). by rewrite Ha, Hb. Qed.
#[local] Notation "a + b" := (radd a b).
#[local] Notation "a * b" := (rmul a b).
#[local] Notation "a - b" := (rsub a b).
#[local] Notation "a == b" := (req a b) (at level 70).
#[local] Abbreviation jdbl := (jdouble radd rmul rsub).
#[local] Abbreviation jsum := (jadd radd rmul rsub).

Definition aff_double (A : option (R * R)) : option (R * R) :=
  match A with
  | None => None
  | Some (x, y) =>
      if rdec y r0 then None
      else let l := (x * x + x * x + x * x) * rinv (y + y) in let x3 := l * l - x - x in Some (x3, l * (x - x3) - y)
  end.
Definition aff_add (A B : option (R * R)) : option (R * R) :=
  match A, B with
  | None, _ => B
  | _, None => A
  | Some (x1, y1), Some (x2, y2) =>
      if rdec x1 x2 then if rdec y1 y2 then aff_double A else None
      else let l := (y2 - y1) * rinv (x2 - x1) in let x3 := l * l - x1 - x2 in Some (x3, l * (x1 - x3) - y1)
  end.
Definition aff_neg (A : option (R * R)) : option (R * R) := match A with None => None | Some (x, y) => Some (x, ropp y) end.

(** Jacobian coordinates of an affine point or of infinity. *)
Definition on_affine (p : @jpoint R) (A : option (R * R)) : Prop :=
  match A with
  | None => jz p == r0
  | Some (x, y) => ~ jz p == r0 /\ jrep rmul req p x y
  end.
Lemma on_affine_eq p q A : jeq req p q -> on_affine p A -> on_affine q A.
Proof.
  intros (E1 & E2 & E3). destruct A as [[x y]|]; cbn [on_affine]; [|by rewrite E3]. intros [Hz [Hx Hy]]. split; [by rewrite <- E3|]. split; [by rewrite <- E1, <- E3|by rewrite <- E2, <- E3].
Qed.

Lemma unit_cancel a b w : ~ w == r0 -> a * w == b * w -> a == b.
Proof.
  intros Hw E. transitivity (a * (w * rinv w)); [rewrite rinv_r by done; ring|]. transitivity (b * (w * rinv w)); [|rewrite rinv_r by done; ring]. transitivity (a * w * rinv w); [ring|]. rewrite E. ring.
Qed.
Lemma integral a b : ~ a == r0 -> ~ b == r0 -> ~ a * b == r0.
Proof. intros Ha Hb E. apply Ha. apply (unit_cancel a r0 b Hb). rewrite E. ring. Qed.
Lemma sub_zero a b : a - b == r0 <-> a == b.
Proof. split; intros E; [transitivity (a - b + b); [ring|]; rewrite E; ring|rewrite E; ring]. Qed.
Lemma two_zero a : a + a == r0 -> a == r0.
Proof. intros E. destruct (rdec a r0) as [|H]; [done|]. exfalso. apply (integral _ _ two_unit H). transitivity (a + a); [ring|exact E]. Qed.

Lemma double_affine p A : on_affine p A -> on_affine (jdbl p) (aff_double A).
Proof.
  destruct A as [[x y]|]; cbn [on_affine aff_double].
  - intros [Hz Hr]. pose proof Hr as [Hx Hy]. destruct (rdec y r0) as [E|E]; cbn [on_affine].
    + unfold jdouble. cbn [jz]. rewrite Hy, E. ring.
    + split; [|apply (jdouble_tangent r0 r1 radd rmul rsub ropp req Rth Rst Rext); [exact Hr|]; set (l := (x * x + x * x + x * x)); transitivity (l * ((y + y) * rinv (y + y))); [ring|]; rewrite rinv_r by (intros E2; by apply E, two_zero); unfold l; ring].
      unfold jdouble. cbn [jz]. intros E3. apply two_zero in E3. rewrite Hy in E3. revert E3. apply integral; [|exact Hz]. apply integral; [exact E|]. apply integral; [exact Hz|]. by apply integral.
  - intros Hz. unfold jdouble. cbn [jz]. rewrite Hz. ring.
Qed.

(** Sums of points as the code computes them. *)
Definition jac_add (p q : @jpoint R) : @jpoint R :=
  if rdec (jz p) r0 then q else if rdec (jz q) r0 then p
  else if rdec (jx p * (jz q * jz q)) (jx q * (jz p * jz p)) then
    if rdec (jy p * (jz q * (jz q * jz q))) (jy q * (jz p * (jz p * jz p))) then jdbl p else jsum p q
  else jsum p q.
Lemma add_affine p q A B : on_affine p A -> on_affine q B -> on_affine (jac_add p q) (aff_add A B).
Proof.
  intros Hp Hq. unfold jac_add. destruct A as [[x1 y1]|]; [|cbn in Hp; destruct (rdec (jz p) r0); [destruct B; exact Hq|done]]. pose proof Hp as [Zp [Xp Yp]]. destruct (rdec (jz p) r0); [done|]. destruct B as [[x2 y2]|]; [|cbn in Hq; destruct (rdec (jz q) r0); [exact Hp|done]]. pose proof Hq as [Zq [Xq Yq]]. destruct (rdec (jz q) r0); [done|].
  set (w := jz p * jz q). assert (Hw : ~ w == r0) by (by apply integral). assert (Hww : ~ w * w == r0) by (by apply integral). assert (Hwww : ~ w * (w * w) == r0) by (by apply integral).
  assert (Hx : jx p * (jz q * jz q) == jx q * (jz p * jz p) <-> x1 == x2).
  { rewrite Xp, Xq. split; intros E; [|rewrite E; ring]. apply (unit_cancel _ _ (w * w) Hww). transitivity (x1 * (jz p * jz p) * (jz q * jz q)); [unfold w; ring|]. rewrite E. unfold w. ring. }
  assert (Hy : jy p * (jz q * (jz q * jz q)) == jy q * (jz p * (jz p * jz p)) <-> y1 == y2).
  { rewrite Yp, Yq. split; intros E; [|rewrite E; ring]. apply (unit_cancel _ _ (w * (w * w)) Hwww). transitivity (y1 * (jz p * (jz p * jz p)) * (jz q * (jz q * jz q))); [unfold w; ring|]. rewrite E. unfold w. ring. }
  assert (Ez : jz (jsum p q) == (jx q * (jz p * jz p) - jx p * (jz q * jz q)) * w * (r1 + r1)) by (unfold jadd, w; cbn [jz]; ring).
  cbn [aff_add]. destruct (rdec x1 x2) as [E|E]; [destruct (rdec y1 y2) as [E'|E']|].
  - destruct (rdec (jx p * _) _) as [_|N]; [|by destruct N; apply Hx]. destruct (rdec (jy p * _) _) as [_|N]; [|by destruct N; apply Hy]. by apply double_affine.
  - destruct (rdec (jx p * _) _) as [E1|N]; [|by destruct N; apply Hx]. destruct (rdec (jy p * _) _) as [N|_]; [by destruct E'; apply Hy|]. cbn [on_affine]. rewrite Ez, E1. ring.
  - destruct (rdec (jx p * _) _) as [N|N]; [by destruct E; apply Hx|]. cbn [on_affine]. split.
    + rewrite Ez. apply integral; [|exact two_unit]. apply integral; [|exact Hw]. intros E0. apply N. symmetry. by apply sub_zero.
    + apply (jadd_chord r0 r1 radd rmul rsub ropp req Rth Rst Rext p q x1 y1 x2 y2 ((y2 - y1) * rinv (x2 - x1))); [by split|by split|]. transitivity ((y2 - y1) * ((x2 - x1) * rinv (x2 - x1))); [ring|]. rewrite rinv_r by (intros E0; apply E; symmetry; by apply sub_zero). ring.
Qed.
Lemma neg_affine p A : on_affine p A -> on_affine (JPoint (jx p) (ropp (jy p)) (jz p)) (aff_neg A).
Proof. destruct A as [[x y]|]; cbn [on_affine aff_neg jz]; [|done]. intros [Hz [Hx Hy]]. split; [done|]. split; cbn [jx jy jz]; [exact Hx|]. rewrite Hy. ring. Qed.
End affine_group.

(** ** The field of curve.go *)

#[local] Opaque P gfpAdd gfpSub gfpMul gfpNeg gfP_Invert newGFp gfp_num.
#[export] Instance eqm_decision n a b : Decision (eqm n a b) := Z.eq_dec (a mod n) (b mod n).
Definition Zinv (z : Z) : Z := default 0 (ModInverse z P).
Definition Zdec (a b : Z) : {eqm P a b} + {~ eqm P a b} := Z.eq_dec (a mod P) (b mod P).
Lemma Zinv_r a : ~ eqm P a 0 -> eqm P (a * Zinv a) 1.
Proof.
  intros Ha. unfold Zinv. destruct (ModInverse_complete a P P_pos) as [i Hi]; [|rewrite Hi; by apply (ModInverse_correct a P i P_pos)]. apply Zgcd_1_rel_prime, rel_prime_sym, prime_rel_prime; [apply P_prime|]. intros D. apply Ha. apply eqm_divide; [apply P_pos|]. by rewrite Z.sub_0_r.
Qed.
Lemma Z_two : ~ eqm P (1 + 1) 0.
Proof. vm_compute. discriminate. Qed.

#[local] Abbreviation Zaff := (on_affine 0 Z.mul (eqm P)).
#[local] Abbreviation Zaff_add := (aff_add 0 Z.add Z.mul Z.sub (eqm P) Zinv Zdec).
#[local] Abbreviation Zaff_double := (aff_double 0 Z.add Z.mul Z.sub (eqm P) Zinv Zdec).
#[local] Abbreviation Zjac_add := (jac_add 0 Z.add Z.mul Z.sub (eqm P) Zdec).

Definition repJ (c : cf_curvePoint) (j : @jpoint Z) : Prop := rep1 (px c) (jx j) /\ rep1 (py c) (jy j) /\ rep1 (pz c) (jz j).
Ltac rep1_steps := repeat match goal with
  | |- rep1 (gfpAdd _ _) _ => apply rep1_Add
  | |- rep1 (gfpSub _ _) _ => apply rep1_Sub
  | |- rep1 (gfpMul _ _) _ => apply rep1_Mul
  | |- rep1 (gfpNeg _) _ => apply rep1_Neg
  | H : rep1 ?a _ |- rep1 ?a _ => exact H
  end.
Lemma repJ_Double c a j : repJ a j -> repJ (cf_curve_Double c a) (jdouble Z.add Z.mul Z.sub j).
Proof.
  intros (Hx & Hy & Hz). unfold cf_curve_Double, jdouble. cbv zeta. cbn [jx jy jz]. split; [|split]; cbn [px py pz jx jy jz]; (eapply rep1_eqm; [rep1_steps|apply eqm_eq; ring]).
Qed.
Lemma repJ_zero_test c j : repJ c j -> cf_curve_IsInfinity c = true <-> eqm P (jz j) 0.
Proof. intros (_ & _ & Hz). unfold cf_curve_IsInfinity. rewrite bool_decide_eq_true. by apply rep1_inj; [|apply rep1_zero]. Qed.
Lemma repJ_Add c a b j k : repJ a j -> repJ b k -> repJ (cf_curve_Add c a b) (Zjac_add j k).
Proof.
  intros Ha Hb. unfold jac_add, cf_curve_Add. pose proof (repJ_zero_test a j Ha) as Ia. pose proof (repJ_zero_test b k Hb) as Ib. destruct (cf_curve_IsInfinity a), (Zdec (jz j) 0) as [Za|Za]; try (exact Hb); try (by exfalso; apply Za, Ia); try (by apply Ia in Za). clear Ia. destruct (cf_curve_IsInfinity b), (Zdec (jz k) 0) as [Zb|Zb]; try (exact Ha); try (by exfalso; apply Zb, Ib); try (by apply Ib in Zb). clear Ib.
  pose proof Ha as (Xa & Ya & Za1). pose proof Hb as (Xb & Yb & Zb1). cbv zeta.
  set (h := gfpSub (gfpMul (px b) (gfpMul (pz a) (pz a))) (gfpMul (px a) (gfpMul (pz b) (pz b)))). set (s := gfpSub (gfpMul (py b) (gfpMul (pz a) (gfpMul (pz a) (pz a)))) (gfpMul (py a) (gfpMul (pz b) (gfpMul (pz b) (pz b))))).
  assert (Rh : rep1 h (jx k * (jz j * jz j) - jx j * (jz k * jz k))) by (unfold h; rep1_steps). clearbody h. assert (Rs : rep1 s (jy k * (jz j * (jz j * jz j)) - jy j * (jz k * (jz k * jz k)))) by (unfold s; rep1_steps). clearbody s.
  assert (Eh : bool_decide (h = gfP_zero) = true <-> eqm P (jx j * (jz k * jz k)) (jx k * (jz j * jz j))).
  { rewrite bool_decide_eq_true, (rep1_inj _ _ _ _ Rh rep1_zero). split; intros E; [symmetry; by apply (sub_zero 0 1 Z.add Z.mul Z.sub Z.opp (eqm P) (eqm_ring _) _ (eqm_ext _))|rewrite E; apply eqm_eq; ring]. }
  assert (Es : bool_decide (s = gfP_zero) = true <-> eqm P (jy j * (jz k * (jz k * jz k))) (jy k * (jz j * (jz j * jz j)))).
  { rewrite bool_decide_eq_true, (rep1_inj _ _ _ _ Rs rep1_zero). split; intros E; [symmetry; by apply (sub_zero 0 1 Z.add Z.mul Z.sub Z.opp (eqm P) (eqm_ring _) _ (eqm_ext _))|rewrite E; apply eqm_eq; ring]. }
  match goal with |- repJ (if _ then _ else ?p) _ => assert (Rsum : repJ p (jadd Z.add Z.mul Z.sub j k)) end; [|destruct (bool_decide (h = gfP_zero)), (Zdec (jx j * _) _) as [E1|E1]; cbn [andb]; [destruct (bool_decide (s = gfP_zero)), (Zdec (jy j * _) _) as [E2|E2]|..]].
  2: by apply repJ_Double. 2: by destruct E2; apply Es. 2: by apply Es in E2. 2: exact Rsum. 2: by destruct E1; apply Eh. 2: by apply Eh in E1. 2: exact Rsum.
  clear Eh Es. unfold jadd. cbv zeta. cbn [jx jy jz]. set (zh := jx k * (jz j * jz j) - jx j * (jz k * jz k)) in *. set (zs := jy k * (jz j * (jz j * jz j)) - jy j * (jz k * (jz k * jz k))) in *. clearbody zh zs.
  split; [|split]; cbn [px py pz jx jy jz]; (eapply rep1_eqm; [rep1_steps|apply eqm_eq; ring]).
Qed.

(** ** The lattice *)

(** The endomorphism of the curve multiplies by this number. *)
Definition lambda : Z := 4407920970296243842393367215006156084916469457145843978461.
Lemma round_spec num : exists r, num = l_det curveLattice * round num (l_det curveLattice) + r /\ half - l_det curveLattice < r <= half.
Proof.
  unfold round. set (d := l_det curveLattice). assert (Hd : 0 < d /\ 0 < half < d) by (by vm_compute). pose proof (Z.mod_pos_bound num d ltac:(lia)) as Hr. pose proof (Z.div_mod num d ltac:(lia)) as E. destruct (Z.ltb_spec half (num mod d)); [exists (num mod d - d)|exists (num mod d)]; split; lia.
Qed.
Lemma decompose_spec k : exists k0 k1, decompose curveLattice k = [k0; k1] /\ (k0 + lambda * k1) mod Order = k mod Order /\ 0 < k0 < 2 ^ 129 /\ 0 < k1 < 2 ^ 129.
Proof.
  unfold decompose, closest, column. cbn [map curveLattice l_inverse l_vectors l_det length seq zip zip_with foldl lookup_total list_lookup_total]. change 43776485743678550444492811490514550177096728800832068687396408373151616991234 with (l_det curveLattice).
  destruct (round_spec (k * 147946756881789318990833708069417712965)) as (q0 & E0 & B0). destruct (round_spec (k * 147946756881789319010696353538189108491)) as (q1 & E1 & B1). set (c0 := round (k * 147946756881789318990833708069417712965) (l_det curveLattice)) in *. set (c1 := round (k * 147946756881789319010696353538189108491) (l_det curveLattice)) in *. clearbody c0 c1. eexists _, _. split; [reflexivity|].
  change (l_det curveLattice) with 43776485743678550444492811490514550177096728800832068687396408373151616991234 in *. change half with 10944121435919637611123202872628637544274182200208017171849102093287904247808 in *. split_and!; [|lia|lia|lia|lia].
  assert (Hm : exists m0 m1, 147946756881789319000765030803803410728 + lambda * 147946756881789319010696353538189108491 = m0 * Order /\ 147946756881789319020627676272574806254 + lambda * -147946756881789318990833708069417712965 = m1 * Order).
  { exists ((147946756881789319000765030803803410728 + lambda * 147946756881789319010696353538189108491) / Order), ((147946756881789319020627676272574806254 + lambda * -147946756881789318990833708069417712965) / Order). vm_compute. split; reflexivity. }
  destruct Hm as (m0 & m1 & M0 & M1). match goal with |- ?x mod _ = _ => replace x with (k + (m0 * (2 - c0) - m1 * c1) * Order) end; [apply Z_mod_plus_full|].
  replace ((m0 * (2 - c0) - m1 * c1) * Order) with ((2 - c0) * (m0 * Order) - c1 * (m1 * Order)) by ring. rewrite <- M0, <- M1. ring.
Qed.

(** The digits of a scalar: a bit of each half. *)
Definition pair_digit (k0 k1 : Z) (i : nat) : Z := Z.b2z (Z.testbit k0 (Z.of_nat i)) + 2 * Z.b2z (Z.testbit k1 (Z.of_nat i)).
Lemma Multi_spec k k0 k1 : decompose curveLattice k = [k0; k1] -> 0 < k0 -> 0 < k1 -> Multi curveLattice k = map (pair_digit k0 k1) (seq 0 (Z.to_nat (Z.max (bit_len k0) (bit_len k1)))).
Proof.
  intros E H0 H1. unfold Multi. rewrite E. cbn [foldl]. assert (Hb : forall x, 0 <= bit_len x) by (intros x; unfold bit_len; destruct (x =? 0); [lia|pose proof (Z.log2_nonneg (Z.abs x)); lia]). pose proof (Hb k0). pose proof (Hb k1).
  assert (Em : (if (if 0 <? bit_len k0 then bit_len k0 else 0) <? bit_len k1 then bit_len k1 else if 0 <? bit_len k0 then bit_len k0 else 0) = Z.max (bit_len k0) (bit_len k1)) by (destruct (Z.ltb_spec 0 (bit_len k0)); [destruct (Z.ltb_spec (bit_len k0) (bit_len k1))|destruct (Z.ltb_spec 0 (bit_len k1))]; lia).
  rewrite Em. apply map_ext. intros i. unfold pair_digit. change (imap pair [k0; k1]) with [(0%nat, k0); (1%nat, k1)]. cbn [foldl compose]. destruct (Z.testbit k0 (Z.of_nat i)), (Z.testbit k1 (Z.of_nat i)); reflexivity.
Qed.

(** ** Points of curve.go *)

(** A point of the code and the affine point, or infinity, that it is. *)
Definition curve_aff (c : cf_curvePoint) (A : option (Z * Z)) : Prop := exists j, repJ c j /\ Zaff j A.

Lemma curve_aff_Double c a A : curve_aff a A -> curve_aff (cf_curve_Double c a) (Zaff_double A).
Proof.
  intros (j & Hj & HA). exists (jdouble Z.add Z.mul Z.sub j). split; [by apply repJ_Double|]. apply (double_affine 0 1 Z.add Z.mul Z.sub Z.opp (eqm P) (eqm_ring _) _ (eqm_ext _) Zinv Zdec Zinv_r Z_two). exact HA.
Qed.
Lemma curve_aff_Add c a b A B : curve_aff a A -> curve_aff b B -> curve_aff (cf_curve_Add c a b) (Zaff_add A B).
Proof.
  intros (j & Hj & HA) (k & Hk & HB). exists (Zjac_add j k). split; [by apply repJ_Add|]. apply (add_affine 0 1 Z.add Z.mul Z.sub Z.opp (eqm P) (eqm_ring _) _ (eqm_ext _) Zinv Zdec Zinv_r Z_two); [exact HA|exact HB].
Qed.
Lemma curve_aff_Neg a A : curve_aff a A -> curve_aff (cf_curve_Neg a) (aff_neg Z.opp A).
Proof.
  intros (j & (Hx & Hy & Hz) & HA). exists (JPoint (jx j) (- jy j) (jz j)). split; [split; [exact Hx|split; [by apply rep1_Neg|exact Hz]]|]. apply (neg_affine 0 1 Z.add Z.mul Z.sub Z.opp (eqm P) (eqm_ring _) _ (eqm_ext _)). exact HA.
Qed.
Lemma curve_aff_infinity : curve_aff cf_curve_SetInfinity None /\ curve_aff new_curvePoint None.
Proof. split; [exists (JPoint 0 1 0)|exists (JPoint 0 0 0)]; (split; [split; [exact rep1_zero|split; [exact rep1_zero || exact (rep1_new 1 ltac:(lia))|exact rep1_zero]]|done]). Qed.
Lemma curve_aff_IsInfinity c A : curve_aff c A -> cf_curve_IsInfinity c = true <-> A = None.
Proof. intros (j & Hj & HA). rewrite (repJ_zero_test c j Hj). destruct A as [[x y]|]; cbn in HA; [|done]. destruct HA as [Hz _]. split; [done|discriminate]. Qed.
(** The words of a point determine it up to congruence. *)
Lemma curve_aff_total c : gfp_ok (px c) -> gfp_ok (py c) -> gfp_ok (pz c) -> exists A, curve_aff c A.
Proof.
  intros Hx Hy Hz. set (j := JPoint (gfp_num (px c)) (gfp_num (py c)) (gfp_num (pz c))). assert (Hj : repJ c j) by (split; [|split]; by apply rep1_num). destruct (Zdec (jz j) 0) as [E|E]; [exists None, j; done|].
  set (i := Zinv (jz j)). assert (Hi : eqm P (jz j * i) 1) by (by apply Zinv_r). exists (Some (jx j * (i * i), jy j * (i * (i * i)))), j. split; [exact Hj|]. split; [exact E|]. split.
  - transitivity (jx j * (jz j * i) * (jz j * i)); [rewrite Hi; apply eqm_eq; ring|apply eqm_eq; ring].
  - transitivity (jy j * (jz j * i) * (jz j * i) * (jz j * i)); [rewrite Hi; apply eqm_eq; ring|apply eqm_eq; ring].
Qed.

Lemma MakeAffine_spec c A : curve_aff c A -> match A with
  | None => cf_curve_MakeAffine c = CfCurvePoint gfP_zero (newGFp 1) gfP_zero gfP_zero
  | Some (x, y) => rep1 (px (cf_curve_MakeAffine c)) x /\ rep1 (py (cf_curve_MakeAffine c)) y /\ pz (cf_curve_MakeAffine c) = newGFp 1
  end.
Proof.
  intros (j & (Hx & Hy & Hz) & HA). unfold cf_curve_MakeAffine. assert (R1 : rep1 (newGFp 1) 1) by (apply rep1_new; lia). assert (R0 : rep1 (newGFp 0) 0) by (apply rep1_new; lia). assert (E0 : newGFp 0 = gfP_zero) by (by apply (rep1_inj _ _ _ _ R0 rep1_zero)).
  destruct A as [[x y]|].
  - destruct HA as [Hn [Ex Ey]]. case_bool_decide as B1; [|case_bool_decide as B2].
    + assert (Ez : eqm P (jz j) 1) by (by apply (rep1_inj _ _ _ _ Hz R1)). rewrite Ez in Ex, Ey. split; [|split; [|exact B1]]; (eapply rep1_eqm; [eassumption|]); [rewrite Ex|rewrite Ey]; apply eqm_eq; ring.
    + exfalso. apply Hn. by apply (rep1_inj _ _ _ _ Hz R0).
    + cbv zeta. cbn [px py pz]. pose proof (rep1_Invert _ _ _ Hz (Zinv_r _ Hn)) as Hi. set (inv := gfP_Invert (pz c)) in *. clearbody inv. pose proof (Zinv_r _ Hn) as Ei. set (i := Zinv (jz j)) in *. clearbody i. split; [|split; [|done]].
      * eapply rep1_eqm; [rep1_steps|]. rewrite Ex. transitivity (x * (jz j * i) * (jz j * i)); [apply eqm_eq; ring|]. rewrite Ei. apply eqm_eq. ring.
      * eapply rep1_eqm; [rep1_steps|]. rewrite Ey. transitivity (y * (jz j * i) * (jz j * i) * (jz j * i)); [apply eqm_eq; ring|]. rewrite Ei. apply eqm_eq. ring.
  - cbn in HA. assert (Ez : pz c = gfP_zero) by (by apply (rep1_inj _ _ _ _ Hz rep1_zero)). rewrite Ez. case_bool_decide as B1.
    + exfalso. apply (rep1_inj _ _ _ _ rep1_zero R1) in B1. revert B1. vm_compute. discriminate.
    + rewrite E0, bool_decide_true by done. done.
Qed.
Lemma IsOnCurve_spec c x y : curve_aff c (Some (x, y)) -> cf_curve_IsOnCurve c = (cf_curve_MakeAffine c, bool_decide (eqm P (y * y) (x * x * x + 3))).
Proof.
  intros H. pose proof (MakeAffine_spec c _ H) as (Rx & Ry & Ez). unfold cf_curve_IsOnCurve. set (d := cf_curve_MakeAffine c) in *. clearbody d. assert (R1 : rep1 (newGFp 1) 1) by (apply rep1_new; lia). assert (R3 : rep1 cf_curveB 3) by (apply rep1_new; lia).
  unfold cf_curve_IsInfinity. rewrite Ez, bool_decide_false. 2: { intros E. symmetry in E. apply (rep1_inj _ _ _ _ rep1_zero R1) in E. revert E. vm_compute. discriminate. }
  f_equal. apply bool_decide_ext. apply rep1_inj; rep1_steps.
Qed.

(** The multiples of two points by the halves of a scalar, bit by bit. *)
Section straus.
Context {A : Type} (dbl : A -> A) (add : A -> A -> A) (a b ab : A).
Fixpoint straus (k0 k1 : Z) (i : nat) (sum : A) : A :=
  match i with
  | O => sum
  | S i =>
      let t := dbl sum in
      straus k0 k1 i (match Z.testbit k0 (Z.of_nat i), Z.testbit k1 (Z.of_nat i) with
                      | false, false => t | true, false => add t a | false, true => add t b | true, true => add t ab
                      end)
  end.
End straus.
(** The endomorphism (x, y) to (beta x, y). *)
Definition phi (A : option (Z * Z)) : option (Z * Z) := match A with None => None | Some (x, y) => Some (x * xiTo2PSquaredMinus2Over3, y) end.
Definition glv (k0 k1 : Z) (A : option (Z * Z)) : option (Z * Z) :=
  straus Zaff_double Zaff_add A (phi A) (Zaff_add A (phi A)) k0 k1 (Z.to_nat (Z.max (bit_len k0) (bit_len k1))) None.

Lemma curve_aff_phi c A : curve_aff c A -> curve_aff (CfCurvePoint (gfpMul (px c) cf_xiTo2PSquaredMinus2Over3) (py c) (pz c) (pt c)) (phi A).
Proof.
  intros (j & (Hx & Hy & Hz) & HA). exists (JPoint (jx j * xiTo2PSquaredMinus2Over3) (jy j) (jz j)). split; [split; [exact (rep1_Mul _ _ _ _ Hx rep_xiTo2PSquaredMinus2Over3)|by split]|]. destruct A as [[x y]|]; [|exact HA]. destruct HA as [Hn [Ex Ey]]. split; [exact Hn|]. split; [|exact Ey]. cbn [jx jz]. rewrite Ex. apply eqm_eq. ring.
Qed.
Lemma curve_mul_spec a A k0 k1 n : curve_aff a A -> forall sum t S, curve_aff sum S ->
  curve_aff (cf_curve_mul (curve_precomp a) (rev (map (pair_digit k0 k1) (seq 0 n))) sum t) (straus Zaff_double Zaff_add A (phi A) (Zaff_add A (phi A)) k0 k1 n S).
Proof.
  intros Ha. induction n as [|n IH]; intros sum t S0 Hs; [exact Hs|]. rewrite seq_S, map_app, rev_app_distr. cbn [rev app map Nat.add cf_curve_mul straus]. pose proof (curve_aff_Double t sum S0 Hs) as Hd. pose proof (curve_aff_phi a A Ha) as Hp. apply IH. unfold pair_digit.
  destruct (Z.testbit k0 (Z.of_nat n)), (Z.testbit k1 (Z.of_nat n)); cbn [Z.b2z Z.add Z.mul Z.eqb Pos.eqb Pos.add Pos.mul]; [|apply curve_aff_Add; [exact Hd|exact Ha]|apply curve_aff_Add; [exact Hd|exact Hp]|exact Hd].
  apply curve_aff_Add; [exact Hd|]. by apply curve_aff_Add.
Qed.
Lemma curve_aff_Mul a A k : curve_aff a A -> exists k0 k1, (k0 + lambda * k1) mod Order = k mod Order /\ 0 < k0 < 2 ^ 129 /\ 0 < k1 < 2 ^ 129 /\ curve_aff (cf_curve_Mul a k) (glv k0 k1 A).
Proof.
  intros Ha. destruct (decompose_spec k) as (k0 & k1 & E & Ek & B0 & B1). exists k0, k1. split; [exact Ek|]. split; [exact B0|]. split; [exact B1|]. unfold cf_curve_Mul. rewrite (Multi_spec k k0 k1 E) by lia. apply curve_mul_spec; [exact Ha|]. apply curve_aff_infinity.
Qed.

(** ** The field of twist.go *)

#[local] Opaque gfP2_Add gfP2_Sub gfP2_Mul gfP2_Square gfP2_Negative gfP2_Invert cf_gfP2_Add cf_gfP2_Sub cf_gfP2_Mul cf_gfP2_Square cf_gfP2_Neg cf_gfP2_Invert cf_gfP2_IsZero cf_gfP2_IsOne.
Definition Tinv (g : gfP2) : gfP2 := default gfP2_SetZero (gfP2_Invert g).
Definition Tdec (a b : gfP2) : {eq2 a b} + {~ eq2 a b}.
Proof. unfold eq2. destruct (Zdec (x2 a) (x2 b)), (Zdec (y2 a) (y2 b)); (left; done) || (right; tauto). Defined.
#[export] Instance eq2_decision a b : Decision (eq2 a b) := Tdec a b.
Lemma Tinv_r a : ~ eq2 a gfP2_SetZero -> eq2 (gfP2_Mul a (Tinv a)) gfP2_SetOne.
Proof. intros Ha. unfold Tinv. destruct (gfP2_Invert_total a Ha) as [i Hi]. rewrite Hi. by apply gfP2_Invert_correct. Qed.
Lemma T_two : ~ eq2 (gfP2_Add gfP2_SetOne gfP2_SetOne) gfP2_SetZero.
Proof. intros [_ E]. revert E. vm_compute. discriminate. Qed.

#[local] Abbreviation Taff := (on_affine gfP2_SetZero gfP2_Mul eq2).
#[local] Abbreviation Taff_add := (aff_add gfP2_SetZero gfP2_Add gfP2_Mul gfP2_Sub eq2 Tinv Tdec).
#[local] Abbreviation Taff_double := (aff_double gfP2_SetZero gfP2_Add gfP2_Mul gfP2_Sub eq2 Tinv Tdec).
#[local] Abbreviation Tjac_add := (jac_add gfP2_SetZero gfP2_Add gfP2_Mul gfP2_Sub eq2 Tdec).
Add Ring gfP2_twist : gfP2_ring (setoid eq2_equiv gfP2_ext).

Definition repT (c : cf_twistPoint) (j : @jpoint gfP2) : Prop := rep2 (qx c) (jx j) /\ rep2 (qy c) (jy j) /\ rep2 (qz c) (jz j).
Lemma rep2_Square_Mul a g : rep2 a g -> rep2 (cf_gfP2_Square a) (gfP2_Mul g g).
Proof. intros H. eapply rep2_eq; [by apply rep2_Square|apply gfP2_Square_Mul]. Qed.
Ltac rep2_ops := repeat match goal with
  | |- rep2 (cf_gfP2_Add _ _) _ => apply rep2_Add
  | |- rep2 (cf_gfP2_Sub _ _) _ => apply rep2_Sub
  | |- rep2 (cf_gfP2_Mul _ _) _ => apply rep2_Mul
  | |- rep2 (cf_gfP2_Square _) _ => apply rep2_Square_Mul
  | |- rep2 (cf_gfP2_Neg _) _ => apply rep2_Neg
  | H : rep2 ?a _ |- rep2 ?a _ => exact H
  end.
Lemma rep2_inj a b g h : rep2 a g -> rep2 b h -> a = b <-> eq2 g h.
Proof.
  intros [A1 A2] [B1 B2]. split; [intros ->; split; [by apply (rep1_inj _ _ _ _ A1 B1)|by apply (rep1_inj _ _ _ _ A2 B2)]|]. intros [E1 E2]. apply (rep1_inj _ _ _ _ A1 B1) in E1. apply (rep1_inj _ _ _ _ A2 B2) in E2. destruct a, b. cbn in E1, E2. by subst.
Qed.

Lemma repT_Double c a j : repT a j -> repT (cf_twist_Double c a) (jdouble gfP2_Add gfP2_Mul gfP2_Sub j).
Proof.
  intros (Hx & Hy & Hz). unfold cf_twist_Double, jdouble. cbv zeta. cbn [jx jy jz]. split; [|split]; cbn [qx qy qz jx jy jz]; (eapply rep2_eq; [rep2_ops|ring]).
Qed.
Lemma repT_Add c a b j k : repT a j -> repT b k -> repT (cf_twist_Add c a b) (Tjac_add j k).
Proof.
  intros Ha Hb. unfold jac_add, cf_twist_Add, cf_twist_IsInfinity. pose proof Ha as (Xa & Ya & Za1). pose proof Hb as (Xb & Yb & Zb1). pose proof (rep2_IsZero _ _ Za1) as Ia. pose proof (rep2_IsZero _ _ Zb1) as Ib.
  destruct (cf_gfP2_IsZero (qz a)), (Tdec (jz j) gfP2_SetZero) as [Za|Za]; try (exact Hb); try (by exfalso; apply Za, Ia); try (by apply Ia in Za). clear Ia. destruct (cf_gfP2_IsZero (qz b)), (Tdec (jz k) gfP2_SetZero) as [Zb|Zb]; try (exact Ha); try (by exfalso; apply Zb, Ib); try (by apply Ib in Zb). clear Ib. cbv zeta.
  set (h := cf_gfP2_Sub (cf_gfP2_Mul (qx b) (cf_gfP2_Square (qz a))) (cf_gfP2_Mul (qx a) (cf_gfP2_Square (qz b)))). set (s := cf_gfP2_Sub (cf_gfP2_Mul (qy b) (cf_gfP2_Mul (qz a) (cf_gfP2_Square (qz a)))) (cf_gfP2_Mul (qy a) (cf_gfP2_Mul (qz b) (cf_gfP2_Square (qz b))))).
  set (zh := gfP2_Sub (gfP2_Mul (jx k) (gfP2_Mul (jz j) (jz j))) (gfP2_Mul (jx j) (gfP2_Mul (jz k) (jz k)))). set (zs := gfP2_Sub (gfP2_Mul (jy k) (gfP2_Mul (jz j) (gfP2_Mul (jz j) (jz j)))) (gfP2_Mul (jy j) (gfP2_Mul (jz k) (gfP2_Mul (jz k) (jz k))))).
  assert (Rh : rep2 h zh) by (unfold h, zh; rep2_ops). clearbody h. assert (Rs : rep2 s zs) by (unfold s, zs; rep2_ops). clearbody s. pose proof (rep2_IsZero _ _ Rh) as Eh. pose proof (rep2_IsZero _ _ Rs) as Es.
  unfold zh in Eh. rewrite (sub_zero gfP2_SetZero gfP2_SetOne gfP2_Add gfP2_Mul gfP2_Sub gfP2_Negative eq2 gfP2_ring _ gfP2_ext) in Eh. unfold zs in Es. rewrite (sub_zero gfP2_SetZero gfP2_SetOne gfP2_Add gfP2_Mul gfP2_Sub gfP2_Negative eq2 gfP2_ring _ gfP2_ext) in Es.
  match goal with |- repT (if _ then _ else ?p) _ => assert (Rsum : repT p (jadd gfP2_Add gfP2_Mul gfP2_Sub j k)) end; [|destruct (cf_gfP2_IsZero h), (Tdec (gfP2_Mul (jx j) _) _) as [E1|E1]; cbn [andb]; [destruct (cf_gfP2_IsZero s), (Tdec (gfP2_Mul (jy j) _) _) as [E2|E2]|..]].
  2: by apply repT_Double. 2: by destruct E2; symmetry; apply Es. 2: by symmetry in E2; apply Es in E2. 2: exact Rsum. 2: by destruct E1; symmetry; apply Eh. 2: by symmetry in E1; apply Eh in E1. 2: exact Rsum.
  clear Eh Es. unfold jadd. cbv zeta. cbn [jx jy jz]. fold zh zs. clearbody zh zs. split; [|split]; cbn [qx qy qz jx jy jz]; (eapply rep2_eq; [rep2_ops|ring]).
Qed.

(** A point of the twist and the affine point, or infinity, that it is. *)
Definition twist_aff (c : cf_twistPoint) (A : option (gfP2 * gfP2)) : Prop := exists j, repT c j /\ Taff j A.
Lemma twist_aff_Double c a A : twist_aff a A -> twist_aff (cf_twist_Double c a) (Taff_double A).
Proof.
  intros (j & Hj & HA). exists (jdouble gfP2_Add gfP2_Mul gfP2_Sub j). split; [by apply repT_Double|]. apply (double_affine gfP2_SetZero gfP2_SetOne gfP2_Add gfP2_Mul gfP2_Sub gfP2_Negative eq2 gfP2_ring _ gfP2_ext Tinv Tdec Tinv_r T_two). exact HA.
Qed.
Lemma twist_aff_Add c a b A B : twist_aff a A -> twist_aff b B -> twist_aff (cf_twist_Add c a b) (Taff_add A B).
Proof.
  intros (j & Hj & HA) (k & Hk & HB). exists (Tjac_add j k). split; [by apply repT_Add|]. apply (add_affine gfP2_SetZero gfP2_SetOne gfP2_Add gfP2_Mul gfP2_Sub gfP2_Negative eq2 gfP2_ring _ gfP2_ext Tinv Tdec Tinv_r T_two); [exact HA|exact HB].
Qed.
Lemma twist_aff_Neg a A : twist_aff a A -> twist_aff (cf_twist_Neg a) (aff_neg gfP2_Negative A).
Proof.
  intros (j & (Hx & Hy & Hz) & HA). exists (JPoint (jx j) (gfP2_Negative (jy j)) (jz j)). split; [split; [exact Hx|split; [by apply rep2_Neg|exact Hz]]|]. apply (neg_affine gfP2_SetZero gfP2_SetOne gfP2_Add gfP2_Mul gfP2_Sub gfP2_Negative eq2 gfP2_ring _ gfP2_ext). exact HA.
Qed.
Lemma twist_aff_infinity : twist_aff new_twistPoint None.
Proof. exists (JPoint gfP2_SetZero gfP2_SetZero gfP2_SetZero). split; [split; [exact rep2_zero|split; exact rep2_zero]|]. cbn. reflexivity. Qed.

(** Double and add. *)
Section double_and_add.
Context {A : Type} (dbl : A -> A) (add : A -> A -> A) (a : A).
Fixpoint double_and_add (k : Z) (i : nat) (sum : A) : A :=
  match i with
  | O => sum
  | S i => let t := dbl sum in double_and_add k i (if Z.testbit k (Z.of_nat i) then add t a else t)
  end.
End double_and_add.
Definition twist_multiple (k : Z) (A : option (gfP2 * gfP2)) : option (gfP2 * gfP2) := double_and_add Taff_double Taff_add A k (S (Z.to_nat (bit_len k))) None.
Lemma twist_aff_Mul a A k : twist_aff a A -> twist_aff (cf_twist_Mul a k) (twist_multiple k A).
Proof.
  intros Ha. unfold cf_twist_Mul, twist_multiple. generalize twist_aff_infinity. generalize new_twistPoint at 1 2 as sum. generalize new_twistPoint as t. generalize (@None (gfP2 * gfP2)) as B. generalize (S (Z.to_nat (bit_len k))) as i. induction i as [|i IH]; intros B t sum Hs; [exact Hs|]. cbn [cf_twist_mul double_and_add]. apply IH. pose proof (twist_aff_Double t sum B Hs) as Hd. destruct (Z.testbit k (Z.of_nat i)); [by apply twist_aff_Add|exact Hd].
Qed.
Lemma twist_aff_IsInfinity c A : twist_aff c A -> cf_twist_IsInfinity c = true <-> A = None.
Proof. intros (j & (_ & _ & Hz) & HA). unfold cf_twist_IsInfinity. rewrite (rep2_IsZero _ _ Hz). destruct A as [[x y]|]; cbn in HA; [|done]. destruct HA as [Hn _]. split; [done|discriminate]. Qed.
Lemma cf_Invert_Tinv a g : rep2 a g -> ~ eq2 g gfP2_SetZero -> rep2 (cf_gfP2_Invert a) (Tinv g).
Proof. intros Ha Hn. unfold Tinv. destruct (gfP2_Invert_total g Hn) as [i Hi]. rewrite Hi. by eapply rep2_Invert. Qed.
Lemma twist_MakeAffine_spec c A : twist_aff c A -> match A with
  | None => cf_twist_MakeAffine c = CfTwistPoint cf_gfP2_SetZero cf_gfP2_SetOne cf_gfP2_SetZero cf_gfP2_SetZero
  | Some (x, y) => rep2 (qx (cf_twist_MakeAffine c)) x /\ rep2 (qy (cf_twist_MakeAffine c)) y /\ qz (cf_twist_MakeAffine c) = cf_gfP2_SetOne
  end.
Proof.
  intros (j & (Hx & Hy & Hz) & HA). unfold cf_twist_MakeAffine. pose proof (rep2_IsOne _ _ Hz) as I1. pose proof (rep2_IsZero _ _ Hz) as I0. destruct A as [[x y]|].
  - destruct HA as [Hn [Ex Ey]]. destruct (cf_gfP2_IsOne (qz c)); [|destruct (cf_gfP2_IsZero (qz c))].
    + assert (Ez : eq2 (jz j) gfP2_SetOne) by (by apply I1). rewrite Ez in Ex, Ey. split; [|split; [|by apply (rep2_inj _ _ _ _ Hz rep2_one)]]; (eapply rep2_eq; [eassumption|]); [rewrite Ex|rewrite Ey]; ring.
    + exfalso. apply Hn. by apply I0.
    + cbv zeta. cbn [qx qy qz]. pose proof (cf_Invert_Tinv _ _ Hz Hn) as Hi. set (inv := cf_gfP2_Invert (qz c)) in *. clearbody inv. pose proof (Tinv_r _ Hn) as Ei. set (i := Tinv (jz j)) in *. clearbody i. split; [|split; [|done]].
      * eapply rep2_eq; [rep2_ops|]. rewrite Ex. transitivity (gfP2_Mul (gfP2_Mul x (gfP2_Mul (jz j) i)) (gfP2_Mul (jz j) i)); [ring|]. rewrite Ei. ring.
      * eapply rep2_eq; [rep2_ops|]. rewrite Ey. transitivity (gfP2_Mul (gfP2_Mul (gfP2_Mul y (gfP2_Mul (jz j) i)) (gfP2_Mul (jz j) i)) (gfP2_Mul (jz j) i)); [ring|]. rewrite Ei. ring.
  - cbn in HA. assert (Ez : qz c = cf_gfP2_SetZero) by (by apply (rep2_inj _ _ _ _ Hz rep2_zero)). destruct (cf_gfP2_IsOne (qz c)); [exfalso; assert (E : eq2 (jz j) gfP2_SetOne) by (by apply I1); rewrite HA in E; destruct E as [_ E]; revert E; vm_compute; discriminate|]. destruct (cf_gfP2_IsZero (qz c)); [by rewrite Ez|]. by apply I0 in HA.
Qed.
Lemma rep_twistB : rep2 cf_twistB twistB.
Proof. split; rep_constant. Qed.
Lemma twist_IsOnCurve_spec c x y : twist_aff c (Some (x, y)) -> snd (cf_twist_IsOnCurve c) = bool_decide (eq2 (gfP2_Mul y y) (gfP2_Add (gfP2_Mul (gfP2_Mul x x) x) twistB)) && bool_decide (twist_multiple Order (Some (x, y)) = None).
Proof.
  intros H. pose proof (twist_MakeAffine_spec c _ H) as (Rx & Ry & Ez). unfold cf_twist_IsOnCurve. set (d := cf_twist_MakeAffine c) in *. clearbody d.
  assert (Hd : twist_aff d (Some (x, y))).
  { exists (JPoint x y gfP2_SetOne). split; [split; [exact Rx|split; [exact Ry|rewrite Ez; exact rep2_one]]|]. split; [cbn [jz]; intros E; destruct E as [_ E]; revert E; vm_compute; discriminate|]. split; cbn [jx jy jz]; ring. }
  pose proof (twist_aff_IsInfinity d _ Hd) as Hi. destruct (cf_twist_IsInfinity d); [by discriminate (proj1 Hi eq_refl)|]. cbv zeta.
  rewrite (bool_decide_ext (cf_gfP2_Square (qy d) = _) (eq2 (gfP2_Mul y y) (gfP2_Add (gfP2_Mul (gfP2_Mul x x) x) twistB))) by (pose proof rep_twistB; apply rep2_inj; rep2_ops). case_bool_decide; [|done]. cbn [negb andb snd].
  pose proof (twist_aff_IsInfinity _ _ (twist_aff_Mul d _ Order Hd)) as Hm. unfold cf_twist_IsInfinity in Hm. apply eq_true_iff_eq. rewrite bool_decide_eq_true. exact Hm.
Qed.

(** C39: The points of curve.go implement the group of the curve.  For points of
    words below the modulus, which all stand for an affine point or infinity: Add
    yields the sum by chord and tangent, with infinity where it belongs, Double the
    double and Neg the opposite; IsInfinity, MakeAffine and IsOnCurve tell infinity,
    the affine coordinates and whether they satisfy the equation; and Mul
    yields the sum of multiples of the point and of its image under the endomorphism
    by two positive halves of at most 129 bits, which together with the multiplier
    of the endomorphism make the scalar modulo the order of the group.  The
    receiver of Add and Double is another point than the arguments. *)
Theorem cf_curve_group c a b A B : curve_aff a A -> curve_aff b B ->
  curve_aff (cf_curve_Add c a b) (Zaff_add A B) /\ curve_aff (cf_curve_Double c a) (Zaff_double A) /\ curve_aff (cf_curve_Neg a) (aff_neg Z.opp A) /\
  (cf_curve_IsInfinity a = true <-> A = None) /\
  (forall x y, A = Some (x, y) -> let d := cf_curve_MakeAffine a in rep1 (px d) x /\ rep1 (py d) y /\ pz d = newGFp 1 /\ cf_curve_IsOnCurve a = (d, bool_decide (eqm P (y * y) (x * x * x + 3)))) /\
  (forall k, exists k0 k1, decompose curveLattice k = [k0; k1] /\ (k0 + lambda * k1) mod Order = k mod Order /\ 0 < k0 < 2 ^ 129 /\ 0 < k1 < 2 ^ 129 /\ curve_aff (cf_curve_Mul a k) (glv k0 k1 A)) /\
  (forall p, gfp_ok (px p) -> gfp_ok (py p) -> gfp_ok (pz p) -> exists C, curve_aff p C).
Proof.
  intros Ha Hb. split; [by apply curve_aff_Add|]. split; [by apply curve_aff_Double|]. split; [by apply curve_aff_Neg|]. split; [by apply curve_aff_IsInfinity|]. split; [|split; [|exact curve_aff_total]].
  - intros x y ->. cbv zeta. destruct (MakeAffine_spec a _ Ha) as (H1 & H2 & H3). split; [exact H1|]. split; [exact H2|]. split; [exact H3|]. by apply IsOnCurve_spec.
  - intros k. destruct (decompose_spec k) as (k0 & k1 & E & Ek & B0 & B1). exists k0, k1. split; [exact E|]. split; [exact Ek|]. split; [exact B0|]. split; [exact B1|]. unfold cf_curve_Mul. rewrite (Multi_spec k k0 k1 E) by lia. apply curve_mul_spec; [exact Ha|]. apply curve_aff_infinity.
Qed.
Lemma curve_aff_Gen : curve_aff cf_curveGen (Some (1, 2)).
Proof.
  exists (JPoint 1 2 1). split; [split; [exact (rep1_new 1 ltac:(lia))|split; [exact (rep1_new 2 ltac:(lia))|exact (rep1_new 1 ltac:(lia))]]|]. split; [|split; apply eqm_eq; reflexivity]. cbn [jz]. vm_compute. discriminate.
Qed.
Lemma cf_curve_group_witness : curve_aff (cf_curve_Add new_curvePoint cf_curveGen cf_curveGen) (Zaff_double (Some (1, 2))) /\ cf_curve_IsOnCurve cf_curveGen = (cf_curve_MakeAffine cf_curveGen, true).
Proof.
  destruct (cf_curve_group new_curvePoint cf_curveGen cf_curveGen (Some (1, 2)) (Some (1, 2)) curve_aff_Gen curve_aff_Gen) as (H1 & _ & _ & _ & H5 & _). split.
  - assert (E : Zaff_add (Some (1, 2)) (Some (1, 2)) = Zaff_double (Some (1, 2))) by (vm_compute; reflexivity). rewrite <- E. exact H1.
  - destruct (H5 1 2 eq_refl) as (_ & _ & _ & E). rewrite E. f_equal.
Defined.

(** The endomorphism and its multiplier are cubic roots of one, and the endomorphism
    keeps the curve. *)
Lemma endomorphism_facts : (lambda * lambda + lambda + 1) mod Order = 0 /\ (xiTo2PSquaredMinus2Over3 * xiTo2PSquaredMinus2Over3 + xiTo2PSquaredMinus2Over3 + 1) mod P = 0.
Proof. vm_compute. split; reflexivity. Qed.
Lemma phi_on_curve x y : eqm P (y * y) (x * x * x + 3) -> match phi (Some (x, y)) with Some (x', y') => eqm P (y' * y') (x' * x' * x' + 3) | None => False end.
Proof.
  intros H. cbn [phi]. rewrite H. set (b := xiTo2PSquaredMinus2Over3). assert (Hb : eqm P (b * b * b) 1) by (vm_compute; reflexivity). transitivity (x * x * x * (b * b * b) + 3); [rewrite Hb|]; apply eqm_eq; ring.
Qed.

(** The points of twist.go implement the group of the twist.  The same holds over
    GF(p^2): sums, doubles, opposites, affine coordinates; Mul is double and add with
    the bits of the scalar, and IsOnCurve accepts a point if it satisfies the
    equation and its multiple by the order is infinity. *)
Theorem cf_twist_group c a b A B : twist_aff a A -> twist_aff b B ->
  twist_aff (cf_twist_Add c a b) (Taff_add A B) /\ twist_aff (cf_twist_Double c a) (Taff_double A) /\ twist_aff (cf_twist_Neg a) (aff_neg gfP2_Negative A) /\
  (forall k, twist_aff (cf_twist_Mul a k) (twist_multiple k A)) /\ (cf_twist_IsInfinity a = true <-> A = None) /\
  (forall x y, A = Some (x, y) -> let d := cf_twist_MakeAffine a in rep2 (qx d) x /\ rep2 (qy d) y /\ qz d = cf_gfP2_SetOne /\
     snd (cf_twist_IsOnCurve a) = bool_decide (eq2 (gfP2_Mul y y) (gfP2_Add (gfP2_Mul (gfP2_Mul x x) x) twistB)) && bool_decide (twist_multiple Order A = None)).
Proof.
  intros Ha Hb. split; [by apply twist_aff_Add|]. split; [by apply twist_aff_Double|]. split; [by apply twist_aff_Neg|]. split; [intros k; by apply twist_aff_Mul|]. split; [by apply twist_aff_IsInfinity|]. intros x y ->. cbv zeta. destruct (twist_MakeAffine_spec a _ Ha) as (H1 & H2 & H3). split; [exact H1|]. split; [exact H2|]. split; [exact H3|]. by apply twist_IsOnCurve_spec.
Qed.
Lemma twist_aff_Gen : twist_aff cf_twistGen (Some (tx twistGen, ty twistGen)).
Proof.
  exists (JPoint (tx twistGen) (ty twistGen) gfP2_SetOne). split; [split; [split; rep_constant|split; [split; rep_constant|]]|].
  - split; [exact (rep1_new 0 ltac:(lia))|exact (rep1_new 1 ltac:(lia))].
  - split; [cbn [jz]; intros [_ E]; revert E; vm_compute; discriminate|]. split; cbn [jx jy jz]; ring.
Qed.
Lemma cf_twist_group_witness : rep2 (qx (cf_twist_MakeAffine cf_twistGen)) (tx twistGen) /\ forall k, twist_aff (cf_twist_Mul cf_twistGen k) (twist_multiple k (Some (tx twistGen, ty twistGen))).
Proof.
  destruct (cf_twist_group new_twistPoint cf_twistGen cf_twistGen _ _ twist_aff_Gen twist_aff_Gen) as (_ & _ & _ & Hm & _ & Hx). split; [|exact Hm]. exact (proj1 (Hx _ _ eq_refl)).
Defined.

Lemma Double_self_eq a d : cf_curve_Double a a = d -> cf_curve_Double_self a = CfCurvePoint (px d) (py d) (gfpAdd (gfpMul (py d) (pz a)) (gfpMul (py d) (pz a))) (pt d).
Proof. by intros <-. Qed.
Lemma repJ_Double_self a j : repJ a j -> let r := jdouble Z.add Z.mul Z.sub j in repJ (cf_curve_Double_self a) (JPoint (jx r) (jy r) (jy r * jz j + jy r * jz j)).
Proof.
  intros Hj. cbv zeta. pose proof (repJ_Double a _ _ Hj) as Hd. remember (cf_curve_Double a a) as d eqn:Ed. rewrite (Double_self_eq a d (eq_sym Ed)). clear Ed. revert Hd. generalize (jdouble Z.add Z.mul Z.sub j) as r. intros r (R1 & R2 & R3). destruct Hj as (_ & _ & Hz). split; [exact R1|]. split; [exact R2|]. cbn [pz jz]. rep1_steps.
Qed.
Lemma Add_self_cases a b :
  cf_curve_Add_self a b = cf_curve_Add a a b \/ cf_curve_Add_self a b = cf_curve_Double_self a /\ cf_curve_Add a a b = cf_curve_Double a a.
Proof.
  unfold cf_curve_Add_self. destruct (cf_curve_IsInfinity a) eqn:Ea; [left; unfold cf_curve_Add; by rewrite Ea|]. destruct (cf_curve_IsInfinity b) eqn:Eb; [left; unfold cf_curve_Add; by rewrite Ea, Eb|].
  cbv zeta. match goal with |- context [if ?t then _ else _] => destruct t eqn:Et end; [right|by left]. split; [done|]. unfold cf_curve_Add. rewrite Ea, Eb. cbv zeta. by rewrite Et.
Qed.
(** Doubling a point into itself goes wrong, as in the other package: the double of the
    generator is then no point of the curve.  So does adding into the first argument
    when the arguments are the same point; otherwise the sum is right. *)
Theorem cf_double_in_place : snd (cf_curve_IsOnCurve (cf_curve_Double new_curvePoint cf_curveGen)) = true /\ snd (cf_curve_IsOnCurve (cf_curve_Double_self cf_curveGen)) = false /\
  cf_curve_Add_self cf_curveGen cf_curveGen = cf_curve_Double_self cf_curveGen /\
  forall a b A B, curve_aff a A -> curve_aff b B ->
    curve_aff (cf_curve_Add_self a b) (Zaff_add A B) \/ cf_curve_Add_self a b = cf_curve_Double_self a /\ cf_curve_Add a a b = cf_curve_Double a a.
Proof.
  pose proof curve_aff_Gen as Hg. split_and!.
  - pose proof (curve_aff_Double new_curvePoint _ _ Hg) as Hd. assert (E : exists x y, Zaff_double (Some (1, 2)) = Some (x, y) /\ eqm P (y * y) (x * x * x + 3)) by (eexists _, _; split; [vm_compute; reflexivity|vm_compute; reflexivity]). destruct E as (x & y & E & Hon). rewrite E in Hd. rewrite (IsOnCurve_spec _ _ _ Hd). cbn [snd]. by apply bool_decide_eq_true.
  - set (r := jdouble Z.add Z.mul Z.sub (JPoint 1 2 1)). set (z := jy r * 1 + jy r * 1). assert (Hr : repJ (cf_curve_Double_self cf_curveGen) (JPoint (jx r) (jy r) z)).
    { apply repJ_Double_self. split; [exact (rep1_new 1 ltac:(lia))|split; [exact (rep1_new 2 ltac:(lia))|exact (rep1_new 1 ltac:(lia))]]. }
    set (i := Zinv z). assert (Hi : ~ eqm P z 0 /\ eqm P (z * i) 1) by (split; [vm_compute; discriminate|vm_compute; reflexivity]). destruct Hi as [Hz Hi]. set (x := jx r * (i * i)). set (y := jy r * (i * (i * i))).
    assert (Ha : curve_aff (cf_curve_Double_self cf_curveGen) (Some (x, y))).
    { exists (JPoint (jx r) (jy r) z). split; [exact Hr|]. split; [exact Hz|]. unfold x, y. clearbody r z i. split; cbn [jx jy jz]; [transitivity (jx r * (z * i) * (z * i))|transitivity (jy r * (z * i) * (z * i) * (z * i))]; try (rewrite Hi; apply eqm_eq; ring); apply eqm_eq; ring. }
    rewrite (IsOnCurve_spec _ _ _ Ha). cbn [snd]. apply bool_decide_eq_false. vm_compute. discriminate.
  - vm_compute. reflexivity.
  - intros a b A B Ha Hb. destruct (Add_self_cases a b) as [E|E]; [left; rewrite E; by apply curve_aff_Add|by right].
Qed.
