(* ===== verification/CfPair.v ===== *)
(** * Package crypto/bn256/cloudflare: the pairing

    optate.go over the words, and its agreement with the pairing of the package
    crypto/bn256/google. *)

From stdpp Require Import list.
From Stdlib Require Import Ring Setoid Morphisms.
From S2P Require Import Prelude Modular Bn256Field Bn256Curve Bn256Pair Gfp CfField CfCurve.

(** ** optate.go *)

(** a, b, c and rOut. *)
Definition cf_lineFunctionAdd (r p : cf_twistPoint) (q : cf_curvePoint) (r2 : cf_gfP2) : cf_gfP2 * cf_gfP2 * cf_gfP2 * cf_twistPoint :=
  let B := cf_gfP2_Mul (qx p) (qt r) in
  let D := cf_gfP2_Add (qy p) (qz r) in
  let D := cf_gfP2_Square D in
  let D := cf_gfP2_Sub D r2 in
  let D := cf_gfP2_Sub D (qt r) in
  let D := cf_gfP2_Mul D (qt r) in
  let H := cf_gfP2_Sub B (qx r) in
  let I := cf_gfP2_Square H in
  let E := cf_gfP2_Add I I in
  let E := cf_gfP2_Add E E in
  let J := cf_gfP2_Mul H E in
  let L1 := cf_gfP2_Sub D (qy r) in
  let L1 := cf_gfP2_Sub L1 (qy r) in
  let V := cf_gfP2_Mul (qx r) E in
  let x := cf_gfP2_Square L1 in
  let x := cf_gfP2_Sub x J in
  let x := cf_gfP2_Sub x V in
  let x := cf_gfP2_Sub x V in
  let z := cf_gfP2_Add (qz r) H in
  let z := cf_gfP2_Square z in
  let z := cf_gfP2_Sub z (qt r) in
  let z := cf_gfP2_Sub z I in
  let t := cf_gfP2_Sub V x in
  let t := cf_gfP2_Mul t L1 in
  let t2 := cf_gfP2_Mul (qy r) J in
  let t2 := cf_gfP2_Add t2 t2 in
  let y := cf_gfP2_Sub t t2 in
  let rt := cf_gfP2_Square z in
  let t := cf_gfP2_Add (qy p) z in
  let t := cf_gfP2_Square t in
  let t := cf_gfP2_Sub t r2 in
  let t := cf_gfP2_Sub t rt in
  let t2 := cf_gfP2_Mul L1 (qx p) in
  let t2 := cf_gfP2_Add t2 t2 in
  let a := cf_gfP2_Sub t2 t in
  let c := cf_gfP2_MulScalar z (py q) in
  let c := cf_gfP2_Add c c in
  let b := cf_gfP2_Neg L1 in
  let b := cf_gfP2_MulScalar b (px q) in
  let b := cf_gfP2_Add b b in
  (a, b, c, CfTwistPoint x y z rt).

Definition cf_lineFunctionDouble (r : cf_twistPoint) (q : cf_curvePoint) : cf_gfP2 * cf_gfP2 * cf_gfP2 * cf_twistPoint :=
  let A := cf_gfP2_Square (qx r) in
  let B := cf_gfP2_Square (qy r) in
  let C_ := cf_gfP2_Square B in
  let D := cf_gfP2_Add (qx r) B in
  let D := cf_gfP2_Square D in
  let D := cf_gfP2_Sub D A in
  let D := cf_gfP2_Sub D C_ in
  let D := cf_gfP2_Add D D in
  let E := cf_gfP2_Add A A in
  let E := cf_gfP2_Add E A in
  let G := cf_gfP2_Square E in
  let x := cf_gfP2_Sub G D in
  let x := cf_gfP2_Sub x D in
  let z := cf_gfP2_Add (qy r) (qz r) in
  let z := cf_gfP2_Square z in
  let z := cf_gfP2_Sub z B in
  let z := cf_gfP2_Sub z (qt r) in
  let y := cf_gfP2_Sub D x in
  let y := cf_gfP2_Mul y E in
  let t := cf_gfP2_Add C_ C_ in
  let t := cf_gfP2_Add t t in
  let t := cf_gfP2_Add t t in
  let y := cf_gfP2_Sub y t in
  let rt := cf_gfP2_Square z in
  let t := cf_gfP2_Mul E (qt r) in
  let t := cf_gfP2_Add t t in
  let b := cf_gfP2_Neg t in
  let b := cf_gfP2_MulScalar b (px q) in
  let a := cf_gfP2_Add (qx r) E in
  let a := cf_gfP2_Square a in
  let a := cf_gfP2_Sub a A in
  let a := cf_gfP2_Sub a G in
  let t := cf_gfP2_Add B B in
  let t := cf_gfP2_Add t t in
  let a := cf_gfP2_Sub a t in
  let c := cf_gfP2_Mul z (qt r) in
  let c := cf_gfP2_Add c c in
  let c := cf_gfP2_MulScalar c (py q) in
  (a, b, c, CfTwistPoint x y z rt).

Definition cf_mulLine (ret : cf_gfP12) (a b c : cf_gfP2) : cf_gfP12 :=
  let a2 := CfGFp6 cf_gfP2_SetZero a b in
  let a2 := cf_gfP6_Mul a2 (u12 ret) in
  let t3 := cf_gfP6_MulScalar (v12 ret) c in
  let t := cf_gfP2_Add b c in
  let t2 := CfGFp6 cf_gfP2_SetZero a t in
  let rx := cf_gfP6_Add (u12 ret) (v12 ret) in
  let ry := t3 in
  let rx := cf_gfP6_Mul rx t2 in
  let rx := cf_gfP6_Sub rx a2 in
  let rx := cf_gfP6_Sub rx ry in
  let a2 := cf_gfP6_MulTau a2 in
  let ry := cf_gfP6_Add ry a2 in
  CfGFp12 rx ry.

(** sixuPlus2NAF is the list of the other package. *)
Definition cf_sixuPlus2NAF : list Z :=
  [0; 0; 0; 1; 0; 1; 0; -1; 0; 0; 1; -1; 0; 0; 1; 0;
   0; 1; 1; 0; -1; 0; 0; 1; 0; -1; 0; 0; 0; 0; 1; 1;
   1; 0; 0; -1; 0; 0; 1; 0; 0; 0; 0; 0; -1; 0; 0; 1;
   1; 0; 0; -1; 0; 0; 0; 1; 1; 0; -1; 0; 0; 1; 0; 1; 1].

(** The loop of miller, for the digits below index i. *)
Fixpoint cf_miller_loop (aAffine minusA : cf_twistPoint) (bAffine : cf_curvePoint) (r2 : cf_gfP2) (i : nat) (ret : cf_gfP12) (r : cf_twistPoint) : cf_gfP12 * cf_twistPoint :=
  match i with
  | O => (ret, r)
  | S j =>
      let '(a, b, c, newR) := cf_lineFunctionDouble r bAffine in
      let ret := if negb (Nat.eqb i (length cf_sixuPlus2NAF - 1)) then cf_gfP12_Square ret else ret in
      let ret := cf_mulLine ret a b c in
      let r := newR in
      let digit := nth j cf_sixuPlus2NAF 0 in
      if digit =? 1 then
        let '(a, b, c, newR) := cf_lineFunctionAdd r aAffine bAffine r2 in
        cf_miller_loop aAffine minusA bAffine r2 j (cf_mulLine ret a b c) newR
      else if digit =? -1 then
        let '(a, b, c, newR) := cf_lineFunctionAdd r minusA bAffine r2 in
        cf_miller_loop aAffine minusA bAffine r2 j (cf_mulLine ret a b c) newR
      else cf_miller_loop aAffine minusA bAffine r2 j ret r
  end.

(** The points Q1 and -Q2 of miller. *)
Definition cf_frobenius_q1 (aAffine : cf_twistPoint) : cf_twistPoint :=
  CfTwistPoint (cf_gfP2_Mul (cf_gfP2_Conjugate (qx aAffine)) cf_xiToPMinus1Over3) (cf_gfP2_Mul (cf_gfP2_Conjugate (qy aAffine)) cf_xiToPMinus1Over2) cf_gfP2_SetOne cf_gfP2_SetOne.
Definition cf_frobenius_minusQ2 (aAffine : cf_twistPoint) : cf_twistPoint :=
  CfTwistPoint (cf_gfP2_MulScalar (qx aAffine) cf_xiToPSquaredMinus1Over3) (qy aAffine) cf_gfP2_SetOne cf_gfP2_SetOne.

Definition cf_miller (q : cf_twistPoint) (p : cf_curvePoint) : cf_gfP12 :=
  let aAffine := cf_twist_MakeAffine q in
  let bAffine := cf_curve_MakeAffine p in
  let minusA := cf_twist_Neg aAffine in
  let r2 := cf_gfP2_Square (qy aAffine) in
  let '(ret, r) := cf_miller_loop aAffine minusA bAffine r2 (length cf_sixuPlus2NAF - 1) cf_gfP12_SetOne aAffine in
  let q1 := cf_frobenius_q1 aAffine in
  let minusQ2 := cf_frobenius_minusQ2 aAffine in
  let r2 := cf_gfP2_Square (qy q1) in
  let '(a, b, c, newR) := cf_lineFunctionAdd r q1 bAffine r2 in
  let ret := cf_mulLine ret a b c in
  let r := newR in
  let r2 := cf_gfP2_Square (qy minusQ2) in
  let '(a, b, c, newR) := cf_lineFunctionAdd r minusQ2 bAffine r2 in
  cf_mulLine ret a b c.

Definition cf_finalExponentiation (in_ : cf_gfP12) : cf_gfP12 :=
  let t1 := CfGFp12 (cf_gfP6_Neg (u12 in_)) (v12 in_) in
  let inv := cf_gfP12_Invert in_ in
  let t1 := cf_gfP12_Mul t1 inv in
  let t2 := cf_gfP12_FrobeniusP2 t1 in
  let t1 := cf_gfP12_Mul t1 t2 in
  let fp := cf_gfP12_Frobenius t1 in
  let fp2 := cf_gfP12_FrobeniusP2 t1 in
  let fp3 := cf_gfP12_Frobenius fp2 in
  let fu := cf_gfP12_Exp t1 u in
  let fu2 := cf_gfP12_Exp fu u in
  let fu3 := cf_gfP12_Exp fu2 u in
  let y3 := cf_gfP12_Frobenius fu in
  let fu2p := cf_gfP12_Frobenius fu2 in
  let fu3p := cf_gfP12_Frobenius fu3 in
  let y2 := cf_gfP12_FrobeniusP2 fu2 in
  let y0 := cf_gfP12_Mul fp fp2 in
  let y0 := cf_gfP12_Mul y0 fp3 in
  let y1 := cf_gfP12_Conjugate t1 in
  let y5 := cf_gfP12_Conjugate fu2 in
  let y3 := cf_gfP12_Conjugate y3 in
  let y4 := cf_gfP12_Mul fu fu2p in
  let y4 := cf_gfP12_Conjugate y4 in
  let y6 := cf_gfP12_Mul fu3 fu3p in
  let y6 := cf_gfP12_Conjugate y6 in
  let t0 := cf_gfP12_Square y6 in
  let t0 := cf_gfP12_Mul t0 y4 in
  let t0 := cf_gfP12_Mul t0 y5 in
  let t1 := cf_gfP12_Mul y3 y5 in
  let t1 := cf_gfP12_Mul t1 t0 in
  let t0 := cf_gfP12_Mul t0 y2 in
  let t1 := cf_gfP12_Square t1 in
  let t1 := cf_gfP12_Mul t1 t0 in
  let t1 := cf_gfP12_Square t1 in
  let t0 := cf_gfP12_Mul t1 y1 in
  let t1 := cf_gfP12_Mul t1 y0 in
  let t0 := cf_gfP12_Square t0 in
  let t0 := cf_gfP12_Mul t0 t1 in
  t0.

Definition cf_optimalAte (a : cf_twistPoint) (b : cf_curvePoint) : cf_gfP12 :=
  let e := cf_miller a b in
  let ret := cf_finalExponentiation e in
  if cf_twist_IsInfinity a || cf_curve_IsInfinity b then cf_gfP12_SetOne else ret.

(** ** Agreement with the other package *)

#[local] Opaque P gfP2_Add gfP2_Sub gfP2_Mul gfP2_MulScalar gfP2_Square gfP2_Negative gfP2_Conjugate gfP2_Invert cf_gfP2_Add cf_gfP2_Sub cf_gfP2_Mul cf_gfP2_MulScalar cf_gfP2_Square cf_gfP2_Neg cf_gfP2_Conjugate cf_gfP2_Invert newGFp.
#[local] Opaque gfP6_Add gfP6_Sub gfP6_Mul gfP6_MulScalar gfP6_MulTau gfP6_Negative cf_gfP6_Add cf_gfP6_Sub cf_gfP6_Mul cf_gfP6_MulScalar cf_gfP6_MulTau cf_gfP6_Neg.
#[local] Opaque gfP12_Mul gfP12_Square gfP12_Exp gfP12_Frobenius gfP12_FrobeniusP2 gfP12_Conjugate gfP12_Invert cf_gfP12_Mul cf_gfP12_Square cf_gfP12_Exp cf_gfP12_Frobenius cf_gfP12_FrobeniusP2 cf_gfP12_Conjugate cf_gfP12_Invert u.
#[local] Opaque cf_xiToPMinus1Over3 cf_xiToPMinus1Over2 cf_xiToPSquaredMinus1Over3 xiToPMinus1Over3 xiToPMinus1Over2 xiToPSquaredMinus1Over3.

Lemma rep2_Neg_Sub a g : rep2 a g -> rep2 (cf_gfP2_Neg a) (gfP2_Sub gfP2_SetZero g).
Proof. intros H. eapply rep2_eq; [by apply rep2_Neg|]. Transparent gfP2_Negative gfP2_Sub. split; cbn [gfP2_Negative gfP2_Sub gfP2_SetZero x2 y2]; apply eqm_eq; ring. Opaque gfP2_Negative gfP2_Sub. Qed.
Ltac rep2_line := lazymatch goal with
  | |- rep2 (cf_gfP2_Neg _) (gfP2_Sub _ _) => apply rep2_Neg_Sub
  | |- rep2 (cf_gfP2_Add _ _) _ => apply rep2_Add
  | |- rep2 (cf_gfP2_Sub _ _) _ => apply rep2_Sub
  | |- rep2 (cf_gfP2_Mul _ _) _ => apply rep2_Mul
  | |- rep2 (cf_gfP2_Square _) _ => apply rep2_Square
  | |- rep2 (cf_gfP2_MulScalar _ _) _ => apply rep2_MulScalar
  end; assumption.
Ltac rep12_step := match goal with
  | |- rep12 (cf_gfP12_Mul _ _) _ => apply rep12_Mul
  | |- rep12 (cf_gfP12_Square _) _ => apply rep12_Square
  | |- rep12 (cf_gfP12_Exp _ _) _ => apply rep12_Exp
  | |- rep12 (cf_gfP12_Frobenius _) _ => apply rep12_Frobenius
  | |- rep12 (cf_gfP12_FrobeniusP2 _) _ => apply rep12_FrobeniusP2
  | |- rep12 (cf_gfP12_Conjugate _) _ => apply rep12_Conjugate
  | |- rep12 _ _ => assumption
  end.
(** Both sides bind the next intermediate value, which represents the other one. *)
Ltac lockstep rep tac := cbv beta; lazymatch goal with
  | |- ?Q (let x := ?a in @?f x) (let y := ?b in @?g y) => let H := fresh "R" in assert (H : rep a b) by tac; change (Q (f a) (g b)); revert H; generalize a b; intros ? ? H; cbv beta
  end.

Add Ring gfP2_pair : gfP2_ring (setoid eq2_equiv gfP2_ext).
#[local] Opaque rep1 rep2.
Definition rep_twist (c : cf_twistPoint) (g : twistPoint) : Prop := rep2 (qx c) (tx g) /\ rep2 (qy c) (ty g) /\ rep2 (qz c) (tz g) /\ rep2 (qt c) (tt_ g).
Definition rep_line (l : cf_gfP2 * cf_gfP2 * cf_gfP2 * cf_twistPoint) (m : gfP2 * gfP2 * gfP2 * twistPoint) : Prop :=
  let '(a, b, c, r) := l in let '(a', b', c', r') := m in rep2 a a' /\ rep2 b b' /\ rep2 c c' /\ rep_twist r r'.

Lemma rep_lineFunctionAdd r p q r2 r' p' q' r2' : rep_twist r r' -> rep_twist p p' -> rep1 (px q) (cx q') -> rep1 (py q) (cy q') -> rep2 r2 r2' -> rep_line (cf_lineFunctionAdd r p q r2) (lineFunctionAdd r' p' q' r2').
Proof.
  intros (A1 & A2 & A3 & A4) (B1 & B2 & B3 & B4) Hx Hy H2. cbv delta [cf_lineFunctionAdd lineFunctionAdd]. repeat lockstep rep2 rep2_line. split; [assumption|]. split; [assumption|]. split; [assumption|]. split; [assumption|]. split; [assumption|]. split; assumption.
Qed.
Lemma rep_lineFunctionDouble r q r' q' : rep_twist r r' -> rep1 (px q) (cx q') -> rep1 (py q) (cy q') -> rep_line (cf_lineFunctionDouble r q) (lineFunctionDouble r' q').
Proof.
  intros (A1 & A2 & A3 & A4) Hx Hy. cbv delta [cf_lineFunctionDouble lineFunctionDouble]. repeat lockstep rep2 rep2_line. split; [assumption|]. split; [assumption|]. split; [assumption|]. split; [assumption|]. split; [assumption|]. split; assumption.
Qed.
Lemma rep_mulLine ret a b c ret' a' b' c' : rep12 ret ret' -> rep2 a a' -> rep2 b b' -> rep2 c c' -> rep12 (cf_mulLine ret a b c) (mulLine ret' a' b' c').
Proof.
  intros [R1 R2] Ha Hb Hc. unfold cf_mulLine, mulLine. assert (H6 : forall d d', rep2 d d' -> rep6 (CfGFp6 cf_gfP2_SetZero a d) (GFp6 gfP2_SetZero a' d')) by (intros d d' Hd; split; [exact rep2_zero|by split]).
  pose proof (H6 _ _ Hb) as Hab. pose proof (H6 _ _ (rep2_Add _ _ _ _ Hb Hc)) as Hat. cbv zeta. revert Hab Hat. generalize (CfGFp6 cf_gfP2_SetZero a b) (GFp6 gfP2_SetZero a' b') (CfGFp6 cf_gfP2_SetZero a (cf_gfP2_Add b c)) (GFp6 gfP2_SetZero a' (gfP2_Add b' c')). intros m m' k k' Hm Hk. split; cbn [u12 v12 x12 y12]; rep6_steps.
Qed.
Lemma rep_miller_loop aA mA bA r2 aA' mA' bA' r2' : rep_twist aA aA' -> rep_twist mA mA' -> rep1 (px bA) (cx bA') -> rep1 (py bA) (cy bA') -> rep2 r2 r2' ->
  forall i ret r ret' r', rep12 ret ret' -> rep_twist r r' -> rep12 (fst (cf_miller_loop aA mA bA r2 i ret r)) (fst (miller_loop aA' mA' bA' r2' i ret' r')) /\ rep_twist (snd (cf_miller_loop aA mA bA r2 i ret r)) (snd (miller_loop aA' mA' bA' r2' i ret' r')).
Proof.
  intros Ha Hm Hx Hy H2. induction i as [|i IH]; intros ret r ret' r' Hret Hr; [by split|]. cbn [cf_miller_loop miller_loop]. change cf_sixuPlus2NAF with sixuPlus2NAF. pose proof (rep_lineFunctionDouble r bA r' bA' Hr Hx Hy) as Hl. destruct (cf_lineFunctionDouble r bA) as [[[a b] c] nr], (lineFunctionDouble r' bA') as [[[a' b'] c'] nr']. destruct Hl as (La & Lb & Lc & Lr).
  set (s := if negb _ then cf_gfP12_Square ret else ret). set (s' := if negb _ then gfP12_Square ret' else ret'). assert (Hs : rep12 s s') by (unfold s, s'; destruct (negb _); [by apply rep12_Square|done]). pose proof (rep_mulLine _ _ _ _ _ _ _ _ Hs La Lb Lc) as Hml. cbv zeta.
  destruct (nth i sixuPlus2NAF 0 =? 1); [|destruct (nth i sixuPlus2NAF 0 =? -1)]; [| |by apply IH].
  - pose proof (rep_lineFunctionAdd nr aA bA r2 nr' aA' bA' r2' Lr Ha Hx Hy H2) as Hl. destruct (cf_lineFunctionAdd nr aA bA r2) as [[[a1 b1] c1] nr1], (lineFunctionAdd nr' aA' bA' r2') as [[[a1' b1'] c1'] nr1']. destruct Hl as (Ma & Mb & Mc & Mr). apply IH; [by apply rep_mulLine|done].
  - pose proof (rep_lineFunctionAdd nr mA bA r2 nr' mA' bA' r2' Lr Hm Hx Hy H2) as Hl. destruct (cf_lineFunctionAdd nr mA bA r2) as [[[a1 b1] c1] nr1], (lineFunctionAdd nr' mA' bA' r2') as [[[a1' b1'] c1'] nr1']. destruct Hl as (Ma & Mb & Mc & Mr). apply IH; [by apply rep_mulLine|done].
Qed.

Lemma rep_finalExponentiation a g e : rep12 a g -> finalExponentiation g = Some e -> rep12 (cf_finalExponentiation a) e.
Proof.
  intros Ha E. cbv delta [finalExponentiation] in E. cbv beta in E. destruct (gfP12_Invert g) as [i|] eqn:Ei; [|discriminate E]. assert (Hi : rep12 (cf_gfP12_Invert a) i) by (by eapply rep12_Invert). assert (Hc : rep12 (CfGFp12 (cf_gfP6_Neg (u12 a)) (v12 a)) (GFp12 (gfP6_Negative (x12 g)) (y12 g))) by (destruct Ha as [H1 H2]; split; [by apply rep6_Neg|exact H2]).
  match type of E with context [GFp12 ?x ?y] => set (t1 := GFp12 x y) in *; clearbody t1 end. cbn [mbind option_bind] in E. cbv delta [cf_finalExponentiation]. cbv beta. set (c1 := CfGFp12 _ _) in *. clearbody c1. set (ci := cf_gfP12_Invert a) in *. clearbody ci. clear Ei Ha.
  injection E as <-. cbv zeta. repeat rep12_step.
Qed.

Lemma rep_Neg c g : rep_twist c g -> rep_twist (cf_twist_Neg c) (twist_Negative g).
Proof. intros (H1 & H2 & H3 & H4). split; [exact H1|]. split; [by apply rep2_Neg_Sub|]. split; [exact H3|exact rep2_zero]. Qed.
Lemma rep_frobenius_q1 c g : rep_twist c g -> rep_twist (cf_frobenius_q1 c) (frobenius_q1 g).
Proof.
  intros (H1 & H2 & _). split; [exact (rep2_Mul _ _ _ _ (rep2_Conjugate _ _ H1) rep_xiToPMinus1Over3)|]. split; [exact (rep2_Mul _ _ _ _ (rep2_Conjugate _ _ H2) rep_xiToPMinus1Over2)|]. split; exact rep2_one.
Qed.
Lemma rep_frobenius_minusQ2 c g : rep_twist c g -> rep_twist (cf_frobenius_minusQ2 c) (frobenius_minusQ2 g).
Proof. intros (H1 & H2 & _). split; [exact (rep2_MulScalar _ _ _ _ H1 rep_xiToPSquaredMinus1Over3)|]. split; [exact H2|]. split; exact rep2_one. Qed.

(** The points of the other package with z = 1. *)
Definition affine_twist (x y : gfP2) : twistPoint := TwistPoint x y gfP2_SetOne gfP2_SetOne.
Definition affine_curve (x y : Z) : curvePoint := CurvePoint x y 1 1.
(** MakeAffine returns a point with z = 1 as it is, so that its t has to be right. *)
Definition t_valid (c : cf_twistPoint) : Prop := qz c = cf_gfP2_SetOne -> qt c = cf_gfP2_SetOne.
Lemma rep_MakeAffine c x y : twist_aff c (Some (x, y)) -> t_valid c -> rep_twist (cf_twist_MakeAffine c) (affine_twist x y).
Proof.
  intros H Ht. destruct (twist_MakeAffine_spec c _ H) as (H1 & H2 & H3). split; [exact H1|]. split; [exact H2|]. split; [rewrite H3; exact rep2_one|]. assert (E : qt (cf_twist_MakeAffine c) = cf_gfP2_SetOne); [|rewrite E; exact rep2_one].
  unfold cf_twist_MakeAffine in *. destruct (cf_gfP2_IsOne (qz c)); [by apply Ht|]. pose proof (twist_aff_IsInfinity c _ H) as Hi. unfold cf_twist_IsInfinity in Hi. destruct (cf_gfP2_IsZero (qz c)); [by discriminate (proj1 Hi eq_refl)|reflexivity].
Qed.
Lemma rep_miller a b x y x' y' : twist_aff a (Some (x, y)) -> t_valid a -> curve_aff b (Some (x', y')) -> exists m, miller (affine_twist x y) (affine_curve x' y') = Some m /\ rep12 (cf_miller a b) m.
Proof.
  intros Ha Ht Hb. pose proof (rep_MakeAffine a x y Ha Ht) as Ra. destruct (MakeAffine_spec b _ Hb) as (Bx & By & _). unfold miller. change (twist_MakeAffine (affine_twist x y)) with (Some (affine_twist x y)). change (curve_MakeAffine (affine_curve x' y')) with (Some (affine_curve x' y')). cbn [mbind option_bind]. cbv delta [cf_miller]. cbv beta.
  revert Ra. generalize (cf_twist_MakeAffine a) (affine_twist x y). intros c g Ra. change x' with (cx (affine_curve x' y')) in Bx. change y' with (cy (affine_curve x' y')) in By. revert Bx By. generalize (cf_curve_MakeAffine b) (affine_curve x' y'). intros d h Bx By. cbv zeta. pose proof Ra as (_ & Ry & _).
  destruct (rep_miller_loop c (cf_twist_Neg c) d _ g (twist_Negative g) h _ Ra (rep_Neg _ _ Ra) Bx By (rep2_Square _ _ Ry) (length sixuPlus2NAF - 1) _ _ _ _ rep12_one Ra) as [M1 M2]. change cf_sixuPlus2NAF with sixuPlus2NAF.
  destruct (cf_miller_loop c (cf_twist_Neg c) d (cf_gfP2_Square (qy c)) (length sixuPlus2NAF - 1) cf_gfP12_SetOne c) as [ret r], (miller_loop g (twist_Negative g) h (gfP2_Square (ty g)) (length sixuPlus2NAF - 1) gfP12_SetOne g) as [ret' r']. cbn [fst snd] in M1, M2.
  pose proof (rep_frobenius_q1 _ _ Ra) as Q1. pose proof (rep_frobenius_minusQ2 _ _ Ra) as Q2. pose proof Q1 as (_ & Y1 & _). pose proof Q2 as (_ & Y2 & _).
  pose proof (rep_lineFunctionAdd _ _ _ _ _ _ _ _ M2 Q1 Bx By (rep2_Square _ _ Y1)) as L1. destruct (cf_lineFunctionAdd r (cf_frobenius_q1 c) d _) as [[[a1 b1] c1] r1], (lineFunctionAdd r' (frobenius_q1 g) h _) as [[[a1' b1'] c1'] r1']. destruct L1 as (La & Lb & Lc & Lr).
  pose proof (rep_lineFunctionAdd _ _ _ _ _ _ _ _ Lr Q2 Bx By (rep2_Square _ _ Y2)) as L2. destruct (cf_lineFunctionAdd r1 (cf_frobenius_minusQ2 c) d _) as [[[a2 b2] c2] r2], (lineFunctionAdd r1' (frobenius_minusQ2 g) h _) as [[[a2' b2'] c2'] r2']. destruct L2 as (Na & Nb & Nc & _).
  eexists. split; [reflexivity|]. apply rep_mulLine; try assumption. by apply rep_mulLine.
Qed.

Lemma optimalAte_finite a b m : twist_IsInfinity a = false -> curve_IsInfinity b = false -> miller a b = Some m -> optimalAte a b = finalExponentiation m.
Proof. intros H1 H2 H3. unfold optimalAte. rewrite H1, H2, H3. reflexivity. Qed.
Lemma cf_optimalAte_finite a b : cf_twist_IsInfinity a = false -> cf_curve_IsInfinity b = false -> cf_optimalAte a b = cf_finalExponentiation (cf_miller a b).
Proof. intros H1 H2. unfold cf_optimalAte. rewrite H1, H2. reflexivity. Qed.
Lemma cf_optimalAte_infinity a b : cf_twist_IsInfinity a || cf_curve_IsInfinity b = true -> cf_optimalAte a b = cf_gfP12_SetOne.
Proof. intros H. unfold cf_optimalAte. rewrite H. reflexivity. Qed.

Lemma rep6_inj a b g : rep6 a g -> rep6 b g -> a = b.
Proof.
  intros (A1 & A2 & A3) (B1 & B2 & B3). destruct a as [a1 a2 a3], b as [b1 b2 b3]. cbn [u6 v6 w6] in *. f_equal; [apply (rep2_inj _ _ _ _ A1 B1)|apply (rep2_inj _ _ _ _ A2 B2)|apply (rep2_inj _ _ _ _ A3 B3)]; reflexivity.
Qed.
Lemma rep12_inj a b g : rep12 a g -> rep12 b g -> a = b.
Proof. intros [A1 A2] [B1 B2]. destruct a as [a1 a2], b as [b1 b2]. cbn [u12 v12] in *. f_equal; [exact (rep6_inj _ _ _ A1 B1)|exact (rep6_inj _ _ _ A2 B2)]. Qed.

Lemma zero_not_one : cf_gfP2_SetZero <> cf_gfP2_SetOne.
Proof. intros E. apply (rep2_inj _ _ _ _ rep2_zero rep2_one) in E. destruct E as [_ E]. revert E. vm_compute. discriminate. Qed.

Lemma optimalAte_infinity a b : curve_IsInfinity b = true \/ twist_IsInfinity a = true /\ is_Some (curve_MakeAffine b) -> optimalAte a b = Some gfP12_SetOne.
Proof.
  intros H. unfold optimalAte. destruct H as [H|[H [c Ec]]]; rewrite H; [|by rewrite Ec]. rewrite orb_true_r. unfold curve_MakeAffine. rewrite H. by destruct (Z.abs (cz b) =? 1).
Qed.

(** C40: The two packages compute the same pairing.  For points on words that stand
    for affine points, in any Jacobian coordinates but with t = 1 where z = 1 (Neg
    of a point with z = 1 leaves t = 0, and such a point is left out), the value of
    miller on words represents the value of miller that the other package computes
    for those affine points.  optimalAte of the other package has a value exactly
    if this one is invertible, and then the value of optimalAte on words
    represents it, with the only words that do.  At infinity both give one: the
    package on words for every point, the other one if the point of the curve is
    at infinity or MakeAffine can normalise it. *)
Theorem pairings_agree a b x y x' y' : twist_aff a (Some (x, y)) -> t_valid a -> curve_aff b (Some (x', y')) ->
  (exists m, miller (affine_twist x y) (affine_curve x' y') = Some m /\ rep12 (cf_miller a b) m /\
     (is_Some (optimalAte (affine_twist x y) (affine_curve x' y')) <-> exists i, eq12 (gfP12_Mul m i) gfP12_SetOne)) /\
  (forall e, optimalAte (affine_twist x y) (affine_curve x' y') = Some e -> rep12 (cf_optimalAte a b) e /\ forall c, rep12 c e -> c = cf_optimalAte a b) /\
  (forall p q A B, twist_aff p A -> curve_aff q B -> A = None \/ B = None -> cf_optimalAte p q = cf_gfP12_SetOne) /\
  (forall p q, curve_IsInfinity q = true \/ twist_IsInfinity p = true /\ is_Some (curve_MakeAffine q) -> optimalAte p q = Some gfP12_SetOne) /\
  rep12 cf_gfP12_SetOne gfP12_SetOne /\
  (qz a = cf_gfP2_SetOne -> ~ t_valid (cf_twist_Neg a)).
Proof.
  intros Ha Ht Hb. destruct (rep_miller a b x y x' y' Ha Ht Hb) as (m & Em & Rm).
  assert (Eo : optimalAte (affine_twist x y) (affine_curve x' y') = finalExponentiation m) by exact (optimalAte_finite (affine_twist x y) (affine_curve x' y') m eq_refl eq_refl Em). split_and!.
  - exists m. split_and!; [done|done|]. rewrite Eo. apply finalExponentiation_unit.
  - intros e He. rewrite Eo in He.
    assert (Ia : cf_twist_IsInfinity a = false) by (apply not_true_iff_false; intros H; by apply (twist_aff_IsInfinity a _ Ha) in H). assert (Ib : cf_curve_IsInfinity b = false) by (apply not_true_iff_false; intros H; by apply (curve_aff_IsInfinity b _ Hb) in H).
    rewrite (cf_optimalAte_finite a b Ia Ib). pose proof (rep_finalExponentiation _ _ _ Rm He) as Re. split; [exact Re|]. intros c Hc. exact (rep12_inj _ _ _ Hc Re).
  - intros p q A B Hp Hq [-> | ->]; apply cf_optimalAte_infinity; [by rewrite (proj2 (twist_aff_IsInfinity p _ Hp) eq_refl)|]. rewrite (proj2 (curve_aff_IsInfinity q _ Hq) eq_refl). by rewrite orb_true_r.
  - apply optimalAte_infinity.
  - exact rep12_one.
  - intros Hz H. apply zero_not_one. by apply H.
Qed.
Lemma gen_t_valid : t_valid cf_twistGen.
Proof. intros _. cbn [cf_twistGen qt]. unfold cf_gfP2_SetOne. f_equal. Qed.
Lemma pairings_agree_witness : exists m, miller (affine_twist (tx twistGen) (ty twistGen)) (affine_curve 1 2) = Some m /\ rep12 (cf_miller cf_twistGen cf_curveGen) m.
Proof.
  destruct (pairings_agree cf_twistGen cf_curveGen _ _ 1 2 twist_aff_Gen gen_t_valid curve_aff_Gen) as [(m & Em & Rm & _) _]. exact (ex_intro _ m (conj Em Rm)).
Defined.

(** A negated point of the twist pairs wrongly.  Neg sets t to zero and keeps z, and
    MakeAffine returns a point with z = 1 as it is: the first step of miller on such
    a point yields a z that differs by one from that of the double, which is 2 y z. *)
Theorem negated_point_not_doubled a q x y : twist_aff a (Some (x, y)) -> qz a = cf_gfP2_SetOne ->
  let n := cf_twist_Neg a in ~ t_valid n /\ cf_twist_MakeAffine n = n /\
  let '(_, _, _, r) := cf_lineFunctionDouble (cf_twist_MakeAffine n) q in
  exists z, rep2 (qz r) z /\ eq2 z (gfP2_Add (gfP2_Add (gfP2_Negative y) (gfP2_Negative y)) gfP2_SetOne) /\ ~ eq2 z (gfP2_Add (gfP2_Negative y) (gfP2_Negative y)).
Proof.
  intros Ha Hz. cbv zeta. pose proof zero_not_one as H01.
  assert (Hn : cf_twist_MakeAffine (cf_twist_Neg a) = cf_twist_Neg a). { unfold cf_twist_MakeAffine. cbn [cf_twist_Neg qz]. rewrite Hz, (proj2 (rep2_IsOne _ _ rep2_one)) by reflexivity. reflexivity. }
  split; [intros H; apply H01; apply H; exact Hz|]. split; [exact Hn|]. rewrite Hn. destruct (twist_MakeAffine_spec a _ Ha) as (_ & Hy & _). unfold cf_twist_MakeAffine in Hy. rewrite Hz, (proj2 (rep2_IsOne _ _ rep2_one)) in Hy by reflexivity.
  unfold cf_lineFunctionDouble. cbn [cf_twist_Neg qx qy qz qt]. cbv zeta. rewrite Hz. set (g := gfP2_Negative y). assert (Hg : rep2 (cf_gfP2_Neg (qy a)) g) by (by apply rep2_Neg).
  eexists. split; [exact (rep2_Sub _ _ _ _ (rep2_Sub _ _ _ _ (rep2_Square _ _ (rep2_Add _ _ _ _ Hg rep2_one)) (rep2_Square _ _ Hg)) rep2_zero)|].
  assert (E : eq2 (gfP2_Sub (gfP2_Sub (gfP2_Square (gfP2_Add g gfP2_SetOne)) (gfP2_Square g)) gfP2_SetZero) (gfP2_Add (gfP2_Add g g) gfP2_SetOne)) by (rewrite !gfP2_Square_Mul; ring). split; [exact E|]. rewrite E. intros E2. assert (E3 : eq2 gfP2_SetOne gfP2_SetZero).
  { transitivity (gfP2_Sub (gfP2_Add (gfP2_Add g g) gfP2_SetOne) (gfP2_Add g g)); [ring|]. rewrite E2. ring. }
  destruct E3 as [_ E3]. revert E3. vm_compute. discriminate.
Qed.
