(* ===== verification/Matcher.v ===== *)
(** * Package core/bloombits: schedulers and matchers

    scheduler.go and matcher.go.  A session is a set of goroutines over channels:
    the feeder of Start, the two goroutines of every sub-matcher, the two of
    every scheduler run, the distributor, the reader that reports blocks, and the
    retrievers outside.  Each goroutine is a function that makes its next move,
    from one channel operation to the next; [step] lets any of them move.  A
    channel without buffer is taken as one with room for one value.  The session
    is followed until it is closed: quit and kill are not modelled. *)

From stdpp Require Import gmap.
From S2P Require Import Prelude GoSort Bitutil Compress Bloom.

(** ** Channels and moves *)

(** A move is blocked, panics, or leads to a new state. *)
Inductive blocked : Type := Blocked.
#[local] Abbreviation move A := (outcome blocked A).
#[local] Abbreviation wait := (Err Blocked).

Record chan (A : Type) : Type := Chan { buf : list A; closed : bool }.
Arguments Chan {A}.
Arguments buf {A}.
Arguments closed {A}.

Definition make_chan {A} : chan A := Chan [] false.
Definition send {A} (c : chan A) (x : A) : chan A := Chan (buf c ++ [x]) (closed c).
Definition close {A} (c : chan A) : chan A := Chan (buf c) true.
Definition has_room {A} (cap : nat) (c : chan A) : bool := (length (buf c) <? Nat.max 1 cap)%nat.

(** ** scheduler.go *)

(** The responses by section: requested, and cached when delivered; the done
    channel of a response is closed when it is cached.  The bit of a scheduler
    is its key in the map of the matcher. *)
Record scheduler : Type := Sched { responses : gmap Z (option (list Z)) }.

Definition newScheduler : scheduler := Sched ∅.
Definition sched_reset (s : scheduler) : scheduler := Sched (filter (fun '(_, cached) => cached <> None) (responses s)).

Inductive req_pc : Type :=
| RIdle
| RDist (section : Z)
| RPend (section : Z)
| RDone.
Inductive del_pc : Type :=
| DIdle
| DWait (idx : Z)
| DSend (data : list Z)
| DDone.

(** A run of a scheduler, with the channels around it. *)
Record lane : Type := Lane {
  l_bit : Z; l_source : chan Z; l_req : req_pc; l_pend : chan Z; l_del : del_pc; l_sink : chan (list Z) }.

Definition sched_run (bit : Z) : lane := Lane bit make_chan RIdle make_chan DIdle make_chan.

Definition scheduleRequests (cap : nat) (s : scheduler) (dist : chan (Z * Z)) (l : lane) : move (scheduler * chan (Z * Z) * lane) :=
  match l_req l with
  | RIdle =>
      match buf (l_source l) with
      | section :: rest =>
          let source := Chan rest (closed (l_source l)) in
          match responses s !! section with
          | None => Ok (Sched (<[section := None]> (responses s)), dist, Lane (l_bit l) source (RDist section) (l_pend l) (l_del l) (l_sink l))
          | Some _ => Ok (s, dist, Lane (l_bit l) source (RPend section) (l_pend l) (l_del l) (l_sink l))
          end
      | [] => if closed (l_source l) then Ok (s, dist, Lane (l_bit l) (l_source l) RDone (close (l_pend l)) (l_del l) (l_sink l)) else wait
      end
  | RDist section =>
      if has_room cap dist
      then Ok (s, send dist (l_bit l, section), Lane (l_bit l) (l_source l) (RPend section) (l_pend l) (l_del l) (l_sink l)) else wait
  | RPend section =>
      if has_room cap (l_pend l)
      then Ok (s, dist, Lane (l_bit l) (l_source l) RIdle (send (l_pend l) section) (l_del l) (l_sink l)) else wait
  | RDone => wait
  end.

Definition scheduleDeliveries (cap : nat) (s : scheduler) (l : lane) : move lane :=
  match l_del l with
  | DIdle =>
      match buf (l_pend l) with
      | idx :: rest => Ok (Lane (l_bit l) (l_source l) (l_req l) (Chan rest (closed (l_pend l))) (DWait idx) (l_sink l))
      | [] => if closed (l_pend l) then Ok (Lane (l_bit l) (l_source l) (l_req l) (l_pend l) DDone (close (l_sink l))) else wait
      end
  | DWait idx =>
      match responses s !! idx with
      | None => Panic
      | Some None => wait
      | Some (Some data) => Ok (Lane (l_bit l) (l_source l) (l_req l) (l_pend l) (DSend data) (l_sink l))
      end
  | DSend data =>
      if has_room cap (l_sink l)
      then Ok (Lane (l_bit l) (l_source l) (l_req l) (l_pend l) DIdle (send (l_sink l) data)) else wait
  | DDone => wait
  end.

(** [None]: fewer bit vectors than sections. *)
Fixpoint sched_deliver (s : scheduler) (sections : list Z) (data : list (list Z)) : option scheduler :=
  match sections with
  | [] => Some s
  | section :: sections =>
      match responses s !! section with
      | Some None => d ← head data; sched_deliver (Sched (<[section := Some d]> (responses s))) sections (tail data)
      | _ => sched_deliver s sections (tail data)
      end
  end.

(** ** The filters of a matcher *)

Section new_matcher.
  Context (Keccak256 : list Z -> list Z).

Definition calcBloomIndexes (b : list Z) : list Z :=
  let b := Keccak256 b in
  map (fun i => Z.land (Z.shiftl (nth (2 * i) b 0) 8) 2047 + nth (2 * i + 1) b 0) (seq 0 3).

(** A clause that is nil is [None]; a rule with one is skipped. *)
Definition rule_bits (filter : list (option (list Z))) : option (list (list Z)) := mapM (fun clause => calcBloomIndexes <$> clause) filter.
Definition matcher_filters (filters : list (list (option (list Z)))) : list (list (list Z)) :=
  omap (fun filter => if (length filter =? 0)%nat then None else rule_bits filter) filters.
End new_matcher.

Record Matcher : Type := { sectionSize : Z; filters : list (list (list Z)); schedulers : gmap Z scheduler }.

Definition addScheduler (idx : Z) (m : gmap Z scheduler) : gmap Z scheduler :=
  match m !! idx with Some _ => m | None => <[idx := newScheduler]> m end.
Definition NewMatcher (Keccak256 : list Z -> list Z) (sectionSize : Z) (filters : list (list (option (list Z)))) : Matcher :=
  let fs := matcher_filters Keccak256 filters in
  {| sectionSize := sectionSize; filters := fs; schedulers := foldl (fun m idx => addScheduler idx m) ∅ (concat (concat fs)) |}.

(** ** The sub-matchers *)

Record partialMatches : Type := PM { section : Z; bitset : list Z }.

Inductive rq_pc : Type :=
| QIdle
| QMux (subres : partialMatches) (sent : nat)
| QDone.
Inductive co_pc : Type :=
| CIdle
| CGather (subres : partialMatches) (read : nat) (orVector andVector : option (list Z))
| CSend (res : partialMatches)
| CDone.

Record stage : Type := Stage {
  s_lanes : list lane; s_requester : rq_pc; s_process : chan partialMatches; s_collector : co_pc; s_results : chan partialMatches }.

Definition subMatch (bloom : list (list Z)) : stage := Stage (map sched_run (concat bloom)) QIdle make_chan CIdle make_chan.

Definition push_source (section : Z) (l : lane) : lane := Lane (l_bit l) (send (l_source l) section) (l_req l) (l_pend l) (l_del l) (l_sink l).
Definition close_source (l : lane) : lane := Lane (l_bit l) (close (l_source l)) (l_req l) (l_pend l) (l_del l) (l_sink l).
Definition pop_sink (rest : list (list Z)) (l : lane) : lane :=
  Lane (l_bit l) (l_source l) (l_req l) (l_pend l) (l_del l) (Chan rest (closed (l_sink l))).

(** The goroutine that reads the source and multiplexes its sections. *)
Definition multiplexer (cap : nat) (source : chan partialMatches) (st : stage) : move (chan partialMatches * stage) :=
  match s_requester st with
  | QIdle =>
      match buf source with
      | subres :: rest => Ok (Chan rest (closed source), Stage (s_lanes st) (QMux subres 0) (s_process st) (s_collector st) (s_results st))
      | [] =>
          if closed source
          then Ok (source, Stage (map close_source (s_lanes st)) QDone (close (s_process st)) (s_collector st) (s_results st)) else wait
      end
  | QMux subres sent =>
      match s_lanes st !! sent with
      | Some l =>
          if has_room cap (l_source l)
          then Ok (source, Stage (<[sent := push_source (section subres) l]> (s_lanes st)) (QMux subres (S sent)) (s_process st) (s_collector st) (s_results st))
          else wait
      | None =>
          if has_room cap (s_process st)
          then Ok (source, Stage (s_lanes st) QIdle (send (s_process st) subres) (s_collector st) (s_results st)) else wait
      end
  | QDone => wait
  end.

Section sub_match.
  Context (supportsUnaligned : bool) (ws : nat) (sectionSize : Z).

(** One vector of a clause: copied if it is the first, else AND-ed. *)
Definition and_vector (andVector : option (list Z)) (data : list Z) : option (list Z) :=
  match andVector with
  | None => Some (go_copy (zeros (sectionSize / 8)) data)
  | Some v => fst <$> ANDBytes supportsUnaligned ws v v data
  end.
Definition or_vector (orVector : option (list Z)) (andVector : list Z) : option (list Z) :=
  match orVector with
  | None => Some andVector
  | Some v => fst <$> ORBytes supportsUnaligned ws v v andVector
  end.
(** The data of sink [read]: every third one completes a clause. *)
Definition gather_vector (read : nat) (orVector andVector : option (list Z)) (data : list Z) : option (option (list Z) * option (list Z)) :=
  v ← and_vector andVector data;
  if (read mod 3 =? 2)%nat then o ← or_vector orVector v; Some (Some o, None) else Some (orVector, Some v).
Definition finish (orVector : option (list Z)) (subres : partialMatches) : option partialMatches :=
  let o := default (zeros (sectionSize / 8)) orVector in
  v ← fst <$> ANDBytes supportsUnaligned ws o o (bitset subres);
  Some (PM (section subres) v).

(** The goroutine that collects the vectors of a section; a sink that is closed gives nil. *)
Definition collector (cap : nat) (st : stage) : move stage :=
  match s_collector st with
  | CIdle =>
      match buf (s_process st) with
      | subres :: rest => Ok (Stage (s_lanes st) (s_requester st) (Chan rest (closed (s_process st))) (CGather subres 0 None None) (s_results st))
      | [] => if closed (s_process st) then Ok (Stage (s_lanes st) (s_requester st) (s_process st) CDone (close (s_results st))) else wait
      end
  | CGather subres read orVector andVector =>
      match s_lanes st !! read with
      | Some l =>
          let got data lanes :=
            let? (o, a) := of_option (gather_vector read orVector andVector data) in
            Ok (Stage lanes (s_requester st) (s_process st) (CGather subres (S read) o a) (s_results st)) in
          match buf (l_sink l) with
          | data :: rest => got data (<[read := pop_sink rest l]> (s_lanes st))
          | [] => if closed (l_sink l) then got [] (s_lanes st) else wait
          end
      | None =>
          let? res := of_option (finish orVector subres) in
          Ok (Stage (s_lanes st) (s_requester st) (s_process st)
                (if TestBytes supportsUnaligned ws (bitset res) then CSend res else CIdle) (s_results st))
      end
  | CSend res =>
      if has_room cap (s_results st)
      then Ok (Stage (s_lanes st) (s_requester st) (s_process st) CIdle (send (s_results st) res)) else wait
  | CDone => wait
  end.

(** ** The ends of the pipeline *)

Inductive feed_pc : Type :=
| FNext (i : Z)
| FDone.

(** The goroutine of run that feeds the sections. *)
Definition feeder (cap : nat) (end_ : Z) (pc : feed_pc) (source : chan partialMatches) : move (feed_pc * chan partialMatches) :=
  match pc with
  | FNext i =>
      if i <=? end_ / sectionSize then
        if has_room cap source
        then Ok (FNext (u64 (i + 1)), send source (PM i (replicate (Z.to_nat (sectionSize / 8)) 255))) else wait
      else Ok (FDone, close source)
  | FDone => wait
  end.

Inductive read_pc : Type :=
| VIdle
| VScan (res : partialMatches) (i last : Z)
| VDone.

Definition sectionStart (res : partialMatches) : Z := u64 (section res * sectionSize).

(** The goroutine of Start, and the block it reports with this move.  The
    results channel of the caller is taken to be read. *)
Definition reader (begin end_ : Z) (pc : read_pc) (sink : chan partialMatches) : move (read_pc * chan partialMatches * list Z) :=
  match pc with
  | VIdle =>
      match buf sink with
      | res :: rest =>
          let start := sectionStart res in
          let first := if start <? begin then begin else start in
          let last := u64 (start + sectionSize - 1) in
          let last := if end_ <? last then end_ else last in
          Ok (VScan res first last, Chan rest (closed sink), [])
      | [] => if closed sink then Ok (VDone, sink, []) else wait
      end
  | VScan res i last =>
      if i <=? last then
        let? next := of_option (bitset res !! Z.to_nat (u64 (i - sectionStart res) / 8)) in
        if next =? 0 then
          let i := if i mod 8 =? 0 then u64 (i + 7) else i in
          Ok (VScan res (u64 (i + 1)) last, sink, [])
        else
          let bit := 7 - i mod 8 in
          let out := if negb (Z.land next (Z.shiftl 1 bit) =? 0) then [i] else [] in
          Ok (VScan res (u64 (i + 1)) last, sink, out)
      else Ok (VIdle, sink, [])
  | VDone => wait
  end.
End sub_match.

(** ** The distributor *)

Record distributor : Type := Distr {
  requests : gmap Z (list Z); unallocs : gset Z; retrievers : bool; allocs : Z }.

Definition newDistributor : distributor := Distr ∅ ∅ false 0.
Definition queue_of (d : distributor) (bit : Z) : list Z := default [] (requests d !! bit).

(** assign, when a retriever is waiting or not; the bit goes to that retriever. *)
Definition assign (waiting : bool) (bit : Z) (d : distributor) : distributor * list Z :=
  if waiting then (Distr (requests d) (unallocs d) (retrievers d) (allocs d + 1), [bit])
  else (Distr (requests d) ({[bit]} ∪ unallocs d) true (allocs d), []).

Definition insert_section (queue : list Z) (section : Z) : list Z :=
  let index := Search (length queue) (fun i => section <=? nth i queue 0) in
  take index queue ++ [section] ++ drop index queue.

Definition on_request (waiting : bool) (bit section : Z) (d : distributor) : distributor * list Z :=
  let queue := queue_of d bit in
  let d := Distr (<[bit := insert_section queue section]> (requests d)) (unallocs d) (retrievers d) (allocs d) in
  if (length queue =? 0)%nat then assign waiting bit d else (d, []).

(** The loop over unallocs, in the order of the iteration; [None]: a bit without requests. *)
Fixpoint best_bit (d : distributor) (order : list Z) (bit best : Z) : option Z :=
  match order with
  | [] => Some bit
  | idx :: order =>
      first ← head (queue_of d idx);
      if first <? best then best_bit d order idx first else best_bit d order bit best
  end.
Definition on_retriever (order : list Z) (d : distributor) : move (distributor * Z) :=
  if retrievers d then
    let? bit := of_option (best_bit d order 0 (2 ^ 64 - 1)) in
    let unallocs := unallocs d ∖ {[bit]} in
    Ok (Distr (requests d) unallocs (negb (bool_decide (unallocs = ∅))) (allocs d + 1), bit)
  else wait.

Definition on_count (bit : Z) (d : distributor) : Z := len (queue_of d bit).

(** The sections for the retriever, and the bits assigned to another one. *)
Definition on_retrieval (waiting : bool) (bit : Z) (want : nat) (d : distributor) : distributor * list Z * list Z :=
  let queue := queue_of d bit in
  if (length queue <=? want)%nat
  then (Distr (delete bit (requests d)) (unallocs d) (retrievers d) (allocs d), queue, [])
  else
    let d := Distr (<[bit := drop want queue]> (requests d)) (unallocs d) (retrievers d) (allocs d) in
    let '(d, given) := assign waiting bit d in
    (d, take want queue, given).

Definition split_delivery (sections : list Z) (bitsets : list (list Z)) : list (Z * list Z) * list Z :=
  let pairs := zip sections bitsets in
  (filter (fun '(_, b) => b <> []) pairs, map fst (filter (fun '(_, b) => b = []) pairs)).

(** [None]: more vectors than sections, or a bit without scheduler. *)
Definition on_delivery (waiting : bool) (bit : Z) (sections : list Z) (bitsets : list (list Z)) (d : distributor) (schedulers : gmap Z scheduler)
    : option (distributor * gmap Z scheduler * list Z) :=
  if (length sections <? length bitsets)%nat then None
  else
  let '(complete, missing) := split_delivery sections bitsets in
  s ← schedulers !! bit;
  s ← sched_deliver s (map fst complete) (map snd complete);
  let schedulers := <[bit := s]> schedulers in
  let d := Distr (requests d) (unallocs d) (retrievers d) (allocs d - 1) in
  if (0 <? length missing)%nat then
    let queue := foldl insert_section (queue_of d bit) missing in
    let d := Distr (<[bit := queue]> (requests d)) (unallocs d) (retrievers d) (allocs d) in
    let '(d, given) := if (length queue =? length missing)%nat then assign waiting bit d else (d, []) in
    Some (d, schedulers, given)
  else Some (d, schedulers, []).

(** ** Sessions *)

Record session : Type := Session {
  ss_feeder : feed_pc; ss_source : chan partialMatches; ss_stages : list stage; ss_schedulers : gmap Z scheduler;
  ss_dist : chan (Z * Z); ss_distributor : distributor;
  ss_held : list Z;                  (* bits given to retrievers by AllocateRetrieval *)
  ss_tasks : list (Z * list Z);      (* sections given to retrievers by AllocateSections *)
  ss_reader : read_pc; ss_out : list Z }.

Definition Start (m : Matcher) (begin : Z) : session :=
  Session (FNext (begin / sectionSize m)) make_chan (map subMatch (filters m)) (sched_reset <$> schedulers m)
    make_chan newDistributor [] [] VIdle [].

Definition with_results (r : chan partialMatches) (st : stage) : stage := Stage (s_lanes st) (s_requester st) (s_process st) (s_collector st) r.
Definition with_lane (j : nat) (l : lane) (st : stage) : stage :=
  Stage (<[j := l]> (s_lanes st)) (s_requester st) (s_process st) (s_collector st) (s_results st).

Section steps.
  Context (supportsUnaligned : bool) (ws : nat) (sectionSize : Z) (cap : nat) (begin end_ : Z).
  (** The bit vector of a bit and a section: what the retrievers look up. *)
  Context (data : Z -> Z -> list Z).

#[local] Abbreviation co := (collector supportsUnaligned ws sectionSize cap).

(** A move of one goroutine, or a call of a retriever: AllocateRetrieval,
    AllocateSections of a bit that it holds, DeliverSections of sections that it
    took, with the vectors of the sections or nothing. *)
Inductive step : session -> session -> Prop :=
| step_feeder f src src' f' sts sch d di h t r o :
    feeder sectionSize cap end_ f src = Ok (f', src') ->
    step (Session f src sts sch d di h t r o) (Session f' src' sts sch d di h t r o)
| step_multiplexer_first f src src' st st' sts sch d di h t r o :
    multiplexer cap src st = Ok (src', st') ->
    step (Session f src (st :: sts) sch d di h t r o) (Session f src' (st' :: sts) sch d di h t r o)
| step_multiplexer f src pre st1 c st2 st2' post sch d di h t r o :
    multiplexer cap (s_results st1) st2 = Ok (c, st2') ->
    step (Session f src (pre ++ st1 :: st2 :: post) sch d di h t r o) (Session f src (pre ++ with_results c st1 :: st2' :: post) sch d di h t r o)
| step_collector f src pre st st' post sch d di h t r o :
    co st = Ok st' ->
    step (Session f src (pre ++ st :: post) sch d di h t r o) (Session f src (pre ++ st' :: post) sch d di h t r o)
| step_requests f src pre st post j l l' s s' sch d d' di h t r o :
    s_lanes st !! j = Some l -> sch !! l_bit l = Some s -> scheduleRequests cap s d l = Ok (s', d', l') ->
    step (Session f src (pre ++ st :: post) sch d di h t r o)
         (Session f src (pre ++ with_lane j l' st :: post) (<[l_bit l := s']> sch) d' di h t r o)
| step_deliveries f src pre st post j l l' s sch d di h t r o :
    s_lanes st !! j = Some l -> sch !! l_bit l = Some s -> scheduleDeliveries cap s l = Ok l' ->
    step (Session f src (pre ++ st :: post) sch d di h t r o) (Session f src (pre ++ with_lane j l' st :: post) sch d di h t r o)
| step_reader_source f src src' sch d di h t r r' o out :
    reader sectionSize begin end_ r src = Ok (r', src', out) ->
    step (Session f src [] sch d di h t r o) (Session f src' [] sch d di h t r' (o ++ out))
| step_reader f src pre st c sch d di h t r r' o out :
    reader sectionSize begin end_ r (s_results st) = Ok (r', c, out) ->
    step (Session f src (pre ++ [st]) sch d di h t r o) (Session f src (pre ++ [with_results c st]) sch d di h t r' (o ++ out))
| step_distribute f src sts sch bit section rest cl w di di' g h t r o :
    on_request w bit section di = (di', g) ->
    step (Session f src sts sch (Chan ((bit, section) :: rest) cl) di h t r o) (Session f src sts sch (Chan rest cl) di' (h ++ g) t r o)
| step_retriever f src sts sch d order di di' bit h t r o :
    order ≡ₚ elements (unallocs di) -> on_retriever order di = Ok (di', bit) ->
    step (Session f src sts sch d di h t r o) (Session f src sts sch d di' (h ++ [bit]) t r o)
| step_allocate f src sts sch d w bit want di di' secs g h1 h2 t r o :
    on_retrieval w bit want di = (di', secs, g) ->
    step (Session f src sts sch d di (h1 ++ bit :: h2) t r o) (Session f src sts sch d di' (h1 ++ h2 ++ g) (t ++ [(bit, secs)]) r o)
| step_deliver f src sts sch sch' d w bit secs bitsets di di' g h t1 t2 r o :
    Forall2 (fun s b => b = [] \/ b = data bit s) secs bitsets ->
    on_delivery w bit secs bitsets di sch = Some (di', sch', g) ->
    step (Session f src sts sch d di h (t1 ++ (bit, secs) :: t2) r o) (Session f src sts sch' d di' (h ++ g) (t1 ++ t2) r o).

Definition reachable (m : Matcher) : session -> Prop := rtc step (Start m begin).
End steps.
