(* ===== verification/MatcherProof.v ===== *)
(** * Package core/bloombits: what a matching session reports

    The theorems on Matcher.v.  [total] is what a session has reported and what
    its goroutines still hold, in the order in which it will be reported: every
    move of every goroutine leaves it as it is.  The lanes, one per scheduler
    run, hold the sections that the multiplexer has sent and the collector has
    not read yet, in this order. *)

From stdpp Require Import gmap list_numbers.
From S2P Require Import Prelude Bitutil Compress Bloom Matcher.

Section session.
  Context (supportsUnaligned : bool) (ws : nat) (sectionSize : Z) (cap : nat) (begin end_ : Z).
  Context (data : Z -> Z -> list Z).
  Context (Hws : (0 < ws)%nat) (Hpos : 0 < sectionSize) (H8 : sectionSize mod 8 = 0).
  Context (Hbegin : 0 <= begin) (Hend : 0 <= end_) (Hmax : end_ + sectionSize + 8 < 2 ^ 64).
  Context (Hdata : forall bit sec, bytes_ok (data bit sec) /\ length (data bit sec) = Z.to_nat (sectionSize / 8)).

#[local] Abbreviation gather' := (gather_vector supportsUnaligned ws sectionSize).
#[local] Abbreviation finish' := (finish supportsUnaligned ws sectionSize).
#[local] Abbreviation collector' := (collector supportsUnaligned ws sectionSize cap).
#[local] Abbreviation step' := (step supportsUnaligned ws sectionSize cap begin end_ data).

(** ** What the goroutines still hold *)

Fixpoint gather_from (k : nat) (o a : option (list Z)) (ds : list (list Z)) : option (option (list Z) * option (list Z)) :=
  match ds with
  | [] => Some (o, a)
  | d :: ds => '(o, a) ← gather' k o a d; gather_from (S k) o a ds
  end.
(** The result of a section whose sinks from [k] on are still to be read. *)
Definition outcome_from (k : nat) (o a : option (list Z)) (bits : list Z) (x : partialMatches) : option partialMatches :=
  '(o, _) ← gather_from k o a (map (fun b => data b (section x)) bits);
  res ← finish' o x;
  if TestBytes supportsUnaligned ws (bitset res) then Some res else None.
Definition stage_out (bits : list Z) (x : partialMatches) : option partialMatches := outcome_from 0 None None bits x.

Definition bits_of_stage (st : stage) : list Z := map l_bit (s_lanes st).
Definition rq_items (st : stage) : list partialMatches := match s_requester st with QMux x _ => [x] | _ => [] end.
Definition co_future (st : stage) : list partialMatches :=
  match s_collector st with
  | CGather x k o a => option_list (outcome_from k o a (drop k (bits_of_stage st)) x)
  | CSend r => [r]
  | _ => []
  end.
Definition stage_future (inflow : list partialMatches) (st : stage) : list partialMatches :=
  buf (s_results st) ++ co_future st ++ omap (stage_out (bits_of_stage st)) (buf (s_process st) ++ rq_items st ++ inflow).

Definition full : list Z := replicate (Z.to_nat (sectionSize / 8)) 255.
Definition sections_from (i : Z) : list partialMatches := map (fun i => PM i full) (seqZ i (end_ / sectionSize - i + 1)).
Definition feed_future (f : feed_pc) : list partialMatches := match f with FNext i => sections_from i | FDone => [] end.
Definition pipeline (f : feed_pc) (src : chan partialMatches) (sts : list stage) : list partialMatches :=
  foldl stage_future (buf src ++ feed_future f) sts.

(** The blocks from [i] to [last] whose bit is set. *)
Definition block_set (res : partialMatches) (n : Z) : bool :=
  default false (bits_of (bitset res) !! Z.to_nat (n - section res * sectionSize)).
Definition blocks_in (res : partialMatches) (i last : Z) : list Z := filter (fun n => block_set res n = true) (seqZ i (last - i + 1)).
Definition blocks (res : partialMatches) : list Z :=
  blocks_in res (Z.max begin (section res * sectionSize)) (Z.min end_ (section res * sectionSize + sectionSize - 1)).
Definition reader_future (r : read_pc) : list Z := match r with VScan res i last => blocks_in res i last | _ => [] end.

Definition total (s : session) : list Z :=
  ss_out s ++ reader_future (ss_reader s) ++ concat (map blocks (pipeline (ss_feeder s) (ss_source s) (ss_stages s))).

Lemma pipeline_app f src pre post : pipeline f src (pre ++ post) = foldl stage_future (pipeline f src pre) post.
Proof. apply foldl_app. Qed.

(** ** Invariants *)

Definition vec_ok (v : list Z) : Prop := bytes_ok v /\ length v = Z.to_nat (sectionSize / 8).
Definition pm_ok (x : partialMatches) : Prop := 0 <= section x <= end_ / sectionSize /\ vec_ok (bitset x).

Definition del_secs (b : Z) (pc : del_pc) (ds : list Z) : Prop :=
  match pc with
  | DIdle | DDone => ds = []
  | DWait i => ds = [i]
  | DSend d => exists i, ds = [i] /\ d = data b i
  end.
Definition req_secs (pc : req_pc) : list Z := match pc with RDist s | RPend s => [s] | _ => [] end.

(** A lane holds the sections [A]; the deliveries wait for known sections. *)
Record lane_inv (sch : gmap Z scheduler) (l : lane) (A : list Z) : Prop := {
  li_split : exists sk ds, buf (l_sink l) = map (data (l_bit l)) sk /\ del_secs (l_bit l) (l_del l) ds /\
    sk ++ ds ++ buf (l_pend l) ++ req_secs (l_req l) ++ buf (l_source l) = A;
  li_sched : exists s, sch !! l_bit l = Some s /\
    forall i, l_del l = DWait i \/ i ∈ buf (l_pend l) \/ i ∈ req_secs (l_req l) -> is_Some (responses s !! i);
  li_source : l_req l = RDone -> closed (l_source l) = true /\ buf (l_source l) = [];
  li_pend : closed (l_pend l) = true <-> l_req l = RDone;
  li_del : l_del l = DDone -> closed (l_pend l) = true /\ buf (l_pend l) = [];
  li_sink : closed (l_sink l) = true <-> l_del l = DDone }.

Definition co_expects (co : co_pc) (j : nat) : list Z :=
  match co with CGather x k _ _ => if (k <=? j)%nat then [section x] else [] | _ => [] end.
Definition rq_expects (q : rq_pc) (j : nat) : list Z :=
  match q with QMux x sent => if (j <? sent)%nat then [section x] else [] | _ => [] end.
Definition expected (st : stage) (j : nat) : list Z :=
  co_expects (s_collector st) j ++ map section (buf (s_process st)) ++ rq_expects (s_requester st) j.

Definition co_ok (co : co_pc) : Prop :=
  match co with
  | CGather x _ o a => pm_ok x /\ (forall v, o = Some v -> vec_ok v) /\ (forall v, a = Some v -> vec_ok v)
  | CSend r => pm_ok r
  | _ => True
  end.

Record stage_inv (sch : gmap Z scheduler) (st : stage) : Prop := {
  si_process : Forall pm_ok (buf (s_process st));
  si_rq : Forall pm_ok (rq_items st);
  si_results : Forall pm_ok (buf (s_results st));
  si_co : co_ok (s_collector st);
  si_lanes : forall j l, s_lanes st !! j = Some l -> lane_inv sch l (expected st j);
  si_closed : closed (s_process st) = true <-> s_requester st = QDone;
  si_sources : s_requester st = QDone -> Forall (fun l => closed (l_source l) = true) (s_lanes st);
  si_open : s_requester st <> QDone -> Forall (fun l => closed (l_source l) = false) (s_lanes st);
  si_done : s_collector st = CDone -> closed (s_process st) = true /\ buf (s_process st) = [];
  si_end : closed (s_results st) = true <-> s_collector st = CDone }.

Definition sched_ok (sch : gmap Z scheduler) : Prop := forall b s i d, sch !! b = Some s -> responses s !! i = Some (Some d) -> d = data b i.

(** ** Vectors *)

Lemma vec_ok_zip (f : Z -> Z -> Z) `{!Bitwise f} v w : vec_ok v -> vec_ok w -> vec_ok (zip_with f v w).
Proof.
  intros [Hv Lv] [Hw Lw]. split; [|rewrite length_zip_with; lia]. clear Lv Lw. unfold bytes_ok in *. revert w Hw.
  induction Hv as [|x v Hx _ IH]; intros w Hw; [by constructor|]. destruct Hw as [|y w Hy Hw]; constructor; [by apply bitwise_byte|by apply IH].
Qed.

Lemma vec_ok_zeros : vec_ok (zeros (sectionSize / 8)).
Proof. split; [unfold zeros; by apply Forall_replicate|]. unfold zeros. by rewrite length_replicate. Qed.

Lemma vec_and v w : vec_ok v -> vec_ok w -> fst <$> ANDBytes supportsUnaligned ws v v w = Some (zip_with Z.land v w).
Proof.
  intros [Hv Lv] [Hw Lw]. destruct (fast_ops_equal_safe ws v v w Hws Hv Hw) as (_ & _ & _ & H); [lia|]. destruct (H supportsUnaligned) as (_ & -> & _).
  cbn. rewrite drop_ge by lia. by rewrite app_nil_r.
Qed.
Lemma vec_or v w : vec_ok v -> vec_ok w -> fst <$> ORBytes supportsUnaligned ws v v w = Some (zip_with Z.lor v w).
Proof.
  intros [Hv Lv] [Hw Lw]. destruct (fast_ops_equal_safe ws v v w Hws Hv Hw) as (_ & _ & _ & H); [lia|]. destruct (H supportsUnaligned) as (_ & _ & ->).
  cbn. rewrite drop_ge by lia. by rewrite app_nil_r.
Qed.

Definition opt_ok (o : option (list Z)) : Prop := forall v, o = Some v -> vec_ok v.

Definition and_vec (a : option (list Z)) (d : list Z) : list Z := match a with None => d | Some v => zip_with Z.land v d end.
Definition or_vec (o : option (list Z)) (v : list Z) : list Z := match o with None => v | Some w => zip_with Z.lor w v end.

Lemma and_vector_spec a d : opt_ok a -> vec_ok d -> and_vector supportsUnaligned ws sectionSize a d = Some (and_vec a d) /\ vec_ok (and_vec a d).
Proof.
  intros Ha Hd. destruct a as [v|]; cbn [and_vector and_vec].
  - split; [apply vec_and; [by apply Ha|done]|]. apply vec_ok_zip; [apply _|by apply Ha|done].
  - split; [|done]. f_equal. unfold go_copy. destruct Hd as [_ Hl]. destruct vec_ok_zeros as [_ Hz]. rewrite take_ge, drop_ge by lia. apply app_nil_r.
Qed.
Lemma or_vector_spec o v : opt_ok o -> vec_ok v -> or_vector supportsUnaligned ws o v = Some (or_vec o v) /\ vec_ok (or_vec o v).
Proof.
  intros Ho Hv. destruct o as [w|]; cbn [or_vector or_vec]; [|done].
  split; [apply vec_or; [by apply Ho|done]|]. apply vec_ok_zip; [apply _|by apply Ho|done].
Qed.

Lemma gather_ok k o a d : opt_ok o -> opt_ok a -> vec_ok d -> exists o' a', gather' k o a d = Some (o', a') /\ opt_ok o' /\ opt_ok a'.
Proof.
  intros Ho Ha Hd. unfold gather_vector. destruct (and_vector_spec a d Ha Hd) as [-> Hv]. cbn [mbind option_bind].
  destruct (k mod 3 =? 2)%nat.
  - destruct (or_vector_spec o _ Ho Hv) as [-> Hw]. cbn [mbind option_bind]. do 2 eexists. split; [done|]. split; [by intros ? [= <-]|done].
  - do 2 eexists. split; [done|]. split; [done|by intros ? [= <-]].
Qed.

Lemma finish_ok o x : opt_ok o -> pm_ok x ->
  finish' o x = Some (PM (section x) (zip_with Z.land (default (zeros (sectionSize / 8)) o) (bitset x))) /\
  vec_ok (zip_with Z.land (default (zeros (sectionSize / 8)) o) (bitset x)).
Proof.
  intros Ho [_ Hx]. assert (Hv : vec_ok (default (zeros (sectionSize / 8)) o)) by (destruct o; [by apply Ho|apply vec_ok_zeros]).
  unfold finish. rewrite vec_and by done. split; [done|]. by apply vec_ok_zip; [apply _|..].
Qed.

(** ** The multiplexer *)

Lemma bits_push st k l l' : s_lanes st !! k = Some l -> l_bit l' = l_bit l -> map l_bit (<[k := l']> (s_lanes st)) = map l_bit (s_lanes st).
Proof.
  intros Hl Hb. change (map l_bit (<[k := l']> (s_lanes st))) with (l_bit <$> <[k := l']> (s_lanes st)). rewrite list_fmap_insert, Hb.
  apply list_insert_id. by rewrite list_lookup_fmap, Hl.
Qed.

Lemma multiplexer_future src st src' st' rest : multiplexer cap src st = Ok (src', st') ->
  stage_future (buf src ++ rest) st = stage_future (buf src' ++ rest) st' /\ s_results st' = s_results st.
Proof.
  unfold multiplexer, stage_future, co_future, rq_items, bits_of_stage. intros H. destruct (s_requester st) as [|x k|].
  - destruct (buf src) as [|x r] eqn:Es.
    + destruct (closed src); [|done]. injection H as <- <-. cbn. rewrite !map_map, Es. done.
    + injection H as <- <-. done.
  - destruct (s_lanes st !! k) as [l|] eqn:El.
    + destruct (has_room cap (l_source l)); [|done]. injection H as <- <-. cbn. by rewrite (bits_push st k l) by done.
    + destruct (has_room cap (s_process st)); [|done]. injection H as <- <-. cbn. rewrite <- !app_assoc. done.
  - done.
Qed.

Lemma expected_closed st j : s_requester st = QDone -> expected st j = co_expects (s_collector st) j ++ map section (buf (s_process st)).
Proof. intros H. unfold expected. rewrite H. cbn. by rewrite app_nil_r. Qed.

Lemma push_source_inv sch l A i : lane_inv sch l A -> closed (l_source l) = false -> lane_inv sch (push_source i l) (A ++ [i]).
Proof.
  intros [(sk & ds & H1 & H2 & H3) H4 H5 H6 H7 H8'] Hc. split; cbn.
  - exists sk, ds. split_and!; [done|done|]. rewrite <- H3. by rewrite <- !app_assoc.
  - done.
  - intros Hr. destruct (H5 Hr) as [Hc' _]. congruence.
  - done.
  - done.
  - done.
Qed.

Lemma close_source_inv sch l A : lane_inv sch l A -> lane_inv sch (close_source l) A.
Proof. intros [H1 H4 H5 H6 H7 H8']. split; cbn; try done. intros Hr. by destruct (H5 Hr). Qed.

Ltac fields := cbn [s_lanes s_requester s_process s_collector s_results rq_expects buf closed send close] in *.

Lemma multiplexer_inv sch src st src' st' : multiplexer cap src st = Ok (src', st') -> stage_inv sch st -> Forall pm_ok (buf src) ->
  stage_inv sch st' /\ Forall pm_ok (buf src') /\ closed src' = closed src.
Proof.
  unfold multiplexer. intros H [Hp Hq Hr Hc Hl Hcl Hso Hop Hd He] Hsrc. destruct (s_requester st) as [|x k|] eqn:Eq.
  - destruct (buf src) as [|x r] eqn:Es.
    + destruct (closed src) eqn:Ec; [|done]. injection H as <- <-. split_and!; [|by rewrite Es|done]. split; unfold rq_items; fields; try done.
      * intros j l Hj. rewrite lookup_map in Hj. apply fmap_Some in Hj as (l0 & Hl0 & ->).
        apply close_source_inv. specialize (Hl j l0 Hl0). unfold expected in *. rewrite Eq in Hl. fields. by rewrite app_nil_r in Hl |- *.
      * intros _. apply Forall_map. cbn. by apply Forall_true.
      * intros Hd'. by destruct (Hd Hd').
    + injection H as <- <-. apply Forall_cons in Hsrc as [Hx Hsrc]. split_and!; [|done|done]. split; unfold rq_items; fields; try done.
      * by constructor.
      * intros j l Hj. specialize (Hl j l Hj). unfold expected in *. rewrite Eq in Hl. fields. done.
      * split; [|done]. intros Hcl'. apply Hcl in Hcl'. congruence.
      * intros _. by apply Hop.
  - unfold rq_items in Hq. rewrite Eq in Hq. apply Forall_cons in Hq as [Hq _]. destruct (s_lanes st !! k) as [l|] eqn:El.
    + destruct (has_room cap (l_source l)); [|done]. injection H as <- <-. split_and!; [|done|done]. split; unfold rq_items; fields; try done.
      * by constructor.
      * intros j l' Hj. destruct (decide (j = k)) as [->|Hne].
        -- rewrite list_lookup_insert_eq in Hj by (by eapply lookup_lt_Some). injection Hj as <-.
           specialize (Hl k l El). unfold expected in *. rewrite Eq in Hl. fields. rewrite Nat.ltb_irrefl, app_nil_r in Hl.
           destruct (Nat.ltb_spec k (S k)); [|lia]. rewrite app_assoc. apply push_source_inv; [done|].
           assert (Ho : Forall (fun l => closed (l_source l) = false) (s_lanes st)) by (by apply Hop). by eapply (Forall_lookup_1 _ _ _ _ Ho El).
        -- rewrite list_lookup_insert_ne in Hj by done. specialize (Hl j l' Hj). unfold expected in *. rewrite Eq in Hl. fields.
           by replace (j <? S k)%nat with (j <? k)%nat by (destruct (Nat.ltb_spec j k), (Nat.ltb_spec j (S k)); lia || done).
      * split; [|done]. intros Hcl'. apply Hcl in Hcl'. congruence.
      * intros _. apply Forall_insert; [by apply Hop|]. cbn. assert (Ho : Forall (fun l => closed (l_source l) = false) (s_lanes st)) by (by apply Hop).
        by eapply (Forall_lookup_1 _ _ _ _ Ho El).
    + destruct (has_room cap (s_process st)); [|done]. injection H as <- <-. split_and!; [|done|done]. split; unfold rq_items; fields; try done.
      * apply Forall_app. split; [done|by constructor].
      * intros j l Hj. specialize (Hl j l Hj). unfold expected in *. rewrite Eq in Hl. fields. rewrite map_app, app_nil_r. cbn.
        apply lookup_lt_Some in Hj. apply lookup_ge_None in El. by destruct (Nat.ltb_spec j k); [|lia].
      * split; [|done]. intros Hcl'. apply Hcl in Hcl'. congruence.
      * intros _. by apply Hop.
      * intros Hd'. destruct (Hd Hd') as [Hcl' _]. apply Hcl in Hcl'. congruence.
  - done.
Qed.

(** ** The collector *)

(** The sink that the collector reads holds the vector of its section, or stays open. *)
Lemma sink_data sch st x k o a l : stage_inv sch st -> s_collector st = CGather x k o a -> s_lanes st !! k = Some l ->
  match buf (l_sink l) with
  | d :: rest => d = data (l_bit l) (section x) /\
      lane_inv sch (pop_sink rest l) (map section (buf (s_process st)) ++ rq_expects (s_requester st) k)
  | [] => closed (l_sink l) = false
  end.
Proof.
  intros [_ _ _ _ Hl _ _ _ _ _] Ec El. specialize (Hl k l El). unfold expected in Hl. rewrite Ec in Hl. cbn [co_expects] in Hl.
  rewrite Nat.leb_refl in Hl. destruct Hl as [(sk & ds & H1 & H2 & H3) H4 H5 H6 H7 H8']. destruct (buf (l_sink l)) as [|d rest] eqn:Es.
  - destruct sk; [|done]. destruct (closed (l_sink l)) eqn:Ecl; [|done]. exfalso. assert (Ed : l_del l = DDone) by (by apply H8'). destruct (H7 Ed) as [Hp Hpb].
    apply H6 in Hp as Er. destruct (H5 Er) as [_ Hsb]. rewrite Ed in H2. cbn in H2. subst ds. rewrite Hpb, Hsb, Er in H3. done.
  - destruct sk as [|i sk]; [done|]. injection H1 as -> ->. injection H3 as -> H3. split; [done|]. split; try done. by exists sk, ds.
Qed.

Lemma collector_future sch st st' inflow : stage_inv sch st -> collector' st = Ok st' -> stage_future inflow st = stage_future inflow st'.
Proof.
  intros Hinv H. pose proof (sink_data sch st) as Hs. destruct Hinv as [Hp Hq Hr Hc Hl Hcl Hso Hop Hd He].
  unfold collector in H. unfold stage_future, co_future, bits_of_stage, rq_items in *. destruct (s_collector st) as [|x k o a|r|] eqn:Ec.
  - destruct (buf (s_process st)) as [|x rest] eqn:Ep.
    + destruct (closed (s_process st)); [|done]. injection H as <-. fields. by rewrite Ep.
    + injection H as <-. fields. rewrite drop_0. cbn [app omap list_omap]. unfold stage_out at 1. by destruct (outcome_from 0 None None _ x).
  - destruct (s_lanes st !! k) as [l|] eqn:El.
    + specialize (Hs x k o a l ltac:(by split; rewrite ?Ec) eq_refl El).
      assert (Hdrop : drop k (map l_bit (s_lanes st)) = l_bit l :: drop (S k) (map l_bit (s_lanes st))) by (apply drop_S; by rewrite lookup_map, El).
      assert (G : forall d, d = data (l_bit l) (section x) -> forall o' a', gather' k o a d = Some (o', a') ->
        outcome_from k o a (drop k (map l_bit (s_lanes st))) x = outcome_from (S k) o' a' (drop (S k) (map l_bit (s_lanes st))) x).
      { intros d -> o' a' Hg. rewrite Hdrop. unfold outcome_from. cbn [map gather_from]. by rewrite Hg. }
      destruct (buf (l_sink l)) as [|d rest] eqn:Es; [by rewrite Hs in H|]. destruct Hs as [Hd' _].
      destruct (gather' k o a d) as [[o' a']|] eqn:Eg; [|done]. cbn [of_option obind] in H. injection H as <-. fields.
      rewrite (bits_push st k l) by done. by rewrite (G d Hd' o' a' Eg).
    + destruct (finish' o x) as [res|] eqn:Ef; [|done]. cbn [of_option obind] in H. injection H as <-. fields.
      apply lookup_ge_None in El. rewrite drop_ge by (by rewrite length_map). unfold outcome_from. cbn [map gather_from mbind option_bind].
      rewrite Ef. cbn [mbind option_bind]. by destruct (TestBytes supportsUnaligned ws (bitset res)).
  - destruct (has_room cap (s_results st)); [|done]. injection H as <-. fields. by rewrite <- !app_assoc.
  - done.
Qed.

Lemma lane_expect sch st st' : (forall j l, s_lanes st !! j = Some l -> lane_inv sch l (expected st j)) -> s_lanes st' = s_lanes st ->
  (forall j, (j < length (s_lanes st))%nat -> expected st' j = expected st j) ->
  forall j l, s_lanes st' !! j = Some l -> lane_inv sch l (expected st' j).
Proof. intros H Hl He j l Hj. rewrite Hl in Hj. rewrite He by (by eapply lookup_lt_Some). by apply H. Qed.

Ltac same_lanes Hl := match goal with |- forall j l, _ -> lane_inv _ _ (expected ?s' j) => apply (lane_expect _ _ s' Hl eq_refl) end.

Lemma collector_inv sch st st' : stage_inv sch st -> collector' st = Ok st' -> stage_inv sch st'.
Proof.
  intros Hinv H. pose proof (sink_data sch st) as Hs. pose proof Hinv as [Hp Hq Hr Hc Hl Hcl Hso Hop Hd He].
  unfold collector in H. unfold rq_items in *. destruct (s_collector st) as [|x k o a|r|] eqn:Ec.
  - destruct (buf (s_process st)) as [|x rest] eqn:Ep.
    + destruct (closed (s_process st)) eqn:Ecl; [|done]. injection H as <-. split; unfold rq_items; fields; try done; rewrite ?Ep, ?Ecl; try done.
      same_lanes Hl. intros j _. unfold expected. fields. by rewrite Ec.
    + injection H as <-. apply Forall_cons in Hp as [Hx Hp]. split; unfold rq_items; fields; try done.
      * same_lanes Hl. intros j _. unfold expected. fields. by rewrite Ec, Ep.
      * rewrite He. done.
  - cbn [co_ok] in Hc. destruct Hc as (Hx & Ho & Ha). destruct (s_lanes st !! k) as [l|] eqn:El.
    + specialize (Hs x k o a l Hinv eq_refl El). destruct (buf (l_sink l)) as [|d rest] eqn:Es; [by rewrite Hs in H|]. destruct Hs as [Hdd Hli].
      destruct (gather_ok k o a d Ho Ha) as (o' & a' & Eg & Ho' & Ha'); [rewrite Hdd; apply Hdata|]. rewrite Eg in H. cbn [of_option obind] in H.
      injection H as <-. split; unfold rq_items; fields; try done.
      * intros j l' Hj. destruct (decide (j = k)) as [->|Hne].
        -- rewrite list_lookup_insert_eq in Hj by (by eapply lookup_lt_Some). injection Hj as <-. unfold expected. fields. cbn [co_expects].
           by destruct (Nat.leb_spec (S k) k); [lia|].
        -- rewrite list_lookup_insert_ne in Hj by done. specialize (Hl j l' Hj). unfold expected in *. rewrite Ec in Hl. fields. cbn [co_expects] in *.
           by replace (S k <=? j)%nat with (k <=? j)%nat by (destruct (Nat.leb_spec k j), (Nat.leb_spec (S k) j); lia || done).
      * intros Hq'. apply Forall_insert; [by apply Hso|]. cbn. by eapply (Forall_lookup_1 _ _ _ _ (Hso Hq') El).
      * intros Hq'. apply Forall_insert; [by apply Hop|]. cbn. by eapply (Forall_lookup_1 _ _ _ _ (Hop Hq') El).
      * rewrite He. done.
    + destruct (finish_ok o x Ho Hx) as [Ef Hv]. rewrite Ef in H. cbn [of_option obind bitset] in H. injection H as <-. set (v := zip_with Z.land _ _) in *.
      split; unfold rq_items; fields; try done.
      * destruct (TestBytes _ _ v); [|done]. split; [by destruct Hx|done].
      * same_lanes Hl. intros j Hj. unfold expected. fields. rewrite Ec. cbn [co_expects]. apply lookup_ge_None in El.
        destruct (Nat.leb_spec k j); [lia|]. by destruct (TestBytes _ _ v).
      * by destruct (TestBytes _ _ v).
      * rewrite He. by destruct (TestBytes _ _ v).
  - destruct (has_room cap (s_results st)); [|done]. injection H as <-. split; unfold rq_items; fields; try done.
    + apply Forall_app. split; [done|by constructor].
    + same_lanes Hl. intros j _. unfold expected. fields. by rewrite Ec.
    + rewrite He. done.
  - done.
Qed.

Lemma collector_no_panic sch st : stage_inv sch st -> collector' st <> Panic.
Proof.
  intros Hinv. pose proof (sink_data sch st) as Hs. pose proof Hinv as [_ _ _ Hc _ _ _ _ _ _]. unfold collector.
  destruct (s_collector st) as [|x k o a|r|] eqn:Ec.
  - destruct (buf (s_process st)); [by destruct (closed (s_process st))|done].
  - cbn [co_ok] in Hc. destruct Hc as (Hx & Ho & Ha). destruct (s_lanes st !! k) as [l|] eqn:El.
    + specialize (Hs x k o a l Hinv eq_refl El). destruct (buf (l_sink l)) as [|d rest] eqn:Es; [by rewrite Hs|]. destruct Hs as [Hdd Hli].
      destruct (gather_ok k o a d Ho Ha) as (o' & a' & Eg & _); [rewrite Hdd; apply Hdata|]. by rewrite Eg.
    + destruct (finish_ok o x Ho Hx) as [Ef Hv]. by rewrite Ef.
  - by destruct (has_room cap (s_results st)).
  - done.
Qed.

(** ** The scheduler runs *)

Definition sched_le (sch sch' : gmap Z scheduler) : Prop :=
  forall b s, sch !! b = Some s -> exists s', sch' !! b = Some s' /\ forall i, is_Some (responses s !! i) -> is_Some (responses s' !! i).

Lemma lane_inv_mono sch sch' l A : sched_le sch sch' -> lane_inv sch l A -> lane_inv sch' l A.
Proof.
  intros Hle [H1 (s & Hs & H4) H5 H6 H7 H9]. split; try done. destruct (Hle _ _ Hs) as (s' & Hs' & Hm). exists s'. split; [done|]. intros i Hi. by apply Hm, H4.
Qed.

Lemma stage_inv_mono sch sch' st : sched_le sch sch' -> stage_inv sch st -> stage_inv sch' st.
Proof. intros Hle [H1 H2 H3 H4 H5 H6 H7 H9 H10 H11]. split; try done. intros j l Hj. by eapply lane_inv_mono, H5. Qed.

Lemma sched_le_insert sch b s s' : sch !! b = Some s -> (forall i, is_Some (responses s !! i) -> is_Some (responses s' !! i)) -> sched_le sch (<[b := s']> sch).
Proof.
  intros Hs Hm b' t Ht. destruct (decide (b' = b)) as [->|Hne].
  - exists s'. rewrite lookup_insert_eq. assert (t = s) as -> by congruence. done.
  - exists t. by rewrite lookup_insert_ne by done.
Qed.

Lemma requests_dom s d l s' d' l' : scheduleRequests cap s d l = Ok (s', d', l') ->
  (forall i, is_Some (responses s !! i) -> is_Some (responses s' !! i)) /\ (forall i c, responses s' !! i = Some (Some c) -> responses s !! i = Some (Some c)) /\
  l_bit l' = l_bit l /\ closed (l_source l') = closed (l_source l).
Proof.
  unfold scheduleRequests. intros H. destruct (l_req l) as [|i|i|].
  - destruct (buf (l_source l)) as [|i rest].
    + destruct (closed (l_source l)) eqn:E; [|done]. by injection H as <- <- <-.
    + destruct (responses s !! i) as [c|] eqn:Es; injection H as <- <- <-; [done|]. cbn [responses]. split_and!; [|intros i' c|done|done].
      * intros i' Hi. destruct (decide (i' = i)) as [->|]; [by rewrite lookup_insert_eq|by rewrite lookup_insert_ne].
      * destruct (decide (i' = i)) as [->|]; [by rewrite lookup_insert_eq|by rewrite lookup_insert_ne].
  - destruct (has_room cap d); [|done]. by injection H as <- <- <-.
  - destruct (has_room cap (l_pend l)); [|done]. by injection H as <- <- <-.
  - done.
Qed.

Lemma requests_inv sch s d l s' d' l' A : scheduleRequests cap s d l = Ok (s', d', l') -> sch !! l_bit l = Some s -> lane_inv sch l A ->
  lane_inv (<[l_bit l := s']> sch) l' A.
Proof.
  intros H Hsch [(sk & ds & H1 & H2 & H3) (s0 & Hs0 & H4) H5 H6 H7 H9]. assert (s0 = s) as -> by congruence. destruct (requests_dom _ _ _ _ _ _ H) as (Hm & _).
  assert (Hk : forall i, is_Some (responses s !! i) -> is_Some (responses s' !! i)) by done. unfold scheduleRequests in H. destruct (l_req l) as [|i|i|] eqn:Er.
  - destruct (buf (l_source l)) as [|i rest] eqn:Es.
    + destruct (closed (l_source l)) eqn:Ec; [|done]. injection H as <- <- <-. split; cbn; try done.
      * by exists sk, ds; rewrite Es.
      * exists s. rewrite lookup_insert_eq. by split.
      * intros Hd. by destruct (H7 Hd).
    + assert (Hi : is_Some (responses s' !! i) /\ exists c, l' = Lane (l_bit l) (Chan rest (closed (l_source l))) c (l_pend l) (l_del l) (l_sink l) /\ req_secs c = [i] /\ c <> RDone).
      { destruct (responses s !! i) eqn:Ei; injection H as <- <- <-; cbn [responses]; rewrite ?lookup_insert_eq; split; by eauto. }
      destruct Hi as (Hi & c & -> & Hc & Hn). split; cbn; try done.
      * by exists sk, ds; rewrite Hc.
      * exists s'. rewrite lookup_insert_eq. split; [done|]. intros i' Hi'. rewrite Hc in Hi'. destruct Hi' as [Hi'|[Hi'|Hi']].
        -- by apply Hk, H4; left.
        -- by apply Hk, H4; right; left.
        -- apply list_elem_of_singleton in Hi' as ->. done.
      * rewrite H6. split; [done|]. by intros ->.
  - destruct (has_room cap d); [|done]. injection H as <- <- <-. split; cbn; try done; [by exists sk, ds| |by rewrite H6]. exists s. rewrite lookup_insert_eq. by split.
  - destruct (has_room cap (l_pend l)); [|done]. injection H as <- <- <-. split; cbn; try done.
    + exists sk, ds. split_and!; [done|done|]. rewrite <- H3. by rewrite <- !app_assoc.
    + exists s. rewrite lookup_insert_eq. split; [done|]. intros i' [Hi|[Hi|Hi]]; [by apply H4; left| |by apply elem_of_nil in Hi].
      apply elem_of_app in Hi as [Hi|Hi]; [by apply H4; right; left|by apply H4; right; right].
    + by rewrite H6.
    + intros Hd. destruct (H7 Hd) as [Hp _]. apply H6 in Hp. done.
  - done.
Qed.

Lemma deliveries_inv sch s l l' A : scheduleDeliveries cap s l = Ok l' -> sch !! l_bit l = Some s -> sched_ok sch -> lane_inv sch l A ->
  lane_inv sch l' A /\ l_bit l' = l_bit l /\ closed (l_source l') = closed (l_source l).
Proof.
  intros H Hsch Hok [(sk & ds & H1 & H2 & H3) (s0 & Hs0 & H4) H5 H6 H7 H9]. assert (s0 = s) as -> by congruence.
  unfold scheduleDeliveries in H. destruct (l_del l) as [|i|dt|] eqn:Ed; cbn [del_secs] in H2.
  - subst ds. destruct (buf (l_pend l)) as [|i rest] eqn:Ep.
    + destruct (closed (l_pend l)) eqn:Ec; [|done]. injection H as <-. split; [|done]. split; cbn; try done.
      * exists sk, []. by rewrite Ep.
      * exists s. split; [done|]. intros i [Hi|[Hi|Hi]]; [done|rewrite Ep in Hi; by apply elem_of_nil in Hi|by apply H4; right; right].
      * by rewrite <- H6, Ec.
    + injection H as <-. split; [|done]. split; cbn; try done.
      * by exists sk, [i].
      * exists s. split; [done|]. intros i' [Hi|[Hi|Hi]].
        -- injection Hi as <-. apply H4. right; left. by left.
        -- apply H4. right; left. by right.
        -- apply H4. by right; right.
      * by rewrite H9.
  - destruct (responses s !! i) as [[dt|]|] eqn:Ei; [|done|done]. injection H as <-. split; [|done]. split; cbn; try done.
    + exists sk, [i]. subst ds. split_and!; [done|exists i; split; [done|by eapply Hok]|done].
    + exists s. split; [done|]. intros i' [Hi|Hi]; [done|]. by apply H4; right.
    + by rewrite H9.
  - destruct H2 as (i & -> & ->). destruct (has_room cap (l_sink l)); [|done]. injection H as <-. split; [|done]. split; cbn; try done.
    + exists (sk ++ [i]), []. split_and!; [by rewrite map_app, H1|done|]. rewrite <- H3. by rewrite <- !app_assoc.
    + exists s. split; [done|]. intros i' [Hi|Hi]; [done|]. by apply H4; right.
    + by rewrite H9.
  - done.
Qed.

Lemma deliveries_no_panic sch s l A : sch !! l_bit l = Some s -> lane_inv sch l A -> scheduleDeliveries cap s l <> Panic.
Proof.
  intros Hsch [_ (s0 & Hs0 & H4) _ _ _ _]. assert (s0 = s) as -> by congruence. unfold scheduleDeliveries. destruct (l_del l) as [|i|dt|] eqn:Ed.
  - destruct (buf (l_pend l)); [by destruct (closed (l_pend l))|done].
  - destruct (H4 i) as [[dt|] ->]; [by left|done|done].
  - by destruct (has_room cap (l_sink l)).
  - done.
Qed.

(** ** The reader *)

Lemma section_bound x : pm_ok x -> 0 <= section x * sectionSize <= end_.
Proof. intros [[H1 H2] _]. pose proof (Z.mul_div_le end_ sectionSize Hpos). nia. Qed.

Lemma sectionStart_eq x : pm_ok x -> sectionStart sectionSize x = section x * sectionSize.
Proof. intros H. pose proof (section_bound x H). apply u64_small. unfold u64_ok. lia. Qed.

Lemma start_mod8 x : (section x * sectionSize) mod 8 = 0.
Proof. rewrite Z.mul_mod by lia. rewrite H8. by rewrite Z.mul_0_r. Qed.

Lemma block_set_byte x n : section x * sectionSize <= n ->
  block_set x n = default false ((fun b => Z.testbit b (7 - n mod 8)) <$> bitset x !! Z.to_nat ((n - section x * sectionSize) / 8)).
Proof.
  intros Hn. unfold block_set. rewrite bits_of_lookup. rewrite Z2Nat.inj_div by lia. change (Z.to_nat 8) with 8%nat.
  assert (Z.of_nat (Z.to_nat (n - section x * sectionSize) mod 8) = n mod 8) as ->; [|done].
  rewrite Nat2Z.inj_mod, Z2Nat.id by lia. rewrite <- Zminus_mod_idemp_r, start_mod8. f_equal. lia.
Qed.

Lemma blocks_in_step x i last : i <= last -> blocks_in x i last = (if block_set x i then [i] else []) ++ blocks_in x (i + 1) last.
Proof.
  intros H. unfold blocks_in. rewrite seqZ_cons by lia. replace (Z.pred (last - i + 1)) with (last - (i + 1) + 1) by lia. rewrite filter_cons.
  change (Z.succ i) with (i + 1). destruct (block_set x i); by destruct (decide _).
Qed.

Lemma blocks_in_nil x i last : last < i -> blocks_in x i last = [].
Proof. intros H. unfold blocks_in. by rewrite seqZ_nil by lia. Qed.

Lemma blocks_in_skip x k : forall i last, (forall n, i <= n < i + Z.of_nat k -> block_set x n = false) -> blocks_in x i last = blocks_in x (i + Z.of_nat k) last.
Proof.
  induction k as [|k IH]; intros i last H; [f_equal; lia|]. destruct (Z.leb_spec i last).
  - rewrite blocks_in_step, H by lia. cbn [app]. rewrite IH; [f_equal; lia|]. intros n Hn. apply H. lia.
  - by rewrite !blocks_in_nil by lia.
Qed.

Definition reader_inv (r : read_pc) : Prop :=
  match r with
  | VScan res i last => pm_ok res /\ section res * sectionSize <= i /\ last <= end_ /\ last <= section res * sectionSize + sectionSize - 1
  | _ => True
  end.

Lemma byte_at x i : pm_ok x -> section x * sectionSize <= i <= section x * sectionSize + sectionSize - 1 -> i <= end_ ->
  exists b, bitset x !! Z.to_nat (u64 (i - sectionStart sectionSize x) / 8) = Some b /\ byte_ok b /\
    (forall n, section x * sectionSize <= n -> n / 8 = i / 8 -> block_set x n = Z.testbit b (7 - n mod 8)).
Proof.
  intros Hx Hi He. rewrite sectionStart_eq by done. pose proof (section_bound x Hx). rewrite u64_small by (unfold u64_ok; lia).
  pose proof (start_mod8 x) as Hm. pose proof Hx as [_ [Hb Hl]]. pose proof (Z.div_mod sectionSize 8 ltac:(lia)) as Hdm. rewrite H8 in Hdm.
  assert (Hlt : (i - section x * sectionSize) / 8 < sectionSize / 8) by (apply Z.div_lt_upper_bound; lia).
  assert (0 <= (i - section x * sectionSize) / 8) by (apply Z.div_pos; lia).
  destruct (lookup_lt_is_Some_2 (bitset x) (Z.to_nat ((i - section x * sectionSize) / 8))) as [b Eb]; [rewrite Hl; lia|].
  exists b. split; [done|]. split; [by eapply (Forall_lookup_1 _ _ _ _ Hb Eb)|]. intros n Hn Hq. rewrite block_set_byte by done.
  replace ((n - section x * sectionSize) / 8) with ((i - section x * sectionSize) / 8); [by rewrite Eb|].
  pose proof (Z.div_mod (section x * sectionSize) 8 ltac:(lia)) as Hs. rewrite Hm in Hs. rewrite Hs.
  replace (i - (8 * (section x * sectionSize / 8) + 0)) with (i + (- (section x * sectionSize / 8)) * 8) by lia.
  replace (n - (8 * (section x * sectionSize / 8) + 0)) with (n + (- (section x * sectionSize / 8)) * 8) by lia.
  rewrite !Z.div_add by lia. lia.
Qed.

Lemma land_bit b k : 0 <= k -> negb (Z.land b (Z.shiftl 1 k) =? 0) = Z.testbit b k.
Proof.
  intros Hk. rewrite Z.shiftl_1_l. destruct (Z.testbit b k) eqn:E.
  - apply negb_true_iff, Z.eqb_neq. intros H. assert (T : Z.testbit (Z.land b (2 ^ k)) k = true) by (by rewrite Z.land_spec, E, Z.pow2_bits_true).
    by rewrite H, Z.bits_0 in T.
  - apply negb_false_iff, Z.eqb_eq. apply Z.bits_inj'. intros n Hn. rewrite Z.land_spec, Z.pow2_bits_eqb, Z.bits_0 by lia.
    destruct (Z.eqb_spec k n) as [->|]; [by rewrite E|by rewrite andb_false_r].
Qed.

Lemma reader_step r sink : reader_inv r -> Forall pm_ok (buf sink) ->
  match reader sectionSize begin end_ r sink with
  | Ok (r', sink', out) => reader_inv r' /\ Forall pm_ok (buf sink') /\ closed sink' = closed sink /\
      forall rest, reader_future r ++ concat (map blocks (buf sink ++ rest)) = out ++ reader_future r' ++ concat (map blocks (buf sink' ++ rest))
  | Err _ => True
  | _ => False
  end.
Proof.
  intros Hr Hs. unfold reader. destruct r as [|x i last|].
  - destruct (buf sink) as [|x rest] eqn:Es; [destruct (closed sink) eqn:Ec; [|done]; by rewrite Es|]. apply Forall_cons in Hs as [Hx Hs].
    pose proof (section_bound x Hx). rewrite sectionStart_eq, u64_small by (done || unfold u64_ok; lia). split_and!; [|done|done|].
    + cbn [reader_inv]. split; [done|]. destruct (Z.ltb_spec (section x * sectionSize) begin), (Z.ltb_spec end_ (section x * sectionSize + sectionSize - 1)); lia.
    + intros rest'. cbn [reader_future app map concat]. f_equal. unfold blocks. f_equal.
      * destruct (Z.ltb_spec (section x * sectionSize) begin); lia.
      * destruct (Z.ltb_spec end_ (section x * sectionSize + sectionSize - 1)); lia.
  - destruct Hr as (Hx & H1 & H2 & H3). destruct (Z.leb_spec i last).
    + destruct (byte_at x i) as (b & -> & Hb & Hbits); [done|lia|lia|]. cbn [of_option obind].
      assert (Hu : forall k, 0 <= k <= 8 -> u64 (i + k) = i + k) by (intros k Hk; apply u64_small; unfold u64_ok; pose proof (section_bound x Hx); lia).
      pose proof (Z.mod_pos_bound i 8 ltac:(lia)). destruct (Z.eqb_spec b 0) as [->|Hne].
      * destruct (Z.eqb_spec (i mod 8) 0) as [E8|E8].
        -- rewrite Hu by lia. replace (u64 (i + 7 + 1)) with (i + 8) by (rewrite <- Hu by lia; f_equal; lia). split_and!; [by split; [done|lia]|done|done|].
           intros rest. cbn [app reader_future]. f_equal. apply (blocks_in_skip x 8). intros n Hn. rewrite Hbits by (lia || (pose proof (Z.div_mod i 8); Z.to_euclidean_division_equations; lia)).
           apply Z.testbit_0_l.
        -- rewrite Hu by lia. split_and!; [by split; [done|lia]|done|done|]. intros rest. cbn [app reader_future]. f_equal. rewrite blocks_in_step by lia.
           rewrite Hbits, Z.testbit_0_l by lia. done.
      * rewrite Hu by lia. split_and!; [by split; [done|lia]|done|done|]. intros rest. cbn [reader_future]. rewrite app_assoc. f_equal.
        rewrite blocks_in_step by lia. rewrite land_bit, Hbits by lia. done.
    + split_and!; [done|done|done|]. intros rest. cbn [reader_future]. by rewrite blocks_in_nil by lia.
  - done.
Qed.

(** ** The feeder, and deliveries *)

Definition feed_inv (f : feed_pc) : Prop := match f with FNext i => 0 <= i <= Z.max (end_ / sectionSize + 1) (begin / sectionSize) | FDone => True end.

Lemma full_ok : vec_ok full.
Proof. split; [by apply Forall_replicate|apply length_replicate]. Qed.

Lemma sections_from_cons i : i <= end_ / sectionSize -> sections_from i = PM i full :: sections_from (i + 1).
Proof. intros H. unfold sections_from. rewrite seqZ_cons by lia. cbn [map]. do 3 f_equal. lia. Qed.

Lemma feeder_step f src : feed_inv f -> Forall pm_ok (buf src) -> closed src = true <-> f = FDone ->
  match feeder sectionSize cap end_ f src with
  | Ok (f', src') => feed_inv f' /\ Forall pm_ok (buf src') /\ (closed src' = true <-> f' = FDone) /\
      buf src ++ feed_future f = buf src' ++ feed_future f' /\ f <> FDone
  | Err _ => True
  | _ => False
  end.
Proof.
  intros Hf Hs Hc. destruct f as [i|]; cbn [feeder]; [|done]. cbn in Hf. assert (end_ / sectionSize <= end_) by (apply Z.div_le_upper_bound; nia).
  destruct (Z.leb_spec i (end_ / sectionSize)).
  - destruct (has_room cap src); [|done]. cbn [send buf closed feed_inv feed_future]. rewrite u64_small by (unfold u64_ok; lia). split_and!; [lia|lia| | | |done].
    + apply Forall_app. split; [done|]. constructor; [|done]. split; [cbn; lia|apply full_ok].
    + rewrite Hc. done.
    + rewrite (sections_from_cons i) by done. by rewrite <- app_assoc.
  - cbn. split_and!; [done|done|done| |done]. unfold sections_from. by rewrite seqZ_nil by lia.
Qed.

Lemma sched_deliver_spec bit secs : forall s ds s', sched_deliver s secs ds = Some s' -> Forall2 (fun i d => d = data bit i) secs ds ->
  (forall i, is_Some (responses s !! i) -> is_Some (responses s' !! i)) /\
  ((forall i d, responses s !! i = Some (Some d) -> d = data bit i) -> forall i d, responses s' !! i = Some (Some d) -> d = data bit i).
Proof.
  induction secs as [|i secs IH]; intros s ds s' H HF; [by injection H as <-|]. apply Forall2_cons_inv_l in HF as (d & ds' & Hd & HF & ->). cbn [sched_deliver head tail] in H.
  assert (Hother : sched_deliver s secs ds' = Some s' -> _) by exact (fun H => IH s ds' s' H HF).
  destruct (responses s !! i) as [[c|]|] eqn:Ei; [by apply Hother| |by apply Hother].
  cbn [mbind option_bind] in H. destruct (IH _ ds' s' H HF) as [H1 H2]. cbn [responses] in H1, H2. split.
  - intros i' Hi'. apply H1. destruct (decide (i' = i)) as [->|]; [by rewrite lookup_insert_eq|by rewrite lookup_insert_ne].
  - intros Hs. apply H2. intros i' d'. destruct (decide (i' = i)) as [->|]; [rewrite lookup_insert_eq; by intros [= <-]|rewrite lookup_insert_ne by done; apply Hs].
Qed.

Lemma complete_right bit secs bitsets : Forall2 (fun s b => b = [] \/ b = data bit s) secs bitsets ->
  let complete := fst (split_delivery secs bitsets) in Forall2 (fun i d => d = data bit i) (map fst complete) (map snd complete).
Proof.
  cbn. induction 1 as [|s b secs bitsets Hb _ IH]; [constructor|]. cbn [zip zip_with]. rewrite filter_cons. destruct (decide (b <> [])) as [Hne|]; [|done].
  destruct Hb as [-> | ->]; [done|]. cbn [map]. by constructor.
Qed.

Lemma delivery_ok w bit secs bitsets di sch di' sch' g : Forall2 (fun s b => b = [] \/ b = data bit s) secs bitsets ->
  on_delivery w bit secs bitsets di sch = Some (di', sch', g) -> sched_ok sch -> sched_le sch sch' /\ sched_ok sch'.
Proof.
  intros HF H Hok. apply complete_right in HF. unfold on_delivery in H. destruct (length secs <? length bitsets)%nat; [done|].
  destruct (split_delivery secs bitsets) as [complete missing]. cbn [fst] in HF. destruct (sch !! bit) as [s|] eqn:Es; [|done]. cbn [mbind option_bind] in H.
  destruct (sched_deliver s _ _) as [s1|] eqn:E1; [|done]. cbn [mbind option_bind] in H. destruct (sched_deliver_spec bit _ _ _ _ E1 HF) as [H1 H2].
  assert (sch' = <[bit := s1]> sch) as ->.
  { destruct (0 <? length missing)%nat; [|by injection H]. destruct (_ =? _)%nat in H; [destruct (assign w bit _) in H|]; by injection H. }
  split; [by eapply sched_le_insert|]. intros b t i d. destruct (decide (b = bit)) as [->|].
  - rewrite lookup_insert_eq. intros [= <-]. apply H2. intros i' d'. by apply (Hok bit s).
  - rewrite lookup_insert_ne by done. apply Hok.
Qed.

(** ** The session *)

Fixpoint out_of (inp : chan partialMatches) (sts : list stage) : chan partialMatches :=
  match sts with [] => inp | st :: sts => out_of (s_results st) sts end.
Definition drained (c : chan partialMatches) : Prop := closed c = true /\ buf c = [].
Fixpoint links (inp : chan partialMatches) (sts : list stage) : Prop :=
  match sts with [] => True | st :: sts => (s_requester st = QDone -> drained inp) /\ links (s_results st) sts end.

Lemma out_of_app inp pre post : out_of inp (pre ++ post) = out_of (out_of inp pre) post.
Proof. revert inp. induction pre as [|st pre IH]; intros inp; [done|]. apply IH. Qed.
Lemma links_app inp pre post : links inp (pre ++ post) <-> links inp pre /\ links (out_of inp pre) post.
Proof. revert inp. induction pre as [|st pre IH]; intros inp; cbn; [tauto|]. rewrite IH. tauto. Qed.

Record inv (s : session) : Prop := {
  i_feed : feed_inv (ss_feeder s);
  i_src : Forall pm_ok (buf (ss_source s));
  i_open : closed (ss_source s) = true <-> ss_feeder s = FDone;
  i_stages : Forall (stage_inv (ss_schedulers s)) (ss_stages s);
  i_sched : sched_ok (ss_schedulers s);
  i_reader : reader_inv (ss_reader s);
  i_links : links (ss_source s) (ss_stages s);
  i_done : ss_reader s = VDone -> drained (out_of (ss_source s) (ss_stages s)) }.

Lemma multiplexer_done src st src' st' : multiplexer cap src st = Ok (src', st') ->
  (s_requester st' = QDone -> drained src') /\ s_requester st <> QDone /\ s_results st' = s_results st /\ closed src' = closed src.
Proof.
  unfold multiplexer, drained. intros H. destruct (s_requester st) as [|x k|].
  - destruct (buf src) eqn:Es; [destruct (closed src) eqn:Ec; [|done]|]; by injection H as <- <-.
  - destruct (s_lanes st !! k) as [l|]; [destruct (has_room cap (l_source l)); [|done]|destruct (has_room cap (s_process st)); [|done]]; by injection H as <- <-.
  - done.
Qed.

Lemma collector_moves sch st st' : stage_inv sch st -> collector' st = Ok st' -> closed (s_results st) = false /\ s_requester st' = s_requester st.
Proof.
  intros [_ _ _ _ _ _ _ _ _ He] H. assert (Hcl : s_collector st <> CDone -> closed (s_results st) = false).
  { intros Hn. destruct (closed (s_results st)) eqn:E; [|done]. destruct Hn. by apply He. }
  unfold collector in H. destruct (s_collector st) as [|x k o a|r|]; (split; [by apply Hcl|]).
  - destruct (buf (s_process st)); [destruct (closed (s_process st)); [|done]|]; by injection H as <-.
  - destruct (s_lanes st !! k) as [l|].
    + destruct (buf (l_sink l)); [destruct (closed (l_sink l)); [|done]|]; destruct (gather' _ _ _ _) as [[]|]; try done; by injection H as <-.
    + destruct (finish' _ _); [|done]. by injection H as <-.
  - destruct (has_room cap (s_results st)); [|done]. by injection H as <-.
  - done.
Qed.

Lemma with_lane_inv sch sch' st j l l' : stage_inv sch st -> s_lanes st !! j = Some l -> sched_le sch sch' ->
  (forall A, lane_inv sch l A -> lane_inv sch' l' A) -> l_bit l' = l_bit l -> closed (l_source l') = closed (l_source l) -> stage_inv sch' (with_lane j l' st).
Proof.
  intros [H1 H2 H3 H4 H5 H6 H7 H9 H10 H11] Hj Hle Hl Hb Hc. split; unfold with_lane; cbn [s_lanes s_requester s_process s_collector s_results]; try done.
  - intros k l0 Hk. destruct (decide (k = j)) as [->|].
    + rewrite list_lookup_insert_eq in Hk by (by eapply lookup_lt_Some). injection Hk as <-. by apply Hl, H5.
    + rewrite list_lookup_insert_ne in Hk by done. by eapply lane_inv_mono, H5.
  - intros Hq. apply Forall_insert; [by apply H7|]. rewrite Hc. by eapply (Forall_lookup_1 _ _ _ _ (H7 Hq) Hj).
  - intros Hq. apply Forall_insert; [by apply H9|]. rewrite Hc. by eapply (Forall_lookup_1 _ _ _ _ (H9 Hq) Hj).
Qed.

Lemma with_lane_future inflow st j l l' : s_lanes st !! j = Some l -> l_bit l' = l_bit l -> stage_future inflow (with_lane j l' st) = stage_future inflow st.
Proof. intros Hj Hb. unfold stage_future, co_future, bits_of_stage, rq_items, with_lane. cbn [s_lanes s_requester s_process s_collector s_results]. by rewrite (bits_push st j l). Qed.

Lemma with_results_inv sch st c : stage_inv sch st -> Forall pm_ok (buf c) -> closed c = closed (s_results st) -> stage_inv sch (with_results c st).
Proof. intros [H1 H2 H3 H4 H5 H6 H7 H9 H10 H11] Hc Hcl. split; unfold with_results; cbn [s_lanes s_requester s_process s_collector s_results]; try done. by rewrite Hcl. Qed.

(** What a stage adds behind the values in its result channel. *)
Definition behind (inflow : list partialMatches) (st : stage) : list partialMatches :=
  co_future st ++ omap (stage_out (bits_of_stage st)) (buf (s_process st) ++ rq_items st ++ inflow).
Lemma stage_future_behind inflow st c : stage_future inflow (with_results c st) = buf c ++ behind inflow st.
Proof. done. Qed.

Lemma total_stage f src pre st st' post sch sch' d d' di di' h h' t t' r o :
  (forall inflow, stage_future inflow st = stage_future inflow st') ->
  total (Session f src (pre ++ st :: post) sch d di h t r o) = total (Session f src (pre ++ st' :: post) sch' d' di' h' t' r o).
Proof. intros H. unfold total. cbn [ss_out ss_reader ss_feeder ss_source ss_stages]. rewrite !pipeline_app. cbn [foldl]. by rewrite H. Qed.

Lemma stages_mid sch pre st post : Forall (stage_inv sch) (pre ++ st :: post) <-> Forall (stage_inv sch) pre /\ stage_inv sch st /\ Forall (stage_inv sch) post.
Proof. by rewrite Forall_app, Forall_cons. Qed.

Lemma links_mid inp pre st st' post : links inp (pre ++ st :: post) -> s_requester st' = s_requester st -> s_results st' = s_results st ->
  links inp (pre ++ st' :: post) /\ out_of inp (pre ++ st' :: post) = out_of inp (pre ++ st :: post).
Proof. rewrite !links_app, !out_of_app. cbn. intros (H1 & H2 & H3) -> ->. done. Qed.

Ltac session_fields := cbn [ss_feeder ss_source ss_stages ss_schedulers ss_dist ss_distributor ss_held ss_tasks ss_reader ss_out] in *.

Lemma inv_lane f src pre st post sch sch' d d' di di' h h' t t' r o j l l' :
  inv (Session f src (pre ++ st :: post) sch d di h t r o) -> s_lanes st !! j = Some l -> sched_le sch sch' -> sched_ok sch' ->
  (forall A, lane_inv sch l A -> lane_inv sch' l' A) -> l_bit l' = l_bit l -> closed (l_source l') = closed (l_source l) ->
  inv (Session f src (pre ++ with_lane j l' st :: post) sch' d' di' h' t' r o) /\
  total (Session f src (pre ++ st :: post) sch d di h t r o) = total (Session f src (pre ++ with_lane j l' st :: post) sch' d' di' h' t' r o).
Proof.
  intros [H1 H2 H3 H4 H5 H6 H7 H9] Hj Hle Hok Hl Hb Hc. session_fields. split.
  - apply stages_mid in H4 as (Hpre & Hst & Hpost). destruct (links_mid src pre st (with_lane j l' st) post H7 eq_refl eq_refl) as [Hlk Ho].
    split; cbn; try done; [|by rewrite Ho]. apply stages_mid. split_and!.
    + eapply Forall_impl; [exact Hpre|]. intros s. by apply stage_inv_mono.
    + by eapply with_lane_inv.
    + eapply Forall_impl; [exact Hpost|]. intros s. by apply stage_inv_mono.
  - apply total_stage. intros inflow. symmetry. by eapply with_lane_future.
Qed.

Lemma inv_other f src sts sch sch' d d' di di' h h' t t' r o : inv (Session f src sts sch d di h t r o) -> sched_le sch sch' -> sched_ok sch' ->
  inv (Session f src sts sch' d' di' h' t' r o).
Proof.
  intros [H1 H2 H3 H4 H5 H6 H7 H9] Hle Hok. split; cbn in *; try done. eapply Forall_impl; [exact H4|]. intros s. by apply stage_inv_mono.
Qed.

Lemma sched_le_refl sch : sched_le sch sch.
Proof. intros b s Hs. by exists s. Qed.

(** Every move keeps the invariant and what the session will have reported. *)
Lemma step_inv s s' : step' s s' -> inv s -> inv s' /\ total s' = total s.
Proof.
  intros Hstep Hinv. destruct Hstep.
  - pose proof Hinv as [H1 H2 H3 H4 H5 H6 H7 H9]. session_fields. pose proof (feeder_step f src H1 H2 H3) as HF. rewrite H in HF. destruct HF as (F1 & F2 & F3 & F4 & F5).
    assert (Hnd : closed src <> true) by (intros Hc; by apply F5, H3).
    split; [split; cbn; try done|unfold total, pipeline; cbn; by rewrite F4].
    + destruct sts as [|st sts]; [done|]. cbn in *. destruct H7 as [H7 H10]. split; [|done]. intros Hq. by destruct (H7 Hq).
    + intros Hr. specialize (H9 Hr). destruct sts; [by destruct H9|done].
  - pose proof Hinv as [H1 H2 H3 H4 H5 H6 H7 H9]. session_fields. apply Forall_cons in H4 as [Hst Hsts]. destruct H7 as [H7 H10].
    destruct (multiplexer_inv sch src st src' st' H Hst H2) as (M1 & M2 & M3). destruct (multiplexer_done src st src' st' H) as (M4 & M5 & M6 & M7).
    split.
    + split; cbn; try done; [by rewrite M3|by constructor|by rewrite M6|by rewrite M6].
    + unfold total, pipeline. cbn. destruct (multiplexer_future src st src' st' (feed_future f) H) as [-> _]. done.
  - pose proof Hinv as [H1 H2 H3 H4 H5 H6 H7 H9]. session_fields. apply stages_mid in H4 as (Hpre & Hst1 & H4). apply Forall_cons in H4 as [Hst2 Hpost].
    rewrite links_app in H7. cbn in H7. destruct H7 as (L1 & L2 & L3 & L4). rewrite out_of_app in H9. cbn in H9.
    destruct (multiplexer_inv sch _ _ _ _ H Hst2 (si_results _ _ Hst1)) as (M1 & M2 & M3). destruct (multiplexer_done _ _ _ _ H) as (M4 & M5 & M6 & M7).
    split.
    + split; cbn; try done.
      * apply stages_mid. split_and!; [done|by apply with_results_inv|by constructor].
      * rewrite links_app. cbn. by rewrite M6.
      * rewrite out_of_app. cbn. by rewrite M6.
    + unfold total. cbn [ss_out ss_reader ss_feeder ss_source ss_stages]. rewrite !pipeline_app. cbn [foldl]. rewrite stage_future_behind.
      change (stage_future (pipeline f src pre) st1) with (buf (s_results st1) ++ behind (pipeline f src pre) st1).
      destruct (multiplexer_future _ _ _ _ (behind (pipeline f src pre) st1) H) as [-> _]. done.
  - pose proof Hinv as [H1 H2 H3 H4 H5 H6 H7 H9]. session_fields. apply stages_mid in H4 as (Hpre & Hst & Hpost). rewrite links_app in H7. cbn in H7. destruct H7 as (L1 & L2 & L3).
    rewrite out_of_app in H9. cbn in H9. pose proof (collector_inv sch st st' Hst H) as C1. destruct (collector_moves sch st st' Hst H) as [C2 C3].
    split; [|symmetry; apply total_stage; intros inflow; by eapply collector_future]. split; cbn; try done.
    + by apply stages_mid.
    + rewrite links_app. cbn. rewrite C3. split_and!; [done|done|]. destruct post as [|st2 post]; [done|]. cbn in *. destruct L3 as [L3 L4]. split; [|done].
      intros Hq. destruct (L3 Hq). congruence.
    + intros Hr. rewrite out_of_app. cbn. specialize (H9 Hr). destruct post as [|st2 post]; [|done]. cbn in *. destruct H9. congruence.
  - destruct (requests_dom _ _ _ _ _ _ H1) as (D1 & D2 & D3 & D4). destruct (inv_lane _ _ _ _ _ _ (<[l_bit l := s']> sch) _ d' _ di _ h _ t _ _ _ _ l' Hinv H) as [I1 I2]; try done.
    + by eapply sched_le_insert.
    + intros b s1 i c Hb. destruct (decide (b = l_bit l)) as [->|].
      * rewrite lookup_insert_eq in Hb. injection Hb as <-. intros Hi. by eapply (i_sched _ Hinv), D2.
      * rewrite lookup_insert_ne in Hb by done. by apply (i_sched _ Hinv).
    + intros A HA. by eapply requests_inv.
  - assert (D : forall A, lane_inv sch l A -> lane_inv sch l' A /\ l_bit l' = l_bit l /\ closed (l_source l') = closed (l_source l)).
    { intros A HA. eapply deliveries_inv; [done|done|apply (i_sched _ Hinv)|done]. }
    pose proof (i_stages _ Hinv) as Hsts. cbn in Hsts. apply stages_mid in Hsts as (_ & Hst & _).
    destruct (D _ (si_lanes _ _ Hst j l H)) as (_ & D2 & D3). destruct (inv_lane _ _ _ _ _ _ sch _ d _ di _ h _ t _ _ _ _ l' Hinv H) as [I1 I2]; try done.
    + apply sched_le_refl.
    + apply (i_sched _ Hinv).
    + intros A HA. by apply D.
  - pose proof Hinv as [H1 H2 H3 H4 H5 H6 H7 H9]. session_fields. pose proof (reader_step r src H6 H2) as R. rewrite H in R. destruct R as (R1 & R2 & R3 & R4).
    split.
    + split; cbn; try done; [by rewrite R3|]. unfold reader in H. destruct r as [|x i last|].
      * destruct (buf src) eqn:Es; [destruct (closed src) eqn:Ec; [|done]|]; by injection H as <- <- <-.
      * destruct (i <=? last); [|by injection H as <- <- <-]. destruct (bitset x !! _); [|done]. cbn in H. destruct (_ =? 0) in H; by injection H as <- <- <-.
      * done.
    + unfold total, pipeline. cbn. rewrite <- app_assoc. f_equal. symmetry. apply R4.
  - pose proof Hinv as [H1 H2 H3 H4 H5 H6 H7 H9]. session_fields. apply stages_mid in H4 as (Hpre & Hst & _). rewrite links_app in H7. cbn in H7. destruct H7 as (L1 & L2 & _).
    pose proof (reader_step r (s_results st) H6 (si_results _ _ Hst)) as R. rewrite H in R. destruct R as (R1 & R2 & R3 & R4). split.
    + split; cbn; try done.
      * apply stages_mid. split_and!; [done|by apply with_results_inv|done].
      * rewrite links_app. by cbn.
      * rewrite out_of_app. cbn. unfold reader in H. destruct r as [|x i last|].
        -- destruct (buf (s_results st)) eqn:Es; [destruct (closed (s_results st)) eqn:Ec; [|done]|]; by injection H as <- <- <-.
        -- destruct (i <=? last); [|by injection H as <- <- <-]. destruct (bitset x !! _); [|done]. cbn in H. destruct (_ =? 0) in H; by injection H as <- <- <-.
        -- done.
    + unfold total. cbn [ss_out ss_reader ss_feeder ss_source ss_stages]. rewrite !pipeline_app. cbn [foldl]. rewrite <- app_assoc. f_equal. symmetry.
      rewrite stage_future_behind. apply R4.
  - split; [|done]. eapply inv_other; [exact Hinv|apply sched_le_refl|apply (i_sched _ Hinv)].
  - split; [|done]. eapply inv_other; [exact Hinv|apply sched_le_refl|apply (i_sched _ Hinv)].
  - split; [|done]. eapply inv_other; [exact Hinv|apply sched_le_refl|apply (i_sched _ Hinv)].
  - destruct (delivery_ok _ _ _ _ _ _ _ _ _ H H0 (i_sched _ Hinv)) as [E1 E2]. split; [|done]. by eapply inv_other.
Qed.

(** ** The start and the end of a session *)

Record matcher_ok (m : Matcher) : Prop := {
  m_size : Matcher.sectionSize m = sectionSize;
  m_bits : Forall (fun b => is_Some (schedulers m !! b)) (concat (concat (filters m)));
  m_cached : sched_ok (schedulers m) }.

Lemma run_inv sch bit : is_Some (sch !! bit) -> lane_inv sch (sched_run bit) [].
Proof.
  intros [s Hs]. split; cbn; try done.
  - by exists [], [].
  - exists s. split; [done|]. intros i [Hi|[Hi|Hi]]; [done|by apply elem_of_nil in Hi|by apply elem_of_nil in Hi].
Qed.

Lemma bit_in (fs : list (list (list Z))) bloom (b : Z) : bloom ∈ fs -> b ∈ concat bloom -> b ∈ concat (concat fs).
Proof.
  rewrite !list_elem_of_In, !in_concat. intros Hf (c & Hc & Hb). exists c. split; [|done]. apply in_concat. by exists bloom.
Qed.

Lemma start_inv m : matcher_ok m -> inv (Start m begin).
Proof.
  intros [Hsz Hb Hc]. split; unfold Start; session_fields.
  - cbn. rewrite Hsz. pose proof (Z.div_pos begin sectionSize). lia.
  - constructor.
  - done.
  - apply Forall_map. rewrite Forall_forall. intros bloom Hbl. unfold subMatch. split; cbn; try done.
    + intros j l Hj. rewrite lookup_map in Hj. apply fmap_Some in Hj as (b & Hj & ->). apply run_inv. rewrite lookup_fmap. apply fmap_is_Some.
      rewrite Forall_forall in Hb. apply Hb. apply list_elem_of_lookup_2 in Hj. by eapply bit_in.
    + intros _. apply Forall_map. by apply Forall_true.
  - intros b s i d Hs Hi. rewrite lookup_fmap in Hs. apply fmap_Some in Hs as (s0 & Hs0 & ->). cbn in Hi. apply map_lookup_filter_Some in Hi as [Hi _]. by eapply Hc.
  - done.
  - assert (G : forall sts : list (list (list Z)), forall inp, links inp (map subMatch sts)) by (intros sts; induction sts as [|b sts IH]; cbn; [done|]; intros inp; split; [done|apply IH]).
    apply G.
  - done.
Qed.

Lemma drained_nothing f src sts sch : Forall (stage_inv sch) sts -> links src sts -> drained (out_of src sts) -> (closed src = true <-> f = FDone) ->
  pipeline f src sts = [].
Proof.
  intros Hst Hl Hd Hs. induction sts as [|st pre IH] using rev_ind.
  - destruct Hd as [Hc Hb]. cbn in *. unfold pipeline. cbn. rewrite Hb. apply Hs in Hc as ->. done.
  - rewrite pipeline_app. cbn [foldl]. apply Forall_app in Hst as [Hpre Hst]. apply Forall_cons in Hst as [Hst _]. apply links_app in Hl as [Hl1 Hl2]. cbn in Hl2. destruct Hl2 as [Hl2 _].
    rewrite out_of_app in Hd. cbn in Hd. destruct Hd as [Hc Hb]. destruct Hst as [_ _ _ _ _ Hcl _ _ Hdn He]. apply He in Hc. destruct (Hdn Hc) as [Hpc Hpb]. apply Hcl in Hpc.
    unfold stage_future, co_future, rq_items. rewrite Hb, Hc, Hpb, Hpc, IH; [done|done|done|by apply Hl2].
Qed.

Lemma finished_total s : inv s -> ss_reader s = VDone -> total s = ss_out s.
Proof.
  intros Hinv Hr. destruct Hinv as [H1 H2 H3 H4 H5 H6 H7 H9]. unfold total. rewrite Hr. cbn. rewrite (drained_nothing _ _ _ (ss_schedulers s)); [|done|done|by apply H9|done].
  apply app_nil_r.
Qed.

(** ** The blocks that match *)

Definition bit_at (v : list Z) (k : nat) : bool := default false (bits_of v !! k).
Definition clause_match (c : list Z) (n : Z) : bool := forallb (fun b => bit_at (data b (n / sectionSize)) (Z.to_nat (n mod sectionSize))) c.
(** One rule: some clause has its three bits set. *)
Definition rule_match (rule : list (list Z)) (n : Z) : bool := existsb (fun c => clause_match c n) rule.

Lemma bits_zip (f : Z -> Z -> Z) (g : bool -> bool -> bool) v w k :
  (forall a b i, 0 <= i -> Z.testbit (f a b) i = g (Z.testbit a i) (Z.testbit b i)) -> vec_ok v -> vec_ok w -> (k < 8 * Z.to_nat (sectionSize / 8))%nat ->
  bit_at (zip_with f v w) k = g (bit_at v k) (bit_at w k).
Proof.
  intros Hf [_ Lv] [_ Lw] Hk. unfold bit_at. rewrite !bits_of_lookup, lookup_zip_with.
  assert (Hq : (k / 8 < Z.to_nat (sectionSize / 8))%nat) by (apply Nat.Div0.div_lt_upper_bound; lia).
  destruct (lookup_lt_is_Some_2 v (k / 8)) as [x ->]; [lia|]. destruct (lookup_lt_is_Some_2 w (k / 8)) as [y ->]; [lia|]. cbn. apply Hf.
  pose proof (Nat.mod_upper_bound k 8). lia.
Qed.

Lemma bits_land v w k : vec_ok v -> vec_ok w -> (k < 8 * Z.to_nat (sectionSize / 8))%nat -> bit_at (zip_with Z.land v w) k = bit_at v k && bit_at w k.
Proof. apply bits_zip. intros. apply Z.land_spec. Qed.
Lemma bits_lor v w k : vec_ok v -> vec_ok w -> (k < 8 * Z.to_nat (sectionSize / 8))%nat -> bit_at (zip_with Z.lor v w) k = bit_at v k || bit_at w k.
Proof. apply bits_zip. intros. apply Z.lor_spec. Qed.

Lemma bits_zeros k : bit_at (zeros (sectionSize / 8)) k = false.
Proof.
  unfold bit_at. rewrite bits_of_lookup. unfold zeros. destruct (replicate (Z.to_nat (sectionSize / 8)) 0 !! (k / 8)%nat) as [x|] eqn:E; [|done].
  apply lookup_replicate in E as [-> _]. cbn. apply Z.testbit_0_l.
Qed.

Definition clause_vec (c : list Z) (sec : Z) : list Z :=
  match c with b1 :: b2 :: b3 :: _ => zip_with Z.land (zip_with Z.land (data b1 sec) (data b2 sec)) (data b3 sec) | _ => [] end.
Definition or_clauses (o : option (list Z)) (rule : list (list Z)) (sec : Z) : option (list Z) :=
  foldl (fun o c => Some (or_vec o (clause_vec c sec))) o rule.

Lemma clause_vec_ok c sec : length c = 3%nat -> vec_ok (clause_vec c sec).
Proof.
  intros H. destruct c as [|b1 [|b2 [|b3 [|]]]]; try done. cbn. repeat apply vec_ok_zip; try apply _; apply Hdata.
Qed.

Lemma or_clauses_ok rule sec : Forall (fun c => length c = 3%nat) rule -> forall o, opt_ok o -> opt_ok (or_clauses o rule sec).
Proof.
  induction 1 as [|c rule Hc _ IH]; intros o Ho; [done|]. cbn. apply IH. intros v [= <-]. apply or_vector_spec; [done|]. by apply clause_vec_ok.
Qed.

Lemma mod3 q r : (r < 3)%nat -> ((3 * q + r) mod 3 = r)%nat.
Proof. intros H. rewrite Nat.add_comm, Nat.mul_comm, Nat.Div0.mod_add. by apply Nat.mod_small. Qed.

Lemma gather_and k o a d r : (k mod 3 = r)%nat -> (r < 2)%nat -> opt_ok a -> vec_ok d -> gather' k o a d = Some (o, Some (and_vec a d)).
Proof.
  intros Hk Hr Ha Hd. unfold gather_vector. destruct (and_vector_spec a d Ha Hd) as [-> _]. cbn [mbind option_bind]. rewrite Hk. by destruct r as [|[|]]; [..|lia].
Qed.
Lemma gather_or k o a d : (k mod 3 = 2)%nat -> opt_ok o -> opt_ok a -> vec_ok d -> gather' k o a d = Some (Some (or_vec o (and_vec a d)), None).
Proof.
  intros Hk Ho Ha Hd. unfold gather_vector. destruct (and_vector_spec a d Ha Hd) as [-> Hv]. cbn [mbind option_bind]. rewrite Hk. cbn [Nat.eqb].
  by destruct (or_vector_spec o _ Ho Hv) as [-> _].
Qed.

Lemma gather_rule rule sec : Forall (fun c => length c = 3%nat) rule -> forall q o, opt_ok o ->
  gather_from (3 * q) o None (map (fun b => data b sec) (concat rule)) = Some (or_clauses o rule sec, None).
Proof.
  induction 1 as [|c rule Hc _ IH]; intros q o Ho; [done|]. pose proof (clause_vec_ok c sec Hc) as Hv. destruct c as [|b1 [|b2 [|b3 [|]]]]; try done.
  pose proof (Hdata b1 sec) as D1. pose proof (Hdata b2 sec) as D2. pose proof (Hdata b3 sec) as D3.
  pose proof (mod3 q 0 ltac:(lia)) as K0. pose proof (mod3 q 1 ltac:(lia)) as K1. pose proof (mod3 q 2 ltac:(lia)) as K2.
  replace (3 * q + 0)%nat with (3 * q)%nat in K0 by lia. replace (3 * q + 1)%nat with (S (3 * q)) in K1 by lia. replace (3 * q + 2)%nat with (S (S (3 * q))) in K2 by lia.
  specialize (IH (S q) (Some (or_vec o (clause_vec [b1; b2; b3] sec)))). replace (3 * S q)%nat with (S (S (S (3 * q)))) in IH by lia.
  revert IH K0 K1 K2. generalize (3 * q)%nat as k. intros k IH K0 K1 K2. cbn [concat app map gather_from].
  assert (Hs : forall v, vec_ok v -> opt_ok (Some v)) by (intros v Hv' ? [= <-]; done). destruct D1 as [D1 L1], D2 as [D2 L2], D3 as [D3 L3].
  rewrite (gather_and k o None (data b1 sec) 0) by (done || lia). cbn [mbind option_bind and_vec].
  rewrite (gather_and (S k) o (Some (data b1 sec)) (data b2 sec) 1) by (done || lia || by apply Hs). cbn [mbind option_bind and_vec].
  rewrite gather_or by (done || apply Hs, vec_ok_zip; try apply _; done). cbn [mbind option_bind and_vec].
  apply IH. apply Hs. by apply or_vector_spec.
Qed.

Lemma or_clauses_bits rule sec k : Forall (fun c => length c = 3%nat) rule -> (k < 8 * Z.to_nat (sectionSize / 8))%nat -> forall o, opt_ok o ->
  bit_at (default (zeros (sectionSize / 8)) (or_clauses o rule sec)) k =
  bit_at (default (zeros (sectionSize / 8)) o) k || existsb (fun c => forallb (fun b => bit_at (data b sec) k) c) rule.
Proof.
  intros Hr Hk. induction Hr as [|c rule Hc _ IH]; intros o Ho; [cbn; by rewrite orb_false_r|]. cbn [or_clauses foldl existsb]. fold (or_clauses (Some (or_vec o (clause_vec c sec))) rule sec).
  pose proof (clause_vec_ok c sec Hc) as Hv. destruct (or_vector_spec o _ Ho Hv) as [_ Hv']. rewrite IH by (by intros ? [= <-]). rewrite orb_assoc. f_equal.
  assert (Hc' : bit_at (clause_vec c sec) k = forallb (fun b => bit_at (data b sec) k) c).
  { destruct c as [|b1 [|b2 [|b3 [|]]]]; try done. cbn [clause_vec forallb]. rewrite !bits_land by (done || apply Hdata || (apply vec_ok_zip; [apply _|apply Hdata..])).
    by rewrite andb_true_r, andb_assoc. }
  destruct o as [w|]; cbn [default from_option id or_vec].
  - rewrite bits_lor by (done || by apply Ho). by rewrite Hc'.
  - by rewrite bits_zeros.
Qed.

Lemma filter_local (f g : Z -> bool) l : Forall (fun n => f n = g n) l -> filter (fun n => f n = true) l = filter (fun n => g n = true) l.
Proof. induction 1 as [|n l H _ IH]; [done|]. rewrite !filter_cons, IH. rewrite H. done. Qed.

Definition flat (xs : list partialMatches) : list Z := concat (map blocks xs).

Lemma flat_omap (f : partialMatches -> option partialMatches) xs : flat (omap f xs) = concat (map (fun x => flat (option_list (f x))) xs).
Proof. induction xs as [|x xs IH]; [done|]. cbn. destruct (f x) as [y|]; cbn; [unfold flat at 1; cbn; by rewrite app_nil_r; f_equal|done]. Qed.

Lemma size_div : sectionSize = 8 * (sectionSize / 8).
Proof. pose proof (Z.div_mod sectionSize 8). lia. Qed.

Lemma in_section x n : section x * sectionSize <= n <= section x * sectionSize + sectionSize - 1 ->
  n / sectionSize = section x /\ Z.to_nat (n - section x * sectionSize) = Z.to_nat (n mod sectionSize) /\ (Z.to_nat (n - section x * sectionSize) < 8 * Z.to_nat (sectionSize / 8))%nat.
Proof.
  intros H. assert (E : n / sectionSize = section x) by (symmetry; apply (Z.div_unique n sectionSize (section x) (n - section x * sectionSize)); lia).
  pose proof (Z.div_mod n sectionSize). pose proof size_div. split_and!; [done|f_equal; nia|lia].
Qed.

Lemma blocks_filter sec v w (f : Z -> bool) : pm_ok (PM sec v) ->
  (forall n, sec * sectionSize <= n <= sec * sectionSize + sectionSize - 1 -> block_set (PM sec w) n = f n && block_set (PM sec v) n) ->
  blocks (PM sec w) = filter (fun n => f n = true) (blocks (PM sec v)).
Proof.
  intros Hx H. unfold blocks, blocks_in. cbn [section]. rewrite list_filter_filter. set (l := seqZ _ _). assert (Hl : Forall (fun n => block_set (PM sec w) n = f n && block_set (PM sec v) n) l).
  { apply Forall_forall. intros n Hn. apply elem_of_seqZ in Hn. apply H. lia. }
  rewrite (filter_local _ (fun n => f n && block_set (PM sec v) n) l Hl). apply list_filter_iff. intros n. by rewrite andb_true_iff.
Qed.

Lemma zero_blocks sec v : Forall (fun b => b = 0) v -> blocks (PM sec v) = [].
Proof.
  intros Hz. unfold blocks, blocks_in. induction (seqZ _ _) as [|n l IH]; [done|]. rewrite filter_cons, IH. destruct (decide _) as [H|]; [|done].
  exfalso. unfold block_set in H. cbn [bitset] in H. rewrite bits_of_lookup in H. destruct (v !! _) as [b|] eqn:E; [|done].
  rewrite (Forall_lookup_1 _ _ _ _ Hz E) in H. cbn in H. by rewrite Z.testbit_0_l in H.
Qed.

Lemma stage_blocks rule x : pm_ok x -> Forall (fun c => length c = 3%nat) rule ->
  flat (option_list (stage_out (concat rule) x)) = filter (fun n => rule_match rule n = true) (blocks x) /\ Forall pm_ok (option_list (stage_out (concat rule) x)).
Proof.
  intros Hx Hr. assert (N : opt_ok None) by done. unfold stage_out, outcome_from. pose proof (gather_rule rule (section x) Hr 0 None N) as G. change (3 * 0)%nat with 0%nat in G. rewrite G. cbn [mbind option_bind].
  pose proof (or_clauses_ok rule (section x) Hr None N) as Ho. destruct (finish_ok _ x Ho Hx) as [-> Hv]. cbn [mbind option_bind bitset].
  set (v := zip_with Z.land _ _) in *. assert (Hb : blocks (PM (section x) v) = filter (fun n => rule_match rule n = true) (blocks x)).
  { destruct x as [sec w]. cbn [section bitset] in *. apply blocks_filter; [done|]. intros n Hn. destruct (in_section (PM sec w) n Hn) as (E1 & E2 & E3). cbn [section] in *.
    unfold block_set, rule_match, clause_match. cbn [section bitset]. rewrite E1, <- E2. fold (bit_at v (Z.to_nat (n - sec * sectionSize))). fold (bit_at w (Z.to_nat (n - sec * sectionSize))).
    assert (Hd : vec_ok (default (zeros (sectionSize / 8)) (or_clauses None rule sec))) by (destruct (or_clauses None rule sec); [by apply Ho|apply vec_ok_zeros]).
    unfold v. rewrite bits_land by (done || apply Hx). f_equal. rewrite or_clauses_bits by done. cbn [default from_option id]. by rewrite bits_zeros. }
  destruct (TestBytes supportsUnaligned ws v) eqn:Et; cbn [option_list].
  - split; [unfold flat; cbn; by rewrite app_nil_r|]. constructor; [|done]. split; [by destruct Hx|done].
  - split; [|done]. rewrite <- Hb. symmetry. apply zero_blocks. rewrite TestBytes_spec in Et by (done || apply Hv). apply negb_false_iff in Et. by apply bool_decide_eq_true in Et.
Qed.

Lemma start_future xs rule : stage_future xs (subMatch rule) = omap (stage_out (concat rule)) xs.
Proof. unfold stage_future, bits_of_stage, subMatch. cbn. by rewrite map_map, map_id. Qed.

Lemma rules_blocks rules : Forall (Forall (fun c => length c = 3%nat)) rules -> forall xs, Forall pm_ok xs ->
  flat (foldl stage_future xs (map subMatch rules)) = filter (fun n => forallb (fun r => rule_match r n) rules = true) (flat xs).
Proof.
  induction 1 as [|rule rules Hr _ IH]; intros xs Hxs.
  - cbn [map foldl forallb]. generalize (flat xs) as l. clear. induction l as [|n l IHl]; [done|]. rewrite filter_cons. destruct (decide _) as [|Hn]; [by rewrite <- IHl|by destruct Hn].
  - cbn [map foldl]. rewrite start_future, IH.
    + assert (E : flat (omap (stage_out (concat rule)) xs) = filter (fun n => rule_match rule n = true) (flat xs)).
      { rewrite flat_omap. unfold flat at 2. clear IH. induction Hxs as [|x xs Hx _ IHx]; [done|]. cbn [map concat]. rewrite filter_app, IHx. f_equal. by apply stage_blocks. }
      rewrite E, list_filter_filter. apply list_filter_iff. intros n. cbn [forallb]. rewrite andb_true_iff. tauto.
    + clear IH. induction Hxs as [|x xs Hx _ IHx]; [constructor|]. destruct (stage_blocks rule x Hx Hr) as [_ Hf]. cbn. destruct (stage_out (concat rule) x); [|done].
      apply Forall_cons in Hf as [Hf _]. by constructor.
Qed.

Lemma full_blocks i : 0 <= i <= end_ / sectionSize ->
  blocks (PM i full) = seqZ (Z.max begin (i * sectionSize)) (Z.min end_ (i * sectionSize + sectionSize - 1) - Z.max begin (i * sectionSize) + 1).
Proof.
  intros Hi. unfold blocks, blocks_in. cbn [section]. set (l := seqZ _ _). assert (Hl : Forall (fun n => block_set (PM i full) n = true) l).
  { apply Forall_forall. intros n Hn. apply elem_of_seqZ in Hn. destruct (in_section (PM i full) n) as (_ & _ & E3); [cbn [section]; lia|]. cbn [section] in E3.
    unfold block_set. cbn [section bitset]. rewrite bits_of_lookup. unfold full. rewrite lookup_replicate_2 by (apply Nat.Div0.div_lt_upper_bound; lia). cbn [fmap option_fmap option_map default from_option id].
    pose proof (Nat.mod_upper_bound (Z.to_nat (n - i * sectionSize)) 8 ltac:(lia)) as Hm. revert Hm. generalize (Z.to_nat (n - i * sectionSize) mod 8)%nat as k.
    intros k Hk. do 8 (destruct k as [|k]; [reflexivity|]). lia. }
  clearbody l. induction Hl as [|n l Hn _ IH]; [done|]. rewrite filter_cons, IH. by destruct (decide _).
Qed.

Lemma range_split i : 0 <= i -> begin < (i + 1) * sectionSize -> i <= end_ / sectionSize + 1 ->
  flat (sections_from i) = seqZ (Z.max begin (i * sectionSize)) (end_ - Z.max begin (i * sectionSize) + 1).
Proof.
  intros Hi Hb He. remember (Z.to_nat (end_ / sectionSize + 1 - i)) as k eqn:Ek. revert i Hi Hb He Ek. induction k as [|k IH]; intros i Hi Hb He Ek.
  - unfold sections_from. rewrite seqZ_nil by lia. cbn. rewrite seqZ_nil; [done|]. pose proof (Z.mul_succ_div_gt end_ sectionSize Hpos). nia.
  - rewrite sections_from_cons by lia. unfold flat. cbn [map concat]. fold (flat (sections_from (i + 1))). rewrite full_blocks by lia.
    pose proof (Z.mul_div_le end_ sectionSize Hpos). destruct (Z.leb_spec (i + 1) (end_ / sectionSize)).
    + assert (Hle : (i + 1) * sectionSize <= end_) by nia. rewrite IH by lia. rewrite (Z.min_r end_) by lia. rewrite (Z.max_r begin ((i + 1) * sectionSize)) by lia.
      set (a := Z.max begin (i * sectionSize)). assert (Ha : a <= (i + 1) * sectionSize) by lia.
      replace (end_ - a + 1) with ((i * sectionSize + sectionSize - 1 - a + 1) + (end_ - (i + 1) * sectionSize + 1)) by lia.
      rewrite (seqZ_app a (i * sectionSize + sectionSize - 1 - a + 1) (end_ - (i + 1) * sectionSize + 1)) by lia.
      replace (a + (i * sectionSize + sectionSize - 1 - a + 1)) with ((i + 1) * sectionSize) by lia. done.
    + unfold sections_from at 1. rewrite (seqZ_nil (i + 1)) by lia. cbn. rewrite app_nil_r. rewrite Z.min_l; [done|].
      pose proof (Z.mul_succ_div_gt end_ sectionSize Hpos). nia.
Qed.

Lemma all_blocks : flat (sections_from (begin / sectionSize)) = seqZ begin (end_ - begin + 1).
Proof.
  pose proof (Z.div_pos begin sectionSize Hbegin Hpos). pose proof (Z.mul_div_le begin sectionSize Hpos). pose proof (Z.mul_succ_div_gt begin sectionSize Hpos).
  destruct (Z.leb_spec (begin / sectionSize) (end_ / sectionSize + 1)).
  - rewrite range_split by lia. rewrite Z.max_l by lia. done.
  - unfold sections_from. rewrite seqZ_nil by lia. cbn. rewrite seqZ_nil; [done|]. destruct (Z.leb_spec begin end_); [|lia].
    pose proof (Z.div_le_mono begin end_ sectionSize Hpos). lia.
Qed.

(** The blocks of the range that every rule matches. *)
Definition matching (m : Matcher) : list Z := filter (fun n => forallb (fun r => rule_match r n) (filters m) = true) (seqZ begin (end_ - begin + 1)).

Lemma start_total m : matcher_ok m -> Forall (Forall (fun c => length c = 3%nat)) (filters m) -> total (Start m begin) = matching m.
Proof.
  intros Hm H3. unfold total, matching, Start, pipeline. session_fields. cbn [reader_future app buf make_chan feed_future]. rewrite (m_size m Hm).
  fold (flat (foldl stage_future (sections_from (begin / sectionSize)) (map subMatch (filters m)))). rewrite rules_blocks; [by rewrite all_blocks|done|].
  unfold sections_from. apply Forall_map, Forall_forall. intros i Hi. apply elem_of_seqZ in Hi. pose proof (Z.div_pos begin sectionSize Hbegin Hpos). split; [cbn; lia|apply full_ok].
Qed.

Lemma reachable_inv m s : matcher_ok m -> rtc step' (Start m begin) s -> inv s /\ total s = total (Start m begin).
Proof.
  intros Hm Hr. remember (Start m begin) as s0 eqn:E0. assert (H0 : inv s0) by (subst; by apply start_inv). clear E0.
  induction Hr as [s|s s1 s2 Hs _ IH]; [done|]. destruct (step_inv _ _ Hs H0) as [H1 E1]. destruct (IH H1) as [H2 E2]. split; [done|congruence].
Qed.

(** The goroutines of the pipeline and the reader do not panic. *)
Definition pipeline_safe (s : session) : Prop :=
  Forall (fun st => collector' st <> Panic /\ forall j l sch, s_lanes st !! j = Some l -> ss_schedulers s !! l_bit l = Some sch -> scheduleDeliveries cap sch l <> Panic) (ss_stages s) /\
  reader sectionSize begin end_ (ss_reader s) (out_of (ss_source s) (ss_stages s)) <> Panic.

Lemma out_of_ok sch inp sts : Forall pm_ok (buf inp) -> Forall (stage_inv sch) sts -> Forall pm_ok (buf (out_of inp sts)).
Proof. intros Hi Hs. revert inp Hi. induction Hs as [|st sts Hst _ IH]; intros inp Hi; [done|]. apply IH. apply Hst. Qed.

Lemma inv_safe s : inv s -> pipeline_safe s.
Proof.
  intros [H1 H2 H3 H4 H5 H6 H7 H9]. split.
  - eapply Forall_impl; [exact H4|]. intros st Hst. split; [by eapply collector_no_panic|]. intros j l sch Hj Hsch.
    eapply deliveries_no_panic; [exact Hsch|]. by apply (si_lanes _ _ Hst).
  - pose proof (reader_step (ss_reader s) _ H6 (out_of_ok _ _ _ H2 H4)) as R. by destruct (reader _ _ _ _ _) as [[[]]| | |].
Qed.
End session.

Lemma session_correct supportsUnaligned ws sectionSize cap begin end_ data m s :
  (0 < ws)%nat -> 0 < sectionSize -> sectionSize mod 8 = 0 -> 0 <= begin -> 0 <= end_ -> end_ + sectionSize + 8 < 2 ^ 64 ->
  (forall bit sec, bytes_ok (data bit sec) /\ length (data bit sec) = Z.to_nat (sectionSize / 8)) ->
  matcher_ok sectionSize data m -> Forall (Forall (fun c => length c = 3%nat)) (filters m) ->
  reachable supportsUnaligned ws sectionSize cap begin end_ data m s ->
  let blocks := matching sectionSize begin end_ data m in
  ss_out s `prefix_of` blocks /\ (ss_reader s = VDone -> ss_out s = blocks) /\ pipeline_safe supportsUnaligned ws sectionSize cap begin end_ s.
Proof.
  intros Hws Hpos H8 Hb He Hmax Hd Hm H3 Hr blocks. unfold blocks.
  destruct (reachable_inv supportsUnaligned ws sectionSize cap begin end_ data Hws Hpos H8 Hb He Hmax Hd m s Hm Hr) as [Hinv Ht].
  rewrite <- (start_total supportsUnaligned ws sectionSize begin end_ data) by done. split_and!.
  - rewrite <- Ht. unfold total. by eexists.
  - intros Hv. rewrite <- Ht. symmetry. by eapply finished_total.
  - by eapply inv_safe.
Qed.

(** A session without rules over eight blocks, one move after the other. *)
Definition sample_matcher : Matcher := {| sectionSize := 8; filters := []; schedulers := ∅ |}.
Definition sample_end : session :=
  Session FDone (Chan [] true) [] (sched_reset <$> ∅) make_chan newDistributor [] [] VDone [0; 1; 2; 3; 4; 5; 6; 7].

Lemma sample_run data : reachable true 8 8 1 0 7 data sample_matcher sample_end.
Proof.
  unfold reachable, Start, sample_end. cbn [sample_matcher filters schedulers sectionSize map]. change (0 / 8) with 0.
  do 2 (eapply rtc_l; [eapply step_feeder; reflexivity|]). do 11 (eapply rtc_l; [eapply step_reader_source; reflexivity|]). apply rtc_refl.
Qed.
