(* ===== verification/LogSearch.v ===== *)
(** * Searching logs: blooms, generator and matcher together

    The bit vectors that the generator of core/bloombits makes of the filters of
    the blocks, looked up by the retrievers of a matching session over the rules
    of NewMatcher. *)

From stdpp Require Import gmap list_numbers.
From S2P Require Import Prelude Bitutil Compress Bloom Matcher MatcherProof.

Section search.
  Context (Keccak256 : list Z -> list Z) (Keccak256_ok : forall b, bytes_ok (Keccak256 b) /\ length (Keccak256 b) = 32%nat).
  (** The filter of every block. *)
  Context (bloom : Z -> list Z) (bloom_ok : forall n, bytes_ok (bloom n) /\ length (bloom n) = 256%nat).
  Context (sectionSize : Z) (Hpos : 0 < sectionSize) (H8 : sectionSize mod 8 = 0).

(** The vector of a bit and a section, as the generator makes it. *)
Definition section_blooms (sec : Z) : list (list Z) := map (fun k => bloom (sec * sectionSize + Z.of_nat k)) (seq 0 (Z.to_nat sectionSize)).
Definition vectors (bit sec : Z) : list Z :=
  match NewGenerator (Z.to_nat sectionSize) with
  | inr g =>
      match add_blooms g (section_blooms sec) with
      | inr g => match Bitset g (Z.to_nat bit) with inr row => row | inl _ => zeros (sectionSize / 8) end
      | inl _ => zeros (sectionSize / 8)
      end
  | inl _ => zeros (sectionSize / 8)
  end.

Lemma section_size8 : (Z.to_nat sectionSize mod 8 = 0)%nat.
Proof. change 8%nat with (Z.to_nat 8). rewrite <- Z2Nat.inj_mod by lia. by rewrite H8. Qed.

Lemma vectors_rows sec : exists g, forall bit, 0 <= bit -> vectors bit sec = match Bitset g (Z.to_nat bit) with inr row => row | inl _ => zeros (sectionSize / 8) end /\
  (bit < 2048 -> exists row, Bitset g (Z.to_nat bit) = inr row /\ bytes_ok row /\
     bits_of row = map (fun b => Z.testbit (Bloom_Big b) bit) (section_blooms sec)) /\ (2048 <= bit -> exists e, Bitset g (Z.to_nat bit) = inl e).
Proof.
  assert (Hl : length (section_blooms sec) = Z.to_nat sectionSize) by (unfold section_blooms; by rewrite length_map, length_seq).
  destruct (generator_rows (section_blooms sec)) as (g0 & g & E0 & E & Hn & Hs & _ & Hr).
  - rewrite Hl. apply section_size8.
  - apply Forall_map, Forall_forall. intros k _. apply bloom_ok.
  - exists g. intros bit Hb. rewrite Hl in E0. unfold vectors. rewrite E0, E. split_and!; [done| |].
    + intros H. destruct (Hr (Z.to_nat bit) ltac:(lia)) as (row & H1 & H2 & H3). exists row. rewrite Z2Nat.id in H3 by done. done.
    + intros H. unfold Bitset. rewrite Hn, Nat.eqb_refl. cbn [negb]. rewrite Z2Nat.id by done.
      destruct (Z.leb_spec BloomBitLength bit) as [|C]; [by eexists|]. change BloomBitLength with 2048 in C. lia.
Qed.

Lemma vectors_bit bit sec k : 0 <= bit < 2048 -> (k < Z.to_nat sectionSize)%nat ->
  bit_at (vectors bit sec) k = Z.testbit (Bloom_Big (bloom (sec * sectionSize + Z.of_nat k))) bit.
Proof.
  intros Hb Hk. destruct (vectors_rows sec) as (g & Hg). destruct (Hg bit) as (E & H1 & _); [lia|]. destruct (H1 ltac:(lia)) as (row & Er & _ & Hr). unfold bit_at.
  rewrite E, Er, Hr. unfold section_blooms. rewrite map_map, lookup_map, lookup_seq_lt by done. done.
Qed.

Lemma vectors_ok bit sec : bytes_ok (vectors bit sec) /\ length (vectors bit sec) = Z.to_nat (sectionSize / 8).
Proof.
  assert (Hb : 0 <= Z.max 0 bit) by lia. replace (vectors bit sec) with (vectors (Z.max 0 bit) sec) by (unfold vectors; by replace (Z.to_nat (Z.max 0 bit)) with (Z.to_nat bit) by lia).
  revert Hb. generalize (Z.max 0 bit) as bit'. clear bit. intros bit Hb. destruct (vectors_rows sec) as (g & Hg). destruct (Hg bit Hb) as (E & H1 & H2). rewrite E.
  assert (Hz : bytes_ok (zeros (sectionSize / 8)) /\ length (zeros (sectionSize / 8)) = Z.to_nat (sectionSize / 8)).
  { unfold zeros. split; [by apply Forall_replicate|apply length_replicate]. }
  destruct (Z.ltb_spec bit 2048) as [Hlt|Hge].
  - destruct (H1 Hlt) as (row & -> & Ho & Hr). split; [done|]. apply (f_equal length) in Hr. rewrite bits_of_length, length_map in Hr. unfold section_blooms in Hr.
    rewrite length_map, length_seq in Hr. pose proof (Z.div_mod sectionSize 8). lia.
  - destruct (H2 Hge) as [e ->]. done.
Qed.

(** ** The indexes of a key *)

Lemma index_eq hi lo : byte_ok hi -> byte_ok lo -> Z.land (Z.shiftl hi 8) 2047 + lo = Z.land (lo + Z.shiftl hi 8) 2047 /\ 0 <= Z.land (Z.shiftl hi 8) 2047 + lo < 2048.
Proof.
  unfold byte_ok. intros Hh Hl. rewrite Z.shiftl_mul_pow2 by lia. change (2 ^ 8) with 256. change 2047 with (Z.ones 11). rewrite !Z.land_ones by lia. change (2 ^ 11) with 2048.
  pose proof (Z.div_mod hi 8 ltac:(lia)). pose proof (Z.mod_pos_bound hi 8 ltac:(lia)).
  assert (E : (hi * 256) mod 2048 = 256 * (hi mod 8)) by (symmetry; apply (Z.mod_unique _ _ (hi / 8)); lia). rewrite E. split; [|lia].
  apply (Z.mod_unique _ _ (hi / 8)); lia.
Qed.

Lemma covers_one v i : 0 <= i -> covers v (Z.shiftl 1 i) <-> Z.testbit v i = true.
Proof.
  intros Hi. rewrite covers_bits, Z.shiftl_1_l. split.
  - intros H. apply H; [done|]. by apply Z.pow2_bits_true.
  - intros H n Hn Ht. rewrite Z.pow2_bits_eqb in Ht by lia. apply Z.eqb_eq in Ht as <-. done.
Qed.

Lemma covers_lor v a b : covers v (Z.lor a b) <-> covers v a /\ covers v b.
Proof.
  rewrite !covers_bits. split.
  - intros H. split; intros n Hn Ht; apply H; try done; rewrite Z.lor_spec, Ht; [done|apply orb_true_r].
  - intros [H1 H2] n Hn Ht. rewrite Z.lor_spec in Ht. apply orb_true_iff in Ht as [Ht|Ht]; auto.
Qed.

Lemma lookup_indexes bin c : BloomLookup Keccak256 bin c = Some (forallb (Z.testbit (Bloom_Big bin)) (calcBloomIndexes Keccak256 c)) /\
  Forall (fun i => 0 <= i < 2048) (calcBloomIndexes Keccak256 c).
Proof.
  destruct (Keccak256_ok c) as [Hb Hl]. unfold BloomLookup, bloom9, bloom_bit, calcBloomIndexes. cbn [seq map Nat.mul Nat.add].
  set (h := Keccak256 c) in *. assert (Hn : forall i, (i < 32)%nat -> h !! i = Some (nth i h 0) /\ byte_ok (nth i h 0)).
  { intros i Hi. destruct (lookup_lt_is_Some_2 h i) as [x Ex]; [lia|]. rewrite (nth_lookup_Some _ _ _ _ Ex). split; [done|]. by eapply (Forall_lookup_1 _ _ _ _ Hb Ex). }
  destruct (Hn 0%nat) as [E0 B0]; [lia|]. destruct (Hn 1%nat) as [E1 B1]; [lia|]. destruct (Hn 2%nat) as [E2 B2]; [lia|]. destruct (Hn 3%nat) as [E3 B3]; [lia|].
  destruct (Hn 4%nat) as [E4 B4]; [lia|]. destruct (Hn 5%nat) as [E5 B5]; [lia|]. rewrite E0, E1, E2, E3, E4, E5. cbn [mbind option_bind].
  destruct (index_eq _ _ B0 B1) as [I0 J0], (index_eq _ _ B2 B3) as [I1 J1], (index_eq _ _ B4 B5) as [I2 J2]. rewrite <- I0, <- I1, <- I2. split; [|by constructor; [|constructor; [|constructor; [|constructor]]]].
  f_equal. apply eq_true_iff_eq. rewrite Z.eqb_eq. fold (covers (Bloom_Big bin) (Z.lor (Z.lor (Z.lor 0 (Z.shiftl 1 (Z.land (Z.shiftl (nth 0 h 0) 8) 2047 + nth 1 h 0)))
    (Z.shiftl 1 (Z.land (Z.shiftl (nth 2 h 0) 8) 2047 + nth 3 h 0))) (Z.shiftl 1 (Z.land (Z.shiftl (nth 4 h 0) 8) 2047 + nth 5 h 0)))).
  rewrite Z.lor_0_l, !covers_lor, !covers_one by lia. cbn [forallb]. rewrite !andb_true_iff. tauto.
Qed.

(** ** Rules *)

(** A rule passes a block: it is empty, has a nil clause, or the filter of the block has a clause of it. *)
Definition rule_passes (rule : list (option (list Z))) (n : Z) : bool :=
  (length rule =? 0)%nat || existsb (fun c => match c with None => true | Some _ => false end) rule ||
  existsb (fun c => match c with None => false | Some c => default false (BloomLookup Keccak256 (bloom n) c) end) rule.

Lemma clause_lookup c n : clause_match sectionSize vectors (calcBloomIndexes Keccak256 c) n = default false (BloomLookup Keccak256 (bloom n) c).
Proof.
  destruct (lookup_indexes (bloom n) c) as [-> Hr]. cbn [default from_option id]. unfold clause_match. induction Hr as [|i l Hi _ IH]; [done|]. cbn [forallb].
  rewrite IH. f_equal. pose proof (Z.mod_pos_bound n sectionSize Hpos). rewrite vectors_bit by lia. do 3 f_equal. rewrite Z2Nat.id by lia. pose proof (Z.div_mod n sectionSize). lia.
Qed.

Lemma rule_bits_match rule n :
  match rule_bits Keccak256 rule with Some r => rule_match sectionSize vectors r n | None => true end =
  existsb (fun c => match c with None => true | Some _ => false end) rule ||
  existsb (fun c => match c with None => false | Some c => default false (BloomLookup Keccak256 (bloom n) c) end) rule.
Proof.
  unfold rule_bits, rule_match. induction rule as [|[c|] rule IH]; [done| |done]. cbn [mapM fmap option_fmap option_map mbind option_bind existsb].
  destruct (mapM _ rule) as [r|]; cbn [mbind option_bind mret option_ret existsb].
  - rewrite clause_lookup, IH. by destruct (default false _), (existsb _ rule).
  - apply symmetry, orb_true_iff in IH. symmetry. cbn [orb]. destruct IH as [-> | ->]; [done|]. by rewrite !orb_true_r.
Qed.

Lemma matching_passes (rules : list (list (option (list Z)))) n :
  forallb (fun r => rule_match sectionSize vectors r n) (matcher_filters Keccak256 rules) = forallb (fun r => rule_passes r n) rules.
Proof.
  unfold matcher_filters. induction rules as [|rule rules IH]; [done|]. cbn [omap list_omap forallb]. unfold rule_passes at 1. destruct (length rule =? 0)%nat; [done|].
  rewrite orb_false_l. pose proof (rule_bits_match rule n) as E. destruct (rule_bits Keccak256 rule) as [r|]; cbn [forallb]; rewrite <- E, IH; done.
Qed.

Lemma indexes_length c : length (calcBloomIndexes Keccak256 c) = 3%nat.
Proof. done. Qed.

Lemma matcher_filters_ok rules : Forall (Forall (fun c => length c = 3%nat)) (matcher_filters Keccak256 rules).
Proof.
  unfold matcher_filters. induction rules as [|rule rules IH]; [constructor|]. cbn [omap list_omap]. destruct (length rule =? 0)%nat; [done|].
  destruct (rule_bits Keccak256 rule) as [r|] eqn:E; [|done]. constructor; [|done]. unfold rule_bits in E. apply mapM_Some in E. clear -E.
  induction E as [|[c|] x l k Hx _ IH]; [constructor| |done]. injection Hx as <-. by constructor.
Qed.

Lemma add_all bits : forall m : gmap Z scheduler, (forall b s, m !! b = Some s -> s = newScheduler) ->
  let m' := foldl (fun m idx => addScheduler idx m) m bits in
  (forall b s, m' !! b = Some s -> s = newScheduler) /\ Forall (fun b => is_Some (m' !! b)) bits /\ forall b, is_Some (m !! b) -> is_Some (m' !! b).
Proof.
  induction bits as [|i bits IH]; intros m Hm m'; [done|]. unfold m'. cbn [foldl]. destruct (IH (addScheduler i m)) as (H1 & H2 & H3).
  - intros b s Hb. unfold addScheduler in Hb. destruct (m !! i); [by eapply Hm|]. destruct (decide (b = i)) as [->|]; [rewrite lookup_insert_eq in Hb; by injection Hb|].
    rewrite lookup_insert_ne in Hb by done. by eapply Hm.
  - assert (Hi : forall b, is_Some (m !! b) \/ b = i -> is_Some (addScheduler i m !! b)).
    { intros b Hb. unfold addScheduler. destruct (m !! i) as [s|] eqn:E; [destruct Hb as [| ->]; [done|by rewrite E]|].
      destruct (decide (b = i)) as [->|]; [by rewrite lookup_insert_eq|]. rewrite lookup_insert_ne by done. by destruct Hb. }
    split_and!; [done|constructor; [by apply H3, Hi; right|done]|]. intros b Hb. by apply H3, Hi; left.
Qed.

Lemma NewMatcher_ok rules data : matcher_ok sectionSize data (NewMatcher Keccak256 sectionSize rules).
Proof.
  destruct (add_all (concat (concat (matcher_filters Keccak256 rules))) ∅) as (H1 & H2 & _); [by intros|]. split; [done|done|].
  intros b s i d Hs Hi. by rewrite (H1 b s Hs) in Hi.
Qed.
End search.

(** C6: A search finds the logs.  For the filters that CreateBloom makes of the
    receipts of each block and the vectors that the generator makes of them, a
    session over the rules of NewMatcher reports, in order, blocks that pass
    every rule; when it has ended it has reported all of them, and every block
    of the range with logs that meet the rules is among them. *)
Theorem log_search Keccak256 receipts bloom sectionSize supportsUnaligned ws cap begin end_ rules s :
  (forall b, bytes_ok (Keccak256 b) /\ length (Keccak256 b) = 32%nat) ->
  (forall n, CreateBloom Keccak256 (receipts n) = Some (bloom n)) ->
  (0 < ws)%nat -> 0 < sectionSize -> sectionSize mod 8 = 0 -> 0 <= begin -> 0 <= end_ -> end_ + sectionSize + 8 < 2 ^ 64 ->
  reachable supportsUnaligned ws sectionSize cap begin end_ (vectors bloom sectionSize) (NewMatcher Keccak256 sectionSize rules) s ->
  let found := filter (fun n => forallb (fun r => rule_passes Keccak256 bloom r n) rules = true) (seqZ begin (end_ - begin + 1)) in
  ss_out s `prefix_of` found /\
  (ss_reader s = VDone -> ss_out s = found /\
     forall n, begin <= n <= end_ ->
       (forall r, r ∈ rules -> r = [] \/ None ∈ r \/
          exists c logs log, Some c ∈ r /\ logs ∈ receipts n /\ log ∈ logs /\ (c = fst log \/ c ∈ snd log)) ->
       n ∈ ss_out s).
Proof.
  intros Hk Hbl Hws Hpos H8 Hb He Hmax Hr found. assert (Hok : forall n, bytes_ok (bloom n) /\ length (bloom n) = 256%nat).
  { intros n. destruct (CreateBloom_lookup Keccak256 (fun b => proj2 (Hk b)) (receipts n)) as (bin & E & L & B & _). rewrite Hbl in E. by injection E as ->. }
  destruct (session_correct supportsUnaligned ws sectionSize cap begin end_ (vectors bloom sectionSize) (NewMatcher Keccak256 sectionSize rules) s) as (S1 & S2 & _); try done.
  - intros bit sec. by apply vectors_ok.
  - by apply NewMatcher_ok.
  - apply matcher_filters_ok.
  - assert (Hf : matching sectionSize begin end_ (vectors bloom sectionSize) (NewMatcher Keccak256 sectionSize rules) = found).
    { unfold matching, found. apply list_filter_iff. intros n. cbn [filters NewMatcher]. by rewrite matching_passes. }
    rewrite Hf in S1, S2. split; [done|]. intros Hv. split; [by apply S2|]. intros n Hn Hl. rewrite S2 by done. unfold found. apply list_elem_of_filter.
    split; [|apply elem_of_seqZ; lia]. apply forallb_forall. intros r Hin. apply list_elem_of_In in Hin. unfold rule_passes.
    destruct (Hl r Hin) as [-> |[Hn'|(c & logs & log & Hc & H1 & H2 & H3)]]; [done| |].
    + apply list_elem_of_In in Hn'. rewrite !orb_true_iff. left; right. apply existsb_exists. by exists None.
    + rewrite !orb_true_iff. right. apply existsb_exists. exists (Some c). split; [by apply list_elem_of_In|].
      destruct (CreateBloom_lookup Keccak256 (fun b => proj2 (Hk b)) (receipts n)) as (bin & E & _ & _ & HL). rewrite Hbl in E. injection E as <-. by rewrite (HL logs log c).
Qed.

Lemma log_search_witness : 5 ∈ ss_out sample_end.
Proof.
  destruct (log_search (fun _ => replicate 32 0) (fun _ => []) (fun _ => zeros 256) 8 true 8 1 0 7 [] sample_end) as [_ H]; try done; try lia.
  - intros b. split; [by apply Forall_replicate|done].
  - apply sample_run.
  - apply (proj2 (H eq_refl)); [lia|]. intros r Hr. by apply elem_of_nil in Hr.
Defined.
