(* ===== verification/MatcherLive.v ===== *)
(** * Package core/bloombits: a matching session does not get stuck

    The distributor, and the other half of the argument on Matcher.v: a section
    that was requested and not delivered is on its way to a retriever or with
    one, so that some goroutine or some retriever can always make a move until
    all blocks are reported.  The theorem on what a session reports is here, since
    that the distributor does not panic needs the same invariant. *)

From stdpp Require Import gmap.
From S2P Require Import Prelude GoSort Bitutil Compress Bloom Matcher MatcherProof.

(** ** The distributor *)

Lemma insert_section_elem q s i : i ∈ insert_section q s <-> i = s \/ i ∈ q.
Proof.
  unfold insert_section. set (k := Search _ _). assert (Hq : i ∈ q <-> i ∈ take k q \/ i ∈ drop k q) by (by rewrite <- elem_of_app, take_drop).
  rewrite Hq, !elem_of_app, list_elem_of_singleton. tauto.
Qed.

Lemma insert_section_ne q s : insert_section q s <> [].
Proof. intros H. assert (Hin : s ∈ insert_section q s) by (apply insert_section_elem; by left). rewrite H in Hin. by apply elem_of_nil in Hin. Qed.

Lemma insert_sections_elem l : forall q i, i ∈ foldl insert_section q l <-> i ∈ l \/ i ∈ q.
Proof.
  induction l as [|s l IH]; intros q i; cbn [foldl]; [split; [by right|by intros [H|H]; [apply elem_of_nil in H|]]|].
  rewrite IH, insert_section_elem, elem_of_cons. tauto.
Qed.

Lemma insert_section_length q s : length (insert_section q s) = S (length q).
Proof. unfold insert_section. set (k := Search _ _). pose proof (take_drop k q) as H. apply (f_equal length) in H. rewrite length_app in H. rewrite !length_app. cbn [length]. lia. Qed.

Lemma insert_sections_length l : forall q, length (foldl insert_section q l) = (length l + length q)%nat.
Proof. induction l as [|s l IH]; intros q; cbn [foldl length]; [done|]. rewrite IH, insert_section_length. lia. Qed.

(** A bit has requests exactly when it waits in unallocs or a retriever holds it. *)
Record dist_inv (d : distributor) (held : list Z) : Prop := {
  di_flag : retrievers d = negb (bool_decide (unallocs d = ∅));
  di_queue : forall b, queue_of d b <> [] <-> b ∈ unallocs d \/ b ∈ held;
  di_excl : forall b, b ∈ unallocs d -> b ∉ held;
  di_nodup : NoDup held }.

Lemma queue_insert d b q u r a b' : queue_of (Distr (<[b := q]> (requests d)) u r a) b' = if decide (b' = b) then q else queue_of d b'.
Proof. unfold queue_of. cbn [requests]. destruct (decide (b' = b)) as [-> |]; [by rewrite lookup_insert_eq|by rewrite lookup_insert_ne]. Qed.

(** assign of a bit that just got requests. *)
Lemma assign_inv w b d held held' d' g :
  assign w b d = (d', g) -> queue_of d b <> [] -> b ∉ unallocs d -> b ∉ held ->
  retrievers d = negb (bool_decide (unallocs d = ∅)) -> NoDup held -> (forall b', b' ∈ unallocs d -> b' ∉ held) ->
  (forall b', b' <> b -> queue_of d b' <> [] <-> b' ∈ unallocs d \/ b' ∈ held) -> held' = held ++ g ->
  dist_inv d' held' /\ forall b', queue_of d' b' = queue_of d b'.
Proof.
  unfold assign. intros H Hq Hu Hh Hf Hn He Ho ->. destruct w; injection H as <- <-; (split; [|done]); split; cbn [retrievers unallocs requests] in *; try done.
  - intros b'. change (queue_of _ b') with (queue_of d b'). destruct (decide (b' = b)) as [-> |Hne]; [split; [|done]; intros _; right; apply elem_of_app; right; by left|].
    rewrite (Ho b' Hne), elem_of_app, list_elem_of_singleton. tauto.
  - intros b' Hb'. rewrite elem_of_app, list_elem_of_singleton. intros [Hc| ->]; [by eapply He|done].
  - apply NoDup_app. split_and!; [done| |apply NoDup_singleton]. intros x Hx Hs. apply list_elem_of_singleton in Hs as ->. done.
  - symmetry. apply negb_true_iff, bool_decide_eq_false. set_solver.
  - intros b'. change (queue_of _ b') with (queue_of d b'). rewrite app_nil_r. destruct (decide (b' = b)) as [-> |Hne]; [split; [|done]; set_solver|].
    rewrite (Ho b' Hne). set_solver.
  - intros b' Hb'. rewrite app_nil_r. apply elem_of_union in Hb' as [Hb'|Hb']; [apply elem_of_singleton in Hb' as ->; done|by apply He].
  - by rewrite app_nil_r.
Qed.

Lemma request_inv w b i d held d' g : on_request w b i d = (d', g) -> dist_inv d held ->
  dist_inv d' (held ++ g) /\ forall b' i', i' ∈ queue_of d' b' <-> (b' = b /\ i' = i) \/ i' ∈ queue_of d b'.
Proof.
  unfold on_request. intros H [Hf Hq He Hn]. set (d1 := Distr _ _ _ _) in H. assert (Hq1 : forall b', queue_of d1 b' = if decide (b' = b) then insert_section (queue_of d b) i else queue_of d b') by (intros; apply queue_insert).
  assert (Hel : forall b' i', i' ∈ queue_of d1 b' <-> (b' = b /\ i' = i) \/ i' ∈ queue_of d b').
  { intros b' i'. rewrite Hq1. destruct (decide (b' = b)) as [-> |]; [rewrite insert_section_elem|]; naive_solver. }
  destruct (queue_of d b) as [|x q] eqn:Eq; cbn [length Nat.eqb] in H.
  - assert (Hb : ~ (b ∈ unallocs d \/ b ∈ held)) by (intros Hb; apply Hq in Hb; done).
    destruct (assign_inv w b d1 held (held ++ g) d' g H) as [D Q]; try done.
    + rewrite Hq1. destruct (decide (b = b)); [|done]. apply insert_section_ne.
    + tauto.
    + tauto.
    + intros b' Hne. rewrite Hq1. destruct (decide (b' = b)); [done|]. apply Hq.
    + split; [done|]. intros b' i'. by rewrite Q.
  - injection H as <- <-. rewrite app_nil_r. split; [|done]. split; cbn [d1 retrievers unallocs]; try done. intros b'. rewrite Hq1. destruct (decide (b' = b)) as [-> |]; [|apply Hq].
    rewrite <- Hq, Eq. split; [done|]. intros _. apply insert_section_ne.
Qed.

(** Sections below the largest uint64. *)
Definition small (i : Z) : Prop := i < 2 ^ 64 - 1.

Lemma best_bit_some d order : Forall (fun b => queue_of d b <> [] /\ Forall small (queue_of d b)) order ->
  forall bit best, exists b, best_bit d order bit best = Some b /\ (b = bit /\ (order = [] \/ best < 2 ^ 64 - 1) \/ b ∈ order).
Proof.
  induction 1 as [|x order [Hx Hs] _ IH]; intros bit best; [exists bit; split; [done|left; by split; [|left]]|]. cbn [best_bit]. destruct (queue_of d x) as [|y q]; [done|].
  apply Forall_cons in Hs as [Hy _]. unfold small in Hy. cbn [head mbind option_bind]. destruct (Z.ltb_spec y best).
  - destruct (IH x y) as (b & H1 & H2). exists b. split; [done|]. right. rewrite elem_of_cons. naive_solver.
  - destruct (IH bit best) as (b & H1 & H2). exists b. split; [done|]. destruct H2 as [[-> [-> |H2]]|H2]; [left|left|right; by right]; (split; [done|right; lia]).
Qed.

Lemma retriever_inv order d held : order ≡ₚ elements (unallocs d) -> dist_inv d held -> (forall b, Forall small (queue_of d b)) ->
  (unallocs d <> ∅ -> exists d' b, on_retriever order d = Ok (d', b)) /\
  forall d' b, on_retriever order d = Ok (d', b) -> dist_inv d' (held ++ [b]) /\ forall b', queue_of d' b' = queue_of d b'.
Proof.
  intros Ho [Hf Hq He Hn] Hs. assert (HF : Forall (fun b => queue_of d b <> [] /\ Forall small (queue_of d b)) order).
  { apply Forall_forall. intros b Hb. rewrite Ho, elem_of_elements in Hb. split; [apply Hq; by left|apply Hs]. }
  destruct (best_bit_some d order HF 0 (2 ^ 64 - 1)) as (b & Eb & Hb). unfold on_retriever. rewrite Eb, Hf. cbn [of_option obind]. split.
  - intros Hu. rewrite bool_decide_false by done. cbn [negb]. by do 2 eexists.
  - intros d' b' H. destruct (bool_decide (unallocs d = ∅)) eqn:Eu; [done|]. apply bool_decide_eq_false in Eu. cbn [negb] in H. injection H as <- <-.
    assert (Hin : b ∈ unallocs d).
    { destruct Hb as [[-> [-> |Hlt]]|Hb]; [|lia|by rewrite Ho, elem_of_elements in Hb]. exfalso. apply Eu. apply Permutation_nil_l in Ho. symmetry in Ho. apply elements_empty_inv in Ho. by apply leibniz_equiv. }
    split; [|done]. split; cbn [retrievers unallocs]; try done.
    + intros b'. change (queue_of _ b') with (queue_of d b'). rewrite Hq, elem_of_app, list_elem_of_singleton. destruct (decide (b' = b)) as [-> |]; [|set_solver]. tauto.
    + intros b' Hb'. rewrite elem_of_app, list_elem_of_singleton. set_solver.
    + apply NoDup_app. split_and!; [done| |apply NoDup_singleton]. intros x Hx Hx'. apply list_elem_of_singleton in Hx' as ->. by eapply He.
Qed.

Lemma retrieval_inv w b want d h1 h2 d' secs g : on_retrieval w b want d = (d', secs, g) -> dist_inv d (h1 ++ b :: h2) ->
  dist_inv d' (h1 ++ h2 ++ g) /\ forall b' i, i ∈ queue_of d b' <-> i ∈ queue_of d' b' \/ b' = b /\ i ∈ secs.
Proof.
  intros H [Hf Hq He Hn]. assert (Hb : b ∉ unallocs d) by (intros Hu; apply (He b Hu); set_solver).
  assert (Hn' : NoDup (h1 ++ h2) /\ b ∉ h1 ++ h2).
  { apply NoDup_app in Hn as (N1 & N2 & N3). apply NoDup_cons in N3 as [N3 N4]. split; [apply NoDup_app; split_and!; [done| |done]; intros x Hx; specialize (N2 x Hx); set_solver|].
    intros Hc. apply elem_of_app in Hc as [Hc|Hc]; [apply (N2 b Hc); by left|done]. }
  destruct Hn' as [Hn' Hbn]. unfold on_retrieval in H. destruct (Nat.leb_spec (length (queue_of d b)) want) as [Hle|Hgt].
  - injection H as <- <- <-. set (d1 := Distr _ _ _ _). assert (Hq1 : forall b', queue_of d1 b' = if decide (b' = b) then [] else queue_of d b').
    { intros b'. unfold queue_of, d1. cbn [requests]. destruct (decide (b' = b)) as [-> |]; [by rewrite lookup_delete_eq|by rewrite lookup_delete_ne]. }
    rewrite app_nil_r. split.
    + split; cbn [d1 retrievers unallocs]; try done.
      * intros b'. rewrite Hq1. destruct (decide (b' = b)) as [-> |]; [split; [done|]; intros [Hc|Hc]; done|]. rewrite Hq. set_solver.
      * intros b' Hb'. specialize (He b' Hb'). set_solver.
    + intros b' i. rewrite Hq1. destruct (decide (b' = b)) as [-> |]; [|tauto]. set_solver.
  - destruct (assign w b _) as [d2 g2] eqn:Ea. injection H as <- <- <-. set (d1 := Distr _ _ _ _) in Ea.
    assert (Hq1 : forall b', queue_of d1 b' = if decide (b' = b) then drop want (queue_of d b) else queue_of d b') by (intros; apply queue_insert).
    destruct (assign_inv w b d1 (h1 ++ h2) (h1 ++ h2 ++ g2) d2 g2 Ea) as [D Q]; try done.
    + rewrite Hq1. destruct (decide (b = b)); [|done]. intros Hd. apply (f_equal length) in Hd. rewrite length_drop in Hd. cbn in Hd. lia.
    + intros b' Hb'. cbn [d1 unallocs] in Hb'. specialize (He b' Hb'). set_solver.
    + intros b' Hne. rewrite Hq1. destruct (decide (b' = b)); [done|]. rewrite Hq. cbn [d1 unallocs]. set_solver.
    + by rewrite app_assoc.
    + split; [done|]. intros b' i. rewrite Q, Hq1. destruct (decide (b' = b)) as [-> |]; [|tauto]. rewrite <- (take_drop want (queue_of d b)) at 1. rewrite elem_of_app. tauto.
Qed.

(** ** Deliveries *)

Lemma deliver_pending secs : forall s ds s', sched_deliver s secs ds = Some s' -> length secs = length ds ->
  forall i, responses s' !! i = Some None -> responses s !! i = Some None /\ i ∉ secs.
Proof.
  induction secs as [|x secs IH]; intros s ds s' H Hl i Hi; [injection H as <-; split; [done|apply not_elem_of_nil]|]. destruct ds as [|d ds]; [done|].
  injection Hl as Hl. cbn [sched_deliver head tail] in H. destruct (responses s !! x) as [[c|]|] eqn:Ex.
  - destruct (IH _ _ _ H Hl i Hi) as [H1 H2]. split; [done|]. apply not_elem_of_cons. split; [|done]. intros ->. congruence.
  - cbn [mbind option_bind] in H. destruct (IH _ _ _ H Hl i Hi) as [H1 H2]. cbn [responses] in H1. destruct (decide (i = x)) as [->|]; [by rewrite lookup_insert_eq in H1|].
    rewrite lookup_insert_ne in H1 by done. split; [done|]. by apply not_elem_of_cons.
  - destruct (IH _ _ _ H Hl i Hi) as [H1 H2]. split; [done|]. apply not_elem_of_cons. split; [|done]. intros ->. congruence.
Qed.

Lemma deliver_total secs : forall s ds, length secs = length ds -> exists s', sched_deliver s secs ds = Some s'.
Proof.
  induction secs as [|x secs IH]; intros s ds Hl; [by eexists|]. destruct ds as [|d ds]; [done|]. injection Hl as Hl. cbn [sched_deliver head tail].
  destruct (responses s !! x) as [[c|]|]; [by apply IH| |by apply IH]. cbn [mbind option_bind]. by apply IH.
Qed.

Lemma split_sections secs bitsets : length secs = length bitsets ->
  let '(complete, missing) := split_delivery secs bitsets in forall i, i ∈ secs -> i ∈ map fst complete \/ i ∈ missing.
Proof.
  cbn. revert bitsets. induction secs as [|x secs IH]; intros bitsets Hl i Hi; [by apply elem_of_nil in Hi|]. destruct bitsets as [|b bitsets]; [done|]. injection Hl as Hl.
  cbn [zip zip_with]. rewrite !filter_cons. apply elem_of_cons in Hi as [-> |Hi].
  - destruct b; cbn; [right; by left|left; by left].
  - destruct (IH bitsets Hl i Hi) as [H|H]; destruct b; cbn; [by left|left; by right|right; by right|by right].
Qed.

Lemma delivery_inv w b secs bitsets d sch held d' sch' g : length secs = length bitsets -> on_delivery w b secs bitsets d sch = Some (d', sch', g) -> dist_inv d held ->
  dist_inv d' (held ++ g) /\
  (forall b' i, i ∈ queue_of d' b' -> i ∈ queue_of d b' \/ b' = b /\ i ∈ secs) /\
  (forall b' i, i ∈ queue_of d b' -> i ∈ queue_of d' b') /\
  forall b' s' i, sch' !! b' = Some s' -> responses s' !! i = Some None ->
    (exists s, sch !! b' = Some s /\ responses s !! i = Some None) /\ (b' = b -> i ∈ secs -> i ∈ queue_of d' b').
Proof.
  intros Hl H [Hf Hq He Hn]. unfold on_delivery in H. destruct (_ <? _)%nat; [done|]. pose proof (split_sections secs bitsets Hl) as Hsp.
  assert (Hmiss : forall i, i ∈ snd (split_delivery secs bitsets) -> i ∈ secs).
  { cbn. intros i Hi. apply list_elem_of_fmap in Hi as ([x y] & -> & Hi). apply list_elem_of_filter in Hi as [_ Hi]. by apply elem_of_zip_l in Hi. }
  destruct (split_delivery secs bitsets) as [complete missing]. cbn [snd] in Hmiss.
  destruct (sch !! b) as [s|] eqn:Es; [|done]. cbn [mbind option_bind] in H. destruct (sched_deliver s _ _) as [s1|] eqn:E1; [|done]. cbn [mbind option_bind] in H.
  assert (Hpend : forall i, responses s1 !! i = Some None -> responses s !! i = Some None /\ i ∉ map fst complete).
  { intros i. apply (deliver_pending _ _ _ _ E1). by rewrite !length_map. }
  assert (Hsch : forall b' s' i, <[b := s1]> sch !! b' = Some s' -> responses s' !! i = Some None ->
    (exists s, sch !! b' = Some s /\ responses s !! i = Some None) /\ (b' = b -> i ∈ secs -> i ∈ missing)).
  { intros b' s' i Hb Hi. destruct (decide (b' = b)) as [->|].
    - rewrite lookup_insert_eq in Hb. injection Hb as <-. destruct (Hpend i Hi) as [H1 H2]. split; [by exists s|]. intros _ Hin. by destruct (Hsp i Hin).
    - rewrite lookup_insert_ne in Hb by done. split; [by exists s'|done]. }
  destruct missing as [|m0 ms]; cbn [length Nat.ltb Nat.leb] in H.
  - injection H as <- <- <-. rewrite app_nil_r. split_and!; [by split|by left|done|]. intros b' s' i Hb Hi. destruct (Hsch b' s' i Hb Hi) as [H1 H2]. split; [done|].
    intros Hbb Hin. specialize (H2 Hbb Hin). by apply elem_of_nil in H2.
  - set (missing := m0 :: ms) in *. set (q := foldl insert_section (queue_of _ b) missing) in *. set (d1 := Distr (<[b := q]> _) _ _ _) in *.
    assert (Hql : length q = (length missing + length (queue_of d b))%nat) by apply insert_sections_length.
    assert (Hq1 : forall b', queue_of d1 b' = if decide (b' = b) then q else queue_of d b') by (intros; apply (queue_insert (Distr (requests d) (unallocs d) (retrievers d) (allocs d - 1)))).
    assert (Hel : forall i, i ∈ q <-> i ∈ missing \/ i ∈ queue_of d b) by (intros; apply insert_sections_elem).
    assert (Hne : q <> []) by (intros Hc; assert (Hm : m0 ∈ q) by (apply Hel; left; by left); rewrite Hc in Hm; by apply elem_of_nil in Hm).
    assert (G : forall d2, (forall b', queue_of d2 b' = queue_of d1 b') -> (forall b' i, i ∈ queue_of d2 b' -> i ∈ queue_of d b' \/ b' = b /\ i ∈ secs) /\
      (forall b' i, i ∈ queue_of d b' -> i ∈ queue_of d2 b') /\ (forall i, i ∈ missing -> i ∈ queue_of d2 b)).
    { intros d2 Hd2. split_and!.
      - intros b' i. rewrite Hd2, Hq1. destruct (decide (b' = b)) as [-> |]; [|by left]. rewrite Hel. intros [Hi|Hi]; [right; split; [done|by apply Hmiss]|by left].
      - intros b' i Hi. rewrite Hd2, Hq1. destruct (decide (b' = b)) as [-> |]; [|done]. apply Hel. by right.
      - intros i Hi. rewrite Hd2, Hq1. destruct (decide (b = b)); [|done]. apply Hel. by left. }
    assert (Hfin : dist_inv d' (held ++ g) /\ (forall b', queue_of d' b' = queue_of d1 b') /\ sch' = <[b := s1]> sch).
    { change (S (length ms)) with (length missing) in H. destruct (length q =? length missing)%nat eqn:Elen.
      - destruct (assign w b d1) as [d2 g2] eqn:Ea. injection H as <- <- <-. apply Nat.eqb_eq in Elen. rewrite Hql in Elen.
        assert (Hq00 : queue_of d b = []) by (apply length_zero_iff_nil; lia). assert (Hb : ~ (b ∈ unallocs d \/ b ∈ held)) by (intros Hb; by apply Hq in Hb).
        destruct (assign_inv w b d1 held (held ++ g2) d2 g2 Ea) as [D Q]; try done; try tauto.
        + rewrite Hq1. by destruct (decide (b = b)).
        + intros b' Hb'. rewrite Hq1. destruct (decide (b' = b)); [done|]. apply Hq.
      - injection H as <- <- <-. apply Nat.eqb_neq in Elen. rewrite Hql in Elen. rewrite app_nil_r. split_and!; [|done|done].
        split; cbn [d1 retrievers unallocs]; try done. intros b'. rewrite Hq1. destruct (decide (b' = b)) as [-> |]; [|apply Hq]. rewrite <- Hq. split; [|done].
        intros _ Hc. rewrite Hc in Elen. cbn in Elen. lia. }
    destruct Hfin as (D & Q & ->). destruct (G d' Q) as (G1 & G2 & G3). split_and!; [done|done|done|]. intros b' s' i Hb Hi. destruct (Hsch b' s' i Hb Hi) as [H1 H2]. split; [done|].
    intros -> Hin. by apply G3, H2.
Qed.

(** ** Sections on their way *)

Definition lane_sends (l : lane) (x : Z * Z) : Prop := l_bit l = fst x /\ l_req l = RDist (snd x).
Definition stage_sends (st : stage) (x : Z * Z) : Prop := exists j l, s_lanes st !! j = Some l /\ lane_sends l x.
Definition sends (sts : list stage) (x : Z * Z) : Prop := exists st, st ∈ sts /\ stage_sends st x.

Record live (s : session) : Prop := {
  lv_dist : dist_inv (ss_distributor s) (ss_held s);
  lv_queues : forall b, Forall small (queue_of (ss_distributor s) b);
  lv_chan : Forall (fun x => small (snd x)) (buf (ss_dist s));
  lv_tasks : Forall (fun t => Forall small (snd t)) (ss_tasks s);
  lv_sends : forall x, sends (ss_stages s) x -> small (snd x);
  lv_pending : forall b sch i, ss_schedulers s !! b = Some sch -> responses sch !! i = Some None ->
    sends (ss_stages s) (b, i) \/ (b, i) ∈ buf (ss_dist s) \/ i ∈ queue_of (ss_distributor s) b \/ exists secs, (b, secs) ∈ ss_tasks s /\ i ∈ secs }.

Lemma sends_app pre post x : sends (pre ++ post) x <-> sends pre x \/ sends post x.
Proof. unfold sends. split; [intros (st & Hst & H); apply elem_of_app in Hst as [|]; [left|right]; by exists st|]. intros [(st & Hst & H)|(st & Hst & H)]; exists st; rewrite elem_of_app; tauto. Qed.
Lemma sends_cons st post x : sends (st :: post) x <-> stage_sends st x \/ sends post x.
Proof. unfold sends. split; [intros (s & Hst & H); apply elem_of_cons in Hst as [-> |]; [by left|right; by exists s]|]. intros [H|(s & Hst & H)]; [exists st|exists s]; rewrite elem_of_cons; tauto. Qed.

(** Lanes that send the same. *)
Definition same_sends (ls ls' : list lane) : Prop := Forall2 (fun l l' => l_bit l = l_bit l' /\ l_req l = l_req l') ls ls'.
Lemma same_stage_sends st st' x : same_sends (s_lanes st) (s_lanes st') -> stage_sends st' x <-> stage_sends st x.
Proof.
  intros H. unfold stage_sends, lane_sends. split; intros (j & l & Hj & H1 & H2).
  - destruct (Forall2_lookup_r _ _ _ _ _ H Hj) as (l0 & Hl0 & E1 & E2). exists j, l0. by rewrite E1, E2.
  - destruct (Forall2_lookup_l _ _ _ _ _ H Hj) as (l0 & Hl0 & E1 & E2). exists j, l0. by rewrite <- E1, <- E2.
Qed.
Lemma same_sends_refl ls : same_sends ls ls.
Proof. apply Forall_Forall2_diag. by apply Forall_true. Qed.
Lemma same_sends_insert ls k l l' : ls !! k = Some l -> l_bit l' = l_bit l -> l_req l' = l_req l -> same_sends ls (<[k := l']> ls).
Proof.
  intros Hk Hb Hr. rewrite <- (list_insert_id ls k l Hk) at 1. apply Forall2_insert; [apply same_sends_refl|done].
Qed.

Lemma multiplexer_sends cap src st src' st' : multiplexer cap src st = Ok (src', st') -> same_sends (s_lanes st) (s_lanes st').
Proof.
  unfold multiplexer. intros H. destruct (s_requester st) as [|x k|].
  - destruct (buf src); [destruct (closed src); [|done]|]; injection H as <- <-; cbn; [|apply same_sends_refl]. apply Forall2_fmap_r, Forall_Forall2_diag. by apply Forall_true.
  - destruct (s_lanes st !! k) as [l|] eqn:El; [destruct (has_room cap (l_source l)); [|done]|destruct (has_room cap (s_process st)); [|done]]; injection H as <- <-; cbn; [|apply same_sends_refl].
    by eapply same_sends_insert.
  - done.
Qed.

Lemma collector_sends su ws ss cap st st' : collector su ws ss cap st = Ok st' -> same_sends (s_lanes st) (s_lanes st').
Proof.
  unfold collector. intros H. destruct (s_collector st) as [|x k o a|r|].
  - destruct (buf (s_process st)); [destruct (closed (s_process st)); [|done]|]; injection H as <-; apply same_sends_refl.
  - destruct (s_lanes st !! k) as [l|] eqn:El.
    + destruct (buf (l_sink l)); [destruct (closed (l_sink l)); [|done]|]; destruct (gather_vector _ _ _ _ _ _ _) as [[]|]; try done; injection H as <-; cbn; [apply same_sends_refl|by eapply same_sends_insert].
    + destruct (finish _ _ _ _ _); [|done]. injection H as <-. apply same_sends_refl.
  - destruct (has_room cap (s_results st)); [|done]. injection H as <-. apply same_sends_refl.
  - done.
Qed.

Lemma deliveries_sends cap s l l' : scheduleDeliveries cap s l = Ok l' -> l_bit l' = l_bit l /\ l_req l' = l_req l.
Proof.
  unfold scheduleDeliveries. intros H. destruct (l_del l) as [|i|d|].
  - destruct (buf (l_pend l)); [destruct (closed (l_pend l)); [|done]|]; by injection H as <-.
  - destruct (responses s !! i) as [[|]|]; [|done|done]. by injection H as <-.
  - destruct (has_room cap (l_sink l)); [|done]. by injection H as <-.
  - done.
Qed.

Lemma with_lane_sends j l l' st x : s_lanes st !! j = Some l ->
  (stage_sends st x -> lane_sends l x \/ stage_sends (with_lane j l' st) x) /\ (stage_sends (with_lane j l' st) x -> lane_sends l' x \/ stage_sends st x) /\
  (lane_sends l' x -> stage_sends (with_lane j l' st) x).
Proof.
  intros Hj. assert (Hlt : (j < length (s_lanes st))%nat) by (by eapply lookup_lt_Some). unfold stage_sends, with_lane. cbn [s_lanes]. split_and!.
  - intros (k & l0 & Hk & H). destruct (decide (k = j)) as [-> |]; [left; congruence|right]. exists k, l0. by rewrite list_lookup_insert_ne.
  - intros (k & l0 & Hk & H). destruct (decide (k = j)) as [-> |]; [rewrite list_lookup_insert_eq in Hk by done; injection Hk as <-; by left|].
    rewrite list_lookup_insert_ne in Hk by done. right. by exists k, l0.
  - intros H. exists j, l'. by rewrite list_lookup_insert_eq.
Qed.

Section progress.
  Context (supportsUnaligned : bool) (ws : nat) (sectionSize : Z) (cap : nat) (begin end_ : Z).
  Context (data : Z -> Z -> list Z).
  Context (Hws : (0 < ws)%nat) (Hpos : 0 < sectionSize) (H8 : sectionSize mod 8 = 0).
  Context (Hbegin : 0 <= begin) (Hend : 0 <= end_) (Hmax : end_ + sectionSize + 8 < 2 ^ 64).
  Context (Hdata : forall bit sec, bytes_ok (data bit sec) /\ length (data bit sec) = Z.to_nat (sectionSize / 8)).

#[local] Abbreviation step' := (step supportsUnaligned ws sectionSize cap begin end_ data).
#[local] Abbreviation inv' := (inv sectionSize begin end_ data).
#[local] Abbreviation stage_inv' := (stage_inv sectionSize end_ data).

Lemma expected_small sch st j i : stage_inv' sch st -> i ∈ expected st j -> small i.
Proof.
  intros [H1 H2 _ H4 _ _ _ _ _ _] Hi. assert (G : forall x, pm_ok sectionSize end_ x -> small (section x)).
  { intros x Hx. destruct Hx as [Hx _]. unfold small. assert (end_ / sectionSize <= end_) by (apply Z.div_le_upper_bound; nia). lia. }
  unfold expected in Hi. rewrite !elem_of_app in Hi. destruct Hi as [Hi|[Hi|Hi]].
  - destruct (s_collector st) as [|x k o a|r|]; cbn [co_expects] in Hi; try by apply elem_of_nil in Hi. destruct (k <=? j)%nat; [|by apply elem_of_nil in Hi].
    apply list_elem_of_singleton in Hi as ->. apply G. by destruct H4.
  - apply list_elem_of_fmap in Hi as (x & -> & Hx). apply G. rewrite Forall_forall in H1. by apply H1.
  - unfold rq_items in H2. destruct (s_requester st) as [|x k|]; cbn [rq_expects] in Hi; try by apply elem_of_nil in Hi. destruct (j <? k)%nat; [|by apply elem_of_nil in Hi].
    apply list_elem_of_singleton in Hi as ->. apply G. by apply Forall_cons in H2 as [H2 _].
Qed.

Lemma live_same f f' src src' sts sts' sch d di h t r r' o o' : live (Session f src sts sch d di h t r o) -> (forall x, sends sts' x <-> sends sts x) ->
  live (Session f' src' sts' sch d di h t r' o').
Proof.
  intros [L1 L2 L3 L4 L5 L6] Hs. split; cbn in *; try done; [intros x Hx; by apply L5, Hs|]. intros b s i Hb Hi. rewrite Hs. by eapply L6.
Qed.

(** A move that sends nothing. *)
Ltac moved := first [done | (by intros; left) | (intros ? [_ ?]; congruence) | (by intros [] [? [=]])].

Lemma live_requests f src pre st post j l l' s s' sch d d' di h t r o :
  inv' (Session f src (pre ++ st :: post) sch d di h t r o) -> live (Session f src (pre ++ st :: post) sch d di h t r o) ->
  s_lanes st !! j = Some l -> sch !! l_bit l = Some s -> scheduleRequests cap s d l = Ok (s', d', l') ->
  live (Session f src (pre ++ with_lane j l' st :: post) (<[l_bit l := s']> sch) d' di h t r o).
Proof.
  intros Hinv [L1 L2 L3 L4 L5 L6] Hj Hs H. cbn in *. pose proof (i_stages _ _ _ _ _ Hinv) as Hst. cbn in Hst. apply Forall_app in Hst as [_ Hst]. apply Forall_cons in Hst as [Hst _].
  assert (W := fun x => with_lane_sends j l l' st x Hj).
  (* what one move of the run does to the sections on their way *)
  assert (M : (forall x, lane_sends l x -> lane_sends l' x \/ x ∈ buf d') /\ (forall x, x ∈ buf d -> x ∈ buf d') /\
              (forall x, lane_sends l' x -> lane_sends l x \/ small (snd x)) /\ (Forall (fun x => small (snd x)) (buf d')) /\
              (forall i, responses s' !! i = Some None -> responses s !! i = Some None \/ lane_sends l' (l_bit l, i))).
  { unfold scheduleRequests in H. unfold lane_sends. destruct (l_req l) as [|i|i|] eqn:Er.
    - destruct (buf (l_source l)) as [|i rest] eqn:Es.
      + destruct (closed (l_source l)); [|done]. injection H as <- <- <-. cbn. split_and!; moved.
      + assert (Hi : small i).
        { apply (expected_small sch st j i Hst). destruct (si_lanes _ _ _ _ _ Hst j l Hj) as [(sk & ds & _ & _ & HA) _ _ _ _ _]. rewrite <- HA, Es. rewrite !elem_of_app. right; right; right; right. by left. }
        destruct (responses s !! i) as [c|] eqn:Ei; injection H as <- <- <-; cbn; split_and!; try moved.
        * intros [b i'] [_ [= <-]]. by right.
        * intros i'. destruct (decide (i' = i)) as [-> |]; [by right|rewrite lookup_insert_ne by done; by left].
    - destruct (has_room cap d); [|done]. injection H as <- <- <-. cbn. split_and!; try moved.
      + intros [b i'] [E1 E2]. cbn in *. injection E2 as <-. right. apply elem_of_app. right. rewrite E1. by left.
      + intros x Hx. apply elem_of_app. by left.
      + apply Forall_app. split; [done|]. constructor; [|done]. cbn. apply (L5 (l_bit l, i)). apply sends_app. right. apply sends_cons. left. exists j, l. by split.
    - destruct (has_room cap (l_pend l)); [|done]. injection H as <- <- <-. cbn. split_and!; moved.
    - done. }
  destruct M as (M1 & M2 & M3 & M4 & M5). split; cbn; try done.
  - intros x. rewrite sends_app, sends_cons. intros [Hx|[Hx|Hx]]; [by apply L5, sends_app; left| |by apply L5, sends_app; right; apply sends_cons; right].
    destruct (W x) as (_ & W2 & _). destruct (W2 Hx) as [Hl|Hl]; [|by apply L5, sends_app; right; apply sends_cons; left].
    destruct (M3 x Hl) as [Hl'|]; [|done]. apply L5, sends_app. right. apply sends_cons. left. by exists j, l.
  - assert (K : forall b i, sends (pre ++ st :: post) (b, i) \/ (b, i) ∈ buf d \/ i ∈ queue_of di b \/ (exists secs, (b, secs) ∈ t /\ i ∈ secs) ->
        sends (pre ++ with_lane j l' st :: post) (b, i) \/ (b, i) ∈ buf d' \/ i ∈ queue_of di b \/ exists secs, (b, secs) ∈ t /\ i ∈ secs).
    { intros b i [Hx|[Hx|Hx]]; [|right; left; by apply M2|by right; right]. rewrite sends_app, sends_cons in Hx. rewrite sends_app, sends_cons. destruct Hx as [Hx|[Hx|Hx]]; [by left; left| |by left; right; right].
      destruct (W (b, i)) as (W1 & _ & W3). destruct (W1 Hx) as [Hl|Hl]; [|by left; right; left]. destruct (M1 _ Hl) as [Hl'|Hl']; [left; right; left; by apply W3|by right; left]. }
    intros b s0 i Hb Hi. destruct (decide (b = l_bit l)) as [-> |].
    + rewrite lookup_insert_eq in Hb. injection Hb as <-. destruct (M5 i Hi) as [Ho|Ho]; [by eapply K, L6|]. left. apply sends_app. right. apply sends_cons. left. destruct (W (l_bit l, i)) as (_ & _ & W3). by apply W3.
    + rewrite lookup_insert_ne in Hb by done. by eapply K, L6.
Qed.

Lemma sends_mid pre post st st' x : same_sends (s_lanes st) (s_lanes st') -> sends (pre ++ st' :: post) x <-> sends (pre ++ st :: post) x.
Proof. intros H. rewrite !sends_app, !sends_cons. by rewrite (same_stage_sends st st'). Qed.

(** What the distributor, the channel and the retrievers exchange. *)
Lemma live_exchange f src sts sch sch' d d' di di' h h' t t' r o :
  live (Session f src sts sch d di h t r o) -> dist_inv di' h' ->
  (forall b, Forall small (queue_of di' b)) -> Forall (fun x => small (snd x)) (buf d') -> Forall (fun t => Forall small (snd t)) t' ->
  (forall b s i, sch' !! b = Some s -> responses s !! i = Some None ->
    (exists s, sch !! b = Some s /\ responses s !! i = Some None) /\
    ((b, i) ∈ buf d \/ i ∈ queue_of di b \/ (exists secs, (b, secs) ∈ t /\ i ∈ secs) ->
     (b, i) ∈ buf d' \/ i ∈ queue_of di' b \/ exists secs, (b, secs) ∈ t' /\ i ∈ secs)) ->
  live (Session f src sts sch' d' di' h' t' r o).
Proof.
  intros [L1 L2 L3 L4 L5 L6] D1 D2 D3 D4 D5. split; cbn in *; try done. intros b s i Hb Hi. destruct (D5 b s i Hb Hi) as [(s0 & Hs0 & Hi0) Hm].
  destruct (L6 b s0 i Hs0 Hi0) as [Hs|Hs]; [by left|right; by apply Hm].
Qed.

Lemma step_live s s' : step' s s' -> inv' s -> live s -> live s'.
Proof.
  intros Hs Hinv L. destruct Hs as [f src src' f' sts sch d di h t r o Hf|f src src' st st' sts sch d di h t r o Hm|f src pre st1 c st2 st2' post sch d di h t r o Hm
    |f src pre st st' post sch d di h t r o Hc|f src pre st post j l l' s s' sch d d' di h t r o Hj Hsc Hr|f src pre st post j l l' s sch d di h t r o Hj Hsc Hd
    |f src src' sch d di h t r r' o out Hr|f src pre st c sch d di h t r r' o out Hr|f src sts sch bit sec rest cl w di di' g h t r o Hr|f src sts sch d order di di' bit h t r o Ho Hr
    |f src sts sch d w bit want di di' secs g h1 h2 t r o Hr|f src sts sch sch' d w bit secs bitsets di di' g h t1 t2 r o Hb Hr].
  - eapply live_same; [exact L|done].
  - eapply live_same; [exact L|]. intros x. apply (sends_mid [] sts st st'). by eapply multiplexer_sends.
  - eapply live_same; [exact L|]. intros x. rewrite !sends_app, !sends_cons. rewrite (same_stage_sends st1 (with_results c st1)) by apply same_sends_refl.
    rewrite (same_stage_sends st2 st2') by (by eapply multiplexer_sends). done.
  - eapply live_same; [exact L|]. intros x. apply sends_mid. by eapply collector_sends.
  - by eapply live_requests.
  - eapply live_same; [exact L|]. intros x. apply sends_mid. destruct (deliveries_sends _ _ _ _ Hd). by eapply same_sends_insert.
  - eapply live_same; [exact L|done].
  - eapply live_same; [exact L|]. intros x. apply sends_mid. apply same_sends_refl.
  - pose proof L as [L1 L2 L3 L4 L5 L6]. cbn in *. destruct (request_inv _ _ _ _ _ _ _ Hr L1) as [D Q]. apply Forall_cons in L3 as [Hsm L3]. eapply live_exchange; [exact L|done| |done|done|].
    + intros b. apply Forall_forall. intros i. rewrite Q. intros [[-> ->]|Hi]; [done|]. by apply (proj1 (Forall_forall _ _) (L2 b)).
    + intros b s i Hb Hi. split; [by exists s|]. cbn. rewrite Q, elem_of_cons. naive_solver.
  - pose proof L as [L1 L2 L3 L4 L5 L6]. cbn in *. destruct (retriever_inv order di h Ho L1 L2) as [_ R]. destruct (R _ _ Hr) as [D Q]. eapply live_exchange; [exact L|done| |done|done|].
    + intros b. by rewrite Q.
    + intros b s i Hb Hi. split; [by exists s|]. by rewrite Q.
  - pose proof L as [L1 L2 L3 L4 L5 L6]. cbn in *. destruct (retrieval_inv _ _ _ _ _ _ _ _ _ Hr L1) as [D Q]. eapply live_exchange; [exact L|done| |done| |].
    + intros b. apply Forall_forall. intros i Hi. apply (proj1 (Forall_forall _ _) (L2 b)). apply Q. by left.
    + apply Forall_app. split; [done|]. constructor; [|done]. apply Forall_forall. intros i Hi. apply (proj1 (Forall_forall _ _) (L2 bit)). apply Q. by right.
    + intros b s i Hb Hi. split; [by exists s|]. rewrite Q. intros [Hx|[[Hx|[-> Hx]]|(se & Hx & Hi')]]; [by left|by right; left|right; right; exists secs|right; right; exists se]; rewrite elem_of_app; (split; [|done]); [right; by left|by left].
  - pose proof L as [L1 L2 L3 L4 L5 L6]. cbn in *. destruct (delivery_inv _ _ _ _ _ _ _ _ _ _ (Forall2_length _ _ _ Hb) Hr L1) as (D & Q1 & Q2 & Q3).
    apply Forall_app in L4 as [L4 L4']. apply Forall_cons in L4' as [L4s L4']. cbn in L4s. eapply live_exchange; [exact L|done| |done|by apply Forall_app|].
    + intros b. apply Forall_forall. intros i Hi. destruct (Q1 b i Hi) as [Hx|[-> Hx]]; [by apply (proj1 (Forall_forall _ _) (L2 b))|by apply (proj1 (Forall_forall _ _) L4s)].
    + intros b s i Hb' Hi. destruct (Q3 b s i Hb' Hi) as [H1 H2]. split; [done|]. intros [Hx|[Hx|(se & Hx & Hi')]]; [by left|right; left; by apply Q2|].
      apply elem_of_app in Hx as [Hx|Hx]; [right; right; exists se; rewrite elem_of_app; tauto|]. apply elem_of_cons in Hx as [[= -> ->]|Hx]; [right; left; by apply H2|].
      right; right; exists se; rewrite elem_of_app; tauto.
Qed.

Lemma start_live m : live (Start m begin).
Proof.
  assert (S0 : forall x, ~ sends (ss_stages (Start m begin)) x).
  { intros x (st & Hst & j & l & Hj & _ & Hl). cbn in Hst. apply list_elem_of_fmap in Hst as (bloom & -> & _). unfold subMatch in Hj. cbn [s_lanes] in Hj. rewrite lookup_map in Hj.
    apply fmap_Some in Hj as (b & _ & ->). done. }
  split; try by constructor.
  - split; cbn; [by rewrite bool_decide_true|set_solver|set_solver|constructor].
  - intros x Hx. by apply S0 in Hx.
  - intros b sch i Hb Hi. cbn in Hb. rewrite lookup_fmap in Hb. apply fmap_Some in Hb as (s & _ & ->). unfold sched_reset in Hi. cbn [responses] in Hi.
    apply map_lookup_filter_Some in Hi as [_ Hi]. done.
Qed.
(** ** Some goroutine or retriever can move *)

Definition can_move (s : session) : Prop := exists s', step' s s'.

Lemma has_room_empty {A} (c : chan A) : buf c = [] -> has_room cap c = true.
Proof. intros H. unfold has_room. rewrite H. apply Nat.ltb_lt. cbn [length]. lia. Qed.
Lemma no_room {A} (c : chan A) : has_room cap c = false -> buf c <> [].
Proof. intros H Hc. by rewrite has_room_empty in H. Qed.

Lemma distribute_moves f src sts sch d di h t r o : buf d <> [] -> can_move (Session f src sts sch d di h t r o).
Proof.
  destruct d as [[|[b i] rest] cl]; [done|]. intros _. destruct (on_request false b i di) as [di' g] eqn:E. eexists. by eapply step_distribute.
Qed.

(** A lane that wants to send to the distributor. *)
Lemma send_moves f src pre st post sch d di h t r o j l i s : s_lanes st !! j = Some l -> sch !! l_bit l = Some s -> l_req l = RDist i ->
  can_move (Session f src (pre ++ st :: post) sch d di h t r o).
Proof.
  intros Hj Hs Hr. destruct (has_room cap d) eqn:Er; [|by apply distribute_moves, no_room]. eexists. eapply step_requests; [exact Hj|exact Hs|].
  unfold scheduleRequests. by rewrite Hr, Er.
Qed.

Lemma retrieval_moves s b sch i : inv' s -> live s -> ss_schedulers s !! b = Some sch -> responses sch !! i = Some None -> can_move s.
Proof.
  intros Hinv [L1 L2 L3 L4 L5 L6] Hb Hi. destruct s as [f src sts sc d di h t r o]. pose proof (i_stages _ _ _ _ _ Hinv) as Hst. cbn in *.
  destruct (L6 b sch i Hb Hi) as [(st & Hin & j & l & Hj & Hbit & Hl)|[Hx|[Hx|(secs & Hx & _)]]]; [cbn in Hbit, Hl; subst b|..].
  - apply list_elem_of_split in Hin as (pre & post & ->). by eapply send_moves.
  - apply distribute_moves. intros Hc. rewrite Hc in Hx. by apply elem_of_nil in Hx.
  - assert (Hq : queue_of di b <> []) by (intros Hc; rewrite Hc in Hx; by apply elem_of_nil in Hx). apply L1 in Hq as [Hu|Hh].
    + destruct (retriever_inv (elements (unallocs di)) di h (Permutation_refl _) L1 L2) as [R _]. destruct R as (d' & b' & R); [set_solver|]. eexists. by eapply step_retriever.
    + apply list_elem_of_split in Hh as (h1 & h2 & ->). destruct (on_retrieval false b 1 di) as [[di' secs] g] eqn:E. eexists. by eapply step_allocate.
  - apply list_elem_of_split in Hx as (t1 & t2 & ->). destruct (on_delivery false b secs (map (data b) secs) di sc) as [[[di' sc'] g]|] eqn:E.
    + eexists. eapply step_deliver; [|exact E]. clear. induction secs; constructor; [by right|done].
    + exfalso. unfold on_delivery in E. rewrite length_map, Nat.ltb_irrefl in E. destruct (split_delivery _ _) as [c m]. rewrite Hb in E. cbn [mbind option_bind] in E.
      destruct (deliver_total (map fst c) sch (map snd c)) as [s' Hs']; [by rewrite !length_map|]. rewrite Hs' in E. cbn [mbind option_bind] in E.
      destruct (0 <? length m)%nat; [|done]. destruct (if (_ =? _)%nat then _ else _) as [d0 g0]. done.
Qed.

(** A lane that holds sections and whose data is all read. *)
Lemma lane_moves f src pre st post sch d di h t r o j l A : let s := Session f src (pre ++ st :: post) sch d di h t r o in
  inv' s -> live s -> s_lanes st !! j = Some l -> lane_inv data sch l A -> A <> [] -> buf (l_sink l) = [] -> can_move s.
Proof.
  intros s Hinv L Hj [(sk & ds & H1 & H2 & H3) (sc & Hsc & H4) H5 H6 H7 H8'] HA Hk. rewrite Hk in H1. symmetry in H1. apply map_eq_nil in H1 as ->. cbn [app] in H3.
  assert (Md : forall l', scheduleDeliveries cap sc l = Ok l' -> can_move s) by (intros l' E; eexists; by eapply step_deliveries).
  assert (Mr : forall x, scheduleRequests cap sc d l = Ok x -> can_move s) by (intros [[s' d'] l'] E; eexists; by eapply step_requests).
  unfold scheduleDeliveries in Md. unfold scheduleRequests in Mr. destruct (l_del l) as [|i|x|] eqn:Ed; cbn [del_secs] in H2.
  - subst ds. cbn [app] in H3. destruct (buf (l_pend l)) as [|i rest] eqn:Ep; [|by eapply Md]. destruct (closed (l_pend l)) eqn:Ec; [by eapply Md|].
    destruct (l_req l) as [|i|i|] eqn:Er; cbn [req_secs app] in H3.
    + destruct (buf (l_source l)) as [|i rest]; [by subst|]. destruct (responses sc !! i); by eapply Mr.
    + by eapply send_moves.
    + rewrite has_room_empty in Mr by done. by eapply Mr.
    + exfalso. assert (false = true) by (by apply H6). done.
  - destruct (H4 i) as [[x|] Hx]; [by left|rewrite Hx in Md; by eapply Md|]. by eapply (retrieval_moves s (l_bit l) sc i).
  - rewrite has_room_empty in Md by done. by eapply Md.
  - exfalso. destruct (H7 eq_refl) as [Hc Hp]. apply H6 in Hc. destruct (H5 Hc) as [_ Hsrc]. apply HA. rewrite <- H3, H2, Hp, Hc, Hsrc. done.
Qed.

Lemma mux_moves f src pre st post sch d di h t r o x : multiplexer cap (out_of src pre) st = Ok x -> can_move (Session f src (pre ++ st :: post) sch d di h t r o).
Proof.
  destruct x as [c st']. destruct pre as [|st1 pre _] using rev_ind; intros H; [eexists; by eapply step_multiplexer_first|].
  rewrite out_of_app in H. rewrite <- app_assoc. eexists. by eapply step_multiplexer.
Qed.

(** A sub-matcher whose results are all read can move, or waits for its source. *)
Lemma stage_moves f src pre st post sch d di h t r o : let s := Session f src (pre ++ st :: post) sch d di h t r o in
  inv' s -> live s -> buf (s_results st) = [] -> closed (s_results st) = false ->
  can_move s \/ buf (out_of src pre) = [] /\ closed (out_of src pre) = false.
Proof.
  intros s Hinv L Hres Hopen. pose proof (i_stages _ _ _ _ _ Hinv) as Hst. cbn [ss_stages ss_schedulers] in Hst. apply Forall_app in Hst as [_ Hst]. apply Forall_cons in Hst as [Hst _].
  pose proof Hst as [_ _ _ _ Hl Hcl _ _ _ He].
  assert (Mc : forall st', collector supportsUnaligned ws sectionSize cap st = Ok st' -> can_move s) by (intros st' E; eexists; by eapply step_collector).
  assert (Mx : forall x, multiplexer cap (out_of src pre) st = Ok x -> can_move s) by (intros x E; by eapply mux_moves).
  assert (Np := collector_no_panic supportsUnaligned ws sectionSize cap end_ data Hws Hdata sch st Hst).
  unfold collector in Mc, Np. destruct (s_collector st) as [|x k a b|x|] eqn:Ec.
  - destruct (buf (s_process st)) as [|y rest] eqn:Ep; [|left; by eapply Mc]. destruct (closed (s_process st)) eqn:Eo; [left; by eapply Mc|].
    unfold multiplexer in Mx. destruct (s_requester st) as [|x k|] eqn:Eq.
    + destruct (buf (out_of src pre)) as [|y rest]; [|left; by eapply Mx]. destruct (closed (out_of src pre)); [left; by eapply Mx|by right].
    + left. destruct (s_lanes st !! k) as [l|] eqn:El; [|rewrite has_room_empty in Mx by done; by eapply Mx].
      destruct (has_room cap (l_source l)) eqn:Er; [by eapply Mx|]. exfalso. apply no_room in Er. apply Er.
      destruct (Hl k l El) as [(sk & ds & _ & _ & HA) _ _ _ _ _]. unfold expected in HA. rewrite Ec, Ep, Eq in HA. cbn [co_expects rq_expects map app] in HA. rewrite Nat.ltb_irrefl in HA.
      by repeat (apply app_eq_nil in HA as [_ HA]).
    + exfalso. assert (false = true) by (by apply Hcl). done.
  - left. destruct (s_lanes st !! k) as [l|] eqn:El.
    + destruct (buf (l_sink l)) as [|y rest] eqn:Es.
      * eapply lane_moves; [done|done|exact El|by apply Hl| |done]. unfold expected. rewrite Ec. cbn [co_expects]. by rewrite Nat.leb_refl.
      * destruct (gather_vector _ _ _ _ _ _ _) as [[]|]; [by eapply Mc|done].
    + destruct (finish _ _ _ _ _) as [|]; [by eapply Mc|done].
  - left. rewrite has_room_empty in Mc by done. by eapply Mc.
  - exfalso. assert (closed (s_results st) = true) by (by apply He). congruence.
Qed.

(** From the end of the pipeline to its source. *)
Lemma pipeline_moves f src sts post sch d di h t r o : let s := Session f src (sts ++ post) sch d di h t r o in
  inv' s -> live s -> buf (out_of src sts) = [] -> closed (out_of src sts) = false -> can_move s \/ buf src = [] /\ closed src = false.
Proof.
  revert post. induction sts as [|st sts IH] using rev_ind; intros post s Hinv L Hb Hc; [by right|]. rewrite out_of_app in Hb, Hc. cbn [out_of] in Hb, Hc.
  unfold s in *. rewrite <- app_assoc in Hinv, L |- *. cbn [app] in *. destruct (stage_moves _ _ _ _ _ _ _ _ _ _ _ _ Hinv L Hb Hc) as [H|[H1 H2]]; [by left|]. by apply IH.
Qed.

Lemma reader_moves f src sts sch d di h t r o x : reader sectionSize begin end_ r (out_of src sts) = Ok x -> can_move (Session f src sts sch d di h t r o).
Proof.
  destruct x as [[r' c] out]. destruct sts as [|st sts _] using rev_ind; intros H; [eexists; by eapply step_reader_source|].
  rewrite out_of_app in H. eexists. by eapply step_reader.
Qed.

Lemma moves s : inv' s -> live s -> ss_reader s = VDone \/ can_move s.
Proof.
  intros Hinv L. pose proof Hinv as [H1 H2 H3 H4 H5 H6 H7 H9]. destruct s as [f src sts sch d di h t r o]. cbn [ss_feeder ss_source ss_stages ss_schedulers ss_reader] in *.
  pose proof (reader_step ws sectionSize begin end_ Hws Hpos H8 Hmax r _ H6 (out_of_ok sectionSize end_ data sch src sts H2 H4)) as Hr.
  assert (Mv : forall x, reader sectionSize begin end_ r (out_of src sts) = Ok x -> can_move (Session f src sts sch d di h t r o)) by (intros x; apply reader_moves).
  destruct r as [|x i last|]; [|right|by left].
  - right. cbn [reader] in Mv. destruct (buf (out_of src sts)) as [|x rest] eqn:Eb; [|by eapply Mv]. destruct (closed (out_of src sts)) eqn:Ec; [by eapply Mv|].
    destruct (pipeline_moves f src sts [] sch d di h t VIdle o) as [H|[Hb Hc]]; rewrite ?app_nil_r in *; try done.
    destruct f as [i|]; [|exfalso; assert (closed src = true) by (by apply H3); congruence].
    destruct (feeder sectionSize cap end_ (FNext i) src) as [[f' src']|e| |] eqn:Ef; [eexists; by eapply step_feeder|..]; cbn [feeder] in Ef; rewrite has_room_empty in Ef by done; by destruct (_ <=? _).
  - destruct (reader _ _ _ (VScan x i last) _) as [y|e| |] eqn:Er; [by eapply Mv| |done|done]. exfalso. cbn [reader] in Er. destruct (i <=? last); [|done].
    destruct (bitset x !! _) as [n|]; [|done]. cbn [of_option obind] in Er. by destruct (n =? 0).
Qed.

Lemma reachable_live m s : matcher_ok sectionSize data m -> rtc step' (Start m begin) s -> inv' s /\ live s.
Proof.
  intros Hm Hr. assert (H0 : inv' (Start m begin)) by (by apply (start_inv ws)). pose proof (start_live m) as L0. induction Hr as [s|s s1 s2 Hs _ IH]; [done|].
  apply IH; [by apply (step_inv supportsUnaligned ws sectionSize cap begin end_ data Hws Hpos H8 Hend Hmax Hdata s)|by eapply step_live].
Qed.

(** ** The bits that circulate have schedulers *)

Record known (s : session) : Prop := {
  kn_chan : forall b i, (b, i) ∈ buf (ss_dist s) -> is_Some (ss_schedulers s !! b);
  kn_queues : forall b i, i ∈ queue_of (ss_distributor s) b -> is_Some (ss_schedulers s !! b);
  kn_tasks : forall b secs, (b, secs) ∈ ss_tasks s -> is_Some (ss_schedulers s !! b) }.

Lemma start_known m : known (Start m begin).
Proof. split; cbn; [intros b i H|intros b i H|intros b secs H]; by apply elem_of_nil in H. Qed.

(** Schedulers are changed and never removed. *)
Lemma known_keeps s f src sts sch' d di h t r o : known s -> (forall b, is_Some (ss_schedulers s !! b) -> is_Some (sch' !! b)) ->
  (forall b i, (b, i) ∈ buf d -> (b, i) ∈ buf (ss_dist s) \/ is_Some (sch' !! b)) ->
  (forall b i, i ∈ queue_of di b -> i ∈ queue_of (ss_distributor s) b \/ is_Some (sch' !! b)) ->
  (forall b secs, (b, secs) ∈ t -> (b, secs) ∈ ss_tasks s \/ is_Some (sch' !! b)) -> known (Session f src sts sch' d di h t r o).
Proof. intros [K1 K2 K3] Hs H1 H2 H3. split; cbn; [intros b i H; destruct (H1 b i H)|intros b i H; destruct (H2 b i H)|intros b secs H; destruct (H3 b secs H)]; eauto. Qed.

Lemma insert_known (sch : gmap Z scheduler) b0 s0 b : is_Some (sch !! b) -> is_Some (<[b0 := s0]> sch !! b).
Proof. intros H. apply lookup_insert_is_Some'. by right. Qed.

Lemma requests_dist s d l s' d' l' x : scheduleRequests cap s d l = Ok (s', d', l') -> x ∈ buf d' -> x ∈ buf d \/ fst x = l_bit l.
Proof.
  unfold scheduleRequests. intros H. destruct (l_req l) as [|i|i|].
  - destruct (buf (l_source l)) as [|i rest]; [destruct (closed (l_source l)); [|done]|destruct (responses s !! i)]; injection H as <- <- <-; by left.
  - destruct (has_room cap d); [|done]. injection H as <- <- <-. cbn. rewrite elem_of_app, list_elem_of_singleton. intros [Hx| ->]; [by left|by right].
  - destruct (has_room cap (l_pend l)); [|done]. injection H as <- <- <-. by left.
  - done.
Qed.
Lemma delivery_schedulers w b secs bitsets di sch di' sch' g : on_delivery w b secs bitsets di sch = Some (di', sch', g) -> forall b', is_Some (sch !! b') -> is_Some (sch' !! b').
Proof.
  unfold on_delivery. intros H b' Hb. destruct (_ <? _)%nat; [done|]. destruct (split_delivery secs bitsets) as [c m]. destruct (sch !! b) as [s|]; [|done]. cbn [mbind option_bind] in H.
  destruct (sched_deliver _ _ _) as [s1|]; [|done]. cbn [mbind option_bind] in H. destruct (0 <? length m)%nat; [destruct (if (_ =? _)%nat then _ else _) as [d0 g0]|]; injection H as _ <- _; by apply insert_known.
Qed.

Lemma step_known s s' : step' s s' -> live s -> known s -> known s'.
Proof.
  intros Hs L K. destruct Hs as [f src src' f' sts sch d di h t r o Hf|f src src' st st' sts sch d di h t r o Hm|f src pre st1 c st2 st2' post sch d di h t r o Hm
    |f src pre st st' post sch d di h t r o Hc|f src pre st post j l l' s s' sch d d' di h t r o Hj Hsc Hr|f src pre st post j l l' s sch d di h t r o Hj Hsc Hd
    |f src src' sch d di h t r r' o out Hr|f src pre st c sch d di h t r r' o out Hr|f src sts sch bit sec rest cl w di di' g h t r o Hr|f src sts sch d order di di' bit h t r o Ho Hr
    |f src sts sch d w bit want di di' secs g h1 h2 t r o Hr|f src sts sch sch' d w bit secs bitsets di di' g h t1 t2 r o Hb Hr]; pose proof K as [K1 K2 K3]; pose proof L as [L1 L2 _ _ _ _]; cbn in *.
  1-4,6-8: by split.
  - eapply known_keeps; [exact K|intros b; apply insert_known| |by left|by left]. intros b i Hx. destruct (requests_dist _ _ _ _ _ _ _ Hr Hx) as [Hx'|Hx']; [by left|right]. cbn in Hx'. subst b. rewrite lookup_insert_eq. by eexists.
  - destruct (request_inv _ _ _ _ _ _ _ Hr L1) as [_ Q]. eapply known_keeps; [exact K|done| | |by left]; cbn.
    + intros b i Hx. left. by right.
    + intros b i Hx. apply Q in Hx as [[-> ->]|Hx]; [right; eapply K1; by left|by left].
  - destruct (retriever_inv order di h Ho L1 L2) as [_ R]. destruct (R _ _ Hr) as [_ Q]. eapply known_keeps; [exact K|done|by left| |by left]. intros b i. rewrite Q. by left.
  - destruct (retrieval_inv _ _ _ _ _ _ _ _ _ Hr L1) as [_ Q]. eapply known_keeps; [exact K|done|by left| |]; cbn.
    + intros b i Hx. left. apply Q. by left.
    + intros b secs' Hx. apply elem_of_app in Hx as [Hx|Hx]; [by left|right]. apply list_elem_of_singleton in Hx as [= -> _].
      assert (Hq : queue_of di bit <> []) by (apply L1; right; set_solver). destruct (queue_of di bit) as [|i q] eqn:Eq; [done|]. apply (K2 bit i). rewrite Eq. by left.
  - destruct (delivery_inv _ _ _ _ _ _ _ _ _ _ (Forall2_length _ _ _ Hb) Hr L1) as (_ & Q1 & _). pose proof (delivery_schedulers _ _ _ _ _ _ _ _ _ Hr) as HS.
    eapply known_keeps; [exact K|exact HS|by left| |]; cbn.
    + intros b i Hx. destruct (Q1 b i Hx) as [Hy|[-> _]]; [by left|right]. apply HS, (K3 bit secs). set_solver.
    + intros b secs' Hx. left. set_solver.
Qed.

Lemma reachable_known m s : matcher_ok sectionSize data m -> rtc step' (Start m begin) s -> known s.
Proof.
  intros Hm Hr. assert (H0 : inv' (Start m begin)) by (by apply (start_inv ws)). pose proof (start_live m) as L0. pose proof (start_known m) as K0. induction Hr as [s|s s1 s2 Hs _ IH]; [done|].
  apply IH; [by apply (step_inv supportsUnaligned ws sectionSize cap begin end_ data Hws Hpos H8 Hend Hmax Hdata s)|by eapply step_live|by eapply step_known].
Qed.

(** ** No goroutine panics *)

(** The distributor does not panic: on a retriever that asks, in whatever order it
    looks at the bits, and on a delivery of a retriever. *)
Definition distributor_safe (s : session) : Prop :=
  (forall order, order ≡ₚ elements (unallocs (ss_distributor s)) -> on_retriever order (ss_distributor s) <> Panic) /\
  (forall w bit secs bitsets, (bit, secs) ∈ ss_tasks s -> Forall2 (fun i b => b = [] \/ b = data bit i) secs bitsets ->
     on_delivery w bit secs bitsets (ss_distributor s) (ss_schedulers s) <> None).

Lemma delivery_some w b secs bitsets di sch : length secs = length bitsets -> is_Some (sch !! b) -> on_delivery w b secs bitsets di sch <> None.
Proof.
  intros Hl [s Hs] E. unfold on_delivery in E. rewrite Hl, Nat.ltb_irrefl in E. destruct (split_delivery _ _) as [c m]. rewrite Hs in E. cbn [mbind option_bind] in E.
  destruct (deliver_total (map fst c) s (map snd c)) as [s' Hs']; [by rewrite !length_map|]. rewrite Hs' in E. cbn [mbind option_bind] in E.
  destruct (0 <? length m)%nat; [|done]. destruct (if (_ =? _)%nat then _ else _) as [d0 g0]. done.
Qed.

Lemma live_distributor_safe s : live s -> known s -> distributor_safe s.
Proof.
  intros [L1 L2 _ _ _ _] [_ _ K3]. split.
  - intros order Ho. destruct (decide (unallocs (ss_distributor s) = ∅)) as [E|E]; [unfold on_retriever; by rewrite (di_flag _ _ L1), bool_decide_true|].
    destruct (retriever_inv order _ _ Ho L1 L2) as [R _]. by destruct (R E) as (d' & b & ->).
  - intros w bit secs bitsets Hin Hb. apply delivery_some; [by eapply Forall2_length|by eapply K3].
Qed.
End progress.

(** C8: A matching session does not get stuck.  As long as the reader has not
    come to the end, some goroutine can move or some retriever can call: every
    section that a lane waits for is on its way to the distributor, queued for
    a bit that a retriever holds or can take, or with a retriever that can
    deliver it; and the distributor always has a bit for a retriever that asks
    while sections are not allocated.  For results channels with a buffer, where
    channels are modelled as they are. *)
Theorem matcher_progress supportsUnaligned ws sectionSize cap begin end_ data m s :
  (0 < cap)%nat -> (0 < ws)%nat -> 0 < sectionSize -> sectionSize mod 8 = 0 -> 0 <= begin -> 0 <= end_ -> end_ + sectionSize + 8 < 2 ^ 64 ->
  (forall bit sec, bytes_ok (data bit sec) /\ length (data bit sec) = Z.to_nat (sectionSize / 8)) ->
  matcher_ok sectionSize data m -> reachable supportsUnaligned ws sectionSize cap begin end_ data m s ->
  (ss_reader s = VDone \/ can_move supportsUnaligned ws sectionSize cap begin end_ data s) /\
  let d := ss_distributor s in
  (forall b, queue_of d b <> [] <-> b ∈ unallocs d \/ b ∈ ss_held s) /\
  (forall order, order ≡ₚ elements (unallocs d) -> if decide (unallocs d = ∅) then on_retriever order d = Err Blocked else exists d' b, on_retriever order d = Ok (d', b) /\ queue_of d b <> []).
Proof.
  intros _ Hws Hpos H8 Hb He Hmax Hd Hm Hr. destruct (reachable_live supportsUnaligned ws sectionSize cap begin end_ data Hws Hpos H8 Hb He Hmax Hd m s Hm Hr) as [Hi L].
  split; [by apply moves|]. pose proof L as [L1 L2 _ _ _ _]. pose proof L1 as [Hf Hq _ _]. split; [done|]. intros order Ho.
  destruct (decide (unallocs (ss_distributor s) = ∅)) as [E|E]; [unfold on_retriever; by rewrite Hf, bool_decide_true|].
  destruct (retriever_inv order _ _ Ho L1 L2) as [R1 R2]. destruct (R1 E) as (d' & b & Eb). exists d', b. split; [done|]. destruct (R2 _ _ Eb) as [[_ Q _ _] Q']. rewrite <- Q'. apply Q. right. set_solver.
Qed.

(** A session with one rule, at its start. *)
Definition rule_matcher : Matcher := {| sectionSize := 8; filters := [[[1; 2; 3]]]; schedulers := {[1 := newScheduler; 2 := newScheduler; 3 := newScheduler]} |}.

Lemma matcher_progress_witness : can_move true 8 8 1 0 7 (fun _ _ => [255]) (Start rule_matcher 0).
Proof.
  destruct (matcher_progress true 8 8 1 0 7 (fun _ _ => [255]) rule_matcher (Start rule_matcher 0)) as [[H|H] _]; try done; try lia.
  - intros bit sec. split; [by repeat constructor|done].
  - split; [done| |].
    + cbn. repeat constructor; by eexists.
    + intros b s i d Hs Hi. cbn in Hs. assert (s = newScheduler) as ->; [|done]. rewrite !lookup_insert_Some, lookup_singleton_Some in Hs. naive_solver.
  - apply rtc_refl.
Defined.

(** ** What a session reports *)

(** C7: A matching session reports the right blocks.  In every interleaving of
    the goroutines and of the retrievers, the blocks that were reported are, in
    order, a beginning of the blocks of the range that all rules match; when the
    reader has come to the end they are all of them; and no goroutine panics: not
    the collectors, the goroutines of the schedulers and the reader, and not the
    distributor, whatever retriever asks or delivers. *)
Theorem matcher_session supportsUnaligned ws sectionSize cap begin end_ data m s :
  (0 < ws)%nat -> 0 < sectionSize -> sectionSize mod 8 = 0 -> 0 <= begin -> 0 <= end_ -> end_ + sectionSize + 8 < 2 ^ 64 ->
  (forall bit sec, bytes_ok (data bit sec) /\ length (data bit sec) = Z.to_nat (sectionSize / 8)) ->
  matcher_ok sectionSize data m -> Forall (Forall (fun c => length c = 3%nat)) (filters m) ->
  reachable supportsUnaligned ws sectionSize cap begin end_ data m s ->
  let blocks := matching sectionSize begin end_ data m in
  ss_out s `prefix_of` blocks /\ (ss_reader s = VDone -> ss_out s = blocks) /\
  pipeline_safe supportsUnaligned ws sectionSize cap begin end_ s /\ distributor_safe data s.
Proof.
  intros Hws Hpos H8 Hb He Hmax Hd Hm H3 Hr. destruct (session_correct supportsUnaligned ws sectionSize cap begin end_ data m s) as (S1 & S2 & S3); try done. split_and!; try done.
  apply live_distributor_safe; [|exact (reachable_known supportsUnaligned ws sectionSize cap begin end_ data Hws Hpos H8 Hb He Hmax Hd m s Hm Hr)].
  exact (proj2 (reachable_live supportsUnaligned ws sectionSize cap begin end_ data Hws Hpos H8 Hb He Hmax Hd m s Hm Hr)).
Qed.

(** A session with one rule over eight blocks, one move after the other: the sections
    are requested, taken by a retriever, delivered and matched, and the blocks of the
    vector that the three bits have in common are reported. *)
Definition rule_data (bit _ : Z) : list Z := [if bit =? 1 then 255 else if bit =? 2 then 15 else 6].
Ltac rule_step :=
  first
    [ eapply step_reader with (pre := []); vm_compute; reflexivity
    | eapply step_collector with (pre := []) (post := []); vm_compute; reflexivity
    | eapply step_deliveries with (pre := []) (post := []) (j := 0%nat); vm_compute; reflexivity
    | eapply step_deliveries with (pre := []) (post := []) (j := 1%nat); vm_compute; reflexivity
    | eapply step_deliveries with (pre := []) (post := []) (j := 2%nat); vm_compute; reflexivity
    | eapply step_deliver with (t1 := []) (w := true); [constructor; [right; vm_compute; reflexivity|constructor]|vm_compute; reflexivity]
    | eapply step_allocate with (h1 := []) (w := true) (want := 1%nat); vm_compute; reflexivity
    | eapply step_distribute with (w := true); vm_compute; reflexivity
    | eapply step_requests with (pre := []) (post := []) (j := 0%nat); vm_compute; reflexivity
    | eapply step_requests with (pre := []) (post := []) (j := 1%nat); vm_compute; reflexivity
    | eapply step_requests with (pre := []) (post := []) (j := 2%nat); vm_compute; reflexivity
    | eapply step_multiplexer_first; vm_compute; reflexivity
    | eapply step_feeder; vm_compute; reflexivity ].
Ltac rule_normal := match goal with |- rtc _ ?s _ => let s' := eval vm_compute in s in change s with s' end.

Lemma rule_run : exists s, reachable true 8 8 2 0 7 rule_data rule_matcher s /\ ss_reader s = VDone /\ ss_out s = [5; 6].
Proof.
  eexists. split; [unfold reachable; repeat (rule_normal; eapply rtc_l; [rule_step|]); apply rtc_refl|]. by split.
Qed.

Lemma rule_matcher_ok : matcher_ok 8 rule_data rule_matcher.
Proof.
  split; [done| |].
  - cbn. repeat constructor; by eexists.
  - intros b s i d Hs Hi. cbn in Hs. assert (s = newScheduler) as ->; [|done]. rewrite !lookup_insert_Some, lookup_singleton_Some in Hs. naive_solver.
Qed.

Lemma matcher_session_witness : matching 8 0 7 rule_data rule_matcher = [5; 6] /\ exists s, ss_out s = [5; 6] /\ distributor_safe rule_data s.
Proof.
  destruct rule_run as (s & Hr & Hv & Ho).
  destruct (matcher_session true 8 8 2 0 7 rule_data rule_matcher s) as (_ & H1 & _ & H2); try done; try lia.
  - intros bit sec. unfold rule_data. split; [|done]. destruct (bit =? 1), (bit =? 2); by repeat constructor.
  - apply rule_matcher_ok.
  - by repeat constructor.
  - split; [rewrite <- Ho; symmetry; exact (H1 Hv)|]. exists s. by split.
Defined.
