(* ===== verification/Json.v ===== *)
(** * encoding/json and unicode/utf8, as the clients use them

    The standard library under the typed calls: runes and their encoding, JSON
    texts, and Unmarshal.  A JSON value is its syntax: a string keeps the text
    between its quotes, a number its text, an object its members in order, so
    that only the white space of a text is lost.  The limit on the nesting of
    later versions of the library is left out. *)

From stdpp Require Import list strings.
From S2P Require Import Prelude GoText Hexutil.

(** ** Runes *)

Definition RuneError : Z := 65533.

Definition EncodeRune (r : Z) : list Z :=
  let r := if (r <? 0) || (1114111 <? r) || ((55296 <=? r) && (r <=? 57343)) then RuneError else r in
  if r <=? 127 then [r]
  else if r <=? 2047 then [192 + r / 64; 128 + r mod 64]
  else if r <=? 65535 then [224 + r / 4096; 128 + r / 64 mod 64; 128 + r mod 64]
  else [240 + r / 262144; 128 + r / 4096 mod 64; 128 + r / 64 mod 64; 128 + r mod 64].

(** The conversion of an unsigned number to a string. *)
Definition string_of_rune (n : Z) : list Z := EncodeRune n.

Definition between (lo c hi : Z) : bool := (lo <=? c) && (c <=? hi).

(** A rune and its size; the size is 1 for a byte that starts no rune. *)
Definition DecodeRune (s : list Z) : Z * nat :=
  match s with
  | [] => (RuneError, 0%nat)
  | a :: s =>
      if a <? 128 then (a, 1%nat)
      else if between 194 a 223 then
        match s with
        | b :: _ => if between 128 b 191 then ((a - 192) * 64 + (b - 128), 2%nat) else (RuneError, 1%nat)
        | _ => (RuneError, 1%nat)
        end
      else if between 224 a 239 then
        match s with
        | b :: c :: _ =>
            if between (if a =? 224 then 160 else 128) b (if a =? 237 then 159 else 191) && between 128 c 191
            then ((a - 224) * 4096 + (b - 128) * 64 + (c - 128), 3%nat) else (RuneError, 1%nat)
        | _ => (RuneError, 1%nat)
        end
      else if between 240 a 244 then
        match s with
        | b :: c :: d :: _ =>
            if between (if a =? 240 then 144 else 128) b (if a =? 244 then 143 else 191) && between 128 c 191 && between 128 d 191
            then ((a - 240) * 262144 + (b - 128) * 4096 + (c - 128) * 64 + (d - 128), 4%nat) else (RuneError, 1%nat)
        | _ => (RuneError, 1%nat)
        end
      else (RuneError, 1%nat)
  end.

(** ** Strings *)

Definition hexd (n : Z) : Z := if n <? 10 then 48 + n else 87 + n.

(** One ASCII character of encodeState.string, with HTML escaping. *)
Definition escape_char (c : Z) : list Z :=
  if (c =? 34) || (c =? 92) then [92; c]
  else if c =? 10 then [92; 110]
  else if c =? 13 then [92; 114]
  else if c =? 9 then [92; 116]
  else if (c <? 32) || (c =? 60) || (c =? 62) || (c =? 38) then [92; 117; 48; 48; hexd (c / 16); hexd (c mod 16)]
  else [c].

Fixpoint escape_loop (fuel : nat) (s : list Z) : list Z :=
  match fuel, s with
  | O, _ | _, [] => []
  | S fuel, c :: r =>
      if c <? 128 then escape_char c ++ escape_loop fuel r
      else
        let '(rune, size) := DecodeRune s in
        if (rune =? RuneError) && (size =? 1)%nat then [92; 117; 102; 102; 102; 100] ++ escape_loop fuel r
        else if (rune =? 8232) || (rune =? 8233) then [92; 117; 50; 48; 50; hexd (rune mod 16)] ++ escape_loop fuel (drop size s)
        else take size s ++ escape_loop fuel (drop size s)
  end.
Definition escape (s : list Z) : list Z := escape_loop (length s) s.

(** getu4: four hexadecimal digits. *)
Definition getu4 (s : list Z) : option Z :=
  match s with
  | a :: b :: c :: d :: _ =>
      a ← fromHexChar a; b ← fromHexChar b; c ← fromHexChar c; d ← fromHexChar d;
      Some (((a * 16 + b) * 16 + c) * 16 + d)
  | _ => None
  end.
Definition surrogate (r : Z) : bool := between 55296 r 57343.
(** utf16.DecodeRune. *)
Definition pair_rune (r1 r2 : Z) : option Z :=
  if between 55296 r1 56319 && between 56320 r2 57343 then Some ((r1 - 55296) * 1024 + (r2 - 56320) + 65536) else None.

(** unquote, of the text between the quotes. *)
Fixpoint unquote_loop (fuel : nat) (s : list Z) : option (list Z) :=
  match fuel, s with
  | _, [] => Some []
  | O, _ => None
  | S fuel, c :: r =>
      if c =? 92 then
        match r with
        | e :: r =>
            if (e =? 34) || (e =? 92) || (e =? 47) || (e =? 39) then app [e] <$> unquote_loop fuel r
            else if e =? 98 then app [8] <$> unquote_loop fuel r
            else if e =? 102 then app [12] <$> unquote_loop fuel r
            else if e =? 110 then app [10] <$> unquote_loop fuel r
            else if e =? 114 then app [13] <$> unquote_loop fuel r
            else if e =? 116 then app [9] <$> unquote_loop fuel r
            else if e =? 117 then
              rr ← getu4 r;
              let r := drop 4 r in
              if surrogate rr then
                match (if bool_decide (take 2 r = [92; 117]) then rr1 ← getu4 (drop 2 r); pair_rune rr rr1 else None) with
                | Some dec => app (EncodeRune dec) <$> unquote_loop fuel (drop 6 r)
                | None => app (EncodeRune RuneError) <$> unquote_loop fuel r
                end
              else app (EncodeRune rr) <$> unquote_loop fuel r
            else None
        | [] => None
        end
      else if (c =? 34) || (c <? 32) then None
      else if c <? 128 then app [c] <$> unquote_loop fuel r
      else let '(rune, size) := DecodeRune s in app (EncodeRune rune) <$> unquote_loop fuel (drop size s)
  end.
Definition unquote (s : list Z) : option (list Z) := unquote_loop (length s) s.

(** ** Values and their texts *)

Inductive json : Type :=
| JNull
| JBool (b : bool)
| JNum (text : list Z)
| JStr (raw : list Z)
| JArr (vs : list json)
| JObj (ms : list (list Z * json)).

Fixpoint commas (xs : list (list Z)) : list Z :=
  match xs with [] => [] | [x] => x | x :: xs => x ++ 44 :: commas xs end.

(** The text of a value without white space. *)
Fixpoint print (v : json) : list Z :=
  match v with
  | JNull => str "null"
  | JBool true => str "true"
  | JBool false => str "false"
  | JNum text => text
  | JStr raw => quote raw
  | JArr vs => 91 :: commas (map print vs) ++ [93]
  | JObj ms => 123 :: commas (map (fun '(k, v) => quote k ++ 58 :: print v) ms) ++ [125]
  end.

Fixpoint skip_ws (s : list Z) : list Z :=
  match s with
  | c :: r => if (c =? 32) || (c =? 9) || (c =? 13) || (c =? 10) then skip_ws r else s
  | [] => []
  end.

(** The rest of the text after a keyword. *)
Fixpoint literal (word s : list Z) : option (list Z) :=
  match word, s with
  | [], _ => Some s
  | w :: word, c :: s => if w =? c then literal word s else None
  | _, [] => None
  end.

Definition digit_byte (c : Z) : bool := between 48 c 57.
Fixpoint span_digits (s : list Z) : list Z * list Z :=
  match s with
  | c :: r => if digit_byte c then let '(ds, rest) := span_digits r in (c :: ds, rest) else ([], s)
  | [] => ([], [])
  end.
Definition digits1 (s : list Z) : option (list Z * list Z) :=
  match span_digits s with ([], _) => None | r => Some r end.

(** The parts of a number and the rest of the text. *)
Definition num_sign (s : list Z) : list Z * list Z := match s with c :: r => if c =? 45 then ([c], r) else ([], s) | [] => ([], s) end.
Definition num_int (s : list Z) : option (list Z * list Z) := match s with c :: r => if c =? 48 then Some ([c], r) else digits1 s | [] => None end.
Definition num_frac (s : list Z) : option (list Z * list Z) :=
  match s with c :: r => if c =? 46 then '(ds, rest) ← digits1 r; Some (c :: ds, rest) else Some ([], s) | [] => Some ([], s) end.
Definition num_exp (s : list Z) : option (list Z * list Z) :=
  match s with
  | e :: r =>
      if (e =? 101) || (e =? 69) then
        let '(sg, r) := match r with c :: r' => if (c =? 43) || (c =? 45) then ([c], r') else ([], r) | [] => ([], r) end in
        '(ds, rest) ← digits1 r; Some (e :: sg ++ ds, rest)
      else Some ([], s)
  | [] => Some ([], s)
  end.
Definition scan_number (s : list Z) : option (list Z * list Z) :=
  let '(sg, s) := num_sign s in
  '(ip, s) ← num_int s; '(fp, s) ← num_frac s; '(ep, s) ← num_exp s;
  Some (sg ++ ip ++ fp ++ ep, s).

(** The text of a string up to its closing quote, and the rest. *)
Fixpoint scan_string (s : list Z) : option (list Z * list Z) :=
  match s with
  | [] => None
  | c :: r =>
      if c =? 34 then Some ([], r)
      else if c <? 32 then None
      else if c =? 92 then
        match r with
        | e :: r1 =>
            if e =? 117 then
              match r1 with
              | h1 :: h2 :: h3 :: h4 :: r2 =>
                  _ ← getu4 r1; '(t, rest) ← scan_string r2; Some (c :: e :: h1 :: h2 :: h3 :: h4 :: t, rest)
              | _ => None
              end
            else if (e =? 34) || (e =? 92) || (e =? 47) || (e =? 98) || (e =? 102) || (e =? 110) || (e =? 114) || (e =? 116)
            then '(t, rest) ← scan_string r1; Some (c :: e :: t, rest) else None
        | [] => None
        end
      else '(t, rest) ← scan_string r; Some (c :: t, rest)
  end.

(** The next token, if it is one character [c]. *)
Definition token (c : Z) (s : list Z) : option (list Z) :=
  match skip_ws s with x :: r => if x =? c then Some r else None | [] => None end.

(** A value, and the rest of the text; the elements of an array and the members
    of an object after their first token. *)
Fixpoint scan_value (fuel : nat) (s : list Z) {struct fuel} : option (json * list Z) :=
  match fuel with
  | O => None
  | S fuel =>
      match skip_ws s with
      | [] => None
      | c :: r =>
          if c =? 110 then rest ← literal (str "ull") r; Some (JNull, rest)
          else if c =? 116 then rest ← literal (str "rue") r; Some (JBool true, rest)
          else if c =? 102 then rest ← literal (str "alse") r; Some (JBool false, rest)
          else if c =? 34 then '(t, rest) ← scan_string r; Some (JStr t, rest)
          else if c =? 91 then
            match token 93 r with
            | Some rest => Some (JArr [], rest)
            | None => '(vs, rest) ← scan_elements fuel r; Some (JArr vs, rest)
            end
          else if c =? 123 then
            match token 125 r with
            | Some rest => Some (JObj [], rest)
            | None => '(ms, rest) ← scan_members fuel r; Some (JObj ms, rest)
            end
          else '(t, rest) ← scan_number (c :: r); Some (JNum t, rest)
      end
  end
with scan_elements (fuel : nat) (s : list Z) {struct fuel} : option (list json * list Z) :=
  match fuel with
  | O => None
  | S fuel =>
      '(v, s) ← scan_value fuel s;
      match token 93 s with
      | Some rest => Some ([v], rest)
      | None => s ← token 44 s; '(vs, rest) ← scan_elements fuel s; Some (v :: vs, rest)
      end
  end
with scan_members (fuel : nat) (s : list Z) {struct fuel} : option (list (list Z * json) * list Z) :=
  match fuel with
  | O => None
  | S fuel =>
      s ← token 34 s; '(k, s) ← scan_string s; s ← token 58 s; '(v, s) ← scan_value fuel s;
      match token 125 s with
      | Some rest => Some ([(k, v)], rest)
      | None => s ← token 44 s; '(ms, rest) ← scan_members fuel s; Some ((k, v) :: ms, rest)
      end
  end.

(** The value of a whole text. *)
Definition parse (s : list Z) : option json :=
  '(v, rest) ← scan_value (2 * length s + 1) s;
  match skip_ws rest with [] => Some v | _ => None end.

(** ** Texts that are read back *)

Section json_induction.
  Context (P : json -> Prop).
  Context (Hnull : P JNull) (Hbool : forall b, P (JBool b)) (Hnum : forall t, P (JNum t)) (Hstr : forall r, P (JStr r)).
  Context (Harr : forall vs, Forall P vs -> P (JArr vs)) (Hobj : forall ms, Forall (fun m => P (snd m)) ms -> P (JObj ms)).

Fixpoint json_nested_ind (v : json) : P v :=
  match v with
  | JNull => Hnull
  | JBool b => Hbool b
  | JNum t => Hnum t
  | JStr r => Hstr r
  | JArr vs => Harr vs ((fix go vs := match vs return Forall P vs with [] => Forall_nil_2 P | v :: vs => Forall_cons_2 P v vs (json_nested_ind v) (go vs) end) vs)
  | JObj ms => Hobj ms ((fix go ms := match ms return Forall (fun m => P (snd m)) ms with
                                      | [] => Forall_nil_2 (fun m => P (snd m)) | m :: ms => Forall_cons_2 (fun m => P (snd m)) m ms (json_nested_ind (snd m)) (go ms) end) ms)
  end.
End json_induction.

(** The text of a string literal or of a number. *)
Definition raw_ok (raw : list Z) : Prop := scan_string (raw ++ [34]) = Some (raw, []).
Definition num_ok (text : list Z) : Prop := scan_number text = Some (text, []).

Fixpoint json_ok (v : json) : Prop :=
  match v with
  | JNum t => num_ok t
  | JStr r => raw_ok r
  | JArr vs => (fix go vs := match vs with [] => True | v :: vs => json_ok v /\ go vs end) vs
  | JObj ms => (fix go ms := match ms with [] => True | (k, v) :: ms => (raw_ok k /\ json_ok v) /\ go ms end) ms
  | _ => True
  end.

Lemma arr_ok vs : json_ok (JArr vs) <-> Forall json_ok vs.
Proof. cbn. induction vs as [|v vs IH]; [split; [by constructor|done]|]. rewrite Forall_cons. by rewrite IH. Qed.
Lemma obj_ok ms : json_ok (JObj ms) <-> Forall (fun m => raw_ok (fst m) /\ json_ok (snd m)) ms.
Proof. cbn. induction ms as [|[k v] ms IH]; [split; [by constructor|done]|]. rewrite Forall_cons. by rewrite IH. Qed.

Lemma scan_string_app n : forall s t r x, (length s <= n)%nat -> scan_string s = Some (t, r) -> scan_string (s ++ x) = Some (t, r ++ x).
Proof.
  induction n as [|n IH]; intros s t r x Hn H; [by destruct s; [|cbn in Hn; lia]|]. destruct s as [|c s]; [done|]. cbn [length] in Hn. cbn [app]. cbn [scan_string] in *.
  destruct (c =? 34); [by injection H as <- <-|]. destruct (c <? 32); [done|]. destruct (c =? 92).
  - destruct s as [|e s]; [done|]. cbn [app]. destruct (e =? 117).
    + destruct s as [|h1 [|h2 [|h3 [|h4 s]]]]; try done. cbn [app]. cbn [getu4] in *. destruct (fromHexChar h1), (fromHexChar h2), (fromHexChar h3), (fromHexChar h4); try done.
      cbn [mbind option_bind] in *. destruct (scan_string s) as [[t' r']|] eqn:E; [|done]. rewrite (IH s t' r' x) by (cbn [length] in Hn; lia || done). cbn [mbind option_bind] in *. by injection H as <- <-.
    + destruct (_ || _); [|done]. destruct (scan_string s) as [[t' r']|] eqn:E; [|done]. rewrite (IH s t' r' x) by (cbn [length] in Hn; lia || done). cbn [mbind option_bind] in *. by injection H as <- <-.
  - destruct (scan_string s) as [[t' r']|] eqn:E; [|done]. rewrite (IH s t' r' x) by (lia || done). cbn [mbind option_bind] in *. by injection H as <- <-.
Qed.

Lemma raw_scan raw rest : raw_ok raw -> scan_string (raw ++ 34 :: rest) = Some (raw, rest).
Proof. intros H. change (34 :: rest) with ([34] ++ rest). rewrite app_assoc. by apply (scan_string_app _ _ _ _ _ (le_n _) H). Qed.

(** What may follow a value inside a text. *)
Definition delim (rest : list Z) : Prop := match rest with [] => True | c :: _ => c = 44 \/ c = 93 \/ c = 125 end.

Lemma span_digits_app s ds r rest : span_digits s = (ds, r) -> delim rest -> span_digits (s ++ rest) = (ds, r ++ rest).
Proof.
  revert ds r. induction s as [|c s IH]; intros ds r H Hd; cbn [app span_digits] in *.
  - injection H as <- <-. destruct rest as [|c rest]; [done|]. cbn [span_digits]. by destruct Hd as [-> |[-> | ->]].
  - destruct (digit_byte c); [|by injection H as <- <-]. destruct (span_digits s) as [ds' r'] eqn:E. injection H as <- <-. by rewrite (IH ds' r').
Qed.
Lemma digits1_app s ds r rest : digits1 s = Some (ds, r) -> delim rest -> digits1 (s ++ rest) = Some (ds, r ++ rest).
Proof.
  unfold digits1. intros H Hd. destruct (span_digits s) as [ds' r'] eqn:E. rewrite (span_digits_app _ _ _ rest E) by done. destruct ds'; [done|]. by injection H as <- <-.
Qed.

(** A stage of scan_number does not look past a delimiter. *)
Definition stage_local (f : list Z -> option (list Z * list Z)) : Prop :=
  forall s t r rest, f s = Some (t, r) -> delim rest -> f (s ++ rest) = Some (t, r ++ rest).

Lemma num_int_local : stage_local num_int.
Proof.
  intros s t r rest H Hd. pose proof (digits1_app s t r rest) as D. destruct s as [|c s]; [done|]. cbn [app] in *. unfold num_int in *.
  destruct (c =? 48); [by injection H as <- <-|by apply D].
Qed.
Lemma num_frac_local : stage_local num_frac.
Proof.
  intros s t r rest H Hd. destruct s as [|c s]; [injection H as <- <-; destruct rest as [|c rest]; [done|]; by destruct Hd as [-> |[-> | ->]]|]. cbn [app] in *. unfold num_frac in *.
  destruct (c =? 46); [|by injection H as <- <-]. destruct (digits1 s) as [[ds r']|] eqn:E; [|done]. cbn [mbind option_bind] in H. injection H as <- <-. by rewrite (digits1_app _ _ _ rest E).
Qed.
Lemma num_exp_local : stage_local num_exp.
Proof.
  intros s t r rest H Hd. destruct s as [|c s]; [injection H as <- <-; destruct rest as [|c rest]; [done|]; by destruct Hd as [-> |[-> | ->]]|]. cbn [app]. unfold num_exp in *.
  destruct (_ || _); [|by injection H as <- <-].
  assert (S : forall sg s', (match s with c :: r' => if (c =? 43) || (c =? 45) then ([c], r') else ([], s) | [] => ([], s) end) = (sg, s') ->
    (match s ++ rest with c :: r' => if (c =? 43) || (c =? 45) then ([c], r') else ([], s ++ rest) | [] => ([], s ++ rest) end) = (sg, s' ++ rest)).
  { intros sg s' Hs. destruct s as [|x s]; [injection Hs as <- <-; destruct rest as [|x rest]; [done|]; by destruct Hd as [-> |[-> | ->]]|]. cbn [app]. destruct (_ || _); by injection Hs as <- <-. }
  destruct (match s with c :: r' => if (c =? 43) || (c =? 45) then ([c], r') else ([], s) | [] => ([], s) end) as [sg s'] eqn:E. rewrite (S sg s' eq_refl).
  destruct (digits1 s') as [[ds r']|] eqn:E1; [|done]. rewrite (digits1_app _ _ _ rest E1) by done. cbn [mbind option_bind] in *. by injection H as <- <-.
Qed.

Lemma scan_number_local : stage_local scan_number.
Proof.
  intros s t r rest H Hd. unfold scan_number in *. destruct (num_sign s) as [sg s1] eqn:E1. destruct (num_int s1) as [[ip s2]|] eqn:E2; [|done]. cbn [mbind option_bind] in H.
  assert (Es : num_sign (s ++ rest) = (sg, s1 ++ rest)).
  { destruct s as [|c s]; [by injection E1 as <- <-|]. cbn [app]. unfold num_sign in *. destruct (c =? 45); by injection E1 as <- <-. }
  rewrite Es, (num_int_local _ _ _ rest E2 Hd). cbn [mbind option_bind]. destruct (num_frac s2) as [[fp s3]|] eqn:E3; [|done]. cbn [mbind option_bind] in H.
  rewrite (num_frac_local _ _ _ rest E3 Hd). cbn [mbind option_bind]. destruct (num_exp s3) as [[ep s4]|] eqn:E4; [|done]. cbn [mbind option_bind] in H.
  rewrite (num_exp_local _ _ _ rest E4 Hd). cbn [mbind option_bind]. by injection H as <- <-.
Qed.

Lemma literal_app w s : literal w (w ++ s) = Some s.
Proof. induction w as [|c w IH]; [done|]. cbn. by rewrite Z.eqb_refl. Qed.

(** The first character of a number. *)
Lemma num_first text : num_ok text -> exists c r, text = c :: r /\ (c = 45 \/ digit_byte c = true).
Proof.
  unfold num_ok, scan_number. intros H. destruct text as [|c r]; [done|]. exists c, r. split; [done|]. cbn [num_sign] in H. destruct (Z.eqb_spec c 45) as [-> |]; [by left|right].
  cbn [num_int] in H. destruct (Z.eqb_spec c 48) as [-> |]; [done|]. unfold digits1 in H. cbn [span_digits] in H. by destruct (digit_byte c).
Qed.

Lemma digit_range c : digit_byte c = true <-> 48 <= c <= 57.
Proof. unfold digit_byte, between. rewrite andb_true_iff, !Z.leb_le. done. Qed.

Lemma skip_ws_char c r : 33 <= c -> skip_ws (c :: r) = c :: r.
Proof. intros H. cbn [skip_ws]. destruct (_ || _) eqn:E; [|done]. rewrite !orb_true_iff, !Z.eqb_eq in E. lia. Qed.
Lemma token_char c x r : 33 <= x -> token c (x :: r) = if x =? c then Some r else None.
Proof. intros H. unfold token. by rewrite skip_ws_char. Qed.

Lemma print_first v : json_ok v -> exists c r, print v = c :: r /\ 33 <= c /\ c <> 93.
Proof.
  destruct v as [|[]|t|raw|vs|ms]; intros H; try (do 2 eexists; split; [reflexivity|split; [done|done]]). destruct (num_first t H) as (c & r & -> & Hc).
  exists c, r. split; [done|]. destruct Hc as [-> |Hc]; [done|]. apply digit_range in Hc. lia.
Qed.

Lemma commas_cons x y xs : commas (x :: y :: xs) = x ++ 44 :: commas (y :: xs).
Proof. done. Qed.

Definition enough (fuel : nat) (text : list Z) : Prop := (2 * length text <= fuel + 1)%nat.

(** An array or an object whose elements are read. *)
Lemma scan_elements_print vs : Forall (fun v => forall fuel rest, enough fuel (print v) -> delim rest -> scan_value fuel (print v ++ rest) = Some (v, rest)) vs -> vs <> [] ->
  forall fuel rest, (2 * length (commas (map print vs)) <= fuel)%nat -> scan_elements fuel (commas (map print vs) ++ 93 :: rest) = Some (vs, rest).
Proof.
  induction 1 as [|v vs Hv Hvs IH]; [done|]. intros _ fuel rest Hf. destruct vs as [|v' vs].
  - cbn [map commas] in *. destruct fuel as [|fuel]; [assert (Hl : length (print v) = 0%nat) by lia; destruct v as [|[]|t|raw|vs|ms]; cbn in Hl; try lia; apply length_zero_iff_nil in Hl as ->; pose proof (Hv 1%nat [] ltac:(unfold enough; cbn; lia) I) as HH; done|].
    cbn [scan_elements]. rewrite Hv by (unfold enough; lia || right; by left). cbn [mbind option_bind]. by rewrite token_char.
  - cbn [map] in *. rewrite commas_cons in *. rewrite length_app in Hf. cbn [length] in Hf. destruct fuel as [|fuel]; [lia|]. cbn [scan_elements]. rewrite <- app_assoc. cbn [app].
    rewrite Hv by (unfold enough; lia || by left). cbn [mbind option_bind]. rewrite !token_char by done. cbn [Z.eqb Pos.eqb mbind option_bind]. by rewrite IH by (done || lia).
Qed.

Lemma scan_members_print ms : Forall (fun m => raw_ok (fst m) /\ forall fuel rest, enough fuel (print (snd m)) -> delim rest -> scan_value fuel (print (snd m) ++ rest) = Some (snd m, rest)) ms -> ms <> [] ->
  forall fuel rest, let text := commas (map (fun '(k, v) => quote k ++ 58 :: print v) ms) in
  (2 * length text <= fuel)%nat -> scan_members fuel (text ++ 125 :: rest) = Some (ms, rest).
Proof.
  induction 1 as [|[k v] ms [Hk Hv] Hms IH]; [done|]. intros _ fuel rest text Hf. unfold text in *. clear text. cbn [fst snd] in *.
  assert (Hq : forall x, (quote k ++ 58 :: print v) ++ x = 34 :: k ++ 34 :: 58 :: print v ++ x) by (intros x; unfold quote; cbn; by rewrite <- !app_assoc).
  assert (Hl : length (quote k ++ 58 :: print v) = (3 + length k + length (print v))%nat) by (unfold quote; rewrite length_app; cbn [length]; rewrite length_app; cbn [length]; lia).
  destruct ms as [|m' ms].
  - cbn [map commas] in *. rewrite Hl in Hf. destruct fuel as [|fuel]; [lia|]. rewrite Hq. cbn [scan_members]. rewrite token_char by done. cbn [Z.eqb Pos.eqb mbind option_bind]. rewrite raw_scan by done.
    cbn [mbind option_bind]. rewrite token_char by done. cbn [Z.eqb Pos.eqb mbind option_bind]. rewrite Hv by (unfold enough; lia || right; by right). cbn [mbind option_bind]. by rewrite token_char.
  - cbn [map] in *. rewrite commas_cons in *. rewrite length_app, Hl in Hf. cbn [length] in Hf. destruct fuel as [|fuel]; [lia|]. rewrite <- app_assoc, Hq. cbn [app scan_members]. rewrite token_char by done.
    cbn [Z.eqb Pos.eqb mbind option_bind]. rewrite raw_scan by done. cbn [mbind option_bind]. rewrite token_char by done. cbn [Z.eqb Pos.eqb mbind option_bind]. rewrite Hv by (unfold enough; lia || by left).
    cbn [mbind option_bind]. rewrite !token_char by done. cbn [Z.eqb Pos.eqb mbind option_bind]. by rewrite IH by (done || lia).
Qed.

Lemma scan_print v : json_ok v -> forall fuel rest, enough fuel (print v) -> delim rest -> scan_value fuel (print v ++ rest) = Some (v, rest).
Proof.
  induction v as [|b|t|raw|vs IH|ms IH] using json_nested_ind; intros Hok fuel rest Hf Hd; (destruct fuel as [|fuel]; [exfalso; unfold enough in Hf; destruct (print_first _ Hok) as (c & r & Hp & _); rewrite Hp in Hf; cbn [length] in Hf; lia|]).
  - done.
  - by destruct b.
  - destruct (num_first t Hok) as (c & r & -> & Hc). cbn [print app scan_value]. assert (Hr : 45 <= c <= 57) by (destruct Hc as [-> |Hc]; [lia|apply digit_range in Hc; lia]). rewrite skip_ws_char by lia.
    destruct (Z.eqb_spec c 110); [lia|]. destruct (Z.eqb_spec c 116); [lia|]. destruct (Z.eqb_spec c 102); [lia|]. destruct (Z.eqb_spec c 34); [lia|]. destruct (Z.eqb_spec c 91); [lia|]. destruct (Z.eqb_spec c 123); [lia|].
    change (c :: r ++ rest) with ((c :: r) ++ rest). by rewrite (scan_number_local _ _ _ rest Hok Hd).
  - cbn [print quote app scan_value]. rewrite skip_ws_char by done. cbn [Z.eqb Pos.eqb]. rewrite <- app_assoc. cbn [app]. by rewrite raw_scan.
  - apply arr_ok in Hok. cbn [print app scan_value]. rewrite skip_ws_char by done. cbn [Z.eqb Pos.eqb]. rewrite <- app_assoc. cbn [app]. unfold enough in Hf. cbn [print length] in Hf. rewrite length_app in Hf. cbn [length] in Hf.
    destruct vs as [|v vs]; [done|]. assert (Ht : token 93 (commas (map print (v :: vs)) ++ 93 :: rest) = None).
    { apply Forall_cons in Hok as [Hv _]. destruct (print_first v Hv) as (c & r & Hp & Hc & Hn). assert (Hx : exists y, commas (map print (v :: vs)) ++ 93 :: rest = c :: y) by (cbn [map]; destruct (map print vs); [cbn [commas]|rewrite commas_cons]; rewrite Hp; by eexists).
      destruct Hx as [y ->]. rewrite token_char by done. by destruct (Z.eqb_spec c 93). }
    rewrite Ht. rewrite scan_elements_print; [done| |done|lia]. rewrite Forall_forall in IH, Hok. apply Forall_forall. intros x Hx. by apply IH, Hok.
  - apply obj_ok in Hok. cbn [print app scan_value]. rewrite skip_ws_char by done. cbn [Z.eqb Pos.eqb]. rewrite <- app_assoc. cbn [app]. unfold enough in Hf. cbn [print length] in Hf. rewrite length_app in Hf. cbn [length] in Hf.
    destruct ms as [|[k v] ms]; [done|]. set (text := commas _) in *. assert (Ht : token 125 (text ++ 125 :: rest) = None).
    { assert (Hx : exists y, text ++ 125 :: rest = 34 :: y) by (unfold text; cbn [map]; destruct (map _ ms); [cbn [commas]|rewrite commas_cons]; by eexists). destruct Hx as [y ->]. by rewrite token_char. }
    rewrite Ht. unfold text. rewrite scan_members_print; [done| |done|unfold text in Hf; lia]. rewrite Forall_forall in IH, Hok. apply Forall_forall. intros x Hx. split; [by apply Hok|]. apply IH; [done|by apply Hok].
Qed.

Lemma parse_print v : json_ok v -> parse (print v) = Some v.
Proof. intros H. unfold parse. pose proof (scan_print v H (2 * length (print v) + 1) [] ltac:(unfold enough; lia) I) as E. rewrite app_nil_r in E. by rewrite E. Qed.

(** ** Strings are read back *)

Fixpoint valid_loop (fuel : nat) (s : list Z) : bool :=
  match fuel, s with
  | _, [] => true
  | O, _ => false
  | S fuel, c :: r =>
      if c <? 128 then valid_loop fuel r
      else let '(_, size) := DecodeRune s in negb (size =? 1)%nat && valid_loop fuel (drop size s)
  end.
(** utf8.ValidString. *)
Definition ValidString (s : list Z) : bool := valid_loop (length s) s.

Lemma between_iff lo c hi : between lo c hi = true <-> lo <= c <= hi.
Proof. unfold between. rewrite andb_true_iff, !Z.leb_le. done. Qed.

(** A rune by the number of its bytes. *)
Lemma EncodeRune_cases r : 128 <= r <= 1114111 -> ~ 55296 <= r <= 57343 ->
  EncodeRune r = if r <=? 2047 then [192 + r / 64; 128 + r mod 64]
    else if r <=? 65535 then [224 + r / 4096; 128 + r / 64 mod 64; 128 + r mod 64]
    else [240 + r / 262144; 128 + r / 4096 mod 64; 128 + r / 64 mod 64; 128 + r mod 64].
Proof.
  intros H1 H2. unfold EncodeRune. assert (E : (r <? 0) || (1114111 <? r) || ((55296 <=? r) && (r <=? 57343)) = false).
  { apply orb_false_iff. split; [apply orb_false_iff; split; apply Z.ltb_ge; lia|]. apply andb_false_iff. rewrite !Z.leb_gt. lia. }
  rewrite E. destruct (Z.leb_spec r 127); [lia|done].
Qed.

Ltac rune_parts := cbn [take]; repeat f_equal; Z.to_euclidean_division_equations; lia.

Lemma rune_bytes s r n : DecodeRune s = (r, n) -> (exists c, head s = Some c /\ 128 <= c) ->
  n = 1%nat /\ r = RuneError \/ (2 <= n <= length s)%nat /\ EncodeRune r = take n s /\ Forall (fun c => 128 <= c) (take n s) /\ 128 <= r.
Proof.
  intros H (a & Ha & Ha128). destruct s as [|a' s]; [done|]. injection Ha as ->. unfold DecodeRune in H. destruct (Z.ltb_spec a 128); [lia|]. destruct (between 194 a 223) eqn:E2.
  { apply between_iff in E2. destruct s as [|b s]; [injection H as <- <-; by left|]. destruct (between 128 b 191) eqn:Eb; injection H as <- <-; [right|by left]. apply between_iff in Eb.
    split; [cbn [length]; lia|]. rewrite EncodeRune_cases by lia. destruct (Z.leb_spec ((a - 192) * 64 + (b - 128)) 2047); [|lia]. split_and!; [rune_parts|repeat constructor; lia|lia]. }
  destruct (between 224 a 239) eqn:E3.
  { apply between_iff in E3. destruct s as [|b [|c s]]; [injection H as <- <-; by left..|]. destruct (_ && _) eqn:Eb; injection H as <- <-; [right|by left]. apply andb_true_iff in Eb as [Eb Ec]. apply between_iff in Eb, Ec.
    assert (Hr : 2048 <= (a - 224) * 4096 + (b - 128) * 64 + (c - 128) <= 65535 /\ ~ 55296 <= (a - 224) * 4096 + (b - 128) * 64 + (c - 128) <= 57343) by (destruct (Z.eqb_spec a 224), (Z.eqb_spec a 237); lia).
    assert (Hbb : 128 <= b <= 191) by (destruct (Z.eqb_spec a 224), (Z.eqb_spec a 237); lia). clear Eb. split; [cbn [length]; lia|]. rewrite EncodeRune_cases by lia.
    destruct (Z.leb_spec ((a - 224) * 4096 + (b - 128) * 64 + (c - 128)) 2047); [lia|]. destruct (Z.leb_spec ((a - 224) * 4096 + (b - 128) * 64 + (c - 128)) 65535); [|lia].
    split_and!; [rune_parts|repeat constructor; lia|lia]. }
  destruct (between 240 a 244) eqn:E4; [|injection H as <- <-; by left]. apply between_iff in E4. destruct s as [|b [|c [|d s]]]; [injection H as <- <-; by left..|]. destruct (_ && _) eqn:Eb; injection H as <- <-; [right|by left].
  apply andb_true_iff in Eb as [Eb Ed]. apply andb_true_iff in Eb as [Eb Ec]. apply between_iff in Eb, Ec, Ed.
  assert (Hr : 65536 <= (a - 240) * 262144 + (b - 128) * 4096 + (c - 128) * 64 + (d - 128) <= 1114111) by (destruct (Z.eqb_spec a 240), (Z.eqb_spec a 244); lia).
  assert (Hbb : 128 <= b <= 191) by (destruct (Z.eqb_spec a 240), (Z.eqb_spec a 244); lia). clear Eb. split; [cbn [length]; lia|]. rewrite EncodeRune_cases by lia.
  destruct (Z.leb_spec ((a - 240) * 262144 + (b - 128) * 4096 + (c - 128) * 64 + (d - 128)) 2047); [lia|].
  destruct (Z.leb_spec ((a - 240) * 262144 + (b - 128) * 4096 + (c - 128) * 64 + (d - 128)) 65535); [lia|]. split_and!; [rune_parts|repeat constructor; lia|lia].
Qed.

(** The escape of a character, before any text. *)
Lemma ascii_cases (P : Z -> Prop) : (forall n, (n < 128)%nat -> P (Z.of_nat n)) -> forall c, 0 <= c < 128 -> P c.
Proof. intros H c Hc. rewrite <- (Z2Nat.id c) by lia. apply H. lia. Qed.

Lemma escape_char_scan c x t r : 0 <= c < 128 -> scan_string x = Some (t, r) -> scan_string (escape_char c ++ x) = Some (escape_char c ++ t, r).
Proof.
  intros Hc H. assert (E : scan_string (escape_char c ++ x) = '(t, r) ← scan_string x; Some (escape_char c ++ t, r)); [|by rewrite E, H].
  revert c Hc. apply ascii_cases. intros n Hn. do 128 (destruct n as [|n]; [reflexivity|]). lia.
Qed.
Lemma escape_char_unquote c x fuel : 0 <= c < 128 -> unquote_loop (S fuel) (escape_char c ++ x) = app [c] <$> unquote_loop fuel x.
Proof. intros Hc. revert c Hc. apply ascii_cases. intros n Hn. do 128 (destruct n as [|n]; [reflexivity|]). lia. Qed.

Lemma scan_high l x t r : Forall (fun c => 128 <= c) l -> scan_string x = Some (t, r) -> scan_string (l ++ x) = Some (l ++ t, r).
Proof.
  intros Hl H. induction Hl as [|c l Hc _ IH]; [done|]. cbn [app scan_string]. destruct (Z.eqb_spec c 34); [lia|]. destruct (Z.ltb_spec c 32); [lia|]. destruct (Z.eqb_spec c 92); [lia|]. by rewrite IH.
Qed.

Lemma escape_ok n : forall s x t r, bytes_ok s -> scan_string x = Some (t, r) -> scan_string (escape_loop n s ++ x) = Some (escape_loop n s ++ t, r).
Proof.
  induction n as [|n IH]; intros s x t r Hb H; [done|]. destruct s as [|c s]; [done|]. pose proof Hb as Hb'. apply Forall_cons in Hb' as [Hc Hs]. unfold byte_ok in Hc. cbn [escape_loop]. destruct (Z.ltb_spec c 128).
  - rewrite <- !app_assoc. apply escape_char_scan; [lia|]. by apply IH.
  - destruct (DecodeRune (c :: s)) as [rune size] eqn:E. destruct (_ && _); [cbn; by rewrite (IH s x t r)|]. assert (Hd : bytes_ok (drop size (c :: s))) by (by apply Forall_drop).
    destruct (rune =? 8232) eqn:E1; [apply Z.eqb_eq in E1 as ->; cbn; by rewrite (IH _ x t r)|]. destruct (rune =? 8233) eqn:E2; [apply Z.eqb_eq in E2 as ->; cbn; by rewrite (IH _ x t r)|]. cbn [orb].
    rewrite <- !app_assoc. apply scan_high; [|by apply IH]. destruct (rune_bytes _ _ _ E) as [[-> _]|(_ & _ & Hh & _)]; [by exists c|repeat constructor; lia|done].
Qed.

Lemma escape_raw s : bytes_ok s -> raw_ok (escape s).
Proof. intros H. unfold raw_ok, escape. rewrite (escape_ok (length s) s [34] [] []) by done. by rewrite app_nil_r. Qed.

Lemma unquote_rune raw fuel rune n c : DecodeRune raw = (rune, n) -> head raw = Some c -> 128 <= c -> (2 <= n)%nat ->
  unquote_loop (S fuel) raw = app (EncodeRune rune) <$> unquote_loop fuel (drop n raw).
Proof.
  intros E Hh Hc Hn. destruct raw as [|c' raw]; [done|]. injection Hh as ->. cbn [unquote_loop]. destruct (Z.eqb_spec c 92); [lia|]. destruct (Z.eqb_spec c 34); [lia|]. destruct (Z.ltb_spec c 32); [lia|]. cbn [orb].
  destruct (Z.ltb_spec c 128); [lia|]. by rewrite E.
Qed.

(** A rune is recognised whatever follows it. *)
Lemma DecodeRune_app s x rune n : DecodeRune s = (rune, n) -> (2 <= n)%nat -> DecodeRune (take n s ++ x) = (rune, n).
Proof.
  intros H Hn. destruct s as [|a s]; [injection H as <- <-; lia|]. unfold DecodeRune in *. destruct (a <? 128) eqn:E1; [injection H as <- <-; lia|]. destruct (between 194 a 223) eqn:E2.
  { destruct s as [|b s]; [injection H as <- <-; lia|]. destruct (between 128 b 191) eqn:Eb; injection H as <- <-; [|lia]. cbn [take app]. by rewrite E1, E2, Eb. }
  destruct (between 224 a 239) eqn:E3.
  { destruct s as [|b [|c s]]; try (injection H as <- <-; lia). destruct (_ && _) eqn:Eb; injection H as <- <-; [|lia]. cbn [take app]. by rewrite E1, E2, E3, Eb. }
  destruct (between 240 a 244) eqn:E4; [|injection H as <- <-; lia]. destruct s as [|b [|c [|d s]]]; try (injection H as <- <-; lia). destruct (_ && _) eqn:Eb; injection H as <- <-; [|lia]. cbn [take app]. by rewrite E1, E2, E3, E4, Eb.
Qed.

(** The two line separators that are escaped. *)
Lemma line_unquote r x fuel : r = 8232 \/ r = 8233 -> unquote_loop (S fuel) ([92; 117; 50; 48; 50; hexd (r mod 16)] ++ x) = app (EncodeRune r) <$> unquote_loop fuel x.
Proof. by intros [-> | ->]. Qed.

Lemma unquote_escape_loop n : forall s fuel, bytes_ok s -> valid_loop n s = true -> (length (escape_loop n s) <= fuel)%nat -> unquote_loop fuel (escape_loop n s) = Some s.
Proof.
  induction n as [|n IH]; intros s fuel Hb Hv Hf; [destruct s; [by destruct fuel|done]|]. destruct s as [|c s]; [by destruct fuel|]. pose proof Hb as Hb'. apply Forall_cons in Hb' as [Hc Hs]. unfold byte_ok in Hc.
  cbn [escape_loop valid_loop] in *. destruct (Z.ltb_spec c 128) as [Hlt|Hge].
  - assert (He : (1 <= length (escape_char c))%nat) by (unfold escape_char; repeat case_match; cbn [length]; lia). rewrite length_app in Hf. destruct fuel as [|fuel]; [lia|].
    rewrite escape_char_unquote by lia. rewrite IH by (done || lia). done.
  - destruct (DecodeRune (c :: s)) as [rune size] eqn:E. apply andb_true_iff in Hv as [Hn Hv]. apply negb_true_iff in Hn. rewrite Hn, andb_false_r in *. apply Nat.eqb_neq in Hn.
    destruct (rune_bytes _ _ _ E) as [[-> _]|(Hsz & He & Hh & Hr)]; [by exists c|done|]. assert (Hd : bytes_ok (drop size (c :: s))) by (by apply Forall_drop).
    assert (Hs' : take size (c :: s) ++ drop size (c :: s) = c :: s) by apply take_drop.
    destruct (rune =? 8232) eqn:E1; [|destruct (rune =? 8233) eqn:E2]; cbn [orb] in *.
    + apply Z.eqb_eq in E1 as ->. rewrite length_app in Hf. destruct fuel as [|fuel]; [cbn in Hf; lia|]. cbn [length] in Hf. rewrite line_unquote by auto. rewrite IH by (done || lia). cbn [fmap option_fmap option_map]. by rewrite He, Hs'.
    + apply Z.eqb_eq in E2 as ->. rewrite length_app in Hf. destruct fuel as [|fuel]; [cbn in Hf; lia|]. cbn [length] in Hf. rewrite line_unquote by auto. rewrite IH by (done || lia). cbn [fmap option_fmap option_map]. by rewrite He, Hs'.
    + rewrite length_app, length_take in Hf. destruct fuel as [|fuel]; [lia|]. rewrite (unquote_rune _ fuel rune size c).
      * rewrite drop_app_length' by (rewrite length_take; lia). rewrite IH by (done || lia). cbn [fmap option_fmap option_map]. by rewrite He, Hs'.
      * apply DecodeRune_app; [done|lia].
      * destruct size; [lia|done].
      * done.
      * lia.
Qed.

Lemma unquote_escape s : bytes_ok s -> ValidString s = true -> unquote (escape s) = Some s.
Proof. intros Hb Hv. by apply unquote_escape_loop. Qed.
