(* ===== verification/JsonTypes.v ===== *)
(** * encoding/json: Marshal and Unmarshal of Go types

    The types that the clients and core/types marshal, as a universe, with the
    rules of the library: null leaves a value alone or empties it, a value of
    the wrong kind is an error that is reported at the end, an error of an
    UnmarshalJSON method ends the decoding, members of objects are matched with
    the fields of a struct by name and then without case.  A slice that a
    repeated member decodes again starts from nil.  A map of names to any values
    is the object that was read; of repeated names the last one counts. *)

From stdpp Require Import list strings.
From S2P Require Import Prelude GoText Hexutil Json.

Inductive json_error : Type :=
| ErrJsonSyntax
| ErrJsonType
| ErrText (e : hx_error)
| ErrMissing (field : string)
| ErrJsonOther (e : nat).

(** A type with its own text: its methods, and the values that have a text. *)
Record text_codec (A : Type) : Type := Codec {
  c_zero : A; c_json : bool; c_un : A -> list Z -> A * option hx_error; c_text : A -> list Z; c_ok : A -> Prop }.
Arguments Codec {A}.
Arguments c_zero {A}.
Arguments c_json {A}.
Arguments c_un {A}.
Arguments c_text {A}.
Arguments c_ok {A}.

Inductive jval : Type :=
| JVStr (s : list Z)
| JVBool (b : bool)
| JVInt (n : Z)
| JVAny (j : option json)
| JVBytes (b : list Z)
| JVNum (n : Z)
| JVSlice (l : option (list jval))
| JVPtr (p : option jval)
| JVStruct (fields : list jval).

Inductive jtype : Type :=
| JTStr
| JTBool
| JTInt
| JTAny
| JTMap
| JTBytes (c : text_codec (list Z))
| JTNum (c : text_codec Z)
| JTSlice (t : jtype)
| JTPtr (t : jtype)
| JTStruct (fields : list (list Z * jtype))
| JTVia (t : jtype) (zero : jval) (pre : jval -> jval) (post : jval -> jval -> jval * option json_error).

Fixpoint zero_of (t : jtype) : jval :=
  match t with
  | JTStr => JVStr []
  | JTBool => JVBool false
  | JTInt => JVInt 0
  | JTAny | JTMap => JVAny None
  | JTBytes c => JVBytes (c_zero c)
  | JTNum c => JVNum (c_zero c)
  | JTSlice _ => JVSlice None
  | JTPtr _ => JVPtr None
  | JTStruct fs => JVStruct (map (fun f => zero_of (snd f)) fs)
  | JTVia _ z _ _ => z
  end.

(** ** Marshal *)

(** strconv.FormatInt and ParseInt in base 10. *)
Definition FormatInt (n : Z) : list Z := if n <? 0 then 45 :: FormatUint (- n) 10 else FormatUint n 10.
Definition ParseInt (s : list Z) : option Z :=
  let '(neg, ds) := match s with c :: r => if c =? 45 then (true, r) else if c =? 43 then (false, r) else (false, s) | [] => (false, s) end in
  match ParseUint ds 10 with
  | (un, None) => if neg then (if 2 ^ 63 <? un then None else Some (- un)) else if 2 ^ 63 <=? un then None else Some un
  | _ => None
  end.

Fixpoint jencode (t : jtype) (v : jval) {struct t} : json :=
  match t, v with
  | JTStr, JVStr s => JStr (escape s)
  | JTBool, JVBool b => JBool b
  | JTInt, JVInt n => JNum (FormatInt n)
  | JTAny, JVAny (Some j) => j
  | JTMap, JVAny (Some j) => j
  | JTBytes c, JVBytes b => JStr (escape (c_text c b))
  | JTNum c, JVNum n => JStr (escape (c_text c n))
  | JTSlice t, JVSlice (Some vs) => JArr (map (jencode t) vs)
  | JTPtr t, JVPtr (Some v) => jencode t v
  | JTStruct fs, JVStruct vs =>
      JObj ((fix go fs vs := match fs, vs with (name, t) :: fs, v :: vs => (escape name, jencode t v) :: go fs vs | _, _ => [] end) fs vs)
  | JTVia t _ pre _, v => jencode t (pre v)
  | _, _ => JNull
  end.
Definition json_Marshal (t : jtype) (v : jval) : list Z := print (jencode t v).

(** ** Unmarshal *)

(** Nothing wrong, an error that is remembered, an error that ends the decoding. *)
Inductive dstat : Type :=
| DOk
| DSaved (e : json_error)
| DFatal (e : json_error).
Definition fatal (st : dstat) : bool := match st with DFatal _ => true | _ => false end.
Definition after (st st' : dstat) : dstat :=
  match st, st' with
  | DFatal e, _ => DFatal e
  | _, DFatal e => DFatal e
  | DSaved e, _ => DSaved e
  | DOk, _ => st'
  end.

(** Names of fields without case: letters, and the two runes that fold to ASCII. *)
Fixpoint fold_name (s : list Z) : list Z :=
  match s with
  | [] => []
  | a :: s1 =>
      match s1 with
      | b :: s2 =>
          if (a =? 197) && (b =? 191) then 115 :: fold_name s2
          else match s2 with
               | c :: s3 => if (a =? 226) && (b =? 132) && (c =? 170) then 107 :: fold_name s3 else lower a :: fold_name s1
               | [] => lower a :: fold_name s1
               end
      | [] => [lower a]
      end
  end.
Fixpoint index_of (p : list Z -> bool) (names : list (list Z)) : option nat :=
  match names with [] => None | n :: names => if p n then Some O else S <$> index_of p names end.
Definition field_index (names : list (list Z)) (key : list Z) : option nat :=
  match index_of (fun n => bool_decide (n = key)) names with
  | Some i => Some i
  | None => index_of (fun n => bool_decide (fold_name n = fold_name key)) names
  end.

Definition text_result {A} (wrap : A -> jval) (r : A * option hx_error) : jval * dstat :=
  (wrap (fst r), match snd r with None => DOk | Some e => DFatal (ErrText e) end).
(** A type with UnmarshalJSON, or with UnmarshalText only. *)
Definition dec_text {A} (c : text_codec A) (wrap : A -> jval) (old : A) (j : json) : jval * dstat :=
  if c_json c then text_result wrap (c_un c old (print j))
  else match j with
       | JNull => (wrap old, DOk)
       | JStr raw => match unquote raw with Some s => text_result wrap (c_un c old s) | None => (wrap old, DFatal ErrJsonSyntax) end
       | _ => (wrap old, DSaved ErrJsonType)
       end.

Section loops.
  Context (dec : json -> jval * dstat).

Fixpoint dec_elements (vs : list json) (st : dstat) : list jval * dstat :=
  match vs with
  | [] => ([], st)
  | j :: vs =>
      let '(v, st1) := dec j in
      let st := after st st1 in
      if fatal st then ([v], st) else let '(l, st) := dec_elements vs st in (v :: l, st)
  end.
End loops.

Section members.
  Context (names : list (list Z)) (dec : list jval -> nat -> json -> list jval * dstat).

Fixpoint dec_members (ms : list (list Z * json)) (vals : list jval) (st : dstat) : list jval * dstat :=
  match ms with
  | [] => (vals, st)
  | (k, j) :: ms =>
      match unquote k with
      | None => (vals, DFatal ErrJsonSyntax)
      | Some key =>
          match field_index names key with
          | None => dec_members ms vals st
          | Some i =>
              let '(vals, st1) := dec vals i j in
              let st := after st st1 in
              if fatal st then (vals, st) else dec_members ms vals st
          end
      end
  end.
End members.

Fixpoint jdecode (t : jtype) (old : jval) (j : json) {struct t} : jval * dstat :=
  match t with
  | JTStr =>
      match j with
      | JNull => (old, DOk)
      | JStr raw => match unquote raw with Some s => (JVStr s, DOk) | None => (old, DFatal ErrJsonSyntax) end
      | _ => (old, DSaved ErrJsonType)
      end
  | JTBool => match j with JNull => (old, DOk) | JBool b => (JVBool b, DOk) | _ => (old, DSaved ErrJsonType) end
  | JTInt =>
      match j with
      | JNull => (old, DOk)
      | JNum text => match ParseInt text with Some n => (JVInt n, DOk) | None => (old, DSaved ErrJsonType) end
      | _ => (old, DSaved ErrJsonType)
      end
  | JTAny => match j with JNull => (JVAny None, DOk) | _ => (JVAny (Some j), DOk) end
  | JTMap =>
      match j with
      | JNull => (JVAny None, DOk)
      | JObj ms => (JVAny (Some (JObj (match old with JVAny (Some (JObj ms')) => ms' | _ => [] end ++ ms))), DOk)
      | _ => (old, DSaved ErrJsonType)
      end
  | JTBytes c => dec_text c JVBytes (match old with JVBytes b => b | _ => c_zero c end) j
  | JTNum c => dec_text c JVNum (match old with JVNum n => n | _ => c_zero c end) j
  | JTSlice t =>
      match j with
      | JNull => (JVSlice None, DOk)
      | JArr vs => let '(l, st) := dec_elements (jdecode t (zero_of t)) vs DOk in (JVSlice (Some l), st)
      | _ => (old, DSaved ErrJsonType)
      end
  | JTPtr t =>
      match j with
      | JNull => (JVPtr None, DOk)
      | _ => let '(v, st) := jdecode t (match old with JVPtr (Some v) => v | _ => zero_of t end) j in (JVPtr (Some v), st)
      end
  | JTStruct fs =>
      match j with
      | JNull => (old, DOk)
      | JObj ms =>
          let at_field := fix go (fs : list (list Z * jtype)) (vals : list jval) (i : nat) (j : json) {struct fs} : list jval * dstat :=
            match fs, vals, i with
            | (_, t) :: _, v :: vals, O => let '(v, st) := jdecode t v j in (v :: vals, st)
            | _ :: fs, v :: vals, S i => let '(vals, st) := go fs vals i j in (v :: vals, st)
            | _, _, _ => (vals, DOk)
            end in
          let '(vals, st) := dec_members (map fst fs) (at_field fs) ms (match old with JVStruct vals => vals | _ => [] end) DOk in
          (JVStruct vals, st)
      | _ => (old, DSaved ErrJsonType)
      end
  | JTVia t _ _ post =>
      match jdecode t (zero_of t) j with
      | (v, DOk) => let '(new, err) := post old v in (new, match err with None => DOk | Some e => DFatal e end)
      | (_, DSaved e) | (_, DFatal e) => (old, DFatal e)
      end
  end.

(** The value and the error; null leaves the target of the caller alone. *)
Definition json_Unmarshal (t : jtype) (text : list Z) : jval * option json_error :=
  match parse text with
  | None => (zero_of t, Some ErrJsonSyntax)
  | Some JNull => (zero_of t, None)
  | Some j => let '(v, st) := jdecode t (zero_of t) j in (v, match st with DOk => None | DSaved e | DFatal e => Some e end)
  end.

(** ** What is marshalled is unmarshalled *)

(** Characters that need no escape. *)
Definition plain (c : Z) : Prop := 32 <= c < 127 /\ c <> 34 /\ c <> 92 /\ c <> 60 /\ c <> 62 /\ c <> 38.

#[export] Instance plain_dec c : Decision (plain c).
Proof. unfold plain. apply _. Defined.

Lemma escape_plain_loop n s : Forall plain s -> (length s <= n)%nat -> escape_loop n s = s.
Proof.
  revert n. induction s as [|c s IH]; intros n Hp Hn; [by destruct n|]. destruct n as [|n]; [cbn in Hn; lia|]. apply Forall_cons in Hp as [Hc Hp]. unfold plain in Hc.
  cbn [escape_loop]. destruct (Z.ltb_spec c 128); [|lia]. assert (E : escape_char c = [c]); [|rewrite E, IH by (done || cbn in Hn; lia); done].
  unfold escape_char. rewrite !(proj2 (Z.eqb_neq _ _)) by lia. by rewrite (proj2 (Z.ltb_ge c 32)) by lia.
Qed.
Lemma escape_plain s : Forall plain s -> escape s = s.
Proof. intros H. by apply escape_plain_loop. Qed.
Lemma valid_plain s : Forall plain s -> ValidString s = true.
Proof.
  unfold ValidString. induction 1 as [|c s Hc _ IH]; [done|]. cbn [length valid_loop]. unfold plain in Hc. by destruct (Z.ltb_spec c 128); [|lia].
Qed.
Lemma bytes_plain s : Forall plain s -> bytes_ok s.
Proof. intros H. eapply Forall_impl; [exact H|]. unfold plain, byte_ok. lia. Qed.
Lemma unquote_plain s : Forall plain s -> unquote s = Some s.
Proof. intros H. rewrite <- (escape_plain s H) at 1. apply unquote_escape; [by apply bytes_plain|by apply valid_plain]. Qed.
Lemma raw_plain s : Forall plain s -> raw_ok s.
Proof. intros H. rewrite <- (escape_plain s H). by apply escape_raw, bytes_plain. Qed.

(** The text of a value is read as the value. *)
Definition codec_law {A} (c : text_codec A) : Prop :=
  forall v, c_ok c v -> Forall plain (c_text c v) /\ c_un c (c_zero c) (if c_json c then quote (c_text c v) else c_text c v) = (v, None).

Section type_induction.
  Context (P : jtype -> Prop).
  Context (Hstr : P JTStr) (Hbool : P JTBool) (Hint : P JTInt) (Hany : P JTAny) (Hmap : P JTMap) (Hbytes : forall c, P (JTBytes c)) (Hnum : forall c, P (JTNum c)).
  Context (Hslice : forall t, P t -> P (JTSlice t)) (Hptr : forall t, P t -> P (JTPtr t)) (Hstruct : forall fs, Forall (fun f => P (snd f)) fs -> P (JTStruct fs)).
  Context (Hvia : forall t z pre post, P t -> P (JTVia t z pre post)).

Fixpoint jtype_nested_ind (t : jtype) : P t :=
  match t with
  | JTStr => Hstr
  | JTBool => Hbool
  | JTInt => Hint
  | JTAny => Hany
  | JTMap => Hmap
  | JTBytes c => Hbytes c
  | JTNum c => Hnum c
  | JTSlice t => Hslice t (jtype_nested_ind t)
  | JTPtr t => Hptr t (jtype_nested_ind t)
  | JTStruct fs => Hstruct fs ((fix go fs := match fs return Forall (fun f => P (snd f)) fs with
      | [] => Forall_nil_2 (fun f => P (snd f)) | f :: fs => Forall_cons_2 (fun f => P (snd f)) f fs (jtype_nested_ind (snd f)) (go fs) end) fs)
  | JTVia t z pre post => Hvia t z pre post (jtype_nested_ind t)
  end.
End type_induction.

(** Types whose names are distinct and plain and whose texts are lawful. *)
Fixpoint jtype_ok (t : jtype) : Prop :=
  match t with
  | JTBytes c => codec_law c
  | JTNum c => codec_law c
  | JTSlice t | JTPtr t | JTVia t _ _ _ => jtype_ok t
  | JTStruct fs => NoDup (map fst fs) /\ (fix go fs := match fs with [] => True | (name, t) :: fs => (Forall plain name /\ jtype_ok t) /\ go fs end) fs
  | _ => True
  end.

(** The values of a type that a text can hold. *)
Fixpoint jval_ok (t : jtype) (v : jval) {struct t} : Prop :=
  match t, v with
  | JTStr, JVStr s => bytes_ok s /\ ValidString s = true
  | JTBool, JVBool _ => True
  | JTInt, JVInt n => - 2 ^ 63 <= n < 2 ^ 63
  | JTAny, JVAny o => match o with None => True | Some j => json_ok j /\ j <> JNull end
  | JTMap, JVAny o => match o with None => True | Some j => json_ok j /\ exists ms, j = JObj ms end
  | JTBytes c, JVBytes b => c_ok c b
  | JTNum c, JVNum n => c_ok c n
  | JTSlice t, JVSlice o => match o with None => True | Some vs => Forall (jval_ok t) vs end
  | JTPtr t, JVPtr o => match o with None => True | Some v => jval_ok t v /\ jencode t v <> JNull end
  | JTStruct fs, JVStruct vs => (fix go fs vs := match fs, vs with [], [] => True | (_, t) :: fs, v :: vs => jval_ok t v /\ go fs vs | _, _ => False end) fs vs
  | JTVia t z pre post, v => jval_ok t (pre v) /\ post z (pre v) = (v, None)
  | _, _ => False
  end.

Fixpoint enc_fields (fs : list (list Z * jtype)) (vs : list jval) : list (list Z * json) :=
  match fs, vs with (name, t) :: fs, v :: vs => (escape name, jencode t v) :: enc_fields fs vs | _, _ => [] end.
Fixpoint at_field (fs : list (list Z * jtype)) (vals : list jval) (i : nat) (j : json) {struct fs} : list jval * dstat :=
  match fs, vals, i with
  | (_, t) :: _, v :: vals, O => let '(v, st) := jdecode t v j in (v :: vals, st)
  | _ :: fs, v :: vals, S i => let '(vals, st) := at_field fs vals i j in (v :: vals, st)
  | _, _, _ => (vals, DOk)
  end.

Lemma encode_struct fs vs : jencode (JTStruct fs) (JVStruct vs) = JObj (enc_fields fs vs).
Proof. reflexivity. Qed.
Lemma decode_struct fs vals ms : jdecode (JTStruct fs) (JVStruct vals) (JObj ms) = let '(vals, st) := dec_members (map fst fs) (at_field fs) ms vals DOk in (JVStruct vals, st).
Proof. reflexivity. Qed.
Lemma struct_type fs : jtype_ok (JTStruct fs) <-> NoDup (map fst fs) /\ Forall (fun f => Forall plain (fst f) /\ jtype_ok (snd f)) fs.
Proof.
  cbn. split; intros [Hn H]; (split; [done|]); clear Hn; induction fs as [|[n t] fs IH]; [done| |done|].
  - destruct H as [H1 H2]. constructor; [done|by apply IH].
  - apply Forall_cons in H as [H1 H2]. split; [done|by apply IH].
Qed.
Lemma struct_val fs vs : jval_ok (JTStruct fs) (JVStruct vs) <-> Forall2 (fun f v => jval_ok (snd f) v) fs vs.
Proof.
  cbn. revert vs. induction fs as [|[n t] fs IH]; intros [|v vs]; split; intros H; try done; try by inversion H.
  - destruct H as [H1 H2]. constructor; [done|by apply IH].
  - inversion H; subst. split; [done|by apply IH].
Qed.

Lemma at_field_here fs1 n t fs2 vs1 old vs2 j v : length vs1 = length fs1 -> jdecode t old j = (v, DOk) ->
  at_field (fs1 ++ (n, t) :: fs2) (vs1 ++ old :: vs2) (length fs1) j = (vs1 ++ v :: vs2, DOk).
Proof.
  revert vs1. induction fs1 as [|[n' t'] fs1 IH]; intros vs1 Hl Hd; destruct vs1 as [|v1 vs1]; try done; cbn [length app at_field].
  - by rewrite Hd.
  - injection Hl as Hl. by rewrite IH.
Qed.

Lemma index_here names1 name names2 : NoDup (names1 ++ name :: names2) -> field_index (names1 ++ name :: names2) name = Some (length names1).
Proof.
  intros Hn. unfold field_index. assert (E : index_of (fun n => bool_decide (n = name)) (names1 ++ name :: names2) = Some (length names1)); [|by rewrite E].
  induction names1 as [|n names1 IH]; cbn [app index_of length]; [by rewrite bool_decide_true|]. apply NoDup_cons in Hn as [Hnin Hn].
  rewrite bool_decide_false by (intros ->; apply Hnin; apply elem_of_app; right; by left). by rewrite IH.
Qed.

Lemma dec_fields fs2 : forall fs1 vs1 vs2, length vs1 = length fs1 -> NoDup (map fst (fs1 ++ fs2)) -> Forall (fun f => Forall plain (fst f)) fs2 ->
  Forall2 (fun f v => jdecode (snd f) (zero_of (snd f)) (jencode (snd f) v) = (v, DOk)) fs2 vs2 ->
  dec_members (map fst (fs1 ++ fs2)) (at_field (fs1 ++ fs2)) (enc_fields fs2 vs2) (vs1 ++ map (fun f => zero_of (snd f)) fs2) DOk = (vs1 ++ vs2, DOk).
Proof.
  induction fs2 as [|[n t] fs2 IH]; intros fs1 vs1 vs2 Hl Hn Hp H2; inversion H2 as [|? v ? vs Hd Hds]; subst; [done|]. cbn [fst snd] in *. apply Forall_cons in Hp as [Hpn Hp]. cbn [enc_fields map dec_members snd].
  cbn [fst] in Hpn. rewrite escape_plain, unquote_plain by done. rewrite map_app in Hn |- *. cbn [map fst] in Hn |- *. rewrite index_here by done. rewrite length_map.
  rewrite (at_field_here fs1 n t fs2 vs1 (zero_of t) _ _ v) by done. cbn [after fatal].
  assert (E : vs1 ++ v :: map (fun f => zero_of (snd f)) fs2 = (vs1 ++ [v]) ++ map (fun f => zero_of (snd f)) fs2) by (by rewrite <- app_assoc). rewrite E.
  specialize (IH (fs1 ++ [(n, t)]) (vs1 ++ [v]) vs). rewrite <- !app_assoc in IH. cbn [app] in IH. rewrite map_app in IH. cbn [map fst] in IH. rewrite <- app_assoc. cbn [app]. apply IH; [by rewrite !length_app, Hl|done|done|done].
Qed.

Lemma dec_all t vs : Forall (fun v => jdecode t (zero_of t) (jencode t v) = (v, DOk)) vs -> dec_elements (jdecode t (zero_of t)) (map (jencode t) vs) DOk = (vs, DOk).
Proof. induction 1 as [|v vs Hv _ IH]; [done|]. cbn [map dec_elements]. rewrite Hv. cbn [after fatal]. by rewrite IH. Qed.

Lemma dec_text_encode {A} (c : text_codec A) wrap v : codec_law c -> c_ok c v -> dec_text c wrap (c_zero c) (JStr (escape (c_text c v))) = (wrap v, DOk).
Proof.
  intros Hc Hv. destruct (Hc v Hv) as [Hp Hu]. unfold dec_text. rewrite escape_plain by done. destruct (c_json c).
  - cbn [print]. unfold text_result. by rewrite Hu.
  - rewrite unquote_plain by done. unfold text_result. by rewrite Hu.
Qed.

Lemma digit_char_digit d : 0 <= d < 10 -> digit_char d = 48 + d /\ digit_byte (digit_char d) = true.
Proof. intros H. unfold digit_char. destruct (Z.ltb_spec d 10); [|lia]. split; [done|]. apply digit_range. lia. Qed.

Lemma span_all ds : digits_ok 10 ds -> span_digits (map digit_char ds) = (map digit_char ds, []).
Proof. induction 1 as [|d ds Hd _ IH]; [done|]. cbn [map span_digits]. destruct (digit_char_digit d Hd) as [_ ->]. by rewrite IH. Qed.

Lemma digits_num_int ds : digits_ok 10 ds -> canonical ds -> num_int (map digit_char ds) = Some (map digit_char ds, []).
Proof.
  intros Hd Hc. destruct ds as [|d ds]; [done|]. cbn [map num_int]. pose proof Hd as Hd'. apply Forall_cons in Hd' as [Hd0 _]. destruct (digit_char_digit d Hd0) as [E _]. destruct (Z.eqb_spec (digit_char d) 48) as [E0|].
  - assert (d = 0) as -> by lia. by destruct ds.
  - unfold digits1. change (digit_char d :: map digit_char ds) with (map digit_char (d :: ds)). by rewrite span_all.
Qed.

Lemma FormatUint_num u : 0 <= u -> num_ok (FormatUint u 10) /\ num_ok (45 :: FormatUint u 10).
Proof.
  intros Hu. destruct (FormatUint_spec 10 ltac:(lia) u Hu) as (ds & -> & Hd & Hc & _). unfold num_ok, scan_number. split.
  - assert (E : num_sign (map digit_char ds) = ([], map digit_char ds)).
    { destruct ds as [|d ds]; [done|]. cbn [map num_sign]. apply Forall_cons in Hd as [Hd _]. destruct (digit_char_digit d Hd) as [E _]. by destruct (Z.eqb_spec (digit_char d) 45); [lia|]. }
    rewrite E, digits_num_int by done. cbn. by rewrite app_nil_r.
  - cbn [num_sign Z.eqb Pos.eqb]. rewrite digits_num_int by done. cbn. by rewrite app_nil_r.
Qed.

Lemma FormatInt_num n : num_ok (FormatInt n).
Proof. unfold FormatInt. destruct (Z.ltb_spec n 0); apply FormatUint_num; lia. Qed.

Lemma ParseUint_FormatUint u : 0 <= u < 2 ^ 64 -> ParseUint (FormatUint u 10) 10 = (u, None).
Proof.
  intros Hu. destruct (FormatUint_spec 10 ltac:(lia) u ltac:(lia)) as (ds & E & Hd & Hc & Hv). apply ParseUint_ok; [lia|]. rewrite E. split; [by destruct ds|]. exists ds. split_and!; [|done|lia]. apply digits_of_char; [lia|done].
Qed.

Lemma ParseInt_FormatInt n : - 2 ^ 63 <= n < 2 ^ 63 -> ParseInt (FormatInt n) = Some n.
Proof.
  intros Hn. unfold ParseInt, FormatInt. destruct (Z.ltb_spec n 0).
  - cbn [Z.eqb Pos.eqb]. rewrite ParseUint_FormatUint by lia. destruct (Z.ltb_spec (2 ^ 63) (- n)); [lia|]. f_equal. lia.
  - destruct (FormatUint_spec 10 ltac:(lia) n ltac:(lia)) as (ds & E & Hd & Hc & Hv). destruct (FormatUint n 10) as [|c r] eqn:Ef; [by destruct ds|].
    destruct ds as [|d ds]; [done|]. apply Forall_cons in Hd as [Hd _]. cbn [map] in E. injection E as Ec _. destruct (digit_char_digit d Hd) as [Ed _]. destruct (Z.eqb_spec c 45); [lia|]. destruct (Z.eqb_spec c 43); [lia|].
    rewrite <- Ef, ParseUint_FormatUint by lia. by destruct (Z.leb_spec (2 ^ 63) n); [lia|].
Qed.

Lemma Forall2_weaken {A B} (P Q : A -> B -> Prop) l l' : Forall (fun a => forall b, P a b -> Q a b) l -> Forall2 P l l' -> Forall2 Q l l'.
Proof. intros H H2. induction H2 as [|a b l l' Hab _ IH]; [constructor|]. apply Forall_cons in H as [Ha H]. constructor; [by apply Ha|by apply IH]. Qed.

Lemma jdecode_jencode t : jtype_ok t -> forall v, jval_ok t v -> jdecode t (zero_of t) (jencode t v) = (v, DOk).
Proof.
  induction t as [| | | | |c|c|t IH|t IH|fs IH|t z pre post IH] using jtype_nested_ind; intros Ht v Hv.
  11: { cbn [jdecode jencode zero_of jval_ok] in *. destruct Hv as [Hv Hp]. rewrite IH by done. by rewrite Hp. }
  all: destruct v as [s|b|n|o|b|n|l|p|vs]; try done.
  - destruct Hv as [Hb Hs]. cbn [jdecode jencode]. by rewrite unquote_escape.
  - cbn [jdecode jencode]. by rewrite ParseInt_FormatInt.
  - destruct o as [j|]; [|done]. destruct Hv as [_ Hj]. cbn [jdecode jencode]. by destruct j.
  - destruct o as [j|]; [|done]. by destruct Hv as [_ [ms ->]].
  - cbn [jdecode jencode]. by apply dec_text_encode.
  - cbn [jdecode jencode]. by apply dec_text_encode.
  - destruct l as [l|]; [|done]. cbn [jdecode jencode]. rewrite dec_all; [done|]. cbn [jval_ok] in Hv. eapply Forall_impl; [exact Hv|]. intros v. by apply IH.
  - destruct p as [v|]; [|done]. destruct Hv as [Hv Hn]. cbn [jdecode jencode zero_of]. specialize (IH Ht v Hv). by destruct (jencode t v); try done; rewrite IH.
  - apply struct_type in Ht as [Hn Ht]. apply struct_val in Hv. rewrite encode_struct. cbn [zero_of]. rewrite decode_struct.
    pose proof (dec_fields fs [] [] vs eq_refl) as D. cbn [app] in D. rewrite D; [done|done|eapply Forall_impl; [exact Ht|]; by intros f [? _]|].
    eapply Forall2_weaken; [|exact Hv]. rewrite Forall_forall in IH, Ht. apply Forall_forall. intros f Hf v Hv'. apply IH; [done| |done]. by apply Ht.
Qed.

Lemma encode_ok t : jtype_ok t -> forall v, jval_ok t v -> json_ok (jencode t v).
Proof.
  induction t as [| | | | |c|c|t IH|t IH|fs IH|t z pre post IH] using jtype_nested_ind; intros Ht v Hv.
  11: { cbn [jencode jval_ok] in *. destruct Hv as [Hv _]. by apply IH. }
  all: destruct v as [s|b|n|o|b|n|l|p|vs]; try done.
  - destruct Hv as [Hb _]. by apply escape_raw.
  - apply FormatInt_num.
  - destruct o as [j|]; [|done]. by destruct Hv.
  - destruct o as [j|]; [|done]. by destruct Hv.
  - apply escape_raw, bytes_plain. by apply Ht.
  - apply escape_raw, bytes_plain. by apply Ht.
  - destruct l as [l|]; [|done]. cbn [jencode]. apply arr_ok, Forall_map. eapply Forall_impl; [exact Hv|]. intros v. by apply IH.
  - destruct p as [v|]; [|done]. destruct Hv as [Hv _]. by apply IH.
  - apply struct_type in Ht as [_ Ht]. apply struct_val in Hv. rewrite encode_struct. apply obj_ok. revert vs Hv. induction fs as [|[n t] fs IHf]; intros vs Hv; inversion Hv as [|? v ? vs' Hv1 Hv2]; subst; [constructor|].
    apply Forall_cons in IH as [IH1 IH2]. apply Forall_cons in Ht as [[Hp Ht1] Ht2]. cbn [enc_fields]. constructor; [|by apply IHf]. cbn [fst snd] in *. split; [by apply escape_raw, bytes_plain|by apply IH1].
Qed.

(** For every type of the universe with distinct plain names and lawful texts and
    every value that a text can hold, Unmarshal of the text of Marshal gives the
    value and no error. *)
Lemma json_marshal_roundtrip t v :
  jtype_ok t -> jval_ok t v -> jencode t v <> JNull -> json_Unmarshal t (json_Marshal t v) = (v, None) /\ parse (json_Marshal t v) = Some (jencode t v).
Proof.
  intros Ht Hv Hn. pose proof (parse_print _ (encode_ok t Ht v Hv)) as E. pose proof (jdecode_jencode t Ht v Hv) as D. unfold json_Unmarshal, json_Marshal. rewrite E. split; [|done]. by destruct (jencode t v); try done; rewrite D.
Qed.

(** Struct types by the names and types of their fields. *)
Lemma struct_ok fs : bool_decide (NoDup (map fst fs)) = true -> forallb (fun f => bool_decide (Forall plain (fst f))) fs = true -> Forall (fun f => jtype_ok (snd f)) fs -> jtype_ok (JTStruct fs).
Proof.
  intros Hn Hp Ht. apply struct_type. split; [by apply bool_decide_eq_true in Hn|]. apply Forall_forall. intros f Hf. rewrite Forall_forall in Ht. split; [|by apply Ht].
  rewrite forallb_forall in Hp. apply list_elem_of_In in Hf. specialize (Hp f Hf). by apply bool_decide_eq_true in Hp.
Qed.
