(* ===== verification/TypesJson.v ===== *)
(** * JSON of logs and transactions

    gen_log_json.go, gen_tx_json.go and the JSON methods of transaction.go of
    src/core/types, over the model of encoding/json.  The structs that the
    generated methods marshal from and unmarshal to are types of its universe. *)

From stdpp Require Import list strings.
From S2P Require Import Prelude RlpEncode RlpTypes RlpWriter Receipt Transaction.
From S2P Require Import GoText Hexutil Common Math Crypto Bloom Json JsonTypes.

(** ** Types with a text of their own *)

Definition hash_codec : text_codec (list Z) := Codec (zeros 32) true Hash_UnmarshalJSON Hash_MarshalText (fun b => bytes_ok b /\ length b = 32%nat).
Definition address_codec : text_codec (list Z) := Codec (zeros 20) true Address_UnmarshalJSON Address_MarshalText (fun b => bytes_ok b /\ length b = 20%nat).
Definition bytes_codec : text_codec (list Z) := Codec [] true Bytes_UnmarshalJSON Bytes_MarshalText bytes_ok.
Definition bloom_codec : text_codec (list Z) := Codec (zeros 256) false Bloom_UnmarshalText Bloom_MarshalText (fun b => bytes_ok b /\ length b = 256%nat).
Definition uint64_codec : text_codec Z := Codec 0 true Uint64_UnmarshalJSON Uint64_MarshalText u64_ok.

Section widths.
  Context (uintBits : Z) (wordNibbles : nat).

Definition uint_codec : text_codec Z := Codec 0 true (Uint_UnmarshalJSON uintBits) Uint_MarshalText (fun n => 0 <= n < 2 ^ uintBits).
Definition big_codec : text_codec Z := Codec 0 true (Big_UnmarshalJSON wordNibbles) Big_MarshalText (fun n => 0 <= n < 2 ^ 256).

(** ** gen_log_json.go *)

Definition log_enc_type : jtype := JTStruct
  [(str "address", JTBytes address_codec); (str "topics", JTSlice (JTBytes hash_codec)); (str "data", JTBytes bytes_codec);
   (str "blockNumber", JTNum uint64_codec); (str "transactionHash", JTBytes hash_codec); (str "transactionIndex", JTNum uint_codec);
   (str "blockHash", JTBytes hash_codec); (str "logIndex", JTNum uint_codec); (str "removed", JTBool)].
Definition log_dec_type : jtype := JTStruct
  [(str "address", JTPtr (JTBytes address_codec)); (str "topics", JTSlice (JTBytes hash_codec)); (str "data", JTPtr (JTBytes bytes_codec));
   (str "blockNumber", JTPtr (JTNum uint64_codec)); (str "transactionHash", JTPtr (JTBytes hash_codec)); (str "transactionIndex", JTPtr (JTNum uint_codec));
   (str "blockHash", JTPtr (JTBytes hash_codec)); (str "logIndex", JTPtr (JTNum uint_codec)); (str "removed", JTPtr JTBool)].

(** A log, and whether its topics are nil: JSON tells nil topics, null, from
    empty ones.  It does not for the data. *)
Record GoLog : Type := MkGoLog { gl_Log :> Log; gl_nil : bool }.
Definition gl_Topics (l : GoLog) : option (list (list Z)) := if gl_nil l then None else Some (log_Topics l).
Definition zero_go_log : GoLog := MkGoLog zero_log true.

Definition log_enc (l : GoLog) : jval := JVStruct
  [JVBytes (log_Address l); JVSlice (map JVBytes <$> gl_Topics l); JVBytes (log_Data l); JVNum (log_BlockNumber l); JVBytes (log_TxHash l);
   JVNum (log_TxIndex l); JVBytes (log_BlockHash l); JVNum (log_Index l); JVBool (log_Removed l)].
Definition Log_MarshalJSON (l : GoLog) : list Z := json_Marshal log_enc_type (log_enc l).

Definition bytes_of (v : jval) : list Z := match v with JVBytes b => b | _ => [] end.
Definition bytes_or (p : option jval) (old : list Z) : list Z := match p with Some v => bytes_of v | None => old end.
Definition num_or (p : option jval) (old : Z) : Z := match p with Some (JVNum n) => n | _ => old end.
Definition bool_or (p : option jval) (old : bool) : bool := match p with Some (JVBool b) => b | _ => old end.

(** The assignments after the decoding; a required field that is nil stops them. *)
Definition log_assign (l : GoLog) (dec : jval) : GoLog * option json_error :=
  match dec with
  | JVStruct [JVPtr address; JVSlice topics; JVPtr data; JVPtr number; JVPtr txHash; JVPtr txIndex; JVPtr blockHash; JVPtr index; JVPtr removed] =>
      match address with
      | None => (l, Some (ErrMissing "address"))
      | Some address =>
          let l := MkGoLog (MkLog (bytes_of address) (log_Topics l) (log_Data l) (log_BlockNumber l) (log_TxHash l) (log_TxIndex l) (log_BlockHash l) (log_Index l) (log_Removed l)) (gl_nil l) in
          match topics with
          | None => (l, Some (ErrMissing "topics"))
          | Some topics =>
              let l := MkGoLog (MkLog (log_Address l) (map bytes_of topics) (log_Data l) (log_BlockNumber l) (log_TxHash l) (log_TxIndex l) (log_BlockHash l) (log_Index l) (log_Removed l)) false in
              match data with
              | None => (l, Some (ErrMissing "data"))
              | Some data =>
                  (MkGoLog (MkLog (log_Address l) (log_Topics l) (bytes_of data) (num_or number (log_BlockNumber l)) (bytes_or txHash (log_TxHash l))
                     (num_or txIndex (log_TxIndex l)) (bytes_or blockHash (log_BlockHash l)) (num_or index (log_Index l)) (bool_or removed (log_Removed l))) false, None)
              end
          end
      end
  | _ => (l, Some ErrJsonType)
  end.
Definition Log_UnmarshalJSON (l : GoLog) (input : list Z) : GoLog * option json_error :=
  match json_Unmarshal log_dec_type input with
  | (dec, None) => log_assign l dec
  | (_, Some e) => (l, Some e)
  end.

(** ** gen_tx_json.go *)

Definition tx_enc_type : jtype := JTStruct
  [(str "randomid", JTNum uint64_codec); (str "gasPrice", JTPtr (JTNum big_codec)); (str "gas", JTNum uint64_codec); (str "to", JTPtr (JTBytes address_codec));
   (str "value", JTPtr (JTNum big_codec)); (str "input", JTBytes bytes_codec); (str "v", JTPtr (JTNum big_codec)); (str "r", JTPtr (JTNum big_codec));
   (str "s", JTPtr (JTNum big_codec)); (str "hash", JTPtr (JTBytes hash_codec))].
Definition tx_dec_type : jtype := JTStruct
  [(str "randomid", JTPtr (JTNum uint64_codec)); (str "gasPrice", JTPtr (JTNum big_codec)); (str "gas", JTPtr (JTNum uint64_codec)); (str "to", JTPtr (JTBytes address_codec));
   (str "value", JTPtr (JTNum big_codec)); (str "input", JTPtr (JTBytes bytes_codec)); (str "v", JTPtr (JTNum big_codec)); (str "r", JTPtr (JTNum big_codec));
   (str "s", JTPtr (JTNum big_codec)); (str "hash", JTPtr (JTBytes hash_codec))].

Definition tx_enc (t : txdata) : jval := JVStruct
  [JVNum (RandomId t); JVPtr (JVNum <$> Price t); JVNum (GasLimit t); JVPtr (JVBytes <$> Recipient t); JVPtr (JVNum <$> Amount t); JVBytes (Payload t);
   JVPtr (JVNum <$> tx_V t); JVPtr (JVNum <$> tx_R t); JVPtr (JVNum <$> tx_S t); JVPtr (JVBytes <$> tx_Hash t)].
Definition txdata_MarshalJSON (t : txdata) : list Z := json_Marshal tx_enc_type (tx_enc t).

Definition the_num (v : jval) : Z := match v with JVNum n => n | _ => 0 end.
Definition ptr_or (p : option jval) (old : option (list Z)) : option (list Z) := match p with Some v => Some (bytes_of v) | None => old end.

(** The checks in the order of the method; the target is changed as far as they go. *)
Definition tx_assign (t : txdata) (dec : jval) : txdata * option json_error :=
  match dec with
  | JVStruct [JVPtr id; JVPtr price; JVPtr gas; JVPtr to; JVPtr value; JVPtr input; JVPtr v; JVPtr r; JVPtr s; JVPtr hash] =>
      let set id price gas to amount input v r s hash :=
        Txdata id price gas (BlockLimit t) to amount input (ChainId t) (GroupId t) (ExtraData t) v r s hash in
      match id with None => (t, Some (ErrMissing "nonce")) | Some id => let id := the_num id in
      let t1 := set id (Price t) (GasLimit t) (Recipient t) (Amount t) (Payload t) (tx_V t) (tx_R t) (tx_S t) (tx_Hash t) in
      match price with None => (t1, Some (ErrMissing "gasPrice")) | Some price => let price := Some (the_num price) in
      let t2 := set id price (GasLimit t) (Recipient t) (Amount t) (Payload t) (tx_V t) (tx_R t) (tx_S t) (tx_Hash t) in
      match gas with None => (t2, Some (ErrMissing "gas")) | Some gas => let gas := the_num gas in let to := ptr_or to (Recipient t) in
      let t3 := set id price gas to (Amount t) (Payload t) (tx_V t) (tx_R t) (tx_S t) (tx_Hash t) in
      match value with None => (t3, Some (ErrMissing "value")) | Some value => let value := Some (the_num value) in
      let t4 := set id price gas to value (Payload t) (tx_V t) (tx_R t) (tx_S t) (tx_Hash t) in
      match input with None => (t4, Some (ErrMissing "input")) | Some input => let input := bytes_of input in
      let t5 := set id price gas to value input (tx_V t) (tx_R t) (tx_S t) (tx_Hash t) in
      match v with None => (t5, Some (ErrMissing "v")) | Some v => let v := Some (the_num v) in
      let t6 := set id price gas to value input v (tx_R t) (tx_S t) (tx_Hash t) in
      match r with None => (t6, Some (ErrMissing "r")) | Some r => let r := Some (the_num r) in
      let t7 := set id price gas to value input v r (tx_S t) (tx_Hash t) in
      match s with None => (t7, Some (ErrMissing "s")) | Some s =>
      (set id price gas to value input v r (Some (the_num s)) (ptr_or hash (tx_Hash t)), None)
      end end end end end end end end
  | _ => (t, Some ErrJsonType)
  end.
Definition txdata_UnmarshalJSON (t : txdata) (input : list Z) : txdata * option json_error :=
  match json_Unmarshal tx_dec_type input with
  | (dec, None) => tx_assign t dec
  | (_, Some e) => (t, Some e)
  end.

(** ** transaction.go *)

Inductive txjson_error : Type :=
| ErrTxJson (e : json_error)
| ErrTxSig.

Definition zero_txdata : txdata := Txdata 0 None 0 0 None None [] None None [] None None None None.

(** The text, and the transaction with its hash cached. *)
Definition Transaction_MarshalJSON (Keccak256 : list Z -> list Z) (eb : encbuf) (tx : Transaction) : option (list Z * Transaction) :=
  '(hash, tx) ← Transaction_Hash Keccak256 eb tx;
  let d := data tx in
  Some (txdata_MarshalJSON (Txdata (RandomId d) (Price d) (GasLimit d) (BlockLimit d) (Recipient d) (Amount d) (Payload d) (ChainId d) (GroupId d) (ExtraData d)
          (tx_V d) (tx_R d) (tx_S d) (Some hash)), tx).

(** The byte V that is validated. *)
Definition json_sig_V (v : Z) : Z :=
  if isProtectedV v then u8 (u64 (u64 (Z.abs v) - 35 - 2 * u64 (Z.abs (deriveChainId v)))) else u8 (u64 (Z.abs v) - 27).
Definition Transaction_UnmarshalJSON (tx : Transaction) (input : list Z) : outcome txjson_error Transaction :=
  match txdata_UnmarshalJSON zero_txdata input with
  | (_, Some e) => Err (ErrTxJson e)
  | (dec, None) =>
      let? (v, r, s) := of_option (sig_values dec) in
      if (negb (v =? 0) || negb (r =? 0) || negb (s =? 0)) && negb (ValidateSignatureValues (json_sig_V v) r s false) then Err ErrTxSig
      else Ok (Tx dec None None None)
  end.
End widths.

(** ** The texts of the hexutil types *)

Lemma hex_digit_plain d : 0 <= d < 16 -> plain (digit_char d).
Proof. intros H. unfold plain, digit_char. destruct (Z.ltb_spec d 10); lia. Qed.
Lemma prefix_plain s : Forall plain s -> Forall plain (str "0x" ++ s).
Proof. intros H. apply Forall_app. split; [apply (bool_decide_unpack _); vm_compute; exact I|done]. Qed.
Lemma Encode_plain b : bytes_ok b -> Forall plain (Bytes_MarshalText b).
Proof.
  intros Hb. change (Bytes_MarshalText b) with (Hexutil.Encode b). rewrite Encode_eq. apply prefix_plain. eapply Forall_impl; [by apply hex_Encode_chars|]. unfold plain. cbn. lia.
Qed.
Lemma Format_plain n : 0 <= n -> Forall plain (FormatUint n 16).
Proof.
  intros Hn. destruct (FormatUint_spec 16 ltac:(lia) n Hn) as (ds & -> & Hd & _). apply Forall_map. eapply Forall_impl; [exact Hd|]. intros d Hd'. by apply hex_digit_plain.
Qed.


(** Every text codec is lawful; [w] is the width of uint and [k] the nibbles of a big word. *)
Lemma texts k w typ b out n x y : (0 < k)%nat -> 0 <= w <= 64 -> bytes_ok b -> length out = length b -> u64_ok n -> 0 <= x < 2 ^ w -> 0 <= y < 2 ^ 256 ->
  Bytes_UnmarshalJSON [] (quote (Bytes_MarshalText b)) = (b, None) /\ UnmarshalFixedJSON typ (quote (Bytes_MarshalText b)) out = (b, None) /\
  Uint64_UnmarshalJSON 0 (quote (Uint64_MarshalText n)) = (n, None) /\ Uint_UnmarshalJSON w 0 (quote (Uint_MarshalText x)) = (x, None) /\
  Big_UnmarshalJSON k 0 (quote (Big_MarshalText y)) = (y, None).
Proof. intros. by apply hexutil_json_roundtrip. Qed.

Lemma pow2_pos w : 0 <= w -> 0 <= 0 < 2 ^ w.
Proof. intros H. pose proof (Z.pow_pos_nonneg 2 w). lia. Qed.

Lemma bytes_law : codec_law bytes_codec.
Proof. intros b Hb. split; [by apply Encode_plain|]. cbn. by destruct (texts 1 0 EmptyString b b 0 0 0 ltac:(lia) ltac:(lia) Hb eq_refl ltac:(done) ltac:(done) ltac:(done)) as (H & _). Qed.
Lemma fixed_text_law typ b n : bytes_ok b /\ length b = n -> UnmarshalFixedJSON typ (quote (Bytes_MarshalText b)) (zeros (Z.of_nat n)) = (b, None).
Proof.
  intros [Hb Hl]. destruct (texts 1 0 typ b (zeros (Z.of_nat n)) 0 0 0 ltac:(lia) ltac:(lia) Hb) as (_ & H & _); try done. unfold zeros. rewrite length_replicate. lia.
Qed.
Lemma hash_law : codec_law hash_codec.
Proof. intros b Hb. split; [apply Encode_plain, Hb|]. by apply (fixed_text_law "common.Hash" b 32). Qed.
Lemma address_law : codec_law address_codec.
Proof. intros b Hb. split; [apply Encode_plain, Hb|]. by apply (fixed_text_law "common.Address" b 20). Qed.
Lemma bloom_law : codec_law bloom_codec.
Proof.
  intros b [Hb Hl]. split; [by apply Encode_plain|]. cbn [bloom_codec c_un c_json c_text c_zero]. unfold Bloom_UnmarshalText. apply UnmarshalFixedText_iff.
  split; [rewrite Hl; unfold zeros; by rewrite length_replicate|]. right. split; [done|]. change (Bloom_MarshalText b) with (Hexutil.Encode b). by apply lower_Encode.
Qed.
Lemma uint64_law : codec_law uint64_codec.
Proof.
  intros n Hn. cbn [uint64_codec c_ok] in Hn. split; [apply prefix_plain, Format_plain; unfold u64_ok in Hn; lia|]. by destruct (texts 1 0 EmptyString [] [] n 0 0 ltac:(lia) ltac:(lia) (Forall_nil_2 _) eq_refl Hn ltac:(done) ltac:(done)) as (_ & _ & H & _).
Qed.

Section laws.
  Context (w : Z) (k : nat) (Hw : 0 <= w <= 64) (Hk : (0 < k)%nat).

Lemma uint_law : codec_law (uint_codec w).
Proof using Hw.
  clear Hk. intros n Hn. cbn in Hn. split; [apply prefix_plain, Format_plain; lia|]. destruct (texts 1 w EmptyString [] [] 0 n 0 ltac:(lia) Hw (Forall_nil_2 _) eq_refl ltac:(done) Hn ltac:(done)) as (_ & _ & _ & H & _). done.
Qed.
Lemma big_law : codec_law (big_codec k).
Proof using Hk.
  clear Hw. intros n Hn. cbn [big_codec c_ok] in Hn. split; [cbn [big_codec c_text]; unfold Big_MarshalText; rewrite EncodeBig_eq by lia; apply prefix_plain, Format_plain; lia|].
  destruct (texts k 0 EmptyString [] [] 0 0 n Hk ltac:(lia) (Forall_nil_2 _) eq_refl ltac:(done) ltac:(done) Hn) as (_ & _ & _ & _ & H). done.
Qed.

Lemma log_dec_type_ok : jtype_ok (log_dec_type w).
Proof using Hw.
  apply struct_ok; [vm_compute; reflexivity..|]. pose proof bytes_law. pose proof hash_law. pose proof address_law. pose proof uint64_law. pose proof uint_law. repeat (apply Forall_cons_2; [done|]). apply Forall_nil_2.
Qed.
Lemma tx_dec_type_ok : jtype_ok (tx_dec_type k).
Proof using Hk.
  apply struct_ok; [vm_compute; reflexivity..|]. pose proof bytes_law. pose proof hash_law. pose proof address_law. pose proof uint64_law. pose proof big_law. repeat (apply Forall_cons_2; [done|]). apply Forall_nil_2.
Qed.
End laws.

(** ** Logs *)

Section log_json.
  Context (w : Z) (Hw : 0 <= w <= 64).

(** A log whose derived fields fit their types. *)
Definition log_full (l : Log) : Prop :=
  log_ok l /\ u64_ok (log_BlockNumber l) /\ (bytes_ok (log_TxHash l) /\ length (log_TxHash l) = 32%nat) /\ 0 <= log_TxIndex l < 2 ^ w /\
  (bytes_ok (log_BlockHash l) /\ length (log_BlockHash l) = 32%nat) /\ 0 <= log_Index l < 2 ^ w.

Definition log_ptrs (l : GoLog) : jval := JVStruct
  [JVPtr (Some (JVBytes (log_Address l))); JVSlice (map JVBytes <$> gl_Topics l); JVPtr (Some (JVBytes (log_Data l)));
   JVPtr (Some (JVNum (log_BlockNumber l))); JVPtr (Some (JVBytes (log_TxHash l))); JVPtr (Some (JVNum (log_TxIndex l)));
   JVPtr (Some (JVBytes (log_BlockHash l))); JVPtr (Some (JVNum (log_Index l))); JVPtr (Some (JVBool (log_Removed l)))].

Lemma log_ptrs_ok (l : GoLog) : log_full l -> jval_ok (log_dec_type w) (log_ptrs l).
Proof.
  intros ([[Ha1 Ha2] [Ht Hd]] & Hn & Hth & Hti & Hbh & Hi). apply struct_val. repeat (apply Forall2_cons_2; [|]); try apply Forall2_nil_2; cbn [snd jval_ok]; try (by split).
  unfold gl_Topics. destruct (gl_nil l); [done|]. apply Forall_map. eapply Forall_impl; [exact Ht|]. intros t [H1 H2]. by split.
Qed.

Lemma log_roundtrip (l : GoLog) : log_full l -> json_Unmarshal (log_dec_type w) (Log_MarshalJSON w l) = (log_ptrs l, None).
Proof. intros Hl. by destruct (json_marshal_roundtrip (log_dec_type w) (log_ptrs l) (log_dec_type_ok w Hw) (log_ptrs_ok l Hl)) as [H _]. Qed.

Lemma log_assign_ptrs l0 l : gl_nil l = false -> log_assign l0 (log_ptrs l) = (l, None).
Proof. destruct l as [[] nil]. cbn. intros ->. cbn. rewrite map_map. cbn. by rewrite map_id. Qed.
End log_json.

(** The log with another address. *)
Definition with_address (l : GoLog) (a : list Z) : GoLog :=
  MkGoLog (MkLog a (log_Topics l) (log_Data l) (log_BlockNumber l) (log_TxHash l) (log_TxIndex l) (log_BlockHash l) (log_Index l) (log_Removed l)) (gl_nil l).

(** C26: Logs whose topics are not nil survive their JSON.  The text that
    MarshalJSON makes of such a log is read by UnmarshalJSON as the log, whatever
    the target held; for a log with nil topics, which MarshalJSON writes as null,
    UnmarshalJSON sets the address of the target and reports that the topics are
    missing.  A text that is read without error has an address, topics and data. *)
Theorem log_json_roundtrip w (l0 l : GoLog) text :
  0 <= w <= 64 -> log_full w l ->
  Log_UnmarshalJSON w l0 (Log_MarshalJSON w l) =
    (if gl_nil l then (with_address l0 (log_Address l), Some (ErrMissing "topics")) else (l, None)) /\
  (snd (Log_UnmarshalJSON w l0 text) = None ->
     exists a ts d rest, fst (json_Unmarshal (log_dec_type w) text) = JVStruct (JVPtr (Some a) :: JVSlice (Some ts) :: JVPtr (Some d) :: rest)).
Proof.
  intros Hw Hl. split.
  - unfold Log_UnmarshalJSON. rewrite log_roundtrip by done. destruct (gl_nil l) eqn:En; [|by apply log_assign_ptrs]. unfold log_ptrs, gl_Topics. by rewrite En.
  - unfold Log_UnmarshalJSON. destruct (json_Unmarshal (log_dec_type w) text) as [dec [e|]]; [done|]. cbn [fst]. intros H. unfold log_assign in H.
    destruct dec as [| | | | | | | |vs]; try done. do 9 (destruct vs as [|[] vs]; try done). destruct vs; [|done]. destruct p as [a|]; [|done]. destruct l1 as [ts|]; [|done]. destruct p0 as [d|]; [|done]. by eexists a, ts, d, _.
Qed.

Lemma log_json_roundtrip_witness : Log_UnmarshalJSON 64 zero_go_log (Log_MarshalJSON 64 (MkGoLog sample_log false)) = (MkGoLog sample_log false, None) /\
  snd (Log_UnmarshalJSON 64 zero_go_log (Log_MarshalJSON 64 zero_go_log)) = Some (ErrMissing "topics").
Proof.
  assert (F : log_full 64 sample_log /\ log_full 64 zero_log).
  { split; unfold log_full, log_ok, u64_ok; cbn [sample_log zero_log log_Address log_Topics log_Data log_BlockNumber log_TxHash log_TxIndex log_BlockHash log_Index];
      split_and!; first [lia | reflexivity | apply (bool_decide_unpack _); vm_compute; exact I]. }
  split; [exact (proj1 (log_json_roundtrip 64 zero_go_log (MkGoLog sample_log false) [] ltac:(lia) (proj1 F)))|]. by rewrite (proj1 (log_json_roundtrip 64 zero_go_log zero_go_log [] ltac:(lia) (proj2 F))).
Defined.

(** ** Transactions *)

(** What the JSON methods keep of a transaction: not BlockLimit, ChainId, GroupId and ExtraData. *)
Definition json_kept (d : txdata) (hash : list Z) : txdata :=
  Txdata (RandomId d) (Price d) (GasLimit d) 0 (Recipient d) (Amount d) (Payload d) None None [] (tx_V d) (tx_R d) (tx_S d) (Some hash).

Definition word_ok (o : option Z) : Prop := exists n, o = Some n /\ 0 <= n < 2 ^ 256.
Record json_tx_ok (d : txdata) : Prop := {
  jt_data : txdata_ok d; jt_price : word_ok (Price d); jt_amount : word_ok (Amount d); jt_v : word_ok (tx_V d); jt_r : word_ok (tx_R d); jt_s : word_ok (tx_S d) }.

Section tx_json.
  Context (k : nat) (Hk : (0 < k)%nat).

Definition tx_ptrs (d : txdata) (hash : list Z) : jval := JVStruct
  [JVPtr (Some (JVNum (RandomId d))); JVPtr (JVNum <$> Price d); JVPtr (Some (JVNum (GasLimit d))); JVPtr (JVBytes <$> Recipient d); JVPtr (JVNum <$> Amount d);
   JVPtr (Some (JVBytes (Payload d))); JVPtr (JVNum <$> tx_V d); JVPtr (JVNum <$> tx_R d); JVPtr (JVNum <$> tx_S d); JVPtr (Some (JVBytes hash))].

Lemma word_val o : word_ok o -> jval_ok (JTPtr (JTNum (big_codec k))) (JVPtr (JVNum <$> o)).
Proof. intros (n & -> & Hn). by split. Qed.

Lemma tx_ptrs_ok d hash : json_tx_ok d -> bytes_ok hash -> length hash = 32%nat -> jval_ok (tx_dec_type k) (tx_ptrs d hash).
Proof.
  intros [[H1 H2 H3 H4 H5 H6 H7 H8 H9 H10 H11 H12 H13] Hp Ha Hv Hr Hs] Hb Hl. apply struct_val. repeat (apply Forall2_cons_2; [cbn [snd]|]); try apply Forall2_nil_2; try (by apply word_val); try (by split).
  destruct (Recipient d) as [a|]; [|done]. destruct (H5 a eq_refl) as [H51 H52]. by split.
Qed.

Lemma tx_roundtrip d hash : json_tx_ok d -> bytes_ok hash -> length hash = 32%nat ->
  txdata_UnmarshalJSON k zero_txdata (txdata_MarshalJSON k (Txdata (RandomId d) (Price d) (GasLimit d) (BlockLimit d) (Recipient d) (Amount d) (Payload d) (ChainId d) (GroupId d) (ExtraData d)
    (tx_V d) (tx_R d) (tx_S d) (Some hash))) = (json_kept d hash, None).
Proof.
  intros Hd Hb Hl. unfold txdata_UnmarshalJSON. pose proof (json_marshal_roundtrip (tx_dec_type k) (tx_ptrs d hash) (tx_dec_type_ok k Hk) (tx_ptrs_ok d hash Hd Hb Hl) ltac:(done)) as [E _].
  pose proof Hd as [_ (p & Ep & _) (a & Ea & _) (v & Ev & _) (r & Er & _) (s & Es & _)].
  change (txdata_MarshalJSON k _) with (json_Marshal (tx_enc_type k) (tx_enc (Txdata (RandomId d) (Price d) (GasLimit d) (BlockLimit d) (Recipient d) (Amount d) (Payload d) (ChainId d) (GroupId d) (ExtraData d) (tx_V d) (tx_R d) (tx_S d) (Some hash)))).
  unfold json_Marshal in *. assert (Ee : jencode (tx_enc_type k) (tx_enc (Txdata (RandomId d) (Price d) (GasLimit d) (BlockLimit d) (Recipient d) (Amount d) (Payload d) (ChainId d) (GroupId d) (ExtraData d) (tx_V d) (tx_R d) (tx_S d) (Some hash))) = jencode (tx_dec_type k) (tx_ptrs d hash)) by reflexivity.
  rewrite Ee, E. unfold tx_ptrs, json_kept. rewrite Ep, Ea, Ev, Er, Es. cbn. by destruct (Recipient d).
Qed.
End tx_json.

(** The JSON of a transaction loses its chain data.  The text that MarshalJSON
    makes of a transaction is refused by UnmarshalJSON when it has a signature
    that does not validate; otherwise the new transaction has the fields that
    Ethereum knows, the hash of the original, and block limit 0, no chain id, no
    group id and no extra data whatever the original had. *)
Theorem transaction_json_loses_chain_data k Keccak256 eb tx tx0 hash tx' v r s :
  (0 < k)%nat -> json_tx_ok (data tx) -> Transaction_Hash Keccak256 eb tx = Some (hash, tx') -> bytes_ok hash -> length hash = 32%nat ->
  sig_values (data tx) = Some (v, r, s) ->
  exists text, Transaction_MarshalJSON k Keccak256 eb tx = Some (text, tx') /\
  Transaction_UnmarshalJSON k tx0 text =
    if (negb (v =? 0) || negb (r =? 0) || negb (s =? 0)) && negb (ValidateSignatureValues (json_sig_V v) r s false) then Err ErrTxSig
    else Ok (Tx (json_kept (data tx) hash) None None None).
Proof.
  intros Hk Hd Hh Hb Hl Hs. assert (Et : data tx' = data tx) by (unfold Transaction_Hash in Hh; destruct (hash_cache tx); [by injection Hh as _ <-|destruct (rlpHash _ _ _); [by injection Hh as _ <-|done]]).
  eexists. split; [unfold Transaction_MarshalJSON; rewrite Hh; cbn [mbind option_bind]; rewrite Et; reflexivity|]. unfold Transaction_UnmarshalJSON. rewrite tx_roundtrip by done.
  unfold sig_values in *. cbn [json_kept tx_V tx_R tx_S]. destruct (tx_V (data tx)), (tx_R (data tx)), (tx_S (data tx)); try done. cbn [mbind option_bind] in *. injection Hs as -> -> ->. cbn [of_option obind]. by destruct (_ && _).
Qed.

Definition chain_tx : Transaction := Tx (Txdata 1 (Some 5) 9 500 (Some (zeros 20)) (Some 0) [1; 2] (Some 1) (Some 2) [7] (Some 0) (Some 0) (Some 0) None) (Some (zeros 32)) None None.

Lemma transaction_json_loses_chain_data_witness : exists text, Transaction_MarshalJSON 16 (fun _ => zeros 32) (Encbuf [] [] 0 (zeros 9)) chain_tx = Some (text, chain_tx) /\
  Transaction_UnmarshalJSON 16 chain_tx text = Ok (Tx (json_kept (data chain_tx) (zeros 32)) None None None).
Proof.
  apply (transaction_json_loses_chain_data 16 (fun _ => zeros 32) (Encbuf [] [] 0 (zeros 9)) chain_tx chain_tx (zeros 32) chain_tx 0 0 0); try done; try lia.
  - split; [|eexists; split; [reflexivity|lia]..]. split; cbn; unfold u64_ok, nonneg; cbn; try lia; try (apply (bool_decide_unpack _); vm_compute; exact I). intros a [= <-]. split; [done|by apply Forall_replicate].
  - by apply Forall_replicate.
Defined.
