(* ===== verification/Calls.v ===== *)
(** * The typed calls of the clients

    channel.go and rpcclient.go of src/client, the results of block.go and
    receipt.go of src/core/types, and CallContext of src/rpc/client.go.  What
    came back for a request, the result of sendRPC or of the wait for the
    response, is an argument: a [Node] answers a method and its parameters.
    Contexts and tickers are the number of rounds that are waited. *)

From stdpp Require Import list strings.
From S2P Require Import Prelude ClientMessage ClientChannel RlpSpec RlpEncode RlpTypes RlpStream RlpWriter RlpDecoder RlpRoundtrip Receipt Transaction.
From S2P Require Import GoText Hexutil Math Common Crypto Bloom Json JsonTypes TypesJson.

(** ** The results *)

Definition client_version_type : jtype := JTStruct
  [(str "Build Time", JTStr); (str "Build Type", JTStr); (str "Chain Id", JTStr); (str "FISCO-BCOS Version", JTStr); (str "Git Branch", JTStr);
   (str "Git Commit Hash", JTStr); (str "Supported Version", JTStr)].
Definition tx_by_hash_type : jtype := JTStruct
  [(str "blockHash", JTStr); (str "blockNumber", JTStr); (str "from", JTStr); (str "gas", JTStr); (str "gasPrice", JTStr); (str "hash", JTStr); (str "input", JTStr);
   (str "nonce", JTStr); (str "to", JTStr); (str "transactionIndex", JTStr); (str "value", JTStr)].
Definition block_tx_type : jtype := tx_by_hash_type.
Definition block_type : jtype := JTStruct
  [(str "dbHash", JTStr); (str "extraData", JTSlice JTAny); (str "gasLimit", JTStr); (str "gasUsed", JTStr); (str "hash", JTStr); (str "logsBloom", JTStr);
   (str "number", JTStr); (str "parentHash", JTStr); (str "receiptsRoot", JTStr); (str "sealer", JTStr); (str "sealerList", JTSlice JTStr); (str "stateRoot", JTStr);
   (str "timestamp", JTStr); (str "transactions", JTSlice block_tx_type); (str "transactionsRoot", JTStr)].
Definition total_count_type : jtype := JTStruct [(str "blockNumber", JTStr); (str "txSum", JTStr)].
Definition peer_status_type : jtype := JTStruct [(str "IPAndPort", JTStr); (str "Topic", JTSlice JTAny); (str "nodeId", JTStr)].
Definition pending_tx_type : jtype := JTStruct
  [(str "from", JTBytes hash_codec); (str "gas", JTStr); (str "gasPrice", JTStr); (str "hash", JTBytes hash_codec); (str "input", JTStr); (str "nonce", JTStr);
   (str "to", JTBytes hash_codec); (str "value", JTStr)].
Definition peer_type : jtype := JTStruct [(str "blockNumber", JTInt); (str "genesisHash", JTStr); (str "latestHash", JTStr); (str "nodeId", JTStr)].
Definition sync_status_type : jtype := JTStruct
  [(str "blockNumber", JTInt); (str "genesisHash", JTStr); (str "isSyncing", JTBool); (str "knownHighestNumber", JTInt); (str "knownLatestHash", JTStr);
   (str "latestHash", JTStr); (str "nodeId", JTStr); (str "peers", JTSlice peer_type); (str "protocolId", JTInt); (str "txPoolSize", JTStr)].

Definition log_of (v : jval) : option GoLog :=
  match v with
  | JVStruct [JVBytes a; JVSlice ts; JVBytes d; JVNum n; JVBytes th; JVNum ti; JVBytes bh; JVNum i; JVBool r] =>
      Some (MkGoLog (MkLog a (map bytes_of (default [] ts)) d n th ti bh i r) (bool_decide (ts = None)))
  | _ => None
  end.

Section types.
  Context (uintBits : Z).

(** A log has UnmarshalJSON. *)
Definition log_type : jtype := JTVia (log_dec_type uintBits) (log_enc zero_go_log)
  (fun v => match log_of v with Some l => log_ptrs l | None => v end)
  (fun old dec => let '(l, e) := log_assign (default zero_go_log (log_of old)) dec in (log_enc l, e)).
Definition receipt_type : jtype := JTStruct
  [(str "blockHash", JTBytes hash_codec); (str "blockNumber", JTStr); (str "contractAddress", JTBytes address_codec); (str "from", JTBytes address_codec);
   (str "gasUsed", JTStr); (str "input", JTStr); (str "logs", JTSlice (JTPtr log_type)); (str "logsBloom", JTBytes bloom_codec); (str "output", JTStr);
   (str "status", JTStr); (str "to", JTBytes address_codec); (str "transactionHash", JTBytes hash_codec); (str "transactionIndex", JTStr)].
End types.

(** The receipt of a result; [None] if a log is nil. *)
Definition text_of (v : jval) : list Z := match v with JVStr s => s | _ => [] end.
Definition logs_of (v : jval) : option (list Log) :=
  match v with
  | JVSlice None => Some []
  | JVSlice (Some vs) => mapM (fun v => match v with JVPtr (Some v) => gl_Log <$> log_of v | _ => None end) vs
  | _ => None
  end.
Definition receipt_of (v : jval) : option Receipt :=
  match v with
  | JVStruct [bh; bn; ca; fr; gu; inp; logs; bloom; out; st; to; th; ti] =>
      logs ← logs_of logs;
      Some (MkReceipt (bytes_of bh) (text_of bn) (bytes_of ca) (bytes_of fr) (text_of gu) (text_of inp) logs (bytes_of bloom) (text_of out) (text_of st)
              (bytes_of to) (bytes_of th) (text_of ti))
  | _ => None
  end.

(** ** Requests *)

Definition arg_uint (n : Z) : json := JNum (FormatUint n 10).
Definition arg_int (n : Z) : json := JNum (FormatInt n).
Definition arg_str (s : list Z) : json := JStr (escape s).
Definition arg_hex (b : list Z) : json := JStr (Bytes_MarshalText b).

(** newRpcMessage, as json.Marshal writes it: params is omitted when there are none. *)
Definition request_json (id : Z) (method : list Z) (args : list json) : json :=
  JObj ([(str "jsonrpc", JStr (str "2.0")); (str "id", JNum (id_key id)); (str "method", JStr (escape method))] ++
        if bool_decide (args = []) then [] else [(str "params", JArr args)]).
Definition request_wire (id : Z) (method : list Z) (args : list json) (random : list Z) : option (list Z) :=
  msg_Encode <$> NewMessage TypeRPCRequest [] (Some (print (request_json id method args))) random.

Definition toBlockNumArg (number : option Z) : list Z := match number with None => str "latest" | Some n => EncodeBig n end.

Record CallEthMsg : Type := MkCallEthMsg {
  em_From : list Z; em_To : option (list Z); em_Gas : Z; em_GasPrice : option Z; em_Value : option Z; em_Data : list Z }.

(** A map, marshalled in the order of its keys. *)
Definition toCallArg (msg : CallEthMsg) : json :=
  JObj ((if len (em_Data msg) =? 0 then [] else [(str "data", arg_hex (em_Data msg))]) ++
        [(str "from", arg_hex (em_From msg))] ++
        (if em_Gas msg =? 0 then [] else [(str "gas", JStr (Uint64_MarshalText (em_Gas msg)))]) ++
        (match em_GasPrice msg with None => [] | Some p => [(str "gasPrice", JStr (Big_MarshalText p))] end) ++
        [(str "to", match em_To msg with None => JNull | Some a => arg_hex a end)] ++
        (match em_Value msg with None => [] | Some v => [(str "value", JStr (Big_MarshalText v))] end)).

(** ** Answers *)

Inductive call_error : Type :=
| ErrClient (e : cli_error)
| ErrNoResult
| ErrDecode (e : json_error)
| ErrNumber (e : decError)
| ErrEncode
| ErrStatus (status hash output : list Z)
| ErrCancelled
| ErrNilTx
| ErrNotSupported.

Definition Node : Type := list Z -> list json -> cli_error + jsonrpcMessage.

(** ** channel.go *)

Section channel.
  Context (uintBits : Z) (node : Node) (groupID : Z).

Definition rpcCall (t : jtype) (method : string) (args : list json) : jval * option call_error :=
  match rpcCall_result (node (str method) args) with
  | inl e => (zero_of t, Some (ErrClient e))
  | inr result => let '(v, err) := json_Unmarshal t result in (v, ErrDecode <$> err)
  end.
#[local] Abbreviation group := (arg_uint groupID).

Definition chan_ClientVersion := rpcCall (JTPtr client_version_type) "getClientVersion" [].
Definition chan_BlockNumber : option Z * option call_error :=
  match rpcCall JTStr "getBlockNumber" [group] with
  | (_, Some err) => (None, Some err)
  | (result, None) => let '(height, err) := DecodeUint64 (text_of result) in (Some (i64 height), ErrNumber <$> err)
  end.
Definition chan_PbftView := rpcCall JTStr "getPbftView" [group].
Definition chan_SealerList := rpcCall (JTSlice JTStr) "getSealerList" [group].
Definition chan_ObserverList := rpcCall (JTSlice JTStr) "getObserverList" [group].
Definition chan_ConsensusStatus := rpcCall (JTSlice JTAny) "getConsensusStatus" [group].
Definition chan_SyncStatus := rpcCall (JTPtr sync_status_type) "getSyncStatus" [group].
Definition chan_Peers := rpcCall (JTSlice peer_status_type) "getPeers" [group].
Definition chan_GroupPeers := rpcCall (JTSlice JTStr) "getGroupPeers" [group].
Definition chan_NodeIDList := rpcCall (JTSlice JTStr) "getNodeIDList" [group].
Definition chan_GroupList := rpcCall (JTSlice JTInt) "getGroupList" [group].
Definition chan_BlockByHash (hash : list Z) := rpcCall (JTPtr block_type) "getBlockByHash" [group; arg_hex hash; JBool true].
Definition chan_BlockByNumber (number : option Z) := rpcCall (JTPtr block_type) "getBlockByNumber" [group; arg_str (toBlockNumArg number); JBool true].
(** string(blockNumber) is the text of a rune. *)
Definition chan_BlockHashByNumber (blockNumber : Z) := rpcCall (JTPtr (JTBytes hash_codec)) "getBlockHashByNumber" [group; arg_str (string_of_rune blockNumber)].
Definition chan_TransactionByHash (transactionHash : list Z) := rpcCall (JTPtr tx_by_hash_type) "getTransactionByHash" [group; arg_str transactionHash].
Definition chan_TransactionByBlockHashAndIndex (blockHash transactionIndex : list Z) :=
  rpcCall (JTPtr tx_by_hash_type) "getTransactionByBlockHashAndIndex" [group; arg_str blockHash; arg_str transactionIndex].
Definition chan_TransactionByBlockNumberAndIndex (blockNumber transactionIndex : list Z) :=
  rpcCall (JTPtr tx_by_hash_type) "getTransactionByBlockNumberAndIndex" [group; arg_str blockNumber; arg_str transactionIndex].
Definition chan_PendingTransactions := rpcCall (JTSlice pending_tx_type) "getPendingTransactions" [group].
Definition chan_PendingTxSize := rpcCall JTStr "getPendingTxSize" [group].
Definition chan_Code (contract : list Z) := rpcCall JTStr "getCode" [group; arg_str contract].
Definition chan_TotalTransactionCount := rpcCall (JTPtr total_count_type) "getTotalTransactionCount" [group].
Definition chan_SystemConfigByKey (key : list Z) := rpcCall JTStr "getSystemConfigByKey" [group; arg_str key].
Definition chan_TransactionReceipt (txHash : list Z) := rpcCall (JTPtr (receipt_type uintBits)) "getTransactionReceipt" [group; arg_hex txHash].
Definition chan_CodeAt (account : list Z) (blockNumber : option Z) := rpcCall (JTBytes bytes_codec) "getCode" [group; arg_hex account; arg_str (toBlockNumArg blockNumber)].
Definition chan_CallContract (msgGroup : Z) (msg : CallEthMsg) := rpcCall (JTBytes bytes_codec) "call" [arg_int msgGroup; toCallArg msg].
(** The result is ignored, its syntax is not. *)
Definition chan_SendTransaction (eb : encbuf) (tx : txdata) : option call_error :=
  match EncodeToBytes tx_encoders eb (tx_ptr tx) with
  | Ok data => snd (rpcCall JTAny "sendRawTransaction" [group; arg_str (ToHex data)])
  | _ => Some ErrEncode
  end.
(** The block limit of the options afterwards. *)
Definition chan_UpdateBlockLimit (blockLimit : Z) : Z * option call_error :=
  match chan_BlockNumber with
  | (_, Some err) => (blockLimit, Some err)
  | (number, None) => (u64 (u64 (Z.abs (default 0 number)) + 1000), None)
  end.
End channel.

(** ** rpcclient.go *)

Section rpc.
  Context (uintBits : Z) (node : Node) (groupID : Z).

(** The answer, as CallContext of the rpc client passes it on. *)
Definition CallContext_result (method : string) (args : list json) : call_error + list Z :=
  match node (str method) args with
  | inl e => inl (ErrClient e)
  | inr resp => match Error resp with
                | Some e => inl (ErrClient (ErrRPC e))
                | None => if len (RpcResult resp) =? 0 then inl ErrNoResult else inr (RpcResult resp)
                end
  end.
Definition CallContext (t : jtype) (method : string) (args : list json) : jval * option call_error :=
  match CallContext_result method args with
  | inl e => (zero_of t, Some e)
  | inr result => let '(v, err) := json_Unmarshal t result in (v, ErrDecode <$> err)
  end.

(** The getters through json.RawMessage: null leaves it empty. *)
Definition get_raw (t : jtype) (method : string) (args : list json) : jval * option call_error :=
  match CallContext_result method args with
  | inl e => (zero_of t, Some e)
  | inr result =>
      match parse result with
      | None => (zero_of t, Some (ErrDecode ErrJsonSyntax))
      | Some JNull => (zero_of t, Some (ErrClient NotFound))
      | Some _ => match json_Unmarshal t result with
                  | (_, Some e) => (zero_of t, Some (ErrDecode e))
                  | (v, None) => (v, None)
                  end
      end
  end.
(** The getters of a string or a slice: an empty one is not found. *)
Definition is_empty (v : jval) : bool :=
  match v with JVStr s => len s =? 0 | JVSlice (Some l) => len l =? 0 | JVSlice None => true | _ => false end.
Definition get_direct (t : jtype) (method : string) (args : list json) : jval * option call_error :=
  match CallContext t method args with
  | (_, Some e) => (zero_of t, Some e)
  | (raw, None) => if is_empty raw then (zero_of t, Some (ErrClient NotFound)) else (raw, None)
  end.
(** The getters, by the type of their result. *)
Definition getClientVersion := get_raw (JTPtr client_version_type).
Definition getBlock := get_raw (JTPtr block_type).
Definition getSyncStatus := get_raw (JTPtr sync_status_type).
Definition getBlockByNumber := get_raw (JTPtr block_type).
Definition getTotalTransactionCount := get_raw (JTPtr total_count_type).
Definition getTransactionReceipt := get_raw (JTPtr (receipt_type uintBits)).
Definition getTransactionByBlockNumberAndIndex := get_raw (JTPtr tx_by_hash_type).
Definition getTransactionByBlockHashAndIndex := get_raw (JTPtr tx_by_hash_type).
Definition getTransactionByHash := get_raw (JTPtr tx_by_hash_type).
Definition getPbftView := get_direct JTStr.
Definition getPendingTxSize := get_direct JTStr.
Definition getCode := get_direct JTStr.
Definition getSystemConfigByKey := get_direct JTStr.
Definition getSealerList := get_direct (JTSlice JTStr).
Definition getObserverList := get_direct (JTSlice JTStr).
Definition getConsensusStatus := get_direct (JTSlice JTAny).
Definition getPeers := get_raw (JTSlice peer_status_type).
Definition getGroupPeers := get_direct (JTSlice JTStr).
Definition getNodeIDList := get_direct (JTSlice JTStr).
Definition getGroupList := get_direct (JTSlice JTInt).
Definition getPendingTransactions := get_raw (JTSlice pending_tx_type).
Definition getBlockNumber (method : string) (args : list json) : option Z * option call_error :=
  match get_direct JTStr method args with
  | (_, Some err) => (None, Some err)
  | (raw, None) => let '(height, err) := DecodeUint64 (text_of raw) in (Some (i64 height), ErrNumber <$> err)
  end.
(** The hash that is made of the text, or nil. *)
Definition getBlockHashByNumber (method : string) (args : list json) : option (list Z) * option call_error :=
  match get_direct JTStr method args with
  | (_, Some e) => (None, Some e)
  | (raw, None) => (HexToHash (text_of raw), None)
  end.
#[local] Abbreviation group := (arg_uint groupID).

Definition rpc_ClientVersion := getClientVersion "getClientVersion" [].
Definition rpc_BlockNumber : option Z * option call_error := getBlockNumber "getBlockNumber" [group].
Definition rpc_PbftView := getPbftView "getPbftView" [group].
Definition rpc_SealerList := getSealerList "getSealerList" [group].
Definition rpc_ObserverList := getObserverList "getObserverList" [group].
Definition rpc_ConsensusStatus := getConsensusStatus "getConsensusStatus" [group].
Definition rpc_SyncStatus := getSyncStatus "getSyncStatus" [group].
Definition rpc_Peers := getPeers "getPeers" [group].
Definition rpc_GroupPeers := getGroupPeers "getGroupPeers" [group].
Definition rpc_NodeIDList := getNodeIDList "getNodeIDList" [group].
Definition rpc_GroupList := getGroupList "getGroupList" [].
Definition rpc_BlockByHash (hash : list Z) := getBlock "getBlockByHash" [group; arg_hex hash; JBool true].
Definition rpc_BlockByNumber (number : option Z) := getBlockByNumber "getBlockByNumber" [group; arg_str (toBlockNumArg number); JBool true].
Definition rpc_BlockHashByNumber (blockNumber : Z) : option (list Z) * option call_error :=
  getBlockHashByNumber "getBlockHashByNumber" [group; arg_str (string_of_rune blockNumber)].
(** The method of TransactionByBlockHashAndIndex, with the hash alone. *)
Definition rpc_TransactionByHash (transactionHash : list Z) := getTransactionByHash "getTransactionByBlockHashAndIndex" [group; arg_str transactionHash].
Definition rpc_TransactionByBlockHashAndIndex (blockHash transactionIndex : list Z) :=
  getTransactionByBlockHashAndIndex "getTransactionByBlockHashAndIndex" [group; arg_str blockHash; arg_str transactionIndex].
Definition rpc_TransactionByBlockNumberAndIndex (blockNumber transactionIndex : list Z) :=
  getTransactionByBlockNumberAndIndex "getTransactionByBlockNumberAndIndex" [group; arg_str blockNumber; arg_str transactionIndex].
Definition rpc_PendingTransactions := getPendingTransactions "getPendingTransactions" [group].
Definition rpc_PendingTxSize := getPendingTxSize "getPendingTxSize" [group].
Definition rpc_Code (contract : list Z) := getCode "getCode" [group; arg_str contract].
Definition rpc_TotalTransactionCount := getTotalTransactionCount "getTotalTransactionCount" [group].
Definition rpc_SystemConfigByKey (key : list Z) := getSystemConfigByKey "getSystemConfigByKey" [group; arg_str key].
Definition rpc_TransactionReceipt (txHash : list Z) := getTransactionReceipt "getTransactionReceipt" [group; arg_hex txHash].
Definition rpc_CodeAt (account : list Z) (blockNumber : option Z) := CallContext (JTBytes bytes_codec) "getCode" [group; arg_hex account; arg_str (toBlockNumArg blockNumber)].
Definition rpc_CallContract (msgGroup : Z) (msg : CallEthMsg) : jval * option call_error :=
  match CallContext (JTBytes bytes_codec) "call" [arg_int msgGroup; toCallArg msg] with
  | (_, Some e) => (JVBytes [], Some e)
  | r => r
  end.
Definition rpc_SendTransaction (eb : encbuf) (tx : txdata) : option call_error :=
  match EncodeToBytes tx_encoders eb (tx_ptr tx) with
  | Ok data => snd (CallContext JTAny "sendRawTransaction" [group; arg_str (ToHex data)])
  | _ => Some ErrEncode
  end.
Definition rpc_UpdateBlockLimit (blockLimit : Z) : Z * option call_error :=
  match rpc_BlockNumber with
  | (_, Some err) => (blockLimit, Some err)
  | (number, None) => (u64 (u64 (Z.abs (default 0 number)) + 1000), None)
  end.

(** The hashes of the transactions of a block. *)
Definition block_hashes (v : jval) : option (list (list Z)) :=
  match v with
  | JVPtr (Some (JVStruct fields)) =>
      match fields !! 13%nat with
      | Some (JVSlice txs) => Some (map (fun tx => match tx with JVStruct fs => text_of (default (JVStr []) (fs !! 5%nat)) | _ => [] end) (default [] txs))
      | _ => None
      end
  | _ => None
  end.
(** The loop over the hashes: the logs of the first receipt that has some; errors are ignored, nil panics. *)
Fixpoint first_logs (hashes : list (list Z)) : outcome call_error (option (list Log)) :=
  match hashes with
  | [] => Ok None
  | h :: hashes =>
      let? h := of_option (HexToHash h) in
      match rpc_TransactionReceipt h with
      | (JVPtr (Some r), _) =>
          let? receipt := of_option (receipt_of r) in
          if 0 <? len (rc_Logs receipt) then Ok (Some (rc_Logs receipt)) else first_logs hashes
      | _ => Panic
      end
  end.
Definition rpc_FilterLogs (toBlock : option Z) : outcome call_error (list Log) :=
  match toBlock with
  | None =>
      let? hashes := of_option (block_hashes (fst (rpc_BlockByNumber (fst rpc_BlockNumber)))) in
      let? logs := first_logs hashes in
      match logs with Some logs => Ok logs | None => Err ErrNotSupported end
  | Some _ => Err ErrNotSupported
  end.
End rpc.

(** ** Waiting for a receipt *)

(** The loop and the check of the status, for the answers of TransactionReceipt by rounds. *)
Fixpoint await (receipts : nat -> jval * option call_error) (round ticks : nat) : call_error + jval :=
  match receipts round with
  | (JVPtr (Some r), None) => inr r
  | _ => match ticks with O => inl ErrCancelled | S ticks => await receipts (S round) ticks end
  end.
Definition check_receipt (receipts : nat -> jval * option call_error) (ticks : nat) : outcome call_error (Receipt * option call_error) :=
  match await receipts 0 ticks with
  | inl e => Err e
  | inr r =>
      let? receipt := of_option (receipt_of r) in
      Ok (receipt, if bool_decide (rc_Status receipt = str "0x0") then None
                   else Some (ErrStatus (rc_Status receipt) (Hash_Hex (rc_TxHash receipt)) (getReceiptOutput (rc_Output receipt))))
  end.

Section waiting.
  Context (uintBits : Z) (nodes : nat -> Node) (groupID : Z) (Keccak256 : list Z -> list Z) (eb : encbuf).

Definition chan_CheckReceipt (tx : option Transaction) (ticks : nat) : outcome call_error (Receipt * option call_error) :=
  match tx with
  | None => Err ErrNilTx
  | Some tx =>
      let? (hash, _) := of_option (Transaction_Hash Keccak256 eb tx) in
      check_receipt (fun round => chan_TransactionReceipt uintBits (nodes round) groupID hash) ticks
  end.
Definition chan_CheckTx (tx : option Transaction) (ticks : nat) : outcome call_error unit :=
  let? (_, err) := chan_CheckReceipt tx ticks in
  match err with Some e => Err e | None => Ok tt end.
(** Without the check for nil. *)
Definition rpc_CheckReceipt (tx : option Transaction) (ticks : nat) : outcome call_error (Receipt * option call_error) :=
  let? tx := of_option tx in
  let? (hash, _) := of_option (Transaction_Hash Keccak256 eb tx) in
  check_receipt (fun round => rpc_TransactionReceipt uintBits (nodes round) groupID hash) ticks.
Definition rpc_CheckTx (tx : option Transaction) (ticks : nat) : outcome call_error unit :=
  let? (_, err) := rpc_CheckReceipt tx ticks in
  match err with Some e => Err e | None => Ok tt end.
End waiting.

(** ** Subscriptions *)

Record RegisterEventLogRequest : Type := MkRegister {
  re_FromBlock : list Z; re_ToBlock : list Z; re_Addresses : list (list Z); re_Topics : list (list Z); re_GroupID : list Z; re_FilterID : list Z }.
Definition register_type : jtype := JTStruct
  [(str "fromBlock", JTStr); (str "toBlock", JTStr); (str "addresses", JTSlice JTStr); (str "topics", JTSlice JTStr); (str "groupID", JTStr); (str "filterID", JTStr)].
Definition register_val (r : RegisterEventLogRequest) : jval := JVStruct
  [JVStr (re_FromBlock r); JVStr (re_ToBlock r); JVSlice (Some (map JVStr (re_Addresses r))); JVSlice (Some (map JVStr (re_Topics r))); JVStr (re_GroupID r); JVStr (re_FilterID r)].

Record FilterQuery : Type := MkFilterQuery {
  fq_BlockHash : option (list Z); fq_FromBlock : option Z; fq_ToBlock : option Z; fq_Addresses : list (list Z); fq_Topics : list (list (list Z)) }.

(** big.Int.Text(10). *)
Definition big_text (n : Z) : list Z := FormatInt n.
(** The request of SubscribeFilterLogs. *)
Definition subscribe_request (Keccak256 : list Z -> list Z) (groupID : Z) (random : list Z) (q : FilterQuery) : option RegisterEventLogRequest :=
  addresses ← mapM (Address_Hex Keccak256) (fq_Addresses q);
  Some (MkRegister (match fq_FromBlock q with None => str "latest" | Some n => big_text n end) (str "latest") addresses
          (map Hash_Hex (concat (fq_Topics q))) (FormatUint groupID 10) (NewFilterID random)).

(** ** Requests on the wire *)

Lemma request_ok id method args : 0 <= id -> bytes_ok method -> Forall json_ok args -> json_ok (request_json id method args).
Proof.
  intros Hid Hm Ha. apply obj_ok. unfold request_json. apply Forall_app. split.
  - repeat (apply Forall_cons_2; [split; [apply raw_plain; apply (bool_decide_unpack _); vm_compute; exact I|]|]); try apply Forall_nil_2; cbn [snd].
    + apply raw_plain. apply (bool_decide_unpack _). vm_compute. exact I.
    + by apply FormatUint_num.
    + by apply escape_raw.
  - destruct (bool_decide (args = [])); [constructor|]. constructor; [|constructor]. split; [apply raw_plain; apply (bool_decide_unpack _); vm_compute; exact I|]. cbn [snd]. by apply arr_ok.
Qed.

(** What a node reads of a request. *)
Definition node_reads (wire : list Z) : option json := match DecodeMessage wire with (msg, None) => if Type_ msg =? TypeRPCRequest then parse (Data msg) else None | _ => None end.

Lemma request_read id method args random : 0 <= id -> bytes_ok method -> Forall json_ok args -> length random = 16%nat -> 43 + len (print (request_json id method args)) < 2 ^ 32 ->
  exists wire, request_wire id method args random = Some wire /\ node_reads wire = Some (request_json id method args).
Proof.
  intros Hid Hm Ha Hr Hl. unfold request_wire. set (d := print (request_json id method args)) in *. destruct (NewMessage TypeRPCRequest [] (Some d) random) as [m|] eqn:En; [|done]. exists (msg_Encode m). split; [done|].
  destruct (NewMessage_wf _ _ _ _ _ En) as (Hw & HL & Hd & Ht & _); [done|done|change (len []) with 0; lia|]. unfold node_reads.
  pose proof (DecodeMessage_app m [] Hw) as D. rewrite !app_nil_r in D. rewrite D; [|rewrite <- HL; destruct Hw; lia|lia]. cbn [seen Type_ Data]. rewrite Ht, Z.eqb_refl. unfold body. rewrite Ht, Hd. cbn [Z.eqb Pos.eqb app TypeRPCRequest TypeRegisterEventLog].
  unfold d. apply parse_print. by apply request_ok.
Qed.

(** ** The calls as queries *)

(** The calls of the interface of the clients that ask the node for one
    result: all but those that send a transaction, wait for one, filter logs or
    subscribe. *)
Inductive query : Type :=
| QClientVersion | QBlockNumber | QPbftView | QSealerList | QObserverList | QConsensusStatus | QSyncStatus | QPeers | QGroupPeers | QNodeIDList | QGroupList
| QBlockByHash (hash : list Z) | QBlockByNumber (number : option Z) | QBlockHashByNumber (number : Z)
| QTransactionByHash (hash : list Z) | QTransactionByBlockHashAndIndex (hash index : list Z) | QTransactionByBlockNumberAndIndex (number index : list Z)
| QPendingTransactions | QPendingTxSize | QCode (contract : list Z) | QTotalTransactionCount | QSystemConfigByKey (key : list Z)
| QTransactionReceipt (hash : list Z) | QCodeAt (account : list Z) (blockNumber : option Z) | QCallContract (msgGroup : Z) (msg : CallEthMsg).

(** Numbers and hashes are returned by pointers. *)
Definition number_result (r : option Z * option call_error) : jval * option call_error := (JVPtr (JVNum <$> fst r), snd r).
Definition hash_result (r : option (list Z) * option call_error) : jval * option call_error := (JVPtr (JVBytes <$> fst r), snd r).

Section queries.
  Context (uintBits : Z) (groupID : Z).

Definition chan_ask (node : Node) (q : query) : jval * option call_error :=
  match q with
  | QClientVersion => chan_ClientVersion node
  | QBlockNumber => number_result (chan_BlockNumber node groupID)
  | QPbftView => chan_PbftView node groupID
  | QSealerList => chan_SealerList node groupID
  | QObserverList => chan_ObserverList node groupID
  | QConsensusStatus => chan_ConsensusStatus node groupID
  | QSyncStatus => chan_SyncStatus node groupID
  | QPeers => chan_Peers node groupID
  | QGroupPeers => chan_GroupPeers node groupID
  | QNodeIDList => chan_NodeIDList node groupID
  | QGroupList => chan_GroupList node groupID
  | QBlockByHash h => chan_BlockByHash node groupID h
  | QBlockByNumber n => chan_BlockByNumber node groupID n
  | QBlockHashByNumber n => chan_BlockHashByNumber node groupID n
  | QTransactionByHash h => chan_TransactionByHash node groupID h
  | QTransactionByBlockHashAndIndex h i => chan_TransactionByBlockHashAndIndex node groupID h i
  | QTransactionByBlockNumberAndIndex n i => chan_TransactionByBlockNumberAndIndex node groupID n i
  | QPendingTransactions => chan_PendingTransactions node groupID
  | QPendingTxSize => chan_PendingTxSize node groupID
  | QCode c => chan_Code node groupID c
  | QTotalTransactionCount => chan_TotalTransactionCount node groupID
  | QSystemConfigByKey k => chan_SystemConfigByKey node groupID k
  | QTransactionReceipt h => chan_TransactionReceipt uintBits node groupID h
  | QCodeAt a n => chan_CodeAt node groupID a n
  | QCallContract mg m => chan_CallContract node mg m
  end.
Definition rpc_ask (node : Node) (q : query) : jval * option call_error :=
  match q with
  | QClientVersion => rpc_ClientVersion node
  | QBlockNumber => number_result (rpc_BlockNumber node groupID)
  | QPbftView => rpc_PbftView node groupID
  | QSealerList => rpc_SealerList node groupID
  | QObserverList => rpc_ObserverList node groupID
  | QConsensusStatus => rpc_ConsensusStatus node groupID
  | QSyncStatus => rpc_SyncStatus node groupID
  | QPeers => rpc_Peers node groupID
  | QGroupPeers => rpc_GroupPeers node groupID
  | QNodeIDList => rpc_NodeIDList node groupID
  | QGroupList => rpc_GroupList node
  | QBlockByHash h => rpc_BlockByHash node groupID h
  | QBlockByNumber n => rpc_BlockByNumber node groupID n
  | QBlockHashByNumber n => hash_result (rpc_BlockHashByNumber node groupID n)
  | QTransactionByHash h => rpc_TransactionByHash node groupID h
  | QTransactionByBlockHashAndIndex h i => rpc_TransactionByBlockHashAndIndex node groupID h i
  | QTransactionByBlockNumberAndIndex n i => rpc_TransactionByBlockNumberAndIndex node groupID n i
  | QPendingTransactions => rpc_PendingTransactions node groupID
  | QPendingTxSize => rpc_PendingTxSize node groupID
  | QCode c => rpc_Code node groupID c
  | QTotalTransactionCount => rpc_TotalTransactionCount node groupID
  | QSystemConfigByKey k => rpc_SystemConfigByKey node groupID k
  | QTransactionReceipt h => rpc_TransactionReceipt uintBits node groupID h
  | QCodeAt a n => rpc_CodeAt node groupID a n
  | QCallContract mg m => rpc_CallContract node mg m
  end.

(** The type of the answer, the method and the parameters of the channel
    client, where those of the rpc client differ, and how it reads the answer. *)
Definition q_type (q : query) : jtype :=
  match q with
  | QClientVersion => JTPtr client_version_type
  | QBlockNumber | QPbftView | QPendingTxSize | QCode _ | QSystemConfigByKey _ => JTStr
  | QSealerList | QObserverList | QGroupPeers | QNodeIDList => JTSlice JTStr
  | QConsensusStatus => JTSlice JTAny
  | QGroupList => JTSlice JTInt
  | QSyncStatus => JTPtr sync_status_type
  | QPeers => JTSlice peer_status_type
  | QBlockByHash _ | QBlockByNumber _ => JTPtr block_type
  | QBlockHashByNumber _ => JTPtr (JTBytes hash_codec)
  | QTransactionByHash _ | QTransactionByBlockHashAndIndex _ _ | QTransactionByBlockNumberAndIndex _ _ => JTPtr tx_by_hash_type
  | QPendingTransactions => JTSlice pending_tx_type
  | QTotalTransactionCount => JTPtr total_count_type
  | QTransactionReceipt _ => JTPtr (receipt_type uintBits)
  | QCodeAt _ _ | QCallContract _ _ => JTBytes bytes_codec
  end.
Definition q_method (q : query) : string :=
  match q with
  | QClientVersion => "getClientVersion" | QBlockNumber => "getBlockNumber" | QPbftView => "getPbftView" | QSealerList => "getSealerList" | QObserverList => "getObserverList"
  | QConsensusStatus => "getConsensusStatus" | QSyncStatus => "getSyncStatus" | QPeers => "getPeers" | QGroupPeers => "getGroupPeers" | QNodeIDList => "getNodeIDList"
  | QGroupList => "getGroupList" | QBlockHashByNumber _ => "getBlockHashByNumber" | QTransactionByHash _ => "getTransactionByHash"
  | QBlockByHash _ => "getBlockByHash" | QBlockByNumber _ => "getBlockByNumber"
  | QTransactionByBlockHashAndIndex _ _ => "getTransactionByBlockHashAndIndex" | QTransactionByBlockNumberAndIndex _ _ => "getTransactionByBlockNumberAndIndex"
  | QPendingTransactions => "getPendingTransactions" | QPendingTxSize => "getPendingTxSize" | QCode _ => "getCode" | QTotalTransactionCount => "getTotalTransactionCount"
  | QSystemConfigByKey _ => "getSystemConfigByKey" | QTransactionReceipt _ => "getTransactionReceipt"
  | QCodeAt _ _ => "getCode" | QCallContract _ _ => "call"
  end.
Definition q_args (q : query) : list json :=
  let g := arg_uint groupID in
  match q with
  | QClientVersion => []
  | QBlockByHash h => [g; arg_hex h; JBool true]
  | QBlockByNumber n => [g; arg_str (toBlockNumArg n); JBool true]
  | QTransactionByBlockHashAndIndex a b | QTransactionByBlockNumberAndIndex a b => [g; arg_str a; arg_str b]
  | QBlockHashByNumber n => [g; arg_str (string_of_rune n)]
  | QTransactionByHash s | QCode s | QSystemConfigByKey s => [g; arg_str s]
  | QTransactionReceipt h => [g; arg_hex h]
  | QCodeAt a n => [g; arg_hex a; arg_str (toBlockNumArg n)]
  | QCallContract mg m => [arg_int mg; toCallArg m]
  | _ => [g]
  end.
Definition rpc_method (q : query) : string := match q with QTransactionByHash _ => "getTransactionByBlockHashAndIndex" | _ => q_method q end.
Definition rpc_args (q : query) : list json := match q with QGroupList => [] | _ => q_args q end.
Definition q_plain (q : query) : bool := match q with QCodeAt _ _ | QCallContract _ _ => true | _ => false end.
Definition q_direct (q : query) : bool :=
  match q with
  | QGroupList | QPbftView | QPendingTxSize | QCode _ | QSystemConfigByKey _ | QSealerList | QObserverList | QGroupPeers | QNodeIDList | QConsensusStatus => true
  | _ => false
  end.
(** What rpcclient takes for found. *)
Definition found (q : query) (v : jval) : bool :=
  if q_plain q then true else if q_direct q then negb (is_empty v) else match v with JVPtr None | JVSlice None => false | _ => true end.

(** The calls that read the answer by its type alone. *)
Definition by_type (q : query) : bool := match q with QBlockNumber | QBlockHashByNumber _ => false | _ => true end.

Lemma chan_ask_eq node q : q <> QBlockNumber -> chan_ask node q = rpcCall node (q_type q) (q_method q) (q_args q).
Proof. by destruct q. Qed.
Lemma rpc_ask_eq node q : by_type q = true -> q_plain q = false ->
  rpc_ask node q = (if q_direct q then get_direct else get_raw) node (q_type q) (rpc_method q) (rpc_args q).
Proof. by destruct q. Qed.
Lemma rpc_ask_plain node q v : q_plain q = true -> rpc_ask node q = (v, None) <-> CallContext node (q_type q) (rpc_method q) (rpc_args q) = (v, None).
Proof.
  destruct q; intros H; try discriminate H; [done|]. cbn [rpc_ask q_type rpc_method q_method rpc_args q_args]. unfold rpc_CallContract. by destruct (CallContext _ _ _ _) as [v' [e|]].
Qed.
Lemma q_zero q : by_type q = true -> q_plain q = false -> found q (zero_of (q_type q)) = false.
Proof. by destruct q. Qed.
Lemma q_nullable q v j st : by_type q = true -> q_plain q = false -> q_direct q = false -> j <> JNull -> jdecode (q_type q) (zero_of (q_type q)) j = (v, st) -> st = DOk -> found q v = true.
Proof.
  intros Hy Hp Hd Hj H ->. assert (S : forall t, jdecode (JTSlice t) (JVSlice None) j = (v, DOk) -> match v with JVPtr None | JVSlice None => false | _ => true end = true).
  { intros t E. cbn [jdecode] in E. destruct j; try done. destruct (dec_elements _ _ _) as [l st]. by injection E as <- _. }
  assert (P : forall t, jdecode (JTPtr t) (JVPtr None) j = (v, DOk) -> match v with JVPtr None | JVSlice None => false | _ => true end = true).
  { intros t E. cbn [jdecode] in E. destruct (jdecode t (zero_of t) j) as [v' st]. destruct j; try done; by injection E as <- _. }
  unfold found. rewrite Hp, Hd. destruct q; try done; (by eapply S) || (by eapply P).
Qed.
End queries.

(** ** The two clients *)

Definition is_null (j : json) : bool := match j with JNull => true | _ => false end.
Lemma is_null_spec j : reflect (j = JNull) (is_null j).
Proof. by destruct j; constructor. Qed.

Lemma unmarshal_none t text v : json_Unmarshal t text = (v, None) <-> exists j, parse text = Some j /\ (if is_null j then v = zero_of t else jdecode t (zero_of t) j = (v, DOk)).
Proof.
  unfold json_Unmarshal. destruct (parse text) as [j|]; [|split; [done|by intros (? & ? & _)]]. assert (D : (let '(v0, st) := jdecode t (zero_of t) j in (v0, match st with DOk => None | DSaved e | DFatal e => Some e end)) = (v, None) <-> jdecode t (zero_of t) j = (v, DOk)).
  { destruct (jdecode t (zero_of t) j) as [v' st]. destruct st; split; intros H; try done; by injection H as ->. }
  split.
  - intros H. exists j. split; [done|]. destruct (is_null_spec j) as [-> |Hn]; [by injection H as <-|]. apply D. by destruct j.
  - intros (j' & [= <-] & H). destruct (is_null_spec j) as [-> |Hn]; [by rewrite H|]. apply D in H. by destruct j.
Qed.

Lemma rpcCall_none node t m args v : rpcCall node t m args = (v, None) <-> exists resp, node (str m) args = inr resp /\ Error resp = None /\ RpcResult resp <> [] /\ json_Unmarshal t (RpcResult resp) = (v, None).
Proof.
  unfold rpcCall, rpcCall_result. destruct (node (str m) args) as [e|resp]; [split; [done|by intros (? & ? & _)]|]. destruct (Error resp) as [e|] eqn:Ee; [split; [done|]; intros (? & [= <-] & ? & _); congruence|].
  rewrite len_eqb_nil. destruct (bool_decide_reflect (RpcResult resp = [])) as [En|En]; [split; [done|]; by intros (? & [= <-] & _ & ? & _)|]. destruct (json_Unmarshal t (RpcResult resp)) as [v' [e|]] eqn:Eu.
  - split; [done|]. intros (? & [= <-] & _ & _ & H). congruence.
  - split; [intros [= ->]; by exists resp|]. intros (? & [= <-] & _ & _ & H). rewrite Eu in H. by injection H as ->.
Qed.
Lemma CallContext_none node t m args v : CallContext node t m args = (v, None) <-> rpcCall node t m args = (v, None).
Proof.
  unfold CallContext, CallContext_result, rpcCall, rpcCall_result. destruct (node (str m) args) as [e|resp]; [done|]. destruct (Error resp); [done|]. by destruct (len (RpcResult resp) =? 0).
Qed.
Lemma get_raw_none node t m args v : get_raw node t m args = (v, None) <-> rpcCall node t m args = (v, None) /\ exists resp, node (str m) args = inr resp /\ parse (RpcResult resp) <> Some JNull.
Proof.
  rewrite rpcCall_none. unfold get_raw, CallContext_result. destruct (node (str m) args) as [e|resp]; [split; [done|by intros [(? & ? & _) _]]|].
  destruct (Error resp) as [e|] eqn:Ee; [split; [done|]; intros [(? & [= <-] & ? & _) _]; congruence|]. rewrite len_eqb_nil.
  destruct (bool_decide_reflect (RpcResult resp = [])) as [En|En]; [split; [done|]; by intros [(? & [= <-] & _ & ? & _) _]|]. destruct (parse (RpcResult resp)) as [j|] eqn:Ep.
  - assert (G : (match json_Unmarshal t (RpcResult resp) with (_, Some e) => (zero_of t, Some (ErrDecode e)) | (v, None) => (v, None) end) = (v, None) <-> json_Unmarshal t (RpcResult resp) = (v, None)) by (destruct (json_Unmarshal t (RpcResult resp)) as [v0 [e|]]; (split; intros H; [discriminate H || by injection H as ->|discriminate H || by injection H as ->])).
    split.
    + intros H. assert (Hj : j <> JNull) by (by intros ->). split; [exists resp; split_and!; [done..|]; apply G; by destruct j|]. exists resp. split; [done|]. rewrite Ep. by intros [= ?].
    + intros [(r & [= <-] & _ & _ & H) (r' & [= <-] & Hn)]. rewrite Ep in Hn. apply G in H. by destruct j.
  - split; [done|]. intros [(r & [= <-] & _ & _ & H) _]. apply unmarshal_none in H as (j & H & _). congruence.
Qed.
Lemma get_direct_none node t m args v : is_empty (zero_of t) = true -> get_direct node t m args = (v, None) <-> rpcCall node t m args = (v, None) /\ is_empty v = false.
Proof.
  intros Hz. rewrite <- CallContext_none. unfold get_direct. destruct (CallContext node t m args) as [v' [e|]]; [split; [done|by intros [? _]]|]. destruct (is_empty v') eqn:Ev.
  - split; [done|]. intros [[= ->] ?]. congruence.
  - split; [by intros [= ->]|by intros [[= ->] _]].
Qed.

(** Both requests of a query get the same answer.  They are the same request
    unless the query is GroupList or TransactionByHash. *)
Definition same_answer (g : Z) (node : Node) (q : query) : Prop := node (str (rpc_method q)) (rpc_args g q) = node (str (q_method q)) (q_args g q).

Lemma rpcCall_same g node q t : same_answer g node q -> rpcCall node t (rpc_method q) (rpc_args g q) = rpcCall node t (q_method q) (q_args g q).
Proof. unfold same_answer, rpcCall. by intros ->. Qed.

(** The calls that read by the type. *)
Lemma agree_by_type w g node q v : by_type q = true -> same_answer g node q ->
  rpc_ask w g node q = (v, None) <-> chan_ask w g node q = (v, None) /\ found q v = true.
Proof.
  intros Hy Hs. rewrite chan_ask_eq by (by intros ->). destruct (q_plain q) eqn:Epl.
  { rewrite rpc_ask_plain, CallContext_none, rpcCall_same by done. unfold found. rewrite Epl. tauto. }
  rewrite rpc_ask_eq by done. destruct (q_direct q) eqn:Ed.
  - rewrite get_direct_none, rpcCall_same by (by destruct q). unfold found. rewrite Epl, Ed. by rewrite negb_true_iff.
  - rewrite get_raw_none, rpcCall_same, Hs by done. split.
    + intros [H (resp & Hr & Hn)]. split; [done|]. apply rpcCall_none in H as (resp' & Hr' & _ & _ & H). assert (resp' = resp) as -> by congruence. apply unmarshal_none in H as (j & Hj & H).
      destruct (is_null_spec j) as [-> |Hne]; [by destruct Hn|]. by eapply (q_nullable w q v j DOk).
    + intros [H Hf]. split; [done|]. apply rpcCall_none in H as (resp & Hr & _ & _ & H). exists resp. split; [done|]. intros Hn. apply unmarshal_none in H as (j & Hj & H). rewrite Hn in Hj. injection Hj as <-.
      cbn [is_null] in H. subst v. by rewrite q_zero in Hf.
Qed.

(** The number of the block: an empty text is an error for both. *)
Lemma agree_number w g node v : rpc_ask w g node QBlockNumber = (v, None) <-> chan_ask w g node QBlockNumber = (v, None) /\ found QBlockNumber v = true.
Proof.
  cbn [rpc_ask chan_ask]. unfold number_result, rpc_BlockNumber, getBlockNumber, chan_BlockNumber. set (args := [_]).
  destruct (rpcCall node JTStr "getBlockNumber" args) as [r o] eqn:Er. destruct (get_direct node JTStr "getBlockNumber" args) as [r' o'] eqn:Eg. destruct o' as [e'|]; cbn [fst snd].
  - split; [done|]. destruct o as [e|]; [by intros [? _]|]. intros [H _]. destruct (is_empty r) eqn:Ev.
    + exfalso. apply rpcCall_none in Er as (resp & _ & _ & _ & Eu). apply unmarshal_none in Eu as (j & _ & Eu).
      assert (Hr : exists t, r = JVStr t) by (destruct j as [| | |raw| |]; cbn [is_null jdecode zero_of] in Eu; try discriminate Eu; [by exists []|destruct (unquote raw); [injection Eu as <-; by eexists|discriminate Eu]]).
      destruct Hr as [t ->]. cbn [is_empty] in Ev. destruct t; [discriminate H|discriminate Ev].
    + exfalso. assert (G : get_direct node JTStr "getBlockNumber" args = (r, None)) by (by apply get_direct_none). congruence.
  - apply get_direct_none in Eg as [Eg _]; [|done]. rewrite Eg in Er. injection Er as <- <-. destruct (DecodeUint64 _) as [h e]. cbn [fst snd]. split; [|tauto]. intros H. split; [done|]. by injection H as <- _.
Qed.

(** The hash of a block: the channel client reads a hash, the rpc client a text. *)
Lemma number_head s t rest : scan_number s = Some (t, rest) -> head t <> Some 34.
Proof.
  unfold scan_number. intros H. destruct (num_sign s) as [sg s1] eqn:Es. destruct (num_int s1) as [[ip s2]|] eqn:Ei; [|discriminate H]. cbn in H. destruct (num_frac s2) as [[fp s3]|]; [|discriminate H]. cbn in H.
  destruct (num_exp s3) as [[ep s4]|]; [|discriminate H]. cbn in H. injection H as <- <-. destruct sg as [|c sg]; cbn [app head].
  2: { unfold num_sign in Es. destruct s as [|c' r]; [discriminate Es|]. destruct (Z.eqb_spec c' 45); [|discriminate Es]. injection Es as <- <- _. intros [= ?]. lia. }
  unfold num_int in Ei. destruct s1 as [|c s1]; [discriminate Ei|]. destruct (Z.eqb_spec c 48); [injection Ei as <- <-; intros [= ?]; lia|]. unfold digits1 in Ei. cbn [span_digits] in Ei.
  destruct (digit_byte c) eqn:Ec; [|discriminate Ei]. destruct (span_digits s1) as [ds r]. injection Ei as <- <-. cbn [app head]. intros [= ->]. discriminate Ec.
Qed.
Lemma parse_num s t : parse s = Some (JNum t) -> head t <> Some 34.
Proof.
  unfold parse. destruct (scan_value _ s) as [[v rest]|] eqn:E; [|done]. cbn. destruct (skip_ws rest); [|done]. intros [= ->]. rewrite Nat.add_comm in E. cbn [Nat.add scan_value] in E. destruct (skip_ws s) as [|c r]; [done|].
  repeat match type of E with (if ?b then _ else _) = _ => destruct b end; try (destruct (literal _ _); discriminate E); try (destruct (scan_string _) as [[? ?]|]; discriminate E);
    try (destruct (token _ _); [discriminate E|]; (destruct (scan_elements _ _) as [[? ?]|] || destruct (scan_members _ _) as [[? ?]|]); discriminate E).
  destruct (scan_number (c :: r)) as [[t' rest']|] eqn:En; [|discriminate E]. cbn in E. injection E as -> _. by eapply number_head.
Qed.
Lemma lower_plain s : Forall plain (map lower s) -> Forall plain s.
Proof.
  induction s as [|c s IH]; [done|]. cbn [map]. intros H. apply Forall_cons in H as [Hc H]. apply Forall_cons_2; [|by apply IH]. revert Hc. unfold lower, plain. destruct (Z.leb_spec 65 c), (Z.leb_spec c 90); cbn [andb]; lia.
Qed.
Lemma hash_text_read s j v : parse s = Some j -> j <> JNull -> jdecode (JTPtr (JTBytes hash_codec)) (JVPtr None) j = (v, DOk) ->
  exists text h, j = JStr text /\ v = JVPtr (Some (JVBytes h)) /\ bytes_ok h /\ length h = 32%nat /\ map lower text = Hexutil.Encode h.
Proof.
  intros Hp Hj H. assert (E : exists h, v = JVPtr (Some (JVBytes h)) /\ Hash_UnmarshalJSON (zeros 32) (print j) = (h, None)).
  { cbn [jdecode zero_of hash_codec c_zero] in H. unfold dec_text, text_result in H. cbn [hash_codec c_json c_un c_zero] in H. destruct (Hash_UnmarshalJSON (zeros 32) (print j)) as [h [e|]]; [destruct j; done|]. exists h. split; [|done]. destruct j; try done; by injection H as <-. }
  destruct E as (h & -> & E). unfold Hash_UnmarshalJSON, UnmarshalFixedJSON, UnmarshalJSON in E. destruct (isString (print j)) eqn:Ei; [|discriminate E]. unfold isString in Ei. apply andb_true_iff in Ei as [Ei _]. apply andb_true_iff in Ei as [_ Ei]. apply bool_decide_eq_true in Ei.
  destruct j as [|[]|t|text|vs|ms]; try discriminate Ei; [by apply parse_num in Hp|]. exists text, h. cbn [negb print] in E. change (print (JStr text)) with (quote text) in E. unfold quote in E. cbn [length drop] in E. rewrite length_app in E. cbn [length] in E.
  replace (S (length text + 1) - 2)%nat with (length text) in E by lia. rewrite drop_0, take_app_length in E. destruct (UnmarshalFixedText _ _ _) as [b [e|]] eqn:Eu; [destruct e; discriminate E|]. injection E as ->.
  apply UnmarshalFixedText_iff in Eu as [Hl Eu]. change (length (zeros 32)) with 32%nat in Hl. destruct Eu as [[_ ->]|[Hb Et]]; [discriminate Hl|done].
Qed.
Lemma HexToHash_text text h : bytes_ok h -> length h = 32%nat -> map lower text = Hexutil.Encode h -> HexToHash text = Some h.
Proof.
  intros Hb Hl E. unfold HexToHash. rewrite (FromHex_text text h Hb E). destruct (fixed_bytes_from h 0 (zeros 32) (zeros 20) Hb eq_refl eq_refl) as (_ & _ & _ & H & _). unfold BytesToHash, HashLength. rewrite H, Hl. cbn [Nat.sub take drop]. done.
Qed.

Section block_hash.
  Context (w g : Z) (node : Node) (n : Z).
  #[local] Abbreviation args := [arg_uint g; arg_str (string_of_rune n)].

Lemma chan_hash_read v : chan_ask w g node (QBlockHashByNumber n) = (v, None) ->
  v = JVPtr None \/ exists text h, rpcCall node JTStr "getBlockHashByNumber" args = (JVStr text, None) /\ bytes_ok h /\ length h = 32%nat /\ map lower text = Hexutil.Encode h /\ v = JVPtr (Some (JVBytes h)).
Proof.
  cbn [chan_ask]. intros H. apply rpcCall_none in H as (resp & H1 & H2 & H3 & Hu). apply unmarshal_none in Hu as (j & Hj & Hu). destruct (is_null_spec j) as [-> |Hn]; [by left|right].
  destruct (hash_text_read _ _ _ Hj Hn Hu) as (text & h & -> & -> & Hb & Hl & Et). exists text, h. split; [|done]. apply rpcCall_none. exists resp. split_and!; [done..|]. apply unmarshal_none. exists (JStr text). split; [done|].
  cbn [is_null jdecode]. rewrite unquote_plain; [done|]. apply lower_plain. rewrite Et. by apply Encode_plain.
Qed.
Lemma rpc_hash_read v : rpc_ask w g node (QBlockHashByNumber n) = (v, None) <->
  exists text, rpcCall node JTStr "getBlockHashByNumber" args = (JVStr text, None) /\ text <> [] /\ v = JVPtr (JVBytes <$> HexToHash text).
Proof.
  cbn [rpc_ask]. unfold hash_result, rpc_BlockHashByNumber, getBlockHashByNumber. destruct (get_direct node JTStr "getBlockHashByNumber" args) as [r [e|]] eqn:Eg; cbn [fst snd].
  - split; [done|]. intros (text & H & Hne & _). assert (G : get_direct node JTStr "getBlockHashByNumber" args = (JVStr text, None)); [|congruence]. apply get_direct_none; [done|]. split; [done|]. by destruct text.
  - apply get_direct_none in Eg as [Eg Ee]; [|done]. rewrite Eg. split.
    + intros [= <-]. assert (Hr : exists t, r = JVStr t); [|destruct Hr as [t ->]; exists t; split_and!; [done| |done]; by intros ->].
      apply rpcCall_none in Eg as (resp & _ & _ & _ & Eu). apply unmarshal_none in Eu as (j & _ & Eu). destruct j as [| | |raw| |]; cbn [is_null jdecode zero_of] in Eu; try discriminate Eu; [by exists []|]. destruct (unquote raw); [injection Eu as <-; by eexists|discriminate Eu].
    + intros (text & [= ->] & _ & ->). done.
Qed.
End block_hash.

Lemma agree_found w g node q v : same_answer g node q -> chan_ask w g node q = (v, None) -> found q v = true -> rpc_ask w g node q = (v, None).
Proof.
  intros Hs Hc Hf. destruct (by_type q) eqn:Ey; [by apply agree_by_type|]. destruct q; try discriminate Ey; [by apply agree_number|]. apply rpc_hash_read.
  destruct (chan_hash_read _ _ _ _ _ Hc) as [-> |(text & h & H & Hb & Hl & Et & ->)]; [discriminate Hf|]. exists text. split_and!; [done| |by rewrite (HexToHash_text text h)]. intros ->. by rewrite Encode_eq in Et.
Qed.

(** A node that gives every method the same result. *)
Definition always (text : list Z) : Node := fun method args => inr {| Version := str "2.0"; ID := str "1"; Method := []; Params := []; Error := None; RpcResult := text |}.



(** ** Answers are read *)

Ltac struct_type_ok := apply struct_ok; [vm_compute; reflexivity..|]; repeat (apply Forall_cons_2; [cbn [snd jtype_ok]; auto|]); apply Forall_nil_2.

Lemma receipt_type_ok w : 0 <= w <= 64 -> jtype_ok (receipt_type w).
Proof.
  intros Hw. pose proof hash_law. pose proof address_law. pose proof bloom_law. pose proof (log_dec_type_ok w Hw). struct_type_ok.
Qed.
Lemma q_type_ok w q : 0 <= w <= 64 -> jtype_ok (q_type w q).
Proof.
  intros Hw. pose proof hash_law. assert (T : jtype_ok tx_by_hash_type) by struct_type_ok. assert (P : jtype_ok peer_type) by struct_type_ok.
  pose proof bytes_law. destruct q; cbn [q_type]; try exact I; try exact T; try (by apply receipt_type_ok); try done; change (jtype_ok (JTPtr ?t)) with (jtype_ok t); change (jtype_ok (JTSlice ?t)) with (jtype_ok t); struct_type_ok.
Qed.

(** The answer with the text of a value. *)
Definition answers (node : Node) (method : string) (args : list json) (text : list Z) : Prop :=
  exists resp, node (str method) args = inr resp /\ Error resp = None /\ RpcResult resp = text.

Lemma print_ne j : json_ok j -> print j <> [].
Proof. intros H. by destruct (print_first j H) as (c & r & -> & _). Qed.

Lemma rpcCall_reads node t m args v : jtype_ok t -> jval_ok t v -> jencode t v <> JNull -> answers node m args (json_Marshal t v) -> rpcCall node t m args = (v, None).
Proof.
  intros Ht Hv Hn (resp & H1 & H2 & H3). apply rpcCall_none. exists resp. rewrite H3. split_and!; [done|done|by apply print_ne, encode_ok|]. by apply json_marshal_roundtrip.
Qed.

(** What the node sends for a result: the hex text for a block number, else the
    result itself; and the results. *)
Definition sent (q : query) (v : jval) : jval := match q, v with QBlockNumber, JVPtr (Some (JVNum n)) => JVStr (EncodeUint64 n) | _, _ => v end.
Definition result_ok (w : Z) (q : query) (v : jval) : Prop :=
  match q with
  | QBlockNumber => exists n, v = JVPtr (Some (JVNum n)) /\ 0 <= n < 2 ^ 63
  | _ => jval_ok (q_type w q) v /\ jencode (q_type w q) v <> JNull
  end.

Lemma number_read g node n : 0 <= n < 2 ^ 63 -> answers node "getBlockNumber" [arg_uint g] (json_Marshal JTStr (JVStr (EncodeUint64 n))) -> chan_BlockNumber node g = (Some n, None).
Proof.
  intros Hn Ha. unfold chan_BlockNumber. rewrite (rpcCall_reads node JTStr _ _ (JVStr (EncodeUint64 n)) I); [| |done|done].
  - cbn [text_of]. rewrite EncodeUint64_eq. rewrite (proj2 (DecodeUint64_iff _ n)); [cbn [fmap option_fmap option_map]; rewrite i64_id by lia; done|]. split; [unfold u64_ok; lia|]. by rewrite map_app, lower_FormatUint by lia.
  - rewrite EncodeUint64_eq. assert (P : Forall plain (str "0x" ++ FormatUint n 16)) by (apply prefix_plain, Format_plain; lia). split; [by apply bytes_plain|by apply valid_plain].
Qed.



Lemma ToHex_Encode data : data <> [] -> ToHex data = Hexutil.Encode data.
Proof.
  intros Hd. unfold ToHex, Bytes2Hex. rewrite Encode_eq, len_eqb_nil. rewrite bool_decide_false; [done|]. intros H. apply (f_equal length) in H. rewrite hex_Encode_length in H. destruct data; [done|]. cbn in H. lia.
Qed.

(** ** Sending transactions *)

(** The second parameter of a request, as bytes. *)
Definition param_bytes (j : json) : option (list Z) :=
  match j with
  | JObj ms => match ms !! 3%nat with
               | Some (_, JArr [_; JStr raw]) => FromHex <$> unquote raw
               | _ => None
               end
  | _ => None
  end.

(** When the client reports that a transaction was accepted. *)
Lemma chan_send_none node g eb d : txdata_ok d -> size_ok (tx_items d) -> length (sizebuf eb) = 9%nat ->
  (chan_SendTransaction node g eb d = None <->
     exists resp, node (str "sendRawTransaction") [arg_uint g; arg_str (ToHex (rlp_enc (Lst (tx_items d))))] = inr resp /\ Error resp = None /\ is_Some (parse (RpcResult resp))).
Proof.
  intros Hd Hz Hb. unfold chan_SendTransaction. rewrite (tx_bytes eb d Hd Hz Hb). set (args := [_; _]). destruct (rpcCall node JTAny "sendRawTransaction" args) as [v o] eqn:E. cbn [snd]. split.
  - intros ->. apply rpcCall_none in E as (resp & H1 & H2 & _ & H3). exists resp. apply unmarshal_none in H3 as (j & H3 & _). by rewrite H3.
  - intros (resp & H1 & H2 & [j H3]). assert (G : exists v', rpcCall node JTAny "sendRawTransaction" args = (v', None)); [|destruct G as [v' G]; rewrite G in E; by injection E as _ <-].
    exists (match j with JNull => JVAny None | _ => JVAny (Some j) end). apply rpcCall_none. exists resp. split_and!; [done|done|by intros Hn; rewrite Hn in H3|]. apply unmarshal_none. exists j. split; [done|]. by destruct j.
Qed.

(** SendTransaction delivers the transaction.  The request that it sends, put
    on the wire with any id and sequence number, is read by a node as a call of
    sendRawTransaction for the group whose second parameter is the RLP encoding
    of the transaction, which decodes to the transaction; and SendTransaction
    returns nil exactly if the node answered without an error and with a result
    that is JSON. *)
Theorem send_transaction_delivered node g eb pooled d id random :
  txdata_ok d -> size_ok (tx_items d) -> length (sizebuf eb) = 9%nat -> pooled_ok pooled -> 0 <= g -> 0 <= id -> length random = 16%nat ->
  let data := rlp_enc (Lst (tx_items d)) in
  let args := [arg_uint g; arg_str (ToHex data)] in
  43 + len (print (request_json id (str "sendRawTransaction") args)) < 2 ^ 32 ->
  (chan_SendTransaction node g eb d = None <->
     exists resp, node (str "sendRawTransaction") args = inr resp /\ Error resp = None /\ is_Some (parse (RpcResult resp))) /\
  exists wire req, request_wire id (str "sendRawTransaction") args random = Some wire /\ node_reads wire = Some req /\ param_bytes req = Some data /\
    DecodeBytes tx_decoders pooled data (Some (TPtr tx_type, VPtr (Some (RlpTypes.zero tx_type)))) = Ok (tx_value (normal d)).
Proof.
  intros Hd Hz Hb Hp Hg Hid Hr data args Hl. pose proof (tx_items_bytes d Hd) as Hib. assert (Hne : data <> []) by apply rlp_enc_not_nil.
  assert (Hdb : bytes_ok data) by (apply rlp_enc_bytes_ok; split; [done|]; rewrite <- rlp_encs_single; by apply size_ok_lt). assert (Hhex : Forall plain (ToHex data)) by (rewrite ToHex_Encode by done; by apply Encode_plain).
  assert (Hargs : Forall json_ok args).
  { apply Forall_cons_2; [by apply FormatUint_num|]. apply Forall_cons_2; [by apply escape_raw, bytes_plain|apply Forall_nil_2]. }
  split; [by apply chan_send_none|].
  destruct (request_read id (str "sendRawTransaction") args random) as (wire & H1 & H2); [done|apply (bool_decide_unpack _); vm_compute; exact I|done|done|done|].
    exists wire, (request_json id (str "sendRawTransaction") args). split_and!; [done|done| |by apply tx_read]. unfold request_json, args. rewrite bool_decide_false by done. cbn [app param_bytes lookup list_lookup].
    unfold arg_str. rewrite escape_plain, unquote_plain by done. cbn [fmap option_fmap option_map]. f_equal. apply FromHex_text; [done|]. rewrite ToHex_Encode by done. by apply lower_Encode.
Qed.

Lemma send_transaction_delivered_witness : exists wire req, request_wire 1 (str "sendRawTransaction") [arg_uint 1; arg_str (ToHex (rlp_enc (Lst (tx_items sample_tx))))] (zeros 16) = Some wire /\
  node_reads wire = Some req /\ param_bytes req = Some (rlp_enc (Lst (tx_items sample_tx))).
Proof.
  assert (Hz : size_ok (tx_items sample_tx)) by (by vm_compute).
  destruct (send_transaction_delivered (always []) 1 new_encbuf (zero_stream []) sample_tx 1 (zeros 16) sample_tx_ok Hz eq_refl (or_introl eq_refl) ltac:(lia) ltac:(lia) eq_refl) as (_ & wire & req & H1 & H2 & H3 & _); [vm_compute; reflexivity|].
  by exists wire, req.
Defined.

(** ** Calls that ask for something else *)

Lemma rune_not_ascii n : 128 <= n -> Forall (fun c => 128 <= c) (string_of_rune n) /\ string_of_rune n <> [].
Proof.
  intros Hn. unfold string_of_rune, EncodeRune. set (r := if (_ || _ : bool) then RuneError else n). assert (Hr : 128 <= r) by (unfold r; destruct (_ || _); [done|lia]). clearbody r. clear n Hn.
  destruct (Z.leb_spec r 127); [lia|]. destruct (Z.leb_spec r 2047); [|destruct (Z.leb_spec r 65535)]; (split; [|done]); repeat (apply Forall_cons_2; [|]); try apply Forall_nil_2; Z.to_euclidean_division_equations; lia.
Qed.

(** A text that names a block. *)
Definition block_text (text : list Z) : Prop := text = str "latest" \/ exists m, 0 <= m /\ (text = FormatUint m 10 \/ text = EncodeUint64 m).

Lemma rune_not_block n : 0 <= n -> ~ 48 <= n <= 57 -> ~ block_text (string_of_rune n).
Proof.
  intros Hn Hd. destruct (Z.leb_spec 128 n) as [Hge|Hlt].
  - destruct (rune_not_ascii n Hge) as [Ha Hne]. intros [H|(m & Hm & [H|H])]; rewrite H in *.
    + apply Forall_cons in Ha as [Ha _]. change (128 <= 108) in Ha. lia.
    + destruct (FormatUint_spec 10 ltac:(lia) m Hm) as (ds & E & Hds & _). rewrite E in *. destruct ds as [|d ds]; [done|]. apply Forall_cons in Ha as [Ha _]. apply Forall_cons in Hds as [Hd0 _]. destruct (digit_char_digit d Hd0) as [Ed _]. lia.
    + rewrite EncodeUint64_eq in *. apply Forall_app in Ha as [Ha _]. apply Forall_cons in Ha as [Ha _]. change (128 <= 48) in Ha. lia.
  - assert (Es : string_of_rune n = [n]).
    { unfold string_of_rune, EncodeRune. rewrite (proj2 (Z.ltb_ge n 0)), (proj2 (Z.ltb_ge 1114111 n)), (proj2 (Z.leb_gt 55296 n)) by lia. cbn [orb andb]. by destruct (Z.leb_spec n 127); [|lia]. }
    rewrite Es. intros [H|(m & Hm & [H|H])]; [done| |].
    + destruct (FormatUint_spec 10 ltac:(lia) m Hm) as (ds & E & Hds & _). rewrite E in H. destruct ds as [|d [|]]; try done. injection H as H. apply Forall_cons in Hds as [Hd0 _]. destruct (digit_char_digit d Hd0) as [Ed _]. lia.
    + rewrite EncodeUint64_eq in H. apply (f_equal length) in H. rewrite length_app in H. cbn in H. lia.
Qed.

(** Two calls ask for something else.  A node that finds the transaction by
    its hash and refuses a call without an index and a block that no text names:
    TransactionByHash of the channel client returns the transaction, that of the
    rpc client, which calls getTransactionByBlockHashAndIndex, the refusal; and
    BlockHashByNumber of both clients, which sends the number as a rune, gets the
    refusal for every number that is not the code of a digit. *)
Theorem calls_that_miss g node n h v e :
  0 <= n -> ~ 48 <= n <= 57 -> jval_ok (JTPtr tx_by_hash_type) v -> jencode (JTPtr tx_by_hash_type) v <> JNull ->
  answers node "getTransactionByHash" [arg_uint g; arg_str h] (json_Marshal (JTPtr tx_by_hash_type) v) ->
  node (str "getTransactionByBlockHashAndIndex") [arg_uint g; arg_str h] = inl e ->
  (forall text, ~ block_text text -> node (str "getBlockHashByNumber") [arg_uint g; arg_str text] = inl e) ->
  chan_TransactionByHash node g h = (v, None) /\ rpc_TransactionByHash node g h = (JVPtr None, Some (ErrClient e)) /\
  chan_BlockHashByNumber node g n = (JVPtr None, Some (ErrClient e)) /\ rpc_BlockHashByNumber node g n = (None, Some (ErrClient e)).
Proof.
  intros Hn Hd Hv Hnn Ha He Hb. pose proof (Hb _ (rune_not_block n Hn Hd)) as Hr. split_and!.
  - unfold chan_TransactionByHash. apply rpcCall_reads; [change (jtype_ok tx_by_hash_type); struct_type_ok|done..].
  - unfold rpc_TransactionByHash, getTransactionByHash, get_raw, CallContext_result. by rewrite He.
  - unfold chan_BlockHashByNumber, rpcCall. by rewrite Hr.
  - unfold rpc_BlockHashByNumber, getBlockHashByNumber, get_direct, CallContext, CallContext_result. by rewrite Hr.
Qed.

(** A node that knows one transaction. *)
Definition sample_tx_result : jval := JVPtr (Some (JVStruct (replicate 11 (JVStr (str "0x1"))))).
Definition one_tx_node : Node := fun method args =>
  if bool_decide (method = str "getTransactionByHash") then always (json_Marshal (JTPtr tx_by_hash_type) sample_tx_result) method args else inl ErrTimeout.

Lemma calls_that_miss_witness : rpc_TransactionByHash one_tx_node 1 (str "0x1") = (JVPtr None, Some (ErrClient ErrTimeout)) /\ chan_BlockHashByNumber one_tx_node 1 1000 = (JVPtr None, Some (ErrClient ErrTimeout)).
Proof.
  destruct (calls_that_miss 1 one_tx_node 1000 (str "0x1") sample_tx_result ErrTimeout) as (_ & H1 & H2 & _); try lia; try done.
  - split; [|done]. apply struct_val. repeat (apply Forall2_cons_2; [split; [apply (bool_decide_unpack _); vm_compute; exact I|reflexivity]|]). apply Forall2_nil_2.
  - by eexists.
Defined.
