(* ===== verification/ClientBind.v ===== *)
(** * Bound contracts over the channel client

    The channel client as the backend of bound contracts: a transaction of a
    contract reaches the node as the parameter of one request. *)

From Stdlib Require Import String.
From stdpp Require Import gmap.
From S2P Require Import Prelude ClientMessage ClientChannel RlpSpec RlpEncode RlpTypes RlpStream RlpWriter RlpDecoder RlpRoundtrip Receipt.
From S2P Require Import GoText Hexutil Math Common Crypto Json JsonTypes TypesJson AbiType AbiPack AbiUnpack Abi Transaction Calls Bind.

Section backend.
  Context (uintBits : Z) (nodes : nat -> Node) (groupID : Z) (eb : encbuf) (err_code : call_error -> nat).

(** The methods of the client behind the interface; [nodes] are the answers by
    rounds of waiting.  A receipt with a log that is nil is taken as no receipt. *)
Definition chan_backend : backend := MkBackend
  (match chan_BlockNumber (nodes 0%nat) groupID with (Some n, None) => inr n | (None, None) => inr 0 | (_, Some e) => inl (err_code e) end)
  (fun tx => err_code <$> chan_SendTransaction (nodes 0%nat) groupID eb (data tx))
  (fun round hash => match chan_TransactionReceipt uintBits (nodes round) groupID hash with
                     | (_, Some e) => inl (err_code e)
                     | (JVPtr (Some r), None) => inr (receipt_of r)
                     | _ => inr None
                     end)
  (fun msg => match chan_CallContract (nodes 0%nat) (msg_GroupId msg) (MkCallEthMsg (msg_From msg) (Some (msg_To msg)) 0 None None (msg_Data msg)) with
              | (_, Some e) => inl (err_code e)
              | (v, None) => inr (TypesJson.bytes_of v)
              end)
  (fun account => match chan_CodeAt (nodes 0%nat) groupID account None with
                  | (_, Some e) => inl (err_code e)
                  | (v, None) => inr (TypesJson.bytes_of v)
                  end).
End backend.

Lemma block_number_read node g h : 0 <= h < 2 ^ 63 -> answers node "getBlockNumber" [arg_uint g] (json_Marshal JTStr (JVStr (EncodeUint64 h))) ->
  chan_BlockNumber node g = (Some h, None).
Proof.
  intros Hh Ha. unfold chan_BlockNumber. assert (Hp : Forall plain (EncodeUint64 h)) by (rewrite EncodeUint64_eq; apply prefix_plain, Format_plain; lia).
  rewrite (rpcCall_reads node JTStr "getBlockNumber" [arg_uint g] (JVStr (EncodeUint64 h))); [|done|split; [by apply bytes_plain|by apply valid_plain]|done|done].
  assert (E : DecodeUint64 (EncodeUint64 h) = (h, None)) by (apply DecodeUint64_iff; split; [unfold u64_ok; lia|]; rewrite EncodeUint64_eq, map_app, lower_FormatUint by lia; done).
  cbn [text_of]. rewrite E. cbn [fmap option_fmap option_map]. f_equal. f_equal. unfold i64, sint. destruct (Z.ltb_spec (h mod 2 ^ 64) (2 ^ (64 - 1))); rewrite Z.mod_small in * by lia; lia.
Qed.

(** ** The size of a signed transaction *)

Lemma tx_items_signed d r t v : tx_items (set_signature d r t v) = frontier_items d ++ [Str (big_bytes v); Str (big_bytes r); Str (big_bytes t)].
Proof. done. Qed.

Lemma rlp_word_len z : 0 <= z < 2 ^ 256 -> len (rlp_enc (Str (big_bytes z))) <= 33.
Proof.
  intros Hz. pose proof (big_bytes_len_le z 32 ltac:(lia)) as Hl. cbn [rlp_enc]. unfold enc_str, str_head. destruct (self_byte (big_bytes z)); [lia|].
  rewrite enc_head_small by lia. rewrite len_app. change (len [_]) with 1. lia.
Qed.

Lemma size_header its : len (rlp_encs its) + 9 <= maxAlloc -> size_ok its.
Proof.
  intros Hl. unfold size_ok, maxAlloc in *. rewrite rlp_enc_lst, len_app. unfold list_head, enc_head. pose proof (len_nonneg (rlp_encs its)). set (n := len (rlp_encs its)) in *.
  destruct (n <? 56); [change (len [_]) with 1; lia|]. rewrite len_cons. pose proof (big_bytes_len_le n 8 ltac:(lia)). lia.
Qed.

(** The three numbers of a signature add at most 99 bytes to the payload, and its
    header is at most nine bytes. *)
Lemma signed_size d r t v : 0 <= r < 2 ^ 256 -> 0 <= t < 2 ^ 256 -> 0 <= v < 2 ^ 256 -> len (rlp_encs (frontier_items d)) + 108 <= maxAlloc ->
  size_ok (tx_items (set_signature d r t v)).
Proof.
  intros Hr Ht Hv Hl. pose proof (rlp_word_len r Hr). pose proof (rlp_word_len t Ht). pose proof (rlp_word_len v Hv).
  assert (Hp : len (rlp_encs (tx_items (set_signature d r t v))) <= len (rlp_encs (frontier_items d)) + 99).
  { rewrite tx_items_signed, rlp_encs_app, len_app, !rlp_encs_cons, !len_app. change (len (rlp_encs [])) with 0. lia. }
  apply size_header. lia.
Qed.

Lemma signed_ok d r t v : 0 <= r -> 0 <= t -> 0 <= v -> txdata_ok d -> txdata_ok (set_signature d r t v).
Proof. intros Hr Ht Hv []. by split. Qed.

(** ** A contract's transaction reaches the node *)

(** C1: From a contract method to the node.  A bound contract over the channel
    client, with a signer of its key and a node that answers getBlockNumber with
    the height h, sends one signed transaction unless the library fails to sign.
    Its block limit is h + 200; only the signature was added to it; its sender is
    the key's address (but for recovery ids 2 and 3).  The node is asked to run
    sendRawTransaction on the hexadecimal text of its RLP, which decodes to that
    transaction, and Transact returns the transaction exactly when the node
    answers without an error. *)
Theorem contract_reaches_node wb `{SecpLaws} Keccak256 eb eb' pooled wn md5 NewUUID uintBits nodes g err_code abi address fuel j key a opts method params input h :
  (0 < wb)%nat -> (0 < wn)%nat -> keccak_ok Keccak256 -> (forall x, sixteen (md5 x)) -> (forall k, sixteen (NewUUID k)) ->
  length (sizebuf eb) = 9%nat -> length (sizebuf eb') = 9%nat -> pooled_ok pooled -> key_ok (pub_of := pub_of) key ->
  PubkeyToAddress Keccak256 (key_pub key) = Some a -> To_Signer opts = Some (keyed_signer wb Keccak256 eb key a) -> To_From opts = a ->
  ABI_Pack wb abi method params = Ok input -> 0 <= h < 2 ^ 63 ->
  answers (nodes 0%nat) "getBlockNumber" [arg_uint g] (json_Marshal JTStr (JVStr (EncodeUint64 h))) ->
  (j < fuel)%nat -> (forall i, (i < j)%nat -> default 0 (head (uuid_hash md5 NewUUID i)) < 16) ->
  16 <= default 0 (head (uuid_hash md5 NewUUID j)) ->
  let raw := raw_data opts address input h (be_val (uuid_hash md5 NewUUID j)) in
  txdata_ok raw -> len (rlp_encs (frontier_items raw)) + 108 <= maxAlloc ->
  let s := Transact wb eb wn md5 NewUUID (chan_backend uintBits nodes g eb err_code) abi address fuel opts method params in
  match s_txs s with
  | [tx] =>
      let bytes := rlp_enc (Lst (tx_items (data tx))) in
      (exists v r t, 0 <= v < 4 /\ data tx = set_signature raw r t (v + 27) /\
         if v <? 2 then Sender Keccak256 eb' HomesteadSigner tx = Ok (a, Tx (data tx) None None (Some (HomesteadSigner, a)))
         else exists e, Sender Keccak256 eb' HomesteadSigner tx = Err e) /\
      DecodeBytes tx_decoders pooled bytes (Some (TPtr tx_type, VPtr (Some (RlpTypes.zero tx_type)))) = Ok (tx_value (normal (data tx))) /\
      (s_result s = Ok tx <-> exists resp, nodes 0%nat (str "sendRawTransaction") [arg_uint g; arg_str (ToHex bytes)] = inr resp /\ Error resp = None /\ is_Some (parse (RpcResult resp)))
  | [] => s_result s = Err (errSigning (errCrypto ErrSignFailed))
  | _ => False
  end.
Proof.
  intros Hwb Hwn Hk Hm Hu Hb Hb' Hpl Hko Ha Hsig Hfrom Hp Hh Hn Hj Hlow Hhigh raw Hd Hz s. set (b := chan_backend uintBits nodes g eb err_code) in *.
  assert (Hlmt : BlockNumber b = inr h) by (unfold b, chan_backend; cbn [BlockNumber]; by rewrite (block_number_read _ _ h Hh Hn)).
  assert (Hzf : size_ok (frontier_items raw)) by (apply size_header; lia).
  destruct (transact_signed wb Keccak256 eb eb' wn md5 NewUUID b abi address fuel j key a opts method params input h Hwb Hwn Hk Hm Hu Hb Hb' Hko Ha Hsig Hp Hlmt Hj Hlow Hhigh Hd Hzf Hfrom)
    as [(tx & v & r & t & E & Hv & [Hr Ht] & Ed & HS & Hres)|[E Hres]]; fold s in E, Hres; rewrite E; [|done].
  assert (HN : secp256k1N < 2 ^ 256 /\ secp256k1halfN < 2 ^ 256) by (by vm_compute).
  assert (Hok : txdata_ok (data tx)) by (rewrite Ed; apply signed_ok; [lia..|done]).
  assert (Hsz : size_ok (tx_items (data tx))) by (rewrite Ed; apply signed_size; [lia..|exact Hz]).
  split; [by exists v, r, t|]. split; [by apply tx_read|]. rewrite <- (chan_send_none (nodes 0%nat) g eb (data tx) Hok Hsz Hb), Hres. unfold b, chan_backend. cbn [SendTransaction].
  by destruct (chan_SendTransaction (nodes 0%nat) g eb (data tx)).
Qed.

(** The sample contract over a node that knows the height 1000 and accepts all. *)
Definition sample_node : Node := fun method args =>
  always (json_Marshal JTStr (JVStr (if bool_decide (method = str "getBlockNumber") then EncodeUint64 1000 else str "0x1"))) method args.
Definition sample_client : backend := chan_backend 64 (fun _ => sample_node) 1 new_encbuf (fun _ => 0%nat).

Lemma sample_client_sent : exists tx, s_txs (Transact 8 new_encbuf 16 (fun _ => replicate 16 17) (fun _ => replicate 16 1) sample_client sample_abi
    (replicate 20 9) 1 (sample_opts (zeros 20)) (GoText.str "set") sample_values) = [tx] /\ tx_V (data tx) = Some 27.
Proof. eexists. split; [vm_compute; reflexivity|reflexivity]. Qed.

Lemma contract_reaches_node_witness :
  let s := Transact 8 new_encbuf 16 (fun _ => replicate 16 17) (fun _ => replicate 16 1) sample_client sample_abi (replicate 20 9) 1
             (sample_opts (zeros 20)) (GoText.str "set") sample_values in
  exists tx, s_txs s = [tx] /\ s_result s = Ok tx /\ exists a tx', @Sender one_point_library (fun _ => zeros 32) new_encbuf HomesteadSigner tx = Ok (a, tx').
Proof.
  destruct sample_input as (input & Hp & Hb & _).
  assert (Hz : len (rlp_encs (frontier_items (raw_data (sample_opts (zeros 20)) (replicate 20 9) input 1000 (be_val (replicate 16 17))))) + 108 <= maxAlloc).
  { vm_compute in Hp. injection Hp as <-. by vm_compute. }
  assert (Hd : txdata_ok (raw_data (sample_opts (zeros 20)) (replicate 20 9) input 1000 (be_val (replicate 16 17)))).
  { split; try (by vm_compute); try exact Hb. intros a [= <-]. split; [done|]. exact (Forall_replicate byte_ok 20 9 ltac:(done)). }
  assert (H16 : forall c (A : Type) (x : A), byte_ok c -> sixteen (replicate 16 c)) by (intros; split; [done|by apply Forall_replicate]).
  assert (H0 : forall i, (i < 0)%nat -> default 0 (head (uuid_hash (fun _ => replicate 16 17) (fun _ => replicate 16 1) i)) < 16) by lia.
  assert (Hn : answers sample_node "getBlockNumber" [arg_uint 1] (json_Marshal JTStr (JVStr (EncodeUint64 1000)))) by (eexists; split_and!; reflexivity).
  pose proof (@contract_reaches_node 8 one_point_library _ one_point_laws (fun _ => zeros 32) new_encbuf new_encbuf (zero_stream []) 16 (fun _ => replicate 16 17)
    (fun _ => replicate 16 1) 64 (fun _ => sample_node) 1 (fun _ => 0%nat) sample_abi (replicate 20 9) 1 0 (PrivKey 1 (curve_Gx, curve_Gy)) (zeros 20)
    (sample_opts (zeros 20)) (GoText.str "set") sample_values input 1000 ltac:(lia) ltac:(lia) sample_keccak_ok
    (fun x => H16 17 _ x ltac:(done)) (fun k => H16 1 _ k ltac:(done)) eq_refl eq_refl (or_introl eq_refl) sample_key_ok eq_refl eq_refl eq_refl Hp ltac:(lia) Hn
    ltac:(lia) H0 ltac:(done) Hd Hz) as H.
  destruct sample_client_sent as (tx & E & Ev). fold sample_client in H. cbv zeta in H |- *. rewrite E in H |- *.
  destruct H as ((v & r & t & Hv & Ed & Hs) & _ & Hr). exists tx. split; [reflexivity|].
  split; [apply Hr; eexists; split_and!; [reflexivity|reflexivity|by apply (bool_decide_unpack _); vm_compute]|]. rewrite Ed in Ev. cbn in Ev. assert (v = 0) as -> by (injection Ev; lia). exact (ex_intro _ _ (ex_intro _ _ Hs)).
Defined.
