(* ===== verification/GoCipher.v ===== *)
(** * The ciphers and hashes of the standard library

    crypto/cipher (counter mode and cipher block chaining), crypto/hmac and
    hash.Hash, over block ciphers and hash functions that are parameters, for the
    packages ecies and keystore. *)

From S2P Require Import Prelude.

(** ** Hashes *)

(** hash.Hash: the digest of all that was written since Reset, the size of
    digests and the size of blocks. *)
Record Hash : Type := MkHash { h_sum : list Z -> list Z; h_size : Z; h_block : Z }.
Definition hash_ok (h : Hash) : Prop := 0 < h_size h /\ forall m, len (h_sum h m) = h_size h /\ bytes_ok (h_sum h m).

Definition xor_bytes (a b : list Z) : list Z := zip_with Z.lxor a b.

(** hmac.New, Write and Sum. *)
Definition hmac (h : Hash) (key msg : list Z) : list Z :=
  let key := if h_block h <? len key then h_sum h key else key in
  let pad c := xor_bytes (go_copy (zeros (h_block h)) key) (replicate (Z.to_nat (h_block h)) c) in
  h_sum h (pad 0x5c ++ h_sum h (pad 0x36 ++ msg)).

Lemma hmac_len h key msg : hash_ok h -> len (hmac h key msg) = h_size h.
Proof. intros [_ H]. unfold hmac. apply H. Qed.
Lemma hmac_bytes h key msg : hash_ok h -> bytes_ok (hmac h key msg).
Proof. intros [_ H]. unfold hmac. apply H. Qed.

(** subtle.ConstantTimeCompare. *)
Definition ConstantTimeCompare (x y : list Z) : Z := if bool_decide (x = y) then 1 else 0.

(** ** Block ciphers *)

(** cipher.Block. *)
Record Block : Type := MkBlock { b_size : Z; b_encrypt : list Z -> list Z; b_decrypt : list Z -> list Z }.
Definition block_ok (b : Block) : Prop :=
  0 < b_size b /\ (forall x, len x = b_size b -> len (b_encrypt b x) = b_size b /\ bytes_ok (b_encrypt b x)) /\
  (forall x, len x = b_size b -> len (b_decrypt b x) = b_size b /\ bytes_ok (b_decrypt b x)).

(** The counter of the next block: a big-endian increment. *)
Definition next_counter (ctr : list Z) : list Z := be_bytes (length ctr) (be_val ctr + 1).
(** [n] blocks of the key stream. *)
Fixpoint key_stream (b : Block) (ctr : list Z) (n : nat) : list Z :=
  match n with
  | O => []
  | S n => b_encrypt b ctr ++ key_stream b (next_counter ctr) n
  end.
(** cipher.NewCTR, which panics when the vector has not the size of a block, and
    XORKeyStream on the whole of a message. *)
Definition CTR (b : Block) (iv src : list Z) : option (list Z) :=
  if negb (len iv =? b_size b) then None
  else Some (xor_bytes src (key_stream b iv (length src))).

Lemma length_key_stream b n : forall ctr, block_ok b -> len ctr = b_size b -> (n <= length (key_stream b ctr n))%nat.
Proof.
  induction n as [|n IH]; intros ctr Hb Hc; [cbn; lia|]. cbn [key_stream]. rewrite length_app.
  destruct Hb as (Hs & He & Hd). destruct (He _ Hc) as [Hl _]. unfold len in Hl.
  assert (len (next_counter ctr) = b_size b) by (unfold next_counter, len in *; by rewrite be_bytes_length).
  pose proof (IH (next_counter ctr) (conj Hs (conj He Hd)) ltac:(done)). lia.
Qed.

Lemma xor_bytes_len a b : (length a <= length b)%nat -> length (xor_bytes a b) = length a.
Proof. intros H. unfold xor_bytes. rewrite length_zip_with. lia. Qed.

Lemma xor_bytes_twice a b : (length a <= length b)%nat -> xor_bytes (xor_bytes a b) b = a.
Proof.
  unfold xor_bytes. revert b. induction a as [|x a IH]; intros [|y b] H; cbn in *; [done|done|lia|]. rewrite IH by lia. f_equal.
  by rewrite Z.lxor_assoc, Z.lxor_nilpotent, Z.lxor_0_r.
Qed.

(** Counter mode is its own inverse. *)
Lemma CTR_inverse b iv src out : block_ok b -> CTR b iv src = Some out -> length out = length src /\ CTR b iv out = Some src.
Proof.
  intros Hb. unfold CTR. destruct (Z.eqb_spec (len iv) (b_size b)) as [E|]; [|done]. cbn [negb]. intros [= <-].
  pose proof (length_key_stream b (length src) iv Hb E). rewrite xor_bytes_len by done. split; [done|]. by rewrite xor_bytes_twice.
Qed.

Lemma lxor_byte a b : byte_ok a -> byte_ok b -> byte_ok (Z.lxor a b).
Proof.
  unfold byte_ok. intros Ha Hb. assert (H0 : 0 <= Z.lxor a b) by (apply Z.lxor_nonneg; lia). split; [done|]. destruct (Z.eq_dec (Z.lxor a b) 0) as [->|N]; [done|].
  apply Z.log2_lt_cancel. change (Z.log2 256) with 8. pose proof (Z.log2_lxor a b ltac:(lia) ltac:(lia)).
  assert (L : forall x, 0 <= x < 256 -> Z.log2 x <= 7). { intros x Hx. change 7 with (Z.log2 255). apply Z.log2_le_mono. lia. }
  pose proof (L a Ha). pose proof (L b Hb). lia.
Qed.

Lemma xor_bytes_ok a b : bytes_ok a -> bytes_ok b -> bytes_ok (xor_bytes a b).
Proof. intros Ha. revert b. induction Ha as [|x a Hx _ IH]; intros b Hb; [constructor|]. destruct Hb as [|y b Hy Hb]; [constructor|]. apply Forall_cons_2; [by apply lxor_byte|by apply IH]. Qed.

Lemma key_stream_bytes b n : forall ctr, block_ok b -> len ctr = b_size b -> bytes_ok (key_stream b ctr n).
Proof.
  induction n as [|n IH]; intros ctr Hb Hc; [constructor|]. cbn [key_stream]. apply bytes_ok_app. split; [by apply Hb|]. apply IH; [done|]. unfold next_counter, len in *. by rewrite be_bytes_length.
Qed.

Lemma CTR_bytes b iv src out : block_ok b -> bytes_ok src -> CTR b iv src = Some out -> bytes_ok out.
Proof.
  intros Hb Hs. unfold CTR. destruct (Z.eqb_spec (len iv) (b_size b)) as [E|]; [|done]. intros [= <-]. apply xor_bytes_ok; [done|by apply key_stream_bytes].
Qed.

(** ** Cipher block chaining *)

(** CryptBlocks of a decrypter, after the block [prev]. *)
Fixpoint cbc_blocks (b : Block) (fuel : nat) (prev ct : list Z) : list Z :=
  match fuel with
  | O => []
  | S fuel =>
      let n := Z.to_nat (b_size b) in
      match ct with
      | [] => []
      | _ => xor_bytes (b_decrypt b (take n ct)) prev ++ cbc_blocks b fuel (take n ct) (drop n ct)
      end
  end.
(** NewCBCDecrypter panics on a vector of another size, CryptBlocks on a text that
    is not made of blocks. *)
Definition CBCDecrypt (b : Block) (iv ct : list Z) : option (list Z) :=
  if negb (len iv =? b_size b) then None
  else if negb (len ct mod b_size b =? 0) then None
  else Some (cbc_blocks b (length ct) iv ct).

(** The encryption that it inverts. *)
Fixpoint cbc_encrypt (b : Block) (prev : list Z) (blocks : list (list Z)) : list Z :=
  match blocks with
  | [] => []
  | p :: blocks => let c := b_encrypt b (xor_bytes p prev) in c ++ cbc_encrypt b c blocks
  end.

Definition block_inverse (b : Block) : Prop := block_ok b /\ forall x, len x = b_size b -> b_decrypt b (b_encrypt b x) = x.

Lemma cbc_encrypt_len b blocks : block_ok b -> forall prev, len prev = b_size b -> Forall (fun p => len p = b_size b) blocks ->
  len (cbc_encrypt b prev blocks) = b_size b * len blocks.
Proof.
  intros (Hs & He & _). induction blocks as [|p blocks IH]; intros prev Hp Hb; [change (len _) with 0 at 1; change (len _) with 0; lia|]. apply Forall_cons in Hb as [Hb1 Hb]. cbn [cbc_encrypt]. rewrite len_app, len_cons.
  assert (Hx : len (xor_bytes p prev) = b_size b) by (unfold len in *; rewrite xor_bytes_len; lia). destruct (He _ Hx) as [Hl _]. rewrite IH, Hl by done. lia.
Qed.

Lemma cbc_inverse b blocks : block_inverse b -> forall prev fuel, len prev = b_size b -> Forall (fun p => len p = b_size b) blocks -> (length blocks <= fuel)%nat ->
  cbc_blocks b fuel prev (cbc_encrypt b prev blocks) = concat blocks.
Proof.
  intros [(Hs & He & _) Hi]. induction blocks as [|p blocks IH]; intros prev fuel Hp Hb Hf; [by destruct fuel|]. destruct fuel as [|fuel]; [cbn in Hf; lia|].
  apply Forall_cons in Hb as [Hb1 Hb]. assert (Hx : len (xor_bytes p prev) = b_size b) by (unfold len in *; rewrite xor_bytes_len; lia). destruct (He _ Hx) as [Hl _].
  cbn [cbc_encrypt cbc_blocks]. set (c := b_encrypt b (xor_bytes p prev)) in *. assert (Hc : Z.to_nat (b_size b) = length c) by (unfold len in Hl; lia).
  destruct (c ++ cbc_encrypt b c blocks) as [|x l] eqn:E; [apply app_eq_nil in E as [E _]; rewrite E in Hl; rewrite len_nil in Hl; lia|]. rewrite <- E, Hc, take_app_length, drop_app_length, IH by (done || cbn in Hf; lia). cbn [concat]. f_equal.
  unfold c. rewrite Hi by done. apply xor_bytes_twice. unfold len in *. lia.
Qed.

(** ** Samples *)

(** A hash and a cipher that add: instances of the laws, not secure ones. *)
Definition toy_hash : Hash := MkHash (fun m => be_bytes 32 (7 * be_val m + len m + 1)) 32 64.
Definition toy_cipher (key : list Z) : Block := MkBlock 16 (fun x => be_bytes 16 (be_val x + be_val key)) (fun x => be_bytes 16 (be_val x - be_val key)).

Lemma toy_hash_ok : hash_ok toy_hash.
Proof. split; [done|]. intros m. cbn [toy_hash h_sum h_size]. split; [unfold len; by rewrite be_bytes_length|apply be_bytes_ok]. Qed.
Lemma toy_cipher_ok key : block_ok (toy_cipher key).
Proof. split; [done|]. cbn [toy_cipher b_size b_encrypt b_decrypt]. split; intros x _; (split; [unfold len; by rewrite be_bytes_length|apply be_bytes_ok]). Qed.
