(* ===== verification/Ecies.v ===== *)
(** * Elliptic curve encryption

    src/crypto/ecies: keys, parameters, the key derivation, Encrypt and Decrypt
    over any curve with the operations of elliptic.Curve. *)

From stdpp Require Import gmap.
From S2P Require Import Prelude Crypto GoCipher.

(** ** crypto/elliptic *)

(** elliptic.Curve with the parts of its parameters in use; curves are compared
    by identity.  A nil point is [None]. *)
Record Curve : Type := MkCurve {
  c_id : nat; c_BitSize : Z; c_P : Z; c_N : Z; c_IsOnCurve : Z -> Z -> bool;
  c_ScalarMult : Z -> Z -> list Z -> outcome unit (option (Z * Z));
  c_ScalarBaseMult : list Z -> outcome unit (option (Z * Z)) }.

Definition byteLen (c : Curve) : Z := (c_BitSize c + 7) / 8.

(** Marshal panics on a coordinate that is too long. *)
Definition curve_Marshal (c : Curve) (x y : Z) : option (list Z) :=
  if (len (big_bytes x) <=? byteLen c) && (len (big_bytes y) <=? byteLen c)
  then Some (4 :: be_bytes (Z.to_nat (byteLen c)) (Z.abs x) ++ be_bytes (Z.to_nat (byteLen c)) (Z.abs y)) else None.
Definition curve_Unmarshal (c : Curve) (data : list Z) : option (Z * Z) :=
  if negb (len data =? 1 + 2 * byteLen c) then None
  else match data with
       | 4 :: t =>
           let x := be_val (take (Z.to_nat (byteLen c)) t) in
           let y := be_val (drop (Z.to_nat (byteLen c)) t) in
           if (c_P c <=? x) || (c_P c <=? y) then None
           else if negb (c_IsOnCurve c x y) then None else Some (x, y)
       | _ => None
       end.

(** io.ReadFull on a source of random bytes. *)
Definition read_random (n : Z) (rand : list Z) : option (list Z * list Z) :=
  if n <=? len rand then Some (take (Z.to_nat n) rand, drop (Z.to_nat n) rand) else None.

Inductive ecies_error : Type :=
| ErrInvalidCurve
| ErrInvalidPublicKey
| ErrSharedKeyIsPointAtInfinity
| ErrSharedKeyTooBig
| ErrInvalidMessage
| ErrUnsupportedECIESParameters
| ErrInvalidKeyLen
| ErrRandom
| ErrCipher.

Definition key_mask (bits : Z) : Z := nth (Z.to_nat (bits mod 8)) [0xff; 0x1; 0x3; 0x7; 0xf; 0x1f; 0x3f; 0x7f] 0xff.
(** The bytes of a candidate; [priv[1]] panics when there is one byte only. *)
Definition masked (bits : Z) (priv : list Z) : option (list Z) :=
  match priv with
  | a :: b :: t => Some (Z.land a (key_mask bits) :: Z.lxor b 0x42 :: t)
  | _ => None
  end.
Fixpoint elliptic_GenerateKey (fuel : nat) (c : Curve) (rand : list Z) : outcome ecies_error (list Z * (Z * Z) * list Z) :=
  match fuel with
  | O => OutOfFuel
  | S fuel =>
      match read_random ((bit_len (c_N c) + 7) / 8) rand with
      | None => Err ErrRandom
      | Some (priv, rest) =>
          let? priv := of_option (masked (bit_len (c_N c)) priv) in
          if c_N c <=? be_val priv then elliptic_GenerateKey fuel c rest
          else match c_ScalarBaseMult c priv with
               | Ok (Some p) => Ok (priv, p, rest)
               | Ok None => elliptic_GenerateKey fuel c rest
               | _ => Panic
               end
      end
  end.

(** ** params.go *)

(** Hash makes a new hash, Cipher a block cipher for a key. *)
Record ECIESParams : Type := MkParams {
  p_Hash : Hash; p_hashAlgo : Z; p_Cipher : list Z -> option Block; p_BlockSize : Z; p_KeyLen : Z }.
Definition maxKeyLen : Z := 512.

Record PublicKey : Type := MkPublic { pk_X : Z; pk_Y : Z; pk_Curve : Curve; pk_Params : option ECIESParams }.
Record PrivateKey : Type := MkPrivate { sk_Public : PublicKey; sk_D : Z }.

(** The parameters of the package, over SHA-2 and AES. *)
Section table.
  Context (sha256 sha384 sha512 : Hash) (aes : list Z -> option Block) (S256 P256 P384 P521 : Curve).
Definition ECIES_AES128_SHA256 : ECIESParams := MkParams sha256 5 aes 16 16.
Definition ECIES_AES256_SHA256 : ECIESParams := MkParams sha256 5 aes 16 32.
Definition ECIES_AES256_SHA384 : ECIESParams := MkParams sha384 6 aes 16 32.
Definition ECIES_AES256_SHA512 : ECIESParams := MkParams sha512 7 aes 16 32.
Definition default_paramsFromCurve : gmap nat ECIESParams :=
  <[c_id S256 := ECIES_AES128_SHA256]> (<[c_id P256 := ECIES_AES128_SHA256]> (<[c_id P384 := ECIES_AES256_SHA384]> (<[c_id P521 := ECIES_AES256_SHA512]> ∅))).
Definition AddParamsForCurve (table : gmap nat ECIESParams) (curve : Curve) (params : ECIESParams) : gmap nat ECIESParams := <[c_id curve := params]> table.
End table.

(** The curve secp256k1 over the C library. *)
Definition S256_curve (wb : nat) `{Secp256k1} (id : nat) : Curve :=
  MkCurve id BitSize curve_P curve_N IsOnCurve (ScalarMult wb) (ScalarBaseMult wb).

Section ecies.
  (** The table paramsFromCurve, by curves. *)
  Context (paramsFromCurve : gmap nat ECIESParams).

Definition ParamsFromCurve (c : Curve) : option ECIESParams := paramsFromCurve !! c_id c.
Definition pubkeyParams (key : PublicKey) : ecies_error + ECIESParams :=
  match (match pk_Params key with Some p => Some p | None => ParamsFromCurve (pk_Curve key) end) with
  | None => inl ErrUnsupportedECIESParameters
  | Some params => if maxKeyLen <? p_KeyLen params then inl ErrInvalidKeyLen else inr params
  end.

(** ** ecies.go *)

Definition ImportECDSAPublic (c : Curve) (pub : Z * Z) : PublicKey := MkPublic (fst pub) (snd pub) c (ParamsFromCurve c).
Definition ImportECDSA (c : Curve) (prv : Crypto.PrivateKey) : PrivateKey := MkPrivate (ImportECDSAPublic c (key_pub prv)) (key_D prv).
Definition ExportECDSA (prv : PrivateKey) : Crypto.PrivateKey := PrivKey (sk_D prv) (pk_X (sk_Public prv), pk_Y (sk_Public prv)).

(** With the random bytes that are left. *)
Definition GenerateKey (rand : list Z) (c : Curve) (params : option ECIESParams) : outcome ecies_error (PrivateKey * list Z) :=
  let? (pb, (x, y), rand) := elliptic_GenerateKey (S (length rand)) c rand in
  let params := match params with Some p => Some p | None => ParamsFromCurve c end in
  Ok (MkPrivate (MkPublic x y c params) (be_val pb), rand).

Definition MaxSharedKeyLength (pub : PublicKey) : Z := (c_BitSize (pk_Curve pub) + 7) / 8.

Definition GenerateShared (prv : PrivateKey) (pub : PublicKey) (skLen macLen : Z) : outcome ecies_error (list Z) :=
  if negb (c_id (pk_Curve (sk_Public prv)) =? c_id (pk_Curve pub))%nat then Err ErrInvalidCurve
  else if MaxSharedKeyLength pub <? skLen + macLen then Err ErrSharedKeyTooBig
  else match c_ScalarMult (pk_Curve pub) (pk_X pub) (pk_Y pub) (big_bytes (sk_D prv)) with
       | Ok None => Err ErrSharedKeyIsPointAtInfinity
       | Ok (Some (x, _)) =>
           let skBytes := big_bytes x in
           of_option (go_copy_at (zeros (skLen + macLen)) (skLen + macLen - len skBytes) skBytes)
       | _ => Panic
       end.

(** The rounds of concatKDF from [counter] on. *)
Fixpoint kdf_rounds (fuel : nat) (h : Hash) (z s1 : list Z) (kdLen counter : Z) (k : list Z) : outcome ecies_error (list Z) :=
  if len k <? kdLen then
    match fuel with
    | O => OutOfFuel
    | S fuel => kdf_rounds fuel h z s1 kdLen (u32 (counter + 1)) (k ++ h_sum h (be_bytes 4 counter ++ z ++ s1))
    end
  else Ok k.
(** The capacity [roundup] of the buffer panics for hashes of size 0. *)
Definition roundup (size blocksize : Z) : option Z :=
  if blocksize =? 0 then None else Some (size + blocksize - Z.rem size blocksize).
Definition concatKDF (h : Hash) (z s1 : list Z) (kdLen : Z) : outcome ecies_error (list Z) :=
  let? _ := of_option (roundup kdLen (h_size h)) in
  let? k := kdf_rounds (Z.to_nat kdLen) h z s1 kdLen 1 [] in
  of_option (go_slice k 0 kdLen).
Definition deriveKeys (h : Hash) (z s1 : list Z) (keyLen : Z) : outcome ecies_error (list Z * list Z) :=
  let? K := concatKDF h z s1 (2 * keyLen) in
  let? Ke := of_option (go_slice K 0 keyLen) in
  let? Km := of_option (go_from K keyLen) in
  Ok (Ke, h_sum h Km).
Definition messageTag (h : Hash) (km msg shared : list Z) : list Z := hmac h km (msg ++ shared).

Definition generateIV (params : ECIESParams) (rand : list Z) : option (list Z * list Z) := read_random (p_BlockSize params) rand.
Definition symEncrypt (rand : list Z) (params : ECIESParams) (key m : list Z) : outcome ecies_error (list Z * list Z) :=
  match p_Cipher params key with
  | None => Err ErrCipher
  | Some c =>
      match generateIV params rand with
      | None => Err ErrRandom
      | Some (iv, rand) => let? out := of_option (CTR c iv m) in Ok (iv ++ out, rand)
      end
  end.
Definition symDecrypt (params : ECIESParams) (key ct : list Z) : outcome ecies_error (list Z) :=
  match p_Cipher params key with
  | None => Err ErrCipher
  | Some c =>
      let? iv := of_option (go_slice ct 0 (p_BlockSize params)) in
      let? rest := of_option (go_from ct (p_BlockSize params)) in
      of_option (CTR c iv rest)
  end.

(** An empty message gives nil without an error. *)
Definition Encrypt (rand : list Z) (pub : PublicKey) (m s1 s2 : list Z) : outcome ecies_error (list Z) :=
  match pubkeyParams pub with
  | inl e => Err e
  | inr params =>
      let? (R, rand) := GenerateKey rand (pk_Curve pub) (Some params) in
      let? z := GenerateShared R pub (p_KeyLen params) (p_KeyLen params) in
      let? (Ke, Km) := deriveKeys (p_Hash params) z s1 (p_KeyLen params) in
      let? (em, _) := symEncrypt rand params Ke m in
      if len em <=? p_BlockSize params then Ok []
      else
        let d := messageTag (p_Hash params) Km em s2 in
        let? Rb := of_option (curve_Marshal (pk_Curve pub) (pk_X (sk_Public R)) (pk_Y (sk_Public R))) in
        Ok (Rb ++ em ++ d)
  end.

Definition Decrypt (prv : PrivateKey) (c s1 s2 : list Z) : outcome ecies_error (list Z) :=
  match c with
  | [] => Err ErrInvalidMessage
  | c0 :: _ =>
  match pubkeyParams (sk_Public prv) with
  | inl e => Err e
  | inr params =>
      let curve := pk_Curve (sk_Public prv) in
      let hLen := h_size (p_Hash params) in
      let rLen := (c_BitSize curve + 7) / 4 in
      if (c0 =? 2) || (c0 =? 3) || (c0 =? 4) then
        if len c <? rLen + hLen + 1 then Err ErrInvalidMessage
        else
          let mStart := rLen in
          let mEnd := len c - hLen in
          let? Rb := of_option (go_slice c 0 rLen) in
          match curve_Unmarshal curve Rb with
          | None => Err ErrInvalidPublicKey
          | Some (x, y) =>
              let? z := GenerateShared prv (MkPublic x y curve None) (p_KeyLen params) (p_KeyLen params) in
              let? (Ke, Km) := deriveKeys (p_Hash params) z s1 (p_KeyLen params) in
              let? em := of_option (go_slice c mStart mEnd) in
              let? tag := of_option (go_from c mEnd) in
              let d := messageTag (p_Hash params) Km em s2 in
              if negb (ConstantTimeCompare tag d =? 1) then Err ErrInvalidMessage
              else symDecrypt params Ke em
          end
      else Err ErrInvalidPublicKey
  end
  end.

(** ** What is relied on *)

(** The group of a curve: the public key of a scalar, and the point two keys
    share. *)
Record curve_ok (c : Curve) (pub_of : Z -> Z * Z) (shared : Z -> Z -> Z * Z) : Prop := {
  cv_bits : c_BitSize c mod 8 = 0 /\ 0 < c_BitSize c;
  cv_P : c_P c <= 2 ^ c_BitSize c;
  cv_N : 256 <= c_N c;
  cv_base_zero : forall k, be_val k = 0 -> c_ScalarBaseMult c k = Ok None;
  cv_base : forall k, 0 < be_val k < c_N c -> c_ScalarBaseMult c k = Ok (Some (pub_of (be_val k)));
  cv_pub : forall d, 0 < d < c_N c -> 0 <= fst (pub_of d) < c_P c /\ 0 <= snd (pub_of d) < c_P c /\ c_IsOnCurve c (fst (pub_of d)) (snd (pub_of d)) = true;
  cv_shared : forall a b, 0 < a < c_N c -> 0 < b < c_N c ->
    c_ScalarMult c (fst (pub_of b)) (snd (pub_of b)) (big_bytes a) = Ok (Some (shared a b)) /\ shared a b = shared b a /\ 0 <= fst (shared a b) < c_P c
}.

(** Parameters that fit a curve: the shared coordinate fits in two keys, and the
    cipher takes keys of the length. *)
Record params_ok (p : ECIESParams) (c : Curve) : Prop := {
  pa_hash : hash_ok (p_Hash p);
  pa_len : 0 <= p_KeyLen p <= maxKeyLen;
  pa_short : 2 * p_KeyLen p <= byteLen c;
  pa_long : c_P c <= 256 ^ (2 * p_KeyLen p);
  pa_cipher : forall k, len k = p_KeyLen p -> exists b, p_Cipher p k = Some b /\ block_ok b /\ b_size b = p_BlockSize p
}.

(** A key pair. *)
Definition pair_ok (pub_of : Z -> Z * Z) (prv : PrivateKey) : Prop :=
  0 < sk_D prv < c_N (pk_Curve (sk_Public prv)) /\ (pk_X (sk_Public prv), pk_Y (sk_Public prv)) = pub_of (sk_D prv).

(** ** Keys *)

Lemma read_random_spec n rand l rest : 0 <= n -> read_random n rand = Some (l, rest) -> rand = l ++ rest /\ len l = n.
Proof.
  unfold read_random. intros Hn. destruct (Z.leb_spec n (len rand)); [|done]. intros [= <- <-]. rewrite take_drop. split; [done|]. rewrite len_take. lia.
Qed.

Lemma be_val_nonneg l : Forall (Z.le 0) l -> 0 <= be_val l.
Proof.
  unfold be_val. cut (forall a, 0 <= a -> Forall (Z.le 0) l -> 0 <= foldl (fun acc b => acc * 256 + b) a l); [intros H; by apply H|].
  induction l as [|x l IH]; intros a Ha Hl; [done|]. apply Forall_cons in Hl as [Hx Hl]. cbn [foldl]. apply IH; [lia|done].
Qed.

Lemma masked_nonneg bits priv : bytes_ok priv -> 2 <= len priv -> exists p, masked bits priv = Some p /\ 0 <= be_val p.
Proof.
  intros Hb Hl. destruct priv as [|a [|b t]]; [done|done|]. apply Forall_cons in Hb as [Ha Hb]. apply Forall_cons in Hb as [Hb Ht]. unfold byte_ok in *. eexists. split; [reflexivity|].
  apply be_val_nonneg. apply Forall_cons_2; [apply Z.land_nonneg; left; lia|]. apply Forall_cons_2; [apply Z.lxor_nonneg; lia|].
  eapply Forall_impl; [exact Ht|]. intros x Hx. unfold byte_ok in Hx. lia.
Qed.

Section laws.
  Context (c : Curve) (pub_of : Z -> Z * Z) (shared : Z -> Z -> Z * Z) (Hc : curve_ok c pub_of shared).

Lemma key_bytes_len : 2 <= (bit_len (c_N c) + 7) / 8.
Proof.
  pose proof (cv_N _ _ _ Hc) as HN. unfold bit_len. destruct (Z.eqb_spec (c_N c) 0); [lia|]. rewrite Z.abs_eq by lia.
  assert (8 <= Z.log2 (c_N c)) by (change 8 with (Z.log2 256); apply Z.log2_le_mono; lia). apply Z.div_le_lower_bound; lia.
Qed.

(** A key is found, or the random bytes run out. *)
Lemma elliptic_GenerateKey_total fuel : forall rand, (length rand < fuel)%nat -> bytes_ok rand ->
  elliptic_GenerateKey fuel c rand = Err ErrRandom \/
  exists pb rest, elliptic_GenerateKey fuel c rand = Ok (pb, pub_of (be_val pb), rest) /\ 0 < be_val pb < c_N c /\ bytes_ok rest.
Proof.
  induction fuel as [|fuel IH]; intros rand Hf Hb; [lia|]. cbn [elliptic_GenerateKey]. pose proof key_bytes_len as HL.
  destruct (read_random _ rand) as [[priv rest]|] eqn:Er; [|by left]. apply read_random_spec in Er as [-> Hl]; [|lia]. apply Forall_app in Hb as [Hp Hr].
  destruct (masked_nonneg (bit_len (c_N c)) priv Hp ltac:(lia)) as (p & -> & Hp0). cbn [of_option obind].
  assert (Hlt : (length rest < fuel)%nat) by (rewrite length_app in Hf; unfold len in Hl; lia).
  destruct (Z.leb_spec (c_N c) (be_val p)); [by apply IH|]. destruct (Z.eq_dec (be_val p) 0) as [E0|N0].
  - rewrite (cv_base_zero _ _ _ Hc p E0). by apply IH.
  - rewrite (cv_base _ _ _ Hc p ltac:(lia)). right. exists p, rest. split_and!; [done|lia|lia|done].
Qed.

(** ** Shared secrets *)

Context (params : ECIESParams) (Hp : params_ok params c).

(** The secret of two keys: the shared coordinate, padded on the left. *)
Definition secret (a b : Z) : list Z := be_bytes (Z.to_nat (2 * p_KeyLen params)) (fst (shared a b)).

Lemma GenerateShared_secret prv pub a b :
  pk_Curve (sk_Public prv) = c -> pk_Curve pub = c -> sk_D prv = a -> 0 < a < c_N c -> 0 < b < c_N c -> (pk_X pub, pk_Y pub) = pub_of b ->
  GenerateShared prv pub (p_KeyLen params) (p_KeyLen params) = Ok (secret a b).
Proof.
  intros E1 E2 <- Ha Hb Epub. unfold GenerateShared, MaxSharedKeyLength. rewrite E1, E2, Nat.eqb_refl. cbn [negb]. pose proof (pa_short _ _ Hp) as Hs. pose proof (pa_len _ _ Hp) as HK. unfold byteLen in Hs.
  destruct (Z.ltb_spec ((c_BitSize c + 7) / 8) (p_KeyLen params + p_KeyLen params)); [lia|]. destruct (cv_shared _ _ _ Hc (sk_D prv) b Ha Hb) as (E & _ & Hx). rewrite <- Epub in E. cbn [fst snd] in E. rewrite E. clear E.
  unfold secret. destruct (shared (sk_D prv) b) as [x y]. cbn [fst] in *. pose proof (pa_long _ _ Hp) as HP.
  replace (p_KeyLen params + p_KeyLen params) with (2 * p_KeyLen params) by lia. set (n := 2 * p_KeyLen params) in *.
  assert (Hn : len (big_bytes x) <= n). { pose proof (big_bytes_len_le x (Z.to_nat n)) as Hl. rewrite Z2Nat.id in Hl by lia. apply Hl. lia. }
  assert (Hb0 : 0 <= len (big_bytes x)) by apply len_nonneg. pose proof (padded_big_bytes (Z.to_nat n) x ltac:(rewrite Z2Nat.id; lia)) as Hpad. rewrite Z2Nat.id in Hpad by lia.
  unfold go_copy_at. rewrite len_zeros by lia. destruct (Z.leb_spec 0 (n - len (big_bytes x))), (Z.leb_spec (n - len (big_bytes x)) n); try lia. cbn [andb of_option]. f_equal.
  rewrite <- Hpad. unfold zeros. rewrite take_replicate, drop_replicate, <- (app_nil_r (replicate (_ - _) 0)), go_copy_exact, app_nil_r by (rewrite length_replicate; unfold len in *; lia). by rewrite Nat.min_l by lia.
Qed.

Lemma secret_sym a b : 0 < a < c_N c -> 0 < b < c_N c -> secret a b = secret b a.
Proof. intros Ha Hb. unfold secret. by destruct (cv_shared _ _ _ Hc a b Ha Hb) as (_ & -> & _). Qed.

(** ** Key derivation *)

Lemma kdf_rounds_len h z s1 kdLen fuel : hash_ok h -> forall counter k, kdLen <= len k + Z.of_nat fuel -> exists r, kdf_rounds fuel h z s1 kdLen counter k = Ok r /\ kdLen <= len r.
Proof.
  intros Hh. induction fuel as [|fuel IH]; intros counter k Hk; cbn [kdf_rounds]; (destruct (Z.ltb_spec (len k) kdLen); [|eexists; split; [reflexivity|lia]]); [lia|].
  apply IH. rewrite len_app. destruct Hh as [H0 H1]. rewrite (proj1 (H1 _)). lia.
Qed.

Lemma go_slice_in {A} (l : list A) lo hi : 0 <= lo <= hi -> hi <= len l -> go_slice l lo hi = Some (take (Z.to_nat (hi - lo)) (drop (Z.to_nat lo) l)).
Proof. intros H1 H2. unfold go_slice. by rewrite (proj2 (Z.leb_le 0 lo)), (proj2 (Z.leb_le lo hi)), (proj2 (Z.leb_le hi (len l))) by lia. Qed.

Lemma deriveKeys_len h z s1 n : hash_ok h -> 0 <= n -> exists Ke Km, deriveKeys h z s1 n = Ok (Ke, Km) /\ len Ke = n.
Proof.
  intros Hh Hn. unfold deriveKeys, concatKDF, roundup. destruct (Z.eqb_spec (h_size h) 0) as [E|]; [destruct Hh; lia|]. cbn [of_option obind].
  destruct (kdf_rounds_len h z s1 (2 * n) (Z.to_nat (2 * n)) Hh 1 []) as (r & -> & Hr); [rewrite len_nil; lia|]. cbn [obind]. rewrite go_slice_in by lia. cbn [of_option obind]. rewrite Z.sub_0_r, drop_0.
  set (K := take (Z.to_nat (2 * n)) r). assert (HK : len K = 2 * n) by (unfold K; rewrite len_take; lia).
  unfold go_from. rewrite HK, !go_slice_in by lia. cbn [of_option obind].
  eexists _, _. split; [reflexivity|]. rewrite drop_0, len_take, HK. lia.
Qed.

(** ** The cipher *)

Lemma symEncrypt_spec rand key m : len key = p_KeyLen params ->
  symEncrypt rand params key m = Err ErrRandom \/
  exists iv out rest, symEncrypt rand params key m = Ok (iv ++ out, rest) /\ len iv = p_BlockSize params /\ len out = len m /\ symDecrypt params key (iv ++ out) = Ok m.
Proof.
  intros Hk. unfold symEncrypt, symDecrypt. destruct (pa_cipher _ _ Hp key Hk) as (b & -> & Hb & Hs). unfold generateIV. destruct (read_random (p_BlockSize params) rand) as [[iv rest]|] eqn:Er; [|by left].
  apply read_random_spec in Er as [-> Hiv]; [|destruct Hb; lia]. destruct (CTR b iv m) as [out|] eqn:Ec.
  - right. destruct (CTR_inverse b iv m out Hb Ec) as [Hl Hi]. exists iv, out, rest. split_and!; [done|done|unfold len; congruence|].
    rewrite <- Hiv. rewrite go_from_app. pose proof (go_slice_app [] iv out) as E. cbn [app] in E. change (len []) with 0 in E. rewrite Z.add_0_l in E. rewrite E. cbn [of_option obind]. by rewrite Hi.
  - exfalso. unfold CTR in Ec. by rewrite Hiv, Hs, Z.eqb_refl in Ec.
Qed.

(** ** Points *)

Lemma byteLen_bits : 8 * byteLen c = c_BitSize c.
Proof.
  destruct (cv_bits _ _ _ Hc) as [Hb Hb0]. unfold byteLen. apply Z.div_exact in Hb; [|lia]. set (k := c_BitSize c / 8) in *. rewrite Hb. f_equal. symmetry. apply (Z.div_unique _ _ _ 7); lia.
Qed.

Lemma curve_Marshal_ok x y : 0 <= x < c_P c -> 0 <= y < c_P c ->
  curve_Marshal c x y = Some (4 :: be_bytes (Z.to_nat (byteLen c)) x ++ be_bytes (Z.to_nat (byteLen c)) y) /\ x < 256 ^ byteLen c /\ y < 256 ^ byteLen c.
Proof.
  intros Hx Hy. pose proof (cv_P _ _ _ Hc) as HP. destruct (cv_bits _ _ _ Hc) as [Hb Hb0]. unfold curve_Marshal.
  assert (E : 256 ^ byteLen c = 2 ^ c_BitSize c). { rewrite <- byteLen_bits. change 256 with (2 ^ 8). rewrite <- Z.pow_mul_r; [done|lia|]. apply Z.div_pos; lia. }
  assert (H0 : 0 <= byteLen c) by (apply Z.div_pos; lia).
  assert (L : forall z, 0 <= z < c_P c -> len (big_bytes z) <= byteLen c). { intros z Hz. pose proof (big_bytes_len_le z (Z.to_nat (byteLen c))) as Hl. rewrite Z2Nat.id in Hl by lia. apply Hl. lia. }
  rewrite (proj2 (Z.leb_le _ _) (L x Hx)), (proj2 (Z.leb_le _ _) (L y Hy)), !Z.abs_eq by lia. split; [done|]. lia.
Qed.

Lemma curve_roundtrip x y Rb : 0 <= x < c_P c -> 0 <= y < c_P c -> c_IsOnCurve c x y = true -> curve_Marshal c x y = Some Rb ->
  curve_Unmarshal c Rb = Some (x, y) /\ len Rb = (c_BitSize c + 7) / 4 /\ exists t, Rb = 4 :: t.
Proof.
  intros Hx Hy Hon HM. destruct (curve_Marshal_ok x y Hx Hy) as (E & Bx & By). rewrite E in HM. injection HM as <-. destruct (cv_bits _ _ _ Hc) as [Hb Hb0].
  assert (H0 : 0 <= byteLen c) by (apply Z.div_pos; lia). set (n := Z.to_nat (byteLen c)) in *. assert (Hn : Z.of_nat n = byteLen c) by (unfold n; lia).
  assert (Hlen : len (4 :: be_bytes n x ++ be_bytes n y) = 1 + 2 * byteLen c) by (rewrite len_cons, len_app; unfold len; rewrite !be_bytes_length; lia).
  split_and!; [|rewrite Hlen|by eexists].
  - unfold curve_Unmarshal. rewrite Hlen, Z.eqb_refl. cbn [negb]. fold n. rewrite take_app_length', drop_app_length', !be_val_be_bytes, Hn, !Z.mod_small by (rewrite ?be_bytes_length; (done || lia)).
    destruct (Z.leb_spec (c_P c) x), (Z.leb_spec (c_P c) y); try lia. cbn [orb]. by rewrite Hon.
  - rewrite <- byteLen_bits. apply (Z.div_unique _ _ _ 3); lia.
Qed.

(** ** Sealed messages *)

(** The specification: a message under an ephemeral point, the secret shared with
    it and an initial vector. *)
Definition sealed (point : Z * Z) (z s1 s2 iv m : list Z) : option (list Z) :=
  match deriveKeys (p_Hash params) z s1 (p_KeyLen params) with
  | Ok (Ke, Km) =>
      b ← p_Cipher params Ke;
      out ← CTR b iv m;
      Rb ← curve_Marshal c (fst point) (snd point);
      Some (Rb ++ (iv ++ out) ++ messageTag (p_Hash params) Km (iv ++ out) s2)
  | _ => None
  end.

Definition on_curve (p : Z * Z) : Prop := 0 <= fst p < c_P c /\ 0 <= snd p < c_P c /\ c_IsOnCurve c (fst p) (snd p) = true.

Lemma Unmarshal_Marshal data x y : bytes_ok data -> curve_Unmarshal c data = Some (x, y) -> on_curve (x, y) /\ curve_Marshal c x y = Some data.
Proof.
  intros Hb. unfold curve_Unmarshal. destruct (Z.eqb_spec (len data) (1 + 2 * byteLen c)) as [Hl|]; [|done]. cbn [negb]. destruct data as [|z t]; [done|]. destruct (Z.eq_dec z 4) as [->|Hz]; [|by destruct z as [|[?|[|[]|]|]|]].
  rewrite len_cons in Hl. apply Forall_cons in Hb as [_ Hb]. destruct (cv_bits _ _ _ Hc) as [_ Hb0]. assert (H0 : 0 <= byteLen c) by (apply Z.div_pos; lia). set (n := Z.to_nat (byteLen c)) in *. assert (Hn : Z.of_nat n = byteLen c) by (unfold n; lia).
  assert (Bt : bytes_ok (take n t) /\ bytes_ok (drop n t)) by (split; [by apply Forall_take|by apply Forall_drop]). destruct Bt as [Bt Bd].
  pose proof (be_val_bound _ Bt) as Vt. pose proof (be_val_bound _ Bd) as Vd. rewrite len_take in Vt. rewrite len_drop in Vd.
  destruct (Z.leb_spec (c_P c) (be_val (take n t))), (Z.leb_spec (c_P c) (be_val (drop n t))); try done. cbn [orb]. destruct (c_IsOnCurve _ _ _) eqn:Ei; [|done]. cbn [negb]. intros [= <- <-].
  assert (O : on_curve (be_val (take n t), be_val (drop n t))) by (unfold on_curve; cbn [fst snd]; split_and!; (done || lia)). split; [done|].
  destruct (curve_Marshal_ok (be_val (take n t)) (be_val (drop n t))) as (E & _); [apply O..|]. fold n in E. rewrite E. do 2 f_equal.
  assert (length (take n t) = n /\ length (drop n t) = n) as [E1 E2] by (rewrite length_take, length_drop; unfold len in Hl; lia).
  pose proof (be_bytes_be_val _ Bt) as P1. pose proof (be_bytes_be_val _ Bd) as P2. rewrite E1 in P1. rewrite E2 in P2. by rewrite P1, P2, take_drop.
Qed.

(** Decrypt on the parts of a message. *)
Lemma Decrypt_parts prv p Rb em tag s1 s2 :
  pk_Curve (sk_Public prv) = c -> pubkeyParams (sk_Public prv) = inr params -> on_curve p -> curve_Marshal c (fst p) (snd p) = Some Rb ->
  len tag = h_size (p_Hash params) -> 1 <= len em ->
  Decrypt prv (Rb ++ em ++ tag) s1 s2 =
    (let? z := GenerateShared prv (MkPublic (fst p) (snd p) c None) (p_KeyLen params) (p_KeyLen params) in
     let? (Ke, Km) := deriveKeys (p_Hash params) z s1 (p_KeyLen params) in
     if bool_decide (tag = messageTag (p_Hash params) Km em s2) then symDecrypt params Ke em else Err ErrInvalidMessage).
Proof.
  intros Ec Epa (Hx & Hy & Hon) HM Ht Hem. destruct (curve_roundtrip _ _ _ Hx Hy Hon HM) as (HU & HL & t & Et). unfold Decrypt.
  destruct (Rb ++ em ++ tag) as [|c0 rest] eqn:Eall; [by rewrite Et in Eall|]. assert (c0 = 4) as -> by (rewrite Et in Eall; by injection Eall). rewrite <- Eall, Epa, Ec. clear Eall rest.
  replace ((4 =? 2) || (4 =? 3) || (4 =? 4)) with true by done. rewrite <- HL, <- Ht. rewrite !len_app. destruct (Z.ltb_spec (len Rb + (len em + len tag)) (len Rb + len tag + 1)); [lia|].
  pose proof (go_slice_app [] Rb (em ++ tag)) as E1. cbn [app] in E1. rewrite len_nil, Z.add_0_l in E1. rewrite E1. cbn [of_option obind]. rewrite HU. clear E1. destruct p as [x y]. cbn [fst snd] in *.
  destruct (GenerateShared _ _ _ _) as [z| | |]; try done. cbn [obind]. destruct (deriveKeys _ _ _ _) as [[Ke Km]| | |]; try done. cbn [obind].
  replace (len Rb + (len em + len tag) - len tag) with (len Rb + len em) by lia. rewrite go_slice_app. rewrite <- (len_app Rb em), (app_assoc Rb em tag), go_from_app. cbn [of_option obind].
  unfold ConstantTimeCompare. by destruct (bool_decide (tag = messageTag (p_Hash params) Km em s2)).
Qed.

Lemma symDecrypt_iff key em m : len key = p_KeyLen params ->
  symDecrypt params key em = Ok m <-> exists b iv out, p_Cipher params key = Some b /\ em = iv ++ out /\ CTR b iv m = Some out.
Proof.
  intros Hk. destruct (pa_cipher _ _ Hp key Hk) as (b & Eb & Hb & Hs). unfold symDecrypt. rewrite Eb. split.
  - intros H. destruct (go_slice em 0 (p_BlockSize params)) as [iv|] eqn:E1; [|done]. destruct (go_from em (p_BlockSize params)) as [out|] eqn:E2; [|done]. cbn [of_option obind] in H.
    destruct (CTR b iv out) as [m'|] eqn:Em; [|done]. injection H as ->. exists b, iv, out. split; [done|]. split; [|by apply (CTR_inverse b iv out m)].
    unfold go_from, go_slice in E1, E2. destruct (0 <=? p_BlockSize params) eqn:L1, (p_BlockSize params <=? len em) eqn:L2; try done. cbn [andb Z.leb Z.compare] in E1, E2. rewrite Z.sub_0_r, drop_0 in E1. injection E1 as <-.
    destruct (len em <=? len em); [|done]. injection E2 as <-. rewrite (take_ge (drop _ _)) by (rewrite length_drop; unfold len; lia). by rewrite take_drop.
  - intros (b' & iv & out & [= <-] & -> & Ec). assert (Hiv : len iv = p_BlockSize params) by (unfold CTR in Ec; destruct (Z.eqb_spec (len iv) (b_size b)); [congruence|done]).
    rewrite <- Hiv, go_from_app. pose proof (go_slice_app [] iv out) as E. cbn [app] in E. rewrite len_nil, Z.add_0_l in E. rewrite E. cbn [of_option obind]. by rewrite (proj2 (CTR_inverse b iv m out Hb Ec)).
Qed.

Lemma keys_len z s1 Ke Km : deriveKeys (p_Hash params) z s1 (p_KeyLen params) = Ok (Ke, Km) -> len Ke = p_KeyLen params.
Proof. intros E. destruct (deriveKeys_len (p_Hash params) z s1 (p_KeyLen params) (pa_hash _ _ Hp)) as (Ke' & Km' & E' & L); [apply (pa_len _ _ Hp)|]. rewrite E in E'. by injection E' as <- <-. Qed.

(** A message that passes the first checks of Decrypt has three parts. *)
Lemma Decrypt_split prv m ct s1 s2 : pk_Curve (sk_Public prv) = c -> pubkeyParams (sk_Public prv) = inr params -> bytes_ok ct -> Decrypt prv ct s1 s2 = Ok m ->
  exists p Rb em tag, ct = Rb ++ em ++ tag /\ on_curve p /\ curve_Marshal c (fst p) (snd p) = Some Rb /\ len tag = h_size (p_Hash params) /\ 1 <= len em.
Proof.
  intros Ec Epa Hb H. unfold Decrypt in H. destruct ct as [|c0 t]; [done|]. rewrite Epa, Ec in H. set (ct := c0 :: t) in *. destruct ((c0 =? 2) || (c0 =? 3) || (c0 =? 4)); [|done].
  set (rLen := (c_BitSize c + 7) / 4) in *. set (hLen := h_size (p_Hash params)) in *. destruct (Z.ltb_spec (len ct) (rLen + hLen + 1)) as [|Hl]; [done|].
  assert (Hr0 : 0 <= rLen) by (apply Z.div_pos; destruct (cv_bits _ _ _ Hc); lia). assert (Hh0 : 0 < hLen) by apply (pa_hash _ _ Hp). rewrite go_slice_in in H by lia. cbn [of_option obind] in H. rewrite Z.sub_0_r, drop_0 in H.
  destruct (curve_Unmarshal _ _) as [[x y]|] eqn:EU; [|done]. apply Unmarshal_Marshal in EU as [Ho EM]; [|by apply Forall_take].
  exists (x, y), (take (Z.to_nat rLen) ct), (take (Z.to_nat (len ct - hLen - rLen)) (drop (Z.to_nat rLen) ct)), (drop (Z.to_nat (len ct - hLen)) ct). split_and!; [|done|done|rewrite len_drop; lia|rewrite len_take, len_drop; lia].
  rewrite <- (take_drop (Z.to_nat rLen) ct) at 1. f_equal. rewrite <- (take_drop (Z.to_nat (len ct - hLen - rLen)) (drop (Z.to_nat rLen) ct)) at 1. f_equal. rewrite drop_drop. f_equal. lia.
Qed.

(** Decrypt accepts a message exactly when it is sealed with the secret of its
    key and a point of the curve. *)
Definition sealed_for (prv : PrivateKey) (m s1 s2 ct : list Z) : Prop :=
  exists p z iv, on_curve p /\ GenerateShared prv (MkPublic (fst p) (snd p) c None) (p_KeyLen params) (p_KeyLen params) = Ok z /\
    sealed p z s1 s2 iv m = Some ct.
Lemma Decrypt_sealed prv m ct s1 s2 : pk_Curve (sk_Public prv) = c -> pubkeyParams (sk_Public prv) = inr params ->
  (bytes_ok ct -> Decrypt prv ct s1 s2 = Ok m -> sealed_for prv m s1 s2 ct) /\ (sealed_for prv m s1 s2 ct -> Decrypt prv ct s1 s2 = Ok m).
Proof.
  intros Ec Epa. split.
  - intros Hb H. destruct (Decrypt_split prv m ct s1 s2 Ec Epa Hb H) as (p & Rb & em & tag & -> & Ho & EM & Ht & Hem). rewrite (Decrypt_parts prv p) in H by done.
    destruct (GenerateShared _ _ _ _) as [z| | |] eqn:Ez; try done. cbn [obind] in H. destruct (deriveKeys _ _ _ _) as [[Ke Km]| | |] eqn:Ed; try done. cbn [obind] in H. case_bool_decide as Etag; [|done].
    apply symDecrypt_iff in H as (b & iv & out & Eb & -> & Eo); [|by eapply keys_len]. exists p, z, iv. split_and!; [done|done|]. unfold sealed. rewrite Ed, Eb. cbn [mbind option_bind]. rewrite Eo. cbn [mbind option_bind]. rewrite EM. cbn [mbind option_bind]. by rewrite <- Etag.
  - intros (p & z & iv & Ho & Hz & Hs). unfold sealed in Hs. destruct (deriveKeys _ z s1 _) as [[Ke Km]| | |] eqn:Ed; try done.
    destruct (p_Cipher params Ke) as [b|] eqn:Eb; [|done]. cbn [mbind option_bind] in Hs. destruct (CTR b iv m) as [out|] eqn:Eo; [|done]. cbn [mbind option_bind] in Hs.
    destruct (curve_Marshal _ _ _) as [Rb|] eqn:EM; [|done]. cbn [mbind option_bind] in Hs. injection Hs as <-. pose proof (keys_len _ _ _ _ Ed) as HKe.
    destruct (pa_cipher _ _ Hp Ke HKe) as (b' & Eb' & Hbo & Hbs). rewrite Eb in Eb'. injection Eb' as <-.
    rewrite (Decrypt_parts prv p); [|done|done|done|done|apply hmac_len, (pa_hash _ _ Hp)|].
    + rewrite Hz. cbn [obind]. rewrite Ed. cbn [obind]. rewrite bool_decide_true by done. apply symDecrypt_iff; [done|]. by exists b, iv, out.
    + rewrite len_app. unfold CTR in Eo. destruct (Z.eqb_spec (len iv) (b_size b)); [|done]. destruct Hbo as [? _]. pose proof (len_nonneg out). lia.
Qed.

(** ** Encryption *)

Lemma Encrypt_sealed rand prv m s1 s2 : bytes_ok rand -> pk_Curve (sk_Public prv) = c -> pubkeyParams (sk_Public prv) = inr params -> pair_ok pub_of prv ->
  Encrypt rand (sk_Public prv) m s1 s2 = Err ErrRandom \/
  exists ct, Encrypt rand (sk_Public prv) m s1 s2 = Ok ct /\ (m = [] -> ct = []) /\ (m <> [] -> sealed_for prv m s1 s2 ct).
Proof.
  intros Hr Ec Epa [HD Epub]. rewrite Ec in HD. unfold Encrypt. rewrite Epa, Ec. unfold GenerateKey.
  destruct (elliptic_GenerateKey_total (S (length rand)) rand ltac:(lia) Hr) as [->|(pb & rest & -> & Hpb & Hrest)]; [by left|]. cbn [obind]. destruct (pub_of (be_val pb)) as [x y] eqn:Exy. cbn [obind].
  set (r := be_val pb) in *. rewrite (GenerateShared_secret (MkPrivate (MkPublic x y c (Some params)) r) (sk_Public prv) r (sk_D prv)) by done. cbn [obind].
  destruct (deriveKeys_len (p_Hash params) (secret r (sk_D prv)) s1 (p_KeyLen params) (pa_hash _ _ Hp)) as (Ke & Km & Ed & HKe); [apply (pa_len _ _ Hp)|]. rewrite Ed. cbn [obind].
  destruct (symEncrypt_spec rest Ke m HKe) as [->|(iv & out & rest' & -> & Hiv & Hout & HD')]; [by left|]. cbn [obind]. right. rewrite len_app, Hiv, Hout.
  destruct m as [|m0 m']; [rewrite len_nil, Z.add_0_r, Z.leb_refl; by exists []|]. set (m := m0 :: m') in *. assert (1 <= len m) by (unfold m; rewrite len_cons; pose proof (len_nonneg m'); lia).
  destruct (Z.leb_spec (p_BlockSize params + len m) (p_BlockSize params)); [lia|]. cbn [sk_Public pk_X pk_Y].
  assert (Ho : on_curve (x, y)) by (rewrite <- Exy; apply (cv_pub _ _ _ Hc r Hpb)). destruct (curve_Marshal_ok x y (proj1 Ho) (proj1 (proj2 Ho))) as (EM & _). rewrite EM. cbn [of_option obind].
  eexists. split; [reflexivity|]. split; [done|]. intros _. exists (x, y), (secret r (sk_D prv)), iv. split; [done|]. split; [rewrite (secret_sym r) by done; by apply GenerateShared_secret|].
  apply symDecrypt_iff in HD' as (b & iv' & out' & Eb & Eapp & Eo); [|done]. unfold sealed. rewrite Ed, Eb. cbn [mbind option_bind].
  assert (iv = iv' /\ out = out') as [<- <-]. { destruct (pa_cipher _ _ Hp Ke HKe) as (b' & Eb' & _ & Hbs). rewrite Eb in Eb'. injection Eb' as <-. unfold CTR in Eo. destruct (Z.eqb_spec (len iv') (b_size b)); [|done]. apply app_inj_1 in Eapp; [done|]. unfold len in *. lia. }
  rewrite Eo. cbn [mbind option_bind fst snd]. rewrite EM. done.
Qed.

(** C29: Encryption is correct and authentic.  On a curve whose bit size is a
    multiple of 8, with parameters whose two keys hold a coordinate, encrypting
    for a key pair fails only when the source of random bytes runs out; an empty
    message gives nil without an error, and any other one a ciphertext that
    Decrypt turns into the message.  Decrypt accepts nothing but what was sealed
    this way: a point of the curve, the message in counter mode under the key
    derived from the shared secret and s1, and its tag over s2. *)
Theorem ecies_correct rand prv m s1 s2 :
  bytes_ok rand -> pk_Curve (sk_Public prv) = c -> pubkeyParams (sk_Public prv) = inr params -> pair_ok pub_of prv ->
  match Encrypt rand (sk_Public prv) m s1 s2 with
  | Ok ct => if bool_decide (m = []) then ct = [] else Decrypt prv ct s1 s2 = Ok m
  | Err e => e = ErrRandom
  | _ => False
  end /\
  forall ct m', bytes_ok ct -> Decrypt prv ct s1 s2 = Ok m' <-> sealed_for prv m' s1 s2 ct.
Proof.
  intros Hr Ec Epa Hpair. split.
  - destruct (Encrypt_sealed rand prv m s1 s2 Hr Ec Epa Hpair) as [->|(ct & -> & H1 & H2)]; [done|]. case_bool_decide as Em; [by apply H1|]. by apply (Decrypt_sealed prv m ct s1 s2 Ec Epa), H2.
  - intros ct m' Hb. destruct (Decrypt_sealed prv m' ct s1 s2 Ec Epa) as [H1 H2]. split; [by apply H1|done].
Qed.

(** A sender who knows the public key alone can make a message on which Decrypt
    panics. *)
Lemma short_message_panics prv r em s1 s2 :
  pk_Curve (sk_Public prv) = c -> pubkeyParams (sk_Public prv) = inr params -> pair_ok pub_of prv -> 0 < r < c_N c -> 1 <= len em < p_BlockSize params ->
  exists z Ke Km Rb, GenerateShared (MkPrivate (MkPublic (fst (pub_of r)) (snd (pub_of r)) c None) r) (sk_Public prv) (p_KeyLen params) (p_KeyLen params) = Ok z /\
    deriveKeys (p_Hash params) z s1 (p_KeyLen params) = Ok (Ke, Km) /\ curve_Marshal c (fst (pub_of r)) (snd (pub_of r)) = Some Rb /\
    Decrypt prv (Rb ++ em ++ messageTag (p_Hash params) Km em s2) s1 s2 = Panic.
Proof.
  intros Ec Epa [HD Epub] Hr Hem. rewrite Ec in HD. pose proof (cv_pub _ _ _ Hc r Hr) as Ho. exists (secret r (sk_D prv)).
  destruct (deriveKeys_len (p_Hash params) (secret r (sk_D prv)) s1 (p_KeyLen params) (pa_hash _ _ Hp)) as (Ke & Km & Ed & HKe); [apply (pa_len _ _ Hp)|].
  destruct (curve_Marshal_ok _ _ (proj1 Ho) (proj1 (proj2 Ho))) as (EM & _). eexists Ke, Km, _. split; [by apply GenerateShared_secret|]. split; [done|]. split; [exact EM|].
  rewrite (Decrypt_parts prv (pub_of r)); [|done|done|done|done|apply hmac_len, (pa_hash _ _ Hp)|lia]. rewrite (GenerateShared_secret prv _ (sk_D prv) r), (secret_sym (sk_D prv)); try done; [|by destruct (pub_of r)]. cbn [obind]. rewrite Ed. cbn [obind].
  rewrite bool_decide_true by done. unfold symDecrypt. destruct (pa_cipher _ _ Hp Ke HKe) as (b & -> & _). unfold go_slice. destruct (Z.leb_spec (p_BlockSize params) (len em)); [lia|]. by rewrite andb_false_r.
Qed.

(** Where encryption cannot work.  The default parameters of P-384 ask for
    more key bytes than the curve has, so no secret is ever shared; with those
    of P-521 sharing a secret panics whenever the coordinate needs more than 64
    bytes, and Decrypt takes points of 132 bytes where the curve has 133, so that
    it accepts nothing.  On the curves it works for, a sender who knows the public key
    alone can make a message, with less than a block between point and tag, on
    which Decrypt panics. *)
Theorem ecies_failures :
  (forall prv pub, c_id (pk_Curve (sk_Public prv)) = c_id (pk_Curve pub) -> c_BitSize (pk_Curve pub) = 384 -> GenerateShared prv pub 32 32 = Err ErrSharedKeyTooBig) /\
  (forall prv pub x y, c_id (pk_Curve (sk_Public prv)) = c_id (pk_Curve pub) -> c_BitSize (pk_Curve pub) = 521 ->
     c_ScalarMult (pk_Curve pub) (pk_X pub) (pk_Y pub) (big_bytes (sk_D prv)) = Ok (Some (x, y)) -> 2 ^ 512 <= x -> GenerateShared prv pub 32 32 = Panic) /\
  (forall prv p ct s1 s2, c_BitSize (pk_Curve (sk_Public prv)) = 521 -> pubkeyParams (sk_Public prv) = inr p -> 0 <= h_size (p_Hash p) ->
     exists e, Decrypt prv ct s1 s2 = Err e) /\
  (forall prv r em s1 s2, pk_Curve (sk_Public prv) = c -> pubkeyParams (sk_Public prv) = inr params -> pair_ok pub_of prv -> 0 < r < c_N c -> 1 <= len em < p_BlockSize params ->
     exists z Ke Km Rb, GenerateShared (MkPrivate (MkPublic (fst (pub_of r)) (snd (pub_of r)) c None) r) (sk_Public prv) (p_KeyLen params) (p_KeyLen params) = Ok z /\
       deriveKeys (p_Hash params) z s1 (p_KeyLen params) = Ok (Ke, Km) /\ curve_Marshal c (fst (pub_of r)) (snd (pub_of r)) = Some Rb /\
       Decrypt prv (Rb ++ em ++ messageTag (p_Hash params) Km em s2) s1 s2 = Panic).
Proof.
  split; [|split; [|split; [|apply short_message_panics]]].
  - intros prv pub E Hb. unfold GenerateShared, MaxSharedKeyLength. by rewrite E, Nat.eqb_refl, Hb.
  - intros prv pub x y E Hb Es Hx. unfold GenerateShared, MaxSharedKeyLength. rewrite E, Nat.eqb_refl, Hb. cbn [negb]. replace (_ <? _) with false by done. rewrite Es. unfold go_copy_at.
    assert (64 < len (big_bytes x)). { destruct (Z.lt_ge_cases 64 (len (big_bytes x))); [done|]. pose proof (be_val_bound (big_bytes x) (big_bytes_ok x)) as B. rewrite be_val_big_bytes in B by lia.
      assert (256 ^ len (big_bytes x) <= 256 ^ 64) by (apply Z.pow_le_mono_r; lia). change (256 ^ 64) with (2 ^ 512) in *. lia. }
    destruct (Z.leb_spec 0 (32 + 32 - len (big_bytes x))); [lia|done].
  - intros prv p ct s1 s2 Hb Ep Hh. unfold Decrypt. destruct ct as [|c0 t]; [by eexists|]. rewrite Ep, Hb. destruct (_ || _ || _); [|by eexists]. change ((521 + 7) / 4) with 132.
    destruct (Z.ltb_spec (len (c0 :: t)) (132 + h_size (p_Hash p) + 1)); [by eexists|]. rewrite go_slice_in by lia. cbn [of_option obind]. unfold curve_Unmarshal, byteLen. rewrite Hb, len_take, len_drop. change ((521 + 7) / 8) with 66.
    rewrite (proj2 (Z.eqb_neq _ _)) by lia. by eexists.
Qed.
End laws.
End ecies.

(** ** A toy instance: multiplication modulo a power of two *)

Definition toy_curve : Curve := MkCurve 0 256 (2 ^ 256) (2 ^ 255) (fun _ _ => true)
  (fun x _ k => Ok (Some ((x * be_val k) mod 2 ^ 256, 0)))
  (fun k => if be_val k =? 0 then Ok None else Ok (Some ((3 * be_val k) mod 2 ^ 256, 0))).
Definition toy_pub (d : Z) : Z * Z := ((3 * d) mod 2 ^ 256, 0).
Definition toy_shared (a b : Z) : Z * Z := ((3 * a * b) mod 2 ^ 256, 0).
Definition toy_params : ECIESParams := MkParams toy_hash 5 (fun key => if len key =? 16 then Some (toy_cipher key) else None) 16 16.
Definition toy_key : PrivateKey := MkPrivate (MkPublic 15 0 toy_curve (Some toy_params)) 5.

Lemma toy_curve_ok : curve_ok toy_curve toy_pub toy_shared.
Proof.
  split; cbn [toy_curve c_BitSize c_P c_N c_IsOnCurve c_ScalarMult c_ScalarBaseMult toy_pub toy_shared fst snd].
  - done.
  - done.
  - done.
  - intros k ->. done.
  - intros k Hk. destruct (Z.eqb_spec (be_val k) 0); [lia|done].
  - intros d _. split; [apply Z.mod_pos_bound; lia|done].
  - intros a b Ha Hb. split; [|split; [unfold toy_shared; do 2 f_equal; lia|apply Z.mod_pos_bound; lia]]. rewrite be_val_big_bytes by lia. unfold toy_shared. do 3 f_equal. rewrite Z.mul_mod_idemp_l by lia. f_equal. lia.
Qed.

Lemma toy_params_ok : params_ok toy_params toy_curve.
Proof.
  split; cbn [toy_params p_Hash p_KeyLen p_Cipher p_BlockSize]; [apply toy_hash_ok|done|done|done|].
  intros k ->. exists (toy_cipher k). split_and!; [done|apply toy_cipher_ok|done].
Qed.

Lemma ecies_correct_witness : exists ct, Encrypt ∅ (replicate 48 7) (sk_Public toy_key) [1; 2; 3] [] [] = Ok ct /\ Decrypt ∅ toy_key ct [] [] = Ok [1; 2; 3].
Proof.
  destruct (ecies_correct ∅ toy_curve toy_pub toy_shared toy_curve_ok toy_params toy_params_ok (replicate 48 7) toy_key [1; 2; 3] [] []) as [H _]; [by apply Forall_replicate|reflexivity|reflexivity|by split|].
  rewrite bool_decide_false in H by discriminate. assert (E : exists ct, Encrypt ∅ (replicate 48 7) (sk_Public toy_key) [1; 2; 3] [] [] = Ok ct) by (eexists; vm_compute; reflexivity).
  destruct E as [ct E]. rewrite E in H. exists ct. exact (conj E H).
Defined.

Lemma ecies_failures_witness : exists ct, Decrypt ∅ toy_key ct [] [] = Panic.
Proof.
  destruct (ecies_failures ∅ toy_curve toy_pub toy_shared toy_curve_ok toy_params toy_params_ok) as (_ & _ & _ & H).
  destruct (H toy_key 9 [1] [] []) as (z & Ke & Km & Rb & _ & _ & _ & HP); [reflexivity|reflexivity|by split|done|done|]. by eexists.
Defined.
