(* ===== verification/JsonFloat.v ===== *)
(** * Numbers of dynamic JSON

    A number that is decoded into an interface becomes a float64: strconv's
    ParseFloat on the numbers of JSON, and the conversion to int. *)

From S2P Require Import Prelude GoText Json JsonTypes.

Definition decimal (ds : list Z) : Z := foldl (fun acc c => acc * 10 + (c - 48)) 0 ds.
(** The exponent is not read beyond 10000. *)
Definition exponent (text : list Z) : Z :=
  match text with
  | [] => 0
  | _ :: s =>
      let '(neg, ds) := match s with c :: r => if c =? 45 then (true, r) else if c =? 43 then (false, r) else (false, s) | [] => (false, s) end in
      let e := foldl (fun acc c => if acc <? 10000 then acc * 10 + (c - 48) else acc) 0 ds in
      if neg then - e else e
  end.

(** [num / den] times a power of two, as a fraction. *)
Definition scaled (num den e : Z) : Z * Z := if 0 <=? e then (num, den * 2 ^ e) else (num * 2 ^ (- e), den).
Definition half_even (num den : Z) : Z :=
  let q := num / den in
  let r := num mod den in
  if 2 * r <? den then q else if den <? 2 * r then q + 1 else if Z.even q then q else q + 1.
(** The nearest float64 of a fraction, mantissa and exponent; [None] is out of range. *)
Definition float64 (num den : Z) : option (Z * Z) :=
  if num =? 0 then Some (0, 0)
  else
    let e := Z.log2 num - Z.log2 den - 52 in
    let '(n, d) := scaled num den e in
    let e := if n / d <? 2 ^ 52 then e - 1 else e in
    let e := Z.max e (- 1074) in
    let '(n, d) := scaled num den e in
    let m := half_even n d in
    if (971 <? e) || ((e =? 971) && (2 ^ 53 <=? m)) then None else Some (m, e).

(** With its sign. *)
Definition ParseFloat (text : list Z) : option (bool * Z * Z) :=
  let '(sg, s) := num_sign text in
  '(ip, s) ← num_int s; '(fp, s) ← num_frac s; '(ep, s) ← num_exp s;
  let mant := decimal (ip ++ drop 1 fp) in
  let e := exponent ep - len (drop 1 fp) in
  '(m, b) ← (if 0 <=? e then float64 (mant * 10 ^ e) 1 else float64 mant (10 ^ (- e)));
  Some (negb (bool_decide (sg = [])), m, b).

(** The conversion truncates; out of the range of int the processor answers with
    the smallest number. *)
Definition int_of_float (f : bool * Z * Z) : Z :=
  let '(neg, m, e) := f in
  let t := if 0 <=? e then m * 2 ^ e else m / 2 ^ (- e) in
  let t := if neg then - t else t in
  if (- 2 ^ 63 <=? t) && (t <? 2 ^ 63) then t else - 2 ^ 63.

(** All numbers of a value are in range, which decoding it into an interface
    demands. *)
Fixpoint floats_ok (j : json) : bool :=
  match j with
  | JNum text => match ParseFloat text with Some _ => true | None => false end
  | JArr vs => forallb floats_ok vs
  | JObj ms => forallb (fun m => floats_ok (snd m)) ms
  | _ => true
  end.

(** ** Small integers are exact *)

Lemma float64_int n : 0 <= n < 2 ^ 53 -> exists m e, float64 n 1 = Some (m, e) /\ int_of_float (false, m, e) = n.
Proof.
  intros Hn. unfold float64. destruct (Z.eqb_spec n 0) as [->|N0]; [by exists 0, 0|]. change (Z.log2 1) with 0.
  pose proof (Z.log2_spec n ltac:(lia)) as [Hlo Hhi]. pose proof (Z.log2_nonneg n). set (k := Z.log2 n) in *.
  assert (Hk : k < 53) by (apply (Z.pow_lt_mono_r_iff 2); lia). set (e := k - 0 - 52).
  assert (S : scaled n 1 e = (n * 2 ^ (52 - k), 1)).
  { unfold scaled, e. destruct (Z.leb_spec 0 (k - 0 - 52)) as [Hge|].
    - assert (k = 52) as -> by lia. change (52 - 52) with 0. change (2 ^ (52 - 0 - 52)) with 1. by rewrite Z.pow_0_r, !Z.mul_1_r.
    - do 3 f_equal. lia. }
  rewrite S, Z.div_1_r. assert (Hb : 2 ^ 52 <= n * 2 ^ (52 - k) < 2 ^ 53).
  { replace (2 ^ 52) with (2 ^ k * 2 ^ (52 - k)) by (rewrite <- Z.pow_add_r by lia; f_equal; lia).
    replace (2 ^ 53) with (2 ^ Z.succ k * 2 ^ (52 - k)) by (rewrite <- Z.pow_add_r by lia; f_equal; lia).
    assert (0 < 2 ^ (52 - k)) by (apply Z.pow_pos_nonneg; lia). nia. }
  destruct (Z.ltb_spec (n * 2 ^ (52 - k)) (2 ^ 52)); [lia|]. rewrite Z.max_l by (unfold e; lia). rewrite S. unfold half_even. rewrite Z.mod_1_r, Z.div_1_r. change (2 * 0 <? 1) with true. cbv iota.
  destruct (Z.ltb_spec 971 e); [unfold e in *; lia|]. destruct (Z.eqb_spec e 971); [unfold e in *; lia|]. cbn [orb andb]. eexists _, _. split; [reflexivity|].
  unfold int_of_float. assert (E : (if 0 <=? e then n * 2 ^ (52 - k) * 2 ^ e else n * 2 ^ (52 - k) / 2 ^ (- e)) = n).
  { unfold e. destruct (Z.leb_spec 0 (k - 0 - 52)) as [Hge|].
    - assert (k = 52) as -> by lia. change (52 - 52) with 0. change (2 ^ (52 - 0 - 52)) with 1. by rewrite Z.pow_0_r, !Z.mul_1_r.
    - replace (- (k - 0 - 52)) with (52 - k) by lia. apply Z.div_mul. assert (0 < 2 ^ (52 - k)) by (apply Z.pow_pos_nonneg; lia). lia. }
  cbv beta iota zeta. rewrite E. destruct (Z.leb_spec (- 2 ^ 63) n), (Z.ltb_spec n (2 ^ 63)); try lia. done.
Qed.

Lemma number_digits ds : digits_ok 10 ds -> decimal (map digit_char ds) = num_val 10 ds.
Proof.
  intros Hd. unfold decimal, num_val. generalize 0. induction Hd as [|d ds Hd _ IH]; intros a; [done|]. cbn [map foldl]. destruct (digit_char_digit d Hd) as [-> _]. rewrite IH. f_equal. lia.
Qed.

(** The integers that a program writes are read back. *)
Lemma ParseFloat_int n : 0 <= n < 2 ^ 53 -> exists f, ParseFloat (FormatInt n) = Some f /\ int_of_float f = n.
Proof.
  intros Hn. unfold FormatInt. destruct (Z.ltb_spec n 0); [lia|]. destruct (FormatUint_spec 10 ltac:(lia) n ltac:(lia)) as (ds & -> & Hd & Hc & Hv). unfold ParseFloat.
  assert (E : num_sign (map digit_char ds) = ([], map digit_char ds)).
  { destruct ds as [|d ds]; [done|]. cbn [map num_sign]. apply Forall_cons in Hd as [Hd _]. destruct (digit_char_digit d Hd) as [E _]. by destruct (Z.eqb_spec (digit_char d) 45); [lia|]. }
  rewrite E, digits_num_int by done. cbn [mbind option_bind num_frac num_exp drop exponent]. rewrite app_nil_r, number_digits, Hv by done. change (0 - len []) with 0. cbn [Z.leb Z.compare]. rewrite Z.pow_0_r, Z.mul_1_r.
  destruct (float64_int n Hn) as (m & e & -> & Hi). cbn [mbind option_bind]. eexists. split; [reflexivity|done].
Qed.

Lemma floats_ok_obj ms : floats_ok (JObj ms) = forallb (fun m => floats_ok (snd m)) ms.
Proof. done. Qed.
