(* ===== verification/KeyFile.v ===== *)
(** * Key files

    src/accounts/keystore: the JSON of plain and encrypted keys, passphrase.go
    with both versions of the encryption, the keys of the presale, and the two
    stores over a directory of files.  AES, scrypt, PBKDF2, Keccak-256 and the
    texts of UUIDs are parameters. *)

From Stdlib Require Import String.
From stdpp Require Import gmap.
From S2P Require Import Prelude GoText Math Common Crypto Json JsonTypes TypesJson JsonFloat GoCipher.

(** ** key.go *)

Definition version : Z := 3.
(** An id of [[]] is nil. *)
Record Key : Type := MkKey { k_Id : list Z; k_Address : list Z; k_PrivateKey : Crypto.PrivateKey }.

Record CryptoJSON : Type := MkCrypto {
  cj_Cipher : list Z; cj_CipherText : list Z; cj_IV : list Z; cj_KDF : list Z; cj_KDFParams : option json; cj_MAC : list Z }.

Definition plain_key_type : jtype := JTStruct [(str "address", JTStr); (str "privatekey", JTStr); (str "id", JTStr); (str "version", JTInt)].
Definition crypto_type : jtype := JTStruct
  [(str "cipher", JTStr); (str "ciphertext", JTStr); (str "cipherparams", JTStruct [(str "iv", JTStr)]); (str "kdf", JTStr); (str "kdfparams", JTMap); (str "mac", JTStr)].
Definition key_v3_type : jtype := JTStruct [(str "address", JTStr); (str "crypto", crypto_type); (str "id", JTStr); (str "version", JTInt)].
Definition key_v1_type : jtype := JTStruct [(str "address", JTStr); (str "crypto", crypto_type); (str "id", JTStr); (str "version", JTStr)].

Definition crypto_val (c : CryptoJSON) : jval := JVStruct
  [JVStr (cj_Cipher c); JVStr (cj_CipherText c); JVStruct [JVStr (cj_IV c)]; JVStr (cj_KDF c); JVAny (cj_KDFParams c); JVStr (cj_MAC c)].
Definition txt (v : jval) : list Z := match v with JVStr s => s | _ => [] end.
Definition crypto_of (v : jval) : CryptoJSON :=
  match v with
  | JVStruct [a; b; JVStruct [iv]; k; JVAny ps; m] => MkCrypto (txt a) (txt b) (txt iv) (txt k) ps (txt m)
  | _ => MkCrypto [] [] [] [] None []
  end.

Inductive key_error : Type :=
| ErrKeyJson (e : json_error)
| ErrKeyHex
| ErrKeyCrypto (e : crypto_error)
| ErrCipherName
| ErrDecrypt
| ErrVersion (v : Z)
| ErrScrypt
| ErrAes
| ErrPRF
| ErrKDF
| ErrMismatch
| ErrPresaleHex
| ErrPresaleShort
| ErrPresaleAddress (k : Key)
| ErrIO
| ErrCorrupted (e : key_error).

Definition of_json {A} (r : jval * option json_error) (f : jval -> outcome key_error A) : outcome key_error A :=
  match r with (_, Some e) => Err (ErrKeyJson e) | (v, None) => f v end.
Definition hex_bytes (s : list Z) : outcome key_error (list Z) :=
  match hex_Decode s with (b, None) => Ok b | _ => Err ErrKeyHex end.

(** Files by their names. *)
#[local] Abbreviation files := (gmap (list Z) (list Z)).

Section keyfile.
  Context (wb : nat) `{Secp256k1} (Keccak256 : list Z -> list Z).
  Context (aes : list Z -> option Block) (scrypt : list Z -> list Z -> Z -> Z -> Z -> Z -> option (list Z)) (pbkdf2 : list Z -> list Z -> Z -> Z -> list Z).
  Context (uuid_String uuid_Parse : list Z -> list Z).

Definition Key_MarshalJSON (k : Key) : list Z :=
  json_Marshal plain_key_type (JVStruct [JVStr (hex_Encode (k_Address k)); JVStr (hex_Encode (FromECDSA wb (Some (k_PrivateKey k)))); JVStr (uuid_String (k_Id k)); JVInt version]).

(** The receiver keeps its other fields on an error; null makes the pointer nil. *)
Definition Key_UnmarshalJSON (j : list Z) : outcome key_error Key :=
  of_json (json_Unmarshal (JTPtr plain_key_type) j) (fun v =>
    match v with
    | JVPtr (Some (JVStruct [address; privatekey; id; _])) =>
        let Id := uuid_Parse (txt id) in
        let? addr := hex_bytes (txt address) in
        match HexToECDSA wb (txt privatekey) with
        | Ok privkey => let? a := of_option (BytesToAddress addr) in Ok (MkKey Id a privkey)
        | Err e => Err (ErrKeyCrypto e)
        | _ => Panic
        end
    | _ => Panic
    end).

Definition newKeyFromECDSA (id : list Z) (k : Crypto.PrivateKey) : outcome key_error Key :=
  let? a := of_option (PubkeyToAddress Keccak256 (key_pub k)) in Ok (MkKey id a k).

(** ** presale.go *)

Definition aesCTRXOR (key inText iv : list Z) : outcome key_error (list Z) :=
  match aes key with None => Err ErrAes | Some b => of_option (CTR b iv inText) end.

(** [None] is nil. *)
Definition pkcs7Unpad (data : list Z) : option (list Z) :=
  match last data with
  | None => None
  | Some padding =>
      if (len data <? padding) || (16 <? padding) then None
      else if padding =? 0 then None
      else if forallb (fun b => b =? padding) (drop (length data - Z.to_nat padding) data) then Some (take (length data - Z.to_nat padding) data) else None
  end.
Definition aesCBCDecrypt (key cipherText iv : list Z) : outcome key_error (list Z) :=
  match aes key with
  | None => Err ErrAes
  | Some b =>
      let? padded := of_option (CBCDecrypt b iv cipherText) in
      match pkcs7Unpad padded with Some p => Ok p | None => Err ErrDecrypt end
  end.

(** The key of bytes that are not checked; nil panics where its fields are used. *)
Definition unsafe_key (d : list Z) : outcome key_error Crypto.PrivateKey :=
  match ToECDSAUnsafe wb d with Ok (Some k) => Ok k | _ => Panic end.

Definition presale_type : jtype := JTStruct [(str "EncSeed", JTStr); (str "EthAddr", JTStr); (str "Email", JTStr); (str "BtcAddr", JTStr)].
Definition decryptPreSaleKey (fileContent password : list Z) : outcome key_error Key :=
  of_json (json_Unmarshal presale_type fileContent) (fun v =>
    let '(encSeed, ethAddr) := match v with JVStruct [a; b; _; _] => (txt a, txt b) | _ => ([], []) end in
    match hex_Decode encSeed with
    | (_, Some _) => Err ErrPresaleHex
    | (encSeedBytes, None) =>
        if len encSeedBytes <? 16 then Err ErrPresaleShort
        else
          let iv := take 16 encSeedBytes in
          let cipherText := drop 16 encSeedBytes in
          let derivedKey := pbkdf2 password password 2000 16 in
          let? plainText := aesCBCDecrypt derivedKey cipherText iv in
          let? ecKey := unsafe_key (Keccak256 plainText) in
          let? key := newKeyFromECDSA [] ecKey in
          if negb (bool_decide (hex_Encode (k_Address key) = ethAddr)) then Err (ErrPresaleAddress key) else Ok key
    end).

(** ** passphrase.go *)

Definition keyHeaderKDF : list Z := str "scrypt".
Definition scryptR : Z := 8.
Definition scryptDKLen : Z := 32.

(** The member of a map, the last one of its name. *)
Definition kdf_param (params : option json) (name : string) : option json :=
  match params with
  | Some (JObj ms) => foldl (fun acc m => if bool_decide (unquote (fst m) = Some (str name)) then Some (snd m) else acc) None ms
  | _ => None
  end.
(** Assertions on the values of an interface; null is nil. *)
Definition as_string (j : option json) : outcome key_error (list Z) :=
  match j with Some (JStr raw) => of_option (unquote raw) | _ => Panic end.
Definition ensureInt (j : option json) : outcome key_error Z :=
  match j with Some (JNum text) => let? f := of_option (ParseFloat text) in Ok (int_of_float f) | _ => Panic end.

Definition getKDFKey (c : CryptoJSON) (auth : list Z) : outcome key_error (list Z) :=
  let? s := as_string (kdf_param (cj_KDFParams c) "salt") in
  let? salt := hex_bytes s in
  let? dkLen := ensureInt (kdf_param (cj_KDFParams c) "dklen") in
  if bool_decide (cj_KDF c = keyHeaderKDF) then
    let? n := ensureInt (kdf_param (cj_KDFParams c) "n") in
    let? r := ensureInt (kdf_param (cj_KDFParams c) "r") in
    let? p := ensureInt (kdf_param (cj_KDFParams c) "p") in
    match scrypt auth salt n r p dkLen with Some k => Ok k | None => Err ErrScrypt end
  else if bool_decide (cj_KDF c = str "pbkdf2") then
    let? i := ensureInt (kdf_param (cj_KDFParams c) "c") in
    let? prf := as_string (kdf_param (cj_KDFParams c) "prf") in
    if negb (bool_decide (prf = str "hmac-sha256")) then Err ErrPRF else Ok (pbkdf2 auth salt i dkLen)
  else Err ErrKDF.

(** The salt and the vector are read from the random source. *)
Definition EncryptDataV3 (salt iv data auth : list Z) (scryptN scryptP : Z) : outcome key_error CryptoJSON :=
  match scrypt auth salt scryptN scryptR scryptP scryptDKLen with
  | None => Err ErrScrypt
  | Some derivedKey =>
      let? encryptKey := of_option (go_slice derivedKey 0 16) in
      let? cipherText := aesCTRXOR encryptKey data iv in
      let? macKey := of_option (go_slice derivedKey 16 32) in
      let mac := Keccak256 (macKey ++ cipherText) in
      let params := JObj [(escape (str "dklen"), JNum (FormatInt scryptDKLen)); (escape (str "n"), JNum (FormatInt scryptN)); (escape (str "p"), JNum (FormatInt scryptP));
                          (escape (str "r"), JNum (FormatInt scryptR)); (escape (str "salt"), JStr (escape (hex_Encode salt)))] in
      Ok (MkCrypto (str "aes-128-ctr") (hex_Encode cipherText) (hex_Encode iv) keyHeaderKDF (Some params) (hex_Encode mac))
  end.

Definition key_json (k : Key) (c : CryptoJSON) : jval := JVStruct [JVStr (hex_Encode (k_Address k)); crypto_val c; JVStr (uuid_String (k_Id k)); JVInt version].
Definition EncryptKey (salt iv : list Z) (k : Key) (auth : list Z) (scryptN scryptP : Z) : outcome key_error (list Z) :=
  let keyBytes := PaddedBigBytes wb (key_D (k_PrivateKey k)) 32 in
  let? c := EncryptDataV3 salt iv keyBytes auth scryptN scryptP in
  Ok (json_Marshal key_v3_type (key_json k c)).

(** What both versions check before they decrypt: the derived key, the vector and
    the text. *)
Definition checked_parts (c : CryptoJSON) (auth : list Z) : outcome key_error (list Z * list Z * list Z) :=
  let? mac := hex_bytes (cj_MAC c) in
  let? iv := hex_bytes (cj_IV c) in
  let? cipherText := hex_bytes (cj_CipherText c) in
  let? derivedKey := getKDFKey c auth in
  let? macKey := of_option (go_slice derivedKey 16 32) in
  if negb (bool_decide (Keccak256 (macKey ++ cipherText) = mac)) then Err ErrDecrypt else Ok (derivedKey, iv, cipherText).
Definition DecryptDataV3 (c : CryptoJSON) (auth : list Z) : outcome key_error (list Z) :=
  if negb (bool_decide (cj_Cipher c = str "aes-128-ctr")) then Err ErrCipherName
  else
    let? (derivedKey, iv, cipherText) := checked_parts c auth in
    let? k := of_option (go_slice derivedKey 0 16) in
    aesCTRXOR k cipherText iv.
Definition decryptKeyV3 (v : jval) (auth : list Z) : outcome key_error (list Z * list Z) :=
  match v with
  | JVStruct [_; c; id; JVInt ver] =>
      if negb (ver =? version) then Err (ErrVersion ver)
      else let? plainText := DecryptDataV3 (crypto_of c) auth in Ok (plainText, uuid_Parse (txt id))
  | _ => Panic
  end.
Definition decryptKeyV1 (v : jval) (auth : list Z) : outcome key_error (list Z * list Z) :=
  match v with
  | JVStruct [_; c; id; _] =>
      let? (derivedKey, iv, cipherText) := checked_parts (crypto_of c) auth in
      let? k := of_option (go_slice derivedKey 0 16) in
      let? k := of_option (go_slice (Keccak256 k) 0 16) in
      let? plainText := aesCBCDecrypt k cipherText iv in
      Ok (plainText, uuid_Parse (txt id))
  | _ => Panic
  end.

(** The whole text is first decoded into a map, for its version. *)
Definition is_version_1 (m : jval) : bool :=
  match m with
  | JVAny ps => match kdf_param ps "version" with Some (JStr raw) => bool_decide (unquote raw = Some (str "1")) | _ => false end
  | _ => false
  end.
Definition DecryptKey (keyjson auth : list Z) : outcome key_error Key :=
  of_json (json_Unmarshal JTMap keyjson) (fun m =>
    if negb (match m with JVAny (Some j) => floats_ok j | _ => true end) then Err (ErrKeyJson ErrJsonType)
    else
      let? (keyBytes, keyId) :=
        (if is_version_1 m then of_json (json_Unmarshal key_v1_type keyjson) (fun k => decryptKeyV1 k auth)
         else of_json (json_Unmarshal key_v3_type keyjson) (fun k => decryptKeyV3 k auth)) in
      let? key := unsafe_key keyBytes in
      newKeyFromECDSA keyId key).

(** ** The stores *)


Definition GetKey (fs : files) (addr filename auth : list Z) : outcome key_error Key :=
  match fs !! filename with
  | None => Err ErrIO
  | Some keyjson =>
      let? key := DecryptKey keyjson auth in
      if negb (bool_decide (k_Address key = addr)) then Err ErrMismatch else Ok key
  end.

(** writeTemporaryKeyFile: the name of the temporary file, [None] on an error. *)
Definition writeTemporaryKeyFile (fs : files) (tmp : option (list Z)) (content : list Z) : option (list Z * files) :=
  t ← tmp; Some (t, <[t := content]> fs).
Definition os_Rename (fs : files) (ok : bool) (from to : list Z) : files * option key_error :=
  match (if ok then fs !! from else None) with Some c => (<[to := c]> (delete from fs), None) | None => (fs, Some ErrIO) end.
Definition writeKeyFile (fs : files) (tmp : option (list Z)) (ok : bool) (file content : list Z) : files * option key_error :=
  match writeTemporaryKeyFile fs tmp content with None => (fs, Some ErrIO) | Some (t, fs) => os_Rename fs ok t file end.

(** The files afterwards, and the result. *)
Definition StoreKey (fs : files) (tmp : option (list Z)) (renames skipVerification : bool) (salt iv filename : list Z) (k : Key) (auth : list Z) (scryptN scryptP : Z)
    : files * outcome key_error unit :=
  match EncryptKey salt iv k auth scryptN scryptP with
  | Ok keyjson =>
      match writeTemporaryKeyFile fs tmp keyjson with
      | None => (fs, Err ErrIO)
      | Some (t, fs) =>
          let rename := match os_Rename fs renames t filename with (fs, Some e) => (fs, Err e) | (fs, None) => (fs, Ok tt) end in
          if skipVerification then rename
          else match GetKey fs (k_Address k) t auth with
               | Ok _ => rename
               | Err e => (fs, Err (ErrCorrupted e))
               | Panic => (fs, Panic)
               | OutOfFuel => (fs, OutOfFuel)
               end
      end
  | Err e => (fs, Err e)
  | Panic => (fs, Panic)
  | OutOfFuel => (fs, OutOfFuel)
  end.

(** ** plain.go *)

(** A decoder of a file reads the first value and leaves the rest alone. *)
Definition first_value (text : list Z) : option json := fst <$> scan_value (2 * length text + 1) text.
Definition plain_GetKey (fs : files) (addr filename : list Z) : outcome key_error Key :=
  match fs !! filename with
  | None => Err ErrIO
  | Some text =>
      match first_value text with
      | None => Err (ErrKeyJson ErrJsonSyntax)
      | Some j =>
          let? key := Key_UnmarshalJSON (print j) in
          if negb (bool_decide (k_Address key = addr)) then Err ErrMismatch else Ok key
      end
  end.
Definition plain_StoreKey (fs : files) (tmp : option (list Z)) (renames : bool) (filename : list Z) (k : Key) : files * option key_error :=
  writeKeyFile fs tmp renames filename (Key_MarshalJSON k).
End keyfile.

Lemma first_value_print j : json_ok j -> first_value (print j) = Some j.
Proof. intros Hj. unfold first_value. pose proof (scan_print j Hj (2 * length (print j) + 1) [] ltac:(unfold enough; lia) I) as E. rewrite app_nil_r in E. by rewrite E. Qed.

(** ** What is relied on *)

(** AES-128 has blocks of 16 bytes; scrypt returns as many bytes as are asked for;
    Keccak-256 gives 32 bytes; the text of an id is read back. *)
Record suite_ok (Keccak256 : list Z -> list Z) (aes : list Z -> option Block) (scrypt : list Z -> list Z -> Z -> Z -> Z -> Z -> option (list Z))
    (uuid_String uuid_Parse : list Z -> list Z) : Prop := {
  su_keccak : forall m, len (Keccak256 m) = 32 /\ bytes_ok (Keccak256 m);
  su_aes : forall k, len k = 16 -> exists b, aes k = Some b /\ block_ok b /\ b_size b = 16;
  su_scrypt : forall a s n r p d k, scrypt a s n r p d = Some k -> len k = d;
  su_uuid : forall id, len id = 16 -> bytes_ok id -> uuid_Parse (uuid_String id) = id /\ Forall plain (uuid_String id)
}.

Lemma hex_plain b : bytes_ok b -> Forall plain (hex_Encode b).
Proof. intros Hb. eapply Forall_impl; [by apply hex_Encode_chars|]. unfold plain. cbn. lia. Qed.
Lemma hex_bytes_Encode b : bytes_ok b -> hex_bytes (hex_Encode b) = Ok b.
Proof. intros Hb. unfold hex_bytes. by rewrite hex_Decode_Encode. Qed.
Lemma plain_text s : Forall plain s -> jval_ok JTStr (JVStr s).
Proof. intros Hs. split; [by apply bytes_plain|by apply valid_plain]. Qed.

(** The members of the map of scrypt's parameters. *)
Definition kdf_members (dklen n p r salt : json) : json :=
  JObj [(escape (str "dklen"), dklen); (escape (str "n"), n); (escape (str "p"), p); (escape (str "r"), r); (escape (str "salt"), salt)].
Lemma kdf_members_read a b c d e :
  kdf_param (Some (kdf_members a b c d e)) "dklen" = Some a /\ kdf_param (Some (kdf_members a b c d e)) "n" = Some b /\ kdf_param (Some (kdf_members a b c d e)) "p" = Some c /\
  kdf_param (Some (kdf_members a b c d e)) "r" = Some d /\ kdf_param (Some (kdf_members a b c d e)) "salt" = Some e.
Proof. split_and!; vm_compute; reflexivity. Qed.

Lemma v3_version a b c t : is_version_1 (JVAny (Some (JObj [(escape (str "address"), a); (escape (str "crypto"), b); (escape (str "id"), c); (escape (str "version"), JNum t)]))) = false.
Proof. vm_compute. reflexivity. Qed.

Lemma ensureInt_num n : 0 <= n < 2 ^ 53 -> ensureInt (Some (JNum (FormatInt n))) = Ok n.
Proof. intros Hn. destruct (ParseFloat_int n Hn) as (f & E & Hf). unfold ensureInt. rewrite E. cbn [of_option obind]. by rewrite Hf. Qed.

Lemma crypto_type_ok : jtype_ok crypto_type.
Proof. apply struct_ok; [vm_compute; reflexivity..|]. repeat (apply Forall_cons_2; [try exact I|]); [|apply Forall_nil_2]. apply struct_ok; [vm_compute; reflexivity..|]. by repeat constructor. Qed.
Lemma key_v3_type_ok : jtype_ok key_v3_type.
Proof. apply struct_ok; [vm_compute; reflexivity..|]. repeat (apply Forall_cons_2; [try exact I|]); [apply crypto_type_ok|apply Forall_nil_2]. Qed.
Lemma plain_key_type_ok : jtype_ok plain_key_type.
Proof. apply struct_ok; [vm_compute; reflexivity..|]. by repeat constructor. Qed.

Section correct.
  Context (wb : nat) `{SecpLaws} (Keccak256 : list Z -> list Z).
  Context (aes : list Z -> option Block) (scrypt : list Z -> list Z -> Z -> Z -> Z -> Z -> option (list Z)) (pbkdf2 : list Z -> list Z -> Z -> Z -> list Z).
  Context (uuid_String uuid_Parse : list Z -> list Z) (Hwb : (0 < wb)%nat) (HS : suite_ok Keccak256 aes scrypt uuid_String uuid_Parse).
  Context (salt iv : list Z) (n p : Z) (Hsalt : bytes_ok salt) (Hiv : bytes_ok iv /\ len iv = 16) (Hn : 0 <= n < 2 ^ 53) (Hp : 0 <= p < 2 ^ 53).

(** The encrypted data of a derived key and a text. *)
Definition crypto_data (dk out : list Z) : CryptoJSON :=
  MkCrypto (str "aes-128-ctr") (hex_Encode out) (hex_Encode iv) keyHeaderKDF
    (Some (kdf_members (JNum (FormatInt scryptDKLen)) (JNum (FormatInt n)) (JNum (FormatInt p)) (JNum (FormatInt scryptR)) (JStr (escape (hex_Encode salt)))))
    (hex_Encode (Keccak256 (take 16 (drop 16 dk) ++ out))).

Lemma EncryptDataV3_eq data auth :
  match scrypt auth salt n scryptR p scryptDKLen with
  | None => EncryptDataV3 Keccak256 aes scrypt salt iv data auth n p = Err ErrScrypt
  | Some dk => len dk = 32 /\ exists b out, aes (take 16 dk) = Some b /\ block_ok b /\ CTR b iv data = Some out /\
      EncryptDataV3 Keccak256 aes scrypt salt iv data auth n p = Ok (crypto_data dk out)
  end.
Proof.
  unfold EncryptDataV3. destruct (scrypt _ _ _ _ _ _) as [dk|] eqn:E; [|done]. pose proof (su_scrypt _ _ _ _ _ HS _ _ _ _ _ _ _ E) as Hl. change scryptDKLen with 32 in *. split; [done|].
  destruct (su_aes _ _ _ _ _ HS (take 16 dk)) as (b & Eb & Hb & Hs); [rewrite len_take; lia|]. unfold aesCTRXOR, go_slice. rewrite Hl. cbn [Z.leb Z.compare Pos.compare Pos.compare_cont andb of_option obind]. change (Z.to_nat (16 - 0)) with 16%nat. change (Z.to_nat (32 - 16)) with 16%nat. change (Z.to_nat 0) with 0%nat. change (Z.to_nat 16) with 16%nat. rewrite drop_0, Eb.
  destruct (CTR b iv data) as [out|] eqn:Ec; [|unfold CTR in Ec; by rewrite Hs, (proj2 Hiv) in Ec]. exists b, out. done.
Qed.

Lemma getKDFKey_data dk out auth :
  getKDFKey scrypt pbkdf2 (crypto_data dk out) auth = match scrypt auth salt n scryptR p scryptDKLen with Some k => Ok k | None => Err ErrScrypt end.
Proof.
  unfold getKDFKey. cbn [crypto_data cj_KDFParams cj_KDF]. edestruct kdf_members_read as (-> & -> & -> & -> & ->). unfold as_string. pose proof (hex_plain salt Hsalt) as Hh. rewrite escape_plain, unquote_plain by done. cbn [of_option obind].
  rewrite hex_bytes_Encode by done. cbn [obind]. rewrite !ensureInt_num by (done || by vm_compute). cbn [obind]. by rewrite bool_decide_true.
Qed.

(** Decryption with any passphrase: the keys that are compared. *)
Lemma DecryptDataV3_data dk b out data auth :
  len dk = 32 -> aes (take 16 dk) = Some b -> block_ok b -> CTR b iv data = Some out -> bytes_ok out ->
  DecryptDataV3 Keccak256 aes scrypt pbkdf2 (crypto_data dk out) auth =
    match scrypt auth salt n scryptR p scryptDKLen with
    | None => Err ErrScrypt
    | Some dk' => if bool_decide (Keccak256 (take 16 (drop 16 dk') ++ out) = Keccak256 (take 16 (drop 16 dk) ++ out)) then aesCTRXOR aes (take 16 dk') out iv else Err ErrDecrypt
    end.
Proof.
  intros Hl Eb Hb Ec Ho. unfold DecryptDataV3. cbn [crypto_data cj_Cipher]. rewrite bool_decide_true by done. cbn [negb]. unfold checked_parts. cbn [crypto_data cj_MAC cj_IV cj_CipherText].
  rewrite !hex_bytes_Encode by (apply (su_keccak _ _ _ _ _ HS) || apply Hiv || done). cbn [obind]. rewrite getKDFKey_data. destruct (scrypt auth _ _ _ _ _) as [dk'|] eqn:E'; [|done]. cbn [obind].
  pose proof (su_scrypt _ _ _ _ _ HS _ _ _ _ _ _ _ E') as Hl'. change scryptDKLen with 32 in *. unfold go_slice at 1. rewrite Hl'. cbn [Z.leb Z.compare Pos.compare Pos.compare_cont andb of_option obind]. change (Z.to_nat (32 - 16)) with 16%nat. change (Z.to_nat 16) with 16%nat.
  case_bool_decide; cbn [negb obind]; [|done]. unfold go_slice. rewrite Hl'. cbn [Z.leb Z.compare Pos.compare Pos.compare_cont andb of_option obind]. done.
Qed.

(** ** Keys *)

(** A key with the address of its public key and an id. *)
Definition full_key (k : Key) : Prop :=
  key_ok (pub_of := pub_of) (k_PrivateKey k) /\ PubkeyToAddress Keccak256 (key_pub (k_PrivateKey k)) = Some (k_Address k) /\ len (k_Address k) = 20 /\ bytes_ok (k_Address k) /\ len (k_Id k) = 16 /\ bytes_ok (k_Id k).

Lemma key_bytes k : full_key k -> PaddedBigBytes wb (key_D (k_PrivateKey k)) 32 = be_bytes 32 (key_D (k_PrivateKey k)) /\
  toECDSA wb (be_bytes 32 (key_D (k_PrivateKey k))) false = Ok (k_PrivateKey k) /\ toECDSA wb (be_bytes 32 (key_D (k_PrivateKey k))) true = Ok (k_PrivateKey k).
Proof.
  intros ([HD Hpub] & _). assert (HN : secp256k1N < 2 ^ 256) by (by vm_compute). split; [rewrite PaddedBigBytes_fits, Z.abs_eq by (done || lia); done|].
  assert (E : forall strict, toECDSA wb (be_bytes 32 (key_D (k_PrivateKey k))) strict = Ok (k_PrivateKey k)); [|by split]. intros strict. unfold toECDSA. rewrite be_bytes_len. change (8 * Z.of_nat 32 =? BitSize) with true. rewrite andb_false_r.
  rewrite be_val_be_bytes, Z.mod_small by lia. destruct (Z.leb_spec secp256k1N (key_D (k_PrivateKey k))); [lia|]. destruct (Z.leb_spec (key_D (k_PrivateKey k)) 0); [lia|].
  rewrite (ScalarBaseMult_key wb Hwb (pub_of := pub_of)) by done. rewrite <- Hpub. by destruct (k_PrivateKey k).
Qed.

Lemma unsafe_key_bytes k : full_key k -> (let? key := unsafe_key wb (be_bytes 32 (key_D (k_PrivateKey k))) in newKeyFromECDSA Keccak256 (k_Id k) key) = Ok k.
Proof.
  intros Hk. destruct (key_bytes k Hk) as (_ & E & _). unfold unsafe_key, ToECDSAUnsafe. rewrite E. cbn [obind]. unfold newKeyFromECDSA. destruct Hk as (_ & -> & _). cbn [of_option obind]. by destruct k.
Qed.

Lemma key_json_ok k dk out : full_key k -> bytes_ok out -> jval_ok key_v3_type (key_json uuid_String k (crypto_data dk out)).
Proof.
  intros (_ & _ & _ & Ha & Hid & Hidb) Ho. apply struct_val. apply Forall2_cons. split; [by apply plain_text, hex_plain|]. apply Forall2_cons. split.
  - apply struct_val. cbn [crypto_data cj_Cipher cj_CipherText cj_IV cj_KDF cj_KDFParams cj_MAC]. apply Forall2_cons. split; [apply plain_text, (bool_decide_unpack _); vm_compute; exact I|].
    apply Forall2_cons. split; [by apply plain_text, hex_plain|]. apply Forall2_cons. split; [apply struct_val, Forall2_cons; split; [apply plain_text, hex_plain, Hiv|done]|].
    apply Forall2_cons. split; [apply plain_text, (bool_decide_unpack _); vm_compute; exact I|]. apply Forall2_cons. split; [|apply Forall2_cons; split; [|done]].
    + split; [|by eexists]. apply obj_ok. repeat (apply Forall_cons_2; [split; [apply raw_plain, (bool_decide_unpack _); vm_compute; exact I|cbn [snd]; try apply FormatInt_num]|]); [|apply Forall_nil_2]. by apply escape_raw, bytes_plain, hex_plain.
    + apply plain_text, hex_plain, (su_keccak _ _ _ _ _ HS).
  - apply Forall2_cons. split; [by apply plain_text, (su_uuid _ _ _ _ _ HS)|]. apply Forall2_cons. split; [|done]. by vm_compute.
Qed.

(** The text of a key is read in both ways. *)
Lemma key_json_read k dk out : full_key k -> bytes_ok out ->
  let text := json_Marshal key_v3_type (key_json uuid_String k (crypto_data dk out)) in
  json_Unmarshal key_v3_type text = (key_json uuid_String k (crypto_data dk out), None) /\
  exists j, json_Unmarshal JTMap text = (JVAny (Some j), None) /\ floats_ok j = true /\ is_version_1 (JVAny (Some j)) = false.
Proof.
  intros Hk Ho text. destruct (json_marshal_roundtrip key_v3_type _ key_v3_type_ok (key_json_ok k dk out Hk Ho)) as [E1 E2]; [done|]. split; [exact E1|].
  exists (jencode key_v3_type (key_json uuid_String k (crypto_data dk out))). split; [unfold json_Unmarshal; fold text in E2; by rewrite E2|].
  assert (F : forall m, 0 <= m < 2 ^ 53 -> floats_ok (JNum (FormatInt m)) = true). { intros m Hm. cbn [floats_ok]. by destruct (ParseFloat_int m Hm) as (f & -> & _). }
  assert (Ej : jencode key_v3_type (key_json uuid_String k (crypto_data dk out)) =
    JObj [(escape (str "address"), JStr (escape (hex_Encode (k_Address k))));
          (escape (str "crypto"), JObj [(escape (str "cipher"), JStr (escape (str "aes-128-ctr"))); (escape (str "ciphertext"), JStr (escape (hex_Encode out)));
             (escape (str "cipherparams"), JObj [(escape (str "iv"), JStr (escape (hex_Encode iv)))]); (escape (str "kdf"), JStr (escape keyHeaderKDF));
             (escape (str "kdfparams"), kdf_members (JNum (FormatInt scryptDKLen)) (JNum (FormatInt n)) (JNum (FormatInt p)) (JNum (FormatInt scryptR)) (JStr (escape (hex_Encode salt))));
             (escape (str "mac"), JStr (escape (hex_Encode (Keccak256 (take 16 (drop 16 dk) ++ out)))))]);
          (escape (str "id"), JStr (escape (uuid_String (k_Id k)))); (escape (str "version"), JNum (FormatInt version))]) by reflexivity.
  rewrite Ej. split.
  - unfold kdf_members. rewrite !floats_ok_obj. cbn [forallb snd]. rewrite !floats_ok_obj. cbn [forallb snd]. rewrite !floats_ok_obj. cbn [forallb snd]. rewrite !F by (done || by vm_compute). done.
  - apply v3_version.
Qed.

Lemma DecryptKey_text k dk out auth : full_key k -> bytes_ok out ->
  DecryptKey wb Keccak256 aes scrypt pbkdf2 uuid_Parse (json_Marshal key_v3_type (key_json uuid_String k (crypto_data dk out))) auth =
    (let? x := DecryptDataV3 Keccak256 aes scrypt pbkdf2 (crypto_data dk out) auth in
     let? key := unsafe_key wb x in newKeyFromECDSA Keccak256 (k_Id k) key).
Proof.
  intros Hk Ho. destruct (key_json_read k dk out Hk Ho) as (E1 & j & E2 & E3 & E4). unfold DecryptKey. rewrite E2. cbn [of_json]. rewrite E3, E4. cbn [negb]. rewrite E1. cbn [of_json]. unfold decryptKeyV3, key_json. rewrite Z.eqb_refl. cbn [negb].
  assert (Ec : crypto_of (crypto_val (crypto_data dk out)) = crypto_data dk out) by done. rewrite Ec. cbn [txt]. destruct Hk as (_ & _ & _ & _ & Hid & Hidb). rewrite (proj1 (su_uuid _ _ _ _ _ HS _ Hid Hidb)). by destruct (DecryptDataV3 _ _ _ _ _ _).
Qed.

(** What EncryptKey writes, and what any passphrase makes of it. *)
Lemma EncryptKey_text k auth : full_key k ->
  match scrypt auth salt n scryptR p scryptDKLen with
  | None => EncryptKey wb Keccak256 aes scrypt uuid_String salt iv k auth n p = Err ErrScrypt
  | Some dk => exists ct, EncryptKey wb Keccak256 aes scrypt uuid_String salt iv k auth n p = Ok (json_Marshal key_v3_type (key_json uuid_String k (crypto_data dk ct))) /\
      DecryptKey wb Keccak256 aes scrypt pbkdf2 uuid_Parse (json_Marshal key_v3_type (key_json uuid_String k (crypto_data dk ct))) auth = Ok k /\
      forall auth' dk', scrypt auth' salt n scryptR p scryptDKLen = Some dk' ->
        Keccak256 (take 16 (drop 16 dk') ++ ct) <> Keccak256 (take 16 (drop 16 dk) ++ ct) ->
        DecryptKey wb Keccak256 aes scrypt pbkdf2 uuid_Parse (json_Marshal key_v3_type (key_json uuid_String k (crypto_data dk ct))) auth' = Err ErrDecrypt
  end.
Proof.
  intros Hk. destruct (key_bytes k Hk) as (Eb & _). unfold EncryptKey. rewrite Eb. pose proof (EncryptDataV3_eq (be_bytes 32 (key_D (k_PrivateKey k))) auth) as HE.
  destruct (scrypt auth salt n scryptR p scryptDKLen) as [dk|] eqn:Es; [|by rewrite HE]. destruct HE as (Hl & b & ct & Ea & Hb & Ec & ->). cbn [obind]. exists ct. split; [done|].
  assert (Hct : bytes_ok ct) by (eapply CTR_bytes; [done|apply be_bytes_ok|done]). split.
  - rewrite DecryptKey_text, (DecryptDataV3_data dk b ct (be_bytes 32 (key_D (k_PrivateKey k)))) by done. rewrite Es, bool_decide_true by done. unfold aesCTRXOR. rewrite Ea.
    destruct (CTR_inverse b iv _ ct Hb Ec) as [_ ->]. cbn [of_option obind]. by apply unsafe_key_bytes.
  - intros auth' dk' Es' Hne. rewrite DecryptKey_text, (DecryptDataV3_data dk b ct (be_bytes 32 (key_D (k_PrivateKey k)))) by done. rewrite Es'. by rewrite bool_decide_false by done.
Qed.

(** What EncryptKey writes is JSON of the key. *)
Lemma EncryptKey_json k auth text : full_key k -> EncryptKey wb Keccak256 aes scrypt uuid_String salt iv k auth n p = Ok text ->
  exists dk ct, text = json_Marshal key_v3_type (key_json uuid_String k (crypto_data dk ct)) /\ jval_ok key_v3_type (key_json uuid_String k (crypto_data dk ct)).
Proof.
  intros Hk. destruct (key_bytes k Hk) as (Eb & _). unfold EncryptKey. rewrite Eb. pose proof (EncryptDataV3_eq (be_bytes 32 (key_D (k_PrivateKey k))) auth) as HE.
  destruct (scrypt auth salt n scryptR p scryptDKLen) as [dk|] eqn:Es; [|by rewrite HE]. destruct HE as (Hl & b & ct & Ea & Hb & Ec & ->). cbn [obind]. intros [= <-]. exists dk, ct. split; [done|]. apply key_json_ok; [done|]. eapply CTR_bytes; [done|apply be_bytes_ok|done].
Qed.

Lemma plain_key_ok k : full_key k ->
  jval_ok plain_key_type (JVStruct [JVStr (hex_Encode (k_Address k)); JVStr (hex_Encode (FromECDSA wb (Some (k_PrivateKey k)))); JVStr (uuid_String (k_Id k)); JVInt version]).
Proof.
  intros Hk. destruct (key_bytes k Hk) as (Eb & _). destruct Hk as (HD & Hadr & Hal & Ha & Hid & Hidb). cbn [FromECDSA]. change (BitSize / 8) with 32. rewrite Eb.
  apply struct_val. apply Forall2_cons. split; [by apply plain_text, hex_plain|]. apply Forall2_cons. split; [apply plain_text, hex_plain, be_bytes_ok|]. apply Forall2_cons. split; [by apply plain_text, (su_uuid _ _ _ _ _ HS)|]. apply Forall2_cons. split; [|done]. by vm_compute.
Qed.
Lemma plain_key_read k : full_key k -> Key_UnmarshalJSON wb uuid_Parse (Key_MarshalJSON wb uuid_String k) = Ok k.
Proof.
  intros Hk. pose proof (plain_key_ok k Hk) as Hok. destruct (key_bytes k Hk) as (Eb & _ & Es). destruct Hk as (HD & Hadr & Hal & Ha & Hid & Hidb). unfold Key_UnmarshalJSON, Key_MarshalJSON. cbn [FromECDSA] in *. change (BitSize / 8) with 32 in *. rewrite Eb in *. set (v := JVStruct _) in *.
  assert (Hv : jval_ok (JTPtr plain_key_type) (JVPtr (Some v))) by (split; [exact Hok|done]).
  destruct (json_marshal_roundtrip (JTPtr plain_key_type) (JVPtr (Some v)) plain_key_type_ok Hv) as [E _]; [done|]. change (json_Marshal (JTPtr plain_key_type) (JVPtr (Some v))) with (json_Marshal plain_key_type v) in E. rewrite E. cbn [of_json]. unfold v. cbn [txt].
  rewrite hex_bytes_Encode by done. cbn [obind]. unfold HexToECDSA. rewrite hex_Decode_Encode by apply be_bytes_ok. unfold ToECDSA. rewrite Es.
  rewrite (proj1 (su_uuid _ _ _ _ _ HS _ Hid Hidb)). unfold BytesToAddress, Address_SetBytes. rewrite set_bytes_eq by (done || by apply len_zeros).
  rewrite Hal. change (AddressLength - 20) with 0. change (20 - AddressLength) with 0. change (Z.to_nat 0) with 0%nat. rewrite drop_0. cbn [take app of_option obind]. by destruct k.
Qed.

(** C28: Key files are read back, and only with their passphrase.  For a key with
    its address and an id, EncryptKey fails only when scrypt does; DecryptKey on
    its text with the same passphrase gives the key back, id and address
    included; with a passphrase whose derived key gives another tag it returns
    ErrDecrypt.  The JSON of a plain key is read back too. *)
Theorem key_file_roundtrip k auth : full_key k ->
  match EncryptKey wb Keccak256 aes scrypt uuid_String salt iv k auth n p with
  | Ok text => DecryptKey wb Keccak256 aes scrypt pbkdf2 uuid_Parse text auth = Ok k /\
      exists dk ct, scrypt auth salt n scryptR p scryptDKLen = Some dk /\
        forall auth' dk', scrypt auth' salt n scryptR p scryptDKLen = Some dk' ->
          Keccak256 (take 16 (drop 16 dk') ++ ct) <> Keccak256 (take 16 (drop 16 dk) ++ ct) ->
          DecryptKey wb Keccak256 aes scrypt pbkdf2 uuid_Parse text auth' = Err ErrDecrypt
  | Err e => e = ErrScrypt /\ scrypt auth salt n scryptR p scryptDKLen = None
  | _ => False
  end /\
  Key_UnmarshalJSON wb uuid_Parse (Key_MarshalJSON wb uuid_String k) = Ok k.
Proof.
  intros Hk. split; [|by apply plain_key_read]. pose proof (EncryptKey_text k auth Hk) as HE. destruct (scrypt auth salt n scryptR p scryptDKLen) as [dk|] eqn:Es; [|by rewrite HE].
  destruct HE as (ct & -> & HD & HW). split; [done|]. by exists dk, ct.
Qed.

(** What StoreKey leaves in the files. *)
Lemma StoreKey_spec fs t renames skip filename k auth : full_key k -> t <> filename ->
  let '(fs', res) := StoreKey wb Keccak256 aes scrypt pbkdf2 uuid_String uuid_Parse fs (Some t) renames skip salt iv filename k auth n p in
  (forall f, f <> filename -> f <> t -> fs' !! f = fs !! f) /\
  if bool_decide (scrypt auth salt n scryptR p scryptDKLen = None) || negb renames
  then (exists e, res = Err e) /\ fs' !! filename = fs !! filename
  else res = Ok tt /\ fs' !! t = None /\ GetKey wb Keccak256 aes scrypt pbkdf2 uuid_Parse fs' (k_Address k) filename auth = Ok k /\
    forall addr, addr <> k_Address k -> GetKey wb Keccak256 aes scrypt pbkdf2 uuid_Parse fs' addr filename auth = Err ErrMismatch.
Proof.
  intros Hk Ht. pose proof (EncryptKey_text k auth Hk) as HE. unfold StoreKey. destruct (scrypt auth salt n scryptR p scryptDKLen) as [dk|] eqn:Es.
  2: { rewrite HE. split; [done|]. split; [by eexists|done]. }
  destruct HE as (ct & -> & HD & _). set (text := json_Marshal _ _) in *.
  assert (HG : forall (fs1 : files) f addr, fs1 !! f = Some text -> GetKey wb Keccak256 aes scrypt pbkdf2 uuid_Parse fs1 addr f auth = if bool_decide (k_Address k = addr) then Ok k else Err ErrMismatch).
  { intros fs1 f addr Ef. unfold GetKey. rewrite Ef, HD. cbn [obind]. by case_bool_decide. }
  unfold writeTemporaryKeyFile. cbn [mbind option_bind]. rewrite (HG (<[t:=text]> fs) t (k_Address k)) by apply lookup_insert_eq. rewrite bool_decide_true by done.
  assert (ER : os_Rename (<[t:=text]> fs) renames t filename = if renames then (<[filename:=text]> (delete t (<[t:=text]> fs)), None) else (<[t:=text]> fs, Some ErrIO)).
  { unfold os_Rename. assert (EL : (<[t:=text]> fs : files) !! t = Some text) by apply lookup_insert_eq. rewrite EL. by destruct renames. }
  rewrite ER, (bool_decide_false (Some dk = None)) by done. cbn [orb]. destruct renames; cbn [negb].
  - assert (G : let fs' : files := <[filename:=text]> (delete t (<[t:=text]> fs)) in (forall f, f <> filename -> f <> t -> fs' !! f = fs !! f) /\ fs' !! t = None /\ fs' !! filename = Some text).
    { cbv zeta. split; [intros f Hf Hft; by rewrite lookup_insert_ne, lookup_delete_ne, lookup_insert_ne by done|]. split; [by rewrite lookup_insert_ne, lookup_delete_eq by done|by rewrite lookup_insert_eq]. }
    destruct G as (G1 & G2 & G3). destruct skip.
    all: split; [done|]; split; [done|]; split; [done|]; split; [by rewrite HG, bool_decide_true|]; intros addr Ha; by rewrite HG, bool_decide_false.
  - destruct skip.
    all: split; [intros f Hf Hft; by rewrite lookup_insert_ne by done|]; split; [by eexists|by rewrite lookup_insert_ne by done].
Qed.

(** The text of a plain key, in a file. *)
Lemma plain_GetKey_text k fs filename addr : full_key k -> fs !! filename = Some (Key_MarshalJSON wb uuid_String k) ->
  plain_GetKey wb uuid_Parse fs addr filename = if bool_decide (k_Address k = addr) then Ok k else Err ErrMismatch.
Proof.
  intros Hk Hf. unfold plain_GetKey. rewrite Hf. pose proof (plain_key_read k Hk) as Hr. unfold Key_MarshalJSON, json_Marshal in *. rewrite first_value_print; [rewrite Hr; cbn [obind]; by case_bool_decide|].
  apply encode_ok; [apply plain_key_type_ok|by apply plain_key_ok].
Qed.

(** Storing a key is all or nothing.  With a temporary file of another name,
    StoreKey succeeds exactly when scrypt gives a key and the file can be renamed,
    whether it verifies or not; then GetKey reads the key back from the file, and
    refuses it for any other address; the other files are untouched.  When it
    fails the file is what it was. *)
Theorem store_key_atomic fs t renames skip filename k auth : full_key k -> t <> filename ->
  let '(fs', res) := StoreKey wb Keccak256 aes scrypt pbkdf2 uuid_String uuid_Parse fs (Some t) renames skip salt iv filename k auth n p in
  (forall f, f <> filename -> f <> t -> fs' !! f = fs !! f) /\
  if bool_decide (scrypt auth salt n scryptR p scryptDKLen = None) || negb renames
  then (exists e, res = Err e) /\ fs' !! filename = fs !! filename
  else res = Ok tt /\ fs' !! t = None /\ GetKey wb Keccak256 aes scrypt pbkdf2 uuid_Parse fs' (k_Address k) filename auth = Ok k /\
    forall addr, addr <> k_Address k -> GetKey wb Keccak256 aes scrypt pbkdf2 uuid_Parse fs' addr filename auth = Err ErrMismatch.
Proof. apply StoreKey_spec. Qed.

(** ** Files that are not keys *)

Definition with_iv (c : CryptoJSON) (iv' : list Z) : CryptoJSON := MkCrypto (cj_Cipher c) (cj_CipherText c) (hex_Encode iv') (cj_KDF c) (cj_KDFParams c) (cj_MAC c).

(** The tag does not cover the vector. *)
Lemma DecryptDataV3_iv iv' data auth : bytes_ok data -> bytes_ok iv' ->
  match EncryptDataV3 Keccak256 aes scrypt salt iv data auth n p with
  | Ok c => if len iv' =? 16 then exists b ct, CTR b iv data = Some ct /\ of_option (CTR b iv' ct) = DecryptDataV3 Keccak256 aes scrypt pbkdf2 (with_iv c iv') auth
            else DecryptDataV3 Keccak256 aes scrypt pbkdf2 (with_iv c iv') auth = Panic
  | _ => True
  end.
Proof.
  intros Hd Hi. pose proof (EncryptDataV3_eq data auth) as HE. destruct (scrypt auth salt n scryptR p scryptDKLen) as [dk|] eqn:Es; [|by rewrite HE]. destruct HE as (Hl & b & ct & Ea & Hb & Ec & ->).
  assert (Hct : bytes_ok ct) by (eapply CTR_bytes; [exact Hb|exact Hd|exact Ec]).
  assert (E : DecryptDataV3 Keccak256 aes scrypt pbkdf2 (with_iv (crypto_data dk ct) iv') auth = of_option (CTR b iv' ct)).
  { unfold DecryptDataV3. cbn [with_iv crypto_data cj_Cipher]. rewrite bool_decide_true by done. cbn [negb]. unfold checked_parts. cbn [with_iv crypto_data cj_MAC cj_IV cj_CipherText]. rewrite !hex_bytes_Encode by (done || apply (su_keccak _ _ _ _ _ HS)). cbn [obind].
    change (getKDFKey scrypt pbkdf2 (with_iv (crypto_data dk ct) iv') auth) with (getKDFKey scrypt pbkdf2 (crypto_data dk ct) auth). rewrite getKDFKey_data, Es. cbn [obind]. unfold go_slice at 1. rewrite Hl. cbn [Z.leb Z.compare Pos.compare Pos.compare_cont andb of_option obind]. change (Z.to_nat (32 - 16)) with 16%nat. change (Z.to_nat 16) with 16%nat.
    rewrite bool_decide_true by done. cbn [negb obind]. unfold go_slice. rewrite Hl. cbn [Z.leb Z.compare Pos.compare Pos.compare_cont andb of_option obind]. change (Z.to_nat (16 - 0)) with 16%nat. change (Z.to_nat 0) with 0%nat. rewrite drop_0. unfold aesCTRXOR. by rewrite Ea. }
  rewrite E. destruct (Z.eqb_spec (len iv') 16) as [E16|N16]; [by exists b, ct|]. unfold CTR. destruct (su_aes _ _ _ _ _ HS (take 16 dk)) as (b' & Eb' & _ & Hs); [rewrite len_take; lia|]. rewrite Ea in Eb'. injection Eb' as <-. rewrite Hs. by destruct (Z.eqb_spec (len iv') 16).
Qed.

(** A file of version 3 without parameters. *)
Definition bare_key : list Z := print (JObj [(str "crypto", JObj [(str "cipher", JStr (str "aes-128-ctr"))]); (str "version", JNum (str "3"))]).

(** C30: Where damaged key files do harm.  A file without parameters of the key
    derivation makes DecryptKey panic, and null makes the plain decoder panic.
    The tag of an encrypted key does not cover the vector: with a vector of
    another length decryption panics, and with another one of 16 bytes it
    returns other bytes without an error. *)
Theorem key_file_failures auth :
  DecryptKey wb Keccak256 aes scrypt pbkdf2 uuid_Parse bare_key auth = Panic /\
  Key_UnmarshalJSON wb uuid_Parse (str "null") = Panic /\
  forall iv' data, bytes_ok data -> bytes_ok iv' ->
    match EncryptDataV3 Keccak256 aes scrypt salt iv data auth n p with
    | Ok c => if len iv' =? 16 then exists b ct, CTR b iv data = Some ct /\ of_option (CTR b iv' ct) = DecryptDataV3 Keccak256 aes scrypt pbkdf2 (with_iv c iv') auth
              else DecryptDataV3 Keccak256 aes scrypt pbkdf2 (with_iv c iv') auth = Panic
    | _ => True
    end.
Proof.
  split; [|split; [vm_compute; reflexivity|intros iv' data; apply DecryptDataV3_iv]]. unfold DecryptKey.
  assert (E1 : json_Unmarshal JTMap bare_key = (JVAny (Some (JObj [(str "crypto", JObj [(str "cipher", JStr (str "aes-128-ctr"))]); (str "version", JNum (str "3"))])), None)) by (vm_compute; reflexivity).
  assert (E2 : json_Unmarshal key_v3_type bare_key = (JVStruct [JVStr []; crypto_val (MkCrypto (str "aes-128-ctr") [] [] [] None []); JVStr []; JVInt 3], None)) by (vm_compute; reflexivity).
  rewrite E1. cbn [of_json]. match goal with |- context [floats_ok ?j] => assert (E3 : floats_ok j = true) by (vm_compute; reflexivity); rewrite E3 end. cbn [negb].
  match goal with |- context [is_version_1 ?j] => assert (E4 : is_version_1 j = false) by (vm_compute; reflexivity); rewrite E4 end. rewrite E2. cbn [of_json decryptKeyV3]. change (3 =? version) with true. cbn [negb].
  unfold DecryptDataV3. cbn [crypto_of crypto_val txt cj_Cipher]. rewrite bool_decide_true by done. done.
Qed.
End correct.

(** ** Older formats *)

(** The padding that pkcs7Unpad removes. *)
Definition pkcs7_pad (m : list Z) : list Z := let q := 16 - len m mod 16 in m ++ replicate (Z.to_nat q) q.

Lemma pkcs7Unpad_pad m : pkcs7Unpad (pkcs7_pad m) = Some m.
Proof.
  unfold pkcs7_pad. pose proof (Z.mod_pos_bound (len m) 16 ltac:(lia)) as Hm. set (q := 16 - len m mod 16) in *. unfold pkcs7Unpad.
  assert (El : last (m ++ replicate (Z.to_nat q) q) = Some q). { destruct (Z.to_nat q) as [|k] eqn:Ek; [lia|]. replace (S k) with (k + 1)%nat by lia. rewrite replicate_add, app_assoc. apply last_snoc. }
  rewrite El. pose proof (len_nonneg m). assert (L : length (m ++ replicate (Z.to_nat q) q) = (length m + Z.to_nat q)%nat) by (by rewrite length_app, length_replicate).
  assert (Hlen : len (m ++ replicate (Z.to_nat q) q) = len m + q) by (unfold len in *; rewrite L; lia). rewrite Hlen, L. destruct (Z.ltb_spec (len m + q) q), (Z.ltb_spec 16 q), (Z.eqb_spec q 0); try lia. cbn [orb].
  replace (length m + Z.to_nat q - Z.to_nat q)%nat with (length m) by lia. rewrite drop_app_length, take_app_length.
  assert (F : forallb (fun b => b =? q) (replicate (Z.to_nat q) q) = true) by (apply forallb_forall; intros x Hx; apply list_elem_of_In, elem_of_replicate in Hx as [-> _]; apply Z.eqb_refl). by rewrite F.
Qed.

(** What was padded and chained block by block is decrypted. *)
Lemma aesCBCDecrypt_padded aes key b iv blocks m : aes key = Some b -> block_inverse b -> b_size b = 16 -> len iv = 16 -> Forall (fun p => len p = 16) blocks -> concat blocks = pkcs7_pad m ->
  aesCBCDecrypt aes key (cbc_encrypt b iv blocks) iv = Ok m.
Proof.
  intros Ea Hb Hs Hi Hbl Hm. unfold aesCBCDecrypt. rewrite Ea. assert (Hl : len (cbc_encrypt b iv blocks) = 16 * len blocks) by (rewrite cbc_encrypt_len; rewrite ?Hs; (done || apply Hb)).
  unfold CBCDecrypt. rewrite Hs, Hi, Z.eqb_refl. cbn [negb]. rewrite Hl, (Z.mul_comm 16), Z.mod_mul by lia. cbn [Z.eqb negb of_option obind].
  rewrite cbc_inverse; [|done|by rewrite Hs|by rewrite Hs|unfold len in Hl; lia]. by rewrite Hm, pkcs7Unpad_pad.
Qed.

(** A wallet of the presale: the seed under the password, and the address of the
    key that is the hash of the seed. *)
Lemma presale_key_read wb `{SecpLaws} Keccak256 aes pbkdf2 b iv blocks seed k password email btc :
  (0 < wb)%nat -> (forall m, len (Keccak256 m) = 32 /\ bytes_ok (Keccak256 m)) -> aes (pbkdf2 password password 2000 16) = Some b -> block_inverse b -> b_size b = 16 ->
  len iv = 16 -> bytes_ok iv -> Forall (fun p => len p = 16) blocks -> concat blocks = pkcs7_pad seed -> bytes_ok (cbc_encrypt b iv blocks) ->
  full_key (pub_of := pub_of) Keccak256 (MkKey (replicate 16 0) (k_Address k) (k_PrivateKey k)) -> be_bytes 32 (key_D (k_PrivateKey k)) = Keccak256 seed -> Forall plain email -> Forall plain btc ->
  decryptPreSaleKey wb Keccak256 aes pbkdf2
    (json_Marshal presale_type (JVStruct [JVStr (hex_Encode (iv ++ cbc_encrypt b iv blocks)); JVStr (hex_Encode (k_Address k)); JVStr email; JVStr btc])) password =
  Ok (MkKey [] (k_Address k) (k_PrivateKey k)).
Proof.
  intros Hwb HK Ha Hb Hs Hi Hib Hbl Hm Hct Hk Ek He Hbt. set (v := JVStruct _).
  assert (Ht : jtype_ok presale_type) by (apply struct_ok; [vm_compute; reflexivity..|]; by repeat constructor).
  assert (Hv : jval_ok presale_type v).
  { pose proof Hk as (_ & _ & _ & Hba & _). apply struct_val. apply Forall2_cons. split; [by apply plain_text, hex_plain, bytes_ok_app|]. apply Forall2_cons. split; [by apply plain_text, hex_plain|]. apply Forall2_cons. split; [by apply plain_text|]. apply Forall2_cons. split; [by apply plain_text|done]. }
  destruct (json_marshal_roundtrip presale_type v Ht Hv) as [E _]; [done|]. unfold decryptPreSaleKey. rewrite E. cbn [of_json]. unfold v. cbn [txt]. rewrite hex_Decode_Encode by (by apply bytes_ok_app).
  rewrite len_app. pose proof (len_nonneg (cbc_encrypt b iv blocks)). destruct (Z.ltb_spec (len iv + len (cbc_encrypt b iv blocks)) 16); [lia|].
  rewrite take_app_length', drop_app_length' by (unfold len in Hi; lia). rewrite (aesCBCDecrypt_padded aes _ b iv blocks seed) by done. cbn [obind].
  destruct (key_bytes wb Keccak256 Hwb _ Hk) as (_ & E3 & _). cbn [k_PrivateKey] in E3. rewrite <- Ek. unfold unsafe_key, ToECDSAUnsafe. rewrite E3. cbn [obind]. unfold newKeyFromECDSA. destruct Hk as (_ & Ead & _). cbn [k_PrivateKey k_Address] in Ead. rewrite Ead. cbn [of_option obind k_Address].
  by rewrite bool_decide_true.
Qed.

(** ** A sample store *)

Definition toy_keccak (m : list Z) : list Z := be_bytes 32 (be_val m + len m).
Definition toy_aes (key : list Z) : option Block := if len key =? 16 then Some (toy_cipher key) else None.
Definition toy_scrypt (auth salt : list Z) (n r p d : Z) : option (list Z) := if d <? 0 then None else Some (be_bytes (Z.to_nat d) (be_val auth + be_val salt + n)).
Lemma toy_suite : suite_ok toy_keccak toy_aes toy_scrypt hex_Encode (fun s => fst (hex_Decode s)).
Proof.
  split.
  - intros m. unfold toy_keccak. rewrite be_bytes_len. split; [done|apply be_bytes_ok].
  - intros k Hk. exists (toy_cipher k). unfold toy_aes. rewrite Hk. split_and!; [done|apply toy_cipher_ok|done].
  - intros a s n r p d k. unfold toy_scrypt. destruct (Z.ltb_spec d 0); [done|]. intros [= <-]. rewrite be_bytes_len. lia.
  - intros id _ Hid. rewrite hex_Decode_Encode by done. split; [done|by apply hex_plain].
Qed.

Definition toy_address : list Z := default [] (PubkeyToAddress toy_keccak (curve_Gx, curve_Gy)).
Definition toy_stored_key : Key := MkKey (replicate 16 1) toy_address (PrivKey 1 (curve_Gx, curve_Gy)).
Lemma toy_stored_key_ok : full_key (pub_of := fun _ => (curve_Gx, curve_Gy)) toy_keccak toy_stored_key.
Proof.
  split; [done|]. split; [vm_compute; reflexivity|]. split; [vm_compute; reflexivity|]. split; [apply (bool_decide_unpack _); vm_compute; exact I|]. split; [done|by apply Forall_replicate].
Qed.

Lemma toy_salt : bytes_ok (replicate 32 3).
Proof. by apply Forall_replicate. Qed.
Lemma toy_iv : bytes_ok (replicate 16 4) /\ len (replicate 16 4) = 16.
Proof. split; [by apply Forall_replicate|done]. Qed.

Lemma key_file_roundtrip_witness : exists text, @EncryptKey 8 toy_keccak toy_aes toy_scrypt hex_Encode (replicate 32 3) (replicate 16 4) toy_stored_key (str "pass") 4096 6 = Ok text /\
  @DecryptKey 8 one_point_library toy_keccak toy_aes toy_scrypt (fun _ _ _ _ => []) (fun s => fst (hex_Decode s)) text (str "pass") = Ok toy_stored_key.
Proof.
  destruct (@key_file_roundtrip 8 one_point_library _ one_point_laws toy_keccak toy_aes toy_scrypt (fun _ _ _ _ => []) hex_Encode (fun s => fst (hex_Decode s)) ltac:(lia) toy_suite (replicate 32 3) (replicate 16 4) 4096 6
    toy_salt toy_iv ltac:(lia) ltac:(lia) toy_stored_key (str "pass") toy_stored_key_ok) as [H _].
  assert (E : exists text, @EncryptKey 8 toy_keccak toy_aes toy_scrypt hex_Encode (replicate 32 3) (replicate 16 4) toy_stored_key (str "pass") 4096 6 = Ok text) by (eexists; vm_compute; reflexivity).
  destruct E as [text E]. rewrite E in H. exists text. split; [exact E|exact (proj1 H)].
Defined.

Lemma store_key_atomic_witness : exists fs, @GetKey 8 one_point_library toy_keccak toy_aes toy_scrypt (fun _ _ _ _ => []) (fun s => fst (hex_Decode s)) fs toy_address (str "key") (str "pass") = Ok toy_stored_key.
Proof.
  pose proof (@store_key_atomic 8 one_point_library _ one_point_laws toy_keccak toy_aes toy_scrypt (fun _ _ _ _ => []) hex_Encode (fun s => fst (hex_Decode s)) ltac:(lia) toy_suite (replicate 32 3) (replicate 16 4) 4096 6
    toy_salt toy_iv ltac:(lia) ltac:(lia) ∅ (str "tmp") true false (str "key") toy_stored_key (str "pass") toy_stored_key_ok ltac:(discriminate)) as H.
  destruct (StoreKey _ _ _ _ _ _ _ _ _ _ _ _ _ _ _ _ _ _) as [fs res]. exists fs. rewrite bool_decide_false in H by (vm_compute; discriminate). exact (proj1 (proj2 (proj2 (proj2 H)))).
Defined.

Lemma key_file_failures_witness : @DecryptKey 8 one_point_library toy_keccak toy_aes toy_scrypt (fun _ _ _ _ => []) (fun s => fst (hex_Decode s)) bare_key (str "pass") = Panic.
Proof.
  destruct (@key_file_failures 8 one_point_library toy_keccak toy_aes toy_scrypt (fun _ _ _ _ => []) hex_Encode (fun s => fst (hex_Decode s)) ltac:(lia) toy_suite (replicate 32 3) (replicate 16 4) 4096 6 toy_salt toy_iv ltac:(lia) ltac:(lia) (str "pass")) as [H _]. exact H.
Defined.
