(* ===== verification/Accounts.v ===== *)
(** * Accounts: URLs and derivation paths

    src/accounts/url.go and hd.go, with strings.Split, strings.TrimSpace and the
    base prefixes of big.Int.SetString. *)

From Stdlib Require Import String.
From stdpp Require Import list strings.
From S2P Require Import Prelude GoText GoSort Json JsonTypes.

(** ** The standard library *)

Definition has_prefix (s p : list Z) : bool := bool_decide (take (length p) s = p).
Definition has_suffix (s p : list Z) : bool := bool_decide (drop (length s - length p) s = p).

(** strings.Split by a separator that is not empty, with the field that was begun. *)
Fixpoint split_fields (fuel : nat) (sep cur s : list Z) : list (list Z) :=
  match fuel with
  | O => [cur]
  | S fuel =>
      match s with
      | [] => [cur]
      | c :: r => if has_prefix s sep then cur :: split_fields fuel sep [] (drop (length sep) s) else split_fields fuel sep (cur ++ [c]) r
      end
  end.
Definition strings_Split (s sep : list Z) : list (list Z) := split_fields (S (length s)) sep [] s.

(** The encodings of white space. *)
Definition spaces : list (list Z) :=
  [[9]; [10]; [11]; [12]; [13]; [32]; [194; 133]; [194; 160]; [225; 154; 128]; [226; 128; 128]; [226; 128; 129]; [226; 128; 130]; [226; 128; 131]; [226; 128; 132]; [226; 128; 133];
   [226; 128; 134]; [226; 128; 135]; [226; 128; 136]; [226; 128; 137]; [226; 128; 138]; [226; 128; 168]; [226; 128; 169]; [226; 128; 175]; [226; 129; 159]; [227; 128; 128]].
Fixpoint trim_left (fuel : nat) (s : list Z) : list Z :=
  match fuel with
  | O => s
  | S fuel => match List.find (has_prefix s) spaces with Some w => trim_left fuel (drop (length w) s) | None => s end
  end.
Fixpoint trim_right (fuel : nat) (s : list Z) : list Z :=
  match fuel with
  | O => s
  | S fuel => match List.find (has_suffix s) spaces with Some w => trim_right fuel (take (length s - length w) s) | None => s end
  end.
Definition TrimSpace (s : list Z) : list Z := let s := trim_left (length s) s in trim_right (length s) s.

Definition digit_value (c : Z) : Z :=
  if (48 <=? c) && (c <=? 57) then c - 48 else if (97 <=? c) && (c <=? 122) then c - 87 else if (65 <=? c) && (c <=? 90) then c - 55 else 99.
(** The digits of a number in base [b] with separators: the last kind of
    character, whether a separator is misplaced, how many digits, the value, and
    the rest. *)
Fixpoint scan_digits (b prev : Z) (bad : bool) (count acc : Z) (s : list Z) : Z * bool * Z * Z * list Z :=
  match s with
  | [] => (prev, bad, count, acc, [])
  | c :: r =>
      if c =? 95 then scan_digits b 95 (bad || negb (prev =? 48)) count acc r
      else if b <=? digit_value c then (prev, bad, count, acc, s)
      else scan_digits b 48 bad (count + 1) (acc * b + digit_value c) r
  end.
(** big.Int.SetString with base 0: a sign, a prefix for the base, digits. *)
Definition SetString0 (s : list Z) : option Z :=
  let '(neg, s) := match s with c :: r => if c =? 45 then (true, r) else if c =? 43 then (false, r) else (false, s) | [] => (false, s) end in
  let '(b, prefix, prev, count, s) :=
    match s with
    | d :: r =>
        if d =? 48 then
          match r with
          | [] => (10, 0, 48, 1, r)
          | c :: r' =>
              if (c =? 98) || (c =? 66) then (2, 98, 48, 0, r') else if (c =? 111) || (c =? 79) then (8, 111, 48, 0, r')
              else if (c =? 120) || (c =? 88) then (16, 120, 48, 0, r') else (8, 48, 48, 0, r)
          end
        else (10, 0, 46, 0, s)
    | [] => (10, 0, 46, 0, s)
    end in
  let '(prev, bad, count, acc, rest) := scan_digits b prev false count 0 s in
  if bad || (prev =? 95) then None
  else if (count =? 0) && negb (prefix =? 48) then None
  else match rest with [] => Some (if neg then - acc else acc) | _ => None end.

(** ** url.go *)

Record URL : Type := MkURL { u_Scheme : list Z; u_Path : list Z }.
#[export] Instance URL_eq_dec : EqDecision URL.
Proof. solve_decision. Defined.

Definition parseURL (url : list Z) : option URL :=
  match strings_Split url (str "://") with
  | [a; b] => if bool_decide (a = []) then None else Some (MkURL a b)
  | _ => None
  end.
Definition URL_String (u : URL) : list Z := if bool_decide (u_Scheme u = []) then u_Path u else u_Scheme u ++ str "://" ++ u_Path u.
Definition URL_TerminalString (u : URL) : list Z :=
  let url := URL_String u in if 32 <? len url then take 31 url ++ [226; 128; 166] else url.
Definition URL_MarshalJSON (u : URL) : list Z := json_Marshal JTStr (JVStr (URL_String u)).
Inductive url_error : Type :=
| ErrURLJson (e : json_error)
| ErrScheme.
Definition URL_UnmarshalJSON (input : list Z) : url_error + URL :=
  match json_Unmarshal JTStr input with
  | (_, Some e) => inl (ErrURLJson e)
  | (JVStr t, None) => match parseURL t with Some u => inr u | None => inl ErrScheme end
  | _ => inl ErrScheme
  end.
Definition URL_Cmp (u url : URL) : Z :=
  if bool_decide (u_Scheme u = u_Scheme url) then Compare (u_Path u) (u_Path url) else Compare (u_Scheme u) (u_Scheme url).

(** ** hd.go *)

Definition hardened : Z := 0x80000000.
Definition DefaultRootDerivationPath : list Z := [hardened + 44; hardened + 60; hardened + 0; 0].
Definition DefaultBaseDerivationPath : list Z := DefaultRootDerivationPath ++ [0].
Definition LegacyLedgerBaseDerivationPath : list Z := DefaultRootDerivationPath.

Inductive path_error : Type :=
| ErrEmptyPath
| ErrAmbiguousPath
| ErrInvalidComponent (c : list Z)
| ErrOutOfRange (v max : Z)
| ErrPathJson (e : json_error).

Definition parse_component (component : list Z) : path_error + Z :=
  let component := TrimSpace component in
  let '(value, component) := if has_suffix component (str "'") then (hardened, TrimSpace (take (length component - 1) component)) else (0, component) in
  match SetString0 component with
  | None => inl (ErrInvalidComponent component)
  | Some bigval =>
      let max := u32 (2 ^ 32 - 1 - value) in
      if (bigval <? 0) || (max <? bigval) then inl (ErrOutOfRange bigval max) else inr (u32 (value + u32 bigval))
  end.
Fixpoint parse_components (result : list Z) (components : list (list Z)) : path_error + list Z :=
  match components with
  | [] => inr result
  | c :: components => match parse_component c with inl e => inl e | inr value => parse_components (result ++ [value]) components end
  end.
Definition ParseDerivationPath (path : list Z) : path_error + list Z :=
  match strings_Split path (str "/") with
  | [] => inl ErrEmptyPath
  | c0 :: rest =>
      if bool_decide (TrimSpace c0 = []) then inl ErrAmbiguousPath
      else if bool_decide (TrimSpace c0 = str "m") then
        if bool_decide (rest = []) then inl ErrEmptyPath else parse_components [] rest
      else parse_components DefaultRootDerivationPath (c0 :: rest)
  end.

Definition component_String (component : Z) : list Z :=
  str "/" ++ (if hardened <=? component then FormatUint (component - hardened) 10 ++ str "'" else FormatUint component 10).
Definition DerivationPath_String (path : list Z) : list Z := str "m" ++ concat (map component_String path).
Definition DerivationPath_MarshalJSON (path : list Z) : list Z := json_Marshal JTStr (JVStr (DerivationPath_String path)).
Definition DerivationPath_UnmarshalJSON (b : list Z) : path_error + list Z :=
  match json_Unmarshal JTStr b with
  | (_, Some e) => inl (ErrPathJson e)
  | (JVStr dp, None) => ParseDerivationPath dp
  | _ => inl ErrEmptyPath
  end.

(** ** Splitting *)

Lemma has_prefix_spec s p : has_prefix s p = true <-> exists r, s = p ++ r.
Proof.
  unfold has_prefix. rewrite bool_decide_eq_true. split; [intros E; exists (drop (length p) s); by rewrite <- E at 1; rewrite take_drop|]. intros [r ->]. by rewrite take_app_length.
Qed.

(** The fields with the separator between them. *)
Fixpoint join (sep : list Z) (fields : list (list Z)) : list Z :=
  match fields with [] => [] | [f] => f | f :: fields => f ++ sep ++ join sep fields end.

Lemma split_fields_nonempty fuel sep cur s : split_fields fuel sep cur s <> [].
Proof. revert cur s. induction fuel as [|fuel IH]; intros cur s; [done|]. cbn [split_fields]. destruct s as [|c r]; [done|]. destruct (has_prefix _ _); [done|apply IH]. Qed.

Lemma join_split fuel sep : forall cur s, sep <> [] -> (length s < fuel)%nat -> join sep (split_fields fuel sep cur s) = cur ++ s.
Proof.
  induction fuel as [|fuel IH]; intros cur s Hsep Hf; [lia|]. cbn [split_fields]. destruct s as [|c r]; [by rewrite app_nil_r|]. destruct (has_prefix (c :: r) sep) eqn:Ep.
  - apply has_prefix_spec in Ep as [t Et]. rewrite Et. rewrite drop_app_length. pose proof (split_fields_nonempty fuel sep [] t) as Hn. cbn [join]. destruct (split_fields fuel sep [] t) as [|f fs] eqn:E; [done|]. rewrite <- E, IH; [done|done|].
    assert (length (c :: r) = length (sep ++ t)) as El by (by rewrite Et). rewrite length_app in El. destruct sep; [done|]. cbn [length] in El, Hf. lia.
  - rewrite IH, <- app_assoc by (done || cbn [length] in Hf; lia). done.
Qed.

(** A field of characters that do not begin the separator is taken whole. *)
Lemma split_field x sep f : forall fuel cur rest, x ∉ f -> (length f <= fuel)%nat ->
  split_fields fuel (x :: sep) cur (f ++ rest) = split_fields (fuel - length f) (x :: sep) (cur ++ f) rest.
Proof.
  induction f as [|c f IH]; intros fuel cur rest Hx Hf; [by rewrite Nat.sub_0_r, app_nil_r|]. apply not_elem_of_cons in Hx as [Hc Hx]. cbn [length] in Hf. destruct fuel as [|fuel]; [lia|]. cbn [app split_fields length].
  assert (Ep : has_prefix (c :: f ++ rest) (x :: sep) = false). { destruct (has_prefix _ _) eqn:E; [|done]. apply has_prefix_spec in E as [r [= ]]. congruence. }
  rewrite Ep, IH, <- app_assoc by (done || lia). done.
Qed.

Lemma split_at_sep fuel x sep cur r : split_fields (S fuel) (x :: sep) cur ((x :: sep) ++ r) = cur :: split_fields fuel (x :: sep) [] r.
Proof.
  assert (Ep : has_prefix ((x :: sep) ++ r) (x :: sep) = true) by (apply has_prefix_spec; by exists r). cbn [app] in *. cbn [split_fields]. rewrite Ep. f_equal. f_equal. by apply (drop_app_length (x :: sep) r).
Qed.
(** More fuel does not matter. *)
Lemma split_fields_fuel sep k : sep <> [] -> forall f cur t, (length t < k)%nat -> (k <= f)%nat -> split_fields f sep cur t = split_fields k sep cur t.
Proof.
  intros Hs. induction k as [|k IH]; intros f cur t Ht Hk; [lia|]. destruct f as [|f]; [lia|]. cbn [split_fields]. destruct t as [|c t]; [done|]. cbn [length] in Ht. destruct sep as [|x sep]; [done|].
  destruct (has_prefix _ _); [f_equal; apply IH; rewrite ?length_drop; cbn [length]; lia|apply IH; lia].
Qed.

(** Fields without the separator are split again. *)
Lemma split_joined x fs : forall f fuel cur, Forall (fun f => x ∉ f) (f :: fs) -> (length (join [x] (f :: fs)) < fuel)%nat -> split_fields fuel [x] cur (join [x] (f :: fs)) = (cur ++ f) :: fs.
Proof.
  induction fs as [|g fs IH]; intros f fuel cur Hx Hf; apply Forall_cons in Hx as [Hfx Hx].
  - cbn [join] in *. rewrite <- (app_nil_r f) at 1. rewrite split_field by (done || lia). destruct (fuel - length f)%nat as [|k] eqn:Ek; [lia|]. done.
  - change (join [x] (f :: g :: fs)) with (f ++ x :: join [x] (g :: fs)) in *. rewrite length_app in Hf. cbn [length] in Hf. rewrite split_field by (done || lia). destruct (fuel - length f)%nat as [|k] eqn:Ek; [lia|]. change (x :: join [x] (g :: fs)) with ([x] ++ join [x] (g :: fs)). rewrite split_at_sep.
    rewrite IH by (done || lia). done.
Qed.

(** ** URLs *)

Lemma URL_Cmp_eq u v : URL_Cmp u v = 0 <-> u = v.
Proof.
  unfold URL_Cmp. destruct u as [a b], v as [a' b']. cbn [u_Scheme u_Path]. case_bool_decide as E; [rewrite Compare_eq; split; [intros ->; by rewrite E|by intros [= _ ->]]|]. rewrite Compare_eq. split; [done|by intros [= -> _]].
Qed.
Lemma URL_Cmp_opp u v : URL_Cmp v u = - URL_Cmp u v.
Proof. unfold URL_Cmp. case_bool_decide as E; case_bool_decide as E'; try congruence; apply Compare_opp. Qed.
Lemma URL_Cmp_trans u v w : URL_Cmp u v < 0 -> URL_Cmp v w < 0 -> URL_Cmp u w < 0.
Proof.
  unfold URL_Cmp. case_bool_decide as E; case_bool_decide as E'; case_bool_decide as E''; try congruence; rewrite ?E, ?E' in *; try apply Compare_trans; try done.
  intros H1 H2. pose proof (Compare_opp (u_Scheme u) (u_Scheme v)) as H3. rewrite E'' in *. lia.
Qed.

(** The strict order of URLs. *)
Definition url_lt (u v : URL) : Prop := URL_Cmp u v < 0.
#[export] Instance url_lt_trans : Transitive url_lt.
Proof. intros u v w. apply URL_Cmp_trans. Qed.
Lemma url_lt_irrefl u : ~ url_lt u u.
Proof. unfold url_lt. rewrite (proj2 (URL_Cmp_eq u u)) by done. lia. Qed.
Lemma url_cases u v : url_lt u v \/ u = v \/ url_lt v u.
Proof. unfold url_lt. rewrite (URL_Cmp_opp u v). rewrite <- URL_Cmp_eq. lia. Qed.
Lemma url_ge u v : (0 <=? URL_Cmp u v) = true <-> u = v \/ url_lt v u.
Proof. unfold url_lt. rewrite (URL_Cmp_opp u v), <- URL_Cmp_eq, Z.leb_le. lia. Qed.
Lemma url_lt_leb u v : (0 <=? URL_Cmp u v) = false <-> url_lt u v.
Proof. unfold url_lt. rewrite Z.leb_gt. lia. Qed.

(** URLs are read and written without loss.  Whatever parseURL accepts is the
    text of the URL it returns, whose scheme is not empty; the text of a URL with
    a scheme without colons and a path without the separator is read back, and so
    is its JSON.  Cmp is a total order: it is 0 exactly for equal URLs, antisymmetric
    and transitive. *)
Theorem url_roundtrip u :
  (forall s, parseURL s = Some u -> URL_String u = s /\ u_Scheme u <> []) /\
  (u_Scheme u <> [] -> 58 ∉ u_Scheme u -> strings_Split (u_Path u) (str "://") = [u_Path u] ->
     parseURL (URL_String u) = Some u /\
     (bytes_ok (URL_String u) -> ValidString (URL_String u) = true -> URL_UnmarshalJSON (URL_MarshalJSON u) = inr u)) /\
  (forall v, URL_Cmp u v = 0 <-> u = v) /\ (forall v, URL_Cmp v u = - URL_Cmp u v) /\
  (forall v w, URL_Cmp u v < 0 -> URL_Cmp v w < 0 -> URL_Cmp u w < 0).
Proof.
  split_and!.
  - intros s. unfold parseURL. pose proof (join_split (S (length s)) (str "://") [] s ltac:(done) ltac:(lia)) as J. unfold strings_Split. destruct (split_fields _ _ _ _) as [|a [|b [|]]]; try done. case_bool_decide as Ea; [done|].
    intros [= <-]. unfold URL_String. cbn [u_Scheme u_Path]. rewrite bool_decide_false by done. split; [exact J|done].
  - intros Hs Hc Hp. assert (E : parseURL (URL_String u) = Some u).
    { unfold parseURL, URL_String. rewrite bool_decide_false by done. unfold strings_Split in *. change (str "://") with [58; 47; 47] in *. rewrite length_app, split_field by (done || lia). set (fuel := (_ - _)%nat).
      assert (Hf : exists k, fuel = S k /\ (length (u_Path u) < k)%nat) by (exists (2 + S (length (u_Path u)))%nat; unfold fuel; rewrite length_app; cbn [length]; lia). destruct Hf as (k & -> & Hk).
      rewrite split_at_sep, (split_fields_fuel _ (S (length (u_Path u)))) by (done || lia). cbn [app]. rewrite Hp, bool_decide_false by done. by destruct u. }
    split; [done|]. intros Hb Hv. unfold URL_UnmarshalJSON, URL_MarshalJSON. destruct (json_marshal_roundtrip JTStr (JVStr (URL_String u)) I) as [-> _]; [done|done|]. by rewrite E.
  - apply URL_Cmp_eq.
  - apply URL_Cmp_opp.
  - apply URL_Cmp_trans.
Qed.

(** ** Derivation paths *)

(** Printable characters are no part of white space. *)
Definition visible (c : Z) : Prop := 33 <= c < 127.
Lemma trim_left_visible fuel c s : visible c -> trim_left fuel (c :: s) = c :: s.
Proof.
  intros Hc. destruct fuel as [|fuel]; [done|]. cbn [trim_left]. destruct (List.find (has_prefix (c :: s)) spaces) as [w|] eqn:E; [|done]. apply find_some in E as [Hin Hp]. apply has_prefix_spec in Hp as [r Hr].
  exfalso. unfold visible in Hc. cbn [In spaces] in Hin. repeat (destruct Hin as [<-|Hin]; [injection Hr as -> _; lia|]). done.
Qed.
Lemma trim_right_visible fuel c s : visible c -> trim_right fuel (s ++ [c]) = s ++ [c].
Proof.
  intros Hc. destruct fuel as [|fuel]; [done|]. cbn [trim_right]. destruct (List.find (has_suffix (s ++ [c])) spaces) as [w|] eqn:E; [|done]. apply find_some in E as [Hin Hp]. unfold has_suffix in Hp. apply bool_decide_eq_true in Hp.
  assert (Hw : w <> []) by (intros ->; cbn [In spaces] in Hin; repeat (destruct Hin as [[=]|Hin]); done).
  assert (Hlast : last w = Some c). { rewrite <- Hp, drop_app_le by (rewrite length_app; destruct w; [done|]; cbn [length]; lia). apply last_snoc. }
  exfalso. unfold visible in Hc. cbn [In spaces] in Hin. repeat (destruct Hin as [<-|Hin]; [injection Hlast as <-; lia|]). done.
Qed.
Lemma TrimSpace_visible s : s <> [] -> Forall visible s -> TrimSpace s = s.
Proof.
  intros Hn Hv. unfold TrimSpace. destruct s as [|c r] eqn:Es; [done|]. rewrite trim_left_visible by (by apply Forall_cons in Hv as [? _]).
  destruct (exists_last (l := c :: r)) as (l & x & E); [done|]. rewrite E in Hv |- *. apply trim_right_visible. apply Forall_app in Hv as [_ Hv]. by apply Forall_cons in Hv as [? _].
Qed.

Lemma scan_digits_all ds : digits_ok 10 ds -> forall prev count acc,
  scan_digits 10 prev false count acc (map digit_char ds) = (match ds with [] => prev | _ => 48 end, false, count + len ds, foldl (fun a d => a * 10 + d) acc ds, []).
Proof.
  induction 1 as [|d ds Hd _ IH]; intros prev count acc; [cbn; by rewrite Z.add_0_r|]. cbn [map scan_digits foldl]. assert (E : digit_char d = 48 + d) by (unfold digit_char; destruct (Z.ltb_spec d 10); lia). rewrite E.
  destruct (Z.eqb_spec (48 + d) 95); [lia|]. assert (Ev : digit_value (48 + d) = d). { unfold digit_value. destruct (Z.leb_spec 48 (48 + d)), (Z.leb_spec (48 + d) 57); try lia. cbn [andb]. lia. }
  rewrite Ev. destruct (Z.leb_spec 10 d); [lia|]. rewrite IH, len_cons. replace (count + 1 + len ds) with (count + (1 + len ds)) by lia. by destruct ds.
Qed.

Lemma SetString0_decimal n : 0 <= n -> SetString0 (FormatUint n 10) = Some n.
Proof.
  intros Hn. destruct (FormatUint_spec 10 ltac:(lia) n Hn) as (ds & -> & Hd & Hc & Hv). pose proof (scan_digits_all ds Hd) as Hs. destruct ds as [|d ds]; [done|]. assert (Hd0 : 0 <= d < 10) by (by apply Forall_cons in Hd as [? _]).
  assert (E : digit_char d = 48 + d) by (unfold digit_char; destruct (Z.ltb_spec d 10); lia). unfold SetString0. cbn [map] in *. rewrite E in *. destruct (Z.eqb_spec (48 + d) 45); [lia|]. destruct (Z.eqb_spec (48 + d) 43); [lia|].
  unfold num_val in Hv. destruct (Z.eq_dec d 0) as [->|Nd].
  - destruct ds as [|d' ds]; [|done]. cbn in Hv. subst n. done.
  - destruct (Z.eqb_spec (48 + d) 48); [lia|].
    rewrite Hs. cbn [orb]. destruct (Z.eqb_spec 48 95); [done|]. rewrite len_cons. pose proof (len_nonneg ds). destruct (Z.eqb_spec (0 + (1 + len ds)) 0); [lia|]. cbn [andb orb]. by rewrite Hv.
Qed.

Definition component_text (c : Z) : list Z := if hardened <=? c then FormatUint (c - hardened) 10 ++ str "'" else FormatUint c 10.
Lemma decimal_text n : 0 <= n -> FormatUint n 10 <> [] /\ Forall (fun c => 48 <= c < 58) (FormatUint n 10).
Proof.
  intros Hn. destruct (FormatUint_spec 10 ltac:(lia) n Hn) as (ds & -> & Hd & Hc & _). split; [by destruct ds|]. apply Forall_map. eapply Forall_impl; [exact Hd|]. intros d Hd'. unfold compose, digit_char. cbn in Hd'. destruct (Z.ltb_spec d 10); lia.
Qed.

Lemma suffix_snoc s c x : has_suffix (s ++ [c]) [x] = bool_decide (c = x).
Proof.
  unfold has_suffix. rewrite length_app. cbn [length]. replace (length s + 1 - 1)%nat with (length s) by lia. rewrite drop_app_length. apply bool_decide_ext. split; [by intros [= ]|by intros ->].
Qed.

Lemma parse_component_text c : 0 <= c < 2 ^ 32 -> parse_component (component_text c) = inr c.
Proof.
  intros Hc. unfold component_text, parse_component. destruct (Z.leb_spec hardened c) as [Hh|Hh]; change (str "'") with [39].
  - destruct (decimal_text (c - hardened) ltac:(lia)) as [Hn Hd]. assert (Hv : Forall visible (FormatUint (c - hardened) 10)) by (eapply Forall_impl; [exact Hd|]; unfold visible; cbn; lia).
    rewrite TrimSpace_visible; [|by destruct (FormatUint (c - hardened) 10)|apply Forall_app; split; [done|]; by repeat constructor]. rewrite suffix_snoc, bool_decide_true by done. rewrite length_app. cbn [length]. replace (_ + 1 - 1)%nat with (length (FormatUint (c - hardened) 10)) by lia. rewrite take_app_length, TrimSpace_visible, SetString0_decimal by (done || lia).
    change (u32 (2 ^ 32 - 1 - hardened)) with (2 ^ 31 - 1). unfold hardened in *. destruct (Z.ltb_spec (c - 2147483648) 0), (Z.ltb_spec (2 ^ 31 - 1) (c - 2147483648)); try lia. cbn [orb]. f_equal. unfold u32. rewrite (Z.mod_small (c - 2147483648)), Z.mod_small by lia. lia.
  - destruct (decimal_text c ltac:(lia)) as [Hn Hd]. assert (Hv : Forall visible (FormatUint c 10)) by (eapply Forall_impl; [exact Hd|]; unfold visible; cbn; lia). rewrite TrimSpace_visible by done.
    destruct (exists_last Hn) as (l & x & E). assert (Ex : x <> 39) by (rewrite E in Hd; apply Forall_app in Hd as [_ Hd]; apply Forall_cons in Hd as [? _]; lia). rewrite E at 1. rewrite suffix_snoc, bool_decide_false by done. rewrite SetString0_decimal by lia.
    change (u32 (2 ^ 32 - 1 - 0)) with (2 ^ 32 - 1). destruct (Z.ltb_spec c 0), (Z.ltb_spec (2 ^ 32 - 1) c); try lia. cbn [orb]. f_equal. unfold u32. by rewrite Z.add_0_l, (Z.mod_small c), Z.mod_small by lia.
Qed.

Lemma parse_components_text cs : forall result, Forall (fun c => 0 <= c < 2 ^ 32) cs -> parse_components result (map component_text cs) = inr (result ++ cs).
Proof.
  induction cs as [|c cs IH]; intros result Hcs; [by rewrite app_nil_r|]. apply Forall_cons in Hcs as [Hc Hcs]. cbn [map parse_components]. rewrite parse_component_text, IH by done. by rewrite <- app_assoc.
Qed.

Lemma path_text path : DerivationPath_String path = join [47] (str "m" :: map component_text path).
Proof.
  unfold DerivationPath_String. generalize (str "m"). induction path as [|c path IH]; intros f; [by rewrite app_nil_r|]. cbn [map concat]. change (join [47] (f :: component_text c :: map component_text path)) with (f ++ [47] ++ join [47] (component_text c :: map component_text path)).
  rewrite <- IH. unfold component_String, component_text. change (str "/") with [47]. by rewrite <- !app_assoc.
Qed.

(** Values that fit, whatever text they come from. *)
Lemma parse_component_range t v : parse_component t = inr v -> 0 <= v < 2 ^ 32.
Proof. unfold parse_component. destruct (if has_suffix _ _ then _ else _) as [value c]. destruct (SetString0 c); [|done]. destruct (_ || _); [done|]. intros [= <-]. unfold u32. apply Z.mod_pos_bound. lia. Qed.
Lemma parse_components_range cs : forall result v, Forall (fun c => 0 <= c < 2 ^ 32) result -> parse_components result cs = inr v -> Forall (fun c => 0 <= c < 2 ^ 32) v.
Proof.
  induction cs as [|c cs IH]; intros result v Hr; cbn [parse_components]; [by intros [= <-]|]. destruct (parse_component c) as [|x] eqn:E; [done|]. apply IH. apply Forall_app. split; [done|]. apply Forall_cons_2; [by eapply parse_component_range|constructor].
Qed.

(** C22: Derivation paths are read back.  A path of 32-bit components that is not
    empty is what ParseDerivationPath returns for its text, and its JSON is read
    back; the text of the empty path is rejected.  Whatever text is accepted, the
    components fit in 32 bits. *)
Theorem derivation_path_roundtrip path : Forall (fun c => 0 <= c < 2 ^ 32) path ->
  ParseDerivationPath (DerivationPath_String path) = (if bool_decide (path = []) then inl ErrEmptyPath else inr path) /\
  (path <> [] -> DerivationPath_UnmarshalJSON (DerivationPath_MarshalJSON path) = inr path) /\
  forall t v, ParseDerivationPath t = inr v -> Forall (fun c => 0 <= c < 2 ^ 32) v.
Proof.
  intros Hp.
  assert (Hno : Forall (fun f => 47 ∉ f) (str "m" :: map component_text path)).
  { apply Forall_cons_2; [by apply (bool_decide_unpack _); vm_compute|]. apply Forall_map. eapply Forall_impl; [exact Hp|]. intros c Hc. cbn beta in *. unfold component_text. intros Hin.
    assert (Hx : forall n, 0 <= n -> 47 ∉ FormatUint n 10). { intros n Hn Hi. destruct (decimal_text n Hn) as [_ Hd]. rewrite Forall_forall in Hd. specialize (Hd _ Hi). cbn in Hd. lia. }
    destruct (Z.leb_spec hardened c); [|by apply (Hx c ltac:(lia))]. apply elem_of_app in Hin as [Hin|Hin]; [by apply (Hx (c - hardened) ltac:(lia))|]. change (str "'") with [39] in Hin. apply list_elem_of_singleton in Hin. done. }
  assert (E : ParseDerivationPath (DerivationPath_String path) = if bool_decide (path = []) then inl ErrEmptyPath else inr path).
  { unfold ParseDerivationPath, strings_Split. rewrite path_text. change (str "/") with [47]. rewrite split_joined by (done || lia). cbn [app]. rewrite bool_decide_false by (vm_compute; discriminate). rewrite bool_decide_true by (vm_compute; reflexivity).
    destruct path as [|c path]; [done|]. cbn [map]. rewrite bool_decide_false by done. rewrite (bool_decide_false (c :: path = [])) by done. apply (parse_components_text (c :: path) []). done. }
  split; [done|]. split.
  - intros Hne. unfold DerivationPath_UnmarshalJSON, DerivationPath_MarshalJSON.
    assert (Hpl : Forall plain (DerivationPath_String path)).
    { unfold DerivationPath_String. apply Forall_app. split; [apply (bool_decide_unpack _); vm_compute; exact I|]. apply Forall_concat, Forall_map. eapply Forall_impl; [exact Hp|]. intros c Hc. cbn beta in *. unfold component_String.
      assert (Hx : forall n, 0 <= n -> Forall plain (FormatUint n 10)). { intros n Hn. eapply Forall_impl; [apply decimal_text, Hn|]. unfold plain. cbn. lia. }
      apply Forall_app. split; [apply (bool_decide_unpack _); vm_compute; exact I|]. destruct (Z.leb_spec hardened c); [|apply Hx; lia]. apply Forall_app. split; [apply Hx; lia|apply (bool_decide_unpack _); vm_compute; exact I]. }
    destruct (json_marshal_roundtrip JTStr (JVStr (DerivationPath_String path)) I) as [-> _]; [split; [by apply bytes_plain|by apply valid_plain]|done|]. by rewrite E, bool_decide_false by done.
  - intros t v. unfold ParseDerivationPath. destruct (strings_Split t _) as [|c0 rest]; [done|]. destruct (bool_decide (TrimSpace c0 = [])); [done|]. destruct (bool_decide (TrimSpace c0 = _)); [destruct (bool_decide (rest = [])); [done|]; apply parse_components_range; constructor|]. apply parse_components_range.
    repeat (apply Forall_cons_2; [done|]). constructor.
Qed.

Lemma derivation_path_roundtrip_witness : ParseDerivationPath (DerivationPath_String DefaultBaseDerivationPath) = inr DefaultBaseDerivationPath.
Proof. destruct (derivation_path_roundtrip DefaultBaseDerivationPath) as [H _]; [by repeat (apply Forall_cons_2; [done|])|]. rewrite bool_decide_false in H by done. exact H. Defined.
