(* ===== verification/Feed.v ===== *)
(** * Feeds

    src/event/feed.go as a state machine: the calls of Subscribe, Unsubscribe and
    Send interleave at the points where they take the locks of the feed, try a
    channel or wait in a select.  The cases that Send still has to serve are a
    prefix of the slice of all cases, which it permutes and which removals shift.
    Receivers keep their channels open, and a run ends at a panic. *)

From stdpp Require Import list.
From S2P Require Import Prelude.

(** Channels and the types of their elements are numbers.  The first case of a feed
    receives from removeSub. *)
Inductive select_case : Type := RemoveSub | SendTo (ch : nat).
#[export] Instance select_case_eq_dec : EqDecision select_case.
Proof. solve_decision. Defined.
Definition firstSubSendCase : nat := 1.

(** ** caseList *)

Definition case_find (cs : list select_case) (ch : nat) : option nat := fst <$> list_find (fun c => c = SendTo ch) cs.
Definition case_delete (cs : list select_case) (index : nat) : list select_case := take index cs ++ drop (S index) cs.
(** The case moves to the end of the first [n] ones. *)
Definition deactivate (cs : list select_case) (n index : nat) : list select_case :=
  match cs !! index, cs !! (n - 1)%nat with
  | Some a, Some b => <[(n - 1)%nat := a]> (<[index := b]> cs)
  | _, _ => cs
  end.

(** ** Feed *)

(** A subscription is live, or its Unsubscribe has not found it in the inbox and
    waits for a Send or the lock, or is done. *)
Inductive sub_phase : Type := SubLive | SubRemoving | SubDone.
Record feedSub : Type := MkSub { sub_channel : nat; sub_phase_of : sub_phase }.

(** A Send in progress: the value, how many cases are active, the index of the fast
    path, [None] in the select, and the count of receivers. *)
Record sending : Type := MkSending { sd_value : Z; sd_active : nat; sd_scan : option nat; sd_nsent : nat }.
Record Feed : Type := MkFeed {
  f_etype : option nat;
  f_inbox : list nat;
  f_sendCases : list select_case;
  f_send : option sending;
  f_subs : list feedSub;
  (** Deliveries, the last one first. *)
  f_log : list (nat * Z)
}.
Definition feed_init : Feed := MkFeed None [] [RemoveSub] None [] [].

Definition typecheck (f : Feed) (typ : nat) : Feed * bool :=
  match f_etype f with
  | None => (MkFeed (Some typ) (f_inbox f) (f_sendCases f) (f_send f) (f_subs f) (f_log f), true)
  | Some t => (f, bool_decide (t = typ))
  end.

(** [Panic] for what is not a channel to send on, or has another type.  The deferred
    unlock releases the lock then too. *)
Definition feed_Subscribe (f : Feed) (ch : nat) (chantyp : option nat) : outcome unit Feed :=
  match chantyp with
  | None => Panic
  | Some typ =>
  let '(f, ok) := typecheck f typ in
  if negb ok then Panic else Ok (MkFeed (f_etype f) (f_inbox f ++ [ch]) (f_sendCases f) (f_send f) (f_subs f ++ [MkSub ch SubLive]) (f_log f))
  end.

Definition inbox_find (inbox : list nat) (ch : nat) : option nat := fst <$> list_find (fun c => c = ch) inbox.
(** The start of Unsubscribe: a channel of the inbox is deleted there. *)
Definition remove_begin (f : Feed) (id : nat) : Feed :=
  match f_subs f !! id with
  | Some (MkSub ch SubLive) =>
      match inbox_find (f_inbox f) ch with
      | Some index => MkFeed (f_etype f) (take index (f_inbox f) ++ drop (S index) (f_inbox f)) (f_sendCases f) (f_send f) (<[id := MkSub ch SubDone]> (f_subs f)) (f_log f)
      | None => MkFeed (f_etype f) (f_inbox f) (f_sendCases f) (f_send f) (<[id := MkSub ch SubRemoving]> (f_subs f)) (f_log f)
      end
  | _ => f
  end.
(** Deleting a channel that is not there panics. *)
Definition remove_with_lock (f : Feed) (id ch : nat) : outcome unit Feed :=
  match case_find (f_sendCases f) ch with
  | None => Panic
  | Some index => Ok (MkFeed (f_etype f) (f_inbox f) (case_delete (f_sendCases f) index) (f_send f) (<[id := MkSub ch SubDone]> (f_subs f)) (f_log f))
  end.

(** The start of Send, with the lock; [Panic] for a value of another type. *)
Definition send_begin (f : Feed) (value : Z) (typ : nat) : outcome unit Feed :=
  let f := MkFeed (f_etype f) [] (f_sendCases f ++ map SendTo (f_inbox f)) (f_send f) (f_subs f) (f_log f) in
  let '(f, ok) := typecheck f typ in
  if negb ok then Panic
  else Ok (MkFeed (f_etype f) (f_inbox f) (f_sendCases f) (Some (MkSending value (length (f_sendCases f)) (Some firstSubSendCase) 0)) (f_subs f) (f_log f)).

Definition with_send (f : Feed) (cs : list select_case) (s : option sending) (log : list (nat * Z)) : Feed := MkFeed (f_etype f) (f_inbox f) cs s (f_subs f) log.
(** A case takes the value: it is deactivated and counted. *)
Definition deliver (f : Feed) (s : sending) (index ch : nat) (scan : option nat) : Feed :=
  with_send f (deactivate (f_sendCases f) (sd_active s) index) (Some (MkSending (sd_value s) (sd_active s - 1) scan (S (sd_nsent s)))) ((ch, sd_value s) :: f_log f).
(** TrySend on the next case of the fast path. *)
Definition send_try (f : Feed) (s : sending) (index ch : nat) (accepts : bool) : Feed :=
  if accepts then deliver f s index ch (Some index) else with_send f (f_sendCases f) (Some (MkSending (sd_value s) (sd_active s) (Some (S index)) (sd_nsent s))) (f_log f).
(** The end of the fast path. *)
Definition send_scanned (f : Feed) (s : sending) : Feed :=
  if (sd_active s =? firstSubSendCase)%nat then with_send f (f_sendCases f) None (f_log f) else with_send f (f_sendCases f) (Some (MkSending (sd_value s) (sd_active s) None (sd_nsent s))) (f_log f).
(** The select takes a removal. *)
Definition send_removes (f : Feed) (s : sending) (id ch : nat) : outcome unit Feed :=
  match case_find (f_sendCases f) ch with
  | None => Panic
  | Some index =>
      let active := if (index <? sd_active s)%nat then (sd_active s - 1)%nat else sd_active s in
      Ok (MkFeed (f_etype f) (f_inbox f) (case_delete (f_sendCases f) index) (Some (MkSending (sd_value s) active (Some firstSubSendCase) (sd_nsent s))) (<[id := MkSub ch SubDone]> (f_subs f)) (f_log f))
  end.

Inductive feed_event : Type :=
| FSubscribe (ch : nat) (chantyp : option nat)
| FUnsubscribe (id : nat)
| FRemoveLocked (id : nat)
| FSend (value : Z) (typ : nat)
| FTry (accepts : bool)
| FScanned
| FSelect (index : nat)
| FSelectRemove (id : nat).

(** The steps that are enabled, with their results. *)
Inductive feed_step : Feed -> feed_event -> outcome unit Feed -> Prop :=
| fs_subscribe f ch typ : feed_step f (FSubscribe ch typ) (feed_Subscribe f ch typ)
| fs_unsubscribe f id : feed_step f (FUnsubscribe id) (Ok (remove_begin f id))
| fs_remove_locked f id ch : f_send f = None -> f_subs f !! id = Some (MkSub ch SubRemoving) -> feed_step f (FRemoveLocked id) (remove_with_lock f id ch)
| fs_send f value typ : f_send f = None -> feed_step f (FSend value typ) (send_begin f value typ)
| fs_try f s index ch accepts : f_send f = Some s -> sd_scan s = Some index -> (index < sd_active s)%nat -> f_sendCases f !! index = Some (SendTo ch) -> feed_step f (FTry accepts) (Ok (send_try f s index ch accepts))
| fs_scanned f s index : f_send f = Some s -> sd_scan s = Some index -> (sd_active s <= index)%nat -> feed_step f FScanned (Ok (send_scanned f s))
| fs_select f s index ch : f_send f = Some s -> sd_scan s = None -> (index < sd_active s)%nat -> f_sendCases f !! index = Some (SendTo ch) -> feed_step f (FSelect index) (Ok (deliver f s index ch (Some firstSubSendCase)))
| fs_select_remove f s id ch : f_send f = Some s -> sd_scan s = None -> f_subs f !! id = Some (MkSub ch SubRemoving) -> feed_step f (FSelectRemove id) (send_removes f s id ch).

Inductive feed_run : Feed -> list feed_event -> Feed -> Prop :=
| fr_nil f : feed_run f [] f
| fr_cons f e f1 es f2 : feed_step f e (Ok f1) -> feed_run f1 es f2 -> feed_run f (e :: es) f2.

(** ** Counting *)

#[export] Instance sub_phase_eq_dec : EqDecision sub_phase.
Proof. solve_decision. Defined.
#[export] Instance feedSub_eq_dec : EqDecision feedSub.
Proof. solve_decision. Defined.

Definition cnt {A} `{EqDecision A} (x : A) (l : list A) : nat := length (filter (fun y => y = x) l).
Lemma cnt_perm {A} `{EqDecision A} (x : A) l l' : l ≡ₚ l' -> cnt x l = cnt x l'.
Proof. intros E. unfold cnt. by rewrite E. Qed.
Lemma cnt_cons {A} `{EqDecision A} (x y : A) l : cnt x (y :: l) = ((if bool_decide (y = x) then 1 else 0) + cnt x l)%nat.
Proof. unfold cnt. rewrite filter_cons. case_decide; case_bool_decide; done. Qed.
Lemma cnt_app {A} `{EqDecision A} (x : A) l l' : cnt x (l ++ l') = (cnt x l + cnt x l')%nat.
Proof. unfold cnt. by rewrite filter_app, length_app. Qed.
Lemma cnt_pos {A} `{EqDecision A} (x : A) l : (0 < cnt x l)%nat <-> x ∈ l.
Proof.
  unfold cnt. split.
  - intros Hl. destruct (filter _ l) as [|y r] eqn:E; [cbn in Hl; lia|]. assert (Hy : y ∈ filter (fun y => y = x) l) by (rewrite E; left). apply list_elem_of_filter in Hy as [-> Hy]. done.
  - intros Hx. assert (Hy : x ∈ filter (fun y => y = x) l) by (by apply list_elem_of_filter). destruct (filter _ l); [by apply elem_of_nil in Hy|cbn; lia].
Qed.
Lemma cnt_map_SendTo ch l : cnt (SendTo ch) (map SendTo l) = cnt ch l.
Proof. induction l as [|x l IH]; [done|]. cbn [map]. rewrite !cnt_cons, IH. f_equal. case_bool_decide as E1; case_bool_decide as E2; try done; congruence. Qed.
Lemma cnt_map_remove l : cnt RemoveSub (map SendTo l) = 0%nat.
Proof. induction l as [|x l IH]; [done|]. cbn [map]. rewrite cnt_cons, IH. by rewrite bool_decide_false. Qed.
Lemma insert_swap_perm {A} (l : list A) i x y : l !! i = Some x -> <[i := y]> l ≡ₚ y :: delete i l.
Proof. intros Hi. rewrite (delete_Permutation (<[i := y]> l) i y) by (apply list_lookup_insert_eq; by eapply lookup_lt_Some). constructor. rewrite !delete_take_drop, take_insert_ge, drop_insert_lt by lia. done. Qed.
Lemma list_find_first {A} (P : A -> Prop) `{forall x, Decision (P x)} l i : fst <$> list_find P l = Some i -> exists x, l !! i = Some x /\ P x.
Proof. intros E. destruct (list_find P l) as [[j x]|] eqn:El; [|done]. injection E as <-. apply list_find_Some in El as (H1 & H2 & _). by exists x. Qed.
Lemma list_find_absent {A} (P : A -> Prop) `{forall x, Decision (P x)} l : fst <$> list_find P l = None -> Forall (fun x => ~ P x) l.
Proof. intros E. destruct (list_find P l) eqn:El; [done|]. by apply list_find_None in El. Qed.

Definition nsubs (f : Feed) (ch : nat) (p : sub_phase) : nat := cnt (MkSub ch p) (f_subs f).

(** ** The invariant *)

(** The select waits for a receiver. *)
Definition scan_ok (s : sending) : Prop := match sd_scan s with Some i => (1 <= i)%nat | None => (1 < sd_active s)%nat end.

Record feed_ok (f : Feed) : Prop := {
  fk_head : f_sendCases f !! 0%nat = Some RemoveSub;
  fk_one : cnt RemoveSub (f_sendCases f) = 1%nat;
  fk_count : forall ch, (cnt ch (f_inbox f) + cnt (SendTo ch) (f_sendCases f) = nsubs f ch SubLive + nsubs f ch SubRemoving)%nat;
  fk_removing : forall ch, (nsubs f ch SubRemoving <= cnt (SendTo ch) (f_sendCases f))%nat;
  fk_send : match f_send f with Some s => (1 <= sd_active s <= length (f_sendCases f))%nat /\ scan_ok s | None => True end
}.
Lemma feed_init_ok : feed_ok feed_init.
Proof. by split. Qed.

Lemma deactivate_spec cs n i a : cs !! i = Some a -> (i < n <= length cs)%nat ->
  deactivate cs n i ≡ₚ cs /\ length (deactivate cs n i) = length cs /\ take (n - 1) (deactivate cs n i) ++ [a] ≡ₚ take n cs /\ drop (n - 1) (deactivate cs n i) = a :: drop n cs /\ (forall j, (j < i)%nat -> deactivate cs n i !! j = cs !! j).
Proof.
  intros Hi Hn. unfold deactivate. rewrite Hi. destruct (lookup_lt_is_Some_2 cs (n - 1)) as [b Hb]; [lia|]. rewrite Hb.
  assert (Hsplit : cs = take (n - 1) cs ++ b :: drop n cs) by (rewrite <- (take_drop_middle cs (n - 1) b Hb) at 1; by replace (S (n - 1)) with n by lia).
  assert (Hlp : length (take (n - 1) cs) = (n - 1)%nat) by (rewrite length_take; lia). assert (Htake : take n cs = take (n - 1) cs ++ [b]) by (replace n with (S (n - 1)) at 1 by lia; by apply take_S_r).
  set (p := take (n - 1) cs) in *. set (q := drop n cs) in *.
  assert (Hcs : exists p', <[(n - 1)%nat := a]> (<[i := b]> cs) = p' ++ a :: q /\ length p' = (n - 1)%nat /\ p' ++ [a] ≡ₚ p ++ [b] /\ forall j, (j < i)%nat -> p' !! j = p !! j).
  { destruct (decide (i = (n - 1)%nat)) as [->|Hne].
    - assert (a = b) as <- by congruence. exists p. rewrite list_insert_insert_eq, list_insert_id by done. done.
    - assert (Hpi : p !! i = Some a) by (unfold p; rewrite lookup_take_lt by lia; done). assert (E1 : <[i := b]> cs = <[i := b]> p ++ b :: q) by (rewrite Hsplit at 1; apply insert_app_l; lia). assert (E2 : length (<[i := b]> p) = (n - 1)%nat) by (etransitivity; [apply length_insert|done]).
      exists (<[i := b]> p). rewrite E1. split_and!; [rewrite insert_app_r_alt by lia; by rewrite E2, Nat.sub_diag|exact E2| |intros j Hj; by rewrite list_lookup_insert_ne by lia].
      pose proof (delete_Permutation p i a Hpi) as Hdel. rewrite (insert_swap_perm p i a b Hpi). set (r := delete i p) in *. rewrite Hdel, !(Permutation_app_comm _ [_]). cbn. constructor. }
  destruct Hcs as (p' & -> & Hl' & Hperm & Hlow). split_and!.
  - rewrite Hsplit. change (a :: q) with ([a] ++ q). change (b :: q) with ([b] ++ q). by rewrite !app_assoc, Hperm.
  - rewrite Hsplit, !length_app. cbn. lia.
  - rewrite Htake, <- Hl', take_app_length. exact Hperm.
  - by rewrite <- Hl', drop_app_length.
  - intros j Hj. rewrite lookup_app_l by lia. rewrite Hlow by done. unfold p. by rewrite lookup_take_lt by lia.
Qed.

Lemma cnt_insert {A} `{EqDecision A} (l : list A) i x y k : l !! i = Some x -> (cnt k (<[i := y]> l) + (if bool_decide (x = k) then 1 else 0) = cnt k l + (if bool_decide (y = k) then 1 else 0))%nat.
Proof. intros Hi. rewrite (cnt_perm k _ _ (insert_swap_perm l i x y Hi)), (cnt_perm k _ _ (delete_Permutation l i x Hi)), !cnt_cons. lia. Qed.
Lemma case_delete_perm cs i c : cs !! i = Some c -> cs ≡ₚ c :: case_delete cs i.
Proof. intros Hi. unfold case_delete. rewrite <- delete_take_drop. by apply delete_Permutation. Qed.
Lemma case_find_spec cs ch : match case_find cs ch with Some i => cs !! i = Some (SendTo ch) | None => cnt (SendTo ch) cs = 0%nat end.
Proof.
  unfold case_find. destruct (fst <$> list_find _ cs) as [i|] eqn:E; [apply list_find_first in E as (x & H1 & ->); done|]. apply list_find_absent in E. destruct (cnt (SendTo ch) cs) eqn:Ec; [done|]. assert (Hin : SendTo ch ∈ cs) by (apply cnt_pos; lia). rewrite Forall_forall in E. by destruct (E _ Hin).
Qed.
Lemma inbox_find_spec l ch : match inbox_find l ch with Some i => l !! i = Some ch | None => cnt ch l = 0%nat end.
Proof.
  unfold inbox_find. destruct (fst <$> list_find _ l) as [i|] eqn:E; [apply list_find_first in E as (x & H1 & ->); done|]. apply list_find_absent in E. destruct (cnt ch l) eqn:Ec; [done|]. assert (Hin : ch ∈ l) by (apply cnt_pos; lia). rewrite Forall_forall in E. by destruct (E _ Hin).
Qed.
Lemma delete_perm {A} (l : list A) i x : l !! i = Some x -> l ≡ₚ x :: take i l ++ drop (S i) l.
Proof. intros Hi. rewrite <- delete_take_drop. by apply delete_Permutation. Qed.

(** The only case that is not a subscription is the first one. *)
Lemma case_send f i c : feed_ok f -> f_sendCases f !! i = Some c -> i <> 0%nat -> exists ch, c = SendTo ch.
Proof.
  intros Hf Hi Hn. destruct c as [|ch]; [|by exists ch]. pose proof (fk_head f Hf) as H0. pose proof (fk_one f Hf) as H1. destruct (f_sendCases f) as [|c cs]; [done|]. cbn in H0. injection H0 as ->. destruct i as [|i]; [done|]. rewrite cnt_cons, bool_decide_true in H1 by done. assert (Hin : (0 < cnt RemoveSub cs)%nat) by (apply cnt_pos; by eapply list_elem_of_lookup_2). lia.
Qed.

(** Cases that are only permuted, behind the first one. *)
Lemma cases_ok f cs send log : feed_ok f -> cs ≡ₚ f_sendCases f -> cs !! 0%nat = Some RemoveSub ->
  match send with Some s => (1 <= sd_active s <= length cs)%nat /\ scan_ok s | None => True end -> feed_ok (with_send f cs send log).
Proof.
  intros [H1 H2 H3 H4 H5] Hp Hh Hs. split; cbn [with_send f_sendCases f_inbox f_send]; [done|by rewrite (cnt_perm _ _ _ Hp)| |intros ch; rewrite (cnt_perm _ _ _ Hp); apply H4|done]. intros ch. rewrite (cnt_perm _ _ _ Hp). apply H3.
Qed.
Lemma deliver_ok f s index ch scan : feed_ok f -> f_send f = Some s -> f_sendCases f !! index = Some (SendTo ch) -> (index < sd_active s)%nat -> (1 <= scan)%nat -> feed_ok (deliver f s index ch (Some scan)).
Proof.
  intros Hf Hs Hi Hlt Hscan. pose proof (fk_send f Hf) as H5. rewrite Hs in H5. destruct (deactivate_spec (f_sendCases f) (sd_active s) index (SendTo ch) Hi) as (P1 & P2 & _ & _ & P5); [lia|]. assert (Hn : index <> 0%nat) by (intros ->; rewrite (fk_head f Hf) in Hi; done).
  apply cases_ok; [done|done|rewrite P5 by lia; apply (fk_head f Hf)|]. cbn. rewrite P2. split; [lia|done].
Qed.

(** A subscription that is removed from the cases. *)
Lemma removed_ok f id ch index send : feed_ok f -> f_subs f !! id = Some (MkSub ch SubRemoving) -> f_sendCases f !! index = Some (SendTo ch) ->
  match send with Some s => (1 <= sd_active s <= length (case_delete (f_sendCases f) index))%nat /\ scan_ok s | None => True end ->
  feed_ok (MkFeed (f_etype f) (f_inbox f) (case_delete (f_sendCases f) index) send (<[id := MkSub ch SubDone]> (f_subs f)) (f_log f)).
Proof.
  intros [H1 H2 H3 H4 H5] Hid Hi Hs. pose proof (case_delete_perm _ _ _ Hi) as Hp.
  assert (Hsub : forall k, (cnt k (<[id := MkSub ch SubDone]> (f_subs f)) + (if bool_decide (MkSub ch SubRemoving = k) then 1 else 0) = cnt k (f_subs f) + (if bool_decide (MkSub ch SubDone = k) then 1 else 0))%nat) by (intros k; by apply cnt_insert).
  assert (Hc : forall k, cnt k (f_sendCases f) = ((if bool_decide (SendTo ch = k) then 1 else 0) + cnt k (case_delete (f_sendCases f) index))%nat) by (intros k; by rewrite (cnt_perm k _ _ Hp), cnt_cons).
  assert (Hph : forall ch', (nsubs (MkFeed (f_etype f) (f_inbox f) (case_delete (f_sendCases f) index) send (<[id := MkSub ch SubDone]> (f_subs f)) (f_log f)) ch' SubLive = nsubs f ch' SubLive)%nat /\
    (nsubs (MkFeed (f_etype f) (f_inbox f) (case_delete (f_sendCases f) index) send (<[id := MkSub ch SubDone]> (f_subs f)) (f_log f)) ch' SubRemoving + (if bool_decide (ch = ch') then 1 else 0) = nsubs f ch' SubRemoving)%nat).
  { intros ch'. unfold nsubs. cbn [f_subs]. pose proof (Hsub (MkSub ch' SubLive)) as S1. pose proof (Hsub (MkSub ch' SubRemoving)) as S2. rewrite (bool_decide_false (MkSub ch SubRemoving = MkSub ch' SubLive)), (bool_decide_false (MkSub ch SubDone = MkSub ch' SubLive)) in S1 by done. rewrite (bool_decide_false (MkSub ch SubDone = MkSub ch' SubRemoving)) in S2 by done.
    rewrite (bool_decide_ext (MkSub ch SubRemoving = MkSub ch' SubRemoving) (ch = ch')) in S2 by (split; [by intros [=]|by intros ->]). lia. }
  assert (Hn : index <> 0%nat) by (intros ->; rewrite H1 in Hi; done).
  split; cbn [f_sendCases f_inbox f_send].
  - unfold case_delete. rewrite lookup_app_l by (rewrite length_take; apply lookup_lt_Some in Hi; lia). rewrite lookup_take_lt by lia. done.
  - rewrite Hc, bool_decide_false in H2 by done. done.
  - intros ch'. destruct (Hph ch') as [-> P2]. specialize (H3 ch'). rewrite Hc in H3. rewrite (bool_decide_ext (SendTo ch = SendTo ch') (ch = ch')) in H3 by (split; [by intros [=]|by intros ->]). lia.
  - intros ch'. destruct (Hph ch') as [_ P2]. specialize (H4 ch'). rewrite Hc in H4. rewrite (bool_decide_ext (SendTo ch = SendTo ch') (ch = ch')) in H4 by (split; [by intros [=]|by intros ->]). lia.
  - done.
Qed.

Lemma removing_found f id ch : feed_ok f -> f_subs f !! id = Some (MkSub ch SubRemoving) -> exists index, case_find (f_sendCases f) ch = Some index /\ f_sendCases f !! index = Some (SendTo ch).
Proof.
  intros Hf Hid. pose proof (case_find_spec (f_sendCases f) ch) as Hc. destruct (case_find (f_sendCases f) ch) as [index|]; [by exists index|]. assert (Hn : (0 < nsubs f ch SubRemoving)%nat) by (apply cnt_pos; by eapply list_elem_of_lookup_2). pose proof (fk_removing f Hf ch). lia.
Qed.

Definition same_phase (p q : sub_phase) : bool := match p, q with SubLive, SubLive | SubRemoving, SubRemoving | SubDone, SubDone => true | _, _ => false end.
Lemma phase_eq ch p ch' q : bool_decide (MkSub ch p = MkSub ch' q) = same_phase p q && bool_decide (ch = ch').
Proof. case_bool_decide as E; [injection E as -> ->; rewrite bool_decide_true by done; by destruct q|]. destruct p, q; cbn; try done; symmetry; apply bool_decide_eq_false; congruence. Qed.
Lemma nsubs_update f id ch p q : f_subs f !! id = Some (MkSub ch p) -> forall ch' r,
  (cnt (MkSub ch' r) (<[id := MkSub ch q]> (f_subs f)) + (if same_phase p r && bool_decide (ch = ch') then 1 else 0) = cnt (MkSub ch' r) (f_subs f) + (if same_phase q r && bool_decide (ch = ch') then 1 else 0))%nat.
Proof. intros Hid ch' r. rewrite <- !phase_eq. by apply cnt_insert. Qed.

Lemma remove_begin_ok f id : feed_ok f -> feed_ok (remove_begin f id).
Proof.
  intros Hf. unfold remove_begin. destruct (f_subs f !! id) as [[ch ph]|] eqn:Hid; [|done]. destruct ph; try done. pose proof (inbox_find_spec (f_inbox f) ch) as Hi. pose proof Hf as [H1 H2 H3 H4 H5].
  assert (Hlive : (0 < nsubs f ch SubLive)%nat) by (apply cnt_pos; by eapply list_elem_of_lookup_2).
  destruct (inbox_find (f_inbox f) ch) as [index|]; split; cbn [f_sendCases f_inbox f_send f_subs]; try done; intros ch'; unfold nsubs in *; cbn [f_subs].
  - specialize (H3 ch'). pose proof (cnt_perm ch' _ _ (delete_perm _ _ _ Hi)) as Hp. rewrite cnt_cons in Hp. pose proof (nsubs_update f id ch SubLive SubDone Hid ch' SubLive) as S1. pose proof (nsubs_update f id ch SubLive SubDone Hid ch' SubRemoving) as S2. cbn [same_phase andb] in S1, S2. lia.
  - specialize (H4 ch'). pose proof (nsubs_update f id ch SubLive SubDone Hid ch' SubRemoving) as S2. cbn [same_phase andb] in S2. lia.
  - specialize (H3 ch'). pose proof (nsubs_update f id ch SubLive SubRemoving Hid ch' SubLive) as S1. pose proof (nsubs_update f id ch SubLive SubRemoving Hid ch' SubRemoving) as S2. cbn [same_phase andb] in S1, S2. lia.
  - specialize (H4 ch'). specialize (H3 ch'). pose proof (nsubs_update f id ch SubLive SubRemoving Hid ch' SubRemoving) as S2. cbn [same_phase andb] in S2. case_bool_decide as E; [subst ch'|]; lia.
Qed.

Lemma typecheck_ok f typ f' b : feed_ok f -> typecheck f typ = (f', b) -> feed_ok f' /\ f_inbox f' = f_inbox f /\ f_sendCases f' = f_sendCases f /\ f_send f' = f_send f /\ f_subs f' = f_subs f /\ f_log f' = f_log f.
Proof. intros [H1 H2 H3 H4 H5]. unfold typecheck. destruct (f_etype f); intros [= <- <-]; (split; [by split|done]). Qed.
Lemma subscribe_ok f ch typ f' : feed_ok f -> feed_Subscribe f ch typ = Ok f' -> feed_ok f'.
Proof.
  intros Hf. unfold feed_Subscribe. destruct typ as [typ|]; [|done]. destruct (typecheck f typ) as [f1 b] eqn:E. destruct (typecheck_ok _ _ _ _ Hf E) as ([H1 H2 H3 H4 H5] & _). destruct b; [|done]. cbn [negb]. intros [= <-]. split; cbn [f_sendCases f_inbox f_send f_subs]; try done; intros ch'; unfold nsubs in *; cbn [f_subs]; rewrite !cnt_app, !cnt_cons.
  - specialize (H3 ch'). rewrite !phase_eq. cbn. lia.
  - specialize (H4 ch'). rewrite !phase_eq. cbn. lia.
Qed.
Lemma send_begin_ok f value typ f' : feed_ok f -> send_begin f value typ = Ok f' -> feed_ok f' /\ f_log f' = f_log f /\ exists s, f_send f' = Some s /\ sd_value s = value /\ sd_nsent s = 0%nat /\ sd_active s = length (f_sendCases f') /\ f_sendCases f' = f_sendCases f ++ map SendTo (f_inbox f).
Proof.
  intros Hf. unfold send_begin. set (f0 := MkFeed _ _ _ _ _ _). assert (H0 : feed_ok f0).
  { destruct Hf as [H1 H2 H3 H4 H5]. split; cbn [f0 f_sendCases f_inbox f_send].
    - by apply lookup_app_l_Some.
    - rewrite cnt_app, H2. rewrite cnt_map_remove. lia.
    - intros ch. rewrite cnt_app, cnt_map_SendTo. specialize (H3 ch). change (nsubs f0) with (nsubs f). cbn. lia.
    - intros ch. rewrite cnt_app. specialize (H4 ch). change (nsubs f0) with (nsubs f). lia.
    - destruct (f_send f) as [s|]; [|done]. rewrite length_app. destruct H5. split; [lia|done]. }
  destruct (typecheck f0 typ) as [f1 b] eqn:E. destruct (typecheck_ok _ _ _ _ H0 E) as (H1 & E1 & E2 & E3 & E4 & E5). destruct b; [|done]. cbn [negb]. intros [= <-]. split; [|split; [cbn; by rewrite E5|eexists; split; [done|]; cbn; by rewrite E2]]. destruct H1 as [K1 K2 K3 K4 K5]. split; cbn [f_sendCases f_inbox f_send]; try done.
  split; [apply lookup_lt_Some in K1; cbn; lia|]. cbn. unfold firstSubSendCase. lia.
Qed.
Lemma active_removed f s index (Hf : feed_ok f) : f_send f = Some s -> index <> 0%nat -> (index < length (f_sendCases f))%nat ->
  (1 <= (if (index <? sd_active s)%nat then sd_active s - 1 else sd_active s) <= length (case_delete (f_sendCases f) index))%nat.
Proof.
  intros Hs Hn Hlt. pose proof (fk_send f Hf) as H5. rewrite Hs in H5. unfold case_delete. rewrite length_app, length_take, length_drop. destruct (Nat.ltb_spec index (sd_active s)); lia.
Qed.

Lemma feed_step_ok f e r : feed_ok f -> feed_step f e r -> match r with Ok f' => feed_ok f' | Panic => (exists ch typ, e = FSubscribe ch typ) \/ (exists v typ, e = FSend v typ) | _ => False end.
Proof.
  intros Hf Hs. inversion Hs as [? ch typ|? id|? id ch H1 H2|? v typ H1|? s index ch acc H1 H2 H3 H4|? s index H1 H2 H3|? s index ch H1 H2 H3 H4|? s id ch H1 H2 H3]; subst.
  - destruct (feed_Subscribe f ch typ) eqn:E; [by eapply subscribe_ok| |by left; exists ch, typ|]; unfold feed_Subscribe in E; destruct typ as [typ|]; try done; destruct (typecheck f typ) as [f1 []]; done.
  - by apply remove_begin_ok.
  - destruct (removing_found f id ch Hf H2) as (index & E & Hi). unfold remove_with_lock. rewrite E. apply removed_ok; [done|done|done|]. by rewrite H1.
  - destruct (send_begin f v typ) eqn:E; [by apply send_begin_ok in E as [? _]| |by right; exists v, typ|]; unfold send_begin in E; destruct (typecheck _ typ) as [f1 []]; done.
  - pose proof (fk_send f Hf) as H5. rewrite H1 in H5. destruct H5 as [H5 H6]. unfold scan_ok in H6. rewrite H2 in H6. unfold send_try. destruct acc; [by apply deliver_ok|]. apply cases_ok; [done|done|apply (fk_head f Hf)|]. cbn. split; [done|]. unfold scan_ok. cbn. lia.
  - pose proof (fk_send f Hf) as H5. rewrite H1 in H5. destruct H5 as [H5 _]. unfold send_scanned, firstSubSendCase. destruct (Nat.eqb_spec (sd_active s) 1); apply cases_ok; try done; try apply (fk_head f Hf). cbn. split; [done|]. unfold scan_ok. cbn. lia.
  - by apply deliver_ok.
  - destruct (removing_found f id ch Hf H3) as (index & E & Hi). unfold send_removes. rewrite E. cbv zeta. assert (Hn : index <> 0%nat) by (intros ->; rewrite (fk_head f Hf) in Hi; done). apply removed_ok; [done|done|done|]. cbn. split; [apply active_removed; [done|done|done|by eapply lookup_lt_Some]|]. done.
Qed.
Lemma feed_run_ok f es f' : feed_run f es f' -> feed_ok f -> feed_ok f'.
Proof. induction 1 as [|f e f1 es f2 Hs _ IH]; [done|]. intros Hf. apply IH. exact (feed_step_ok _ _ _ Hf Hs). Qed.

(** ** What a Send delivers *)

(** While a Send is in progress: [sent] are the channels that took the value, [start]
    the cases it started with. *)
Record delivering (value : Z) (start : list select_case) (log : list (nat * Z)) (f : Feed) (s : sending) (sent : list nat) : Prop := {
  dl_value : sd_value s = value;
  dl_log : f_log f = map (fun ch => (ch, value)) sent ++ log;
  dl_nsent : sd_nsent s = length sent;
  dl_once : map SendTo sent ++ take (sd_active s) (f_sendCases f) ⊆+ start;
  dl_served : drop (sd_active s) (f_sendCases f) ⊆+ map SendTo sent
}.

Lemma deliver_delivering value start log f s sent index ch scan : feed_ok f -> f_send f = Some s -> delivering value start log f s sent -> (index < sd_active s)%nat -> f_sendCases f !! index = Some (SendTo ch) ->
  delivering value start log (deliver f s index ch scan) (MkSending (sd_value s) (sd_active s - 1) scan (S (sd_nsent s))) (ch :: sent).
Proof.
  intros Hf Hs [H1 H2 H3 H4 H5] Hlt Hi. pose proof (fk_send f Hf) as H6. rewrite Hs in H6. destruct (deactivate_spec (f_sendCases f) (sd_active s) index (SendTo ch) Hi) as (_ & _ & P3 & P4 & _); [lia|].
  split; cbn [deliver with_send f_log f_sendCases sd_value sd_active sd_nsent map]; [done|by rewrite H1, H2|by rewrite H3| |].
  - etransitivity; [|exact H4]. rewrite <- P3. cbn [app]. rewrite app_assoc. rewrite (Permutation_app_comm _ [SendTo ch]). done.
  - rewrite P4. by apply submseteq_skip.
Qed.
Lemma remove_delivering value start log f s sent index ch f' s' : delivering value start log f s sent -> f_sendCases f !! index = Some (SendTo ch) -> (index < length (f_sendCases f))%nat ->
  f_sendCases f' = case_delete (f_sendCases f) index -> f_log f' = f_log f -> sd_value s' = sd_value s -> sd_nsent s' = sd_nsent s -> sd_active s' = (if (index <? sd_active s)%nat then (sd_active s - 1)%nat else sd_active s) ->
  delivering value start log f' s' sent.
Proof.
  intros [H1 H2 H3 H4 H5] Hi Hlt Ec El Ev En Ea. assert (Hcut : exists l1 l2, f_sendCases f = l1 ++ SendTo ch :: l2 /\ case_delete (f_sendCases f) index = l1 ++ l2 /\ length l1 = index).
  { exists (take index (f_sendCases f)), (drop (S index) (f_sendCases f)). split_and!; [by rewrite take_drop_middle|done|rewrite length_take; lia]. }
  destruct Hcut as (l1 & l2 & E1 & E2 & E3). split; [congruence|congruence|congruence| |]; rewrite Ec, Ea, E2; rewrite E1 in H4, H5; destruct (Nat.ltb_spec index (sd_active s)) as [Hl|Hl].
  - etransitivity; [|exact H4]. apply submseteq_skips_l. rewrite !take_app_ge by lia. apply submseteq_skips_l. replace (sd_active s - length l1)%nat with (S (sd_active s - 1 - length l1)) by lia. cbn [take]. by apply submseteq_cons.
  - etransitivity; [|exact H4]. apply submseteq_skips_l. by rewrite !take_app_le by lia.
  - etransitivity; [|exact H5]. rewrite !drop_app_ge by lia. replace (sd_active s - length l1)%nat with (S (sd_active s - 1 - length l1)) by lia. done.
  - etransitivity; [|exact H5]. rewrite !drop_app_le by lia. apply submseteq_skips_l. by apply submseteq_cons.
Qed.

(** A step other than the start of a Send. *)
Lemma delivering_step value start log f e f' s s' sent : feed_ok f -> feed_step f e (Ok f') -> (forall v t, e <> FSend v t) -> f_send f = Some s -> delivering value start log f s sent -> f_send f' = Some s' -> exists sent', delivering value start log f' s' sent'.
Proof.
  intros Hf Hs He Es Hd Es'. remember (Ok f') as r eqn:Er. destruct Hs as [f ch typ|f id|f id ch H1 H2|f v typ H1|f s0 index ch acc H1 H2 H3 H4|f s0 index H1 H2 H3|f s0 index ch H1 H2 H3 H4|f s0 id ch H1 H2 H3]; try (assert (s0 = s) as -> by congruence); try (injection Er as Er; subst f').
  - unfold feed_Subscribe in Er. destruct typ as [typ|]; [|done]. destruct (typecheck f typ) as [f1 b] eqn:Et. destruct (typecheck_ok _ _ _ _ Hf Et) as (_ & _ & E2 & E3 & _ & E5). destruct b; [|done]. injection Er as <-. cbn in Es'. assert (s' = s) as -> by congruence. exists sent. destruct Hd as [D1 D2 D3 D4 D5]. split; cbn [f_log f_sendCases]; rewrite ?E5, ?E2; done.
  - exists sent. unfold remove_begin in *. destruct (f_subs f !! id) as [[ch []]|]; try (by assert (s' = s) as -> by congruence). destruct (inbox_find (f_inbox f) ch); cbn in Es'; assert (s' = s) as -> by congruence; destruct Hd; by split.
  - congruence.
  - by destruct (He v typ).
  - unfold send_try in *. destruct acc; cbn in Es'; injection Es' as <-; [eexists; by eapply deliver_delivering|]. exists sent. destruct Hd; by split.
  - unfold send_scanned in *. destruct (sd_active s =? _)%nat; cbn in Es'; [done|]. injection Es' as <-. exists sent. destruct Hd; by split.
  - cbn in Es'. injection Es' as <-. eexists. by eapply deliver_delivering.
  - unfold send_removes in Er. pose proof (case_find_spec (f_sendCases f) ch) as Hc. destruct (case_find (f_sendCases f) ch) as [index|]; [|done]. cbv zeta in Er. injection Er as <-. cbn in Es'. injection Es' as <-. exists sent. eapply remove_delivering; [exact Hd|exact Hc|by eapply lookup_lt_Some|done|done|done|done|done].
Qed.
Lemma send_stays f e f' : feed_step f e (Ok f') -> (forall v t, e <> FSend v t) -> f_send f = None -> f_send f' = None.
Proof.
  intros Hs He Hn. remember (Ok f') as r eqn:Er. destruct Hs as [f ch typ|f id|f id ch H1 H2|f v typ H1| | | | ]; try congruence; try (injection Er as Er; subst f').
  - unfold feed_Subscribe, typecheck in Er. destruct typ as [typ|]; [|done]. destruct (f_etype f) as [t|]; [destruct (bool_decide (t = typ)); [|done]|]; injection Er as <-; exact Hn.
  - unfold remove_begin. destruct (f_subs f !! id) as [[ch []]|]; try done. by destruct (inbox_find _ _).
  - unfold remove_with_lock in Er. destruct (case_find _ _); [|done]. injection Er as <-. exact Hn.
  - by destruct (He v typ).
Qed.
Lemma send_stays_run f es f' : feed_run f es f' -> Forall (fun e => forall v t, e <> FSend v t) es -> f_send f = None -> f_send f' = None.
Proof. induction 1 as [|f e f1 es f2 Hs _ IH]; [done|]. intros [He Hes]%Forall_cons Hn. apply IH; [done|]. by eapply send_stays. Qed.
Lemma delivering_run value start log f es f' : feed_run f es f' -> feed_ok f -> Forall (fun e => forall v t, e <> FSend v t) es -> forall s sent, f_send f = Some s -> delivering value start log f s sent ->
  forall s', f_send f' = Some s' -> exists sent', delivering value start log f' s' sent'.
Proof.
  induction 1 as [|f e f1 es f2 Hs Hr IH]; intros Hf He s sent Es Hd s' Es'; [exists sent; by assert (s' = s) as -> by congruence|]. apply Forall_cons in He as [He Hes]. destruct (f_send f1) as [s1|] eqn:E1.
  - destruct (delivering_step _ _ _ _ _ _ _ s1 _ Hf Hs He Es Hd E1) as [sent1 Hd1]. eapply IH; [exact (feed_step_ok _ _ _ Hf Hs)|done|done|done|done].
  - by rewrite (send_stays_run _ _ _ Hr Hes E1) in Es'.
Qed.

(** A Send whose receivers take the value gets to its end. *)
Definition accepting (e : feed_event) : Prop := e = FTry true \/ e = FScanned \/ e = FSelect firstSubSendCase.
Lemma send_finishes n : forall f s, feed_ok f -> f_send f = Some s -> (2 * sd_active s + (if sd_scan s then 1 else 0) <= n)%nat -> exists es f', feed_run f es f' /\ Forall accepting es /\ f_send f' = None.
Proof.
  induction n as [|n IH]; intros f s Hf Hs Hn; pose proof (fk_send f Hf) as H5; rewrite Hs in H5; destruct H5 as [H5 H6]; unfold scan_ok in H6; [lia|].
  assert (Hnext : forall e f1 s1, feed_step f e (Ok f1) -> accepting e -> f_send f1 = Some s1 -> (2 * sd_active s1 + (if sd_scan s1 then 1 else 0) <= n)%nat -> exists es f', feed_run f es f' /\ Forall accepting es /\ f_send f' = None).
  { intros e f1 s1 Hst He Hs1 Hl. destruct (IH f1 s1 (feed_step_ok _ _ _ Hf Hst) Hs1 Hl) as (es & f' & R1 & R2 & R3). exists (e :: es), f'. split_and!; [by econstructor|by constructor|done]. }
  assert (Hcase : forall i, (1 <= i < sd_active s)%nat -> exists ch, f_sendCases f !! i = Some (SendTo ch)).
  { intros i Hi. destruct (lookup_lt_is_Some_2 (f_sendCases f) i) as [c Hc]; [lia|]. destruct (case_send f i c Hf Hc) as [ch ->]; [lia|]. by exists ch. }
  destruct (sd_scan s) as [i|] eqn:Ei; [destruct (decide (i < sd_active s)%nat) as [Hl|Hl]|].
  - destruct (Hcase i ltac:(lia)) as [ch Hch]. eapply Hnext; [by eapply fs_try with (accepts := true)|by left|done|]. cbn. lia.
  - pose proof (fs_scanned f s i Hs Ei ltac:(lia)) as Hst. destruct (sd_active s =? firstSubSendCase)%nat eqn:Ea.
    + exists [FScanned], (send_scanned f s). split_and!; [econstructor; [exact Hst|constructor]|constructor; [by right; left|done]|]. unfold send_scanned. by rewrite Ea.
    + eapply Hnext; [exact Hst|by right; left|unfold send_scanned; by rewrite Ea|]. cbn. lia.
  - destruct (Hcase firstSubSendCase) as [ch Hch]; [unfold firstSubSendCase; lia|]. eapply Hnext; [by eapply fs_select|by right; right|done|]. cbn. lia.
Qed.


(** Two subscribers, one of which leaves while a Send waits for it. *)
Definition demo_events : list feed_event := [FSubscribe 7 (Some 0%nat); FSubscribe 8 (Some 0%nat); FSend 5 0; FTry false; FTry true; FScanned; FUnsubscribe 0; FSelectRemove 0].
Definition demo_feed : Feed := MkFeed (Some 0%nat) [] [RemoveSub; SendTo 8] (Some (MkSending 5 1 (Some 1%nat) 1)) [MkSub 7 SubDone; MkSub 8 SubLive] [(8%nat, 5)].
Lemma fr_eval f e r f1 es f2 : feed_step f e r -> r = Ok f1 -> feed_run f1 es f2 -> feed_run f (e :: es) f2.
Proof. intros Hs ->. by apply fr_cons. Qed.
Ltac eval_step t := eapply fr_eval; [eapply t; try reflexivity; vm_compute; lia|vm_compute; reflexivity|].
Lemma demo_run : feed_run feed_init demo_events demo_feed.
Proof. unfold demo_events. eval_step fs_subscribe. eval_step fs_subscribe. eval_step fs_send. eval_step fs_try. eval_step fs_try. eval_step fs_scanned. eval_step fs_unsubscribe. eval_step fs_select_remove. apply fr_nil. Qed.
