(* ===== verification/Manager.v ===== *)
(** * The account manager

    src/accounts: the accounts and the interface of wallets of accounts.go, the
    manager with its sorted list of the wallets of all backends, and sort.go.
    Keccak-256 is a parameter. *)

From Stdlib Require Import String Sorting.Sorted.
From stdpp Require Import list strings sorting gmap.
From S2P Require Import Prelude GoText GoSort Accounts.

(** ** accounts.go *)

Record Account : Type := MkAccount { a_Address : list Z; a_URL : URL }.
#[export] Instance Account_eq_dec : EqDecision Account.
Proof. solve_decision. Defined.

(** What the manager uses of a wallet. *)
Class Wallet (W : Type) : Type := {
  wallet_URL : W -> URL;
  wallet_Accounts : W -> list Account;
  wallet_Contains : W -> Account -> bool
}.

Definition TextAndHash (Keccak256 : list Z -> list Z) (data : list Z) : list Z * list Z :=
  let msg := 25 :: str "Ethereum Signed Message:" ++ 10 :: FormatUint (len data) 10 ++ data in (Keccak256 msg, msg).
Definition TextHash (Keccak256 : list Z -> list Z) (data : list Z) : list Z := fst (TextAndHash Keccak256 data).

Inductive WalletEventType : Type := WalletArrived | WalletOpened | WalletDropped.
Record WalletEvent (W : Type) : Type := MkEvent { ev_Wallet : W; ev_Kind : WalletEventType }.
Arguments MkEvent {W}.
Arguments ev_Wallet {W}.
Arguments ev_Kind {W}.

Inductive accounts_error : Type := ErrUnknownAccount | ErrUnknownWallet | ErrNotSupported | ErrURL.

(** sort.go *)
Definition AccountsByURL_Less (a b : Account) : bool := URL_Cmp (a_URL a) (a_URL b) <? 0.
Definition WalletsByURL_Less {W} `{Wallet W} (a b : W) : bool := URL_Cmp (wallet_URL a) (wallet_URL b) <? 0.

(** ** manager.go *)

Section manager.
  Context {W : Type} `{Wallet W}.

Definition wallet_index (slice : list W) (wallet : W) : nat := Search_list (fun x => 0 <=? URL_Cmp (wallet_URL x) (wallet_URL wallet)) slice.
Definition merge1 (slice : list W) (wallet : W) : list W :=
  let n := wallet_index slice wallet in
  if (n =? length slice)%nat then slice ++ [wallet] else take n slice ++ wallet :: drop n slice.
Definition merge (slice wallets : list W) : list W := foldl merge1 slice wallets.
Definition drop1 (slice : list W) (wallet : W) : list W :=
  let n := wallet_index slice wallet in
  if (n =? length slice)%nat then slice else take n slice ++ drop (n + 1) slice.
Definition drop_wallets (slice wallets : list W) : list W := foldl drop1 slice wallets.

(** A backend is its type and the wallets it lists when it is asked; of the feed,
    the events that were sent.  Nil updaters are [None]. *)
Record Backend : Type := MkBackend { b_kind : nat; b_Wallets : list W }.
Record Manager : Type := MkManager {
  am_backends : gmap nat (list Backend);
  am_updaters : option nat;
  am_wallets : list W;
  am_feed : list (WalletEvent W)
}.

Definition NewManager (backends : list Backend) : Manager :=
  {| am_wallets := foldl (fun wallets backend => merge wallets (b_Wallets backend)) [] backends;
     am_updaters := Some (length backends);
     am_backends := foldl (fun m backend => <[b_kind backend := default [] (m !! b_kind backend) ++ [backend]]> m) ∅ backends;
     am_feed := [] |}.

(** An event of the loop. *)
Definition manager_update (am : Manager) (event : WalletEvent W) : Manager :=
  let wallets :=
    match ev_Kind event with
    | WalletArrived => merge (am_wallets am) [ev_Wallet event]
    | WalletDropped => drop_wallets (am_wallets am) [ev_Wallet event]
    | WalletOpened => am_wallets am
    end in
  {| am_backends := am_backends am; am_updaters := am_updaters am; am_wallets := wallets; am_feed := am_feed am ++ [event] |}.
Definition manager_run (am : Manager) (events : list (WalletEvent W)) : Manager := foldl manager_update am events.
(** Close: the loop ends, and its subscriptions. *)
Definition Manager_Close (am : Manager) : Manager :=
  {| am_backends := am_backends am; am_updaters := None; am_wallets := am_wallets am; am_feed := am_feed am |}.

Definition Manager_Backends (am : Manager) (kind : nat) : list Backend := default [] (am_backends am !! kind).
Definition Manager_Wallets (am : Manager) : list W := am_wallets am.
Definition Manager_Wallet (am : Manager) (url : list Z) : accounts_error + W :=
  match parseURL url with
  | None => inl ErrURL
  | Some parsed => match List.find (fun w => bool_decide (wallet_URL w = parsed)) (Manager_Wallets am) with Some w => inr w | None => inl ErrUnknownWallet end
  end.
Definition Manager_Accounts (am : Manager) : list (list Z) := concat (map (fun w => map a_Address (wallet_Accounts w)) (am_wallets am)).
Definition Manager_Find (am : Manager) (account : Account) : accounts_error + W :=
  match List.find (fun w => wallet_Contains w account) (am_wallets am) with Some w => inr w | None => inl ErrUnknownAccount end.

(** ** Sorted lists of wallets *)

Definition url_le (u v : URL) : Prop := ~ url_lt v u.
Definition sorted_wallets (l : list W) : Prop := StronglySorted (fun x y => url_le (wallet_URL x) (wallet_URL y)) l.
Definition distinct_wallets (l : list W) : Prop := StronglySorted (fun x y => url_lt (wallet_URL x) (wallet_URL y)) l.

Lemma url_le_trans u v w : url_le u v -> url_le v w -> url_le u w.
Proof. unfold url_le. intros H1 H2 H3. destruct (url_cases v u) as [|[->|Hl]]; [done|done|]. apply H2. by transitivity u. Qed.
Lemma url_lt_le u v : url_lt u v -> url_le u v.
Proof. intros H1 H2. apply (url_lt_irrefl u). by transitivity v. Qed.
Lemma distinct_sorted l : distinct_wallets l -> sorted_wallets l.
Proof. apply StronglySorted_weaken. intros x y. apply url_lt_le. Qed.

Lemma index_split l w : sorted_wallets l -> exists l1 l2, l = l1 ++ l2 /\ wallet_index l w = length l1 /\
  Forall (fun x => url_lt (wallet_URL x) (wallet_URL w)) l1 /\ Forall (fun x => url_le (wallet_URL w) (wallet_URL x)) l2.
Proof.
  intros Hs. destruct (Search_list_spec (fun x => 0 <=? URL_Cmp (wallet_URL x) (wallet_URL w)) l) as (l1 & l2 & E & En & H1 & H2).
  { eapply StronglySorted_weaken; [|exact Hs]. intros x y Hxy. cbn beta. rewrite !url_ge. intros Hx. destruct (url_cases (wallet_URL w) (wallet_URL y)) as [|[Ey|Hl]]; [by right|by left|]. destruct (url_le_trans (wallet_URL w) (wallet_URL x) (wallet_URL y)); [|done|done]. destruct Hx as [->|]; [apply url_lt_irrefl|by apply url_lt_le]. }
  exists l1, l2. split_and!; [done|done| |].
  - eapply Forall_impl; [exact H1|]. intros x. cbn beta. apply url_lt_leb.
  - destruct l2 as [|y l2]; [constructor|]. specialize (H2 y eq_refl). cbn beta in H2. apply url_ge in H2. assert (Hy : url_le (wallet_URL w) (wallet_URL y)) by (destruct H2 as [->|]; [apply url_lt_irrefl|by apply url_lt_le]).
    rewrite E in Hs. apply StronglySorted_app_1_r, StronglySorted_cons in Hs as [Hs _]. constructor; [done|]. eapply Forall_impl; [exact Hs|]. intros z. cbn beta. by apply url_le_trans.
Qed.

Lemma merge1_split l w : sorted_wallets l -> exists l1 l2, l = l1 ++ l2 /\ merge1 l w = l1 ++ w :: l2 /\
  Forall (fun x => url_lt (wallet_URL x) (wallet_URL w)) l1 /\ Forall (fun x => url_le (wallet_URL w) (wallet_URL x)) l2.
Proof.
  intros Hs. destruct (index_split l w Hs) as (l1 & l2 & E & En & H1 & H2). exists l1, l2. split_and!; [done| |done|done]. unfold merge1. cbv zeta. rewrite En, E, length_app.
  destruct (Nat.eqb_spec (length l1) (length l1 + length l2)) as [El|El]; [|by rewrite take_app_length, drop_app_length]. destruct l2; [by rewrite app_nil_r|cbn in El; lia].
Qed.
Lemma drop1_split l w : sorted_wallets l -> exists l1 l2, l = l1 ++ l2 /\ drop1 l w = l1 ++ tail l2 /\
  Forall (fun x => url_lt (wallet_URL x) (wallet_URL w)) l1 /\ Forall (fun x => url_le (wallet_URL w) (wallet_URL x)) l2.
Proof.
  intros Hs. destruct (index_split l w Hs) as (l1 & l2 & E & En & H1 & H2). exists l1, l2. split_and!; [done| |done|done]. unfold drop1. cbv zeta. rewrite En, E, length_app.
  destruct (Nat.eqb_spec (length l1) (length l1 + length l2)) as [El|El]; [destruct l2; [done|cbn in El; lia]|]. rewrite take_app_length, <- drop_drop, drop_app_length. by destruct l2.
Qed.

Lemma merge1_sorted l w : sorted_wallets l -> sorted_wallets (merge1 l w) /\ merge1 l w ≡ₚ w :: l.
Proof.
  intros Hs. destruct (merge1_split l w Hs) as (l1 & l2 & El & -> & H1 & H2). rewrite El in *. split; [|by rewrite Permutation_middle]. apply StronglySorted_app in Hs as (H3 & H4 & H5). rewrite Forall_forall in H1.
  apply StronglySorted_app_2; [|done|by constructor]. intros x y Hx. rewrite elem_of_cons. intros [->|Hy]; [by apply url_lt_le, H1|by apply H3].
Qed.
Lemma drop1_sorted l w : sorted_wallets l -> sorted_wallets (drop1 l w) /\ drop1 l w ⊆+ l.
Proof.
  intros Hs. destruct (drop1_split l w Hs) as (l1 & l2 & El & -> & _ & _). rewrite El in *. apply StronglySorted_app in Hs as (H3 & H4 & H5). split.
  - apply StronglySorted_app_2; [|done|by destruct l2; [|apply StronglySorted_inv in H5 as [? _]]]. intros x y Hx Hy. apply H3; [done|]. destruct l2; [done|by right].
  - apply submseteq_app; [done|]. destruct l2; [done|]. by apply submseteq_cons.
Qed.

Lemma merge1_distinct l w : distinct_wallets l -> Forall (fun x => wallet_URL x <> wallet_URL w) l -> distinct_wallets (merge1 l w).
Proof.
  intros Hs Hn. destruct (merge1_split l w (distinct_sorted l Hs)) as (l1 & l2 & El & -> & H1 & H2). unfold distinct_wallets in *. rewrite El in *. apply Forall_app in Hn as [_ Hn]. apply StronglySorted_app in Hs as (H3 & H4 & H5). rewrite Forall_forall in H1, H2, Hn.
  assert (H6 : forall x, x ∈ l2 -> url_lt (wallet_URL w) (wallet_URL x)) by (intros x Hx; destruct (url_cases (wallet_URL w) (wallet_URL x)) as [|[Ex|]]; [done|by destruct (Hn x Hx)|by destruct (H2 x Hx)]).
  apply StronglySorted_app_2; [|done|]. - intros x y Hx. rewrite elem_of_cons. intros [->|Hy]; [by apply H1|by apply H3]. - constructor; [done|]. by apply Forall_forall.
Qed.
(** A known wallet is dropped, and no other. *)
Lemma drop1_known l w w' : distinct_wallets l -> w' ∈ l -> wallet_URL w' = wallet_URL w -> distinct_wallets (drop1 l w) /\ forall x, x ∈ drop1 l w <-> x ∈ l /\ wallet_URL x <> wallet_URL w.
Proof.
  intros Hs Hin Ew. destruct (drop1_split l w (distinct_sorted l Hs)) as (l1 & l2 & El & -> & H1 & H2). unfold distinct_wallets in *. rewrite El in *. apply StronglySorted_app in Hs as (H3 & H4 & H5). rewrite Forall_forall in H1, H2.
  assert (Hnot : forall x, x ∈ l1 -> wallet_URL x <> wallet_URL w) by (intros x Hx Ex; apply (url_lt_irrefl (wallet_URL w)); rewrite <- Ex at 1; by apply H1).
  apply elem_of_app in Hin as [Hin|Hin]; [by destruct (Hnot _ Hin)|]. destruct l2 as [|y l2]; [by apply elem_of_nil in Hin|]. apply StronglySorted_cons in H5 as [H5 H6]. rewrite Forall_forall in H5. cbn [tail].
  assert (Ey : wallet_URL y = wallet_URL w). { apply elem_of_cons in Hin as [->|Hin]; [done|]. destruct (url_cases (wallet_URL y) (wallet_URL w)) as [Hl|[|Hl]]; [|done|]; [by destruct (H2 y ltac:(left))|]. apply H5 in Hin. rewrite Ew in Hin. destruct (url_lt_irrefl (wallet_URL w)). by transitivity (wallet_URL y). }
  split; [apply StronglySorted_app_2; [|done|done]; intros a b Ha Hb; apply H3; [done|by right]|]. intros x. rewrite !elem_of_app, elem_of_cons. split.
  - intros [Hx|Hx]; [by split; [left|apply Hnot]|]. split; [by right; right|]. intros Ex. destruct (url_lt_irrefl (wallet_URL w)). rewrite <- Ey at 1. rewrite <- Ex. by apply H5.
  - intros [[Hx|[->|Hx]] Hn]; [by left|done|by right].
Qed.

Lemma merge_sorted ws : forall l, sorted_wallets l -> sorted_wallets (merge l ws) /\ merge l ws ≡ₚ ws ++ l.
Proof.
  unfold merge. induction ws as [|w ws IH]; intros l Hl; [done|]. cbn [foldl]. destruct (merge1_sorted l w Hl) as [H1 H2]. destruct (IH _ H1) as [H3 H4]. split; [done|]. rewrite H4, H2. symmetry. apply Permutation_middle.
Qed.
Lemma initial_sorted backends : forall l, sorted_wallets l ->
  let r := foldl (fun wallets backend => merge wallets (b_Wallets backend)) l backends in sorted_wallets r /\ r ≡ₚ concat (map b_Wallets backends) ++ l.
Proof.
  induction backends as [|b backends IH]; intros l Hl; [done|]. cbn [foldl map concat]. destruct (merge_sorted (b_Wallets b) l Hl) as [H1 H2]. destruct (IH _ H1) as [H3 H4]. split; [done|]. cbv zeta in H4. rewrite H4, H2, !app_assoc. f_equiv. apply Permutation_app_comm.
Qed.
Lemma manager_update_sorted am e : sorted_wallets (am_wallets am) -> sorted_wallets (am_wallets (manager_update am e)).
Proof. destruct e as [w []]; [intros Hs; by destruct (merge1_sorted _ w Hs)|done|intros Hs; by destruct (drop1_sorted _ w Hs)]. Qed.

Definition arrived (events : list (WalletEvent W)) : list W := omap (fun e => match ev_Kind e with WalletArrived => Some (ev_Wallet e) | _ => None end) events.
Lemma manager_run_spec events : forall am, sorted_wallets (am_wallets am) ->
  let am' := manager_run am events in
  sorted_wallets (am_wallets am') /\ am_feed am' = am_feed am ++ events /\ am_wallets am' ⊆+ arrived events ++ am_wallets am /\
  (Forall (fun e => ev_Kind e <> WalletDropped) events -> am_wallets am' ≡ₚ arrived events ++ am_wallets am).
Proof.
  unfold manager_run. induction events as [|e events IH]; intros am Hs; [cbn; by rewrite app_nil_r|]. cbn [foldl]. destruct (IH _ (manager_update_sorted am e Hs)) as (H1 & H2 & H3 & H4). cbv zeta in *. split_and!; [done| | |].
  - rewrite H2. cbn. by rewrite <- app_assoc.
  - etransitivity; [exact H3|]. destruct e as [w []]; cbn [arrived omap list_omap ev_Kind ev_Wallet manager_update am_wallets merge drop_wallets foldl]; [|done|].
    + rewrite (proj2 (merge1_sorted _ w Hs)). rewrite <- Permutation_middle. done.
    + apply submseteq_app; [done|]. apply drop1_sorted, Hs.
  - intros Hf. apply Forall_cons in Hf as [He Hf]. rewrite (H4 Hf). destruct e as [w []]; cbn [arrived omap list_omap ev_Kind ev_Wallet manager_update am_wallets merge drop_wallets foldl]; [|done|done].
    rewrite (proj2 (merge1_sorted _ w Hs)). rewrite <- Permutation_middle. done.
Qed.

(** C20: The manager keeps its wallets in the order of their URLs, whatever events
    arrive: it starts with the wallets of all backends, passes every event on in
    order, holds nothing but wallets that a backend listed or that arrived, and
    all of them while nothing is dropped.  The drop of a wallet it holds removes
    that wallet and no other. *)
Theorem manager_wallets backends events :
  let am := manager_run (NewManager backends) events in
  sorted_wallets (am_wallets am) /\ am_feed am = events /\ am_wallets am ⊆+ arrived events ++ concat (map b_Wallets backends) /\
  (Forall (fun e => ev_Kind e <> WalletDropped) events -> am_wallets am ≡ₚ arrived events ++ concat (map b_Wallets backends)) /\
  (forall w w', distinct_wallets (am_wallets am) -> w' ∈ am_wallets am -> wallet_URL w' = wallet_URL w ->
     forall x, x ∈ am_wallets (manager_update am (MkEvent w WalletDropped)) <-> x ∈ am_wallets am /\ wallet_URL x <> wallet_URL w).
Proof.
  destruct (initial_sorted backends [] ltac:(constructor)) as [H1 H2]. rewrite app_nil_r in H2. cbv zeta in H2. destruct (manager_run_spec events (NewManager backends) H1) as (H3 & H4 & H5 & H6). cbn [NewManager am_wallets am_feed] in *. cbv zeta. split_and!; [done|done|by rewrite <- H2|by rewrite <- H2|].
  intros w w' Hd Hin Ew. cbn. by apply (drop1_known _ w w').
Qed.

(** Lookups. *)
Lemma manager_lookups am :
  (forall url w, Manager_Wallet am url = inr w -> w ∈ am_wallets am /\ parseURL url = Some (wallet_URL w)) /\
  (forall url, Manager_Wallet am url = inl ErrUnknownWallet <-> exists u, parseURL url = Some u /\ Forall (fun w => wallet_URL w <> u) (am_wallets am)) /\
  (forall a w, Manager_Find am a = inr w -> w ∈ am_wallets am /\ wallet_Contains w a = true) /\
  (forall a, Manager_Find am a = inl ErrUnknownAccount <-> Forall (fun w => wallet_Contains w a = false) (am_wallets am)).
Proof.
  unfold Manager_Wallet, Manager_Find, Manager_Wallets. split_and!.
  - intros url w. destruct (parseURL url) as [u|]; [|done]. destruct (List.find _ _) eqn:E; [|done]. intros [= ->]. apply find_some in E as [E1 E2]. apply bool_decide_eq_true in E2 as ->. split; [by apply list_elem_of_In|done].
  - intros url. destruct (parseURL url) as [u|]; [|split; [done|by intros (? & [=] & _)]]. destruct (List.find _ _) as [w|] eqn:E; split; try done.
    + intros (? & [= <-] & Hf). apply find_some in E as [E1 E2]. apply bool_decide_eq_true in E2. rewrite Forall_forall in Hf. destruct (Hf w); [by apply list_elem_of_In|done].
    + intros _. exists u. split; [done|]. apply Forall_forall. intros w Hw. apply list_elem_of_In in Hw. by specialize (find_none _ _ E w Hw) as Hx%bool_decide_eq_false.
  - intros a w. destruct (List.find _ _) eqn:E; [|done]. intros [= ->]. apply find_some in E as [E1 E2]. split; [by apply list_elem_of_In|done].
  - intros a. destruct (List.find _ _) as [w|] eqn:E; split; try done.
    + intros Hf. apply find_some in E as [E1 E2]. rewrite Forall_forall in Hf. rewrite (Hf w) in E2; [done|]. by apply list_elem_of_In.
    + intros _. apply Forall_forall. intros w Hw. apply list_elem_of_In in Hw. by apply (find_none _ _ E).
Qed.
End manager.

(** ** A wallet that is not known *)

#[local] Instance url_wallet : Wallet URL := {| wallet_URL := id; wallet_Accounts := fun u => [MkAccount [] u]; wallet_Contains := fun u a => bool_decide (a_URL a = u) |}.
Definition sample_url (s : string) : URL := MkURL (str "keystore") (str s).
(** The drop of a wallet that the manager does not hold drops the one after it. *)
Theorem drop_unknown_wallet : drop_wallets [sample_url "/a"; sample_url "/c"] [sample_url "/b"] = [sample_url "/a"].
Proof. vm_compute. reflexivity. Qed.
