(* ===== verification/AccountCache.v ===== *)
(** * The cache of accounts

    src/accounts/keystore/account_cache.go, file_cache.go and watch.go: the index
    of the key files of a directory, kept up to date by scans.  The order in which
    the slices of a set (github.com/deckarep/golang-set) list its elements is a
    parameter. *)

From Stdlib Require Import String Sorting.Sorted.
From stdpp Require Import list strings sorting gmap.
From S2P Require Import Prelude GoText GoSort Common Json JsonTypes Accounts KeyFile Manager.

(** ** path/filepath *)

(** Clean: the elements of a path without empty ones, dots, and what a double dot
    leaves; [out] holds them in reverse. *)
Fixpoint clean_elements (rooted : bool) (out elements : list (list Z)) : list (list Z) :=
  match elements with
  | [] => reverse out
  | e :: elements =>
      if bool_decide (e = []) || bool_decide (e = str ".") then clean_elements rooted out elements
      else if bool_decide (e = str "..") then
        match out with
        | d :: out' => if bool_decide (d = str "..") then clean_elements rooted (e :: out) elements else clean_elements rooted out' elements
        | [] => if rooted then clean_elements rooted [] elements else clean_elements rooted [e] elements
        end
      else clean_elements rooted (e :: out) elements
  end.
Definition filepath_Clean (path : list Z) : list Z :=
  if bool_decide (path = []) then str "."
  else
    let rooted := has_prefix path (str "/") in
    let out := join (str "/") (clean_elements rooted [] (strings_Split path (str "/"))) in
    if rooted then str "/" ++ out else if bool_decide (out = []) then str "." else out.
Definition filepath_Join (a b : list Z) : list Z :=
  if bool_decide (a = []) then (if bool_decide (b = []) then [] else filepath_Clean b) else filepath_Clean (a ++ str "/" ++ b).

(** ** file_cache.go *)

#[local] Abbreviation paths := (gset (list Z)).
#[local] Abbreviation files := (gmap (list Z) (list Z)).

(** Times are counted from the zero time. *)
Record FileInfo : Type := MkFileInfo { fi_Name : list Z; fi_IsDir : bool; fi_Special : bool; fi_ModTime : Z }.
Record fileCache : Type := MkFileCache { fc_all : paths; fc_lastMod : Z }.

Definition nonKeyFile (fi : FileInfo) : bool :=
  if has_suffix (fi_Name fi) (str "~") || has_prefix (fi_Name fi) (str ".") then true
  else if fi_IsDir fi || fi_Special fi then true
  else false.

Definition scan_file (keyDir : list Z) (lastMod : Z) (acc : paths * paths * Z) (fi : FileInfo) : paths * paths * Z :=
  let '(all, mods, newLastMod) := acc in
  let path := filepath_Join keyDir (fi_Name fi) in
  if nonKeyFile fi then acc
  else
    ({[path]} ∪ all,
     if lastMod <? fi_ModTime fi then {[path]} ∪ mods else mods,
     if newLastMod <? fi_ModTime fi then fi_ModTime fi else newLastMod).

(** The created, deleted and updated files; [None] when the directory is not read. *)
Definition scan (fc : fileCache) (keyDir : list Z) (ReadDir : option (list FileInfo)) : fileCache * option (paths * paths * paths) :=
  match ReadDir with
  | None => (fc, None)
  | Some files =>
      let '(all, mods, newLastMod) := foldl (scan_file keyDir (fc_lastMod fc)) (∅, ∅, 0) files in
      let deletes := fc_all fc ∖ all in
      let creates := all ∖ fc_all fc in
      let updates := mods ∖ creates in
      (MkFileCache all newLastMod, Some (creates, deletes, updates))
  end.

(** ** account_cache.go *)

Definition KeyStoreScheme : list Z := str "keystore".
Definition keystore_URL (path : list Z) : URL := MkURL KeyStoreScheme path.
Definition zero_address : list Z := zeros 20.

(** The watcher's flags; the timer of the throttle, with whether it has fired; the
    channel of notifications, with whether it is full, nil once closed. *)
Record accountCache : Type := MkCache {
  keydir : list Z;
  w_starting : bool;
  w_running : bool;
  ac_all : list Account;
  byAddr : gmap (list Z) (list Account);
  throttle : option bool;
  ac_notify : option bool;
  fileC : fileCache
}.
Definition with_index (ac : accountCache) (all : list Account) (m : gmap (list Z) (list Account)) : accountCache :=
  MkCache (keydir ac) (w_starting ac) (w_running ac) all m (throttle ac) (ac_notify ac) (fileC ac).

Definition newAccountCache (dir : list Z) : accountCache := MkCache dir false false [] ∅ None (Some false) (MkFileCache ∅ 0).

Definition accounts_of (ac : accountCache) (addr : list Z) : list Account := default [] (byAddr ac !! addr).

Definition cache_add (ac : accountCache) (newAccount : Account) : accountCache :=
  let i := Search_list (fun a => 0 <=? URL_Cmp (a_URL a) (a_URL newAccount)) (ac_all ac) in
  if bool_decide (ac_all ac !! i = Some newAccount) then ac
  else with_index ac (take i (ac_all ac) ++ newAccount :: drop i (ac_all ac)) (<[a_Address newAccount := accounts_of ac (a_Address newAccount) ++ [newAccount]]> (byAddr ac)).

Fixpoint removeAccount (slice : list Account) (elem : Account) : list Account :=
  match slice with
  | [] => []
  | a :: slice => if bool_decide (a = elem) then slice else a :: removeAccount slice elem
  end.

Definition remove_by_address (ac : accountCache) (removed : Account) : gmap (list Z) (list Account) :=
  let ba := removeAccount (accounts_of ac (a_Address removed)) removed in
  if bool_decide (ba = []) then delete (a_Address removed) (byAddr ac) else <[a_Address removed := ba]> (byAddr ac).
Definition cache_delete (ac : accountCache) (removed : Account) : accountCache :=
  with_index ac (removeAccount (ac_all ac) removed) (remove_by_address ac removed).
Definition deleteByFile (ac : accountCache) (path : list Z) : accountCache :=
  let i := Search_list (fun a => 0 <=? Compare (u_Path (a_URL a)) path) (ac_all ac) in
  match ac_all ac !! i with
  | Some removed =>
      if bool_decide (u_Path (a_URL removed) = path) then with_index ac (take i (ac_all ac) ++ drop (i + 1) (ac_all ac)) (remove_by_address ac removed) else ac
  | None => ac
  end.

Inductive find_error : Type := ErrNoMatch | AmbiguousAddrError (Addr : list Z) (Matches : list Account).

(** sort.Sort by URL. *)
Fixpoint insert_account (a : Account) (l : list Account) : list Account :=
  match l with [] => [a] | b :: l' => if AccountsByURL_Less b a then b :: insert_account a l' else a :: l end.
Definition sort_accounts (l : list Account) : list Account := foldr insert_account [] l.

(** The path of an account, completed when it is a base name. *)
Definition completed_path (dir path : list Z) : list Z := if bool_decide (47 ∈ path) then path else filepath_Join dir path.
Definition cache_find (ac : accountCache) (a : Account) : find_error + Account :=
  let matches := if bool_decide (a_Address a = zero_address) then ac_all ac else accounts_of ac (a_Address a) in
  let by_count :=
    match matches with
    | [m] => inr m
    | [] => inl ErrNoMatch
    | _ => inl (AmbiguousAddrError (a_Address a) (sort_accounts matches))
    end in
  if bool_decide (u_Path (a_URL a) = []) then by_count
  else
    let url := MkURL (u_Scheme (a_URL a)) (completed_path (keydir ac) (u_Path (a_URL a))) in
    match List.find (fun m => bool_decide (a_URL m = url)) matches with
    | Some m => inr m
    | None => if bool_decide (a_Address a = zero_address) then inl ErrNoMatch else by_count
    end.

Definition ambiguous_text (matches : list Account) : list Z :=
  str "multiple keys match address (" ++ join (str ", ") (map (fun a => u_Path (a_URL a)) matches) ++ str ")".

(** Reading the address of a key file. *)
Definition address_type : jtype := JTStruct [(str "address", JTStr)].
Definition readAccount (fs : files) (path : list Z) : option Account :=
  text ← fs !! path;
  j ← first_value text;
  match jdecode address_type (zero_of address_type) j with
  | (JVStruct [v], DOk) =>
      addr ← HexToAddress (txt v);
      if bool_decide (addr = zero_address) then None else Some (MkAccount addr (keystore_URL path))
  | _ => None
  end.

Definition add_file (fs : files) (ac : accountCache) (path : list Z) : accountCache :=
  match readAccount fs path with Some a => cache_add ac a | None => ac end.
Definition update_file (fs : files) (ac : accountCache) (path : list Z) : accountCache := add_file fs (deleteByFile ac path) path.

Section scans.
  (** Set.ToSlice. *)
  Context (ToSlice : paths -> list (list Z)).

(** [false] on an error. *)
Definition scanAccounts (ac : accountCache) (ReadDir : option (list FileInfo)) (fs : files) : accountCache * bool :=
  let '(fc, diff) := scan (fileC ac) (keydir ac) ReadDir in
  match diff with
  | None => (ac, false)
  | Some (creates, deletes, updates) =>
      let ac := MkCache (keydir ac) (w_starting ac) (w_running ac) (ac_all ac) (byAddr ac) (throttle ac) (ac_notify ac) fc in
      if bool_decide (creates = ∅) && bool_decide (deletes = ∅) && bool_decide (updates = ∅) then (ac, true)
      else
        let ac := foldl (add_file fs) ac (ToSlice creates) in
        let ac := foldl deleteByFile ac (ToSlice deletes) in
        let ac := foldl (update_file fs) ac (ToSlice updates) in
        (MkCache (keydir ac) (w_starting ac) (w_running ac) (ac_all ac) (byAddr ac) (throttle ac) (match ac_notify ac with Some _ => Some true | None => None end) (fileC ac), true)
  end.

Definition watcher_start (ac : accountCache) : accountCache :=
  if w_starting ac || w_running ac then ac else MkCache (keydir ac) true (w_running ac) (ac_all ac) (byAddr ac) (throttle ac) (ac_notify ac) (fileC ac).
(** [fired]: the timer made on the first call fires before it is reset, which keeps
    its tick. *)
Definition maybeReload (ac : accountCache) (fired : bool) (ReadDir : option (list FileInfo)) (fs : files) : accountCache :=
  if w_running ac then ac
  else
    let reload tick :=
      let ac := watcher_start ac in
      let ac := MkCache (keydir ac) (w_starting ac) (w_running ac) (ac_all ac) (byAddr ac) (Some tick) (ac_notify ac) (fileC ac) in
      fst (scanAccounts ac ReadDir fs) in
    match throttle ac with
    | None => reload fired
    | Some true => reload false
    | Some false => ac
    end.

Definition cache_accounts (ac : accountCache) (fired : bool) (ReadDir : option (list FileInfo)) (fs : files) : accountCache * list Account :=
  let ac := maybeReload ac fired ReadDir fs in (ac, ac_all ac).
Definition hasAddress (ac : accountCache) (fired : bool) (ReadDir : option (list FileInfo)) (fs : files) (addr : list Z) : accountCache * bool :=
  let ac := maybeReload ac fired ReadDir fs in (ac, negb (bool_decide (accounts_of ac addr = []))).

(** ** watch.go *)

(** The loop of the watcher: a pending scan, and the timer that runs it. *)
Record watch_state : Type := MkWatch { ws_cache : accountCache; rescanTriggered : bool; debounce : bool; ws_done : bool }.
Inductive watch_event : Type := WQuit | WFile | WDebounce (ReadDir : option (list FileInfo)) (fs : files).
Definition with_flags (ac : accountCache) (starting running : bool) : accountCache :=
  MkCache (keydir ac) starting running (ac_all ac) (byAddr ac) (throttle ac) (ac_notify ac) (fileC ac).
(** [watched]: the directory can be watched. *)
Definition watcher_begin (ac : accountCache) (watched : bool) : watch_state :=
  if watched then MkWatch (with_flags ac (w_starting ac) true) false false false else MkWatch (with_flags ac false false) false false true.
Definition watcher_loop (w : watch_state) (ev : watch_event) : watch_state :=
  if ws_done w then w
  else match ev with
       | WQuit => MkWatch (with_flags (ws_cache w) false false) (rescanTriggered w) false true
       | WFile => if rescanTriggered w then w else MkWatch (ws_cache w) true true false
       | WDebounce ReadDir fs => if debounce w then MkWatch (fst (scanAccounts (ws_cache w) ReadDir fs)) false false false else w
       end.
End scans.
(** [None]: the channel that ends the watcher is closed twice. *)
Definition cache_close (ac : accountCache) : option accountCache :=
  match ac_notify ac with
  | None => None
  | Some _ => Some (MkCache (keydir ac) (w_starting ac) (w_running ac) (ac_all ac) (byAddr ac) (throttle ac) None (fileC ac))
  end.

(** ** The index *)

Definition account_lt (a b : Account) : Prop := url_lt (a_URL a) (a_URL b).
#[export] Instance account_lt_trans : Transitive account_lt.
Proof. intros a b c. apply url_lt_trans. Qed.

(** The accounts are in the strict order of their URLs, all of the scheme of the
    keystore, and indexed by their addresses. *)
Record cache_ok (ac : accountCache) : Prop := {
  ok_sorted : StronglySorted account_lt (ac_all ac);
  ok_scheme : Forall (fun a => u_Scheme (a_URL a) = KeyStoreScheme) (ac_all ac);
  ok_index : forall addr, accounts_of ac addr ≡ₚ filter (fun a => a_Address a = addr) (ac_all ac);
  ok_full : forall addr, byAddr ac !! addr <> Some []
}.

Lemma url_unique l a b : StronglySorted account_lt l -> a ∈ l -> b ∈ l -> a_URL a = a_URL b -> a = b.
Proof.
  intros Hs. induction Hs as [|c l Hs IH Hc]; intros Ha Hb E; [by apply elem_of_nil in Ha|]. rewrite Forall_forall in Hc. unfold account_lt in Hc. apply elem_of_cons in Ha as [->|Ha], Hb as [->|Hb]; [done| | |by apply IH].
  - destruct (url_lt_irrefl (a_URL c)). rewrite E at 2. by apply Hc.
  - destruct (url_lt_irrefl (a_URL c)). rewrite <- E at 2. by apply Hc.
Qed.
Lemma sorted_nodup l : StronglySorted account_lt l -> NoDup l.
Proof. induction 1 as [|a l _ IH Ha]; constructor; [|done]. intros Hin. rewrite Forall_forall in Ha. exact (url_lt_irrefl _ (Ha a Hin)). Qed.

Lemma account_split l u : StronglySorted account_lt l -> exists l1 l2, l = l1 ++ l2 /\ Search_list (fun a => 0 <=? URL_Cmp (a_URL a) u) l = length l1 /\
  Forall (fun a => url_lt (a_URL a) u) l1 /\ (forall a, head l2 = Some a -> a_URL a = u \/ url_lt u (a_URL a)) /\ (forall a, a ∈ tail l2 -> url_lt u (a_URL a)).
Proof.
  intros Hs. destruct (Search_list_spec (fun a => 0 <=? URL_Cmp (a_URL a) u) l) as (l1 & l2 & E & En & H1 & H2).
  { eapply StronglySorted_weaken; [|exact Hs]. intros x y Hxy. cbn beta. rewrite !url_ge. intros [<-|Hx]; [by right|]. right. by transitivity (a_URL x). }
  exists l1, l2. split_and!; [done|done| | |].
  - eapply Forall_impl; [exact H1|]. intros a. cbn beta. apply url_lt_leb.
  - intros a Ha. apply url_ge. by apply (H2 a).
  - intros a Ha. destruct l2 as [|b l2]; [by apply elem_of_nil in Ha|]. specialize (H2 b eq_refl). cbn beta in H2. apply url_ge in H2. rewrite E in Hs. apply StronglySorted_app_1_r, StronglySorted_cons in Hs as [Hs _]. rewrite Forall_forall in Hs. specialize (Hs a Ha). destruct H2 as [<-|]; [done|]. by transitivity (a_URL b).
Qed.

Lemma removeAccount_app l1 l2 a : a ∉ l1 -> removeAccount (l1 ++ a :: l2) a = l1 ++ l2.
Proof.
  induction l1 as [|b l1 IH]; cbn [removeAccount app]; intros Hn; [by rewrite bool_decide_true|]. apply not_elem_of_cons in Hn as [Hb Hn]. rewrite bool_decide_false by done. by rewrite IH.
Qed.
Lemma removeAccount_absent l a : a ∉ l -> removeAccount l a = l.
Proof. induction l as [|b l IH]; [done|]. intros Hn. apply not_elem_of_cons in Hn as [Hb Hn]. cbn [removeAccount]. rewrite bool_decide_false by done. by rewrite IH. Qed.
Lemma removeAccount_perm l a : a ∈ l -> l ≡ₚ a :: removeAccount l a.
Proof.
  induction l as [|b l IH]; intros Hin; [by apply elem_of_nil in Hin|]. cbn [removeAccount]. case_bool_decide as E; [by subst|]. apply elem_of_cons in Hin as [->|Hin]; [done|]. rewrite (IH Hin) at 1. constructor.
Qed.

Lemma accounts_of_insert ac all m addr l addr' : accounts_of (with_index ac all (<[addr := l]> m)) addr' = if bool_decide (addr = addr') then l else default [] (m !! addr').
Proof. unfold accounts_of. cbn [byAddr with_index]. case_bool_decide as E; [subst; by rewrite lookup_insert_eq|by rewrite lookup_insert_ne]. Qed.

(** The index after an account is added or removed. *)
Lemma index_add ac l1 l2 a : (forall addr, accounts_of ac addr ≡ₚ filter (fun b => a_Address b = addr) (l1 ++ l2)) -> (forall addr, byAddr ac !! addr <> Some []) ->
  let ac' := with_index ac (l1 ++ a :: l2) (<[a_Address a := accounts_of ac (a_Address a) ++ [a]]> (byAddr ac)) in
  (forall addr, accounts_of ac' addr ≡ₚ filter (fun b => a_Address b = addr) (l1 ++ a :: l2)) /\ (forall addr, byAddr ac' !! addr <> Some []).
Proof.
  intros Hi Hf ac'. split; intros addr; unfold ac'.
  - rewrite accounts_of_insert. rewrite (filter_Permutation _ (l1 ++ a :: l2) (a :: l1 ++ l2)) by (symmetry; apply Permutation_middle). rewrite filter_cons. case_bool_decide as E; case_decide as E'; try congruence; [|apply Hi].
    rewrite Permutation_app_comm. cbn [app]. constructor. subst. apply Hi.
  - cbn [byAddr with_index]. destruct (decide (a_Address a = addr)) as [<-|Hn]; [rewrite lookup_insert_eq; by destruct (accounts_of ac (a_Address a))|rewrite lookup_insert_ne by done; apply Hf].
Qed.
Lemma index_remove ac l1 l2 a : (forall addr, accounts_of ac addr ≡ₚ filter (fun b => a_Address b = addr) (l1 ++ a :: l2)) -> (forall addr, byAddr ac !! addr <> Some []) ->
  let ac' := with_index ac (l1 ++ l2) (remove_by_address ac a) in
  (forall addr, accounts_of ac' addr ≡ₚ filter (fun b => a_Address b = addr) (l1 ++ l2)) /\ (forall addr, byAddr ac' !! addr <> Some []).
Proof.
  intros Hi Hf ac'. assert (Hp : forall addr, accounts_of ac addr ≡ₚ filter (fun b => a_Address b = addr) (a :: l1 ++ l2)) by (intros addr; rewrite Hi; apply filter_Permutation; symmetry; apply Permutation_middle).
  assert (Ha : removeAccount (accounts_of ac (a_Address a)) a ≡ₚ filter (fun b => a_Address b = a_Address a) (l1 ++ l2)).
  { pose proof (Hp (a_Address a)) as H. rewrite filter_cons_True in H by done. apply (Permutation_cons_inv (a := a)). rewrite <- H. symmetry. apply removeAccount_perm. rewrite H. left. }
  split; intros addr; unfold ac', remove_by_address.
  - case_bool_decide as Eb; (destruct (decide (a_Address a = addr)) as [<-|Hn]; [|specialize (Hp addr); rewrite filter_cons_False in Hp by done]).
    + unfold accounts_of. cbn [byAddr with_index]. rewrite lookup_delete_eq. rewrite Eb in Ha. exact Ha.
    + unfold accounts_of in *. cbn [byAddr with_index]. by rewrite lookup_delete_ne.
    + rewrite accounts_of_insert, bool_decide_true by done. exact Ha.
    + rewrite accounts_of_insert, bool_decide_false by done. exact Hp.
  - case_bool_decide as Eb; cbn [byAddr with_index]; destruct (decide (a_Address a = addr)) as [<-|Hn].
    + by rewrite lookup_delete_eq.
    + rewrite lookup_delete_ne by done. apply Hf.
    + rewrite lookup_insert_eq. by intros [= E].
    + rewrite lookup_insert_ne by done. apply Hf.
Qed.

Lemma sorted_remove l1 l2 (a : Account) : StronglySorted account_lt (l1 ++ a :: l2) ->
  StronglySorted account_lt (l1 ++ l2) /\ (forall b, b ∈ l1 ++ l2 <-> b ∈ l1 ++ a :: l2 /\ b <> a).
Proof.
  intros Hs. pose proof (sorted_nodup _ Hs) as Hn. apply StronglySorted_app in Hs as (H1 & H2 & H3). apply StronglySorted_cons in H3 as [H3 H4]. split; [apply StronglySorted_app_2; [|done|done]; intros x y Hx Hy; apply H1; [done|by right]|].
  apply NoDup_app in Hn as (_ & Hn1 & Hn2). apply NoDup_cons in Hn2 as [Hn2 _]. intros b. rewrite !elem_of_app, elem_of_cons. split; [|naive_solver]. intros [Hb|Hb]; (split; [naive_solver|]); intros ->; [|done]. apply (Hn1 _ Hb). left.
Qed.

(** Adding an account, when no other has its URL. *)
Lemma cache_add_spec ac a : cache_ok ac -> u_Scheme (a_URL a) = KeyStoreScheme -> (forall b, b ∈ ac_all ac -> a_URL b = a_URL a -> b = a) ->
  cache_ok (cache_add ac a) /\ forall b, b ∈ ac_all (cache_add ac a) <-> b = a \/ b ∈ ac_all ac.
Proof.
  intros [Hs Hsch Hi Hf] Ha Hu. unfold cache_add. destruct (account_split (ac_all ac) (a_URL a) Hs) as (l1 & l2 & E & En & H1 & H2 & H3). rewrite En. cbv zeta.
  case_bool_decide as Eb; [split; [done|]; intros b; split; [by right|]; intros [->|]; [|done]; by eapply list_elem_of_lookup_2|].
  rewrite E in Hs, Hsch, Hi, Hu, Eb |- *. rewrite take_app_length, drop_app_length. rewrite lookup_app_r, Nat.sub_diag in Eb by lia.
  assert (H4 : forall b, b ∈ l2 -> url_lt (a_URL a) (a_URL b)).
  { intros b Hb. destruct l2 as [|c l2]; [by apply elem_of_nil in Hb|]. apply elem_of_cons in Hb as [->|Hb]; [|by apply H3]. destruct (H2 c eq_refl) as [Ec|]; [|done]. destruct Eb. cbn. f_equal. apply Hu; [apply elem_of_app; right; left|done]. }
  destruct (index_add ac l1 l2 a Hi Hf) as [H5 H6]. split; [|intros b; cbn [ac_all with_index]; rewrite !elem_of_app, elem_of_cons; naive_solver]. split; [| |done|done]; cbn [ac_all with_index].
  - apply StronglySorted_app in Hs as (H7 & H8 & H9). rewrite Forall_forall in H1. apply StronglySorted_app_2; [|done|]. + intros x y Hx. rewrite elem_of_cons. intros [->|Hy]; [by apply H1|by apply H7]. + constructor; [done|]. apply Forall_forall. exact H4.
  - apply Forall_app in Hsch as [? ?]. apply Forall_app. split; [done|by constructor].
Qed.

Lemma cache_delete_spec ac a : cache_ok ac -> cache_ok (cache_delete ac a) /\ forall b, b ∈ ac_all (cache_delete ac a) <-> b ∈ ac_all ac /\ b <> a.
Proof.
  intros [Hs Hsch Hi Hf]. destruct (decide (a ∈ ac_all ac)) as [Hin|Hn].
  - apply list_elem_of_split in Hin as (l1 & l2 & E). unfold cache_delete. rewrite E in *. destruct (sorted_remove l1 l2 a Hs) as [H1 H2].
    assert (Hn : a ∉ l1) by (pose proof (sorted_nodup _ Hs) as Hd; apply NoDup_app in Hd as (_ & Hd & _); intros Hx; apply (Hd _ Hx); left). rewrite (removeAccount_app l1 l2 a Hn). destruct (index_remove ac l1 l2 a Hi Hf) as [H3 H4].
    split; [|exact H2]. split; [done| |done|done]. apply Forall_app in Hsch as [? Hsch]. apply Forall_cons in Hsch as [_ ?]. by apply Forall_app.
  - unfold cache_delete. rewrite (removeAccount_absent _ a Hn). assert (Ha : removeAccount (accounts_of ac (a_Address a)) a = accounts_of ac (a_Address a)) by (apply removeAccount_absent; rewrite Hi, list_elem_of_filter; tauto).
    split; [|cbn; intros b; split; [intros Hb; split; [done|by intros ->]|tauto]]. split; [done|done| |].
    + intros addr. cbn [ac_all with_index]. rewrite <- Hi. unfold remove_by_address. rewrite Ha. case_bool_decide as E.
      * unfold accounts_of in *. cbn [byAddr with_index]. destruct (decide (a_Address a = addr)) as [<-|]; [by rewrite lookup_delete_eq, E|by rewrite lookup_delete_ne].
      * rewrite accounts_of_insert. case_bool_decide; [by subst|done].
    + intros addr. unfold remove_by_address. cbn [byAddr with_index]. rewrite Ha. case_bool_decide as E; (destruct (decide (a_Address a = addr)) as [<-|]; [|rewrite ?lookup_delete_ne, ?lookup_insert_ne by done; apply Hf]); [by rewrite lookup_delete_eq|rewrite lookup_insert_eq; congruence].
Qed.

Lemma deleteByFile_spec ac path : cache_ok ac -> cache_ok (deleteByFile ac path) /\ forall b, b ∈ ac_all (deleteByFile ac path) <-> b ∈ ac_all ac /\ u_Path (a_URL b) <> path.
Proof.
  intros Hok. pose proof Hok as [Hs Hsch Hi Hf]. unfold deleteByFile.
  rewrite (Search_list_ext _ (fun a => 0 <=? URL_Cmp (a_URL a) (keystore_URL path))) by (eapply Forall_impl; [exact Hsch|]; intros a Ea; unfold URL_Cmp; cbn [u_Scheme u_Path keystore_URL]; by rewrite bool_decide_true).
  assert (Hu : forall b, b ∈ ac_all ac -> u_Path (a_URL b) = path <-> a_URL b = keystore_URL path).
  { intros b Hb. rewrite Forall_forall in Hsch. specialize (Hsch b Hb). destruct (a_URL b) as [x y]. cbn in *. subst x. unfold keystore_URL. split; [by intros ->|by intros [= ->]]. }
  destruct (account_split (ac_all ac) (keystore_URL path) Hs) as (l1 & l2 & E & En & H1 & H2 & H3). rewrite En. cbv zeta. rewrite Forall_forall in H1.
  assert (Hl1 : forall b, b ∈ l1 -> a_URL b <> keystore_URL path) by (intros b Hb Eb; apply (url_lt_irrefl (keystore_URL path)); rewrite <- Eb at 1; by apply H1).
  assert (Hl2 : forall b, b ∈ tail l2 -> a_URL b <> keystore_URL path) by (intros b Hb Eb; apply (url_lt_irrefl (keystore_URL path)); rewrite <- Eb at 2; by apply H3).
  assert (Hno : (forall b, b ∈ ac_all ac -> u_Path (a_URL b) <> path) -> cache_ok ac /\ forall b, b ∈ ac_all ac <-> b ∈ ac_all ac /\ u_Path (a_URL b) <> path) by (intros Hall; split; [done|]; intros b; split; [by auto|tauto]).
  assert (Hlook : ac_all ac !! length l1 = head l2) by (rewrite E, lookup_app_r, Nat.sub_diag by lia; by destruct l2). rewrite Hlook. destruct l2 as [|c l2]; cbn [head tail] in *.
  - apply Hno. intros b Hb. rewrite Hu by done. apply Hl1. by rewrite E, app_nil_r in Hb.
  - assert (Hc : c ∈ ac_all ac) by (rewrite E; apply elem_of_app; right; left). case_bool_decide as Eb.
    + rewrite E in Hs, Hi, Hsch. destruct (index_remove ac l1 l2 c Hi Hf) as [H5 H6]. destruct (sorted_remove l1 l2 c Hs) as [H7 H8].
      assert (El : take (length l1) (ac_all ac) ++ drop (length l1 + 1) (ac_all ac) = l1 ++ l2) by (rewrite E, take_app_length, <- drop_drop, drop_app_length; done). rewrite El. split.
      * split; [done| |done|done]. apply Forall_app in Hsch as [? Hsch]. apply Forall_cons in Hsch as [_ ?]. by apply Forall_app.
      * intros b. cbn [ac_all with_index]. rewrite H8, <- E. split; intros [Hb Hn]; (split; [done|]); [|by intros ->]. rewrite Hu by done. intros Eu. apply Hn. apply (url_unique (ac_all ac)); [by rewrite E|done|done|]. rewrite Eu. symmetry. by apply Hu.
    + apply Hno. intros b Hb Ep. apply Hu in Ep as Ep'; [|done]. rewrite E in Hb. apply elem_of_app in Hb as [Hb|Hb]; [by apply (Hl1 b)|]. apply elem_of_cons in Hb as [->|Hb]; [done|by apply (Hl2 b)].
Qed.

(** The account that a file holds has its path. *)
Lemma readAccount_URL fs path a : readAccount fs path = Some a -> a_URL a = keystore_URL path /\ a_Address a <> zero_address.
Proof.
  unfold readAccount. destruct (fs !! path) as [text|]; [|done]. cbn [mbind option_bind]. destruct (first_value text) as [j|]; [|done]. cbn [mbind option_bind]. destruct (jdecode _ _ j) as [v st]. destruct v; try done. destruct fields as [|v [|]]; try done. destruct st; try done.
  destruct (HexToAddress (txt v)) as [addr|]; [|done]. cbn [mbind option_bind]. case_bool_decide; [done|]. by intros [= <-].
Qed.

(** The loops of a scan. *)
Lemma add_files fs ps : forall ac, cache_ok ac -> (forall p b, p ∈ ps -> b ∈ ac_all ac -> u_Path (a_URL b) = p -> readAccount fs p = Some b) ->
  let ac' := foldl (add_file fs) ac ps in cache_ok ac' /\ forall b, b ∈ ac_all ac' <-> b ∈ ac_all ac \/ exists p, p ∈ ps /\ readAccount fs p = Some b.
Proof.
  induction ps as [|p ps IH]; intros ac Hok Hp; [split; [done|]; intros b; split; [by left|]; intros [|(? & H%elem_of_nil & _)]; done|]. cbn [foldl].
  assert (H1 : cache_ok (add_file fs ac p) /\ forall b, b ∈ ac_all (add_file fs ac p) <-> b ∈ ac_all ac \/ readAccount fs p = Some b).
  { unfold add_file. destruct (readAccount fs p) as [a|] eqn:E; [|split; [done|]; intros b; split; [by left|]; by intros [|]]. apply readAccount_URL in E as Eu. destruct Eu as [Eu _]. destruct (cache_add_spec ac a Hok) as [H1 H2]; [by rewrite Eu| |split; [done|intros b; rewrite H2; split; [intros [->|]; [by right|by left]|intros [|[= ->]]; [by right|by left]]]].
    intros b Hb Eb. specialize (Hp p b ltac:(left) Hb). rewrite Eb, Eu, E in Hp. specialize (Hp eq_refl). congruence. }
  destruct H1 as [H1 H2]. destruct (IH (add_file fs ac p) H1) as [H3 H4]; [|split; [done|]; intros b; rewrite H4, H2; setoid_rewrite elem_of_cons; naive_solver].
  intros q b Hq Hb Eb. apply H2 in Hb as [Hb|Hb]; [by apply Hp; [right|..]|]. apply readAccount_URL in Hb as Hb'. destruct Hb' as [Hb' _]. rewrite Hb' in Eb. cbn in Eb. by subst.
Qed.
Lemma delete_files ps : forall ac, cache_ok ac -> let ac' := foldl deleteByFile ac ps in cache_ok ac' /\ forall b, b ∈ ac_all ac' <-> b ∈ ac_all ac /\ u_Path (a_URL b) ∉ ps.
Proof.
  induction ps as [|p ps IH]; intros ac Hok; [split; [done|]; intros b; cbn; split; [intros; split; [done|apply not_elem_of_nil]|tauto]|]. cbn [foldl]. destruct (deleteByFile_spec ac p Hok) as [H1 H2]. destruct (IH _ H1) as [H3 H4]. split; [done|]. intros b. rewrite H4, H2, not_elem_of_cons. tauto.
Qed.
Lemma update_files fs ps : forall ac, cache_ok ac -> let ac' := foldl (update_file fs) ac ps in
  cache_ok ac' /\ forall b, b ∈ ac_all ac' <-> (b ∈ ac_all ac /\ u_Path (a_URL b) ∉ ps) \/ exists p, p ∈ ps /\ readAccount fs p = Some b.
Proof.
  induction ps as [|p ps IH]; intros ac Hok; [split; [done|]; intros b; cbn; split; [intros; left; split; [done|apply not_elem_of_nil]|intros [[]|(? & H%elem_of_nil & _)]; done]|]. cbn [foldl]. destruct (deleteByFile_spec ac p Hok) as [H1 H2].
  destruct (add_files fs [p] (deleteByFile ac p) H1) as [H3 H4]; [intros q b Hq%list_elem_of_singleton Hb Eb; subst; by apply H2 in Hb as [_ []]|]. cbn [foldl] in H3, H4. fold (update_file fs ac p) in H3, H4. setoid_rewrite list_elem_of_singleton in H4.
  destruct (IH _ H3) as [H5 H6]. split; [done|]. intros b. rewrite H6, H4, H2, not_elem_of_cons. setoid_rewrite elem_of_cons. split.
  - intros [[[[Hb Hn]|(q & -> & Hq)] Hps]|(q & Hq & Er)]; [by left|right; by exists p; split; [left|]|right; by exists q; split; [right|]].
  - intros [(Hb & Hn & Hps)|(q & [->|Hq] & Er)]; [by left; split; [left|]| |by right; exists q]. destruct (decide (p ∈ ps)) as [Hin|Hin]; [by right; exists p|]. left. split; [by right; exists p|]. apply readAccount_URL in Er as [Er _]. by rewrite Er.
Qed.

(** What the loops leave alone. *)
Definition cache_frame (ac : accountCache) := (keydir ac, w_starting ac, w_running ac, throttle ac, ac_notify ac, fileC ac).
Lemma foldl_frame (f : accountCache -> list Z -> accountCache) ps : (forall ac p, cache_frame (f ac p) = cache_frame ac) -> forall ac, cache_frame (foldl f ac ps) = cache_frame ac.
Proof. intros Hf. induction ps as [|p ps IH]; intros ac; [done|]. cbn [foldl]. by rewrite IH. Qed.
Lemma add_frame fs ac p : cache_frame (add_file fs ac p) = cache_frame ac.
Proof. unfold add_file. destruct (readAccount fs p); [|done]. unfold cache_add. by case_bool_decide. Qed.
Lemma delete_frame ac p : cache_frame (deleteByFile ac p) = cache_frame ac.
Proof. unfold deleteByFile. destruct (_ !! _); [|done]. by case_bool_decide. Qed.
Lemma update_frame fs ac p : cache_frame (update_file fs ac p) = cache_frame ac.
Proof. unfold update_file. by rewrite add_frame, delete_frame. Qed.

(** ** Scans *)

(** The directory lists a key file at the path, modified at the time. *)
Definition key_file (dir : list Z) (infos : list FileInfo) (path : list Z) (mtime : Z) : Prop :=
  exists fi, fi ∈ infos /\ nonKeyFile fi = false /\ filepath_Join dir (fi_Name fi) = path /\ fi_ModTime fi = mtime.

Lemma scan_file_spec dir lastMod infos : forall all mods newest all' mods' newest',
  foldl (scan_file dir lastMod) (all, mods, newest) infos = (all', mods', newest') ->
  (forall p, p ∈ all' <-> p ∈ all \/ exists m, key_file dir infos p m) /\ (forall p, p ∈ mods' <-> p ∈ mods \/ exists m, key_file dir infos p m /\ lastMod < m) /\
  newest <= newest' /\ (forall p m, key_file dir infos p m -> m <= newest').
Proof.
  assert (Hcons : forall fi infos p m, key_file dir (fi :: infos) p m <-> (nonKeyFile fi = false /\ filepath_Join dir (fi_Name fi) = p /\ fi_ModTime fi = m) \/ key_file dir infos p m).
  { intros fi infos' p m. unfold key_file. setoid_rewrite elem_of_cons. split; [intros (f & [->|Hf] & H); [by left|by right; exists f]|intros [H|(f & Hf & H)]; [exists fi; by split; [left|]|exists f; by split; [right|]]]. }
  induction infos as [|fi infos IH]; intros all mods newest all' mods' newest'; [cbn; intros [= <- <- <-]; unfold key_file; setoid_rewrite elem_of_nil; split_and!; [naive_solver|naive_solver|lia|naive_solver]|]. cbn [foldl scan_file].
  setoid_rewrite Hcons. destruct (nonKeyFile fi) eqn:Ek; [intros E; apply IH in E as (H1 & H2 & H3 & H4); split_and!; [intros p; rewrite H1; naive_solver|intros p; rewrite H2; naive_solver|done|intros p m [(? & _)|]; [done|by apply (H4 p)]]|].
  intros E. apply IH in E as (H1 & H2 & H3 & H4). split_and!.
  - intros p. rewrite H1, elem_of_union, elem_of_singleton. naive_solver.
  - intros p. rewrite H2. destruct (Z.ltb_spec lastMod (fi_ModTime fi)); [rewrite elem_of_union, elem_of_singleton; naive_solver|]. split; [naive_solver|]. intros [|(m & [(_ & _ & <-)|] & ?)]; [by left|lia|by right; exists m].
  - destruct (Z.ltb_spec newest (fi_ModTime fi)); lia.
  - intros p m [(_ & _ & <-)|Hk]; [destruct (Z.ltb_spec newest (fi_ModTime fi)); lia|by apply (H4 p)].
Qed.

(** The cache holds the accounts of the key files of a directory, and knows the
    files and the newest of their times. *)
Record snapshot (ac : accountCache) (infos : list FileInfo) (fs : files) : Prop := {
  snap_ok : cache_ok ac;
  snap_accounts : forall b, b ∈ ac_all ac <-> exists p m, key_file (keydir ac) infos p m /\ readAccount fs p = Some b;
  snap_files : forall p, p ∈ fc_all (fileC ac) <-> exists m, key_file (keydir ac) infos p m;
  snap_newest : forall p m, key_file (keydir ac) infos p m -> m <= fc_lastMod (fileC ac)
}.

Section tracking.
  Context (ToSlice : paths -> list (list Z)) (ToSlice_spec : forall s x, x ∈ ToSlice s <-> x ∈ s).

(** What a scan leaves in the cache. *)
Lemma scanAccounts_spec ac infos fs : cache_ok ac ->
  (forall b m, b ∈ ac_all ac -> u_Path (a_URL b) ∉ fc_all (fileC ac) -> key_file (keydir ac) infos (u_Path (a_URL b)) m -> readAccount fs (u_Path (a_URL b)) = Some b) ->
  exists ac', scanAccounts ToSlice ac (Some infos) fs = (ac', true) /\ cache_ok ac' /\ keydir ac' = keydir ac /\
    (forall p, p ∈ fc_all (fileC ac') <-> exists m, key_file (keydir ac) infos p m) /\ (forall p m, key_file (keydir ac) infos p m -> m <= fc_lastMod (fileC ac')) /\
    (forall b, b ∈ ac_all ac' <->
       (exists p m, key_file (keydir ac) infos p m /\ (p ∉ fc_all (fileC ac) \/ fc_lastMod (fileC ac) < m) /\ readAccount fs p = Some b) \/
       (b ∈ ac_all ac /\ (u_Path (a_URL b) ∈ fc_all (fileC ac) -> (exists m, key_file (keydir ac) infos (u_Path (a_URL b)) m) /\ forall m, key_file (keydir ac) infos (u_Path (a_URL b)) m -> m <= fc_lastMod (fileC ac)))).
Proof.
  intros Hok Hadd. unfold scanAccounts, scan. destruct (foldl _ _ infos) as [[all mods] newest] eqn:Es. destruct (scan_file_spec _ _ _ _ _ _ _ _ _ Es) as (H1 & H2 & _ & H4). cbn iota beta.
  assert (H1' : forall p, p ∈ all <-> exists m, key_file (keydir ac) infos p m) by (intros p; rewrite H1; set_solver). assert (H2' : forall p, p ∈ mods <-> exists m, key_file (keydir ac) infos p m /\ fc_lastMod (fileC ac) < m) by (intros p; rewrite H2; set_solver). clear H1 H2.
  set (creates := all ∖ fc_all (fileC ac)). set (deletes := fc_all (fileC ac) ∖ all). set (updates := mods ∖ creates). set (fc := MkFileCache all newest).
  set (ac0 := MkCache (keydir ac) (w_starting ac) (w_running ac) (ac_all ac) (byAddr ac) (throttle ac) (ac_notify ac) fc).
  assert (Hok0 : cache_ok ac0) by (destruct Hok; by split).
  destruct (add_files fs (ToSlice creates) ac0 Hok0) as [K1 K2]; [intros p b Hp Hb Ep; subst p; apply ToSlice_spec, elem_of_difference in Hp as [Hp Hn]; apply H1' in Hp as [m Hp]; by eapply Hadd|]. cbv zeta in *.
  set (ac1 := foldl (add_file fs) ac0 (ToSlice creates)) in *. destruct (delete_files (ToSlice deletes) ac1 K1) as [K3 K4]. cbv zeta in *. set (ac2 := foldl deleteByFile ac1 (ToSlice deletes)) in *.
  destruct (update_files fs (ToSlice updates) ac2 K3) as [K5 K6]. cbv zeta in *. set (ac3 := foldl (update_file fs) ac2 (ToSlice updates)) in *.
  assert (Hfr : cache_frame ac3 = cache_frame ac0) by (unfold ac3, ac2, ac1; rewrite (foldl_frame _ _ (update_frame fs)), (foldl_frame _ _ delete_frame), (foldl_frame _ _ (add_frame fs)); done). unfold cache_frame in Hfr. injection Hfr as F1 F2 F3 F4 F5 F6.
  assert (Hmem : forall b, b ∈ ac_all ac3 <->
       (exists p m, key_file (keydir ac) infos p m /\ (p ∉ fc_all (fileC ac) \/ fc_lastMod (fileC ac) < m) /\ readAccount fs p = Some b) \/
       (b ∈ ac_all ac /\ (u_Path (a_URL b) ∈ fc_all (fileC ac) -> (exists m, key_file (keydir ac) infos (u_Path (a_URL b)) m) /\ forall m, key_file (keydir ac) infos (u_Path (a_URL b)) m -> m <= fc_lastMod (fileC ac)))).
  { intros b. rewrite K6, K4, K2. setoid_rewrite ToSlice_spec. change (ac_all ac0) with (ac_all ac).
    assert (HC : forall p, p ∈ creates <-> (exists m, key_file (keydir ac) infos p m) /\ p ∉ fc_all (fileC ac)) by (intros p; unfold creates; by rewrite elem_of_difference, H1').
    assert (HD : forall p, p ∈ deletes <-> p ∈ fc_all (fileC ac) /\ ~ exists m, key_file (keydir ac) infos p m) by (intros p; unfold deletes; by rewrite elem_of_difference, H1').
    assert (HU : forall p, p ∈ updates <-> p ∈ fc_all (fileC ac) /\ exists m, key_file (keydir ac) infos p m /\ fc_lastMod (fileC ac) < m).
    { intros p. unfold updates. rewrite elem_of_difference, HC, H2'. destruct (decide (p ∈ fc_all (fileC ac))); [naive_solver|]. split; [intros [(m & Hm & _) []]; by split; [exists m|]|by intros [? _]]. }
    split.
    - intros [(([Hb|(p & Hp & Er)] & Hd) & Hu)|(p & Hp & Er)].
      + right. split; [done|]. intros Hin. split; [apply H1', dec_stable; intros Hx; apply Hd, HD; split; [done|]; by rewrite <- H1'|]. intros m Hm. apply Z.le_ngt. intros Hlt. apply Hu, HU. split; [done|by exists m].
      + left. apply HC in Hp as [[m Hm] Hn]. exists p, m. auto.
      + left. apply HU in Hp as [Hp (m & Hm & Hlt)]. exists p, m. auto.
    - intros [(p & m & Hm & Hc & Er)|[Hb Hk]].
      + pose proof (readAccount_URL _ _ _ Er) as [Eu _]. destruct (decide (p ∈ fc_all (fileC ac))) as [Hin|Hn]; [right; exists p; split; [|done]; apply HU; split; [done|]; exists m; split; [done|]; by destruct Hc|].
        left. rewrite Eu. cbn [u_Path keystore_URL]. split; [split; [right; exists p; split; [|done]; apply HC; split; [by exists m|done]|]|]; [intros [? _]%HD|intros [? _]%HU]; done.
      + left. split; [split; [by left|]|]; [intros [Hin Hx]%HD; apply Hx; by apply Hk|intros [Hin (m & Hm & Hlt)]%HU; destruct (Hk Hin) as [_ Hk']; specialize (Hk' m Hm); lia]. }
  case_bool_decide as E1; [case_bool_decide as E2; [case_bool_decide as E3|]|]; cbn [andb].
  1: { exists ac0. split_and!; [done|done|done|exact H1'|exact H4|]. intros b. rewrite <- Hmem. unfold ac3, ac2, ac1. rewrite E1, E2, E3. assert (Hnil : ToSlice ∅ = []) by (destruct (ToSlice ∅) as [|x l] eqn:Ex; [done|]; assert (Hx : x ∈ ToSlice ∅) by (rewrite Ex; left); by apply ToSlice_spec, elem_of_empty in Hx). by rewrite Hnil. }
  all: exists (MkCache (keydir ac3) (w_starting ac3) (w_running ac3) (ac_all ac3) (byAddr ac3) (throttle ac3) (match ac_notify ac3 with Some _ => Some true | None => None end) (fileC ac3)); cbn [keydir fileC ac_all]; rewrite F1, F6; (split_and!; [done|destruct K5; by split|done|exact H1'|exact H4|exact Hmem]).
Qed.

Lemma newer_or_not dir infos p t : (exists m, key_file dir infos p m /\ t < m) \/ (forall m, key_file dir infos p m -> m <= t).
Proof.
  destruct (decide (Exists (fun fi => nonKeyFile fi = false /\ filepath_Join dir (fi_Name fi) = p /\ t < fi_ModTime fi) infos)) as [He|Hn].
  - left. apply Exists_exists in He as (fi & H1 & H2 & H3 & H4). exists (fi_ModTime fi). split; [by exists fi|done].
  - right. intros m (fi & H1 & H2 & H3 & <-). apply Z.le_ngt. intros Hlt. apply Hn, Exists_exists. by exists fi.
Qed.

(** Accounts that are on disk are added as their files are. *)
Lemma add_on_disk fs added : forall ac, Forall (fun a => readAccount fs (u_Path (a_URL a)) = Some a) added -> foldl cache_add ac added = foldl (add_file fs) ac (map (fun a => u_Path (a_URL a)) added).
Proof. induction added as [|a added IH]; intros ac Hf; [done|]. apply Forall_cons in Hf as [Ha Hf]. cbn [foldl map]. rewrite (IH _ Hf). f_equal. unfold add_file. by rewrite Ha. Qed.

(** The first scan. *)
Lemma scan_first dir infos fs : exists ac', scanAccounts ToSlice (newAccountCache dir) (Some infos) fs = (ac', true) /\ snapshot ac' infos fs.
Proof.
  destruct (scanAccounts_spec (newAccountCache dir) infos fs) as (ac' & E & H1 & H2 & H3 & H4 & H5); [split; [constructor|constructor|done|done]|by intros b m Hb%elem_of_nil|].
  exists ac'. split; [done|]. cbn [keydir newAccountCache] in *. split; rewrite ?H2; [done| |done|done]. intros b. rewrite H5. split; [intros [(p & m & Hk & _ & Er)|[Hb%elem_of_nil _]]; [by exists p, m|done]|]. intros (p & m & Hk & Er). left. exists p, m. split; [done|]. split; [|done]. left. cbn. set_solver.
Qed.

(** C14: Scans keep the cache equal to the directory.  The first scan loads the
    accounts of exactly the key files that hold one.  A later scan, after keys were
    added to the cache and stored, and after any files were created, deleted or
    rewritten, loads the accounts of the new contents, as long as a file that was
    known and holds another account is newer than all files of the last scan.  A
    directory that cannot be read leaves the cache as it is. *)
Theorem scan_tracks :
  (forall dir infos fs, exists ac', scanAccounts ToSlice (newAccountCache dir) (Some infos) fs = (ac', true) /\ snapshot ac' infos fs) /\
  (forall ac infos fs infos' fs' added, snapshot ac infos fs ->
     Forall (fun a => readAccount fs' (u_Path (a_URL a)) = Some a /\ (exists m, key_file (keydir ac) infos' (u_Path (a_URL a)) m) /\ ~ exists m, key_file (keydir ac) infos (u_Path (a_URL a)) m) added ->
     (forall p m, key_file (keydir ac) infos p m -> (forall m', key_file (keydir ac) infos' p m' -> m' <= fc_lastMod (fileC ac)) -> readAccount fs' p = readAccount fs p) ->
     exists ac', scanAccounts ToSlice (foldl cache_add ac added) (Some infos') fs' = (ac', true) /\ snapshot ac' infos' fs') /\
  (forall ac fs, scanAccounts ToSlice ac None fs = (ac, false)).
Proof.
  split_and!.
  - apply scan_first.
  - intros ac infos fs infos' fs' added [Hok Ha Hf Hm] Hadd Hsame.
    assert (Hdisk : Forall (fun a => readAccount fs' (u_Path (a_URL a)) = Some a) added) by (eapply Forall_impl; [exact Hadd|]; by intros a [? _]). rewrite (add_on_disk fs' _ _ Hdisk). rewrite Forall_forall in Hadd, Hdisk.
    assert (Hold : forall b, b ∈ ac_all ac -> exists m, key_file (keydir ac) infos (u_Path (a_URL b)) m) by (intros b Hb; apply Ha in Hb as (p & m & Hk & Er); apply readAccount_URL in Er as [-> _]; by exists m).
    destruct (add_files fs' (map (fun a => u_Path (a_URL a)) added) ac Hok) as [K1 K2].
    { intros p b Hp Hb Eb. apply list_elem_of_fmap in Hp as (a & -> & Hin). destruct (Hadd a Hin) as (_ & _ & []). rewrite <- Eb. by apply Hold. }
    cbv zeta in *. set (ac1 := foldl (add_file fs') ac _) in *. pose proof (foldl_frame _ (map (fun a => u_Path (a_URL a)) added) (add_frame fs') ac) as Hfr. fold ac1 in Hfr. unfold cache_frame in Hfr. injection Hfr as F1 _ _ _ _ F6.
    assert (K3 : forall b, b ∈ ac_all ac1 <-> b ∈ ac_all ac \/ b ∈ added).
    { intros b. rewrite K2. split; (intros [Hb|Hb]; [by left|right]).
      - destruct Hb as (p & Hp & Er). apply list_elem_of_fmap in Hp as (a & -> & Hin). rewrite (Hdisk a Hin) in Er. by injection Er as <-.
      - exists (u_Path (a_URL b)). split; [apply list_elem_of_fmap; by exists b|by apply Hdisk]. }
    destruct (scanAccounts_spec ac1 infos' fs' K1) as (ac' & E & H1 & H2 & H3 & H4 & H5).
    { intros b m Hb Hn Hk. rewrite F6 in Hn. apply K3 in Hb as [Hb|Hb]; [|by apply Hdisk]. destruct Hn. by apply Hf, Hold. }
    exists ac'. split; [done|]. rewrite F1 in *. rewrite F6 in *. split; rewrite ?H2, ?F1; [done| |done|done]. intros b. rewrite H5. split.
    + intros [(p & m & Hk & _ & Er)|[Hb Hkeep]]; [by exists p, m|]. apply K3 in Hb as [Hb|Hb]; [|destruct (Hadd b Hb) as (Er & [m Hk] & _); by exists (u_Path (a_URL b)), m].
      destruct (proj1 (Ha b) Hb) as (p & m & Hk & Er). pose proof (readAccount_URL _ _ _ Er) as [Eu _]. rewrite Eu in Hkeep. destruct Hkeep as [[m' Hk'] Hle]; [apply Hf; by exists m|]. exists p, m'. split; [done|]. by rewrite (Hsame p m Hk Hle).
    + intros (p & m' & Hk' & Er). pose proof (readAccount_URL _ _ _ Er) as [Eu _]. destruct (decide (p ∈ fc_all (fileC ac))) as [Hin|Hn]; [|left; exists p, m'; auto]. destruct (newer_or_not (keydir ac) infos' p (fc_lastMod (fileC ac))) as [(m2 & Hk2 & Hlt)|Hle]; [left; exists p, m2; auto|].
      right. rewrite Eu. cbn [u_Path keystore_URL]. split; [|intros _; split; [by exists m'|done]]. apply K3. left. apply Ha. destruct (proj1 (Hf p) Hin) as [m Hk]. exists p, m. split; [done|]. by rewrite <- (Hsame p m Hk Hle).
  - done.
Qed.

(** An account that was added and whose file is gone before the next scan is never
    dropped, and a file rewritten with the time of the newest one keeps its old
    account. *)
Theorem scan_stale ac infos fs b : cache_ok ac -> b ∈ ac_all ac ->
  (forall c m, c ∈ ac_all ac -> u_Path (a_URL c) ∉ fc_all (fileC ac) -> key_file (keydir ac) infos (u_Path (a_URL c)) m -> readAccount fs (u_Path (a_URL c)) = Some c) ->
  (u_Path (a_URL b) ∉ fc_all (fileC ac) \/ ((exists m, key_file (keydir ac) infos (u_Path (a_URL b)) m) /\ forall m, key_file (keydir ac) infos (u_Path (a_URL b)) m -> m <= fc_lastMod (fileC ac))) ->
  b ∈ ac_all (fst (scanAccounts ToSlice ac (Some infos) fs)).
Proof.
  intros Hok Hb Hadd Hc. destruct (scanAccounts_spec ac infos fs Hok Hadd) as (ac' & -> & _ & _ & _ & _ & H). cbn [fst]. apply H. right. split; [done|]. intros Hin. by destruct Hc.
Qed.
End tracking.

(** ** Looking accounts up *)

Lemma insert_account_perm a l : insert_account a l ≡ₚ a :: l.
Proof. induction l as [|b l IH]; [done|]. cbn [insert_account]. destruct (AccountsByURL_Less b a); [|done]. rewrite IH. constructor. Qed.
Lemma sort_accounts_perm l : sort_accounts l ≡ₚ l.
Proof. induction l as [|a l IH]; [done|]. cbn. rewrite insert_account_perm. by constructor. Qed.
Lemma insert_account_sorted a l : StronglySorted account_lt l -> (forall b, b ∈ l -> a_URL b <> a_URL a) -> StronglySorted account_lt (insert_account a l).
Proof.
  induction 1 as [|b l Hs IH Hb]; intros Hn; [by repeat constructor|]. cbn [insert_account]. unfold AccountsByURL_Less. destruct (Z.ltb_spec (URL_Cmp (a_URL b) (a_URL a)) 0) as [Hlt|Hge].
  - constructor; [apply IH; intros c Hc; apply Hn; by right|]. rewrite insert_account_perm. by constructor.
  - assert (Hab : account_lt a b) by (destruct (url_cases (a_URL a) (a_URL b)) as [|[E|Hl]]; [done|by destruct (Hn b ltac:(left))|unfold url_lt in Hl; lia]). constructor; [by constructor|]. constructor; [done|]. eapply Forall_impl; [exact Hb|]. intros c. by apply account_lt_trans.
Qed.
Lemma sort_accounts_sorted l : NoDup (map a_URL l) -> StronglySorted account_lt (sort_accounts l).
Proof.
  induction l as [|a l IH]; cbn [map]; intros Hn; [constructor|]. apply NoDup_cons in Hn as [Ha Hn]. cbn. apply insert_account_sorted; [by apply IH|]. intros b Hb. rewrite sort_accounts_perm in Hb. intros E. apply Ha. rewrite <- E. by apply list_elem_of_fmap_2.
Qed.
Lemma sorted_urls l : StronglySorted account_lt l -> NoDup (map a_URL l).
Proof. induction 1 as [|a l _ IH Ha]; cbn [map]; constructor; [|done]. intros (b & E & Hb)%list_elem_of_fmap. rewrite Forall_forall in Ha. apply (url_lt_irrefl (a_URL a)). rewrite E at 2. by apply Ha. Qed.
Lemma filter_sorted (P : Account -> Prop) `{forall a, Decision (P a)} l : StronglySorted account_lt l -> StronglySorted account_lt (filter P l).
Proof.
  induction 1 as [|a l _ IH Ha]; [constructor|]. rewrite filter_cons. case_decide; [|done]. constructor; [done|]. rewrite Forall_forall in Ha. apply Forall_forall. intros b [_ Hb]%list_elem_of_filter. by apply Ha.
Qed.

(** The accounts a search may resolve to. *)
Definition candidate (a b : Account) : Prop := a_Address a = zero_address \/ a_Address b = a_Address a.
#[export] Instance candidate_dec a b : Decision (candidate a b).
Proof. unfold candidate. apply _. Defined.
Definition completed (ac : accountCache) (a : Account) : URL := MkURL (u_Scheme (a_URL a)) (completed_path (keydir ac) (u_Path (a_URL a))).

Definition find_matches (ac : accountCache) (a : Account) : list Account := if bool_decide (a_Address a = zero_address) then ac_all ac else accounts_of ac (a_Address a).
Lemma find_matches_perm ac a : cache_ok ac -> find_matches ac a ≡ₚ filter (candidate a) (ac_all ac).
Proof.
  intros Hok. unfold find_matches. case_bool_decide as E.
  - symmetry. induction (ac_all ac) as [|b l IH]; [done|]. rewrite filter_cons_True by (by left). by constructor.
  - rewrite (ok_index ac Hok). erewrite list_filter_iff; [done|]. intros b. unfold candidate. tauto.
Qed.
(** Sorting what matches gives the order of the cache. *)
Lemma sort_matches ac a l : cache_ok ac -> l ≡ₚ filter (candidate a) (ac_all ac) -> sort_accounts l = filter (candidate a) (ac_all ac).
Proof.
  intros Hok Hl. pose proof (filter_sorted (candidate a) _ (ok_sorted ac Hok)) as Hs. apply (strict_unique account_lt); [intros b; apply url_lt_irrefl|apply _| |done|].
  - apply sort_accounts_sorted. rewrite Hl. by apply sorted_urls.
  - intros b. by rewrite sort_accounts_perm, Hl.
Qed.

Lemma by_count_spec addr all : let R := match all with [m] => inr m | [] => inl ErrNoMatch | _ => inl (AmbiguousAddrError addr all) end in
  (forall b, R = inr b <-> all = [b]) /\ (forall addr' ms, R = inl (AmbiguousAddrError addr' ms) <-> addr' = addr /\ ms = all /\ (2 <= length ms)%nat) /\ (R = inl ErrNoMatch <-> all = []).
Proof. destruct all as [|x [|y l]]; cbn; split_and!; intros; split; intros; try naive_solver; destruct_and?; subst; cbn in *; try lia; try done. injection H as <- <-. split_and!; [done|done|cbn; lia]. Qed.

(** C18: What a search of the cache resolves to.  An account is returned exactly when
    it has the completed URL that was asked for, or when it is the only one of the
    address (the only one at all, for a search that names neither); several
    candidates are reported in the order of their URLs; everything else is no
    match.  A URL that matches nothing does not matter when the address has a
    single account. *)
Theorem find_resolves ac a : cache_ok ac ->
  let all := filter (candidate a) (ac_all ac) in
  let by_url := u_Path (a_URL a) <> [] in
  let by_count := u_Path (a_URL a) = [] \/ a_Address a <> zero_address in
  let none := Forall (fun b => a_URL b <> completed ac a) all in
  (forall b, cache_find ac a = inr b <-> b ∈ all /\ ((by_url /\ a_URL b = completed ac a) \/ (by_count /\ all = [b]))) /\
  (forall addr ms, cache_find ac a = inl (AmbiguousAddrError addr ms) <-> addr = a_Address a /\ ms = all /\ (2 <= length ms)%nat /\ by_count /\ (by_url -> none)) /\
  (cache_find ac a = inl ErrNoMatch <-> (all = [] \/ ~ by_count) /\ (by_url -> none)).
Proof.
  intros Hok all by_url by_count none. pose proof (find_matches_perm ac a Hok) as Hp. fold all in Hp. pose proof (sort_matches ac a (find_matches ac a) Hok Hp) as Hsort. fold all in Hsort.
  assert (Hc : (match find_matches ac a with [m] => inr m | [] => inl ErrNoMatch | _ => inl (AmbiguousAddrError (a_Address a) (sort_accounts (find_matches ac a))) end) =
               (match all with [m] => inr m | [] => inl ErrNoMatch | _ => inl (AmbiguousAddrError (a_Address a) all) end)).
  { rewrite Hsort. destruct (find_matches ac a) as [|x [|y l]]; [by apply Permutation_nil_l in Hp as <-|by apply Permutation_singleton_l in Hp as <-|]. apply Permutation_length in Hp. destruct all as [|x' [|y' l']]; cbn in Hp; [lia|lia|done]. }
  assert (Hu : forall b c, b ∈ all -> c ∈ all -> a_URL b = a_URL c -> b = c) by (intros b c; apply url_unique, filter_sorted, Hok).
  assert (Hfind : match List.find (fun m => bool_decide (a_URL m = completed ac a)) (find_matches ac a) with Some m => m ∈ all /\ a_URL m = completed ac a | None => none end).
  { destruct (List.find _ _) as [m|] eqn:E; [apply find_some in E as [E1 E2]; apply bool_decide_eq_true in E2; apply list_elem_of_In in E1; rewrite Hp in E1; done|]. apply Forall_forall. intros b Hb. rewrite <- Hp in Hb. apply list_elem_of_In in Hb. by specialize (find_none _ _ E b Hb) as Hx%bool_decide_eq_false. }
  unfold cache_find. cbv zeta. fold (find_matches ac a). fold (completed ac a). rewrite Hc. clear Hc.
  destruct (by_count_spec (a_Address a) all) as (C1 & C2 & C3). set (R := match all with [m] => inr m | [] => _ | _ => _ end) in *.
  case_bool_decide as Ep; [|destruct (List.find _ _) as [m|]; [|case_bool_decide as Ea]].
  - assert (Hbc : by_count) by (by left). assert (Hbu : ~ by_url) by (unfold by_url; tauto). split_and!; [intros b; rewrite C1|intros addr ms; rewrite C2|rewrite C3].
    + split; [intros E; split; [rewrite E; left|by right]|by intros [_ [[? _]|[_ ?]]]].
    + split; [intros (? & ? & ?); by split_and!|tauto].
    + tauto.
  - destruct Hfind as [Hm Em]. assert (Hx : ~ none) by (unfold none; rewrite Forall_forall; intros Hx; by apply (Hx m)). assert (Hbu : by_url) by done. split_and!; [intros b|intros addr ms|]; [split|by split; [|tauto]|by split; [|tauto]].
    + intros [= <-]. split; [done|by left].
    + intros [Hb [[_ Eb]|[_ Eb]]]; f_equal; [by apply Hu; [..|congruence]|]. rewrite Eb in Hm. by apply list_elem_of_singleton in Hm.
  - assert (Hbc : ~ by_count) by (unfold by_count; tauto). pose proof Hfind as Hno. unfold none in Hno. rewrite Forall_forall in Hno. split_and!; [intros b|intros addr ms|]; [split; [done|]|by split; [|tauto]|by split; [auto|]]. intros [Hb [[_ Eb]|[? _]]]; [by destruct (Hno b Hb)|done].
  - assert (Hbc : by_count) by (by right). split_and!; [intros b; rewrite C1|intros addr ms; rewrite C2|rewrite C3].
    + split; [intros E; split; [rewrite E; left|by right]|intros [Hb [[_ Eb]|[_ ?]]]; [unfold none in Hfind; rewrite Forall_forall in Hfind; by destruct (Hfind b Hb)|done]].
    + split; [intros (? & ? & ?); by split_and!|tauto].
    + tauto.
Qed.

(** ** Paths *)

(** Names of files. *)
Definition file_name (s : list Z) : Prop := s <> [] /\ s <> str "." /\ s <> str ".." /\ 47 ∉ s.
Lemma clean_names rooted es : forall out, Forall file_name es -> clean_elements rooted out es = reverse out ++ es.
Proof.
  induction es as [|e es IH]; intros out He; [by rewrite app_nil_r|]. apply Forall_cons in He as [(H1 & H2 & H3 & _) He]. cbn [clean_elements]. rewrite !bool_decide_false by done. cbn [orb]. rewrite (IH _ He), reverse_cons. by rewrite <- app_assoc.
Qed.
(** The directory of names, joined with a name. *)
Lemma Join_name es name : es <> [] -> Forall file_name es -> file_name name ->
  filepath_Join (str "/" ++ join (str "/") es) name = (str "/" ++ join (str "/") es) ++ str "/" ++ name.
Proof.
  intros Hn He Hname. assert (Hall : Forall file_name (es ++ [name])) by (apply Forall_app; by split; [|constructor]).
  assert (Ej : forall es, es <> [] -> join [47] es ++ 47 :: name = join [47] (es ++ [name])).
  { clear. intros es. induction es as [|e es IH]; intros Hn; [done|]. destruct es as [|e' es]; [done|]. change (join [47] (e :: e' :: es)) with (e ++ [47] ++ join [47] (e' :: es)). change (join [47] ((e :: e' :: es) ++ [name])) with (e ++ [47] ++ join [47] ((e' :: es) ++ [name])). rewrite <- !app_assoc. do 2 f_equal. by apply IH. }
  unfold filepath_Join. change (str "/") with [47] in *. cbn [app]. rewrite bool_decide_false by done. rewrite (Ej es Hn).
  assert (Es : 47 :: join [47] (es ++ [name]) = join [47] ([] :: es ++ [name])) by (destruct es; [done|]; done).
  unfold filepath_Clean. rewrite bool_decide_false by done. change (str "/") with [47]. unfold has_prefix. rewrite bool_decide_true by done. unfold strings_Split. rewrite Es, split_joined; [|constructor; [apply not_elem_of_nil|]; eapply Forall_impl; [exact Hall|]; by intros e (_ & _ & _ & ?)|lia]. cbn [app clean_elements]. rewrite bool_decide_true by done. cbn [orb]. rewrite clean_names by done. done.
Qed.

(** The watcher scans after every change: a pending scan has its timer. *)
Lemma watcher_pending ToSlice w evs : rescanTriggered w = debounce w -> ws_done w = false ->
  let w' := foldl (watcher_loop ToSlice) w evs in
  (ws_done w' = false -> rescanTriggered w' = debounce w' /\ debounce (watcher_loop ToSlice w' WFile) = true /\
     forall ReadDir fs, ws_cache (watcher_loop ToSlice (watcher_loop ToSlice w' WFile) (WDebounce ReadDir fs)) = fst (scanAccounts ToSlice (ws_cache w') ReadDir fs)) /\
  (ws_done w' = true -> w_running (ws_cache w') = false /\ w_starting (ws_cache w') = false).
Proof.
  intros Hr Hd. cbv zeta.
  assert (H : let w' := foldl (watcher_loop ToSlice) w evs in if ws_done w' then w_running (ws_cache w') = false /\ w_starting (ws_cache w') = false else rescanTriggered w' = debounce w').
  { cbv zeta. assert (Hw : if ws_done w then w_running (ws_cache w) = false /\ w_starting (ws_cache w) = false else rescanTriggered w = debounce w) by (by rewrite Hd). clear Hr Hd. revert w Hw. induction evs as [|ev evs IH]; intros w Hw; [done|]. cbn [foldl]. apply IH. unfold watcher_loop. destruct (ws_done w) eqn:E; [by rewrite E|]. destruct ev; [done| |].
    - destruct (rescanTriggered w) eqn:Et; [by rewrite E, Et|done].
    - destruct (debounce w) eqn:Ed; [done|by rewrite E, Ed]. }
  cbv zeta in H. set (w' := foldl _ w evs) in *. destruct (ws_done w') eqn:E; split; try done. intros _. split; [done|]. unfold watcher_loop. rewrite E. destruct (rescanTriggered w') eqn:Et; [rewrite E, <- H|]; cbn; done.
Qed.

(** ** Samples *)

Definition sample_file (name : string) (mtime : Z) : FileInfo := MkFileInfo (str name) false false mtime.
Definition sample_key (hex : string) : list Z := str "{" ++ 34 :: str "address" ++ 34 :: str ":" ++ 34 :: str hex ++ 34 :: str "}".
Definition sample_fs : files := {[ str "/k/a" := sample_key "01"; str "/k/b" := sample_key "02"; str "/k/.c" := sample_key "03" ]}.
Definition sample_infos : list FileInfo := [sample_file ".c" 5; sample_file "a" 6; sample_file "b" 7].
Definition sample_cache : accountCache := fst (scanAccounts elements (newAccountCache (str "/k")) (Some sample_infos) sample_fs).
Definition sample_account (n : Z) (path : string) : Account := MkAccount (be_bytes 20 n) (keystore_URL (str path)).
Example sample_accounts : ac_all sample_cache = [sample_account 1 "/k/a"; sample_account 2 "/k/b"].
Proof. vm_compute. reflexivity. Qed.

Lemma sample_snapshot : snapshot sample_cache sample_infos sample_fs.
Proof. destruct (scan_first elements (fun s x => elem_of_elements s x) (str "/k") sample_infos sample_fs) as (ac & E & Hs). unfold sample_cache. rewrite E. cbn [fst]. exact Hs. Qed.
Lemma scan_tracks_witness : exists ac', scanAccounts elements (newAccountCache (str "/k")) (Some sample_infos) sample_fs = (ac', true) /\ snapshot ac' sample_infos sample_fs.
Proof. destruct (scan_tracks elements (fun s x => elem_of_elements s x)) as [H _]. apply H. Defined.
Lemma sample_cache_ok : cache_ok (cache_add (newAccountCache (str "/k")) (sample_account 4 "/k/d")).
Proof. apply cache_add_spec; [split; [constructor|constructor|done|done]|done|]. intros b Hb%elem_of_nil. done. Qed.
(** A key that was added and whose file is gone stays. *)
Lemma scan_stale_witness : sample_account 4 "/k/d" ∈ ac_all (fst (scanAccounts elements (cache_add (newAccountCache (str "/k")) (sample_account 4 "/k/d")) (Some sample_infos) sample_fs)).
Proof.
  apply (scan_stale elements (fun s x => elem_of_elements s x)); [exact sample_cache_ok|vm_compute; left| |left; apply (bool_decide_unpack _); vm_compute; exact I].
  intros c m Hc _ (fi & Hfi & _ & Ej & _). assert (Ec : c = sample_account 4 "/k/d") by (by apply list_elem_of_singleton in Hc). subst c. exfalso.
  assert (Hx : Forall (fun fi => filepath_Join (str "/k") (fi_Name fi) <> str "/k/d") sample_infos) by (apply (bool_decide_unpack _); vm_compute; exact I). rewrite Forall_forall in Hx. exact (Hx fi Hfi Ej).
Defined.
Lemma find_resolves_witness : cache_find (cache_add (newAccountCache (str "/k")) (sample_account 4 "/k/d")) (MkAccount zero_address (keystore_URL (str "d"))) = inr (sample_account 4 "/k/d").
Proof. destruct (find_resolves _ (MkAccount zero_address (keystore_URL (str "d"))) sample_cache_ok) as [H _]. apply H. split; [vm_compute; left|left; split; [done|vm_compute; reflexivity]]. Defined.
