(* ===== verification/Unlock.v ===== *)
(** * Unlocked keys

    The keys that src/accounts/keystore/keystore.go holds decrypted: TimedUnlock
    after the key was decrypted, Lock, and the goroutines that expire a key, as
    steps that interleave with each other and with time. *)

From Stdlib Require Import String.
From stdpp Require Import list gmap relations.
From S2P Require Import Prelude GoText Crypto KeyFile.

(** The channel that ends the goroutine of a key: nil, open or closed. *)
Inductive abort_chan : Type := NoAbort | AbortOpen | AbortClosed.
Record unlocked : Type := MkUnlocked { un_Key : Key; un_abort : abort_chan }.

(** zeroKey wipes the words of the number. *)
Definition zeroKey (k : Key) : Key := MkKey (k_Id k) (k_Address k) (PrivKey 0 (key_pub (k_PrivateKey k))).

(** Pointers to unlocked keys are indices; a goroutine of expire has its address,
    its pointer and the time of its timer. *)
Record expiry : Type := MkExpiry { e_addr : list Z; e_unlocked : nat; e_deadline : Z }.
Record Locks : Type := MkLocks {
  l_unlocked : gmap (list Z) nat;
  l_objects : list unlocked;
  l_expiries : list expiry;
  l_now : Z
}.
Definition no_locks (now : Z) : Locks := MkLocks ∅ [] [] now.

Definition set_object (l : Locks) (id : nat) (u : unlocked) : Locks := MkLocks (l_unlocked l) (<[id := u]> (l_objects l)) (l_expiries l) (l_now l).

(** A new instance, with the goroutine of a timed one. *)
Definition install (l : Locks) (addr : list Z) (key : Key) (timeout : Z) : Locks :=
  let fresh := length (l_objects l) in
  if 0 <? timeout then
    MkLocks (<[addr := fresh]> (l_unlocked l)) (l_objects l ++ [MkUnlocked key AbortOpen]) (l_expiries l ++ [MkExpiry addr fresh (l_now l + timeout)]) (l_now l)
  else MkLocks (<[addr := fresh]> (l_unlocked l)) (l_objects l ++ [MkUnlocked key NoAbort]) (l_expiries l) (l_now l).
(** TimedUnlock under the mutex, for the decrypted key of the address.  [None]: a
    channel is closed twice. *)
Definition unlock_with (l : Locks) (addr : list Z) (key : Key) (timeout : Z) : option Locks :=
  match l_unlocked l !! addr with
  | None => Some (install l addr key timeout)
  | Some id =>
      match l_objects l !! id with
      | None => None
      | Some u =>
          match un_abort u with
          | NoAbort => Some l
          | AbortOpen => Some (install (set_object l id (MkUnlocked (un_Key u) AbortClosed)) addr key timeout)
          | AbortClosed => None
          end
      end
  end.

(** Lock calls expire with no time left. *)
Definition lock_address (l : Locks) (addr : list Z) : Locks :=
  match l_unlocked l !! addr with
  | Some id => MkLocks (l_unlocked l) (l_objects l) (l_expiries l ++ [MkExpiry addr id (l_now l)]) (l_now l)
  | None => l
  end.

(** What expire does when its timer fires. *)
Definition drop_key (l : Locks) (e : expiry) : Locks :=
  if bool_decide (l_unlocked l !! e_addr e = Some (e_unlocked e)) then
    match l_objects l !! e_unlocked e with
    | Some u => MkLocks (delete (e_addr e) (l_unlocked l)) (<[e_unlocked e := MkUnlocked (zeroKey (un_Key u)) (un_abort u)]> (l_objects l)) (l_expiries l) (l_now l)
    | None => l
    end
  else l.
Definition without (l : Locks) (i : nat) : Locks := MkLocks (l_unlocked l) (l_objects l) (delete i (l_expiries l)) (l_now l).

Definition unlocked_key (l : Locks) (addr : list Z) : option Key := id ← l_unlocked l !! addr; un_Key <$> l_objects l !! id.

(** The steps: a call of TimedUnlock or Lock, the end of a goroutine of expire, on
    its closed channel or on its timer, and time. *)
Inductive lock_event : Type :=
| EvUnlock (addr : list Z) (key : Key) (timeout : Z)
| EvLock (addr : list Z)
| EvAbort (e : expiry)
| EvTimer (e : expiry)
| EvTick (now : Z).

Inductive lock_step : Locks -> lock_event -> Locks -> Prop :=
| step_unlock l addr key timeout l' : unlock_with l addr key timeout = Some l' -> lock_step l (EvUnlock addr key timeout) l'
| step_lock l addr : lock_step l (EvLock addr) (lock_address l addr)
| step_abort l i e u : l_expiries l !! i = Some e -> l_objects l !! e_unlocked e = Some u -> un_abort u = AbortClosed -> lock_step l (EvAbort e) (without l i)
| step_timer l i e : l_expiries l !! i = Some e -> e_deadline e <= l_now l -> lock_step l (EvTimer e) (drop_key (without l i) e)
| step_tick l now : l_now l <= now -> lock_step l (EvTick now) (MkLocks (l_unlocked l) (l_objects l) (l_expiries l) now).

Inductive lock_run : Locks -> list lock_event -> Locks -> Prop :=
| run_nil l : lock_run l [] l
| run_cons l e l1 es l2 : lock_step l e l1 -> lock_run l1 es l2 -> lock_run l (e :: es) l2.

(** ** The invariant *)

Section unlocking.
  (** The keys that are given to TimedUnlock for an address. *)
  Context (good : list Z -> Key -> Prop).

Record locks_ok (l : Locks) : Prop := {
  lo_live : forall addr id, l_unlocked l !! addr = Some id -> exists u, l_objects l !! id = Some u /\ good addr (un_Key u) /\ un_abort u <> AbortClosed /\
    (un_abort u = AbortOpen -> exists d, MkExpiry addr id d ∈ l_expiries l);
  lo_inj : forall a b id, l_unlocked l !! a = Some id -> l_unlocked l !! b = Some id -> a = b;
  lo_expiries : forall e, e ∈ l_expiries l -> (e_unlocked e < length (l_objects l))%nat;
  lo_owner : forall e a, e ∈ l_expiries l -> l_unlocked l !! a = Some (e_unlocked e) -> a = e_addr e
}.
Definition event_ok (e : lock_event) : Prop := match e with EvUnlock addr key _ => good addr key | _ => True end.

Lemma no_locks_ok now : locks_ok (no_locks now).
Proof. split; cbn; intros; try done; set_solver. Qed.

Lemma live_index l addr id : locks_ok l -> l_unlocked l !! addr = Some id -> (id < length (l_objects l))%nat.
Proof. intros Hl Ha. destruct (lo_live l Hl addr id Ha) as (u & Hu & _). by eapply lookup_lt_Some. Qed.

(** A new pointer for an address, with the goroutine of a timed one. *)
Lemma install_ok l addr key timeout : good addr key ->
  (forall a id, a <> addr -> l_unlocked l !! a = Some id -> exists u, l_objects l !! id = Some u /\ good a (un_Key u) /\ un_abort u <> AbortClosed /\ (un_abort u = AbortOpen -> exists d, MkExpiry a id d ∈ l_expiries l)) ->
  (forall a b id, l_unlocked l !! a = Some id -> l_unlocked l !! b = Some id -> a = b) ->
  (forall e, e ∈ l_expiries l -> (e_unlocked e < length (l_objects l))%nat) ->
  (forall e a, e ∈ l_expiries l -> l_unlocked l !! a = Some (e_unlocked e) -> a = e_addr e) ->
  locks_ok (install l addr key timeout).
Proof.
  intros Hg Hlive Hinj Hexp Hown. set (fresh := length (l_objects l)). set (abort := if 0 <? timeout then AbortOpen else NoAbort). set (es := if 0 <? timeout then [MkExpiry addr fresh (l_now l + timeout)] else []).
  assert (Ei : install l addr key timeout = MkLocks (<[addr := fresh]> (l_unlocked l)) (l_objects l ++ [MkUnlocked key abort]) (l_expiries l ++ es) (l_now l)) by (unfold install, abort, es; destruct (0 <? timeout); [done|by rewrite app_nil_r]). rewrite Ei. clear Ei.
  assert (Hold : forall a id, a <> addr -> l_unlocked l !! a = Some id -> (id < fresh)%nat) by (intros a id Hn Ha; destruct (Hlive a id Hn Ha) as (u & Hu & _); by eapply lookup_lt_Some).
  assert (Hes : forall e, e ∈ es -> e = MkExpiry addr fresh (l_now l + timeout) /\ abort = AbortOpen) by (unfold es, abort; destruct (0 <? timeout); intros e He; [by apply list_elem_of_singleton in He|by apply elem_of_nil in He]).
  split; cbn [l_unlocked l_objects l_expiries].
  - intros a id Ha. destruct (decide (a = addr)) as [->|Hn].
    + rewrite lookup_insert_eq in Ha. injection Ha as <-. exists (MkUnlocked key abort). split; [by rewrite lookup_app_r, Nat.sub_diag by done|]. split; [done|]. split; [unfold abort; by destruct (0 <? timeout)|]. cbn. intros Eab. exists (l_now l + timeout). apply elem_of_app. right. unfold es, abort in *. destruct (0 <? timeout); [left|done].
    + rewrite lookup_insert_ne in Ha by done. destruct (Hlive a id Hn Ha) as (u & Hu & H1 & H2 & H3). exists u. split; [rewrite lookup_app_l; [done|by eapply lookup_lt_Some]|]. split_and!; [done|done|]. intros Eab. destruct (H3 Eab) as [d Hd]. exists d. apply elem_of_app. by left.
  - intros a b id Ha Hb. destruct (decide (a = addr)) as [->|Hna], (decide (b = addr)) as [->|Hnb]; [done| | |].
    + rewrite lookup_insert_eq in Ha. rewrite lookup_insert_ne in Hb by done. injection Ha as <-. specialize (Hold b fresh Hnb Hb). lia.
    + rewrite lookup_insert_eq in Hb. rewrite lookup_insert_ne in Ha by done. injection Hb as <-. specialize (Hold a fresh Hna Ha). lia.
    + rewrite lookup_insert_ne in Ha, Hb by done. by eapply Hinj.
  - intros e He. rewrite length_app. cbn [length]. apply elem_of_app in He as [He|He]; [specialize (Hexp e He); lia|]. apply Hes in He as [-> _]. cbn. unfold fresh. lia.
  - intros e a He Ha. apply elem_of_app in He as [He|He].
    + destruct (decide (a = addr)) as [->|Hn]; [rewrite lookup_insert_eq in Ha; injection Ha as Ha; specialize (Hexp e He); unfold fresh in Ha; lia|]. rewrite lookup_insert_ne in Ha by done. by apply Hown.
    + apply Hes in He as [-> _]. cbn in *. destruct (decide (a = addr)) as [->|Hn]; [done|]. rewrite lookup_insert_ne in Ha by done. specialize (Hold a _ Hn Ha). lia.
Qed.

Lemma elem_of_delete {A} (l : list A) i e x : l !! i = Some e -> x ∈ delete i l <-> exists j, j <> i /\ l !! j = Some x.
Proof.
  intros Hi. rewrite list_elem_of_lookup. split.
  - intros [j Hj]. destruct (Nat.lt_ge_cases j i) as [Hlt|Hge]; [rewrite list_lookup_delete_lt in Hj by done; exists j; split; [lia|done]|rewrite list_lookup_delete_ge in Hj by done; exists (S j); split; [lia|done]].
  - intros (j & Hn & Hj). destruct (Nat.lt_ge_cases j i) as [Hlt|Hge]; [exists j; by rewrite list_lookup_delete_lt|]. exists (j - 1)%nat. rewrite list_lookup_delete_ge by lia. by replace (S (j - 1)) with j by lia.
Qed.
Lemma delete_sub {A} (l : list A) i e x : l !! i = Some e -> x ∈ delete i l -> x ∈ l.
Proof. intros Hi (j & _ & Hj)%(elem_of_delete l i e x Hi). by eapply list_elem_of_lookup_2. Qed.
Lemma delete_keeps {A} (l : list A) i e x : l !! i = Some e -> x ∈ l -> x <> e -> x ∈ delete i l.
Proof. intros Hi [j Hj]%list_elem_of_lookup Hn. apply (elem_of_delete l i e x Hi). exists j. split; [congruence|done]. Qed.

Lemma unlock_with_ok l addr key timeout : locks_ok l -> good addr key -> exists l', unlock_with l addr key timeout = Some l' /\ locks_ok l'.
Proof.
  intros Hl Hg. pose proof Hl as [Hlive Hinj Hexp Hown]. unfold unlock_with.
  destruct (l_unlocked l !! addr) as [id|] eqn:Ea.
  - destruct (Hlive addr id Ea) as (u & Eu & Hgu & Hcl & Hexpu). rewrite Eu. destruct (un_abort u) eqn:Eab; [by exists l| |done]. eexists. split; [done|]. apply install_ok; cbn [set_object l_unlocked l_objects l_expiries l_now]; [done| |done|by rewrite length_insert|done].
    intros a id' Hn Ha. destruct (Hlive a id' Ha) as (u' & Eu' & H'). exists u'. split; [|done]. rewrite list_lookup_insert_ne; [done|]. intros ->. apply Hn. by eapply Hinj.
  - eexists. split; [done|]. apply install_ok; [done| |done|done|done]. intros a id' _ Ha. by apply Hlive.
Qed.

Lemma lock_address_ok l addr : locks_ok l -> locks_ok (lock_address l addr).
Proof.
  intros Hl. unfold lock_address. destruct (l_unlocked l !! addr) as [id|] eqn:Ea; [|done]. pose proof (live_index l addr id Hl Ea) as Hid. destruct Hl as [Hlive Hinj Hexp Hown]. split; cbn [l_unlocked l_objects l_expiries]; [|done| |].
  - intros a i Hi. destruct (Hlive a i Hi) as (u & H1 & H2 & H3 & H4). exists u. split_and!; [done..|]. intros Eab. destruct (H4 Eab) as [d Hd]. exists d. apply elem_of_app. by left.
  - intros e [He| ->%list_elem_of_singleton]%elem_of_app; [by apply Hexp|done].
  - intros e a [He| ->%list_elem_of_singleton]%elem_of_app Ha; [by apply Hown|]. cbn in *. by eapply Hinj.
Qed.

Lemma without_ok l i e : locks_ok l -> l_expiries l !! i = Some e -> l_unlocked l !! e_addr e <> Some (e_unlocked e) -> locks_ok (without l i).
Proof.
  intros [Hlive Hinj Hexp Hown] Hi Hne. split; cbn [without l_unlocked l_objects l_expiries]; [|done| |].
  - intros a id Ha. destruct (Hlive a id Ha) as (u & H1 & H2 & H3 & H4). exists u. split_and!; [done..|]. intros Eab. destruct (H4 Eab) as [d Hd]. exists d. apply (delete_keeps _ i e); [done|done|]. intros <-. by apply Hne.
  - intros e' He'. apply Hexp. by eapply delete_sub.
  - intros e' a He'. apply Hown. by eapply delete_sub.
Qed.
Lemma drop_key_ok l i e : locks_ok l -> l_expiries l !! i = Some e -> locks_ok (drop_key (without l i) e) /\ l_unlocked (drop_key (without l i) e) !! e_addr e <> Some (e_unlocked e).
Proof.
  intros Hl Hi. unfold drop_key. cbn [without l_unlocked l_objects]. case_bool_decide as Ea; [|split; [by eapply without_ok|done]].
  destruct Hl as [Hlive Hinj Hexp Hown]. destruct (Hlive _ _ Ea) as (u & Eu & _). rewrite Eu. split; [|cbn; by rewrite lookup_delete_eq]. split; cbn [l_unlocked l_objects l_expiries].
  - intros a id Ha. apply lookup_delete_Some in Ha as [Hn Ha]. destruct (Hlive a id Ha) as (u' & H1 & H2 & H3 & H4). assert (Hid : id <> e_unlocked e) by (intros ->; apply Hn; by eapply Hinj). exists u'. split_and!; [by rewrite list_lookup_insert_ne|done|done|]. intros Eab. destruct (H4 Eab) as [d Hd]. exists d. apply (delete_keeps _ i e); [done|done|]. by intros <-.
  - intros a b id Ha Hb. apply lookup_delete_Some in Ha as [_ Ha], Hb as [_ Hb]. by eapply Hinj.
  - intros e' He'. rewrite length_insert. apply Hexp. by eapply delete_sub.
  - intros e' a He' Ha. apply lookup_delete_Some in Ha as [_ Ha]. apply Hown; [|done]. by eapply delete_sub.
Qed.

Lemma lock_step_ok l e l' : locks_ok l -> event_ok e -> lock_step l e l' -> locks_ok l'.
Proof.
  intros Hl He Hs. inversion Hs; subst.
  - destruct (unlock_with_ok l addr key timeout Hl He) as (l2 & E & H2). congruence.
  - by apply lock_address_ok.
  - eapply without_ok; [done|done|]. intros Ha. destruct (lo_live _ Hl _ _ Ha) as (u' & Eu' & _ & Hc & _). congruence.
  - by apply drop_key_ok.
  - destruct Hl as [H1 H2 H3 H4]. by split.
Qed.
Lemma lock_run_ok l es l' : lock_run l es l' -> locks_ok l -> Forall event_ok es -> locks_ok l'.
Proof. induction 1 as [|l e l1 es l2 Hs _ IH]; intros Hl He; [done|]. apply Forall_cons in He as [He Hes]. apply IH; [by eapply lock_step_ok|done]. Qed.

(** C15: The keys that are held unlocked.  From the empty state, whatever calls of
    TimedUnlock and Lock, ends of goroutines and passing of time interleave: a key
    that is found for an address was decrypted for it and has not been wiped; no
    channel is closed twice; when a goroutine of expire (or a call of Lock, which
    waits for it) ends, the instance it was started for is not unlocked any more;
    an instance with a time limit has a goroutine that wipes it as soon as its
    timer fires. *)
Theorem unlocked_keys now es l : lock_run (no_locks now) es l -> Forall event_ok es ->
  (forall addr key, unlocked_key l addr = Some key -> good addr key) /\
  (forall addr key timeout, good addr key -> unlock_with l addr key timeout <> None) /\
  (forall e l', lock_step l (EvAbort e) l' \/ lock_step l (EvTimer e) l' -> l_unlocked l' !! e_addr e <> Some (e_unlocked e)) /\
  (forall addr id u, l_unlocked l !! addr = Some id -> l_objects l !! id = Some u -> un_abort u = AbortOpen ->
     exists e, e ∈ l_expiries l /\ e_addr e = addr /\ e_unlocked e = id /\
       forall t, l_now l <= t -> e_deadline e <= t -> exists l', lock_run l [EvTick t; EvTimer e] l' /\ unlocked_key l' addr = None /\ (un_Key <$> l_objects l' !! id) = Some (zeroKey (un_Key u))).
Proof.
  intros Hr He. pose proof (lock_run_ok _ _ _ Hr (no_locks_ok now) He) as Hl. split_and!.
  - intros addr key. unfold unlocked_key. destruct (l_unlocked l !! addr) as [id|] eqn:Ea; [|done]. cbn [mbind option_bind]. destruct (lo_live l Hl addr id Ea) as (u & -> & Hg & _). cbn. by intros [= <-].
  - intros addr key timeout Hg. by destruct (unlock_with_ok l addr key timeout Hl Hg) as (l' & -> & _).
  - intros e l' [Hs|Hs]; inversion Hs; subst; [|by apply drop_key_ok]. cbn. intros Ha. destruct (lo_live _ Hl _ _ Ha) as (u' & Eu' & _ & Hc & _). congruence.
  - intros addr id u Ha Hu Eab. destruct (lo_live l Hl addr id Ha) as (u' & Eu' & _ & _ & Hx). rewrite Hu in Eu'. injection Eu' as <-. destruct (Hx Eab) as [d Hd]. exists (MkExpiry addr id d). split_and!; [done..|]. intros t Ht Hdt. cbn [e_deadline] in Hdt. apply list_elem_of_lookup in Hd as [i Hi].
    eexists. split; [eapply run_cons; [by apply step_tick|]; eapply run_cons; [apply (step_timer _ i); [exact Hi|exact Hdt]|apply run_nil]|]. unfold drop_key, unlocked_key. cbn [without l_unlocked l_objects e_addr e_unlocked]. rewrite bool_decide_true by done. rewrite Hu. cbn [l_unlocked l_objects]. rewrite lookup_delete_eq. split; [done|]. rewrite list_lookup_insert_eq by (by eapply lookup_lt_Some). done.
Qed.

(** How long an instance stays. *)
Record stays (addr : list Z) (id : nat) (key : Key) (ab : abort_chan) (until : Z) (l : Locks) : Prop := {
  st_unlocked : l_unlocked l !! addr = Some id;
  st_object : l_objects l !! id = Some (MkUnlocked key ab);
  st_until : forall e, e ∈ l_expiries l -> e_addr e = addr -> e_unlocked e = id -> until <= e_deadline e
}.
Lemma lock_step_now l e l' : lock_step l e l' -> l_now l <= l_now l'.
Proof.
  intros Hs. inversion Hs as [? ? ? ? ? Hu| | | |]; subst; cbn; try lia.
  - unfold unlock_with in Hu. destruct (l_unlocked l !! addr) as [id|]; [destruct (l_objects l !! id) as [u|]; [destruct (un_abort u)|]; try done|]; injection Hu as <-; try lia; unfold install; destruct (0 <? timeout); cbn; lia.
  - unfold lock_address. destruct (l_unlocked l !! addr); cbn; lia.
  - unfold drop_key. case_bool_decide; [destruct (l_objects _ !! _)|]; cbn; lia.
Qed.
Lemma lock_run_now l es l' : lock_run l es l' -> l_now l <= l_now l'.
Proof. induction 1 as [|l e l1 es l2 Hs _ IH]; [lia|]. apply lock_step_now in Hs. lia. Qed.

Lemma install_stays l addr key timeout : (forall e, e ∈ l_expiries l -> (e_unlocked e < length (l_objects l))%nat) -> forall until, (0 < timeout -> until <= l_now l + timeout) ->
  stays addr (length (l_objects l)) key (if 0 <? timeout then AbortOpen else NoAbort) until (install l addr key timeout).
Proof.
  intros Hexp until Hu. unfold install. destruct (Z.ltb_spec 0 timeout) as [Ht|Ht]; split; cbn [l_unlocked l_objects l_expiries]; try (by rewrite lookup_insert_eq); try (by rewrite lookup_app_r, Nat.sub_diag by done).
  - intros e [He| ->%list_elem_of_singleton]%elem_of_app; [intros _ E; specialize (Hexp e He); lia|]. intros _ _. cbn. by apply Hu.
  - intros e He _ E. specialize (Hexp e He). lia.
Qed.

Lemma stays_step l e l' addr id key ab until : locks_ok l -> stays addr id key ab until l -> lock_step l e l' -> e <> EvLock addr ->
  (forall k t, e = EvUnlock addr k t -> ab = NoAbort) -> l_now l' < until ->
  stays addr id key ab until l'.
Proof.
  intros Hl [H1 H2 H3] Hs Hlock Hunl Hnow. pose proof (lookup_lt_Some _ _ _ H2) as Hlt. pose proof (lock_step_now _ _ _ Hs) as Hmono. assert (Hnow' : l_now l < until) by lia. clear Hnow Hmono. inversion Hs as [? a k t ? Hu|? a|? i x u Hi Hx Hc|? i x Hi Hd|? now Ht]; subst.
  - unfold unlock_with in Hu. destruct (decide (a = addr)) as [->|Hn].
    + rewrite H1, H2, (Hunl k t eq_refl) in Hu. injection Hu as <-. by split.
    + assert (Hinst : forall l0, l_unlocked l0 = l_unlocked l -> l_objects l0 !! id = Some (MkUnlocked key ab) -> l_expiries l0 = l_expiries l -> stays addr id key ab until (install l0 a k t)).
      { intros l0 E1 E2 E3. pose proof (lookup_lt_Some _ _ _ E2). unfold install. destruct (0 <? t); split; cbn [l_unlocked l_objects l_expiries]; rewrite ?E1, ?E3; try (by rewrite lookup_insert_ne); try (by rewrite lookup_app_l); [|done]. intros e [He| ->%list_elem_of_singleton]%elem_of_app; [by apply H3|done]. }
      destruct (l_unlocked l !! a) as [id'|] eqn:Ea; [|injection Hu as <-; by apply Hinst]. destruct (l_objects l !! id') as [u|] eqn:Eu; [|done]. destruct (un_abort u); [injection Hu as <-; by split| |done]. injection Hu as <-. apply Hinst; [done| |done]. cbn [set_object l_objects]. rewrite list_lookup_insert_ne; [done|]. intros ->. apply Hn. by eapply (lo_inj l Hl).
  - unfold lock_address. destruct (l_unlocked l !! a) as [id'|] eqn:Ea; [|by split]. split; cbn [l_unlocked l_objects l_expiries]; [done|done|]. intros e [He| ->%list_elem_of_singleton]%elem_of_app; [by apply H3|]. cbn. congruence.
  - split; [done|done|]. cbn. intros e He. apply H3. by eapply delete_sub.
  - unfold drop_key in *. cbn [without l_unlocked l_objects] in *. assert (Hin : x ∈ l_expiries l) by (by eapply list_elem_of_lookup_2).
    assert (Hne : e_unlocked x <> id). { intros E. assert (Ex : addr = e_addr x) by (apply (lo_owner l Hl x addr Hin); by rewrite E). specialize (H3 x Hin ltac:(done) E). lia. }
    case_bool_decide as Ea; [destruct (l_objects l !! e_unlocked x)|]; (split; cbn [l_unlocked l_objects l_expiries without]; [try done|try done|intros e He; apply H3; by eapply delete_sub]); [rewrite lookup_delete_ne; [done|]; intros <-; congruence|by rewrite list_lookup_insert_ne].
  - by split.
Qed.

Lemma stays_run l es l' addr id key ab until : lock_run l es l' -> locks_ok l -> Forall event_ok es -> stays addr id key ab until l ->
  Forall (fun e => e <> EvLock addr /\ forall k t, e = EvUnlock addr k t -> ab = NoAbort) es -> l_now l' < until -> stays addr id key ab until l'.
Proof.
  induction 1 as [|l e l1 es l2 Hs Hr IH]; intros Hl Hes Hst Hev Hnow; [done|]. apply Forall_cons in Hes as [He Hes]. apply Forall_cons in Hev as [[H1 H2] Hev]. pose proof (lock_run_now _ _ _ Hr). apply IH; [by eapply lock_step_ok|done| |done|done]. eapply stays_step; [exact Hl|done|done|done|done|lia].
Qed.

(** C17: An unlocked key stays for its time.  After TimedUnlock on an address that
    is not unlocked for good, the key is the one that signs for the address at any
    moment before the time is over (at any moment at all, without a time limit),
    whatever happens to other addresses and whichever older goroutines and calls
    end meanwhile, unless the address is locked or unlocked again; once it is
    unlocked for good, TimedUnlock changes nothing. *)
Theorem unlock_lasts l addr key timeout : locks_ok l -> good addr key ->
  (forall id u, l_unlocked l !! addr = Some id -> l_objects l !! id = Some u -> un_abort u <> NoAbort) ->
  exists l1, unlock_with l addr key timeout = Some l1 /\ l_now l1 = l_now l /\
    (forall es l2, lock_run l1 es l2 -> Forall event_ok es -> Forall (fun e => e <> EvLock addr /\ (0 < timeout -> forall k t, e <> EvUnlock addr k t)) es ->
       (0 < timeout -> l_now l2 < l_now l + timeout) -> unlocked_key l2 addr = Some key) /\
    (timeout <= 0 -> forall k t, unlock_with l1 addr k t = Some l1).
Proof.
  intros Hl Hg Hn. assert (Hi : exists l0, unlock_with l addr key timeout = Some (install l0 addr key timeout) /\ l_now l0 = l_now l /\ l_expiries l0 = l_expiries l /\ length (l_objects l0) = length (l_objects l)).
  { unfold unlock_with. destruct (l_unlocked l !! addr) as [id|] eqn:Ea; [|by exists l]. destruct (lo_live l Hl addr id Ea) as (u & Eu & _ & Hc & _). rewrite Eu. destruct (un_abort u) eqn:Eab; [by destruct (Hn id u eq_refl Eu)| |done]. eexists. split; [done|]. cbn. by rewrite length_insert. }
  destruct Hi as (l0 & E & En & Ee & Elen). destruct (unlock_with_ok l addr key timeout Hl Hg) as (l1 & E1 & Hl1). rewrite E in E1. injection E1 as E1. exists l1. rewrite E, E1. split; [done|].
  assert (Hnow : l_now l1 = l_now l) by (rewrite <- E1, <- En; unfold install; by destruct (0 <? timeout)). split; [done|].
  assert (Hst : forall until, (0 < timeout -> until <= l_now l + timeout) -> stays addr (length (l_objects l0)) key (if 0 <? timeout then AbortOpen else NoAbort) until l1).
  { intros lim Hu. rewrite <- E1. apply install_stays; [intros e He; rewrite Elen; apply (lo_expiries l Hl); by rewrite <- Ee|by rewrite En]. }
  split.
  - intros es l2 Hr Hes Hev Ht. set (until := if 0 <? timeout then l_now l + timeout else l_now l2 + 1).
    assert (Hs2 : stays addr (length (l_objects l0)) key (if 0 <? timeout then AbortOpen else NoAbort) until l2).
    { eapply stays_run; [exact Hr|done|done|apply Hst; unfold until; destruct (Z.ltb_spec 0 timeout); lia| |unfold until; destruct (Z.ltb_spec 0 timeout); lia]. eapply Forall_impl; [exact Hev|]. intros e [H1 H2]. split; [done|]. intros k t Ee'. destruct (Z.ltb_spec 0 timeout); [by destruct (H2 ltac:(done) k t)|done]. }
    unfold unlocked_key. rewrite (st_unlocked _ _ _ _ _ _ Hs2). cbn [mbind option_bind]. by rewrite (st_object _ _ _ _ _ _ Hs2).
  - intros Ht k t. destruct (Hst (l_now l) ltac:(lia)) as [S1 S2 _]. unfold unlock_with. rewrite S1, S2. cbn. destruct (Z.ltb_spec 0 timeout); [lia|done].
Qed.
End unlocking.

(** ** Samples *)

Definition sample_unlock_key (a : Z) : Key := MkKey [] [a] (PrivKey a (0, 0)).
Definition for_address (addr : list Z) (k : Key) : Prop := k_Address k = addr /\ key_D (k_PrivateKey k) <> 0.

(** Unlocked for 10, then for 30: the first goroutine ends on its closed channel. *)
Definition sample_lock_events : list lock_event := [EvUnlock [1] (sample_unlock_key 1) 10; EvTick 5; EvUnlock [1] (sample_unlock_key 1) 30; EvAbort (MkExpiry [1] 0 10); EvTick 20].
Definition sample_locks : Locks := MkLocks {[ [1] := 1%nat ]} [MkUnlocked (sample_unlock_key 1) AbortClosed; MkUnlocked (sample_unlock_key 1) AbortOpen] [MkExpiry [1] 1 35] 20.
Lemma sample_lock_run : lock_run (no_locks 0) sample_lock_events sample_locks.
Proof.
  eapply run_cons; [apply step_unlock; reflexivity|]. eapply run_cons; [by apply (step_tick _ 5)|]. eapply run_cons; [apply step_unlock; reflexivity|]. eapply run_cons; [eapply (step_abort _ 0); reflexivity|]. eapply run_cons; [by apply (step_tick _ 20)|]. apply run_nil.
Qed.
Lemma unlocked_keys_witness : for_address [1] (sample_unlock_key 1) /\ exists e l', lock_run sample_locks [EvTick 40; EvTimer e] l' /\ unlocked_key l' [1] = None.
Proof.
  destruct (unlocked_keys for_address 0 sample_lock_events sample_locks sample_lock_run) as (H1 & _ & _ & H4); [by repeat (apply Forall_cons_2; [done|])|]. split; [by apply H1|].
  destruct (H4 [1] 1%nat (MkUnlocked (sample_unlock_key 1) AbortOpen)) as (e & He & _ & _ & H5); [done|done|done|]. apply list_elem_of_singleton in He as ->. destruct (H5 40) as (l' & Hr & Hn & _); [done|done|]. by exists (MkExpiry [1] 1 35), l'.
Defined.
Lemma unlock_lasts_witness : exists l1, unlock_with (no_locks 0) [1] (sample_unlock_key 1) 10 = Some l1 /\ forall es l2, lock_run l1 (EvTick 5 :: es) l2 -> es = [] -> unlocked_key l2 [1] = Some (sample_unlock_key 1).
Proof.
  destruct (unlock_lasts for_address (no_locks 0) [1] (sample_unlock_key 1) 10 (no_locks_ok _ 0)) as (l1 & E & En & H & _); [done|done|]. exists l1. split; [done|]. intros es l2 Hr ->. apply (H _ _ Hr); [by repeat constructor|by repeat constructor|]. intros _. inversion Hr as [|? ? ? ? ? Hs Hr']; subst. inversion Hr'; subst. inversion Hs; subst. cbn. lia.
Defined.
