(* ===== verification/KeyStore.v ===== *)
(** * The keystore

    src/accounts/keystore/keystore.go and wallet.go over the cache of accounts, the
    key files and the unlocked keys: accounts are created, imported, updated,
    deleted and used to sign, and the wallets follow the accounts.  The keystore is
    written against an interface of storages, which the encrypted and the plain
    store implement. *)

From Stdlib Require Import String Sorting.Sorted.
From stdpp Require Import list strings sorting gmap.
From S2P Require Import Prelude RlpEncode Hexutil GoText GoSort Math Common Crypto Transaction Json JsonTypes GoCipher Accounts KeyFile Manager AccountCache Unlock.

#[local] Abbreviation files := (gmap (list Z) (list Z)).

(** ** key.go: the names of key files *)

(** [%0wd] of a number. *)
Definition pad_decimal (w : nat) (n : Z) : list Z :=
  let digits := FormatUint (Z.abs n) 10 in
  let sign := if n <? 0 then str "-" else [] in
  sign ++ replicate (w - length sign - length digits) 48 ++ digits.
Record Time : Type := MkTime { t_Year : Z; t_Month : Z; t_Day : Z; t_Hour : Z; t_Minute : Z; t_Second : Z; t_Nanosecond : Z; t_Zone : list Z; t_Offset : Z }.
Definition toISO8601 (t : Time) : list Z :=
  let tz := if bool_decide (t_Zone t = str "UTC") then str "Z" else pad_decimal 3 (Z.quot (t_Offset t) 3600) ++ str "00" in
  pad_decimal 4 (t_Year t) ++ str "-" ++ pad_decimal 2 (t_Month t) ++ str "-" ++ pad_decimal 2 (t_Day t) ++ str "T" ++ pad_decimal 2 (t_Hour t) ++ str "-" ++
  pad_decimal 2 (t_Minute t) ++ str "-" ++ pad_decimal 2 (t_Second t) ++ str "." ++ pad_decimal 9 (t_Nanosecond t) ++ tz.
(** [ts] is the time of the call in UTC. *)
Definition keyFileName (ts : Time) (keyAddr : list Z) : list Z := str "UTC--" ++ toISO8601 ts ++ str "--" ++ hex_Encode keyAddr.

(** ** The interface of storages *)

(** What StoreKey meets: the temporary file, whether it can be renamed, and the
    random salt and vector. *)
Record StoreEnv : Type := MkEnv { se_tmp : option (list Z); se_renames : bool; se_salt : list Z; se_iv : list Z }.
Class KeyStorage : Type := {
  st_GetKey : files -> list Z -> list Z -> list Z -> outcome key_error Key;
  st_StoreKey : files -> StoreEnv -> list Z -> Key -> list Z -> files * outcome key_error unit;
  st_JoinPath : list Z -> list Z;
  (** The parameters of scrypt of an encrypted store. *)
  st_scrypt : option (Z * Z)
}.
Definition JoinPath (dir filename : list Z) : list Z := if has_prefix filename (str "/") then filename else filepath_Join dir filename.

(** ** keystore.go *)

Record keystoreWallet : Type := MkWallet { kw_account : Account }.
#[export] Instance keystoreWallet_eq_dec : EqDecision keystoreWallet.
Proof. solve_decision. Defined.
Definition Wallet_Contains (w : keystoreWallet) (account : Account) : bool :=
  bool_decide (a_Address account = a_Address (kw_account w)) && (bool_decide (a_URL account = MkURL [] []) || bool_decide (a_URL account = a_URL (kw_account w))).
#[export] Instance keystoreWallet_wallet : Wallet keystoreWallet := {|
  wallet_URL := fun w => a_URL (kw_account w);
  wallet_Accounts := fun w => [kw_account w];
  wallet_Contains := Wallet_Contains
|}.

(** A call that looks at the directory: whether the throttle's first timer fires
    before it is reset, and the listing. *)
Definition reload : Type := bool * option (list FileInfo).

Record KeyStore : Type := MkKeyStore {
  ks_cache : accountCache;
  ks_files : files;
  ks_locks : Locks;
  ks_wallets : list keystoreWallet;
  ks_feed : list (WalletEvent keystoreWallet);
  ks_updating : bool;
  ks_subscribers : nat
}.
Definition with_cache (ks : KeyStore) (c : accountCache) : KeyStore := MkKeyStore c (ks_files ks) (ks_locks ks) (ks_wallets ks) (ks_feed ks) (ks_updating ks) (ks_subscribers ks).
Definition with_files (ks : KeyStore) (fs : files) : KeyStore := MkKeyStore (ks_cache ks) fs (ks_locks ks) (ks_wallets ks) (ks_feed ks) (ks_updating ks) (ks_subscribers ks).
Definition with_locks (ks : KeyStore) (l : Locks) : KeyStore := MkKeyStore (ks_cache ks) (ks_files ks) l (ks_wallets ks) (ks_feed ks) (ks_updating ks) (ks_subscribers ks).

Inductive ks_error : Type :=
| EFind (e : find_error)
| EKey (e : key_error)
| ECrypto (e : crypto_error)
| ETx (e : tx_error)
| ELocked
| EExists
| EUnknownAccount
| EGenerate
| ERemove.
Definition lift_key {A} (r : outcome key_error A) : outcome ks_error A :=
  match r with Ok a => Ok a | Err e => Err (EKey e) | Panic => Panic | OutOfFuel => OutOfFuel end.

(** The wallets in front of the next account are dropped. *)
Fixpoint drop_front (u : URL) (wallets : list keystoreWallet) : list (WalletEvent keystoreWallet) * list keystoreWallet :=
  match wallets with
  | [] => ([], [])
  | w :: rest => if URL_Cmp (wallet_URL w) u <? 0 then let '(evs, ws) := drop_front u rest in (MkEvent w WalletDropped :: evs, ws) else ([], wallets)
  end.
(** The wallets and the events for the accounts, given the old wallets. *)
Fixpoint refresh_loop (accs : list Account) (old wallets : list keystoreWallet) (events : list (WalletEvent keystoreWallet)) : list keystoreWallet * list (WalletEvent keystoreWallet) :=
  match accs with
  | [] => (wallets, events ++ map (fun w => MkEvent w WalletDropped) old)
  | account :: accs =>
      let '(evs, old) := drop_front (a_URL account) old in
      let events := events ++ evs in
      let arrive := refresh_loop accs old (wallets ++ [MkWallet account]) (events ++ [MkEvent (MkWallet account) WalletArrived]) in
      match old with
      | [] => arrive
      | w :: old' =>
          if 0 <? URL_Cmp (wallet_URL w) (a_URL account) then arrive
          else if bool_decide (kw_account w = account) then refresh_loop accs old' (wallets ++ [w]) events
          else refresh_loop accs old wallets events
      end
  end.

Section keystore.
  Context (wb : nat) `{Secp256k1} (Keccak256 : list Z -> list Z).
  Context (aes : list Z -> option Block) (scrypt : list Z -> list Z -> Z -> Z -> Z -> Z -> option (list Z)) (pbkdf2 : list Z -> list Z -> Z -> Z -> list Z).
  Context (uuid_String uuid_Parse : list Z -> list Z).
  Context (ToSlice : gset (list Z) -> list (list Z)).

(** passphrase.go and plain.go *)
Definition passphrase_storage (keysDirPath : list Z) (scryptN scryptP : Z) (skipKeyFileVerification : bool) : KeyStorage := {|
  st_GetKey := GetKey wb Keccak256 aes scrypt pbkdf2 uuid_Parse;
  st_StoreKey := fun fs env filename k auth =>
    StoreKey wb Keccak256 aes scrypt pbkdf2 uuid_String uuid_Parse fs (se_tmp env) (se_renames env) skipKeyFileVerification (se_salt env) (se_iv env) filename k auth scryptN scryptP;
  st_JoinPath := JoinPath keysDirPath;
  st_scrypt := Some (scryptN, scryptP)
|}.
Definition plain_storage (keysDirPath : list Z) : KeyStorage := {|
  st_GetKey := fun fs addr filename _ => plain_GetKey wb uuid_Parse fs addr filename;
  st_StoreKey := fun fs env filename k _ => match plain_StoreKey wb uuid_String fs (se_tmp env) (se_renames env) filename k with (fs, None) => (fs, Ok tt) | (fs, Some e) => (fs, Err e) end;
  st_JoinPath := JoinPath keysDirPath;
  st_scrypt := None
|}.

Definition ks_reload (ks : KeyStore) (r : reload) : KeyStore := with_cache ks (maybeReload ToSlice (ks_cache ks) (fst r) (snd r) (ks_files ks)).
Definition KeyStore_Accounts (ks : KeyStore) (r : reload) : KeyStore * list Account := let ks := ks_reload ks r in (ks, ac_all (ks_cache ks)).
Definition HasAddress (ks : KeyStore) (r : reload) (addr : list Z) : KeyStore * bool := let ks := ks_reload ks r in (ks, negb (bool_decide (accounts_of (ks_cache ks) addr = []))).

Definition ks_init (keydir : list Z) (fs : files) (now : Z) (r : reload) : KeyStore :=
  let '(ks, accs) := KeyStore_Accounts (MkKeyStore (newAccountCache keydir) fs (no_locks now) [] [] false 0) r in
  MkKeyStore (ks_cache ks) (ks_files ks) (ks_locks ks) (map MkWallet accs) (ks_feed ks) (ks_updating ks) (ks_subscribers ks).

Definition refreshWallets (ks : KeyStore) (r : reload) : KeyStore :=
  let '(ks, accs) := KeyStore_Accounts ks r in
  let '(wallets, events) := refresh_loop accs (ks_wallets ks) [] [] in
  MkKeyStore (ks_cache ks) (ks_files ks) (ks_locks ks) wallets (ks_feed ks ++ events) (ks_updating ks) (ks_subscribers ks).
Definition KeyStore_Wallets (ks : KeyStore) (r : reload) : KeyStore * list keystoreWallet := let ks := refreshWallets ks r in (ks, ks_wallets ks).

Definition KeyStore_Subscribe (ks : KeyStore) : KeyStore := MkKeyStore (ks_cache ks) (ks_files ks) (ks_locks ks) (ks_wallets ks) (ks_feed ks) true (S (ks_subscribers ks)).
(** One turn of the loop, on a change or after a while. *)
Definition updater (ks : KeyStore) (r : reload) : KeyStore :=
  let ks := refreshWallets ks r in
  if (ks_subscribers ks =? 0)%nat then MkKeyStore (ks_cache ks) (ks_files ks) (ks_locks ks) (ks_wallets ks) (ks_feed ks) false (ks_subscribers ks) else ks.

Definition KeyStore_Find (ks : KeyStore) (r : reload) (a : Account) : KeyStore * (find_error + Account) := let ks := ks_reload ks r in (ks, cache_find (ks_cache ks) a).

Section operations.
  Context `{KeyStorage}.

Definition getDecryptedKey (ks : KeyStore) (r : reload) (a : Account) (auth : list Z) : KeyStore * outcome ks_error (Account * Key) :=
  match KeyStore_Find ks r a with
  | (ks, inl e) => (ks, Err (EFind e))
  | (ks, inr a) => (ks, let? key := lift_key (st_GetKey (ks_files ks) (a_Address a) (u_Path (a_URL a)) auth) in Ok (a, key))
  end.

(** [removes]: the file can be removed. *)
Definition KeyStore_Delete (ks : KeyStore) (r1 r2 : reload) (removes : bool) (a : Account) (passphrase : list Z) : KeyStore * outcome ks_error unit :=
  match getDecryptedKey ks r1 a passphrase with
  | (ks, Ok (a, _)) =>
      if removes && bool_decide (is_Some (ks_files ks !! u_Path (a_URL a))) then
        let ks := with_files ks (delete (u_Path (a_URL a)) (ks_files ks)) in
        let ks := with_cache ks (cache_delete (ks_cache ks) a) in
        (refreshWallets ks r2, Ok tt)
      else (ks, Err ERemove)
  | (ks, Err e) => (ks, Err e)
  | (ks, Panic) => (ks, Panic)
  | (ks, OutOfFuel) => (ks, OutOfFuel)
  end.

Definition SignHash (ks : KeyStore) (a : Account) (hash : list Z) : ks_error + list Z :=
  match unlocked_key (ks_locks ks) (a_Address a) with
  | None => inl ELocked
  | Some key => match crypto_Sign wb hash (k_PrivateKey key) with inl e => inl (ECrypto e) | inr sig => inr sig end
  end.
Definition sign_with (eb : encbuf) (tx : Transaction) (chainID : option Z) (prv : Crypto.PrivateKey) : outcome ks_error Transaction :=
  let signer := match chainID with Some _ => NewEIP155Signer chainID | None => HomesteadSigner end in
  match SignTx wb Keccak256 eb tx signer prv with Ok tx => Ok tx | Err e => Err (ETx e) | Panic => Panic | OutOfFuel => OutOfFuel end.
Definition KeyStore_SignTx (ks : KeyStore) (a : Account) (eb : encbuf) (tx : Transaction) (chainID : option Z) : outcome ks_error Transaction :=
  match unlocked_key (ks_locks ks) (a_Address a) with
  | None => Err ELocked
  | Some key => sign_with eb tx chainID (k_PrivateKey key)
  end.
Definition SignHashWithPassphrase (ks : KeyStore) (r : reload) (a : Account) (passphrase hash : list Z) : KeyStore * outcome ks_error (list Z) :=
  let '(ks, d) := getDecryptedKey ks r a passphrase in
  (ks, let? (_, key) := d in match crypto_Sign wb hash (k_PrivateKey key) with inl e => Err (ECrypto e) | inr sig => Ok sig end).
Definition SignTxWithPassphrase (ks : KeyStore) (r : reload) (a : Account) (passphrase : list Z) (eb : encbuf) (tx : Transaction) (chainID : option Z) : KeyStore * outcome ks_error Transaction :=
  let '(ks, d) := getDecryptedKey ks r a passphrase in
  (ks, let? (_, key) := d in sign_with eb tx chainID (k_PrivateKey key)).

Definition TimedUnlock (ks : KeyStore) (r : reload) (a : Account) (passphrase : list Z) (timeout : Z) : KeyStore * outcome ks_error unit :=
  match getDecryptedKey ks r a passphrase with
  | (ks, Ok (a, key)) => match unlock_with (ks_locks ks) (a_Address a) key timeout with Some l => (with_locks ks l, Ok tt) | None => (ks, Panic) end
  | (ks, Err e) => (ks, Err e)
  | (ks, Panic) => (ks, Panic)
  | (ks, OutOfFuel) => (ks, OutOfFuel)
  end.
Definition Unlock (ks : KeyStore) (r : reload) (a : Account) (passphrase : list Z) := TimedUnlock ks r a passphrase 0.
(** Up to the wait of expire. *)
Definition Lock (ks : KeyStore) (addr : list Z) : KeyStore := with_locks ks (lock_address (ks_locks ks) addr).

Definition key_account (ts : Time) (key : Key) : Account := MkAccount (k_Address key) (keystore_URL (st_JoinPath (keyFileName ts (k_Address key)))).
(** The account of a key that is stored, as key.go, presale.go and importKey do it. *)
Definition store_account (fs : files) (ts : Time) (env : StoreEnv) (key : Key) (passphrase : list Z) : files * outcome ks_error Account :=
  let a := key_account ts key in
  let '(fs, res) := st_StoreKey fs env (u_Path (a_URL a)) key passphrase in
  (fs, let? _ := lift_key res in Ok a).
(** A stored account is cached and wrapped in a wallet. *)
Definition add_account (ks : KeyStore) (r : reload) (stored : files * outcome ks_error Account) : KeyStore * outcome ks_error Account :=
  let '(fs, res) := stored in
  let ks := with_files ks fs in
  match res with
  | Ok a => (refreshWallets (with_cache ks (cache_add (ks_cache ks) a)) r, Ok a)
  | res => (ks, res)
  end.

(** [priv]: the generated key, [None] on an error; [id] a random UUID. *)
Definition storeNewKey (fs : files) (ts : Time) (env : StoreEnv) (id : list Z) (priv : option Crypto.PrivateKey) (passphrase : list Z) : files * outcome ks_error Account :=
  match priv with
  | None => (fs, Err EGenerate)
  | Some priv =>
      match newKeyFromECDSA Keccak256 id priv with
      | Ok key => store_account fs ts env key passphrase
      | Err e => (fs, Err (EKey e))
      | Panic => (fs, Panic)
      | OutOfFuel => (fs, OutOfFuel)
      end
  end.
Definition NewAccount (ks : KeyStore) (r : reload) (ts : Time) (env : StoreEnv) (id : list Z) (priv : option Crypto.PrivateKey) (passphrase : list Z) : KeyStore * outcome ks_error Account :=
  add_account ks r (storeNewKey (ks_files ks) ts env id priv passphrase).

Definition importKey (ks : KeyStore) (r : reload) (ts : Time) (env : StoreEnv) (key : Key) (passphrase : list Z) : KeyStore * outcome ks_error Account :=
  add_account ks r (store_account (ks_files ks) ts env key passphrase).
Definition import_new (ks : KeyStore) (r1 r2 : reload) (ts : Time) (env : StoreEnv) (key : Key) (passphrase : list Z) : KeyStore * outcome ks_error Account :=
  match HasAddress ks r1 (k_Address key) with
  | (ks, true) => (ks, Err EExists)
  | (ks, false) => importKey ks r2 ts env key passphrase
  end.
Definition ImportECDSA (ks : KeyStore) (r1 r2 : reload) (ts : Time) (env : StoreEnv) (id : list Z) (priv : Crypto.PrivateKey) (passphrase : list Z) : KeyStore * outcome ks_error Account :=
  match newKeyFromECDSA Keccak256 id priv with
  | Ok key => import_new ks r1 r2 ts env key passphrase
  | Err e => (ks, Err (EKey e))
  | Panic => (ks, Panic)
  | OutOfFuel => (ks, OutOfFuel)
  end.
Definition Import (ks : KeyStore) (r1 r2 : reload) (ts : Time) (env : StoreEnv) (keyJSON passphrase newPassphrase : list Z) : KeyStore * outcome ks_error Account :=
  match DecryptKey wb Keccak256 aes scrypt pbkdf2 uuid_Parse keyJSON passphrase with
  | Ok key => import_new ks r1 r2 ts env key newPassphrase
  | Err e => (ks, Err (EKey e))
  | Panic => (ks, Panic)
  | OutOfFuel => (ks, OutOfFuel)
  end.
Definition importPreSaleKey (fs : files) (ts : Time) (env : StoreEnv) (id keyJSON password : list Z) : files * outcome ks_error Account :=
  match decryptPreSaleKey wb Keccak256 aes pbkdf2 keyJSON password with
  | Ok key => store_account fs ts env (MkKey id (k_Address key) (k_PrivateKey key)) password
  | Err e => (fs, Err (EKey e))
  | Panic => (fs, Panic)
  | OutOfFuel => (fs, OutOfFuel)
  end.
Definition ImportPreSaleKey (ks : KeyStore) (r : reload) (ts : Time) (env : StoreEnv) (id keyJSON passphrase : list Z) : KeyStore * outcome ks_error Account :=
  add_account ks r (importPreSaleKey (ks_files ks) ts env id keyJSON passphrase).

Definition StandardScryptN : Z := 2 ^ 18.
Definition StandardScryptP : Z := 1.
Definition Export (ks : KeyStore) (r : reload) (salt iv : list Z) (a : Account) (passphrase newPassphrase : list Z) : KeyStore * outcome ks_error (list Z) :=
  let '(ks, d) := getDecryptedKey ks r a passphrase in
  let '(N, P) := match st_scrypt with Some np => np | None => (StandardScryptN, StandardScryptP) end in
  (ks, let? (_, key) := d in lift_key (EncryptKey wb Keccak256 aes scrypt uuid_String salt iv key newPassphrase N P)).
Definition Update (ks : KeyStore) (r : reload) (env : StoreEnv) (a : Account) (passphrase newPassphrase : list Z) : KeyStore * outcome ks_error unit :=
  match getDecryptedKey ks r a passphrase with
  | (ks, Ok (a, key)) => let '(fs, res) := st_StoreKey (ks_files ks) env (u_Path (a_URL a)) key newPassphrase in (with_files ks fs, lift_key res)
  | (ks, Err e) => (ks, Err e)
  | (ks, Panic) => (ks, Panic)
  | (ks, OutOfFuel) => (ks, OutOfFuel)
  end.

(** ** wallet.go *)

Definition Wallet_Status (ks : KeyStore) (w : keystoreWallet) : list Z := if bool_decide (is_Some (l_unlocked (ks_locks ks) !! a_Address (kw_account w))) then str "Unlocked" else str "Locked".
Definition Wallet_Derive (w : keystoreWallet) : accounts_error + Account := inl ErrNotSupported.
Definition Wallet_signHash (ks : KeyStore) (w : keystoreWallet) (account : Account) (hash : list Z) : ks_error + list Z :=
  if negb (Wallet_Contains w account) then inl EUnknownAccount else SignHash ks account hash.
Definition Wallet_SignData (ks : KeyStore) (w : keystoreWallet) (account : Account) (mimeType data : list Z) : ks_error + list Z := Wallet_signHash ks w account (Keccak256 data).
Definition Wallet_SignText (ks : KeyStore) (w : keystoreWallet) (account : Account) (text : list Z) : ks_error + list Z := Wallet_signHash ks w account (TextHash Keccak256 text).
Definition Wallet_SignDataWithPassphrase (ks : KeyStore) (w : keystoreWallet) (r : reload) (account : Account) (passphrase mimeType data : list Z) : KeyStore * outcome ks_error (list Z) :=
  if negb (Wallet_Contains w account) then (ks, Err EUnknownAccount) else SignHashWithPassphrase ks r account passphrase (Keccak256 data).
Definition Wallet_SignTextWithPassphrase (ks : KeyStore) (w : keystoreWallet) (r : reload) (account : Account) (passphrase text : list Z) : KeyStore * outcome ks_error (list Z) :=
  if negb (Wallet_Contains w account) then (ks, Err EUnknownAccount) else SignHashWithPassphrase ks r account passphrase (TextHash Keccak256 text).
Definition Wallet_SignTx (ks : KeyStore) (w : keystoreWallet) (account : Account) (eb : encbuf) (tx : Transaction) (chainID : option Z) : outcome ks_error Transaction :=
  if negb (Wallet_Contains w account) then Err EUnknownAccount else KeyStore_SignTx ks account eb tx chainID.
Definition Wallet_SignTxWithPassphrase (ks : KeyStore) (w : keystoreWallet) (r : reload) (account : Account) (passphrase : list Z) (eb : encbuf) (tx : Transaction) (chainID : option Z) : KeyStore * outcome ks_error Transaction :=
  if negb (Wallet_Contains w account) then (ks, Err EUnknownAccount) else SignTxWithPassphrase ks r account passphrase eb tx chainID.
End operations.
End keystore.

(** ** The wallets follow the accounts *)

#[local] Abbreviation dropped w := (MkEvent w WalletDropped).
#[local] Abbreviation arrival w := (MkEvent w WalletArrived).

(** A manager holds the wallets [ws] of the keystore and [others]. *)
Record follows (others : list keystoreWallet) (am : Manager) (ws : list keystoreWallet) : Prop := {
  fo_distinct : distinct_wallets (am_wallets am);
  fo_members : forall x, x ∈ am_wallets am <-> x ∈ others \/ x ∈ ws
}.

Lemma distinct_urls (ws : list keystoreWallet) : distinct_wallets ws -> forall x y, x ∈ ws -> y ∈ ws -> wallet_URL x = wallet_URL y -> x = y.
Proof.
  intros Hs. induction Hs as [|w ws Hs IH Hw]; intros x y Hx Hy E; [by apply elem_of_nil in Hx|]. rewrite Forall_forall in Hw. apply elem_of_cons in Hx as [->|Hx], Hy as [->|Hy]; [done| | |by apply IH].
  - destruct (url_lt_irrefl (wallet_URL w)). rewrite E at 2. by apply Hw.
  - destruct (url_lt_irrefl (wallet_URL w)). rewrite <- E at 2. by apply Hw.
Qed.
Lemma distinct_nodup (ws : list keystoreWallet) : distinct_wallets ws -> NoDup ws.
Proof. induction 1 as [|w ws _ IH Hw]; constructor; [|done]. intros Hin. rewrite Forall_forall in Hw. exact (url_lt_irrefl _ (Hw w Hin)). Qed.

Lemma follows_drop others am l1 w l2 : follows others am (l1 ++ w :: l2) -> distinct_wallets (l1 ++ w :: l2) -> Forall (fun x => wallet_URL x <> wallet_URL w) others -> follows others (manager_update am (dropped w)) (l1 ++ l2).
Proof.
  intros [Hd Hm] Hs Ho. assert (Hw : w ∈ am_wallets am) by (apply Hm; right; apply elem_of_app; right; left). destruct (drop1_known (am_wallets am) w w Hd Hw eq_refl) as [H1 H2]. split; [done|]. intros x. cbn [manager_update ev_Kind ev_Wallet am_wallets drop_wallets foldl]. rewrite H2, Hm.
  rewrite Forall_forall in Ho. pose proof (distinct_nodup _ Hs) as Hn. apply NoDup_app in Hn as (_ & Hn1 & Hn2). apply NoDup_cons in Hn2 as [Hn2 _]. rewrite !elem_of_app, elem_of_cons.
  assert (Hu : forall y, y ∈ l1 ++ w :: l2 -> wallet_URL y = wallet_URL w -> y = w) by (intros y Hy; apply (distinct_urls _ Hs); [done|apply elem_of_app; right; left]). setoid_rewrite elem_of_app in Hu. setoid_rewrite elem_of_cons in Hu. setoid_rewrite elem_of_cons in Hn1. split.
  - intros [[Hx|[Hx|[->|Hx]]] Hne]; [by left|by right; left|done|by right; right].
  - intros [Hx|[Hx|Hx]]; (split; [tauto|]); [by apply Ho| |]; intros E; (rewrite (Hu x) in Hx by tauto); [apply (Hn1 w Hx); by left|done].
Qed.
Lemma follows_arrive others am l1 w l2 : follows others am (l1 ++ l2) -> (forall x, x ∈ others \/ x ∈ l1 ++ l2 -> wallet_URL x <> wallet_URL w) -> follows others (manager_update am (arrival w)) (l1 ++ w :: l2).
Proof.
  intros [Hd Hm] Hn. split; cbn [manager_update ev_Kind ev_Wallet am_wallets merge foldl].
  - apply merge1_distinct; [done|]. apply Forall_forall. intros x Hx. by apply Hn, Hm.
  - intros x. rewrite (proj2 (merge1_sorted _ w (distinct_sorted _ Hd))), elem_of_cons, Hm, !elem_of_app, elem_of_cons. tauto.
Qed.
Lemma follows_drops others d : forall am l1 l2, follows others am (l1 ++ d ++ l2) -> distinct_wallets (l1 ++ d ++ l2) -> (forall x y, x ∈ others -> y ∈ d -> wallet_URL x <> wallet_URL y) ->
  follows others (manager_run am (map (fun w => dropped w) d)) (l1 ++ l2).
Proof.
  induction d as [|w d IH]; intros am l1 l2 Hf Hs Ho; [done|]. cbn [map]. unfold manager_run in *. cbn [foldl]. apply IH.
  - cbn [app] in Hf. apply (follows_drop _ _ _ _ _ Hf Hs). apply Forall_forall. intros x Hx. by apply Ho; [|left].
  - apply StronglySorted_app in Hs as (H1 & H2 & H3). cbn [app] in H3. apply StronglySorted_cons in H3 as [_ H3]. apply StronglySorted_app_2; [|done|done]. intros x y Hx Hy. apply H1; [done|]. by right.
  - intros x y Hx Hy. apply Ho; [done|by right].
Qed.

Lemma drop_front_spec u old : exists d rest, drop_front u old = (map (fun w => dropped w) d, rest) /\ old = d ++ rest /\ Forall (fun w => url_lt (wallet_URL w) u) d /\ (forall w, head rest = Some w -> ~ url_lt (wallet_URL w) u).
Proof.
  induction old as [|w old IH]; [by exists [], []|]. cbn [drop_front]. destruct (Z.ltb_spec (URL_Cmp (wallet_URL w) u) 0) as [Hlt|Hge].
  - destruct IH as (d & rest & -> & -> & Hd & Hr). exists (w :: d), rest. split_and!; [done|done|by constructor|done].
  - exists [], (w :: old). split_and!; [done|done|constructor|]. intros x [= <-]. unfold url_lt. lia.
Qed.

(** No old wallet has the URL of the account with another address. *)
Definition unchanged (old : list keystoreWallet) (a : Account) : Prop := forall w, w ∈ old -> wallet_URL w = a_URL a -> kw_account w = a.
Lemma unchanged_front d rest a : Forall (fun w => url_lt (wallet_URL w) (a_URL a)) d -> unchanged (d ++ rest) a <-> unchanged rest a.
Proof.
  intros Hd. rewrite Forall_forall in Hd. unfold unchanged. setoid_rewrite elem_of_app. split; [by auto|]. intros Hr w [Hw|Hw] E; [|by apply Hr]. destruct (url_lt_irrefl (a_URL a)). rewrite <- E at 1. by apply Hd.
Qed.

Lemma refresh_loop_spec accs : forall old wallets events, StronglySorted account_lt accs -> distinct_wallets (wallets ++ old) -> (forall w a, w ∈ wallets -> a ∈ accs -> url_lt (wallet_URL w) (a_URL a)) ->
  exists new evs, refresh_loop accs old wallets events = (wallets ++ new, events ++ evs) /\ distinct_wallets (wallets ++ new) /\
    (forall x, x ∈ new <-> exists a, a ∈ accs /\ x = MkWallet a /\ unchanged old a) /\
    (forall others am, follows others am (wallets ++ old) -> (forall x, x ∈ others -> (forall a, a ∈ accs -> wallet_URL x <> a_URL a) /\ (forall w, w ∈ old -> wallet_URL x <> wallet_URL w)) ->
       follows others (manager_run am evs) (wallets ++ new)).
Proof.
  induction accs as [|account accs IH]; intros old wallets events Ha Hd Hlt.
  { exists [], (map (fun w => dropped w) old). split_and!; [by rewrite app_nil_r|rewrite app_nil_r; by apply StronglySorted_app_1_l in Hd|intros x; setoid_rewrite elem_of_nil; naive_solver|].
    intros others am Hf Ho. apply (follows_drops others old am wallets []); rewrite ?app_nil_r; [done|done|]. intros x y Hx Hy. by apply Ho. }
  apply StronglySorted_cons in Ha as [Hfirst Ha]. rewrite Forall_forall in Hfirst. cbn [refresh_loop]. destruct (drop_front_spec (a_URL account) old) as (d & rest & -> & -> & Hdl & Hhd). cbn iota beta.
  assert (Hfront : forall a, a ∈ accs -> Forall (fun w => url_lt (wallet_URL w) (a_URL a)) d) by (intros a Hin; eapply Forall_impl; [exact Hdl|]; intros w Hw; cbn beta in *; transitivity (a_URL account); [done|by apply Hfirst]).
  assert (Hrest : distinct_wallets (wallets ++ rest)).
  { apply StronglySorted_app in Hd as (H1 & H2 & H3). apply StronglySorted_app_1_r in H3 as H4. apply StronglySorted_app_2; [|done|done]. intros x y Hx Hy. apply H1; [done|]. apply elem_of_app. by right. }
  assert (Hdrop : forall others am, follows others am (wallets ++ d ++ rest) -> (forall x, x ∈ others -> (forall a, a ∈ account :: accs -> wallet_URL x <> a_URL a) /\ (forall w, w ∈ d ++ rest -> wallet_URL x <> wallet_URL w)) -> follows others (manager_run am (map (fun w => dropped w) d)) (wallets ++ rest)).
  { intros others am Hf Ho. apply follows_drops; [done|done|]. intros x y Hx Hy. apply Ho; [done|]. apply elem_of_app. by left. }
  assert (Harrive : (forall w, w ∈ rest -> url_lt (a_URL account) (wallet_URL w)) -> exists new evs,
    refresh_loop accs rest (wallets ++ [MkWallet account]) ((events ++ map (fun w => dropped w) d) ++ [arrival (MkWallet account)]) = (wallets ++ new, events ++ evs) /\ distinct_wallets (wallets ++ new) /\
    (forall x, x ∈ new <-> exists a, a ∈ account :: accs /\ x = MkWallet a /\ unchanged (d ++ rest) a) /\
    (forall others am, follows others am (wallets ++ d ++ rest) -> (forall x, x ∈ others -> (forall a, a ∈ account :: accs -> wallet_URL x <> a_URL a) /\ (forall w, w ∈ d ++ rest -> wallet_URL x <> wallet_URL w)) ->
       follows others (manager_run am evs) (wallets ++ new))).
  { intros Hgt. assert (Hold : forall w, w ∈ d ++ rest -> wallet_URL w <> a_URL account).
    { intros w [Hw|Hw]%elem_of_app E; apply (url_lt_irrefl (a_URL account)); [rewrite <- E at 1; rewrite Forall_forall in Hdl; by apply Hdl|rewrite <- E at 2; by apply Hgt]. }
    destruct (IH rest (wallets ++ [MkWallet account]) ((events ++ map (fun w => dropped w) d) ++ [arrival (MkWallet account)]) Ha) as (new & evs & E & H1 & H2 & H3).
    - apply StronglySorted_app in Hrest as (R1 & R2 & R3). rewrite <- app_assoc. apply StronglySorted_app_2; [|done|constructor; [done|by apply Forall_forall]]. intros x y Hx. cbn [app]. rewrite elem_of_cons. intros [->|Hy]; [by apply Hlt; [|left]|by apply R1].
    - intros w a [Hw| ->%list_elem_of_singleton]%elem_of_app Hin; [by apply Hlt; [|right]|by apply Hfirst].
    - exists (MkWallet account :: new), (map (fun w => dropped w) d ++ arrival (MkWallet account) :: evs). rewrite E, <- !app_assoc in *. split_and!; [done|done| |].
      + intros x. rewrite elem_of_cons, H2. setoid_rewrite elem_of_cons. split.
        * intros [->|(a & Hin & -> & Hu)]; [exists account; split_and!; [by left|done|]; intros w Hw Ew; by destruct (Hold w Hw)|exists a; split_and!; [by right|done|]; by apply unchanged_front; [apply Hfront|]].
        * intros (a & [->|Hin] & -> & Hu); [by left|]. right. exists a. split_and!; [done|done|]. by apply (unchanged_front d); [apply Hfront|].
      + intros others am Hf Ho. unfold manager_run. rewrite foldl_app. cbn [foldl]. apply (H3 others).
        * apply follows_arrive; [by apply Hdrop|]. intros x [Hx|Hx]; [exact (proj1 (Ho x Hx) account ltac:(left))|]. apply elem_of_app in Hx as [Hx|Hx]; [|apply Hold, elem_of_app; by right]. intros Ex. apply (url_lt_irrefl (a_URL account)). rewrite <- Ex at 1. apply Hlt; [done|left].
        * intros x Hx. destruct (Ho x Hx) as [O1 O2]. split; [intros a Hin; apply O1; by right|intros w Hw; apply O2, elem_of_app; by right]. }
  destruct rest as [|w old']; [apply Harrive; intros w Hw; by apply elem_of_nil in Hw|].
  assert (Hw' : forall x, x ∈ old' -> url_lt (wallet_URL w) (wallet_URL x)) by (apply StronglySorted_app_1_r, StronglySorted_cons in Hrest as [Hr _]; by rewrite Forall_forall in Hr).
  destruct (Z.ltb_spec 0 (URL_Cmp (wallet_URL w) (a_URL account))) as [Hgt|Hle].
  { apply Harrive. assert (Hl : url_lt (a_URL account) (wallet_URL w)) by (unfold url_lt; rewrite (URL_Cmp_opp (wallet_URL w)); lia). intros x [->|Hx]%elem_of_cons; [done|]. transitivity (wallet_URL w); [done|by apply Hw']. }
  assert (Ew : wallet_URL w = a_URL account) by (apply URL_Cmp_eq; specialize (Hhd w eq_refl); unfold url_lt in Hhd; lia). clear Harrive.
  assert (Hskip : forall a, a ∈ accs -> url_lt (wallet_URL w) (a_URL a)) by (intros a Hin; rewrite Ew; by apply Hfirst).
  case_bool_decide as Eb.
  - destruct (IH old' (wallets ++ [w]) (events ++ map (fun w => dropped w) d) Ha) as (new & evs & E & H1 & H2 & H3); [by rewrite <- app_assoc|intros x a [Hx| ->%list_elem_of_singleton]%elem_of_app Hin; [by apply Hlt; [|right]|by apply Hskip]|].
    exists (w :: new), (map (fun w => dropped w) d ++ evs). rewrite E, <- !app_assoc in *. split_and!; [done|done| |].
    + intros x. rewrite elem_of_cons, H2. setoid_rewrite elem_of_cons. assert (Hsk : forall a, a ∈ accs -> unchanged (d ++ w :: old') a <-> unchanged old' a) by (intros a Hin; rewrite (unchanged_front d) by (by apply Hfront); apply (unchanged_front [w]); constructor; [by apply Hskip|done]). split.
      * intros [->|(a & Hin & -> & Hu)]; [|exists a; split_and!; [by right|done|by apply Hsk]]. exists account. split_and!; [by left|subst; by destruct w|]. apply unchanged_front; [done|]. intros y [->|Hy]%elem_of_cons Ey; [done|]. destruct (url_lt_irrefl (wallet_URL w)). assert (Eyw : wallet_URL y = wallet_URL w) by congruence. rewrite <- Eyw at 2. by apply Hw'.
      * intros (a & [->|Hin] & -> & Hu); [left; subst; by destruct w|]. right. exists a. split_and!; [done|done|by apply Hsk].
    + intros others am Hf Ho. unfold manager_run. rewrite foldl_app. apply (H3 others); [by apply Hdrop|]. intros x Hx. destruct (Ho x Hx) as [O1 O2]. split; [intros a Hin; apply O1; by right|intros y Hy; apply O2, elem_of_app; right; by right].
  - destruct (IH (w :: old') wallets (events ++ map (fun w => dropped w) d) Ha Hrest) as (new & evs & E & H1 & H2 & H3); [intros x a Hx Hin; by apply Hlt; [|right]|].
    exists new, (map (fun w => dropped w) d ++ evs). rewrite E, <- !app_assoc in *. split_and!; [done|done| |].
    + intros x. rewrite H2. setoid_rewrite elem_of_cons. split.
      * intros (a & Hin & -> & Hu). exists a. split_and!; [by right|done|]. by apply unchanged_front; [apply Hfront|].
      * intros (a & [->|Hin] & -> & Hu); [destruct Eb; apply Hu; [apply elem_of_app; right; left|done]|]. exists a. split_and!; [done|done|]. by apply (unchanged_front d); [apply Hfront|].
    + intros others am Hf Ho. unfold manager_run. rewrite foldl_app. apply (H3 others); [by apply Hdrop|]. intros x Hx. destruct (Ho x Hx) as [O1 O2]. split; [intros a Hin; apply O1; by right|intros y Hy; apply O2, elem_of_app; by right].
Qed.

Section wallets.
  Context (ToSlice : gset (list Z) -> list (list Z)).

Lemma wallets_eq accs ws : StronglySorted account_lt accs -> distinct_wallets ws -> (forall x, x ∈ ws <-> exists a, a ∈ accs /\ x = MkWallet a) -> ws = map MkWallet accs.
Proof.
  intros Ha Hw Hm. apply (strict_unique (fun x y => url_lt (wallet_URL x) (wallet_URL y))); [intros x; apply url_lt_irrefl|intros x y z; apply url_lt_trans|done| |].
  - clear Hm. induction Ha as [|a accs _ IH Ha]; cbn [map]; constructor; [done|]. rewrite Forall_forall in Ha. apply Forall_forall. intros x (b & -> & Hb)%list_elem_of_fmap. by apply Ha.
  - intros x. rewrite Hm, list_elem_of_fmap. naive_solver.
Qed.
Lemma running_reload ks r : w_running (ks_cache ks) = true -> ks_reload ToSlice ks r = ks.
Proof. intros Hr. unfold ks_reload, maybeReload. rewrite Hr. by destruct ks. Qed.

(** C16: The wallets of the keystore, and those of a manager that listens to it,
    follow the accounts.  A refresh leaves one wallet for every account, in order,
    except for an account whose URL had another address before: that one gets its
    wallet in the next refresh.  A manager that held the wallets of the keystore,
    among those of other backends, holds the new ones after the events that the
    refresh fires. *)
Theorem wallets_follow_accounts ks r : cache_ok (ks_cache (ks_reload ToSlice ks r)) -> distinct_wallets (ks_wallets ks) ->
  let ks' := refreshWallets ToSlice ks r in
  let accs := ac_all (ks_cache ks') in
  distinct_wallets (ks_wallets ks') /\ (forall a, MkWallet a ∈ ks_wallets ks' <-> a ∈ accs /\ unchanged (ks_wallets ks) a) /\
  (Forall (unchanged (ks_wallets ks)) accs -> ks_wallets ks' = map MkWallet accs) /\
  (w_running (ks_cache ks') = true -> forall r', ks_wallets (refreshWallets ToSlice ks' r') = map MkWallet accs) /\
  exists events, ks_feed ks' = ks_feed ks ++ events /\
    forall others am, follows others am (ks_wallets ks) ->
      (forall x, x ∈ others -> (forall a, a ∈ accs -> wallet_URL x <> a_URL a) /\ (forall w, w ∈ ks_wallets ks -> wallet_URL x <> wallet_URL w)) ->
      follows others (manager_run am events) (ks_wallets ks').
Proof.
  intros Hc Hd ks' accs.
  assert (Hall : forall ks r, cache_ok (ks_cache (ks_reload ToSlice ks r)) -> distinct_wallets (ks_wallets ks) -> exists new evs, refreshWallets ToSlice ks r = MkKeyStore (ks_cache (ks_reload ToSlice ks r)) (ks_files ks) (ks_locks ks) new (ks_feed ks ++ evs) (ks_updating ks) (ks_subscribers ks) /\ distinct_wallets new /\
    (forall x, x ∈ new <-> exists a, a ∈ ac_all (ks_cache (ks_reload ToSlice ks r)) /\ x = MkWallet a /\ unchanged (ks_wallets ks) a) /\
    (forall others am, follows others am (ks_wallets ks) -> (forall x, x ∈ others -> (forall a, a ∈ ac_all (ks_cache (ks_reload ToSlice ks r)) -> wallet_URL x <> a_URL a) /\ (forall w, w ∈ ks_wallets ks -> wallet_URL x <> wallet_URL w)) -> follows others (manager_run am evs) new)).
  { clear. intros ks r Hc Hd. destruct (refresh_loop_spec (ac_all (ks_cache (ks_reload ToSlice ks r))) (ks_wallets ks) [] [] (ok_sorted _ Hc) Hd) as (new & evs & E & H1 & H2 & H3); [by intros w a Hw%elem_of_nil|]. exists new, evs. unfold refreshWallets, KeyStore_Accounts. cbn zeta iota beta. change (ks_wallets (ks_reload ToSlice ks r)) with (ks_wallets ks). rewrite E. by split_and!. }
  destruct (Hall ks r Hc Hd) as (new & evs & E & H1 & H2 & H3). unfold accs, ks' in *. clear accs ks'. rewrite E. cbn [ks_wallets ks_cache ks_feed]. set (accs := ac_all _) in *.
  assert (Hm : forall a, MkWallet a ∈ new <-> a ∈ accs /\ unchanged (ks_wallets ks) a) by (intros a; rewrite H2; split; [by intros (b & Hb & [= <-] & Hu)|intros [Ha Hu]; by exists a]). split_and!; [done|exact Hm| | |].
  - intros Hf. rewrite Forall_forall in Hf. apply wallets_eq; [apply Hc|done|]. intros x. rewrite H2. split; [intros (a & ? & ? & _); by exists a|]. intros (a & Ha & ->). exists a. split_and!; [done|done|by apply Hf].
  - intros Hr r'. set (k1 := MkKeyStore _ _ _ _ _ _ _). assert (Ek : ks_reload ToSlice k1 r' = k1) by (by apply running_reload). destruct (Hall k1 r') as (new' & evs' & E' & H1' & H2' & _); [by rewrite Ek|done|]. rewrite E', Ek. cbn [ks_wallets k1]. rewrite Ek in H2'. cbn [ks_cache ks_wallets k1] in H2'. apply wallets_eq; [apply Hc|done|]. intros x. rewrite H2'. split; [intros (a & ? & ? & _); by exists a|]. intros (a & Ha & ->). exists a. split_and!; [done|done|].
    intros w Hw Ew. apply H2 in Hw as (b & Hb & -> & _). cbn in *. by apply (url_unique accs); [apply Hc|..].
  - exists evs. by split.
Qed.
End wallets.

(** A keystore with one account, whose watcher runs. *)
Definition sample_added : accountCache := with_flags (cache_add (newAccountCache (str "/k")) (sample_account 4 "/k/d")) true true.
Definition sample_keystore : KeyStore := MkKeyStore sample_added ∅ (no_locks 0) [] [] false 0.
Lemma sample_added_ok : cache_ok sample_added.
Proof. destruct sample_cache_ok as [H1 H2 H3 H4]. split; [exact H1|exact H2|exact H3|exact H4]. Qed.
Lemma wallets_follow_accounts_witness : ks_wallets (refreshWallets elements sample_keystore (false, None)) = map MkWallet [sample_account 4 "/k/d"].
Proof.
  destruct (wallets_follow_accounts elements sample_keystore (false, None)) as (_ & _ & H & _); [rewrite running_reload by done; exact sample_added_ok|constructor|]. rewrite H; [vm_compute; reflexivity|]. apply Forall_forall. intros a _ w Hw. by apply elem_of_nil in Hw.
Defined.

(** ** The storages keep what they are given *)

(** What is stored: a key with its address and an id; the temporary file is another
    one, and the random source gives bytes. *)
Definition env_ok (env : StoreEnv) (filename : list Z) : Prop := Some filename <> se_tmp env /\ bytes_ok (se_salt env) /\ bytes_ok (se_iv env) /\ len (se_iv env) = 16.
Class KeyStorageLaws `{KeyStorage} (stored : Key -> Prop) : Prop := {
  st_nonzero : forall k, stored k -> k_Address k <> zero_address;
  st_address : forall fs addr filename auth k, st_GetKey fs addr filename auth = Ok k -> k_Address k = addr;
  st_stored : forall fs env filename k auth fs', stored k -> env_ok env filename -> st_StoreKey fs env filename k auth = (fs', Ok tt) ->
    st_GetKey fs' (k_Address k) filename auth = Ok k /\ readAccount fs' filename = Some (MkAccount (k_Address k) (keystore_URL filename));
  st_frame : forall fs env filename k auth fs' res, stored k -> env_ok env filename -> st_StoreKey fs env filename k auth = (fs', res) ->
    (forall f, f <> filename -> Some f <> se_tmp env -> fs' !! f = fs !! f) /\ (res <> Ok tt -> fs' !! filename = fs !! filename /\ exists e, res = Err e)
}.

(** Decoding only the address of a key. *)
Lemma address_member key s b c d : key = str "crypto" \/ key = str "privatekey" -> Forall plain s ->
  jdecode AccountCache.address_type (zero_of AccountCache.address_type) (JObj [(escape (str "address"), JStr (escape s)); (escape key, b); (escape (str "id"), c); (escape (str "version"), d)]) = (JVStruct [JVStr s], DOk).
Proof.
  intros Hkey Hs. unfold AccountCache.address_type. change (zero_of (JTStruct [(str "address", JTStr)])) with (JVStruct [JVStr []]). rewrite decode_struct. cbn [map fst dec_members].
  assert (Hn : forall k, k = str "address" \/ k = str "crypto" \/ k = str "privatekey" \/ k = str "id" \/ k = str "version" -> unquote (escape k) = Some k /\ field_index [str "address"] k = if bool_decide (k = str "address") then Some 0%nat else None) by (intros k [->|[->|[->|[->| ->]]]]; split; vm_compute; reflexivity).
  destruct (Hn (str "address")) as [-> ->]; [tauto|]. rewrite bool_decide_true by done. cbn [at_field jdecode]. rewrite unquote_escape by (by apply bytes_plain || by apply valid_plain). cbn [after fatal].
  destruct (Hn key) as [-> ->]; [tauto|]. rewrite bool_decide_false by (by destruct Hkey as [-> | ->]). destruct (Hn (str "id")) as [-> ->]; [tauto|]. rewrite bool_decide_false by done. destruct (Hn (str "version")) as [-> ->]; [tauto|]. rewrite bool_decide_false by done. done.
Qed.
Lemma FromHex_hex b : bytes_ok b -> FromHex (hex_Encode b) = b.
Proof.
  intros Hb. pose proof (hex_Encode_chars b Hb) as Hc. unfold FromHex.
  assert (E0 : has0xPrefix (hex_Encode b) = false). { unfold has0xPrefix. destruct (hex_Encode b) as [|c0 [|c1 r]]; [done|done|]. apply Forall_cons in Hc as [_ Hc]. apply Forall_cons in Hc as [Hc _]. change (chr "x") with 120. change (chr "X") with 88. destruct (Z.eqb_spec c1 120), (Z.eqb_spec c1 88); try lia; apply andb_false_r. }
  rewrite E0. cbv zeta. unfold len. rewrite hex_Encode_length. replace (Z.of_nat (2 * length b) mod 2) with 0 by (rewrite Nat2Z.inj_mul, Z.mul_comm; symmetry; apply Z.mod_mul; lia). cbn [Z.eqb]. unfold Hex2Bytes. by rewrite hex_Decode_Encode.
Qed.
Lemma readAccount_key fs filename key j b c d addr : key = str "crypto" \/ key = str "privatekey" -> len addr = 20 -> bytes_ok addr -> addr <> zero_address ->
  j = JObj [(escape (str "address"), JStr (escape (hex_Encode addr))); (escape key, b); (escape (str "id"), c); (escape (str "version"), d)] -> json_ok j -> fs !! filename = Some (print j) ->
  readAccount fs filename = Some (MkAccount addr (keystore_URL filename)).
Proof.
  intros Hkey Hl Hb Hz Ej Hj Hf. unfold readAccount. rewrite Hf. cbn [mbind option_bind]. rewrite first_value_print by done. cbn [mbind option_bind]. rewrite Ej, address_member by (done || by apply hex_plain). cbn [txt].
  assert (EH : HexToAddress (hex_Encode addr) = Some addr).
  { unfold HexToAddress. rewrite FromHex_hex by done. unfold BytesToAddress, Address_SetBytes. rewrite set_bytes_eq by (done || by apply len_zeros). rewrite Hl. change (AddressLength - 20) with 0. change (20 - AddressLength) with 0. change (Z.to_nat 0) with 0%nat. by rewrite drop_0. }
  rewrite EH. cbn [mbind option_bind]. by rewrite bool_decide_false by done.
Qed.

Section storages.
  Context (wb : nat) `{SecpLaws} (Keccak256 : list Z -> list Z).
  Context (aes : list Z -> option Block) (scrypt : list Z -> list Z -> Z -> Z -> Z -> Z -> option (list Z)) (pbkdf2 : list Z -> list Z -> Z -> Z -> list Z).
  Context (uuid_String uuid_Parse : list Z -> list Z) (Hwb : (0 < wb)%nat) (HS : suite_ok Keccak256 aes scrypt uuid_String uuid_Parse).
  Context (dir : list Z) (n p : Z) (skip : bool) (Hn : 0 <= n < 2 ^ 53) (Hp : 0 <= p < 2 ^ 53).

Definition storable (k : Key) : Prop := full_key (pub_of := pub_of) Keccak256 k /\ k_Address k <> zero_address.

Lemma os_Rename_file (fs fs' : files) ok from to c : fs !! from = Some c -> os_Rename fs ok from to = (fs', None) -> fs' !! to = Some c.
Proof. unfold os_Rename. intros ->. destruct ok; [|done]. intros [= <-]. apply lookup_insert_eq. Qed.
Lemma StoreKey_file fs env filename k auth fs' : StoreKey wb Keccak256 aes scrypt pbkdf2 uuid_String uuid_Parse fs (se_tmp env) (se_renames env) skip (se_salt env) (se_iv env) filename k auth n p = (fs', Ok tt) ->
  exists text, EncryptKey wb Keccak256 aes scrypt uuid_String (se_salt env) (se_iv env) k auth n p = Ok text /\ fs' !! filename = Some text.
Proof.
  unfold StoreKey. destruct (EncryptKey _ _ _ _ _ _ _ _ _ _ _) as [text|e| |]; try done. unfold writeTemporaryKeyFile. destruct (se_tmp env) as [t|]; [|done]. cbn [mbind option_bind].
  assert (Hr : match os_Rename (<[t:=text]> fs) (se_renames env) t filename with (fs0, Some e) => (fs0, Err e) | (fs0, None) => (fs0, Ok tt) end = (fs', Ok tt) -> fs' !! filename = Some text).
  { destruct (os_Rename _ _ _ _) as [fs1 [e|]] eqn:E; [done|]. intros [= <-]. eapply os_Rename_file; [|exact E]. apply lookup_insert_eq. }
  intros E. exists text. split; [done|]. apply Hr. destruct skip; [done|]. by destruct (GetKey _ _ _ _ _ _ _ _ _ _).
Qed.

#[export] Instance passphrase_laws : @KeyStorageLaws (passphrase_storage wb Keccak256 aes scrypt pbkdf2 uuid_String uuid_Parse dir n p skip) storable.
Proof.
  split; cbn [passphrase_storage st_GetKey st_StoreKey]; [by intros k [_ ?]|..].
  - intros fs addr filename auth k. unfold GetKey. destruct (fs !! filename) as [text|]; [|done]. destruct (DecryptKey _ _ _ _ _ _ _ _) as [k0|e| |]; try done. cbn [obind]. destruct (bool_decide (k_Address k0 = addr)) eqn:E; [|done]. apply bool_decide_eq_true in E. by intros [= <-].
  - intros fs env filename k auth fs' [Hk Hz] (Ht & Hsalt & Hivb & Hivl) E. destruct (StoreKey_file _ _ _ _ _ _ E) as (text & Et & Hf). split.
    + destruct (se_tmp env) as [t|] eqn:Etmp; [|unfold StoreKey in E; rewrite Et in E; done]. pose proof (StoreKey_spec wb Keccak256 aes scrypt pbkdf2 uuid_String uuid_Parse Hwb HS (se_salt env) (se_iv env) n p Hsalt (conj Hivb Hivl) Hn Hp fs t (se_renames env) skip filename k auth Hk ltac:(congruence)) as Hspec.
      rewrite E in Hspec. destruct Hspec as [_ Hspec]. destruct (_ || _); [by destruct Hspec as [[e [=]] _]|]. apply Hspec.
    + destruct (EncryptKey_json wb Keccak256 aes scrypt uuid_String uuid_Parse Hwb HS (se_salt env) (se_iv env) n p Hsalt (conj Hivb Hivl) k auth text Hk Et) as (dk & ct & -> & Hok). pose proof (encode_ok key_v3_type key_v3_type_ok _ Hok) as Hj.
      eapply (readAccount_key fs' filename (str "crypto")); [by left|apply Hk|apply Hk|done| |exact Hj|exact Hf]. reflexivity.
  - intros fs env filename k auth fs' res [Hk Hz] (Ht & Hsalt & Hivb & Hivl) E. destruct (se_tmp env) as [t|] eqn:Etmp.
    + pose proof (StoreKey_spec wb Keccak256 aes scrypt pbkdf2 uuid_String uuid_Parse Hwb HS (se_salt env) (se_iv env) n p Hsalt (conj Hivb Hivl) Hn Hp fs t (se_renames env) skip filename k auth Hk ltac:(congruence)) as Hspec.
      rewrite E in Hspec. destruct Hspec as [Hf Hspec]. split; [intros f H1 H2; apply Hf; [done|congruence]|]. intros Hne. destruct (_ || _); [by destruct Hspec as [[e ->] ?]; split; [|exists e]|]. by destruct Hspec as [-> _].
    + unfold StoreKey in E. pose proof (EncryptKey_text wb Keccak256 aes scrypt pbkdf2 uuid_String uuid_Parse Hwb HS (se_salt env) (se_iv env) n p Hsalt (conj Hivb Hivl) Hn Hp k auth Hk) as HE. destruct (scrypt auth _ _ _ _ _) as [dk|]; [destruct HE as (ct & HE & _)|]; rewrite HE in E; cbn in E; injection E as <- <-; (split; [done|]; intros _; split; [done|by eexists]).
Qed.

#[export] Instance plain_laws : @KeyStorageLaws (plain_storage wb uuid_String uuid_Parse dir) storable.
Proof.
  split; cbn [plain_storage st_GetKey st_StoreKey]; [by intros k [_ ?]|..].
  - intros fs addr filename auth k. unfold plain_GetKey. destruct (fs !! filename) as [text|]; [|done]. destruct (first_value text) as [j|]; [|done]. destruct (Key_UnmarshalJSON _ _ _) as [k0|e| |]; try done. cbn [obind]. destruct (bool_decide (k_Address k0 = addr)) eqn:E; [|done]. apply bool_decide_eq_true in E. by intros [= <-].
  - intros fs env filename k auth fs' [Hk Hz] (Ht & _) E. unfold plain_StoreKey, writeKeyFile, writeTemporaryKeyFile in E. destruct (se_tmp env) as [t|]; [|done]. cbn [mbind option_bind] in E. destruct (os_Rename _ _ _ _) as [fs1 [e|]] eqn:Er; [done|]. injection E as <-. apply os_Rename_file with (c := Key_MarshalJSON wb uuid_String k) in Er; [|apply lookup_insert_eq]. split.
    + rewrite (plain_GetKey_text wb Keccak256 aes scrypt uuid_String uuid_Parse Hwb HS k fs1 filename (k_Address k) Hk Er). by rewrite bool_decide_true.
    + eapply (readAccount_key fs1 filename (str "privatekey")); [by right|apply Hk|apply Hk|done| |apply (encode_ok plain_key_type plain_key_type_ok _ (plain_key_ok wb Keccak256 aes scrypt uuid_String uuid_Parse Hwb HS k Hk))|exact Er]. reflexivity.
  - intros fs env filename k auth fs' res [Hk Hz] (Ht & _) E. unfold plain_StoreKey, writeKeyFile, writeTemporaryKeyFile in E. destruct (se_tmp env) as [t|]; [|cbn in E; injection E as <- <-; split; [done|]; intros _; split; [done|by eexists]]. cbn [mbind option_bind] in E. unfold os_Rename in E.
    assert (EL : (<[t:=Key_MarshalJSON wb uuid_String k]> fs : files) !! t = Some (Key_MarshalJSON wb uuid_String k)) by apply lookup_insert_eq. destruct (se_renames env); [rewrite EL in E|]; injection E as <- <-.
    + split; [|done]. intros f H1 H2. rewrite lookup_insert_ne, lookup_delete_ne, lookup_insert_ne by congruence. done.
    + split; [intros f H1 H2; rewrite lookup_insert_ne by congruence; done|]. intros _. split; [rewrite lookup_insert_ne by congruence; done|by eexists].
Qed.
End storages.

(** ** The life of an account *)

Section lifecycle.
  Context (wb : nat) `{Secp256k1} (Keccak256 : list Z -> list Z) (ToSlice : gset (list Z) -> list (list Z)) `{KeyStorageLaws}.

(** The index is in order, the watcher runs, the wallets are in order and the keys
    that are unlocked are those of their addresses. *)
Record keystore_ok (ks : KeyStore) : Prop := {
  kk_cache : cache_ok (ks_cache ks);
  kk_running : w_running (ks_cache ks) = true;
  kk_wallets : distinct_wallets (ks_wallets ks);
  kk_locks : locks_ok (fun addr k => k_Address k = addr) (ks_locks ks)
}.

Lemma unlock_fresh l addr key timeout : l_unlocked l !! addr = None -> exists l', unlock_with l addr key timeout = Some l' /\ unlocked_key l' addr = Some key.
Proof.
  intros Ha. unfold unlock_with. rewrite Ha. eexists. split; [done|]. unfold unlocked_key, install. destruct (0 <? timeout); cbn [l_unlocked l_objects]; rewrite lookup_insert_eq; cbn [mbind option_bind]; by rewrite lookup_app_r, Nat.sub_diag by done.
Qed.
(** A refresh with a running watcher keeps the accounts, the files and the keys. *)
Lemma refresh_running ks r : cache_ok (ks_cache ks) -> w_running (ks_cache ks) = true -> distinct_wallets (ks_wallets ks) -> exists ws feed,
  refreshWallets ToSlice ks r = MkKeyStore (ks_cache ks) (ks_files ks) (ks_locks ks) ws feed (ks_updating ks) (ks_subscribers ks) /\ distinct_wallets ws /\
  forall a, MkWallet a ∈ ws <-> a ∈ ac_all (ks_cache ks) /\ unchanged (ks_wallets ks) a.
Proof.
  intros Hc Hr Hd. unfold refreshWallets, KeyStore_Accounts. rewrite running_reload by done. destruct (refresh_loop_spec (ac_all (ks_cache ks)) (ks_wallets ks) [] [] (ok_sorted _ Hc) Hd) as (new & evs & -> & K1 & K2 & _); [by intros w a Hw%elem_of_nil|].
  exists new, (ks_feed ks ++ evs). split_and!; [done|done|]. intros a. rewrite K2. split; [by intros (b & Hb & [= <-] & Hu)|intros [Ha Hu]; by exists a].
Qed.
(** The only account of an address that had none. *)
Lemma find_added ac a : accounts_of ac (a_Address a) = [] -> (forall b, b ∈ ac_all ac -> a_URL b <> a_URL a) -> a_Address a <> zero_address -> cache_find (cache_add ac a) (MkAccount (a_Address a) (MkURL [] [])) = inr a.
Proof.
  intros Hn Hu Hz. assert (E : accounts_of (cache_add ac a) (a_Address a) = [a]).
  { unfold cache_add. cbv zeta. rewrite bool_decide_false; [|intros E; apply list_elem_of_lookup_2 in E; by apply (Hu a)]. rewrite accounts_of_insert, bool_decide_true by done. by rewrite Hn. }
  unfold cache_find. cbn [a_Address a_URL u_Path]. rewrite (bool_decide_false (a_Address a = _)) by done. rewrite (bool_decide_true ([] = [])) by done. by rewrite E.
Qed.
Lemma cache_add_frame ac a : w_running (cache_add ac a) = w_running ac.
Proof. unfold cache_add. cbv zeta. by case_bool_decide. Qed.

(** C13: A key that is imported is cached, stored and signs.  An address that is
    known is refused, and nothing changes.  Otherwise, with a new file name: when
    the storage fails, accounts, wallets and the file are what they were; when it
    succeeds, the cache has the account besides what it had, its file holds the
    account, there is a wallet for it, and unlocking the address with the
    passphrase makes it sign hashes and transactions with the imported key. *)
Theorem imported_key_signs ks r1 r2 ts env key passphrase : keystore_ok ks -> stored key ->
  let a := key_account ts key in env_ok env (u_Path (a_URL a)) -> (forall b, b ∈ ac_all (ks_cache ks) -> a_URL b <> a_URL a) -> unchanged (ks_wallets ks) a ->
  if bool_decide (accounts_of (ks_cache ks) (k_Address key) = []) then
    match import_new ToSlice ks r1 r2 ts env key passphrase with
    | (ks', Ok a') => a' = a /\ keystore_ok ks' /\ (forall b, b ∈ ac_all (ks_cache ks') <-> b = a \/ b ∈ ac_all (ks_cache ks)) /\ readAccount (ks_files ks') (u_Path (a_URL a)) = Some a /\ MkWallet a ∈ ks_wallets ks' /\
        (l_unlocked (ks_locks ks) !! k_Address key = None -> forall r timeout, exists ks2, TimedUnlock ToSlice ks' r (MkAccount (k_Address key) (MkURL [] [])) passphrase timeout = (ks2, Ok tt) /\
           (forall hash, SignHash wb ks2 a hash = match crypto_Sign wb hash (k_PrivateKey key) with inl e => inl (ECrypto e) | inr sig => inr sig end) /\
           (forall eb tx chainID, KeyStore_SignTx wb Keccak256 ks2 a eb tx chainID = sign_with wb Keccak256 eb tx chainID (k_PrivateKey key)))
    | (ks', Err e) => ks_cache ks' = ks_cache ks /\ ks_wallets ks' = ks_wallets ks /\ ks_files ks' !! u_Path (a_URL a) = ks_files ks !! u_Path (a_URL a)
    | _ => False
    end
  else import_new ToSlice ks r1 r2 ts env key passphrase = (ks, Err EExists).
Proof.
  intros [Hc Hr Hw Hl] Hk a Henv Hnew Hun. unfold import_new, HasAddress. rewrite running_reload by done. case_bool_decide as Ek; cbn [negb]; [|done]. unfold importKey, store_account. fold a.
  destruct (st_StoreKey (ks_files ks) env (u_Path (a_URL a)) key passphrase) as [fs res] eqn:Es. destruct (st_frame _ _ _ _ _ _ _ Hk Henv Es) as [_ Hfail].
  assert (Hres : res = Ok tt \/ res <> Ok tt) by (destruct res as [[]| | |]; auto). destruct Hres as [->|Hne]; [|destruct (Hfail Hne) as [Hf [e ->]]; cbn; done]. destruct (st_stored _ _ _ _ _ _ Hk Henv Es) as [Hget Hread]. cbn [lift_key obind add_account].
  destruct (cache_add_spec (ks_cache ks) a Hc eq_refl) as [Hc' Hm]; [intros b Hb Eb; by destruct (Hnew b Hb)|].
  destruct (refresh_running (with_cache (with_files ks fs) (cache_add (ks_cache (with_files ks fs)) a)) r2) as (ws & feed & -> & Hd & Hws); [done|cbn; by rewrite cache_add_frame|done|]. cbn [with_cache with_files ks_cache ks_files ks_locks ks_wallets ks_updating ks_subscribers] in *.
  assert (Hrun : w_running (cache_add (ks_cache ks) a) = true) by (by rewrite cache_add_frame). split; [done|]. split; [by split|]. split; [exact Hm|]. split; [exact Hread|]. split; [apply Hws; split; [apply Hm; by left|done]|].
  intros Hlock r timeout. unfold TimedUnlock, getDecryptedKey, KeyStore_Find. rewrite running_reload by done. cbn [ks_cache ks_files ks_locks]. change (k_Address key) with (a_Address a) at 1. rewrite find_added by (done || by apply st_nonzero). change (a_Address a) with (k_Address key). rewrite Hget. cbn [lift_key obind].
  cbn [ks_locks]. change (a_Address a) with (k_Address key). destruct (unlock_fresh (ks_locks ks) (k_Address key) key timeout Hlock) as (l' & -> & Hkey). eexists. split; [done|]. unfold SignHash, KeyStore_SignTx. cbn [with_locks ks_locks]. change (a_Address a) with (k_Address key). by rewrite Hkey.
Qed.

(** C19: Deleting and updating an account.  Both resolve the account first and fail,
    with nothing changed, when it has no match or its key is not decrypted.  With
    the key decrypted, Delete removes the file, then exactly this account and its
    wallet; when the file cannot be removed nothing changes.  Update makes the new
    passphrase open the same key, or leaves the file as it was. *)
Theorem delete_and_update ks r1 r2 env a passphrase : keystore_ok ks ->
  match cache_find (ks_cache ks) a with
  | inl e => (forall removes, KeyStore_Delete ToSlice ks r1 r2 removes a passphrase = (ks, Err (EFind e))) /\ (forall newPassphrase, Update ToSlice ks r1 env a passphrase newPassphrase = (ks, Err (EFind e)))
  | inr b =>
      match st_GetKey (ks_files ks) (a_Address b) (u_Path (a_URL b)) passphrase with
      | Ok key =>
          (forall removes, let '(ks', res) := KeyStore_Delete ToSlice ks r1 r2 removes a passphrase in
             if removes && bool_decide (is_Some (ks_files ks !! u_Path (a_URL b))) then
               res = Ok tt /\ keystore_ok ks' /\ ks_files ks' = delete (u_Path (a_URL b)) (ks_files ks) /\ (forall c, c ∈ ac_all (ks_cache ks') <-> c ∈ ac_all (ks_cache ks) /\ c <> b) /\ MkWallet b ∉ ks_wallets ks'
             else res = Err ERemove /\ ks' = ks) /\
          (forall newPassphrase, stored key -> env_ok env (u_Path (a_URL b)) ->
             match Update ToSlice ks r1 env a passphrase newPassphrase with
             | (ks', Ok tt) => st_GetKey (ks_files ks') (a_Address b) (u_Path (a_URL b)) newPassphrase = Ok key /\ ks_cache ks' = ks_cache ks
             | (ks', Err _) => ks_files ks' !! u_Path (a_URL b) = ks_files ks !! u_Path (a_URL b) /\ ks_cache ks' = ks_cache ks
             | _ => False
             end)
      | Err e => (forall removes, KeyStore_Delete ToSlice ks r1 r2 removes a passphrase = (ks, Err (EKey e))) /\ (forall newPassphrase, Update ToSlice ks r1 env a passphrase newPassphrase = (ks, Err (EKey e)))
      | _ => True
      end
  end.
Proof.
  intros [Hc Hr Hw Hl]. unfold KeyStore_Delete, Update, getDecryptedKey, KeyStore_Find. rewrite running_reload by done. destruct (cache_find (ks_cache ks) a) as [e|b]; [done|]. destruct (st_GetKey _ _ _ _) as [key|e| |] eqn:Eg; cbn [lift_key obind]; try done. pose proof (st_address _ _ _ _ _ Eg) as Ha. split.
  - intros removes. destruct (removes && _); [|done]. destruct (cache_delete_spec (ks_cache ks) b Hc) as [Hc' Hm].
    destruct (refresh_running (with_cache (with_files ks (delete (u_Path (a_URL b)) (ks_files ks))) (cache_delete (ks_cache (with_files ks (delete (u_Path (a_URL b)) (ks_files ks)))) b)) r2) as (ws & feed & -> & Hd & Hws); [done|done|done|]. cbn [with_cache with_files ks_cache ks_files ks_locks ks_wallets] in *.
    split_and!; [done|by split|done|exact Hm|]. intros Hin. apply Hws in Hin as [Hin _]. by apply Hm in Hin as [_ []].
  - intros newPassphrase Hk Henv. destruct (st_StoreKey _ _ _ _ _) as [fs res] eqn:Es. destruct (st_frame _ _ _ _ _ _ _ Hk Henv Es) as [_ Hfail].
    assert (Hres : res = Ok tt \/ res <> Ok tt) by (destruct res as [[]| | |]; auto). destruct Hres as [->|Hne]; [|destruct (Hfail Hne) as [Hf [e ->]]; cbn; done]. destruct (st_stored _ _ _ _ _ _ Hk Henv Es) as [Hget _]. cbn. split; [|done]. by rewrite <- Ha.
Qed.
End lifecycle.

(** ** Samples *)

Definition sample_storage : KeyStorage := @passphrase_storage 8 one_point_library toy_keccak toy_aes toy_scrypt (fun _ _ _ _ => []) hex_Encode (fun s => fst (hex_Decode s)) (str "/k") 4096 6 false.
Lemma sample_laws : @KeyStorageLaws sample_storage (storable (pub_of := fun _ => (curve_Gx, curve_Gy)) toy_keccak).
Proof. apply (@passphrase_laws 8 one_point_library _ one_point_laws); [lia|apply toy_suite|lia|lia]. Qed.
Definition sample_time : Time := MkTime 2020 1 2 3 4 5 6 (str "UTC") 0.
Definition sample_env : StoreEnv := MkEnv (Some (str "/k/.tmp")) true (replicate 32 3) (replicate 16 4).
Example sample_name : keyFileName sample_time (be_bytes 2 258) = str "UTC--2020-01-02T03-04-05.000000006Z--0102".
Proof. vm_compute. reflexivity. Qed.
Lemma sample_storable : storable (pub_of := fun _ => (curve_Gx, curve_Gy)) toy_keccak toy_stored_key.
Proof. split; [apply toy_stored_key_ok|]. vm_compute. discriminate. Qed.
Lemma sample_keystore_ok : keystore_ok sample_keystore.
Proof. split; [exact sample_added_ok|reflexivity|constructor|apply no_locks_ok]. Qed.
Lemma sample_env_ok f : f <> str "/k/.tmp" -> env_ok sample_env f.
Proof. intros Hf. split; [intros [= E]; done|]. split; [apply toy_salt|apply toy_iv]. Qed.

Lemma sample_import : exists ks', import_new elements (H0 := sample_storage) sample_keystore (false, None) (false, None) sample_time sample_env toy_stored_key (str "pass") = (ks', Ok (key_account (H0 := sample_storage) sample_time toy_stored_key)).
Proof.
  assert (E : snd (import_new elements (H0 := sample_storage) sample_keystore (false, None) (false, None) sample_time sample_env toy_stored_key (str "pass")) = Ok (key_account (H0 := sample_storage) sample_time toy_stored_key)) by (vm_compute; reflexivity).
  destruct (import_new _ _ _ _ _ _ _ _) as [ks' res]. cbn in E. exists ks'. by rewrite E.
Qed.

Lemma imported_key_signs_witness : exists ks' a, import_new elements (H0 := sample_storage) sample_keystore (false, None) (false, None) sample_time sample_env toy_stored_key (str "pass") = (ks', Ok a) /\
  MkWallet a ∈ ks_wallets ks' /\ exists ks2, TimedUnlock elements (H0 := sample_storage) ks' (false, None) (MkAccount toy_address (MkURL [] [])) (str "pass") 60 = (ks2, Ok tt).
Proof.
  destruct sample_import as [ks' E].
  pose proof (@imported_key_signs 8 one_point_library toy_keccak elements sample_storage _ sample_laws sample_keystore (false, None) (false, None) sample_time sample_env toy_stored_key (str "pass") sample_keystore_ok sample_storable) as HT. cbv zeta in HT.
  rewrite bool_decide_true in HT by (vm_compute; reflexivity). rewrite E in HT. destruct HT as (_ & _ & _ & _ & H1 & H2).
  - apply sample_env_ok. vm_compute. discriminate.
  - intros b Hb. assert (Eb : b = sample_account 4 "/k/d") by (by apply list_elem_of_singleton in Hb). subst b. vm_compute. discriminate.
  - intros w Hw. apply elem_of_nil in Hw. destruct Hw.
  - exists ks', (key_account (H0 := sample_storage) sample_time toy_stored_key). split; [exact E|]. split; [exact H1|]. assert (HN : l_unlocked (ks_locks sample_keystore) !! k_Address toy_stored_key = None) by apply lookup_empty. destruct (H2 HN (false, None) 60) as (ks2 & E2 & _). exists ks2. exact E2.
Defined.

(** A plain key file for the account of the sample. *)
Definition sample_plain : KeyStorage := @plain_storage 8 one_point_library hex_Encode (fun s => fst (hex_Decode s)) (str "/k").
Lemma sample_plain_laws : @KeyStorageLaws sample_plain (storable (pub_of := fun _ => (curve_Gx, curve_Gy)) toy_keccak).
Proof. apply (@plain_laws 8 one_point_library _ one_point_laws toy_keccak toy_aes toy_scrypt); [lia|apply toy_suite]. Qed.
Definition sample_plain_file : list Z := Key_MarshalJSON 8 hex_Encode (MkKey (replicate 16 1) (be_bytes 20 4) (PrivKey 1 (curve_Gx, curve_Gy))).
Definition sample_plain_keystore : KeyStore := MkKeyStore sample_added {[ str "/k/d" := sample_plain_file ]} (no_locks 0) [] [] false 0.
Lemma delete_and_update_witness : exists ks', KeyStore_Delete elements (H0 := sample_plain) sample_plain_keystore (false, None) (false, None) true (MkAccount (be_bytes 20 4) (MkURL [] [])) [] = (ks', Ok tt) /\ ks_files ks' !! str "/k/d" = None /\ sample_account 4 "/k/d" ∉ ac_all (ks_cache ks').
Proof.
  assert (Hok : keystore_ok sample_plain_keystore) by (split; [exact sample_added_ok|reflexivity|constructor|apply no_locks_ok]).
  pose proof (@delete_and_update elements sample_plain _ sample_plain_laws sample_plain_keystore (false, None) (false, None) sample_env (MkAccount (be_bytes 20 4) (MkURL [] [])) [] Hok) as HT.
  assert (E1 : cache_find (ks_cache sample_plain_keystore) (MkAccount (be_bytes 20 4) (MkURL [] [])) = inr (sample_account 4 "/k/d")) by (vm_compute; reflexivity). rewrite E1 in HT.
  assert (E2 : exists k, st_GetKey (KeyStorage := sample_plain) (ks_files sample_plain_keystore) (a_Address (sample_account 4 "/k/d")) (u_Path (a_URL (sample_account 4 "/k/d"))) [] = Ok k) by (eexists; vm_compute; reflexivity). destruct E2 as [k E2]. rewrite E2 in HT.
  destruct HT as [HT _]. specialize (HT true). destruct (KeyStore_Delete _ _ _ _ _ _ _) as [ks' res]. rewrite bool_decide_true in HT by (apply (bool_decide_unpack _); vm_compute; exact I). cbn [andb] in HT. destruct HT as (-> & _ & Ef & Hm & _). exists ks'. split; [done|]. split; [rewrite Ef; apply lookup_delete_eq|]. intros Hin. by apply Hm in Hin as [_ []].
Defined.
